(* ===== verification/_CoqProject ===== *)
-Q . S2P
Prelude.v
Digest.v
Raw.v
Merkle.v
MerkleLegacy.v
FinalityCore.v
OrderedDiff.v
FinalizerPolicy.v
ProducerSchedule.v
Qc.v
AggregatingQc.v
Finalizer.v
SafetyFile.v
SafetyRuns.v
BlockHeader.v
BlockHeaderState.v
PolicyTransitions.v
BlockAssembly.v
ForkDatabase.v
ForkTree.v
ForkRuns.v
KeyRecovery.v
BlockState.v
SignedBlock.v
ValidationTree.v
CoreAsset.v
ResourceLimits.v
ResourceRuns.v
Authority.v
AuthorityRuns.v
Authorization.v
PermissionTree.v
PermissionActions.v
PermissionRuns.v
SlotStats.v
VoteAdmission.v
VoteProcessor.v
Whitelist.v
ProtocolFeatures.v
FeatureSet.v
FeatureManager.v
FeatureRuns.v
LegacyHeaderState.v
DposFinality.v
LegacyAssembly.v
UnappliedQueue.v
SubjectiveBilling.v
ContractTables.v
TableIndex.v
TableOps.v
TableRuns.v
TablePayers.v
ActionExecution.v
ActionRuns.v
ActionTraces.v
ActionOrder.v
