(* ===== verification/Prelude.v ===== *)
(** Verification of the core of flon-core, an EOSIO/Antelope blockchain node
    with Savanna finality.

    * The program

    A node receives blocks and votes, or produces them.  [libraries/chain] is
    the consensus and execution library, [libraries/libfc] its foundation; the
    plugins and programs around them do networking, storage and command lines.
    Their core is what this library models:

    - A block header carries a claim on a quorum certificate, and differences
      of the finalizer and proposer policies.  [block_header_state] turns a
      header into the state of the chain at its block: the [finality_core]
      computes which block is final, policies are promoted when the block that
      proposed them is.
    - Finalizers vote for blocks ([finalizer], [my_finalizers_t]); a vote leaves
      the node after its safety information is durable.  Votes are admitted
      against a budget ([vote_admission]), handed to the block they are for
      ([vote_processor]), and counted ([aggregating_qc_t]) into certificates
      ([qc_t]) that later blocks carry.
    - Blocks that are not final form a tree, the [fork_database]; a
      [block_state] is a block in it, with its votes and, once executed, the
      Merkle tree of finality leaves ([valid_t]).
    - Executing a transaction checks its authorizations
      ([authorization_manager], [authority_checker]) and bills what it uses
      ([resource_limits_manager]), on this chain as gas paid in core tokens.
      The native actions of [eosio_contract.cpp] maintain accounts and
      permissions; producers are measured by [producer_slot_stats].  Contracts
      keep rows in tables with a primary and secondary indices, which they use
      through numbered iterators of their [apply_context] and whose bytes are
      billed to accounts.  Contracts notify accounts and send inline actions,
      which run in the same transaction; each run leaves a trace and a receipt.
    - Consensus changes come as protocol features: the
      [protocol_feature_set] knows them, the [protocol_feature_manager] which
      are active, and the controller activates, in the block that carries them,
      those it was told to preactivate, and takes them back with the block.
    - A chain starts before Savanna: [block_header_state_legacy] counts the
      confirmations that producers give by signing blocks (DPoS), until a block
      carries the first finalizer policy and the states are converted.
    - Around blocks, a producer keeps the transactions that wait
      ([unapplied_transaction_queue]) and bills accounts for time that no block
      paid for ([subjective_billing]).

    * The files, and the code under src/ that they model

    In the order of their dependencies; "chain" is src/libraries/chain with its
    headers in include/eosio/chain.

    - Prelude: the error monad of the development ([result], with the exceptions
      of the code as constructors and [assertion_failed] for a failing
      [assert] or an access out of range), machine integers, lists and options,
      automation.
    - Digest: [fc::sha256] as words, and block ids.
    - Raw: [fc::raw]; class [Packable], laws [PackLaws].
    - Merkle: merkle.hpp, incremental_merkle.hpp; MerkleLegacy:
      merkle_legacy.hpp, incremental_merkle_legacy.hpp.
    - FinalityCore: finality/finality_core.hpp and .cpp.
    - OrderedDiff: libfc's ordered_diff.hpp.
    - FinalizerPolicy, ProducerSchedule: finality/finalizer_policy.hpp,
      finalizer_authority.hpp, proposer_policy.hpp, producer_schedule.hpp, and
      the host functions of webassembly/privileged.cpp that propose new ones.
    - Qc, AggregatingQc: finality/qc.hpp and .cpp.
    - Finalizer, SafetyFile, SafetyRuns: finality/finalizer.hpp and .cpp,
      durable_file.hpp; the last file holds runs with failures and restarts.
    - BlockHeader, BlockHeaderState, PolicyTransitions, BlockAssembly:
      block_timestamp.hpp, block_header.hpp and .cpp, block_header_state.hpp,
      block_header_state.cpp and their helpers; the last two hold the theorems
      along chains of states.
    - ForkDatabase, ForkTree, ForkRuns: fork_database.hpp and .cpp; operations,
      what each does to the tree, runs of all of them.
    - KeyRecovery: the constructors of public keys from signatures in libfc's
      public_key.cpp, elliptic_secp256k1.cpp, elliptic_common.cpp and
      elliptic_r1.cpp.
    - BlockState, ValidationTree: block_state.hpp and .cpp.
    - SignedBlock: block.hpp and .cpp, the bytes of bitsets and certificates,
      and the constructor of [block_state] that builds and signs a block.
    - CoreAsset: name.hpp, symbol.hpp, asset.hpp, contract_table_utils.hpp and
      .cpp; class [Table], laws [TableLaws].
    - ResourceLimits, ResourceRuns: resource_limits.hpp, resource_limits.cpp and
      resource_limits_private.hpp; operations and runs of them.
    - Authority, AuthorityRuns: authority.hpp, authority_checker.hpp.
    - Authorization, PermissionTree, PermissionActions, PermissionRuns:
      authorization_manager.hpp and .cpp, permission_object.hpp,
      permission_link_object.hpp, eosio_contract.cpp; class [ResourceAccounts],
      through which actions bill RAM and which ResourceLimits implements.
    - SlotStats: producer_slot_stats.hpp, gas_fee_totals.hpp,
      webassembly/producer.cpp.
    - VoteAdmission, VoteProcessor: vote_admission.hpp, vote_processor.hpp.
    - Whitelist: whitelisted_intrinsics.cpp, genesis_intrinsics.cpp.
    - ProtocolFeatures, FeatureSet, FeatureManager: protocol_feature_manager.hpp
      and .cpp: the features and their digests, the set of those recognized, the
      manager of those activated.
    - FeatureRuns: the parts of controller.cpp that activate features (checks of
      a block's features, preactivation, start of a block, handlers of the
      builtin features, popping blocks) over the rows of
      protocol_state_object.hpp, and runs of them.
    - LegacyHeaderState: block_header_state_legacy.hpp and .cpp,
      block_state_legacy.hpp and .cpp, the genesis state of controller.cpp and
      [create_if_genesis_block] of block_state.cpp; DposFinality and
      LegacyAssembly hold the theorems along legacy chains.
    - UnappliedQueue: unapplied_transaction_queue.hpp.
    - SubjectiveBilling: subjective_billing.hpp, on the accumulator of
      ResourceLimits.
    - ContractTables, TableIndex, TableOps, TableRuns, TablePayers:
      apply_context.hpp, the tables of apply_context.cpp and
      contract_table_objects.hpp; operations, iterator caches with lookups and
      counts, what each operation does, runs of all of them, and who pays.
    - ActionExecution, ActionRuns, ActionTraces, ActionOrder: the rest of
      apply_context.cpp, the parts of transaction_context.cpp that run actions,
      trace.hpp, and the access lists of controller.cpp; definitions, requests
      and termination, traces and receipts, the order of whole transactions.

    * How code becomes definitions

    A function of the source is a function of the same name; a method takes and
    returns the state of its object; exceptions are values of [result], and an
    [assert] is a guard like a check of the library, so that a theorem "returns
    [Ok]" also says that no assertion fires.  Integers are [Z] (or [N]) with the
    wrap-around of their width written out where it can happen.  Code that holds
    a mutex for its whole body is one step; only the vote processor has finer
    steps, a thread's accesses to shared state.  The undo sessions of the
    database are rendered by discarding the state of a call that throws.

    * Parameters

    Code that is not under src/ is a parameter: SHA-256 ([sha]), BLS (class
    [Bls], laws [BlsLaws]), the curve arithmetic of libsecp256k1 and OpenSSL
    (KeyRecovery), the CRC ([crc]), the byte formats of keys (class [Packable]),
    [std::hash] of the names of intrinsics ([hash]), the comparisons of soft
    floats ([f64_lt], [f128_lt]) and the database (class [Table] in CoreAsset;
    in Authorization, FeatureRuns and ContractTables, the rows themselves).  The
    order in which the code visits the unordered map of builtin features is an
    argument, any permutation of them; so are the callbacks of the code
    (signers, validators of features, the [yield] of a loop, as a function of
    the number of the call).  The checks of block signatures are stated for any
    function [recover] that gives the key of a signature or throws; the one of
    libfc is in KeyRecovery, where only the key of a WebAuthn signature, read
    from JSON, stays a parameter.  In ActionExecution the code of contracts and
    native handlers are functions ([wasm_apply], [find_apply_handler]); theorems
    assume of the latter only that they create at most one account and do not
    touch sequence numbers.  [sizeof_metadata] is the size of a C++ object,
    [default_signature] the default value of the type of signatures, and
    transaction receipts and metadata are of any type where they are only
    stored.  Theorems take as hypotheses what they need of them (an injective
    [sha], the laws of [Bls]), and their witnesses instantiate them with
    concrete functions.  The code is that of a build without
    ENABLE_DEFERRED_TRANSACTION, which no build file defines.

    * What the theorems show

    - Finality: the core keeps its nine documented invariants, [next] meets its
      documented conditions, and the garbage-collected core says of the chain
      what the whole history says (FinalityCore).  A strong vote never
      conflicts with an earlier vote in the range it vouches for (Finalizer);
      no vote that was handed out is ever forgotten, across failed writes,
      crashes and restarts (SafetyRuns).
    - Certificates: the count of votes and its state machine are exact, what the
      node builds from one source it accepts, two quorums intersect above a third of the weight
      (Qc, AggregatingQc), with the cases where the code does otherwise stated
      as theorems.
    - Chain state: producing a block and validating it give the same state
      (BlockAssembly); the policies of every block that can still be claimed are
      found again, exactly as they were, promotion happens exactly when due (PolicyTransitions); the
      roots stored per block are those of the reference Merkle tree
      (ValidationTree, Merkle).
    - Forks: every run of operations keeps a rooted tree; walking down
      terminates; the root advances exactly onto the descendants of the new one;
      closing and opening gives the same database unless the features of a stored
      block are rejected (ForkTree, ForkRuns).
    - Resources: tokens are conserved by every run of the manager, a block's
      accounting never throws while the configured block maxima are at most 2^37
      (it does with huge ones, which nothing prevents), and conversions are exact until a product
      overflows 64 bits (ResourceRuns).
    - Authorization: the checker decides the reference notion of satisfaction
      (AuthorityRuns); an accepted transaction has every authorization it
      declares (PermissionTree); permission tables stay forests whatever actions
      run, with RAM billed exactly for what is stored, and links exist but for
      those made before a protocol feature (PermissionRuns).
    - Producers and votes: slot statistics equal their definition by counting
      (SlotStats); the vote budget refines a multiset of live tickets
      (VoteAdmission); under any interleaving of the processor's threads each vote
      in flight holds its ticket, which bounds them, and a notified pass leaves no vote of the block behind
      (VoteProcessor).
    - Protocol features: the default set recognizes every builtin feature after
      its dependencies, in whatever order they are visited (FeatureSet, for
      digests that do not collide); along every run of blocks the manager, the
      stored state and the whitelist of intrinsics agree, a validated block is
      refused for a pre-activation that cannot be granted, and popping a block
      restores what it changed (FeatureRuns).
    - Before Savanna: the proposed irreversible block is the latest one with the
      confirmations its schedule requires, itself counted, given by different
      producers; the
      irreversible block is the greatest that two thirds of the producers imply
      and does not move back while the schedule stays (DposFinality, which also
      shows how the guard against double confirmation wraps around); production
      and validation agree, and the conversion to Savanna recovers the policy
      that was put in (LegacyAssembly); the incremental legacy tree is the tree
      (MerkleLegacy).
    - Blocks: signatures are accepted exactly when their keys satisfy the
      producer's authority (BlockState); a block that was built and signed is
      accepted, and its extensions read back what was put in (SignedBlock).
    - Production: the accounts of the queue are exact in every run, clearing
      expired transactions returns and answers each once (UnappliedQueue);
      subjective bills are the sums of what was billed (SubjectiveBilling).
    - Contract tables: along every run of operations tables count their rows,
      iterators keep their rows, RAM is billed for exactly what is stored; the
      primary index is a map, and lookups and steps follow the orders of the
      indices (TableRuns).  A contract cannot make others pay who did not
      authorize its action, and the end iterator of any removed table is shown to
      lead out of defined behaviour (TablePayers).
    - Actions: whatever code asks for, notifications and inline actions end; the
      order in which they run is one that the traces determine, sequence numbers
      count in it, and traces name their ancestors (ActionRuns, ActionOrder); a
      read-only transaction changes exactly the authorization numbers of the
      accounts that its actions name (ActionOrder).

    * Bounds and fuel

    - Loops over bits: [append] of the Merkle tree looks at two bits of a 64-bit
      mask per round, so 33 rounds suffice; a variable-length integer has at most
      five bytes; a name has 13 characters and a symbol 7.
    - [calculate_merkle] at least halves its range, and its length is the fuel;
      each round of the loop of [ordered_diff] advances in one of its sequences.
    - Walking to the root of the fork database uses one more round than there are
      blocks, climbing a permission tree as many rounds as ids were given out;
      the invariants make parents older than children, and the theorems show that
      the walk ends before.
    - Adding the default features visits a feature's dependencies first, with
      one unit of fuel per feature, which a dependency order bounds; popping
      features is recursion on the vector of the activated ones.
    - The legacy tree has as many levels as its length has bits, with the length
      as fuel; [append] collapses one level per unit of depth.  Confirming blocks
      is recursion on the position in the counters.
    - Clearing expired transactions and bills removes one entry per round, so the
      number of entries is the fuel.
    - Notifying accounts takes one round per account that there can be, inline
      actions one level per unit of a 16-bit depth; [actions_terminate] shows that
      neither bound is reached.
    - The authority checker recurses as deep as its own depth limit, which is the
      structure of the recursion; the loop over slots is over the list of them.
    - Everything else is structural recursion.  Running out of fuel is an error
      that no theorem about a result returned can hide: each says [Ok] or gives
      the value.

    * Not modelled

    The rest of the controller (control flow over the parts above, mostly calls
    into the database and the thread pools) and of transaction contexts
    (deadlines, which depend on timers, and the bookkeeping around them); the
    WebAssembly runtimes; the wrapper of the
    fork database that switches between the legacy and the Savanna instance;
    block log and snapshots, which are files of serialized tables; the ABI
    serializer, which serves clients; host functions other than those named
    above; the plugins and programs, whose work is I/O; vendored and generated
    code.  What the modelled parts share with these is their argument: a block's
    transactions enter as digests, a contract's code as a function or as the
    operations that it calls. *)
From Stdlib Require Import ZArith Lia ZifyBool Sorted.
From stdpp Require Import base tactics option list list_numbers numbers strings gmap.

#[global] Open Scope Z_scope.

(** ** Exceptions and the error monad *)

(** The exception classes the modelled code throws, plus two outcomes that are
    not C++ exceptions: [assertion_failed] is a failing [assert] (abort in a
    build that keeps assertions), [undefined_behavior] an access the language
    gives no meaning to ([front] of an empty vector, an index out of range, a
    null dereference). *)
Inductive exn : Type :=
| assertion_failed
| undefined_behavior
| fc_assert_exception
| fc_exception
| out_of_range_exception
| overflow_exception
| chain_exception
| invalid_qc_claim
| finalizer_exception
| finalizer_safety_exception
| invalid_block_header_extension
| block_validate_exception
| unlinkable_block_exception
| wrong_producer
| producer_schedule_exception
| wasm_execution_error
| unactivated_key_type
| ill_formed_protocol_feature_activation
| asset_type_exception
| symbol_type_exception
| tx_gas_exception
| tx_gas_usage_exceeded
| rate_limiting_state_inconsistent
| resource_limit_exception
| calc_overflow_exception
| substraction_insufficent_exception
| block_resource_exhausted
| resource_exhausted_exception
| transaction_exception
| fork_database_exception
| fork_db_block_not_found
| wrong_signing_key
| no_block_signatures
| permission_query_exception
| authorization_exception
| logic_error
| invalid_permission
| irrelevant_auth_exception
| unsatisfied_authorization
| tx_irrelevant_sig
| unlinkable_min_permission_action
| action_validate_exception
| action_type_exception
| missing_auth_exception
| account_query_exception
| account_name_exists_exception
| database_exception
| protocol_feature_exception
| protocol_feature_validation_exception
| protocol_feature_iterator_exception
| protocol_feature_bad_block_exception
| subjective_block_production_exception
| misc_exception
| plugin_exception
| producer_double_confirm
| invalid_block_extension
| ill_formed_additional_block_signatures_extension
| tx_resource_exhaustion
| expired_tx_exception
| tx_duplicate
| tx_too_big
| table_not_in_cache
| invalid_table_iterator
| table_operation_not_permitted
| invalid_table_payer
| table_access_violation
| unauthorized_ram_usage_increase
| actor_whitelist_exception
| actor_blacklist_exception
| contract_whitelist_exception
| contract_blacklist_exception
| action_blacklist_exception.

#[global] Instance exn_eq_dec : EqDecision exn.
Proof. solve_decision. Defined.

(** The outcome of a call: a value, or the exception that left it. *)
Inductive result (A : Type) : Type :=
| Ok (a : A)
| Err (e : exn).
Arguments Ok {A} a.
Arguments Err {A} e.

#[global] Instance result_ret : MRet result := fun A => @Ok A.
#[global] Instance result_bind : MBind result :=
  fun A B f m => match m with Ok a => f a | Err e => Err e end.
#[global] Instance result_fmap : FMap result :=
  fun A B f m => match m with Ok a => Ok (f a) | Err e => Err e end.

(** [EOS_ASSERT(cond, exception, ...)] and [FC_ASSERT(cond)]. *)
Definition EOS_ASSERT (b : bool) (e : exn) : result unit :=
  if b then Ok tt else Err e.

(** [EOS_RETHROW_EXCEPTIONS(exception_type, ...)] and [EOS_CAPTURE_AND_RETHROW]:
    an exception of the chain is rethrown as it is, one of the fc library or the
    standard library is replaced by the given type; aborts and undefined
    behaviour are not caught. *)
Definition EOS_RETHROW_EXCEPTIONS {A} (exception_type : exn) (m : result A) : result A :=
  match m with
  | Err (fc_assert_exception | fc_exception | out_of_range_exception | overflow_exception | logic_error) => Err exception_type
  | m => m
  end.

(** The C [assert] macro. *)
Definition c_assert (b : bool) : result unit := EOS_ASSERT b assertion_failed.

Definition is_Ok {A} (m : result A) : bool :=
  match m with Ok _ => true | Err _ => false end.

Lemma Ok_inj {A} (a b : A) : Ok a = Ok b -> a = b.
Proof. congruence. Qed.

Lemma ret_bind {A B} (a : A) (f : A -> result B) : (Ok a ≫= f) = f a.
Proof. done. Qed.

Lemma bind_Ok {A B} (m : result A) (f : A -> result B) b :
  (m ≫= f) = Ok b <-> exists a, m = Ok a /\ f a = Ok b.
Proof. destruct m; simpl; naive_solver. Qed.

Lemma fmap_Ok {A B} (m : result A) (f : A -> B) b :
  (f <$> m) = Ok b <-> exists a, m = Ok a /\ f a = b.
Proof. destruct m; simpl; naive_solver. Qed.

Lemma bind_assoc {A B C} (m : result A) (f : A -> result B) (g : B -> result C) :
  ((m ≫= f) ≫= g) = (m ≫= fun x => f x ≫= g).
Proof. by destruct m. Qed.

Lemma EOS_ASSERT_Ok b e u : EOS_ASSERT b e = Ok u <-> b = true.
Proof. destruct b, u; simpl; naive_solver. Qed.

Lemma EOS_ASSERT_true b e : b = true -> EOS_ASSERT b e = Ok tt.
Proof. by intros ->. Qed.

Lemma c_assert_true b : b = true -> c_assert b = Ok tt.
Proof. by intros ->. Qed.

Lemma c_assert_Ok b u : c_assert b = Ok u <-> b = true.
Proof. apply EOS_ASSERT_Ok. Qed.

(** ** Machine integers *)

Definition u8 (z : Z) : Z := z mod 2 ^ 8.
Definition u32 (z : Z) : Z := z mod 2 ^ 32.
Definition u64 (z : Z) : Z := z mod 2 ^ 64.

(** Two's complement reading of the low 32 (64) bits: a C++20 conversion to
    [int32_t] ([int64_t]). *)
Definition i32 (z : Z) : Z := (z + 2 ^ 31) mod 2 ^ 32 - 2 ^ 31.
Definition i64 (z : Z) : Z := (z + 2 ^ 63) mod 2 ^ 64 - 2 ^ 63.

Definition is_u32 (z : Z) : Prop := 0 <= z < 2 ^ 32.
Definition is_u64 (z : Z) : Prop := 0 <= z < 2 ^ 64.

Lemma u32_small z : 0 <= z < 2 ^ 32 -> u32 z = z.
Proof. apply Z.mod_small. Qed.
Lemma u64_small z : 0 <= z < 2 ^ 64 -> u64 z = z.
Proof. apply Z.mod_small. Qed.
Lemma u32_range z : 0 <= u32 z < 2 ^ 32.
Proof. by apply Z.mod_pos_bound. Qed.
Lemma u64_range z : 0 <= u64 z < 2 ^ 64.
Proof. by apply Z.mod_pos_bound. Qed.
Lemma u32_u64 z : u32 (u64 z) = u32 z.
Proof. unfold u32, u64. by rewrite Z.mod_mod_divide by (by exists (2 ^ 32)). Qed.
Lemma i32_small z : - 2 ^ 31 <= z < 2 ^ 31 -> i32 z = z.
Proof. intros ?. unfold i32. rewrite Z.mod_small; lia. Qed.

(** A [bool] as the integer 0 or 1. *)
Definition Z_of_bool (b : bool) : Z := if b then 1 else 0.

(** Two numbers with no common bit: [|] and [^] are [+]. *)
Lemma land_shift_0 n a b : 0 <= n -> 0 <= a < 2 ^ n -> Z.land a (b * 2 ^ n) = 0.
Proof.
  intros Hn Ha. rewrite <- Z.shiftl_mul_pow2 by done. apply Z.bits_inj'; intros i Hi.
  rewrite Z.land_spec, Z.bits_0. destruct (Z.lt_ge_cases i n).
  - rewrite Z.shiftl_spec_low by done. apply andb_false_r.
  - rewrite <- (Z.mod_small a (2 ^ n)) by done. by rewrite Z.mod_pow2_bits_high by lia.
Qed.

Lemma lxor_shift_add n a b :
  0 <= n -> 0 <= a < 2 ^ n -> Z.lxor a (b * 2 ^ n) = a + b * 2 ^ n.
Proof. intros Hn Ha. by rewrite Z.add_nocarry_lxor by (by apply land_shift_0). Qed.

Lemma lor_shift_add n a b :
  0 <= n -> 0 <= a < 2 ^ n -> Z.lor a (b * 2 ^ n) = a + b * 2 ^ n.
Proof.
  intros Hn Ha. rewrite <- lxor_shift_add by done.
  symmetry. apply Z.lxor_lor. by apply land_shift_0.
Qed.

Lemma land_255 z : Z.land z 255 = z mod 2 ^ 8.
Proof. change 255 with (Z.ones 8). by rewrite Z.land_ones. Qed.

(** Little-endian bytes of an integer, as the machine stores it. *)
Fixpoint le_bytes (n : nat) (z : Z) : list Z :=
  match n with
  | O => []
  | S n => z mod 256 :: le_bytes n (z / 256)
  end.

Fixpoint le_value (bs : list Z) : Z :=
  match bs with
  | [] => 0
  | b :: bs => b + 256 * le_value bs
  end.

Lemma le_bytes_length n z : length (le_bytes n z) = n.
Proof. revert z; induction n; intros z; simpl; [done|by rewrite IHn]. Qed.

Lemma le_value_bytes n z : 0 <= z < 2 ^ (8 * Z.of_nat n) -> le_value (le_bytes n z) = z.
Proof.
  revert z; induction n as [|n IH]; intros z Hz; simpl.
  - change (8 * Z.of_nat 0) with 0 in Hz. lia.
  - rewrite IH; [rewrite (Z.div_mod z 256) at 3 by lia; lia|].
    replace (8 * Z.of_nat (S n)) with (8 + 8 * Z.of_nat n) in Hz by lia.
    rewrite Z.pow_add_r in Hz by lia. split.
    + apply Z.div_pos; lia.
    + apply Z.div_lt_upper_bound; lia.
Qed.

(** ** Vectors *)

(** [v.front()], [v.back()] and [v[i]]: undefined when the element is not there. *)
Definition front {A} (l : list A) : result A :=
  match l with x :: _ => Ok x | [] => Err undefined_behavior end.
Definition back {A} (l : list A) : result A :=
  match last l with Some x => Ok x | None => Err undefined_behavior end.
Definition at_index {A} (l : list A) (i : Z) : result A :=
  match (if 0 <=? i then l !! Z.to_nat i else None) with
  | Some x => Ok x
  | None => Err undefined_behavior
  end.

(** [v.empty()] and [v.size()]. *)
Definition is_empty {A} (l : list A) : bool :=
  match l with [] => true | _ => false end.
Definition vsize {A} (l : list A) : Z := Z.of_nat (length l).

Lemma back_snoc {A} (l : list A) x : back (l ++ [x]) = Ok x.
Proof. unfold back. by rewrite last_snoc. Qed.

Lemma front_drop_lookup {A} (l : list A) n x : l !! n = Some x -> front (drop n l) = Ok x.
Proof.
  revert n; induction l as [|y l IH]; intros [|n]; simpl; try naive_solver.
Qed.

Lemma at_index_lookup {A} (l : list A) i x :
  0 <= i -> l !! Z.to_nat i = Some x -> at_index l i = Ok x.
Proof.
  intros Hi Hl. unfold at_index. destruct (Z.leb_spec 0 i); [|lia]. by rewrite Hl.
Qed.

Lemma at_index_Ok {A} (l : list A) i x :
  at_index l i = Ok x <-> 0 <= i /\ l !! Z.to_nat i = Some x.
Proof.
  unfold at_index. destruct (Z.leb_spec 0 i).
  - destruct (l !! Z.to_nat i) eqn:E; naive_solver.
  - split; [done|lia].
Qed.

Lemma back_last {A} (l : list A) x : back l = Ok x <-> last l = Some x.
Proof. unfold back. destruct (last l); naive_solver. Qed.

Lemma front_head {A} (l : list A) x : front l = Ok x <-> head l = Some x.
Proof. destruct l; simpl; naive_solver. Qed.

Lemma is_empty_true {A} (l : list A) : is_empty l = true <-> l = [].
Proof. by destruct l. Qed.

(** *** Parts of lists *)

Lemma Forall_of_sublist {A} (P : A -> Prop) (l k : list A) : sublist l k -> Forall P k -> Forall P l.
Proof. induction 1; rewrite ?Forall_cons; naive_solver. Qed.

Lemma sublist_sorted {A} (R : A -> A -> Prop) (l k : list A) : sublist l k -> StronglySorted R k -> StronglySorted R l.
Proof.
  induction 1 as [|x l k Hs IH|x l k Hs IH]; intros Hk; [done| |].
  - apply StronglySorted_inv in Hk as [Hk Hx]. constructor; [by apply IH|]. by eapply Forall_of_sublist.
  - apply StronglySorted_inv in Hk as [Hk _]. by apply IH.
Qed.

Lemma filter_sorted {A} (R : A -> A -> Prop) (P : A -> Prop) `{!forall x, Decision (P x)} (l : list A) :
  StronglySorted R l -> StronglySorted R (filter P l).
Proof. apply sublist_sorted, sublist_filter. Qed.

Lemma filter_true {A} (P : A -> Prop) `{forall x, Decision (P x)} l : Forall P l -> filter P l = l.
Proof.
  induction 1 as [|x l Hx _ IH]; [done|]. rewrite filter_cons_True by done. by rewrite IH.
Qed.

(** A loop over a list whose body may throw. *)
Fixpoint fold_result {A S} (f : S -> A -> result S) (l : list A) (s : S) : result S :=
  match l with
  | [] => Ok s
  | x :: l => s ← f s x; fold_result f l s
  end.

(** An invariant of the loop that knows the part already done. *)
Lemma fold_result_ind {A S} (f : S -> A -> result S) (P : list A -> S -> Prop) l s :
  P [] s ->
  (forall done x rest s, l = done ++ x :: rest -> P done s -> exists s', f s x = Ok s' /\ P (done ++ [x]) s') ->
  exists s', fold_result f l s = Ok s' /\ P l s'.
Proof.
  intros H0 Hstep. cut (forall rest pre s, l = pre ++ rest -> P pre s -> exists s', fold_result f rest s = Ok s' /\ P l s').
  { intros H. by apply (H l [] s). }
  clear s H0. induction rest as [|x rest IH]; intros pre s Hl Hp; cbn [fold_result].
  - rewrite app_nil_r in Hl. subst pre. eauto.
  - destruct (Hstep pre x rest s Hl Hp) as (s' & -> & Hp'). cbn [mbind result_bind].
    apply (IH (pre ++ [x])); [|done]. by rewrite <- app_assoc.
Qed.

(** What the body keeps when it returns, the loop keeps when it returns. *)
Lemma fold_result_keeps {A S} (f : S -> A -> result S) (P : S -> Prop) l s s' :
  (forall s x s', P s -> f s x = Ok s' -> P s') -> P s -> fold_result f l s = Ok s' -> P s'.
Proof.
  intros Hf. revert s; induction l as [|x l IH]; intros s Hs E; cbn [fold_result] in E.
  - apply Ok_inj in E as <-. done.
  - apply bind_Ok in E as (s1 & E1 & E). eauto.
Qed.

(** ** Rows with a key *)

Lemma fmap_NoDup_inj {A B} (f : A -> B) (l : list A) x y : NoDup (f <$> l) -> x ∈ l -> y ∈ l -> f x = f y -> x = y.
Proof.
  induction l as [|z l IH]; [by intros _ ?%not_elem_of_nil|]. rewrite fmap_cons, NoDup_cons. intros [Hz Hd].
  rewrite !elem_of_cons. intros [->|Hx] [->|Hy] E; [done| | |by apply IH].
  - destruct Hz. rewrite E. apply list_elem_of_fmap. eauto.
  - destruct Hz. rewrite <- E. apply list_elem_of_fmap. eauto.
Qed.

Lemma find_Some {A} (f : A -> bool) (l : list A) x : List.find f l = Some x -> x ∈ l /\ f x = true.
Proof. intros E. apply List.find_some in E as [Hin Hf]. split; [by apply list_elem_of_In|done]. Qed.

Lemma find_None {A} (f : A -> bool) (l : list A) x : List.find f l = None -> x ∈ l -> f x = false.
Proof. intros E Hx. eapply List.find_none; [done|by apply list_elem_of_In]. Qed.

(** Rows with a unique key are found by it. *)
Lemma find_unique {A B} (key : A -> B) (f : A -> bool) (l : list A) x :
  NoDup (key <$> l) -> (forall y, f y = true <-> key y = key x) -> x ∈ l -> List.find f l = Some x.
Proof.
  intros Hnd Hf Hx. destruct (List.find f l) as [y|] eqn:E.
  - apply find_Some in E as [Hy Hfy]. apply Hf in Hfy. f_equal. by eapply fmap_NoDup_inj.
  - pose proof (find_None _ _ _ E Hx). assert (f x = true) by (by apply Hf). congruence.
Qed.

(** ** Automation *)

Create HintDb chain.
Create Rewrite HintDb result.
#[export] Hint Resolve u32_range u64_range : chain.
#[export] Hint Rewrite @bind_Ok @fmap_Ok @EOS_ASSERT_Ok @c_assert_Ok
  @at_index_Ok @back_last @front_head : result.

(** Decompose a hypothesis that says a monadic computation returned. *)
Ltac inv_result :=
  repeat match goal with
  | H : Ok _ = Ok _ |- _ => apply Ok_inj in H; try subst
  | H : Err _ = Ok _ |- _ => discriminate H
  | H : mret _ = Ok _ |- _ => unfold mret, result_ret in H
  | H : _ ≫= _ = Ok _ |- _ =>
      apply bind_Ok in H; let a := fresh "a" in let Ha := fresh "Ha" in
      destruct H as (a & Ha & H)
  | H : EOS_ASSERT _ _ = Ok _ |- _ => apply EOS_ASSERT_Ok in H
  | H : c_assert _ = Ok _ |- _ => apply c_assert_Ok in H
  end.

(** Discharge the outermost guard of a monadic goal, with [lia] or by
    computation. *)
Ltac step_assert :=
  match goal with
  | |- context [@mbind result _ _ _ ?f (c_assert ?b)] =>
      rewrite (c_assert_true b); [rewrite ret_bind|first [done|lia]]
  | |- context [@mbind result _ _ _ ?f (EOS_ASSERT ?b ?e)] =>
      rewrite (EOS_ASSERT_true b e); [rewrite ret_bind|first [done|lia]]
  end.

(** The same, with a given tactic for the guard. *)
Tactic Notation "step_assert" "by" tactic3(t) :=
  match goal with
  | |- context [@mbind result _ _ _ ?f (c_assert ?b)] =>
      rewrite (c_assert_true b); [rewrite ret_bind|t]
  | |- context [@mbind result _ _ _ ?f (EOS_ASSERT ?b ?e)] =>
      rewrite (EOS_ASSERT_true b e); [rewrite ret_bind|t]
  end.
