(* ===== verification/Digest.v ===== *)
(** Digests and block ids: [fc::sha256] as four 64-bit words
    (libfc/include/fc/crypto/sha256.hpp), the byte reversals of
    libfc/include/fc/bitutil.hpp, and the block number that
    [block_header::calculate_id] stores in the first four bytes of an id and
    [block_header::num_from_id] reads back (chain/block_header.cpp).  The hash
    function itself (SHA-256 of OpenSSL) is a parameter wherever it is used. *)
From Stdlib Require Import ZArith Lia ZifyBool.
From stdpp Require Import base tactics numbers list.
From S2P Require Import Prelude.
#[local] Open Scope Z_scope.

(** ** fc::sha256 *)

Record sha256 : Type := Sha256 { hash0 : Z; hash1 : Z; hash2 : Z; hash3 : Z }.

#[global] Instance sha256_eq_dec : EqDecision sha256.
Proof. solve_decision. Defined.

(** The default constructor clears the words. *)
Definition sha256_zero : sha256 := Sha256 0 0 0 0.

Definition sha256_empty (h : sha256) : bool :=
  Z.lor (Z.lor (Z.lor (hash0 h) (hash1 h)) (hash2 h)) (hash3 h) =? 0.

Definition sha256_wf (h : sha256) : Prop :=
  is_u64 (hash0 h) /\ is_u64 (hash1 h) /\ is_u64 (hash2 h) /\ is_u64 (hash3 h).

(** [operator==] compares the words. *)
Definition sha256_eqb (a b : sha256) : bool :=
  (hash0 a =? hash0 b) && (hash1 a =? hash1 b) &&
  (hash2 a =? hash2 b) && (hash3 a =? hash3 b).

Lemma sha256_eqb_eq a b : sha256_eqb a b = true <-> a = b.
Proof.
  destruct a, b; unfold sha256_eqb; simpl.
  rewrite !andb_true_iff, !Z.eqb_eq. naive_solver.
Qed.

Lemma sha256_eqb_refl a : sha256_eqb a a = true.
Proof. by apply sha256_eqb_eq. Qed.

Lemma sha256_empty_zero h : sha256_empty h = true <-> h = sha256_zero.
Proof.
  destruct h as [a b c d]; unfold sha256_empty, sha256_zero; simpl.
  rewrite Z.eqb_eq, !Z.lor_eq_0_iff. naive_solver.
Qed.

(** ** Byte order *)

(** [x] is the [uint32_t] argument. *)
Definition endian_reverse_u32 (x : Z) : Z :=
  Z.lor (Z.lor (Z.lor
    (Z.land (Z.shiftr x 0x18) 0xFF)
    (u32 (Z.shiftl (Z.land (Z.shiftr x 0x10) 0xFF) 0x08)))
    (u32 (Z.shiftl (Z.land (Z.shiftr x 0x08) 0xFF) 0x10)))
    (u32 (Z.shiftl (Z.land x 0xFF) 0x18)).

Lemma endian_reverse_u32_bytes x :
  endian_reverse_u32 x =
  (x / 2 ^ 24) mod 256 + (x / 2 ^ 16) mod 256 * 2 ^ 8
  + (x / 2 ^ 8) mod 256 * 2 ^ 16 + x mod 256 * 2 ^ 24.
Proof.
  unfold endian_reverse_u32. rewrite !land_255, !Z.shiftr_div_pow2, !Z.shiftl_mul_pow2 by lia.
  change (2 ^ 0x18) with (2 ^ 24). change (2 ^ 0x10) with (2 ^ 16). change (2 ^ 0x08) with (2 ^ 8).
  pose proof (Z.mod_pos_bound (x / 2 ^ 24) (2 ^ 8) eq_refl).
  pose proof (Z.mod_pos_bound (x / 2 ^ 16) (2 ^ 8) eq_refl).
  pose proof (Z.mod_pos_bound (x / 2 ^ 8) (2 ^ 8) eq_refl).
  pose proof (Z.mod_pos_bound x (2 ^ 8) eq_refl).
  rewrite !u32_small by lia.
  rewrite (lor_shift_add 8) by lia. rewrite (lor_shift_add 16) by lia.
  rewrite (lor_shift_add 24) by lia. change 256 with (2 ^ 8). lia.
Qed.

Lemma endian_reverse_u32_range x : is_u32 (endian_reverse_u32 x).
Proof.
  rewrite endian_reverse_u32_bytes. unfold is_u32.
  pose proof (Z.mod_pos_bound (x / 2 ^ 24) 256 eq_refl).
  pose proof (Z.mod_pos_bound (x / 2 ^ 16) 256 eq_refl).
  pose proof (Z.mod_pos_bound (x / 2 ^ 8) 256 eq_refl).
  pose proof (Z.mod_pos_bound x 256 eq_refl). lia.
Qed.

Lemma endian_reverse_u32_involutive x :
  is_u32 x -> endian_reverse_u32 (endian_reverse_u32 x) = x.
Proof.
  unfold is_u32. intros Hx. rewrite !endian_reverse_u32_bytes.
  Z.to_euclidean_division_equations. lia.
Qed.

(** ** Block ids *)

(** [block_header::num_from_id]: the [uint64_t] word is converted to
    [uint32_t] by the call. *)
Definition num_from_id (id : sha256) : Z := endian_reverse_u32 (u32 (hash0 id)).

(** The last three lines of [block_header::calculate_id]: the digest of the
    header with its first four bytes replaced by the block number. *)
Definition stamp_block_num (digest : sha256) (block_num : Z) : sha256 :=
  Sha256 (u64 (Z.land (hash0 digest) 0xffffffff00000000 + endian_reverse_u32 block_num))
         (hash1 digest) (hash2 digest) (hash3 digest).

Lemma num_from_id_range id : is_u32 (num_from_id id).
Proof. apply endian_reverse_u32_range. Qed.

Lemma land_high_word z : Z.land z 0xffffffff00000000 mod 2 ^ 32 = 0.
Proof.
  change 0xffffffff00000000 with (Z.ones 32 * 2 ^ 32).
  rewrite <- Z.shiftl_mul_pow2, <- Z.land_ones by lia.
  rewrite <- Z.land_assoc. apply Z.bits_inj'; intros i Hi.
  rewrite !Z.land_spec, Z.bits_0. destruct (Z.lt_ge_cases i 32).
  - rewrite (Z.shiftl_spec_low (Z.ones 32)) by lia. by rewrite andb_false_l, andb_false_r.
  - rewrite (Z.ones_spec_high 32 i) by lia. by rewrite !andb_false_r.
Qed.

Lemma num_from_id_stamp digest n :
  is_u32 n -> num_from_id (stamp_block_num digest n) = n.
Proof.
  intros Hn. unfold num_from_id, stamp_block_num; simpl.
  pose proof (endian_reverse_u32_range n) as Hr. unfold is_u32 in Hr.
  assert (u32 (u64 (Z.land (hash0 digest) 0xffffffff00000000 + endian_reverse_u32 n))
          = endian_reverse_u32 n) as ->.
  { rewrite u32_u64. unfold u32.
    rewrite Z.add_mod, land_high_word by lia. rewrite Z.add_0_l, Z.mod_mod by lia.
    by apply Z.mod_small. }
  by apply endian_reverse_u32_involutive.
Qed.

#[export] Hint Resolve num_from_id_range endian_reverse_u32_range : chain.
