(* ===== verification/Raw.v ===== *)
(** Binary serialization: the part of [fc::raw] (libfc/include/fc/io/raw.hpp)
    that the finality code packs and unpacks.  A stream is the list of bytes
    still to be read; packing produces bytes, unpacking returns the value and
    the rest of the stream.  The class [Packable] is the interface between the
    serializer and its clients, [PackLaws] what the serializer promises: what
    was packed is read back, leaving the rest of the stream untouched. *)
From Stdlib Require Import ZArith Lia ZifyBool.
From stdpp Require Import base tactics numbers list.
From S2P Require Import Prelude Digest.
#[local] Open Scope Z_scope.

Definition MAX_NUM_ARRAY_ELEMENTS : Z := 1024 * 1024.
Definition MAX_SIZE_OF_BYTE_ARRAYS : Z := 20 * 1024 * 1024.

(** ** Streams *)

(** [datastream<const char*>::read] and [get]. *)
Definition ds_read (n : nat) (s : list Z) : result (list Z * list Z) :=
  if Nat.leb n (length s) then Ok (take n s, drop n s)
  else Err out_of_range_exception.

Definition ds_get (s : list Z) : result (Z * list Z) :=
  match s with
  | c :: s => Ok (c, s)
  | [] => Err out_of_range_exception
  end.

Lemma ds_read_app n bs rest : length bs = n -> ds_read n (bs ++ rest) = Ok (bs, rest).
Proof.
  intros <-. unfold ds_read. rewrite length_app.
  destruct (Nat.leb_spec (length bs) (length bs + length rest)); [|lia].
  by rewrite take_app_length, drop_app_length.
Qed.

(** ** The serializer's interface *)

Class Packable (A : Type) : Type := {
  pack : A -> result (list Z);
  unpack : list Z -> result (A * list Z);
  fits : A -> Prop          (* the value is one its C++ type can hold *)
}.

Class PackLaws (A : Type) `{Packable A} : Prop :=
  unpack_pack : forall (v : A) bs rest,
    fits v -> pack v = Ok bs -> unpack (bs ++ rest) = Ok (v, rest).

(** ** Fixed-width integers: their bytes in memory order *)

Definition pack_uint (n : nat) (z : Z) : result (list Z) := Ok (le_bytes n z).
Definition unpack_uint (n : nat) (s : list Z) : result (Z * list Z) :=
  '(bs, s) ← ds_read n s; mret (le_value bs, s).

Lemma unpack_pack_uint n z bs rest :
  0 <= z < 2 ^ (8 * Z.of_nat n) -> pack_uint n z = Ok bs ->
  unpack_uint n (bs ++ rest) = Ok (z, rest).
Proof.
  intros Hz [= <-]. unfold unpack_uint.
  rewrite ds_read_app by apply le_bytes_length. simpl. by rewrite le_value_bytes.
Qed.

(** ** Variable-length integers *)

(** The [do ... while (val)] loop of [pack(Stream&, const unsigned_int&)];
    [val] starts below [2^32], so five rounds are enough. *)
Fixpoint pack_varint_loop (fuel : nat) (val : Z) : list Z :=
  match fuel with
  | O => []
  | S fuel =>
      let b := Z.land (u8 val) 0x7f in
      let val := Z.shiftr val 7 in
      let b := Z.lor b (Z.shiftl (Z_of_bool (0 <? val)) 7) in
      b :: (if val =? 0 then [] else pack_varint_loop fuel val)
  end.

Definition varint_fuel : nat := 5.

Definition pack_unsigned_int (v : Z) : result (list Z) :=
  Ok (pack_varint_loop varint_fuel v).

(** The reading loop stops on a byte without the continuation bit or when
    [by] reaches 32, so it also makes at most five rounds. *)
Fixpoint unpack_varint_loop (fuel : nat) (v by_ : Z) (s : list Z) : result (Z * list Z) :=
  match fuel with
  | O => Err undefined_behavior
  | S fuel =>
      '(b, s) ← ds_get s;
      let v := Z.lor v (u32 (Z.shiftl (Z.land b 0x7f) by_)) in
      let by_ := by_ + 7 in
      if negb (Z.land b 0x80 =? 0) && (by_ <? 32)
      then unpack_varint_loop fuel v by_ s
      else Ok (v, s)
  end.

Definition unpack_unsigned_int (s : list Z) : result (Z * list Z) :=
  '(v, s) ← unpack_varint_loop varint_fuel 0 0 s; mret (u32 v, s).

(** [signed_int]: zig-zag coding on top of the same byte format. *)
Definition pack_signed_int (v : Z) : result (list Z) :=
  let val := Z.lxor (u32 (Z.shiftl v 1)) (u32 (Z.shiftr v 31)) in
  Ok (pack_varint_loop varint_fuel val).

(** This loop has no bound of its own: fuel is the number of bytes left, and a
    shift of 32 or more is undefined. *)
Fixpoint unpack_signed_loop (fuel : nat) (v by_ : Z) (s : list Z) : result (Z * list Z) :=
  match fuel with
  | O => Err out_of_range_exception
  | S fuel =>
      '(b, s) ← ds_get s;
      EOS_ASSERT (by_ <? 32) undefined_behavior;;
      let v := Z.lor v (u32 (Z.shiftl (Z.land b 0x7f) by_)) in
      if negb (Z.land b 0x80 =? 0)
      then unpack_signed_loop fuel v (by_ + 7) s
      else Ok (v, s)
  end.

Definition unpack_signed_int (s : list Z) : result (Z * list Z) :=
  '(v, s) ← unpack_signed_loop (length s) 0 0 s;
  mret (i32 (Z.lxor (Z.shiftr v 1) (u32 (Z.lnot (Z.land v 1)) + 1)), s).

(** The byte of one round: its low seven bits and its continuation bit. *)
Definition varint_byte (val : Z) : Z :=
  Z.lor (Z.land (u8 val) 0x7f) (Z.shiftl (Z_of_bool (0 <? Z.shiftr val 7)) 7).

Lemma varint_byte_sum val :
  varint_byte val = val mod 128 + Z_of_bool (0 <? val / 128) * 128.
Proof.
  unfold varint_byte. rewrite Z.shiftr_div_pow2, Z.shiftl_mul_pow2 by lia.
  change 0x7f with (Z.ones 7). rewrite Z.land_ones by lia. unfold u8.
  rewrite Z.mod_mod_divide by (by exists 2).
  apply lor_shift_add; [lia|]. by apply Z.mod_pos_bound.
Qed.

Lemma varint_byte_low val : Z.land (varint_byte val) 0x7f = val mod 128.
Proof.
  change 0x7f with (Z.ones 7). rewrite Z.land_ones, varint_byte_sum by lia.
  change (2 ^ 7) with 128. rewrite Z.mod_add, Z.mod_mod by lia. done.
Qed.

Lemma varint_byte_cont val : (Z.land (varint_byte val) 0x80 =? 0) = negb (0 <? val / 128).
Proof.
  rewrite varint_byte_sum. pose proof (Z.mod_pos_bound val 128 eq_refl) as Hm.
  set (m := val mod 128) in *. clearbody m.
  assert (Z.land (m + Z_of_bool (0 <? val / 128) * 128) 0x80 = Z_of_bool (0 <? val / 128) * 128)
    as ->.
  { pose proof (lor_shift_add 7 m (Z_of_bool (0 <? val / 128))) as E.
    change (2 ^ 7) with 128 in E. rewrite <- E by lia.
    rewrite Z.land_lor_distr_l.
    assert (Z.land m 0x80 = 0) as ->.
    { apply Z.bits_inj'; intros i Hi. rewrite Z.land_spec, Z.bits_0.
      change 0x80 with (2 ^ 7). rewrite Z.pow2_bits_eqb by lia.
      destruct (Z.eqb_spec 7 i) as [<-|]; [|by rewrite andb_false_r].
      rewrite <- (Z.mod_small m (2 ^ 7)) by lia. by rewrite Z.mod_pow2_bits_high by lia. }
    by destruct (0 <? val / 128). }
  by destruct (0 <? val / 128).
Qed.

Lemma varint_acc v val n :
  0 <= n -> 0 <= v < 2 ^ n -> 0 <= val -> n + 7 <= 39 -> (val mod 128) * 2 ^ n < 2 ^ 32 ->
  Z.lor v (u32 (Z.shiftl (val mod 128) n)) = v + (val mod 128) * 2 ^ n.
Proof.
  intros Hn Hv Hval H39 Hlt. rewrite Z.shiftl_mul_pow2 by lia.
  pose proof (Z.mod_pos_bound val 128 eq_refl). pose proof (Z.pow_pos_nonneg 2 n eq_refl Hn).
  rewrite u32_small by nia. by apply lor_shift_add.
Qed.

Lemma pack_varint_loop_S fuel val :
  pack_varint_loop (S fuel) val =
  varint_byte val :: (if val / 128 =? 0 then [] else pack_varint_loop fuel (val / 128)).
Proof.
  simpl. fold (varint_byte val). change 128 with (2 ^ 7).
  by rewrite <- Z.shiftr_div_pow2.
Qed.

(** One round of a reading loop undoes one round of the writing loop. *)
Lemma varint_round v val k :
  0 <= k -> 0 <= v < 2 ^ (7 * k) -> 0 <= val < 2 ^ (32 - 7 * k) -> 7 * k < 32 ->
  Z.lor v (u32 (Z.shiftl (Z.land (varint_byte val) 0x7f) (7 * k)))
    = v + (val mod 128) * 2 ^ (7 * k) /\
  0 <= v + (val mod 128) * 2 ^ (7 * k) < 2 ^ (7 * (k + 1)) /\
  val = val mod 128 + 128 * (val / 128).
Proof.
  intros Hk Hv Hval H32. rewrite varint_byte_low.
  pose proof (Z.mod_pos_bound val 128 eq_refl).
  pose proof (Z.mod_le val 128 ltac:(lia) eq_refl).
  pose proof (Z.pow_pos_nonneg 2 (7 * k) eq_refl ltac:(lia)).
  assert (2 ^ 32 = 2 ^ (32 - 7 * k) * 2 ^ (7 * k)) as E32
    by (rewrite <- Z.pow_add_r by lia; f_equal; lia).
  split_and!.
  - apply varint_acc; try lia. rewrite E32. apply Z.mul_lt_mono_pos_r; lia.
  - nia.
  - replace (7 * (k + 1)) with (7 * k + 7) by lia. rewrite Z.pow_add_r by lia. nia.
  - rewrite (Z.div_mod val 128) at 1 by lia. lia.
Qed.

(** A value that needs another byte leaves room for it. *)
Lemma varint_more val k :
  0 <= val < 2 ^ (32 - 7 * k) -> 0 < val / 128 ->
  7 * k + 7 < 32 /\ 0 <= val / 128 < 2 ^ (32 - 7 * (k + 1)).
Proof.
  intros Hval Hpos. assert (7 * k + 7 < 32) as Hby.
  { assert (128 <= val) by (pose proof (Z.mul_div_le val 128); lia).
    destruct (Z.lt_ge_cases (32 - 7 * k) 8); [|lia].
    assert (2 ^ (32 - 7 * k) <= 2 ^ 7) by (apply Z.pow_le_mono_r; lia). lia. }
  split; [done|]. split; [lia|]. apply Z.div_lt_upper_bound; [lia|].
  change 128 with (2 ^ 7). rewrite <- Z.pow_add_r by lia.
  replace (7 + (32 - 7 * (k + 1))) with (32 - 7 * k) by lia. lia.
Qed.

Lemma unpack_varint_loop_pack n k v val rest :
  Z.of_nat n + k = 5 -> 0 <= k -> 0 <= v < 2 ^ (7 * k) -> 0 <= val < 2 ^ (32 - 7 * k) ->
  unpack_varint_loop n v (7 * k) (pack_varint_loop n val ++ rest)
  = Ok (v + val * 2 ^ (7 * k), rest).
Proof.
  revert k v val; induction n as [|n IH]; intros k v val Hnk Hk Hv Hval.
  { replace k with 5 in Hval by lia. change (2 ^ (32 - 7 * 5)) with 0 in Hval. lia. }
  destruct (varint_round v val k) as (E1 & Hr & Ed); [lia|lia|lia|lia|].
  rewrite pack_varint_loop_S. cbn [app unpack_varint_loop ds_get mbind result_bind].
  rewrite E1, varint_byte_cont, negb_involutive.
  destruct (Z.ltb_spec 0 (val / 128)) as [Hpos|Hle].
  - pose proof (varint_more val k ltac:(lia) Hpos) as [Hby Hnext].
    destruct (Z.ltb_spec (7 * k + 7) 32); [|lia]. cbn [andb].
    destruct (Z.eqb_spec (val / 128) 0); [lia|].
    replace (7 * k + 7) with (7 * (k + 1)) by lia. rewrite IH; [f_equal; f_equal|lia|lia|lia|].
    + replace (7 * (k + 1)) with (7 * k + 7) by lia. rewrite Z.pow_add_r by lia. nia.
    + done.
  - assert (val / 128 = 0) as E0 by (pose proof (Z.div_pos val 128); lia).
    rewrite E0. cbn. rewrite E0 in Ed. do 2 f_equal. lia.
Qed.

Lemma unpack_pack_unsigned_int v bs rest :
  is_u32 v -> pack_unsigned_int v = Ok bs -> unpack_unsigned_int (bs ++ rest) = Ok (v, rest).
Proof.
  unfold is_u32. intros Hv H. unfold pack_unsigned_int in H. apply Ok_inj in H as <-. unfold unpack_unsigned_int.
  pose proof (unpack_varint_loop_pack 5 0 0 v rest) as E.
  change (7 * 0) with 0 in E. unfold varint_fuel.
  rewrite E; [|lia..]. cbn [mbind result_bind mret result_ret].
  by rewrite Z.add_0_l, Z.mul_1_r, u32_small.
Qed.

Lemma unpack_signed_loop_pack n k fuel v val rest :
  Z.of_nat n + k = 5 -> 0 <= k -> 0 <= v < 2 ^ (7 * k) -> 0 <= val < 2 ^ (32 - 7 * k) ->
  (length (pack_varint_loop n val) <= fuel)%nat ->
  unpack_signed_loop fuel v (7 * k) (pack_varint_loop n val ++ rest)
  = Ok (v + val * 2 ^ (7 * k), rest).
Proof.
  revert k v val fuel; induction n as [|n IH]; intros k v val fuel Hnk Hk Hv Hval Hf.
  { replace k with 5 in Hval by lia. change (2 ^ (32 - 7 * 5)) with 0 in Hval. lia. }
  destruct (varint_round v val k) as (E1 & Hr & Ed); [lia|lia|lia|lia|].
  assert (7 * k < 32) as Hk32 by lia.
  rewrite pack_varint_loop_S in Hf |- *. destruct fuel as [|fuel]; [simpl in Hf; lia|].
  cbn [app unpack_signed_loop ds_get mbind result_bind].
  rewrite EOS_ASSERT_true by (by apply Z.ltb_lt). cbn [mbind result_bind].
  rewrite E1, varint_byte_cont, negb_involutive.
  destruct (Z.ltb_spec 0 (val / 128)) as [Hpos|Hle].
  - pose proof (varint_more val k ltac:(lia) Hpos) as [Hby Hnext].
    destruct (Z.eqb_spec (val / 128) 0); [lia|]. simpl in Hf.
    replace (7 * k + 7) with (7 * (k + 1)) by lia.
    rewrite IH; [f_equal; f_equal|lia|lia|lia| |lia].
    + replace (7 * (k + 1)) with (7 * k + 7) by lia. rewrite Z.pow_add_r by lia. nia.
    + done.
  - assert (val / 128 = 0) as E0 by (pose proof (Z.div_pos val 128); lia).
    rewrite E0. cbn. rewrite E0 in Ed. do 2 f_equal. lia.
Qed.

Lemma lxor_ones_sub a : 0 <= a < 2 ^ 32 -> Z.lxor a (2 ^ 32 - 1) = 2 ^ 32 - 1 - a.
Proof.
  intros Ha. change (2 ^ 32 - 1) with (Z.ones 32) at 1.
  assert (Z.lxor a (Z.ones 32) = Z.lnot a mod 2 ^ 32) as ->.
  { rewrite <- Z.land_ones by lia. apply Z.bits_inj'; intros i Hi.
    rewrite Z.lxor_spec, Z.land_spec, Z.lnot_spec by lia.
    destruct (Z.lt_ge_cases i 32).
    - rewrite Z.ones_spec_low by lia. by destruct (Z.testbit a i).
    - rewrite Z.ones_spec_high by lia. rewrite <- (Z.mod_small a (2 ^ 32)) by done.
      by rewrite Z.mod_pow2_bits_high by lia. }
  unfold Z.lnot. symmetry. apply Z.mod_unique with (-1); lia.
Qed.

Lemma zigzag v :
  - 2 ^ 31 <= v < 2 ^ 31 ->
  Z.lxor (u32 (Z.shiftl v 1)) (u32 (Z.shiftr v 31)) = if 0 <=? v then 2 * v else - 2 * v - 1.
Proof.
  intros Hv. rewrite Z.shiftl_mul_pow2, Z.shiftr_div_pow2 by lia. change (2 ^ 1) with 2.
  destruct (Z.leb_spec 0 v).
  - rewrite Z.div_small by lia. rewrite (u32_small (v * 2)) by lia.
    change (u32 0) with 0. rewrite Z.lxor_0_r. lia.
  - assert (v / 2 ^ 31 = -1) as ->.
    { symmetry. apply Z.div_unique with (v + 2 ^ 31); lia. }
    change (u32 (-1)) with (2 ^ 32 - 1).
    assert (u32 (v * 2) = 2 ^ 32 + 2 * v) as ->.
    { symmetry. apply Z.mod_unique with (-1); lia. }
    rewrite lxor_ones_sub; lia.
Qed.

Lemma unzigzag v :
  - 2 ^ 31 <= v < 2 ^ 31 ->
  let w := if 0 <=? v then 2 * v else - 2 * v - 1 in
  i32 (Z.lxor (Z.shiftr w 1) (u32 (Z.lnot (Z.land w 1)) + 1)) = v.
Proof.
  intros Hv w. rewrite Z.shiftr_div_pow2 by lia. change (2 ^ 1) with 2.
  replace (Z.land w 1) with (w mod 2) by (change 1 with (Z.ones 1); by rewrite Z.land_ones).
  subst w. destruct (Z.leb_spec 0 v).
  - replace (2 * v mod 2) with 0 by (rewrite Z.mul_comm, Z.mod_mul; lia).
    replace (2 * v / 2) with v by (rewrite Z.mul_comm, Z.div_mul; lia).
    change (u32 (Z.lnot 0) + 1) with (1 * 2 ^ 32).
    rewrite lxor_shift_add by lia. unfold i32.
    replace (v + 1 * 2 ^ 32 + 2 ^ 31) with (v + 2 ^ 31 + 1 * 2 ^ 32) by lia.
    rewrite Z.mod_add, Z.mod_small by lia. lia.
  - replace ((- 2 * v - 1) mod 2) with 1 by (apply Z.mod_unique with (- v - 1); lia).
    replace ((- 2 * v - 1) / 2) with (- v - 1) by (apply Z.div_unique with 1; lia).
    change (u32 (Z.lnot 1) + 1) with (2 ^ 32 - 1). rewrite lxor_ones_sub by lia.
    unfold i32. replace (2 ^ 32 - 1 - (- v - 1) + 2 ^ 31) with (v + 2 ^ 31 + 1 * 2 ^ 32) by lia.
    rewrite Z.mod_add, Z.mod_small by lia. lia.
Qed.

Lemma unpack_pack_signed_int v bs rest :
  - 2 ^ 31 <= v < 2 ^ 31 -> pack_signed_int v = Ok bs ->
  unpack_signed_int (bs ++ rest) = Ok (v, rest).
Proof.
  intros Hv H. unfold pack_signed_int in H. apply Ok_inj in H as <-. rewrite zigzag by done.
  set (w := if 0 <=? v then 2 * v else - 2 * v - 1).
  assert (0 <= w < 2 ^ 32) by (subst w; destruct (Z.leb_spec 0 v); lia).
  unfold unpack_signed_int.
  pose proof (unpack_signed_loop_pack 5 0
    (length (pack_varint_loop 5 w ++ rest)) 0 w rest) as E.
  change (7 * 0) with 0 in E. unfold varint_fuel.
  rewrite E; [|lia..|rewrite length_app; lia]. cbn [mbind result_bind mret result_ret].
  rewrite Z.add_0_l, Z.mul_1_r. subst w. by rewrite unzigzag.
Qed.

(** ** Booleans, optionals, pairs *)

Definition pack_bool (b : bool) : result (list Z) := pack_uint 1 (Z_of_bool b).
Definition unpack_bool (s : list Z) : result (bool * list Z) :=
  '(b, s) ← unpack_uint 1 s;
  EOS_ASSERT (Z.land b (Z.lnot 1) =? 0) fc_assert_exception;;
  mret (negb (b =? 0), s).

Section Combinators.
Context {A B : Type} `{Packable A} `{Packable B}.

Definition pack_optional (v : option A) : result (list Z) :=
  match v with
  | None => pack_bool false
  | Some x => h ← pack_bool true; t ← pack x; mret (h ++ t)
  end.
Definition unpack_optional (s : list Z) : result (option A * list Z) :=
  '(b, s) ← unpack_bool s;
  if (b : bool) then '(x, s) ← unpack s; mret (Some x, s) else mret (None, s).

Definition pack_pair (v : A * B) : result (list Z) :=
  h ← pack v.1; t ← pack v.2; mret (h ++ t).
Definition unpack_pair (s : list Z) : result ((A * B) * list Z) :=
  '(x, s) ← unpack s; '(y, s) ← unpack s; mret ((x, y), s).

(** The loop over the elements of a container. *)
Fixpoint pack_elements (l : list A) : result (list Z) :=
  match l with
  | [] => Ok []
  | x :: l => h ← pack x; t ← pack_elements l; mret (h ++ t)
  end.
Fixpoint unpack_elements (n : nat) (s : list Z) : result (list A * list Z) :=
  match n with
  | O => Ok ([], s)
  | S n => '(x, s) ← unpack s; '(l, s) ← unpack_elements n s; mret (x :: l, s)
  end.

(** [std::vector<T>]: the element count, then the elements. *)
Definition pack_vector (l : list A) : result (list Z) :=
  EOS_ASSERT (vsize l <=? MAX_NUM_ARRAY_ELEMENTS) fc_assert_exception;;
  h ← pack_unsigned_int (u32 (vsize l)); t ← pack_elements l; mret (h ++ t).
Definition unpack_vector (s : list Z) : result (list A * list Z) :=
  '(n, s) ← unpack_unsigned_int s;
  EOS_ASSERT (n <=? MAX_NUM_ARRAY_ELEMENTS) fc_assert_exception;;
  unpack_elements (Z.to_nat n) s.

Context `{!PackLaws A} `{!PackLaws B}.

Lemma unpack_pack_elements l bs rest :
  Forall fits l -> pack_elements l = Ok bs ->
  unpack_elements (length l) (bs ++ rest) = Ok (l, rest).
Proof.
  revert bs; induction l as [|x l IH]; intros bs Hf Hp; simpl in *; inv_result; [done|].
  apply Forall_cons_iff in Hf as [Hx Hl]. rewrite <- app_assoc.
  rewrite (unpack_pack x) by done. simpl. by rewrite IH.
Qed.
End Combinators.

(** [std::vector<char>] and [std::string]: the length, then the bytes. *)
Definition pack_bytes (v : list Z) : result (list Z) :=
  EOS_ASSERT (vsize v <=? MAX_SIZE_OF_BYTE_ARRAYS) fc_assert_exception;;
  h ← pack_unsigned_int (u32 (vsize v)); mret (h ++ v).
Definition unpack_bytes (s : list Z) : result (list Z * list Z) :=
  '(n, s) ← unpack_unsigned_int s;
  EOS_ASSERT (n <=? MAX_SIZE_OF_BYTE_ARRAYS) fc_assert_exception;;
  ds_read (Z.to_nat n) s.

(** [fc::sha256] writes its words as they lie in memory. *)
Definition sha256_bytes (h : sha256) : list Z :=
  le_bytes 8 (hash0 h) ++ le_bytes 8 (hash1 h)
  ++ le_bytes 8 (hash2 h) ++ le_bytes 8 (hash3 h).
Definition pack_sha256 (h : sha256) : result (list Z) := Ok (sha256_bytes h).
Definition unpack_sha256 (s : list Z) : result (sha256 * list Z) :=
  '(bs, s) ← ds_read 32 s;
  mret (Sha256 (le_value (take 8 bs)) (le_value (take 8 (drop 8 bs)))
               (le_value (take 8 (drop 16 bs))) (le_value (drop 24 bs)), s).

(** ** Instances *)

(** An unsigned integer of [n] bytes, as the type its instance is attached to. *)
Record uint (n : nat) : Type := UInt { uint_value : Z }.
Arguments UInt {n} _.
Arguments uint_value {n} _.

#[global] Instance uint_eq_dec n : EqDecision (uint n).
Proof. solve_decision. Defined.

#[global] Instance Packable_uint n : Packable (uint n) := {
  pack v := pack_uint n (uint_value v);
  unpack s := '(z, s) ← unpack_uint n s; mret (UInt z, s);
  fits v := 0 <= uint_value v < 2 ^ (8 * Z.of_nat n) }.
#[global] Instance Packable_bool : Packable bool := {
  pack := pack_bool; unpack := unpack_bool; fits _ := True }.
#[global] Instance Packable_optional {A} `{Packable A} : Packable (option A) := {
  pack := pack_optional; unpack := unpack_optional;
  fits v := match v with Some x => fits x | None => True end }.
#[global] Instance Packable_pair {A B} `{Packable A} `{Packable B} : Packable (A * B) := {
  pack := pack_pair; unpack := unpack_pair; fits v := fits v.1 /\ fits v.2 }.
#[global] Instance Packable_vector {A} `{Packable A} : Packable (list A) := {
  pack := pack_vector; unpack := unpack_vector; fits := Forall fits }.
#[global] Instance Packable_sha256 : Packable sha256 := {
  pack := pack_sha256; unpack := unpack_sha256; fits := sha256_wf }.

#[global] Instance PackLaws_uint n : PackLaws (uint n).
Proof.
  intros [z] bs rest Hf Hp. simpl in *. rewrite (unpack_pack_uint n z bs rest) by done. done.
Qed.

#[global] Instance PackLaws_bool : PackLaws bool.
Proof.
  intros b bs rest _ Hp. simpl in *. unfold unpack_bool.
  rewrite (unpack_pack_uint 1 (Z_of_bool b) bs rest); [by destruct b|by destruct b|done].
Qed.

#[global] Instance PackLaws_optional {A} `{PackLaws A} : PackLaws (option A).
Proof.
  intros [x|] bs rest Hf Hp; cbn [pack unpack Packable_optional] in *;
    unfold pack_optional, unpack_optional in *; inv_result.
  - rewrite <- app_assoc. pose proof (unpack_pack true a (a0 ++ rest) I Ha) as E.
    cbn [unpack Packable_bool] in E. rewrite E. simpl.
    by rewrite (unpack_pack x a0 rest).
  - pose proof (unpack_pack false bs rest I Hp) as E.
    cbn [unpack Packable_bool] in E. by rewrite E.
Qed.

#[global] Instance PackLaws_pair {A B} `{PackLaws A} `{PackLaws B} : PackLaws (A * B).
Proof.
  intros [x y] bs rest [Hx Hy] Hp; cbn [pack unpack Packable_pair] in *;
    unfold pack_pair, unpack_pair in *; inv_result. rewrite <- app_assoc.
  rewrite (unpack_pack x) by done. simpl. by rewrite (unpack_pack y).
Qed.

Lemma vsize_u32 {A} (l : list A) m :
  (vsize l <=? m) = true -> m < 2 ^ 32 -> is_u32 (vsize l).
Proof. unfold vsize, is_u32. lia. Qed.

#[global] Instance PackLaws_vector {A} `{PackLaws A} : PackLaws (list A).
Proof.
  intros l bs rest Hf Hp; cbn [pack unpack Packable_vector fits] in *;
    unfold pack_vector, unpack_vector in *; inv_result. rename Ha into Hm.
  pose proof (vsize_u32 l _ Hm eq_refl) as Hu. rewrite u32_small in Ha0 by done.
  rewrite <- app_assoc, (unpack_pack_unsigned_int (vsize l)) by done.
  cbn [mbind result_bind]. rewrite EOS_ASSERT_true by done. cbn [mbind result_bind].
  unfold vsize. rewrite Nat2Z.id. by apply unpack_pack_elements.
Qed.

#[global] Instance PackLaws_sha256 : PackLaws sha256.
Proof.
  intros [a b c d] bs rest (Ha & Hb & Hc & Hd) Hp. simpl in *.
  unfold pack_sha256, sha256_bytes in Hp; apply Ok_inj in Hp as <-. unfold unpack_sha256.
  rewrite ds_read_app by (by rewrite !length_app, !le_bytes_length).
  cbn [mbind result_bind hash0 hash1 hash2 hash3].
  unfold is_u64 in *. do 2 f_equal.
  pose proof (le_bytes_length 8 a). pose proof (le_bytes_length 8 b).
  pose proof (le_bytes_length 8 c).
  f_equal; [rewrite take_app_length'|rewrite drop_app_length', take_app_length'
   |rewrite app_assoc, drop_app_length', take_app_length'
   |rewrite !app_assoc, drop_app_length'];
   rewrite ?length_app; try lia; by apply le_value_bytes.
Qed.

Lemma unpack_pack_bytes v bs rest :
  pack_bytes v = Ok bs -> unpack_bytes (bs ++ rest) = Ok (v, rest).
Proof.
  unfold pack_bytes, unpack_bytes. intros Hp. inv_result. rename Ha into Hm.
  pose proof (vsize_u32 v _ Hm eq_refl) as Hu. rewrite u32_small in Ha0 by done.
  rewrite <- app_assoc, (unpack_pack_unsigned_int (vsize v)) by done.
  cbn [mbind result_bind]. rewrite EOS_ASSERT_true by done. cbn [mbind result_bind].
  unfold vsize. rewrite Nat2Z.id. by apply ds_read_app.
Qed.

(** A byte array that is packed in one piece ([std::string], [std::vector<char>]). *)
Record blob : Type := Blob { blob_bytes : list Z }.

#[global] Instance blob_eq_dec : EqDecision blob.
Proof. solve_decision. Defined.

#[global] Instance Packable_blob : Packable blob := {
  pack v := pack_bytes (blob_bytes v);
  unpack s := '(v, s) ← unpack_bytes s; mret (Blob v, s);
  fits _ := True }.

#[global] Instance PackLaws_blob : PackLaws blob.
Proof.
  intros [v] bs rest _ Hp. cbn [pack unpack Packable_blob blob_bytes] in *.
  by rewrite (unpack_pack_bytes v bs rest Hp).
Qed.

(** ** Reflected structs *)

(** [FC_REFLECT] packs the members of a struct in the listed order: the struct
    is packed like the nested pair of its members. *)
Definition Packable_struct {A B} `{Packable B} (members : A -> B) (make : B -> A) : Packable A := {|
  pack v := pack (members v);
  unpack s := '(m, s) ← unpack s; mret (make m, s);
  fits v := fits (members v) |}.

Lemma PackLaws_struct {A B} `{PackLaws B} (members : A -> B) (make : B -> A) :
  (forall v, make (members v) = v) -> @PackLaws A (Packable_struct members make).
Proof.
  intros Hm v bs rest Hf Hp. cbn [pack unpack fits Packable_struct] in *.
  rewrite (unpack_pack _ bs rest Hf Hp), ret_bind. unfold mret, result_ret. by rewrite Hm.
Qed.

(** Packing is injective on the values of the type, whatever follows. *)
Lemma pack_inj {A} `{PackLaws A} (v w : A) bs cs rest rest' :
  fits v -> fits w -> pack v = Ok bs -> pack w = Ok cs -> bs ++ rest = cs ++ rest' ->
  v = w /\ rest = rest'.
Proof.
  intros Hv Hw Ev Ew E. pose proof (unpack_pack v bs rest Hv Ev) as H1.
  rewrite E, (unpack_pack w cs rest' Hw Ew) in H1. by apply Ok_inj in H1 as [= -> ->].
Qed.

Definition pack_u32 (z : Z) : result (list Z) := pack_uint 4 z.
Definition pack_u64 (z : Z) : result (list Z) := pack_uint 8 z.

(** ** Decoded values are in range *)

(** Whatever bytes arrive, a value that [unpack] returns is one its C++ type
    can hold. *)
Definition bytes_ok (s : list Z) : Prop := Forall (fun b => 0 <= b < 256) s.

Class UnpackRange (A : Type) `{Packable A} : Prop :=
  unpack_fits : forall s (v : A) rest,
    bytes_ok s -> unpack s = Ok (v, rest) -> fits v /\ bytes_ok rest.

Lemma le_value_range bs : bytes_ok bs -> 0 <= le_value bs < 2 ^ (8 * Z.of_nat (length bs)).
Proof.
  induction 1 as [|b bs Hb Hbs IH]; cbn [le_value length]; [lia|].
  replace (8 * Z.of_nat (S (length bs))) with (8 + 8 * Z.of_nat (length bs)) by lia.
  rewrite Z.pow_add_r by lia. lia.
Qed.

Lemma ds_read_ok n s bs rest :
  bytes_ok s -> ds_read n s = Ok (bs, rest) -> bytes_ok bs /\ length bs = n /\ bytes_ok rest.
Proof.
  unfold ds_read, bytes_ok. intros Hs H. destruct (Nat.leb_spec n (length s)); [|done].
  apply Ok_inj in H as [= <- <-]. split_and!; [by apply Forall_take| |by apply Forall_drop].
  rewrite length_take. lia.
Qed.

Lemma unpack_uint_ok n s z rest :
  bytes_ok s -> unpack_uint n s = Ok (z, rest) -> 0 <= z < 2 ^ (8 * Z.of_nat n) /\ bytes_ok rest.
Proof.
  unfold unpack_uint. intros Hs H. apply bind_Ok in H as ([bs r] & E & H).
  apply Ok_inj in H as [= <- <-]. apply ds_read_ok in E as (Hb & <- & Hr); [|done].
  split; [by apply le_value_range|done].
Qed.

Lemma unpack_varint_loop_ok fuel v by_ s w rest :
  bytes_ok s -> unpack_varint_loop fuel v by_ s = Ok (w, rest) -> bytes_ok rest.
Proof.
  revert v by_ s; induction fuel as [|fuel IH]; intros v by_ s Hs H; [done|]. cbn [unpack_varint_loop] in H.
  apply bind_Ok in H as ([b r] & E & H).
  assert (bytes_ok r) by (destruct s; [done|]; apply Ok_inj in E as [= <- <-]; by inversion Hs).
  destruct (_ && _); [by eapply IH|]. by apply Ok_inj in H as [= _ <-].
Qed.

Lemma unpack_unsigned_int_ok s z rest :
  bytes_ok s -> unpack_unsigned_int s = Ok (z, rest) -> is_u32 z /\ bytes_ok rest.
Proof.
  unfold unpack_unsigned_int. intros Hs H. apply bind_Ok in H as ([v r] & E & H).
  apply Ok_inj in H as [= <- <-]. split; [apply u32_range|by eapply unpack_varint_loop_ok].
Qed.

#[global] Instance UnpackRange_uint n : UnpackRange (uint n).
Proof.
  intros s v rest Hs H. cbn [unpack Packable_uint] in H. apply bind_Ok in H as ([z r] & E & H).
  apply Ok_inj in H as [= <- <-]. by apply unpack_uint_ok in E.
Qed.

#[global] Instance UnpackRange_bool : UnpackRange bool.
Proof.
  intros s v rest Hs H. cbn [unpack Packable_bool] in H. unfold unpack_bool in H.
  apply bind_Ok in H as ([z r] & E & H). apply unpack_uint_ok in E as [_ Hr]; [|done].
  inv_result. destruct a. by injection H as <- <-.
Qed.

#[global] Instance UnpackRange_optional {A} `{UnpackRange A} : UnpackRange (option A).
Proof.
  intros s v rest Hs H1. cbn [unpack Packable_optional] in H1. unfold unpack_optional in H1.
  apply bind_Ok in H1 as ([b r] & E & H1). pose proof (unpack_fits (A := bool) s b r Hs E) as [_ Hr].
  destruct b.
  - apply bind_Ok in H1 as ([x r'] & E' & H1). apply Ok_inj in H1 as [= <- <-].
    by apply unpack_fits in E'.
  - by apply Ok_inj in H1 as [= <- <-].
Qed.

#[global] Instance UnpackRange_pair {A B} `{UnpackRange A} `{UnpackRange B} : UnpackRange (A * B).
Proof.
  intros s v rest Hs Hu. cbn [unpack Packable_pair] in Hu. unfold unpack_pair in Hu.
  apply bind_Ok in Hu as ([x r] & E & Hu). apply bind_Ok in Hu as ([y r'] & E' & Hu).
  apply Ok_inj in Hu as [= <- <-]. apply unpack_fits in E as [Hx Hr]; [|done].
  apply unpack_fits in E' as [Hy Hr']; [|done]. done.
Qed.

Lemma unpack_elements_ok {A} `{UnpackRange A} n s l rest :
  bytes_ok s -> unpack_elements n s = Ok (l, rest) -> Forall fits l /\ bytes_ok rest.
Proof.
  revert s l; induction n as [|n IH]; intros s l Hs Hu; cbn [unpack_elements] in Hu.
  - by apply Ok_inj in Hu as [= <- <-].
  - apply bind_Ok in Hu as ([x r] & E & Hu). apply bind_Ok in Hu as ([k r'] & E' & Hu).
    apply Ok_inj in Hu as [= <- <-]. apply unpack_fits in E as [Hx Hr]; [|done].
    destruct (IH _ _ Hr E') as [Hk Hr']. by split; [constructor|].
Qed.

#[global] Instance UnpackRange_vector {A} `{UnpackRange A} : UnpackRange (list A).
Proof.
  intros s l rest Hs Hu. cbn [unpack Packable_vector] in Hu. unfold unpack_vector in Hu.
  apply bind_Ok in Hu as ([n r] & E & Hu). apply unpack_unsigned_int_ok in E as [_ Hr]; [|done].
  apply bind_Ok in Hu as (? & _ & Hu). by apply unpack_elements_ok in Hu.
Qed.

#[global] Instance UnpackRange_sha256 : UnpackRange sha256.
Proof.
  intros s v rest Hs Hu. cbn [unpack Packable_sha256] in Hu. unfold unpack_sha256 in Hu.
  apply bind_Ok in Hu as ([bs r] & E & Hu). apply ds_read_ok in E as (Hb & Hl & Hr); [|done].
  apply Ok_inj in Hu as [= <- <-]. split; [|done]. cbn [fits Packable_sha256].
  unfold sha256_wf, is_u64. cbn [hash0 hash1 hash2 hash3].
  assert (forall l, bytes_ok l -> length l = 8%nat -> 0 <= le_value l < 2 ^ 64) as Hw.
  { intros l Hok Hlen. pose proof (le_value_range l Hok) as H. by rewrite Hlen in H. }
  unfold bytes_ok in *. split_and!; apply Hw; try (by repeat first [apply Forall_take|apply Forall_drop]);
    rewrite ?length_take, ?length_drop; lia.
Qed.

#[global] Instance UnpackRange_blob : UnpackRange blob.
Proof.
  intros s v rest Hs Hu. cbn [unpack Packable_blob] in Hu.
  apply bind_Ok in Hu as ([bs r] & E & Hu). apply Ok_inj in Hu as [= <- <-]. split; [done|].
  unfold unpack_bytes in E. apply bind_Ok in E as ([n r'] & E1 & E).
  apply unpack_unsigned_int_ok in E1 as [_ Hr]; [|done].
  apply bind_Ok in E as (? & _ & E). by apply ds_read_ok in E as (_ & _ & ?).
Qed.

Lemma UnpackRange_struct {A B} `{UnpackRange B} (members : A -> B) (make : B -> A) :
  (forall m, members (make m) = m) -> @UnpackRange A (Packable_struct members make).
Proof.
  intros Hm s v rest Hs Hu. cbn [unpack fits Packable_struct] in *.
  apply bind_Ok in Hu as ([m r] & E & Hu). apply Ok_inj in Hu as [= <- <-].
  rewrite Hm. by apply unpack_fits in E.
Qed.
