(* ===== verification/Merkle.v ===== *)
(** Merkle trees: the reference computation [calculate_merkle]
    (chain/include/eosio/chain/merkle.hpp) and the [incremental_merkle_tree]
    (incremental_merkle.hpp) that keeps one digest per power-of-two subtree.
    The refinement theorem says that appending digests one by one and asking
    for the root gives the root [calculate_merkle] computes on the whole
    sequence.  SHA-256 is the parameter [sha]. *)
From Stdlib Require Import ZArith Lia ZifyBool.
From stdpp Require Import base tactics numbers list.
From S2P Require Import Prelude Digest Raw.
#[local] Open Scope Z_scope.

Section Merkle.
(** [fc::sha256::hash] on the bytes of the packed value. *)
Variable sha : list Z -> sha256.

(** [digest_type::hash(std::make_pair(a, b))]. *)
Definition hash_combine (a b : sha256) : sha256 :=
  sha (sha256_bytes a ++ sha256_bytes b).

(** [std::bit_floor]. *)
Definition bit_floor (x : Z) : Z := if x =? 0 then 0 else 2 ^ Z.log2 x.

(** The iterator range [start, end) is the list [l].  Every call halves the
    range, so [length l] levels are more than enough. *)
Fixpoint calculate_merkle_pow2 (fuel : nat) (l : list sha256) : result sha256 :=
  match fuel with
  | O => Err undefined_behavior
  | S fuel =>
      c_assert (2 <=? vsize l);;
      let size := vsize l in
      c_assert (bit_floor size =? size);;
      if size =? 2 then
        a ← at_index l 0; b ← at_index l 1; mret (hash_combine a b)
      else
        let mid := Z.to_nat (size / 2) in
        a ← calculate_merkle_pow2 fuel (take mid l);
        b ← calculate_merkle_pow2 fuel (drop mid l);
        mret (hash_combine a b)
  end.

Fixpoint calculate_merkle_fuel (fuel : nat) (l : list sha256) : result sha256 :=
  match fuel with
  | O => Err undefined_behavior
  | S fuel =>
      let size := vsize l in
      if size <=? 1 then
        (if size =? 0 then mret sha256_zero else front l)
      else
        let midpoint := bit_floor size in
        if size =? midpoint then calculate_merkle_pow2 (length l) l
        else
          let mid := Z.to_nat midpoint in
          a ← calculate_merkle_pow2 (length l) (take mid l);
          b ← calculate_merkle_fuel fuel (drop mid l);
          mret (hash_combine a b)
  end.

Definition calculate_merkle (l : list sha256) : result sha256 :=
  calculate_merkle_fuel (S (length l)) l.

(** ** incremental_merkle_tree *)

Record incremental_merkle_tree : Type := {
  mask : Z;                 (* uint64_t *)
  trees : list sha256       (* smallest tree last *)
}.

Definition empty_tree : incremental_merkle_tree := {| mask := 0; trees := [] |}.

Definition is_bit_set (m idx : Z) : bool := negb (Z.land m (u64 (Z.shiftl 1 idx)) =? 0).
Definition set_bit (m idx : Z) : Z := Z.lor m (u64 (Z.shiftl 1 idx)).
Definition clear_bit (m idx : Z) : Z := Z.land m (u64 (Z.lnot (u64 (Z.shiftl 1 idx)))).

(** [std::popcount] of a 64-bit word. *)
Fixpoint popcount_below (k : nat) (x : Z) : Z :=
  match k with
  | O => 0
  | S k => Z_of_bool (Z.testbit x (Z.of_nat k)) + popcount_below k x
  end.
Definition popcount (x : Z) : Z := popcount_below 64 x.

(** [_append(digest, slot, idx)]; [slot] is the position of the iterator in
    [trees].  [idx] grows by two with each level and stays below 64. *)
Fixpoint append_at (fuel : nat) (t : incremental_merkle_tree)
    (digest : sha256) (slot : Z) (idx : Z) : result incremental_merkle_tree :=
  match fuel with
  | O => Err undefined_behavior
  | S fuel =>
      if is_bit_set (mask t) idx then
        c_assert (negb (is_empty (trees t)));;
        if negb (is_bit_set (mask t) (idx + 1)) then
          prev ← at_index (trees t) (slot - 1);
          mret {| mask := set_bit (clear_bit (mask t) idx) (idx + 1);
                  trees := <[Z.to_nat (slot - 1) := hash_combine prev digest]> (trees t) |}
        else
          c_assert (2 <=? vsize (trees t));;
          let m := clear_bit (clear_bit (mask t) idx) (idx + 1) in
          d2 ← at_index (trees t) (slot - 2);
          d1 ← at_index (trees t) (slot - 1);
          let d := hash_combine d2 (hash_combine d1 digest) in
          let trees' := take (Z.to_nat (slot - 2)) (trees t) ++ drop (Z.to_nat slot) (trees t) in
          append_at fuel {| mask := m; trees := trees' |} d (slot - 2) (idx + 2)
      else
        mret {| mask := set_bit (mask t) idx;
                trees := take (Z.to_nat slot) (trees t) ++ digest :: drop (Z.to_nat slot) (trees t) |}
  end.

Definition append_fuel : nat := 33.

Definition append (t : incremental_merkle_tree) (digest : sha256) : result incremental_merkle_tree :=
  c_assert (vsize (trees t) =? popcount (mask t));;
  t ← append_at append_fuel t digest (vsize (trees t)) 0;
  c_assert (vsize (trees t) =? popcount (mask t));;
  mret t.

(** [_get_root(idx)], on the suffix of [trees] that starts at [idx]. *)
Fixpoint get_root_from (ts : list sha256) : result sha256 :=
  match ts with
  | [] => Err undefined_behavior
  | [t] => Ok t
  | t :: ts => r ← get_root_from ts; mret (hash_combine t r)
  end.

Definition get_root (t : incremental_merkle_tree) : result sha256 :=
  if mask t =? 0 then Ok sha256_zero
  else c_assert (negb (is_empty (trees t)));; get_root_from (trees t).

Definition num_digests_appended (t : incremental_merkle_tree) : Z := mask t.

(** The tree after appending a sequence of digests. *)
Fixpoint append_all (t : incremental_merkle_tree) (ds : list sha256) : result incremental_merkle_tree :=
  match ds with
  | [] => Ok t
  | d :: ds => t ← append t d; append_all t ds
  end.

(** ** The abstract view *)

(** The root of a perfect tree over [2^k] leaves, and the list of the roots of
    the perfect trees a sequence splits into, largest first. *)
Fixpoint perfect (k : nat) (l : list sha256) : sha256 :=
  match k with
  | O => default sha256_zero (head l)
  | S k => let h := Z.to_nat (2 ^ Z.of_nat k) in
           hash_combine (perfect k (take h l)) (perfect k (drop h l))
  end.

Fixpoint forest (k : nat) (l : list sha256) : list sha256 :=
  match k with
  | O => []
  | S k => let h := 2 ^ Z.of_nat k in
           if h <=? vsize l
           then perfect k (take (Z.to_nat h) l) :: forest k (drop (Z.to_nat h) l)
           else forest k l
  end.

(** The representation invariant of the incremental tree: it holds the forest
    of the digests appended so far, and the mask is their number. *)
Definition represents (K : nat) (t : incremental_merkle_tree) (l : list sha256) : Prop :=
  mask t = vsize l /\ trees t = forest K l /\ vsize l < 2 ^ 63.

Lemma pow2_pos (k : nat) : 0 < 2 ^ Z.of_nat k.
Proof. apply Z.pow_pos_nonneg; lia. Qed.

Lemma pow2_S (k : nat) : 2 ^ Z.of_nat (S k) = 2 * 2 ^ Z.of_nat k.
Proof. rewrite Nat2Z.inj_succ, Z.pow_succ_r; lia. Qed.

Lemma forest_S k l :
  forest (S k) l =
  if 2 ^ Z.of_nat k <=? vsize l
  then perfect k (take (Z.to_nat (2 ^ Z.of_nat k)) l) :: forest k (drop (Z.to_nat (2 ^ Z.of_nat k)) l)
  else forest k l.
Proof. done. Qed.

Lemma forest_nil k : forest k [] = [].
Proof.
  induction k as [|k IH]; [done|]. simpl. pose proof (pow2_pos k).
  unfold vsize; simpl. destruct (Z.leb_spec (2 ^ Z.of_nat k) (Z.of_nat 0)); [lia|done].
Qed.

Lemma perfect_app k l1 l2 :
  vsize l1 = 2 ^ Z.of_nat k -> perfect (S k) (l1 ++ l2) = hash_combine (perfect k l1) (perfect k l2).
Proof.
  intros Hl. simpl. unfold vsize in Hl.
  rewrite take_app_length', drop_app_length' by lia. done.
Qed.

(** Appending a perfect tree smaller than every tree of the forest. *)
Lemma forest_snoc K i l m q :
  vsize l = q * 2 ^ Z.of_nat (S i) -> vsize m = 2 ^ Z.of_nat i ->
  vsize l + vsize m < 2 ^ Z.of_nat K ->
  forest K (l ++ m) = forest K l ++ [perfect i m].
Proof.
  revert l q; induction K as [|K IH]; intros l q Hl Hm HK.
  { pose proof (pow2_pos i). unfold vsize in *. simpl in HK. lia. }
  pose proof (pow2_pos i). pose proof (pow2_pos K). rewrite pow2_S in Hl, HK.
  assert (vsize (l ++ m) = vsize l + vsize m) as Happ by (unfold vsize; rewrite length_app; lia).
  simpl. rewrite Happ. destruct (Z.leb_spec (2 ^ Z.of_nat K) (vsize l)) as [Hge|Hlt].
  - destruct (Z.leb_spec (2 ^ Z.of_nat K) (vsize l + vsize m)); [|lia].
    assert (i < K)%nat as HiK.
    { apply Nat2Z.inj_lt. apply (Z.pow_lt_mono_r_iff 2); lia. }
    rewrite take_app_le, drop_app_le by (unfold vsize in *; lia). simpl. f_equal.
    assert (2 ^ Z.of_nat K = 2 ^ (Z.of_nat K - Z.of_nat (S i)) * 2 ^ Z.of_nat (S i)) as EK
      by (rewrite <- Z.pow_add_r by lia; f_equal; lia).
    apply (IH _ (q - 2 ^ (Z.of_nat K - Z.of_nat (S i)))); [|done|].
    + rewrite Z.mul_sub_distr_r, <- EK, pow2_S, <- Hl. unfold vsize in *.
      rewrite length_drop. lia.
    + unfold vsize in *. rewrite length_drop. lia.
  - destruct (Z.lt_trichotomy (Z.of_nat i) (Z.of_nat K)) as [Hi|[Hi|Hi]].
    + assert (2 ^ Z.of_nat K = 2 ^ (Z.of_nat K - Z.of_nat (S i)) * (2 * 2 ^ Z.of_nat i)) as EK
        by (rewrite <- pow2_S, <- Z.pow_add_r by lia; f_equal; lia).
      assert (q + 1 <= 2 ^ (Z.of_nat K - Z.of_nat (S i))) by nia.
      destruct (Z.leb_spec (2 ^ Z.of_nat K) (vsize l + vsize m)); [nia|].
      apply (IH _ q); [by rewrite pow2_S|done|lia].
    + assert (i = K) as -> by lia. assert (0 <= vsize l) by (unfold vsize; lia).
      assert (q = 0) as Hq0 by nia. assert (vsize l = 0) as Hl0 by (rewrite Hl, Hq0; lia).
      destruct l; [|done]. change (vsize []) with 0 in *.
      destruct (Z.leb_spec (2 ^ Z.of_nat K) (0 + vsize m)); [|lia].
      simpl. rewrite forest_nil, take_ge, drop_ge by (unfold vsize in *; lia).
      by rewrite forest_nil.
    + assert (2 ^ Z.of_nat (S K) <= 2 ^ Z.of_nat i) by (apply Z.pow_le_mono_r; lia).
      rewrite pow2_S in *. unfold vsize in *. lia.
Qed.

(** ** Bits of the mask *)

Lemma u64_bit idx : 0 <= idx < 64 -> u64 (Z.shiftl 1 idx) = 2 ^ idx.
Proof.
  intros Hi. rewrite Z.shiftl_mul_pow2, Z.mul_1_l by lia. apply u64_small. split; [lia|].
  apply Z.pow_lt_mono_r; lia.
Qed.

Lemma is_bit_set_testbit m idx : 0 <= idx < 64 -> is_bit_set m idx = Z.testbit m idx.
Proof.
  intros Hi. unfold is_bit_set. rewrite u64_bit by done.
  destruct (Z.testbit m idx) eqn:E.
  - destruct (Z.eqb_spec (Z.land m (2 ^ idx)) 0) as [H0|]; [|done].
    apply (f_equal (fun z => Z.testbit z idx)) in H0.
    by rewrite Z.land_spec, Z.pow2_bits_true, E, Z.bits_0 in H0 by lia.
  - destruct (Z.eqb_spec (Z.land m (2 ^ idx)) 0) as [|H0]; [done|]. destruct H0.
    apply Z.bits_inj'; intros i Hi'. rewrite Z.land_spec, Z.bits_0, Z.pow2_bits_eqb by lia.
    destruct (Z.eqb_spec idx i) as [<-|]; [by rewrite E|by rewrite andb_false_r].
Qed.

Lemma testbit_mul q i : 0 <= i -> Z.testbit (q * 2 ^ i) i = Z.odd q.
Proof. intros Hi. by rewrite Z.mul_pow2_bits, Z.sub_diag, Z.bit0_odd by lia. Qed.

Lemma set_bit_add m idx :
  0 <= idx < 64 -> Z.testbit m idx = false -> set_bit m idx = m + 2 ^ idx.
Proof.
  intros Hi Hb. unfold set_bit. rewrite u64_bit by done.
  rewrite Z.add_nocarry_lxor, Z.lxor_lor; [done| |].
  all: apply Z.bits_inj'; intros i Hi'; rewrite Z.land_spec, Z.bits_0, Z.pow2_bits_eqb by lia;
    destruct (Z.eqb_spec idx i) as [<-|]; [by rewrite Hb|by rewrite andb_false_r].
Qed.

Lemma clear_bit_sub m idx :
  0 <= idx < 64 -> 0 <= m < 2 ^ 64 -> Z.testbit m idx = true -> clear_bit m idx = m - 2 ^ idx.
Proof.
  intros Hi Hm Hb. unfold clear_bit. rewrite u64_bit by done.
  assert (Z.land m (u64 (Z.lnot (2 ^ idx))) = Z.ldiff m (2 ^ idx)) as ->.
  { unfold u64. rewrite <- Z.land_ones, Z.land_assoc by lia.
    rewrite <- (Z.land_comm (Z.ones 64)), Z.land_assoc, (Z.land_comm (Z.ones 64)), Z.land_ones by lia.
    rewrite Z.mod_small by done. symmetry. apply Z.ldiff_land. }
  rewrite Z.sub_nocarry_ldiff; [done|].
  apply Z.bits_inj'; intros i Hi'. rewrite Z.ldiff_spec, Z.bits_0, Z.pow2_bits_eqb by lia.
  destruct (Z.eqb_spec idx i) as [<-|]; [by rewrite Hb|done].
Qed.

Lemma popcount_below_sub k x :
  2 ^ Z.of_nat k <= x < 2 ^ Z.of_nat (S k) ->
  forall j, (j <= k)%nat -> popcount_below j (x - 2 ^ Z.of_nat k) = popcount_below j x.
Proof.
  intros Hx j. induction j as [|j IH]; intros Hj; [done|]. simpl.
  rewrite IH by lia. do 2 f_equal.
  replace x with (x - 2 ^ Z.of_nat k + 1 * 2 ^ Z.of_nat k) at 2 by lia.
  rewrite <- (Z.mod_pow2_bits_low _ (Z.of_nat k)) by lia.
  rewrite <- (Z.mod_pow2_bits_low (_ + _) (Z.of_nat k)) by lia.
  by rewrite Z.mod_add by (pose proof (pow2_pos k); lia).
Qed.

Lemma forest_length K l :
  vsize l < 2 ^ Z.of_nat K -> vsize (forest K l) = popcount_below K (vsize l).
Proof.
  revert l; induction K as [|K IH]; intros l HK; [done|].
  pose proof (pow2_pos K). assert (0 <= vsize l) by (unfold vsize; lia).
  rewrite pow2_S in HK. simpl. destruct (Z.leb_spec (2 ^ Z.of_nat K) (vsize l)) as [Hge|Hlt].
  - assert (vsize (drop (Z.to_nat (2 ^ Z.of_nat K)) l) = vsize l - 2 ^ Z.of_nat K) as Ed
      by (unfold vsize in *; rewrite length_drop; lia).
    assert (Z.testbit (vsize l) (Z.of_nat K) = true) as ->.
    { replace (vsize l) with (vsize l - 2 ^ Z.of_nat K + 1 * 2 ^ Z.of_nat K) by lia.
      rewrite <- lor_shift_add, Z.lor_spec by lia. rewrite testbit_mul by lia.
      apply orb_true_r. }
    rewrite <- (popcount_below_sub K (vsize l)) by (rewrite ?pow2_S; lia).
    rewrite <- Ed, <- IH by lia. unfold vsize; simpl. lia.
  - rewrite IH by done. assert (Z.testbit (vsize l) (Z.of_nat K) = false) as ->; [|simpl; lia].
    rewrite <- (Z.mod_small (vsize l) (2 ^ Z.of_nat K)) by lia.
    by rewrite Z.mod_pow2_bits_high by lia.
Qed.

Lemma vsize_app {A} (l1 l2 : list A) : vsize (l1 ++ l2) = vsize l1 + vsize l2.
Proof. unfold vsize. rewrite length_app. lia. Qed.

(** An odd number of blocks of [2^i] digests ends with one block. *)
Lemma split_last_block (l : list sha256) q' i :
  vsize l = (2 * q' + 1) * 2 ^ Z.of_nat i -> 0 <= q' ->
  exists l1 l2, l = l1 ++ l2 /\ vsize l1 = q' * 2 ^ Z.of_nat (S i) /\ vsize l2 = 2 ^ Z.of_nat i.
Proof.
  intros Hl Hq. pose proof (pow2_pos i). rewrite pow2_S.
  exists (take (Z.to_nat (q' * (2 * 2 ^ Z.of_nat i))) l),
         (drop (Z.to_nat (q' * (2 * 2 ^ Z.of_nat i))) l).
  unfold vsize in *. rewrite take_drop, length_take, length_drop.
  assert (0 <= q' * (2 * 2 ^ Z.of_nat i)) by nia. split; [done|]. lia.
Qed.

Lemma is_empty_snoc {A} (l : list A) x : is_empty (l ++ [x]) = false.
Proof. by destruct l. Qed.

Lemma at_index_snoc {A} (l : list A) x : at_index (l ++ [x]) (vsize (l ++ [x]) - 1) = Ok x.
Proof.
  apply at_index_Ok. rewrite vsize_app. unfold vsize; simpl. split; [lia|].
  apply list_lookup_middle. lia.
Qed.

(** The iterators [slot - 2] and [slot - 1] when [slot] is the end. *)
Lemma last_two {A} (l : list A) x y :
  let v := l ++ [x; y] in
  at_index v (vsize v - 2) = Ok x /\ at_index v (vsize v - 1) = Ok y /\
  take (Z.to_nat (vsize v - 2)) v ++ drop (Z.to_nat (vsize v)) v = l /\
  (2 <=? vsize v) = true /\ vsize v - 2 = vsize l.
Proof.
  intros v. assert (vsize v = vsize l + 2) as Hv by (unfold v; rewrite vsize_app; done).
  assert (Z.to_nat (vsize v - 2) = length l) as E by (rewrite Hv; unfold vsize; lia).
  split_and!.
  - apply at_index_Ok. rewrite E, Hv. split; [unfold vsize; lia|]. by apply list_lookup_middle.
  - apply at_index_Ok. rewrite Hv. split; [unfold vsize; lia|].
    unfold v. rewrite (app_assoc _ [x] [y]). apply list_lookup_middle.
    rewrite length_app. unfold vsize; simpl; lia.
  - rewrite E. unfold v at 1. rewrite take_app_length, drop_ge by (unfold vsize; lia).
    apply app_nil_r.
  - rewrite Hv. unfold vsize. lia.
  - lia.
Qed.

#[local] Arguments forest : simpl never.
#[local] Arguments perfect : simpl never.

Lemma odd_split q : q = 2 * (q / 2) + (if Z.odd q then 1 else 0).
Proof. rewrite (Z.div_mod q 2) at 1 by lia. rewrite Zmod_odd. destruct (Z.odd q); lia. Qed.

(** The mask over a complete tree of level [i] at the end: its bit is set, the
    next one says whether there is a tree of the next level before it. *)
Lemma mask_top i q (l1 l2 : list sha256) :
  vsize l1 = q * 2 ^ Z.of_nat (S i) -> vsize l2 = 2 ^ Z.of_nat i -> vsize (l1 ++ l2) < 2 ^ 63 ->
  Z.testbit (vsize (l1 ++ l2)) (Z.of_nat i) = true /\
  Z.testbit (vsize (l1 ++ l2)) (Z.of_nat (S i)) = Z.odd q /\
  clear_bit (vsize (l1 ++ l2)) (Z.of_nat i) = vsize l1.
Proof.
  intros H1 H2 Hlt. rewrite vsize_app in *. pose proof (pow2_pos i). assert (0 <= vsize l1) by (unfold vsize; lia).
  assert (Z.of_nat i < 63) by (apply (Z.pow_lt_mono_r_iff 2); lia).
  assert (Z.testbit (vsize l1 + vsize l2) (Z.of_nat i) = true) as Hb.
  { rewrite H1, H2, pow2_S. replace (_ + _) with ((2 * q + 1) * 2 ^ Z.of_nat i) by ring.
    rewrite testbit_mul by lia. by rewrite Z.add_comm, Z.odd_add_mul_2. }
  split_and!; [done| |rewrite clear_bit_sub by (done || lia); lia].
  rewrite H1, H2, Z.add_comm, <- lor_shift_add, Z.lor_spec by (rewrite ?pow2_S; lia).
  rewrite testbit_mul, Z.pow2_bits_false by lia. done.
Qed.

(** The three branches of [append], on the forest of the leaves so far. *)
Lemma append_at_free K fuel i q (l m : list sha256) t :
  Z.odd q = false -> 2 ^ 63 <= 2 ^ Z.of_nat K -> mask t = vsize l -> trees t = forest K l ->
  vsize l = q * 2 ^ Z.of_nat i -> vsize m = 2 ^ Z.of_nat i -> vsize l + vsize m < 2 ^ 63 ->
  exists t', append_at (S fuel) t (perfect i m) (vsize (trees t)) (Z.of_nat i) = Ok t' /\
             mask t' = vsize (l ++ m) /\ trees t' = forest K (l ++ m).
Proof.
  intros Hodd HK Hmask Htrees Hl Hm Hlt. pose proof (odd_split q) as Hq. rewrite Hodd in Hq.
  pose proof (pow2_pos i). assert (0 <= vsize l) by (unfold vsize; lia).
  assert (Z.of_nat i < 63) by (apply (Z.pow_lt_mono_r_iff 2); lia).
  assert (Z.testbit (mask t) (Z.of_nat i) = false) as Hb by (by rewrite Hmask, Hl, testbit_mul by lia).
  cbn [append_at]. rewrite is_bit_set_testbit, Hb by lia. eexists; split; [reflexivity|]. cbn [mask trees]. split.
  - rewrite set_bit_add, Hmask, vsize_app by (done || lia). lia.
  - unfold vsize at 1 2. rewrite Nat2Z.id, take_ge, drop_ge by lia. rewrite Htrees.
    symmetry. apply (forest_snoc K i l m (q / 2)); [rewrite pow2_S|..]; lia.
Qed.

Lemma append_at_merge K fuel i q (l1 l2 m : list sha256) t :
  Z.odd q = false -> 2 ^ 63 <= 2 ^ Z.of_nat K -> mask t = vsize (l1 ++ l2) -> trees t = forest K (l1 ++ l2) ->
  vsize l1 = q * 2 ^ Z.of_nat (S i) -> vsize l2 = 2 ^ Z.of_nat i -> vsize m = 2 ^ Z.of_nat i ->
  vsize (l1 ++ l2) + vsize m < 2 ^ 63 ->
  exists t', append_at (S fuel) t (perfect i m) (vsize (trees t)) (Z.of_nat i) = Ok t' /\
             mask t' = vsize (l1 ++ l2 ++ m) /\ trees t' = forest K (l1 ++ l2 ++ m).
Proof.
  intros Hodd HK Hmask Htrees H1 H2 Hm Hlt. pose proof (odd_split q) as Hq. rewrite Hodd in Hq.
  destruct (mask_top i q l1 l2 H1 H2) as (Hb & Hb' & Hc); [unfold vsize in *; lia|].
  pose proof (pow2_pos i). rewrite vsize_app in Hlt. assert (0 <= vsize l1) by (unfold vsize; lia).
  assert (Z.of_nat i < 63) by (apply (Z.pow_lt_mono_r_iff 2); lia).
  rewrite (forest_snoc K i l1 l2 q) in Htrees by (done || lia).
  cbn [append_at]. rewrite !is_bit_set_testbit, Hmask, Hb by lia. replace (Z.of_nat i + 1) with (Z.of_nat (S i)) by lia.
  rewrite Hb', Hodd, (c_assert_true (negb (is_empty (trees t)))) by (by rewrite Htrees, is_empty_snoc).
  cbn [mbind result_bind negb]. rewrite Htrees, at_index_snoc. cbn [mbind result_bind].
  eexists; split; [reflexivity|]. cbn [mask trees]. split.
  - rewrite Hc, set_bit_add by (try lia; rewrite H1, testbit_mul by lia; done). rewrite !vsize_app, pow2_S. lia.
  - rewrite (forest_snoc K (S i) l1 (l2 ++ m) (q / 2)) by (rewrite ?vsize_app, ?(pow2_S (S i)), ?(pow2_S i) in *; lia).
    rewrite vsize_app. replace (Z.to_nat (vsize (forest K l1) + vsize [perfect i l2] - 1))
      with (length (forest K l1) + 0)%nat by (unfold vsize; simpl; lia).
    rewrite insert_app_r. simpl. by rewrite perfect_app.
Qed.

Lemma append_at_carry K fuel i q (la lb l2 m : list sha256) t :
  2 ^ 63 <= 2 ^ Z.of_nat K -> mask t = vsize ((la ++ lb) ++ l2) -> trees t = forest K ((la ++ lb) ++ l2) ->
  vsize la = q * 2 ^ Z.of_nat (S (S i)) -> vsize lb = 2 ^ Z.of_nat (S i) ->
  vsize l2 = 2 ^ Z.of_nat i -> vsize m = 2 ^ Z.of_nat i -> vsize ((la ++ lb) ++ l2) + vsize m < 2 ^ 63 ->
  append_at (S fuel) t (perfect i m) (vsize (trees t)) (Z.of_nat i) =
  append_at fuel {| mask := vsize la; trees := forest K la |} (perfect (S (S i)) (lb ++ l2 ++ m))
    (vsize (forest K la)) (Z.of_nat (S (S i))).
Proof.
  intros HK Hmask Htrees Ha Hb H2 Hm Hlt. assert (0 <= vsize la) by (unfold vsize; lia).
  pose proof (pow2_pos i). assert (vsize (la ++ lb) = (2 * q + 1) * 2 ^ Z.of_nat (S i)) as H1
    by (rewrite vsize_app, Ha, Hb, (pow2_S (S i)); ring).
  destruct (mask_top i (2 * q + 1) (la ++ lb) l2 H1 H2) as (Hb1 & Hb2 & Hc); [unfold vsize in *; lia|].
  destruct (mask_top (S i) q la lb Ha Hb) as (_ & _ & Hc'); [rewrite vsize_app in Hlt; unfold vsize in *; lia|].
  rewrite !vsize_app in Hlt. assert (0 <= vsize lb) by (unfold vsize; lia).
  assert (Z.of_nat i < 63) by (apply (Z.pow_lt_mono_r_iff 2); lia).
  rewrite (forest_snoc K i (la ++ lb) l2 (2 * q + 1)) in Htrees by (rewrite ?vsize_app in *; done || lia).
  rewrite (forest_snoc K (S i) la lb q), <- app_assoc in Htrees by (rewrite ?vsize_app in *; done || lia).
  cbn [append_at]. rewrite !is_bit_set_testbit, Hmask, Hb1 by lia. replace (Z.of_nat i + 1) with (Z.of_nat (S i)) by lia.
  rewrite Hb2, (c_assert_true (negb (is_empty (trees t)))) by (rewrite Htrees, app_assoc; by rewrite is_empty_snoc).
  rewrite Z.add_comm, Z.odd_add_mul_2. cbn [mbind result_bind negb app Z.odd].
  destruct (last_two (forest K la) (perfect (S i) lb) (perfect i l2)) as (E2 & E1 & Et & Eb & Es).
  cbn [app] in Htrees. rewrite Htrees, c_assert_true by done. cbn [mbind result_bind]. rewrite E2, E1.
  cbn [mbind result_bind]. rewrite Et, Es, Hc, Hc', <- (perfect_app i l2 m), <- (perfect_app (S i) lb (l2 ++ m)) by done.
  by replace (Z.of_nat i + 2) with (Z.of_nat (S (S i))) by lia.
Qed.

Lemma append_at_forest K fuel i q (l m : list sha256) t :
  2 ^ 63 <= 2 ^ Z.of_nat K ->
  mask t = vsize l -> trees t = forest K l ->
  vsize l = q * 2 ^ Z.of_nat i -> vsize m = 2 ^ Z.of_nat i ->
  vsize l + vsize m < 2 ^ 63 -> 66 <= 2 * Z.of_nat fuel + Z.of_nat i ->
  exists t', append_at fuel t (perfect i m) (vsize (trees t)) (Z.of_nat i) = Ok t' /\
             mask t' = vsize (l ++ m) /\ trees t' = forest K (l ++ m).
Proof.
  revert i q l m t; induction fuel as [|fuel IH]; intros i q l m t HK Hmask Htrees Hl Hm Hlt Hf.
  { assert (2 ^ 66 <= 2 ^ Z.of_nat i) by (apply Z.pow_le_mono_r; lia). unfold vsize in *; lia. }
  pose proof (pow2_pos i). assert (0 <= vsize l) by (unfold vsize; lia).
  destruct (Z.odd q) eqn:Hodd; [|by eapply append_at_free].
  pose proof (odd_split q) as Hq. rewrite Hodd in Hq. set (q' := q / 2) in *. clearbody q'. subst q.
  destruct (split_last_block l q' i Hl) as (l1 & l2 & -> & Hl1 & Hl2); [nia|]. rewrite <- app_assoc.
  destruct (Z.odd q') eqn:Hodd'; [|by eapply append_at_merge].
  pose proof (odd_split q') as Hq. rewrite Hodd' in Hq. assert (0 <= q') by nia.
  rewrite Hq in Hl1. destruct (split_last_block l1 (q' / 2) (S i) Hl1) as (la & lb & -> & Hla & Hlb); [lia|].
  rewrite (append_at_carry K fuel i (q' / 2) la lb l2 m t) by done. rewrite <- app_assoc.
  apply (IH (S (S i)) (q' / 2) la (lb ++ l2 ++ m) {| mask := vsize la; trees := forest K la |});
    rewrite ?vsize_app, ?Hlb, ?Hl2, ?Hm in *; rewrite ?pow2_S in *; try done; lia.
Qed.
(** ** The incremental tree refines the sequence of appended digests *)

Lemma popcount_forest K (t : incremental_merkle_tree) l :
  K = 64%nat -> mask t = vsize l -> trees t = forest K l -> vsize l < 2 ^ 63 ->
  (vsize (trees t) =? popcount (mask t)) = true.
Proof.
  intros HK Hm Ht Hl. rewrite Hm, Ht. unfold popcount. rewrite <- HK.
  apply Z.eqb_eq, forest_length. subst K. lia.
Qed.

Lemma append_at_one K t l d :
  2 ^ 63 <= 2 ^ Z.of_nat K -> represents K t l -> vsize l + 1 < 2 ^ 63 ->
  exists t', append_at append_fuel t d (vsize (trees t)) 0 = Ok t' /\ represents K t' (l ++ [d]).
Proof.
  intros HK (Hm & Ht & Hl) Hlt.
  destruct (append_at_forest K append_fuel 0 (vsize l) l [d] t) as (t' & Ht' & Hm' & Hf');
    [done|done|done|change (2 ^ Z.of_nat 0) with 1; lia|done|exact Hlt|unfold append_fuel; lia|].
  exists t'. split; [exact Ht'|]. split; [done|]. split; [done|]. by rewrite vsize_app.
Qed.

Lemma append_represents K t l d :
  K = 64%nat -> represents K t l -> vsize l + 1 < 2 ^ 63 ->
  exists t', append t d = Ok t' /\ represents K t' (l ++ [d]).
Proof.
  intros HK Hr Hlt. destruct (append_at_one K t l d) as (t' & Ht' & Hr');
    [by subst K|done|done|].
  exists t'. split; [|done]. unfold append. destruct Hr as (? & ? & ?), Hr' as (? & ? & ?).
  rewrite c_assert_true by (by apply (popcount_forest K t l)).
  rewrite ret_bind, Ht', ret_bind.
  rewrite c_assert_true by (by apply (popcount_forest K t' (l ++ [d]))).
  by rewrite ret_bind.
Qed.

Lemma append_all_represents K ds t l :
  K = 64%nat -> represents K t l -> vsize l + vsize ds < 2 ^ 63 ->
  exists t', append_all t ds = Ok t' /\ represents K t' (l ++ ds).
Proof.
  intros HK. revert t l; induction ds as [|d ds IH]; intros t l Hr Hlt.
  - exists t. by rewrite app_nil_r.
  - assert (vsize (d :: ds) = 1 + vsize ds) as Hds by (unfold vsize; simpl; lia).
    assert (0 <= vsize ds) by (unfold vsize; lia).
    destruct (append_represents K t l d HK Hr) as (t1 & E1 & Hr1); [lia|].
    destruct (IH t1 (l ++ [d]) Hr1) as (t' & E' & Hr').
    { rewrite vsize_app. change (vsize [d]) with 1. lia. }
    exists t'. cbn [append_all]. rewrite E1. cbn [mbind result_bind]. split; [done|].
    by rewrite <- app_assoc in Hr'.
Qed.

(** ** The reference computation computes the root of the forest *)

Lemma bit_floor_range K x : 2 ^ Z.of_nat K <= x < 2 ^ Z.of_nat (S K) -> bit_floor x = 2 ^ Z.of_nat K.
Proof.
  intros Hx. unfold bit_floor. pose proof (pow2_pos K).
  destruct (Z.eqb_spec x 0); [lia|]. f_equal. apply Z.log2_unique; [lia|].
  by rewrite <- Nat2Z.inj_succ.
Qed.

Lemma calculate_merkle_pow2_perfect k fuel l :
  vsize l = 2 ^ Z.of_nat (S k) -> (k < fuel)%nat ->
  calculate_merkle_pow2 fuel l = Ok (perfect (S k) l).
Proof.
  revert fuel l; induction k as [|k IH]; intros fuel l Hl Hf; destruct fuel as [|fuel]; try lia;
    cbn [calculate_merkle_pow2]; rewrite Hl.
  - destruct l as [|a [|b [|c l]]]; try (unfold vsize in Hl; simpl in Hl; lia). reflexivity.
  - pose proof (pow2_pos k). pose proof (pow2_S k). pose proof (pow2_S (S k)).
    step_assert. rewrite (bit_floor_range (S (S k))) by (rewrite ?(pow2_S (S (S k))); lia).
    step_assert. destruct (Z.eqb_spec (2 ^ Z.of_nat (S (S k))) 2); [lia|].
    replace (2 ^ Z.of_nat (S (S k)) / 2) with (2 ^ Z.of_nat (S k))
      by (rewrite (pow2_S (S k)), Z.mul_comm, Z.div_mul; lia).
    rewrite !IH; [reflexivity| |lia| |lia]; unfold vsize in *; rewrite ?length_take, ?length_drop; lia.
Qed.

Lemma calculate_merkle_pow2_len k l :
  vsize l = 2 ^ Z.of_nat (S k) -> calculate_merkle_pow2 (length l) l = Ok (perfect (S k) l).
Proof.
  intros Hl. apply calculate_merkle_pow2_perfect; [done|].
  assert (Z.of_nat (S k) < 2 ^ Z.of_nat (S k)) by (apply Z.pow_gt_lin_r; lia).
  unfold vsize in Hl. lia.
Qed.

Lemma forest_nonempty K l : 1 <= vsize l < 2 ^ Z.of_nat K -> forest K l <> [].
Proof.
  revert l; induction K as [|K IH]; intros l Hl; [simpl in Hl; lia|].
  rewrite forest_S. destruct (Z.leb_spec (2 ^ Z.of_nat K) (vsize l)); [discriminate|]. apply IH. lia.
Qed.

Lemma get_root_from_cons t ts :
  ts <> [] -> get_root_from (t :: ts) = (r ← get_root_from ts; mret (hash_combine t r)).
Proof. by destruct ts. Qed.

Lemma get_root_from_Ok ts : ts <> [] -> exists r, get_root_from ts = Ok r.
Proof.
  induction ts as [|t ts IH]; [done|]. intros _. destruct ts as [|t' ts]; [by exists t|].
  destruct IH as [r Hr]; [done|]. exists (hash_combine t r).
  rewrite get_root_from_cons by done. by rewrite Hr.
Qed.

Lemma calculate_merkle_forest K fuel l :
  1 <= vsize l < 2 ^ Z.of_nat K -> vsize l < Z.of_nat fuel ->
  calculate_merkle_fuel fuel l = get_root_from (forest K l).
Proof.
  revert fuel l; induction K as [|K IH]; intros fuel l Hl Hf; [simpl in Hl; lia|].
  rewrite forest_S. pose proof (pow2_pos K). pose proof (pow2_S K) as HS.
  destruct (Z.leb_spec (2 ^ Z.of_nat K) (vsize l)) as [Hge|]; [|apply IH; lia].
  destruct fuel as [|fuel]; [lia|]. cbn [calculate_merkle_fuel].
  rewrite (bit_floor_range K) by lia.
  set (h := Z.to_nat (2 ^ Z.of_nat K)).
  assert (vsize (take h l) = 2 ^ Z.of_nat K /\ vsize (drop h l) = vsize l - 2 ^ Z.of_nat K) as [Ht Hd]
    by (unfold vsize in *; rewrite length_take, length_drop; subst h; lia).
  destruct (Z.eq_dec (vsize l) (2 ^ Z.of_nat K)) as [Heq|Hne].
  - assert (length l <= h)%nat by (subst h; unfold vsize in *; lia).
    rewrite take_ge, drop_ge, forest_nil by done. cbn [get_root_from].
    destruct K as [|K].
    + destruct l as [|a [|b l]]; try (unfold vsize in *; simpl in *; lia). reflexivity.
    + pose proof (pow2_pos K). rewrite pow2_S in Heq.
      destruct (Z.leb_spec (vsize l) 1); [lia|].
      destruct (Z.eqb_spec (vsize l) (2 ^ Z.of_nat (S K))) as [E|E]; [|rewrite pow2_S in E; lia].
      by apply calculate_merkle_pow2_len.
  - destruct K as [|K]; [simpl in *; lia|].
    pose proof (pow2_pos K). rewrite (pow2_S K) in *.
    destruct (Z.leb_spec (vsize l) 1); [lia|].
    destruct (Z.eqb_spec (vsize l) (2 * 2 ^ Z.of_nat K)); [lia|].
    rewrite get_root_from_cons by (apply forest_nonempty; rewrite ?(pow2_S K); lia).
    rewrite <- (IH fuel) by lia. fold h.
    assert (Z.of_nat K < 2 ^ Z.of_nat K) by (apply Z.pow_gt_lin_r; lia).
    by rewrite (calculate_merkle_pow2_perfect K) by (rewrite ?(pow2_S K); unfold vsize in *; lia).
Qed.

(** A tree that represents a sequence has the root of the sequence. *)
Lemma represents_root K t l :
  K = 64%nat -> represents K t l -> exists r, get_root t = Ok r /\ calculate_merkle l = Ok r.
Proof.
  intros HK (Hm & Hf & Hlt). assert (2 ^ 63 <= 2 ^ Z.of_nat K) as HK' by (by subst K).
  unfold get_root. rewrite Hm, Hf.
  destruct l as [|d ds]; [by exists sha256_zero|].
  set (l := d :: ds) in *. assert (1 <= vsize l) by (unfold l, vsize; simpl; lia).
  unfold calculate_merkle.
  rewrite (calculate_merkle_forest K) by (unfold vsize in *; lia).
  destruct (Z.eqb_spec (vsize l) 0); [lia|].
  pose proof (forest_nonempty K l ltac:(lia)) as Hne.
  destruct (get_root_from_Ok (forest K l) Hne) as [r Hr]. exists r.
  rewrite c_assert_true by (by destruct (forest K l)). done.
Qed.

Lemma represents_empty K : represents K empty_tree [].
Proof. by split; [|rewrite forest_nil]. Qed.

(** Appending digests one by one to an empty [incremental_merkle_tree]
    never fails an assertion, counts the digests, and leaves a tree whose
    [get_root] is the root [calculate_merkle] computes on the whole sequence,
    for every sequence of fewer than [2^63] digests. *)
Theorem incremental_merkle_correct (ds : list sha256) :
  vsize ds < 2 ^ 63 ->
  exists t r, append_all empty_tree ds = Ok t /\
    num_digests_appended t = vsize ds /\
    get_root t = Ok r /\ calculate_merkle ds = Ok r.
Proof.
  intros Hlt. assert (exists K, K = 64%nat) as [K HK] by eauto.
  destruct (append_all_represents K ds empty_tree []) as (t & Et & Hr); [done|apply represents_empty|exact Hlt|].
  destruct (represents_root K t ds HK Hr) as (r & Hg & Hc). exists t, r. by destruct Hr as (Hm & _).
Qed.
End Merkle.

(** A hash that can be evaluated, to run the model on concrete digests: it is
    not SHA-256, and no theorem depends on it. *)
Definition toy_sha (bs : list Z) : sha256 :=
  let s := foldl (fun acc b => u64 (acc * 257 + b + 1)) 7 bs in
  Sha256 s (u64 (s * 3)) (u64 (s * 5)) (u64 (s * 11)).

Definition toy_digest (n : Z) : sha256 := Sha256 n (n + 1) (n + 2) (n + 3).

Lemma incremental_merkle_correct_witness :
  exists t r,
    append_all toy_sha empty_tree (toy_digest <$> [1; 2; 3; 4; 5; 6; 7]) = Ok t /\
    num_digests_appended t = 7 /\ get_root toy_sha t = Ok r /\
    calculate_merkle toy_sha (toy_digest <$> [1; 2; 3; 4; 5; 6; 7]) = Ok r.
Proof. apply (incremental_merkle_correct toy_sha); vm_compute; reflexivity. Defined.
