(* ===== verification/MerkleLegacy.v ===== *)
(** The Merkle trees of blocks before Savanna: the reference computation
    [calculate_merkle_legacy] (chain/include/eosio/chain/merkle_legacy.hpp),
    which pads a level of odd length with its last node, and the incremental
    tree of incremental_merkle_legacy.hpp, which keeps the complete left nodes
    that a later leaf still needs and the root.  The two agree on every sequence
    of digests.  SHA-256 is the parameter [sha]. *)
From Stdlib Require Import ZArith Lia ZifyBool.
From stdpp Require Import base tactics numbers list.
From S2P Require Import Prelude Digest Raw Merkle.
#[local] Open Scope Z_scope.

(** ** Sides of a pair *)

Definition make_legacy_left_digest (val : sha256) : sha256 :=
  Sha256 (Z.land (hash0 val) 0xFFFFFFFFFFFFFF7F) (hash1 val) (hash2 val) (hash3 val).
Definition make_legacy_right_digest (val : sha256) : sha256 :=
  Sha256 (Z.lor (hash0 val) 0x0000000000000080) (hash1 val) (hash2 val) (hash3 val).
Definition is_legacy_left_digest (val : sha256) : bool := Z.land (hash0 val) 0x0000000000000080 =? 0.
Definition is_legacy_right_digest (val : sha256) : bool := negb (Z.land (hash0 val) 0x0000000000000080 =? 0).
Definition make_legacy_digest_pair (l r : sha256) : sha256 * sha256 :=
  (make_legacy_left_digest l, make_legacy_right_digest r).

(** [std::bit_width], and [std::bit_ceil] of a value whose ceiling is
    representable in 64 bits. *)
Definition bit_width (x : Z) : Z := if x =? 0 then 0 else Z.log2 x + 1.
Definition bit_ceil (x : Z) : Z := if x <=? 1 then 1 else 2 ^ (Z.log2 (x - 1) + 1).

Definition calculate_max_depth (node_count : Z) : Z :=
  if node_count =? 0 then 0 else bit_width (bit_ceil node_count).

Section MerkleLegacy.
Variable sha : list Z -> sha256.

(** [digest_type::hash(make_legacy_digest_pair(l, r))]. *)
Definition hash_pair (l r : sha256) : sha256 :=
  let '(l, r) := make_legacy_digest_pair l r in sha (sha256_bytes l ++ sha256_bytes r).

(** ** calculate_merkle_legacy *)

(** The inner loop, from [i] on with [count] rounds left; it writes over the
    nodes it has read. *)
Fixpoint combine_level (count : nat) (i : Z) (ids : list sha256) : result (list sha256) :=
  match count with
  | O => mret ids
  | S count =>
      l ← at_index ids (2 * i);
      r ← at_index ids (2 * i + 1);
      combine_level count (i + 1) (<[Z.to_nat i := hash_pair l r]> ids)
  end.

(** The outer loop; each round at least halves the rounded-up length. *)
Fixpoint merkle_levels (fuel : nat) (ids : list sha256) : result sha256 :=
  match fuel with
  | O => Err undefined_behavior
  | S fuel =>
      if 1 <? vsize ids then
        ids ← (if negb (vsize ids mod 2 =? 0) then b ← back ids; mret (ids ++ [b]) else mret ids);
        ids ← combine_level (Z.to_nat (vsize ids / 2)) 0 ids;
        merkle_levels fuel (take (Z.to_nat (vsize ids / 2)) ids)
      else front ids
  end.

Definition calculate_merkle_legacy (ids : list sha256) : result sha256 :=
  if 0 =? vsize ids then mret sha256_zero else merkle_levels (length ids) ids.

(** ** incremental_merkle_tree_legacy *)

Record incremental_merkle_tree_legacy : Type := {
  node_count : Z;                (* uint64_t *)
  active_nodes : list sha256
}.

Definition empty_tree_legacy : incremental_merkle_tree_legacy := {| node_count := 0; active_nodes := [] |}.

(** The loop of [append]; [active] is what the iterator has not read yet. *)
Fixpoint collapse (current_depth : nat) (partial : bool) (index : Z) (top : sha256)
    (active updated_active_nodes : list sha256) : result (list sha256 * sha256) :=
  match current_depth with
  | O => mret (updated_active_nodes, top)
  | S current_depth =>
      if Z.land index 1 =? 0 then
        let updated_active_nodes :=
          if partial then updated_active_nodes else updated_active_nodes ++ [top] in
        collapse current_depth true (Z.shiftr index 1) (hash_pair top top) active updated_active_nodes
      else
        match active with
        | [] => Err undefined_behavior
        | left_value :: active =>
            let updated_active_nodes :=
              if partial then updated_active_nodes ++ [left_value] else updated_active_nodes in
            collapse current_depth partial (Z.shiftr index 1) (hash_pair left_value top) active updated_active_nodes
        end
  end.

Definition append_legacy (t : incremental_merkle_tree_legacy) (digest : sha256)
    : result incremental_merkle_tree_legacy :=
  let max_depth := calculate_max_depth (u64 (node_count t + 1)) in
  '(updated_active_nodes, top) ←
    collapse (Z.to_nat (u64 (max_depth - 1))) false (node_count t) digest (active_nodes t) [];
  mret {| node_count := u64 (node_count t + 1); active_nodes := updated_active_nodes ++ [top] |}.

Definition get_root_legacy (t : incremental_merkle_tree_legacy) : result sha256 :=
  if 0 <? node_count t then back (active_nodes t) else mret sha256_zero.

Fixpoint append_all_legacy (t : incremental_merkle_tree_legacy) (ds : list sha256)
    : result incremental_merkle_tree_legacy :=
  match ds with
  | [] => Ok t
  | d :: ds => t ← append_legacy t d; append_all_legacy t ds
  end.

(** ** The abstract view *)

(** One level of the tree from the level below it. *)
Fixpoint pair_up (l : list sha256) : list sha256 :=
  match l with
  | a :: b :: l => hash_pair a b :: pair_up l
  | [a] => [hash_pair a a]
  | [] => []
  end.

(** The nodes a new leaf to the right of the leaves [l] is combined with, from
    the lowest of [k] levels up: on each level of odd length, its last node. *)
Fixpoint lefts (k : nat) (l : list sha256) : list sha256 :=
  match k with
  | O => []
  | S k =>
      if Nat.even (length l) then lefts k (pair_up l)
      else match last l with
           | Some x => x :: lefts k (pair_up (removelast l))
           | None => []
           end
  end.

(** The level [k] steps above [l]. *)
Fixpoint levels (k : nat) (l : list sha256) : list sha256 :=
  match k with O => l | S k => levels k (pair_up l) end.

Lemma list_pair_ind (P : list sha256 -> Prop) :
  P [] -> (forall a, P [a]) -> (forall a b l, P l -> P (a :: b :: l)) -> forall l, P l.
Proof.
  intros H0 H1 H2. fix IH 1. intros [|a [|b l]]; [exact H0|apply H1|apply H2, IH].
Qed.

Lemma pair_up_app l m : Nat.even (length l) = true -> pair_up (l ++ m) = pair_up l ++ pair_up m.
Proof.
  induction l as [|a|a b l IH] using list_pair_ind; [done|done|]. simpl. intros He. by rewrite IH.
Qed.

Lemma length_pair_up l : length (pair_up l) = Nat.div2 (S (length l)).
Proof. induction l as [|a|a b l IH] using list_pair_ind; [done..|]. simpl. by rewrite IH. Qed.

Lemma even_half n : Nat.even n = true -> Nat.div2 (S n) = Nat.div2 n /\ n = (2 * Nat.div2 n)%nat.
Proof.
  intros He. pose proof (Nat.div2_odd n). pose proof (Nat.div2_odd (S n)).
  rewrite Nat.odd_succ, He in *. rewrite <- Nat.negb_even, He in *. simpl in *. lia.
Qed.

Lemma odd_snoc {A} (l : list A) : Nat.even (length l) = false ->
  exists m y, l = m ++ [y] /\ Nat.even (length m) = true.
Proof.
  destruct l as [|y m _] using rev_ind; [done|]. rewrite length_app, Nat.add_1_r, Nat.even_succ, <- Nat.negb_even.
  intros He. exists m, y. split; [done|]. by destruct (Nat.even (length m)).
Qed.

Lemma lefts_even k l : Nat.even (length l) = true -> lefts (S k) l = lefts k (pair_up l).
Proof. intros He. cbn [lefts]. by rewrite He. Qed.

Lemma lefts_odd k m y : Nat.even (length m) = true -> lefts (S k) (m ++ [y]) = y :: lefts k (pair_up m).
Proof.
  intros He. cbn [lefts]. rewrite length_app, Nat.add_1_r, Nat.even_succ, <- Nat.negb_even, He. cbn [negb].
  by rewrite last_snoc, removelast_last.
Qed.

Lemma lefts_prefix k l : lefts k l `prefix_of` lefts (S k) l.
Proof.
  revert l; induction k as [|k IH]; intros l; [apply prefix_nil|].
  destruct (Nat.even (length l)) eqn:He.
  - rewrite !(lefts_even _ l) by done. apply IH.
  - destruct (odd_snoc l He) as (m & y & -> & Hm). rewrite !lefts_odd by done. apply prefix_cons, IH.
Qed.

Lemma land_1_even n : (Z.land (Z.of_nat n) 1 =? 0) = Nat.even n.
Proof.
  change 1 with (Z.ones 1). rewrite Z.land_ones by lia. change (2 ^ 1) with 2.
  rewrite Zmod_even. rewrite <- (Nat2Z.id n) at 2. destruct (Z.even (Z.of_nat n)) eqn:E.
  - apply Z.even_spec in E as [q E]. rewrite E. symmetry. apply Nat.even_spec. exists (Z.to_nat q). lia.
  - destruct (Nat.even (Z.to_nat (Z.of_nat n))) eqn:E'; [|done]. apply Nat.even_spec in E' as [q E'].
    assert (Z.even (Z.of_nat n) = true) by (apply Z.even_spec; exists (Z.of_nat q); lia). congruence.
Qed.

Lemma shiftr_half n : Z.shiftr (Z.of_nat n) 1 = Z.of_nat (Nat.div2 n).
Proof. rewrite Z.shiftr_div_pow2, Nat.div2_div, Nat2Z.inj_div by lia. done. Qed.

(** What the loop of [append] does to the leaves [l] and a new one: it reads
    the nodes that are left of it, and leaves those the next leaf needs and the
    root. *)
Lemma collapse_spec k (partial : bool) l top rest acc :
  (length l < 2 ^ k)%nat ->
  let q := if partial then l else l ++ [top] in
  exists r, collapse k partial (vsize l) top (lefts k l ++ rest) acc = Ok (acc ++ lefts k q, r) /\
    levels k (l ++ [top]) = [r] /\ lefts (S k) q `prefix_of` lefts k q ++ [r].
Proof.
  revert partial l top acc; induction k as [|k IH]; intros partial l top acc Hl q.
  { destruct l; [|simpl in Hl; lia]. exists top. subst q. cbn [collapse lefts app]. rewrite app_nil_r.
    split_and!; [done|done|]. destruct partial; [apply prefix_nil|done]. }
  cbn [collapse]. unfold vsize in *. rewrite land_1_even, shiftr_half. cbn [Nat.pow] in Hl.
  destruct (Nat.even (length l)) eqn:He.
  - destruct (even_half _ He) as [E1 E2]. rewrite <- E1, <- length_pair_up.
    rewrite lefts_even by done. cbn [levels]. rewrite pair_up_app by done.
    destruct (IH true (pair_up l) (hash_pair top top) (if partial then acc else acc ++ [top])) as (r & Er & Hr & Hp).
    { rewrite length_pair_up. lia. }
    exists r. rewrite Er. split_and!; [|done|].
    + subst q. destruct partial; [by rewrite lefts_even|]. rewrite lefts_odd by done. by rewrite <- app_assoc.
    + subst q. destruct partial; [by rewrite !(lefts_even _ l)|]. rewrite !lefts_odd by done. by apply prefix_cons.
  - destruct (odd_snoc l He) as (m & y & -> & Hm). rewrite lefts_odd by done. cbn [app levels].
    destruct (even_half _ Hm) as [E1 E2]. rewrite length_app, Nat.add_1_r in *. rewrite E1 in *.
    rewrite <- E1, <- length_pair_up, <- app_assoc. cbn [app]. rewrite pair_up_app by done.
    destruct (IH partial (pair_up m) (hash_pair y top) (if partial then acc ++ [y] else acc)) as (r & Er & Hr & Hp).
    { rewrite length_pair_up. lia. }
    exists r. rewrite Er. subst q. destruct partial.
    + rewrite !lefts_odd by done. split_and!; [by rewrite <- app_assoc|done|by apply prefix_cons].
    + rewrite <- app_assoc. cbn [app].
      assert (Nat.even (length (m ++ [y; top])) = true) as He' by (rewrite length_app, Nat.add_comm; done).
      rewrite !(lefts_even _ (m ++ _)) by done. rewrite pair_up_app by done. done.
Qed.

(** ** Depths *)

Lemma bit_ceil_log2_up n : 1 <= n -> bit_ceil n = 2 ^ Z.log2_up n.
Proof.
  intros Hn. unfold bit_ceil. destruct (Z.leb_spec n 1) as [H1|H1].
  - by replace n with 1 by lia.
  - unfold Z.log2_up. destruct (Z.compare_spec 1 n); [lia| |lia]. by rewrite <- Z.sub_1_r.
Qed.

Lemma max_depth_log2_up n : 1 <= n -> calculate_max_depth n = Z.log2_up n + 1.
Proof.
  intros Hn. unfold calculate_max_depth, bit_width. destruct (Z.eqb_spec n 0); [lia|].
  rewrite bit_ceil_log2_up by done. pose proof (Z.log2_up_nonneg n).
  destruct (Z.eqb_spec (2 ^ Z.log2_up n) 0) as [E|_]; [pose proof (Z.pow_pos_nonneg 2 (Z.log2_up n)); lia|].
  by rewrite Z.log2_pow2.
Qed.

Definition depth (n : nat) : nat := Z.to_nat (Z.log2_up (Z.of_nat n)).

Lemma depth_bound n : (n <= 2 ^ depth n)%nat.
Proof.
  unfold depth. pose proof (Z.log2_up_nonneg (Z.of_nat n)). apply Nat2Z.inj_le. rewrite Nat2Z.inj_pow, Z2Nat.id by done.
  destruct (Z.lt_ge_cases 1 (Z.of_nat n)) as [H1|H1]; [by apply Z.log2_up_spec|].
  rewrite Z.log2_up_eqn0 by done. simpl. lia.
Qed.

Lemma depth_lower k n : (depth n = S k -> 2 ^ k < n)%nat.
Proof.
  unfold depth. intros E. destruct (Z.lt_ge_cases 1 (Z.of_nat n)) as [H1|H1].
  - pose proof (Z.log2_up_spec _ H1) as [Hlo _]. apply Nat2Z.inj_lt. rewrite Nat2Z.inj_pow.
    by replace (Z.of_nat k) with (Z.pred (Z.log2_up (Z.of_nat n))) by lia.
  - rewrite Z.log2_up_eqn0 in E by done. simpl in E. lia.
Qed.

Lemma depth_S n : (depth (S n) <= S (depth n))%nat.
Proof.
  unfold depth. rewrite Nat2Z.inj_succ. pose proof (Z.log2_up_succ_le (Z.of_nat n)).
  pose proof (Z.log2_up_nonneg (Z.of_nat n)). lia.
Qed.

Lemma levels_round (n : list sha256) :
  vsize n < 2 ^ 63 -> Z.to_nat (u64 (calculate_max_depth (u64 (vsize n + 1)) - 1)) = depth (S (length n)).
Proof using.
  intros Hn. unfold vsize in *. rewrite (u64_small (Z.of_nat _ + 1)) by lia. rewrite max_depth_log2_up by lia.
  unfold depth. rewrite Nat2Z.inj_succ, <- Z.add_1_r.
  assert (Z.log2_up (Z.of_nat (length n) + 1) <= 63).
  { change 63 with (Z.log2_up (2 ^ 63)). apply Z.log2_up_le_mono. lia. }
  pose proof (Z.log2_up_nonneg (Z.of_nat (length n) + 1)). rewrite u64_small by lia. f_equal. lia.
Qed.

(** ** The incremental tree *)

(** The tree holds the nodes the next leaf needs, and the root. *)
Definition represents_legacy (t : incremental_merkle_tree_legacy) (l : list sha256) : Prop :=
  node_count t = vsize l /\
  lefts (S (depth (length l))) l `prefix_of` active_nodes t /\
  (l <> [] -> exists r, last (active_nodes t) = Some r /\ levels (depth (length l)) l = [r]).

Lemma append_represents_legacy t l d :
  represents_legacy t l -> vsize l < 2 ^ 63 ->
  exists t', append_legacy t d = Ok t' /\ represents_legacy t' (l ++ [d]).
Proof.
  intros (Hn & Ha & _) Hl. unfold append_legacy. rewrite Hn, levels_round by done.
  set (k := depth (S (length l))).
  assert (lefts k l `prefix_of` active_nodes t) as [rest ->].
  { pose proof (depth_S (length l)) as Hd. fold k in Hd. etrans; [|exact Ha].
    clear -Hd. induction Hd as [|m Hd IH]; [done|]. etrans; [exact IH|apply lefts_prefix]. }
  destruct (collapse_spec k false l d rest []) as (r & -> & Hr & Hp); [pose proof (depth_bound (S (length l))); fold k in H; lia|].
  rewrite ret_bind. eexists. split; [done|]. unfold represents_legacy. rewrite length_app, Nat.add_1_r. fold k.
  cbn [node_count active_nodes app]. split_and!.
  - unfold vsize in *. rewrite length_app, u64_small by lia. simpl. lia.
  - exact Hp.
  - intros _. exists r. split; [apply last_snoc|done].
Qed.

Lemma append_all_represents_legacy t l ds :
  represents_legacy t l -> vsize (l ++ ds) <= 2 ^ 63 ->
  exists t', append_all_legacy t ds = Ok t' /\ represents_legacy t' (l ++ ds).
Proof.
  revert t l; induction ds as [|d ds IH]; intros t l Ht Hl.
  { exists t. by rewrite app_nil_r. }
  cbn [append_all_legacy]. destruct (append_represents_legacy t l d Ht) as (t1 & -> & H1).
  { unfold vsize in *. rewrite length_app in Hl. simpl in Hl. lia. }
  rewrite ret_bind. replace (l ++ d :: ds) with ((l ++ [d]) ++ ds) in * by (by rewrite <- app_assoc). by apply IH.
Qed.

(** ** The reference computation *)

Lemma combine_level_spec c i ids :
  length ids = (2 * i + 2 * c)%nat ->
  exists junk, combine_level c (Z.of_nat i) ids = Ok (take i ids ++ pair_up (drop (2 * i) ids) ++ junk) /\
    length junk = (i + c)%nat.
Proof.
  revert i ids; induction c as [|c IH]; intros i ids Hl.
  { exists (drop i ids). rewrite (drop_ge ids (2 * i)) by lia. simpl. rewrite take_drop, length_drop. split; [done|lia]. }
  cbn [combine_level]. destruct (drop (2 * i) ids) as [|a [|b rest]] eqn:E.
  1,2: apply (f_equal length) in E; rewrite length_drop in E; simpl in E; lia.
  assert (ids !! (2 * i)%nat = Some a) as Ha by (rewrite <- (Nat.add_0_r (2 * i)), <- lookup_drop, E; done).
  assert (ids !! (2 * i + 1)%nat = Some b) as Hb by (rewrite <- lookup_drop, E; done).
  rewrite (at_index_lookup _ (2 * Z.of_nat i) a), ret_bind; [|lia|replace (Z.to_nat (2 * Z.of_nat i)) with (2 * i)%nat by lia; done].
  rewrite (at_index_lookup _ (2 * Z.of_nat i + 1) b), ret_bind; [|lia|replace (Z.to_nat (2 * Z.of_nat i + 1)) with (2 * i + 1)%nat by lia; done].
  rewrite Nat2Z.id. replace (Z.of_nat i + 1) with (Z.of_nat (S i)) by lia.
  destruct (IH (S i) (<[i := hash_pair a b]> ids)) as (junk & -> & Hj).
  { rewrite length_insert. lia. }
  exists junk. split; [|lia]. f_equal. cbn [pair_up].
  rewrite (take_S_r _ _ (hash_pair a b)) by (apply list_lookup_insert_eq; lia).
  rewrite take_insert_ge, drop_insert_lt by lia. rewrite <- app_assoc. cbn [app]. do 3 f_equal.
  replace (2 * S i)%nat with (2 * i + 2)%nat by lia. by rewrite <- drop_drop, E.
Qed.

Lemma pad_level ids :
  (1 < length ids)%nat ->
  exists padded, (if negb (vsize ids mod 2 =? 0) then b ← back ids; mret (ids ++ [b]) else mret ids) = Ok padded /\
    pair_up padded = pair_up ids /\ length padded = (2 * Nat.div2 (S (length ids)))%nat.
Proof.
  intros Hl. unfold vsize. change 2 with (2 ^ 1). rewrite <- Z.land_ones by lia. change (Z.ones 1) with 1.
  rewrite land_1_even. destruct (Nat.even (length ids)) eqn:He; cbn [negb].
  - exists ids. destruct (even_half _ He) as [-> ?]. done.
  - destruct (odd_snoc ids He) as (m & y & -> & Hm). rewrite back_snoc, ret_bind. exists ((m ++ [y]) ++ [y]).
    split; [done|]. rewrite <- app_assoc. cbn [app]. rewrite !pair_up_app by done. split; [done|].
    rewrite !length_app. destruct (even_half _ Hm) as [_ ?]. cbn [length]. rewrite !Nat.add_succ_r, !Nat.add_0_r.
    change (Nat.div2 (S (S (length m)))) with (S (Nat.div2 (length m))). lia.
Qed.

Lemma merkle_levels_spec k fuel ids :
  (1 <= length ids <= 2 ^ k)%nat -> match k with O => True | S k => (2 ^ k < length ids)%nat end -> (k < fuel)%nat ->
  exists r, merkle_levels fuel ids = Ok r /\ levels k ids = [r].
Proof.
  revert fuel ids; induction k as [|k IH]; intros fuel ids Hu Hl Hf; (destruct fuel as [|fuel]; [lia|]).
  { destruct ids as [|x [|]]; [simpl in *; lia| |simpl in *; lia]. by exists x. }
  assert (1 <= 2 ^ k)%nat by (apply Nat.neq_0_lt_0, Nat.pow_nonzero; lia). cbn [Nat.pow] in Hu.
  cbn [merkle_levels]. replace (1 <? vsize ids) with true by (unfold vsize; lia).
  destruct (pad_level ids) as (padded & -> & Hp & Hlen); [lia|]. rewrite ret_bind.
  pose proof (length_pair_up padded) as Hpl. destruct (combine_level_spec (Nat.div2 (S (length ids))) 0 padded) as (junk & Ec & Hj).
  { lia. }
  assert (Z.to_nat (vsize padded / 2) = Nat.div2 (S (length ids))) as ->.
  { unfold vsize. rewrite Hlen, Nat2Z.inj_mul, Z.mul_comm, Z.div_mul by lia. lia. }
  change (Z.of_nat 0) with 0 in Ec. rewrite Ec, ret_bind. cbn [take app drop Nat.mul].
  rewrite take_0, drop_0, Hp in *. cbn [app].
  assert (length (pair_up ids) = Nat.div2 (S (length ids))) as Hpi by apply length_pair_up.
  assert (Z.to_nat (vsize (pair_up ids ++ junk) / 2) = length (pair_up ids)) as ->.
  { unfold vsize. rewrite length_app, Hj, Hpi, Nat.add_0_l.
    set (h := Nat.div2 (S (length ids))). replace (Z.of_nat (h + h)) with (Z.of_nat h * 2) by lia. rewrite Z.div_mul by lia. lia. }
  rewrite take_app_length. apply IH; [| |lia].
  all: pose proof (Nat.div2_odd (S (length ids))) as Ho; destruct (Nat.odd (S (length ids))); cbn [Nat.b2n] in Ho; rewrite Hpi.
  1,2: lia. all: destruct k as [|k]; [done|]; cbn [Nat.pow] in *; lia.
Qed.

Lemma calculate_legacy_levels l :
  l <> [] -> exists r, calculate_merkle_legacy l = Ok r /\ levels (depth (length l)) l = [r].
Proof.
  intros Hne. assert (1 <= length l)%nat by (destruct l; [done|simpl; lia]).
  unfold calculate_merkle_legacy. replace (0 =? vsize l) with false by (unfold vsize; lia).
  pose proof (depth_bound (length l)). apply merkle_levels_spec; [lia| |].
  - destruct (depth (length l)) eqn:E; [done|]. by apply depth_lower.
  - destruct (depth (length l)) as [|k] eqn:E; [lia|]. apply depth_lower in E.
    pose proof (Nat.pow_gt_lin_r 2 k). lia.
Qed.

(** The incremental tree is the tree: appending digests one by one never
    reads past the stored nodes, and the root it then reports is the one
    [calculate_merkle_legacy] computes from all of them. *)
Theorem incremental_legacy_correct (ds : list sha256) :
  vsize ds <= 2 ^ 63 ->
  exists t root, append_all_legacy empty_tree_legacy ds = Ok t /\ node_count t = vsize ds /\
    get_root_legacy t = Ok root /\ calculate_merkle_legacy ds = Ok root.
Proof.
  intros Hl. destruct (append_all_represents_legacy empty_tree_legacy [] ds) as (t & Et & Hn & _ & Hr); [|done|].
  { split; [done|]. split; [apply prefix_nil|done]. }
  cbn [app] in *. unfold get_root_legacy. destruct ds as [|d ds].
  { exists t, sha256_zero. rewrite Hn. done. }
  destruct (calculate_legacy_levels (d :: ds)) as (r & Er & Hlv); [done|].
  destruct Hr as (r' & Hr' & Hlv'); [done|]. exists t, r. rewrite Hn. split_and!; [done..| |done].
  rewrite Hlv in Hlv'. injection Hlv' as <-. replace (0 <? vsize (d :: ds)) with true by (unfold vsize; simpl; lia).
  by apply back_last.
Qed.
End MerkleLegacy.

Lemma incremental_legacy_correct_witness :
  let sha := fun bs => Sha256 (u64 (le_value bs)) (vsize bs) 7 7 in
  let ds := [Sha256 1 2 3 4; Sha256 5 6 7 8; Sha256 9 10 11 12] in
  exists root, calculate_merkle_legacy sha ds = Ok root /\ root <> sha256_zero /\
    exists t, append_all_legacy sha empty_tree_legacy ds = Ok t /\ get_root_legacy t = Ok root.
Proof.
  destruct (incremental_legacy_correct (fun bs => Sha256 (u64 (le_value bs)) (vsize bs) 7 7)
    [Sha256 1 2 3 4; Sha256 5 6 7 8; Sha256 9 10 11 12]) as (t & root & Et & _ & Er & Ec); [vm_compute; congruence|].
  exists root. split; [exact Ec|]. split; [|exists t; split; [exact Et|exact Er]].
  intros ->. vm_compute in Ec. discriminate Ec.
Defined.
