(* ===== verification/FinalityCore.v ===== *)
(** The finality core of Savanna consensus: [finality_core], [block_ref],
    [qc_link] and [qc_claim_t] (chain/finality/finality_core.hpp and .cpp).

    Every [assert] of the source is a guard of the model that returns
    [Err assertion_failed], and every access to a vector is checked, so that
    "the call returns [Ok]" states that no assertion fires and no undefined
    access happens.  The nine invariants the header documents are the record
    [core_inv]; the theorems show that [create_core_for_genesis_block]
    establishes them, that [next] preserves them and meets its documented
    post-conditions, and that the garbage-collected core is exactly the view of
    the whole chain that the abstract specification computes from the full
    history of blocks and claims. *)
From Stdlib Require Import ZArith Lia ZifyBool.
From stdpp Require Import base tactics numbers list.
From S2P Require Import Prelude Digest Raw Merkle.
#[local] Open Scope Z_scope.

(** ** Data *)

(** A [block_time_type] is its slot number. *)
Record block_ref : Type := {
  ref_block_id : sha256;
  ref_timestamp : Z;
  ref_finality_digest : sha256;
  ref_active_policy_generation : Z;
  ref_pending_policy_generation : Z
}.

#[global] Instance block_ref_eq_dec : EqDecision block_ref.
Proof. solve_decision. Defined.

(** The default-constructed reference: [empty()] holds of it. *)
Definition block_ref_default : block_ref := {|
  ref_block_id := sha256_zero; ref_timestamp := 0; ref_finality_digest := sha256_zero;
  ref_active_policy_generation := 0; ref_pending_policy_generation := 0 |}.

Definition ref_empty (r : block_ref) : bool := sha256_empty (ref_block_id r).
Definition ref_block_num (r : block_ref) : Z := num_from_id (ref_block_id r).

Record qc_link : Type := {
  source_block_num : Z;
  target_block_num : Z;
  is_link_strong : bool
}.

Record qc_claim_t : Type := { claim_block_num : Z; is_strong_qc : bool }.

(** The defaulted [operator<=>]: lexicographic, [false < true]. *)
Definition claim_leb (a b : qc_claim_t) : bool :=
  (claim_block_num a <? claim_block_num b) ||
  ((claim_block_num a =? claim_block_num b) && implb (is_strong_qc a) (is_strong_qc b)).

Record core_metadata : Type := {
  meta_last_final_block_num : Z;
  meta_latest_qc_claim_block_num : Z
}.

Record finality_core : Type := {
  links : list qc_link;
  refs : list block_ref;
  genesis_timestamp : Z
}.

(** ** Operations *)

Definition create_core_for_genesis_block (block_id : sha256) (timestamp : Z) : finality_core :=
  let block_num := num_from_id block_id in
  {| links := [{| source_block_num := block_num; target_block_num := block_num;
                  is_link_strong := false |}];
     refs := [];
     genesis_timestamp := timestamp |}.

Definition is_genesis_core (c : finality_core) : bool := is_empty (refs c).

Definition current_block_num (c : finality_core) : result Z :=
  c_assert (negb (is_empty (links c)));;
  l ← back (links c); mret (source_block_num l).

Definition last_final_block_num (c : finality_core) : result Z :=
  c_assert (negb (is_empty (links c)));;
  l ← front (links c); mret (target_block_num l).

Definition latest_qc_claim (c : finality_core) : result qc_claim_t :=
  c_assert (negb (is_empty (links c)));;
  l ← back (links c);
  mret {| claim_block_num := target_block_num l; is_strong_qc := is_link_strong l |}.

Definition get_block_reference (c : finality_core) (block_num : Z) : result block_ref :=
  last_final ← last_final_block_num c;
  current ← current_block_num c;
  c_assert (last_final <=? block_num);;
  c_assert (block_num <? current);;
  let ref_index := u32 (block_num - last_final) in
  c_assert (ref_index <? vsize (refs c));;
  at_index (refs c) ref_index.

Definition last_final_block_timestamp (c : finality_core) : result Z :=
  if is_genesis_core c then mret (genesis_timestamp c)
  else n ← last_final_block_num c; r ← get_block_reference c n; mret (ref_timestamp r).

Definition latest_qc_block_timestamp (c : finality_core) : result Z :=
  c_assert (negb (is_empty (links c)));;
  if is_genesis_core c then mret (genesis_timestamp c)
  else l ← back (links c); r ← get_block_reference c (target_block_num l);
       mret (ref_timestamp r).

Definition extends (c : finality_core) (id : sha256) : result bool :=
  let block_num := num_from_id id in
  last_final ← last_final_block_num c;
  current ← current_block_num c;
  if (last_final <=? block_num) && (block_num <? current) then
    r ← get_block_reference c block_num; mret (sha256_eqb (ref_block_id r) id)
  else mret false.

Definition is_genesis_block_num (c : finality_core) (candidate : Z) : result bool :=
  last_final ← last_final_block_num c;
  current ← current_block_num c;
  c_assert ((last_final <=? candidate) && (candidate <=? current));;
  l ← front (links c);
  mret ((source_block_num l =? target_block_num l) && (source_block_num l =? candidate)).

Definition get_qc_link_from (c : finality_core) (block_num : Z) : result qc_link :=
  c_assert (negb (is_empty (links c)));;
  first ← front (links c);
  current ← current_block_num c;
  c_assert (source_block_num first <=? block_num);;
  c_assert (block_num <=? current);;
  let link_index := u32 (block_num - source_block_num first) in
  c_assert (link_index <? vsize (links c));;
  at_index (links c) link_index.

(** The pair of the new last final block number and the new
    [links.front().source_block_num]. *)
Definition get_new_block_numbers (c : finality_core) (most_recent_ancestor_with_qc : qc_claim_t)
    : result (Z * Z) :=
  let m := most_recent_ancestor_with_qc in
  current ← current_block_num c;
  c_assert (claim_block_num m <=? current);;
  latest ← latest_qc_claim c;
  c_assert (claim_block_num latest <=? claim_block_num m);;
  first ← front (links c);
  c_assert (source_block_num first <=? claim_block_num m);;
  last_final ← last_final_block_num c;
  if negb (is_strong_qc m) then mret (last_final, source_block_num first)
  else
    link ← get_qc_link_from c (claim_block_num m);
    c_assert (last_final <=? target_block_num link);;
    c_assert (source_block_num first <=? source_block_num link);;
    c_assert (claim_block_num latest <=? claim_block_num m);;
    mret (target_block_num link, source_block_num link).

Definition next_metadata (c : finality_core) (most_recent_ancestor_with_qc : qc_claim_t)
    : result core_metadata :=
  let m := most_recent_ancestor_with_qc in
  current ← current_block_num c;
  c_assert (claim_block_num m <=? current);;
  latest ← latest_qc_claim c;
  c_assert (claim_leb latest m);;
  '(new_last_final_block_num, _) ← get_new_block_numbers c m;
  mret {| meta_last_final_block_num := new_last_final_block_num;
          meta_latest_qc_claim_block_num := claim_block_num m |}.

Definition next (c : finality_core) (current_block : block_ref)
    (most_recent_ancestor_with_qc : qc_claim_t) : result finality_core :=
  let m := most_recent_ancestor_with_qc in
  current ← current_block_num c;
  c_assert (ref_block_num current_block =? current);;
  c_assert (match last (refs c) with
            | None => true
            | Some r => u32 (ref_block_num r + 1) =? ref_block_num current_block
            end);;
  c_assert (match last (refs c) with
            | None => true
            | Some r => ref_timestamp r <? ref_timestamp current_block
            end);;
  c_assert (claim_block_num m <=? current);;
  latest ← latest_qc_claim c;
  c_assert (claim_leb latest m);;
  '(new_last_final_block_num, new_links_front_source_block_num) ← get_new_block_numbers c m;
  c_assert (new_last_final_block_num <=? new_links_front_source_block_num);;
  c_assert (new_links_front_source_block_num <=? claim_block_num m);;
  last_final ← last_final_block_num c;
  first ← front (links c);
  c_assert (last_final <=? new_last_final_block_num);;
  c_assert (source_block_num first <=? new_links_front_source_block_num);;
  (* next_core.links *)
  let links_index := u32 (new_links_front_source_block_num - source_block_num first) in
  c_assert (links_index <? vsize (links c));;
  let kept_links := drop (Z.to_nat links_index) (links c) in
  kept_first ← front kept_links;
  c_assert (target_block_num kept_first =? new_last_final_block_num);;
  kept_last ← back kept_links;
  c_assert (source_block_num kept_last =? current);;
  c_assert (target_block_num kept_last <=? claim_block_num m);;
  let next_links := kept_links ++
    [{| source_block_num := u32 (current + 1);
        target_block_num := claim_block_num m;
        is_link_strong := is_strong_qc m |}] in
  (* next_core.refs *)
  let refs_index := u32 (new_last_final_block_num - last_final) in
  c_assert (negb (is_empty (refs c)) || (refs_index =? 0));;
  c_assert (is_empty (refs c) || (refs_index <? vsize (refs c)));;
  let kept_refs := drop (Z.to_nat refs_index) (refs c) in
  c_assert (is_empty (refs c) ||
            match kept_refs with
            | r :: _ => ref_block_num r =? new_last_final_block_num
            | [] => false
            end);;
  let next_refs := kept_refs ++ [current_block] in
  next_first ← front next_refs;
  c_assert (ref_block_num next_first =? new_last_final_block_num);;
  let next_core := {| links := next_links; refs := next_refs; genesis_timestamp := 0 |} in
  next_latest ← latest_qc_claim next_core;
  c_assert (claim_block_num latest <=? claim_block_num next_latest);;
  mret next_core.

(** ** Serialization *)

(** [block_time_type] is packed as its slot. *)
#[global] Instance Packable_block_ref : Packable block_ref := Packable_struct
  (fun r => (ref_block_id r, (UInt (n := 4) (ref_timestamp r), (ref_finality_digest r,
    (UInt (n := 4) (ref_active_policy_generation r), UInt (n := 4) (ref_pending_policy_generation r))))))
  (fun '(id, (ts, (fd, (a, p)))) =>
    {| ref_block_id := id; ref_timestamp := uint_value ts; ref_finality_digest := fd;
       ref_active_policy_generation := uint_value a; ref_pending_policy_generation := uint_value p |}).
#[global] Instance Packable_qc_link : Packable qc_link := Packable_struct
  (fun l => (UInt (n := 4) (source_block_num l), (UInt (n := 4) (target_block_num l), is_link_strong l)))
  (fun '(a, (b, c)) => {| source_block_num := uint_value a; target_block_num := uint_value b;
                          is_link_strong := c |}).
#[global] Instance Packable_qc_claim : Packable qc_claim_t := Packable_struct
  (fun q => (UInt (n := 4) (claim_block_num q), is_strong_qc q))
  (fun '(a, b) => {| claim_block_num := uint_value a; is_strong_qc := b |}).
#[global] Instance Packable_finality_core : Packable finality_core := Packable_struct
  (fun c => (links c, (refs c, UInt (n := 4) (genesis_timestamp c))))
  (fun '(l, (r, t)) => {| links := l; refs := r; genesis_timestamp := uint_value t |}).

#[global] Instance PackLaws_block_ref : PackLaws block_ref.
Proof. apply PackLaws_struct. by intros []. Qed.
#[global] Instance PackLaws_qc_link : PackLaws qc_link.
Proof. apply PackLaws_struct. by intros []. Qed.
#[global] Instance PackLaws_qc_claim : PackLaws qc_claim_t.
Proof. apply PackLaws_struct. by intros []. Qed.
#[global] Instance PackLaws_finality_core : PackLaws finality_core.
Proof. apply PackLaws_struct. by intros []. Qed.

(** [pack_for_digest]: like the reflected packing, without the policy
    generations of the references and without the size limit on them. *)
Definition ref_for_digest (r : block_ref) : sha256 * (uint 4 * sha256) :=
  (ref_block_id r, (UInt (ref_timestamp r), ref_finality_digest r)).
Definition pack_for_digest (c : finality_core) : result (list Z) :=
  l ← pack (links c);
  n ← pack_unsigned_int (u32 (vsize (refs c)));
  r ← pack_elements (ref_for_digest <$> refs c);
  t ← pack_u32 (genesis_timestamp c);
  mret (l ++ n ++ r ++ t).

(** [block_ref_digest_data] of each reference but the first, with the
    timestamp of the one before it. *)
Section Mroot.
Variable sha : list Z -> sha256.

Definition block_ref_digest (parent r : block_ref) : result sha256 :=
  n ← pack_u32 (ref_block_num r);
  t ← pack_u32 (ref_timestamp r);
  d ← pack_sha256 (ref_finality_digest r);
  p ← pack_u32 (ref_timestamp parent);
  mret (sha (n ++ t ++ d ++ p)).

Fixpoint block_ref_digests (parent : block_ref) (rs : list block_ref) : result (list sha256) :=
  match rs with
  | [] => Ok []
  | r :: rs => d ← block_ref_digest parent r; ds ← block_ref_digests r rs; mret (d :: ds)
  end.

Definition get_reversible_blocks_mroot (c : finality_core) : result sha256 :=
  if vsize (refs c) <=? 1 then mret sha256_zero
  else
    first ← front (refs c);
    ds ← block_ref_digests first (tail (refs c));
    calculate_merkle sha ds.
End Mroot.

(** ** The documented invariants *)

(** Invariants 1 to 7 of finality_core.hpp, the qc_link comment ("less than or
    equal to source_block_num, only equal for genesis block") as
    [inv_link_target] and [inv_claim_below], and the width of the numbers.
    Invariants 8 and 9 follow: [core_inv_8] and [core_inv_9]. *)
Record core_inv (c : finality_core) : Prop := {
  inv_1 : links c <> [];
  inv_2 : forall first lst, head (links c) = Some first -> last (links c) = Some lst ->
          target_block_num first <= source_block_num first <= target_block_num lst;
  inv_3 : refs c = [] -> exists l, links c = [l] /\ target_block_num l = source_block_num l;
  inv_4 : forall r first, head (refs c) = Some r -> head (links c) = Some first ->
          ref_block_num r = target_block_num first;
  inv_5 : forall r lst, last (refs c) = Some r -> last (links c) = Some lst ->
          ref_block_num r + 1 = source_block_num lst;
  inv_6 : forall i a b, refs c !! i = Some a -> refs c !! S i = Some b ->
          ref_block_num a + 1 = ref_block_num b /\ ref_timestamp a < ref_timestamp b;
  inv_7 : forall i a b, links c !! i = Some a -> links c !! S i = Some b ->
          source_block_num a + 1 = source_block_num b /\
          target_block_num a <= target_block_num b;
  inv_link_target : forall i l, links c !! i = Some l ->
          0 <= target_block_num l <= source_block_num l /\ source_block_num l < 2 ^ 32;
  inv_claim_below : refs c <> [] -> forall lst, last (links c) = Some lst ->
          target_block_num lst < source_block_num lst
}.

(** ** Consequences of the invariants *)

Section Inv.
#[local] Set Default Proof Using "All".
Context (c : finality_core) (Hinv : core_inv c).
Context (first lst : qc_link).
Context (Hfirst : head (links c) = Some first) (Hlst : last (links c) = Some lst).

Lemma links_lookup_0 : links c !! 0%nat = Some first.
Proof. by destruct (links c). Qed.

Lemma links_lookup_last : links c !! (length (links c) - 1)%nat = Some lst.
Proof. rewrite last_lookup in Hlst. by rewrite <- Nat.sub_1_r in Hlst. Qed.

Lemma link_source i l : links c !! i = Some l -> source_block_num l = source_block_num first + Z.of_nat i.
Proof.
  revert l; induction i as [|i IH]; intros l Hl.
  - rewrite links_lookup_0 in Hl. injection Hl as <-. lia.
  - destruct (links c !! i) as [a|] eqn:Ha.
    + destruct (inv_7 c Hinv i a l Ha Hl) as [<- _]. rewrite (IH a eq_refl). lia.
    + apply lookup_ge_None in Ha. apply lookup_lt_Some in Hl. lia.
Qed.

Lemma link_target_mono i j a b :
  links c !! i = Some a -> links c !! j = Some b -> (i <= j)%nat ->
  target_block_num a <= target_block_num b.
Proof.
  intros Ha Hb Hij. revert b Hb; induction Hij as [|j Hij IH]; intros b Hb.
  - assert (a = b) as -> by congruence. lia.
  - destruct (links c !! j) as [d|] eqn:Hd.
    + destruct (inv_7 c Hinv j d b Hd Hb) as [_ H]. specialize (IH d eq_refl). lia.
    + apply lookup_ge_None in Hd. apply lookup_lt_Some in Hb. lia.
Qed.

(** Invariant 9. *)
Lemma core_inv_9 : source_block_num lst = source_block_num first + vsize (links c) - 1.
Proof.
  rewrite (link_source _ _ links_lookup_last). pose proof (inv_1 c Hinv).
  unfold vsize. destruct (links c); simpl; [done|lia].
Qed.

Lemma ref_num i r : refs c !! i = Some r -> ref_block_num r = target_block_num first + Z.of_nat i.
Proof.
  revert r; induction i as [|i IH]; intros r Hr.
  - rewrite (inv_4 c Hinv r first); [lia| |done]. by destruct (refs c).
  - destruct (refs c !! i) as [a|] eqn:Ha.
    + destruct (inv_6 c Hinv i a r Ha Hr) as [<- _]. rewrite (IH a eq_refl). lia.
    + apply lookup_ge_None in Ha. apply lookup_lt_Some in Hr. lia.
Qed.

(** Invariant 8. *)
Lemma core_inv_8 : vsize (refs c) = source_block_num lst - target_block_num first.
Proof.
  destruct (last (refs c)) as [r|] eqn:Hr.
  - pose proof (inv_5 c Hinv r lst Hr Hlst) as H5. rewrite last_lookup in Hr.
    rewrite (ref_num _ _ Hr) in H5. apply lookup_lt_Some in Hr. unfold vsize. lia.
  - apply last_None in Hr. destruct (inv_3 c Hinv Hr) as (l & El & Ht).
    rewrite El in Hfirst, Hlst. simpl in *. rewrite Hr. unfold vsize; simpl.
    assert (first = l /\ lst = l) as [-> ->] by (split; congruence). lia.
Qed.

Lemma first_range : 0 <= target_block_num first <= source_block_num first /\ source_block_num first < 2 ^ 32.
Proof. apply (inv_link_target c Hinv 0), links_lookup_0. Qed.

Lemma lst_range : 0 <= target_block_num lst <= source_block_num lst /\ source_block_num lst < 2 ^ 32.
Proof. eapply (inv_link_target c Hinv), links_lookup_last. Qed.

Lemma links_not_empty : is_empty (links c) = false.
Proof. by destruct (links c). Qed.

Lemma current_block_num_Ok : current_block_num c = Ok (source_block_num lst).
Proof. unfold current_block_num. rewrite links_not_empty. simpl. unfold back. by rewrite Hlst. Qed.

Lemma last_final_block_num_Ok : last_final_block_num c = Ok (target_block_num first).
Proof. unfold last_final_block_num. rewrite links_not_empty. simpl. by rewrite (proj2 (front_head _ first)). Qed.

Lemma latest_qc_claim_Ok :
  latest_qc_claim c = Ok {| claim_block_num := target_block_num lst; is_strong_qc := is_link_strong lst |}.
Proof. unfold latest_qc_claim. rewrite links_not_empty. simpl. unfold back. by rewrite Hlst. Qed.

(** [get_block_reference] meets its post-condition on its documented domain. *)
Lemma get_block_reference_Ok n :
  target_block_num first <= n < source_block_num lst ->
  exists r, get_block_reference c n = Ok r /\ ref_block_num r = n /\
            refs c !! Z.to_nat (n - target_block_num first) = Some r.
Proof.
  intros Hn. pose proof core_inv_8 as H8. pose proof first_range. pose proof lst_range.
  unfold vsize in H8.
  destruct (lookup_lt_is_Some_2 (refs c) (Z.to_nat (n - target_block_num first))) as [r Hr]; [lia|].
  exists r. split_and!; [|rewrite (ref_num _ _ Hr); lia|done].
  unfold get_block_reference. rewrite last_final_block_num_Ok, ret_bind, current_block_num_Ok, ret_bind.
  rewrite u32_small by lia. do 2 step_assert.
  rewrite c_assert_true by (unfold vsize; lia). rewrite ret_bind.
  apply at_index_Ok. split; [lia|done].
Qed.

Lemma get_qc_link_from_Ok n :
  source_block_num first <= n <= source_block_num lst ->
  exists l, get_qc_link_from c n = Ok l /\ source_block_num l = n /\
            links c !! Z.to_nat (n - source_block_num first) = Some l.
Proof.
  intros Hn. pose proof core_inv_9 as H9. pose proof first_range. pose proof lst_range.
  unfold vsize in H9.
  destruct (lookup_lt_is_Some_2 (links c) (Z.to_nat (n - source_block_num first))) as [l Hl]; [lia|].
  exists l. split_and!; [|rewrite (link_source _ _ Hl); lia|done].
  unfold get_qc_link_from. rewrite links_not_empty. step_assert.
  rewrite (proj2 (front_head _ first) Hfirst), ret_bind, current_block_num_Ok, ret_bind.
  rewrite u32_small by lia. do 2 step_assert.
  rewrite c_assert_true by (unfold vsize; lia). rewrite ret_bind.
  apply at_index_Ok. split; [lia|done].
Qed.

(** The new front link: the old one after a weak claim, the link that starts at
    the claimed block after a strong one. *)
Lemma get_new_block_numbers_Ok m :
  target_block_num lst <= claim_block_num m <= source_block_num lst ->
  exists i l, get_new_block_numbers c m = Ok (target_block_num l, source_block_num l) /\
    links c !! i = Some l /\ source_block_num l <= claim_block_num m /\
    (if is_strong_qc m then source_block_num l = claim_block_num m else l = first).
Proof.
  intros Hm. pose proof (inv_2 c Hinv first lst Hfirst Hlst) as H2.
  unfold get_new_block_numbers.
  rewrite current_block_num_Ok, ret_bind. step_assert.
  rewrite latest_qc_claim_Ok, ret_bind. cbn [claim_block_num]. step_assert.
  rewrite (proj2 (front_head _ first) Hfirst), ret_bind. step_assert.
  rewrite last_final_block_num_Ok, ret_bind.
  destruct (is_strong_qc m); cbn [negb].
  - destruct (get_qc_link_from_Ok (claim_block_num m)) as (l & El & Hsrc & Hl); [lia|].
    exists (Z.to_nat (claim_block_num m - source_block_num first)), l.
    rewrite El, ret_bind.
    pose proof (link_target_mono 0 _ first l links_lookup_0 Hl ltac:(lia)).
    do 2 step_assert. rewrite ret_bind. split_and!; [done|done|lia|done].
  - exists 0%nat, first. split_and!; [done|apply links_lookup_0|lia|done].
Qed.
End Inv.

Lemma core_inv_ends c :
  core_inv c -> exists first lst, head (links c) = Some first /\ last (links c) = Some lst.
Proof.
  intros Hinv. pose proof (inv_1 c Hinv). destruct (links c) as [|l ls] eqn:E; [done|].
  destruct (last (l :: ls)) as [x|] eqn:El; [by exists l, x|]. by apply last_None in El.
Qed.

(** ** next *)

(** The documented preconditions of [next]. *)
Record next_pre (c : finality_core) (current_block : block_ref) (m : qc_claim_t) : Prop := {
  pre_current : current_block_num c = Ok (ref_block_num current_block);
  pre_timestamp : forall r, last (refs c) = Some r -> ref_timestamp r < ref_timestamp current_block;
  pre_claim : exists latest, latest_qc_claim c = Ok latest /\ claim_leb latest m = true;
  pre_claim_current : claim_block_num m <= ref_block_num current_block;
  pre_no_wrap : ref_block_num current_block + 1 < 2 ^ 32
}.

Lemma drop_lookup_head {A} (l : list A) n x : l !! n = Some x -> exists l', drop n l = x :: l'.
Proof.
  intros H. exists (drop (S n) l). by apply drop_S.
Qed.

Lemma last_drop {A} (l : list A) n : (n < length l)%nat -> last (drop n l) = last l.
Proof.
  intros Hn. rewrite !last_lookup, length_drop, lookup_drop. f_equal. lia.
Qed.

Lemma latest_qc_claim_snoc c ls l :
  links c = ls ++ [l] ->
  latest_qc_claim c = Ok {| claim_block_num := target_block_num l; is_strong_qc := is_link_strong l |}.
Proof.
  intros E. unfold latest_qc_claim. rewrite E. step_assert by (by destruct ls).
  by rewrite back_snoc.
Qed.

(** The references that stay when link [i] becomes the first one: none before
    the second block, and otherwise they start at the target of the link. *)
Lemma kept_refs c first lst i l :
  core_inv c -> head (links c) = Some first -> last (links c) = Some lst -> links c !! i = Some l ->
  let k := Z.to_nat (target_block_num l - target_block_num first) in
  (refs c = [] /\ i = 0%nat /\ l = first /\ k = 0%nat) \/
  exists r rs, refs c <> [] /\ (k < length (refs c))%nat /\ drop k (refs c) = r :: rs /\ ref_block_num r = target_block_num l.
Proof.
  intros Hinv Hfirst Hlst Hl k. pose proof (links_lookup_0 c Hinv first lst Hfirst Hlst) as H0.
  pose proof (lookup_lt_Some _ _ _ Hl) as Hilen. pose proof (links_lookup_last c Hinv first lst Hfirst Hlst) as Hll.
  pose proof (link_target_mono c Hinv first lst Hfirst Hlst 0 i first l H0 Hl ltac:(lia)) as Hmono.
  pose proof (link_target_mono c Hinv first lst Hfirst Hlst i _ l lst Hl Hll ltac:(lia)) as Hmono2.
  pose proof (core_inv_8 c Hinv first lst Hfirst Hlst) as H8.
  destruct (refs c) as [|r0 rs] eqn:Erefs; [left|right].
  - destruct (inv_3 c Hinv Erefs) as (l0 & El0 & _).
    assert (i = 0%nat) as -> by (rewrite El0 in Hilen; simpl in Hilen; lia).
    assert (l = first) as -> by congruence. split_and!; [done|done|done|lia].
  - assert (k < length (r0 :: rs))%nat as Hk.
    { pose proof (inv_claim_below c Hinv ltac:(by rewrite Erefs) lst Hlst). unfold vsize in H8. lia. }
    destruct (lookup_lt_is_Some_2 _ _ Hk) as [r Hr]. destruct (drop_lookup_head _ _ _ Hr) as [rs' Ers'].
    exists r, rs'. split_and!; [done|done|done|].
    rewrite (ref_num c Hinv first lst Hfirst Hlst k r) by (by rewrite Erefs). lia.
Qed.

(** What [next] returns, in terms of the link kept at the front. *)
Lemma next_unfold c current_block m first lst :
  core_inv c -> head (links c) = Some first -> last (links c) = Some lst ->
  next_pre c current_block m ->
  exists i l, links c !! i = Some l /\
    source_block_num l <= claim_block_num m /\
    (if is_strong_qc m then source_block_num l = claim_block_num m else l = first) /\
    next c current_block m = Ok {|
      links := drop i (links c) ++
        [{| source_block_num := source_block_num lst + 1; target_block_num := claim_block_num m;
            is_link_strong := is_strong_qc m |}];
      refs := drop (Z.to_nat (target_block_num l - target_block_num first)) (refs c) ++ [current_block];
      genesis_timestamp := 0 |}.
Proof.
  intros Hinv Hfirst Hlst [Hcur Hts (latest & Elatest & Hle) Hmc Hwrap].
  erewrite current_block_num_Ok in Hcur by eauto. apply Ok_inj in Hcur.
  erewrite latest_qc_claim_Ok in Elatest by eauto. apply Ok_inj in Elatest. subst latest.
  unfold claim_leb in Hle. cbn [claim_block_num is_strong_qc] in Hle.
  destruct (get_new_block_numbers_Ok c Hinv first lst Hfirst Hlst m) as (i & l & Enew & Hl & Hsrc & Hkind);
    [lia|].
  exists i, l. split_and!; [done|done|done|].
  pose proof (inv_link_target c Hinv i l Hl) as Hlt.
  pose proof (link_source c Hinv first lst Hfirst Hlst i l Hl) as Hls.
  pose proof (link_target_mono c Hinv first lst Hfirst Hlst 0 i first l (links_lookup_0 c Hinv first lst Hfirst Hlst) Hl ltac:(lia)) as Hmono.
  pose proof (links_lookup_last c Hinv first lst Hfirst Hlst) as Hll.
  pose proof (lookup_lt_Some _ _ _ Hl) as Hilen.
  pose proof (link_target_mono c Hinv first lst Hfirst Hlst i _ l lst Hl Hll ltac:(lia)) as Hmono2.
  pose proof (core_inv_8 c Hinv first lst Hfirst Hlst) as H8.
  pose proof (first_range c Hinv first lst Hfirst Hlst) as Hfr.
  unfold next.
  erewrite current_block_num_Ok by eauto. rewrite ret_bind. step_assert.
  assert (forall r, last (refs c) = Some r -> ref_block_num r + 1 = source_block_num lst) as H5
    by (intros; by apply (inv_5 c Hinv)).
  step_assert by (destruct (last (refs c)) as [r|] eqn:Er; [|done]; specialize (H5 r eq_refl);
    pose proof (num_from_id_range (ref_block_id r)); unfold is_u32, ref_block_num in *;
    rewrite u32_small; lia).
  step_assert by (destruct (last (refs c)) as [r|] eqn:Er; [|done]; specialize (Hts r eq_refl); lia).
  step_assert.
  erewrite latest_qc_claim_Ok by eauto. rewrite ret_bind.
  step_assert by (exact Hle). rewrite Enew, ret_bind. cbn beta iota.
  do 2 step_assert.
  erewrite last_final_block_num_Ok by eauto. rewrite ret_bind.
  rewrite (proj2 (front_head _ first) Hfirst), ret_bind. do 2 step_assert.
  rewrite (u32_small (source_block_num l - _)) by lia.
  replace (Z.to_nat (source_block_num l - source_block_num first)) with i by lia.
  step_assert by (unfold vsize; lia).
  rewrite (front_drop_lookup _ _ _ Hl), ret_bind. step_assert.
  rewrite (proj2 (back_last (drop i (links c)) lst)) by (by rewrite last_drop).
  rewrite ret_bind. do 2 step_assert. rewrite (u32_small (_ + 1)) by lia.
  rewrite (u32_small (target_block_num l - _)) by lia.
  set (k := Z.to_nat (target_block_num l - target_block_num first)).
  destruct (kept_refs c first lst i l Hinv Hfirst Hlst Hl) as [(Er & -> & -> & Hk)|(r & rs & Er & Hk & Ers & Hrn)]; fold k in Hk.
  - rewrite Er in H8 |- *. unfold vsize in H8; simpl in H8. rewrite Hk. cbn [is_empty negb orb].
    repeat first [rewrite ret_bind|step_assert|progress cbn [drop app front]].
    erewrite latest_qc_claim_snoc by reflexivity. rewrite ret_bind. step_assert by (cbn; lia). done.
  - fold k in Ers. rewrite Ers. destruct (refs c) as [|r0 rs0] eqn:Erefs; [done|]. cbn [is_empty negb orb].
    repeat first [rewrite ret_bind|step_assert|step_assert by (unfold vsize; lia)|progress cbn [app front]].
    erewrite latest_qc_claim_snoc by reflexivity. rewrite ret_bind. step_assert by (cbn; lia). done.
Qed.

Lemma lookup_drop_snoc {A} (l : list A) i x j y :
  (i <= length l)%nat -> (drop i l ++ [x]) !! j = Some y ->
  l !! (i + j)%nat = Some y \/ (i + j = length l /\ y = x)%nat.
Proof.
  intros Hi H. apply lookup_app_Some in H as [H|[Hj H]].
  - left. by rewrite lookup_drop in H.
  - right. rewrite length_drop in Hj, H. apply list_lookup_singleton_Some in H as [H <-].
    split; [lia|done].
Qed.

(** Consecutive elements of a list that lost a prefix and gained an element. *)
Lemma consecutive_drop_snoc {A} (P : A -> A -> Prop) (l : list A) i x :
  (i <= length l)%nat ->
  (forall j a b, l !! j = Some a -> l !! S j = Some b -> P a b) ->
  (forall a, last l = Some a -> P a x) ->
  forall j a b, (drop i l ++ [x]) !! j = Some a -> (drop i l ++ [x]) !! S j = Some b -> P a b.
Proof.
  intros Hi Hl Hx j a b Ha Hb.
  apply lookup_drop_snoc in Ha as [Ha|[Ha ->]], Hb as [Hb|[Hb ->]]; try done.
  - apply (Hl (i + j)%nat); [done|]. by rewrite Nat.add_succ_r in Hb.
  - apply Hx. rewrite last_lookup. replace (pred (length l)) with (i + j)%nat by lia. done.
  - apply lookup_lt_Some in Hb. lia.
  - lia.
Qed.

Lemma head_drop_lookup {A} (l : list A) n : head (drop n l) = l !! n.
Proof. revert n; induction l as [|x l IH]; intros [|n]; try done. apply IH. Qed.

Lemma head_app_Some {A} (l k : list A) x : head l = Some x -> head (l ++ k) = Some x.
Proof. by destruct l. Qed.

Section NextInv.
Context (c : finality_core) (Hinv : core_inv c) (first lst : qc_link).
Context (Hfirst : head (links c) = Some first) (Hlst : last (links c) = Some lst).
Context (cb : block_ref) (m : qc_claim_t) (i : nat) (l : qc_link).
Context (Hl : links c !! i = Some l) (Hsrc : source_block_num l <= claim_block_num m).
Context (Hcb : ref_block_num cb = source_block_num lst).
Context (Hts : forall r, last (refs c) = Some r -> ref_timestamp r < ref_timestamp cb).
Context (Hm : target_block_num lst <= claim_block_num m <= source_block_num lst).
Context (Hwrap : source_block_num lst + 1 < 2 ^ 32).
#[local] Set Default Proof Using "All".

Let k := Z.to_nat (target_block_num l - target_block_num first).
Let new_link := {| source_block_num := source_block_num lst + 1;
                   target_block_num := claim_block_num m; is_link_strong := is_strong_qc m |}.
Let c' := {| links := drop i (links c) ++ [new_link];
             refs := drop k (refs c) ++ [cb]; genesis_timestamp := 0 |}.

Lemma next_refs_bound : (k <= length (refs c))%nat /\
  (refs c <> [] -> exists r, refs c !! k = Some r /\ ref_block_num r = target_block_num l).
Proof.
  pose proof (core_inv_8 c Hinv first lst Hfirst Hlst) as H8.
  pose proof (links_lookup_last c Hinv first lst Hfirst Hlst) as Hll.
  pose proof (lookup_lt_Some _ _ _ Hl) as Hi.
  pose proof (link_target_mono c Hinv first lst Hfirst Hlst i _ l lst Hl Hll ltac:(lia)).
  pose proof (link_target_mono c Hinv first lst Hfirst Hlst 0 i first l
    (links_lookup_0 c Hinv first lst Hfirst Hlst) Hl ltac:(lia)).
  pose proof (lst_range c Hinv first lst Hfirst Hlst). unfold vsize in H8. subst k.
  split; [lia|]. intros Hne. pose proof (inv_claim_below c Hinv Hne lst Hlst).
  destruct (lookup_lt_is_Some_2 (refs c) (Z.to_nat (target_block_num l - target_block_num first)))
    as [r Hr]; [lia|].
  exists r. split; [done|]. rewrite (ref_num c Hinv first lst Hfirst Hlst _ _ Hr). lia.
Qed.

Lemma next_core_first : head (links c') = Some l.
Proof. apply head_app_Some. by rewrite head_drop_lookup. Qed.

Lemma next_core_last : last (links c') = Some new_link.
Proof. apply last_snoc. Qed.

Lemma next_core_ref_first : exists r, head (refs c') = Some r /\ ref_block_num r = target_block_num l.
Proof.
  assert (refs c = [] \/ refs c <> []) as [E|E] by (destruct (refs c); auto).
  - exists cb. destruct (inv_3 c Hinv E) as (l0 & El0 & Ht0). unfold c'; simpl. rewrite E, drop_nil.
    split; [done|]. rewrite El0 in Hlst, Hl. apply list_lookup_singleton_Some in Hl as [_ <-].
    simpl in Hlst. assert (lst = l0) as -> by congruence. lia.
  - destruct next_refs_bound as [_ [r [Hr Hn]]]; [done|]. exists r. split; [|done].
    apply head_app_Some. by rewrite head_drop_lookup.
Qed.

Lemma next_core_inv : core_inv c'.
Proof.
  pose proof (lookup_lt_Some _ _ _ Hl) as Hi. destruct next_refs_bound as [Hk _].
  pose proof (inv_link_target c Hinv i l Hl) as Hlt.
  pose proof (lst_range c Hinv first lst Hfirst Hlst) as Hlr.
  constructor.
  - unfold c'; simpl. intros E. by apply app_eq_nil in E as [_ E].
  - intros f x Hf Hx. rewrite next_core_first in Hf. rewrite next_core_last in Hx.
    injection Hf as <-. injection Hx as <-. simpl. lia.
  - unfold c'; simpl. intros E. by apply app_eq_nil in E as [_ E].
  - intros r f Hr Hf. destruct next_core_ref_first as (r' & Hr' & Hn).
    rewrite next_core_first in Hf. congruence.
  - intros r x Hr Hx. rewrite next_core_last in Hx. injection Hx as <-.
    unfold c' in Hr; simpl in Hr. rewrite last_snoc in Hr. injection Hr as <-. simpl. lia.
  - apply (consecutive_drop_snoc (fun a b => ref_block_num a + 1 = ref_block_num b /\
             ref_timestamp a < ref_timestamp b)); [done|apply (inv_6 c Hinv)|].
    intros a Ha. split; [|by apply Hts]. rewrite Hcb. by apply (inv_5 c Hinv).
  - apply (consecutive_drop_snoc (fun a b => source_block_num a + 1 = source_block_num b /\
             target_block_num a <= target_block_num b)); [lia|apply (inv_7 c Hinv)|].
    intros a Ha. assert (a = lst) as -> by congruence. simpl. lia.
  - intros j x Hx. apply lookup_drop_snoc in Hx as [Hx|[_ ->]]; [|simpl; lia|lia].
    by apply (inv_link_target c Hinv (i + j)).
  - intros _ x Hx. rewrite next_core_last in Hx. injection Hx as <-. simpl. lia.
Qed.
End NextInv.

(** ** Reachable cores and the abstract chain *)

(** What [next] and [create_core_for_genesis_block] promise. *)
Record genesis_post (block_id : sha256) (timestamp : Z) (c : finality_core) : Prop := {
  gen_inv : core_inv c;
  gen_current : current_block_num c = Ok (num_from_id block_id);
  gen_claim : latest_qc_claim c = Ok {| claim_block_num := num_from_id block_id; is_strong_qc := false |};
  gen_last_final : last_final_block_num c = Ok (num_from_id block_id);
  gen_last_final_time : last_final_block_timestamp c = Ok timestamp;
  gen_qc_time : latest_qc_block_timestamp c = Ok timestamp
}.

Record next_post (c : finality_core) (current_block : block_ref) (m : qc_claim_t)
    (c' : finality_core) : Prop := {
  post_inv : core_inv c';
  post_current : current_block_num c' = Ok (ref_block_num current_block + 1);
  post_claim : latest_qc_claim c' = Ok m;
  post_last_final : exists lf lf', last_final_block_num c = Ok lf /\
    last_final_block_num c' = Ok lf' /\ lf <= lf' <= claim_block_num m;
  post_extends : extends c' (ref_block_id current_block) = Ok true
}.

Lemma genesis_core_post block_id timestamp :
  genesis_post block_id timestamp (create_core_for_genesis_block block_id timestamp).
Proof.
  pose proof (num_from_id_range block_id) as Hr. unfold is_u32 in Hr.
  constructor; try done. constructor; simpl; try done.
  - intros f x [= <-] [= <-]. simpl. lia.
  - intros _. eexists. split; [done|done].
  - intros j x Hx. apply list_lookup_singleton_Some in Hx as [_ <-]. simpl. lia.
Qed.

(** The blocks a core knows are those of [refs]; for their ids, and for no
    other, [extends] answers true. *)
Lemma extends_refs c id :
  core_inv c -> extends c id = Ok (bool_decide (id ∈ (ref_block_id <$> refs c))).
Proof.
  intros Hinv. destruct (core_inv_ends c Hinv) as (first & lst & Hfirst & Hlst).
  pose proof (core_inv_8 c Hinv first lst Hfirst Hlst) as H8.
  unfold extends. erewrite last_final_block_num_Ok, current_block_num_Ok by eauto.
  rewrite !ret_bind. symmetry.
  destruct ((target_block_num first <=? num_from_id id) && (num_from_id id <? source_block_num lst)) eqn:E.
  - destruct (get_block_reference_Ok c Hinv first lst Hfirst Hlst (num_from_id id))
      as (r & Er & Hn & Hr); [lia|]. rewrite Er, ret_bind. unfold mret, result_ret. f_equal.
    apply eq_true_iff_eq. rewrite bool_decide_eq_true, sha256_eqb_eq, list_elem_of_fmap. split.
    + intros (r' & -> & Hr'). apply list_elem_of_lookup in Hr' as [k Hk].
      pose proof (ref_num c Hinv first lst Hfirst Hlst k r' Hk) as Hk'.
      fold (ref_block_num r') in Hr. replace (Z.to_nat _) with k in Hr by lia. congruence.
    + intros <-. exists r. split; [done|]. by eapply list_elem_of_lookup_2.
  - unfold mret, result_ret. f_equal. apply bool_decide_eq_false. rewrite list_elem_of_fmap.
    intros (r & -> & Hr). apply list_elem_of_lookup in Hr as [k Hk].
    pose proof (ref_num c Hinv first lst Hfirst Hlst k r Hk) as Hk'. unfold ref_block_num in Hk'.
    apply lookup_lt_Some in Hk. unfold vsize in H8. lia.
Qed.

Lemma next_ok (c : finality_core) (current_block : block_ref) (m : qc_claim_t) :
  core_inv c -> next_pre c current_block m ->
  exists c', next c current_block m = Ok c' /\ next_post c current_block m c'.
Proof.
  intros Hinv Hpre. destruct (core_inv_ends c Hinv) as (first & lst & Hfirst & Hlst).
  destruct (next_unfold c current_block m first lst Hinv Hfirst Hlst Hpre)
    as (i & l & Hl & Hsrc & Hkind & ->).
  destruct Hpre as [Hcur Hts (latest & Elatest & Hle) Hmc Hwrap].
  erewrite current_block_num_Ok in Hcur by eauto. apply Ok_inj in Hcur.
  erewrite latest_qc_claim_Ok in Elatest by eauto. apply Ok_inj in Elatest. subst latest.
  unfold claim_leb in Hle. cbn [claim_block_num is_strong_qc] in Hle.
  set (c' := {| links := _; refs := _; genesis_timestamp := 0 |}).
  assert (core_inv c') as Hinv' by (apply (next_core_inv c Hinv first lst); done || lia).
  assert (head (links c') = Some l) as Hf' by (apply head_app_Some; by rewrite head_drop_lookup).
  exists c'. split; [done|]. constructor; [done| | | |].
  - erewrite current_block_num_Ok by (eauto; apply last_snoc). simpl. by rewrite Hcur.
  - erewrite latest_qc_claim_Ok by (eauto; apply last_snoc). by destruct m.
  - eexists _, _. split_and!; [by erewrite last_final_block_num_Ok by eauto
      |by erewrite last_final_block_num_Ok by (eauto; apply last_snoc)| |].
    + apply (link_target_mono c Hinv first lst Hfirst Hlst 0 i); [|done|lia].
      by apply (links_lookup_0 c Hinv first lst).
    + pose proof (inv_link_target c Hinv i l Hl). lia.
  - rewrite extends_refs by done. f_equal. apply bool_decide_eq_true. unfold c'; cbn [refs].
    rewrite fmap_app. apply elem_of_app. right. by apply list_elem_of_singleton.
Qed.

(** The whole chain since genesis, as a light client without garbage collection
    would keep it: the blocks with, for each of them, the claim its child
    made. *)
Definition history : Type := list (block_ref * qc_claim_t).

(** The links of all blocks: the genesis link, and for each child of a block of
    the history the link it makes. *)
Definition genesis_link (g : Z) : qc_link :=
  {| source_block_num := g; target_block_num := g; is_link_strong := false |}.
Definition claim_link (n : Z) (m : qc_claim_t) : qc_link :=
  {| source_block_num := n; target_block_num := claim_block_num m; is_link_strong := is_strong_qc m |}.
Fixpoint child_links (n : Z) (H : history) : list qc_link :=
  match H with
  | [] => []
  | (_, m) :: H => claim_link (n + 1) m :: child_links (n + 1) H
  end.
Definition all_links (g : Z) (H : history) : list qc_link := genesis_link g :: child_links g H.

(** The block of the last strong claim (the genesis block if there is none). *)
Definition last_strong (g : Z) (H : history) : Z :=
  foldl (fun b x => if is_strong_qc x.2 then claim_block_num x.2 else b) g H.

(** The two-chain rule on the whole chain: the last final block is the one
    claimed by the block of the last strong claim. *)
Definition abstract_lib (g : Z) (H : history) : Z :=
  match all_links g H !! Z.to_nat (last_strong g H - g) with
  | Some l => target_block_num l
  | None => g
  end.

Inductive core_reachable (id : sha256) (ts : Z) : history -> finality_core -> Prop :=
| reach_genesis : core_reachable id ts [] (create_core_for_genesis_block id ts)
| reach_next H c r m c' :
    core_reachable id ts H c -> next_pre c r m -> next c r m = Ok c' ->
    core_reachable id ts (H ++ [(r, m)]) c'.

Lemma child_links_app n H1 H2 :
  child_links n (H1 ++ H2) = child_links n H1 ++ child_links (n + Z.of_nat (length H1)) H2.
Proof.
  revert n; induction H1 as [|[r m] H1 IH]; intros n; simpl.
  - by rewrite Z.add_0_r.
  - rewrite IH. do 2 f_equal. f_equal. lia.
Qed.

Lemma child_links_length n H : length (child_links n H) = length H.
Proof. revert n; induction H as [|[r m] H IH]; intros n; simpl; [done|by rewrite IH]. Qed.

Lemma all_links_snoc g H r m :
  all_links g (H ++ [(r, m)]) = all_links g H ++ [claim_link (g + Z.of_nat (length H) + 1) m].
Proof. unfold all_links. by rewrite child_links_app. Qed.

Lemma all_links_length g H : length (all_links g H) = S (length H).
Proof. unfold all_links. simpl. by rewrite child_links_length. Qed.

Lemma last_strong_snoc g H r m :
  last_strong g (H ++ [(r, m)]) = if is_strong_qc m then claim_block_num m else last_strong g H.
Proof. unfold last_strong. by rewrite foldl_app. Qed.

(** The refinement relation between a core and the chain it stands for. *)
Record core_refines (g : Z) (H : history) (c : finality_core) : Prop := {
  rf_inv : core_inv c;
  rf_front : exists f, head (links c) = Some f /\
             source_block_num f = last_strong g H /\ g <= target_block_num f /\
             refs c = drop (Z.to_nat (target_block_num f - g)) (H.*1) /\
             target_block_num f - g <= Z.of_nat (length H);
  rf_strong : g <= last_strong g H <= g + Z.of_nat (length H);
  rf_links : links c = drop (Z.to_nat (last_strong g H - g)) (all_links g H);
  rf_current : current_block_num c = Ok (g + Z.of_nat (length H))
}.

Lemma drop_snoc {A} (l : list A) n x : (n <= length l)%nat -> drop n (l ++ [x]) = drop n l ++ [x].
Proof. intros Hn. by rewrite drop_app_le. Qed.

Lemma core_refines_step g H c r m c' :
  core_refines g H c -> next_pre c r m -> next c r m = Ok c' ->
  core_refines g (H ++ [(r, m)]) c'.
Proof.
  intros [Hinv (f & Hf & Hfs & Hgf & Hrefs & Hrl) Hstrong Hlinks Hcurrent] Hpre Hnext.
  destruct (core_inv_ends c Hinv) as (f0 & lst & Hf0 & Hlst).
  assert (f0 = f) as -> by congruence. clear Hf0.
  destruct (next_ok c r m Hinv Hpre) as (c1 & E & [Hinv' Hcur' _ _ _]).
  rewrite Hnext in E. apply Ok_inj in E as <-.
  destruct (next_unfold c r m f lst Hinv Hf Hlst Hpre) as (i & l & Hl & Hsrc & Hkind & E).
  rewrite Hnext in E. apply Ok_inj in E.
  pose proof (link_source c Hinv f lst Hf Hlst i l Hl) as Hli.
  pose proof (links_lookup_0 c Hinv f lst Hf Hlst) as H0.
  pose proof (link_target_mono c Hinv f lst Hf Hlst 0 i f l H0 Hl ltac:(lia)) as Hmono.
  pose proof (inv_link_target c Hinv i l Hl) as Hlt.
  pose proof (core_inv_8 c Hinv f lst Hf Hlst) as H8.
  pose proof (link_target_mono c Hinv f lst Hf Hlst i _ l lst Hl
    (links_lookup_last c Hinv f lst Hf Hlst) ltac:(apply lookup_lt_Some in Hl; lia)) as Hmono2.
  pose proof (lst_range c Hinv f lst Hf Hlst) as Hlr.
  destruct Hpre as [Hcur _ (latest & Hlat & Hle) Hmc _]. rewrite Hcur in Hcurrent. apply Ok_inj in Hcurrent.
  erewrite current_block_num_Ok in Hcur by eauto. apply Ok_inj in Hcur.
  pose proof (lookup_lt_Some _ _ _ Hl) as Hlen.
  rewrite Hlinks, length_drop, all_links_length in Hlen.
  assert (last_strong g (H ++ [(r, m)]) = source_block_num l) as Hls.
  { rewrite last_strong_snoc. destruct (is_strong_qc m); [lia|congruence]. }
  assert (Z.of_nat i <= source_block_num lst - source_block_num f) by (rewrite Hfs in *; lia).
  rewrite E. constructor.
  - by rewrite <- E.
  - exists l. cbn [links refs]. rewrite Hls, fmap_app, length_app. split_and!.
    + apply head_app_Some. by rewrite head_drop_lookup.
    + done.
    + lia.
    + simpl. rewrite drop_snoc by (rewrite length_fmap; unfold vsize in H8; lia).
      rewrite Hrefs, drop_drop. do 2 f_equal. lia.
    + simpl. lia.
  - rewrite Hls, length_app. simpl. lia.
  - cbn [links]. rewrite Hls, all_links_snoc, drop_snoc by (rewrite all_links_length; lia).
    rewrite Hlinks, drop_drop. unfold claim_link. f_equal; [f_equal; lia|]. do 2 f_equal. lia.
  - rewrite <- E, Hcur', length_app. simpl. f_equal. lia.
Qed.

Lemma core_refines_reachable id ts H c :
  core_reachable id ts H c -> core_refines (num_from_id id) H c.
Proof.
  induction 1 as [|H c r m c' Hr IH Hpre Hnext]; [|by eapply core_refines_step].
  pose proof (num_from_id_range id) as Hid. unfold is_u32 in Hid.
  destruct (genesis_core_post id ts) as [Hinv Hcur _ _ _ _].
  constructor; [done|..].
  - exists (genesis_link (num_from_id id)). cbn [links refs create_core_for_genesis_block].
    unfold last_strong. cbn [head genesis_link source_block_num target_block_num foldl fmap list_fmap length].
    rewrite Z.sub_diag. split_and!; [reflexivity..|lia|reflexivity|lia].
  - unfold last_strong. cbn [foldl length]. lia.
  - unfold last_strong. cbn [foldl]. by rewrite Z.sub_diag.
  - rewrite Hcur. cbn [length]. f_equal. lia.
Qed.

Lemma core_refines_lib g H c :
  core_refines g H c -> last_final_block_num c = Ok (abstract_lib g H).
Proof.
  intros [Hinv (f & Hf & Hfs & _) _ Hlinks _].
  destruct (core_inv_ends c Hinv) as (f0 & lst & Hf0 & Hlst).
  erewrite last_final_block_num_Ok by eauto. assert (f0 = f) as -> by congruence.
  unfold abstract_lib. rewrite Hlinks, head_drop_lookup in Hf. by rewrite Hf.
Qed.

(** The blocks of the chain from block [n] on. *)
Definition blocks_from (g n : Z) (H : history) : list block_ref := drop (Z.to_nat (n - g)) (H.*1).

(** The claim of the newest block. *)
Definition last_claim (g : Z) (H : history) : qc_claim_t :=
  match last H with
  | Some (_, m) => m
  | None => {| claim_block_num := g; is_strong_qc := false |}
  end.

(** [create_core_for_genesis_block] establishes the documented invariants
    and its post-conditions. *)
Theorem genesis_core_correct (block_id : sha256) (timestamp : Z) :
  genesis_post block_id timestamp (create_core_for_genesis_block block_id timestamp).
Proof. apply genesis_core_post. Qed.

(** C1. [next] on a core that satisfies the documented invariants, called as
    documented, returns (no assertion fires and no access is out of range);
    the returned core satisfies the invariants and the documented
    post-conditions: the current block number grows by one, the latest claim is
    the given one, the last final block number does not decrease and does not
    exceed the claimed block, and the new core extends the block it was built
    on. *)
Theorem next_correct (c : finality_core) (current_block : block_ref) (m : qc_claim_t) :
  core_inv c -> next_pre c current_block m ->
  exists c', next c current_block m = Ok c' /\ next_post c current_block m c'.
Proof. apply next_ok. Qed.

(** C2. Refinement: for every chain of blocks built by [next] from a genesis
    block, the garbage-collected core gives the same answers as the whole
    history.  Its last final block is the one the two-chain rule selects on the
    history, its references are exactly the blocks from the last final one on,
    its latest claim is the newest block's, and [extends] recognises exactly
    the ids of those blocks. *)
Theorem core_refines_history (id : sha256) (ts : Z) (H : history) (c : finality_core) :
  core_reachable id ts H c ->
  let g := num_from_id id in
  core_inv c /\
  current_block_num c = Ok (g + vsize H) /\
  last_final_block_num c = Ok (abstract_lib g H) /\
  latest_qc_claim c = Ok (last_claim g H) /\
  refs c = blocks_from g (abstract_lib g H) H /\
  forall b, extends c b = Ok (bool_decide (b ∈ (ref_block_id <$> blocks_from g (abstract_lib g H) H))).
Proof.
  intros Hr g. pose proof (core_refines_reachable id ts H c Hr) as R.
  pose proof (core_refines_lib _ _ _ R) as Hlib.
  assert (refs c = blocks_from g (abstract_lib g H) H) as Hrefs.
  { destruct R as [Hinv (f & Hf & _ & _ & Hrefs & _) _ _ _].
    destruct (core_inv_ends c Hinv) as (f0 & lst & Hf0 & Hlst).
    erewrite last_final_block_num_Ok in Hlib by eauto. apply Ok_inj in Hlib.
    unfold blocks_from. fold g in Hlib. rewrite <- Hlib. assert (f0 = f) as -> by congruence. done. }
  split_and!; [apply R|apply R|done| |done|].
  - destruct Hr as [|H c r m c' Hr Hpre Hnext].
    + by apply genesis_core_post.
    + pose proof (core_refines_reachable id ts H c Hr) as [Hinv _ _ _ _].
      destruct (next_ok c r m Hinv Hpre) as (c1 & E & [_ _ Hc _ _]).
      rewrite Hnext in E. apply Ok_inj in E as <-. unfold last_claim. by rewrite last_snoc.
  - intros b. rewrite <- Hrefs. by apply extends_refs, R.
Qed.

(** [next_metadata] predicts [next]: its two numbers are the last final
    block and the claimed block of the core that [next] returns. *)
Theorem next_metadata_agrees (c : finality_core) (current_block : block_ref) (m : qc_claim_t) :
  core_inv c -> next_pre c current_block m ->
  exists c' meta, next c current_block m = Ok c' /\ next_metadata c m = Ok meta /\
    last_final_block_num c' = Ok (meta_last_final_block_num meta) /\
    latest_qc_claim c' = Ok m /\ meta_latest_qc_claim_block_num meta = claim_block_num m.
Proof.
  intros Hinv Hpre. destruct (next_ok c current_block m Hinv Hpre) as (c' & Hnext & Hpost).
  exists c'. destruct (core_inv_ends c Hinv) as (f & lst & Hf & Hlst).
  destruct (next_unfold c current_block m f lst Hinv Hf Hlst Hpre) as (i & l & Hl & Hsrc & Hkind & E).
  rewrite Hnext in E. apply Ok_inj in E.
  destruct Hpre as [Hcur _ (latest & Hlat & Hle) Hmc _].
  unfold next_metadata. rewrite Hcur, ret_bind. step_assert. rewrite Hlat, ret_bind. step_assert.
  erewrite current_block_num_Ok in Hcur by eauto. apply Ok_inj in Hcur.
  erewrite latest_qc_claim_Ok in Hlat by eauto. apply Ok_inj in Hlat. subst latest.
  unfold claim_leb in Hle. cbn [claim_block_num is_strong_qc] in Hle.
  destruct (get_new_block_numbers_Ok c Hinv f lst Hf Hlst m) as (i' & l' & E' & Hl' & Hs' & Hk'); [lia|].
  rewrite E', ret_bind. eexists. split_and!; [done|done| |apply Hpost|done].
  assert (i' = i) as ->.
  { pose proof (link_source c Hinv f lst Hf Hlst i l Hl).
    pose proof (link_source c Hinv f lst Hf Hlst i' l' Hl'). destruct (is_strong_qc m); subst; lia. }
  assert (l' = l) as -> by congruence. cbn [meta_last_final_block_num].
  unfold last_final_block_num. rewrite E. cbn [links].
  destruct (drop_lookup_head _ _ _ Hl) as [ls ->]. done.
Qed.

(** What [pack_for_digest] keeps of a reference. *)
Definition without_generations (c : finality_core) : finality_core :=
  {| links := links c;
     refs := (fun r => {| ref_block_id := ref_block_id r; ref_timestamp := ref_timestamp r;
                          ref_finality_digest := ref_finality_digest r;
                          ref_active_policy_generation := 0; ref_pending_policy_generation := 0 |})
             <$> refs c;
     genesis_timestamp := genesis_timestamp c |}.

Lemma pack_elements_inj {A} `{PackLaws A} (l k : list A) bs cs rest rest' :
  Forall fits l -> Forall fits k -> length l = length k ->
  pack_elements l = Ok bs -> pack_elements k = Ok cs -> bs ++ rest = cs ++ rest' ->
  l = k /\ rest = rest'.
Proof.
  intros Hl Hk Hlen El Ek E. pose proof (unpack_pack_elements l bs rest Hl El) as H1.
  rewrite E, Hlen, (unpack_pack_elements k cs rest' Hk Ek) in H1. by apply Ok_inj in H1 as [= -> ->].
Qed.

Lemma pack_for_digest_Ok c bs :
  pack_for_digest c = Ok bs ->
  exists l n r t, pack (links c) = Ok l /\ pack_unsigned_int (u32 (vsize (refs c))) = Ok n /\
    pack_elements (ref_for_digest <$> refs c) = Ok r /\
    pack (UInt (n := 4) (genesis_timestamp c)) = Ok t /\ bs = l ++ n ++ r ++ t.
Proof. unfold pack_for_digest. intros H. inv_result. by eauto 10. Qed.

Lemma ref_for_digest_fits rs : Forall fits rs -> Forall fits (ref_for_digest <$> rs).
Proof. intros H. apply Forall_fmap. eapply Forall_impl; [exact H|]. intros r (? & ? & ? & _). done. Qed.

Lemma without_generations_eq c d :
  links c = links d -> ref_for_digest <$> refs c = ref_for_digest <$> refs d ->
  genesis_timestamp c = genesis_timestamp d -> without_generations c = without_generations d.
Proof.
  intros Hl Hr Ht. unfold without_generations. f_equal; [done| |done].
  pose (f := fun x : sha256 * (uint 4 * sha256) =>
    {| ref_block_id := x.1; ref_timestamp := uint_value x.2.1; ref_finality_digest := x.2.2;
       ref_active_policy_generation := 0; ref_pending_policy_generation := 0 |}).
  apply (f_equal (fmap f)) in Hr. by rewrite <- !list_fmap_compose in Hr.
Qed.

(** The bytes hashed into the finality digest determine the core up to the
    policy generations: two cores whose members fit their types and whose
    digest packing coincides have the same links, the same references (apart
    from the generations) and the same genesis timestamp. *)
Theorem pack_for_digest_injective (c d : finality_core) (bs : list Z) :
  fits c -> fits d -> vsize (refs c) < 2 ^ 32 -> vsize (refs d) < 2 ^ 32 ->
  pack_for_digest c = Ok bs -> pack_for_digest d = Ok bs ->
  without_generations c = without_generations d.
Proof.
  intros (Hcl & Hcr & Hct) (Hdl & Hdr & Hdt) Hcs Hds Hc Hd.
  destruct (pack_for_digest_Ok _ _ Hc) as (l & n & r & t & El & En & Er & Et & ->).
  destruct (pack_for_digest_Ok _ _ Hd) as (l' & n' & r' & t' & El' & En' & Er' & Et' & E).
  destruct (pack_inj (links c) (links d) l l' _ _ Hcl Hdl El El' E) as [Hl E1].
  rewrite u32_small in En, En' by (unfold vsize in *; lia).
  assert (is_u32 (vsize (refs c)) /\ is_u32 (vsize (refs d))) as [Hcu Hdu]
    by (unfold is_u32, vsize in *; lia).
  pose proof (unpack_pack_unsigned_int _ n (r ++ t) Hcu En) as H1.
  rewrite E1, (unpack_pack_unsigned_int _ n' _ Hdu En') in H1.
  apply Ok_inj in H1 as [= Hn E2].
  destruct (pack_elements_inj _ _ r r' t t' (ref_for_digest_fits (refs c) Hcr)
    (ref_for_digest_fits (refs d) Hdr)) as [Hr E3]; [rewrite !length_fmap; unfold vsize in *; lia|done..|].
  subst t'. destruct (pack_inj _ _ t t [] [] Hct Hdt Et Et' eq_refl) as [[= Ht] _].
  by apply without_generations_eq.
Qed.

(** ** Concrete chains *)

(** The preconditions of [next] as a test, and a chain built under them. *)
Definition next_preb (c : finality_core) (b : block_ref) (m : qc_claim_t) : bool :=
  match current_block_num c, latest_qc_claim c with
  | Ok n, Ok latest =>
      (n =? ref_block_num b) && claim_leb latest m && (claim_block_num m <=? n) &&
      (n + 1 <? 2 ^ 32) &&
      match last (refs c) with Some r => ref_timestamp r <? ref_timestamp b | None => true end
  | _, _ => false
  end.

Fixpoint build_chain (c : finality_core) (H : history) : option finality_core :=
  match H with
  | [] => Some c
  | (b, m) :: H =>
      if next_preb c b m
      then match next c b m with Ok c' => build_chain c' H | Err _ => None end
      else None
  end.

Lemma next_preb_pre c b m : next_preb c b m = true -> next_pre c b m.
Proof.
  unfold next_preb. destruct (current_block_num c) as [n|] eqn:Hn; [|done].
  destruct (latest_qc_claim c) as [latest|] eqn:Hl; [|done]. intros H.
  rewrite !andb_true_iff, Z.eqb_eq, Z.leb_le, Z.ltb_lt in H.
  destruct H as ((((-> & Hm) & Hc) & Hw) & Ht). constructor; eauto.
  intros r Hr. rewrite Hr in Ht. lia.
Qed.

Lemma build_chain_reachable id ts H0 c H c' :
  core_reachable id ts H0 c -> build_chain c H = Some c' -> core_reachable id ts (H0 ++ H) c'.
Proof.
  revert H0 c; induction H as [|[b m] H IH]; intros H0 c Hr Hb; simpl in Hb.
  - rewrite app_nil_r. by injection Hb as <-.
  - destruct (next_preb c b m) eqn:Hp; [|done].
    destruct (next c b m) as [c1|] eqn:Hn; [|done].
    replace (H0 ++ (b, m) :: H) with ((H0 ++ [(b, m)]) ++ H) by (by rewrite <- app_assoc).
    apply (IH _ c1); [|done]. eapply reach_next; eauto using next_preb_pre.
Qed.

Definition sample_ref (n : Z) : block_ref := {|
  ref_block_id := stamp_block_num (toy_digest n) n; ref_timestamp := n;
  ref_finality_digest := toy_digest (2 * n);
  ref_active_policy_generation := 1; ref_pending_policy_generation := 0 |}.
Definition strong_claim (n : Z) : qc_claim_t := {| claim_block_num := n; is_strong_qc := true |}.
Definition weak_claim (n : Z) : qc_claim_t := {| claim_block_num := n; is_strong_qc := false |}.

(** Blocks 5 to 8; the child of block 6 makes a weak claim. *)
Definition sample_history : history :=
  [(sample_ref 5, strong_claim 5); (sample_ref 6, weak_claim 6);
   (sample_ref 7, strong_claim 6); (sample_ref 8, strong_claim 8)].
Definition sample_genesis : finality_core :=
  create_core_for_genesis_block (ref_block_id (sample_ref 5)) 5.
Definition sample_core (n : nat) : finality_core :=
  default sample_genesis (build_chain sample_genesis (take n sample_history)).

Lemma sample_core_build :
  build_chain sample_genesis (take 3 sample_history) = Some (sample_core 3) /\
  build_chain sample_genesis sample_history = Some (sample_core 4).
Proof. split; vm_compute; reflexivity. Qed.

Lemma sample_reachable :
  core_reachable (ref_block_id (sample_ref 5)) 5 (take 3 sample_history) (sample_core 3) /\
  core_reachable (ref_block_id (sample_ref 5)) 5 sample_history (sample_core 4).
Proof.
  destruct sample_core_build as [H3 H4].
  split; [exact (build_chain_reachable _ _ [] _ _ _ (reach_genesis _ _) H3)
         |exact (build_chain_reachable _ _ [] _ _ _ (reach_genesis _ _) H4)].
Qed.

Lemma next_correct_witness :
  exists c', next (sample_core 3) (sample_ref 8) (strong_claim 8) = Ok c' /\
             next_post (sample_core 3) (sample_ref 8) (strong_claim 8) c'.
Proof.
  apply next_correct; [|apply next_preb_pre; vm_compute; reflexivity].
  exact (rf_inv _ _ _ (core_refines_reachable _ _ _ _ (proj1 sample_reachable))).
Defined.

Lemma core_refines_history_witness :
  last_final_block_num (sample_core 4) = Ok 6 /\
  refs (sample_core 4) = sample_ref <$> [6; 7; 8] /\
  extends (sample_core 4) (ref_block_id (sample_ref 7)) = Ok true.
Proof.
  pose proof (core_refines_history (ref_block_id (sample_ref 5)) 5 sample_history (sample_core 4)
    (proj2 sample_reachable)) as H.
  cbv zeta in H.
  destruct H as (_ & _ & H1 & _ & H2 & H3).
  split; [rewrite H1; vm_compute; reflexivity|].
  split; [rewrite H2; vm_compute; reflexivity|rewrite H3; vm_compute; reflexivity].
Defined.

Lemma next_metadata_agrees_witness :
  exists c' meta, next sample_genesis (sample_ref 5) (strong_claim 5) = Ok c' /\
    next_metadata sample_genesis (strong_claim 5) = Ok meta /\
    last_final_block_num c' = Ok (meta_last_final_block_num meta) /\
    latest_qc_claim c' = Ok (strong_claim 5) /\
    meta_latest_qc_claim_block_num meta = claim_block_num (strong_claim 5).
Proof.
  apply next_metadata_agrees; [apply genesis_core_post|apply next_preb_pre; vm_compute; reflexivity].
Defined.

(** Two cores that differ in a policy generation only. *)
Definition sample_core_gen (generation : Z) : finality_core := {|
  links := [{| source_block_num := 6; target_block_num := 5; is_link_strong := true |}];
  refs := [{| ref_block_id := toy_digest 5; ref_timestamp := 5; ref_finality_digest := toy_digest 10;
              ref_active_policy_generation := generation; ref_pending_policy_generation := 0 |}];
  genesis_timestamp := 0 |}.

Lemma sample_core_gen_fits g : 0 <= g < 2 ^ 32 -> fits (sample_core_gen g).
Proof.
  intros Hg. split; [|split]; [..|split; [discriminate|reflexivity]].
  - constructor; [|constructor]. repeat split; discriminate.
  - constructor; [|constructor]. repeat split; first [discriminate|apply Hg].
Qed.

Lemma pack_for_digest_injective_witness :
  without_generations (sample_core_gen 1) = without_generations (sample_core_gen 2) /\
  sample_core_gen 1 <> sample_core_gen 2.
Proof.
  split; [|discriminate].
  eapply (pack_for_digest_injective (sample_core_gen 1) (sample_core_gen 2));
    [apply sample_core_gen_fits; lia..|reflexivity|reflexivity
    |vm_compute; reflexivity|vm_compute; reflexivity].
Defined.
