(* ===== verification/OrderedDiff.v ===== *)
(** [fc::ordered_diff] (libfc/include/fc/container/ordered_diff.hpp): the
    difference of two sequences as the indexes to remove from the source and
    the values to insert to obtain the target.  Finalizer and proposer policies
    travel in block headers as such differences, so the round trip
    [apply_diff source (diff source target) = target] is part of consensus.

    [size_max] is the largest value of the template parameter [SizeType]
    ([2^16 - 1] for both policies). *)
From Stdlib Require Import ZArith Lia ZifyBool.
From stdpp Require Import base tactics numbers list.
From S2P Require Import Prelude.
#[local] Open Scope Z_scope.

Record diff_result (T : Type) : Type := {
  remove_indexes : list Z;
  insert_indexes : list (Z * T)
}.
Arguments remove_indexes {T} _.
Arguments insert_indexes {T} _.
Arguments Build_diff_result {T} _ _.

Section OrderedDiff.
Context {T : Type} `{EqDecision T} (size_max : Z).

(** [push_back(s)] and [emplace_back(t, v)] convert to [SizeType]. *)
Definition size_cast (n : nat) : Z := Z.of_nat n mod (size_max + 1).
Definition push_remove (s : nat) (r : diff_result T) : diff_result T :=
  {| remove_indexes := remove_indexes r ++ [size_cast s]; insert_indexes := insert_indexes r |}.
Definition push_insert (t : nat) (v : T) (r : diff_result T) : diff_result T :=
  {| remove_indexes := remove_indexes r; insert_indexes := insert_indexes r ++ [(size_cast t, v)] |}.

(** [source[s] == target[t]] with both indexes in range. *)
Definition elem_eqb (x y : option T) : bool :=
  match x, y with Some x, Some y => bool_decide (x = y) | _, _ => false end.

Definition fits_size (n : nat) : result unit := c_assert (Z.of_nat n <=? size_max).

(** The [while] loop.  Each round advances [s] or [t]. *)
Fixpoint diff_loop (fuel : nat) (source target : list T) (s t : nat) (r : diff_result T)
    : result (diff_result T) :=
  match fuel with
  | O => Err undefined_behavior
  | S fuel =>
    c_assert ((s <=? length source)%nat);;
    c_assert ((t <=? length target)%nat);;
    match source !! s, target !! t with
    | Some x, Some y =>
        if bool_decide (x = y) then diff_loop fuel source target (S s) (S t) r
        else if (s =? length source - 1)%nat && (t =? length target - 1)%nat then
          fits_size s;; fits_size t;;
          diff_loop fuel source target (S s) (S t) (push_insert t y (push_remove s r))
        else if elem_eqb (source !! S s) (target !! S t) then
          fits_size s;; fits_size t;;
          diff_loop fuel source target (S s) (S t) (push_insert t y (push_remove s r))
        else if elem_eqb (Some x) (target !! S t) then
          fits_size t;; diff_loop fuel source target s (S t) (push_insert t y r)
        else
          fits_size s;; diff_loop fuel source target (S s) t (push_remove s r)
    | Some _, None => fits_size s;; diff_loop fuel source target (S s) t (push_remove s r)
    | None, Some y => fits_size t;; diff_loop fuel source target s (S t) (push_insert t y r)
    | None, None => mret r
    end
  end.

(** [c.empty() || c.size() - 1 <= max]. *)
Definition size_ok (l : list T) : bool := is_empty l || (vsize l - 1 <=? size_max).

Definition diff (source target : list T) : result (diff_result T) :=
  EOS_ASSERT (size_ok source) fc_assert_exception;;
  EOS_ASSERT (size_ok target) fc_assert_exception;;
  diff_loop (S (length source + length target)) source target 0 0 (Build_diff_result [] []).

(** [i == 0 || indexes[i] > indexes[i-1]]; [prev] is the index before. *)
Definition increasing (prev : option Z) (index : Z) : bool :=
  match prev with None => true | Some p => p <? index end.

Fixpoint remove_loop (i : Z) (prev : option Z) (indexes : list Z) (container : list T)
    : result (list T) :=
  match indexes with
  | [] => Ok container
  | index :: indexes =>
      EOS_ASSERT (increasing prev index) fc_assert_exception;;
      c_assert (i <=? index);;
      let updated_index := u64 (index - i) in
      EOS_ASSERT (updated_index <? vsize container) fc_assert_exception;;
      let k := Z.to_nat updated_index in
      remove_loop (i + 1) (Some index) indexes (take k container ++ drop (S k) container)
  end.

Fixpoint insert_loop (prev : option Z) (indexes : list (Z * T)) (container : list T)
    : result (list T) :=
  match indexes with
  | [] => Ok container
  | (index, value) :: indexes =>
      EOS_ASSERT (increasing prev index) fc_assert_exception;;
      EOS_ASSERT (index <=? vsize container) fc_assert_exception;;
      let k := Z.to_nat index in
      insert_loop (Some index) indexes (take k container ++ value :: drop k container)
  end.

Definition apply_diff (container : list T) (diff : diff_result T) : result (list T) :=
  container ← remove_loop 0 None (remove_indexes diff) container;
  insert_loop None (insert_indexes diff) container.

(** ** The loops on a sequence extended at its end *)

Definition last_or (prev : option Z) (l : list Z) : option Z :=
  match last l with Some p => Some p | None => prev end.

Lemma last_or_cons prev x l : last_or prev (x :: l) = last_or (Some x) l.
Proof. unfold last_or. rewrite last_cons. by destruct (last l). Qed.

Lemma increasing_last_or l b :
  (forall p, last l = Some p -> p < b) -> increasing (last_or None l) b = true.
Proof. unfold last_or. destruct (last l); simpl; [|done]. intros H. specialize (H _ eq_refl). lia. Qed.

Lemma remove_loop_app i prev l1 l2 c :
  remove_loop i prev (l1 ++ l2) c =
  (c ← remove_loop i prev l1 c; remove_loop (i + vsize l1) (last_or prev l1) l2 c).
Proof.
  revert i prev c; induction l1 as [|x l1 IH]; intros i prev c; simpl.
  - by rewrite Z.add_0_r.
  - rewrite last_or_cons. destruct (increasing prev x); [|done].
    destruct (i <=? x); [|done]. destruct (_ <? _); [|done]. cbn [EOS_ASSERT c_assert].
    rewrite !ret_bind, IH. unfold vsize; cbn [length].
    by replace (i + 1 + Z.of_nat (length l1)) with (i + Z.of_nat (S (length l1))) by lia.
Qed.

Lemma insert_loop_app prev l1 l2 c :
  insert_loop prev (l1 ++ l2) c =
  (c ← insert_loop prev l1 c; insert_loop (last_or prev (l1.*1)) l2 c).
Proof.
  revert prev c; induction l1 as [|[x v] l1 IH]; intros prev c; [done|]. simpl.
  rewrite last_or_cons. destruct (increasing prev x); [|done].
  destruct (_ <=? _); [|done]. cbn [EOS_ASSERT]. by rewrite !ret_bind, IH.
Qed.

(** ** The round trip *)

(** The state of [diff] after [s] source and [t] target elements: [kept] are
    the source elements not removed so far.  Applying the recorded removals to
    the source leaves [kept] and the untouched suffix; applying the recorded
    insertions to anything that starts with [kept] turns [kept] into the first
    [t] target elements. *)
Record diff_state (source target : list T) (s t : nat) (r : diff_result T) (kept : list T) : Prop := {
  ds_source : (s <= length source)%nat;
  ds_target : (t <= length target)%nat;
  ds_kept : vsize kept + vsize (remove_indexes r) = Z.of_nat s;
  ds_remove_last : forall p, last (remove_indexes r) = Some p -> p < Z.of_nat s;
  ds_insert_last : forall p, last ((insert_indexes r).*1) = Some p -> p < Z.of_nat t;
  ds_remove : remove_loop 0 None (remove_indexes r) source = Ok (kept ++ drop s source);
  ds_insert : forall rest,
    insert_loop None (insert_indexes r) (kept ++ rest) = Ok (take t target ++ rest)
}.

Context (Hmax : 0 <= size_max < 2 ^ 64).
Context (source target : list T).
Context (Hsource : vsize source <= size_max + 1) (Htarget : vsize target <= size_max + 1).

Lemma size_cast_small n : Z.of_nat n <= size_max -> size_cast n = Z.of_nat n.
Proof using Hmax. intros Hn. unfold size_cast. rewrite Z.mod_small; lia. Qed.

Lemma diff_state_match s t r kept x :
  diff_state source target s t r kept -> source !! s = Some x -> target !! t = Some x ->
  diff_state source target (S s) (S t) r (kept ++ [x]).
Proof using Type.
  intros [Hs Ht Hk Hrl Hil Hr Hi] Hx Hy.
  pose proof (lookup_lt_Some _ _ _ Hx). pose proof (lookup_lt_Some _ _ _ Hy).
  constructor; [lia|lia| | | | |].
  - unfold vsize in *. rewrite length_app. simpl. lia.
  - intros p Hp. apply Hrl in Hp. lia.
  - intros p Hp. apply Hil in Hp. lia.
  - rewrite Hr. f_equal. rewrite (drop_S source x s Hx). by rewrite <- app_assoc.
  - intros rest. rewrite <- app_assoc, Hi. f_equal. rewrite (take_S_r target t x Hy).
    by rewrite <- app_assoc.
Qed.

Lemma diff_state_remove s t r kept x :
  diff_state source target s t r kept -> source !! s = Some x ->
  diff_state source target (S s) t (push_remove s r) kept.
Proof using Hmax Hsource.
  intros [Hs Ht Hk Hrl Hil Hr Hi] Hx. pose proof (lookup_lt_Some _ _ _ Hx).
  assert (size_cast s = Z.of_nat s) as Ec by (apply size_cast_small; unfold vsize in *; lia).
  constructor; cbn [push_remove remove_indexes insert_indexes]; [lia|lia| | |exact Hil| |exact Hi].
  - rewrite Ec. unfold vsize in *. rewrite length_app. simpl. lia.
  - intros p Hp. rewrite last_snoc in Hp. injection Hp as <-. rewrite Ec. lia.
  - rewrite remove_loop_app, Hr, ret_bind, Ec. cbn [remove_loop].
    step_assert by (by apply increasing_last_or).
    step_assert by (unfold vsize in *; lia).
    rewrite Z.add_0_l, u64_small by (unfold vsize in *; lia).
    step_assert by (unfold vsize in *; rewrite length_app, length_drop; lia).
    f_equal. replace (Z.to_nat _) with (length kept) by (unfold vsize in *; lia).
    rewrite take_app_length, (drop_S source x s Hx). f_equal.
    rewrite drop_app_ge by lia. by replace (S (length kept) - length kept)%nat with 1%nat by lia.
Qed.

Lemma diff_state_insert s t r kept y :
  diff_state source target s t r kept -> target !! t = Some y ->
  diff_state source target s (S t) (push_insert t y r) kept.
Proof using Hmax Htarget.
  intros [Hs Ht Hk Hrl Hil Hr Hi] Hy. pose proof (lookup_lt_Some _ _ _ Hy).
  assert (size_cast t = Z.of_nat t) as Ec by (apply size_cast_small; unfold vsize in *; lia).
  constructor; cbn [push_insert remove_indexes insert_indexes]; [lia|lia|exact Hk|exact Hrl| |exact Hr|].
  - intros p Hp. rewrite fmap_app in Hp. cbn [fmap list_fmap fst] in Hp.
    rewrite last_snoc in Hp. injection Hp as <-. rewrite Ec. lia.
  - intros rest. rewrite insert_loop_app, Hi, ret_bind, Ec. cbn [insert_loop].
    step_assert by (by apply increasing_last_or).
    assert (length (take t target) = t) as El by (rewrite length_take; lia).
    step_assert by (unfold vsize; rewrite length_app; lia).
    rewrite Nat2Z.id, take_app_length', drop_app_length' by done.
    by rewrite (take_S_r target t y Hy), <- app_assoc.
Qed.

Lemma fits_size_source s x : source !! s = Some x -> fits_size s = Ok tt.
Proof using Hsource. intros H. apply lookup_lt_Some in H. apply c_assert_true. unfold vsize in Hsource. lia. Qed.
Lemma fits_size_target t x : target !! t = Some x -> fits_size t = Ok tt.
Proof using Htarget. intros H. apply lookup_lt_Some in H. apply c_assert_true. unfold vsize in Htarget. lia. Qed.

Lemma diff_loop_Ok fuel s t r kept :
  diff_state source target s t r kept ->
  (length source - s + (length target - t) < fuel)%nat ->
  exists r' kept', diff_loop fuel source target s t r = Ok r' /\
    diff_state source target (length source) (length target) r' kept'.
Proof using Hmax Hsource Htarget.
  revert s t r kept; induction fuel as [|fuel IH]; intros s t r kept Hd Hf; [lia|].
  pose proof (ds_source _ _ _ _ _ _ Hd) as Hs. pose proof (ds_target _ _ _ _ _ _ Hd) as Ht.
  cbn [diff_loop]. rewrite (c_assert_true (s <=? _)%nat), ret_bind by lia.
  rewrite (c_assert_true (t <=? _)%nat), ret_bind by lia.
  destruct (source !! s) as [x|] eqn:Hx, (target !! t) as [y|] eqn:Hy.
  - pose proof (lookup_lt_Some _ _ _ Hx). pose proof (lookup_lt_Some _ _ _ Hy).
    rewrite (fits_size_source s x Hx), (fits_size_target t y Hy), !ret_bind.
    case_bool_decide as Heq; [subst y|destruct (_ && _); [|destruct (elem_eqb _ _); [|destruct (elem_eqb _ _)]]].
    + eapply IH; [by apply diff_state_match|lia].
    + eapply IH; [eapply diff_state_insert, Hy; by eapply diff_state_remove|lia].
    + eapply IH; [eapply diff_state_insert, Hy; by eapply diff_state_remove|lia].
    + eapply IH; [by eapply diff_state_insert|lia].
    + eapply IH; [by eapply diff_state_remove|lia].
  - pose proof (lookup_lt_Some _ _ _ Hx). rewrite (fits_size_source s x Hx), ret_bind.
    eapply IH; [by eapply diff_state_remove|lia].
  - pose proof (lookup_lt_Some _ _ _ Hy). rewrite (fits_size_target t y Hy), ret_bind.
    eapply IH; [by eapply diff_state_insert|lia].
  - apply lookup_ge_None in Hx, Hy. exists r, kept. split; [done|].
    by replace (length source) with s by lia; replace (length target) with t by lia.
Qed.

Lemma diff_apply_ok :
  exists r, diff source target = Ok r /\ apply_diff source r = Ok target.
Proof using Hmax Hsource Htarget.
  destruct (diff_loop_Ok (S (length source + length target)) 0 0 (Build_diff_result [] []) [])
    as (r & kept & Er & Hd); [|lia|].
  - constructor; simpl; try done; lia.
  - exists r. unfold diff, size_ok. do 2 step_assert by (destruct (is_empty _); simpl; lia).
    split; [done|]. unfold apply_diff.
    rewrite (ds_remove _ _ _ _ _ _ Hd), ret_bind, (ds_insert _ _ _ _ _ _ Hd).
    by rewrite drop_ge, take_ge, app_nil_r by lia.
Qed.
End OrderedDiff.

(** [apply_diff(source, diff(source, target)) == target]: for all sequences
    whose indexes fit the index type, [diff] terminates without failing an
    assertion and [apply_diff] accepts its result and rebuilds the target. *)
Theorem diff_apply_roundtrip {T : Type} `{EqDecision T} (size_max : Z) (source target : list T) :
  0 <= size_max < 2 ^ 64 -> vsize source <= size_max + 1 -> vsize target <= size_max + 1 ->
  exists r, diff size_max source target = Ok r /\ apply_diff source r = Ok target.
Proof. intros. by apply diff_apply_ok. Qed.

Lemma diff_apply_roundtrip_witness :
  exists r, diff 65535 [97; 98; 102; 99; 100] [98; 102; 99; 100; 101; 104] = Ok r /\
    apply_diff [97; 98; 102; 99; 100] r = Ok [98; 102; 99; 100; 101; 104].
Proof. apply (diff_apply_roundtrip 65535); vm_compute; first [split; discriminate || reflexivity|discriminate]. Defined.

Lemma remove_loop_safe {T} i prev indexes (c : list T) :
  (forall p, prev = Some p -> i <= p + 1) -> (prev = None -> i = 0) -> 0 <= i ->
  Forall is_u64 indexes ->
  (exists c', remove_loop i prev indexes c = Ok c' /\ vsize c' = vsize c - vsize indexes) \/
  remove_loop i prev indexes c = Err fc_assert_exception.
Proof.
  revert i prev c; induction indexes as [|x l IH]; intros i prev c Hp Hn Hi Hf; simpl.
  { left. exists c. split; [done|]. unfold vsize; simpl; lia. }
  apply Forall_cons_iff in Hf as [Hx Hl]. unfold is_u64 in Hx.
  destruct (increasing prev x) eqn:Hinc; [|by right]. cbn [EOS_ASSERT]. rewrite ret_bind.
  assert (i <= x).
  { destruct prev as [p|]; [|rewrite Hn by done; lia]. specialize (Hp p eq_refl). simpl in Hinc. lia. }
  step_assert. rewrite u64_small by lia.
  destruct (Z.ltb_spec (x - i) (vsize c)); [|by right]. cbn [EOS_ASSERT]. rewrite ret_bind.
  set (c1 := take _ c ++ drop _ c).
  assert (vsize c1 = vsize c - 1) as Hc1
    by (unfold c1, vsize in *; rewrite length_app, length_take, length_drop; lia).
  destruct (IH (i + 1) (Some x) c1) as [(c' & E & Hc')|E]; [naive_solver lia|done|lia|done| |by right].
  left. exists c'. split; [done|]. unfold vsize in *; cbn [length]; lia.
Qed.

Lemma insert_loop_safe {T} prev (indexes : list (Z * T)) (c : list T) :
  Forall (fun x => is_u64 x.1) indexes ->
  (exists c', insert_loop prev indexes c = Ok c' /\ vsize c' = vsize c + vsize indexes) \/
  insert_loop prev indexes c = Err fc_assert_exception.
Proof.
  revert prev c; induction indexes as [|[x v] l IH]; intros prev c Hf; simpl.
  { left. exists c. split; [done|]. unfold vsize; simpl; lia. }
  apply Forall_cons_iff in Hf as [Hx Hl]. unfold is_u64 in Hx. simpl in Hx.
  destruct (increasing prev x) eqn:Hinc; [|by right]. cbn [EOS_ASSERT]. rewrite ret_bind.
  destruct (Z.leb_spec x (vsize c)); [|by right]. cbn [EOS_ASSERT]. rewrite ret_bind.
  set (c1 := take _ c ++ v :: drop _ c).
  assert (vsize c1 = vsize c + 1) as Hc1
    by (unfold c1, vsize in *; rewrite length_app; cbn [length]; rewrite length_take, length_drop; lia).
  destruct (IH (Some x) c1) as [(c' & E & Hc')|E]; [done| |by right].
  left. exists c'. split; [done|]. unfold vsize in *; cbn [length]; lia.
Qed.

(** [apply_diff] on an arbitrary difference (one received in a block header
    has not been checked) either throws [fc::assert_exception] or returns a
    sequence of the expected length: no assertion fails and no access is out of
    range. *)
Theorem apply_diff_safe {T : Type} (container : list T) (d : diff_result T) :
  Forall is_u64 (remove_indexes d) -> Forall (fun x => is_u64 x.1) (insert_indexes d) ->
  apply_diff container d = Err fc_assert_exception \/
  exists c, apply_diff container d = Ok c /\
    vsize c = vsize container - vsize (remove_indexes d) + vsize (insert_indexes d).
Proof.
  intros Hr Hi. unfold apply_diff.
  destruct (remove_loop_safe 0 None (remove_indexes d) container) as [(c1 & -> & Hc1)| -> ];
    [done..| |by left].
  rewrite ret_bind.
  destruct (insert_loop_safe None (insert_indexes d) c1 Hi) as [(c2 & -> & Hc2)| -> ]; [|by left].
  right. exists c2. split; [done|]. lia.
Qed.

Lemma apply_diff_safe_witness :
  let d := {| remove_indexes := [0; 3]; insert_indexes := [(1, 70); (2, 80)] |} in
  apply_diff [10; 20; 30; 40] d = Ok [20; 70; 80; 30] /\
  (apply_diff [10; 20; 30; 40] d = Err fc_assert_exception \/
   exists c, apply_diff [10; 20; 30; 40] d = Ok c /\ vsize c = 4).
Proof.
  split; [vm_compute; reflexivity|].
  apply (apply_diff_safe [10; 20; 30; 40] {| remove_indexes := [0; 3]; insert_indexes := [(1, 70); (2, 80)] |});
    repeat constructor; discriminate.
Defined.
