(* ===== verification/FinalizerPolicy.v ===== *)
(** Finalizer policies (chain/finality/finalizer_policy.hpp,
    finalizer_authority.hpp) and the host function [set_finalizers]
    (chain/webassembly/privileged.cpp) through which a contract proposes one.
    [set_finalizers] is the only way a policy enters the chain after genesis, so
    what it checks ([policy_ok]) is what the voting code may rely on.

    [PK] stands for [bls_public_key]; parsing its 96-byte affine form is the
    parameter [bls_public_key_of]. *)
From Stdlib Require Import ZArith Lia ZifyBool.
From stdpp Require Import base tactics numbers list.
From S2P Require Import Prelude Raw OrderedDiff.
#[local] Open Scope Z_scope.

Definition max_finalizers : Z := 64 * 1024.
Definition max_finalizer_description_size : Z := 256.

(** The largest [uint16_t], the index type of [finalizers_differ]. *)
Definition finalizers_differ_size_max : Z := 2 ^ 16 - 1.

Section FinalizerPolicy.
Context {PK : Type} `{EqDecision PK}.

Record finalizer_authority : Type := {
  fa_description : blob;
  fa_weight : Z;             (* uint64_t *)
  fa_public_key : PK
}.

#[global] Instance finalizer_authority_eq_dec : EqDecision finalizer_authority.
Proof. solve_decision. Defined.

Record finalizer_policy : Type := {
  fp_generation : Z;         (* uint32_t *)
  fp_threshold : Z;          (* uint64_t *)
  fp_finalizers : list finalizer_authority
}.

Record finalizer_policy_diff : Type := {
  fpd_generation : Z;
  fpd_threshold : Z;
  fpd_finalizers_diff : diff_result finalizer_authority
}.

Definition fp_create_diff (self target : finalizer_policy) : result finalizer_policy_diff :=
  d ← diff finalizers_differ_size_max (fp_finalizers self) (fp_finalizers target);
  mret {| fpd_generation := fp_generation target; fpd_threshold := fp_threshold target;
          fpd_finalizers_diff := d |}.

Definition fp_apply_diff (self : finalizer_policy) (d : finalizer_policy_diff) : result finalizer_policy :=
  fs ← apply_diff (fp_finalizers self) (fpd_finalizers_diff d);
  mret {| fp_generation := fpd_generation d; fp_threshold := fpd_threshold d; fp_finalizers := fs |}.

(** [std::accumulate(begin, end, 0, op)]: the accumulator has the type of the
    literal [0], a 32-bit [int].  Each round converts it to the [uint64_t]
    parameter of the lambda and its result back to [int]. *)
Definition weight_accumulate (fs : list finalizer_authority) : Z :=
  foldl (fun acc f => i32 (u64 (u64 acc + fa_weight f))) 0 fs.

Definition max_weak_sum_before_weak_final (p : finalizer_policy) : Z :=
  let sum := u64 (weight_accumulate (fp_finalizers p)) in
  u64 (sum - fp_threshold p).

(** The total weight, without a machine width. *)
Definition total_weight (fs : list finalizer_authority) : Z :=
  foldr (fun f acc => fa_weight f + acc) 0 fs.

(** ** set_finalizers *)

Section SetFinalizers.
Variable bls_public_key_of : list Z -> result PK.

(** The packed format: threshold, then the finalizers. *)
Record abi_finalizer_authority : Type := {
  abi_description : blob;
  abi_weight : Z;
  abi_public_key : list (uint 1)
}.

#[global] Instance Packable_abi_finalizer_authority : Packable abi_finalizer_authority :=
  Packable_struct
    (fun f => (abi_description f, (UInt (n := 8) (abi_weight f), abi_public_key f)))
    (fun '(d, (w, k)) => {| abi_description := d; abi_weight := uint_value w; abi_public_key := k |}).

#[global] Instance UnpackRange_abi_finalizer_authority : UnpackRange abi_finalizer_authority.
Proof. apply UnpackRange_struct. by intros [? [[] ?]]. Qed.

Fixpoint set_finalizers_loop (fs : list abi_finalizer_authority) (unique_finalizer_keys : list PK)
    (weight_sum : Z) (finalizers : list finalizer_authority) : result (Z * list finalizer_authority) :=
  match fs with
  | [] => mret (weight_sum, finalizers)
  | f :: fs =>
      EOS_ASSERT (vsize (blob_bytes (abi_description f)) <=? max_finalizer_description_size)
        wasm_execution_error;;
      EOS_ASSERT (abi_weight f <=? 2 ^ 64 - 1 - weight_sum) wasm_execution_error;;
      let weight_sum := u64 (weight_sum + abi_weight f) in
      EOS_ASSERT (vsize (abi_public_key f) =? 96) wasm_execution_error;;
      pk ← bls_public_key_of (uint_value <$> abi_public_key f);
      EOS_ASSERT (negb (bool_decide (pk ∈ unique_finalizer_keys))) wasm_execution_error;;
      set_finalizers_loop fs (pk :: unique_finalizer_keys) weight_sum
        (finalizers ++ [{| fa_description := abi_description f; fa_weight := abi_weight f;
                           fa_public_key := pk |}])
  end.

(** The policy handed to [transaction_context::set_proposed_finalizers]. *)
Definition set_finalizers (read_only : bool) (packed_finalizer_format : Z)
    (packed_finalizer_policy : list Z) : result finalizer_policy :=
  EOS_ASSERT (negb read_only) wasm_execution_error;;
  EOS_ASSERT (packed_finalizer_format =? 0) wasm_execution_error;;
  '(abi_finpol, _) ← unpack (A := uint 8 * list abi_finalizer_authority) packed_finalizer_policy;
  let finalizers := abi_finpol.2 in
  EOS_ASSERT (vsize finalizers <=? max_finalizers) wasm_execution_error;;
  EOS_ASSERT (0 <? vsize finalizers) wasm_execution_error;;
  '(weight_sum, fs) ← set_finalizers_loop finalizers [] 0 [];
  let threshold := uint_value abi_finpol.1 in
  EOS_ASSERT ((threshold <=? weight_sum) && (weight_sum / 2 <? threshold)) wasm_execution_error;;
  mret {| fp_generation := 0; fp_threshold := threshold; fp_finalizers := fs |}.
End SetFinalizers.

(** What [set_finalizers] guarantees of a policy. *)
Record policy_ok (p : finalizer_policy) : Prop := {
  ok_count : 0 < vsize (fp_finalizers p) <= max_finalizers;
  ok_weights : Forall (fun f => 0 <= fa_weight f) (fp_finalizers p);
  ok_keys : NoDup (fa_public_key <$> fp_finalizers p);
  ok_total : total_weight (fp_finalizers p) < 2 ^ 64;
  ok_threshold : fp_threshold p <= total_weight (fp_finalizers p) < 2 * fp_threshold p
}.

(** ** Lemmas *)

Lemma total_weight_app fs gs : total_weight (fs ++ gs) = total_weight fs + total_weight gs.
Proof. induction fs as [|f fs IH]; simpl; lia. Qed.

Lemma total_weight_nonneg fs : Forall (fun f => 0 <= fa_weight f) fs -> 0 <= total_weight fs.
Proof. induction 1; simpl; lia. Qed.

(** The accumulator is the total weight read as an [int32_t]. *)
Lemma i32_mod z w : i32 (u64 (u64 (i32 z) + w)) = i32 (z + w).
Proof.
  unfold i32, u64. f_equal.
  rewrite <- (Z.add_mod_idemp_l _ (2 ^ 31) (2 ^ 32)) by lia.
  rewrite Z.mod_mod_divide by (by exists (2 ^ 32)).
  rewrite Z.add_mod_idemp_l by lia.
  replace ((((z + 2 ^ 31) mod 2 ^ 32 - 2 ^ 31) mod 2 ^ 64 + w + 2 ^ 31) mod 2 ^ 32)
    with (((((z + 2 ^ 31) mod 2 ^ 32 - 2 ^ 31) mod 2 ^ 64) mod 2 ^ 32 + (w + 2 ^ 31)) mod 2 ^ 32)
    by (rewrite Z.add_mod_idemp_l by lia; f_equal; lia).
  rewrite Z.mod_mod_divide by (by exists (2 ^ 32)). rewrite Z.add_mod_idemp_l by lia.
  replace ((z + 2 ^ 31) mod 2 ^ 32 - 2 ^ 31 + (w + 2 ^ 31)) with ((z + 2 ^ 31) mod 2 ^ 32 + w) by lia.
  rewrite Z.add_mod_idemp_l by lia. f_equal. lia.
Qed.

Lemma weight_accumulate_from z fs :
  foldl (fun acc f => i32 (u64 (u64 acc + fa_weight f))) (i32 z) fs = i32 (z + total_weight fs).
Proof.
  revert z; induction fs as [|f fs IH]; intros z; simpl.
  - by rewrite Z.add_0_r.
  - rewrite i32_mod, IH. f_equal. lia.
Qed.

Lemma weight_accumulate_total fs : weight_accumulate fs = i32 (total_weight fs).
Proof. unfold weight_accumulate. change 0 with (i32 0) at 1. by rewrite weight_accumulate_from. Qed.

Lemma max_weak_sum_total p :
  max_weak_sum_before_weak_final p = u64 (i32 (total_weight (fp_finalizers p)) - fp_threshold p).
Proof.
  unfold max_weak_sum_before_weak_final. rewrite weight_accumulate_total.
  unfold u64. by rewrite Zminus_mod_idemp_l.
Qed.

(** Below [2^31] the 32-bit accumulator is harmless. *)
Lemma max_weak_sum_exact p :
  0 <= total_weight (fp_finalizers p) < 2 ^ 31 ->
  0 <= fp_threshold p <= total_weight (fp_finalizers p) ->
  max_weak_sum_before_weak_final p = total_weight (fp_finalizers p) - fp_threshold p.
Proof.
  intros Ht Hth. rewrite max_weak_sum_total, i32_small by lia. apply u64_small. lia.
Qed.

(** The state of the loop of [set_finalizers]. *)
Record loop_state (keys : list PK) (weight_sum : Z) (fs : list finalizer_authority) : Prop := {
  ls_keys : forall pk, pk ∈ keys <-> pk ∈ (fa_public_key <$> fs);
  ls_nodup : NoDup (fa_public_key <$> fs);
  ls_weights : Forall (fun f => 0 <= fa_weight f) fs;
  ls_sum : weight_sum = total_weight fs;
  ls_bound : 0 <= weight_sum < 2 ^ 64
}.

Lemma loop_state_push keys sum fs pk d w :
  loop_state keys sum fs -> 0 <= w -> w <= 2 ^ 64 - 1 - sum -> pk ∉ keys ->
  loop_state (pk :: keys) (u64 (sum + w))
    (fs ++ [{| fa_description := d; fa_weight := w; fa_public_key := pk |}]).
Proof.
  intros [Hk Hn Hw Hs Hb] Hw0 Hw1 Hpk. rewrite u64_small by lia. constructor.
  - intros q. rewrite elem_of_cons, Hk, fmap_app, elem_of_app. cbn [fmap list_fmap fa_public_key].
    rewrite list_elem_of_singleton. naive_solver.
  - rewrite fmap_app. apply NoDup_app. split_and!; [done| |apply NoDup_singleton].
    intros q Hq Hq'. apply list_elem_of_singleton in Hq'. simpl in Hq'. subst q. by apply Hpk, Hk.
  - apply Forall_app. split; [done|]. by repeat constructor.
  - rewrite total_weight_app. simpl. lia.
  - lia.
Qed.

Lemma set_finalizers_loop_Ok key_of fs keys sum acc sum' acc' :
  loop_state keys sum acc -> Forall (fun f => 0 <= abi_weight f) fs ->
  set_finalizers_loop key_of fs keys sum acc = Ok (sum', acc') ->
  (exists keys', loop_state keys' sum' acc') /\ vsize acc' = vsize acc + vsize fs.
Proof.
  revert keys sum acc; induction fs as [|f fs IH]; intros keys sum acc Hst Hw H;
    cbn [set_finalizers_loop] in H.
  - apply Ok_inj in H as [= <- <-]. split; [by exists keys|]. unfold vsize; simpl; lia.
  - apply Forall_cons_iff in Hw as [Hf Hfs]. inv_result.
    apply negb_true_iff, bool_decide_eq_false in Ha3.
    apply IH in H as [? Hl]; [split; [done|]|apply loop_state_push; try done; lia|done].
    rewrite Hl. unfold vsize. rewrite length_app. cbn [length]. lia.
Qed.

Lemma set_finalizers_policy_ok key_of ro fmt packed p :
  bytes_ok packed -> set_finalizers key_of ro fmt packed = Ok p -> policy_ok p /\ fp_generation p = 0.
Proof.
  intros Hb H. unfold set_finalizers in H.
  apply bind_Ok in H as (? & _ & H). apply bind_Ok in H as (? & _ & H).
  apply bind_Ok in H as ([[th fs] rest] & Hu & H). cbn [fst snd] in H.
  apply unpack_fits in Hu as [[Hth Hfs] _]; [|done].
  apply bind_Ok in H as (? & Hmax & H). apply bind_Ok in H as (? & Hpos & H).
  apply EOS_ASSERT_Ok in Hmax, Hpos. apply bind_Ok in H as ([sum acc] & Hloop & H).
  apply bind_Ok in H as (? & Hthr & H). apply EOS_ASSERT_Ok in Hthr.
  apply Ok_inj in H as <-. split; [|done].
  apply set_finalizers_loop_Ok in Hloop as [[keys [_ Hn Hw Hs Hsb]] Hl].
  - change (vsize ([] : list finalizer_authority)) with 0 in Hl. constructor; simpl; [lia|done|done|lia|].
    subst sum. apply andb_true_iff in Hthr as [H1 H2]. apply Z.leb_le in H1. apply Z.ltb_lt in H2.
    pose proof (Z.div_mod (total_weight acc) 2). pose proof (Z.mod_pos_bound (total_weight acc) 2). lia.
  - constructor; simpl; try done. apply NoDup_nil_2.
  - eapply Forall_impl; [exact Hfs|]. intros f (_ & Hf & _). simpl in Hf. lia.
Qed.

(** The truncation never makes the bound too small. *)
Lemma max_weak_sum_ge p :
  policy_ok p -> total_weight (fp_finalizers p) - fp_threshold p <= max_weak_sum_before_weak_final p.
Proof.
  intros [_ Hw _ Ht Hth]. pose proof (total_weight_nonneg _ Hw).
  rewrite max_weak_sum_total. unfold u64, i32. Z.to_euclidean_division_equations. lia.
Qed.
End FinalizerPolicy.

Arguments finalizer_authority PK : clear implicits.
Arguments finalizer_policy PK : clear implicits.
Arguments finalizer_policy_diff PK : clear implicits.

(** A finalizer policy survives the trip through a block header:
    [apply_diff] on the difference that [create_diff] computes returns the
    target policy, for policies of up to [max_finalizers] finalizers. *)
Theorem finalizer_policy_diff_roundtrip {PK : Type} `{EqDecision PK} (self target : finalizer_policy PK) :
  vsize (fp_finalizers self) <= max_finalizers -> vsize (fp_finalizers target) <= max_finalizers ->
  exists d, fp_create_diff self target = Ok d /\ fp_apply_diff self d = Ok target.
Proof.
  intros Hs Ht. destruct (diff_apply_ok finalizers_differ_size_max ltac:(unfold finalizers_differ_size_max; lia)
    (fp_finalizers self) (fp_finalizers target) Hs Ht) as (r & Er & Ea).
  unfold fp_create_diff, fp_apply_diff. rewrite Er. eexists. split; [done|]. simpl.
  rewrite Ea. by destruct target.
Qed.

Definition sample_policy (threshold : Z) (weights : list Z) : finalizer_policy Z :=
  {| fp_generation := 1; fp_threshold := threshold;
     fp_finalizers := imap (fun i w => {| fa_description := Blob [65]; fa_weight := w;
                                          fa_public_key := Z.of_nat i |}) weights |}.

Lemma finalizer_policy_diff_roundtrip_witness :
  exists d, fp_create_diff (sample_policy 3 [1; 2; 1]) (sample_policy 5 [2; 2; 4; 1]) = Ok d /\
            fp_apply_diff (sample_policy 3 [1; 2; 1]) d = Ok (sample_policy 5 [2; 2; 4; 1]).
Proof. apply finalizer_policy_diff_roundtrip; vm_compute; discriminate. Defined.

(** Every policy that [set_finalizers] accepts, from whatever bytes a
    contract passes, has between one and [max_finalizers] finalizers with
    distinct keys, a total weight that fits 64 bits, and a threshold above half
    of the total weight and at most the total weight. *)
Theorem set_finalizers_valid {PK : Type} `{EqDecision PK} (bls_public_key_of : list Z -> result PK)
    (read_only : bool) (format : Z) (packed : list Z) (p : finalizer_policy PK) :
  bytes_ok packed -> set_finalizers bls_public_key_of read_only format packed = Ok p ->
  policy_ok p /\ fp_generation p = 0.
Proof. apply set_finalizers_policy_ok. Qed.

(** One finalizer with weight 7 and threshold 4; its key is 96 bytes of 9. *)
Definition sample_packed_policy : list Z :=
  [4; 0; 0; 0; 0; 0; 0; 0; 1; 1; 65; 7; 0; 0; 0; 0; 0; 0; 0; 96] ++ replicate 96 9.

Lemma set_finalizers_valid_witness :
  exists p, set_finalizers (fun bs => Ok (le_value bs)) false 0 sample_packed_policy = Ok p /\
            policy_ok p /\ fp_generation p = 0.
Proof.
  eexists. split; [vm_compute; reflexivity|].
  apply (set_finalizers_valid (fun bs => Ok (le_value bs)) false 0 sample_packed_policy).
  - unfold bytes_ok, sample_packed_policy. apply Forall_app. split.
    + repeat constructor; discriminate.
    + apply Forall_replicate. lia.
  - vm_compute; reflexivity.
Defined.

(** [max_weak_sum_before_weak_final] is the total weight, truncated to a
    signed 32-bit integer, minus the threshold; it is the intended difference
    exactly when the total weight is below [2^31] (or so close to [2^64] that
    the sign extension undoes the truncation), and there are policies that meet
    every check of [set_finalizers] for which it is not. *)
Theorem max_weak_sum_value :
  (forall {PK : Type} (p : finalizer_policy PK),
     max_weak_sum_before_weak_final p = u64 (i32 (total_weight (fp_finalizers p)) - fp_threshold p)) /\
  (forall {PK : Type} (p : finalizer_policy PK), policy_ok p ->
     max_weak_sum_before_weak_final p = total_weight (fp_finalizers p) - fp_threshold p <->
     total_weight (fp_finalizers p) < 2 ^ 31 \/ 2 ^ 64 - 2 ^ 31 <= total_weight (fp_finalizers p)) /\
  (exists p : finalizer_policy Z, policy_ok p /\
     max_weak_sum_before_weak_final p <> total_weight (fp_finalizers p) - fp_threshold p).
Proof.
  split_and!.
  - intros PK p. apply max_weak_sum_total.
  - intros PK p [_ Hw _ Ht Hth]. pose proof (total_weight_nonneg _ Hw) as H0. split.
    + rewrite max_weak_sum_total. intros E. unfold u64, i32 in E.
      Z.to_euclidean_division_equations. lia.
    + intros [Hlt|Hge]; [apply max_weak_sum_exact; lia|].
      rewrite max_weak_sum_total. unfold u64, i32. Z.to_euclidean_division_equations. lia.
  - exists (sample_policy (2 ^ 31) [2 ^ 31; 1]). split.
    + constructor; vm_compute; try done; [by repeat constructor|].
      apply NoDup_cons. split; [|apply NoDup_singleton]. rewrite list_elem_of_singleton. discriminate.
    + vm_compute. discriminate.
Qed.
