(* ===== verification/ProducerSchedule.v ===== *)
(** Producer schedules (chain/include/eosio/chain/producer_schedule.hpp),
    proposer policies (finality/proposer_policy.hpp) and the checks of
    [set_proposed_producers_common] (chain/webassembly/privileged.cpp) on a
    schedule that a contract proposes.

    [K] stands for [public_key_type]; a [std::set] of keys is a list used
    through membership only. *)
From Stdlib Require Import ZArith Lia ZifyBool.
From stdpp Require Import base tactics numbers list.
From S2P Require Import Prelude OrderedDiff.
#[local] Open Scope Z_scope.

Definition producer_repetitions : Z := 12.
Definition max_proposers : Z := 64 * 1024.
Definition producer_auth_differ_size_max : Z := 2 ^ 16 - 1.

Section Producers.
Context {K : Type} `{EqDecision K}.

Record key_weight : Type := { kw_key : K; kw_weight : Z (* uint16_t *) }.

#[global] Instance key_weight_eq_dec : EqDecision key_weight.
Proof. solve_decision. Defined.

Record block_signing_authority_v0 : Type := {
  bsa_threshold : Z;         (* uint32_t *)
  bsa_keys : list key_weight
}.

#[global] Instance block_signing_authority_v0_eq_dec : EqDecision block_signing_authority_v0.
Proof. solve_decision. Defined.

(** [std::variant<block_signing_authority_v0>]. *)
Inductive block_signing_authority : Type :=
| authority_v0 (a : block_signing_authority_v0).

#[global] Instance block_signing_authority_eq_dec : EqDecision block_signing_authority.
Proof. solve_decision. Defined.

Record producer_authority : Type := {
  pa_producer_name : Z;      (* name: uint64_t *)
  pa_authority : block_signing_authority
}.

#[global] Instance producer_authority_eq_dec : EqDecision producer_authority.
Proof. solve_decision. Defined.

Record producer_authority_schedule : Type := {
  sched_version : Z;         (* uint32_t *)
  sched_producers : list producer_authority
}.

#[global] Instance producer_authority_schedule_eq_dec : EqDecision producer_authority_schedule.
Proof. solve_decision. Defined.

(** [legacy::producer_schedule_type]: one key per producer. *)
Record legacy_producer_key : Type := { lpk_producer_name : Z; lpk_block_signing_key : K }.

Definition up_convert (p : legacy_producer_key) : producer_authority :=
  {| pa_producer_name := lpk_producer_name p;
     pa_authority := authority_v0
       {| bsa_threshold := 1; bsa_keys := [{| kw_key := lpk_block_signing_key p; kw_weight := 1 |}] |} |}.

Definition schedule_of_legacy (version : Z) (producers : list legacy_producer_key)
    : producer_authority_schedule :=
  {| sched_version := version; sched_producers := up_convert <$> producers |}.

(** ** keys_satisfy_and_relevant *)

Definition satisfy_step (threshold : Z) (presented_keys : list K) (st : Z * Z) (kw : key_weight) : Z * Z :=
  let '(num_relevant_keys, total_weight) := st in
  if bool_decide (kw_key kw ∈ presented_keys) then
    (num_relevant_keys + 1,
     if total_weight <? threshold
     then u32 (total_weight + Z.min (2 ^ 32 - 1 - total_weight) (kw_weight kw))
     else total_weight)
  else (num_relevant_keys, total_weight).

Definition keys_satisfy_and_relevant_v0 (a : block_signing_authority_v0) (presented_keys : list K)
    : bool * Z :=
  let '(num_relevant_keys, total_weight) :=
    foldl (satisfy_step (bsa_threshold a) presented_keys) (0, 0) (bsa_keys a) in
  (bsa_threshold a <=? total_weight, num_relevant_keys).

Definition keys_satisfy_and_relevant (keys : list K) (authority : block_signing_authority) : bool * Z :=
  match authority with authority_v0 a => keys_satisfy_and_relevant_v0 a keys end.

(** ** get_scheduled_producer *)

(** [t.slot % (producers.size() * producer_repetitions)]: a remainder by zero
    is undefined. *)
Definition get_scheduled_producer (s : producer_authority_schedule) (slot : Z) : result producer_authority :=
  let m := u64 (vsize (sched_producers s) * producer_repetitions) in
  EOS_ASSERT (negb (m =? 0)) undefined_behavior;;
  let index := slot mod m in
  let index := index / producer_repetitions in
  at_index (sched_producers s) index.

(** ** proposer_policy *)

Record proposer_policy_diff : Type := {
  ppd_version : Z;
  ppd_proposal_time : Z;
  ppd_producer_auth_diff : diff_result producer_authority
}.

Record proposer_policy : Type := {
  pp_proposal_time : Z;      (* block_timestamp_type: its slot *)
  pp_proposer_schedule : producer_authority_schedule
}.

Definition pp_create_diff (self target : proposer_policy) : result proposer_policy_diff :=
  d ← diff producer_auth_differ_size_max (sched_producers (pp_proposer_schedule self))
           (sched_producers (pp_proposer_schedule target));
  mret {| ppd_version := sched_version (pp_proposer_schedule target);
          ppd_proposal_time := pp_proposal_time target; ppd_producer_auth_diff := d |}.

Definition pp_apply_diff (self : proposer_policy) (d : proposer_policy_diff) : result proposer_policy :=
  producers ← apply_diff (sched_producers (pp_proposer_schedule self)) (ppd_producer_auth_diff d);
  mret {| pp_proposal_time := ppd_proposal_time d;
          pp_proposer_schedule := {| sched_version := ppd_version d; sched_producers := producers |} |}.

(** ** set_proposed_producers_common *)

(** The saturating sum of the weights of one authority, with the checks on each
    key; [which] is the key's type index and [valid] the key's own test. *)
Section SetProducers.
Variable which : K -> Z.
Variable valid : K -> bool.
Variable is_account : Z -> bool.

Fixpoint check_keys (num_supported_key_types : Z) (validate_keys : bool) (sum_weights : Z)
    (keys : list key_weight) : result Z :=
  match keys with
  | [] => mret sum_weights
  | kw :: keys =>
      EOS_ASSERT (which (kw_key kw) <? num_supported_key_types) unactivated_key_type;;
      EOS_ASSERT (negb validate_keys || valid (kw_key kw)) wasm_execution_error;;
      check_keys num_supported_key_types validate_keys
        (if 2 ^ 32 - 1 - sum_weights <=? kw_weight kw then 2 ^ 32 - 1
         else u32 (sum_weights + kw_weight kw)) keys
  end.

(** The size of a [std::set] of the elements. *)
Definition unique_count {A} `{EqDecision A} (l : list A) : Z := vsize (remove_dups l).

Definition check_authority (num_supported_key_types : Z) (validate_keys : bool)
    (a : block_signing_authority_v0) : result unit :=
  sum_weights ← check_keys num_supported_key_types validate_keys 0 (bsa_keys a);
  EOS_ASSERT (vsize (bsa_keys a) =? unique_count (kw_key <$> bsa_keys a)) wasm_execution_error;;
  EOS_ASSERT (0 <? bsa_threshold a) wasm_execution_error;;
  EOS_ASSERT (bsa_threshold a <=? sum_weights) wasm_execution_error.

Fixpoint check_producers (num_supported_key_types : Z) (validate_keys : bool)
    (producers : list producer_authority) : result unit :=
  match producers with
  | [] => mret tt
  | p :: producers =>
      EOS_ASSERT (is_account (pa_producer_name p)) wasm_execution_error;;
      match pa_authority p with
      | authority_v0 a => check_authority num_supported_key_types validate_keys a
      end;;
      check_producers num_supported_key_types validate_keys producers
  end.

(** The producers handed to [controller::set_proposed_producers]. *)
Definition set_proposed_producers_common (disallow_empty : bool) (num_supported_key_types : Z)
    (producers : list producer_authority) (validate_keys : bool) : result (list producer_authority) :=
  EOS_ASSERT ((0 <? vsize producers) || negb disallow_empty) wasm_execution_error;;
  check_producers num_supported_key_types validate_keys producers;;
  EOS_ASSERT (vsize producers =? unique_count (pa_producer_name <$> producers)) wasm_execution_error;;
  mret producers.
End SetProducers.

(** [transaction_context::set_proposed_producers]: the value returned and the
    schedule recorded for the block being built (none when the list is empty). *)
Definition trx_set_proposed_producers (head_block_num : Z) (producers : list producer_authority)
    : result (Z * option (Z * list producer_authority)) :=
  if is_empty producers then mret (-1, None)
  else
    EOS_ASSERT (vsize producers <=? max_proposers) wasm_execution_error;;
    mret (2 ^ 32 - 1, Some (u32 (head_block_num + 1), producers)).

(** ** Specifications *)

(** The weight of the presented keys. *)
Definition presented_weight (presented_keys : list K) (keys : list key_weight) : Z :=
  foldr (fun kw acc => (if bool_decide (kw_key kw ∈ presented_keys) then kw_weight kw else 0) + acc) 0 keys.
Definition relevant_count (presented_keys : list K) (keys : list key_weight) : Z :=
  foldr (fun kw acc => Z_of_bool (bool_decide (kw_key kw ∈ presented_keys)) + acc) 0 keys.

(** Every signing authority of the schedule can be satisfied, and by distinct
    keys; producer names are distinct. *)
Definition authority_ok (a : block_signing_authority_v0) : Prop :=
  NoDup (kw_key <$> bsa_keys a) /\
  0 < bsa_threshold a <= foldr (fun kw acc => kw_weight kw + acc) 0 (bsa_keys a).
Definition producer_ok (p : producer_authority) : Prop :=
  match pa_authority p with authority_v0 a => authority_ok a end.

Definition weights_u16 (keys : list key_weight) : Prop := Forall (fun kw => 0 <= kw_weight kw < 2 ^ 16) keys.

(** ** Lemmas *)

Lemma satisfy_fold th ks keys n w :
  0 <= th < 2 ^ 32 -> weights_u16 keys -> 0 <= w < 2 ^ 32 ->
  exists w', foldl (satisfy_step th ks) (n, w) keys = (n + relevant_count ks keys, w') /\
    0 <= w' < 2 ^ 32 /\ (th <= w' <-> th <= w + presented_weight ks keys).
Proof.
  intros Hth. revert n w; induction keys as [|kw keys IH]; intros n w Hk Hw; simpl.
  - exists w. rewrite !Z.add_0_r. done.
  - apply Forall_cons_iff in Hk as [Hkw Hks].
    assert (0 <= presented_weight ks keys) as Hp.
    { clear -Hks. induction Hks as [|k l Hk _ IH]; simpl; [lia|]. case_bool_decide; lia. }
    destruct (bool_decide (kw_key kw ∈ ks)); simpl.
    + set (w1 := if w <? th then _ else w).
      assert (0 <= w1 < 2 ^ 32 /\ (th <= w1 + presented_weight ks keys <->
        th <= w + (kw_weight kw + presented_weight ks keys))) as [Hw1 Hiff].
      { subst w1. destruct (Z.ltb_spec w th); [|lia]. rewrite u32_small by lia. lia. }
      destruct (IH (n + 1) w1 Hks Hw1) as (w' & E & Hw' & Hi). exists w'.
      rewrite E. split_and!; [f_equal; lia|lia|lia|]. rewrite Hi. exact Hiff.
    + destruct (IH n w Hks Hw) as (w' & E & Hw' & Hi). exists w'. rewrite E. done.
Qed.

Lemma unique_count_NoDup {A} `{EqDecision A} (l : list A) : vsize l = unique_count l -> NoDup l.
Proof.
  unfold unique_count, vsize. intros H. apply Nat2Z.inj in H.
  assert (remove_dups l ⊆+ l) as Hs.
  { apply NoDup_submseteq; [apply NoDup_remove_dups|]. intros x. by rewrite elem_of_remove_dups. }
  apply submseteq_length_Permutation in Hs; [|lia]. rewrite <- Hs. apply NoDup_remove_dups.
Qed.

Lemma check_keys_sum which valid n v keys s s' :
  weights_u16 keys -> 0 <= s < 2 ^ 32 -> check_keys which valid n v s keys = Ok s' ->
  0 <= s' /\ s' <= s + foldr (fun kw acc => kw_weight kw + acc) 0 keys.
Proof.
  revert s; induction keys as [|kw keys IH]; intros s Hk Hs H; cbn [check_keys] in H.
  - apply Ok_inj in H as <-. simpl. lia.
  - apply Forall_cons_iff in Hk as [Hkw Hks]. inv_result. simpl.
    apply IH in H; [|done|].
    + destruct (Z.leb_spec (2 ^ 32 - 1 - s) (kw_weight kw)); [lia|]. rewrite u32_small in H by lia. lia.
    + destruct (Z.leb_spec (2 ^ 32 - 1 - s) (kw_weight kw)); [lia|]. rewrite u32_small by lia. lia.
Qed.

Lemma check_authority_ok which valid n v a :
  weights_u16 (bsa_keys a) -> check_authority which valid n v a = Ok tt -> authority_ok a.
Proof.
  intros Hk H. unfold check_authority in H. inv_result. apply check_keys_sum in Ha; [|done|lia].
  split; [apply unique_count_NoDup; unfold vsize in *; rewrite length_fmap; lia|lia].
Qed.

Lemma check_producers_ok which valid is_account n v ps :
  Forall (fun p => match pa_authority p with authority_v0 a => weights_u16 (bsa_keys a) end) ps ->
  check_producers which valid is_account n v ps = Ok tt ->
  Forall (fun p => is_account (pa_producer_name p) = true /\ producer_ok p) ps.
Proof.
  induction 1 as [|p ps Hp Hps IH]; intros H; [constructor|]. cbn [check_producers] in H. inv_result.
  constructor; [|by apply IH]. split; [done|]. unfold producer_ok.
  destruct (pa_authority p). destruct a0. by eapply check_authority_ok.
Qed.

Lemma get_scheduled_producer_index s slot :
  0 < vsize (sched_producers s) < 2 ^ 32 -> 0 <= slot ->
  get_scheduled_producer s slot =
  at_index (sched_producers s) ((slot / producer_repetitions) mod vsize (sched_producers s)).
Proof.
  intros Hn Hs. unfold get_scheduled_producer, producer_repetitions.
  rewrite u64_small by lia. step_assert. f_equal.
  rewrite (Z.mul_comm (vsize _)), Z.rem_mul_r by lia.
  rewrite Z.mul_comm, Z.div_add by lia.
  rewrite Z.div_small by (apply Z.mod_pos_bound; lia). lia.
Qed.
End Producers.

Arguments key_weight K : clear implicits.
Arguments block_signing_authority_v0 K : clear implicits.
Arguments block_signing_authority K : clear implicits.
Arguments producer_authority K : clear implicits.
Arguments producer_authority_schedule K : clear implicits.
Arguments proposer_policy K : clear implicits.
Arguments proposer_policy_diff K : clear implicits.

(** [keys_satisfy_and_relevant] decides the weighted threshold: its flag
    says whether the weights of the presented keys reach the threshold (the
    early stop and the saturation at [2^32 - 1] change nothing), and its count
    is the number of the authority's keys that were presented. *)
Theorem keys_satisfy_correct {K : Type} `{EqDecision K} (keys : list K) (a : block_signing_authority_v0 K) :
  0 <= bsa_threshold a < 2 ^ 32 -> weights_u16 (bsa_keys a) ->
  keys_satisfy_and_relevant keys (authority_v0 a) =
    (bsa_threshold a <=? presented_weight keys (bsa_keys a), relevant_count keys (bsa_keys a)).
Proof.
  intros Hth Hk. unfold keys_satisfy_and_relevant, keys_satisfy_and_relevant_v0.
  destruct (satisfy_fold (bsa_threshold a) keys (bsa_keys a) 0 0 Hth Hk) as (w & -> & _ & Hi); [lia|].
  rewrite Z.add_0_l in Hi |- *. f_equal. apply eq_true_iff_eq. by rewrite !Z.leb_le.
Qed.

Definition sample_authority (threshold : Z) (keys : list (Z * Z)) : block_signing_authority_v0 Z :=
  {| bsa_threshold := threshold;
     bsa_keys := (fun x => {| kw_key := x.1; kw_weight := x.2 |}) <$> keys |}.

Lemma keys_satisfy_correct_witness :
  keys_satisfy_and_relevant [2; 3; 9] (authority_v0 (sample_authority 5 [(1, 4); (2, 2); (3, 3)]))
  = (true, 2).
Proof.
  rewrite keys_satisfy_correct; [vm_compute; reflexivity|vm_compute; split; [discriminate|reflexivity]|].
  repeat constructor; discriminate.
Defined.

(** Round robin: with [n > 0] producers, the producer scheduled for a slot
    exists and is number [(slot / 12) mod n], so each producer owns twelve
    consecutive slots and the order repeats every [12 n] slots. *)
Theorem get_scheduled_producer_round_robin {K : Type} (s : producer_authority_schedule K) (slot : Z) :
  0 < vsize (sched_producers s) <= max_proposers -> 0 <= slot ->
  let i := (slot / producer_repetitions) mod vsize (sched_producers s) in
  exists p, get_scheduled_producer s slot = Ok p /\ sched_producers s !! Z.to_nat i = Some p /\
    get_scheduled_producer s (slot + producer_repetitions * vsize (sched_producers s)) = Ok p /\
    forall j, 0 <= j < producer_repetitions ->
      get_scheduled_producer s (slot - slot mod producer_repetitions + j) = Ok p.
Proof.
  intros Hn Hs i. unfold max_proposers in Hn.
  assert (0 <= i < vsize (sched_producers s)) as Hi by (apply Z.mod_pos_bound; lia).
  destruct (lookup_lt_is_Some_2 (sched_producers s) (Z.to_nat i)) as [p Hp]; [unfold vsize in *; lia|].
  pose proof (at_index_lookup _ _ _ (proj1 Hi) Hp) as Ha. subst i.
  unfold producer_repetitions in *. exists p.
  split_and!; [by rewrite get_scheduled_producer_index by lia|done| |].
  - rewrite get_scheduled_producer_index by lia. unfold producer_repetitions.
    rewrite Z.mul_comm, Z.div_add by lia.
    rewrite <- (Z.mul_1_l (vsize (sched_producers s))) at 1. rewrite Z.mod_add by lia. exact Ha.
  - intros j Hj. pose proof (Z.div_mod slot 12 ltac:(lia)) as Hd.
    pose proof (Z.mod_pos_bound slot 12 ltac:(lia)). pose proof (Z.div_pos slot 12 Hs ltac:(lia)).
    rewrite get_scheduled_producer_index by lia. unfold producer_repetitions.
    replace ((slot - slot mod 12 + j) / 12) with (slot / 12); [exact Ha|].
    apply Z.div_unique with j; lia.
Qed.

Definition sample_producer (n : Z) : producer_authority Z :=
  {| pa_producer_name := n; pa_authority := authority_v0 (sample_authority 1 [(n, 1)]) |}.
Definition sample_schedule (ns : list Z) : producer_authority_schedule Z :=
  {| sched_version := 3; sched_producers := sample_producer <$> ns |}.

Lemma get_scheduled_producer_round_robin_witness :
  exists p, get_scheduled_producer (sample_schedule [7; 8; 9]) 100 = Ok p /\ p = sample_producer 9.
Proof.
  destruct (get_scheduled_producer_round_robin (sample_schedule [7; 8; 9]) 100) as (p & E & Hp & _);
    [vm_compute; split; [reflexivity|discriminate]|discriminate|].
  exists p. split; [exact E|]. vm_compute in Hp. injection Hp as <-. reflexivity.
Defined.

(** A proposer policy survives the trip through a block header. *)
Theorem proposer_policy_diff_roundtrip {K : Type} `{EqDecision K} (self target : proposer_policy K) :
  vsize (sched_producers (pp_proposer_schedule self)) <= max_proposers ->
  vsize (sched_producers (pp_proposer_schedule target)) <= max_proposers ->
  exists d, pp_create_diff self target = Ok d /\ pp_apply_diff self d = Ok target.
Proof.
  intros Hs Ht. destruct (diff_apply_ok producer_auth_differ_size_max
    ltac:(unfold producer_auth_differ_size_max; lia) _ _ Hs Ht) as (r & Er & Ea).
  unfold pp_create_diff, pp_apply_diff. rewrite Er. eexists. split; [done|]. simpl.
  rewrite Ea. by destruct target as [? []].
Qed.

Lemma proposer_policy_diff_roundtrip_witness :
  let p ns := {| pp_proposal_time := 5; pp_proposer_schedule := sample_schedule ns |} in
  exists d, pp_create_diff (p [1; 2; 3]) (p [3; 2; 4; 5]) = Ok d /\
            pp_apply_diff (p [1; 2; 3]) d = Ok (p [3; 2; 4; 5]).
Proof. apply proposer_policy_diff_roundtrip; vm_compute; discriminate. Defined.

(** A schedule that [set_proposed_producers_common] accepts has distinct
    producer names that are accounts, and for each producer a signing authority
    with distinct keys and a positive threshold that all its keys together
    reach. *)
Theorem set_proposed_producers_valid {K : Type} `{EqDecision K} (which : K -> Z) (valid : K -> bool)
    (is_account : Z -> bool) (disallow_empty : bool) (num_key_types : Z)
    (producers accepted : list (producer_authority K)) (validate_keys : bool) :
  Forall (fun p => match pa_authority p with authority_v0 a => weights_u16 (bsa_keys a) end) producers ->
  set_proposed_producers_common which valid is_account disallow_empty num_key_types
    producers validate_keys = Ok accepted ->
  accepted = producers /\ NoDup (pa_producer_name <$> producers) /\
  Forall (fun p => is_account (pa_producer_name p) = true /\ producer_ok p) producers.
Proof.
  intros Hw H. unfold set_proposed_producers_common in H. inv_result. destruct a0.
  split_and!; [done| |by eapply check_producers_ok].
  apply unique_count_NoDup. unfold vsize in *. rewrite length_fmap. lia.
Qed.

Lemma set_proposed_producers_valid_witness :
  NoDup (pa_producer_name <$> [sample_producer 4; sample_producer 5]).
Proof.
  refine (proj1 (proj2 (set_proposed_producers_valid (fun _ => 0) (fun _ => true) (fun _ => true)
    true 1 [sample_producer 4; sample_producer 5] [sample_producer 4; sample_producer 5] true _ _))).
  - repeat constructor; discriminate.
  - vm_compute; reflexivity.
Defined.
