(* ===== verification/Qc.v ===== *)
(** Quorum certificates (chain/finality/qc.hpp and qc.cpp): the certificate
    [qc_sig_t] and [qc_t] with their verification, the vote-counting state
    machine [aggregating_qc_sig_t], and [aggregating_qc_t], which feeds one vote
    to the active and the pending finalizer policy.

    The calls of [aggregating_qc_sig_t] hold its mutex, so an execution is a
    sequence of whole calls.  BLS signatures come from a library: the class
    [Bls] is what the code calls, [BlsLaws] what it relies on.  A policy pointer
    is an option where the code tests it for null. *)
From Stdlib Require Import ZArith Lia ZifyBool.
From stdpp Require Import base tactics numbers list.
From S2P Require Import Prelude Digest Raw FinalityCore OrderedDiff FinalizerPolicy.
#[local] Open Scope Z_scope.

(** ** The signature scheme *)

Class Bls (PK SIG APK : Type) : Type := {
  bls_verify : PK -> list Z -> SIG -> bool;            (* blslib::verify *)
  sig_zero : SIG;                                      (* a default-constructed aggregate *)
  sig_aggregate : SIG -> SIG -> SIG;                   (* bls_aggregate_signature::aggregate *)
  aggregate_public_keys : list PK -> APK;
  aggregate_verify : list APK -> list (list Z) -> SIG -> bool
}.

Definition sum_sigs {PK SIG APK} `{Bls PK SIG APK} (sigs : list SIG) : SIG :=
  foldr sig_aggregate sig_zero sigs.

(** BLS signatures are unique for a key and a message, aggregation is addition
    in a group, and the aggregate of the signatures of a set of keys on a
    message verifies against the aggregated key; likewise for two messages. *)
Class BlsLaws (PK SIG APK : Type) `{Bls PK SIG APK} : Type := {
  bls_sign : PK -> list Z -> SIG;
  bls_verify_sign : forall k d s, bls_verify k d s = true -> s = bls_sign k d;
  sig_aggregate_assoc : forall a b c,
    sig_aggregate a (sig_aggregate b c) = sig_aggregate (sig_aggregate a b) c;
  sig_aggregate_comm : forall a b, sig_aggregate a b = sig_aggregate b a;
  sig_aggregate_zero : forall a, sig_aggregate sig_zero a = a;
  aggregate_verify_one : forall ks d,
    aggregate_verify [aggregate_public_keys ks] [d] (sum_sigs ((fun k => bls_sign k d) <$> ks)) = true;
  aggregate_verify_two : forall ks ks' d d',
    aggregate_verify [aggregate_public_keys ks; aggregate_public_keys ks'] [d; d']
      (sig_aggregate (sum_sigs ((fun k => bls_sign k d) <$> ks))
                     (sum_sigs ((fun k => bls_sign k d') <$> ks'))) = true
}.

(** [create_weak_digest]: the digest followed by the bytes of WEAK. *)
Definition weak_bls_sig_postfix : list Z := [87; 69; 65; 75].
Definition create_weak_digest (digest : sha256) : list Z := sha256_bytes digest ++ weak_bls_sig_postfix.

Inductive vote_result_t : Type :=
| success | duplicate | unknown_public_key | invalid_signature | unknown_block | max_exceeded.

#[global] Instance vote_result_eq_dec : EqDecision vote_result_t.
Proof. solve_decision. Defined.

Inductive vote_status_t : Type := voted | not_voted | irrelevant_finalizer.

Inductive state_t : Type := unrestricted | restricted | weak_achieved | weak_final | strong.

#[global] Instance state_t_eq_dec : EqDecision state_t.
Proof. solve_decision. Defined.

Section Qc.
Context {PK SIG APK : Type} `{EqDecision PK} `{Bls PK SIG APK}.
Abbreviation finalizer_policy := (finalizer_policy PK).
Abbreviation finalizer_authority := (finalizer_authority PK).

(** A [vote_bitset_t] is the list of its bits; an index must be in range. *)
Definition bit_at (bs : list bool) (i : nat) : result bool :=
  match bs !! i with Some b => Ok b | None => Err undefined_behavior end.

(** [bs && ( *bs )[i]] for an optional bitset. *)
Definition opt_bit_at (bs : option (list bool)) (i : nat) : result bool :=
  match bs with None => Ok false | Some bs => bit_at bs i end.

Record qc_sig_t : Type := {
  qs_strong_votes : option (list bool);
  qs_weak_votes : option (list bool);
  qs_sig : SIG
}.

Definition sig_is_weak (q : qc_sig_t) : bool := match qs_weak_votes q with Some _ => true | None => false end.
Definition sig_is_strong (q : qc_sig_t) : bool := negb (sig_is_weak q).

Record qc_t : Type := {
  qc_block_num : Z;
  qc_active_policy_sig : qc_sig_t;
  qc_pending_policy_sig : option qc_sig_t
}.

Definition qc_is_strong (q : qc_t) : bool :=
  sig_is_strong (qc_active_policy_sig q) &&
  match qc_pending_policy_sig q with None => true | Some s => sig_is_strong s end.

Definition to_qc_claim (q : qc_t) : qc_claim_t :=
  {| claim_block_num := qc_block_num q; is_strong_qc := qc_is_strong q |}.

(** ** Verification *)

Definition index_ok (votes : option (list bool)) (i : nat) : bool :=
  match votes with None => true | Some v => (i <? length v)%nat end.

Definition sig_vote_same_at (self other : qc_sig_t) (my_vote_index other_vote_index : nat) : result bool :=
  c_assert (index_ok (qs_strong_votes self) my_vote_index);;
  c_assert (index_ok (qs_weak_votes self) my_vote_index);;
  s ← opt_bit_at (qs_strong_votes self) my_vote_index;
  s' ← opt_bit_at (qs_strong_votes other) other_vote_index;
  w ← opt_bit_at (qs_weak_votes self) my_vote_index;
  w' ← opt_bit_at (qs_weak_votes other) other_vote_index;
  mret (Bool.eqb s s' && Bool.eqb w w').

Definition qc_vote_same_at (q : qc_t) (active_vote_index pending_vote_index : nat) : result bool :=
  match qc_pending_policy_sig q with
  | None => Err assertion_failed
  | Some p => sig_vote_same_at (qc_active_policy_sig q) p active_vote_index pending_vote_index
  end.

(** The loop over the indexes of [strong_votes]. *)
Fixpoint check_disjoint (sv wv : list bool) : result unit :=
  match sv, wv with
  | [], _ => mret tt
  | s :: sv, w :: wv => EOS_ASSERT (negb (s && w)) invalid_qc_claim;; check_disjoint sv wv
  | _ :: _, [] => Err undefined_behavior
  end.

Definition check_size (n : Z) (votes : option (list bool)) : result unit :=
  match votes with
  | None => mret tt
  | Some v => EOS_ASSERT (n =? vsize v) invalid_qc_claim
  end.

Definition verify_vote_format (q : qc_sig_t) (p : finalizer_policy) : result unit :=
  let num_finalizers := vsize (fp_finalizers p) in
  EOS_ASSERT (match qs_strong_votes q, qs_weak_votes q with None, None => false | _, _ => true end)
    invalid_qc_claim;;
  check_size num_finalizers (qs_strong_votes q);;
  check_size num_finalizers (qs_weak_votes q);;
  match qs_strong_votes q, qs_weak_votes q with
  | Some sv, Some wv => check_disjoint sv wv
  | _, _ => mret tt
  end.

(** The lambda [weights]. *)
Fixpoint weights (fs : list finalizer_authority) (votes : list bool) (sum : Z) : result Z :=
  match fs, votes with
  | [], _ => mret sum
  | f :: fs, b :: votes => weights fs votes (if b then u64 (sum + fa_weight f) else sum)
  | _ :: _, [] => Err undefined_behavior
  end.

Definition opt_weights (fs : list finalizer_authority) (votes : option (list bool)) : result Z :=
  match votes with None => mret 0 | Some v => weights fs v 0 end.

(** The keys of the finalizers whose bit is set, up to the shorter length. *)
Fixpoint voted_keys (fs : list finalizer_authority) (votes : list bool) : list PK :=
  match fs, votes with
  | f :: fs, b :: votes => (if b then [fa_public_key f] else []) ++ voted_keys fs votes
  | _, _ => []
  end.

Definition sig_verify (q : qc_sig_t) (p : finalizer_policy) (strong_digest : sha256)
    (weak_digest : list Z) : result unit :=
  let fs := fp_finalizers p in
  strong_weights ← opt_weights fs (qs_strong_votes q);
  weak_weights ← opt_weights fs (qs_weak_votes q);
  (if sig_is_strong q
   then EOS_ASSERT (fp_threshold p <=? strong_weights) invalid_qc_claim
   else EOS_ASSERT (fp_threshold p <=? u64 (strong_weights + weak_weights)) invalid_qc_claim);;
  let entry (votes : option (list bool)) (digest : list Z) :=
    match votes with
    | Some v => [(aggregate_public_keys (voted_keys fs v), digest)]
    | None => []
    end in
  let entries := entry (qs_strong_votes q) (sha256_bytes strong_digest) ++
                 entry (qs_weak_votes q) weak_digest in
  EOS_ASSERT (aggregate_verify entries.*1 entries.*2 (qs_sig q)) invalid_qc_claim.

(** ** aggregating_qc_sig_t *)

Record votes_t : Type := {
  bitset : list bool;
  votes_sig : SIG;
  processed : list bool
}.

Definition votes_init (num_finalizers : nat) : votes_t :=
  {| bitset := replicate num_finalizers false; votes_sig := sig_zero;
     processed := replicate num_finalizers false |}.

(** [reflector_init]: after a restart [processed] is rebuilt from [bitset]. *)
Definition reflector_init (v : votes_t) : votes_t :=
  {| bitset := bitset v; votes_sig := votes_sig v; processed := bitset v |}.

Definition votes_has_voted (v : votes_t) (index : nat) : result bool :=
  c_assert ((index <? length (processed v))%nat);; bit_at (processed v) index.

Definition votes_add_vote (v : votes_t) (index : nat) (signature : SIG) : result votes_t :=
  EOS_ASSERT ((index <? length (processed v))%nat && (index <? length (bitset v))%nat) undefined_behavior;;
  mret {| bitset := <[index := true]> (bitset v);
          votes_sig := sig_aggregate (votes_sig v) signature;
          processed := <[index := true]> (processed v) |}.

Record aggregating_qc_sig_t : Type := {
  received_qc_sig : option qc_sig_t;
  quorum : Z;
  max_weak_sum : Z;          (* max_weak_sum_before_weak_final *)
  aggregating_state : state_t;
  strong_sum : Z;
  weak_sum : Z;
  weak_votes : votes_t;
  strong_votes : votes_t
}.

Definition aggregating_qc_sig_init (num_finalizers : nat) (q mw : Z) : aggregating_qc_sig_t :=
  {| received_qc_sig := None; quorum := q; max_weak_sum := mw; aggregating_state := unrestricted;
     strong_sum := 0; weak_sum := 0; weak_votes := votes_init num_finalizers;
     strong_votes := votes_init num_finalizers |}.

Definition aggregating_qc_sig_of_policy (p : finalizer_policy) : aggregating_qc_sig_t :=
  aggregating_qc_sig_init (length (fp_finalizers p)) (fp_threshold p) (max_weak_sum_before_weak_final p).

Definition is_quorum_met_state (s : state_t) : bool :=
  match s with strong | weak_achieved | weak_final => true | _ => false end.
Definition sig_is_quorum_met (a : aggregating_qc_sig_t) : bool := is_quorum_met_state (aggregating_state a).

Definition sig_has_voted (a : aggregating_qc_sig_t) (index : nat) : result bool :=
  s ← votes_has_voted (strong_votes a) index;
  if (s : bool) then mret true else votes_has_voted (weak_votes a) index.

Definition check_duplicate (a : aggregating_qc_sig_t) (index : nat) : result vote_result_t :=
  s ← bit_at (bitset (strong_votes a)) index;
  w ← (if (s : bool) then mret true else bit_at (bitset (weak_votes a)) index);
  mret (if s || w then duplicate else success).

(** The new state after a strong vote, from the updated sums. *)
Definition strong_transition (a : aggregating_qc_sig_t) (st : state_t) (ss ws : Z) : result state_t :=
  match st with
  | unrestricted | restricted =>
      if quorum a <=? ss then
        c_assert (negb (bool_decide (st = restricted)));; mret strong
      else if quorum a <=? u64 (ws + ss) then
        mret (if bool_decide (st = restricted) then weak_final else weak_achieved)
      else mret st
  | weak_achieved => mret (if quorum a <=? ss then strong else st)
  | weak_final | strong => mret st
  end.

Definition weak_transition (a : aggregating_qc_sig_t) (st : state_t) (ss ws : Z) : state_t :=
  match st with
  | unrestricted | restricted =>
      let st := if quorum a <=? u64 (ws + ss) then weak_achieved else st in
      if max_weak_sum a <? ws then
        match st with
        | weak_achieved => weak_final
        | unrestricted => restricted
        | _ => st
        end
      else st
  | weak_achieved => if max_weak_sum a <=? ws then weak_final else st
  | weak_final | strong => st
  end.

Definition add_strong_vote (a : aggregating_qc_sig_t) (index : nat) (sig : SIG) (weight : Z)
    : result (vote_result_t * aggregating_qc_sig_t) :=
  sv ← votes_add_vote (strong_votes a) index sig;
  let ss := u64 (strong_sum a + weight) in
  st ← strong_transition a (aggregating_state a) ss (weak_sum a);
  mret (success,
    {| received_qc_sig := received_qc_sig a; quorum := quorum a; max_weak_sum := max_weak_sum a;
       aggregating_state := st; strong_sum := ss; weak_sum := weak_sum a;
       weak_votes := weak_votes a; strong_votes := sv |}).

Definition add_weak_vote (a : aggregating_qc_sig_t) (index : nat) (sig : SIG) (weight : Z)
    : result (vote_result_t * aggregating_qc_sig_t) :=
  wv ← votes_add_vote (weak_votes a) index sig;
  let ws := u64 (weak_sum a + weight) in
  mret (success,
    {| received_qc_sig := received_qc_sig a; quorum := quorum a; max_weak_sum := max_weak_sum a;
       aggregating_state := weak_transition a (aggregating_state a) (strong_sum a) ws;
       strong_sum := strong_sum a; weak_sum := ws; weak_votes := wv; strong_votes := strong_votes a |}).

Definition add_vote (a : aggregating_qc_sig_t) (is_strong : bool) (index : nat) (sig : SIG) (weight : Z)
    : result (vote_result_t * aggregating_qc_sig_t) :=
  s ← check_duplicate a index;
  if bool_decide (s = success) then
    if is_strong then add_strong_vote a index sig weight else add_weak_vote a index sig weight
  else mret (s, a).

Definition extract_qc_sig_from_aggregating (a : aggregating_qc_sig_t) : result qc_sig_t :=
  if bool_decide (aggregating_state a = strong) then
    mret {| qs_strong_votes := Some (bitset (strong_votes a)); qs_weak_votes := None;
            qs_sig := votes_sig (strong_votes a) |}
  else if sig_is_quorum_met a then
    mret {| qs_strong_votes := Some (bitset (strong_votes a));
            qs_weak_votes := Some (bitset (weak_votes a));
            qs_sig := sig_aggregate (votes_sig (strong_votes a)) (votes_sig (weak_votes a)) |}
  else Err finalizer_exception.

Definition sig_get_best_qc (a : aggregating_qc_sig_t) : result (option qc_sig_t) :=
  if negb (sig_is_quorum_met a) then mret (received_qc_sig a)
  else
    agg ← extract_qc_sig_from_aggregating a;
    match received_qc_sig a with
    | None => mret (Some agg)
    | Some r => if sig_is_strong r || sig_is_weak agg then mret (Some r) else mret (Some agg)
    end.

Definition set_received_qc_sig (a : aggregating_qc_sig_t) (q : qc_sig_t) : bool * aggregating_qc_sig_t :=
  if match received_qc_sig a with None => true | Some r => sig_is_weak r && sig_is_strong q end then
    (true, {| received_qc_sig := Some q; quorum := quorum a; max_weak_sum := max_weak_sum a;
              aggregating_state := aggregating_state a; strong_sum := strong_sum a;
              weak_sum := weak_sum a; weak_votes := weak_votes a; strong_votes := strong_votes a |})
  else (false, a).

Definition received_qc_sig_is_strong (a : aggregating_qc_sig_t) : bool :=
  match received_qc_sig a with Some q => sig_is_strong q | None => false end.

(** ** Weights of vote sets *)

(** The weight of a vote set, without a machine width. *)
Fixpoint vote_weight (fs : list finalizer_authority) (votes : list bool) : Z :=
  match fs, votes with
  | f :: fs, b :: votes => (if b then fa_weight f else 0) + vote_weight fs votes
  | _, _ => 0
  end.

Definition disjoint_votes (sv wv : list bool) : Prop :=
  forall i, sv !! i = Some true -> wv !! i = Some true -> False.

Definition weights_ok (fs : list finalizer_authority) : Prop := Forall (fun f => 0 <= fa_weight f) fs.

Lemma vote_weight_bounds fs votes : weights_ok fs -> 0 <= vote_weight fs votes <= total_weight fs.
Proof.
  intros Hf. revert votes; induction Hf as [|f fs Hf Hfs IH]; intros [|b votes]; simpl; try lia.
  - pose proof (total_weight_nonneg fs Hfs). lia.
  - specialize (IH votes). destruct b; lia.
Qed.

Lemma weights_Ok fs votes sum :
  weights_ok fs -> length votes = length fs -> 0 <= sum -> sum + total_weight fs < 2 ^ 64 ->
  weights fs votes sum = Ok (sum + vote_weight fs votes).
Proof.
  intros Hf. revert votes sum; induction Hf as [|f fs Hf Hfs IH]; intros [|b votes] sum Hl Hs Ht;
    try done; cbn [weights vote_weight].
  - unfold mret, result_ret. f_equal. lia.
  - simpl in Hl, Ht. pose proof (total_weight_nonneg fs Hfs). destruct b.
    + rewrite u64_small by lia. rewrite IH by lia. f_equal. lia.
    + rewrite IH by lia. f_equal.
Qed.

Lemma vote_weight_insert fs votes i f :
  fs !! i = Some f -> votes !! i = Some false ->
  vote_weight fs (<[i := true]> votes) = vote_weight fs votes + fa_weight f.
Proof.
  revert votes i; induction fs as [|g fs IH]; intros [|b votes] [|i] Hf Hv; try done.
  - simpl in *. injection Hf as ->. injection Hv as ->. lia.
  - simpl in Hf, Hv. change (<[S i := true]> (b :: votes)) with (b :: <[i := true]> votes).
    cbn [vote_weight]. rewrite (IH votes i Hf Hv). lia.
Qed.

Lemma disjoint_cons s w sv wv :
  disjoint_votes (s :: sv) (w :: wv) <-> (s && w = false) /\ disjoint_votes sv wv.
Proof.
  split.
  - intros Hd. split.
    + destruct s, w; try done. exfalso. by apply (Hd 0%nat).
    + intros i Hs Hw. by apply (Hd (S i)).
  - intros [Hb Hd] [|i] Hs Hw; simpl in *; [|by apply (Hd i)].
    injection Hs as ->. injection Hw as ->. done.
Qed.

Lemma disjoint_weight fs sv wv :
  weights_ok fs -> disjoint_votes sv wv -> vote_weight fs sv + vote_weight fs wv <= total_weight fs.
Proof.
  intros Hf. revert sv wv; induction Hf as [|f fs Hf Hfs IH]; intros sv wv Hd; [simpl; lia|].
  pose proof (total_weight_nonneg fs Hfs).
  destruct sv as [|s sv], wv as [|w wv]; cbn [vote_weight total_weight foldr];
    fold (total_weight fs).
  - lia.
  - pose proof (vote_weight_bounds fs wv Hfs). destruct w; lia.
  - pose proof (vote_weight_bounds fs sv Hfs). destruct s; lia.
  - apply disjoint_cons in Hd as [Hb Hd]. specialize (IH sv wv Hd). destruct s, w; simpl in *; lia.
Qed.

(** Two vote sets that weigh more than the policy together have a common
    voter. *)
Lemma weight_intersection fs sv wv :
  weights_ok fs -> total_weight fs < vote_weight fs sv + vote_weight fs wv ->
  exists i, sv !! i = Some true /\ wv !! i = Some true.
Proof.
  intros Hf. revert sv wv; induction Hf as [|f fs Hf Hfs IH]; intros sv wv Ht; [simpl in Ht; lia|].
  pose proof (total_weight_nonneg fs Hfs).
  destruct sv as [|s sv], wv as [|w wv]; cbn [vote_weight total_weight foldr] in Ht;
    fold (total_weight fs) in Ht.
  - lia.
  - pose proof (vote_weight_bounds fs wv Hfs). destruct w; lia.
  - pose proof (vote_weight_bounds fs sv Hfs). destruct s; lia.
  - destruct (s && w) eqn:E.
    + exists 0%nat. by destruct s, w.
    + destruct (IH sv wv) as (i & Hs & Hw); [destruct s, w; simpl in *; try lia; done|].
      by exists (S i).
Qed.

Lemma check_disjoint_Ok sv wv :
  length sv = length wv -> check_disjoint sv wv = Ok tt <-> disjoint_votes sv wv.
Proof.
  revert wv; induction sv as [|s sv IH]; intros [|w wv] Hl; try done; cbn [check_disjoint].
  simpl in Hl. rewrite disjoint_cons, <- IH by lia. destruct (s && w); cbn [negb EOS_ASSERT].
  - split; [done|]. by intros [? _].
  - rewrite ret_bind. naive_solver.
Qed.

(** ** The state machine's invariant *)

Definition state_ok (q mw ss ws : Z) (st : state_t) : Prop :=
  match st with
  | unrestricted => ss + ws < q /\ ws <= mw
  | restricted => ss + ws < q /\ mw < ws
  | weak_achieved => ss < q <= ss + ws /\ ws <= mw
  | weak_final => q <= ss + ws /\ mw <= ws
  | strong => q <= ss
  end.

Section Inv.
Context `{!BlsLaws PK SIG APK}.
Variable p : finalizer_policy.
Variables strong_msg weak_msg : list Z.   (* what strong and weak votes sign *)

Definition signed_by (msg : list Z) (votes : list bool) : SIG :=
  sum_sigs ((fun k => bls_sign k msg) <$> voted_keys (fp_finalizers p) votes).

Record votes_inv (msg : list Z) (v : votes_t) : Prop := {
  vi_length : length (bitset v) = length (fp_finalizers p);
  vi_processed : processed v = bitset v;
  vi_sig : votes_sig v = signed_by msg (bitset v)
}.

Record agg_inv (a : aggregating_qc_sig_t) : Prop := {
  ai_strong : votes_inv strong_msg (strong_votes a);
  ai_weak : votes_inv weak_msg (weak_votes a);
  ai_disjoint : disjoint_votes (bitset (strong_votes a)) (bitset (weak_votes a));
  ai_strong_sum : strong_sum a = vote_weight (fp_finalizers p) (bitset (strong_votes a));
  ai_weak_sum : weak_sum a = vote_weight (fp_finalizers p) (bitset (weak_votes a));
  ai_quorum : quorum a = fp_threshold p;
  ai_max : total_weight (fp_finalizers p) - fp_threshold p <= max_weak_sum a;
  ai_state : state_ok (quorum a) (max_weak_sum a) (strong_sum a) (weak_sum a) (aggregating_state a)
}.

Context (Hp : policy_ok p).

Lemma replicate_false_weight fs n : vote_weight fs (replicate n false) = 0.
Proof. revert n; induction fs as [|f fs IH]; intros [|n]; simpl; try done. by rewrite IH. Qed.

Lemma replicate_false_keys (fs : list finalizer_authority) n : voted_keys fs (replicate n false) = [].
Proof. revert n; induction fs as [|f fs IH]; intros [|n]; simpl; try done. Qed.

Lemma votes_inv_init msg : votes_inv msg (votes_init (length (fp_finalizers p))).
Proof.
  constructor; cbn [votes_init bitset processed votes_sig]; [apply length_replicate|done|].
  unfold signed_by. by rewrite replicate_false_keys.
Qed.

Lemma agg_inv_init : agg_inv (aggregating_qc_sig_of_policy p).
Proof.
  pose proof (max_weak_sum_ge p Hp) as Hmax. destruct Hp as [_ Hw _ _ Ht].
  constructor; cbn [aggregating_qc_sig_of_policy aggregating_qc_sig_init strong_votes weak_votes
    strong_sum weak_sum quorum max_weak_sum aggregating_state];
    [apply votes_inv_init..| | | |done|done|].
  - intros i Hi. cbn [bitset votes_init] in Hi. apply lookup_replicate in Hi as [? _]. done.
  - cbn [bitset votes_init]. by rewrite replicate_false_weight.
  - cbn [bitset votes_init]. by rewrite replicate_false_weight.
  - simpl. lia.
Qed.

Lemma signed_insert fs votes i f msg :
  fs !! i = Some f -> votes !! i = Some false ->
  sum_sigs ((fun k => bls_sign k msg) <$> voted_keys fs (<[i := true]> votes)) =
  sig_aggregate (sum_sigs ((fun k => bls_sign k msg) <$> voted_keys fs votes))
                (bls_sign (fa_public_key f) msg).
Proof.
  revert votes i; induction fs as [|g fs IH]; intros [|b votes] [|i] Hf Hv; try done.
  - simpl in Hf, Hv. injection Hf as ->. injection Hv as ->. simpl. apply sig_aggregate_comm.
  - simpl in Hf, Hv. change (<[S i := true]> (b :: votes)) with (b :: <[i := true]> votes).
    cbn [voted_keys]. destruct b; cbn [app].
    + cbn [fmap list_fmap]. unfold sum_sigs in *. cbn [foldr]. rewrite (IH votes i Hf Hv).
      apply sig_aggregate_assoc.
    + by apply IH.
Qed.

Lemma votes_add_vote_inv msg v i f sig :
  votes_inv msg v -> fp_finalizers p !! i = Some f -> bitset v !! i = Some false ->
  sig = bls_sign (fa_public_key f) msg ->
  exists v', votes_add_vote v i sig = Ok v' /\ votes_inv msg v' /\ bitset v' = <[i := true]> (bitset v).
Proof.
  intros [Hl Hpr Hs] Hf Hb ->. pose proof (lookup_lt_Some _ _ _ Hb). unfold votes_add_vote.
  rewrite Hpr. step_assert. eexists. split_and!; [done| |done].
  constructor; cbn [bitset processed votes_sig]; [by rewrite length_insert|done|].
  rewrite Hs. unfold signed_by. symmetry. by apply signed_insert.
Qed.

Lemma disjoint_insert_l sv wv i :
  disjoint_votes sv wv -> wv !! i = Some false -> disjoint_votes (<[i := true]> sv) wv.
Proof.
  intros Hd Hw j Hs Hj. destruct (decide (i = j)) as [->|Hne]; [congruence|].
  rewrite list_lookup_insert_ne in Hs by done. by apply (Hd j).
Qed.

Lemma disjoint_insert_r sv wv i :
  disjoint_votes sv wv -> sv !! i = Some false -> disjoint_votes sv (<[i := true]> wv).
Proof.
  intros Hd Hs j Hj Hw. destruct (decide (i = j)) as [->|Hne]; [congruence|].
  rewrite list_lookup_insert_ne in Hw by done. by apply (Hd j).
Qed.

(** The transitions preserve the meaning of the states; the assertion of
    [add_strong_vote] holds. *)
Lemma strong_transition_ok (a : aggregating_qc_sig_t) st ss ws w T :
  state_ok (quorum a) (max_weak_sum a) ss ws st -> T - quorum a <= max_weak_sum a ->
  0 <= w -> 0 <= ss -> 0 <= ws -> ss + w + ws <= T < 2 ^ 64 ->
  exists st', strong_transition a st (ss + w) ws = Ok st' /\
              state_ok (quorum a) (max_weak_sum a) (ss + w) ws st'.
Proof.
  intros Hst HT Hw Hss Hws Hlt. unfold strong_transition. rewrite (u64_small (ws + (ss + w))) by lia.
  destruct st; simpl in Hst.
  - destruct (Z.leb_spec (quorum a) (ss + w)); [exists strong; simpl; split; [done|lia]|].
    destruct (Z.leb_spec (quorum a) (ws + (ss + w))); [exists weak_achieved|exists unrestricted];
      (split; [done|simpl; lia]).
  - destruct (Z.leb_spec (quorum a) (ss + w)); [lia|].
    destruct (Z.leb_spec (quorum a) (ws + (ss + w))); [exists weak_final|exists restricted];
      (split; [done|simpl; lia]).
  - destruct (Z.leb_spec (quorum a) (ss + w)); [exists strong|exists weak_achieved];
      (split; [done|simpl; lia]).
  - exists weak_final. split; [done|simpl; lia].
  - exists strong. split; [done|simpl; lia].
Qed.

Lemma weak_transition_ok (a : aggregating_qc_sig_t) st ss ws w T :
  state_ok (quorum a) (max_weak_sum a) ss ws st -> T - quorum a <= max_weak_sum a ->
  0 <= w -> 0 <= ss -> 0 <= ws -> ss + (ws + w) <= T < 2 ^ 64 ->
  state_ok (quorum a) (max_weak_sum a) ss (ws + w) (weak_transition a st ss (ws + w)).
Proof.
  intros Hst HT Hw Hss Hws Hlt. unfold weak_transition. rewrite (u64_small (ws + w + ss)) by lia.
  destruct st; simpl in Hst.
  - destruct (Z.leb_spec (quorum a) (ws + w + ss)), (Z.ltb_spec (max_weak_sum a) (ws + w)); simpl; lia.
  - destruct (Z.leb_spec (quorum a) (ws + w + ss)), (Z.ltb_spec (max_weak_sum a) (ws + w)); simpl; lia.
  - destruct (Z.leb_spec (max_weak_sum a) (ws + w)); simpl; lia.
  - simpl; lia.
  - simpl; lia.
Qed.

(** Finalizer [i] has a vote recorded. *)
Definition voted_at (a : aggregating_qc_sig_t) (i : nat) : Prop :=
  bitset (strong_votes a) !! i = Some true \/ bitset (weak_votes a) !! i = Some true.

Lemma check_duplicate_Ok a i :
  agg_inv a -> (i < length (fp_finalizers p))%nat ->
  (check_duplicate a i = Ok duplicate /\ voted_at a i) \/
  (check_duplicate a i = Ok success /\ bitset (strong_votes a) !! i = Some false /\
   bitset (weak_votes a) !! i = Some false).
Proof.
  intros [[Hsl _ _] [Hwl _ _] _ _ _ _ _ _] Hi. unfold check_duplicate, bit_at, voted_at.
  destruct (lookup_lt_is_Some_2 (bitset (strong_votes a)) i) as [s Hs]; [lia|].
  destruct (lookup_lt_is_Some_2 (bitset (weak_votes a)) i) as [w Hw]; [lia|].
  rewrite Hs, Hw. destruct s, w; simpl; auto.
Qed.

(** What one call of [add_vote] does for finalizer [i]. *)
Inductive vote_added (is_strong : bool) (i : nat) (a a' : aggregating_qc_sig_t) : vote_result_t -> Prop :=
| vote_duplicate : a' = a -> voted_at a i -> vote_added is_strong i a a' duplicate
| vote_counted :
    received_qc_sig a' = received_qc_sig a ->
    bitset (strong_votes a) !! i = Some false -> bitset (weak_votes a) !! i = Some false ->
    bitset (strong_votes a') = (if is_strong then <[i := true]> (bitset (strong_votes a))
                                else bitset (strong_votes a)) ->
    bitset (weak_votes a') = (if is_strong then bitset (weak_votes a)
                              else <[i := true]> (bitset (weak_votes a))) ->
    vote_added is_strong i a a' success.

Lemma add_vote_Ok a (is_strong : bool) i f sig :
  agg_inv a -> fp_finalizers p !! i = Some f ->
  sig = bls_sign (fa_public_key f) (if is_strong then strong_msg else weak_msg) ->
  exists r a', add_vote a is_strong i sig (fa_weight f) = Ok (r, a') /\ agg_inv a' /\
               vote_added is_strong i a a' r.
Proof.
  intros Ha Hf Hsig. pose proof (lookup_lt_Some _ _ _ Hf) as Hi. unfold add_vote.
  destruct (check_duplicate_Ok a i Ha Hi) as [[-> Hv]|(-> & Hs & Hw)]; rewrite ret_bind; simpl.
  { exists duplicate, a. split_and!; [done|done|by constructor]. }
  destruct Hp as [_ Hwt _ Htot Hth].
  pose proof (proj1 (Forall_lookup _ _) Hwt i f Hf) as Hfw. simpl in Hfw.
  destruct Ha as [Hsv Hwv Hd Hss Hws Hq Hm Hst].
  pose proof (vote_weight_bounds _ (bitset (strong_votes a)) Hwt) as Hsb.
  pose proof (vote_weight_bounds _ (bitset (weak_votes a)) Hwt) as Hwb.
  destruct is_strong.
  - destruct (votes_add_vote_inv strong_msg (strong_votes a) i f sig) as (v & Ev & Hv & Eb); try done.
    pose proof (vote_weight_insert _ _ _ _ Hf Hs) as Hins. rewrite <- Eb in Hins.
    pose proof (disjoint_insert_l _ _ i Hd Hw) as Hd'. rewrite <- Eb in Hd'.
    pose proof (disjoint_weight _ _ _ Hwt Hd') as Hle.
    unfold add_strong_vote. rewrite Ev, ret_bind, u64_small by lia.
    destruct (strong_transition_ok a (aggregating_state a) (strong_sum a) (weak_sum a) (fa_weight f)
      (total_weight (fp_finalizers p))) as (st & Est & Hst'); try done; try lia.
    rewrite Est, ret_bind. eexists success, _. split_and!; [done| |by constructor].
    constructor; cbn [strong_votes weak_votes strong_sum weak_sum quorum max_weak_sum aggregating_state];
      done || lia.
  - destruct (votes_add_vote_inv weak_msg (weak_votes a) i f sig) as (v & Ev & Hv & Eb); try done.
    pose proof (vote_weight_insert _ _ _ _ Hf Hw) as Hins. rewrite <- Eb in Hins.
    pose proof (disjoint_insert_r _ _ i Hd Hs) as Hd'. rewrite <- Eb in Hd'.
    pose proof (disjoint_weight _ _ _ Hwt Hd') as Hle.
    unfold add_weak_vote. rewrite Ev, ret_bind, u64_small by lia.
    eexists success, _. split_and!; [done| |by constructor].
    constructor; cbn [strong_votes weak_votes strong_sum weak_sum quorum max_weak_sum aggregating_state];
      try done; try lia.
    apply (weak_transition_ok a _ _ _ _ (total_weight (fp_finalizers p))); done || lia.
Qed.

(** Receiving a certificate from the network changes nothing that the votes
    decide. *)
Lemma set_received_qc_sig_inv a q : agg_inv a -> agg_inv (set_received_qc_sig a q).2.
Proof.
  intros Ha. unfold set_received_qc_sig. destruct Ha.
  by destruct (received_qc_sig a) as [r|]; [destruct (sig_is_weak r && sig_is_strong q)|].
Qed.

(** ** Certificates extracted from the votes *)

Lemma state_quorum_iff a :
  agg_inv a -> sig_is_quorum_met a = (fp_threshold p <=? strong_sum a + weak_sum a).
Proof.
  intros [_ _ _ Hss Hws Hq _ Hst]. destruct Hp as [_ Hwt _ _ _].
  pose proof (vote_weight_bounds _ (bitset (strong_votes a)) Hwt).
  pose proof (vote_weight_bounds _ (bitset (weak_votes a)) Hwt).
  unfold sig_is_quorum_met. destruct (aggregating_state a); simpl in *; lia.
Qed.

Lemma extract_verifies a digest :
  agg_inv a -> sig_is_quorum_met a = true -> strong_msg = sha256_bytes digest ->
  exists q, extract_qc_sig_from_aggregating a = Ok q /\ verify_vote_format q p = Ok tt /\
    sig_verify q p digest weak_msg = Ok tt /\
    sig_is_strong q = bool_decide (aggregating_state a = strong).
Proof.
  intros Ha Hmet Hmsg. pose proof (state_quorum_iff a Ha) as Hiff. rewrite Hmet in Hiff.
  destruct Ha as [[Hsl _ Hssig] [Hwl _ Hwsig] Hd Hss Hws Hq _ Hst]. destruct Hp as [_ Hwt _ Htot Hth].
  pose proof (vote_weight_bounds _ (bitset (strong_votes a)) Hwt).
  pose proof (disjoint_weight _ _ _ Hwt Hd).
  unfold extract_qc_sig_from_aggregating. rewrite Hmet.
  case_bool_decide as Estate; eexists; (split; [done|]); unfold verify_vote_format, sig_verify;
    cbn [qs_strong_votes qs_weak_votes qs_sig check_size opt_weights sig_is_strong sig_is_weak negb].
  - rewrite Estate in Hst. simpl in Hst. split_and!; [|..|done].
    + step_assert. step_assert by (unfold vsize; lia). done.
    + rewrite weights_Ok, ret_bind by (done || lia). unfold mret at 1, result_ret at 1.
      rewrite ret_bind. step_assert. cbn [app fmap list_fmap fst snd].
      rewrite Hssig, <- Hmsg. unfold signed_by. by rewrite aggregate_verify_one.
  - split_and!; [|..|done].
    + step_assert. step_assert by (unfold vsize; lia). step_assert by (unfold vsize; lia).
      apply check_disjoint_Ok; [lia|done].
    + rewrite !weights_Ok, !ret_bind by (done || lia). rewrite u64_small by lia. step_assert.
      cbn [app fmap list_fmap fst snd].
      rewrite Hssig, Hwsig, <- Hmsg. unfold signed_by. by rewrite aggregate_verify_two.
Qed.
End Inv.
End Qc.

Arguments qc_sig_t SIG : clear implicits.
Arguments qc_t SIG : clear implicits.
Arguments votes_t SIG : clear implicits.
Arguments aggregating_qc_sig_t SIG : clear implicits.

(** ** Executions *)

Section Reach.
Context {PK SIG APK : Type} `{EqDecision PK} `{Bls PK SIG APK}.

(** A sequence of calls on the votes of one block under policy [p]: votes whose
    signature was verified (a strong vote signs the digest, a weak one the weak
    digest), and certificates received from the network. *)
Inductive agg_reachable (p : finalizer_policy PK) (digest : sha256)
    : aggregating_qc_sig_t SIG -> Prop :=
| agg_start : agg_reachable p digest (aggregating_qc_sig_of_policy p)
| agg_vote a is_strong i f sig r a' :
    agg_reachable p digest a -> fp_finalizers p !! i = Some f ->
    bls_verify (fa_public_key f)
      (if is_strong : bool then sha256_bytes digest else create_weak_digest digest) sig = true ->
    add_vote a is_strong i sig (fa_weight f) = Ok (r, a') ->
    agg_reachable p digest a'
| agg_receive a q b a' :
    agg_reachable p digest a -> set_received_qc_sig a q = (b, a') -> agg_reachable p digest a'.

Lemma agg_reachable_inv `{!BlsLaws PK SIG APK} p digest a :
  policy_ok p -> agg_reachable p digest a ->
  agg_inv p (sha256_bytes digest) (create_weak_digest digest) a.
Proof.
  intros Hp. induction 1 as [|a s i f sig r a' _ IH Hf Hv Ha|a q b a' _ IH Hq].
  - by apply agg_inv_init.
  - apply bls_verify_sign in Hv.
    destruct (add_vote_Ok p _ _ Hp a s i f sig IH Hf Hv) as (r1 & a1 & E & Hinv & _).
    rewrite Ha in E. by apply Ok_inj in E as [= -> ->].
  - pose proof (set_received_qc_sig_inv p (sha256_bytes digest) (create_weak_digest digest) a q IH) as Hi.
    by rewrite Hq in Hi.
Qed.
End Reach.

(** A vote set of a certificate, as indexes. *)
Definition qc_voted {SIG} (q : qc_sig_t SIG) (i : nat) : Prop :=
  (exists v, qs_strong_votes q = Some v /\ v !! i = Some true) \/
  (exists v, qs_weak_votes q = Some v /\ v !! i = Some true).

(** The union of the two vote sets of a certificate. *)
Definition union_votes (n : nat) (sv wv : option (list bool)) : list bool :=
  zip_with orb (default (replicate n false) sv) (default (replicate n false) wv).

Lemma union_votes_weight {PK} (fs : list (finalizer_authority PK)) sv wv :
  length sv = length fs -> length wv = length fs -> disjoint_votes sv wv ->
  vote_weight fs (zip_with orb sv wv) = vote_weight fs sv + vote_weight fs wv.
Proof.
  revert sv wv; induction fs as [|f fs IH]; intros [|s sv] [|w wv] Hs Hw Hd; try done.
  apply disjoint_cons in Hd as [Hb Hd]. simpl in *. rewrite IH by (try lia; done).
  destruct s, w; simpl in *; try done; lia.
Qed.

Lemma union_votes_voted {SIG} (q : qc_sig_t SIG) n i :
  union_votes n (qs_strong_votes q) (qs_weak_votes q) !! i = Some true -> qc_voted q i.
Proof.
  unfold union_votes, qc_voted. rewrite lookup_zip_with_Some. intros (x & y & Hxy & Hx & Hy).
  assert (forall j, replicate n false !! j = Some true -> False) as Hr
    by (intros j Hj; by apply lookup_replicate in Hj as [? _]).
  destruct (qs_strong_votes q) as [v|], (qs_weak_votes q) as [w|]; simpl in *;
    destruct x, y; try done; try (by exfalso; eapply Hr); eauto.
Qed.

(** An absent vote set counts as an empty one. *)
Definition votes_or_none (n : nat) (v : option (list bool)) : list bool := default (replicate n false) v.

Section Verified.
Context {PK SIG APK : Type} `{EqDecision PK} `{Bls PK SIG APK}.
Context (p : finalizer_policy PK) (Hp : policy_ok p).
#[local] Set Default Proof Using "All".
Let fs := fp_finalizers p.

Lemma check_size_length v :
  check_size (vsize fs) v = Ok tt -> length (votes_or_none (length fs) v) = length fs.
Proof.
  destruct v as [v|]; simpl; intros Hc.
  - apply EOS_ASSERT_Ok in Hc. unfold vsize in Hc. lia.
  - apply length_replicate.
Qed.

Lemma opt_weights_Ok v :
  check_size (vsize fs) v = Ok tt ->
  opt_weights fs v = Ok (vote_weight fs (votes_or_none (length fs) v)).
Proof.
  intros Hc. apply check_size_length in Hc. destruct Hp as [_ Hw _ Ht _]. fold fs in Hw, Ht.
  destruct v as [v|]; simpl in *; [by rewrite weights_Ok|]. by rewrite replicate_false_weight.
Qed.

Lemma verify_vote_format_Ok (q : qc_sig_t SIG) :
  verify_vote_format q p = Ok tt ->
  check_size (vsize fs) (qs_strong_votes q) = Ok tt /\ check_size (vsize fs) (qs_weak_votes q) = Ok tt /\
  disjoint_votes (votes_or_none (length fs) (qs_strong_votes q))
                 (votes_or_none (length fs) (qs_weak_votes q)).
Proof.
  unfold verify_vote_format. fold fs. intros Hf. inv_result. destruct a0, a1. split_and!; try done.
  assert (forall j, replicate (length fs) false !! j = Some true -> False) as Hr
    by (intros j Hj; by apply lookup_replicate in Hj as [? _]).
  apply check_size_length in Ha0, Ha1.
  destruct (qs_strong_votes q) as [sv|], (qs_weak_votes q) as [wv|]; cbn [votes_or_none default] in *;
    [apply check_disjoint_Ok; [congruence|done]|intros j Hj Hj'; by eapply Hr..].
Qed.

(** A certificate that passes both checks carries the threshold. *)
Lemma verified_weight (q : qc_sig_t SIG) sd wd :
  verify_vote_format q p = Ok tt -> sig_verify q p sd wd = Ok tt ->
  fp_threshold p <= vote_weight fs (union_votes (length fs) (qs_strong_votes q) (qs_weak_votes q)).
Proof.
  intros Hfmt Hver. destruct (verify_vote_format_Ok q Hfmt) as (Hs & Hw & Hd).
  unfold union_votes. fold (votes_or_none (length fs) (qs_strong_votes q)).
  fold (votes_or_none (length fs) (qs_weak_votes q)).
  rewrite union_votes_weight by (done || by apply check_size_length).
  unfold sig_verify in Hver. fold fs in Hver.
  rewrite (opt_weights_Ok _ Hs), (opt_weights_Ok _ Hw), !ret_bind in Hver.
  destruct Hp as [_ Hwt _ Ht _]. fold fs in Hwt, Ht.
  set (sv := votes_or_none _ (qs_strong_votes q)) in *. set (wv := votes_or_none _ (qs_weak_votes q)) in *.
  pose proof (vote_weight_bounds fs sv Hwt). pose proof (vote_weight_bounds fs wv Hwt).
  pose proof (disjoint_weight fs sv wv Hwt Hd). rewrite (u64_small (_ + _)) in Hver by lia.
  apply bind_Ok in Hver as (? & Hq & _).
  destruct (sig_is_strong q); apply EOS_ASSERT_Ok in Hq; lia.
Qed.

Lemma quorums_intersect (q q' : qc_sig_t SIG) sd wd sd' wd' :
  verify_vote_format q p = Ok tt -> sig_verify q p sd wd = Ok tt ->
  verify_vote_format q' p = Ok tt -> sig_verify q' p sd' wd' = Ok tt ->
  exists i, (i < length fs)%nat /\ qc_voted q i /\ qc_voted q' i.
Proof.
  intros Hf Hv Hf' Hv'. pose proof (verified_weight q sd wd Hf Hv) as H1.
  pose proof (verified_weight q' sd' wd' Hf' Hv') as H2.
  destruct Hp as [_ Hwt _ _ Hth]. fold fs in Hwt, Hth.
  destruct (weight_intersection fs (union_votes (length fs) (qs_strong_votes q) (qs_weak_votes q))
    (union_votes (length fs) (qs_strong_votes q') (qs_weak_votes q'))) as (i & Hi & Hi'); [done|lia|].
  exists i. split_and!; [|by eapply union_votes_voted..].
  destruct (verify_vote_format_Ok q Hf) as (Hs & _ & _). apply check_size_length in Hs.
  apply lookup_lt_Some in Hi. unfold union_votes in Hi. rewrite length_zip_with in Hi.
  fold (votes_or_none (length fs) (qs_strong_votes q)) in Hi. lia.
Qed.
End Verified.

(** ** A scheme to run the model with *)

(** Keys and signatures are integers, a signature is the product of the key
    and the message read as a number; aggregation is addition. *)
#[global] Instance toy_bls : Bls Z Z Z := {|
  bls_verify k d s := s =? k * le_value d;
  sig_zero := 0;
  sig_aggregate := Z.add;
  aggregate_public_keys := foldr Z.add 0;
  aggregate_verify ks ds s := s =? foldr Z.add 0 (zip_with (fun k d => k * le_value d) ks ds) |}.

Lemma toy_sum ks d : sum_sigs ((fun k => k * le_value d) <$> ks) = foldr Z.add 0 ks * le_value d.
Proof.
  unfold sum_sigs. cbn [sig_zero sig_aggregate toy_bls].
  induction ks as [|k ks IH]; [done|]. cbn [fmap list_fmap foldr] in *. rewrite IH. lia.
Qed.

#[global] Instance toy_bls_laws : BlsLaws Z Z Z.
Proof.
  refine {| bls_sign k d := k * le_value d |}; cbn [bls_verify sig_zero sig_aggregate
    aggregate_public_keys aggregate_verify toy_bls zip_with foldr]; intros; rewrite ?toy_sum; lia.
Defined.

(** The limit on weak votes is the policy's, whatever was counted. *)
Lemma agg_reachable_limit {PK SIG APK : Type} `{EqDecision PK} `{Bls PK SIG APK}
    (p : finalizer_policy PK) (digest : sha256) (a : aggregating_qc_sig_t SIG) :
  agg_reachable p digest a -> max_weak_sum a = max_weak_sum_before_weak_final p.
Proof.
  induction 1 as [|a s i f sig r a' _ IH _ _ Ha|a q b a' _ IH Hq]; [done|rewrite <- IH..].
  - unfold add_vote in Ha. apply bind_Ok in Ha as (d & _ & Ha). destruct (bool_decide _); [|by apply Ok_inj in Ha as [= _ <-]].
    destruct s; unfold add_strong_vote, add_weak_vote in Ha; apply bind_Ok in Ha as (v & _ & Ha);
      [apply bind_Ok in Ha as (st & _ & Ha)|]; by apply Ok_inj in Ha as [= _ <-].
  - unfold set_received_qc_sig in Hq. destruct (match received_qc_sig a with Some _ => _ | None => _ end); by injection Hq as _ <-.
Qed.

(** C34. The vote counter, after any sequence of verified votes and received
    certificates under a policy that [set_finalizers] accepts. Let [sw] and [ww]
    be the weights of the strong and of the weak votes, [q] the threshold and
    [limit] the policy's [max_weak_sum_before_weak_final]. The sums are exact and
    a quorum is reported exactly when [q <= sw + ww]. Without a quorum the state
    is [restricted] when the weak votes exceed the limit and [unrestricted]
    otherwise. With one it is [weak_final] when they exceed the limit; when they
    are below it, [strong] if the strong votes reach the threshold and
    [weak_achieved] otherwise; and when they are exactly at the limit, one of
    these three, where [strong] needs a strong quorum and [weak_achieved] the
    lack of one.

    What that says of a strong quorum: it can still be reached when
    [q <= total - ww]. In [restricted] it cannot, and in [weak_final] at best if
    every finalizer that did not vote weak votes strong; the other way round,
    when the weights sum to less than 2^31, so that the limit is [total - q], it
    can in [unrestricted] and [weak_achieved]. *)
Theorem aggregating_state_correct {PK SIG APK : Type} `{EqDecision PK} `{BlsLaws PK SIG APK}
    (p : finalizer_policy PK) (digest : sha256) (a : aggregating_qc_sig_t SIG) :
  policy_ok p -> agg_reachable p digest a ->
  let sw := vote_weight (fp_finalizers p) (bitset (strong_votes a)) in
  let ww := vote_weight (fp_finalizers p) (bitset (weak_votes a)) in
  let q := fp_threshold p in
  let total := total_weight (fp_finalizers p) in
  let limit := max_weak_sum_before_weak_final p in
  let st := aggregating_state a in
  strong_sum a = sw /\ weak_sum a = ww /\
  (sig_is_quorum_met a = true <-> q <= sw + ww) /\
  (sw + ww < q -> st = if limit <? ww then restricted else unrestricted) /\
  (q <= sw + ww -> limit < ww -> st = weak_final) /\
  (q <= sw + ww -> ww < limit -> st = if q <=? sw then strong else weak_achieved) /\
  (q <= sw + ww -> ww = limit -> st = weak_final \/ st = if q <=? sw then strong else weak_achieved) /\
  (st = restricted -> total - ww < q) /\
  (st = weak_final -> total - ww <= q) /\
  (q <= sw -> st = strong \/ st = weak_final /\ ww = total - q) /\
  (total < 2 ^ 31 -> limit = total - q /\ (st = unrestricted \/ st = weak_achieved -> q <= total - ww)).
Proof.
  intros Hp Hr. pose proof (agg_reachable_inv p digest a Hp Hr) as Ha.
  pose proof (agg_reachable_limit p digest a Hr) as Hlim.
  pose proof (state_quorum_iff p _ _ Hp a Ha) as Hiff.
  destruct Ha as [_ _ Hd Hss Hws Hq Hm Hst]. destruct Hp as [_ Hw _ _ Hth].
  pose proof (total_weight_nonneg _ Hw). pose proof (max_weak_sum_exact p) as Hsmall.
  pose proof (disjoint_weight _ _ _ Hw Hd). pose proof (vote_weight_bounds _ (bitset (weak_votes a)) Hw).
  pose proof (vote_weight_bounds _ (bitset (strong_votes a)) Hw).
  cbv zeta. rewrite <- Hss, <- Hws, <- Hlim, <- Hq in *. split_and!; [done|done|rewrite Hiff; apply Z.leb_le|..].
  all: destruct (aggregating_state a) eqn:Est; simpl in Hst; intros.
  all: repeat match goal with |- context [?x <? ?y] => destruct (Z.ltb_spec x y)
                            | |- context [?x <=? ?y] => destruct (Z.leb_spec x y) end.
  all: try done; try lia; auto.
  all: try (right; split; [done|lia]).
  all: specialize (Hsmall ltac:(lia) ltac:(lia)); split; [done|intros [?|?]; first [done|lia]].
Qed.

(** A policy of five finalizers with weight one and threshold three, and the
    counter after two strong and two weak votes and, at last, a third strong
    vote. *)
Definition five_policy : finalizer_policy Z := sample_policy 3 [1; 1; 1; 1; 1].
Definition toy_vote (digest : sha256) (a : aggregating_qc_sig_t Z) (v : bool * nat) : aggregating_qc_sig_t Z :=
  let msg := if v.1 then sha256_bytes digest else create_weak_digest digest in
  match add_vote a v.1 v.2 (Z.of_nat v.2 * le_value msg) 1 with Ok (_, a') => a' | Err _ => a end.
Definition toy_votes (vs : list (bool * nat)) : aggregating_qc_sig_t Z :=
  foldl (toy_vote sha256_zero) (aggregating_qc_sig_of_policy five_policy) vs.
Definition five_votes : list (bool * nat) := [(true, 0); (true, 1); (false, 2); (false, 3); (true, 4)]%nat.

Lemma five_policy_ok : policy_ok five_policy.
Proof.
  constructor; try (vm_compute; done).
  - repeat constructor; discriminate.
  - refine (bool_decide_unpack _ _); vm_compute; done.
Qed.

Lemma toy_votes_reachable vs :
  Forall (fun v => (v.2 < 5)%nat) vs -> agg_reachable five_policy sha256_zero (toy_votes vs).
Proof.
  unfold toy_votes. intros Hvs.
  assert (forall a, agg_reachable five_policy sha256_zero a ->
    agg_reachable five_policy sha256_zero (foldl (toy_vote sha256_zero) a vs)) as Hgen; [|by apply Hgen; constructor].
  induction Hvs as [|[s i] vs Hi Hvs IH]; intros a Ha; [done|]. simpl. apply IH.
  unfold toy_vote. cbn [fst snd] in *.
  destruct (add_vote a s i _ 1) as [[r a']|] eqn:E; [|done].
  destruct (lookup_lt_is_Some_2 (fp_finalizers five_policy) i) as [f Hf]; [done|].
  assert (fa_public_key f = Z.of_nat i /\ fa_weight f = 1) as [Hk Hw].
  { do 5 (destruct i as [|i]; [by injection Hf as <-|]). lia. }
  rewrite <- Hw, <- Hk in E. eapply agg_vote; [done|done| |done].
  cbn [bls_verify toy_bls]. by apply Z.eqb_eq.
Qed.

Lemma aggregating_state_correct_witness :
  sig_is_quorum_met (toy_votes five_votes) = true /\ strong_sum (toy_votes five_votes) = 3 /\
  (sig_is_quorum_met (toy_votes five_votes) = true <-> 3 <= 3 + 2).
Proof.
  destruct (aggregating_state_correct five_policy sha256_zero (toy_votes five_votes) five_policy_ok)
    as (H1 & _ & H3 & _).
  - apply toy_votes_reachable. unfold five_votes. repeat constructor.
  - split; [vm_compute; reflexivity|]. split; [vm_compute; reflexivity|exact H3].
Defined.

(** The states do not mean what their documentation says: after two strong
    and two weak votes the counter is in [weak_final], documented as "strong
    not possible anymore", although the fifth vote can still complete a strong
    quorum; when it does, the counter stays in [weak_final] and the certificate
    it produces is weak. *)
Theorem weak_final_with_strong_quorum :
  exists a q, agg_reachable five_policy sha256_zero a /\
    aggregating_state (toy_votes (take 4 five_votes)) = weak_final /\
    aggregating_state a = weak_final /\
    fp_threshold five_policy <= vote_weight (fp_finalizers five_policy) (bitset (strong_votes a)) /\
    sig_get_best_qc a = Ok (Some q) /\ sig_is_strong q = false.
Proof.
  exists (toy_votes five_votes). eexists. split.
  { apply toy_votes_reachable. unfold five_votes. repeat constructor. }
  split; [vm_compute; reflexivity|]. split; [vm_compute; reflexivity|].
  split; [vm_compute; discriminate|]. split; vm_compute; reflexivity.
Qed.

(** [add_vote] on a reachable counter never fails an assertion or leaves a
    bitset; it answers [duplicate], changing nothing, exactly when the finalizer
    has already voted, and otherwise counts the vote in the bitset of its kind
    only. *)
Theorem add_vote_correct {PK SIG APK : Type} `{EqDecision PK} `{BlsLaws PK SIG APK}
    (p : finalizer_policy PK) (digest : sha256) (a : aggregating_qc_sig_t SIG)
    (is_strong : bool) (i : nat) (f : finalizer_authority PK) (sig : SIG) :
  policy_ok p -> agg_reachable p digest a -> fp_finalizers p !! i = Some f ->
  bls_verify (fa_public_key f)
    (if is_strong then sha256_bytes digest else create_weak_digest digest) sig = true ->
  exists r a', add_vote a is_strong i sig (fa_weight f) = Ok (r, a') /\ vote_added is_strong i a a' r.
Proof.
  intros Hp Hr Hf Hv. apply bls_verify_sign in Hv.
  destruct (add_vote_Ok p _ _ Hp a is_strong i f sig (agg_reachable_inv p digest a Hp Hr) Hf Hv)
    as (r & a' & E & _ & Ha). by exists r, a'.
Qed.

Lemma add_vote_correct_witness :
  exists r a', add_vote (toy_votes [(true, 2)]%nat) false 2 (2 * le_value (create_weak_digest sha256_zero)) 1
                 = Ok (r, a') /\ vote_added false 2 (toy_votes [(true, 2)]%nat) a' r.
Proof.
  apply (add_vote_correct five_policy sha256_zero (toy_votes [(true, 2)]%nat) false 2
    {| fa_description := Blob [65]; fa_weight := 1; fa_public_key := 2 |}); [apply five_policy_ok| | |].
  - apply toy_votes_reachable. repeat constructor.
  - reflexivity.
  - vm_compute; reflexivity.
Defined.

(** Soundness of the aggregation: whenever the counter reports a quorum,
    the certificate extracted from the collected votes passes
    [verify_vote_format] and [verify] for the policy and the signed digests,
    and it is strong exactly in state [strong]. *)
Theorem extracted_qc_verifies {PK SIG APK : Type} `{EqDecision PK} `{BlsLaws PK SIG APK}
    (p : finalizer_policy PK) (digest : sha256) (a : aggregating_qc_sig_t SIG) :
  policy_ok p -> agg_reachable p digest a -> sig_is_quorum_met a = true ->
  exists q, extract_qc_sig_from_aggregating a = Ok q /\ verify_vote_format q p = Ok tt /\
    sig_verify q p digest (create_weak_digest digest) = Ok tt /\
    sig_is_strong q = bool_decide (aggregating_state a = strong).
Proof.
  intros Hp Hr Hq. eapply (extract_verifies p (sha256_bytes digest)); try done.
  by apply agg_reachable_inv.
Qed.

Lemma extracted_qc_verifies_witness :
  exists q, extract_qc_sig_from_aggregating (toy_votes five_votes) = Ok q /\
    verify_vote_format q five_policy = Ok tt /\
    sig_verify q five_policy sha256_zero (create_weak_digest sha256_zero) = Ok tt /\
    sig_is_strong q = bool_decide (aggregating_state (toy_votes five_votes) = strong).
Proof.
  apply (extracted_qc_verifies five_policy sha256_zero (toy_votes five_votes));
    [apply five_policy_ok| |vm_compute; reflexivity].
  apply toy_votes_reachable. unfold five_votes. repeat constructor.
Defined.

(** C35. Quorum intersection: any two certificates, weak or strong, for
    whatever digests, that verify under the same policy share a finalizer. *)
Theorem verified_quorums_intersect {PK SIG APK : Type} `{EqDecision PK} `{Bls PK SIG APK}
    (p : finalizer_policy PK) (q q' : qc_sig_t SIG) (sd sd' : sha256) (wd wd' : list Z) :
  policy_ok p ->
  verify_vote_format q p = Ok tt -> sig_verify q p sd wd = Ok tt ->
  verify_vote_format q' p = Ok tt -> sig_verify q' p sd' wd' = Ok tt ->
  exists i, (i < length (fp_finalizers p))%nat /\ qc_voted q i /\ qc_voted q' i.
Proof. intros Hp ? ? ? ?. by eapply (quorums_intersect p Hp). Qed.

Definition toy_qc (votes : list bool) (sig : Z) : qc_sig_t Z :=
  {| qs_strong_votes := Some votes; qs_weak_votes := None; qs_sig := sig |}.

Lemma verified_quorums_intersect_witness :
  exists i, (i < 5)%nat /\ qc_voted (toy_qc [true; true; true; false; false] 0) i /\
            qc_voted (toy_qc [false; false; true; true; true] (9 * le_value (sha256_bytes (Sha256 1 0 0 0)))) i.
Proof.
  apply (verified_quorums_intersect five_policy _ _ sha256_zero (Sha256 1 0 0 0) [] []);
    [apply five_policy_ok|vm_compute; reflexivity..].
Defined.
