(* ===== verification/AggregatingQc.v ===== *)
(** [aggregating_qc_t] (chain/finality/qc.hpp and qc.cpp): the votes on one
    block, counted for the active finalizer policy and, while a policy change is
    under way, for the pending one.  A finalizer that is in both policies (a
    dual finalizer) votes once, and the vote is counted in both. *)
From Stdlib Require Import ZArith Lia ZifyBool.
From stdpp Require Import base tactics numbers list.
From S2P Require Import Prelude Digest Raw FinalityCore OrderedDiff FinalizerPolicy Qc.
#[local] Open Scope Z_scope.

Section AggregatingQc.
Context {PK SIG APK : Type} `{EqDecision PK} `{Bls PK SIG APK}.
Abbreviation finalizer_policy := (finalizer_policy PK).
Abbreviation finalizer_authority := (finalizer_authority PK).
Abbreviation aggregating_qc_sig_t := (aggregating_qc_sig_t SIG).
Abbreviation qc_sig_t := (qc_sig_t SIG).
Abbreviation qc_t := (qc_t SIG).

Record vote_message : Type := {
  vm_block_id : sha256;
  vm_strong : bool;
  vm_finalizer_key : PK;
  vm_sig : SIG
}.

Record aggregate_vote_result_t : Type := {
  avr_result : vote_result_t;
  avr_active_authority : option finalizer_authority;
  avr_pending_authority : option finalizer_authority
}.

Record aggregating_qc_t : Type := {
  active_finalizer_policy : finalizer_policy;
  pending_finalizer_policy : option finalizer_policy;
  active_policy_sig : aggregating_qc_sig_t;
  pending_policy_sig : option aggregating_qc_sig_t
}.

Definition aggregating_qc_init (active : finalizer_policy) (pending : option finalizer_policy)
    : aggregating_qc_t :=
  {| active_finalizer_policy := active; pending_finalizer_policy := pending;
     active_policy_sig := aggregating_qc_sig_of_policy active;
     pending_policy_sig := aggregating_qc_sig_of_policy <$> pending |}.

Definition get_best_qc (g : aggregating_qc_t) (block_num : Z) : result (option qc_t) :=
  active_best_qc ← sig_get_best_qc (active_policy_sig g);
  match active_best_qc with
  | None => mret None
  | Some active =>
      match pending_policy_sig g with
      | Some ps =>
          pending_best_qc ← sig_get_best_qc ps;
          match pending_best_qc with
          | Some pending =>
              mret (Some {| qc_block_num := block_num; qc_active_policy_sig := active;
                            qc_pending_policy_sig := Some pending |})
          | None => mret None
          end
      | None =>
          mret (Some {| qc_block_num := block_num; qc_active_policy_sig := active;
                        qc_pending_policy_sig := None |})
      end
  end.

(** ** verify_qc *)

(** The index of the first finalizer with a key. *)
Definition find_finalizer (fs : list finalizer_authority) (key : PK) : option (nat * finalizer_authority) :=
  list_find (fun f => fa_public_key f = key) fs.

Fixpoint verify_dual_loop (q : qc_t) (pending : list finalizer_authority)
    (active_vote_index : nat) (active : list finalizer_authority) : result unit :=
  match active with
  | [] => mret tt
  | active_fin :: active =>
      match find_finalizer pending (fa_public_key active_fin) with
      | Some (pending_vote_index, _) =>
          same ← qc_vote_same_at q active_vote_index pending_vote_index;
          EOS_ASSERT same invalid_qc_claim
      | None => mret tt
      end;;
      verify_dual_loop q pending (S active_vote_index) active
  end.

Definition verify_dual_finalizers_votes (g : aggregating_qc_t) (pending : finalizer_policy) (q : qc_t)
    : result unit :=
  verify_dual_loop q (fp_finalizers pending) 0 (fp_finalizers (active_finalizer_policy g)).

Definition verify_qc (g : aggregating_qc_t) (q : qc_t) (strong_digest : sha256) (weak_digest : list Z)
    : result unit :=
  verify_vote_format (qc_active_policy_sig q) (active_finalizer_policy g);;
  match qc_pending_policy_sig q with
  | Some s =>
      match pending_finalizer_policy g with
      | Some pending =>
          verify_vote_format s pending;; verify_dual_finalizers_votes g pending q
      | None => Err invalid_qc_claim
      end
  | None => EOS_ASSERT (match pending_finalizer_policy g with None => true | Some _ => false end)
              invalid_qc_claim
  end;;
  sig_verify (qc_active_policy_sig q) (active_finalizer_policy g) strong_digest weak_digest;;
  match pending_finalizer_policy g with
  | None => mret tt
  | Some pending =>
      match qc_pending_policy_sig q with
      | Some s => sig_verify s pending strong_digest weak_digest
      | None => Err undefined_behavior
      end
  end.

(** ** Receiving certificates and votes *)

Definition set_received_qc (g : aggregating_qc_t) (q : qc_t) : result (bool * aggregating_qc_t) :=
  match pending_policy_sig g, qc_pending_policy_sig q with
  | Some _, None => Err invalid_qc_claim
  | Some ps, Some s =>
      let '(active_better, a) := set_received_qc_sig (active_policy_sig g) (qc_active_policy_sig q) in
      let '(pending_better, b) := set_received_qc_sig ps s in
      mret (active_better || pending_better,
        {| active_finalizer_policy := active_finalizer_policy g;
           pending_finalizer_policy := pending_finalizer_policy g;
           active_policy_sig := a; pending_policy_sig := Some b |})
  | None, _ =>
      let '(active_better, a) := set_received_qc_sig (active_policy_sig g) (qc_active_policy_sig q) in
      mret (active_better,
        {| active_finalizer_policy := active_finalizer_policy g;
           pending_finalizer_policy := pending_finalizer_policy g;
           active_policy_sig := a; pending_policy_sig := None |})
  end.

Definition received_qc_is_strong (g : aggregating_qc_t) : bool :=
  received_qc_sig_is_strong (active_policy_sig g) &&
  match pending_policy_sig g with None => true | Some ps => received_qc_sig_is_strong ps end.

(** The lambda [add_vote]: the outcome, the authority found, the updated votes,
    and the flag [verified_sig] that both uses share. *)
Definition add_vote_to (vote : vote_message) (finalizer_digest : list Z) (verified_sig : bool)
    (p : finalizer_policy) (a : aggregating_qc_sig_t)
    : result (vote_result_t * option finalizer_authority * aggregating_qc_sig_t * bool) :=
  match find_finalizer (fp_finalizers p) (vm_finalizer_key vote) with
  | None => mret (unknown_public_key, None, a, verified_sig)
  | Some (index, f) =>
      already ← sig_has_voted a index;
      if (already : bool) then mret (duplicate, Some f, a, verified_sig)
      else if negb verified_sig && negb (bls_verify (vm_finalizer_key vote) finalizer_digest (vm_sig vote))
      then mret (invalid_signature, Some f, a, verified_sig)
      else
        '(s, a) ← add_vote a (vm_strong vote) index (vm_sig vote) (fa_weight f);
        mret (s, Some f, a, true)
  end.

Definition aggregate_vote (g : aggregating_qc_t) (vote : vote_message) (finalizer_digest : list Z)
    : result (aggregate_vote_result_t * aggregating_qc_t) :=
  '(r, auth, a, verified_sig) ← add_vote_to vote finalizer_digest false
    (active_finalizer_policy g) (active_policy_sig g);
  let g := {| active_finalizer_policy := active_finalizer_policy g;
              pending_finalizer_policy := pending_finalizer_policy g;
              active_policy_sig := a; pending_policy_sig := pending_policy_sig g |} in
  if negb (bool_decide (r = success)) && negb (bool_decide (r = unknown_public_key)) then
    mret ({| avr_result := r; avr_active_authority := auth; avr_pending_authority := None |}, g)
  else
    match pending_finalizer_policy g with
    | None => mret ({| avr_result := r; avr_active_authority := auth; avr_pending_authority := None |}, g)
    | Some pending =>
        match pending_policy_sig g with
        | None => Err assertion_failed
        | Some ps =>
            '(s, pauth, ps, _) ← add_vote_to vote finalizer_digest verified_sig pending ps;
            mret ({| avr_result := if bool_decide (s = unknown_public_key) then r else s;
                     avr_active_authority := auth; avr_pending_authority := pauth |},
                  {| active_finalizer_policy := active_finalizer_policy g;
                     pending_finalizer_policy := pending_finalizer_policy g;
                     active_policy_sig := active_policy_sig g; pending_policy_sig := Some ps |})
        end
    end.

(** ** Queries *)

Definition finalizer_has_voted (p : finalizer_policy) (a : aggregating_qc_sig_t) (key : PK)
    : result vote_status_t :=
  match find_finalizer (fp_finalizers p) key with
  | Some (index, _) => v ← sig_has_voted a index; mret (if (v : bool) then voted else not_voted)
  | None => mret irrelevant_finalizer
  end.

Definition has_voted (g : aggregating_qc_t) (key : PK) : result vote_status_t :=
  active_status ← finalizer_has_voted (active_finalizer_policy g) (active_policy_sig g) key;
  match pending_finalizer_policy g, active_status with
  | None, _ | _, not_voted => mret active_status
  | Some pending, _ =>
      match pending_policy_sig g with
      | None => Err invalid_qc_claim
      | Some ps =>
          pending_status ← finalizer_has_voted pending ps key;
          mret (match pending_status with irrelevant_finalizer => active_status | s => s end)
      end
  end.

Definition is_quorum_met (g : aggregating_qc_t) : bool :=
  sig_is_quorum_met (active_policy_sig g) &&
  match pending_policy_sig g with None => true | Some ps => sig_is_quorum_met ps end.

(** [fin_auth_set_t]: a set ordered by public key; [insert] of a key that is
    already there keeps the old element. *)
Definition fin_auth : Type := finalizer_authority * Z.
Definition set_insert (s : list fin_auth) (x : fin_auth) : list fin_auth :=
  if existsb (fun y => bool_decide (fa_public_key y.1 = fa_public_key x.1)) s then s else s ++ [x].

(** The lambda [add_votes]: the grown set and the number of set bits. *)
Fixpoint add_votes (generation : Z) (fs : list finalizer_authority) (votes : list bool)
    (results : list fin_auth) : list fin_auth * Z :=
  match fs, votes with
  | f :: fs, b :: votes =>
      let '(results, added) := add_votes generation fs votes
        (if b then set_insert results (f, generation) else results) in
      (results, added + Z_of_bool b)
  | _, _ => (results, 0)
  end.

Definition add_votes_checked (p : finalizer_policy) (votes : list bool) (results : list fin_auth)
    : result (list fin_auth * Z) :=
  c_assert (vsize votes =? vsize (fp_finalizers p));;
  mret (add_votes (fp_generation p) (fp_finalizers p) votes results).

Record qc_vote_metrics_t : Type := {
  vmx_strong_votes : list fin_auth;
  vmx_weak_votes : list fin_auth;
  vmx_missing_votes : list fin_auth
}.

(** The lambda [add_policy_votes].  [added] is overwritten by the weak votes. *)
Definition add_policy_votes (p : finalizer_policy) (q : qc_sig_t) (m : qc_vote_metrics_t)
    : result qc_vote_metrics_t :=
  '(sv, added) ← (match qs_strong_votes q with
                  | Some v => add_votes_checked p v (vmx_strong_votes m)
                  | None => mret (vmx_strong_votes m, 0)
                  end);
  '(wv, added) ← (match qs_weak_votes q with
                  | Some v => add_votes_checked p v (vmx_weak_votes m)
                  | None => mret (vmx_weak_votes m, added)
                  end);
  mv ← (if negb (added =? vsize (fp_finalizers p)) then
          let not_voted := default (replicate (length (fp_finalizers p)) false) (qs_strong_votes q) in
          not_voted ← (match qs_weak_votes q with
                       | Some v => c_assert (vsize not_voted =? vsize v);; mret (zip_with orb not_voted v)
                       | None => mret not_voted
                       end);
          '(mv, _) ← add_votes_checked p (negb <$> not_voted) (vmx_missing_votes m);
          mret mv
        else mret (vmx_missing_votes m));
  mret {| vmx_strong_votes := sv; vmx_weak_votes := wv; vmx_missing_votes := mv |}.

Definition vote_metrics (g : aggregating_qc_t) (q : qc_t) : result qc_vote_metrics_t :=
  m ← add_policy_votes (active_finalizer_policy g) (qc_active_policy_sig q)
        {| vmx_strong_votes := []; vmx_weak_votes := []; vmx_missing_votes := [] |};
  match pending_finalizer_policy g with
  | None => mret m
  | Some pending =>
      c_assert (match pending_policy_sig g with Some _ => true | None => false end);;
      match qc_pending_policy_sig q with
      | Some s => add_policy_votes pending s m
      | None => Err undefined_behavior
      end
  end.

(** The lambda [add_not_voted]. *)
Fixpoint add_not_voted_loop (generation : Z) (fs : list finalizer_authority) (votes : list bool)
    (other_votes : option (list bool)) (not_voted : list fin_auth) : result (list fin_auth) :=
  match fs, votes with
  | f :: fs, b :: votes =>
      other ← (if b then mret true else opt_bit_at other_votes 0);
      add_not_voted_loop generation fs votes (tail <$> other_votes)
        (if other : bool then not_voted else set_insert not_voted (f, generation))
  | _, _ => mret not_voted
  end.

Definition add_not_voted (p : finalizer_policy) (q : qc_sig_t) (not_voted : list fin_auth)
    : result (list fin_auth) :=
  match (match qs_strong_votes q with
         | Some v => Some (v, qs_weak_votes q)
         | None => match qs_weak_votes q with Some v => Some (v, None) | None => None end
         end) with
  | None => Err assertion_failed
  | Some (votes, other_votes) =>
      c_assert (vsize votes =? vsize (fp_finalizers p));;
      c_assert (match other_votes with None => true | Some v => vsize v =? vsize (fp_finalizers p) end);;
      add_not_voted_loop (fp_generation p) (fp_finalizers p) votes other_votes not_voted
  end.

Definition missing_votes (g : aggregating_qc_t) (q : qc_t) : result (list fin_auth) :=
  not_voted ← add_not_voted (active_finalizer_policy g) (qc_active_policy_sig q) [];
  match pending_finalizer_policy g with
  | None => mret not_voted
  | Some pending =>
      c_assert (match pending_policy_sig g with Some _ => true | None => false end);;
      match qc_pending_policy_sig q with
      | Some s => add_not_voted pending s not_voted
      | None => Err undefined_behavior
      end
  end.
End AggregatingQc.

Arguments vote_message PK SIG : clear implicits.
Arguments aggregating_qc_t PK SIG : clear implicits.

(** ** Executions and their invariant *)

Section Executions.
Context {PK SIG APK : Type} `{EqDecision PK} `{Bls PK SIG APK}.
Context (active : finalizer_policy PK) (pending : option (finalizer_policy PK)) (digest : sha256).

Definition vote_digest (is_strong : bool) : list Z :=
  if is_strong then sha256_bytes digest else create_weak_digest digest.

(** The calls on the aggregator of one block: votes from the network, checked
    against the digest of their kind, and certificates that were verified. *)
Inductive aqc_reachable : aggregating_qc_t PK SIG -> Prop :=
| aqc_start : aqc_reachable (aggregating_qc_init active pending)
| aqc_vote g v r g' :
    aqc_reachable g -> aggregate_vote g v (vote_digest (vm_strong v)) = Ok (r, g') -> aqc_reachable g'
| aqc_receive g q b g' :
    aqc_reachable g -> verify_qc g q digest (create_weak_digest digest) = Ok tt ->
    set_received_qc g q = Ok (b, g') -> aqc_reachable g'.

Context `{!BlsLaws PK SIG APK}.
Abbreviation sig_inv p a := (agg_inv p (sha256_bytes digest) (create_weak_digest digest) a).

Definition received_ok (p : finalizer_policy PK) (a : aggregating_qc_sig_t SIG) : Prop :=
  forall q, received_qc_sig a = Some q ->
    verify_vote_format q p = Ok tt /\ sig_verify q p digest (create_weak_digest digest) = Ok tt.

(** A dual finalizer's votes are the same in both counters. *)
Definition dual_same (p p' : finalizer_policy PK) (a a' : aggregating_qc_sig_t SIG) : Prop :=
  forall i j f f', fp_finalizers p !! i = Some f -> fp_finalizers p' !! j = Some f' ->
    fa_public_key f = fa_public_key f' ->
    bitset (strong_votes a) !! i = bitset (strong_votes a') !! j /\
    bitset (weak_votes a) !! i = bitset (weak_votes a') !! j.

Record aqc_inv (g : aggregating_qc_t PK SIG) : Prop := {
  qi_active : active_finalizer_policy g = active;
  qi_pending : pending_finalizer_policy g = pending;
  qi_active_sig : sig_inv active (active_policy_sig g);
  qi_active_received : received_ok active (active_policy_sig g);
  qi_pending_sig :
    match pending, pending_policy_sig g with
    | None, None => True
    | Some p, Some ps => sig_inv p ps /\ received_ok p ps /\ dual_same active p (active_policy_sig g) ps
    | _, _ => False
    end
}.

Context (Hactive : policy_ok active) (Hpending : forall p, pending = Some p -> policy_ok p).

Lemma find_finalizer_Some (p : finalizer_policy PK) i f key :
  policy_ok p -> find_finalizer (fp_finalizers p) key = Some (i, f) <->
    fp_finalizers p !! i = Some f /\ fa_public_key f = key.
Proof.
  intros [_ _ Hn _ _]. unfold find_finalizer. rewrite list_find_Some. split; [naive_solver|].
  intros [Hf Hk]. split_and!; [done|done|]. intros j y Hj Hlt Hy. subst key.
  assert (j = i); [|lia]. eapply (NoDup_lookup (fa_public_key <$> fp_finalizers p)); [done| |].
  - rewrite list_lookup_fmap, Hj. simpl. by rewrite Hy.
  - by rewrite list_lookup_fmap, Hf.
Qed.

Lemma find_finalizer_None (p : finalizer_policy PK) i f key :
  find_finalizer (fp_finalizers p) key = None -> fp_finalizers p !! i = Some f -> fa_public_key f <> key.
Proof.
  unfold find_finalizer. rewrite list_find_None. intros Hall Hf.
  by apply (proj1 (Forall_lookup _ _) Hall i f).
Qed.

Lemma votes_has_voted_Ok (v : votes_t SIG) i b :
  processed v = bitset v -> bitset v !! i = Some b -> votes_has_voted v i = Ok b.
Proof.
  intros Hv Hb. pose proof (lookup_lt_Some _ _ _ Hb). unfold votes_has_voted, bit_at. rewrite Hv.
  step_assert by lia. by rewrite Hb.
Qed.

Lemma sig_has_voted_Ok p (a : aggregating_qc_sig_t SIG) i :
  sig_inv p a -> (i < length (fp_finalizers p))%nat ->
  (sig_has_voted a i = Ok true /\ voted_at a i) \/
  (sig_has_voted a i = Ok false /\ bitset (strong_votes a) !! i = Some false /\
   bitset (weak_votes a) !! i = Some false).
Proof.
  intros [[Hsl Hsp _] [Hwl Hwp _] _ _ _ _ _ _] Hi. unfold sig_has_voted, voted_at.
  destruct (lookup_lt_is_Some_2 (bitset (strong_votes a)) i) as [s Hs]; [lia|].
  destruct (lookup_lt_is_Some_2 (bitset (weak_votes a)) i) as [w Hw]; [lia|].
  rewrite (votes_has_voted_Ok _ i s Hsp Hs), (votes_has_voted_Ok _ i w Hwp Hw), ret_bind, Hs, Hw.
  destruct s, w; simpl; auto.
Qed.

(** The outcomes of the lambda [add_vote]. *)
Inductive added_to (p : finalizer_policy PK) (v : vote_message PK SIG) (ver : bool)
    (a : aggregating_qc_sig_t SIG) :
    vote_result_t * option (finalizer_authority PK) * aggregating_qc_sig_t SIG * bool -> Prop :=
| added_unknown :
    find_finalizer (fp_finalizers p) (vm_finalizer_key v) = None ->
    added_to p v ver a (unknown_public_key, None, a, ver)
| added_duplicate i f :
    find_finalizer (fp_finalizers p) (vm_finalizer_key v) = Some (i, f) -> voted_at a i ->
    added_to p v ver a (duplicate, Some f, a, ver)
| added_invalid i f :
    find_finalizer (fp_finalizers p) (vm_finalizer_key v) = Some (i, f) -> ver = false ->
    bls_verify (vm_finalizer_key v) (vote_digest (vm_strong v)) (vm_sig v) = false ->
    added_to p v ver a (invalid_signature, Some f, a, ver)
| added_success i f a' :
    find_finalizer (fp_finalizers p) (vm_finalizer_key v) = Some (i, f) ->
    bls_verify (vm_finalizer_key v) (vote_digest (vm_strong v)) (vm_sig v) = true ->
    vote_added (vm_strong v) i a a' success ->
    added_to p v ver a (success, Some f, a', true).

Lemma add_vote_to_Ok p v ver a :
  policy_ok p -> sig_inv p a ->
  (ver = true -> bls_verify (vm_finalizer_key v) (vote_digest (vm_strong v)) (vm_sig v) = true) ->
  exists o, add_vote_to v (vote_digest (vm_strong v)) ver p a = Ok o /\
    added_to p v ver a o /\ sig_inv p o.1.2.
Proof.
  intros Hp Ha Hver. unfold add_vote_to.
  destruct (find_finalizer _ _) as [[i f]|] eqn:Ef; [|eexists; split_and!; [done|by constructor|done]].
  pose proof (proj1 (find_finalizer_Some p i f _ Hp) Ef) as [Hf Hk].
  destruct (sig_has_voted_Ok p a i Ha (lookup_lt_Some _ _ _ Hf)) as [[-> Hv]|(-> & Hs & Hw)];
    rewrite ret_bind.
  { eexists. split_and!; [done|by econstructor|done]. }
  destruct (bls_verify (vm_finalizer_key v) (vote_digest (vm_strong v)) (vm_sig v)) eqn:Eb.
  - rewrite andb_false_r. pose proof (bls_verify_sign _ _ _ Eb) as Hsig. rewrite <- Hk in Hsig.
    destruct (add_vote_Ok p _ _ Hp a (vm_strong v) i f (vm_sig v) Ha Hf Hsig) as (r & a' & E & Ha' & Hadd).
    rewrite E, ret_bind. inversion Hadd as [_ [?|?]|]; [congruence..|]. subst r.
    eexists. split_and!; [done|by econstructor|done].
  - destruct ver; [by specialize (Hver eq_refl)|]. simpl.
    eexists. split_and!; [done|by econstructor|done].
Qed.

Lemma added_received p v ver a o : added_to p v ver a o -> received_qc_sig o.1.2 = received_qc_sig a.
Proof. destruct 1 as [| | |i f a' _ _ Hadd]; [done..|]. by inversion Hadd. Qed.

Lemma received_ok_same p (a a' : aggregating_qc_sig_t SIG) :
  received_qc_sig a' = received_qc_sig a -> received_ok p a -> received_ok p a'.
Proof. unfold received_ok. by intros ->. Qed.

(** The bits of the finalizers other than the voter stay. *)
Lemma vote_added_other s i j (a a' : aggregating_qc_sig_t SIG) r :
  vote_added s i a a' r -> i <> j ->
  bitset (strong_votes a') !! j = bitset (strong_votes a) !! j /\
  bitset (weak_votes a') !! j = bitset (weak_votes a) !! j.
Proof.
  intros [-> _|_ _ _ -> ->] Hij; [done|]. destruct s; by rewrite !list_lookup_insert_ne.
Qed.

Lemma vote_added_self (s : bool) i (a a' : aggregating_qc_sig_t SIG) :
  vote_added s i a a' success ->
  bitset (strong_votes a') !! i = Some s /\ bitset (weak_votes a') !! i = Some (negb s).
Proof.
  intros Hv. inversion Hv as [|_ Hs Hw Es Ew]. rewrite Es, Ew.
  destruct s; rewrite ?list_lookup_insert_eq by (by eapply lookup_lt_Some); done.
Qed.

(** A vote by a key that is not in the second policy. *)
Lemma dual_same_vote_l p p' (v : vote_message PK SIG) (a a' ps : aggregating_qc_sig_t SIG) i f :
  policy_ok p -> dual_same p p' a ps ->
  find_finalizer (fp_finalizers p) (vm_finalizer_key v) = Some (i, f) ->
  find_finalizer (fp_finalizers p') (vm_finalizer_key v) = None ->
  vote_added (vm_strong v) i a a' success -> dual_same p p' a' ps.
Proof.
  intros Hp Hd Hf Hn Hadd i' j' f1 f2 H1 H2 Hk. apply (find_finalizer_Some p i f) in Hf as [Hf Hfk]; [|done].
  pose proof (find_finalizer_None p' j' f2 _ Hn H2) as Hne.
  destruct (vote_added_other _ i i' _ _ _ Hadd) as [-> ->]; [congruence|]. by apply (Hd i' j' f1 f2).
Qed.

(** A vote by a key that is not in the first policy. *)
Lemma dual_same_vote_r p p' (v : vote_message PK SIG) (a ps ps' : aggregating_qc_sig_t SIG) j f :
  policy_ok p' -> dual_same p p' a ps ->
  find_finalizer (fp_finalizers p) (vm_finalizer_key v) = None ->
  find_finalizer (fp_finalizers p') (vm_finalizer_key v) = Some (j, f) ->
  vote_added (vm_strong v) j ps ps' success -> dual_same p p' a ps'.
Proof.
  intros Hp Hd Hn Hf Hadd i' j' f1 f2 H1 H2 Hk. apply (find_finalizer_Some p' j f) in Hf as [Hf Hfk]; [|done].
  pose proof (find_finalizer_None p i' f1 _ Hn H1) as Hne.
  destruct (vote_added_other _ j j' _ _ _ Hadd) as [-> ->]; [congruence|]. by apply (Hd i' j' f1 f2).
Qed.

(** A vote by a dual finalizer, counted in both. *)
Lemma dual_same_vote_both p p' (v : vote_message PK SIG) (a a' ps ps' : aggregating_qc_sig_t SIG) i f j f' :
  policy_ok p -> policy_ok p' -> dual_same p p' a ps ->
  find_finalizer (fp_finalizers p) (vm_finalizer_key v) = Some (i, f) ->
  find_finalizer (fp_finalizers p') (vm_finalizer_key v) = Some (j, f') ->
  vote_added (vm_strong v) i a a' success -> vote_added (vm_strong v) j ps ps' success ->
  dual_same p p' a' ps'.
Proof.
  intros Hp Hp' Hd Hf Hf' Ha Hps i1 j1 f1 f2 H1 H2 Hk.
  destruct (decide (fa_public_key f1 = vm_finalizer_key v)) as [E|E].
  - assert (i1 = i) as ->.
    { pose proof (proj2 (find_finalizer_Some p i1 f1 _ Hp) (conj H1 E)). congruence. }
    assert (j1 = j) as ->.
    { rewrite Hk in E. pose proof (proj2 (find_finalizer_Some p' j1 f2 _ Hp') (conj H2 E)). congruence. }
    destruct (vote_added_self _ _ _ _ Ha) as [-> ->], (vote_added_self _ _ _ _ Hps) as [-> ->]. done.
  - apply (find_finalizer_Some p i f) in Hf as [Hf ?]; [|done].
    apply (find_finalizer_Some p' j f') in Hf' as [Hf' ?]; [|done].
    destruct (vote_added_other _ i i1 _ _ _ Ha) as [-> ->]; [congruence|].
    destruct (vote_added_other _ j j1 _ _ _ Hps) as [-> ->]; [congruence|]. by apply (Hd i1 j1 f1 f2).
Qed.

Lemma aggregate_vote_inv g v :
  aqc_inv g -> exists r g', aggregate_vote g v (vote_digest (vm_strong v)) = Ok (r, g') /\ aqc_inv g'.
Proof.
  intros [Ea Ep Ha Hra Hps]. unfold aggregate_vote. rewrite Ea.
  destruct (add_vote_to_Ok active v false (active_policy_sig g) Hactive Ha) as (o & -> & Ho & Hoi); [done|].
  pose proof (added_received _ _ _ _ _ Ho) as Hor.
  destruct o as [[[r auth] a] ver]. cbn [fst snd] in Hoi, Hor. rewrite ret_bind. cbn [pending_finalizer_policy].
  assert (received_ok active a) as Hra' by (by eapply received_ok_same).
  destruct (negb (bool_decide (r = success)) && negb (bool_decide (r = unknown_public_key))) eqn:Er.
  { assert (a = active_policy_sig g) as -> by (by inversion Ho; subst).
    eexists _, _. split; [done|]. by constructor. }
  rewrite Ep. destruct pending as [p'|] eqn:Ep'; cbn [pending_policy_sig].
  2: { eexists _, _. split; [done|]. constructor; try done. rewrite Ep'. cbn [pending_policy_sig].
       by destruct (pending_policy_sig g). }
  destruct (pending_policy_sig g) as [ps|]; [|done]. destruct Hps as (Hps & Hrps & Hd).
  destruct (add_vote_to_Ok p' v ver ps (Hpending p' eq_refl) Hps) as (o' & -> & Ho' & Hoi').
  { intros ->. by inversion Ho. }
  pose proof (added_received _ _ _ _ _ Ho') as Hor'.
  destruct o' as [[[r' auth'] ps'] ver']. cbn [fst snd] in Hoi', Hor'. rewrite ret_bind.
  eexists _, _. split; [done|]. constructor; try done. rewrite Ep'. cbn [pending_policy_sig active_policy_sig].
  split_and!; [done|by eapply received_ok_same|].
  pose proof (Hpending p' eq_refl) as Hp'. clear Ea Ep.
  inversion Ho as [Hf|i f Hf Hv|i f Hf Hver Hb|i f a' Hf Hb Hadd]; subst; simpl in Er; try done;
    inversion Ho' as [Hf'|j f' Hf' Hv'|j f' Hf' Hver' Hb'|j f' ps1 Hf' Hb' Hadd']; subst; try done.
  - by eapply dual_same_vote_r.
  - by eapply dual_same_vote_l.
  - exfalso. apply (find_finalizer_Some active i f) in Hf as [Hf Hk]; [|done].
    apply (find_finalizer_Some p' j f') in Hf' as [Hf' Hk']; [|done].
    destruct (Hd i j f f' Hf Hf' ltac:(congruence)) as [Es Ew].
    inversion Hadd as [|_ Hs Hw _ _]. unfold voted_at in Hv'. naive_solver congruence.
  - by eapply dual_same_vote_both.
Qed.

Lemma set_received_same (a : aggregating_qc_sig_t SIG) q :
  bitset (strong_votes (set_received_qc_sig a q).2) = bitset (strong_votes a) /\
  bitset (weak_votes (set_received_qc_sig a q).2) = bitset (weak_votes a).
Proof.
  unfold set_received_qc_sig.
  by destruct (received_qc_sig a) as [r|]; [destruct (sig_is_weak r && sig_is_strong q)|].
Qed.

Lemma set_received_ok p (a : aggregating_qc_sig_t SIG) q :
  received_ok p a -> verify_vote_format q p = Ok tt ->
  sig_verify q p digest (create_weak_digest digest) = Ok tt ->
  received_ok p (set_received_qc_sig a q).2.
Proof.
  unfold received_ok, set_received_qc_sig. intros Hr Hf Hv q'.
  destruct (received_qc_sig a) as [r|] eqn:E; [destruct (sig_is_weak r && sig_is_strong q)|];
    cbn [snd received_qc_sig]; rewrite ?E; naive_solver.
Qed.

Lemma verify_qc_Ok (g : aggregating_qc_t PK SIG) q sd wd :
  verify_qc g q sd wd = Ok tt <->
  verify_vote_format (qc_active_policy_sig q) (active_finalizer_policy g) = Ok tt /\
  sig_verify (qc_active_policy_sig q) (active_finalizer_policy g) sd wd = Ok tt /\
  match pending_finalizer_policy g, qc_pending_policy_sig q with
  | None, None => True
  | Some p, Some s => verify_vote_format s p = Ok tt /\ verify_dual_finalizers_votes g p q = Ok tt /\
                      sig_verify s p sd wd = Ok tt
  | _, _ => False
  end.
Proof.
  unfold verify_qc.
  destruct (verify_vote_format (qc_active_policy_sig q) _) as [[]|], (pending_finalizer_policy g) as [p|],
    (qc_pending_policy_sig q) as [s|]; simpl; try naive_solver;
    destruct (sig_verify (qc_active_policy_sig q) _ sd wd) as [[]|]; simpl; try naive_solver;
    destruct (verify_vote_format s p) as [[]|]; simpl; try naive_solver;
    destruct (verify_dual_finalizers_votes g p q) as [[]|]; simpl; naive_solver.
Qed.

Lemma set_received_qc_inv g q b g' :
  aqc_inv g -> verify_qc g q digest (create_weak_digest digest) = Ok tt ->
  set_received_qc g q = Ok (b, g') -> aqc_inv g'.
Proof.
  intros [Ea Ep Ha Hra Hps] Hv Hs. apply verify_qc_Ok in Hv as (Hf & Hsv & Hpv). rewrite Ea in Hf, Hsv.
  rewrite Ep in Hpv.
  pose proof (set_received_qc_sig_inv _ _ _ _ (qc_active_policy_sig q) Ha) as Ha'.
  pose proof (set_received_ok _ _ _ Hra Hf Hsv) as Hra'.
  pose proof (set_received_same (active_policy_sig g) (qc_active_policy_sig q)) as [Es Ew].
  unfold set_received_qc in Hs.
  destruct (set_received_qc_sig (active_policy_sig g) (qc_active_policy_sig q)) as [b1 a'].
  cbn [snd] in *.
  destruct (pending_policy_sig g) as [ps|], pending as [p|] eqn:Epp; try done.
  - destruct (qc_pending_policy_sig q) as [s|]; [|done]. destruct Hps as (Hps & Hrps & Hd).
    destruct Hpv as (Hpf & _ & Hpsv).
    pose proof (set_received_qc_sig_inv _ _ _ _ s Hps) as Hps'.
    pose proof (set_received_ok _ _ _ Hrps Hpf Hpsv) as Hrps'.
    pose proof (set_received_same ps s) as [Es' Ew'].
    destruct (set_received_qc_sig ps s) as [b2 ps']. cbn [snd] in *.
    apply Ok_inj in Hs as [= <- <-]. constructor; try done; cbn; [congruence|]. rewrite Epp.
    split_and!; try done. intros i j f f' H1 H2 Hk. rewrite Es, Ew, Es', Ew'. by apply (Hd i j f f').
  - apply Ok_inj in Hs as [= <- <-]. constructor; try done; cbn; [congruence|]. by rewrite Epp.
Qed.

Lemma aqc_reachable_inv g : aqc_reachable g -> aqc_inv g.
Proof.
  induction 1 as [|g v r g' _ IH Hv|g q b g' _ IH Hv Hs].
  - constructor; try done; cbn [aggregating_qc_init active_policy_sig pending_policy_sig].
    + by apply agg_inv_init.
    + destruct pending as [p|] eqn:E; [|done]. cbn [fmap option_fmap option_map].
      split_and!; [by apply agg_inv_init, Hpending|done|].
      intros i j f f' H1 H2 _.
      cbn [aggregating_qc_sig_of_policy aggregating_qc_sig_init strong_votes weak_votes bitset votes_init].
      apply lookup_lt_Some in H1, H2. by rewrite !lookup_replicate_2.
  - destruct (aggregate_vote_inv g v IH) as (r1 & g1 & E & Hi). rewrite Hv in E.
    by apply Ok_inj in E as [= -> ->].
  - by eapply set_received_qc_inv.
Qed.

(** ** The best certificate *)

Lemma sig_get_best_qc_Ok p a :
  policy_ok p -> sig_inv p a -> received_ok p a ->
  exists oq, sig_get_best_qc a = Ok oq /\ (sig_is_quorum_met a = true -> oq <> None) /\
    forall q, oq = Some q ->
      verify_vote_format q p = Ok tt /\ sig_verify q p digest (create_weak_digest digest) = Ok tt.
Proof.
  intros Hp Ha Hr. unfold sig_get_best_qc. destruct (sig_is_quorum_met a) eqn:Em; cbn [negb].
  - destruct (extract_verifies p _ _ Hp a digest Ha Em eq_refl) as (q & -> & Hf & Hv & _). rewrite ret_bind.
    destruct (received_qc_sig a) as [r|] eqn:Er; [destruct (_ || _)|];
      (eexists; split_and!; [done|done|]); intros q' [= <-]; [by apply Hr|done|done].
  - eexists. split_and!; [done|done|]. apply Hr.
Qed.

(** Where the certificate of a counter comes from: its votes, or the certificate
    that was received. *)
Definition from_votes (a : aggregating_qc_sig_t SIG) : Prop :=
  sig_is_quorum_met a = true /\
  forall r, received_qc_sig a = Some r -> sig_is_weak r = true /\ aggregating_state a = strong.
Definition from_received (a : aggregating_qc_sig_t SIG) (r : qc_sig_t SIG) : Prop :=
  received_qc_sig a = Some r /\
  (sig_is_quorum_met a = true -> sig_is_strong r = true \/ aggregating_state a <> strong).

Lemma best_from_votes p a :
  policy_ok p -> sig_inv p a -> from_votes a ->
  exists q, sig_get_best_qc a = Ok (Some q) /\ extract_qc_sig_from_aggregating a = Ok q.
Proof.
  intros Hp Ha [Em Hr]. unfold sig_get_best_qc. rewrite Em. cbn [negb].
  destruct (extract_verifies p _ _ Hp a digest Ha Em eq_refl) as (q & -> & _ & _ & Es). exists q. rewrite ret_bind.
  destruct (received_qc_sig a) as [r|]; [|done]. destruct (Hr r eq_refl) as [Ew Est].
  unfold sig_is_strong in *. rewrite Ew, (bool_decide_eq_true_2 _ Est) in *. apply negb_true_iff in Es. by rewrite Es.
Qed.

Lemma best_from_received p a r :
  policy_ok p -> sig_inv p a -> from_received a r -> sig_get_best_qc a = Ok (Some r).
Proof.
  intros Hp Ha [Er Hr]. unfold sig_get_best_qc. rewrite Er. destruct (sig_is_quorum_met a) eqn:Em; [|done]. cbn [negb].
  destruct (extract_verifies p _ _ Hp a digest Ha Em eq_refl) as (q & -> & _ & _ & Es). rewrite ret_bind.
  destruct (Hr eq_refl) as [->|Hne]; [done|]. unfold sig_is_strong in Es. rewrite (bool_decide_eq_false_2 _ Hne) in Es.
  apply negb_false_iff in Es. by rewrite Es, orb_true_r.
Qed.

Lemma verify_dual_loop_Ok (q : qc_t SIG) (pending_fs fs : list (finalizer_authority PK)) k :
  verify_dual_loop q pending_fs k fs = Ok tt <->
  (forall i f j f', fs !! i = Some f -> find_finalizer pending_fs (fa_public_key f) = Some (j, f') ->
     qc_vote_same_at q (k + i) j = Ok true).
Proof.
  revert k; induction fs as [|f fs IH]; intros k; [done|]. cbn [verify_dual_loop].
  assert (verify_dual_loop q pending_fs (S k) fs = Ok tt <-> forall i f1 j f', fs !! i = Some f1 ->
    find_finalizer pending_fs (fa_public_key f1) = Some (j, f') -> qc_vote_same_at q (k + S i) j = Ok true) as Hrest.
  { rewrite IH. split; intros Hx i f1 j f' Hi Hj; specialize (Hx i f1 j f' Hi Hj).
    - by replace (k + S i)%nat with (S k + i)%nat by lia.
    - by replace (S k + i)%nat with (k + S i)%nat by lia. }
  split.
  - intros E. apply bind_Ok in E as ([] & E0 & E). intros [|i] f1 j f' Hi Hj; [|by eapply (proj1 Hrest E)].
    injection Hi as <-. rewrite Hj in E0. apply bind_Ok in E0 as (same & E0 & Hs). apply EOS_ASSERT_Ok in Hs as ->.
    by rewrite Nat.add_0_r.
  - intros Hall. rewrite (proj2 Hrest); [|intros i f1 j f'; by apply (Hall (S i))].
    destruct (find_finalizer pending_fs (fa_public_key f)) as [[j f']|] eqn:Ef; [|done].
    pose proof (Hall 0%nat f j f' eq_refl Ef) as Hs. rewrite Nat.add_0_r in Hs. by rewrite Hs.
Qed.

(** Every finalizer of both policies shows the same vote in both parts. *)
Definition dual_finalizers_agree (p p' : finalizer_policy PK) (q : qc_t SIG) : Prop :=
  forall i j f f', fp_finalizers p !! i = Some f -> fp_finalizers p' !! j = Some f' ->
    fa_public_key f = fa_public_key f' -> qc_vote_same_at q i j = Ok true.

Lemma verify_dual_iff (g : aggregating_qc_t PK SIG) p' q :
  policy_ok p' -> verify_dual_finalizers_votes g p' q = Ok tt <-> dual_finalizers_agree (active_finalizer_policy g) p' q.
Proof.
  intros Hp'. unfold verify_dual_finalizers_votes, dual_finalizers_agree. rewrite verify_dual_loop_Ok. split.
  - intros Hall i j f f' Hf Hf' Hk. apply (Hall i f j f' Hf). by apply find_finalizer_Some.
  - intros Hall i f j f' Hf Hfind. apply find_finalizer_Some in Hfind as [Hj Hk]; [|done]. by apply (Hall i j f f').
Qed.

(** Certificates of the same kind extracted from the two counters agree on the
    dual finalizers. *)
Lemma extract_same p p' a a' q q' n i j f f' :
  policy_ok p -> policy_ok p' -> sig_inv p a -> sig_inv p' a' -> dual_same p p' a a' ->
  (aggregating_state a = strong <-> aggregating_state a' = strong) ->
  extract_qc_sig_from_aggregating a = Ok q -> extract_qc_sig_from_aggregating a' = Ok q' ->
  fp_finalizers p !! i = Some f -> fp_finalizers p' !! j = Some f' -> fa_public_key f = fa_public_key f' ->
  qc_vote_same_at {| qc_block_num := n; qc_active_policy_sig := q; qc_pending_policy_sig := Some q' |} i j
  = Ok true.
Proof.
  intros Hp Hp' [[Hsl _ _] [Hwl _ _] _ _ _ _ _ _] _ Hd Hst Hq Hq' Hf Hf' Hk.
  destruct (Hd i j f f' Hf Hf' Hk) as [Es Ew]. pose proof (lookup_lt_Some _ _ _ Hf) as Hi.
  destruct (lookup_lt_is_Some_2 (bitset (strong_votes a)) i) as [sb Hsb]; [lia|].
  destruct (lookup_lt_is_Some_2 (bitset (weak_votes a)) i) as [wb Hwb]; [lia|].
  rewrite Hsb in Es. rewrite Hwb in Ew.
  unfold qc_vote_same_at, sig_vote_same_at, extract_qc_sig_from_aggregating in *.
  cbn [qc_pending_policy_sig qc_active_policy_sig].
  destruct (decide (aggregating_state a = strong)) as [E1|E1].
  - rewrite (bool_decide_eq_true_2 _ E1) in Hq.
    rewrite (bool_decide_eq_true_2 _ (proj1 Hst E1)) in Hq'. apply Ok_inj in Hq, Hq'. subst q q'.
    cbn [qs_strong_votes qs_weak_votes index_ok opt_bit_at]. unfold bit_at.
    rewrite Hsb, <- Es. rewrite !c_assert_true by (done || lia). cbn. by rewrite eqb_reflx.
  - assert (aggregating_state a' <> strong) as E2 by tauto.
    rewrite (bool_decide_eq_false_2 _ E1) in Hq. rewrite (bool_decide_eq_false_2 _ E2) in Hq'.
    destruct (sig_is_quorum_met a); [|discriminate Hq]. destruct (sig_is_quorum_met a'); [|discriminate Hq'].
    apply Ok_inj in Hq, Hq'. subst q q'.
    cbn [qs_strong_votes qs_weak_votes index_ok opt_bit_at]. unfold bit_at.
    rewrite Hsb, <- Es, Hwb, <- Ew. rewrite !c_assert_true by lia. cbn. by rewrite !eqb_reflx.
Qed.
End Executions.

(** One policy: whatever votes and (verified) certificates arrived, the
    certificate [get_best_qc] returns passes [verify_qc] on every node with the
    same policy, and there is one as soon as the quorum is met. *)
Theorem single_policy_qc_verifies {PK SIG APK : Type} `{EqDecision PK} `{BlsLaws PK SIG APK}
    (active : finalizer_policy PK) (digest : sha256) (g : aggregating_qc_t PK SIG) (block_num : Z) :
  policy_ok active -> aqc_reachable active None digest g ->
  exists oq, get_best_qc g block_num = Ok oq /\ (is_quorum_met g = true -> oq <> None) /\
    forall q, oq = Some q -> qc_block_num q = block_num /\
      verify_qc g q digest (create_weak_digest digest) = Ok tt.
Proof.
  intros Hp Hr. destruct (aqc_reachable_inv active None digest Hp ltac:(done) g Hr) as [Ea Ep Ha Hra Hps].
  destruct (sig_get_best_qc_Ok digest active (active_policy_sig g) Hp Ha Hra) as (oq & E & Hm & Hv).
  unfold get_best_qc, is_quorum_met. rewrite E, ret_bind. destruct (pending_policy_sig g); [done|].
  destruct oq as [q|]; eexists; (split; [done|]); rewrite andb_true_r; [|naive_solver].
  split; [done|]. intros q' [= <-]. split; [done|]. apply verify_qc_Ok. rewrite Ea, Ep. cbn.
  destruct (Hv q eq_refl). done.
Qed.

(** C31. Two policies: in every reachable state, whatever votes and verified
    certificates arrived, [get_best_qc] returns a certificate once both quorums
    are met, and what it returns passes [verify_qc] exactly when the finalizers
    of both policies show the same vote in both parts.  They do whenever the two
    parts come from one source: both from the votes of this node and of the same
    kind, or both from one verified certificate that was received.  (For parts of
    different kinds or sources see [mixed_qc_rejected] below.) *)
Theorem dual_policy_qc_verifies {PK SIG APK : Type} `{EqDecision PK} `{BlsLaws PK SIG APK}
    (active pending : finalizer_policy PK) (digest : sha256) (g : aggregating_qc_t PK SIG)
    (ps : aggregating_qc_sig_t SIG) (block_num : Z) :
  policy_ok active -> policy_ok pending -> aqc_reachable active (Some pending) digest g ->
  pending_policy_sig g = Some ps ->
  exists oq, get_best_qc g block_num = Ok oq /\ (is_quorum_met g = true -> oq <> None) /\
    forall q, oq = Some q ->
      (verify_qc g q digest (create_weak_digest digest) = Ok tt <-> dual_finalizers_agree active pending q) /\
      (from_votes (active_policy_sig g) /\ from_votes ps /\
         (aggregating_state (active_policy_sig g) = strong <-> aggregating_state ps = strong) \/
       (exists q0 s0, verify_qc g q0 digest (create_weak_digest digest) = Ok tt /\ qc_pending_policy_sig q0 = Some s0 /\
          from_received (active_policy_sig g) (qc_active_policy_sig q0) /\ from_received ps s0) ->
       verify_qc g q digest (create_weak_digest digest) = Ok tt).
Proof.
  intros Hp Hp' Hr Hps.
  destruct (aqc_reachable_inv active (Some pending) digest Hp ltac:(by intros ? [= <-]) g Hr)
    as [Ea Ep Ha Hrao Hpi]. rewrite Hps in Hpi. destruct Hpi as (Hpi & Hrpo & Hd).
  destruct (sig_get_best_qc_Ok digest active (active_policy_sig g) Hp Ha Hrao) as (oa & Eqa & Hma & Hva).
  destruct (sig_get_best_qc_Ok digest pending ps Hp' Hpi Hrpo) as (op & Eqp & Hmp & Hvp).
  unfold get_best_qc, is_quorum_met. rewrite Eqa, Hps, ret_bind.
  destruct oa as [qa|]; [|eexists; split; [done|]; split; [intros [? _]%andb_true_iff; tauto|done]].
  rewrite Eqp, ret_bind.
  destruct op as [qp|]; [|eexists; split; [done|]; split; [intros [_ ?]%andb_true_iff; tauto|done]].
  eexists. split; [done|]. split; [done|]. intros q [= <-]. destruct (Hva qa eq_refl) as [Fa Va], (Hvp qp eq_refl) as [Fp Vp].
  assert (forall n, verify_qc g {| qc_block_num := n; qc_active_policy_sig := qa; qc_pending_policy_sig := Some qp |} digest
    (create_weak_digest digest) = Ok tt <-> dual_finalizers_agree active pending
      {| qc_block_num := n; qc_active_policy_sig := qa; qc_pending_policy_sig := Some qp |}) as Hiff.
  { intros n. rewrite verify_qc_Ok, Ea, Ep. cbn [qc_active_policy_sig qc_pending_policy_sig].
    rewrite verify_dual_iff, Ea by done. tauto. }
  split; [apply Hiff|]. intros [(Fa' & Fp' & Hst)|(q0 & s0 & Hv0 & Es0 & Ra & Rp)]; apply Hiff.
  - destruct (best_from_votes digest active _ Hp Ha Fa') as (q1 & E1 & X1), (best_from_votes digest pending _ Hp' Hpi Fp') as (q2 & E2 & X2).
    rewrite Eqa in E1. rewrite Eqp in E2. apply Ok_inj in E1 as [= <-], E2 as [= <-].
    intros i j f f' Hf Hf' Hk. by eapply (extract_same digest active pending).
  - rewrite (best_from_received digest active _ _ Hp Ha Ra) in Eqa. rewrite (best_from_received digest pending _ _ Hp' Hpi Rp) in Eqp.
    apply Ok_inj in Eqa as [= <-], Eqp as [= <-]. destruct q0 as [n0 a0 p0]. cbn in *. rewrite Es0 in Hv0. by apply Hiff in Hv0.
Qed.

(** ** A run with two policies *)

Definition toy_authority (key weight : Z) : finalizer_authority Z :=
  {| fa_description := Blob []; fa_weight := weight; fa_public_key := key |}.
Definition toy_policy (generation threshold : Z) (fs : list (Z * Z)) : finalizer_policy Z :=
  {| fp_generation := generation; fp_threshold := threshold;
     fp_finalizers := (fun x => toy_authority x.1 x.2) <$> fs |}.

(** Key 2 is a dual finalizer. *)
Definition active_toy : finalizer_policy Z := toy_policy 1 2 [(1, 2); (2, 1)].
Definition pending_toy : finalizer_policy Z := toy_policy 2 2 [(2, 1); (3, 1)].

Definition toy_message (v : bool * Z) : vote_message Z Z :=
  {| vm_block_id := sha256_zero; vm_strong := v.1; vm_finalizer_key := v.2;
     vm_sig := v.2 * le_value (vote_digest sha256_zero v.1) |}.
Definition toy_aggregate (g : aggregating_qc_t Z Z) (v : bool * Z) : aggregating_qc_t Z Z :=
  match aggregate_vote g (toy_message v) (vote_digest sha256_zero v.1) with Ok (_, g') => g' | Err _ => g end.
Definition toy_run (pending : option (finalizer_policy Z)) (vs : list (bool * Z)) : aggregating_qc_t Z Z :=
  foldl toy_aggregate (aggregating_qc_init active_toy pending) vs.

Lemma toy_run_reachable pending vs : aqc_reachable active_toy pending sha256_zero (toy_run pending vs).
Proof.
  unfold toy_run.
  assert (forall g, aqc_reachable active_toy pending sha256_zero g ->
    aqc_reachable active_toy pending sha256_zero (foldl toy_aggregate g vs)) as Hgen; [|by apply Hgen; constructor].
  induction vs as [|v vs IH]; intros g Hg; [done|]. simpl. apply IH. unfold toy_aggregate.
  destruct (aggregate_vote g (toy_message v) _) as [[r g']|] eqn:E; [|done].
  by eapply (aqc_vote _ _ _ g (toy_message v)).
Qed.

Lemma toy_policies_ok : policy_ok active_toy /\ policy_ok pending_toy.
Proof.
  split; constructor; try (vm_compute; done); try (repeat constructor; discriminate).
  all: refine (bool_decide_unpack _ _); vm_compute; done.
Qed.

Lemma single_policy_qc_verifies_witness :
  exists oq, get_best_qc (toy_run None [(true, 1)]) 7 = Ok oq /\
    (is_quorum_met (toy_run None [(true, 1)]) = true -> oq <> None) /\
    forall q, oq = Some q -> qc_block_num q = 7 /\
      verify_qc (toy_run None [(true, 1)]) q sha256_zero (create_weak_digest sha256_zero) = Ok tt.
Proof.
  apply (single_policy_qc_verifies active_toy); [apply toy_policies_ok|apply toy_run_reachable].
Defined.

Lemma dual_policy_qc_verifies_witness :
  exists q, get_best_qc (toy_run (Some pending_toy) [(true, 1); (true, 2); (true, 3)]) 7 = Ok (Some q) /\
    verify_qc (toy_run (Some pending_toy) [(true, 1); (true, 2); (true, 3)]) q sha256_zero
      (create_weak_digest sha256_zero) = Ok tt.
Proof.
  edestruct (dual_policy_qc_verifies active_toy pending_toy sha256_zero (toy_run (Some pending_toy) [(true, 1); (true, 2); (true, 3)]))
    as (oq & E & Hq & Hv); [apply toy_policies_ok|apply toy_policies_ok|apply toy_run_reachable|vm_compute; reflexivity|].
  destruct oq as [q|]; [|exfalso; apply Hq; vm_compute; reflexivity]. exists q. split; [exact E|].
  apply (Hv q eq_refl). left. split; [split; [vm_compute; reflexivity|intros r Hr; vm_compute in Hr; discriminate Hr]|].
  split; [split; [vm_compute; reflexivity|intros r Hr; vm_compute in Hr; discriminate Hr]|].
  split; intros _; vm_compute; reflexivity.
Defined.

(** Mixed kinds: there are honest executions (one strong vote of a
    finalizer of the active policy, one weak vote of a dual finalizer, one
    strong vote of a finalizer of the pending policy) in which [get_best_qc]
    builds a certificate that [verify_qc] rejects.  The strong signature of the
    active policy leaves the dual finalizer's weak vote out, the weak signature
    of the pending policy contains it, and the check on dual finalizers takes
    this for two different votes. *)
Theorem mixed_qc_rejected :
  exists g q, aqc_reachable active_toy (Some pending_toy) sha256_zero g /\
    policy_ok active_toy /\ policy_ok pending_toy /\ is_quorum_met g = true /\
    get_best_qc g 7 = Ok (Some q) /\
    verify_qc g q sha256_zero (create_weak_digest sha256_zero) = Err invalid_qc_claim.
Proof.
  exists (toy_run (Some pending_toy) [(true, 1); (false, 2); (true, 3)]). eexists.
  split; [apply toy_run_reachable|]. split; [apply toy_policies_ok|]. split; [apply toy_policies_ok|].
  split; [vm_compute; reflexivity|]. split; [vm_compute; reflexivity|].
  vm_compute; reflexivity.
Qed.

(** ** The two computations of the missing votes *)

Section Missing.
Context {PK SIG APK : Type} `{EqDecision PK} `{Bls PK SIG APK}.

Lemma add_votes_count g (fs : list (finalizer_authority PK)) v acc :
  length v = length fs -> (add_votes g fs v acc).2 <= vsize fs /\
  ((add_votes g fs v acc).2 = vsize fs -> Forall (fun b => b = true) v).
Proof.
  revert v acc; induction fs as [|f fs IH]; intros [|b v] acc Hl; try done. simpl in Hl.
  cbn [add_votes]. destruct (IH v (if b then set_insert acc (f, g) else acc) ltac:(lia)) as [H1 H2].
  destruct (add_votes g fs v _) as [r n]. cbn [snd] in *. unfold vsize in *. cbn [length].
  destruct b; cbn [Z_of_bool].
  - split; [lia|]. intros Hn. constructor; [done|apply H2; lia].
  - split; lia.
Qed.

Lemma add_votes_none g (fs : list (finalizer_authority PK)) v acc :
  Forall (fun b => b = false) v -> (add_votes g fs v acc).1 = acc.
Proof.
  intros Hv. revert fs acc; induction Hv as [|b v -> Hv IH]; intros [|f fs] acc; try done.
  cbn [add_votes]. specialize (IH fs acc). by destruct (add_votes g fs v acc).
Qed.

Lemma add_votes_cons_1 g f fs b v (acc : list (fin_auth (PK := PK))) :
  (add_votes g (f :: fs) (b :: v) acc).1 =
  (add_votes g fs v (if b then set_insert acc (f, g) else acc)).1.
Proof. cbn [add_votes]. by destruct (add_votes g fs v _). Qed.

Lemma add_not_voted_loop_none g (fs : list (finalizer_authority PK)) v acc :
  length v = length fs -> add_not_voted_loop g fs v None acc = Ok (add_votes g fs (negb <$> v) acc).1.
Proof.
  revert v acc; induction fs as [|f fs IH]; intros [|b v] acc Hl; try done.
  cbn [add_not_voted_loop]. change (negb <$> b :: v) with (negb b :: (negb <$> v)).
  rewrite add_votes_cons_1. simpl in Hl. destruct b; simpl; rewrite IH by lia; done.
Qed.

Lemma add_not_voted_loop_some g (fs : list (finalizer_authority PK)) v w acc :
  length v = length fs -> length w = length fs ->
  add_not_voted_loop g fs v (Some w) acc = Ok (add_votes g fs (negb <$> zip_with orb v w) acc).1.
Proof.
  revert v w acc; induction fs as [|f fs IH]; intros [|b v] [|c w] acc Hl Hl'; try done.
  cbn [add_not_voted_loop]. cbn [zip_with].
  change (negb <$> (b || c) :: zip_with orb v w) with (negb (b || c) :: (negb <$> zip_with orb v w)).
  rewrite add_votes_cons_1. simpl in Hl, Hl'.
  destruct b, c; simpl; rewrite IH by lia; done.
Qed.

(** The votes a certificate shows, and the complement. *)
Definition cast_votes (n : nat) (q : qc_sig_t SIG) : list bool :=
  zip_with orb (votes_or_none n (qs_strong_votes q)) (votes_or_none n (qs_weak_votes q)).

Lemma zip_orb_false_l n (v : list bool) : length v = n -> zip_with orb (replicate n false) v = v.
Proof. intros <-. induction v as [|b v IH]; [done|]. simpl. by rewrite IH. Qed.

Lemma zip_orb_false_r n (v : list bool) : length v = n -> zip_with orb v (replicate n false) = v.
Proof. intros <-. induction v as [|b v IH]; [done|]. simpl. by rewrite IH, orb_false_r. Qed.

Lemma negb_all_true n (v : list bool) :
  Forall (fun b => b = true) v -> Forall (fun b => b = false) (negb <$> v) /\
  (length v = n -> forall w, Forall (fun b => b = false) (negb <$> zip_with orb w v)).
Proof.
  intros Hv. split.
  - apply Forall_fmap. eapply Forall_impl; [exact Hv|]. by intros ? ->.
  - intros _. induction Hv as [|b v -> Hv IH]; intros [|c w]; try constructor; [|apply IH].
    by rewrite orb_true_r.
Qed.

(** The last part of the lambda [add_policy_votes]: skipping it when [added]
    equals the number of finalizers loses nothing. *)
Lemma skip_when_all g (fs : list (finalizer_authority PK)) v acc acc' mask :
  length v = length fs -> (Forall (fun b => b = true) v -> Forall (fun b => b = false) mask) ->
  ((add_votes g fs v acc).2 =? vsize fs) = true -> (add_votes g fs mask acc').1 = acc'.
Proof.
  intros Hl Himp Hn. apply add_votes_none, Himp. apply Z.eqb_eq in Hn.
  by apply (add_votes_count g fs v acc Hl).
Qed.

Lemma add_votes_checked_Ok (p : finalizer_policy PK) v (r : list fin_auth) :
  length v = length (fp_finalizers p) ->
  add_votes_checked p v r = Ok (add_votes (fp_generation p) (fp_finalizers p) v r).
Proof. intros Hl. unfold add_votes_checked. by step_assert by (unfold vsize; lia). Qed.

(** The last part of [add_policy_votes], after [n] votes [v] were counted. *)
Lemma missing_added (p : finalizer_policy PK) v acc n votes s w (mv : list fin_auth) :
  length v = length (fp_finalizers p) -> length votes = length (fp_finalizers p) ->
  (add_votes (fp_generation p) (fp_finalizers p) v acc).2 = n ->
  (Forall (fun b => b = true) v -> Forall (fun b => b = false) (negb <$> votes)) ->
  exists m',
    (mv' ← (if negb (n =? vsize (fp_finalizers p))
            then '(mv', _) ← add_votes_checked p (negb <$> votes) mv; mret mv' else mret mv);
     mret {| vmx_strong_votes := s; vmx_weak_votes := w; vmx_missing_votes := mv' |}) = Ok m' /\
    vmx_missing_votes m' = (add_votes (fp_generation p) (fp_finalizers p) (negb <$> votes) mv).1.
Proof.
  intros Hv Hl Hn Himp. destruct (n =? vsize (fp_finalizers p)) eqn:En; cbn [negb].
  - eexists. split; [done|]. symmetry. apply (skip_when_all _ _ v acc); [done|done|by rewrite Hn].
  - rewrite add_votes_checked_Ok by (by rewrite length_fmap). rewrite ret_bind.
    destruct (add_votes _ _ (negb <$> votes) mv). eexists. by split.
Qed.

Lemma policy_votes_agree (p : finalizer_policy PK) (q : qc_sig_t SIG) m :
  policy_ok p -> verify_vote_format q p = Ok tt ->
  let missing := (add_votes (fp_generation p) (fp_finalizers p)
    (negb <$> cast_votes (length (fp_finalizers p)) q) (vmx_missing_votes m)).1 in
  (exists m', add_policy_votes p q m = Ok m' /\ vmx_missing_votes m' = missing) /\
  add_not_voted p q (vmx_missing_votes m) = Ok missing.
Proof.
  intros Hp Hf. destruct (verify_vote_format_Ok p Hp q Hf) as (Hs & Hw & _).
  apply (check_size_length p Hp) in Hs, Hw. unfold verify_vote_format in Hf. cbv zeta.
  unfold add_policy_votes, add_not_voted, cast_votes.
  destruct (qs_strong_votes q) as [sv|] eqn:Es, (qs_weak_votes q) as [wv|] eqn:Ew;
    cbn [votes_or_none default] in *; unfold id in *; [| | |done].
  - rewrite !c_assert_true by (unfold vsize; lia).
    split; [|rewrite !ret_bind; by apply add_not_voted_loop_some]. rewrite !add_votes_checked_Ok by lia.
    destruct (add_votes _ _ sv _) as [r1 n1]. cbn [mbind result_bind]. destruct (add_votes _ _ wv _) as [r2 n2] eqn:E2.
    apply (missing_added p wv (vmx_weak_votes m));
      [done|rewrite length_zip_with; lia|by rewrite E2|].
    intros Hall. exact (proj2 (negb_all_true _ wv Hall) eq_refl sv).
  - rewrite zip_orb_false_r by done. rewrite !c_assert_true by (unfold vsize; lia || done).
    split; [|rewrite !ret_bind; by apply add_not_voted_loop_none]. rewrite !add_votes_checked_Ok by lia.
    destruct (add_votes _ _ sv _) as [r1 n1] eqn:E1.
    apply (missing_added p sv (vmx_strong_votes m)); [done|done|by rewrite E1|].
    intros Hall. exact (proj1 (negb_all_true (length sv) sv Hall)).
  - rewrite zip_orb_false_l by done.
    rewrite !c_assert_true by (unfold vsize; rewrite ?length_replicate; lia || done).
    split; [|rewrite !ret_bind; by apply add_not_voted_loop_none]. rewrite !add_votes_checked_Ok by lia.
    destruct (add_votes _ _ wv _) as [r1 n1] eqn:E1.
    apply (missing_added p wv (vmx_weak_votes m)); [done|done|by rewrite E1|].
    intros Hall. exact (proj1 (negb_all_true (length wv) wv Hall)).
Qed.
End Missing.

(** [vote_metrics] and [missing_votes] agree: on a certificate that
    [verify_qc] accepts both return, and the missing votes of the metrics
    (computed only when the counted votes do not cover the policy, where the
    count of the weak votes replaces that of the strong ones) are the set
    [missing_votes] computes. *)
Theorem missing_votes_agree {PK SIG APK : Type} `{EqDecision PK} `{Bls PK SIG APK}
    (g : aggregating_qc_t PK SIG) (q : qc_t SIG) (strong_digest : sha256) (weak_digest : list Z) :
  policy_ok (active_finalizer_policy g) ->
  (forall p, pending_finalizer_policy g = Some p -> policy_ok p /\ is_Some (pending_policy_sig g)) ->
  verify_qc g q strong_digest weak_digest = Ok tt ->
  exists m, vote_metrics g q = Ok m /\ missing_votes g q = Ok (vmx_missing_votes m).
Proof.
  intros Ha Hp Hv. apply verify_qc_Ok in Hv as (Hf & _ & Hpv).
  unfold vote_metrics, missing_votes.
  set (m0 := {| vmx_strong_votes := []; vmx_weak_votes := []; vmx_missing_votes := [] |}).
  destruct (policy_votes_agree (active_finalizer_policy g) (qc_active_policy_sig q) m0 Ha Hf)
    as [(m1 & E1 & Hm1) E1']. rewrite <- Hm1 in E1'. cbn [m0 vmx_missing_votes] in E1'.
  rewrite E1, E1', !ret_bind. destruct (pending_finalizer_policy g) as [p|]; [|by exists m1].
  destruct (qc_pending_policy_sig q) as [s|]; [|done]. destruct Hpv as (Hpf & _ & _).
  destruct (Hp p eq_refl) as [Hpok [ps ->]].
  destruct (policy_votes_agree p s m1 Hpok Hpf) as [(m2 & E2 & Hm2) E2'].
  exists m2. rewrite c_assert_true, !ret_bind by done. by rewrite E2, E2', Hm2.
Qed.

Definition strong_run : aggregating_qc_t Z Z := toy_run (Some pending_toy) [(true, 1); (true, 2); (true, 3)].
Definition strong_run_qc : qc_t Z :=
  match get_best_qc strong_run 7 with Ok (Some q) => q | _ =>
    {| qc_block_num := 0; qc_active_policy_sig := toy_qc [] 0; qc_pending_policy_sig := None |} end.

Lemma missing_votes_agree_witness :
  exists m, vote_metrics strong_run strong_run_qc = Ok m /\
    missing_votes strong_run strong_run_qc = Ok (vmx_missing_votes m).
Proof.
  apply (missing_votes_agree strong_run strong_run_qc sha256_zero (create_weak_digest sha256_zero)).
  - apply toy_policies_ok.
  - intros p Hp. split; [|vm_compute; eauto].
    assert (p = pending_toy) as -> by (injection Hp as <-; reflexivity). apply toy_policies_ok.
  - vm_compute; reflexivity.
Defined.

(** The generation recorded for a dual finalizer in the vote metrics is
    that of the active policy: the set insertion made for the pending policy
    finds the key present and changes nothing, contrary to the comments on
    [fin_auth::generation] and in [vote_metrics]. *)
Theorem dual_finalizer_generation_is_active :
  exists m, vote_metrics strong_run strong_run_qc = Ok m /\
    (toy_authority 2 1, fp_generation active_toy) ∈ vmx_strong_votes m /\
    (toy_authority 2 1, fp_generation pending_toy) ∉ vmx_strong_votes m.
Proof.
  eexists. split; [vm_compute; reflexivity|]. cbn [vmx_strong_votes].
  split; refine (bool_decide_unpack _ _); vm_compute; reflexivity.
Qed.
