(* ===== verification/Finalizer.v ===== *)
(** Finalizers (chain/finality/finalizer.hpp and finalizer.cpp): the voting
    decision with its safety information, and the node's set of finalizers.
    The safety file is in SafetyFile.v.

    The theorems are the safety argument of the voting rule: votes are cast in
    strictly increasing time, the lock never goes back, and a strong vote never
    conflicts with an earlier vote inside the time range it vouches for. *)
From Stdlib Require Import ZArith Lia ZifyBool.
From stdpp Require Import base tactics numbers list.
From S2P Require Import Prelude Digest Raw Merkle FinalityCore OrderedDiff FinalizerPolicy Qc AggregatingQc.
#[local] Open Scope Z_scope.

(** ** Safety information and votes of one finalizer *)

Record finalizer_safety_information : Type := {
  last_vote : block_ref;
  lock : block_ref;
  other_branch_latest_time : Z
}.

#[global] Instance fsi_eq_dec : EqDecision finalizer_safety_information.
Proof. solve_decision. Defined.

Definition unset_fsi : finalizer_safety_information :=
  {| last_vote := block_ref_default; lock := block_ref_default; other_branch_latest_time := 0 |}.

Inductive vote_decision : Type := no_vote | strong_vote | weak_vote.

#[global] Instance vote_decision_eq_dec : EqDecision vote_decision.
Proof. solve_decision. Defined.

Record vote_result : Type := {
  decision : vote_decision;
  safety_check : bool;
  liveness_check : bool;
  monotony_check : bool
}.

(** What a finalizer sees of a [block_state]. *)
Record vote_block (PK : Type) : Type := {
  vb_id : sha256;
  vb_timestamp : Z;
  vb_strong_digest : sha256;
  vb_core : finality_core;
  vb_active_finalizer_policy : finalizer_policy PK;
  vb_pending_finalizer_policy : option (finalizer_policy PK)
}.
Arguments vb_id {PK} _.
Arguments vb_timestamp {PK} _.
Arguments vb_strong_digest {PK} _.
Arguments vb_core {PK} _.
Arguments vb_active_finalizer_policy {PK} _.
Arguments vb_pending_finalizer_policy {PK} _.

(** [block_state::make_block_ref]. *)
Definition make_block_ref {PK} (b : vote_block PK) : block_ref := {|
  ref_block_id := vb_id b; ref_timestamp := vb_timestamp b;
  ref_finality_digest := vb_strong_digest b;
  ref_active_policy_generation := fp_generation (vb_active_finalizer_policy b);
  ref_pending_policy_generation :=
    match vb_pending_finalizer_policy b with Some p => fp_generation p | None => 0 end |}.

Section Vote.
Context {PK : Type}.
Abbreviation vote_block := (vote_block PK).

Definition latest_qc_block_reference (b : vote_block) : result block_ref :=
  claim ← latest_qc_claim (vb_core b); get_block_reference (vb_core b) (claim_block_num claim).

Definition decide_vote (fsi : finalizer_safety_information) (b : vote_block)
    : result (vote_result * finalizer_safety_information) :=
  let monotony := ref_empty (last_vote fsi) || (ref_timestamp (last_vote fsi) <? vb_timestamp b) in
  if negb monotony then
    mret ({| decision := no_vote; safety_check := false; liveness_check := false;
             monotony_check := false |}, fsi)
  else
    '(liveness, safety) ←
      (if negb (ref_empty (lock fsi)) then
         qc_time ← latest_qc_block_timestamp (vb_core b);
         let liveness := ref_timestamp (lock fsi) <? qc_time in
         safety ← (if negb liveness then extends (vb_core b) (ref_block_id (lock fsi)) else mret false);
         mret (liveness, safety)
       else mret (false, false));
    let can_vote := liveness || safety in
    if (can_vote : bool) then
      qc_time ← latest_qc_block_timestamp (vb_core b);
      '(d, other) ←
        (if ref_timestamp (last_vote fsi) <=? qc_time then
           mret (strong_vote, other_branch_latest_time fsi)
         else
           ext ← extends (vb_core b) (ref_block_id (last_vote fsi));
           if (ext : bool) then
             mret (if other_branch_latest_time fsi <=? qc_time then strong_vote else weak_vote,
                   other_branch_latest_time fsi)
           else mret (weak_vote, ref_timestamp (last_vote fsi)));
      '(other, lk) ←
        (if bool_decide (d = strong_vote) then
           lk ← (if ref_timestamp (lock fsi) <? qc_time then latest_qc_block_reference b
                 else mret (lock fsi));
           mret (0, lk)
         else mret (other, lock fsi));
      mret ({| decision := d; safety_check := safety; liveness_check := liveness; monotony_check := true |},
            {| last_vote := make_block_ref b; lock := lk; other_branch_latest_time := other |})
    else
      mret ({| decision := no_vote; safety_check := safety; liveness_check := liveness;
               monotony_check := true |}, fsi).

(** [finalizer::maybe_update_fsi]: a certificate shows that this finalizer
    voted strong on [b]. *)
Definition maybe_update_fsi (fsi : finalizer_safety_information) (b : vote_block)
    : result (bool * finalizer_safety_information) :=
  r ← latest_qc_block_reference b;
  if (ref_timestamp (lock fsi) <? ref_timestamp r) && (ref_timestamp (last_vote fsi) <? vb_timestamp b) then
    mret (true, {| last_vote := make_block_ref b; lock := r; other_branch_latest_time := 0 |})
  else mret (false, fsi).

(** ** The node's finalizers *)

Context {SIG APK SK : Type} `{EqDecision PK} `{Bls PK SIG APK}.
Variable sign : SK -> list Z -> result SIG.       (* bls_private_key::sign, which may throw *)

Record finalizer : Type := { priv_key : SK; fsi : finalizer_safety_information }.

(** [finalizer::maybe_vote]: an exception of [sign] is logged and dropped. *)
Definition finalizer_maybe_vote (f : finalizer) (pub_key : PK) (b : vote_block) (digest : sha256)
    : result (option (vote_message PK SIG) * finalizer) :=
  '(r, fsi') ← decide_vote (fsi f) b;
  let f := {| priv_key := priv_key f; fsi := fsi' |} in
  match decision r with
  | no_vote => mret (None, f)
  | d =>
      match sign (priv_key f) (if bool_decide (d = weak_vote) then create_weak_digest digest
                               else sha256_bytes digest) with
      | Ok sig => mret (Some {| vm_block_id := vb_id b; vm_strong := bool_decide (d = strong_vote);
                                vm_finalizer_key := pub_key; vm_sig := sig |}, f)
      | Err _ => mret (None, f)
      end
  end.

(** [has_voted_strong]. *)
Definition has_voted_strong (finalizers : list (finalizer_authority PK)) (q : qc_sig_t SIG) (key : PK)
    : result bool :=
  c_assert (sig_is_strong q);;
  match find_finalizer finalizers key with
  | Some (index, _) =>
      match qs_strong_votes q with
      | None => Err assertion_failed
      | Some v => match v !! index with Some b => Ok b | None => Err out_of_range_exception end
      end
  | None => mret false
  end.

(** The lambda [in_policy]: the authority of the key, if it has one. *)
Definition in_policy (p : finalizer_policy PK) (key : PK) : option (finalizer_authority PK) :=
  snd <$> find_finalizer (fp_finalizers p) key.

Definition vote_t : Type :=
  vote_message PK SIG * option (finalizer_authority PK) * option (finalizer_authority PK).

(** The loop that accumulates the votes. *)
Fixpoint vote_loop (b : vote_block) (finalizers : list (PK * finalizer))
    : result (list vote_t * list (PK * finalizer)) :=
  match finalizers with
  | [] => mret ([], [])
  | (key, f) :: finalizers =>
      let active_auth := in_policy (vb_active_finalizer_policy b) key in
      let pending_auth := vb_pending_finalizer_policy b ≫= fun p => in_policy p key in
      '(vs, f) ← (match active_auth, pending_auth with
                  | None, None => mret ([], f)
                  | _, _ =>
                      '(vote_msg, f) ← finalizer_maybe_vote f key b (vb_strong_digest b);
                      mret (match vote_msg with
                            | Some m => [(m, active_auth, pending_auth)]
                            | None => []
                            end, f)
                  end);
      '(vs', fs) ← vote_loop b finalizers;
      mret (vs ++ vs', (key, f) :: fs)
  end.

(** The loop of [my_finalizers_t::maybe_update_fsi]. *)
Fixpoint update_loop (b : vote_block) (q : qc_t SIG) (finalizers : list (PK * finalizer))
    : result (bool * list (PK * finalizer)) :=
  match finalizers with
  | [] => mret (false, [])
  | (key, f) :: finalizers =>
      voted_active ← has_voted_strong (fp_finalizers (vb_active_finalizer_policy b))
                       (qc_active_policy_sig q) key;
      voted ← (if (voted_active : bool) then mret true
               else match vb_pending_finalizer_policy b with
                    | None => mret false
                    | Some p =>
                        match qc_pending_policy_sig q with
                        | Some s => has_voted_strong (fp_finalizers p) s key
                        | None => Err undefined_behavior
                        end
                    end);
      '(u, fsi') ← (if (voted : bool) then maybe_update_fsi (fsi f) b else mret (false, fsi f));
      '(u', fs) ← update_loop b q finalizers;
      mret (u || u', (key, {| priv_key := priv_key f; fsi := fsi' |}) :: fs)
  end.
End Vote.

Arguments finalizer SK : clear implicits.

(** ** The voting rule as a relation *)

Section Rule.
Context {PK : Type}.
Abbreviation vote_block := (vote_block PK).

(** A block that can be voted on: its core meets the invariants and is not the
    genesis core, which has no block to claim. *)
Record votable (b : vote_block) : Prop := {
  vb_inv : core_inv (vb_core b);
  vb_refs : refs (vb_core b) <> []
}.

(** The block is known to descend from [id]. *)
Definition knows (b : vote_block) (id : sha256) : Prop := id ∈ (ref_block_id <$> refs (vb_core b)).

#[global] Instance knows_dec b id : Decision (knows b id).
Proof. unfold knows. apply _. Defined.

(** The rule, with [qc] the block claimed by [b]'s latest certificate. *)
Inductive vote_step (b : vote_block) (qc : block_ref) (f : finalizer_safety_information)
    : vote_decision -> finalizer_safety_information -> Prop :=
| step_none :
    (ref_empty (last_vote f) = false /\ vb_timestamp b <= ref_timestamp (last_vote f)) \/
    ref_empty (lock f) = true \/
    (ref_timestamp qc <= ref_timestamp (lock f) /\ ~ knows b (ref_block_id (lock f))) ->
    vote_step b qc f no_vote f
| step_vote d lk other :
    ref_empty (last_vote f) = true \/ ref_timestamp (last_vote f) < vb_timestamp b ->
    ref_empty (lock f) = false ->
    ref_timestamp (lock f) < ref_timestamp qc \/ knows b (ref_block_id (lock f)) ->
    vote_kind b qc f d lk other ->
    vote_step b qc f d {| last_vote := make_block_ref b; lock := lk; other_branch_latest_time := other |}
(** Strong or weak, with the new lock and other-branch time. *)
with vote_kind (b : vote_block) (qc : block_ref) (f : finalizer_safety_information)
    : vote_decision -> block_ref -> Z -> Prop :=
| kind_strong lk :
    ref_timestamp (last_vote f) <= ref_timestamp qc \/
    (knows b (ref_block_id (last_vote f)) /\ other_branch_latest_time f <= ref_timestamp qc) ->
    lk = (if ref_timestamp (lock f) <? ref_timestamp qc then qc else lock f) ->
    vote_kind b qc f strong_vote lk 0
| kind_weak_same :
    ref_timestamp qc < ref_timestamp (last_vote f) -> knows b (ref_block_id (last_vote f)) ->
    ref_timestamp qc < other_branch_latest_time f ->
    vote_kind b qc f weak_vote (lock f) (other_branch_latest_time f)
| kind_weak_other :
    ref_timestamp qc < ref_timestamp (last_vote f) -> ~ knows b (ref_block_id (last_vote f)) ->
    vote_kind b qc f weak_vote (lock f) (ref_timestamp (last_vote f)).

Lemma latest_qc_block b :
  votable b -> exists qc, latest_qc_block_reference b = Ok qc /\
    latest_qc_block_timestamp (vb_core b) = Ok (ref_timestamp qc) /\ qc ∈ refs (vb_core b).
Proof.
  intros [Hinv Hne]. destruct (core_inv_ends _ Hinv) as (first & lst & Hfirst & Hlst).
  pose proof (inv_2 _ Hinv first lst Hfirst Hlst). pose proof (inv_claim_below _ Hinv Hne lst Hlst).
  destruct (get_block_reference_Ok _ Hinv first lst Hfirst Hlst (target_block_num lst))
    as (qc & E & _ & Hlk); [lia|].
  exists qc. unfold latest_qc_block_reference, latest_qc_block_timestamp.
  erewrite latest_qc_claim_Ok, ret_bind by eauto. cbn [claim_block_num]. split_and!; [done| |].
  - rewrite (links_not_empty _ Hinv first lst Hfirst Hlst). step_assert.
    unfold is_genesis_core. destruct (refs (vb_core b)) eqn:Er; [done|]. cbn [is_empty].
    rewrite (proj2 (back_last _ lst) Hlst), ret_bind, E. done.
  - by eapply list_elem_of_lookup_2.
Qed.

Lemma extends_knows b id : votable b -> extends (vb_core b) id = Ok (bool_decide (knows b id)).
Proof. intros [Hinv _]. by apply extends_refs. Qed.

(** The last part of [decide_vote], once voting is allowed. *)
Lemma decide_kind b qc f :
  votable b -> latest_qc_block_reference b = Ok qc ->
  exists d lk other,
    ('(d, other) ←
       (if ref_timestamp (last_vote f) <=? ref_timestamp qc then
          mret (strong_vote, other_branch_latest_time f)
        else
          ext ← extends (vb_core b) (ref_block_id (last_vote f));
          if (ext : bool) then
            mret (if other_branch_latest_time f <=? ref_timestamp qc then strong_vote else weak_vote,
                  other_branch_latest_time f)
          else mret (weak_vote, ref_timestamp (last_vote f)));
     '(other, lk) ←
       (if bool_decide (d = strong_vote) then
          lk ← (if ref_timestamp (lock f) <? ref_timestamp qc then latest_qc_block_reference b
                else mret (lock f));
          mret (0, lk)
        else mret (other, lock f));
     (mret (d, other, lk) : result _)) = Ok (d, other, lk) /\ vote_kind b qc f d lk other.
Proof.
  intros Hb Eqc. rewrite Eqc, (extends_knows b _ Hb).
  set (lk := if ref_timestamp (lock f) <? ref_timestamp qc then qc else lock f).
  assert ((if ref_timestamp (lock f) <? ref_timestamp qc then Ok qc else mret (lock f)) = Ok lk) as ->
    by (unfold lk; by destruct (_ <? _)).
  destruct (Z.leb_spec (ref_timestamp (last_vote f)) (ref_timestamp qc)).
  { exists strong_vote, lk, 0. split; [done|]. constructor; auto. }
  rewrite ret_bind. case_bool_decide as Hk.
  - destruct (Z.leb_spec (other_branch_latest_time f) (ref_timestamp qc)).
    + exists strong_vote, lk, 0. split; [done|]. constructor; auto.
    + eexists weak_vote, _, _. split; [done|]. by constructor.
  - eexists weak_vote, _, _. split; [done|]. by constructor.
Qed.

Lemma decide_vote_step b f :
  votable b -> exists qc r f', latest_qc_block_reference b = Ok qc /\
    decide_vote f b = Ok (r, f') /\ vote_step b qc f (decision r) f'.
Proof.
  intros Hb. destruct (latest_qc_block b Hb) as (qc & Eqc & Et & _). exists qc.
  unfold decide_vote. rewrite Et, (extends_knows b (ref_block_id (lock f)) Hb).
  destruct (ref_empty (last_vote f) || (ref_timestamp (last_vote f) <? vb_timestamp b)) eqn:Em; cbn [negb].
  2: { eexists _, _. split_and!; [done|done|]. constructor. left.
       apply orb_false_iff in Em as [? ?]. split; [done|lia]. }
  assert (ref_empty (last_vote f) = true \/ ref_timestamp (last_vote f) < vb_timestamp b) as Hm
    by (destruct (ref_empty (last_vote f)); [by left|right; simpl in Em; lia]).
  destruct (ref_empty (lock f)) eqn:El; cbn [negb].
  { unfold mret at 1, result_ret at 1. rewrite ret_bind. cbn [orb].
    eexists _, _. split_and!; [done|done|]. constructor. auto. }
  rewrite ret_bind.
  destruct (Z.ltb_spec (ref_timestamp (lock f)) (ref_timestamp qc)) as [Hl|Hl]; cbn [negb];
    rewrite !ret_bind; [|case_bool_decide as Hk]; cbn [orb];
    [| |by eexists _, _; split_and!; [done|done|constructor; auto]];
    destruct (decide_kind b qc f Hb Eqc) as (d & lk & other & Ek & Hkind);
    apply bind_Ok in Ek as ([d' other'] & Ek1 & Ek); apply bind_Ok in Ek as ([o' lk'] & Ek2 & Ek);
    apply Ok_inj in Ek as [= -> -> ->]; rewrite ?ret_bind, Ek1, ret_bind, Ek2, ret_bind;
    (eexists _, _; split_and!; [done|done|]); cbn [decision]; constructor; auto.
Qed.
End Rule.

(** ** Safety of a finalizer's votes *)

(** The timestamp of the block that [b]'s latest certificate is for. *)
Definition qc_time {PK} (b : vote_block PK) : Z :=
  match latest_qc_block_reference b with Ok r => ref_timestamp r | Err _ => 0 end.

(** The blocks that exist, as a tree: ids are never empty, what a core knows is
    a real ancestor, and the claims on a branch do not go back in time. *)
Class BlockTree (PK : Type) : Type := {
  in_tree : vote_block PK -> Prop;
  ancestor : sha256 -> sha256 -> Prop;
  ancestor_trans : forall x y z, ancestor x y -> ancestor y z -> ancestor x z;
  tree_votable : forall b, in_tree b -> votable b;
  tree_id : forall b, in_tree b -> sha256_empty (vb_id b) = false;
  tree_knows : forall b id, in_tree b -> knows b id -> ancestor id (vb_id b);
  tree_qc_mono : forall b b', in_tree b -> in_tree b' -> ancestor (vb_id b) (vb_id b') ->
    qc_time b <= qc_time b'
}.

Section Safety.
Context {PK : Type} `{BlockTree PK}.
Abbreviation vote_block := (vote_block PK).

Definition record_vote (b : vote_block) (d : vote_decision) (V : list (vote_block * vote_decision)) :=
  match d with no_vote => V | _ => (b, d) :: V end.

(** A finalizer's votes, newest first, with the safety information after them.
    It starts without a vote of its own and with the safety information that
    the node provides as a default. *)
Inductive voting : list (vote_block * vote_decision) -> finalizer_safety_information -> Prop :=
| voting_start f : voting [] f
| voting_vote V f b r f' :
    voting V f -> in_tree b -> decide_vote f b = Ok (r, f') ->
    voting (record_vote b (decision r) V) f'.

(** Votes are cast in increasing time; a strong vote on [b] only follows votes
    on ancestors of [b] and votes that are not newer than the block [b]'s
    certificate is for. *)
Fixpoint no_conflict (V : list (vote_block * vote_decision)) : Prop :=
  match V with
  | [] => True
  | (b, d) :: V =>
      (d = strong_vote -> Forall (fun v => vb_timestamp v.1 <= qc_time b \/ ancestor (vb_id v.1) (vb_id b)) V) /\
      Forall (fun v => vb_timestamp v.1 < vb_timestamp b) V /\ no_conflict V
  end.

Record voting_inv (V : list (vote_block * vote_decision)) (f : finalizer_safety_information) : Prop := {
  vi_tree : Forall (fun v => in_tree v.1) V;
  vi_last : match V with [] => True | (b, _) :: _ => last_vote f = make_block_ref b end;
  vi_votes : match V with
             | [] => True
             | (b, _) :: V' => Forall (fun v =>
                 vb_timestamp v.1 <= other_branch_latest_time f \/ ancestor (vb_id v.1) (vb_id b) \/
                 vb_timestamp v.1 <= qc_time b) V'
             end;
  vi_conflict : no_conflict V
}.

(** Every vote is at most as new as the last one. *)
Lemma voting_inv_old V f :
  voting_inv V f -> Forall (fun v => vb_timestamp v.1 <= ref_timestamp (last_vote f)) V.
Proof.
  intros [_ Hl _ Hc]. destruct V as [|[b d] V]; [constructor|]. rewrite Hl.
  destruct Hc as (_ & Hts & _). constructor; [simpl; lia|].
  eapply Forall_impl; [exact Hts|]. intros v Hv. simpl in *. lia.
Qed.

(** A vote on a block that descends from the last one: where the earlier votes
    stand. *)
Lemma voting_inv_extend V f b :
  voting_inv V f -> in_tree b -> knows b (ref_block_id (last_vote f)) ->
  Forall (fun v => vb_timestamp v.1 <= other_branch_latest_time f \/ ancestor (vb_id v.1) (vb_id b) \/
                   vb_timestamp v.1 <= qc_time b) V.
Proof.
  intros [Ht Hl Hv _] Hb Hk. destruct V as [|[b0 d] V]; [constructor|]. rewrite Hl in Hk.
  cbn [make_block_ref ref_block_id] in Hk. apply (tree_knows b _ Hb) in Hk.
  apply Forall_cons_iff in Ht as [Hb0 Ht]. cbn [fst] in Hb0.
  pose proof (tree_qc_mono b0 b Hb0 Hb Hk). constructor; [auto|].
  eapply Forall_impl; [exact Hv|]. intros v [Ho|[Ha|Hq]]; cbn beta; [auto| |right; right; lia].
  right; left. by eapply ancestor_trans.
Qed.

Lemma voting_inv_step V f b qc d f' :
  voting_inv V f -> in_tree b -> latest_qc_block_reference b = Ok qc -> vote_step b qc f d f' ->
  voting_inv (record_vote b d V) f'.
Proof.
  intros Hi Hb Eqc Hs. assert (qc_time b = ref_timestamp qc) as Eq by (unfold qc_time; by rewrite Eqc).
  pose proof (voting_inv_old V f Hi) as Hold.
  inversion Hs as [Hno|d' lk other Hm Hl Hx Hkind]; subst; [done|].
  assert (Forall (fun v => vb_timestamp v.1 < vb_timestamp b) V) as Hts.
  { destruct Hm as [He|Hlt].
    - pose proof (vi_last _ _ Hi) as Hlast. destruct V as [|[b0 d0] V]; [constructor|].
      rewrite Hlast in He. pose proof (vi_tree _ _ Hi) as Ht. apply Forall_cons_iff in Ht as [Ht _].
      pose proof (tree_id b0 Ht). unfold ref_empty in He. cbn in He. congruence.
    - eapply Forall_impl; [exact Hold|]. intros v Hv. simpl in *. lia. }
  assert (match d with no_vote => False | _ => True end) as Hd by (by destruct Hkind).
  assert (Forall (fun v => vb_timestamp v.1 <= other \/ ancestor (vb_id v.1) (vb_id b) \/
                           vb_timestamp v.1 <= qc_time b) V /\
          (d = strong_vote -> Forall (fun v => vb_timestamp v.1 <= qc_time b \/
                                               ancestor (vb_id v.1) (vb_id b)) V)) as [Hv Hstrong].
  { destruct Hkind as [lk [Hle|[Hk Ho]] _|Hlt Hk Ho|Hlt Hk].
    - split; [|intros _]; (eapply Forall_impl; [exact Hold|]); intros v Hv; cbn beta in *; rewrite Eq; lia.
    - pose proof (voting_inv_extend V f b Hi Hb Hk) as He.
      split; [|intros _]; (eapply Forall_impl; [exact He|]); intros v Hv; cbn beta in *; rewrite Eq in *;
        destruct Hv as [?|[?|?]]; auto; try lia; right; lia.
    - split; [by apply voting_inv_extend|done].
    - split; [|done]. eapply Forall_impl; [exact Hold|]. intros v Hv. auto. }
  destruct d; [done|..]; (constructor; [constructor; [done|apply Hi]|done|exact Hv|]);
    (split; [done|split; [done|apply Hi]]).
Qed.

Lemma voting_invariant V f : voting V f -> voting_inv V f.
Proof.
  induction 1 as [f|V f b r f' _ IH Hb Hd]; [by constructor|].
  destruct (decide_vote_step b f (tree_votable b Hb)) as (qc & r1 & f1 & Eqc & E & Hs).
  rewrite Hd in E. apply Ok_inj in E as [= <- <-].
  exact (voting_inv_step V f b qc (decision r) f' IH Hb Eqc Hs).
Qed.
End Safety.

Lemma vote_step_lock {PK} (b : vote_block PK) qc f d f' :
  ref_empty (last_vote f) = false -> vote_step b qc f d f' ->
  ref_timestamp (lock f) <= ref_timestamp (lock f') /\
  ref_timestamp (last_vote f) <= ref_timestamp (last_vote f') /\
  (if bool_decide (d = strong_vote) then ref_timestamp qc <= ref_timestamp (lock f') else lock f' = lock f).
Proof.
  intros He Hs. inversion Hs as [|d' lk other Hm Hl Hx Hk]; subst.
  { split_and!; [lia|lia|]. by rewrite bool_decide_eq_false_2. }
  cbn [lock last_vote make_block_ref ref_timestamp]. destruct Hm as [Hm|Hm]; [congruence|].
  destruct Hk as [lk _ ->| |].
  - rewrite bool_decide_eq_true_2 by done.
    destruct (Z.ltb_spec (ref_timestamp (lock f)) (ref_timestamp qc)); split_and!; lia.
  - rewrite bool_decide_eq_false_2 by done. split_and!; done || lia.
  - rewrite bool_decide_eq_false_2 by done. split_and!; done || lia.
Qed.

(** C36. [decide_vote] implements the voting rule: on a block whose core meets
    the invariants it returns (no assertion fails), and decision, new lock, new
    last vote and new other-branch time are those of the rule [vote_step]. *)
Theorem decide_vote_correct {PK : Type} (b : vote_block PK) (f : finalizer_safety_information) :
  votable b -> exists qc r f', latest_qc_block_reference b = Ok qc /\
    decide_vote f b = Ok (r, f') /\ vote_step b qc f (decision r) f'.
Proof. apply decide_vote_step. Qed.

(** C3. Safety of strong votes: in any sequence of [decide_vote] calls, a
    strong vote on a block follows only votes on ancestors of the block and
    votes that are not newer than the block its latest certificate is for; and
    votes are cast in strictly increasing time. *)
Theorem strong_votes_never_conflict {PK : Type} `{BlockTree PK}
    (V V1 V2 : list (vote_block PK * vote_decision)) (f : finalizer_safety_information)
    (b v : vote_block PK) (d d' : vote_decision) :
  voting V f -> V = V1 ++ (b, d) :: V2 -> (v, d') ∈ V2 ->
  vb_timestamp v < vb_timestamp b /\
  (d = strong_vote -> vb_timestamp v <= qc_time b \/ ancestor (vb_id v) (vb_id b)).
Proof.
  intros Hv -> Hin. pose proof (vi_conflict _ _ (voting_invariant _ _ Hv)) as Hc. clear Hv.
  induction V1 as [|[b1 d1] V1 IH]; [|by apply IH, Hc]. destruct Hc as (Hs & Hts & _).
  split; [exact (proj1 (Forall_forall _ _) Hts _ Hin)|].
  intros Hd. exact (proj1 (Forall_forall _ _) (Hs Hd) _ Hin).
Qed.

(** The lock never goes back: [decide_vote] and [maybe_update_fsi] leave a
    lock at least as new as before; a strong vote leaves one at least as new as
    the block the voted block's certificate is for, any other outcome of
    [decide_vote] leaves the lock alone; and both only ever move the last vote
    forward. *)
Theorem lock_never_regresses {PK : Type} (b : vote_block PK) (f : finalizer_safety_information) :
  votable b -> ref_empty (last_vote f) = false ->
  exists r f' u f'', decide_vote f b = Ok (r, f') /\ maybe_update_fsi f b = Ok (u, f'') /\
    ref_timestamp (lock f) <= ref_timestamp (lock f') /\
    ref_timestamp (lock f) <= ref_timestamp (lock f'') /\
    ref_timestamp (last_vote f) <= ref_timestamp (last_vote f') /\
    ref_timestamp (last_vote f) <= ref_timestamp (last_vote f'') /\
    (if bool_decide (decision r = strong_vote) then qc_time b <= ref_timestamp (lock f') else lock f' = lock f).
Proof.
  intros Hb He. destruct (decide_vote_step b f Hb) as (qc & r & f' & Eqc & Ed & Hs).
  destruct (vote_step_lock b qc f _ f' He Hs) as (H1 & H2 & H3).
  assert (qc_time b = ref_timestamp qc) as -> by (unfold qc_time; by rewrite Eqc).
  exists r, f'. unfold maybe_update_fsi. rewrite Eqc, ret_bind.
  destruct (_ && _) eqn:Eu; eexists _, _; (split_and!; [done|done|done|..|exact H3]);
    cbn [lock last_vote make_block_ref ref_timestamp]; lia.
Qed.

(** ** A concrete tree *)

Definition sample_block (n : nat) : vote_block Z := {|
  vb_id := ref_block_id (sample_ref (5 + Z.of_nat n)); vb_timestamp := 5 + Z.of_nat n;
  vb_strong_digest := toy_digest (10 + 2 * Z.of_nat n); vb_core := sample_core n;
  vb_active_finalizer_policy := active_toy; vb_pending_finalizer_policy := None |}.

Lemma sample_votable : votable (sample_block 3) /\ votable (sample_block 4).
Proof.
  destruct sample_reachable as [H3 H4].
  split; constructor; [by eapply rf_inv, core_refines_reachable|vm_compute; discriminate
    |by eapply rf_inv, core_refines_reachable|vm_compute; discriminate].
Qed.

Lemma sample_block_values :
  num_from_id (vb_id (sample_block 3)) = 8 /\ num_from_id (vb_id (sample_block 4)) = 9 /\
  qc_time (sample_block 3) = 6 /\ qc_time (sample_block 4) = 8.
Proof.
  split; [vm_compute; reflexivity|]. split; [vm_compute; reflexivity|].
  split; vm_compute; reflexivity.
Qed.

(** Blocks 8 and 9 of the sample chain; on one branch the number decides. *)
#[global] Instance sample_tree : BlockTree Z.
Proof.
  refine {| in_tree b := b = sample_block 3 \/ b = sample_block 4;
            ancestor x y := num_from_id x < num_from_id y |}.
  - intros x y z ? ?. lia.
  - intros b [-> | ->]; apply sample_votable.
  - intros b [-> | ->]; vm_compute; reflexivity.
  - intros b id Hb Hk.
    assert (Forall (fun x => num_from_id x < num_from_id (vb_id b)) (ref_block_id <$> refs (vb_core b)))
      as Hall by (destruct Hb as [-> | ->]; refine (bool_decide_unpack _ _); vm_compute; reflexivity).
    exact (proj1 (Forall_forall _ _) Hall id Hk).
  - destruct sample_block_values as (N3 & N4 & T3 & T4).
    intros b b' [-> | ->] [-> | ->]; rewrite ?N3, ?N4, ?T3, ?T4; lia.
Defined.

Definition sample_fsi : finalizer_safety_information :=
  {| last_vote := block_ref_default; lock := sample_ref 5; other_branch_latest_time := 0 |}.

Lemma strong_votes_never_conflict_witness :
  exists f, voting [(sample_block 4, strong_vote); (sample_block 3, strong_vote)] f /\
    vb_timestamp (sample_block 3) < vb_timestamp (sample_block 4) /\
    (strong_vote = strong_vote -> vb_timestamp (sample_block 3) <= qc_time (sample_block 4) \/
       ancestor (vb_id (sample_block 3)) (vb_id (sample_block 4))).
Proof.
  assert (exists f, voting [(sample_block 4, strong_vote); (sample_block 3, strong_vote)] f) as [f Hf].
  { assert (exists r3 f3, decide_vote sample_fsi (sample_block 3) = Ok (r3, f3) /\ decision r3 = strong_vote /\
      exists r4 f4, decide_vote f3 (sample_block 4) = Ok (r4, f4) /\ decision r4 = strong_vote)
      as (r3 & f3 & E3 & D3 & r4 & f4 & E4 & D4).
    { eexists _, _. split; [vm_compute; reflexivity|]. split; [reflexivity|].
      eexists _, _. split; [vm_compute; reflexivity|reflexivity]. }
    exists f4. replace [(sample_block 4, strong_vote); (sample_block 3, strong_vote)]
      with (record_vote (sample_block 4) (decision r4) (record_vote (sample_block 3) (decision r3) []))
      by (by rewrite D3, D4).
    apply (voting_vote _ f3); [|by right|done]. apply (voting_vote _ sample_fsi); [constructor|by left|done]. }
  exists f. split; [exact Hf|].
  apply (strong_votes_never_conflict _ [] [(sample_block 3, strong_vote)] f _ _ strong_vote strong_vote Hf eq_refl).
  by apply list_elem_of_singleton.
Defined.

Lemma decide_vote_correct_witness :
  exists qc r f', latest_qc_block_reference (sample_block 3) = Ok qc /\
    decide_vote sample_fsi (sample_block 3) = Ok (r, f') /\
    vote_step (sample_block 3) qc sample_fsi (decision r) f'.
Proof. apply (decide_vote_correct (sample_block 3) sample_fsi), sample_votable. Defined.

Lemma lock_never_regresses_witness :
  let f := {| last_vote := sample_ref 7; lock := sample_ref 5; other_branch_latest_time := 0 |} in
  exists r f' u f'', decide_vote f (sample_block 3) = Ok (r, f') /\
    maybe_update_fsi f (sample_block 3) = Ok (u, f'') /\
    ref_timestamp (lock f) <= ref_timestamp (lock f') /\
    ref_timestamp (lock f) <= ref_timestamp (lock f'').
Proof.
  destruct (lock_never_regresses (sample_block 3)
    {| last_vote := sample_ref 7; lock := sample_ref 5; other_branch_latest_time := 0 |})
    as (r & f' & u & f'' & H1 & H2 & H3 & H4 & _); [apply sample_votable|vm_compute; reflexivity|].
  exists r, f', u, f''. split; [exact H1|]. split; [exact H2|]. split; [exact H3|exact H4].
Defined.
