(* ===== verification/SafetyFile.v ===== *)
(** [my_finalizers_t] (chain/finality/finalizer.hpp and finalizer.cpp): the
    finalizers configured on a node and the safety file that must be durable
    before a vote leaves the node.

    The safety file is its content, or [None] when it does not exist.  Writing
    it is [durable_file::replace] (chain/durable_file.hpp), which stages the new
    content beside the file and renames it over the file: on success the new
    content is in place; a failure comes before the rename (the old content
    stays) or after it, in the directory sync (the new content is there).  The
    checksum (boost::crc_32_type) and [bls_private_key::sign] are parameters,
    and so is the byte format of a public key (class [Packable]).  The reader's
    file handle is not modelled: loading happens once, at startup. *)
From Stdlib Require Import ZArith Lia ZifyBool.
From stdpp Require Import base tactics numbers list.
From S2P Require Import Prelude Digest Raw Merkle FinalityCore OrderedDiff FinalizerPolicy Qc AggregatingQc Finalizer.
#[local] Open Scope Z_scope.

(** ** std::map as its entries in key order *)

Section StdMap.
Context {K V : Type} `{EqDecision K} (key_ltb : K -> K -> bool).

Fixpoint map_lookup (k : K) (m : list (K * V)) : option V :=
  match m with
  | [] => None
  | (k', v) :: m => if bool_decide (k = k') then Some v else map_lookup k m
  end.

(** The position of a new key. *)
Fixpoint map_place (k : K) (v : V) (m : list (K * V)) : list (K * V) :=
  match m with
  | [] => [(k, v)]
  | (k', v') :: m' => if key_ltb k k' then (k, v) :: m else (k', v') :: map_place k v m'
  end.

(** [emplace]: nothing happens when the key is there. *)
Definition map_emplace (k : K) (v : V) (m : list (K * V)) : list (K * V) :=
  match map_lookup k m with Some _ => m | None => map_place k v m end.

(** [m[k] = v]. *)
Definition map_assign (k : K) (v : V) (m : list (K * V)) : list (K * V) :=
  match map_lookup k m with
  | Some _ => (fun x => if bool_decide (x.1 = k) then (k, v) else x) <$> m
  | None => map_place k v m
  end.

Definition map_erase (k : K) (m : list (K * V)) : list (K * V) :=
  filter (fun x => x.1 <> k) m.

Lemma map_lookup_place k k' v m :
  map_lookup k m = None ->
  map_lookup k' (map_place k v m) = if bool_decide (k' = k) then Some v else map_lookup k' m.
Proof.
  induction m as [|[k1 v1] m IH]; intros Hn; [done|]. simpl in Hn.
  destruct (bool_decide (k = k1)) eqn:E1; [done|]. apply bool_decide_eq_false in E1.
  cbn [map_place]. destruct (key_ltb k k1); [done|]. cbn [map_lookup]. rewrite IH by done.
  repeat case_bool_decide; congruence.
Qed.

Lemma map_lookup_emplace k k' v m :
  map_lookup k' (map_emplace k v m) =
  match map_lookup k' m with
  | Some x => Some x
  | None => if bool_decide (k' = k) then Some v else None
  end.
Proof.
  unfold map_emplace. destruct (map_lookup k m) as [x|] eqn:E.
  - destruct (map_lookup k' m) eqn:E'; [done|]. case_bool_decide; congruence.
  - rewrite map_lookup_place by done. case_bool_decide as Hk; [subst; by rewrite E|].
    by destruct (map_lookup k' m).
Qed.
End StdMap.

(** ** File format *)

Definition fsi_magic : Z := 0x5AFE11115AFE1111.
Definition safety_file_version_0 : Z := 0.
Definition safety_file_version_1 : Z := 1.
Definition current_safety_file_version : Z := safety_file_version_1.

(** [pack_v0], [unpack_v0]: a reference without its generations. *)
Definition pack_v0 (r : block_ref) : result (list Z) := pack (ref_for_digest r).
Definition ref_of_v0 (x : sha256 * (uint 4 * sha256)) : block_ref := {|
  ref_block_id := x.1; ref_timestamp := uint_value x.2.1; ref_finality_digest := x.2.2;
  ref_active_policy_generation := 0; ref_pending_policy_generation := 0 |}.
Definition unpack_v0 (s : list Z) : result (block_ref * list Z) :=
  '(x, s) ← unpack s; mret (ref_of_v0 x, s).

Definition pack_v1 (f : finalizer_safety_information) : result (list Z) :=
  a ← pack_v0 (last_vote f); b ← pack_v0 (lock f); c ← pack_u32 (other_branch_latest_time f);
  mret (a ++ b ++ c).
Definition unpack_v1 (s : list Z) : result (finalizer_safety_information * list Z) :=
  '(v, s) ← unpack_v0 s; '(l, s) ← unpack_v0 s; '(t, s) ← unpack_uint 4 s;
  mret ({| last_vote := v; lock := l; other_branch_latest_time := t |}, s).

(** How [durable_file::replace] ends: done, or an exception before or after the
    rename. *)
Inductive write_outcome : Type :=
| write_done
| write_failed (renamed : bool).

Definition durable_replace (bytes : list Z) (file : option (list Z)) (io : write_outcome)
    : bool * option (list Z) :=
  match io with
  | write_done => (true, Some bytes)
  | write_failed renamed => (false, if renamed then Some bytes else file)
  end.

Section MyFinalizers.
Context {PK SIG APK SK : Type} `{EqDecision PK} `{Bls PK SIG APK} `{Packable PK}.
Variable key_ltb : PK -> PK -> bool.              (* std::less<bls_public_key> *)
Variable sign : SK -> list Z -> result SIG.
Variable crc : list Z -> Z.                       (* crc_32_type::checksum *)
Abbreviation fsi_map := (list (PK * finalizer_safety_information)).
Abbreviation finalizer := (finalizer SK).
Abbreviation vote_block := (vote_block PK).

Record my_finalizers_t : Type := {
  has_path : bool;                                (* persist_file_path is not empty *)
  mf_has_voted : bool;
  finalizers : list (PK * finalizer);
  inactive_safety_info : fsi_map;
  default_fsi : finalizer_safety_information;
  safety_write_failed : bool
}.

Definition my_finalizers_init (path : bool) : my_finalizers_t :=
  {| has_path := path; mf_has_voted := false; finalizers := []; inactive_safety_info := [];
     default_fsi := unset_fsi; safety_write_failed := false |}.

Definition with_finalizers (st : my_finalizers_t) (fs : list (PK * finalizer)) : my_finalizers_t :=
  {| has_path := has_path st; mf_has_voted := mf_has_voted st; finalizers := fs;
     inactive_safety_info := inactive_safety_info st; default_fsi := default_fsi st;
     safety_write_failed := safety_write_failed st |}.

Fixpoint pack_fsi_entries (m : fsi_map) : result (list Z) :=
  match m with
  | [] => mret []
  | (k, f) :: m => a ← pack k; b ← pack_v1 f; c ← pack_fsi_entries m; mret (a ++ b ++ c)
  end.

(** The safety information of the configured finalizers. *)
Definition active_safety_info (st : my_finalizers_t) : fsi_map :=
  (fun x => (x.1, fsi x.2)) <$> finalizers st.

(** What the writer of [save_finalizer_safety_info] produces. *)
Definition safety_file_bytes (st : my_finalizers_t) : result (list Z) :=
  m ← pack_u64 fsi_magic;
  v ← pack_u64 current_safety_file_version;
  n ← pack_u64 (u64 (vsize (finalizers st) + vsize (inactive_safety_info st)));
  i ← pack_fsi_entries (inactive_safety_info st);
  a ← pack_fsi_entries (active_safety_info st);
  let body := m ++ v ++ n ++ i ++ a in
  cs ← pack_u32 (crc body);
  mret (body ++ cs).

Definition save_finalizer_safety_info (st : my_finalizers_t) (file : option (list Z)) (io : write_outcome)
    : bool * my_finalizers_t * option (list Z) :=
  if safety_write_failed st then (false, st, file)
  else
    let failed := {| has_path := has_path st; mf_has_voted := mf_has_voted st; finalizers := finalizers st;
                     inactive_safety_info := inactive_safety_info st; default_fsi := default_fsi st;
                     safety_write_failed := true |} in
    match (EOS_ASSERT (has_path st) finalizer_safety_exception;; safety_file_bytes st) with
    | Ok bytes =>
        let '(written, file) := durable_replace bytes file io in
        (written, if written then st else failed, file)
    | Err _ => (false, failed, file)
    end.

(** ** Loading *)

Fixpoint load_v0 (n : nat) (s : list Z) (res : fsi_map) : result (fsi_map * list Z) :=
  match n with
  | O => mret (res, s)
  | S n =>
      '(k, s) ← unpack s;
      '(v, s) ← unpack_v0 s;
      '(l, s) ← unpack_v0 s;
      '(forked, s) ← unpack_bool s;
      load_v0 n s (map_emplace key_ltb k
        {| last_vote := v; lock := l;
           other_branch_latest_time := if (forked : bool) then ref_timestamp v else 0 |} res)
  end.
Definition load_finalizer_safety_info_v0 (s : list Z) : result (fsi_map * list Z) :=
  '(n, s) ← unpack_uint 8 s; load_v0 (Z.to_nat n) s [].

Fixpoint load_v1 (n : nat) (s : list Z) (res : fsi_map) : result (fsi_map * list Z) :=
  match n with
  | O => mret (res, s)
  | S n => '(k, s) ← unpack s; '(f, s) ← unpack_v1 s; load_v1 n s (map_emplace key_ltb k f res)
  end.
Definition load_finalizer_safety_info_v1 (s : list Z) : result (fsi_map * list Z) :=
  '(n, s) ← unpack_uint 8 s; load_v1 (Z.to_nat n) s [].

(** The checksum covers everything read before it. *)
Definition load_finalizer_safety_info (path : bool) (file : option (list Z)) : result fsi_map :=
  EOS_ASSERT path finalizer_safety_exception;;
  match file with
  | None => mret []
  | Some content =>
      '(magic, s) ← unpack_uint 8 content;
      EOS_ASSERT (magic =? fsi_magic) finalizer_safety_exception;;
      '(file_version, s) ← unpack_uint 8 s;
      EOS_ASSERT (file_version <=? current_safety_file_version) finalizer_safety_exception;;
      if file_version =? safety_file_version_0 then
        '(res, _) ← load_finalizer_safety_info_v0 s; mret res
      else if file_version =? safety_file_version_1 then
        '(res, s) ← load_finalizer_safety_info_v1 s;
        let calculated_checksum := crc (take (length content - length s) content) in
        '(cs, _) ← unpack_uint 4 s;
        EOS_ASSERT (cs =? calculated_checksum) finalizer_safety_exception;;
        mret res
      else Err finalizer_safety_exception
  end.

(** ** Configuration *)

(** The keys are those of [bls_public_key{pub_key_str}] and
    [bls_private_key{priv_key_str}]. *)
Definition set_keys (st : my_finalizers_t) (file : option (list Z)) (finalizer_keys : list (PK * SK))
    : result my_finalizers_t :=
  if is_empty finalizer_keys then mret st
  else
    c_assert (is_empty (finalizers st));;
    safety_info ← load_finalizer_safety_info (has_path st) file;
    let fs := foldl (fun fs x => map_assign key_ltb x.1
                {| priv_key := x.2; fsi := default (default_fsi st) (map_lookup x.1 safety_info) |} fs)
                (finalizers st) finalizer_keys in
    let inactive := foldl (fun m x => map_erase x.1 m) safety_info finalizer_keys in
    mret {| has_path := has_path st; mf_has_voted := mf_has_voted st; finalizers := fs;
            inactive_safety_info := inactive; default_fsi := default_fsi st;
            safety_write_failed := safety_write_failed st |}.

Definition set_default_safety_information (st : my_finalizers_t) (f : finalizer_safety_information)
    : my_finalizers_t :=
  {| has_path := has_path st; mf_has_voted := mf_has_voted st;
     finalizers := (fun x => if negb (ref_empty (last_vote (fsi x.2))) || negb (ref_empty (lock (fsi x.2)))
                             then x else (x.1, {| priv_key := priv_key x.2; fsi := f |})) <$> finalizers st;
     inactive_safety_info := inactive_safety_info st; default_fsi := f;
     safety_write_failed := safety_write_failed st |}.

(** ** Voting *)

(** The votes are those handed to [process_vote]. *)
Definition maybe_vote (st : my_finalizers_t) (file : option (list Z)) (io : write_outcome) (b : vote_block)
    : result (list (vote_t (PK := PK) (SIG := SIG)) * my_finalizers_t * option (list Z)) :=
  if is_empty (finalizers st) then mret ([], st, file)
  else if safety_write_failed st then mret ([], st, file)
  else
    '(votes, fs) ← vote_loop sign b (finalizers st);
    let st := with_finalizers st fs in
    if negb (is_empty votes) then
      let st := {| has_path := has_path st; mf_has_voted := true; finalizers := finalizers st;
                   inactive_safety_info := inactive_safety_info st; default_fsi := default_fsi st;
                   safety_write_failed := safety_write_failed st |} in
      let '(saved, st, file) := save_finalizer_safety_info st file io in
      mret (if saved : bool then votes else [], st, file)
    else mret ([], st, file).

Definition my_maybe_update_fsi (st : my_finalizers_t) (file : option (list Z)) (io : write_outcome)
    (b : vote_block) (received_qc : qc_t SIG) : result (my_finalizers_t * option (list Z)) :=
  if is_empty (finalizers st) then mret (st, file)
  else if mf_has_voted st then mret (st, file)
  else
    EOS_ASSERT (match vb_pending_finalizer_policy b with
                | None => true
                | Some _ => match qc_pending_policy_sig received_qc with Some _ => true | None => false end
                end) invalid_qc_claim;;
    '(updated, fs) ← update_loop b received_qc (finalizers st);
    let st := with_finalizers st fs in
    if (updated : bool) then
      let '(_, st, file) := save_finalizer_safety_info st file io in mret (st, file)
    else mret (st, file).

(** ** Round trip *)

(** What the file keeps of a safety record. *)
Definition fsi_saved (f : finalizer_safety_information) : finalizer_safety_information :=
  {| last_vote := ref_of_v0 (ref_for_digest (last_vote f)); lock := ref_of_v0 (ref_for_digest (lock f));
     other_branch_latest_time := other_branch_latest_time f |}.

Definition fsi_fits (f : finalizer_safety_information) : Prop :=
  fits (last_vote f) /\ fits (lock f) /\ is_u32 (other_branch_latest_time f).

Lemma unpack_pack_v0 r bs rest :
  fits r -> pack_v0 r = Ok bs -> unpack_v0 (bs ++ rest) = Ok (ref_of_v0 (ref_for_digest r), rest).
Proof.
  intros (H1 & H2 & H3 & _) Hp. unfold unpack_v0.
  assert (fits (ref_for_digest r)) as Hf by (split; [exact H1|split; [exact H2|exact H3]]).
  by rewrite (unpack_pack (ref_for_digest r) bs rest Hf Hp).
Qed.

Lemma unpack_pack_v1 f bs rest :
  fsi_fits f -> pack_v1 f = Ok bs -> unpack_v1 (bs ++ rest) = Ok (fsi_saved f, rest).
Proof.
  intros (Hv & Hl & Ht) Hp. unfold pack_v1 in Hp.
  apply bind_Ok in Hp as (a & Ea & Hp). apply bind_Ok in Hp as (b & Eb & Hp).
  apply bind_Ok in Hp as (c & Ec & Hp). apply Ok_inj in Hp as <-.
  unfold unpack_v1. rewrite <- !app_assoc.
  rewrite (unpack_pack_v0 _ a _ Hv Ea), ret_bind, (unpack_pack_v0 _ b _ Hl Eb), ret_bind.
  by rewrite (unpack_pack_uint 4 _ c rest Ht Ec).
Qed.

Context `{!PackLaws PK}.

Definition entries_fit (m : fsi_map) : Prop := Forall (fun x => fits x.1 /\ fsi_fits x.2) m.

(** The map that results from emplacing entries in order. *)
Definition emplace_all (m res : fsi_map) : fsi_map :=
  foldl (fun res x => map_emplace key_ltb x.1 (fsi_saved x.2) res) res m.

Lemma load_v1_pack m res bs rest :
  entries_fit m -> pack_fsi_entries m = Ok bs ->
  load_v1 (length m) (bs ++ rest) res = Ok (emplace_all m res, rest).
Proof.
  revert res bs; induction m as [|[k f] m IH]; intros res bs Hf Hp; cbn [pack_fsi_entries] in Hp.
  - by apply Ok_inj in Hp as <-.
  - apply Forall_cons_iff in Hf as [[Hk Hff] Hm].
    apply bind_Ok in Hp as (a & Ea & Hp). apply bind_Ok in Hp as (b & Eb & Hp).
    apply bind_Ok in Hp as (c & Ec & Hp). apply Ok_inj in Hp as <-.
    cbn [length load_v1]. rewrite <- !app_assoc.
    rewrite (unpack_pack k a _ Hk Ea), ret_bind, (unpack_pack_v1 f b _ Hff Eb), ret_bind. by apply IH.
Qed.

Lemma emplace_all_lookup m res k :
  map_lookup k (emplace_all m res) =
  match map_lookup k res with Some x => Some x | None => fsi_saved <$> map_lookup k m end.
Proof.
  revert res; induction m as [|[k1 f1] m IH]; intros res; simpl; [by destruct (map_lookup k res)|].
  fold (emplace_all m). rewrite IH, map_lookup_emplace. cbn [fst snd].
  destruct (map_lookup k res); [done|]. by case_bool_decide.
Qed.

Lemma pack_fsi_entries_app m1 m2 b1 b2 :
  pack_fsi_entries m1 = Ok b1 -> pack_fsi_entries m2 = Ok b2 -> pack_fsi_entries (m1 ++ m2) = Ok (b1 ++ b2).
Proof.
  revert b1; induction m1 as [|[k f] m1 IH]; intros b1 H1 H2; cbn [pack_fsi_entries app] in *.
  - by apply Ok_inj in H1 as <-.
  - apply bind_Ok in H1 as (a & -> & H1). apply bind_Ok in H1 as (b & -> & H1).
    apply bind_Ok in H1 as (c & Ec & H1). apply Ok_inj in H1 as <-.
    rewrite !ret_bind, (IH c Ec H2), ret_bind, <- !app_assoc. done.
Qed.

(** All the records of a node, in file order. *)
Definition all_safety_info (st : my_finalizers_t) : fsi_map := inactive_safety_info st ++ active_safety_info st.

Lemma all_safety_info_count st :
  vsize (finalizers st) + vsize (inactive_safety_info st) = vsize (all_safety_info st).
Proof. unfold all_safety_info, active_safety_info, vsize. rewrite length_app, length_fmap. lia. Qed.

Lemma load_saved st bytes :
  entries_fit (all_safety_info st) -> vsize (all_safety_info st) < 2 ^ 64 ->
  (forall bs, is_u32 (crc bs)) -> safety_file_bytes st = Ok bytes ->
  load_finalizer_safety_info true (Some bytes) = Ok (emplace_all (all_safety_info st) []).
Proof.
  intros Hf Hn Hcrc Hb. unfold safety_file_bytes in Hb.
  apply bind_Ok in Hb as (m & Em & Hb). apply bind_Ok in Hb as (v & Ev & Hb).
  apply bind_Ok in Hb as (n & En & Hb). apply bind_Ok in Hb as (i & Ei & Hb).
  apply bind_Ok in Hb as (a & Ea & Hb). apply bind_Ok in Hb as (cs & Ecs & Hb). apply Ok_inj in Hb.
  pose proof (pack_fsi_entries_app _ _ _ _ Ei Ea) as Eia.
  rewrite all_safety_info_count, u64_small in En by (unfold vsize in *; lia).
  assert (0 <= vsize (all_safety_info st) < 2 ^ 64) as Hn' by (unfold vsize in *; lia).
  unfold load_finalizer_safety_info. rewrite EOS_ASSERT_true, ret_bind by done.
  assert (bytes = m ++ v ++ n ++ (i ++ a) ++ cs) as Eb by (subst bytes; by rewrite <- !app_assoc).
  rewrite Eb, (unpack_pack_uint 8 fsi_magic m _ ltac:(vm_compute; split; congruence) Em). rewrite ret_bind.
  rewrite EOS_ASSERT_true, ret_bind by done.
  rewrite (unpack_pack_uint 8 current_safety_file_version v _ ltac:(vm_compute; split; congruence) Ev). rewrite ret_bind.
  rewrite EOS_ASSERT_true, ret_bind by done. cbn [Z.eqb safety_file_version_0 safety_file_version_1
    current_safety_file_version Pos.eqb].
  unfold load_finalizer_safety_info_v1.
  rewrite (unpack_pack_uint 8 _ n _ Hn' En). rewrite ret_bind.
  unfold vsize at 1. rewrite Nat2Z.id, (load_v1_pack _ [] _ cs Hf Eia), ret_bind.
  pose proof (unpack_pack_uint 4 _ cs [] (Hcrc _) Ecs) as Hcs. rewrite app_nil_r in Hcs. rewrite Hcs, ret_bind.
  rewrite EOS_ASSERT_true; [done|]. apply Z.eqb_eq. f_equal. rewrite <- Eb, <- Hb.
  rewrite length_app, Nat.add_sub. by rewrite take_app_length.
Qed.
End MyFinalizers.

Arguments my_finalizers_t PK SK : clear implicits.
