(* ===== verification/SafetyRuns.v ===== *)
(** Runs of a node's finalizers across votes, failed writes, crashes and
    restarts.  A node is the state of [my_finalizers_t], the safety file and a
    log of the votes it has handed out (key and block time, newest first); a
    step is one call of the operations of SafetyFile.v, or a restart, which
    forgets the memory and loads the file.

    The theorem: whatever the run, the safety file remembers every vote that
    was handed out, and no key ever hands out two votes for the same time or
    goes back in time. *)
From Stdlib Require Import ZArith Lia ZifyBool.
From stdpp Require Import base tactics numbers list.
From S2P Require Import Prelude Digest Raw Merkle FinalityCore OrderedDiff FinalizerPolicy Qc AggregatingQc Finalizer SafetyFile.
#[local] Open Scope Z_scope.

(** ** Lookups in entry lists *)

Section Lookups.
Context {K V : Type} `{EqDecision K}.

Lemma map_lookup_app (k : K) (m m' : list (K * V)) :
  map_lookup k (m ++ m') = match map_lookup k m with Some v => Some v | None => map_lookup k m' end.
Proof. induction m as [|[k1 v1] m IH]; simpl; [done|]. by case_bool_decide. Qed.

Lemma map_lookup_fmap {W} (g : V -> W) (k : K) (m : list (K * V)) :
  map_lookup k ((fun x => (x.1, g x.2)) <$> m) = g <$> map_lookup k m.
Proof. induction m as [|[k1 v1] m IH]; simpl; [done|]. by case_bool_decide. Qed.

Lemma map_lookup_elem k v (m : list (K * V)) : map_lookup k m = Some v -> (k, v) ∈ m.
Proof.
  induction m as [|[k1 v1] m IH]; simpl; [done|]. case_bool_decide as E.
  - intros [= ->]. subst. constructor.
  - intros H. constructor. by apply IH.
Qed.

Lemma map_lookup_None k (m : list (K * V)) : map_lookup k m = None <-> k ∉ m.*1.
Proof.
  induction m as [|[k1 v1] m IH]; simpl; [split; [intros _ H; by apply not_elem_of_nil in H|done]|].
  case_bool_decide as E.
  - split; [done|]. intros Hn. destruct Hn. subst. constructor.
  - rewrite IH, not_elem_of_cons. naive_solver.
Qed.

Lemma map_lookup_erase k k' (m : list (K * V)) :
  map_lookup k' (map_erase k m) = if bool_decide (k' = k) then None else map_lookup k' m.
Proof.
  unfold map_erase. induction m as [|[k1 v1] m IH]; [by case_bool_decide|].
  destruct (decide (k1 = k)) as [->|E].
  - rewrite filter_cons_False by (cbn; congruence). rewrite IH. cbn [map_lookup].
    repeat case_bool_decide; congruence.
  - rewrite filter_cons_True by done. cbn [map_lookup]. rewrite IH. repeat case_bool_decide; congruence.
Qed.

Lemma map_erase_Forall P k (m : list (K * V)) : Forall P m -> Forall P (map_erase k m).
Proof. intros H. unfold map_erase. rewrite Forall_forall in *. intros x Hx. apply list_elem_of_filter in Hx. naive_solver. Qed.

Lemma map_lookup_overwrite k k' v (m : list (K * V)) :
  map_lookup k' ((fun x => if bool_decide (x.1 = k) then (k, v) else x) <$> m) =
  if bool_decide (k' = k) then (fun _ => v) <$> map_lookup k m else map_lookup k' m.
Proof.
  induction m as [|[k1 v1] m IH]; [by case_bool_decide|]. rewrite fmap_cons. cbn [fst map_lookup].
  destruct (decide (k1 = k)) as [->|Hne].
  - rewrite !(bool_decide_eq_true_2 (k = k)) by done. cbn [map_lookup]. rewrite IH.
    by repeat case_bool_decide.
  - rewrite (bool_decide_eq_false_2 (k1 = k)), (bool_decide_eq_false_2 (k = k1)) by congruence.
    cbn [map_lookup]. rewrite IH. repeat case_bool_decide; congruence.
Qed.

Variable key_ltb : K -> K -> bool.

Lemma map_place_keys k v (m : list (K * V)) : (map_place key_ltb k v m).*1 ≡ₚ k :: m.*1.
Proof.
  induction m as [|[k1 v1] m IH]; simpl; [done|]. destruct (key_ltb k k1); simpl; [done|].
  rewrite IH. apply perm_swap.
Qed.

Lemma map_place_Forall P k v (m : list (K * V)) : P (k, v) -> Forall P m -> Forall P (map_place key_ltb k v m).
Proof.
  intros Hk. induction 1 as [|[k1 v1] m H1 Hm IH]; simpl; [by constructor|].
  destruct (key_ltb k k1); repeat (constructor; [done|]); done.
Qed.

Lemma map_emplace_Forall P k v (m : list (K * V)) : P (k, v) -> Forall P m -> Forall P (map_emplace key_ltb k v m).
Proof. intros. unfold map_emplace. destruct (map_lookup k m); [done|by apply map_place_Forall]. Qed.

Lemma map_assign_Forall P k v (m : list (K * V)) : P (k, v) -> Forall P m -> Forall P (map_assign key_ltb k v m).
Proof.
  intros Hk Hm. unfold map_assign. destruct (map_lookup k m); [|by apply map_place_Forall].
  apply Forall_fmap. eapply Forall_impl; [exact Hm|]. intros x Hx. simpl. by case_bool_decide.
Qed.

Lemma map_assign_NoDup k v (m : list (K * V)) : NoDup m.*1 -> NoDup (map_assign key_ltb k v m).*1.
Proof.
  intros Hd. unfold map_assign. destruct (map_lookup k m) eqn:E.
  - rewrite <- list_fmap_compose. erewrite list_fmap_ext; [exact Hd|].
    intros i [k1 v1] _. simpl. by case_bool_decide.
  - rewrite map_place_keys. constructor; [by apply map_lookup_None|done].
Qed.

Lemma map_lookup_assign k k' v (m : list (K * V)) :
  map_lookup k' (map_assign key_ltb k v m) = if bool_decide (k' = k) then Some v else map_lookup k' m.
Proof.
  unfold map_assign. destruct (map_lookup k m) as [w|] eqn:E; [|by apply map_lookup_place].
  by rewrite map_lookup_overwrite, E.
Qed.
End Lookups.

(** ** Nodes and their steps *)

Section Runs.
Context {PK SIG APK SK : Type} `{EqDecision PK} `{Bls PK SIG APK} `{Packable PK} `{!PackLaws PK}.
Variable key_ltb : PK -> PK -> bool.
Variable sign : SK -> list Z -> result SIG.
Variable crc : list Z -> Z.
Abbreviation vote_block := (vote_block PK).
Abbreviation my_finalizers_t := (my_finalizers_t PK SK).
Abbreviation fsi_map := (list (PK * finalizer_safety_information)).
Abbreviation log_t := (list (PK * Z)).

Record node : Type := { nd_state : my_finalizers_t; nd_file : option (list Z); nd_log : log_t }.

(** The blocks offered for a vote: votable, with an id, members in range. *)
Record block_ok (b : vote_block) : Prop := {
  bo_votable : votable b;
  bo_id : sha256_empty (vb_id b) = false;
  bo_ref : fits (make_block_ref b);
  bo_refs : Forall fits (refs (vb_core b))
}.

Definition vote_key (v : vote_t (PK := PK) (SIG := SIG)) : PK := vm_finalizer_key v.1.1.

(** [restart]: the process is gone at any point, and a new one is configured
    with some keys and loads the file. *)
Inductive node_step : node -> node -> Prop :=
| node_vote n b io votes st file :
    block_ok b -> maybe_vote sign crc (nd_state n) (nd_file n) io b = Ok (votes, st, file) ->
    node_step n {| nd_state := st; nd_file := file;
                   nd_log := ((fun v => (vote_key v, vb_timestamp b)) <$> votes) ++ nd_log n |}
| node_update n b (q : qc_t SIG) io st file :
    block_ok b -> my_maybe_update_fsi crc (nd_state n) (nd_file n) io b q = Ok (st, file) ->
    node_step n {| nd_state := st; nd_file := file; nd_log := nd_log n |}
| node_default n f :
    fsi_fits f ->
    node_step n {| nd_state := set_default_safety_information (nd_state n) f; nd_file := nd_file n;
                   nd_log := nd_log n |}
| node_restart n keys st :
    Forall (fun x => fits x.1) keys ->
    set_keys key_ltb crc (my_finalizers_init true) (nd_file n) keys = Ok st ->
    vsize (all_safety_info st) < 2 ^ 64 ->
    node_step n {| nd_state := st; nd_file := nd_file n; nd_log := nd_log n |}.

Definition node_start : node :=
  {| nd_state := my_finalizers_init true; nd_file := None; nd_log := [] |}.

Inductive node_run : node -> Prop :=
| run_start : node_run node_start
| run_step n n' : node_run n -> node_step n n' -> node_run n'.

(** ** The invariant *)

(** The record remembers a vote at time [t]. *)
Definition remembers (f : finalizer_safety_information) (t : Z) : Prop :=
  ref_empty (last_vote f) = false /\ t <= ref_timestamp (last_vote f).

Definition covers (m : fsi_map) (log : log_t) : Prop :=
  forall k t, (k, t) ∈ log -> exists f, map_lookup k m = Some f /\ remembers f t.

(** For every key the log goes strictly forward in time. *)
Fixpoint log_ordered (log : log_t) : Prop :=
  match log with
  | [] => True
  | (k, t) :: log => (forall t', (k, t') ∈ log -> t' < t) /\ log_ordered log
  end.

Definition file_ok (file : option (list Z)) (log : log_t) : Prop :=
  match file with
  | None => log = []
  | Some _ => exists m, load_finalizer_safety_info key_ltb crc true file = Ok m /\
                        entries_fit m /\ covers m log
  end.

Record records_ok (st : my_finalizers_t) : Prop := {
  ro_keys : NoDup (finalizers st).*1;
  ro_disjoint : forall k, k ∈ (finalizers st).*1 -> map_lookup k (inactive_safety_info st) = None;
  ro_fit : entries_fit (all_safety_info st);
  ro_size : vsize (all_safety_info st) < 2 ^ 64;
  ro_default : fsi_fits (default_fsi st)
}.

Record node_inv (n : node) : Prop := {
  ni_records : records_ok (nd_state n);
  ni_log : finalizers (nd_state n) = [] \/ covers (all_safety_info (nd_state n)) (nd_log n);
  ni_file : file_ok (nd_file n) (nd_log n);
  ni_ordered : log_ordered (nd_log n)
}.

(** What an operation may do to a record: nothing, or move it to [b]. *)
Definition moved_to (b : vote_block) (f f' : finalizer_safety_information) : Prop :=
  last_vote f' = make_block_ref b /\
  (ref_empty (last_vote f) = true \/ ref_timestamp (last_vote f) < vb_timestamp b) /\
  (lock f' = lock f \/ lock f' ∈ refs (vb_core b)) /\
  (other_branch_latest_time f' = 0 \/ other_branch_latest_time f' = other_branch_latest_time f \/
   other_branch_latest_time f' = ref_timestamp (last_vote f)).

Definition advances (b : vote_block) (x y : PK * finalizer SK) : Prop :=
  x.1 = y.1 /\ (fsi y.2 = fsi x.2 \/ moved_to b (fsi x.2) (fsi y.2)).

Lemma moved_to_fits b f f' : block_ok b -> fsi_fits f -> moved_to b f f' -> fsi_fits f'.
Proof.
  intros Hb (Hv & Hl & Ho) (E1 & _ & H2 & H3). split_and!.
  - rewrite E1. apply Hb.
  - destruct H2 as [-> | Hin]; [done|]. pose proof (bo_refs _ Hb) as Hf. rewrite Forall_forall in Hf. auto.
  - destruct Hv as (_ & Ht & _). destruct H3 as [-> | [-> | ->]]; [split; lia|done|exact Ht].
Qed.

Lemma moved_to_remembers b f f' t : block_ok b -> moved_to b f f' -> remembers f t -> remembers f' t.
Proof.
  intros Hb (E1 & H1 & _) [Hr Ht]. unfold remembers. rewrite E1. cbn [make_block_ref ref_timestamp].
  split; [apply Hb|]. destruct H1; [congruence|lia].
Qed.

Lemma vote_step_moved b qc f d f' :
  vote_step b qc f d f' -> qc ∈ refs (vb_core b) ->
  match d with no_vote => f' = f | _ => moved_to b f f' end.
Proof.
  intros Hs Hqc. inversion Hs as [|d' lk other Hm _ _ Hk]; subst; [done|].
  destruct Hk as [lk _ ->| |]; (split_and!; [done|done|cbn [lock]|cbn [other_branch_latest_time]; auto]).
  - destruct (_ <? _); auto.
  - auto.
  - auto.
Qed.

Lemma decide_vote_moved b f r f' :
  votable b -> decide_vote f b = Ok (r, f') ->
  match decision r with no_vote => f' = f | _ => moved_to b f f' end.
Proof.
  intros Hb Hd. destruct (decide_vote_step b f Hb) as (qc & r1 & f1 & Eqc & E & Hs).
  rewrite Hd in E. apply Ok_inj in E as [= <- <-]. eapply vote_step_moved; [exact Hs|].
  destruct (latest_qc_block b Hb) as (qc' & E' & _ & Hin). rewrite Eqc in E'. by apply Ok_inj in E' as <-.
Qed.

Lemma maybe_update_moved b f u f' :
  votable b -> maybe_update_fsi f b = Ok (u, f') -> f' = f \/ moved_to b f f'.
Proof.
  intros Hb Hu. destruct (latest_qc_block b Hb) as (qc & Eqc & _ & Hin). unfold maybe_update_fsi in Hu.
  rewrite Eqc, ret_bind in Hu. destruct (_ && _) eqn:E; apply Ok_inj in Hu as [= <- <-]; [right|by left].
  apply andb_true_iff in E as [_ E]. split_and!; cbn; [done|right; lia|by right|by left].
Qed.
(** ** Finalizers that move forward together *)

Lemma advances_keys b fs fs' : Forall2 (advances b) fs fs' -> fs'.*1 = fs.*1.
Proof. induction 1 as [|x y fs fs' [Hk _] _ IH]; [done|]. by rewrite !fmap_cons, IH, Hk. Qed.

Lemma advances_lookup b fs fs' k f :
  Forall2 (advances b) fs fs' -> map_lookup k fs = Some f ->
  exists f', map_lookup k fs' = Some f' /\ (fsi f' = fsi f \/ moved_to b (fsi f) (fsi f')).
Proof.
  induction 1 as [|[k1 x] [k2 y] fs fs' [Hk Hxy] _ IH]; simpl; [done|]. cbn [fst snd] in *. subst k2.
  case_bool_decide; [|done]. intros [= <-]. eauto.
Qed.

Lemma advances_fit b fs fs' :
  block_ok b -> Forall2 (advances b) fs fs' ->
  Forall (fun x => fits x.1 /\ fsi_fits (fsi x.2)) fs -> Forall (fun x => fits x.1 /\ fsi_fits (fsi x.2)) fs'.
Proof.
  intros Hb. induction 1 as [|x y fs fs' [Hk Hxy] _ IH]; [done|].
  intros [[Hx1 Hx2] Hfs]%Forall_cons_iff. constructor; [|by apply IH]. rewrite <- Hk. split; [done|].
  destruct Hxy as [-> | Hm]; [done|]. by eapply moved_to_fits.
Qed.

Lemma entries_fit_split (st : my_finalizers_t) :
  entries_fit (all_safety_info st) <->
  entries_fit (inactive_safety_info st) /\ Forall (fun x => fits x.1 /\ fsi_fits (fsi x.2)) (finalizers st).
Proof.
  unfold entries_fit, all_safety_info, active_safety_info. rewrite Forall_app, Forall_fmap. done.
Qed.

Lemma lookup_all (st : my_finalizers_t) k :
  map_lookup k (all_safety_info st) =
  match map_lookup k (inactive_safety_info st) with
  | Some f => Some f
  | None => fsi <$> map_lookup k (finalizers st)
  end.
Proof. unfold all_safety_info, active_safety_info. by rewrite map_lookup_app, map_lookup_fmap. Qed.

Lemma records_ok_advance b st fs :
  block_ok b -> records_ok st -> Forall2 (advances b) (finalizers st) fs -> records_ok (with_finalizers st fs).
Proof.
  intros Hb [H1 H2 H3 H4 H5] Ha. pose proof (advances_keys b _ _ Ha) as Hk. constructor.
  - cbn [finalizers with_finalizers]. by rewrite Hk.
  - cbn [finalizers with_finalizers inactive_safety_info]. by rewrite Hk.
  - apply entries_fit_split. apply entries_fit_split in H3 as [Hi Hf]. split; [done|]. by eapply advances_fit.
  - rewrite <- all_safety_info_count in *. cbn [finalizers with_finalizers inactive_safety_info].
    unfold vsize in *. by rewrite <- (Forall2_length _ _ _ Ha).
  - done.
Qed.

Lemma covers_advance b st fs log :
  block_ok b -> Forall2 (advances b) (finalizers st) fs ->
  covers (all_safety_info st) log -> covers (all_safety_info (with_finalizers st fs)) log.
Proof.
  intros Hb Ha Hc k t Hin. destruct (Hc k t Hin) as (f & Hf & Hr). rewrite lookup_all in Hf |- *.
  cbn [inactive_safety_info with_finalizers finalizers]. destruct (map_lookup k (inactive_safety_info st)); [by eauto|].
  apply fmap_Some in Hf as (x & Hx & ->). destruct (advances_lookup b _ _ k x Ha Hx) as (y & Hy & Hm).
  rewrite Hy. eexists. split; [done|]. destruct Hm as [-> | Hm]; [done|]. by eapply moved_to_remembers.
Qed.

Lemma finalizer_maybe_vote_moved b f k m f' :
  votable b -> finalizer_maybe_vote sign f k b (vb_strong_digest b) = Ok (m, f') ->
  match m with
  | None => fsi f' = fsi f \/ moved_to b (fsi f) (fsi f')
  | Some v => vm_finalizer_key v = k /\ moved_to b (fsi f) (fsi f')
  end.
Proof.
  unfold finalizer_maybe_vote. intros Hb Hm. apply bind_Ok in Hm as ([r g] & Ed & Hm).
  apply (decide_vote_moved b _ _ _ Hb) in Ed. destruct (decision r);
    [apply Ok_inj in Hm as [= <- <-]; by left|destruct (sign _ _); apply Ok_inj in Hm as [= <- <-]..];
    cbn; auto.
Qed.

(** The votes of the loop: at most one per key, each for a record that moves. *)
Lemma vote_loop_spec b fs votes fs' :
  votable b -> vote_loop sign b fs = Ok (votes, fs') ->
  Forall2 (advances b) fs fs' /\ sublist (vote_key <$> votes) fs.*1 /\
  (NoDup fs.*1 -> forall v, v ∈ votes -> exists f f', map_lookup (vote_key v) fs = Some f /\
     map_lookup (vote_key v) fs' = Some f' /\ moved_to b (fsi f) (fsi f')).
Proof.
  intros Hb. revert votes fs'; induction fs as [|[k f] fs IH]; intros votes fs' Hv; cbn [vote_loop] in Hv.
  { apply Ok_inj in Hv as [= <- <-]. split_and!; [done|done|]. intros _ v Hin. by apply elem_of_nil in Hin. }
  apply bind_Ok in Hv as ([vs f'] & E1 & Hv). apply bind_Ok in Hv as ([vs' fs1] & E2 & Hv).
  apply Ok_inj in Hv as [= <- <-]. destruct (IH _ _ E2) as (Ha & Hs & Hl).
  assert (advances b (k, f) (k, f') /\ sublist (vote_key <$> vs) [k] /\
          (forall v, v ∈ vs -> vote_key v = k /\ moved_to b (fsi f) (fsi f'))) as (Ha1 & Hs1 & Hl1).
  { assert (forall o o', ('(vote_msg, f) ← finalizer_maybe_vote sign f k b (vb_strong_digest b);
       mret (match vote_msg with Some m => [(m, o, o')] | None => [] end, f)) = Ok (vs, f') ->
       advances b (k, f) (k, f') /\ sublist (vote_key <$> vs) [k] /\
       (forall v, v ∈ vs -> vote_key v = k /\ moved_to b (fsi f) (fsi f'))) as Hgo.
    { intros o o' Hm. apply bind_Ok in Hm as ([m f1] & Em & Hm). apply Ok_inj in Hm as [= <- <-].
      apply finalizer_maybe_vote_moved in Em; [|done]. destruct m as [m|].
      - destruct Em as [Hk Hm]. split_and!; [by split; [|right]|cbn; unfold vote_key; cbn; by rewrite Hk|].
        intros v Hin. apply list_elem_of_singleton in Hin as ->. done.
      - split_and!; [by split|apply sublist_nil_l|]. intros v Hin. by apply elem_of_nil in Hin. }
    destruct (in_policy (vb_active_finalizer_policy b) k), (vb_pending_finalizer_policy b ≫= fun p => in_policy p k);
      try (by eapply Hgo). apply Ok_inj in E1 as [= <- <-].
    split_and!; [by split; [|left]|apply sublist_nil_l|]. intros v Hin. by apply elem_of_nil in Hin. }
  split_and!.
  - by constructor.
  - rewrite fmap_app, fmap_cons. by apply (sublist_app (vote_key <$> vs) [k]).
  - intros [Hn Hd]%NoDup_cons v Hin. cbn [map_lookup fst]. apply elem_of_app in Hin as [Hin|Hin].
    + destruct (Hl1 v Hin) as [-> Hm]. rewrite bool_decide_eq_true_2 by done. eauto.
    + destruct (Hl Hd v Hin) as (g & g' & E & E' & Hm).
      rewrite bool_decide_eq_false_2; [by eauto|]. intros Hvk. rewrite Hvk in E. apply Hn.
      apply list_elem_of_fmap. exists (k, g). split; [done|]. by apply map_lookup_elem.
Qed.
Lemma update_loop_advances b (q : qc_t SIG) fs u fs' :
  votable b -> update_loop b q fs = Ok (u, fs') -> Forall2 (advances b) fs fs'.
Proof.
  intros Hb. revert u fs'; induction fs as [|[k f] fs IH]; intros u fs' Hu; cbn [update_loop] in Hu.
  { by apply Ok_inj in Hu as [= _ <-]. }
  apply bind_Ok in Hu as (va & _ & Hu). apply bind_Ok in Hu as (vd & _ & Hu).
  apply bind_Ok in Hu as ([u1 f1] & E1 & Hu). apply bind_Ok in Hu as ([u2 fs2] & E2 & Hu).
  apply Ok_inj in Hu as [= _ <-]. constructor; [|by eapply IH]. split; [done|]. cbn [snd fsi].
  destruct vd; [by eapply maybe_update_moved|]. apply Ok_inj in E1 as [= _ <-]. by left.
Qed.

(** ** The file *)

Hypothesis crc_u32 : forall bs, is_u32 (crc bs).

Lemma fsi_saved_fits f : fsi_fits f -> fsi_fits (fsi_saved f).
Proof. intros ((?&?&?&_) & (?&?&?&_) & ?). split_and!; try done; by compute. Qed.

Lemma emplace_all_fit m res : entries_fit m -> entries_fit res -> entries_fit (emplace_all key_ltb m res).
Proof.
  intros Hm. revert res; induction Hm as [|[k f] m [Hk Hf] _ IH]; intros res Hr; [done|].
  apply IH, map_emplace_Forall; [|done]. split; [done|by apply fsi_saved_fits].
Qed.

Lemma file_ok_saved (st : my_finalizers_t) bytes log :
  records_ok st -> covers (all_safety_info st) log -> safety_file_bytes crc st = Ok bytes ->
  file_ok (Some bytes) log.
Proof.
  intros Hr Hc Hb. eexists. split; [apply (load_saved key_ltb crc st); try done; apply Hr|].
  split; [apply emplace_all_fit; [apply Hr|constructor]|].
  intros k t Hin. destruct (Hc k t Hin) as (f & Hf & Hrem). rewrite emplace_all_lookup. cbn [map_lookup].
  rewrite Hf. eexists. split; [done|]. exact Hrem.
Qed.

(** Saving changes the failure flag at most, and leaves a file that covers what
    it has to. *)
Lemma save_spec (st st' : my_finalizers_t) file file' io log log' saved :
  records_ok st -> covers (all_safety_info st) log' -> file_ok file log -> log ⊆ log' ->
  save_finalizer_safety_info crc st file io = (saved, st', file') ->
  finalizers st' = finalizers st /\ inactive_safety_info st' = inactive_safety_info st /\
  default_fsi st' = default_fsi st /\ file_ok file' (if (saved : bool) then log' else log).
Proof.
  intros Hr Hc Hf Hsub Hs. unfold save_finalizer_safety_info in Hs.
  destruct (safety_write_failed st); [by injection Hs as <- <- <-|].
  destruct (_ ≫= _) as [bytes|e] eqn:Eb; [|by injection Hs as <- <- <-].
  apply bind_Ok in Eb as (_ & _ & Eb).
  assert (file_ok (Some bytes) log) as Hlog
    by (apply (file_ok_saved st); [done| |done]; intros k t Hin; by apply Hc, Hsub).
  destruct io as [|[]]; injection Hs as <- <- <-; split_and!; try done. by apply (file_ok_saved st).
Qed.

Lemma records_ok_ext (st st' : my_finalizers_t) :
  finalizers st' = finalizers st -> inactive_safety_info st' = inactive_safety_info st ->
  default_fsi st' = default_fsi st ->
  all_safety_info st' = all_safety_info st /\ (records_ok st -> records_ok st').
Proof.
  intros E1 E2 E3.
  assert (all_safety_info st' = all_safety_info st) as E by (unfold all_safety_info, active_safety_info; by rewrite E1, E2).
  split; [done|]. intros [H1 H2 H3 H4 H5]. constructor; rewrite ?E, ?E1, ?E2, ?E3; done.
Qed.

(** ** Every step keeps the invariant *)

Definition log_votes (b : vote_block) (votes : list (vote_t (PK := PK) (SIG := SIG))) : log_t :=
  (fun v => (vote_key v, vb_timestamp b)) <$> votes.

Lemma log_ordered_votes b votes log :
  NoDup (vote_key <$> votes) -> log_ordered log ->
  (forall v t, v ∈ votes -> (vote_key v, t) ∈ log -> t < vb_timestamp b) ->
  log_ordered (log_votes b votes ++ log).
Proof.
  intros Hd Ho Hlt. induction votes as [|v votes IH]; [done|].
  rewrite fmap_cons in Hd. apply NoDup_cons in Hd as [Hn Hd].
  change (log_votes b (v :: votes) ++ log) with
    ((vote_key v, vb_timestamp b) :: (log_votes b votes ++ log)). split.
  - intros t' Hin. apply elem_of_app in Hin as [Hin|Hin].
    + apply list_elem_of_fmap in Hin as (w & [= Hk _] & Hw). destruct Hn.
      apply list_elem_of_fmap. by exists w.
    + eapply Hlt; [constructor|done].
  - apply IH; [done|]. intros w t Hw. apply Hlt. by constructor.
Qed.

(** The records after the voting loop remember the new votes too, and the new
    votes are newer than what the log has for their keys. *)
Lemma vote_loop_covers b (st : my_finalizers_t) votes fs log :
  block_ok b -> records_ok st -> covers (all_safety_info st) log ->
  vote_loop sign b (finalizers st) = Ok (votes, fs) ->
  covers (all_safety_info (with_finalizers st fs)) (log_votes b votes ++ log) /\
  (forall v t, v ∈ votes -> (vote_key v, t) ∈ log -> t < vb_timestamp b).
Proof.
  intros Hb Hr Hc Hv. destruct (vote_loop_spec b _ _ _ (bo_votable _ Hb) Hv) as (Ha & _ & Hl).
  specialize (Hl (ro_keys _ Hr)).
  assert (forall v f, map_lookup (vote_key v) (finalizers st) = Some f ->
    map_lookup (vote_key v) (inactive_safety_info st) = None) as Hin.
  { intros v f Hf. apply (ro_disjoint _ Hr). apply list_elem_of_fmap.
    exists (vote_key v, f). split; [done|]. by apply map_lookup_elem. }
  split.
  - intros k t Hk. apply elem_of_app in Hk as [Hk|Hk]; [|by eapply covers_advance].
    apply list_elem_of_fmap in Hk as (v & [= -> ->] & Hvin).
    destruct (Hl v Hvin) as (f & f' & E & E' & Hm). rewrite lookup_all.
    cbn [inactive_safety_info with_finalizers finalizers]. rewrite (Hin v f E), E'.
    eexists. split; [done|]. destruct Hm as (Hlast & _). unfold remembers. rewrite Hlast.
    split; [apply Hb|done].
  - intros v t Hvin Hlog. destruct (Hl v Hvin) as (f & f' & E & E' & (_ & Hm & _)).
    destruct (Hc _ _ Hlog) as (g & Hg & Hrem & Ht). rewrite lookup_all, (Hin v f E), E in Hg.
    injection Hg as <-. destruct Hm; [congruence|lia].
Qed.

Lemma inv_vote n b io votes st file :
  node_inv n -> block_ok b -> maybe_vote sign crc (nd_state n) (nd_file n) io b = Ok (votes, st, file) ->
  node_inv {| nd_state := st; nd_file := file; nd_log := log_votes b votes ++ nd_log n |}.
Proof.
  intros [Hr Hl Hf Ho] Hb Hv. unfold maybe_vote in Hv.
  destruct (is_empty (finalizers (nd_state n))) eqn:Ee; [by apply Ok_inj in Hv as [= <- <- <-]|].
  destruct (safety_write_failed _); [by apply Ok_inj in Hv as [= <- <- <-]|].
  destruct Hl as [Hnil|Hc]; [by rewrite Hnil in Ee|].
  apply bind_Ok in Hv as ([vs fs] & El & Hv).
  destruct (vote_loop_spec b _ _ _ (bo_votable _ Hb) El) as (Ha & Hsub & _).
  pose proof (records_ok_advance b _ fs Hb Hr Ha) as Hr1.
  pose proof (covers_advance b _ fs _ Hb Ha Hc) as Hc0.
  destruct (vote_loop_covers b _ vs fs _ Hb Hr Hc El) as [Hc1 Hlt].
  destruct (is_empty vs) eqn:Ev; cbn [negb] in Hv.
  { apply Ok_inj in Hv as [= <- <- <-]. constructor; auto. }
  destruct (save_finalizer_safety_info _ _ _ _) as [[saved st1] file1] eqn:Es.
  apply Ok_inj in Hv as [= <- <- <-].
  match type of Es with save_finalizer_safety_info _ ?s _ _ = _ =>
    destruct (records_ok_ext (with_finalizers (nd_state n) fs) s eq_refl eq_refl eq_refl) as [Ea Hrs] end.
  rewrite <- Ea in Hc1, Hc0. specialize (Hrs Hr1).
  destruct (save_spec _ _ _ _ _ (nd_log n) _ _ Hrs Hc1 Hf ltac:(intros x; rewrite elem_of_app; auto) Es)
    as (E1 & E2 & E3 & Hf1).
  destruct (records_ok_ext _ st1 E1 E2 E3) as [Ea1 Hr2]. destruct saved; constructor; cbn [nd_state nd_file nd_log].
  - auto.
  - right. by rewrite Ea1.
  - done.
  - apply log_ordered_votes; [|done|done]. eapply sublist_NoDup; [apply Hr|exact Hsub].
  - auto.
  - right. by rewrite Ea1.
  - done.
  - done.
Qed.

Lemma inv_update n b (q : qc_t SIG) io st file :
  node_inv n -> block_ok b -> my_maybe_update_fsi crc (nd_state n) (nd_file n) io b q = Ok (st, file) ->
  node_inv {| nd_state := st; nd_file := file; nd_log := nd_log n |}.
Proof.
  intros [Hr Hl Hf Ho] Hb Hv. unfold my_maybe_update_fsi in Hv.
  destruct (is_empty (finalizers (nd_state n))) eqn:Ee; [by apply Ok_inj in Hv as [= <- <-]|].
  destruct (mf_has_voted _); [by apply Ok_inj in Hv as [= <- <-]|].
  destruct Hl as [Hnil|Hc]; [by rewrite Hnil in Ee|].
  apply bind_Ok in Hv as (_ & _ & Hv). apply bind_Ok in Hv as ([u fs] & El & Hv).
  pose proof (update_loop_advances b q _ _ _ (bo_votable _ Hb) El) as Ha.
  pose proof (records_ok_advance b _ fs Hb Hr Ha) as Hr1. pose proof (covers_advance b _ fs _ Hb Ha Hc) as Hc1.
  destruct u; [|apply Ok_inj in Hv as [= <- <-]; by constructor; auto].
  destruct (save_finalizer_safety_info _ _ _ _) as [[saved st1] file1] eqn:Es.
  apply Ok_inj in Hv as [= <- <-].
  destruct (save_spec _ _ _ _ _ (nd_log n) (nd_log n) _ Hr1 Hc1 Hf ltac:(done) Es) as (E1 & E2 & E3 & Hf1).
  destruct (records_ok_ext _ st1 E1 E2 E3) as [Ea Hr2]. constructor; cbn [nd_state nd_file nd_log].
  - auto.
  - right. by rewrite Ea.
  - by destruct saved.
  - done.
Qed.
Lemma inv_default n f :
  node_inv n -> fsi_fits f ->
  node_inv {| nd_state := set_default_safety_information (nd_state n) f; nd_file := nd_file n;
              nd_log := nd_log n |}.
Proof.
  intros [Hr Hl Hf Ho] Hff. unfold set_default_safety_information.
  set (upd := fun x : PK * finalizer SK => if negb (ref_empty (last_vote (fsi x.2))) || negb (ref_empty (lock (fsi x.2)))
                then x else (x.1, {| priv_key := priv_key x.2; fsi := f |})).
  assert (forall x, (upd x).1 = x.1) as Hu1 by (intros x; unfold upd; by destruct (_ || _)).
  assert ((upd <$> finalizers (nd_state n)).*1 = (finalizers (nd_state n)).*1) as Hk.
  { rewrite <- list_fmap_compose. apply list_fmap_ext. intros i x _. apply Hu1. }
  assert (forall k g t fs, map_lookup k fs = Some g -> remembers (fsi g) t -> map_lookup k (upd <$> fs) = Some g) as Hlk.
  { intros k g t fs Hg [Hne _]. induction fs as [|[k1 g1] fs IH]; [done|]. rewrite fmap_cons.
    specialize (Hu1 (k1, g1)). destruct (upd (k1, g1)) as [k2 g2] eqn:Eu. cbn [fst map_lookup] in *. subst k2.
    case_bool_decide; [|by apply IH]. injection Hg as ->. unfold upd in Eu. cbn [snd] in Eu. rewrite Hne in Eu.
    by injection Eu as ->. }
  constructor; cbn [nd_state nd_file nd_log]; [| |done|done].
  - destruct Hr as [H1 H2 H3 H4 H5]. constructor; cbn [finalizers inactive_safety_info default_fsi]; rewrite ?Hk; try done.
    + apply entries_fit_split in H3 as [Hi Hfs]. apply entries_fit_split. split; [done|]. cbn [finalizers].
      apply Forall_fmap. eapply Forall_impl; [exact Hfs|]. intros x [Hx1 Hx2]. cbn. rewrite Hu1. split; [done|].
      unfold upd. by destruct (_ || _).
    + rewrite <- all_safety_info_count in *. cbn [finalizers inactive_safety_info]. unfold vsize in *.
      by rewrite length_fmap.
  - destruct Hl as [Hnil|Hc]; [left; cbn [finalizers]; by rewrite Hnil|right].
    intros k t Hin. destruct (Hc k t Hin) as (g & Hg & Hrem). exists g. split; [|done]. rewrite lookup_all in *.
    cbn [finalizers inactive_safety_info]. destruct (map_lookup k (inactive_safety_info (nd_state n))); [done|].
    apply fmap_Some in Hg as (h & Hh & ->). by rewrite (Hlk k h t _ Hh Hrem).
Qed.
(** The two loops of [set_keys]. *)
Lemma set_keys_finalizers (g : PK -> finalizer_safety_information) (keys : list (PK * SK)) fs :
  NoDup fs.*1 -> Forall (fun x => fits x.1 /\ fsi_fits (fsi x.2)) fs ->
  Forall (fun x => fits x.1) keys -> (forall k, fsi_fits (g k)) ->
  let fs' := foldl (fun fs x => map_assign key_ltb x.1 {| priv_key := x.2; fsi := g x.1 |} fs) fs keys in
  NoDup fs'.*1 /\ Forall (fun x => fits x.1 /\ fsi_fits (fsi x.2)) fs' /\
  (forall k, fsi <$> map_lookup k fs' =
     if bool_decide (k ∈ keys.*1) then Some (g k) else fsi <$> map_lookup k fs).
Proof.
  intros Hd Hf Hk Hg. revert fs Hd Hf; induction keys as [|[k sk] keys IH]; intros fs Hd Hf; [done|].
  apply Forall_cons_iff in Hk as [Hk Hks]. cbn [fst] in Hk. cbn [foldl fst snd].
  destruct (IH Hks (map_assign key_ltb k {| priv_key := sk; fsi := g k |} fs)) as (H1 & H2 & H3).
  { by apply map_assign_NoDup. }
  { apply map_assign_Forall; [split; [done|apply Hg]|done]. }
  split_and!; [done|done|]. intros k'. rewrite H3, map_lookup_assign, fmap_cons. cbn [fst].
  destruct (decide (k' ∈ keys.*1)) as [Hin|Hin].
  - rewrite !bool_decide_eq_true_2; [done|by constructor|done].
  - rewrite (bool_decide_eq_false_2 (k' ∈ keys.*1)) by done. destruct (decide (k' = k)) as [->|Hne].
    + rewrite !bool_decide_eq_true_2; [done|constructor|done].
    + rewrite !bool_decide_eq_false_2; [done|by rewrite not_elem_of_cons|done].
Qed.

Lemma set_keys_inactive (keys : list (PK * SK)) (m : fsi_map) :
  entries_fit m ->
  let m' := foldl (fun m x => map_erase x.1 m) m keys in
  entries_fit m' /\
  (forall k, map_lookup k m' = if bool_decide (k ∈ keys.*1) then None else map_lookup k m).
Proof.
  revert m; induction keys as [|[k sk] keys IH]; intros m Hm; [done|]. cbn [foldl fst].
  destruct (IH (map_erase k m)) as [H1 H2]; [by apply map_erase_Forall|]. split; [done|].
  intros k'. rewrite H2, map_lookup_erase, fmap_cons. cbn [fst].
  destruct (decide (k' ∈ keys.*1)) as [Hin|Hin].
  - rewrite !bool_decide_eq_true_2; [done|by constructor|done].
  - rewrite (bool_decide_eq_false_2 (k' ∈ keys.*1)) by done. destruct (decide (k' = k)) as [->|Hne].
    + rewrite !bool_decide_eq_true_2; [done|constructor|done].
    + rewrite !bool_decide_eq_false_2; [done|by rewrite not_elem_of_cons|done].
Qed.

Lemma unset_fsi_fits : fsi_fits unset_fsi.
Proof. unfold fsi_fits. split_and!; cbn; unfold sha256_wf, is_u64, is_u32; cbn; lia. Qed.
Lemma init_records_ok : records_ok (my_finalizers_init true).
Proof. constructor; try done; [apply NoDup_nil_2|apply Forall_nil; exact I]. Qed.

Lemma inv_restart n keys st :
  node_inv n -> Forall (fun x => fits x.1) keys ->
  set_keys key_ltb crc (my_finalizers_init true) (nd_file n) keys = Ok st ->
  vsize (all_safety_info st) < 2 ^ 64 ->
  node_inv {| nd_state := st; nd_file := nd_file n; nd_log := nd_log n |}.
Proof.
  intros [_ _ Hf Ho] Hk Hs Hsz. unfold set_keys in Hs. destruct (is_empty keys).
  { apply Ok_inj in Hs as <-. constructor; [apply init_records_ok|by left|done|done]. }
  apply bind_Ok in Hs as (_ & _ & Hs). apply bind_Ok in Hs as (m & Em & Hs). cbn [has_path my_finalizers_init] in Em.
  assert (entries_fit m /\ covers m (nd_log n)) as [Hm Hc].
  { unfold file_ok in Hf. destruct (nd_file n) as [c|].
    - destruct Hf as (m' & E & Hfit & Hcov). rewrite Em in E. by apply Ok_inj in E as <-.
    - apply Ok_inj in Em as <-. rewrite Hf. split; [constructor|]. intros k t Hin. by apply elem_of_nil in Hin. }
  assert (forall k, fsi_fits (default unset_fsi (map_lookup k m))) as Hg.
  { intros k. destruct (map_lookup k m) as [f|] eqn:E; [|apply unset_fsi_fits].
    apply map_lookup_elem in E. exact (proj2 (proj1 (Forall_forall _ _) Hm _ E)). }
  destruct (set_keys_finalizers (fun k => default unset_fsi (map_lookup k m)) keys []
    ltac:(apply NoDup_nil_2) ltac:(constructor) Hk Hg) as (F1 & F2 & F3).
  destruct (set_keys_inactive keys m Hm) as [I1 I2].
  apply Ok_inj in Hs. subst st. constructor; cbn [nd_state nd_file nd_log]; [|right|done|done].
  - constructor; [exact F1| |by apply entries_fit_split|exact Hsz|apply unset_fsi_fits].
    intros k Hin. cbn [finalizers inactive_safety_info] in *. rewrite I2.
    rewrite bool_decide_eq_true_2; [done|]. specialize (F3 k).
    destruct (decide (k ∈ keys.*1)) as [|Hn]; [done|]. rewrite (bool_decide_eq_false_2 _ Hn) in F3.
    apply fmap_None, map_lookup_None in F3. done.
  - intros k t Hin. destruct (Hc k t Hin) as (f & Ef & Hr). exists f. split; [|done].
    rewrite lookup_all. cbn [finalizers inactive_safety_info]. rewrite I2. case_bool_decide as Hkin; [|by rewrite Ef].
    cbn [default_fsi my_finalizers_init]. rewrite F3, bool_decide_eq_true_2, Ef by done. done.
Qed.

Lemma node_invariant n : node_run n -> node_inv n.
Proof.
  induction 1 as [|n n' _ IH Hs].
  - constructor; [apply init_records_ok|by left|done|done].
  - destruct Hs; [by eapply inv_vote|by eapply inv_update|by apply inv_default|by eapply inv_restart].
Qed.

(** C4. No vote is forgotten or repeated: in every run of votes, received
    certificates, default updates, failed writes, crashes and restarts, the
    safety file loads and remembers each vote that was handed out, at its time
    or later; and the votes handed out for one key go strictly forward in
    time, across restarts too. *)
Theorem handed_out_votes_durable n k t :
  node_run n -> (k, t) ∈ nd_log n ->
  (exists m f, load_finalizer_safety_info key_ltb crc true (nd_file n) = Ok m /\
     map_lookup k m = Some f /\ ref_empty (last_vote f) = false /\ t <= ref_timestamp (last_vote f)) /\
  (forall L1 L2 t', nd_log n = L1 ++ (k, t) :: L2 -> (k, t') ∈ L2 -> t' < t).
Proof.
  intros Hn Hin. destruct (node_invariant n Hn) as [_ _ Hf Ho]. split.
  - unfold file_ok in Hf. destruct (nd_file n); [|rewrite Hf in Hin; by apply elem_of_nil in Hin].
    destruct Hf as (m & E & _ & Hc). destruct (Hc k t Hin) as (f & Ef & Hr). exists m, f. by destruct Hr.
  - intros L1 L2 t' E. rewrite E in Ho. clear -Ho. induction L1 as [|[k1 t1] L1 IH]; [apply Ho|apply IH, Ho].
Qed.

(** Persistence failures are final: once a write of the safety file has
    failed, no block draws a vote from the node and the file is not touched
    again; and a vote handed out means that the file holds exactly the records
    the node votes from. *)
Theorem no_vote_without_durable_record (st st' : my_finalizers_t) file file' io b votes :
  maybe_vote sign crc st file io b = Ok (votes, st', file') ->
  (safety_write_failed st = true -> votes = [] /\ st' = st /\ file' = file) /\
  (votes <> [] -> io = write_done /\ exists bytes, safety_file_bytes crc st' = Ok bytes /\ file' = Some bytes) /\
  (safety_write_failed st = false -> safety_write_failed st' = true -> votes = []).
Proof.
  intros Hv. unfold maybe_vote in Hv. destruct (is_empty (finalizers st)).
  { apply Ok_inj in Hv as [= <- <- <-]. done. }
  destruct (safety_write_failed st) eqn:Ew; [by apply Ok_inj in Hv as [= <- <- <-]|].
  apply bind_Ok in Hv as ([vs fs] & _ & Hv). destruct (is_empty vs); cbn [negb] in Hv.
  { by apply Ok_inj in Hv as [= <- <- <-]. }
  unfold save_finalizer_safety_info in Hv. cbn [safety_write_failed with_finalizers] in Hv. rewrite Ew in Hv.
  destruct (_ ≫= _) as [bytes|e] eqn:Eb; [|by apply Ok_inj in Hv as [= <- <- <-]].
  apply bind_Ok in Eb as (_ & _ & Eb).
  destruct io as [|[]]; apply Ok_inj in Hv as [= <- <- <-]; split_and!; try done. intros _. eauto.
Qed.
End Runs.

(** ** A concrete run *)

(** Keys of eight bytes, a checksum that adds the bytes up. *)
#[local] Instance toy_packable : Packable Z := {|
  pack := pack_u64; unpack := unpack_uint 8; fits := is_u64 |}.

#[local] Instance toy_pack_laws : PackLaws Z.
Proof. intros z bs rest Hf Hp. by apply unpack_pack_uint. Qed.

Definition toy_crc (bs : list Z) : Z := u32 (foldr Z.add 0 bs).
Definition toy_signer (sk : Z) (d : list Z) : result Z := Ok (sk * le_value d).

Lemma toy_crc_u32 bs : is_u32 (toy_crc bs).
Proof. apply u32_range. Qed.

Ltac in_range := repeat split; vm_compute; congruence.

Lemma sample_block_ok : block_ok (sample_block 3) /\ block_ok (sample_block 4).
Proof.
  destruct sample_votable as [H3 H4].
  split; (constructor; [done|vm_compute; reflexivity|in_range|]); vm_compute refs;
    repeat (constructor; [in_range|]); constructor.
Qed.

Lemma sample_fsi_fits : fsi_fits sample_fsi.
Proof. in_range. Qed.

(** Two votes with a restart between them, on blocks 8 and 9 of the sample
    chain. *)
Definition toy_restart (file : option (list Z)) : result (my_finalizers_t Z Z) :=
  set_keys Z.ltb toy_crc (my_finalizers_init true) file [(2, 2)].
Definition toy_voting (st : my_finalizers_t Z Z) (file : option (list Z)) (n : nat) :=
  maybe_vote toy_signer toy_crc st file write_done (sample_block n).

Lemma toy_steps :
  exists st1 v3 st3 f3 st4 v4 st5 f5,
    toy_restart None = Ok st1 /\ vsize (all_safety_info st1) < 2 ^ 64 /\
    toy_voting (set_default_safety_information st1 sample_fsi) None 3 = Ok (v3, st3, f3) /\
    toy_restart f3 = Ok st4 /\ vsize (all_safety_info st4) < 2 ^ 64 /\
    toy_voting st4 f3 4 = Ok (v4, st5, f5) /\
    log_votes (sample_block 4) v4 ++ log_votes (sample_block 3) v3 ++ [] = [(2, 9); (2, 8)].
Proof.
  eexists _, _, _, _, _, _, _, _. split; [vm_compute; reflexivity|]. split; [vm_compute; reflexivity|].
  split; [vm_compute; reflexivity|]. split; [vm_compute; reflexivity|]. split; [vm_compute; reflexivity|].
  split; [vm_compute; reflexivity|]. vm_compute. reflexivity.
Qed.

Lemma toy_run : exists n, node_run Z.ltb toy_signer toy_crc n /\ nd_log n = [(2, 9); (2, 8)].
Proof.
  destruct sample_block_ok as [B3 B4].
  destruct toy_steps as (st1 & v3 & st3 & f3 & st4 & v4 & st5 & f5 & E1 & S1 & E3 & E4 & S4 & E5 & El).
  assert (Forall (fun x : Z * Z => fits x.1) [(2, 2)]) as Hk by (constructor; [in_range|constructor]).
  exists {| nd_state := st5; nd_file := f5;
            nd_log := log_votes (sample_block 4) v4 ++ log_votes (sample_block 3) v3 ++ [] |}. split; [|exact El].
  eapply run_step; [|exact (node_vote _ _ _ (Build_node st4 f3 _) (sample_block 4) write_done v4 st5 f5 B4 E5)].
  eapply run_step; [|exact (node_restart _ _ _ (Build_node st3 f3 _) _ _ Hk E4 S4)].
  eapply run_step; [|exact (node_vote _ _ _ (Build_node _ None []) (sample_block 3) write_done v3 st3 f3 B3 E3)].
  eapply run_step; [|exact (node_default _ _ _ (Build_node st1 None []) sample_fsi sample_fsi_fits)].
  eapply run_step; [apply run_start|exact (node_restart _ _ _ node_start _ _ Hk E1 S1)].
Qed.

Lemma handed_out_votes_durable_witness :
  exists n, nd_log n = [(2, 9); (2, 8)] /\
    exists m f, load_finalizer_safety_info Z.ltb toy_crc true (nd_file (SK := Z) n) = Ok m /\
      map_lookup 2 m = Some f /\ 9 <= ref_timestamp (last_vote f).
Proof.
  destruct toy_run as (n & Hn & El). exists n. split; [exact El|].
  destruct (handed_out_votes_durable Z.ltb toy_signer toy_crc toy_crc_u32 n 2 9 Hn) as [(m & f & H1 & H2 & _ & H3) _].
  - rewrite El. constructor.
  - exists m, f. auto.
Defined.

Lemma no_vote_without_durable_record_witness :
  exists st votes st' file', toy_voting st None 3 = Ok (votes, st', file') /\ votes <> [] /\
    exists bytes, safety_file_bytes toy_crc st' = Ok bytes /\ file' = Some bytes.
Proof.
  destruct toy_steps as (st1 & v3 & st3 & f3 & st4 & v4 & st5 & f5 & _ & _ & E3 & _ & _ & _ & El).
  exists (set_default_safety_information st1 sample_fsi), v3, st3, f3. split; [exact E3|].
  assert (v3 <> []) as Hne.
  { intros ->. destruct v4 as [|v [|]]; discriminate El. }
  split; [exact Hne|].
  destruct (no_vote_without_durable_record toy_signer toy_crc _ _ _ _ _ _ _ E3) as (_ & Hd & _).
  exact (proj2 (Hd Hne)).
Defined.
