(* ===== verification/BlockHeader.v ===== *)
(** Block times, rounds, block ids and header extensions
    (chain/block_timestamp.hpp, block_header_state_utils.hpp, block_header.hpp,
    block_header.cpp, protocol_feature_activation.cpp and the extension helpers
    of chain/types.hpp), with the byte formats of what a header carries.

    [PK] is the BLS key type and [K] [public_key_type]; their byte formats come
    from the class [Packable].  The hash function is the parameter [sha]. *)
From Stdlib Require Import ZArith Lia ZifyBool.
From stdpp Require Import base tactics numbers list sorting.
From S2P Require Import Prelude Digest Raw FinalityCore OrderedDiff FinalizerPolicy ProducerSchedule.
#[local] Open Scope Z_scope.

(** ** block_timestamp *)

Definition block_interval_ms : Z := 500.
Definition block_timestamp_epoch : Z := 946684800000.

(** A timestamp is its slot; times are microseconds since 1970, [int64_t]. *)
Definition ts_next (slot : Z) : result Z :=
  EOS_ASSERT (1 <=? 2 ^ 32 - 1 - slot) overflow_exception;; mret (u32 (slot + 1)).

(** [msec += EpochMs] is done in [uint64_t]. *)
Definition to_time_point (slot : Z) : Z :=
  let msec := slot * block_interval_ms in
  let msec := i64 (u64 (msec + block_timestamp_epoch)) in
  msec * 1000.

(** The division of the count truncates; the difference is taken in
    [uint64_t]. *)
Definition set_time_point (micro_since_epoch : Z) : Z :=
  let msec_since_epoch := Z.quot micro_since_epoch 1000 in
  u32 (u64 (msec_since_epoch - block_timestamp_epoch) / block_interval_ms).
Definition set_time_point_sec (sec_since_epoch : Z) : Z :=
  u32 (u64 (u64 (sec_since_epoch * 1000) - block_timestamp_epoch) / block_interval_ms).

Lemma to_time_point_value slot :
  is_u32 slot -> to_time_point slot = (slot * 500 + block_timestamp_epoch) * 1000.
Proof.
  unfold is_u32, to_time_point, block_interval_ms, block_timestamp_epoch. intros Hs.
  rewrite u64_small by lia. unfold i64. rewrite Z.mod_small by lia. lia.
Qed.

(** ** Rounds *)

Definition get_current_round_start_slot (slot : Z) : Z :=
  let index := slot mod producer_repetitions in u32 (slot - index).

Definition in_same_round (next curr : Z) : bool :=
  next <? u32 (get_current_round_start_slot curr + producer_repetitions).

Definition get_prior_round_start_slot (slot : Z) : option Z :=
  if slot <? producer_repetitions then None
  else Some (u32 (get_current_round_start_slot slot - producer_repetitions)).

Definition first_block_of_round (curr_block_time parent_block_time : Z) : result bool :=
  c_assert (parent_block_time <? curr_block_time);;
  mret (parent_block_time <? get_current_round_start_slot curr_block_time).

Definition round_of (slot : Z) : Z := slot / producer_repetitions.

Lemma round_start_value slot : is_u32 slot -> get_current_round_start_slot slot = 12 * round_of slot.
Proof.
  unfold is_u32, get_current_round_start_slot, round_of, producer_repetitions. intros Hs.
  pose proof (Z.mod_pos_bound slot 12 eq_refl). pose proof (Z.div_mod slot 12 ltac:(lia)).
  rewrite u32_small; lia.
Qed.

Lemma in_same_round_spec next curr :
  is_u32 curr -> curr < 2 ^ 32 - 12 -> curr <= next ->
  in_same_round next curr = (round_of next =? round_of curr).
Proof.
  intros Hc Hlt Hle. unfold in_same_round. rewrite round_start_value by done.
  unfold is_u32, round_of, producer_repetitions in *.
  pose proof (Z.mod_pos_bound curr 12 eq_refl). pose proof (Z.div_mod curr 12 ltac:(lia)).
  pose proof (Z.mod_pos_bound next 12 eq_refl). pose proof (Z.div_mod next 12 ltac:(lia)).
  rewrite u32_small by lia. lia.
Qed.

Lemma first_block_of_round_spec curr parent :
  is_u32 curr -> parent < curr ->
  first_block_of_round curr parent = Ok (round_of parent <? round_of curr).
Proof.
  intros Hc Hlt. unfold first_block_of_round. step_assert. rewrite round_start_value by done.
  unfold round_of, producer_repetitions.
  pose proof (Z.mod_pos_bound curr 12 eq_refl). pose proof (Z.div_mod curr 12 ltac:(lia)).
  pose proof (Z.mod_pos_bound parent 12 eq_refl). pose proof (Z.div_mod parent 12 ltac:(lia)).
  unfold mret, result_ret. f_equal. lia.
Qed.

Lemma prior_round_start_spec slot :
  is_u32 slot -> get_prior_round_start_slot slot =
    if round_of slot =? 0 then None else Some (12 * (round_of slot - 1)).
Proof.
  intros Hs. unfold get_prior_round_start_slot. rewrite round_start_value by done.
  unfold is_u32, round_of, producer_repetitions in *.
  pose proof (Z.mod_pos_bound slot 12 eq_refl). pose proof (Z.div_mod slot 12 ltac:(lia)).
  destruct (Z.ltb_spec slot 12), (Z.eqb_spec (slot / 12) 0); try lia; [done|].
  f_equal. rewrite u32_small; lia.
Qed.

(** ** Activated protocol features *)

(** [operator<=>] of digests is [memcmp]: the bytes as a big-endian number. *)
Definition sha256_key (h : sha256) : Z := foldl (fun acc b => acc * 256 + b) 0 (sha256_bytes h).
Definition sha256_ltb (a b : sha256) : bool := sha256_key a <? sha256_key b.

#[local] Instance sha256_le_dec : RelDecision (fun a b => sha256_key a <= sha256_key b).
Proof. intros a b. apply _. Defined.

(** [std::set_union] of two sorted ranges. *)
Fixpoint set_union (s1 : list sha256) : list sha256 -> list sha256 :=
  match s1 with
  | [] => fun s2 => s2
  | x :: t1 =>
      fix inner (s2 : list sha256) : list sha256 :=
        match s2 with
        | [] => s1
        | y :: t2 =>
            if sha256_ltb y x then y :: inner t2
            else x :: set_union t1 (if sha256_ltb x y then s2 else t2)
        end
  end.

(** [flat_set::insert]. *)
Fixpoint flat_insert (v : sha256) (l : list sha256) : list sha256 :=
  match l with
  | [] => [v]
  | x :: l' =>
      if sha256_ltb v x then v :: l
      else if sha256_ltb x v then x :: flat_insert v l'
      else l
  end.

Definition protocol_feature_activation_set (orig additional_features : list sha256) (enforce_disjoint : bool)
    : result (list sha256) :=
  let s2 := merge_sort (fun a b => sha256_key a <= sha256_key b) additional_features in
  let expected_size := vsize orig + vsize s2 in
  let protocol_features := foldl (fun l v => flat_insert v l) [] (set_union orig s2) in
  EOS_ASSERT (negb enforce_disjoint || (vsize protocol_features =? expected_size))
    invalid_block_header_extension;;
  mret protocol_features.

(** [protocol_feature_activation::reflector_init], run after unpacking. *)
Fixpoint check_unique_digests (s : list sha256) (l : list sha256) : result unit :=
  match l with
  | [] => mret tt
  | d :: l =>
      EOS_ASSERT (bool_decide (d ∉ s)) ill_formed_protocol_feature_activation;;
      check_unique_digests (d :: s) l
  end.
Definition pfa_reflector_init (protocol_features : list sha256) : result unit :=
  EOS_ASSERT (0 <? vsize protocol_features) ill_formed_protocol_feature_activation;;
  check_unique_digests [] protocol_features.

(** *** The union of disjoint sets *)

Lemma set_union_nil s1 : set_union s1 [] = s1.
Proof. by destruct s1. Qed.

Lemma set_union_cons x t1 y t2 :
  set_union (x :: t1) (y :: t2) =
  if sha256_ltb y x then y :: set_union (x :: t1) t2
  else x :: set_union t1 (if sha256_ltb x y then y :: t2 else t2).
Proof. done. Qed.

(** Nothing is dropped exactly when the lengths add up. *)
Lemma set_union_perm s1 s2 :
  (length (set_union s1 s2) <= length s1 + length s2)%nat /\
  (length (set_union s1 s2) = (length s1 + length s2)%nat -> set_union s1 s2 ≡ₚ s1 ++ s2).
Proof.
  revert s2; induction s1 as [|x t1 IH1]; intros s2; [done|].
  induction s2 as [|y t2 IH2]; [rewrite set_union_nil, app_nil_r; simpl; split; [lia|done]|].
  rewrite set_union_cons. destruct (sha256_ltb y x); [|destruct (sha256_ltb x y)]; cbn [length].
  - destruct IH2 as [H1 H2]. cbn [length] in *. split; [lia|]. intros E.
    rewrite H2 by lia. apply (Permutation_middle (x :: t1) t2 y).
  - destruct (IH1 (y :: t2)) as [H1 H2]. cbn [length] in *. split; [lia|]. intros E. by rewrite H2 by lia.
  - destruct (IH1 t2) as [H1 H2]. split; [lia|]. intros E. lia.
Qed.

Lemma set_union_disjoint s1 s2 :
  (forall x y, x ∈ s1 -> y ∈ s2 -> sha256_key x <> sha256_key y) -> set_union s1 s2 ≡ₚ s1 ++ s2.
Proof.
  revert s2; induction s1 as [|x t1 IH1]; intros s2 Hd; [done|].
  induction s2 as [|y t2 IH2]; [by rewrite set_union_nil, app_nil_r|].
  rewrite set_union_cons. pose proof (Hd x y ltac:(constructor) ltac:(constructor)) as Hxy.
  unfold sha256_ltb. destruct (Z.ltb_spec (sha256_key y) (sha256_key x)).
  - rewrite IH2; [apply (Permutation_middle (x :: t1) t2 y)|]. intros a b Ha Hb. apply Hd; [done|by constructor].
  - destruct (Z.ltb_spec (sha256_key x) (sha256_key y)); [|lia]. rewrite IH1; [done|].
    intros a b Ha Hb. apply Hd; [by constructor|done].
Qed.

Lemma flat_insert_keys v l :
  sha256_key v ∈ sha256_key <$> flat_insert v l /\
  (forall k, k ∈ sha256_key <$> flat_insert v l -> k = sha256_key v \/ k ∈ sha256_key <$> l).
Proof.
  induction l as [|x l [IH1 IH2]]; cbn [flat_insert]; unfold sha256_ltb.
  - split; [constructor|]. intros k Hk. apply list_elem_of_singleton in Hk. auto.
  - destruct (Z.ltb_spec (sha256_key v) (sha256_key x)); [|destruct (Z.ltb_spec (sha256_key x) (sha256_key v))].
    + split; [constructor|]. intros k Hk. rewrite fmap_cons, elem_of_cons in Hk. destruct Hk; auto.
    + split; [by constructor|]. intros k. rewrite !fmap_cons, !elem_of_cons. intros [->|Hk]; [auto|].
      destruct (IH2 k Hk); auto.
    + replace (sha256_key v) with (sha256_key x) by lia. split; [constructor|auto].
Qed.

(** Sets are sorted by key, without repetition. *)
Definition key_sorted (l : list sha256) : Prop := StronglySorted Z.lt (sha256_key <$> l).

Lemma flat_insert_sorted v l : key_sorted l -> key_sorted (flat_insert v l).
Proof.
  unfold key_sorted. induction l as [|x l IH]; intros Hs; cbn [flat_insert]; [repeat constructor|].
  rewrite fmap_cons in Hs. apply StronglySorted_inv in Hs as [Hs Hx]. unfold sha256_ltb.
  destruct (Z.ltb_spec (sha256_key v) (sha256_key x)) as [Hlt|Hge];
    [|destruct (Z.ltb_spec (sha256_key x) (sha256_key v)) as [Hlt|Hge']]; rewrite ?fmap_cons.
  - constructor; [by constructor|]. constructor; [done|]. eapply Forall_impl; [exact Hx|]. simpl. lia.
  - constructor; [by apply IH|]. apply Forall_forall. intros k Hk.
    apply flat_insert_keys in Hk as [->|Hk]; [done|]. rewrite Forall_forall in Hx. by apply Hx.
  - by constructor.
Qed.

Lemma flat_insert_perm v l :
  (length (flat_insert v l) <= S (length l))%nat /\
  (length (flat_insert v l) = S (length l) -> flat_insert v l ≡ₚ v :: l) /\
  (sha256_key v ∉ sha256_key <$> l -> flat_insert v l ≡ₚ v :: l).
Proof.
  induction l as [|x l (IH1 & IH2 & IH3)]; cbn [flat_insert length]; [done|]. unfold sha256_ltb.
  destruct (Z.ltb_spec (sha256_key v) (sha256_key x)); [|destruct (Z.ltb_spec (sha256_key x) (sha256_key v))];
    cbn [length]; rewrite ?fmap_cons, ?not_elem_of_cons.
  - split_and!; done || lia.
  - split_and!; [lia| |]; intros Hl.
    + rewrite IH2 by lia. apply perm_swap.
    + rewrite IH3 by naive_solver. apply perm_swap.
  - split_and!; [lia|lia|]. intros [Hne _]. lia.
Qed.

Lemma flat_inserts l s :
  key_sorted s ->
  let r := foldl (fun l v => flat_insert v l) s l in
  key_sorted r /\ (length r <= length s + length l)%nat /\
  (length r = (length s + length l)%nat -> r ≡ₚ l ++ s) /\
  (NoDup (sha256_key <$> (l ++ s)) -> r ≡ₚ l ++ s).
Proof.
  revert s; induction l as [|v l IH]; intros s Hs; cbn [foldl].
  { cbn. rewrite Nat.add_0_r. done. }
  destruct (IH (flat_insert v s) (flat_insert_sorted v s Hs)) as (H1 & H2 & H3 & H4).
  destruct (flat_insert_perm v s) as (P1 & P2 & P3). cbn [length]. split_and!; [done|lia| |].
  - intros E. rewrite H3, P2 by lia. symmetry. apply (Permutation_middle l s v).
  - intros Hd. cbn [app] in Hd. rewrite fmap_cons, fmap_app in Hd. apply NoDup_cons in Hd as [Hv Hd].
    rewrite not_elem_of_app in Hv. specialize (P3 ltac:(tauto)). rewrite H4, P3.
    + symmetry. apply (Permutation_middle l s v).
    + rewrite fmap_app, P3, fmap_cons, <- Permutation_middle. constructor; [|done].
      rewrite not_elem_of_app. tauto.
Qed.

Lemma key_sorted_NoDup l : key_sorted l -> NoDup (sha256_key <$> l).
Proof.
  unfold key_sorted. induction (sha256_key <$> l) as [|k ks IH]; intros Hs; [apply NoDup_nil_2|].
  apply StronglySorted_inv in Hs as [Hs Hk]. constructor; [|by apply IH].
  intros Hin. rewrite Forall_forall in Hk. specialize (Hk _ Hin). lia.
Qed.

(** Activating protocol features: the new set is built exactly when no
    digest is activated twice (neither repeated in the header nor active
    already), otherwise the header extension is rejected; the new set has the
    old and the new digests and is sorted. *)
Theorem activation_set_correct (orig additional : list sha256) :
  (NoDup (sha256_key <$> (orig ++ additional)) ->
     exists s, protocol_feature_activation_set orig additional true = Ok s /\
       key_sorted s /\ s ≡ₚ orig ++ additional) /\
  (~ NoDup (sha256_key <$> (orig ++ additional)) ->
     protocol_feature_activation_set orig additional true = Err invalid_block_header_extension).
Proof.
  unfold protocol_feature_activation_set. cbn [negb orb].
  set (s2 := merge_sort _ _). assert (s2 ≡ₚ additional) as Hp by (subst s2; apply merge_sort_Permutation).
  destruct (flat_inserts (set_union orig s2) [] ltac:(constructor)) as (Hs & Hle & Hlen & Hnd).
  set (r := foldl _ _ _) in *. rewrite app_nil_r in Hlen, Hnd. cbn [length Nat.add] in Hle, Hlen.
  destruct (set_union_perm orig s2) as [Hu1 Hu2]. unfold vsize. split.
  - intros Hd. rewrite <- Hp in Hd.
    assert (set_union orig s2 ≡ₚ orig ++ s2) as Eu.
    { apply set_union_disjoint. intros x y Hx Hy E. rewrite fmap_app in Hd.
      apply NoDup_app in Hd as (_ & Hd & _). apply (Hd (sha256_key x)); [by apply list_elem_of_fmap_2|].
      rewrite E. by apply list_elem_of_fmap_2. }
    rewrite Eu in Hnd. specialize (Hnd Hd). exists r. rewrite Hnd at 1. rewrite length_app.
    rewrite EOS_ASSERT_true by lia. split; [done|]. split; [done|]. by rewrite Hnd, Hp.
  - intros Hd. unfold EOS_ASSERT. destruct (Z.eqb_spec (Z.of_nat (length r)) (Z.of_nat (length orig) + Z.of_nat (length s2))) as [E|E];
      [|done]. destruct Hd. rewrite <- Hp, <- Hu2, <- Hlen by lia. by apply key_sorted_NoDup.
Qed.

(** ** Byte formats *)

(** The members are packed in the order FC_REFLECT lists them; a [std::variant]
    is packed as its index and its value. *)
#[global] Instance Packable_diff_result {T} `{Packable T} : Packable (diff_result T) := Packable_struct
  (fun d => (UInt (n := 2) <$> remove_indexes d, (fun x => (UInt (n := 2) x.1, x.2)) <$> insert_indexes d))
  (fun '(r, i) => {| remove_indexes := uint_value <$> r; insert_indexes := (fun x => (uint_value x.1, x.2)) <$> i |}).

#[global] Instance PackLaws_diff_result {T} `{PackLaws T} : PackLaws (diff_result T).
Proof.
  apply PackLaws_struct. intros [r i]. cbn. f_equal.
  - rewrite <- list_fmap_compose. by rewrite list_fmap_id.
  - rewrite <- list_fmap_compose. rewrite <- (list_fmap_id i) at 2. apply list_fmap_ext. by intros ? [].
Qed.

Section Formats.
Context {PK K : Type} `{Packable PK} `{Packable K} `{!PackLaws PK} `{!PackLaws K}.

#[global] Instance Packable_finalizer_authority : Packable (finalizer_authority PK) := Packable_struct
  (fun a => (fa_description a, (UInt (n := 8) (fa_weight a), fa_public_key a)))
  (fun '(d, (w, k)) => {| fa_description := d; fa_weight := uint_value w; fa_public_key := k |}).
#[global] Instance PackLaws_finalizer_authority : PackLaws (finalizer_authority PK).
Proof. apply PackLaws_struct. by intros []. Qed.

#[global] Instance Packable_finalizer_policy : Packable (finalizer_policy PK) := Packable_struct
  (fun p => (UInt (n := 4) (fp_generation p), (UInt (n := 8) (fp_threshold p), fp_finalizers p)))
  (fun '(g, (t, f)) => {| fp_generation := uint_value g; fp_threshold := uint_value t; fp_finalizers := f |}).
#[global] Instance PackLaws_finalizer_policy : PackLaws (finalizer_policy PK).
Proof. apply PackLaws_struct. by intros []. Qed.

#[global] Instance Packable_finalizer_policy_diff : Packable (finalizer_policy_diff PK) := Packable_struct
  (fun p => (UInt (n := 4) (fpd_generation p), (UInt (n := 8) (fpd_threshold p), fpd_finalizers_diff p)))
  (fun '(g, (t, f)) => {| fpd_generation := uint_value g; fpd_threshold := uint_value t; fpd_finalizers_diff := f |}).
#[global] Instance PackLaws_finalizer_policy_diff : PackLaws (finalizer_policy_diff PK).
Proof. apply PackLaws_struct. by intros []. Qed.

#[global] Instance Packable_key_weight : Packable (key_weight K) := Packable_struct
  (fun k => (kw_key k, UInt (n := 2) (kw_weight k)))
  (fun '(k, w) => {| kw_key := k; kw_weight := uint_value w |}).
#[global] Instance PackLaws_key_weight : PackLaws (key_weight K).
Proof. apply PackLaws_struct. by intros []. Qed.

#[global] Instance Packable_block_signing_authority_v0 : Packable (block_signing_authority_v0 K) := Packable_struct
  (fun a => (UInt (n := 4) (bsa_threshold a), bsa_keys a))
  (fun '(t, k) => {| bsa_threshold := uint_value t; bsa_keys := k |}).
#[global] Instance PackLaws_block_signing_authority_v0 : PackLaws (block_signing_authority_v0 K).
Proof. apply PackLaws_struct. by intros []. Qed.

Definition pack_block_signing_authority (a : block_signing_authority K) : result (list Z) :=
  match a with authority_v0 a => i ← pack_unsigned_int 0; b ← pack a; mret (i ++ b) end.
Definition unpack_block_signing_authority (s : list Z) : result (block_signing_authority K * list Z) :=
  '(w, s) ← unpack_unsigned_int s;
  EOS_ASSERT (w =? 0) fc_assert_exception;;
  '(a, s) ← unpack s; mret (authority_v0 a, s).

#[global] Instance Packable_block_signing_authority : Packable (block_signing_authority K) := {|
  pack := pack_block_signing_authority; unpack := unpack_block_signing_authority;
  fits a := match a with authority_v0 a => fits a end |}.
#[global] Instance PackLaws_block_signing_authority : PackLaws (block_signing_authority K).
Proof.
  intros [a] bs rest Hf Hp. cbn [pack unpack fits Packable_block_signing_authority] in *.
  unfold pack_block_signing_authority, unpack_block_signing_authority in *.
  apply bind_Ok in Hp as (i & Ei & Hp). apply bind_Ok in Hp as (b & Eb & Hp). apply Ok_inj in Hp as <-.
  rewrite <- app_assoc, (unpack_pack_unsigned_int 0 i) by done. rewrite ret_bind. step_assert.
  by rewrite (unpack_pack a b rest Hf Eb).
Qed.

#[global] Instance Packable_producer_authority : Packable (producer_authority K) := Packable_struct
  (fun p => (UInt (n := 8) (pa_producer_name p), pa_authority p))
  (fun '(n, a) => {| pa_producer_name := uint_value n; pa_authority := a |}).
#[global] Instance PackLaws_producer_authority : PackLaws (producer_authority K).
Proof. apply PackLaws_struct. by intros []. Qed.

#[global] Instance Packable_producer_authority_schedule : Packable (producer_authority_schedule K) := Packable_struct
  (fun s => (UInt (n := 4) (sched_version s), sched_producers s))
  (fun '(v, p) => {| sched_version := uint_value v; sched_producers := p |}).
#[global] Instance PackLaws_producer_authority_schedule : PackLaws (producer_authority_schedule K).
Proof. apply PackLaws_struct. by intros []. Qed.

#[global] Instance Packable_proposer_policy : Packable (proposer_policy K) := Packable_struct
  (fun p => (UInt (n := 4) (pp_proposal_time p), pp_proposer_schedule p))
  (fun '(t, s) => {| pp_proposal_time := uint_value t; pp_proposer_schedule := s |}).
#[global] Instance PackLaws_proposer_policy : PackLaws (proposer_policy K).
Proof. apply PackLaws_struct. by intros []. Qed.

#[global] Instance Packable_proposer_policy_diff : Packable (proposer_policy_diff K) := Packable_struct
  (fun p => (UInt (n := 4) (ppd_version p), (UInt (n := 4) (ppd_proposal_time p), ppd_producer_auth_diff p)))
  (fun '(v, (t, d)) => {| ppd_version := uint_value v; ppd_proposal_time := uint_value t; ppd_producer_auth_diff := d |}).
#[global] Instance PackLaws_proposer_policy_diff : PackLaws (proposer_policy_diff K).
Proof. apply PackLaws_struct. by intros []. Qed.
End Formats.

(** ** Headers *)

Record legacy_producer_schedule (K : Type) : Type := {
  lps_version : Z;
  lps_producers : list (legacy_producer_key (K := K))
}.
Arguments lps_version {K} _.
Arguments lps_producers {K} _.

(** [extensions_type]: pairs of an id ([uint16_t]) and bytes. *)
Definition extensions_type : Type := list (Z * blob).

Record block_header (K : Type) : Type := {
  hdr_timestamp : Z;
  hdr_producer : Z;
  hdr_confirmed : Z;
  hdr_previous : sha256;
  hdr_transaction_mroot : sha256;
  hdr_action_mroot : sha256;
  hdr_schedule_version : Z;
  hdr_new_producers : option (legacy_producer_schedule K);
  hdr_header_extensions : extensions_type
}.
Arguments hdr_timestamp {K} _.
Arguments hdr_producer {K} _.
Arguments hdr_confirmed {K} _.
Arguments hdr_previous {K} _.
Arguments hdr_transaction_mroot {K} _.
Arguments hdr_action_mroot {K} _.
Arguments hdr_schedule_version {K} _.
Arguments hdr_new_producers {K} _.
Arguments hdr_header_extensions {K} _.

Record finality_extension (PK K : Type) : Type := {
  fx_qc_claim : qc_claim_t;
  fx_new_finalizer_policy_diff : option (finalizer_policy_diff PK);
  fx_new_proposer_policy_diff : option (proposer_policy_diff K)
}.
Arguments fx_qc_claim {PK K} _.
Arguments fx_new_finalizer_policy_diff {PK K} _.
Arguments fx_new_proposer_policy_diff {PK K} _.

(** [block_header_extension], the variant of the three extension types. *)
Inductive block_header_extension (PK K : Type) : Type :=
| protocol_feature_activation (protocol_features : list sha256)
| producer_schedule_change_extension (schedule : producer_authority_schedule K)
| finality_ext (f : finality_extension PK K).
Arguments protocol_feature_activation {PK K} _.
Arguments producer_schedule_change_extension {PK K} _.
Arguments finality_ext {PK K} _.

Definition protocol_feature_activation_id : Z := 0.
Definition producer_schedule_change_extension_id : Z := 1.
Definition finality_extension_id : Z := 2.
Definition proper_svnn_schedule_version : Z := 2 ^ 31.

(** [emplace_extension], and [emplace] of a [flat_multimap]: before the first
    greater id. *)
Fixpoint emplace_extension {A} (exts : list (Z * A)) (eid : Z) (data : A) : list (Z * A) :=
  match exts with
  | [] => [(eid, data)]
  | (id, d) :: exts' => if eid <? id then (eid, data) :: exts else (id, d) :: emplace_extension exts' eid data
  end.

(** [flat_multimap::find]. *)
Fixpoint find_ext {A} (exts : list (Z * A)) (eid : Z) : option A :=
  match exts with
  | [] => None
  | (id, d) :: exts => if id =? eid then Some d else find_ext exts eid
  end.

Section Header.
Context {PK K : Type} `{Packable PK} `{Packable K}.
Variable sha : list Z -> sha256.
Abbreviation block_header := (block_header K).
Abbreviation block_header_extension := (block_header_extension PK K).
Abbreviation finality_extension := (finality_extension PK K).

#[global] Instance Packable_legacy_producer_key : Packable (legacy_producer_key (K := K)) := Packable_struct
  (fun p => (UInt (n := 8) (lpk_producer_name p), lpk_block_signing_key p))
  (fun '(n, k) => {| lpk_producer_name := uint_value n; lpk_block_signing_key := k |}).
#[global] Instance Packable_legacy_producer_schedule : Packable (legacy_producer_schedule K) := Packable_struct
  (fun s => (UInt (n := 4) (lps_version s), lps_producers s))
  (fun '(v, p) => {| lps_version := uint_value v; lps_producers := p |}).

#[global] Instance Packable_block_header : Packable block_header := Packable_struct
  (fun h => (UInt (n := 4) (hdr_timestamp h), (UInt (n := 8) (hdr_producer h), (UInt (n := 2) (hdr_confirmed h),
     (hdr_previous h, (hdr_transaction_mroot h, (hdr_action_mroot h, (UInt (n := 4) (hdr_schedule_version h),
     (hdr_new_producers h, (fun x => (UInt (n := 2) x.1, x.2)) <$> hdr_header_extensions h)))))))))
  (fun '(t, (p, (c, (pr, (tm, (am, (sv, (np, ex)))))))) =>
     {| hdr_timestamp := uint_value t; hdr_producer := uint_value p; hdr_confirmed := uint_value c;
        hdr_previous := pr; hdr_transaction_mroot := tm; hdr_action_mroot := am;
        hdr_schedule_version := uint_value sv; hdr_new_producers := np;
        hdr_header_extensions := (fun x => (uint_value x.1, x.2)) <$> ex |}).

#[global] Instance Packable_finality_extension : Packable finality_extension := Packable_struct
  (fun f => (fx_qc_claim f, (fx_new_finalizer_policy_diff f, fx_new_proposer_policy_diff f)))
  (fun '(q, (f, p)) => {| fx_qc_claim := q; fx_new_finalizer_policy_diff := f; fx_new_proposer_policy_diff := p |}).

Definition hdr_digest (h : block_header) : result sha256 := b ← pack h; mret (sha b).
Definition hdr_block_num (h : block_header) : Z := u32 (num_from_id (hdr_previous h) + 1).
Definition calculate_id (h : block_header) : result sha256 :=
  d ← hdr_digest h; mret (stamp_block_num d (hdr_block_num h)).

Definition is_proper_svnn_block (h : block_header) : bool :=
  hdr_schedule_version h =? proper_svnn_schedule_version.

(** [decompose_t::extract]: the first type with the id unpacks the data (what
    follows the value is ignored); [None] when there is none. *)
Definition extract_extension (id : Z) (data : blob) : result (option (block_header_extension * bool)) :=
  if id =? protocol_feature_activation_id then
    '(v, _) ← unpack (A := list sha256) (blob_bytes data);
    pfa_reflector_init v;;
    mret (Some (protocol_feature_activation v, true))
  else if id =? producer_schedule_change_extension_id then
    '(v, _) ← unpack (A := producer_authority_schedule K) (blob_bytes data);
    mret (Some (producer_schedule_change_extension v, true))
  else if id =? finality_extension_id then
    '(v, _) ← unpack (A := finality_extension) (blob_bytes data);
    mret (Some (finality_ext v, true))
  else mret None.

(** The loop over the extensions; [first] is [i == 0]. *)
Fixpoint validate_extensions (first : bool) (id_type_lower_bound : Z) (exts : extensions_type)
    (results : list (Z * block_header_extension)) : result (list (Z * block_header_extension)) :=
  match exts with
  | [] => mret results
  | (id, data) :: exts =>
      EOS_ASSERT (id_type_lower_bound <=? id) invalid_block_header_extension;;
      match_ ← extract_extension id data;
      match match_ with
      | None => Err invalid_block_header_extension
      | Some (ext, enforce_unique) =>
          EOS_ASSERT (negb enforce_unique || (first || (id_type_lower_bound <? id))) invalid_block_header_extension;;
          validate_extensions false id exts (emplace_extension results id ext)
      end
  end.

Definition validate_and_extract_header_extensions (h : block_header)
    : result (list (Z * block_header_extension)) :=
  validate_extensions true 0 (hdr_header_extensions h) [].

Fixpoint extract_header_extension_loop (extension_id : Z) (exts : extensions_type)
    : result (option block_header_extension) :=
  match exts with
  | [] => mret None
  | (id, data) :: exts =>
      if extension_id <? id then mret None
      else if negb (id =? extension_id) then extract_header_extension_loop extension_id exts
      else
        match_ ← extract_extension id data;
        match match_ with
        | None => Err invalid_block_header_extension
        | Some (ext, _) => mret (Some ext)
        end
  end.

(** [std::ranges::is_sorted] of the extensions: pairs compare by id, then by
    their bytes, which are (signed) [char]s. *)
Fixpoint chars_ltb (a b : list Z) : bool :=
  let schar c := if c <? 128 then c else c - 256 in
  match a, b with
  | _, [] => false
  | [], _ :: _ => true
  | x :: a, y :: b => (schar x <? schar y) || (negb (schar y <? schar x) && chars_ltb a b)
  end.
Definition ext_ltb (a b : Z * blob) : bool :=
  (a.1 <? b.1) || (negb (b.1 <? a.1) && chars_ltb (blob_bytes a.2) (blob_bytes b.2)).
Fixpoint exts_sorted (exts : extensions_type) : bool :=
  match exts with
  | a :: ((b :: _) as exts') => negb (ext_ltb b a) && exts_sorted exts'
  | _ => true
  end.

Definition extract_header_extension (h : block_header) (extension_id : Z)
    : result (option block_header_extension) :=
  c_assert (exts_sorted (hdr_header_extensions h));;
  extract_header_extension_loop extension_id (hdr_header_extensions h).

Definition contains_header_extension (h : block_header) (extension_id : Z) : bool :=
  existsb (fun p => p.1 =? extension_id) (hdr_header_extensions h).

Definition is_legacy_block (h : block_header) : bool :=
  negb (contains_header_extension h finality_extension_id).

(** ** Header extensions, specified *)

(** An entry decodes to an extension of its id. *)
Definition decodes (e : Z * blob) (r : Z * block_header_extension) : Prop :=
  e.1 = r.1 /\ extract_extension e.1 e.2 = Ok (Some (r.2, true)).

Lemma extract_unique id data ext u : extract_extension id data = Ok (Some (ext, u)) -> u = true.
Proof.
  unfold extract_extension. intros Hx.
  destruct (_ =? _); [|destruct (_ =? _); [|destruct (_ =? _); [|done]]];
    apply bind_Ok in Hx as ([v r] & _ & Hx).
  - apply bind_Ok in Hx as (_ & _ & Hx). by apply Ok_inj in Hx as [= _ <-].
  - by apply Ok_inj in Hx as [= _ <-].
  - by apply Ok_inj in Hx as [= _ <-].
Qed.

Lemma emplace_last {A} (l : list (Z * A)) id x :
  Forall (fun e => e.1 <= id) l -> emplace_extension l id x = l ++ [(id, x)].
Proof.
  induction 1 as [|[i y] l Hi _ IH]; [done|]. cbn [emplace_extension fst] in *.
  destruct (Z.ltb_spec id i); [lia|]. by rewrite IH.
Qed.

Lemma validate_extensions_spec first lower exts results rs :
  Forall (fun e => e.1 <= lower) results ->
  validate_extensions first lower exts results = Ok rs <->
  exists rs', rs = results ++ rs' /\ Forall2 decodes exts rs' /\
    StronglySorted Z.lt exts.*1 /\
    match exts with [] => True | e :: _ => if (first : bool) then lower <= e.1 else lower < e.1 end.
Proof.
  revert first lower results; induction exts as [|[id data] exts IH]; intros first lower results Hr;
    cbn [validate_extensions].
  { split.
    - intros [= <-]. exists []. rewrite app_nil_r. split_and!; [done|done|constructor|done].
    - intros (rs' & -> & Hd & _). apply Forall2_nil_inv_l in Hd as ->. by rewrite app_nil_r. }
  split.
  - intros Hv. apply bind_Ok in Hv as (_ & Hle%EOS_ASSERT_Ok & Hv). apply bind_Ok in Hv as ([[ext u]|] & Ex & Hv); [|done].
    pose proof (extract_unique _ _ _ _ Ex) as ->. apply bind_Ok in Hv as (_ & Hu%EOS_ASSERT_Ok & Hv). cbn [negb orb] in Hu.
    assert (Forall (fun e => e.1 <= id) results) as Hr' by (eapply Forall_impl; [exact Hr|]; simpl; lia).
    rewrite emplace_last in Hv by done. apply IH in Hv as (rs' & -> & Hd & Hs & Hn).
    2: { apply Forall_app. split; [done|]. constructor; [simpl; lia|constructor]. }
    exists ((id, ext) :: rs'). rewrite <- app_assoc. split_and!; [done|by constructor| |destruct first; simpl in *; lia].
    rewrite fmap_cons. constructor; [done|]. destruct exts as [|e exts]; [constructor|].
    rewrite fmap_cons in *. apply StronglySorted_inv in Hs as [_ Hs]. constructor; [done|].
    eapply Forall_impl; [exact Hs|]. simpl in *. lia.
  - intros (rs' & -> & Hd & Hs & Hn). apply Forall2_cons_inv_l in Hd as ([i ext] & rs1 & [Ei Ex] & Hd & ->).
    cbn [fst snd] in Ei, Ex, Hn. subst i. rewrite fmap_cons in Hs. apply StronglySorted_inv in Hs as [Hs Hlt].
    rewrite EOS_ASSERT_true, ret_bind, Ex, ret_bind by (destruct first; lia).
    rewrite EOS_ASSERT_true, ret_bind by (destruct first; simpl; lia).
    assert (Forall (fun e => e.1 <= id) results) as Hr' by (eapply Forall_impl; [exact Hr|]; simpl; destruct first; lia).
    rewrite emplace_last by done. apply IH.
    { apply Forall_app. split; [done|]. constructor; [simpl; lia|constructor]. }
    exists rs1. rewrite <- app_assoc. split_and!; [done..|]. destruct exts; [done|].
    rewrite fmap_cons in Hlt. by apply Forall_cons_iff in Hlt as [? _].
Qed.

Lemma exts_sorted_ids exts : StronglySorted Z.lt exts.*1 -> exts_sorted exts = true.
Proof.
  induction exts as [|a exts IH]; intros Hs; [done|]. rewrite fmap_cons in Hs.
  apply StronglySorted_inv in Hs as [Hs Ha]. cbn [exts_sorted]. destruct exts as [|b exts]; [done|].
  rewrite IH by done. rewrite fmap_cons in Ha. apply Forall_cons_iff in Ha as [Hab _].
  unfold ext_ltb. by destruct (Z.ltb_spec b.1 a.1), (Z.ltb_spec a.1 b.1); try lia.
Qed.

Lemma extract_loop_find id exts rs :
  Forall2 decodes exts rs -> StronglySorted Z.lt exts.*1 ->
  extract_header_extension_loop id exts = Ok (find_ext rs id).
Proof.
  induction 1 as [|[i d] [j x] exts rs [Hij Hx] Hd IH]; intros Hs; [done|]. cbn [fst snd] in *. subst j.
  rewrite fmap_cons in Hs. apply StronglySorted_inv in Hs as [Hs Hi]. cbn [extract_header_extension_loop find_ext].
  destruct (Z.ltb_spec id i) as [Hlt|Hge].
  - destruct (Z.eqb_spec i id); [lia|]. clear -Hd Hi Hlt. symmetry. unfold mret, result_ret. f_equal.
    induction Hd as [|[a b] [c e] exts rs [Hac _] _ IH]; [done|]. rewrite fmap_cons in Hi.
    apply Forall_cons_iff in Hi as [Ha Hi]. cbn [fst find_ext] in *. destruct (Z.eqb_spec c id); [lia|auto].
  - destruct (Z.eqb_spec i id) as [->|Hne]; cbn [negb]; [by rewrite Hx|by apply IH].
Qed.

(** Header extensions: validation succeeds exactly on extensions in strictly
    increasing id order, each of a known type and with data that decodes, and
    returns them decoded, in that order; and on a validated header
    [extract_header_extension] finds the same extensions, without failing an
    assertion. *)
Theorem header_extensions_correct (h : block_header) :
  (forall rs, validate_and_extract_header_extensions h = Ok rs <->
     Forall2 decodes (hdr_header_extensions h) rs /\ StronglySorted Z.lt (hdr_header_extensions h).*1 /\
     match hdr_header_extensions h with [] => True | e :: _ => 0 <= e.1 end) /\
  (forall rs id, validate_and_extract_header_extensions h = Ok rs ->
     extract_header_extension h id = Ok (find_ext rs id)).
Proof.
  assert (forall rs, validate_and_extract_header_extensions h = Ok rs <->
     Forall2 decodes (hdr_header_extensions h) rs /\ StronglySorted Z.lt (hdr_header_extensions h).*1 /\
     match hdr_header_extensions h with [] => True | e :: _ => 0 <= e.1 end) as Hiff.
  { intros rs. unfold validate_and_extract_header_extensions. rewrite validate_extensions_spec by constructor.
    split; [intros (rs' & -> & ?); done|]. intros (? & ? & ?). by exists rs. }
  split; [exact Hiff|]. intros rs id (Hd & Hs & _)%Hiff. unfold extract_header_extension.
  rewrite exts_sorted_ids by done. by apply extract_loop_find.
Qed.

(** A block's id carries its number: the number read from the id that
    [calculate_id] computes is the number of the block, and a block whose
    [previous] is that id has the next number, until [uint32_t] wraps. *)
Theorem block_id_numbers (h child : block_header) (id : sha256) :
  calculate_id h = Ok id ->
  num_from_id id = hdr_block_num h /\
  (hdr_previous child = id -> hdr_block_num h + 1 < 2 ^ 32 -> hdr_block_num child = hdr_block_num h + 1).
Proof.
  unfold calculate_id. intros Hid. apply bind_Ok in Hid as (d & _ & Hid). apply Ok_inj in Hid as <-.
  assert (num_from_id (stamp_block_num d (hdr_block_num h)) = hdr_block_num h) as E
    by (apply num_from_id_stamp, u32_range).
  split; [done|]. intros Hp Hlt. unfold hdr_block_num at 1. rewrite Hp, E, u32_small; [done|].
  pose proof (u32_range (num_from_id (hdr_previous h) + 1)). unfold hdr_block_num in *. lia.
Qed.
End Header.

(** Times and slots: converting a slot to a time and back is the identity,
    and a time from the epoch on is rounded down to the slot that contains it. *)
Theorem timestamp_roundtrip (slot t : Z) :
  is_u32 slot ->
  to_time_point 0 <= t < to_time_point 0 + 500000 * 2 ^ 32 ->
  set_time_point (to_time_point slot) = slot /\
  to_time_point (set_time_point t) <= t < to_time_point (set_time_point t) + 500000.
Proof.
  intros Hs Ht. rewrite to_time_point_value in Ht by done. unfold block_timestamp_epoch in Ht.
  assert (forall u, (0 * 500 + 946684800000) * 1000 <= u < (0 * 500 + 946684800000) * 1000 + 500000 * 2 ^ 32 ->
    set_time_point u = (u / 1000 - 946684800000) / 500) as Hset.
  { intros u Hu. unfold set_time_point, block_timestamp_epoch, block_interval_ms.
    rewrite Z.quot_div_nonneg by lia. pose proof (Z.mod_pos_bound u 1000 eq_refl).
    pose proof (Z.div_mod u 1000 ltac:(lia)). rewrite u64_small by lia. rewrite u32_small; [done|].
    split; [apply Z.div_pos; lia|]. apply Z.div_lt_upper_bound; lia. }
  split.
  - rewrite to_time_point_value by done. unfold is_u32, block_timestamp_epoch in *. rewrite Hset by lia.
    rewrite Z.div_mul by lia. rewrite Z.add_simpl_r. by rewrite Z.div_mul.
  - rewrite Hset by lia. pose proof (Z.mod_pos_bound t 1000 eq_refl). pose proof (Z.div_mod t 1000 ltac:(lia)).
    set (m := t / 1000 - 946684800000) in *.
    pose proof (Z.mod_pos_bound m 500 eq_refl). pose proof (Z.div_mod m 500 ltac:(lia)).
    rewrite to_time_point_value; unfold is_u32, block_timestamp_epoch; lia.
Qed.

Lemma timestamp_roundtrip_witness :
  let t := 1700000000123456 in
  set_time_point (to_time_point 1506630400) = 1506630400 /\
  to_time_point (set_time_point t) <= t < to_time_point (set_time_point t) + 500000.
Proof.
  apply (timestamp_roundtrip 1506630400 1700000000123456).
  - split; vm_compute; congruence.
  - split; vm_compute; congruence.
Defined.

(** ** Concrete headers *)

(** Keys of eight bytes and a stand-in for the hash. *)
Definition toy_sha (bs : list Z) : sha256 := Sha256 (u64 (le_value bs)) (u64 (vsize bs)) 7 7.

Definition toy_header (previous : sha256) (timestamp : Z) (exts : extensions_type) : block_header (uint 8) := {|
  hdr_timestamp := timestamp; hdr_producer := 5; hdr_confirmed := 0; hdr_previous := previous;
  hdr_transaction_mroot := sha256_zero; hdr_action_mroot := sha256_zero;
  hdr_schedule_version := proper_svnn_schedule_version; hdr_new_producers := None;
  hdr_header_extensions := exts |}.

Lemma block_id_numbers_witness :
  exists id, calculate_id toy_sha (toy_header sha256_zero 100 []) = Ok id /\ num_from_id id = 1 /\
    hdr_block_num (toy_header id 101 []) = 2.
Proof.
  destruct (calculate_id toy_sha (toy_header sha256_zero 100 [])) as [id|] eqn:E; [|discriminate E].
  exists id. split; [done|].
  destruct (block_id_numbers toy_sha (toy_header sha256_zero 100 []) (toy_header id 101 []) id E) as [H1 H2].
  split; [rewrite H1; vm_compute; reflexivity|]. rewrite H2; [vm_compute; reflexivity|done|vm_compute; reflexivity].
Defined.
