(* ===== verification/BlockHeaderState.v ===== *)
(** [block_header_state] (chain/include/eosio/chain/block_header_state.hpp and
    chain/block_header_state.cpp): the state of a Savanna chain at a block, its
    digests, the promotion of proposer and finalizer policies, and the two ways
    to the next state, from the inputs of a producer and from a received header.

    [proposer_policy_ptr]s are compared as pointers, so they carry an address;
    the address of the policy that [finish_next] allocates is an argument.
    Finalizer policies are never compared as pointers and are values.  The hash
    function [sha] is a parameter. *)
From Stdlib Require Import ZArith Lia ZifyBool.
From stdpp Require Import base tactics numbers list.
From S2P Require Import Prelude Digest Raw Merkle FinalityCore OrderedDiff FinalizerPolicy ProducerSchedule BlockHeader.
#[local] Open Scope Z_scope.

Definition light_header_protocol_version_major : Z := 1.
Definition light_header_protocol_version_minor : Z := 0.

(** [std::shared_ptr] that is not null; [==] compares addresses. *)
Record ptr (A : Type) : Type := Ptr { addr : Z; deref : A }.
Arguments Ptr {A} _ _.
Arguments addr {A} _.
Arguments deref {A} _.

Definition ptr_eqb {A} (p q : ptr A) : bool := addr p =? addr q.
Definition opt_ptr_eqb {A} (p : ptr A) (q : option (ptr A)) : bool :=
  match q with Some q => ptr_eqb p q | None => false end.

Section BlockHeaderState.
Context {PK K : Type} `{EqDecision PK} `{EqDecision K} `{Packable PK} `{Packable K}.
Variable sha : list Z -> sha256.
Abbreviation finalizer_policy := (finalizer_policy PK).
Abbreviation proposer_policy := (proposer_policy K).
Abbreviation proposer_policy_ptr := (ptr proposer_policy).
Abbreviation block_header := (block_header K).
Abbreviation block_header_extension := (block_header_extension PK K).
Abbreviation finality_extension := (finality_extension PK K).

(** ** Data *)

Record level_3_commitments_t : Type := {
  l3_reversible_blocks_mroot : sha256;
  l3_latest_qc_claim_block_num : Z;
  l3_latest_qc_claim_finality_digest : sha256;
  l3_latest_qc_claim_timestamp : Z;
  l3_timestamp : Z;
  l3_base_digest : sha256
}.

Record level_2_commitments_t : Type := {
  l2_last_pending_fin_pol_digest : sha256;
  l2_last_pending_fin_pol_start_timestamp : Z;
  l2_l3_commitments_digest : sha256
}.

Record finality_digest_data_v1 : Type := {
  fd_major_version : Z;
  fd_minor_version : Z;
  fd_active_finalizer_policy_generation : Z;
  fd_last_pending_finalizer_policy_generation : Z;
  fd_finality_tree_digest : sha256;
  fd_l2_commitments_digest : sha256
}.

Definition pack_level_3 (c : level_3_commitments_t) : result (list Z) :=
  pack (l3_reversible_blocks_mroot c, (UInt (n := 4) (l3_latest_qc_claim_block_num c),
    (l3_latest_qc_claim_finality_digest c, (UInt (n := 4) (l3_latest_qc_claim_timestamp c),
    (UInt (n := 4) (l3_timestamp c), l3_base_digest c))))).
Definition pack_level_2 (c : level_2_commitments_t) : result (list Z) :=
  pack (l2_last_pending_fin_pol_digest c, (UInt (n := 4) (l2_last_pending_fin_pol_start_timestamp c),
    l2_l3_commitments_digest c)).
Definition pack_finality_digest_data (d : finality_digest_data_v1) : result (list Z) :=
  pack (UInt (n := 4) (fd_major_version d), (UInt (n := 4) (fd_minor_version d),
    (UInt (n := 4) (fd_active_finalizer_policy_generation d),
    (UInt (n := 4) (fd_last_pending_finalizer_policy_generation d),
    (fd_finality_tree_digest d, fd_l2_commitments_digest d))))).

Record finalizer_policies_t : Type := {
  fps_finality_digest : sha256;
  fps_active_finalizer_policy : finalizer_policy;
  fps_pending_finalizer_policy : option finalizer_policy
}.

Record block_header_state_input : Type := {
  in_parent_id : sha256;
  in_timestamp : Z;
  in_producer : Z;
  in_new_protocol_feature_activations : list sha256;
  in_transaction_mroot : sha256;
  in_new_proposer_policy : option proposer_policy;
  in_new_finalizer_policy : option finalizer_policy;
  in_most_recent_ancestor_with_qc : qc_claim_t;
  in_finality_mroot_claim : sha256
}.

Record block_header_state : Type := {
  block_id : sha256;
  header : block_header;
  activated_protocol_features : list sha256;
  core : finality_core;
  active_finalizer_policy : finalizer_policy;
  active_proposer_policy : proposer_policy_ptr;
  latest_proposed_proposer_policy : option proposer_policy_ptr;
  latest_pending_proposer_policy : option proposer_policy_ptr;
  proposed_finalizer_policies : list (Z * finalizer_policy);
  pending_finalizer_policy : option (Z * finalizer_policy);
  latest_qc_claim_block_active_finalizer_policy : option finalizer_policy;
  finalizer_policy_generation : Z;
  last_pending_finalizer_policy_digest : sha256;
  last_pending_finalizer_policy_start_timestamp : Z;
  header_exts : list (Z * block_header_extension)
}.

Definition bhs_timestamp (s : block_header_state) : Z := hdr_timestamp (header s).
Definition bhs_block_num (s : block_header_state) : Z := u32 (num_from_id (hdr_previous (header s)) + 1).
Definition finality_mroot (s : block_header_state) : sha256 :=
  if is_proper_svnn_block (header s) then hdr_action_mroot (header s) else sha256_zero.
Definition is_savanna_genesis_block (s : block_header_state) : result bool :=
  is_genesis_block_num (core s) (bhs_block_num s).
Definition is_needed (s : block_header_state) (qc_claim : qc_claim_t) : result bool :=
  latest ← latest_qc_claim (core s); mret (negb (claim_leb qc_claim latest)).
Definition last_qc_block_timestamp (s : block_header_state) : result Z :=
  claim ← latest_qc_claim (core s); r ← get_block_reference (core s) (claim_block_num claim);
  mret (ref_timestamp r).

(** ** Policies *)

Definition get_last_proposed_finalizer_policy (s : block_header_state) : finalizer_policy :=
  match last (proposed_finalizer_policies s) with
  | Some p => p.2
  | None => match pending_finalizer_policy s with
            | Some p => p.2
            | None => active_finalizer_policy s
            end
  end.

Definition get_last_pending_finalizer_policy (s : block_header_state) : finalizer_policy :=
  match pending_finalizer_policy s with Some p => p.2 | None => active_finalizer_policy s end.

Definition get_last_proposed_proposer_policy (s : block_header_state) : proposer_policy :=
  match latest_proposed_proposer_policy s with
  | Some p => deref p
  | None => match latest_pending_proposer_policy s with
            | Some p => deref p
            | None => deref (active_proposer_policy s)
            end
  end.

(** [get_active_proposer_policy_for_block_at] after its assertion. *)
Definition proposer_policy_at (s : block_header_state) (next_block_timestamp : Z)
    : result proposer_policy_ptr :=
  if in_same_round next_block_timestamp (bhs_timestamp s) then mret (active_proposer_policy s)
  else
    match latest_proposed_proposer_policy s, latest_pending_proposer_policy s with
    | None, None => mret (active_proposer_policy s)
    | proposed, pending =>
        use_proposed ← (match proposed, get_prior_round_start_slot (bhs_timestamp s) with
                        | Some p, Some prior_round_start_slot =>
                            if pp_proposal_time (deref p) <? prior_round_start_slot then
                              final ← last_final_block_timestamp (core s);
                              mret (if pp_proposal_time (deref p) <=? final then Some p else None)
                            else mret None
                        | _, _ => mret None
                        end);
        match use_proposed with
        | Some p => mret p
        | None =>
            match pending with
            | Some p =>
                final ← last_final_block_timestamp (core s);
                mret (if pp_proposal_time (deref p) <=? final then p else active_proposer_policy s)
            | None => mret (active_proposer_policy s)
            end
        end
    end.

Definition get_active_proposer_policy_for_block_at (s : block_header_state) (next_block_timestamp : Z)
    : result proposer_policy_ptr :=
  c_assert (bhs_timestamp s <? next_block_timestamp);; proposer_policy_at s next_block_timestamp.

Definition bhs_get_scheduled_producer (s : block_header_state) (t : Z) : result (producer_authority K) :=
  get_scheduled_producer (pp_proposer_schedule (deref (active_proposer_policy s))) t.

Definition get_producer_for_block_at (s : block_header_state) (next_block_timestamp : Z)
    : result (producer_authority K) :=
  c_assert (bhs_timestamp s <? next_block_timestamp);;
  p ← get_active_proposer_policy_for_block_at s next_block_timestamp;
  get_scheduled_producer (pp_proposer_schedule (deref p)) next_block_timestamp.

Definition pending_producers (s : block_header_state) : option (producer_authority_schedule K) :=
  (fun p => pp_proposer_schedule (deref p)) <$> latest_pending_proposer_policy s.

(** A disjunction that stops at the first true operand. *)
Definition or_else (a : bool) (b : result bool) : result bool := if a then mret true else b.

Definition get_finalizer_policies (s : block_header_state) (ref : block_ref) : result finalizer_policies_t :=
  in_range ← or_else (is_empty (links (core s)))
    (latest ← latest_qc_claim (core s); current ← current_block_num (core s);
     mret ((claim_block_num latest <=? ref_block_num ref) && (ref_block_num ref <=? current)));
  c_assert in_range;;
  let active_gen := ref_active_policy_generation ref in
  c_assert (negb (active_gen =? 0));;
  active ←
    (if fp_generation (active_finalizer_policy s) =? active_gen then mret (active_finalizer_policy s)
     else
       c_assert (match pending_finalizer_policy s with
                 | None => true | Some p => active_gen <? fp_generation p.2 end);;
       match latest_qc_claim_block_active_finalizer_policy s with
       | None => Err assertion_failed
       | Some p =>
           c_assert (fp_generation p =? active_gen);;
           EOS_ASSERT (fp_generation p =? active_gen) chain_exception;;
           mret p
       end);
  let pending_gen := ref_pending_policy_generation ref in
  pending ←
    (if pending_gen =? 0 then mret None
     else if pending_gen =? fp_generation (active_finalizer_policy s) then mret (Some (active_finalizer_policy s))
     else
       match pending_finalizer_policy s with
       | None => Err assertion_failed
       | Some p =>
           c_assert (fp_generation p.2 =? pending_gen);;
           EOS_ASSERT (fp_generation p.2 =? pending_gen) chain_exception;;
           mret (Some p.2)
       end);
  mret {| fps_finality_digest := ref_finality_digest ref; fps_active_finalizer_policy := active;
          fps_pending_finalizer_policy := pending |}.

Definition get_active_finalizer_policy_generation (s : block_header_state) (num : Z) : result Z :=
  in_range ← or_else (is_empty (links (core s)))
    (final ← last_final_block_num (core s); current ← current_block_num (core s);
     mret ((final <=? num) && (num <=? current)));
  c_assert in_range;;
  if num =? bhs_block_num s then mret (fp_generation (active_finalizer_policy s))
  else r ← get_block_reference (core s) num; mret (ref_active_policy_generation r).
(** ** Digests *)

(** Pointers are packed like optionals. *)
Definition compute_base_digest (s : block_header_state) : result sha256 :=
  h ← pack (header s);
  c ← pack_for_digest (core s);
  pr ← pack ((fun x => (UInt (n := 4) x.1, Some x.2)) <$> proposed_finalizer_policies s);
  pe ← pack ((fun x : Z * finalizer_policy => (UInt (n := 4) x.1, Some x.2)) <$> pending_finalizer_policy s);
  ap ← pack (deref (active_proposer_policy s));
  lp ← pack (deref <$> latest_proposed_proposer_policy s);
  le ← pack (deref <$> latest_pending_proposer_policy s);
  pf ← pack (activated_protocol_features s);
  mret (sha (h ++ c ++ pr ++ pe ++ ap ++ lp ++ le ++ pf)).

Definition compute_finality_digest (s : block_header_state) : result sha256 :=
  latest ← latest_qc_claim (core s);
  blk_ref ← (if is_genesis_core (core s) then mret block_ref_default
             else get_block_reference (core s) (claim_block_num latest));
  mroot ← get_reversible_blocks_mroot sha (core s);
  base ← compute_base_digest s;
  l3 ← pack_level_3 {| l3_reversible_blocks_mroot := mroot;
                       l3_latest_qc_claim_block_num := claim_block_num latest;
                       l3_latest_qc_claim_finality_digest := ref_finality_digest blk_ref;
                       l3_latest_qc_claim_timestamp := ref_timestamp blk_ref;
                       l3_timestamp := bhs_timestamp s; l3_base_digest := base |};
  l2 ← pack_level_2 {| l2_last_pending_fin_pol_digest := last_pending_finalizer_policy_digest s;
                       l2_last_pending_fin_pol_start_timestamp := last_pending_finalizer_policy_start_timestamp s;
                       l2_l3_commitments_digest := sha l3 |};
  fd ← pack_finality_digest_data
         {| fd_major_version := light_header_protocol_version_major;
            fd_minor_version := light_header_protocol_version_minor;
            fd_active_finalizer_policy_generation := fp_generation (active_finalizer_policy s);
            fd_last_pending_finalizer_policy_generation := fp_generation (get_last_pending_finalizer_policy s);
            fd_finality_tree_digest := finality_mroot s; fd_l2_commitments_digest := sha l2 |};
  mret (sha fd).

Definition bhs_make_block_ref (s : block_header_state) : result block_ref :=
  d ← compute_finality_digest s;
  mret {| ref_block_id := block_id s; ref_timestamp := bhs_timestamp s; ref_finality_digest := d;
          ref_active_policy_generation := fp_generation (active_finalizer_policy s);
          ref_pending_policy_generation :=
            match pending_finalizer_policy s with Some p => fp_generation p.2 | None => 0 end |}.

(** ** Promotion of policies *)

(** The index of the first proposed policy of a block after [lib]. *)
Fixpoint first_reversible (lib : Z) (l : list (Z * finalizer_policy)) : nat :=
  match l with
  | [] => 0
  | p :: l => if lib <? p.1 then 0 else S (first_reversible lib l)
  end.

(** [evaluate_finalizer_policies_for_promotion]: what it leaves in the next
    state, whose active policy and start time are still those of [prev] and
    whose other policies are empty. *)
Definition evaluate_finalizer_policies_for_promotion (prev : block_header_state) (next_core : finality_core)
    (next_block_num next_timestamp : Z)
    : result (finalizer_policy * option (Z * finalizer_policy) * list (Z * finalizer_policy) * Z) :=
  let active := active_finalizer_policy prev in
  let start := last_pending_finalizer_policy_start_timestamp prev in
  let prev_proposed := proposed_finalizer_policies prev in
  match pending_finalizer_policy prev, prev_proposed with
  | None, [] => mret (active, None, [], start)
  | prev_pending, _ =>
      lib ← last_final_block_num next_core;
      let '(active, pending, pending_slot_open) :=
        match prev_pending with
        | Some p => if p.1 <=? lib then (p.2, None, true) else (active, Some p, false)
        | None => (active, None, true)
        end in
      if is_empty prev_proposed then mret (active, pending, [], start)
      else
        let n := first_reversible lib prev_proposed in
        match (if (0 <? n)%nat then prev_proposed !! (n - 1)%nat else None) with
        | Some target =>
            if (pending_slot_open : bool) then
              mret (active, Some (next_block_num, target.2), drop n prev_proposed, next_timestamp)
            else mret (active, pending, target :: drop n prev_proposed, start)
        | None => mret (active, pending, prev_proposed, start)
        end
  end.

(** [evaluate_proposer_policies_for_promotion]: the active, latest proposed and
    latest pending policy of the next state, which start as those of [prev]. *)
Definition evaluate_proposer_policies_for_promotion (prev : block_header_state) (next_timestamp : Z)
    : result (proposer_policy_ptr * option proposer_policy_ptr * option proposer_policy_ptr) :=
  c_assert (bhs_timestamp prev <? next_timestamp);;
  new_policy ← get_active_proposer_policy_for_block_at prev next_timestamp;
  let active := active_proposer_policy prev in
  let proposed := latest_proposed_proposer_policy prev in
  let pending := latest_pending_proposer_policy prev in
  let '(active, proposed, pending) :=
    if negb (ptr_eqb new_policy active) then
      if opt_ptr_eqb new_policy proposed then (new_policy, None, None)
      else if opt_ptr_eqb new_policy pending then (new_policy, proposed, None)
      else (new_policy, proposed, pending)
    else (active, proposed, pending) in
  first ← first_block_of_round next_timestamp (bhs_timestamp prev);
  match proposed, pending with
  | Some p, None => if (first : bool) then mret (active, None, Some p) else mret (active, proposed, pending)
  | _, _ => mret (active, proposed, pending)
  end.

(** ** The next state *)

(** [next_header] and [exts] are what the caller has put into the next state;
    [fresh] is the address of a new proposer policy. *)
Definition finish_next (prev : block_header_state) (next_header : block_header)
    (exts : list (Z * block_header_extension)) (new_protocol_feature_activations : list sha256)
    (f_ext : finality_extension) (fresh : Z) : result block_header_state :=
  features ← (if negb (is_empty new_protocol_feature_activations) then
                protocol_feature_activation_set (activated_protocol_features prev)
                  new_protocol_feature_activations true
              else mret (activated_protocol_features prev));
  let next_timestamp := hdr_timestamp next_header in
  let next_block_num := hdr_block_num next_header in
  '(active_pp, proposed_pp, pending_pp) ← evaluate_proposer_policies_for_promotion prev next_timestamp;
  proposed_pp ← (match fx_new_proposer_policy_diff f_ext with
                 | Some d => p ← pp_apply_diff (get_last_proposed_proposer_policy prev) d;
                             mret (Some (Ptr fresh p))
                 | None => mret proposed_pp
                 end);
  parent_block ← bhs_make_block_ref prev;
  next_core ← next (core prev) parent_block (fx_qc_claim f_ext);
  '(active_fp, pending_fp, proposed_fp, start) ←
    evaluate_finalizer_policies_for_promotion prev next_core next_block_num next_timestamp;
  last_pending ← pack (match pending_fp with Some p => p.2 | None => active_fp end);
  '(generation, proposed_fp) ←
    (match fx_new_finalizer_policy_diff f_ext with
     | Some d =>
         p ← fp_apply_diff (get_last_proposed_finalizer_policy prev) d;
         c_assert (finalizer_policy_generation prev <? fp_generation p);;
         mret (fp_generation p, proposed_fp ++ [(next_block_num, p)])
     | None => mret (finalizer_policy_generation prev, proposed_fp)
     end);
  latest ← latest_qc_claim next_core;
  prev_generation ← get_active_finalizer_policy_generation prev (claim_block_num latest);
  claimed_active ←
    (if negb (prev_generation =? fp_generation active_fp) then
       r ← get_block_reference next_core (claim_block_num latest);
       ps ← get_finalizer_policies prev r;
       mret (Some (fps_active_finalizer_policy ps))
     else mret None);
  id ← calculate_id sha next_header;
  mret {| block_id := id; header := next_header; activated_protocol_features := features; core := next_core;
          active_finalizer_policy := active_fp; active_proposer_policy := active_pp;
          latest_proposed_proposer_policy := proposed_pp; latest_pending_proposer_policy := pending_pp;
          proposed_finalizer_policies := proposed_fp; pending_finalizer_policy := pending_fp;
          latest_qc_claim_block_active_finalizer_policy := claimed_active;
          finalizer_policy_generation := generation;
          last_pending_finalizer_policy_digest := sha last_pending;
          last_pending_finalizer_policy_start_timestamp := start; header_exts := exts |}.

(** [next(block_header_state_input&)]: the block is being produced. *)
Definition next_from_input (s : block_header_state) (input : block_header_state_input) (fresh : Z)
    : result block_header_state :=
  fp_diff ← (match in_new_finalizer_policy input with
             | Some p => d ← fp_create_diff (get_last_proposed_finalizer_policy s) p; mret (Some d)
             | None => mret None
             end);
  pp_diff ← (match in_new_proposer_policy input with
             | Some p => d ← pp_create_diff (get_last_proposed_proposer_policy s) p; mret (Some d)
             | None => mret None
             end);
  let new_f_ext := {| fx_qc_claim := in_most_recent_ancestor_with_qc input;
                      fx_new_finalizer_policy_diff := fp_diff; fx_new_proposer_policy_diff := pp_diff |} in
  f_bytes ← pack new_f_ext;
  let header_extensions := emplace_extension [] finality_extension_id (Blob f_bytes) in
  let exts := emplace_extension [] finality_extension_id (finality_ext new_f_ext) in
  '(header_extensions, exts) ←
    (if negb (is_empty (in_new_protocol_feature_activations input)) then
       pfa_bytes ← pack (in_new_protocol_feature_activations input);
       mret (emplace_extension header_extensions protocol_feature_activation_id (Blob pfa_bytes),
             emplace_extension exts protocol_feature_activation_id
               (protocol_feature_activation (in_new_protocol_feature_activations input)))
     else mret (header_extensions, exts));
  let h := {| hdr_timestamp := in_timestamp input; hdr_producer := in_producer input; hdr_confirmed := 0;
              hdr_previous := in_parent_id input; hdr_transaction_mroot := in_transaction_mroot input;
              hdr_action_mroot := in_finality_mroot_claim input;
              hdr_schedule_version := proper_svnn_schedule_version; hdr_new_producers := None;
              hdr_header_extensions := header_extensions |} in
  finish_next s h exts (in_new_protocol_feature_activations input) new_f_ext fresh.

(** [next(const signed_block_header&, validator_t&)]: the block was received;
    the validator may throw. *)
Definition next_from_header (validator : Z -> list sha256 -> list sha256 -> result unit)
    (s : block_header_state) (h : block_header) (fresh : Z) : result block_header_state :=
  producer ← get_producer_for_block_at s (hdr_timestamp h);
  EOS_ASSERT (sha256_eqb (hdr_previous h) (block_id s)) unlinkable_block_exception;;
  EOS_ASSERT (hdr_producer h =? pa_producer_name producer) wrong_producer;;
  EOS_ASSERT (match hdr_new_producers h with None => true | Some _ => false end) producer_schedule_exception;;
  exts ← validate_and_extract_header_extensions h;
  new_protocol_feature_activations ←
    (match find_ext exts protocol_feature_activation_id with
     | None => mret []
     | Some (protocol_feature_activation l) =>
         validator (bhs_timestamp s) (activated_protocol_features s) l;; mret l
     | Some _ => Err undefined_behavior
     end);
  match find_ext exts finality_extension_id with
  | None => Err invalid_block_header_extension
  | Some (finality_ext f_ext) =>
      (if is_proper_svnn_block h then
         meta ← next_metadata (core s) (fx_qc_claim f_ext);
         no_finality_tree ← is_genesis_block_num (core s) (meta_latest_qc_claim_block_num meta);
         EOS_ASSERT (bool_decide (no_finality_tree = sha256_empty (hdr_action_mroot h))) block_validate_exception
       else mret tt);;
      finish_next s h exts new_protocol_feature_activations f_ext fresh
  | Some _ => Err undefined_behavior
  end.
End BlockHeaderState.

Arguments block_header_state PK K : clear implicits.
Arguments block_header_state_input PK K : clear implicits.
