(* ===== verification/PolicyTransitions.v ===== *)
(** Policy transitions along a chain of [block_header_state]s
    (chain/block_header_state.cpp): which finalizer and proposer policies
    [finish_next] promotes, and that the finalizer policies of every block that
    a certificate can still be for are found again by [get_finalizer_policies],
    whatever was promoted since. *)
From Stdlib Require Import ZArith Lia ZifyBool.
From stdpp Require Import base tactics numbers list sorting.
From S2P Require Import Prelude Digest Raw Merkle FinalityCore OrderedDiff FinalizerPolicy ProducerSchedule BlockHeader BlockHeaderState.
#[local] Open Scope Z_scope.

Section Promotion.
Context {PK K : Type} `{EqDecision PK} `{EqDecision K} `{Packable PK} `{Packable K}.
Abbreviation block_header_state := (block_header_state PK K).
Abbreviation finalizer_policy := (finalizer_policy PK).

(** ** Finalizer policies *)

Lemma first_reversible_le lib (l : list (Z * finalizer_policy)) : (first_reversible lib l <= length l)%nat.
Proof. induction l as [|p l IH]; simpl; [lia|]. destruct (_ <? _); simpl; lia. Qed.

Lemma first_reversible_split lib (l : list (Z * finalizer_policy)) :
  StronglySorted Z.lt l.*1 ->
  take (first_reversible lib l) l = filter (fun p => p.1 <= lib) l /\
  drop (first_reversible lib l) l = filter (fun p => lib < p.1) l.
Proof.
  induction l as [|p l IH]; intros Hs; [done|]. rewrite fmap_cons in Hs. apply StronglySorted_inv in Hs as [Hs Hp].
  cbn [first_reversible]. rewrite !filter_cons. destruct (Z.ltb_spec lib p.1) as [Hlt|Hge].
  - rewrite decide_False, decide_True by lia. cbn [take drop].
    assert (Forall (fun x => lib < x.1) l) as Hl.
    { rewrite Forall_fmap in Hp. eapply Forall_impl; [exact Hp|]. simpl. lia. }
    clear -Hl. split; [|f_equal]; induction Hl as [|x l Hx _ IHl]; [done| |done|]; rewrite filter_cons.
    + by rewrite decide_False by lia.
    + rewrite decide_True by lia. by rewrite <- IHl.
  - rewrite decide_True, decide_False by lia. cbn [take drop]. destruct (IH Hs) as [-> ->]. done.
Qed.
(** The pending slot is open after a pending policy of a final block has
    become active, or when there is none. *)
Definition slot_open (lib : Z) (prev : block_header_state) : bool :=
  match pending_finalizer_policy prev with Some p => p.1 <=? lib | None => true end.

(** The rule of the comment above [evaluate_finalizer_policies_for_promotion],
    with [lib] the new last final block. *)
Record promoted (lib num ts : Z) (prev : block_header_state) (active : finalizer_policy)
    (pending : option (Z * finalizer_policy)) (proposed : list (Z * finalizer_policy)) (start : Z) : Prop := {
  (* 1: a pending policy of a final block becomes active *)
  pr_active : active = match pending_finalizer_policy prev with
                       | Some p => if p.1 <=? lib then p.2 else active_finalizer_policy prev
                       | None => active_finalizer_policy prev
                       end;
  (* 2.i, 2.iii: the newest final proposal takes an open slot *)
  pr_pending :
    pending = if slot_open lib prev
              then (fun t => (num, t.2)) <$> last (filter (fun p => p.1 <= lib) (proposed_finalizer_policies prev))
              else pending_finalizer_policy prev;
  (* 2.ii: older proposals are dropped, newer ones stay *)
  pr_proposed :
    let waiting := filter (fun p => lib < p.1) (proposed_finalizer_policies prev) in
    proposed = match last (filter (fun p => p.1 <= lib) (proposed_finalizer_policies prev)) with
               | Some t => if slot_open lib prev then waiting else t :: waiting
               | None => waiting
               end;
  pr_start :
    start = match last (filter (fun p => p.1 <= lib) (proposed_finalizer_policies prev)) with
            | Some t => if slot_open lib prev then ts else last_pending_finalizer_policy_start_timestamp prev
            | None => last_pending_finalizer_policy_start_timestamp prev
            end
}.

Lemma last_take_lookup {A} (l : list A) n :
  (n <= length l)%nat -> last (take n l) = if (0 <? n)%nat then l !! (n - 1)%nat else None.
Proof.
  intros Hn. rewrite last_lookup, length_take. replace (pred (n `min` length l)) with (n - 1)%nat by lia.
  destruct (Nat.ltb_spec 0 n); [by rewrite lookup_take_lt by lia|]. replace n with 0%nat by lia. done.
Qed.

(** The newest proposal of a final block. *)
Lemma newest_final lib (l : list (Z * finalizer_policy)) :
  StronglySorted Z.lt l.*1 ->
  (if (0 <? first_reversible lib l)%nat then l !! (first_reversible lib l - 1)%nat else None) =
  last (filter (fun p => p.1 <= lib) l).
Proof.
  intros Hs. destruct (first_reversible_split lib l Hs) as [<- _].
  symmetry. apply last_take_lookup, first_reversible_le.
Qed.

Lemma none_final lib (l : list (Z * finalizer_policy)) :
  StronglySorted Z.lt l.*1 -> last (filter (fun p => p.1 <= lib) l) = None -> filter (fun p => lib < p.1) l = l.
Proof.
  intros Hs Hn%last_None. destruct (first_reversible_split lib l Hs) as [Ht <-]. rewrite <- Ht in Hn.
  rewrite <- (take_drop (first_reversible lib l) l) at 3. by rewrite Hn.
Qed.

(** The second step of the evaluation, after the pending policy was looked at. *)
Lemma promotion_tail lib num ts (prev : block_header_state) active pending slot :
  StronglySorted Z.lt (proposed_finalizer_policies prev).*1 ->
  (active, pending, slot) =
    (match pending_finalizer_policy prev with
     | Some p => if p.1 <=? lib then p.2 else active_finalizer_policy prev
     | None => active_finalizer_policy prev
     end, if slot_open lib prev then None else pending_finalizer_policy prev, slot_open lib prev) ->
  let l := proposed_finalizer_policies prev in
  let n := first_reversible lib l in
  exists a p q t,
    (if is_empty l then mret (active, pending, [], last_pending_finalizer_policy_start_timestamp prev)
     else match (if (0 <? n)%nat then l !! (n - 1)%nat else None) with
          | Some target =>
              if (slot : bool) then mret (active, Some (num, target.2), drop n l, ts)
              else mret (active, pending, target :: drop n l, last_pending_finalizer_policy_start_timestamp prev)
          | None => mret (active, pending, l, last_pending_finalizer_policy_start_timestamp prev)
          end) = Ok (a, p, q, t) /\ promoted lib num ts prev a p q t.
Proof.
  intros Hs [= -> -> ->]. cbv zeta. destruct (first_reversible_split lib _ Hs) as [_ Hd].
  rewrite newest_final, Hd by done. pose proof (none_final lib _ Hs) as Hnone.
  destruct (is_empty (proposed_finalizer_policies prev)) eqn:Ee.
  - apply is_empty_true in Ee. eexists _, _, _, _. split; [done|].
    constructor; cbv zeta; rewrite ?Ee; [done|by destruct (slot_open lib prev)|done|done].
  - destruct (last (filter _ _)) as [t|] eqn:Et.
    + destruct (slot_open lib prev) eqn:Es; (eexists _, _, _, _; split; [done|]); constructor; cbv zeta; by rewrite ?Et, ?Es.
    + eexists _, _, _, _; (split; [done|]). constructor; cbv zeta; rewrite ?Et; [done| |by rewrite Hnone|done].
      by destruct (slot_open lib prev).
Qed.

(** Finalizer policy promotion follows the rule documented above the
    function: at most one policy is pending, the newest proposal of a final
    block takes an open pending slot, older proposals are dropped, and the start
    time is reset exactly when a policy becomes pending. *)
Theorem finalizer_promotion_correct (prev : block_header_state) (next_core : finality_core) (lib num ts : Z) :
  last_final_block_num next_core = Ok lib ->
  StronglySorted Z.lt (proposed_finalizer_policies prev).*1 ->
  exists active pending proposed start,
    evaluate_finalizer_policies_for_promotion prev next_core num ts = Ok (active, pending, proposed, start) /\
    promoted lib num ts prev active pending proposed start.
Proof.
  intros Hlib Hs. unfold evaluate_finalizer_policies_for_promotion. rewrite Hlib.
  pose proof (fun a p s => promotion_tail lib num ts prev a p s Hs) as Hgo. cbv zeta in Hgo.
  unfold slot_open in Hgo. destruct (pending_finalizer_policy prev) as [p|] eqn:Ep.
  - rewrite ret_bind. destruct (p.1 <=? lib).
    + exact (Hgo _ None true eq_refl).
    + exact (Hgo _ (Some p) false eq_refl).
  - destruct (proposed_finalizer_policies prev) as [|x l'] eqn:El; [|rewrite ret_bind];
      exact (Hgo (active_finalizer_policy prev) None true eq_refl).
Qed.

(** The policies in force and under way, oldest first, and their generations. *)
Definition under_way (active : finalizer_policy) (pending : option (Z * finalizer_policy))
    (proposed : list (Z * finalizer_policy)) : list finalizer_policy :=
  active :: match pending with Some p => [p.2] | None => [] end ++ proposed.*2.

Definition generations (active : finalizer_policy) (pending : option (Z * finalizer_policy))
    (proposed : list (Z * finalizer_policy)) : list Z :=
  fp_generation active :: match pending with Some p => [fp_generation p.2] | None => [] end
    ++ ((fun p => fp_generation p.2) <$> proposed).

Lemma generations_under_way active pending proposed :
  generations active pending proposed = fp_generation <$> under_way active pending proposed.
Proof.
  unfold generations, under_way. rewrite fmap_cons, fmap_app, <- list_fmap_compose. by destruct pending.
Qed.

(** What evaluation can do to the active and the pending policy. *)
Inductive transition (lib num : Z) (prev : block_header_state)
    : finalizer_policy -> option (Z * finalizer_policy) -> Prop :=
| tr_keep p : pending_finalizer_policy prev = Some p -> lib < p.1 ->
    transition lib num prev (active_finalizer_policy prev) (Some p)
| tr_activate p pending : pending_finalizer_policy prev = Some p -> p.1 <= lib ->
    pending = None \/ (exists t, pending = Some (num, t)) -> transition lib num prev p.2 pending
| tr_none pending : pending_finalizer_policy prev = None ->
    pending = None \/ (exists t, pending = Some (num, t)) ->
    transition lib num prev (active_finalizer_policy prev) pending.

Lemma sublist_fmap {A B} (f : A -> B) (l k : list A) : sublist l k -> sublist (f <$> l) (f <$> k).
Proof. induction 1; cbn; by constructor. Qed.

Lemma evaluate_transition (prev : block_header_state) next_core lib num ts a pe pr st :
  last_final_block_num next_core = Ok lib ->
  evaluate_finalizer_policies_for_promotion prev next_core num ts = Ok (a, pe, pr, st) ->
  transition lib num prev a pe /\
  sublist (under_way a pe pr) (under_way (active_finalizer_policy prev) (pending_finalizer_policy prev)
                                 (proposed_finalizer_policies prev)).
Proof.
  intros Hlib. unfold evaluate_finalizer_policies_for_promotion. cbv zeta. rewrite Hlib.
  set (l := proposed_finalizer_policies prev). set (n := first_reversible lib l).
  assert (forall t : Z * finalizer_policy, (if (0 <? n)%nat then l !! (n - 1)%nat else None) = Some t ->
    sublist (t.2 :: (drop n l).*2) l.*2) as Hsub.
  { intros t. destruct (Nat.ltb_spec 0 n); [intros Ht|done]. rewrite <- (take_drop (n - 1) l) at 2.
    rewrite (drop_S l t (n - 1)) by done. replace (S (n - 1)) with n by lia.
    rewrite fmap_app, fmap_cons. apply sublist_inserts_l. reflexivity. }
  destruct (pending_finalizer_policy prev) as [p|] eqn:Ep.
  - rewrite ret_bind. intros Hev. destruct (Z.leb_spec p.1 lib) as [Hle|Hlt]; destruct (is_empty l) eqn:Ee;
      [|destruct (if (0 <? n)%nat then _ else _) as [t|] eqn:Et| |destruct (if (0 <? n)%nat then _ else _) as [t|] eqn:Et];
      apply Ok_inj in Hev as [= <- <- <- <-]; (split; [econstructor; eauto|]); unfold under_way; cbn [app].
    + apply sublist_cons, sublist_skip, sublist_nil_l.
    + apply sublist_cons, sublist_skip. exact (Hsub t eq_refl).
    + apply sublist_cons. reflexivity.
    + apply sublist_skip, sublist_skip, sublist_nil_l.
    + apply sublist_skip, sublist_skip. by apply (Hsub t).
    + reflexivity.
  - intros Hev. unfold n in *. clear n. destruct l as [|x l'] eqn:El.
    { apply Ok_inj in Hev as [= <- <- <- <-]. split; [apply tr_none; auto|reflexivity]. }
    rewrite ret_bind in Hev. cbn [is_empty] in Hev. rewrite <- El in Hev, Hsub |- *.
    match type of Hev with match ?x with _ => _ end = _ => destruct x as [t|] eqn:Et end;
      apply Ok_inj in Hev as [= <- <- <- <-];
      (split; [apply tr_none; eauto|]); unfold under_way; cbn [app]; [|reflexivity].
    apply sublist_skip. exact (Hsub t eq_refl).
Qed.
End Promotion.

(** ** Finding the policies of earlier blocks *)

Section Retrieval.
Context {PK K : Type} `{EqDecision PK} `{EqDecision K} `{Packable PK} `{Packable K}.
Variable sha : list Z -> sha256.
Abbreviation block_header_state := (block_header_state PK K).
Abbreviation finalizer_policy := (finalizer_policy PK).

(** The state at the Savanna genesis block: no policy is under way and the
    core is the genesis core of the block. *)
Record genesis_state (s : block_header_state) : Prop := {
  gs_core : exists ts, core s = create_core_for_genesis_block (block_id s) ts;
  gs_num : num_from_id (block_id s) = bhs_block_num s;
  gs_pending : pending_finalizer_policy s = None;
  gs_proposed : proposed_finalizer_policies s = [];
  gs_claimed : latest_qc_claim_block_active_finalizer_policy s = None;
  gs_generation : 1 <= fp_generation (active_finalizer_policy s) <= finalizer_policy_generation s
}.

(** States reached by [finish_next] on headers that link to the state, with
    claims that meet the preconditions of [finality_core::next]; with all the
    states before, latest first. *)
Inductive bhs_history : list block_header_state -> block_header_state -> Prop :=
| history_genesis s : genesis_state s -> bhs_history [] s
| history_next ancestors s h exts pfa f_ext fresh parent s' :
    bhs_history ancestors s -> bhs_make_block_ref sha s = Ok parent ->
    next_pre (core s) parent (fx_qc_claim f_ext) -> hdr_previous h = block_id s ->
    finish_next sha s h exts pfa f_ext fresh = Ok s' -> bhs_history (s :: ancestors) s'.

Definition bhs_chain (s : block_header_state) : Prop := exists ancestors, bhs_history ancestors s.

Lemma chain_genesis s : genesis_state s -> bhs_chain s.
Proof. intros Hg. exists []. by apply history_genesis. Qed.

Lemma chain_next s h exts pfa f_ext fresh parent s' :
  bhs_chain s -> bhs_make_block_ref sha s = Ok parent ->
  next_pre (core s) parent (fx_qc_claim f_ext) -> hdr_previous h = block_id s ->
  finish_next sha s h exts pfa f_ext fresh = Ok s' -> bhs_chain s'.
Proof. intros [l Hl] Hp Hpre Hprev Hf. exists (s :: l). by eapply history_next. Qed.

Definition pending_gen (s : block_header_state) : Z :=
  match pending_finalizer_policy s with Some p => fp_generation p.2 | None => 0 end.
Definition active_gen (s : block_header_state) : Z := fp_generation (active_finalizer_policy s).

(** A block that a certificate can still be for, with the policies it was made
    under: those in force now, or the ones before the last activation. *)
Definition ref_tracked (s : block_header_state) (r : block_ref) : Prop :=
  (ref_active_policy_generation r = active_gen s /\
   (ref_pending_policy_generation r = 0 \/
    (ref_pending_policy_generation r = pending_gen s /\ pending_gen s <> 0))) \/
  (1 <= ref_active_policy_generation r < active_gen s /\ ref_pending_policy_generation r = active_gen s /\
   exists l, latest_qc_claim_block_active_finalizer_policy s = Some l /\
             fp_generation l = ref_active_policy_generation r).

Record policy_inv (s : block_header_state) (claim : Z) : Prop := {
  pi_core : core_inv (core s);
  pi_claim : exists m, latest_qc_claim (core s) = Ok m /\ claim_block_num m = claim;
  pi_current : current_block_num (core s) = Ok (bhs_block_num s);
  pi_id : num_from_id (block_id s) = bhs_block_num s;
  pi_gens : StronglySorted Z.lt (generations (active_finalizer_policy s) (pending_finalizer_policy s)
                                   (proposed_finalizer_policies s));
  pi_gens_range : Forall (fun g => 1 <= g <= finalizer_policy_generation s)
                    (generations (active_finalizer_policy s) (pending_finalizer_policy s)
                       (proposed_finalizer_policies s));
  pi_pending : forall p, pending_finalizer_policy s = Some p -> p.1 <= bhs_block_num s;
  pi_refs : forall r, r ∈ refs (core s) -> claim <= ref_block_num r -> ref_tracked s r;
  pi_pending_refs : forall r p, r ∈ refs (core s) -> claim <= ref_block_num r ->
    pending_finalizer_policy s = Some p -> p.1 <= ref_block_num r -> ref_pending_policy_generation r = fp_generation p.2;
  pi_mono : forall r r', r ∈ refs (core s) -> r' ∈ refs (core s) -> claim <= ref_block_num r ->
    ref_block_num r <= ref_block_num r' -> ref_active_policy_generation r <= ref_active_policy_generation r'
}.

(** The state as a reference, as [make_block_ref] makes it. *)
Definition own_ref (s : block_header_state) (r : block_ref) : Prop :=
  ref_block_id r = block_id s /\ ref_active_policy_generation r = active_gen s /\
  ref_pending_policy_generation r = pending_gen s.

Lemma make_block_ref_own s r : bhs_make_block_ref sha s = Ok r -> own_ref s r.
Proof. unfold bhs_make_block_ref. intros Hr. apply bind_Ok in Hr as (d & _ & Hr). by apply Ok_inj in Hr as <-. Qed.

Lemma gens_order s claim :
  policy_inv s claim -> 1 <= active_gen s /\
  forall p, pending_finalizer_policy s = Some p -> active_gen s < fp_generation p.2.
Proof.
  intros Hi. pose proof (pi_gens_range _ _ Hi) as Hr. pose proof (pi_gens _ _ Hi) as Hs. unfold generations in *.
  apply Forall_cons_iff in Hr as [Hr _]. split; [unfold active_gen; lia|]. intros p Ep. rewrite Ep in Hs.
  apply StronglySorted_inv in Hs as [_ Hs]. cbn [app] in Hs. by apply Forall_cons_iff in Hs as [? _].
Qed.

(** What [get_finalizer_policies] has to return for a reference. *)
Definition policies_of (r : block_ref) (ps : finalizer_policies_t (PK := PK)) : Prop :=
  fps_finality_digest ps = ref_finality_digest r /\
  fp_generation (fps_active_finalizer_policy ps) = ref_active_policy_generation r /\
  match fps_pending_finalizer_policy ps with
  | None => ref_pending_policy_generation r = 0
  | Some p => fp_generation p = ref_pending_policy_generation r
  end.

Lemma tracked_found s claim r :
  policy_inv s claim -> ref_tracked s r -> claim <= ref_block_num r <= bhs_block_num s ->
  exists ps, get_finalizer_policies s r = Ok ps /\ policies_of r ps.
Proof.
  intros Hi Ht Hn. destruct (gens_order s claim Hi) as [Ha1 Hap].
  destruct (pi_claim _ _ Hi) as (m & Em & Emc). unfold get_finalizer_policies, or_else.
  destruct (core_inv_ends _ (pi_core _ _ Hi)) as (first & lst & Hfirst & Hlst).
  rewrite (links_not_empty _ (pi_core _ _ Hi) first lst Hfirst Hlst), Em, ret_bind, (pi_current _ _ Hi), ret_bind.
  unfold mret at 1, result_ret at 1. rewrite ret_bind. step_assert by lia.
  assert (1 <= ref_active_policy_generation r) by (destruct Ht as [[-> _]|(? & _)]; lia).
  unfold ref_tracked, active_gen in *. rewrite (c_assert_true (negb _)) by lia. rewrite ret_bind.
  destruct Ht as [[Ea Hp]|(Hlt & Ep & l & El & Elg)].
  - rewrite Ea, Z.eqb_refl. unfold mret at 1, result_ret at 1. rewrite ret_bind.
    destruct Hp as [Ep|[Ep Hne]]; rewrite Ep.
    + eexists. split; [done|]. by split_and!.
    + unfold pending_gen in *. destruct (pending_finalizer_policy s) as [p|]; [|done]. specialize (Hap p eq_refl).
      destruct (Z.eqb_spec (fp_generation p.2) 0); [lia|].
      destruct (Z.eqb_spec (fp_generation p.2) (fp_generation (active_finalizer_policy s))); [lia|].
      rewrite Z.eqb_refl. eexists. split; [done|]. by split_and!.
  - destruct (Z.eqb_spec (fp_generation (active_finalizer_policy s)) (ref_active_policy_generation r)); [lia|].
    rewrite c_assert_true, ret_bind, El, Elg, Z.eqb_refl by
      (destruct (pending_finalizer_policy s) as [p|]; [specialize (Hap p eq_refl); lia|done]).
    rewrite Ep, Z.eqb_refl. destruct (Z.eqb_spec (fp_generation (active_finalizer_policy s)) 0); [lia|].
    eexists. split; [done|]. by split_and!.
Qed.
(** The parts of [finish_next] that matter for finalizer policies. *)
Record finished (s : block_header_state) (h : block_header K) (m : qc_claim_t) (parent : block_ref)
    (s' : block_header_state) : Prop := {
  fn_header : header s' = h;
  fn_id : calculate_id sha h = Ok (block_id s');
  fn_core : next (core s) parent m = Ok (core s');
  fn_evaluate : exists pr st, evaluate_finalizer_policies_for_promotion s (core s') (hdr_block_num h) (hdr_timestamp h)
      = Ok (active_finalizer_policy s', pending_finalizer_policy s', pr, st) /\
    ((proposed_finalizer_policies s' = pr /\ finalizer_policy_generation s' = finalizer_policy_generation s) \/
     exists p, proposed_finalizer_policies s' = pr ++ [(hdr_block_num h, p)] /\
       finalizer_policy_generation s' = fp_generation p /\ finalizer_policy_generation s < fp_generation p);
  fn_claimed : exists latest g, latest_qc_claim (core s') = Ok latest /\
    get_active_finalizer_policy_generation s (claim_block_num latest) = Ok g /\
    ((g = active_gen s' /\ latest_qc_claim_block_active_finalizer_policy s' = None) \/
     (g <> active_gen s' /\ exists r ps, get_block_reference (core s') (claim_block_num latest) = Ok r /\
        get_finalizer_policies s r = Ok ps /\
        latest_qc_claim_block_active_finalizer_policy s' = Some (fps_active_finalizer_policy ps)))
}.

Lemma finish_next_finished s h exts pfa f_ext fresh parent s' :
  bhs_make_block_ref sha s = Ok parent -> finish_next sha s h exts pfa f_ext fresh = Ok s' ->
  finished s h (fx_qc_claim f_ext) parent s'.
Proof.
  intros Hp Hf. unfold finish_next in Hf. apply bind_Ok in Hf as (features & _ & Hf).
  apply bind_Ok in Hf as ([[app ppp] epp] & _ & Hf). apply bind_Ok in Hf as (ppp' & _ & Hf).
  rewrite Hp, ret_bind in Hf. apply bind_Ok in Hf as (nc & Ec & Hf).
  apply bind_Ok in Hf as ([[[a pe] pr] st] & Ee & Hf). apply bind_Ok in Hf as (lp & _ & Hf).
  apply bind_Ok in Hf as ([g pr'] & Eg & Hf). apply bind_Ok in Hf as (latest & El & Hf).
  apply bind_Ok in Hf as (pg & Epg & Hf). apply bind_Ok in Hf as (ca & Eca & Hf).
  apply bind_Ok in Hf as (id & Eid & Hf). apply Ok_inj in Hf as <-. constructor; cbn; [done|done|done| |].
  - exists pr, st. split; [done|]. destruct (fx_new_finalizer_policy_diff f_ext) as [d|].
    + apply bind_Ok in Eg as (p & _ & Eg). apply bind_Ok in Eg as (_ & Hlt%c_assert_Ok & Eg).
      apply Ok_inj in Eg as [= <- <-]. right. exists p. split_and!; [done|done|lia].
    + apply Ok_inj in Eg as [= <- <-]. by left.
  - exists latest, pg. split_and!; [done|done|]. unfold active_gen. cbn.
    destruct (Z.eqb_spec pg (fp_generation a)) as [->|Hne]; cbn [negb] in Eca.
    + apply Ok_inj in Eca as <-. by left.
    + apply bind_Ok in Eca as (r & Er & Eca). apply bind_Ok in Eca as (ps & Eps & Eca).
      apply Ok_inj in Eca as <-. right. split; [done|]. by exists r, ps.
Qed.

(** The references of the next core: those of the old core from some point on,
    and the parent block. *)
Lemma next_refs c b m c' :
  core_inv c -> next_pre c b m -> next c b m = Ok c' -> next_post c b m c' /\
  exists k, refs c' = drop k (refs c) ++ [b].
Proof.
  intros Hinv Hpre Hn. destruct (next_ok c b m Hinv Hpre) as (c1 & E1 & Hpost).
  rewrite Hn in E1. apply Ok_inj in E1 as <-. split; [done|].
  destruct (core_inv_ends c Hinv) as (first & lst & Hfirst & Hlst).
  destruct (next_unfold c b m first lst Hinv Hfirst Hlst Hpre) as (i & l & _ & _ & _ & E).
  rewrite Hn in E. apply Ok_inj in E as ->. by eexists.
Qed.

Lemma generations_snoc (a : finalizer_policy) pe pr x :
  generations a pe (pr ++ [x]) = generations a pe pr ++ [fp_generation x.2].
Proof. unfold generations. rewrite fmap_app, app_assoc. done. Qed.

Lemma finished_gens s h m parent s' claim lib :
  policy_inv s claim -> finished s h m parent s' -> last_final_block_num (core s') = Ok lib ->
  transition lib (hdr_block_num h) s (active_finalizer_policy s') (pending_finalizer_policy s') /\
  StronglySorted Z.lt (generations (active_finalizer_policy s') (pending_finalizer_policy s')
                         (proposed_finalizer_policies s')) /\
  Forall (fun g => 1 <= g <= finalizer_policy_generation s')
    (generations (active_finalizer_policy s') (pending_finalizer_policy s') (proposed_finalizer_policies s')).
Proof.
  intros Hi Hf Hlib. destruct (fn_evaluate _ _ _ _ _ Hf) as (pr & st & Ee & Hpr).
  destruct (evaluate_transition _ _ _ _ _ _ _ _ _ Hlib Ee) as [Ht Hsub]. split; [done|].
  apply (sublist_fmap fp_generation) in Hsub. rewrite <- !generations_under_way in Hsub.
  pose proof (sublist_sorted _ _ _ Hsub (pi_gens _ _ Hi)) as Hs.
  pose proof (Forall_of_sublist _ _ _ Hsub (pi_gens_range _ _ Hi)) as Hr.
  destruct Hpr as [[-> ->]|(p & -> & -> & Hlt)]; [done|]. rewrite generations_snoc. cbn [snd]. split.
  - apply StronglySorted_app_2; [|done|repeat constructor].
    intros x y Hx ->%list_elem_of_singleton. rewrite Forall_forall in Hr. specialize (Hr x Hx). cbn in Hr. lia.
  - apply Forall_app. split; [eapply Forall_impl; [exact Hr|]; simpl; lia|].
    constructor; [|constructor]. apply Forall_cons_iff in Hr as [Hr _]. cbn in Hr. lia.
Qed.
(** Numbers of references: in range and unique. *)
Lemma ref_range c r cur :
  core_inv c -> current_block_num c = Ok cur -> r ∈ refs c -> ref_block_num r < cur.
Proof.
  intros Hinv Hcur Hr. destruct (core_inv_ends c Hinv) as (first & lst & Hfirst & Hlst).
  erewrite current_block_num_Ok in Hcur by eauto. apply Ok_inj in Hcur as <-.
  pose proof (core_inv_8 c Hinv first lst Hfirst Hlst). apply list_elem_of_lookup in Hr as [i Hi].
  rewrite (ref_num c Hinv first lst Hfirst Hlst i r Hi). apply lookup_lt_Some in Hi. unfold vsize in *. lia.
Qed.

Lemma ref_unique c r r' :
  core_inv c -> r ∈ refs c -> r' ∈ refs c -> ref_block_num r = ref_block_num r' -> r = r'.
Proof.
  intros Hinv [i Hi]%list_elem_of_lookup [j Hj]%list_elem_of_lookup E.
  destruct (core_inv_ends c Hinv) as (first & lst & Hfirst & Hlst).
  rewrite (ref_num c Hinv first lst Hfirst Hlst i r Hi), (ref_num c Hinv first lst Hfirst Hlst j r' Hj) in E.
  assert (i = j) as <- by lia. congruence.
Qed.

(** [get_block_reference] from the claimed block on. *)
Lemma reference_at c m cur n :
  core_inv c -> latest_qc_claim c = Ok m -> current_block_num c = Ok cur -> claim_block_num m <= n < cur ->
  exists r, get_block_reference c n = Ok r /\ r ∈ refs c /\ ref_block_num r = n.
Proof.
  intros Hinv Hm Hcur Hn. destruct (core_inv_ends c Hinv) as (first & lst & Hfirst & Hlst).
  pose proof (inv_2 c Hinv first lst Hfirst Hlst).
  erewrite current_block_num_Ok in Hcur by eauto. apply Ok_inj in Hcur as <-.
  erewrite latest_qc_claim_Ok in Hm by eauto. apply Ok_inj in Hm as <-. cbn [claim_block_num] in Hn.
  destruct (get_block_reference_Ok c Hinv first lst Hfirst Hlst n) as (r & E & En & Hl); [lia|].
  exists r. split_and!; [done| |done]. by eapply list_elem_of_lookup_2.
Qed.

Lemma own_ref_tracked s claim r :
  policy_inv s claim -> own_ref s r -> ref_tracked s r /\
  forall p, pending_finalizer_policy s = Some p -> ref_pending_policy_generation r = fp_generation p.2.
Proof.
  intros Hi (_ & Ea & Ep). split.
  - left. split; [done|]. rewrite Ep. destruct (Z.eq_dec (pending_gen s) 0); auto.
  - intros p E. rewrite Ep. unfold pending_gen. by rewrite E.
Qed.

(** The blocks the next state keeps track of, seen from the old state. *)
Record kept (s : block_header_state) (r : block_ref) : Prop := {
  kp_tracked : ref_tracked s r;
  kp_pending : forall p, pending_finalizer_policy s = Some p -> p.1 <= ref_block_num r ->
    ref_pending_policy_generation r = fp_generation p.2;
  kp_range : ref_block_num r <= bhs_block_num s;
  kp_above : forall r', own_ref s r' \/ (r' ∈ refs (core s) /\ ref_block_num r <= ref_block_num r') ->
    ref_active_policy_generation r <= ref_active_policy_generation r'
}.

Lemma kept_refs_next s claim parent q r :
  policy_inv s claim -> own_ref s parent -> claim <= q -> q <= ref_block_num r ->
  r = parent \/ r ∈ refs (core s) -> kept s r.
Proof.
  intros Hi Ho Hq Hr Hin. destruct (own_ref_tracked s claim parent Hi Ho) as [Ht Hp].
  assert (ref_block_num parent = bhs_block_num s) as En
    by (destruct Ho as (Hid & _); unfold ref_block_num; rewrite Hid; apply (pi_id _ _ Hi)).
  destruct Hin as [->|Hin].
  - constructor; [done|auto|lia|]. intros r' [(_ & Ea & _)|[Hin Hle]].
    + destruct Ho as (_ & Ea' & _). lia.
    + pose proof (ref_range _ _ _ (pi_core _ _ Hi) (pi_current _ _ Hi) Hin). lia.
  - pose proof (ref_range _ _ _ (pi_core _ _ Hi) (pi_current _ _ Hi) Hin).
    constructor; [apply (pi_refs _ _ Hi); [done|lia]| |lia|].
    + intros p Ep Hle. eapply (pi_pending_refs _ _ Hi); eauto. lia.
    + intros r' [(_ & Ea & _)|[Hin' Hle]]; [|apply (pi_mono _ _ Hi); done || lia].
      destruct (pi_refs _ _ Hi r Hin ltac:(lia)) as [[E _]|(Hlt & _)]; lia.
Qed.
(** The policy that the next state keeps for the claimed block. *)
Lemma claimed_active s claim h m parent s' rq :
  policy_inv s claim -> own_ref s parent -> finished s h m parent s' -> latest_qc_claim (core s') = Ok m ->
  get_block_reference (core s') (claim_block_num m) = Ok rq -> ref_block_num rq = claim_block_num m ->
  claim <= claim_block_num m -> rq = parent \/ rq ∈ refs (core s) ->
  ref_active_policy_generation rq = active_gen s' \/
  exists l, latest_qc_claim_block_active_finalizer_policy s' = Some l /\
            fp_generation l = ref_active_policy_generation rq.
Proof.
  intros Hi Ho Hf Em Erq Hrq Hq Hin. destruct (fn_claimed _ _ _ _ _ Hf) as (latest & g & El & Eg & Hg).
  rewrite Em in El. apply Ok_inj in El as <-.
  pose proof (kept_refs_next s claim parent _ rq Hi Ho Hq ltac:(lia) Hin) as Hk.
  assert (g = ref_active_policy_generation rq) as ->.
  { unfold get_active_finalizer_policy_generation in Eg. apply bind_Ok in Eg as (b & _ & Eg).
    apply bind_Ok in Eg as (_ & _ & Eg). destruct (Z.eqb_spec (claim_block_num m) (bhs_block_num s)) as [E|E].
    - apply Ok_inj in Eg as <-. destruct Hin as [->|Hin]; [symmetry; apply Ho|].
      pose proof (ref_range _ _ _ (pi_core _ _ Hi) (pi_current _ _ Hi) Hin). lia.
    - apply bind_Ok in Eg as (r & Er & Eg). apply Ok_inj in Eg as <-. f_equal.
      destruct (pi_claim _ _ Hi) as (m0 & Em0 & E0). pose proof (kp_range _ _ Hk).
      destruct (reference_at _ m0 _ (claim_block_num m) (pi_core _ _ Hi) Em0 (pi_current _ _ Hi)) as (r1 & E1 & Hr1 & Hn1); [lia|].
      rewrite Er in E1. apply Ok_inj in E1 as <-. apply (ref_unique (core s)); [apply (pi_core _ _ Hi)|done| |lia].
      destruct Hin as [->|Hin]; [|done]. destruct Ho as (Hid & _). unfold ref_block_num in Hrq.
      rewrite Hid, (pi_id _ _ Hi) in Hrq. lia. }
  destruct Hg as [[Hg _]|(_ & r & ps & Er & Eps & Hl)]; [by left|right].
  rewrite Erq in Er. apply Ok_inj in Er as <-. eexists. split; [exact Hl|].
  destruct (tracked_found s claim rq Hi (kp_tracked _ _ Hk)) as (ps' & Eps' & _ & Ha & _).
  { pose proof (kp_range _ _ Hk). lia. }
  rewrite Eps in Eps'. by apply Ok_inj in Eps' as <-.
Qed.

Lemma tracked_next s claim lib num s' rq r :
  policy_inv s claim -> transition lib num s (active_finalizer_policy s') (pending_finalizer_policy s') ->
  lib <= ref_block_num rq <= ref_block_num r -> kept s rq -> kept s r ->
  ref_active_policy_generation rq <= ref_active_policy_generation r ->
  (ref_active_policy_generation rq = active_gen s' \/
   exists l, latest_qc_claim_block_active_finalizer_policy s' = Some l /\
             fp_generation l = ref_active_policy_generation rq) ->
  ref_tracked s' r.
Proof.
  intros Hi Ht Hn Kq Kr Hle Hl. destruct (gens_order s claim Hi) as [Ha1 Hap].
  (* no activation: references before the current policy stay behind the kept one *)
  assert (active_gen s' = active_gen s ->
    (pending_gen s' = pending_gen s \/ pending_gen s = 0) -> ref_tracked s' r) as Hsame.
  { intros EA EP. destruct (kp_tracked _ _ Kr) as [[Ea Hp]|(Hlt & Ep & l & El & Elg)].
    - left. rewrite EA. split; [done|]. destruct Hp as [?|[? ?]]; [by left|]. destruct EP as [->|?]; [by right|lia].
    - right. rewrite EA. split_and!; [lia|lia|lia|]. destruct Hl as [Hl|(l' & El' & Elg')]; [lia|].
      exists l'. split; [done|]. destruct (kp_tracked _ _ Kq) as [[Eq _]|(_ & _ & l0 & El0 & Eq)]; [lia|].
      rewrite El in El0. injection El0 as <-. lia. }
  unfold active_gen, pending_gen in Hsame. inversion Ht as [p Ep Hlt Ea Epe|p pe Ep Hple Hpe Ea Epe|pe Ep Hpe Ea Epe].
  - apply Hsame; [by rewrite <- Ea|left; by rewrite <- Epe, Ep].
  - (* activation: every kept reference was made while the policy was pending *)
    specialize (Hap p Ep).
    assert (forall x, kept s x -> lib <= ref_block_num x ->
      ref_active_policy_generation x = active_gen s /\ ref_pending_policy_generation x = fp_generation p.2) as Hx.
    { intros x Kx Hxn. pose proof (kp_pending _ _ Kx p Ep ltac:(lia)) as Hp. split; [|done].
      destruct (kp_tracked _ _ Kx) as [[? _]|(_ & Hp' & _)]; [done|]. lia. }
    destruct (Hx r Kr ltac:(lia)) as [Era Erp]. destruct (Hx rq Kq ltac:(lia)) as [Eqa _].
    right. unfold active_gen in *. rewrite <- Ea. split_and!; [lia|lia|done|].
    rewrite <- Ea in Hl. destruct Hl as [Hl|(l & El & Elg)]; [lia|]. exists l. split; [done|]. lia.
  - apply Hsame; [by rewrite <- Ea|right; by rewrite Ep].
Qed.
(** A pending policy was pending before, or is new with this block. *)
Lemma transition_pending lib num (prev : block_header_state) active pending p :
  transition lib num prev active pending -> pending = Some p -> pending_finalizer_policy prev = Some p \/ p.1 = num.
Proof. intros [p' E _|p' pe _ _ [->|[t ->]]|pe _ [->|[t ->]]] [= <-]; auto. Qed.

Lemma policy_inv_next s claim h m parent s' :
  policy_inv s claim -> own_ref s parent -> next_pre (core s) parent m -> hdr_previous h = block_id s ->
  finished s h m parent s' -> policy_inv s' (claim_block_num m).
Proof.
  intros Hi Ho Hpre Hprev Hf.
  destruct (next_refs _ _ _ _ (pi_core _ _ Hi) Hpre (fn_core _ _ _ _ _ Hf)) as [Hpost (k & Hrefs)].
  destruct Hpost as [Hinv' Hcur' Hm' (lf & lib & _ & Hlib & Hlm) _].
  assert (ref_block_num parent = bhs_block_num s) as En
    by (destruct Ho as (Hid & _); unfold ref_block_num; rewrite Hid; apply (pi_id _ _ Hi)).
  destruct Hpre as [_ _ (latest & El & Hle) Hmc Hwrap]. destruct (pi_claim _ _ Hi) as (m0 & Em0 & E0).
  rewrite Em0 in El. apply Ok_inj in El as <-. assert (claim <= claim_block_num m) as Hq by (unfold claim_leb in Hle; lia).
  assert (hdr_block_num h = bhs_block_num s + 1) as Enum.
  { unfold hdr_block_num. rewrite Hprev, (pi_id _ _ Hi). pose proof (u32_range (num_from_id (hdr_previous (header s)) + 1)).
    rewrite u32_small; [done|]. unfold bhs_block_num in *. lia. }
  assert (bhs_block_num s' = hdr_block_num h) as Enum'
    by (unfold bhs_block_num; by rewrite (fn_header _ _ _ _ _ Hf)).
  destruct (finished_gens s h m parent s' claim lib Hi Hf Hlib) as (Htr & Hs & Hr).
  assert (forall r, r ∈ refs (core s') -> r = parent \/ r ∈ refs (core s)) as Hin.
  { intros r. rewrite Hrefs, elem_of_app, list_elem_of_singleton. intros [Hd|Hd]; [right|by left].
    apply list_elem_of_lookup in Hd as [i Hd]. rewrite lookup_drop in Hd. by eapply list_elem_of_lookup_2. }
  destruct (reference_at _ m _ (claim_block_num m) Hinv' Hm' Hcur') as (rq & Erq & Hrq & Hnq); [lia|].
  pose proof (claimed_active s claim h m parent s' rq Hi Ho Hf Hm' Erq Hnq Hq (Hin _ Hrq)) as Hl.
  assert (forall r, r ∈ refs (core s') -> claim_block_num m <= ref_block_num r -> kept s r) as Hk.
  { intros r Hr0 Hr1. apply (kept_refs_next s claim parent (claim_block_num m)); auto. }
  assert (forall r r', r ∈ refs (core s') -> r' ∈ refs (core s') -> claim_block_num m <= ref_block_num r ->
    ref_block_num r <= ref_block_num r' -> ref_active_policy_generation r <= ref_active_policy_generation r') as Hmono.
  { intros r r' H1 H2 H3 H4. apply (kp_above s r (Hk r H1 H3)). destruct (Hin r' H2) as [->|?]; auto. }
  constructor.
  - done.
  - by exists m.
  - rewrite Hcur', En, Enum', Enum. done.
  - rewrite Enum'. pose proof (fn_id _ _ _ _ _ Hf) as Hid. unfold calculate_id in Hid.
    apply bind_Ok in Hid as (d & _ & Hid). apply Ok_inj in Hid as <-. apply num_from_id_stamp, u32_range.
  - done.
  - done.
  - intros p Ep. destruct (transition_pending _ _ _ _ _ p Htr Ep) as [E| ->]; [pose proof (pi_pending _ _ Hi p E)|]; lia.
  - intros r H1 H2. apply (tracked_next s claim lib (hdr_block_num h) s' rq r); auto; [lia| |].
    + apply Hk; [done|lia].
    + apply Hmono; [done|done|lia|lia].
  - intros r p H1 H2 Ep Hpr. pose proof (Hk r H1 H2) as Kr. pose proof (kp_range _ _ Kr).
    destruct (transition_pending _ _ _ _ _ p Htr Ep) as [E|E]; [by apply (kp_pending _ _ Kr)|lia].
  - exact Hmono.
Qed.

Lemma genesis_policy_inv s : genesis_state s -> policy_inv s (bhs_block_num s).
Proof.
  intros [(ts & Ec) Hn Hp Hpr _ Hg]. pose proof (genesis_core_post (block_id s) ts) as [G1 G2 G3 _ _ _].
  rewrite <- Ec in G1, G2, G3. assert (refs (core s) = []) as Er by (by rewrite Ec).
  constructor; rewrite ?Hp, ?Hpr, ?Er; try done.
  - eexists. split; [exact G3|]. done.
  - by rewrite G2, Hn.
  - repeat constructor.
  - constructor; [done|constructor].
  - intros r Hin. by apply elem_of_nil in Hin.
  - intros r r' Hin. by apply elem_of_nil in Hin.
Qed.

Lemma bhs_history_inv l s : bhs_history l s -> exists claim, policy_inv s claim.
Proof.
  induction 1 as [s Hg|l s h exts pfa f_ext fresh parent s' _ [claim IH] Hmk Hpre Hprev Hf].
  - eexists. by apply genesis_policy_inv.
  - eexists. eapply policy_inv_next; [exact IH|by apply make_block_ref_own|exact Hpre|exact Hprev|].
    by eapply finish_next_finished.
Qed.

Lemma bhs_chain_inv s : bhs_chain s -> exists claim, policy_inv s claim.
Proof. intros [l Hl]. by eapply bhs_history_inv. Qed.

(** Every finalizer policy a state holds. *)
Definition policies_in (s : block_header_state) : list finalizer_policy :=
  under_way (active_finalizer_policy s) (pending_finalizer_policy s) (proposed_finalizer_policies s)
  ++ option_list (latest_qc_claim_block_active_finalizer_policy s).

Lemma found_policy_in s r ps :
  get_finalizer_policies s r = Ok ps -> fps_active_finalizer_policy ps ∈ policies_in s.
Proof.
  unfold get_finalizer_policies. intros Hg. apply bind_Ok in Hg as (? & _ & Hg). apply bind_Ok in Hg as (? & _ & Hg).
  apply bind_Ok in Hg as (? & _ & Hg). apply bind_Ok in Hg as (a & Ea & Hg). apply bind_Ok in Hg as (p & _ & Hg).
  apply Ok_inj in Hg as <-. cbn [fps_active_finalizer_policy]. unfold policies_in. destruct (_ =? _).
  - apply Ok_inj in Ea as <-. left.
  - apply bind_Ok in Ea as (_ & _ & Ea). destruct (latest_qc_claim_block_active_finalizer_policy s) as [l|]; [|done].
    apply bind_Ok in Ea as (_ & _ & Ea). apply bind_Ok in Ea as (_ & _ & Ea). apply Ok_inj in Ea as <-.
    apply (elem_of_app (under_way _ _ _)). right. by apply list_elem_of_singleton.
Qed.

(** The policies of the next state: those of the state, and at most one new one
    with a generation of its own. *)
Lemma finished_policies s h m parent s' lib :
  finished s h m parent s' -> last_final_block_num (core s') = Ok lib ->
  finalizer_policy_generation s <= finalizer_policy_generation s' /\
  exists new, (forall p, p ∈ policies_in s' -> p ∈ policies_in s \/ new = Some p) /\
    forall p, new = Some p -> finalizer_policy_generation s < fp_generation p <= finalizer_policy_generation s'.
Proof.
  intros Hf Hlib. destruct (fn_evaluate _ _ _ _ _ Hf) as (pr & st & Ee & Hpr).
  destruct (evaluate_transition _ _ _ _ _ _ _ _ _ Hlib Ee) as [_ Hsub].
  assert (forall p, p ∈ option_list (latest_qc_claim_block_active_finalizer_policy s') -> p ∈ policies_in s) as Hl.
  { intros p. destruct (fn_claimed _ _ _ _ _ Hf) as (la & g & _ & _ & [[_ ->]|(_ & r & ps & _ & Eps & ->)]).
    - intros Hn. by apply elem_of_nil in Hn.
    - intros ->%list_elem_of_singleton. by eapply found_policy_in. }
  assert (forall p, p ∈ under_way (active_finalizer_policy s') (pending_finalizer_policy s') pr -> p ∈ policies_in s) as Hu.
  { intros p Hp. apply elem_of_app. left. by eapply sublist_subseteq. }
  unfold policies_in at 1. destruct Hpr as [[-> ->]|(q & -> & -> & Hlt)]; (split; [lia|]).
  - exists None. split; [|done]. intros p [Hp|Hp]%elem_of_app; auto.
  - exists (Some q). split; [|intros p [= <-]; lia]. intros p [Hp|Hp]%elem_of_app; [|auto].
    unfold under_way in Hp, Hu. rewrite fmap_app, app_assoc, app_comm_cons in Hp.
    apply elem_of_app in Hp as [Hp| ->%list_elem_of_singleton]; auto.
Qed.

(** Along a history, a generation names one policy, and the references of the
    states that a certificate can still be for are in the core. *)
Record history_inv (ancestors : list block_header_state) (s : block_header_state) (claim : Z) : Prop := {
  hi_inv : policy_inv s claim;
  hi_generation : forall a p, a ∈ s :: ancestors -> p ∈ policies_in a ->
    1 <= fp_generation p <= finalizer_policy_generation s;
  hi_named : forall a b p q, a ∈ s :: ancestors -> b ∈ s :: ancestors -> p ∈ policies_in a -> q ∈ policies_in b ->
    fp_generation p = fp_generation q -> p = q;
  hi_refs : forall a r, a ∈ ancestors -> bhs_make_block_ref sha a = Ok r -> claim <= ref_block_num r ->
    r ∈ refs (core s)
}.

Lemma genesis_history s : genesis_state s -> history_inv [] s (bhs_block_num s).
Proof.
  intros Hg. assert (policies_in s = [active_finalizer_policy s]) as Ep.
  { unfold policies_in, under_way. by rewrite (gs_pending _ Hg), (gs_proposed _ Hg), (gs_claimed _ Hg). }
  constructor; [by apply genesis_policy_inv| | |].
  - intros a p ->%list_elem_of_singleton. rewrite Ep. intros ->%list_elem_of_singleton. apply (gs_generation _ Hg).
  - intros a b p q ->%list_elem_of_singleton ->%list_elem_of_singleton. rewrite Ep.
    by intros ->%list_elem_of_singleton ->%list_elem_of_singleton.
  - intros a r Ha. by apply elem_of_nil in Ha.
Qed.

(** A reference that the next core does not keep is below the claimed block. *)
Lemma refs_kept s claim m parent (s' : block_header_state) r :
  policy_inv s claim -> next_pre (core s) parent m -> next (core s) parent m = Ok (core s') ->
  ref_block_num parent = bhs_block_num s -> claim_block_num m <= ref_block_num r ->
  r ∈ refs (core s) \/ r = parent -> r ∈ refs (core s').
Proof.
  intros Hi Hpre Hnext En Hr Hin. destruct (next_refs _ _ _ _ (pi_core _ _ Hi) Hpre Hnext) as [Hpost (k & Hrefs)].
  destruct Hpost as [Hinv' Hcur' Hm' _ _]. rewrite Hrefs, elem_of_app, list_elem_of_singleton.
  destruct Hin as [Hin| ->]; [left|by right].
  pose proof (ref_range _ _ _ (pi_core _ _ Hi) (pi_current _ _ Hi) Hin) as Hlt.
  destruct (reference_at _ m _ (ref_block_num r) Hinv' Hm' Hcur') as (r1 & _ & Hr1 & Hn1); [lia|].
  rewrite Hrefs, elem_of_app, list_elem_of_singleton in Hr1. destruct Hr1 as [Hr1| ->]; [|lia].
  replace r with r1; [done|]. apply (ref_unique (core s)); [apply (pi_core _ _ Hi)| |done|done].
  eapply (elem_of_sublist _ _ _ Hr1), sublist_drop.
Qed.

Lemma own_ref_num s claim r : policy_inv s claim -> own_ref s r -> ref_block_num r = bhs_block_num s.
Proof. intros Hi (Hid & _). unfold ref_block_num. rewrite Hid. apply (pi_id _ _ Hi). Qed.

Lemma history_inv_next ancestors s claim h m parent s' :
  history_inv ancestors s claim -> bhs_make_block_ref sha s = Ok parent -> next_pre (core s) parent m ->
  hdr_previous h = block_id s -> finished s h m parent s' -> history_inv (s :: ancestors) s' (claim_block_num m).
Proof.
  intros [Hi Hg Hn Hr] Hmk Hpre Hprev Hf. pose proof (make_block_ref_own _ _ Hmk) as Ho.
  pose proof (own_ref_num _ _ _ Hi Ho) as En.
  destruct (next_refs _ _ _ _ (pi_core _ _ Hi) Hpre (fn_core _ _ _ _ _ Hf)) as [[_ _ _ (_ & lib & _ & Hlib & _) _] _].
  destruct (finished_policies _ _ _ _ _ _ Hf Hlib) as (Hle & new & Hnew & Hng).
  (* a policy of the new history is an old one or the new one *)
  assert (forall a p, a ∈ s' :: s :: ancestors -> p ∈ policies_in a ->
    (exists b, b ∈ s :: ancestors /\ p ∈ policies_in b) \/ new = Some p) as Hp.
  { intros a p Ha Hpa. apply elem_of_cons in Ha as [->|Ha]; [|left; by exists a].
    destruct (Hnew p Hpa); [left|by right]. exists s. split; [left|done]. }
  constructor; [by eapply policy_inv_next| | |].
  - intros a p Ha Hpa. destruct (Hp a p Ha Hpa) as [(b & Hb & Hpb)|E]; [specialize (Hg b p Hb Hpb)|specialize (Hng p E)]; [lia|].
    assert (1 <= finalizer_policy_generation s); [|lia].
    assert (active_finalizer_policy s ∈ policies_in s) as Hact by left. specialize (Hg s _ ltac:(left) Hact). lia.
  - intros a b p q Ha Hb Hpa Hqb E.
    destruct (Hp a p Ha Hpa) as [(a' & Ha' & Hpa')|E1], (Hp b q Hb Hqb) as [(b' & Hb' & Hqb')|E2].
    + exact (Hn a' b' p q Ha' Hb' Hpa' Hqb' E).
    + specialize (Hng q E2). specialize (Hg a' p Ha' Hpa'). lia.
    + specialize (Hng p E1). specialize (Hg b' q Hb' Hqb'). lia.
    + congruence.
  - intros a r Ha Er Hr'. eapply (refs_kept s claim m parent); [done|done|apply Hf|done|done|].
    destruct Hpre as [_ _ (latest & El & Hlm) _ _]. destruct (pi_claim _ _ Hi) as (m0 & Em0 & E0).
    rewrite Em0 in El. apply Ok_inj in El as <-. unfold claim_leb in Hlm.
    apply elem_of_cons in Ha as [->|Ha]; [right; congruence|left]. apply (Hr a); [done|done|lia].
Qed.

Lemma history_inv_reached ancestors s : bhs_history ancestors s -> exists claim, history_inv ancestors s claim.
Proof.
  induction 1 as [s Hg|l s h exts pfa f_ext fresh parent s' _ [claim IH] Hmk Hpre Hprev Hf].
  - eexists. by apply genesis_history.
  - eexists. eapply history_inv_next; [exact IH|exact Hmk|exact Hpre|exact Hprev|]. by eapply finish_next_finished.
Qed.

(** The policies in force at a state, as a reference to it names them. *)
Definition policies_at (a : block_header_state) (digest : sha256) : finalizer_policies_t (PK := PK) := {|
  fps_finality_digest := digest;
  fps_active_finalizer_policy := active_finalizer_policy a;
  fps_pending_finalizer_policy := snd <$> pending_finalizer_policy a |}.

Lemma found_policies_in s r ps p :
  get_finalizer_policies s r = Ok ps -> fps_pending_finalizer_policy ps = Some p -> p ∈ policies_in s.
Proof.
  unfold get_finalizer_policies. intros Hg. apply bind_Ok in Hg as (? & _ & Hg). apply bind_Ok in Hg as (? & _ & Hg).
  apply bind_Ok in Hg as (? & _ & Hg). apply bind_Ok in Hg as (a & _ & Hg). apply bind_Ok in Hg as (q & Eq & Hg).
  apply Ok_inj in Hg as <-. cbn. intros ->. unfold policies_in, under_way. destruct (_ =? 0); [done|].
  destruct (_ =? _); [apply Ok_inj in Eq as [= <-]; left|]. destruct (pending_finalizer_policy s) as [pp|]; [|done].
  apply bind_Ok in Eq as (_ & _ & Eq). apply bind_Ok in Eq as (_ & _ & Eq). apply Ok_inj in Eq as [= <-].
  right. left.
Qed.

(** C5. Policy retrieval never fails: for every state of a chain and every
    earlier state that a certificate can still be for (its block is not before
    the block of the latest claim), or the state itself, [get_finalizer_policies]
    on the reference to that earlier block passes its assertions and returns
    exactly the active and the pending policy that the earlier state had,
    although the state itself may have newer ones. *)
Theorem policy_retrieval_never_fails (ancestors : list block_header_state) (s a : block_header_state)
    (m : qc_claim_t) (r : block_ref) :
  bhs_history ancestors s -> latest_qc_claim (core s) = Ok m -> a ∈ s :: ancestors ->
  bhs_make_block_ref sha a = Ok r -> claim_block_num m <= ref_block_num r ->
  get_finalizer_policies s r = Ok (policies_at a (ref_finality_digest r)).
Proof.
  intros Hh Hm Ha Hr Hn. destruct (history_inv_reached _ _ Hh) as [claim [Hi Hg Hnm Hrefs]].
  destruct (pi_claim _ _ Hi) as (m0 & Em & E0). rewrite Hm in Em. apply Ok_inj in Em as <-.
  pose proof (make_block_ref_own _ _ Hr) as (_ & Hra & Hrp).
  assert (exists ps, get_finalizer_policies s r = Ok ps /\ policies_of r ps) as (ps & Eps & Hd & Hpa & Hpp).
  { apply elem_of_cons in Ha as [->|Ha].
    - pose proof (make_block_ref_own _ _ Hr) as Ho. pose proof (own_ref_num _ _ _ Hi Ho).
      apply (tracked_found s claim); [done|by eapply own_ref_tracked|lia].
    - specialize (Hrefs a r Ha Hr ltac:(lia)). pose proof (ref_range _ _ _ (pi_core _ _ Hi) (pi_current _ _ Hi) Hrefs).
      apply (tracked_found s claim); [done|apply (pi_refs _ _ Hi); [done|lia]|lia]. }
  rewrite Eps. f_equal. destruct ps as [d ac pe]; cbn in *. unfold policies_at. rewrite Hd. f_equal.
  - apply (Hnm s a); [left|done| |left|by rewrite Hpa]. apply (found_policy_in s r _ Eps).
  - assert (forall q, pending_finalizer_policy a = Some q -> q.2 ∈ policies_in a) as Hin.
    { intros q Eq. unfold policies_in, under_way. rewrite Eq. right. left. }
    rewrite Hrp in Hpp. unfold pending_gen in Hpp. destruct (pending_finalizer_policy a) as [q|] eqn:Eq; destruct pe as [p|]; cbn; [|exfalso..|done].
    + f_equal. apply (Hnm s a); [left|done| |by apply Hin|done]. by eapply found_policies_in.
    + specialize (Hg a q.2 Ha (Hin q eq_refl)). lia.
    + pose proof (found_policies_in s r _ p Eps eq_refl) as Hp. specialize (Hg s p ltac:(left) Hp). lia.
Qed.
End Retrieval.

(** ** Proposer policies *)

Section Proposers.
Context {PK K : Type} `{EqDecision PK} `{EqDecision K} `{Packable PK} `{Packable K}.
Abbreviation block_header_state := (block_header_state PK K).
Abbreviation proposer_policy_ptr := (ptr (proposer_policy K)).

(** Steps 1 to 3 and 5 of the comment on proposer policy transitions in
    block_header_state.hpp, for the first block of a round: [final] is the time
    of the last final block of the previous block, [round] the round of the
    previous block. *)
Definition proposer_transition (final round : Z) (active : proposer_policy_ptr)
    (proposed pending : option proposer_policy_ptr)
    : proposer_policy_ptr * option proposer_policy_ptr * option proposer_policy_ptr :=
  let proposed_ready := match proposed with
                        | Some p => (round_of (pp_proposal_time (deref p)) <? round - 1) &&
                                    (pp_proposal_time (deref p) <=? final)
                        | None => false
                        end in
  let pending_ready := match pending with Some p => pp_proposal_time (deref p) <=? final | None => false end in
  let '(active, proposed, pending) :=
    if proposed_ready then (default active proposed, None, None)
    else if pending_ready then (default active pending, proposed, None)
    else (active, proposed, pending) in
  match proposed, pending with
  | Some p, None => (active, None, Some p)
  | _, _ => (active, proposed, pending)
  end.

(** The policies in force are different objects. *)
Definition distinct_ptrs (s : block_header_state) : Prop :=
  NoDup (addr <$> (active_proposer_policy s :: option_list (latest_proposed_proposer_policy s)
                     ++ option_list (latest_pending_proposer_policy s))).

Lemma round_lt_prior p slot :
  is_u32 slot -> 0 <= p -> get_prior_round_start_slot slot =
    (if round_of slot =? 0 then None else Some (12 * (round_of slot - 1))) /\
  ((round_of p <? round_of slot - 1) = negb (round_of slot =? 0) && (p <? 12 * (round_of slot - 1))).
Proof.
  intros Hs Hp. split; [by apply prior_round_start_spec|]. unfold is_u32, round_of, producer_repetitions in *.
  pose proof (Z.mod_pos_bound p 12 eq_refl). pose proof (Z.div_mod p 12 ltac:(lia)).
  pose proof (Z.mod_pos_bound slot 12 eq_refl). pose proof (Z.div_mod slot 12 ltac:(lia)). lia.
Qed.

Lemma NoDup_two (a b : Z) : NoDup [a; b] -> b <> a.
Proof. rewrite !NoDup_cons, !not_elem_of_cons. naive_solver. Qed.
Lemma NoDup_three (a b c : Z) : NoDup [a; b; c] -> b <> a /\ c <> a /\ c <> b.
Proof. rewrite !NoDup_cons, !not_elem_of_cons. naive_solver. Qed.

(** Proposer policy promotion follows the documented steps: nothing changes
    within a round; at the first block of a later round the proposed policy
    becomes active if it was proposed before the prior round and is final,
    otherwise a final pending policy becomes active, and a proposed policy moves
    into a free pending slot. *)
Theorem proposer_promotion_correct (prev : block_header_state) (t final : Z) :
  is_u32 t -> is_u32 (bhs_timestamp prev) -> bhs_timestamp prev < 2 ^ 32 - 12 -> bhs_timestamp prev < t ->
  (forall p, latest_proposed_proposer_policy prev = Some p -> 0 <= pp_proposal_time (deref p)) ->
  distinct_ptrs prev -> last_final_block_timestamp (core prev) = Ok final ->
  evaluate_proposer_policies_for_promotion prev t =
  Ok (if round_of t =? round_of (bhs_timestamp prev)
      then (active_proposer_policy prev, latest_proposed_proposer_policy prev, latest_pending_proposer_policy prev)
      else proposer_transition final (round_of (bhs_timestamp prev)) (active_proposer_policy prev)
             (latest_proposed_proposer_policy prev) (latest_pending_proposer_policy prev)).
Proof.
  intros Ht Hs Hmax Hlt Hprop Hd Hfin. unfold evaluate_proposer_policies_for_promotion.
  step_assert. unfold get_active_proposer_policy_for_block_at. step_assert. unfold proposer_policy_at.
  rewrite in_same_round_spec by (done || lia). rewrite first_block_of_round_spec by done.
  assert (round_of (bhs_timestamp prev) <= round_of t) as Hr by (apply Z.div_le_mono; [done|lia]).
  destruct (Z.eqb_spec (round_of t) (round_of (bhs_timestamp prev))) as [Er|Er].
  { unfold mret at 1, result_ret at 1. rewrite ret_bind. unfold ptr_eqb. rewrite Z.eqb_refl. cbn [negb].
    rewrite ret_bind. replace (_ <? _) with false by lia.
    by destruct (latest_proposed_proposer_policy prev), (latest_pending_proposer_policy prev). }
  replace (round_of (bhs_timestamp prev) <? round_of t) with true by lia.
  unfold proposer_transition, distinct_ptrs, opt_ptr_eqb, ptr_eqb in *. rewrite Hfin.
  destruct (latest_proposed_proposer_policy prev) as [p|], (latest_pending_proposer_policy prev) as [q|];
    cbn [option_list app fmap list_fmap] in Hd.
  - destruct (round_lt_prior (pp_proposal_time (deref p)) (bhs_timestamp prev) Hs (Hprop p eq_refl)) as [-> ->].
    apply NoDup_three in Hd as (N1 & N2 & N3).
    apply Z.eqb_neq in N1, N2, N3.
    destruct (round_of (bhs_timestamp prev) =? 0); [|destruct (_ <? 12 * _)];
      repeat (cbn; match goal with |- context [?x <=? final] => destruct (x <=? final) end);
      repeat (cbn; rewrite ?N1, ?N2, ?N3, ?Z.eqb_refl); done.
  - destruct (round_lt_prior (pp_proposal_time (deref p)) (bhs_timestamp prev) Hs (Hprop p eq_refl)) as [-> ->].
    apply NoDup_two in Hd as N1. apply Z.eqb_neq in N1.
    destruct (round_of (bhs_timestamp prev) =? 0); [|destruct (_ <? 12 * _)];
      repeat (cbn; match goal with |- context [?x <=? final] => destruct (x <=? final) end);
      repeat (cbn; rewrite ?N1, ?Z.eqb_refl); done.
  - apply NoDup_two in Hd as N1. apply Z.eqb_neq in N1.
    cbn. destruct (pp_proposal_time (deref q) <=? final); repeat (cbn; rewrite ?N1, ?Z.eqb_refl); done.
  - cbn. by rewrite Z.eqb_refl.
Qed.
End Proposers.

(** ** A concrete chain *)

Definition toy_finalizers (g : Z) : finalizer_policy (uint 8) := {|
  fp_generation := g; fp_threshold := 1;
  fp_finalizers := [{| fa_description := Blob []; fa_weight := 1; fa_public_key := UInt g |}] |}.

Definition toy_proposers (version time : Z) : proposer_policy (uint 8) := {|
  pp_proposal_time := time;
  pp_proposer_schedule := {| sched_version := version; sched_producers := [
    {| pa_producer_name := 5; pa_authority := authority_v0 {| bsa_threshold := 1;
         bsa_keys := [{| kw_key := UInt version; kw_weight := 1 |}] |} |}] |} |}.

Definition toy_id : sha256 := stamp_block_num (Sha256 0 0 0 9) 1.

Definition toy_genesis : block_header_state (uint 8) (uint 8) := {|
  block_id := toy_id; header := toy_header sha256_zero 100 []; activated_protocol_features := [];
  core := create_core_for_genesis_block toy_id 100;
  active_finalizer_policy := toy_finalizers 1; active_proposer_policy := Ptr 1 (toy_proposers 1 0);
  latest_proposed_proposer_policy := None; latest_pending_proposer_policy := None;
  proposed_finalizer_policies := []; pending_finalizer_policy := None;
  latest_qc_claim_block_active_finalizer_policy := None; finalizer_policy_generation := 1;
  last_pending_finalizer_policy_digest := sha256_zero; last_pending_finalizer_policy_start_timestamp := 100;
  header_exts := [] |}.

Definition toy_step (s : block_header_state (uint 8) (uint 8)) (x : qc_claim_t * option (finalizer_policy (uint 8)))
    : result (block_header_state (uint 8) (uint 8)) :=
  d ← (match x.2 with
       | Some p => d ← fp_create_diff (get_last_proposed_finalizer_policy s) p; mret (Some d)
       | None => mret None
       end);
  parent ← bhs_make_block_ref toy_sha s;
  EOS_ASSERT (next_preb (core s) parent x.1) assertion_failed;;
  finish_next toy_sha s (toy_header (block_id s) (bhs_timestamp s + 1) []) [] []
    {| fx_qc_claim := x.1; fx_new_finalizer_policy_diff := d; fx_new_proposer_policy_diff := None |} 0.

Fixpoint toy_steps (s : block_header_state (uint 8) (uint 8))
    (l : list (qc_claim_t * option (finalizer_policy (uint 8)))) : result (block_header_state (uint 8) (uint 8)) :=
  match l with [] => mret s | x :: l => s ← toy_step s x; toy_steps s l end.

Lemma toy_steps_history s l s' ancestors :
  bhs_history toy_sha ancestors s -> toy_steps s l = Ok s' ->
  exists newer, bhs_history toy_sha (newer ++ ancestors) s' /\ (l <> [] -> s ∈ newer).
Proof.
  revert s ancestors; induction l as [|x l IH]; intros s ancestors Hc Hl; cbn [toy_steps] in Hl.
  { apply Ok_inj in Hl as <-. by exists []. }
  apply bind_Ok in Hl as (s1 & Hs & Hl). unfold toy_step in Hs.
  apply bind_Ok in Hs as (d & _ & Hs). apply bind_Ok in Hs as (parent & Ep & Hs).
  apply bind_Ok in Hs as (_ & Hpre%EOS_ASSERT_Ok & Hs).
  destruct (IH s1 (s :: ancestors)) as (newer & Hn & _); [|done|].
  - eapply history_next; [exact Hc|exact Ep| | |exact Hs]; [by apply next_preb_pre|done].
  - exists (newer ++ [s]). rewrite <- app_assoc. split; [done|]. intros _. apply elem_of_app. right. left.
Qed.

Lemma toy_genesis_state : genesis_state toy_genesis.
Proof. constructor; [by exists 100|vm_compute; reflexivity|done|done|done|vm_compute; split; congruence]. Qed.

Lemma toy_genesis_history : bhs_history toy_sha [] toy_genesis.
Proof. apply history_genesis, toy_genesis_state. Qed.

(** Block 2 proposes a policy, which is pending from block 4 and active from
    block 6 on; the certificate in block 6 is for block 5. *)
Definition toy_earlier : list (qc_claim_t * option (finalizer_policy (uint 8))) :=
  [(strong_claim 1, Some (toy_finalizers 2)); (strong_claim 2, None); (strong_claim 3, None); (strong_claim 4, None)].
Definition toy_last : list (qc_claim_t * option (finalizer_policy (uint 8))) := [(strong_claim 5, None)].
Definition toy_inputs : list (qc_claim_t * option (finalizer_policy (uint 8))) := toy_earlier ++ toy_last.

Definition toy_checks (a s : block_header_state (uint 8) (uint 8)) (r : block_ref) : bool :=
  (active_gen s =? 2) && (ref_block_num r =? 5) && (active_gen a =? 1) && (pending_gen a =? 2) &&
  match latest_qc_claim (core s) with Ok m => claim_block_num m =? 5 | Err _ => false end.

Lemma toy_chain_6 :
  exists a s r m, toy_steps toy_genesis toy_earlier = Ok a /\ toy_steps a toy_last = Ok s /\
    bhs_make_block_ref toy_sha a = Ok r /\ latest_qc_claim (core s) = Ok m /\ claim_block_num m = 5 /\
    ref_block_num r = 5 /\ active_gen s = 2 /\ active_gen a = 1 /\ pending_gen a = 2.
Proof.
  assert (match toy_steps toy_genesis toy_earlier with
          | Ok a => match toy_steps a toy_last, bhs_make_block_ref toy_sha a with
                    | Ok s, Ok r => toy_checks a s r
                    | _, _ => false
                    end
          | Err _ => false
          end = true) as Hc by (vm_compute; reflexivity).
  destruct (toy_steps toy_genesis toy_earlier) as [a|]; [|done].
  destruct (toy_steps a toy_last) as [s|] eqn:Es; [|done].
  destruct (bhs_make_block_ref toy_sha a) as [r|] eqn:Er; [|done]. unfold toy_checks in Hc.
  destruct (latest_qc_claim (core s)) as [m|] eqn:Em; [|by rewrite andb_false_r in Hc].
  exists a, s, r, m. split_and!; done || lia.
Qed.

Lemma policy_retrieval_never_fails_witness :
  exists (ancestors : list (block_header_state (uint 8) (uint 8))) s a r,
    bhs_history toy_sha ancestors s /\ a ∈ ancestors /\ active_gen s = 2 /\ active_gen a = 1 /\ pending_gen a = 2 /\
    get_finalizer_policies s r = Ok (policies_at a (ref_finality_digest r)).
Proof.
  destruct toy_chain_6 as (a & s & r & m & Ea & Es & Er & Em & Emc & Hn & Hs & Haa & Hap).
  destruct (toy_steps_history _ _ _ _ toy_genesis_history Ea) as (l1 & Ha & _).
  destruct (toy_steps_history _ _ _ _ Ha Es) as (l2 & Hc & Hin). specialize (Hin ltac:(done)).
  exists (l2 ++ l1 ++ []), s, a, r. split; [exact Hc|]. split; [apply elem_of_app; left; exact Hin|].
  split; [exact Hs|]. split; [exact Haa|]. split; [exact Hap|].
  apply (policy_retrieval_never_fails toy_sha (l2 ++ l1 ++ []) s a m r Hc Em); [|exact Er|lia].
  right. apply elem_of_app. left. exact Hin.
Defined.

(** A state with a pending and two proposed finalizer policies, and with proposer
    policies under way. *)
Definition toy_waiting : block_header_state (uint 8) (uint 8) := {|
  block_id := toy_id; header := toy_header sha256_zero 100 []; activated_protocol_features := [];
  core := create_core_for_genesis_block toy_id 100;
  active_finalizer_policy := toy_finalizers 1; active_proposer_policy := Ptr 1 (toy_proposers 1 0);
  latest_proposed_proposer_policy := Some (Ptr 3 (toy_proposers 3 50));
  latest_pending_proposer_policy := Some (Ptr 2 (toy_proposers 2 20));
  proposed_finalizer_policies := [(4, toy_finalizers 3); (5, toy_finalizers 4); (9, toy_finalizers 5)];
  pending_finalizer_policy := Some (3, toy_finalizers 2);
  latest_qc_claim_block_active_finalizer_policy := None; finalizer_policy_generation := 5;
  last_pending_finalizer_policy_digest := sha256_zero; last_pending_finalizer_policy_start_timestamp := 7;
  header_exts := [] |}.

Lemma finalizer_promotion_correct_witness :
  exists c active pending proposed start,
    evaluate_finalizer_policies_for_promotion toy_waiting c 10 200 = Ok (active, pending, proposed, start) /\
    promoted 6 10 200 toy_waiting active pending proposed start.
Proof.
  exists {| links := [{| source_block_num := 8; target_block_num := 6; is_link_strong := true |}];
            refs := []; genesis_timestamp := 0 |}.
  apply (finalizer_promotion_correct toy_waiting _ 6 10 200); [reflexivity|].
  cbn. repeat constructor.
Defined.

Lemma proposer_promotion_correct_witness :
  evaluate_proposer_policies_for_promotion toy_waiting 200 =
    Ok (Ptr 3 (toy_proposers 3 50), None, None) /\
  evaluate_proposer_policies_for_promotion toy_waiting 200 =
    Ok (proposer_transition 100 8 (active_proposer_policy toy_waiting)
          (latest_proposed_proposer_policy toy_waiting) (latest_pending_proposer_policy toy_waiting)).
Proof.
  split; [vm_compute; reflexivity|].
  rewrite (proposer_promotion_correct toy_waiting 200 100).
  - reflexivity.
  - vm_compute. split; congruence.
  - vm_compute. split; congruence.
  - vm_compute. reflexivity.
  - vm_compute. reflexivity.
  - intros p [= <-]. vm_compute. congruence.
  - refine (bool_decide_unpack _ _). vm_compute. reflexivity.
  - vm_compute. reflexivity.
Defined.
