(* ===== verification/BlockAssembly.v ===== *)
(** Producing and validating a block lead to the same state: the header that
    [block_header_state::next(input)] assembles is accepted by
    [block_header_state::next(header, validator)], which reconstructs the very
    same state from the bytes of the header extensions. *)
From Stdlib Require Import ZArith Lia ZifyBool.
From stdpp Require Import base tactics numbers list sorting.
From S2P Require Import Prelude Digest Raw Merkle FinalityCore OrderedDiff FinalizerPolicy ProducerSchedule BlockHeader BlockHeaderState PolicyTransitions.
#[local] Open Scope Z_scope.

(** ** Differences can be packed *)

Section DiffFits.
Context {T : Type} `{EqDecision T} `{Packable T}.

Definition indexes_fit (r : diff_result T) : Prop :=
  Forall (fun i => 0 <= i < 2 ^ 16) (remove_indexes r) /\
  Forall (fun x => 0 <= x.1 < 2 ^ 16 /\ fits x.2) (insert_indexes r).

Lemma diff_result_fits (r : diff_result T) : indexes_fit r -> fits r.
Proof. intros [Hr Hi]. split; cbn; by apply Forall_fmap. Qed.

Lemma size_cast_range n : 0 <= size_cast (2 ^ 16 - 1) n < 2 ^ 16.
Proof. unfold size_cast. by apply Z.mod_pos_bound. Qed.

Lemma push_remove_fits s (r : diff_result T) : indexes_fit r -> indexes_fit (push_remove (2 ^ 16 - 1) s r).
Proof.
  intros [Hr Hi]. split; [|done]. apply Forall_app. split; [done|].
  constructor; [apply size_cast_range|constructor].
Qed.

Lemma push_insert_fits t v (r : diff_result T) :
  fits v -> indexes_fit r -> indexes_fit (push_insert (2 ^ 16 - 1) t v r).
Proof.
  intros Hv [Hr Hi]. split; [done|]. apply Forall_app. split; [done|].
  constructor; [split; [apply size_cast_range|done]|constructor].
Qed.

Lemma diff_loop_fits fuel (source target : list T) s t r d :
  Forall fits target -> indexes_fit r ->
  diff_loop (2 ^ 16 - 1) fuel source target s t r = Ok d -> indexes_fit d.
Proof.
  intros Ht. revert s t r; induction fuel as [|fuel IH]; intros s t r Hr Hd; [done|]. cbn [diff_loop] in Hd.
  apply bind_Ok in Hd as (_ & _ & Hd). apply bind_Ok in Hd as (_ & _ & Hd).
  assert (forall y, target !! t = Some y -> fits y) as Hy
    by (intros y Hy; rewrite Forall_lookup in Ht; eauto).
  destruct (source !! s) as [x|], (target !! t) as [y|] eqn:Ey.
  - specialize (Hy y eq_refl). case_bool_decide; [by eapply IH|].
    destruct (_ && _); [|destruct (elem_eqb (source !! S s) _); [|destruct (elem_eqb (Some x) _)]];
      repeat (apply bind_Ok in Hd as (_ & _ & Hd));
      (eapply IH; [|exact Hd]); auto using push_remove_fits, push_insert_fits.
  - apply bind_Ok in Hd as (_ & _ & Hd). eapply IH; [|exact Hd]. by apply push_remove_fits.
  - apply bind_Ok in Hd as (_ & _ & Hd). eapply IH; [|exact Hd]. apply push_insert_fits; auto.
  - by apply Ok_inj in Hd as <-.
Qed.

Lemma diff_fits (source target : list T) d :
  Forall fits target -> diff (2 ^ 16 - 1) source target = Ok d -> fits d.
Proof.
  intros Ht Hd. unfold diff in Hd. apply bind_Ok in Hd as (_ & _ & Hd). apply bind_Ok in Hd as (_ & _ & Hd).
  apply diff_result_fits. eapply diff_loop_fits; [exact Ht| |exact Hd]. split; constructor.
Qed.
End DiffFits.

Section Assembly.
Context {PK K : Type} `{EqDecision PK} `{EqDecision K} `{PackLaws PK} `{PackLaws K}.
Variable sha : list Z -> sha256.
Abbreviation block_header_state := (block_header_state PK K).
Abbreviation input_t := (block_header_state_input PK K).

#[global] Instance PackLaws_finality_extension : PackLaws (finality_extension PK K).
Proof. apply PackLaws_struct. by intros []. Qed.

Lemma fp_diff_fits (p q : finalizer_policy PK) d :
  fits q -> fp_create_diff p q = Ok d -> fits d.
Proof.
  intros (Hg & Ht & Hf) Hd. unfold fp_create_diff in Hd. apply bind_Ok in Hd as (r & Er & Hd).
  apply Ok_inj in Hd as <-. split; [exact Hg|]. split; [exact Ht|]. by eapply diff_fits.
Qed.

Lemma pp_diff_fits (p q : proposer_policy K) d :
  fits q -> pp_create_diff p q = Ok d -> fits d.
Proof.
  intros (Ht & Hv & Hs) Hd. unfold pp_create_diff in Hd. apply bind_Ok in Hd as (r & Er & Hd).
  apply Ok_inj in Hd as <-. split; [exact Hv|]. split; [exact Ht|]. by eapply diff_fits.
Qed.

(** ** The extensions of an assembled header *)

Lemma extract_finality (f : finality_extension PK K) bytes :
  fits f -> pack f = Ok bytes -> extract_extension finality_extension_id (Blob bytes) = Ok (Some (finality_ext f, true)).
Proof.
  intros Hf Hp. unfold extract_extension. cbn [Z.eqb finality_extension_id protocol_feature_activation_id
    producer_schedule_change_extension_id Pos.eqb blob_bytes].
  pose proof (unpack_pack f bytes [] Hf Hp) as E. rewrite app_nil_r in E. by rewrite E.
Qed.

Lemma check_unique_ok s l : NoDup l -> (forall d, d ∈ l -> d ∉ s) -> check_unique_digests s l = Ok tt.
Proof.
  intros Hd. revert s; induction Hd as [|d l Hn _ IH]; intros s Hs; [done|]. cbn [check_unique_digests].
  rewrite EOS_ASSERT_true, ret_bind by (apply bool_decide_eq_true; apply Hs; constructor).
  apply IH. intros x Hx. rewrite not_elem_of_cons. split; [by intros ->|]. apply Hs. by constructor.
Qed.

Lemma extract_pfa (l : list sha256) bytes :
  l <> [] -> NoDup l -> Forall fits l -> pack l = Ok bytes ->
  extract_extension (PK := PK) (K := K) protocol_feature_activation_id (Blob bytes)
  = Ok (Some (protocol_feature_activation l, true)).
Proof.
  intros Hne Hd Hf Hp. unfold extract_extension. cbn [Z.eqb protocol_feature_activation_id blob_bytes].
  pose proof (unpack_pack l bytes [] Hf Hp) as E. rewrite app_nil_r in E. rewrite E, ret_bind.
  unfold pfa_reflector_init. rewrite EOS_ASSERT_true, ret_bind by (destruct l; [done|unfold vsize; simpl; lia]).
  rewrite check_unique_ok; [done|done|]. intros d _. apply not_elem_of_nil.
Qed.
Lemma finish_next_header (s s' : block_header_state) h exts pfa f_ext fresh :
  finish_next sha s h exts pfa f_ext fresh = Ok s' -> header s' = h.
Proof.
  intros Hf. unfold finish_next in Hf. repeat (apply bind_Ok in Hf as (? & _ & Hf); repeat case_match; try done).
  all: repeat (apply bind_Ok in Hf as (? & _ & Hf); repeat case_match; try done); by apply Ok_inj in Hf as <-.
Qed.

(** What a producer has to respect: its inputs are values of their types, it is
    scheduled, builds on the state's block, activates features that the
    validator accepts, each once, and puts a finality tree root into the header
    exactly when the claimed block is not the genesis block. *)
Record input_ok (validator : Z -> list sha256 -> list sha256 -> result unit) (s : block_header_state) (input : input_t)
    : Prop := {
  io_parent : in_parent_id input = block_id s;
  io_producer : exists p, get_producer_for_block_at s (in_timestamp input) = Ok p /\
                          pa_producer_name p = in_producer input;
  io_claim : fits (in_most_recent_ancestor_with_qc input);
  io_finalizers : forall p, in_new_finalizer_policy input = Some p -> fits p;
  io_proposers : forall p, in_new_proposer_policy input = Some p -> fits p;
  io_features : NoDup (in_new_protocol_feature_activations input) /\
                Forall fits (in_new_protocol_feature_activations input);
  io_validator : in_new_protocol_feature_activations input <> [] ->
    validator (bhs_timestamp s) (activated_protocol_features s) (in_new_protocol_feature_activations input) = Ok tt;
  io_metadata : exists meta, next_metadata (core s) (in_most_recent_ancestor_with_qc input) = Ok meta /\
    is_genesis_block_num (core s) (meta_latest_qc_claim_block_num meta)
    = Ok (sha256_empty (in_finality_mroot_claim input))
}.

(** The extensions of the assembled header, with their decoded values. *)
Lemma assembled_extensions f_bytes (f : finality_extension PK K) (pfa : list sha256) hexts exts :
  fits f -> pack f = Ok f_bytes -> NoDup pfa -> Forall fits pfa ->
  (if negb (is_empty pfa) then
     pfa_bytes ← pack pfa;
     mret (emplace_extension (emplace_extension [] finality_extension_id (Blob f_bytes))
             protocol_feature_activation_id (Blob pfa_bytes),
           emplace_extension (emplace_extension [] finality_extension_id (finality_ext f))
             protocol_feature_activation_id (protocol_feature_activation pfa))
   else mret (emplace_extension [] finality_extension_id (Blob f_bytes),
              emplace_extension [] finality_extension_id (finality_ext f))) = Ok (hexts, exts) ->
  validate_extensions true 0 hexts [] = Ok exts /\
  find_ext exts finality_extension_id = Some (finality_ext f) /\
  find_ext exts protocol_feature_activation_id =
    if is_empty pfa then None else Some (protocol_feature_activation pfa).
Proof.
  intros Hf Hp Hd Hpf He. pose proof (extract_finality f f_bytes Hf Hp) as Ef.
  destruct (is_empty pfa) eqn:Ee; cbn [negb] in He.
  - apply Ok_inj in He as [= <- <-]. cbn [emplace_extension]. split_and!; [|done|done].
    cbn [validate_extensions]. rewrite EOS_ASSERT_true, ret_bind, Ef by done. done.
  - apply bind_Ok in He as (b & Eb & He). apply Ok_inj in He as [= <- <-].
    assert (pfa <> []) as Hne by (intros ->; done). pose proof (extract_pfa pfa b Hne Hd Hpf Eb) as Ep.
    split_and!; [|done|done].
    change (emplace_extension (emplace_extension [] finality_extension_id (Blob f_bytes))
      protocol_feature_activation_id (Blob b)) with
      [(protocol_feature_activation_id, Blob b); (finality_extension_id, Blob f_bytes)].
    change (validate_extensions true 0 [(protocol_feature_activation_id, Blob b); (finality_extension_id, Blob f_bytes)] [])
      with (match_ ← extract_extension (PK := PK) (K := K) protocol_feature_activation_id (Blob b);
            match match_ with
            | None => Err invalid_block_header_extension
            | Some (ext, u) =>
                EOS_ASSERT (negb u || true) invalid_block_header_extension;;
                validate_extensions false 0 [(finality_extension_id, Blob f_bytes)] [(0, ext)]
            end).
    rewrite Ep, ret_bind. cbn [negb orb]. rewrite EOS_ASSERT_true, ret_bind by done.
    cbn [validate_extensions]. rewrite EOS_ASSERT_true, ret_bind, Ef by done. done.
Qed.

(** C6. Production and validation agree: a header assembled from inputs that
    respect the rules is accepted, and the state a validating node computes from
    it is the state the producer computed, with the policy changes recovered
    from the bytes of the header extensions. *)
Theorem assembled_block_validates (validator : Z -> list sha256 -> list sha256 -> result unit)
    (s s' : block_header_state) (input : input_t) (fresh : Z) :
  input_ok validator s input -> next_from_input sha s input fresh = Ok s' ->
  next_from_header sha validator s (header s') fresh = Ok s'.
Proof.
  intros [Hpar (p & Ep & Hprod) Hclaim Hfin Hpro [Hnd Hpf] Hval (meta & Em & Eg)] Hn.
  unfold next_from_input in Hn. apply bind_Ok in Hn as (fd & Efd & Hn). apply bind_Ok in Hn as (pd & Epd & Hn).
  set (f := {| fx_qc_claim := _; fx_new_finalizer_policy_diff := fd; fx_new_proposer_policy_diff := pd |}) in *.
  apply bind_Ok in Hn as (fb & Efb & Hn). apply bind_Ok in Hn as ([hexts exts] & Eext & Hn).
  assert (fits f) as Hf.
  { split; [exact Hclaim|]. split.
    - destruct (in_new_finalizer_policy input) as [q|]; [|by apply Ok_inj in Efd as <-].
      apply bind_Ok in Efd as (d & Ed & Efd). apply Ok_inj in Efd as <-. by eapply fp_diff_fits; [apply Hfin|].
    - destruct (in_new_proposer_policy input) as [q|]; [|by apply Ok_inj in Epd as <-].
      apply bind_Ok in Epd as (d & Ed & Epd). apply Ok_inj in Epd as <-. by eapply pp_diff_fits; [apply Hpro|]. }
  destruct (assembled_extensions fb f _ hexts exts Hf Efb Hnd Hpf Eext) as (Hv & Hff & Hfp).
  pose proof (finish_next_header _ _ _ _ _ _ _ Hn) as Hh. rewrite Hh. unfold next_from_header.
  cbn [hdr_timestamp hdr_previous hdr_producer hdr_new_producers]. rewrite Ep, ret_bind.
  rewrite (EOS_ASSERT_true (sha256_eqb _ _)), ret_bind by (rewrite Hpar; apply sha256_eqb_refl).
  rewrite (EOS_ASSERT_true (_ =? _)), ret_bind by lia. rewrite (EOS_ASSERT_true true), ret_bind by done.
  unfold validate_and_extract_header_extensions. cbn [hdr_header_extensions]. rewrite Hv, ret_bind, Hfp, Hff.
  assert ((match (if is_empty (in_new_protocol_feature_activations input) then None
                  else Some (protocol_feature_activation (PK := PK) (K := K) (in_new_protocol_feature_activations input))) with
           | None => mret []
           | Some (protocol_feature_activation l) => validator (bhs_timestamp s) (activated_protocol_features s) l;; mret l
           | Some _ => Err undefined_behavior
           end) = Ok (in_new_protocol_feature_activations input)) as ->.
  { destruct (in_new_protocol_feature_activations input); [done|]. cbn [is_empty]. by rewrite Hval. }
  rewrite ret_bind. unfold is_proper_svnn_block. cbn [hdr_schedule_version hdr_action_mroot]. rewrite Z.eqb_refl.
  change (fx_qc_claim f) with (in_most_recent_ancestor_with_qc input). rewrite Em, ret_bind, Eg, ret_bind.
  rewrite EOS_ASSERT_true, ret_bind by (by apply bool_decide_eq_true). exact Hn.
Qed.
End Assembly.

(** ** A concrete block *)

(** Block 2 of the sample chain proposes finalizers and producers and activates
    a protocol feature. *)
Definition toy_input : block_header_state_input (uint 8) (uint 8) := {|
  in_parent_id := block_id toy_genesis; in_timestamp := 101; in_producer := 5;
  in_new_protocol_feature_activations := [Sha256 1 2 3 4]; in_transaction_mroot := sha256_zero;
  in_new_proposer_policy := Some (toy_proposers 2 101); in_new_finalizer_policy := Some (toy_finalizers 2);
  in_most_recent_ancestor_with_qc := strong_claim 1; in_finality_mroot_claim := sha256_zero |}.

Definition toy_validator (t : Z) (activated new : list sha256) : result unit :=
  EOS_ASSERT (t <? 200) invalid_block_header_extension.

Ltac in_word := vm_compute; split; congruence.

Lemma toy_input_ok : input_ok toy_validator toy_genesis toy_input.
Proof.
  constructor.
  - done.
  - eexists. split; [vm_compute; reflexivity|vm_compute; reflexivity].
  - split; [in_word|exact I].
  - intros p [= <-]. split; [in_word|]. split; [in_word|].
    constructor; [|constructor]. split; [exact I|]. split; in_word.
  - intros p [= <-]. split; [in_word|]. split; [in_word|].
    constructor; [|constructor]. split; [in_word|]. split; [in_word|].
    constructor; [|constructor]. split; in_word.
  - split; [refine (bool_decide_unpack _ _); vm_compute; reflexivity|].
    constructor; [|constructor]. split; [in_word|]. split; [in_word|]. split; in_word.
  - intros _. vm_compute. reflexivity.
  - eexists. split; [vm_compute; reflexivity|vm_compute; reflexivity].
Qed.

Lemma assembled_block_validates_witness :
  exists s', next_from_input toy_sha toy_genesis toy_input 7 = Ok s' /\
    next_from_header toy_sha toy_validator toy_genesis (header s') 7 = Ok s'.
Proof.
  assert (is_Ok (next_from_input toy_sha toy_genesis toy_input 7) = true) as Hok by (vm_compute; reflexivity).
  destruct (next_from_input toy_sha toy_genesis toy_input 7) as [s'|] eqn:E; [|discriminate Hok].
  exists s'. split; [done|].
  exact (assembled_block_validates toy_sha toy_validator toy_genesis s' toy_input 7 toy_input_ok E).
Defined.
