(* ===== verification/ForkDatabase.v ===== *)
(** The fork database (chain/include/eosio/chain/fork_database.hpp and
    chain/fork_database.cpp): the tree of blocks that are not yet final, rooted
    at the last final block.

    [fork_database_impl] is a template over the block state, so the model is a
    section over the class [ForkBlock] of what the template uses of a block.
    Block states are shared pointers whose only field that changes here is the
    validated flag; they are values, and marking one valid updates it wherever
    it is held.  The index is the list of its blocks in the order they were
    inserted, which is also the order in which [by_prev] keeps the blocks of one
    parent; the other orders are computed from it.  Every public method holds
    the mutex for its whole body, so methods are atomic steps. *)
From Stdlib Require Import ZArith Lia ZifyBool.
From stdpp Require Import base tactics numbers list sorting.
From S2P Require Import Prelude Digest Raw.
#[local] Open Scope Z_scope.

(** ** What the template uses of a block *)

Class ForkBlock (BS : Type) : Type := {
  fb_id : BS -> sha256;
  fb_previous : BS -> sha256;
  fb_block_num : BS -> Z;
  fb_timestamp : BS -> Z;
  fb_is_valid : BS -> bool;
  fb_set_valid : bool -> BS -> BS;
  (* the first two members of the composite key of [by_best_branch] *)
  fb_rank : BS -> Z * Z;
  (* the block number of a strong claim of the block's header; [None] for a
     weak claim, and for a legacy block, which makes none *)
  fb_strong_claim : BS -> option Z;
  (* the id of the block that the core's latest claim refers to *)
  fb_latest_claim_id : BS -> result sha256;
  fb_activated_features : BS -> list sha256;
  fb_new_features : BS -> option (list sha256)
}.

(** [operator<=>] of [sha256]: [memcmp] of the four words as they lie in memory. *)
Fixpoint bytes_compare (a b : list Z) : comparison :=
  match a, b with
  | [], [] => Eq
  | [], _ => Lt
  | _, [] => Gt
  | x :: a, y :: b => match x ?= y with Eq => bytes_compare a b | c => c end
  end.
Definition sha256_compare (a b : sha256) : comparison := bytes_compare (sha256_bytes a) (sha256_bytes b).

Section ForkDatabase.
Context {BS : Type} `{ForkBlock BS}.

Record fork_db : Type := ForkDb {
  root : option BS;
  pending_savanna_lib_id : sha256;
  index : list BS
}.

Definition fork_db_init : fork_db := ForkDb None sha256_zero [].

(** The composite key of [by_best_branch], compared lexicographically; the
    container sorts it in descending order. *)
Definition rank_compare (a b : BS) : comparison :=
  match (fb_rank a).1 ?= (fb_rank b).1 with
  | Eq => match (fb_rank a).2 ?= (fb_rank b).2 with
          | Eq => sha256_compare (fb_id a) (fb_id b)
          | c => c
          end
  | c => c
  end.
Definition better (a b : BS) : bool := match rank_compare a b with Gt => true | _ => false end.

(** ** Lookups *)

(** [index.find(id)] on the hashed index. *)
Definition index_find (id : sha256) (l : list BS) : option BS :=
  List.find (fun b => sha256_eqb (fb_id b) id) l.

Definition root_is (db : fork_db) (id : sha256) : result bool :=
  match root db with Some r => mret (sha256_eqb (fb_id r) id) | None => Err undefined_behavior end.

Definition get_block_impl (db : fork_db) (id : sha256) (include_root : bool) : result (option BS) :=
  if include_root then
    is_root ← root_is db id;
    if is_root : bool then mret (root db) else mret (index_find id (index db))
  else mret (index_find id (index db)).

Definition block_exists_impl (db : fork_db) (id : sha256) : bool :=
  match index_find id (index db) with Some _ => true | None => false end.

(** The first block of [by_best_branch]: the block with the greatest key. *)
Definition best_of (b : BS) (l : list BS) : BS :=
  foldl (fun acc x => if better x acc then x else acc) b l.
Definition head_impl (db : fork_db) (include_root : bool) : option BS :=
  match index db with
  | [] => if include_root then root db else None
  | b :: l => Some (best_of b l)
  end.

(** The blocks that a loop visits which starts at [index.find(h)] and goes on
    with [index.find] of the block's [previous()] until there is none.  One more
    round than the index has blocks: no block is visited twice. *)
Fixpoint walk (fuel : nat) (h : sha256) (l : list BS) : list BS :=
  match fuel with
  | O => []
  | S fuel =>
      match index_find h l with
      | None => []
      | Some b => b :: walk fuel (fb_previous b) l
      end
  end.
Definition branch (db : fork_db) (h : sha256) : list BS := walk (S (length (index db))) h (index db).

(** [fetch_branch_impl(h, trim_after_block_num)]; [fetch_block_branch_impl]
    returns the signed blocks of the same states. *)
Definition fetch_branch_impl (db : fork_db) (h : sha256) (trim_after_block_num : Z) : list BS :=
  filter (fun b => fb_block_num b <= trim_after_block_num) (branch db h).

(** [fetch_branch_impl(h, b)]: from [b] on. *)
Fixpoint drop_until (b : sha256) (l : list BS) : list BS :=
  match l with
  | [] => []
  | x :: l' => if sha256_eqb (fb_id x) b then l else drop_until b l'
  end.
Definition fetch_branch_to_impl (db : fork_db) (h b : sha256) : list BS := drop_until b (branch db h).

Definition fetch_full_branch_impl (db : fork_db) (h : sha256) : list (option BS) :=
  (Some <$> branch db h) ++ [root db].

Definition search_on_branch_impl (db : fork_db) (h : sha256) (block_num : Z) (include_root : bool) : option BS :=
  match root db with
  | None => None
  | Some r =>
      if include_root && sha256_eqb (fb_id r) h && (fb_block_num r =? block_num) then Some r
      else if block_num <=? fb_block_num r then None
      else List.find (fun b => fb_block_num b =? block_num) (branch db h)
  end.

Definition search_on_head_branch_impl (db : fork_db) (block_num : Z) (include_root : bool) : option BS :=
  match head_impl db include_root with
  | None => None
  | Some h => search_on_branch_impl db (fb_id h) block_num include_root
  end.

(** The loop of [validated_block_exists_impl]: an answer, or the end of the branch. *)
Fixpoint validated_loop (claimed_id : sha256) (l : list BS) : option bool :=
  match l with
  | [] => None
  | b :: l =>
      if fb_is_valid b then Some true
      else if sha256_eqb (fb_id b) claimed_id then Some false
      else validated_loop claimed_id l
  end.
Definition validated_block_exists_impl (db : fork_db) (id claimed_id : sha256) : result bool :=
  let visited := branch db id in
  match validated_loop claimed_id visited with
  | Some r => mret r
  | None =>
      match root db with
      | None => Err undefined_behavior
      | Some r =>
          let id_present := negb (is_empty visited) in
          _ ← c_assert (negb id_present || (num_from_id claimed_id <=? num_from_id (fb_id r)));
          mret (id_present || sha256_eqb id (fb_id r))
      end
  end.

(** ** Two branches to a common ancestor *)

(** [(id == root->id()) ? root : get_block_impl(id)], which must exist. *)
Definition block_or_root (db : fork_db) (r : BS) (id : sha256) : result BS :=
  if sha256_eqb id (fb_id r) then mret r
  else match index_find id (index db) with Some b => mret b | None => Err fork_db_block_not_found end.

(** The first two loops: step down [b] while it is above block number [n]. *)
Fixpoint descend_to (fuel : nat) (db : fork_db) (r b : BS) (n : Z) : result (list BS * BS) :=
  if n <? fb_block_num b then
    match fuel with
    | O => Err assertion_failed
    | S fuel =>
        p ← block_or_root db r (fb_previous b);
        '(acc, last) ← descend_to fuel db r p n;
        mret (b :: acc, last)
    end
  else mret ([], b).

(** The third loop: step both down until their parents are the same. *)
Fixpoint descend_both (fuel : nat) (db : fork_db) (a b : BS) : result (list BS * list BS) :=
  if sha256_eqb (fb_previous a) (fb_previous b) then mret ([a], [b])
  else
    match fuel with
    | O => Err assertion_failed
    | S fuel =>
        match index_find (fb_previous a) (index db), index_find (fb_previous b) (index db) with
        | Some a', Some b' =>
            '(ra, rb) ← descend_both fuel db a' b'; mret (a :: ra, b :: rb)
        | _, _ => Err fork_db_block_not_found
        end
    end.

Definition fetch_branch_from_impl (db : fork_db) (first second : sha256) : result (list BS * list BS) :=
  match root db with
  | None => Err undefined_behavior
  | Some r =>
      let fuel := S (length (index db)) in
      first_branch ← block_or_root db r first;
      second_branch ← block_or_root db r second;
      '(r1, first_branch) ← descend_to fuel db r first_branch (fb_block_num second_branch);
      '(r2, second_branch) ← descend_to fuel db r second_branch (fb_block_num first_branch);
      if sha256_eqb (fb_id first_branch) (fb_id second_branch) then mret (r1, r2)
      else
        '(s1, s2) ← descend_both fuel db first_branch second_branch;
        mret (r1 ++ s1, r2 ++ s2)
  end.

(** ** Changes *)

(** [index.erase(id)]. *)
Definition index_erase (id : sha256) (l : list BS) : list BS :=
  filter (fun b => sha256_eqb (fb_id b) id = false) l.

(** The loop that grows the queue: the children of the [i]-th entry are
    appended, until every entry was looked at. *)
Fixpoint grow_queue (fuel : nat) (l : list BS) (i : nat) (queue : list sha256) : list sha256 :=
  match fuel with
  | O => queue
  | S fuel =>
      match queue !! i with
      | None => queue
      | Some x =>
          grow_queue fuel l (S i)
            (queue ++ (fb_id <$> filter (fun b => sha256_eqb (fb_previous b) x = true) l))
      end
  end.

(** Every block enters the queue once at most, next to [id] itself. *)
Definition remove_queue (l : list BS) (id : sha256) : list sha256 := grow_queue (2 + length l) l 0 [id].
Definition remove_from (l : list BS) (id : sha256) : list BS :=
  foldl (fun l id => index_erase id l) l (remove_queue l id).

Definition remove_impl (db : fork_db) (id : sha256) : fork_db :=
  ForkDb (root db) (pending_savanna_lib_id db) (remove_from (index db) id).

Definition reset_root_impl (db : fork_db) (root_bs : BS) : fork_db :=
  ForkDb (Some (fb_set_valid true root_bs)) (pending_savanna_lib_id db) [].

(** The loop of [advance_root_impl] that collects the ids below the new root. *)
Fixpoint blocks_to_remove (fuel : nat) (l : list BS) (r b : BS) : result (list sha256) :=
  match fuel with
  | O => Err assertion_failed
  | S fuel =>
      match index_find (fb_previous b) l with
      | Some p => rest ← blocks_to_remove fuel l r p; mret (fb_previous b :: rest)
      | None => _ ← EOS_ASSERT (sha256_eqb (fb_previous b) (fb_id r)) fork_database_exception;
                mret [fb_previous b]
      end
  end.

Definition advance_root_impl (db : fork_db) (id : sha256) : result fork_db :=
  match root db with
  | None => Err fork_database_exception
  | Some r =>
      match index_find id (index db) with
      | None => Err fork_database_exception
      | Some new_root =>
          _ ← EOS_ASSERT (fb_is_valid new_root) fork_database_exception;
          ids ← blocks_to_remove (S (length (index db))) (index db) r new_root;
          mret (ForkDb (Some new_root) (pending_savanna_lib_id db)
                  (foldl remove_from (index_erase id (index db)) ids))
      end
  end.

Definition set_pending_savanna_lib_id_impl (db : fork_db) (id : sha256) : fork_db * bool :=
  if num_from_id (pending_savanna_lib_id db) <? num_from_id id
  then (ForkDb (root db) id (index db), true) else (db, false).

(** The claim of the added block, before anything else is looked at. *)
Definition note_strong_claim (db : fork_db) (n : BS) : result fork_db :=
  match fb_strong_claim n with
  | None => mret db
  | Some claimed_num =>
      match search_on_branch_impl db (fb_previous n) claimed_num false with
      | None => mret db
      | Some claimed => id ← fb_latest_claim_id claimed; mret (set_pending_savanna_lib_id_impl db id).1
      end
  end.

(** [validator_t]: the check of newly activated features at a time, given the
    features active before. *)
Definition validator_t : Type := Z -> list sha256 -> list sha256 -> result unit.

(** An exception of the fc library that the validator throws becomes a
    [fork_database_exception]. *)
Definition validate_features (validator : validator_t) (prev n : BS) : result unit :=
  EOS_RETHROW_EXCEPTIONS fork_database_exception
    (match fb_new_features n with
     | None => mret tt
     | Some fs => validator (fb_timestamp n) (fb_activated_features prev) fs
     end).

(** The database a call leaves behind and how it ended: a claim that was
    noted stays noted when the block itself is refused.  A block is passed as a
    pointer that is not null. *)
Definition add_impl (db : fork_db) (n : BS) (ignore_duplicate validate : bool) (validator : validator_t)
    : fork_db * result unit :=
  match root db with
  | None => (db, Err fork_database_exception)
  | Some r =>
      match note_strong_claim db n with
      | Err e => (db, Err e)
      | Ok db =>
          match get_block_impl db (fb_previous n) true with
          | Err e => (db, Err e)
          | Ok None => (db, Err unlinkable_block_exception)
          | Ok (Some prev_bh) =>
              match (if validate then validate_features validator prev_bh n else mret tt) with
              | Err e => (db, Err e)
              | Ok _ =>
                  if block_exists_impl db (fb_id n)
                  then (db, EOS_ASSERT ignore_duplicate fork_database_exception)
                  else (ForkDb (root db) (pending_savanna_lib_id db) (index db ++ [n]), mret tt)
              end
          end
      end
  end.

Definition add (db : fork_db) (n : BS) (ignore_duplicate : bool) : fork_db * result unit :=
  add_impl db n ignore_duplicate false (fun _ _ _ => mret tt).

(** The controller marks a block valid; the block is shared. *)
Definition mark_valid (db : fork_db) (id : sha256) : fork_db :=
  ForkDb (root db) (pending_savanna_lib_id db)
    ((fun b => if sha256_eqb (fb_id b) id then fb_set_valid true b else b) <$> index db).

(** ** Persistence *)

(** What [close_impl] writes: the pending id, the root, and the blocks from
    the worst to the best. *)
Record fork_db_file : Type := ForkDbFile {
  file_pending : sha256;
  file_root : BS;
  file_blocks : list BS
}.

Fixpoint insert_sorted (x : BS) (l : list BS) : list BS :=
  match l with
  | [] => [x]
  | y :: l' => if better x y then y :: insert_sorted x l' else x :: l
  end.
Definition worst_to_best (l : list BS) : list BS := foldr insert_sorted [] l.

Definition close_impl (db : fork_db) : result (fork_db_file * fork_db) :=
  match root db with
  | None => Err assertion_failed
  | Some r => mret (ForkDbFile (pending_savanna_lib_id db) r (worst_to_best (index db)),
                    ForkDb (root db) (pending_savanna_lib_id db) [])
  end.

Fixpoint add_all (validator : validator_t) (l : list BS) (db : fork_db) : result fork_db :=
  match l with
  | [] => mret db
  | b :: l =>
      match add_impl db b false true validator with
      | (db, Ok _) => add_all validator l db
      | (_, Err e) => Err e
      end
  end.

Definition open_impl (validator : validator_t) (f : fork_db_file) (db : fork_db) : result fork_db :=
  add_all validator (file_blocks f)
    (reset_root_impl (ForkDb (root db) (file_pending f) (index db)) (file_root f)).

End ForkDatabase.
