(* ===== verification/ForkTree.v ===== *)
(** The fork database is a tree: what its methods return and what they keep.
    Every block's parent is in the index or is the root, so walking down from
    any block ends at the root; removing a block removes its descendants and
    nothing else; advancing the root keeps the descendants of the new root and
    nothing else; two blocks' branches end at their common ancestor; and what
    was saved is what is loaded. *)
From Stdlib Require Import ZArith Lia ZifyBool.
From stdpp Require Import base tactics numbers list sorting.
From S2P Require Import Prelude Digest Raw ForkDatabase.
#[local] Open Scope Z_scope.

(** Marking a block valid changes nothing else of it. *)
Class ForkBlockLaws (BS : Type) `{ForkBlock BS} : Prop := {
  set_valid_id : forall v b, fb_id (fb_set_valid v b) = fb_id b;
  set_valid_previous : forall v b, fb_previous (fb_set_valid v b) = fb_previous b;
  set_valid_block_num : forall v b, fb_block_num (fb_set_valid v b) = fb_block_num b;
  set_valid_rank : forall v b, fb_rank (fb_set_valid v b) = fb_rank b;
  set_valid_strong_claim : forall v b, fb_strong_claim (fb_set_valid v b) = fb_strong_claim b;
  set_valid_latest_claim_id : forall v b, fb_latest_claim_id (fb_set_valid v b) = fb_latest_claim_id b;
  set_valid_idem : forall b, fb_is_valid b = true -> fb_set_valid true b = b;
  is_valid_set_valid : forall v b, fb_is_valid (fb_set_valid v b) = v
}.

Section tree.
Context {BS : Type} `{LB : ForkBlockLaws BS}.
Implicit Types (l : list BS) (b r : BS) (db : fork_db (BS := BS)).
Abbreviation num b := (num_from_id (fb_id b)).

(** The id of a block carries its number, one more than its parent's. *)
Definition block_ok b : Prop :=
  num_from_id (fb_id b) = num_from_id (fb_previous b) + 1 /\ fb_block_num b = num_from_id (fb_id b).

Record tree_ok (r : BS) (l : list BS) : Prop := {
  ids_distinct : NoDup (fb_id <$> l);
  blocks_ok : Forall block_ok l;
  root_num : fb_block_num r = num_from_id (fb_id r);
  linked : forall b, b ∈ l -> fb_previous b = fb_id r \/ exists p, p ∈ l /\ fb_id p = fb_previous b
}.

Lemma block_ok_in l b : Forall block_ok l -> b ∈ l -> block_ok b.
Proof. rewrite Forall_forall. auto. Qed.

Lemma tree_block_ok r l b : tree_ok r l -> b ∈ l -> block_ok b.
Proof. intros Hok. by apply block_ok_in, (blocks_ok _ _ Hok). Qed.

(** ** Lookups *)

Lemma index_find_Some l id b : index_find id l = Some b -> b ∈ l /\ fb_id b = id.
Proof.
  unfold index_find. intros Hf. apply find_some in Hf as [Hin He].
  apply sha256_eqb_eq in He. split; [by apply list_elem_of_In|done].
Qed.

Lemma index_find_None l id : index_find id l = None -> forall b, b ∈ l -> fb_id b <> id.
Proof.
  unfold index_find. intros Hf b Hb E. apply list_elem_of_In in Hb. apply (find_none _ _ Hf) in Hb.
  rewrite E, sha256_eqb_refl in Hb. done.
Qed.

Lemma ids_inj l b b' : NoDup (fb_id <$> l) -> b ∈ l -> b' ∈ l -> fb_id b = fb_id b' -> b = b'.
Proof. apply fmap_NoDup_inj. Qed.

Lemma index_find_in l b : NoDup (fb_id <$> l) -> b ∈ l -> index_find (fb_id b) l = Some b.
Proof.
  intros Hnd Hb. destruct (index_find (fb_id b) l) as [b'|] eqn:E.
  - apply index_find_Some in E as [Hb' E]. f_equal. by eapply ids_inj.
  - by apply (index_find_None _ _ E) in Hb.
Qed.

(** ** Numbers *)

Lemma num_nonneg id : 0 <= num_from_id id.
Proof. pose proof (num_from_id_range id). unfold is_u32 in *. lia. Qed.

Lemma block_above_root r l b : tree_ok r l -> b ∈ l -> num r < num b.
Proof.
  intros Hok. remember (Z.to_nat (num b)) as n eqn:En. revert b En.
  induction (lt_wf n) as [n _ IH]. intros b -> Hb.
  assert (Hbo : block_ok b) by (by eapply tree_block_ok).
  destruct Hbo as [Hn _]. destruct (linked _ _ Hok b Hb) as [Hr|(p & Hp & Ep)]; [rewrite Hr in Hn; lia|].
  pose proof (num_nonneg (fb_id p)). rewrite <- Ep in Hn.
  specialize (IH (Z.to_nat (num p)) ltac:(lia) p eq_refl Hp). lia.
Qed.

Lemma root_not_in_index r l : tree_ok r l -> index_find (fb_id r) l = None.
Proof.
  intros Hok. destruct (index_find (fb_id r) l) as [b|] eqn:E; [|done].
  apply index_find_Some in E as [Hb E]. pose proof (block_above_root _ _ _ Hok Hb). rewrite E in *. lia.
Qed.

(** ** Paths to the root *)

(** [path l r h p]: from the block with id [h], [p] lists it and its ancestors
    down to the root. *)
Inductive path l r : sha256 -> list BS -> Prop :=
| path_root : path l r (fb_id r) [r]
| path_step h b p : index_find h l = Some b -> path l r (fb_previous b) p -> path l r h (b :: p).

Lemma path_exists r l b : tree_ok r l -> b ∈ l -> exists p, path l r (fb_id b) (b :: p) /\ path l r (fb_previous b) p.
Proof.
  intros Hok. remember (Z.to_nat (num b)) as n eqn:En. revert b En.
  induction (lt_wf n) as [n _ IH]. intros b -> Hb.
  assert (Hbo : block_ok b) by (by eapply tree_block_ok).
  destruct Hbo as [Hn _]. pose proof (index_find_in _ _ (ids_distinct _ _ Hok) Hb) as Hf.
  destruct (linked _ _ Hok b Hb) as [Hr|(p & Hp & Ep)].
  - exists [r]. split; [econstructor; [done|]|]; rewrite Hr; constructor.
  - pose proof (num_nonneg (fb_id p)). rewrite <- Ep in Hn.
    destruct (IH (Z.to_nat (num p)) ltac:(lia) p eq_refl Hp) as (q & Hq & _).
    exists (p :: q). rewrite <- Ep. split; [|done]. econstructor; [done|]. by rewrite <- Ep.
Qed.

Lemma path_det r l h p q : tree_ok r l -> path l r h p -> path l r h q -> p = q.
Proof.
  intros Hok Hp. revert q. induction Hp as [|h b p Hf Hp IH]; intros q Hq.
  - inversion Hq as [|? b ? Hf]; subst; [done|]. by rewrite root_not_in_index in Hf.
  - inversion Hq as [|? b' q' Hf' Hq']; subst.
    + by rewrite root_not_in_index in Hf.
    + rewrite Hf in Hf'. injection Hf' as <-. f_equal. by apply IH.
Qed.

(** Along a path the numbers go down by one, ending with the root's. *)
Lemma path_num r l h p : tree_ok r l -> path l r h p ->
  Z.of_nat (length p) = num_from_id h - num r + 1 /\
  (forall b, b ∈ p -> num r <= num b <= num_from_id h) /\
  (forall b p', p = b :: p' -> fb_id b = h).
Proof.
  intros Hok Hp. induction Hp as [|h b p Hf Hp (IHl & IHn & IHh)].
  - split; [cbn; lia|]. split; [intros b ->%list_elem_of_singleton; lia|]. by intros b p' [= ->].
  - apply index_find_Some in Hf as [Hb Eb].
    assert (Hbo : block_ok b) by (by eapply tree_block_ok). destruct Hbo as [Hn _].
    rewrite Eb in Hn. split; [cbn [length]; lia|]. split; [|by intros ? ? [= <- _]].
    intros b' [->|Hb']%elem_of_cons; [|apply IHn in Hb'; lia].
    rewrite Eb. pose proof (block_above_root _ _ _ Hok Hb). rewrite Eb in *. lia.
Qed.

Lemma path_in r l h p b : path l r h p -> b ∈ p -> b = r \/ b ∈ l.
Proof.
  intros Hp. induction Hp as [|h b' p Hf Hp IH]; intros Hb.
  - apply list_elem_of_singleton in Hb. by left.
  - apply elem_of_cons in Hb as [->|Hb]; [|by apply IH]. right. by apply index_find_Some in Hf as [? _].
Qed.

Lemma path_NoDup r l h p : tree_ok r l -> path l r h p -> NoDup p.
Proof.
  intros Hok Hp. induction Hp as [|h b p Hf Hp IH]; [apply NoDup_singleton|].
  apply NoDup_cons. split; [|done]. intros Hb.
  apply (path_num _ _ _ _ Hok) in Hp as (_ & Hn & _). apply Hn in Hb.
  apply index_find_Some in Hf as [Hbl _].
  assert (Hbo : block_ok b) by (by eapply tree_block_ok). destruct Hbo. lia.
Qed.

(** Two blocks of a path with the same number are the same block. *)
Lemma path_num_inj r l h p b b' : tree_ok r l -> path l r h p -> b ∈ p -> b' ∈ p -> num b = num b' -> b = b'.
Proof.
  intros Hok Hp. induction Hp as [|h c p Hf Hp IH]; intros Hb Hb' E.
  - apply list_elem_of_singleton in Hb, Hb'. congruence.
  - apply index_find_Some in Hf as [Hc Ec]. destruct (tree_block_ok _ _ _ Hok Hc) as [Hn _].
    destruct (path_num _ _ _ _ Hok Hp) as (_ & Hlow & _).
    apply elem_of_cons in Hb as [->|Hb], Hb' as [->|Hb']; [done| | |by apply IH].
    + apply Hlow in Hb'. lia.
    + apply Hlow in Hb. lia.
Qed.

Lemma path_length r l h p : tree_ok r l -> path l r h p -> (length p <= S (length l))%nat.
Proof.
  intros Hok Hp. pose proof (path_NoDup _ _ _ _ Hok Hp) as Hnd.
  assert (Hsub : p ⊆+ r :: l); [|by apply submseteq_length in Hsub].
  apply NoDup_submseteq; [done|]. intros b Hb. apply elem_of_cons. by eapply path_in.
Qed.

(** A walk with a round per block of the index is the path without the root. *)
Lemma walk_path r l h p fuel : tree_ok r l -> path l r h p -> (length p <= fuel)%nat ->
  exists q, p = q ++ [r] /\ walk fuel h l = q.
Proof.
  intros Hok Hp. revert fuel. induction Hp as [|h b p Hf Hp IH]; intros fuel Hfuel.
  - exists []. split; [done|]. destruct fuel; [done|]. cbn. by rewrite root_not_in_index.
  - destruct fuel as [|fuel]; [cbn in Hfuel; lia|]. cbn [walk]. rewrite Hf.
    destruct (IH fuel) as (q & -> & ->); [cbn in Hfuel; lia|]. by exists (b :: q).
Qed.

Lemma branch_path r db h p : tree_ok r (index db) -> path (index db) r h p -> p = branch db h ++ [r].
Proof.
  intros Hok Hp. destruct (walk_path r (index db) h p (S (length (index db))) Hok Hp) as (q & -> & E).
  - by eapply path_length.
  - unfold branch. by rewrite E.
Qed.

Lemma path_cases r l h p : path l r h p -> tree_ok r l ->
  (h = fb_id r /\ p = [r]) \/
  exists b q, p = b :: q /\ b ∈ l /\ fb_id b = h /\ index_find h l = Some b /\ path l r (fb_previous b) q.
Proof.
  intros Hp Hok. destruct Hp as [|h b p Hf Hp]; [by left|]. right. exists b, p.
  pose proof (index_find_Some _ _ _ Hf) as [? ?]. done.
Qed.

Lemma path_root_num r l h p : tree_ok r l -> path l r h p -> num_from_id h <= num r -> h = fb_id r /\ p = [r].
Proof.
  intros Hok Hp Hn. destruct (path_cases _ _ _ _ Hp Hok) as [?|(b & q & _ & Hb & <- & _)]; [done|].
  pose proof (block_above_root _ _ _ Hok Hb). lia.
Qed.

Lemma path_of_member r l b : tree_ok r l -> b = r \/ b ∈ l -> exists p, path l r (fb_id b) (b :: p).
Proof.
  intros Hok [->|Hb]; [exists []; constructor|]. destruct (path_exists _ _ _ Hok Hb) as (p & Hp & _). eauto.
Qed.

(** ** The common ancestor *)

Lemma block_or_root_path r db h p : tree_ok r (index db) -> path (index db) r h p ->
  exists b q, p = b :: q /\ block_or_root db r h = Ok b /\ fb_id b = h /\ fb_block_num b = num_from_id h.
Proof.
  intros Hok Hp. unfold block_or_root. destruct (path_cases _ _ _ _ Hp Hok) as [[-> ->]|(b & q & -> & Hb & E & Hf & _)].
  - exists r, []. rewrite sha256_eqb_refl. split_and!; [done..|apply (root_num _ _ Hok)].
  - exists b, q. destruct (sha256_eqb h (fb_id r)) eqn:Er.
    + apply sha256_eqb_eq in Er. rewrite Er, root_not_in_index in Hf; done.
    + rewrite Hf. split_and!; [done..|]. rewrite <- E.
      assert (Hbo : block_ok b) by (by eapply tree_block_ok). apply Hbo.
Qed.

Lemma descend_to_path r db p b n fuel :
  tree_ok r (index db) -> path (index db) r (fb_id b) (b :: p) -> fb_block_num b = num b -> num r <= n ->
  (length p <= fuel)%nat ->
  exists acc c q, descend_to fuel db r b n = Ok (acc, c) /\ b :: p = acc ++ c :: q /\
    path (index db) r (fb_id c) (c :: q) /\ fb_block_num c = num c /\ num c = Z.min (num b) n /\
    (forall x, x ∈ acc -> n < num x <= num b).
Proof.
  intros Hok. revert b fuel. induction p as [|b' p IH]; intros b fuel Hp Hbn Hn Hfuel.
  - exists [], b, []. pose proof (path_num _ _ _ _ Hok Hp) as (Hlen & _). cbn in Hlen.
    destruct fuel; cbn; destruct (Z.ltb_spec n (fb_block_num b)); try lia; split_and!; first [done|lia|by intros ? ?%not_elem_of_nil].
  - destruct fuel as [|fuel]; [cbn in Hfuel; lia|]. cbn [descend_to].
    destruct (Z.ltb_spec n (fb_block_num b)) as [Hlt|Hge].
    + destruct (path_cases _ _ _ _ Hp Hok) as [[_ [=]]|(b1 & q1 & [= <- <-] & Hb & _ & _ & Hprev)].
      destruct (block_or_root_path _ _ _ _ Hok Hprev) as (b2 & q2 & [= <- <-] & -> & E2 & En2).
      rewrite ret_bind. rewrite <- E2 in Hprev, En2.
      destruct (IH b' fuel Hprev En2 Hn) as (acc & c & q & -> & E & Hc & Hcn & Hcm & Hacc); [cbn in Hfuel; lia|].
      exists (b :: acc), c, q. rewrite ret_bind.
      assert (Hbo : block_ok b) by (by eapply tree_block_ok).
      destruct Hbo as [Hb1 _]. rewrite <- E2 in Hb1.
      split_and!; [done|by rewrite E|done..|lia|]. intros x [->|Hx]%elem_of_cons; [lia|]. apply Hacc in Hx. lia.
    + exists [], b, (b' :: p). split_and!; first [done|lia|by intros ? ?%not_elem_of_nil].
Qed.

Lemma descend_both_path r db p q a b fuel :
  tree_ok r (index db) -> path (index db) r (fb_id a) (a :: p) -> path (index db) r (fb_id b) (b :: q) ->
  num a = num b -> fb_id a <> fb_id b -> (length p <= fuel)%nat ->
  exists ra rb c s, descend_both fuel db a b = Ok (ra, rb) /\ a :: p = ra ++ c :: s /\ b :: q = rb ++ c :: s /\
    (forall x y, x ∈ ra -> y ∈ rb -> fb_id x <> fb_id y) /\
    (forall x, x ∈ ra -> num x <= num a) /\ (forall y, y ∈ rb -> num y <= num b).
Proof.
  intros Hok. revert q a b fuel. induction p as [|a' p IH]; intros q a b fuel Hp Hq Hab Hne Hfuel.
  { destruct (path_cases _ _ _ _ Hp Hok) as [[Ea [= Er]]|(a1 & q1 & [= <- <-] & _ & _ & _ & Hprev)]; [|by inversion Hprev].
    destruct (path_root_num _ _ _ _ Hok Hq) as [Eb _]; [rewrite <- Hab, Ea; lia|]. congruence. }
  destruct (path_cases _ _ _ _ Hp Hok) as [[_ [=]]|(a1 & q1 & [= <- <-] & Ha & _ & _ & Hpa)].
  destruct (path_cases _ _ _ _ Hq Hok) as [[Eb _]|(b1 & q2 & [= <- <-] & Hb & _ & _ & Hpb)].
  { pose proof (block_above_root _ _ _ Hok Ha). rewrite Eb in Hab. lia. }
  assert (Hao : block_ok a) by (by eapply tree_block_ok).
  assert (Hbo : block_ok b) by (by eapply tree_block_ok).
  destruct Hao as [Ha1 _], Hbo as [Hb1 _].
  assert (Hlow : forall x, x ∈ a' :: p -> num x < num a) by (intros x Hx; apply (path_num _ _ _ _ Hok) in Hpa as (_ & Hn & _); apply Hn in Hx; lia).
  destruct (sha256_eqb (fb_previous a) (fb_previous b)) eqn:Epr.
  { apply sha256_eqb_eq in Epr. rewrite Epr in Hpa.
    pose proof (path_det _ _ _ _ _ Hok Hpa Hpb) as Eq. subst q.
    exists [a], [b], a', p. split_and!; [|done..| | |].
    - destruct fuel; cbn; by rewrite Epr, sha256_eqb_refl.
    - by intros x y ->%list_elem_of_singleton ->%list_elem_of_singleton.
    - intros x ->%list_elem_of_singleton. lia.
    - intros x ->%list_elem_of_singleton. lia. }
  assert (Hpne : fb_previous a <> fb_previous b) by (intros E; by rewrite E, sha256_eqb_refl in Epr).
  destruct fuel as [|fuel]; [cbn in Hfuel; lia|]. cbn [descend_both]. rewrite Epr.
  destruct (path_cases _ _ _ _ Hpa Hok) as [[Ea ->]|(a2 & p2 & [= <- <-] & Ha2 & Eia & -> & Hpa2)].
  { destruct (path_root_num _ _ _ _ Hok Hpb) as [Eb' _]; [rewrite <- Ea; lia|]. congruence. }
  destruct (path_cases _ _ _ _ Hpb Hok) as [[Eb ->]|(b2 & q2 & -> & Hb2 & Eib & -> & Hpb2)].
  { destruct (path_root_num _ _ _ _ Hok Hpa) as [Eb' _]; [rewrite <- Eb; lia|]. congruence. }
  rewrite <- Eia in Hpa. rewrite <- Eib in Hpb.
  destruct (IH q2 a' b2 fuel Hpa Hpb) as (ra & rb & c & s & -> & E1 & E2 & Hd & Hra & Hrb);
    [congruence || (rewrite Eia, Eib; lia)|congruence|cbn in Hfuel; lia|].
  exists (a :: ra), (b :: rb), c, s. rewrite ret_bind. rewrite E1, E2.
  assert (num a' < num a) by (rewrite Eia; lia). assert (num b2 < num b) by (rewrite Eib; lia).
  split_and!; [done..| | |].
  - intros x y [->|Hx]%elem_of_cons [->|Hy]%elem_of_cons; [done| | |by apply Hd].
    + intros E. apply Hrb in Hy. rewrite <- E in Hy. lia.
    + intros E. apply Hra in Hx. rewrite E in Hx. lia.
  - intros x [->|Hx]%elem_of_cons; [lia|]. apply Hra in Hx. lia.
  - intros x [->|Hx]%elem_of_cons; [lia|]. apply Hrb in Hx. lia.
Qed.

(** [fetch_branch_from] returns, for any two blocks of the database or the
    root, the two branches down to their closest common ancestor: each block's
    way to the root is its branch, then the ancestor [c] and what is below it,
    the same for both, and the two branches have no block in common.  It never
    throws and its three loops end. *)
Theorem fetch_branch_from_correct db r a b :
  root db = Some r -> tree_ok r (index db) ->
  (a = r \/ a ∈ index db) -> (b = r \/ b ∈ index db) ->
  exists ra rb c s, fetch_branch_from_impl db (fb_id a) (fb_id b) = Ok (ra, rb) /\
    branch db (fb_id a) ++ [r] = ra ++ c :: s /\ branch db (fb_id b) ++ [r] = rb ++ c :: s /\
    (forall x y, x ∈ ra -> y ∈ rb -> fb_id x <> fb_id y).
Proof.
  intros Hr Hok Ha Hb. unfold fetch_branch_from_impl. rewrite Hr.
  destruct (path_of_member _ _ _ Hok Ha) as (p & Hp). destruct (path_of_member _ _ _ Hok Hb) as (q & Hq).
  rewrite <- !(branch_path r db _ _ Hok Hp), <- !(branch_path r db _ _ Hok Hq).
  destruct (block_or_root_path _ _ _ _ Hok Hp) as (a' & p' & [= <- <-] & -> & _ & Na).
  destruct (block_or_root_path _ _ _ _ Hok Hq) as (b' & q' & [= <- <-] & -> & _ & Nb). rewrite !ret_bind, Nb.
  pose proof (path_length _ _ _ _ Hok Hp) as Lp. pose proof (path_length _ _ _ _ Hok Hq) as Lq. cbn in Lp, Lq.
  pose proof (path_num _ _ _ _ Hok Hq) as (_ & Hqn & _). pose proof (Hqn b ltac:(by left)) as Hb0.
  pose proof (path_num _ _ _ _ Hok Hp) as (_ & Hpn & _). pose proof (Hpn a ltac:(by left)) as Ha0.
  destruct (descend_to_path r db p a (num b) (S (length (index db))) Hok Hp Na) as
    (acc1 & c1 & q1 & -> & E1 & P1 & N1 & M1 & A1); [lia..|]. rewrite ret_bind, N1.
  destruct (descend_to_path r db q b (num c1) (S (length (index db))) Hok Hq Nb) as
    (acc2 & c2 & q2 & -> & E2 & P2 & N2 & M2 & A2); [lia..|]. rewrite ret_bind, E1, E2.
  destruct (sha256_eqb (fb_id c1) (fb_id c2)) eqn:Ec.
  - apply sha256_eqb_eq in Ec. rewrite <- Ec in P2. pose proof (path_det _ _ _ _ _ Hok P1 P2) as [= <- <-].
    exists acc1, acc2, c1, q1. split_and!; [done..|]. intros x y Hx Hy E.
    apply A1 in Hx. apply A2 in Hy. rewrite E in Hx. lia.
  - pose proof (path_length _ _ _ _ Hok P1) as Lc. cbn in Lc.
    destruct (descend_both_path r db q1 q2 c1 c2 (S (length (index db))) Hok P1 P2) as
      (ra & rb & c & s & -> & F1 & F2 & Hd & Hra & Hrb); [lia|by intros E; rewrite E, sha256_eqb_refl in Ec|lia|].
    exists (acc1 ++ ra), (acc2 ++ rb), c, s. rewrite ret_bind, F1, F2, !(assoc_L (++)). split_and!; [done..|].
    intros x y Hx Hy E. apply elem_of_app in Hx as [Hx|Hx], Hy as [Hy|Hy].
    + apply A1 in Hx. apply A2 in Hy. rewrite E in Hx. lia.
    + apply A1 in Hx. apply Hrb in Hy. rewrite E in Hx. lia.
    + apply Hra in Hx. apply A2 in Hy. rewrite E in Hx. lia.
    + by apply (Hd x y).
Qed.

(** Walking down from any block of the database ends: the branch of a
    block is the block itself and then its ancestors, each the parent of the
    one before and one number lower, and the last one's parent is the root. *)
Theorem branch_ends_at_root db r b :
  root db = Some r -> tree_ok r (index db) -> b ∈ index db ->
  let br := branch db (fb_id b) in
  head br = Some b /\ fetch_full_branch_impl db (fb_id b) = Some <$> (br ++ [r]) /\
  (forall i x y, (br ++ [r]) !! i = Some x -> (br ++ [r]) !! S i = Some y ->
     fb_previous x = fb_id y /\ fb_block_num x = fb_block_num y + 1) /\
  Z.of_nat (length br) = fb_block_num b - fb_block_num r.
Proof.
  intros Hr Hok Hb br. destruct (path_exists _ _ _ Hok Hb) as (p & Hp & Hprev).
  pose proof (branch_path r db _ _ Hok Hp) as E. fold br in E.
  pose proof (path_num _ _ _ _ Hok Hp) as (Hlen & _).
  assert (Hbo : block_ok b) by (by eapply tree_block_ok). destruct Hbo as [Hb1 Hb2].
  split_and!.
  - destruct br as [|x br]; [|by injection E as -> _]. injection E as E _.
    pose proof (block_above_root _ _ _ Hok Hb). rewrite E in *. lia.
  - unfold fetch_full_branch_impl. by rewrite Hr, fmap_app.
  - rewrite <- E. clear -Hp Hok. intros i x y. revert i.
    induction Hp as [|h b' p' Hf Hp IH]; intros i Hx Hy; [by destruct i as [|[]]|].
    destruct i as [|i]; [|by apply (IH i)]. injection Hx as <-.
    pose proof (index_find_Some _ _ _ Hf) as [Hb' _].
    assert (Hbo : block_ok b') by (by eapply tree_block_ok). destruct Hbo as [Hb1 Hb2].
    destruct (path_cases _ _ _ _ Hp Hok) as [[E ->]|(b2 & q & -> & Hin & E & _)]; injection Hy as <-.
    + rewrite Hb2, Hb1, E, (root_num _ _ Hok). done.
    + assert (Hbo : block_ok b2) by (by eapply tree_block_ok).
      destruct Hbo as [_ Hb3]. rewrite Hb2, Hb1, Hb3, E. done.
  - rewrite E, length_app in Hlen. cbn [length] in Hlen. rewrite Hb2, (root_num _ _ Hok). lia.
Qed.

(** ** Removal *)

(** The ids of [id] and of everything built on it within [l]. *)
Inductive descends l (id : sha256) : sha256 -> Prop :=
| descends_self : descends l id id
| descends_child b : b ∈ l -> descends l id (fb_previous b) -> descends l id (fb_id b).

Lemma descends_num l id h : Forall block_ok l -> descends l id h -> num_from_id id <= num_from_id h.
Proof.
  intros Hok Hd. induction Hd as [|b Hb _ IH]; [lia|].
  assert (Hbo : block_ok b) by (by eapply block_ok_in). destruct Hbo. lia.
Qed.

(** What the queue holds after [i] of its entries were looked at. *)
Record queue_inv l (id : sha256) (i : nat) (queue : list sha256) : Prop := {
  q_first : queue !! 0%nat = Some id;
  q_bound : (i <= length queue)%nat;
  q_distinct : NoDup queue;
  q_sound : forall x, x ∈ queue -> descends l id x;
  q_origin : forall x, x ∈ queue -> x = id \/ exists b, b ∈ l /\ fb_id b = x /\ fb_previous b ∈ take i queue;
  q_complete : forall b, b ∈ l -> fb_previous b ∈ take i queue -> fb_id b ∈ queue
}.

Definition children l (x : sha256) : list sha256 :=
  fb_id <$> filter (fun b => sha256_eqb (fb_previous b) x = true) l.

Lemma elem_of_children l x y : y ∈ children l x <-> exists b, b ∈ l /\ fb_id b = y /\ fb_previous b = x.
Proof.
  unfold children. rewrite list_elem_of_fmap. split.
  - intros (b & -> & Hb). apply list_elem_of_filter in Hb as [E Hb]. apply sha256_eqb_eq in E. eauto.
  - intros (b & Hb & <- & E). exists b. split; [done|]. apply list_elem_of_filter. split; [|done]. by apply sha256_eqb_eq.
Qed.

Lemma children_NoDup l x : NoDup (fb_id <$> l) -> NoDup (children l x).
Proof. intros Hnd. eapply sublist_NoDup; [done|]. apply fmap_sublist, sublist_filter. Qed.

Lemma queue_step l id i queue x :
  NoDup (fb_id <$> l) -> Forall block_ok l -> queue_inv l id i queue -> queue !! i = Some x ->
  queue_inv l id (S i) (queue ++ children l x).
Proof.
  intros Hnd Hbok [Hf Hb Hd Hs Ho Hc] Hx.
  assert (Hlen : (i < length queue)%nat) by (by apply lookup_lt_Some in Hx).
  assert (Htake : take (S i) (queue ++ children l x) = take i queue ++ [x]).
  { rewrite take_app_le by lia. by apply take_S_r. }
  assert (Hxin : x ∈ queue) by (by eapply list_elem_of_lookup_2).
  assert (Hxt : x ∉ take i queue).
  { intros Hin. apply list_elem_of_lookup in Hin as [j Hj]. apply lookup_take_Some in Hj as [Hj Hji].
    pose proof (NoDup_lookup _ _ _ _ Hd Hj Hx). lia. }
  split.
  - rewrite lookup_app_l by lia. done.
  - rewrite length_app. lia.
  - apply NoDup_app. split; [done|]. split; [|by apply children_NoDup].
    intros y Hy Hch. apply elem_of_children in Hch as (b & Hbl & Eb & Ep).
    assert (Hbo : block_ok b) by (by eapply block_ok_in). destruct Hbo as [Hn _].
    destruct (Ho y Hy) as [->|(b' & Hb'l & Eb' & Hp')].
    + apply Hs, (descends_num _ _ _ Hbok) in Hxin. rewrite Eb, Ep in Hn. lia.
    + assert (b = b') as -> by (eapply ids_inj; [done..|congruence]). rewrite Ep in Hp'. done.
  - intros y [Hy|Hy]%elem_of_app; [by apply Hs|]. apply elem_of_children in Hy as (b & Hbl & <- & Ep).
    constructor; [done|]. rewrite Ep. by apply Hs.
  - intros y [Hy|Hy]%elem_of_app.
    + destruct (Ho y Hy) as [?|(b & ? & ? & Hp)]; [by left|]. right. exists b. split_and!; [done..|].
      rewrite Htake. apply elem_of_app. by left.
    + apply elem_of_children in Hy as (b & Hbl & <- & Ep). right. exists b. split_and!; [done..|].
      rewrite Htake, Ep. apply elem_of_app. right. by apply list_elem_of_singleton.
  - intros b Hbl. rewrite Htake. intros [Hp|Hp]%elem_of_app; apply elem_of_app; [left; auto|].
    right. apply list_elem_of_singleton in Hp. apply elem_of_children. eauto.
Qed.

Lemma queue_length l id i queue : queue_inv l id i queue -> (length queue <= S (length l))%nat.
Proof.
  intros [Hf Hb Hd Hs Ho Hc].
  assert (Hsub : queue ⊆+ id :: (fb_id <$> l)).
  - apply NoDup_submseteq; [done|]. intros x Hx. apply elem_of_cons.
    destruct (Ho x Hx) as [?|(b & Hbl & <- & _)]; [by left|]. right. by apply list_elem_of_fmap_2.
  - apply submseteq_length in Hsub. cbn in Hsub. by rewrite length_fmap in Hsub.
Qed.

Lemma grow_queue_done l id fuel i queue :
  NoDup (fb_id <$> l) -> Forall block_ok l -> queue_inv l id i queue -> (2 + length l <= fuel + i)%nat ->
  exists queue', grow_queue fuel l i queue = queue' /\ queue_inv l id (length queue') queue'.
Proof.
  intros Hnd Hbok. revert i queue. induction fuel as [|fuel IH]; intros i queue Hq Hfuel.
  - pose proof (queue_length _ _ _ _ Hq). pose proof (q_bound _ _ _ _ Hq). lia.
  - cbn [grow_queue]. destruct (queue !! i) as [x|] eqn:Hx.
    + apply IH; [by apply queue_step|lia].
    + exists queue. split; [done|]. apply lookup_ge_None in Hx. pose proof (q_bound _ _ _ _ Hq).
      assert (i = length queue) as -> by lia. done.
Qed.

Lemma remove_queue_spec l id x :
  NoDup (fb_id <$> l) -> Forall block_ok l -> x ∈ remove_queue l id <-> descends l id x.
Proof.
  intros Hnd Hbok. unfold remove_queue.
  destruct (grow_queue_done l id (2 + length l) 0 [id] Hnd Hbok) as (q & -> & [Hf _ _ Hs _ Hc]); [|lia|].
  { split; cbn; [done|lia|apply NoDup_singleton| | |].
    - intros y ->%list_elem_of_singleton. constructor.
    - intros y ->%list_elem_of_singleton. by left.
    - by intros b _ ?%not_elem_of_nil. }
  split; [apply Hs|]. rewrite take_ge in Hc by lia.
  induction 1 as [|b Hb _ IH]; [by eapply list_elem_of_lookup_2|by apply Hc].
Qed.

Lemma erase_all_spec (ids : list sha256) l b :
  b ∈ foldl (fun l id => index_erase id l) l ids <-> b ∈ l /\ fb_id b ∉ ids.
Proof.
  revert l. induction ids as [|id ids IH]; intros l; cbn [foldl]; [by split; [intros Hb; split; [done|apply not_elem_of_nil]|intros []]|].
  rewrite IH. unfold index_erase. rewrite list_elem_of_filter, elem_of_cons.
  destruct (sha256_eqb (fb_id b) id) eqn:E.
  - apply sha256_eqb_eq in E. naive_solver.
  - assert (fb_id b <> id) by (intros <-; by rewrite sha256_eqb_refl in E). naive_solver.
Qed.

Lemma erase_all_sublist (ids : list sha256) l : foldl (fun l id => index_erase id l) l ids `sublist_of` l.
Proof.
  revert l. induction ids as [|id ids IH]; intros l; cbn [foldl]; [done|].
  etrans; [apply IH|]. apply sublist_filter.
Qed.

Lemma remove_from_spec l id b :
  NoDup (fb_id <$> l) -> Forall block_ok l -> b ∈ remove_from l id <-> b ∈ l /\ ~ descends l id (fb_id b).
Proof. intros Hnd Hbok. unfold remove_from. rewrite erase_all_spec, remove_queue_spec by done. done. Qed.

Lemma remove_from_sublist l id : remove_from l id `sublist_of` l.
Proof. apply erase_all_sublist. Qed.

Lemma sublist_ok l l' :
  l' `sublist_of` l -> NoDup (fb_id <$> l) -> Forall block_ok l -> NoDup (fb_id <$> l') /\ Forall block_ok l'.
Proof.
  intros Hs Hnd Hbok. split; [eapply sublist_NoDup; [done|by apply fmap_sublist]|].
  apply Forall_forall. intros b Hb. eapply Forall_forall; [done|]. by eapply elem_of_sublist.
Qed.

Lemma remove_tree_ok r l id : tree_ok r l -> tree_ok r (remove_from l id).
Proof.
  intros Hok. destruct (sublist_ok _ _ (remove_from_sublist l id) (ids_distinct _ _ Hok) (blocks_ok _ _ Hok)) as [H1 H2].
  split; [done..|apply (root_num _ _ Hok)|].
  intros b Hb. apply remove_from_spec in Hb as [Hb Hd]; [|apply Hok..].
  destruct (linked _ _ Hok b Hb) as [?|(p & Hp & E)]; [by left|]. right. exists p. split; [|done].
  apply remove_from_spec; [apply Hok..|]. split; [done|]. intros Hdp. apply Hd. constructor; [done|]. by rewrite <- E.
Qed.

(** ** Advancing the root *)

Lemma blocks_to_remove_path r l b p fuel :
  tree_ok r l -> path l r (fb_previous b) p -> (length p <= fuel)%nat ->
  blocks_to_remove fuel l r b = Ok (fb_id <$> p).
Proof.
  intros Hok Hp. remember (fb_previous b) as h eqn:Eh. revert b Eh fuel.
  induction Hp as [|h b' p Hf Hp IH]; intros b Eh fuel Hfuel; destruct fuel as [|fuel]; try (cbn in Hfuel; lia);
    cbn [blocks_to_remove]; rewrite <- Eh.
  - rewrite root_not_in_index, sha256_eqb_refl by done. done.
  - rewrite Hf. rewrite (IH b' eq_refl fuel) by (cbn in Hfuel; lia). cbn.
    by apply index_find_Some in Hf as [_ ->].
Qed.

(** While blocks are removed, a block that stays has its parent, the new root,
    or the old root below it. *)
Definition relinked (id : sha256) r l : Prop :=
  forall b, b ∈ l -> fb_previous b = id \/ fb_previous b = fb_id r \/ exists p, p ∈ l /\ fb_id p = fb_previous b.

Lemma remove_relinked id r l x :
  NoDup (fb_id <$> l) -> Forall block_ok l -> relinked id r l -> relinked id r (remove_from l x).
Proof.
  intros Hnd Hbok Hl b Hb. apply remove_from_spec in Hb as [Hb Hd]; [|done..].
  destruct (Hl b Hb) as [?|[?|(p & Hp & E)]]; [by left|by right; left|]. right; right. exists p. split; [|done].
  apply remove_from_spec; [done..|]. split; [done|]. intros Hdp. apply Hd. constructor; [done|]. by rewrite <- E.
Qed.

Lemma remove_all_keeps id r (ids : list sha256) l :
  NoDup (fb_id <$> l) -> Forall block_ok l -> relinked id r l ->
  let l' := foldl remove_from l ids in l' `sublist_of` l /\ relinked id r l'.
Proof.
  revert l. induction ids as [|x ids IH]; intros l Hnd Hbok Hl; [done|]. cbn [foldl].
  destruct (sublist_ok _ _ (remove_from_sublist l x) Hnd Hbok) as [Hnd' Hbok'].
  destruct (IH (remove_from l x) Hnd' Hbok') as [Hs Hr]; [by apply remove_relinked|].
  split; [|done]. etrans; [done|apply remove_from_sublist].
Qed.

(** What is built on the new root is not reached from below it. *)
Lemma descends_cut l l' id x h :
  NoDup (fb_id <$> l) -> Forall block_ok l -> l' ⊆ l -> (forall b, b ∈ l' -> fb_id b <> id) ->
  descends l' x h -> descends l id h -> num_from_id id <= num_from_id x.
Proof.
  intros Hnd Hbok Hsub Hno Hd. induction Hd as [|b Hb _ IH]; intros Hid; [by eapply descends_num|].
  apply IH. inversion Hid as [E|b' Hb' Hd' E].
  - exfalso. by apply (Hno b Hb).
  - assert (b' = b) as -> by (eapply ids_inj; [done..|by apply Hsub|done]). done.
Qed.

Lemma remove_all_spares l id (ids : list sha256) l' b :
  NoDup (fb_id <$> l) -> Forall block_ok l -> l' `sublist_of` l -> (forall b, b ∈ l' -> fb_id b <> id) ->
  Forall (fun x => num_from_id x < num_from_id id) ids -> descends l id (fb_id b) -> b ∈ l' ->
  b ∈ foldl remove_from l' ids.
Proof.
  intros Hnd Hbok Hs Hno Hids Hd. revert l' Hs Hno. induction Hids as [|x ids Hx _ IH]; intros l' Hs Hno Hb; [done|].
  cbn [foldl]. destruct (sublist_ok _ _ Hs Hnd Hbok) as [Hnd' Hbok'].
  assert (Hsub : l' ⊆ l) by (intros y Hy; by eapply elem_of_sublist).
  apply IH.
  - etrans; [apply remove_from_sublist|done].
  - intros y Hy. apply Hno. eapply elem_of_sublist; [done|apply remove_from_sublist].
  - apply remove_from_spec; [done..|]. split; [done|]. intros Hdx.
    pose proof (descends_cut _ _ _ _ _ Hnd Hbok Hsub Hno Hdx Hd). lia.
Qed.

(** The index after the root moved to [b]: the blocks built on [b]. *)
Lemma advance_index r l b p :
  tree_ok r l -> b ∈ l -> path l r (fb_previous b) p ->
  let l' := foldl remove_from (index_erase (fb_id b) l) (fb_id <$> p) in
  (forall x, x ∈ l' <-> x ∈ l /\ x <> b /\ descends l (fb_id b) (fb_id x)) /\ l' `sublist_of` l /\ tree_ok b l'.
Proof.
  intros Hok Hb Hp l'.
  pose proof (ids_distinct _ _ Hok) as Hnd. pose proof (blocks_ok _ _ Hok) as Hbok.
  assert (Hs0 : index_erase (fb_id b) l `sublist_of` l) by apply sublist_filter.
  assert (Hin0 : forall x, x ∈ index_erase (fb_id b) l <-> x ∈ l /\ fb_id x <> fb_id b).
  { intros x. unfold index_erase. rewrite list_elem_of_filter. split.
    - intros [E Hx]. split; [done|]. intros Ex. by rewrite Ex, sha256_eqb_refl in E.
    - intros [Hx Ex]. split; [|done]. destruct (sha256_eqb (fb_id x) (fb_id b)) eqn:E; [|done]. by apply sha256_eqb_eq in E. }
  destruct (sublist_ok _ _ Hs0 Hnd Hbok) as [Hnd0 Hbok0].
  assert (Hrl0 : relinked (fb_id b) r (index_erase (fb_id b) l)).
  { intros x Hx. apply Hin0 in Hx as [Hx Ex]. destruct (linked _ _ Hok x Hx) as [?|(q & Hq & E)]; [by right; left|].
    destruct (decide (fb_id q = fb_id b)) as [Eq|Eq]; [left; congruence|]. right; right. exists q. by rewrite Hin0. }
  destruct (remove_all_keeps (fb_id b) r (fb_id <$> p) _ Hnd0 Hbok0 Hrl0) as [Hs Hrl]. fold l' in Hs, Hrl.
  destruct (sublist_ok _ _ Hs Hnd0 Hbok0) as [Hnd' Hbok'].
  assert (Hnum : Forall (fun x => num_from_id x < num b) (fb_id <$> p)).
  { apply Forall_fmap, Forall_forall. intros x Hx. apply (path_num _ _ _ _ Hok) in Hp as (_ & Hn & _). apply Hn in Hx. cbn.
    destruct (tree_block_ok _ _ _ Hok Hb). lia. }
  (* no block sits on the old root any more *)
  assert (Hroot : forall x, x ∈ l' -> fb_previous x <> fb_id r).
  { destruct (walk_path r l _ p (length p) Hok Hp) as (q & -> & _); [done|].
    unfold l'. rewrite fmap_app, foldl_app. cbn [fmap list_fmap foldl].
    pose proof (remove_all_keeps (fb_id b) r (fb_id <$> q) _ Hnd0 Hbok0 Hrl0) as [Hsq _].
    destruct (sublist_ok _ _ Hsq Hnd0 Hbok0) as [Hndq Hbokq].
    intros x Hx E. apply remove_from_spec in Hx as [Hx Hd]; [|done..]. apply Hd. constructor; [done|]. rewrite E. constructor. }
  assert (Hdesc : forall x, x ∈ l' -> descends l (fb_id b) (fb_id x)).
  { intros x. remember (Z.to_nat (num x)) as n eqn:En. revert x En. induction (lt_wf n) as [n _ IH]. intros x -> Hx.
    assert (Hxl : x ∈ l) by (eapply elem_of_sublist; [eapply elem_of_sublist; done|done]).
    destruct (tree_block_ok _ _ _ Hok Hxl) as [Hn _].
    constructor; [done|]. destruct (Hrl x Hx) as [->|[E|(q & Hq & E)]]; [constructor|by apply Hroot in Hx|].
    rewrite <- E. pose proof (num_nonneg (fb_id q)). apply (IH (Z.to_nat (num q))); [rewrite <- E in Hn; lia|done..]. }
  split; [|split].
  - intros x. split.
    + intros Hx. pose proof (elem_of_sublist _ _ _ Hx Hs) as Hx0. apply Hin0 in Hx0 as [Hxl Hxb].
      split_and!; [done|congruence|by apply Hdesc].
    + intros (Hxl & Hxb & Hd). eapply remove_all_spares; [exact Hnd|done..| |done|done|].
      * intros y Hy. by apply Hin0 in Hy as [_ ?].
      * apply Hin0. split; [done|]. intros E. apply Hxb. by apply (ids_inj l).
  - by etrans.
  - split; [done..|apply (tree_block_ok _ _ _ Hok Hb)|]. intros x Hx. destruct (Hrl x Hx) as [?|[E|?]]; [by left|by apply Hroot in Hx|by right].
Qed.

Lemma advance_root_Ok db r b :
  root db = Some r -> tree_ok r (index db) -> b ∈ index db -> fb_is_valid b = true ->
  exists db', advance_root_impl db (fb_id b) = Ok db' /\ root db' = Some b /\
    pending_savanna_lib_id db' = pending_savanna_lib_id db /\
    (forall x, x ∈ index db' <-> x ∈ index db /\ x <> b /\ descends (index db) (fb_id b) (fb_id x)) /\
    index db' `sublist_of` index db /\ tree_ok b (index db').
Proof.
  intros Hr Hok Hb Hv. unfold advance_root_impl. rewrite Hr, (index_find_in _ _ (ids_distinct _ _ Hok) Hb), Hv.
  cbn [EOS_ASSERT mbind result_bind]. destruct (path_exists _ _ _ Hok Hb) as (p & _ & Hp).
  rewrite (blocks_to_remove_path _ _ _ _ _ Hok Hp) by (pose proof (path_length _ _ _ _ Hok Hp); lia).
  destruct (advance_index _ _ _ _ Hok Hb Hp) as (H1' & H2' & H3'). eexists; split; [done|]. done.
Qed.

(** C18. Advancing the root to a validated block of the database succeeds; the
    block is the new root, and the blocks that stay are exactly those built on
    it, in the order they had.  The check for orphaned branches never fires. *)
Theorem advance_root_correct db r b :
  root db = Some r -> tree_ok r (index db) -> b ∈ index db -> fb_is_valid b = true ->
  exists db', advance_root_impl db (fb_id b) = Ok db' /\ root db' = Some b /\
    pending_savanna_lib_id db' = pending_savanna_lib_id db /\
    (forall x, x ∈ index db' <-> x ∈ index db /\ x <> b /\ descends (index db) (fb_id b) (fb_id x)) /\
    index db' `sublist_of` index db /\ tree_ok b (index db').
Proof. apply advance_root_Ok. Qed.

End tree.
