(* ===== verification/ForkRuns.v ===== *)
(** The fork database over runs of its operations, and across a restart: the
    tree is kept by every operation, every strong claim that was seen is
    reflected in the pending irreversible block, and a database written by
    [close] is the one [open] rebuilds, when it does not reject the features of
    one of its blocks. *)
From Stdlib Require Import ZArith Lia ZifyBool.
From stdpp Require Import base tactics numbers list sorting.
From S2P Require Import Prelude Digest Raw ForkDatabase ForkTree.
#[local] Open Scope Z_scope.

Section runs.
Context {BS : Type} `{LB : ForkBlockLaws BS}.
Implicit Types (l : list BS) (b r : BS) (db : fork_db (BS := BS)).
Abbreviation num b := (num_from_id (fb_id b)).

(** ** Searching a branch *)

Lemma find_spec (P : BS -> bool) (l : list BS) c :
  List.find P l = Some c -> c ∈ l /\ P c = true.
Proof. intros Hf. apply find_some in Hf as [? ?]. split; [by apply list_elem_of_In|done]. Qed.

Lemma search_in_path db r h k c p :
  root db = Some r -> tree_ok r (index db) -> path (index db) r h p ->
  search_on_branch_impl db h k false = Some c -> c ∈ p /\ fb_block_num c = k /\ fb_block_num r < k.
Proof.
  intros Hr Hok Hp Hs. unfold search_on_branch_impl in Hs. rewrite Hr in Hs. cbn [andb] in Hs.
  destruct (k <=? fb_block_num r) eqn:Ek; [done|]. apply find_spec in Hs as [Hc E].
  rewrite (branch_path _ _ _ _ Hok Hp). split; [apply elem_of_app; by left|lia].
Qed.

Lemma search_of_path db r h k c p :
  root db = Some r -> tree_ok r (index db) -> path (index db) r h p ->
  c ∈ p -> fb_block_num c = k -> fb_block_num r < k -> search_on_branch_impl db h k false = Some c.
Proof.
  intros Hr Hok Hp Hc Ek Hk. unfold search_on_branch_impl. rewrite Hr. cbn [andb].
  destruct (Z.leb_spec k (fb_block_num r)); [lia|].
  pose proof (branch_path _ _ _ _ Hok Hp) as Eb. rewrite Eb in Hc.
  apply elem_of_app in Hc as [Hc|Hc]; [|apply list_elem_of_singleton in Hc; subst; lia].
  destruct (List.find _ _) as [c'|] eqn:Ef.
  - apply find_spec in Ef as [Hc' E']. f_equal.
    assert (Hin : forall x, x ∈ branch db h -> x ∈ index db).
    { intros x Hx. destruct (path_in _ _ _ _ x Hp) as [->|?]; [rewrite Eb; apply elem_of_app; by left| |done].
      exfalso. pose proof (path_NoDup _ _ _ _ Hok Hp) as Hnd. rewrite Eb in Hnd.
      apply NoDup_app in Hnd as (_ & Hnd & _). apply (Hnd r Hx). by apply list_elem_of_singleton. }
    destruct (tree_block_ok _ _ _ Hok (Hin _ Hc)) as [_ Ec]. destruct (tree_block_ok _ _ _ Hok (Hin _ Hc')) as [_ Ec'].
    apply Z.eqb_eq in E'. eapply (path_num_inj _ _ _ _ _ _ Hok Hp); [by rewrite Eb; apply elem_of_app; left..|lia].
  - exfalso. apply list_elem_of_In in Hc. apply (find_none _ _ Ef) in Hc. lia.
Qed.

(** ** Paths of related trees *)

(** Every path of a smaller tree is part of the path in the larger one. *)
Lemma path_sub r l r' l' h p' :
  tree_ok r l -> l' ⊆ l -> (r' = r \/ r' ∈ l) -> path l' r' h p' ->
  exists p, path l r h p /\ p' ⊆ p.
Proof.
  intros Hok Hsub Hr' Hp'. induction Hp' as [|h b p' Hf _ (p & Hp & Hs)].
  - destruct Hr' as [->|Hr'].
    + exists [r]. split; [constructor|done].
    + destruct (path_exists _ _ _ Hok Hr') as (p & Hp & _). exists (r' :: p). split; [done|].
      intros x Hx. apply list_elem_of_singleton in Hx as ->. by left.
  - apply index_find_Some in Hf as [Hb <-]. exists (b :: p). split.
    + econstructor; [|done]. apply index_find_in; [apply Hok|by apply Hsub].
    + intros x [->|Hx]%elem_of_cons; [by left|]. right. by apply Hs.
Qed.

Lemma index_find_app l n h b : index_find h l = Some b -> index_find h (l ++ [n]) = Some b.
Proof.
  unfold index_find. induction l as [|x l IH]; [done|]. cbn. by destruct (sha256_eqb (fb_id x) h).
Qed.

(** Adding a leaf changes no path. *)
Lemma path_app r l n h p : path l r h p -> path (l ++ [n]) r h p.
Proof.
  induction 1 as [|h b p Hf _ IH]; [constructor|]. econstructor; [by apply index_find_app|done].
Qed.

Lemma add_tree_ok r l n :
  tree_ok r l -> block_ok n -> (forall b, b ∈ l -> fb_id b <> fb_id n) ->
  (fb_previous n = fb_id r \/ exists p, p ∈ l /\ fb_id p = fb_previous n) -> tree_ok r (l ++ [n]).
Proof.
  intros Hok Hn Hfresh Hlink. split.
  - rewrite fmap_app. apply NoDup_app. split; [apply Hok|]. split; [|apply NoDup_singleton].
    intros x (b & -> & Hb)%list_elem_of_fmap Hx%list_elem_of_singleton. by apply (Hfresh b).
  - apply Forall_app. split; [apply Hok|]. by apply Forall_singleton.
  - apply Hok.
  - intros b [Hb| ->%list_elem_of_singleton]%elem_of_app.
    + destruct (linked _ _ Hok b Hb) as [?|(p & Hp & E)]; [by left|]. right. exists p. split; [|done].
      apply elem_of_app. by left.
    + destruct Hlink as [?|(p & Hp & E)]; [by left|]. right. exists p. split; [|done]. apply elem_of_app. by left.
Qed.

(** *** Marking a block valid *)

Definition mark (id : sha256) b : BS := if sha256_eqb (fb_id b) id then fb_set_valid true b else b.

Lemma mark_id id b : fb_id (mark id b) = fb_id b.
Proof. unfold mark. destruct (sha256_eqb _ _); [apply set_valid_id|done]. Qed.
Lemma mark_previous id b : fb_previous (mark id b) = fb_previous b.
Proof. unfold mark. destruct (sha256_eqb _ _); [apply set_valid_previous|done]. Qed.
Lemma mark_block_num id b : fb_block_num (mark id b) = fb_block_num b.
Proof. unfold mark. destruct (sha256_eqb _ _); [apply set_valid_block_num|done]. Qed.
Lemma mark_strong_claim id b : fb_strong_claim (mark id b) = fb_strong_claim b.
Proof. unfold mark. destruct (sha256_eqb _ _); [apply set_valid_strong_claim|done]. Qed.
Lemma mark_latest_claim_id id b : fb_latest_claim_id (mark id b) = fb_latest_claim_id b.
Proof. unfold mark. destruct (sha256_eqb _ _); [apply set_valid_latest_claim_id|done]. Qed.

Lemma index_find_mark id l h : index_find h (mark id <$> l) = mark id <$> index_find h l.
Proof.
  unfold index_find. induction l as [|x l IH]; [done|]. cbn. rewrite mark_id.
  by destruct (sha256_eqb (fb_id x) h).
Qed.

Lemma mark_tree_ok r l id : tree_ok r l -> tree_ok r (mark id <$> l).
Proof.
  intros Hok. split.
  - rewrite <- list_fmap_compose, (list_fmap_ext _ fb_id); [apply Hok|]. intros i x _. apply mark_id.
  - apply Forall_fmap. eapply Forall_impl; [apply Hok|]. intros b [? ?]. unfold block_ok. cbn.
    by rewrite mark_id, mark_previous, mark_block_num.
  - apply Hok.
  - intros b (b' & -> & Hb')%list_elem_of_fmap. rewrite mark_previous.
    destruct (linked _ _ Hok b' Hb') as [?|(p & Hp & E)]; [by left|]. right. exists (mark id p).
    split; [by apply list_elem_of_fmap_2|by rewrite mark_id].
Qed.

Lemma path_mark id r l h p' :
  path (mark id <$> l) r h p' -> exists p, path l r h p /\ forall c', c' ∈ p' -> c' ∈ p \/ exists c, c ∈ p /\ c' = mark id c.
Proof.
  induction 1 as [|h b' p' Hf _ (p & Hp & Hs)].
  - exists [r]. split; [constructor|]. by left.
  - rewrite index_find_mark in Hf. destruct (index_find h l) as [b|] eqn:E; [|done]. injection Hf as <-.
    exists (b :: p). split; [econstructor; [done|]; by rewrite mark_previous in Hp|].
    intros c' [->|Hc']%elem_of_cons; [right; exists b; split; [by left|done]|].
    destruct (Hs _ Hc') as [?|(c & ? & ?)]; [left; by right|]. right. exists c. split; [by right|done].
Qed.

(** ** The invariant *)

(** A strong claim of a block whose claimed block is on its branch has been
    noted: the pending irreversible block is at least as high as the block it
    makes irreversible. *)
Definition claims_noted r l (pending : sha256) : Prop :=
  forall n k p c, n ∈ l -> fb_strong_claim n = Some k -> path l r (fb_previous n) p -> c ∈ p ->
    fb_block_num c = k -> fb_block_num r < k ->
    exists id, fb_latest_claim_id c = Ok id /\ num_from_id id <= num_from_id pending.

Definition fdb_inv db : Prop :=
  match root db with
  | None => index db = []
  | Some r => fb_is_valid r = true /\ tree_ok r (index db) /\
              claims_noted r (index db) (pending_savanna_lib_id db)
  end.

Lemma claims_noted_sub r l r' l' pending :
  tree_ok r l -> l' ⊆ l -> (r' = r \/ r' ∈ l) -> fb_block_num r <= fb_block_num r' ->
  claims_noted r l pending -> claims_noted r' l' pending.
Proof.
  intros Hok Hsub Hr Hle Hc n k p c Hn Hk Hp Hcp Ec Hk'.
  destruct (path_sub _ _ _ _ _ _ Hok Hsub Hr Hp) as (q & Hq & Hs).
  apply (Hc n k q c); auto. lia.
Qed.

Lemma claims_noted_mono r l pending pending' :
  num_from_id pending <= num_from_id pending' -> claims_noted r l pending -> claims_noted r l pending'.
Proof.
  intros Hle Hc n k p c Hn Hk Hp Hcp Ec Hk'. destruct (Hc n k p c) as (id & ? & ?); [done..|].
  exists id. split; [done|lia].
Qed.

(** [add] notes the claim of the block, if the block it claims is on its branch. *)
Lemma note_strong_claim_Ok db n db' r p :
  root db = Some r -> tree_ok r (index db) -> path (index db) r (fb_previous n) p ->
  note_strong_claim db n = Ok db' ->
  root db' = root db /\ index db' = index db /\
  num_from_id (pending_savanna_lib_id db) <= num_from_id (pending_savanna_lib_id db') /\
  (forall k c, fb_strong_claim n = Some k -> c ∈ p -> fb_block_num c = k -> fb_block_num r < k ->
     exists id, fb_latest_claim_id c = Ok id /\ num_from_id id <= num_from_id (pending_savanna_lib_id db')).
Proof.
  intros Hr Hok Hp Hn. unfold note_strong_claim in Hn. destruct (fb_strong_claim n) as [k|] eqn:Ek.
  2: { apply Ok_inj in Hn as <-. split_and!; [done..|lia|done]. }
  destruct (search_on_branch_impl db (fb_previous n) k false) as [c|] eqn:Es.
  - apply bind_Ok in Hn as (id & Hid & Hn). apply Ok_inj in Hn as <-. unfold set_pending_savanna_lib_id_impl.
    destruct (Z.ltb_spec (num_from_id (pending_savanna_lib_id db)) (num_from_id id)); cbn [fst root index pending_savanna_lib_id];
      (split_and!; [done..|lia|]); intros k' c' [= <-] Hc' Ec' Hk';
      rewrite (search_of_path _ _ _ _ _ _ Hr Hok Hp Hc' Ec' Hk') in Es; injection Es as <-; exists id; split; [done|lia|done|lia].
  - apply Ok_inj in Hn as <-. split_and!; [done..|lia|]. intros k' c' [= <-] Hc' Ec' Hk'.
    by rewrite (search_of_path _ _ _ _ _ _ Hr Hok Hp Hc' Ec' Hk') in Es.
Qed.

(** What [note_strong_claim] keeps when the block does not link at all. *)
Lemma note_strong_claim_keeps db n db' :
  note_strong_claim db n = Ok db' -> root db' = root db /\ index db' = index db /\
  num_from_id (pending_savanna_lib_id db) <= num_from_id (pending_savanna_lib_id db').
Proof.
  unfold note_strong_claim, set_pending_savanna_lib_id_impl. destruct (fb_strong_claim n) as [k|]; [|by intros [= <-]].
  destruct (search_on_branch_impl _ _ _ _) as [c|]; [|by intros [= <-]].
  intros (id & _ & Hn)%bind_Ok. apply Ok_inj in Hn as <-.
  destruct (Z.ltb_spec (num_from_id (pending_savanna_lib_id db)) (num_from_id id)); split_and!; cbn; first [done|lia].
Qed.

(** ** Operations *)

Inductive fork_op : Type :=
| f_reset_root (b : BS)
| f_add (n : BS) (ignore_duplicate : bool)
| f_remove (id : sha256)
| f_advance_root (id : sha256)
| f_set_pending (id : sha256)
| f_mark_valid (id : sha256).

Definition fork_exec db (o : fork_op) : fork_db :=
  match o with
  | f_reset_root b => reset_root_impl db b
  | f_add n ig => (add db n ig).1
  | f_remove id => remove_impl db id
  | f_advance_root id => match advance_root_impl db id with Ok db' => db' | Err _ => db end
  | f_set_pending id => (set_pending_savanna_lib_id_impl db id).1
  | f_mark_valid id => mark_valid db id
  end.

Definition fork_run db (ops : list fork_op) : fork_db := foldl fork_exec db ops.

(** The blocks handed to the database carry their number in their id. *)
Definition fork_op_ok (o : fork_op) : Prop :=
  match o with
  | f_reset_root b => fb_block_num b = num_from_id (fb_id b)
  | f_add n _ => block_ok n
  | _ => True
  end.

Lemma add_fdb_inv db n ig : fdb_inv db -> block_ok n -> fdb_inv (add db n ig).1.
Proof.
  intros Hi Hn. unfold add, add_impl. destruct (root db) as [r|] eqn:Hr; [|done].
  unfold fdb_inv in Hi. rewrite Hr in Hi. destruct Hi as (Hv & Hok & Hc).
  assert (Hsame : forall d, root d = root db -> index d = index db ->
    num_from_id (pending_savanna_lib_id db) <= num_from_id (pending_savanna_lib_id d) -> fdb_inv d).
  { intros d E1 E2 E3. unfold fdb_inv. rewrite E1, E2, Hr. split_and!; [done..|]. by eapply claims_noted_mono. }
  destruct (note_strong_claim db n) as [d|e] eqn:En; [|cbn [fst]; apply Hsame; [done..|lia]].
  pose proof (note_strong_claim_keeps _ _ _ En) as (E1 & E2 & E3).
  destruct (get_block_impl d (fb_previous n) true) as [[prev|]|e] eqn:Eg; [|by apply Hsame..]. cbn [mret result_ret].
  destruct (block_exists_impl d (fb_id n)) eqn:Ex; [by apply Hsame|]. unfold fdb_inv. cbn [fst root index pending_savanna_lib_id].
  rewrite E1, E2, Hr. unfold block_exists_impl in Ex. rewrite E2 in Ex.
  destruct (index_find (fb_id n) (index db)) eqn:Ef; [done|].
  assert (Hlink : fb_previous n = fb_id r \/ exists p, p ∈ index db /\ fb_id p = fb_previous n).
  { unfold get_block_impl, root_is in Eg. rewrite E1, Hr in Eg. cbn in Eg.
    destruct (sha256_eqb (fb_id r) (fb_previous n)) eqn:E; [apply sha256_eqb_eq in E; by left|].
    injection Eg as Eg. rewrite E2 in Eg. apply index_find_Some in Eg as [? ?]. right. eauto. }
  assert (Hok' : tree_ok r (index db ++ [n])).
  { apply add_tree_ok; [done..| |done]. by apply index_find_None. }
  split_and!; [done..|].
  destruct (path_exists r (index db ++ [n]) n Hok') as (p & _ & Hp); [apply elem_of_app; right; by apply list_elem_of_singleton|].
  assert (Hp0 : path (index db) r (fb_previous n) p).
  { destruct Hlink as [E|(q & Hq & E)].
    - rewrite E in *. rewrite (path_det _ _ _ _ _ Hok' Hp (path_root _ _)). constructor.
    - destruct (path_exists _ _ _ Hok Hq) as (q' & Hq' & _). rewrite E in Hq'.
      rewrite (path_det _ _ _ _ _ Hok' Hp (path_app _ _ n _ _ Hq')). done. }
  intros m k p' c Hm Hk Hp' Hcp Ec Hk'. apply elem_of_app in Hm as [Hm| ->%list_elem_of_singleton].
  - destruct (path_exists _ _ _ Hok Hm) as (q & _ & Hq).
    rewrite (path_det _ _ _ _ _ Hok' Hp' (path_app _ _ n _ _ Hq)) in Hcp.
    destruct (Hc m k q c) as (id & ? & ?); [done..|]. exists id. split; [done|lia].
  - rewrite (path_det _ _ _ _ _ Hok' Hp' Hp) in Hcp.
    pose proof (note_strong_claim_Ok _ _ _ _ _ Hr Hok Hp0 En) as (_ & _ & _ & Hcl). by apply (Hcl k).
Qed.

Lemma fork_exec_inv db o : fdb_inv db -> fork_op_ok o -> fdb_inv (fork_exec db o).
Proof.
  intros Hi Ho. destruct o as [b|n ig|id|id|id|id]; cbn [fork_exec].
  - unfold fdb_inv. cbn. split_and!; [apply is_valid_set_valid| |by intros n k p c ?%not_elem_of_nil].
    split; cbn; [constructor|constructor|by rewrite set_valid_block_num, set_valid_id|by intros ? ?%not_elem_of_nil].
  - by apply add_fdb_inv.
  - unfold fdb_inv in *. cbn [root index remove_impl pending_savanna_lib_id]. destruct (root db) as [r|].
    + destruct Hi as (Hv & Hok & Hc). split_and!; [done|by apply remove_tree_ok|].
      eapply (claims_noted_sub r (index db)); [done| |by left|done..].
      intros x Hx. eapply elem_of_sublist; [done|apply remove_from_sublist].
    + by rewrite Hi.
  - destruct (advance_root_impl db id) as [db'|] eqn:E; [|done]. unfold fdb_inv in Hi |- *.
    destruct (root db) as [r|] eqn:Hr; [|unfold advance_root_impl in E; by rewrite Hr in E].
    destruct Hi as (Hv & Hok & Hc).
    assert (exists b, index_find id (index db) = Some b /\ fb_is_valid b = true) as (b & Hb & Hbv).
    { unfold advance_root_impl in E. rewrite Hr in E. destruct (index_find id (index db)) as [b|]; [|done].
      exists b. split; [done|]. apply bind_Ok in E as (? & E & _). by apply EOS_ASSERT_Ok in E. }
    apply index_find_Some in Hb as [Hb <-].
    destruct (advance_root_Ok _ _ _ Hr Hok Hb Hbv) as (d & Ed & Er & Ep & _ & Hs & Hok').
    rewrite E in Ed. injection Ed as <-. rewrite Er, Ep. split_and!; [done..|].
    eapply (claims_noted_sub r (index db)); [done| |by right| |done].
    + intros x Hx. by eapply elem_of_sublist.
    + pose proof (block_above_root _ _ _ Hok Hb). rewrite (root_num _ _ Hok), (root_num _ _ Hok'). lia.
  - unfold set_pending_savanna_lib_id_impl. destruct (Z.ltb_spec (num_from_id (pending_savanna_lib_id db)) (num_from_id id)); [|done].
    unfold fdb_inv in *. cbn. destruct (root db) as [r|]; [|done]. destruct Hi as (Hv & Hok & Hc).
    split_and!; [done..|]. eapply claims_noted_mono; [|done]. lia.
  - unfold fdb_inv in *. cbn [mark_valid root index pending_savanna_lib_id]. fold (mark id).
    destruct (root db) as [r|]; [|by rewrite Hi]. destruct Hi as (Hv & Hok & Hc).
    split_and!; [done|by apply mark_tree_ok|].
    intros n k p' c' (n' & -> & Hn')%list_elem_of_fmap Hk Hp' Hc' Ec Hk'.
    rewrite mark_strong_claim in Hk. rewrite mark_previous in Hp'.
    destruct (path_mark _ _ _ _ _ Hp') as (p & Hp & Hs). destruct (Hs _ Hc') as [Hin|(c & Hin & ->)].
    + by apply (Hc n' k p c').
    + rewrite mark_latest_claim_id. rewrite mark_block_num in Ec. by apply (Hc n' k p c).
Qed.

Lemma fork_run_inv ops db : fdb_inv db -> Forall fork_op_ok ops -> fdb_inv (fork_run db ops).
Proof.
  intros Hi Hops. revert db Hi. induction Hops as [|o ops Ho _ IH]; intros db Hi; [done|].
  cbn. apply IH. by apply fork_exec_inv.
Qed.

(** ** The order of best branches *)

Lemma bytes_compare_antisym (a b : list Z) : bytes_compare b a = CompOpp (bytes_compare a b).
Proof.
  revert b. induction a as [|x a IH]; intros [|y b]; cbn; [done..|]. rewrite (Z.compare_antisym x y).
  by destruct (x ?= y); cbn.
Qed.

Lemma bytes_compare_trans (a b c : list Z) :
  bytes_compare a b <> Gt -> bytes_compare b c <> Gt -> bytes_compare a c <> Gt.
Proof.
  revert b c. induction a as [|x a IH]; intros [|y b] [|z c]; cbn; try done.
  destruct (Z.compare_spec x y), (Z.compare_spec y z), (Z.compare_spec x z); try done; try lia; subst.
  by apply IH.
Qed.

Lemma rank_compare_antisym a b : rank_compare b a = CompOpp (rank_compare a b).
Proof.
  unfold rank_compare, sha256_compare. rewrite (Z.compare_antisym (fb_rank a).1), (Z.compare_antisym (fb_rank a).2).
  rewrite (bytes_compare_antisym (sha256_bytes (fb_id a))).
  by destruct (_ ?= _); cbn; [destruct (_ ?= _)| |].
Qed.

(** [a] is not better than [b]. *)
Definition upto a b : Prop := better a b = false.

Lemma upto_compare a b : upto a b <-> rank_compare a b <> Gt.
Proof. unfold upto, better. by destruct (rank_compare a b). Qed.

Lemma then_trans (x y z : Z) (a b c : comparison) :
  (a <> Gt -> b <> Gt -> c <> Gt) ->
  match x ?= y with Eq => a | o => o end <> Gt -> match y ?= z with Eq => b | o => o end <> Gt ->
  match x ?= z with Eq => c | o => o end <> Gt.
Proof.
  intros Hc. destruct (Z.compare_spec x y) as [->|?|?], (Z.compare_spec y z) as [->|?|?]; try congruence;
    rewrite ?Z.compare_refl; auto; intros _ _; destruct (Z.compare_spec x z); (congruence || lia).
Qed.

#[local] Instance upto_trans : Transitive upto.
Proof.
  intros a b c. rewrite !upto_compare. unfold rank_compare, sha256_compare.
  apply then_trans, then_trans, bytes_compare_trans.
Qed.

Lemma better_upto a b : better a b = true -> upto b a.
Proof.
  rewrite upto_compare. unfold better. rewrite (rank_compare_antisym a b). by destruct (rank_compare a b).
Qed.

Lemma upto_total a b : upto a b \/ upto b a.
Proof. destruct (better a b) eqn:E; [right; by apply better_upto|by left]. Qed.

Lemma le_bytes_inj n z w :
  0 <= z < 2 ^ (8 * Z.of_nat n) -> 0 <= w < 2 ^ (8 * Z.of_nat n) -> le_bytes n z = le_bytes n w -> z = w.
Proof. intros Hz Hw E. rewrite <- (le_value_bytes n z Hz), E. by apply le_value_bytes. Qed.

Lemma sha256_bytes_inj (a b : sha256) : sha256_wf a -> sha256_wf b -> sha256_bytes a = sha256_bytes b -> a = b.
Proof.
  destruct a as [a0 a1 a2 a3], b as [b0 b1 b2 b3]. unfold sha256_wf, sha256_bytes, is_u64. cbn [hash0 hash1 hash2 hash3].
  intros (?&?&?&?) (?&?&?&?) E.
  repeat (apply app_inj_1 in E as [? E]; [|by rewrite !le_bytes_length]).
  f_equal; by apply (le_bytes_inj 8).
Qed.

Lemma bytes_compare_Eq (a b : list Z) : bytes_compare a b = Eq -> a = b.
Proof.
  revert b. induction a as [|x a IH]; intros [|y b]; cbn; [done..|].
  destruct (Z.compare_spec x y); [|done..]. subst. intros E. f_equal. by apply IH.
Qed.

Lemma upto_antisym a b :
  sha256_wf (fb_id a) -> sha256_wf (fb_id b) -> upto a b -> upto b a -> fb_id a = fb_id b.
Proof.
  intros Wa Wb. rewrite !upto_compare, (rank_compare_antisym a b). unfold rank_compare, sha256_compare.
  destruct (_ ?= _); [|by destruct 2..]. destruct (_ ?= _); [|by destruct 2..].
  destruct (bytes_compare _ _) eqn:E; [|by destruct 2..]. intros _ _.
  apply sha256_bytes_inj; [done..|]. by apply bytes_compare_Eq.
Qed.

(** The head is the greatest block. *)
Lemma best_of_spec l b : best_of b l ∈ b :: l /\ forall x, x ∈ b :: l -> upto x (best_of b l).
Proof.
  unfold best_of. revert b. induction l as [|y l IH]; intros b; cbn [foldl].
  - split; [by left|]. intros x ->%list_elem_of_singleton. by destruct (upto_total b b).
  - destruct (better y b) eqn:E.
    + destruct (IH y) as [Hin Hmax]. split; [by right|]. intros x [->|Hx]%elem_of_cons; [|by apply Hmax].
      etrans; [by apply better_upto|]. apply Hmax. by left.
    + destruct (IH b) as [Hin Hmax]. split; [apply elem_of_cons in Hin as [->|Hin]; [by left|by right; right]|].
      intros x [->|[->|Hx]%elem_of_cons]%elem_of_cons; [apply Hmax; by left| |apply Hmax; by right].
      etrans; [exact E|]. apply Hmax. by left.
Qed.

Lemma head_unique db db' include :
  root db' = root db -> NoDup (fb_id <$> index db) -> Forall (fun b => sha256_wf (fb_id b)) (index db) ->
  index db' ≡ₚ index db -> head_impl db' include = head_impl db include.
Proof.
  intros Hr Hnd Hwf Hp. unfold head_impl. rewrite Hr.
  destruct (index db) as [|b l] eqn:E, (index db') as [|b' l'] eqn:E'; [done|by apply Permutation_nil_r in Hp..| |];
    [by apply Permutation_nil_l in Hp|].
  f_equal. destruct (best_of_spec l b) as [Hin Hmax]. destruct (best_of_spec l' b') as [Hin' Hmax'].
  rewrite Hp in Hin'. apply (ids_inj (b :: l)); [done..|]. rewrite Forall_forall in Hwf.
  apply upto_antisym; [by apply Hwf..| |]; [by apply Hmax|]. apply Hmax'. by rewrite Hp.
Qed.

(** *** What [close] writes is sorted from the worst block to the best *)

Lemma insert_sorted_perm x l : insert_sorted x l ≡ₚ x :: l.
Proof.
  induction l as [|y l IH]; [done|]. cbn. destruct (better x y); [|done]. rewrite IH. apply Permutation_swap.
Qed.

Lemma worst_to_best_perm l : worst_to_best l ≡ₚ l.
Proof. induction l as [|x l IH]; [done|]. cbn. by rewrite insert_sorted_perm, IH. Qed.

Lemma insert_sorted_sorted x l : StronglySorted upto l -> StronglySorted upto (insert_sorted x l).
Proof.
  induction 1 as [|y l Hs IH Hy]; cbn; [by repeat constructor|]. destruct (better x y) eqn:E.
  - constructor; [done|]. rewrite insert_sorted_perm. constructor; [by apply better_upto|done].
  - constructor; [by constructor|]. constructor; [done|]. eapply Forall_impl; [done|]. intros z Hz. exact (upto_trans _ _ _ E Hz).
Qed.

Lemma worst_to_best_sorted l : StronglySorted upto (worst_to_best l).
Proof. induction l as [|x l IH]; [constructor|]. cbn. by apply insert_sorted_sorted. Qed.

(** A child beats its parent: its latest claim is at least as recent and its
    timestamp is later. *)
Definition ranked r l : Prop :=
  forall b p, b ∈ l -> (p = r \/ p ∈ l) -> fb_id p = fb_previous b ->
    (fb_rank p).1 <= (fb_rank b).1 /\ (fb_rank p).2 < (fb_rank b).2.

Lemma ranked_better r l b p : ranked r l -> b ∈ l -> p ∈ l -> fb_id p = fb_previous b -> better b p = true.
Proof.
  intros Hr Hb Hp E. destruct (Hr b p Hb (or_intror Hp) E) as [H1' H2']. unfold better, rank_compare.
  destruct (Z.compare_spec (fb_rank b).1 (fb_rank p).1); [|lia|done].
  destruct (Z.compare_spec (fb_rank b).2 (fb_rank p).2); [lia|lia|done].
Qed.

(** In the order of the file, a block's parent comes before it. *)
Lemma parent_first r l before b after :
  tree_ok r l -> ranked r l -> worst_to_best l = before ++ b :: after ->
  fb_previous b = fb_id r \/ exists p, p ∈ before /\ fb_id p = fb_previous b.
Proof.
  intros Hok Hr E. pose proof (worst_to_best_sorted l) as Hs. rewrite E in Hs.
  assert (Hin : forall x, x ∈ before ++ b :: after <-> x ∈ l) by (intros x; by rewrite <- E, worst_to_best_perm).
  assert (Hb : b ∈ l) by (apply Hin; apply elem_of_app; right; by left).
  destruct (linked _ _ Hok b Hb) as [?|(p & Hp & Ep)]; [by left|]. right. exists p. split; [|done].
  pose proof (ranked_better _ _ _ _ Hr Hb Hp Ep) as Hbp.
  apply Hin, elem_of_app in Hp as [Hp|[->|Hp]%elem_of_cons]; [done| |]; exfalso.
  - destruct (tree_block_ok _ _ _ Hok Hb) as [Hn _]. rewrite <- Ep in Hn. lia.
  - apply StronglySorted_app in Hs as (_ & _ & Hs). inversion Hs as [|? ? _ Hall]; subst.
    rewrite Forall_forall in Hall. specialize (Hall p Hp). unfold upto in Hall. congruence.
Qed.

(** One block of the file is added back, unless the validator rejects it on the
    block it extends. *)
Lemma add_back validator r l pending before b :
  tree_ok r l -> claims_noted r l pending -> b ∈ l -> before ⊆ l -> tree_ok r before ->
  (forall x, x ∈ before -> fb_id x <> fb_id b) ->
  (fb_previous b = fb_id r \/ exists p, p ∈ before /\ fb_id p = fb_previous b) ->
  exists p, (p = r \/ p ∈ l) /\ fb_id p = fb_previous b /\
    match validate_features validator p b with
    | Ok _ => add_impl (ForkDb (Some r) pending before) b false true validator
              = (ForkDb (Some r) pending (before ++ [b]), Ok tt)
    | Err e => (add_impl (ForkDb (Some r) pending before) b false true validator).2 = Err e
    end.
Proof.
  intros Hok Hc Hb Hsub Hokb Hfresh Hlink. unfold add_impl. cbn [root].
  set (d := ForkDb (Some r) pending before).
  assert (En : note_strong_claim d b = Ok d).
  { unfold note_strong_claim. destruct (fb_strong_claim b) as [k|] eqn:Ek; [|done].
    destruct (search_on_branch_impl d (fb_previous b) k false) as [c|] eqn:Es; [|done].
    assert (exists p, path before r (fb_previous b) p) as (p & Hp).
    { destruct Hlink as [->|(q & Hq & <-)]; [eexists; constructor|].
      destruct (path_exists _ _ _ Hokb Hq) as (p & Hp & _). eauto. }
    destruct (search_in_path d r _ _ _ _ eq_refl Hokb Hp Es) as (Hcp & Ec & Hk).
    destruct (path_sub _ _ _ _ _ _ Hok Hsub (or_introl eq_refl) Hp) as (q & Hq & Hs).
    destruct (Hc b k q c Hb Ek Hq (Hs _ Hcp) Ec Hk) as (id & -> & Hle).
    cbn [mbind result_bind mret result_ret]. unfold set_pending_savanna_lib_id_impl. cbn [pending_savanna_lib_id d].
    destruct (Z.ltb_spec (num_from_id pending) (num_from_id id)); [lia|done]. }
  rewrite En. unfold get_block_impl, root_is. cbn [root d].
  assert (Hx : block_exists_impl d (fb_id b) = false).
  { unfold block_exists_impl. cbn [index d]. destruct (index_find (fb_id b) before) as [x|] eqn:E; [|done].
    apply index_find_Some in E as [Hx E]. by apply Hfresh in Hx. }
  cbn [mbind result_bind mret result_ret]. destruct (sha256_eqb (fb_id r) (fb_previous b)) eqn:E; unfold mret, result_ret; cbn [root index d].
  - apply sha256_eqb_eq in E. exists r. split; [by left|]. split; [done|].
    destruct (validate_features validator r b); [by rewrite Hx|done].
  - destruct Hlink as [Er|(p & Hp & Ep)]; [rewrite Er, sha256_eqb_refl in E; done|].
    rewrite <- Ep. rewrite (index_find_in _ _ (ids_distinct _ _ Hokb) Hp).
    exists p. split; [by right; apply Hsub|]. split; [done|].
    destruct (validate_features validator p b); [by rewrite Hx|done].
Qed.

Lemma add_all_back validator r l pending after before :
  tree_ok r l -> claims_noted r l pending -> ranked r l -> worst_to_best l = before ++ after -> tree_ok r before ->
  match add_all validator after (ForkDb (Some r) pending before) with
  | Ok d => d = ForkDb (Some r) pending (before ++ after)
  | Err e => exists b p, b ∈ l /\ (p = r \/ p ∈ l) /\ fb_id p = fb_previous b /\ validate_features validator p b = Err e
  end.
Proof.
  intros Hok Hc Hr. revert before. induction after as [|b after IH]; intros before E Hokb; cbn [add_all].
  - by rewrite app_nil_r.
  - assert (Hin : forall x, x ∈ before ++ b :: after -> x ∈ l) by (intros x; by rewrite <- E, worst_to_best_perm).
    assert (Hnd : NoDup (fb_id <$> (before ++ b :: after))).
    { rewrite <- E, worst_to_best_perm. apply Hok. }
    assert (Hb : b ∈ l) by (apply Hin, elem_of_app; right; by left).
    assert (Hfresh : forall x, x ∈ before -> fb_id x <> fb_id b).
    { intros x Hx Ex. rewrite fmap_app in Hnd. apply NoDup_app in Hnd as (_ & Hnd & _).
      apply (Hnd (fb_id x)); [by apply list_elem_of_fmap_2|]. rewrite Ex. cbn. by left. }
    pose proof (parent_first _ _ _ _ _ Hok Hr E) as Hlink.
    assert (Hsub : before ⊆ l) by (intros x Hx; apply Hin, elem_of_app; by left).
    destruct (add_back validator r l pending before b Hok Hc Hb Hsub Hokb Hfresh Hlink) as (p & Hp & Ep & Hadd).
    destruct (validate_features validator p b) as [u|e] eqn:Ev.
    + rewrite Hadd. assert (E' : (before ++ [b]) ++ after = before ++ b :: after) by by rewrite <- app_assoc.
      specialize (IH (before ++ [b])). rewrite E' in IH. apply IH; [done|].
      apply add_tree_ok; [done|by apply (tree_block_ok r l)|done..].
    + destruct (add_impl _ b false true validator) as [d' [u|e']]; cbn [snd] in Hadd; [done|].
      injection Hadd as ->. by exists b, p.
Qed.

(** C17. Whatever is done to the database, its root is a validated block, every
    block's parent is in the database or is the root, ids are distinct, numbers
    count up along the branches, and every strong claim that a block carries
    for a block of its branch has raised the pending irreversible block at
    least to the block it makes irreversible. *)
Theorem fork_database_reachable ops :
  Forall fork_op_ok ops ->
  let db := fork_run fork_db_init ops in
  match root db with
  | None => index db = []
  | Some r =>
      fb_is_valid r = true /\ tree_ok r (index db) /\
      forall n k c, n ∈ index db -> fb_strong_claim n = Some k ->
        search_on_branch_impl db (fb_previous n) k false = Some c ->
        exists id, fb_latest_claim_id c = Ok id /\ num_from_id id <= num_from_id (pending_savanna_lib_id db)
  end.
Proof.
  intros Hops db. assert (Hi : fdb_inv db) by (apply fork_run_inv; done). unfold fdb_inv in Hi.
  destruct (root db) as [r|] eqn:Hr; [|done]. destruct Hi as (Hv & Hok & Hc). split_and!; [done..|].
  intros n k c Hn Hk Hs. destruct (path_exists _ _ _ Hok Hn) as (p & _ & Hp).
  destruct (search_in_path _ _ _ _ _ _ Hr Hok Hp Hs) as (Hcp & Ec & Hlt). by apply (Hc n k p c).
Qed.

(** C37. A restart keeps the fork database. Suppose every block of it beats its
    parent ([ranked]: its latest claim is at least as recent and its timestamp is
    later) and its ids are 256-bit values. What [close] writes, [open] reads back
    into a database with the same root, the same pending irreversible block, the
    same blocks and the same head, unless the validator rejects the protocol
    features of a block of the database on the block it extends; then [open] fails
    with the exception of that check, and for no other reason. It relies on the
    order of the file, worst block first, in which every parent comes before its
    children. *)
Theorem close_open_roundtrip ops r validator db f d :
  Forall fork_op_ok ops -> db = fork_run fork_db_init ops -> root db = Some r ->
  ranked r (index db) -> Forall (fun b => sha256_wf (fb_id b)) (index db) ->
  close_impl db = Ok (f, d) ->
  match open_impl validator f fork_db_init with
  | Ok db' =>
      root db' = root db /\ pending_savanna_lib_id db' = pending_savanna_lib_id db /\ index db' ≡ₚ index db /\
      forall include_root, head_impl db' include_root = head_impl db include_root
  | Err e =>
      exists b p, b ∈ index db /\ (p = r \/ p ∈ index db) /\ fb_id p = fb_previous b /\
        validate_features validator p b = Err e
  end.
Proof.
  intros Hops -> Hr Hrank Hwf Hcl. set (db := fork_run fork_db_init ops) in *.
  assert (Hi : fdb_inv db) by (apply fork_run_inv; done).
  unfold fdb_inv in Hi. rewrite Hr in Hi. destruct Hi as (Hv & Hok & Hc).
  unfold close_impl in Hcl. rewrite Hr in Hcl. apply Ok_inj in Hcl. injection Hcl as <- _.
  unfold open_impl, reset_root_impl. cbn [file_blocks file_root file_pending root pending_savanna_lib_id index].
  rewrite set_valid_idem by done.
  pose proof (add_all_back validator r (index db) (pending_savanna_lib_id db) (worst_to_best (index db)) []) as Hall.
  destruct (add_all validator (worst_to_best (index db)) _) as [db'|e].
  - rewrite Hall; [|done..|]; cbn.
    + rewrite Hr. split_and!; [done..|apply worst_to_best_perm|].
      intros include. apply head_unique; [done|apply Hok|done|]. apply worst_to_best_perm.
    + split; cbn; [constructor|constructor|apply (root_num _ _ Hok)|by intros ? ?%not_elem_of_nil].
  - apply Hall; [done..|]. split; cbn; [constructor|constructor|apply (root_num _ _ Hok)|by intros ? ?%not_elem_of_nil].
Qed.

End runs.

(** ** A small tree *)

Record toy_block : Type := ToyBlock {
  toy_id : sha256; toy_previous : sha256; toy_time : Z; toy_qc_time : Z; toy_valid : bool;
  toy_claim : option Z; toy_lib : sha256
}.

#[global] Instance toy_fork_block : ForkBlock toy_block := {
  fb_id := toy_id; fb_previous := toy_previous;
  fb_block_num b := num_from_id (toy_id b);
  fb_timestamp := toy_time; fb_is_valid := toy_valid;
  fb_set_valid v b := ToyBlock (toy_id b) (toy_previous b) (toy_time b) (toy_qc_time b) v (toy_claim b) (toy_lib b);
  fb_rank b := (toy_qc_time b, toy_time b);
  fb_strong_claim := toy_claim;
  fb_latest_claim_id b := Ok (toy_lib b);
  fb_activated_features b := [];
  fb_new_features b := None
}.

#[global] Instance toy_fork_block_laws : ForkBlockLaws toy_block.
Proof. split; try done. intros [] E. cbn in *. by rewrite E. Qed.

Definition toy_bid (n k : Z) : sha256 := stamp_block_num (Sha256 0 0 0 k) n.
Definition toy_root : toy_block := ToyBlock (toy_bid 1 0) (toy_bid 0 0) 10 10 true None (toy_bid 1 0).
Definition toy_a : toy_block := ToyBlock (toy_bid 2 0) (toy_bid 1 0) 11 10 false None (toy_bid 1 0).
Definition toy_b : toy_block := ToyBlock (toy_bid 3 0) (toy_bid 2 0) 12 11 false (Some 2) (toy_bid 2 0).
Definition toy_c : toy_block := ToyBlock (toy_bid 3 1) (toy_bid 2 0) 13 10 false None (toy_bid 1 0).
Definition toy_d : toy_block := ToyBlock (toy_bid 4 0) (toy_bid 3 0) 14 12 false (Some 3) (toy_bid 3 0).

Definition toy_fork_ops : list fork_op :=
  [f_reset_root toy_root; f_add toy_a false; f_add toy_c false; f_add toy_b false; f_add toy_d false;
   f_add toy_d true; f_mark_valid (toy_id toy_a)].
Definition toy_fdb : fork_db := fork_run fork_db_init toy_fork_ops.

Lemma toy_fork_ops_ok : Forall fork_op_ok toy_fork_ops.
Proof. unfold toy_fork_ops. repeat constructor; vm_compute; reflexivity. Qed.

Example toy_fdb_pending : pending_savanna_lib_id toy_fdb = toy_bid 2 0.
Proof. by vm_compute. Qed.

Definition toy_a_valid : toy_block := fb_set_valid true toy_a.

Lemma toy_tree : root toy_fdb = Some toy_root /\ tree_ok toy_root (index toy_fdb).
Proof.
  pose proof (fork_run_inv toy_fork_ops fork_db_init eq_refl toy_fork_ops_ok) as Hi. fold toy_fdb in Hi.
  unfold fdb_inv in Hi. assert (Hr : root toy_fdb = Some toy_root) by by vm_compute.
  rewrite Hr in Hi. by split; [|apply Hi].
Qed.

Lemma toy_index : index toy_fdb = [toy_a_valid; toy_c; toy_b; toy_d].
Proof. by vm_compute. Qed.

Lemma fork_database_reachable_witness : fb_is_valid toy_root = true /\ tree_ok toy_root (index toy_fdb).
Proof.
  pose proof (fork_database_reachable toy_fork_ops toy_fork_ops_ok) as Hi. cbv zeta in Hi. fold toy_fdb in Hi.
  rewrite (proj1 toy_tree) in Hi. split; apply Hi.
Defined.

Lemma fetch_branch_from_correct_witness :
  exists ra rb c s, fetch_branch_from_impl toy_fdb (toy_id toy_d) (toy_id toy_c) = Ok (ra, rb) /\
    branch toy_fdb (toy_id toy_d) ++ [toy_root] = ra ++ c :: s.
Proof.
  destruct (fetch_branch_from_correct toy_fdb toy_root toy_d toy_c) as (ra & rb & c & s & E1 & E2 & _).
  - apply toy_tree.
  - apply toy_tree.
  - right. rewrite toy_index. do 3 right. by left.
  - right. rewrite toy_index. right. by left.
  - exists ra, rb, c, s. split; [exact E1|exact E2].
Defined.

Example toy_common_ancestor :
  fetch_branch_from_impl toy_fdb (toy_id toy_d) (toy_id toy_c) = Ok ([toy_d; toy_b], [toy_c]).
Proof. by vm_compute. Qed.

Lemma branch_ends_at_root_witness :
  head (branch toy_fdb (toy_id toy_d)) = Some toy_d /\
  Z.of_nat (length (branch toy_fdb (toy_id toy_d))) = 4 - 1.
Proof.
  destruct (branch_ends_at_root toy_fdb toy_root toy_d) as (E1 & _ & _ & E2).
  - apply toy_tree.
  - apply toy_tree.
  - rewrite toy_index. do 3 right. by left.
  - split; [exact E1|]. etrans; [exact E2|]. by vm_compute.
Defined.

Lemma advance_root_correct_witness :
  exists db', advance_root_impl toy_fdb (toy_id toy_a) = Ok db' /\ root db' = Some toy_a_valid /\
    tree_ok toy_a_valid (index db').
Proof.
  destruct (advance_root_correct toy_fdb toy_root toy_a_valid) as (db' & E & Hr & _ & _ & _ & Hok).
  - apply toy_tree.
  - apply toy_tree.
  - rewrite toy_index. by left.
  - reflexivity.
  - exists db'. split; [exact E|]. by split.
Defined.

Lemma toy_ranked : ranked toy_root (index toy_fdb).
Proof.
  rewrite toy_index. intros b p Hb Hp E.
  repeat (apply elem_of_cons in Hb as [->|Hb]; [|]); [..|by apply not_elem_of_nil in Hb];
    (destruct Hp as [->|Hp]; [|repeat (apply elem_of_cons in Hp as [->|Hp]; [|]); [..|by apply not_elem_of_nil in Hp]]);
    first [by vm_compute in E|cbn; lia].
Qed.

Lemma close_open_roundtrip_witness :
  exists f d db', close_impl toy_fdb = Ok (f, d) /\ open_impl (fun _ _ _ => Ok tt) f fork_db_init = Ok db' /\
    root db' = root toy_fdb /\ head_impl db' true = head_impl toy_fdb true.
Proof.
  destruct (close_impl toy_fdb) as [[f d]|] eqn:Hcl; [|unfold close_impl in Hcl; by rewrite (proj1 toy_tree) in Hcl].
  assert (Forall (fun b => sha256_wf (fb_id b)) (index toy_fdb)) as Hwf.
  { rewrite toy_index. repeat (apply Forall_cons_2; [vm_compute; intuition congruence|]). apply Forall_nil_2. }
  pose proof (close_open_roundtrip toy_fork_ops toy_root (fun _ _ _ => Ok tt) toy_fdb f d toy_fork_ops_ok eq_refl
    (proj1 toy_tree) toy_ranked Hwf Hcl) as Hrt.
  destruct (open_impl (fun _ _ _ => Ok tt) f fork_db_init) as [db'|e] eqn:E.
  - destruct Hrt as (Hr & _ & _ & Hh). exists f, d, db'. split; [reflexivity|]. split; [exact E|]. split; [exact Hr|apply Hh].
  - destruct Hrt as (b & p & _ & _ & _ & He). discriminate He.
Defined.
