(* ===== verification/KeyRecovery.v ===== *)
(** Recovering the key that made a signature
    (libfc/src/crypto/public_key.cpp, elliptic_secp256k1.cpp,
    elliptic_common.cpp and elliptic_r1.cpp): the variant of signatures, the
    checks on the bytes of a compact signature and the exceptions they throw.

    The curve arithmetic is libsecp256k1's and OpenSSL's and is a parameter:
    [parse_compact] and [ecdsa_recover] return nothing where the C functions
    return 0, [serialize] is the compressed form of a key, and [r1_recover] is
    the sequence of OpenSSL calls in [ECDSA_SIG_recover_key_GFp], which returns
    something only for the result 1. The key of a WebAuthn signature needs a JSON
    reader; [webauthn_recover] is that constructor, which may throw as well. *)
From Stdlib Require Import ZArith Lia ZifyBool.
From stdpp Require Import base tactics numbers list.
From S2P Require Import Prelude Digest.
#[local] Open Scope Z_scope.

(** [public_key::is_canonical]: 65 bytes, the header, [r] and [s]. *)
Definition is_canonical (c : list Z) : bool :=
  let data i := nth i c 0 in
  negb (Z.testbit (data 1%nat) 7)
  && negb ((data 1%nat =? 0) && negb (Z.testbit (data 2%nat) 7))
  && negb (Z.testbit (data 33%nat) 7)
  && negb ((data 33%nat =? 0) && negb (Z.testbit (data 34%nat) 7)).

(** OpenSSL's [BN_bin2bn]: a big-endian number. *)
Definition BN_bin2bn (bytes : list Z) : Z := foldl (fun acc b => acc * 256 + b) 0 bytes.

(** The order of P-256, what [EC_GROUP_get_order] gives for it. *)
Definition p256_order : Z := 0xFFFFFFFF00000000FFFFFFFFFFFFFFFFBCE6FAADA7179E84F3B9CAC2FC632551.

Section Recovery.
Context {REC PUB WSIG WKEY : Type}.
Variable parse_compact : list Z -> Z -> option REC.
Variable ecdsa_recover : REC -> sha256 -> option PUB.
Variable serialize : PUB -> list Z.
Variable r1_recover : Z -> Z -> sha256 -> Z -> option (list Z).
Variable webauthn_recover : WSIG -> sha256 -> bool -> result WKEY.

(** [fc::crypto::signature::storage_type] and [public_key::storage_type]. *)
Inductive signature : Type :=
| ecc_signature (data : list Z)
| r1_signature (data : list Z)
| webauthn_signature (s : WSIG).

Inductive public_key : Type :=
| ecc_public_key (data : list Z)
| r1_public_key (data : list Z)
| webauthn_public_key (k : WKEY).

#[export] Instance public_key_eq_dec `{EqDecision WKEY} : EqDecision public_key.
Proof. solve_decision. Defined.

(** The constructor of [ecc::public_key]. *)
Definition ecc_public_key_of (c : list Z) (digest : sha256) (check_canonical : bool) : result (list Z) :=
  let nV := nth 0 c 0 in
  if (nV <? 27) || (35 <=? nV) then Err fc_exception
  else
    _ ← (if check_canonical then EOS_ASSERT (is_canonical c) fc_assert_exception else mret tt);
    match parse_compact (take 64 (drop 1 c)) (Z.land (nV - 27) 3) with
    | None => Err fc_assert_exception
    | Some secp_sig =>
        match ecdsa_recover secp_sig digest with
        | None => Err fc_assert_exception
        | Some secp_pub =>
            _ ← EOS_ASSERT (vsize (serialize secp_pub) =? 33) fc_assert_exception;
            mret (serialize secp_pub)
        end
    end.

(** The constructor of [r1::public_key], which ignores [check_canonical]. *)
Definition r1_public_key_of (c : list Z) (digest : sha256) (check_canonical : bool) : result (list Z) :=
  let nV := nth 0 c 0 in
  if (nV <? 27) || (35 <=? nV) then Err fc_exception
  else
    let r := BN_bin2bn (take 32 (drop 1 c)) in
    let s := BN_bin2bn (take 32 (drop 33 c)) in
    if p256_order / 2 <? s then Err fc_exception
    else
      let nV := if 31 <=? nV then nV - 4 else nV in
      match r1_recover r s digest (nV - 27) with
      | Some key => mret key
      | None => Err fc_exception
      end.

(** [public_key(signature, digest, check_canonical)]. *)
Definition public_key_of (c : signature) (digest : sha256) (check_canonical : bool) : result public_key :=
  match c with
  | ecc_signature data => ecc_public_key <$> ecc_public_key_of data digest check_canonical
  | r1_signature data => r1_public_key <$> r1_public_key_of data digest check_canonical
  | webauthn_signature s => webauthn_public_key <$> webauthn_recover s digest check_canonical
  end.

(** A signature of one of the two curves that gives no key throws an exception
    of libfc, never one of the chain's. *)
Lemma public_key_of_errors c digest check_canonical e :
  public_key_of c digest check_canonical = Err e ->
  e = fc_exception \/ e = fc_assert_exception \/
  exists s, c = webauthn_signature s /\ webauthn_recover s digest check_canonical = Err e.
Proof.
  destruct c as [c|c|s]; cbn [public_key_of]; intros E.
  - unfold ecc_public_key_of in E. destruct (_ || _); [injection E as <-; auto|].
    destruct check_canonical; [destruct (is_canonical c); cbn [EOS_ASSERT] in E; [|injection E as <-; auto]|];
      rewrite ret_bind in E; (destruct (parse_compact _ _); [|injection E as <-; auto]);
      (destruct (ecdsa_recover _ _); [|injection E as <-; auto]);
      (destruct (_ =? 33); cbn in E; [done|injection E as <-; auto]).
  - unfold r1_public_key_of in E. destruct (_ || _); [injection E as <-; auto|].
    destruct (_ <? _); [injection E as <-; auto|]. destruct (r1_recover _ _ _ _); [done|injection E as <-; auto].
  - right; right. exists s. split; [done|]. destruct (webauthn_recover _ _ _); [done|]. by injection E as <-.
Qed.

(** An accepted secp256k1 signature is canonical. *)
Lemma ecc_key_canonical c digest k : ecc_public_key_of c digest true = Ok k -> is_canonical c = true.
Proof.
  unfold ecc_public_key_of. destruct (_ || _); [done|]. by destruct (is_canonical c).
Qed.

End Recovery.
Arguments signature : clear implicits.
Arguments public_key : clear implicits.

(** A toy curve: the key is the first 33 bytes of [r] and [s], and there is none
    when the last byte of [r] is 9. *)
Definition toy_parse (c : list Z) (_ : Z) : option (list Z) := Some (take 33 c).
Definition toy_ecdsa (r : list Z) (_ : sha256) : option (list Z) := if nth 31 r 0 =? 9 then None else Some r.

Definition toy_signature (b : Z) : signature unit :=
  ecc_signature (31 :: (1 :: replicate 30 0 ++ [b]) ++ 1 :: replicate 31 0).

Definition toy_public_key_of (s : signature unit) (digest : sha256) : result (public_key unit) :=
  public_key_of toy_parse toy_ecdsa id (fun _ _ _ _ => None) (fun _ _ _ => Err fc_exception) s digest true.
