(* ===== verification/BlockState.v ===== *)
(** [block_state] (chain/include/eosio/chain/block_state.hpp and
    chain/block_state.cpp): a block with its header state, the votes collected on
    it and, once it was executed, its validation tree; the check of a block's
    signatures; and a Savanna block state as a block of the fork database.

    [recover] is the constructor of a public key from a signature and a digest,
    which throws when there is none; everything here holds for any such function,
    and KeyRecovery.v models libfc's. BLS is the class [Bls]. *)
From Stdlib Require Import ZArith Lia ZifyBool.
From stdpp Require Import base tactics numbers list sets.
From S2P Require Import Prelude Digest Raw Merkle FinalityCore OrderedDiff FinalizerPolicy ProducerSchedule Qc.
From S2P Require Import AggregatingQc BlockHeader BlockHeaderState ForkDatabase ForkTree KeyRecovery.
#[local] Open Scope Z_scope.

(** ** The validation tree *)

Record finality_leaf_node_t : Type := {
  leaf_major_version : Z;
  leaf_minor_version : Z;
  leaf_block_num : Z;
  leaf_timestamp : Z;
  leaf_parent_timestamp : Z;
  leaf_finality_digest : sha256;
  leaf_action_mroot : sha256
}.

Definition pack_leaf (n : finality_leaf_node_t) : result (list Z) :=
  pack (UInt (n := 4) (leaf_major_version n), (UInt (n := 4) (leaf_minor_version n),
    (UInt (n := 4) (leaf_block_num n), (UInt (n := 4) (leaf_timestamp n),
    (UInt (n := 4) (leaf_parent_timestamp n), (leaf_finality_digest n, leaf_action_mroot n)))))).

Record valid_t : Type := ValidT {
  validation_tree : incremental_merkle_tree;
  validation_mroots : list sha256
}.

Section BlockState.
Context {PK K SIG APK PSIG : Type} `{EqDecision PK} `{EqDecision K} `{Packable PK} `{Packable K}.
Context `{Bls PK SIG APK}.
Variable sha : list Z -> sha256.
Variable recover : PSIG -> sha256 -> result K.
Abbreviation block_header_state := (block_header_state PK K).
Abbreviation qc_t := (qc_t SIG).

Record block_state : Type := BlockState {
  bhs : block_header_state;
  strong_digest : sha256;
  weak_digest : list Z;
  aggregating_qc : aggregating_qc_t PK SIG;
  valid : option valid_t;
  validated : bool;
  bs_action_mroot : sha256
}.

Definition leaf_digest (block_num timestamp parent_timestamp : Z) (finality_digest action_mroot : sha256)
    : result sha256 :=
  b ← pack_leaf {| leaf_major_version := light_header_protocol_version_major;
                   leaf_minor_version := light_header_protocol_version_minor;
                   leaf_block_num := block_num; leaf_timestamp := timestamp;
                   leaf_parent_timestamp := parent_timestamp;
                   leaf_finality_digest := finality_digest; leaf_action_mroot := action_mroot |};
  mret (sha b).

(** [cbegin() + start .. cend()]: past the end is undefined. *)
Definition trim_front (start : Z) (l : list sha256) : result (list sha256) :=
  _ ← EOS_ASSERT (start <=? vsize l) undefined_behavior; mret (drop (Z.to_nat start) l).

Definition new_valid (s : block_state) (next_bhs : block_header_state) (action_mroot strong : sha256)
    : result valid_t :=
  match valid s with
  | None => Err assertion_failed
  | Some v =>
      next_lib ← last_final_block_num (core next_bhs);
      lib ← last_final_block_num (core (bhs s));
      _ ← c_assert (lib <=? next_lib);
      _ ← c_assert (negb (sha256_empty strong));
      let start := u32 (next_lib - lib) in
      mroots ← trim_front start (validation_mroots v);
      leaf ← leaf_digest (bhs_block_num next_bhs) (bhs_timestamp next_bhs) (bhs_timestamp (bhs s)) strong action_mroot;
      tree ← append sha (validation_tree v) leaf;
      r ← get_root sha tree;
      _ ← c_assert (vsize (mroots ++ [r]) =? u32 (bhs_block_num next_bhs - next_lib + 1));
      mret (ValidT tree (mroots ++ [r]))
  end.

Definition get_validation_mroot (s : block_state) (target_block_num : Z) : result sha256 :=
  match valid s with
  | None => mret sha256_zero
  | Some v =>
      _ ← EOS_ASSERT (negb (is_empty (validation_mroots v))) block_validate_exception;
      lib ← last_final_block_num (core (bhs s));
      _ ← EOS_ASSERT ((lib <=? target_block_num) && (target_block_num <? lib + vsize (validation_mroots v)))
            block_validate_exception;
      at_index (validation_mroots v) (u32 (target_block_num - lib))
  end.

Definition get_finality_mroot_claim (s : block_state) (claim : qc_claim_t) : result sha256 :=
  meta ← next_metadata (core (bhs s)) claim;
  no_tree ← is_genesis_block_num (core (bhs s)) (meta_latest_qc_claim_block_num meta);
  if no_tree : bool then mret sha256_zero
  else get_validation_mroot s (meta_latest_qc_claim_block_num meta).

(** ** Claims, votes and certificates *)

Definition extract_qc_claim (s : block_state) : qc_claim_t :=
  match find_ext (header_exts (bhs s)) finality_extension_id with
  | Some (finality_ext f) => fx_qc_claim f
  | _ => {| claim_block_num := 0; is_strong_qc := false |}
  end.

Definition make_block_ref (s : block_state) : block_ref :=
  {| ref_block_id := block_id (bhs s); ref_timestamp := bhs_timestamp (bhs s);
     ref_finality_digest := strong_digest s;
     ref_active_policy_generation := fp_generation (BlockHeaderState.active_finalizer_policy (bhs s));
     ref_pending_policy_generation :=
       match BlockHeaderState.pending_finalizer_policy (bhs s) with Some p => fp_generation p.2 | None => 0 end |}.

Definition bs_get_finalizer_policies (s : block_state) (num : Z) : result (finalizer_policies_t (PK := PK)) :=
  if num =? bhs_block_num (bhs s) then get_finalizer_policies (bhs s) (make_block_ref s)
  else r ← get_block_reference (core (bhs s)) num; get_finalizer_policies (bhs s) r.

Definition bs_aggregate_vote (s : block_state) (vote : vote_message PK SIG) :=
  aggregate_vote (aggregating_qc s) vote
    (if vm_strong vote then sha256_bytes (strong_digest s) else weak_digest s).

Definition bs_verify_qc (s : block_state) (qc : qc_t) : result unit :=
  policies ← bs_get_finalizer_policies s (qc_block_num qc);
  verify_qc (aggregating_qc_init (fps_active_finalizer_policy policies) (fps_pending_finalizer_policy policies))
    qc (fps_finality_digest policies) (create_weak_digest (fps_finality_digest policies)).

(** ** Block signatures *)

(** The additional signatures, added to the set of keys one by one. *)
Fixpoint collect_keys (keys : list K) (block_id : sha256) (sigs : list PSIG) : result (list K) :=
  match sigs with
  | [] => mret keys
  | s :: sigs =>
      k ← recover s block_id;
      _ ← EOS_ASSERT (bool_decide (k ∉ keys)) wrong_signing_key;
      collect_keys (keys ++ [k]) block_id sigs
  end.

Definition authority_keys (a : block_signing_authority K) : list (key_weight K) :=
  match a with authority_v0 a => bsa_keys a end.

Definition verify_signee (producer_signature : PSIG) (block_id : sha256) (additional_signatures : list PSIG)
    (valid_block_signing_authority : block_signing_authority K) : result unit :=
  _ ← EOS_ASSERT (1 + vsize additional_signatures <=? vsize (authority_keys valid_block_signing_authority))
        wrong_signing_key;
  k ← recover producer_signature block_id;
  keys ← collect_keys [k] block_id additional_signatures;
  let '(is_satisfied, relevant_sig_count) := keys_satisfy_and_relevant keys valid_block_signing_authority in
  _ ← EOS_ASSERT (relevant_sig_count =? vsize keys) wrong_signing_key;
  EOS_ASSERT is_satisfied wrong_signing_key.

(** [detail::sign]: the last signature is the producer's, the others go into
    the block extension. *)
Definition sign (block_id : sha256) (sigs : list PSIG) (authority : block_signing_authority K)
    : result (PSIG * list PSIG) :=
  _ ← EOS_ASSERT (negb (is_empty sigs)) no_block_signatures;
  producer_signature ← back sigs;
  let additional := removelast sigs in
  _ ← verify_signee producer_signature block_id additional authority;
  mret (producer_signature, additional).

(** [verify_block_sig], given the signatures of the received block. *)
Definition verify_block_sig (prev : block_header_state) (h : block_header K) (producer_signature : PSIG)
    (additional_signatures : list PSIG) (skip_validate_signee : bool) : result unit :=
  if skip_validate_signee then mret tt
  else
    p ← get_producer_for_block_at prev (hdr_timestamp h);
    id ← calculate_id sha h;
    verify_signee producer_signature id additional_signatures (pa_authority p).

(** ** Constructors *)

(** The members every constructor computes from the header state. *)
Definition make_block_state (s : block_header_state) (v : option valid_t) (action_mroot : sha256)
    : result block_state :=
  d ← compute_finality_digest sha s;
  mret (BlockState s d (create_weak_digest d)
          (aggregating_qc_init (BlockHeaderState.active_finalizer_policy s)
             (snd <$> BlockHeaderState.pending_finalizer_policy s))
          v false action_mroot).

(** From a received block. *)
Definition block_state_of_block (validator : Z -> list sha256 -> list sha256 -> result unit)
    (prev : block_header_state) (h : block_header K) (producer_signature : PSIG)
    (additional_signatures : list PSIG) (skip_validate_signee : bool) (fresh : Z) : result block_state :=
  _ ← verify_block_sig prev h producer_signature additional_signatures skip_validate_signee;
  s ← next_from_header sha validator prev h fresh;
  make_block_state s None sha256_zero.

(** A transition block: built from the block before it, with the validation
    tree when its action root is known. *)
Definition create_transition_block (validator : Z -> list sha256 -> list sha256 -> result unit)
    (prev : block_state) (h : block_header K) (producer_signature : PSIG)
    (additional_signatures : list PSIG) (skip_validate_signee : bool)
    (action_mroot_savanna : option sha256) (fresh : Z) : result block_state :=
  b ← block_state_of_block validator (bhs prev) h producer_signature additional_signatures skip_validate_signee fresh;
  let action_mroot := default sha256_zero action_mroot_savanna in
  v ← (if negb (sha256_empty action_mroot)
       then Some <$> new_valid prev (bhs b) action_mroot (strong_digest b)
       else mret (valid b));
  mret (BlockState (bhs b) (strong_digest b) (weak_digest b) (aggregating_qc b) v (validated b) action_mroot).

(** The validation tree of the Savanna genesis block. *)
Definition genesis_valid (block_num timestamp : Z) (strong action_mroot : sha256) : result valid_t :=
  leaf ← leaf_digest block_num timestamp 0 strong action_mroot;
  tree ← append sha empty_tree leaf;
  r ← get_root sha tree;
  mret (ValidT tree [r]).

(** ** As a block of the fork database *)

#[export] Instance block_state_fork_block : ForkBlock block_state := {
  fb_id s := block_id (bhs s);
  fb_previous s := hdr_previous (header (bhs s));
  fb_block_num s := bhs_block_num (bhs s);
  fb_timestamp s := bhs_timestamp (bhs s);
  fb_is_valid := validated;
  fb_set_valid v s :=
    BlockState (bhs s) (strong_digest s) (weak_digest s) (aggregating_qc s) (valid s) v (bs_action_mroot s);
  fb_rank s := (match latest_qc_block_timestamp (core (bhs s)) with Ok t => t | Err _ => 0 end,
                bhs_timestamp (bhs s));
  fb_strong_claim s := let c := extract_qc_claim s in
                       if is_strong_qc c then Some (claim_block_num c) else None;
  fb_latest_claim_id s :=
    c ← latest_qc_claim (core (bhs s)); r ← get_block_reference (core (bhs s)) (claim_block_num c);
    mret (ref_block_id r);
  fb_activated_features s := activated_protocol_features (bhs s);
  fb_new_features s :=
    match find_ext (header_exts (bhs s)) protocol_feature_activation_id with
    | Some (protocol_feature_activation l) => Some l
    | _ => None
    end
}.

#[export] Instance block_state_fork_block_laws : ForkBlockLaws block_state.
Proof. split; try done. intros [] E. cbn in *. by rewrite E. Qed.

(** ** The check of signatures *)

(** The keys that the signatures give, in their order. *)
Definition recovered (id : sha256) (sigs : list PSIG) (ks : list K) : Prop :=
  Forall2 (fun s k => recover s id = Ok k) sigs ks.

Lemma recovered_unique id sigs ks ks' : recovered id sigs ks -> recovered id sigs ks' -> ks = ks'.
Proof.
  intros Hr. revert ks'. induction Hr as [|s k sigs ks E _ IH]; intros ks' H'; inversion H'; subst; [done|].
  f_equal; [congruence|auto].
Qed.

(** The keys are collected, or one of them is a repetition, or one of the
    signatures gives no key. *)
Lemma collect_keys_spec (keys : list K) id sigs :
  NoDup keys ->
  match collect_keys keys id sigs with
  | Ok all => exists ks, recovered id sigs ks /\ all = keys ++ ks /\ NoDup (keys ++ ks)
  | Err e => (e = wrong_signing_key /\ forall ks, recovered id sigs ks -> ~ NoDup (keys ++ ks)) \/
             (exists s, s ∈ sigs /\ recover s id = Err e)
  end.
Proof.
  revert keys; induction sigs as [|x sigs IH]; intros keys Hnd; cbn [collect_keys].
  { exists []. rewrite app_nil_r. split; [constructor|done]. }
  destruct (recover x id) as [k|e] eqn:Ex; [rewrite ret_bind|right; exists x; split; [apply elem_of_cons; auto|done]].
  case_bool_decide as Hx; cbn [EOS_ASSERT].
  - rewrite ret_bind. assert (NoDup (keys ++ [k])) as Hnd'.
    { apply NoDup_app. split_and!; [done| |apply NoDup_singleton]. intros y Hy ->%list_elem_of_singleton. done. }
    specialize (IH _ Hnd'). destruct (collect_keys (keys ++ [k]) id sigs) as [all|e].
    + destruct IH as (ks & Hr & -> & Hd). rewrite <- app_assoc in *. exists (k :: ks). split; [by constructor|done].
    + destruct IH as [[-> Hn]|(s & Hs & E)]; [|right; exists s; split; [apply elem_of_cons; auto|done]].
      left. split; [done|]. intros ks Hr. inversion Hr as [|? k' ? ks' Ek Hr']; subst.
      assert (k' = k) as -> by congruence. specialize (Hn ks' Hr'). by rewrite <- app_assoc in Hn.
  - left. split; [done|]. intros ks Hr. inversion Hr as [|? k' ? ks' Ek Hr']; subst.
    assert (k' = k) as -> by congruence. intros (_ & Hd & _)%NoDup_app. apply (Hd k); [done|set_solver].
Qed.

Lemma relevant_count_filter (ks : list K) keys :
  relevant_count ks keys = vsize (filter (.∈ ks) (kw_key <$> keys)).
Proof.
  induction keys as [|kw keys IH]; [done|]. cbn [relevant_count foldr fmap list_fmap].
  fold (relevant_count ks keys). rewrite IH, filter_cons. unfold vsize.
  destruct (decide (kw_key kw ∈ ks)); [rewrite bool_decide_eq_true_2 by done|rewrite bool_decide_eq_false_2 by done];
    simpl; lia.
Qed.

(** With distinct keys on both sides, all the presented keys are in the
    authority exactly when as many of its keys were presented. *)
Lemma relevant_count_all (ks : list K) keys :
  NoDup ks -> NoDup (kw_key <$> keys) ->
  relevant_count ks keys = vsize ks <-> (forall k, k ∈ ks -> k ∈ (kw_key <$> keys)).
Proof.
  intros Hk Ha. rewrite relevant_count_filter. unfold vsize.
  assert (filter (.∈ ks) (kw_key <$> keys) ⊆+ ks) as Hs.
  { apply NoDup_submseteq; [by apply NoDup_filter|]. intros k [Hin _]%list_elem_of_filter. done. }
  split.
  - intros Hl k Hin. apply submseteq_length_Permutation in Hs; [|lia]. rewrite <- Hs in Hin.
    by apply list_elem_of_filter in Hin as [_ Hin].
  - intros Hall. apply submseteq_length in Hs as Hle. f_equal. apply Nat.le_antisymm; [done|].
    apply submseteq_length, NoDup_submseteq; [done|]. intros k Hin. apply list_elem_of_filter. auto.
Qed.

Lemma NoDup_incl_size (l k : list K) : NoDup l -> (forall x, x ∈ l -> x ∈ k) -> vsize l <= vsize k.
Proof. intros Hd Hi. unfold vsize. pose proof (submseteq_length _ _ (NoDup_submseteq l k Hd Hi)). lia. Qed.

(** The keys that signed a block satisfy the producer's authority. *)
Definition signed_by (a : block_signing_authority_v0 K) (ks : list K) : Prop :=
  NoDup ks /\ (forall k, k ∈ ks -> k ∈ (kw_key <$> bsa_keys a)) /\ bsa_threshold a <= presented_weight ks (bsa_keys a).

(** C32. Let the producer's signing authority be one that the chain accepts in a
    schedule: distinct keys, a threshold above 0, below 2^32 and within the sum
    of the 16-bit weights. A block's signatures are accepted exactly when each of
    them gives a key and those keys are distinct, all belong to the authority, and
    have weights that reach its threshold. Otherwise the block is rejected, with
    [wrong_signing_key], or with the exception that recovering the key of one of
    the signatures throws; so with [wrong_signing_key] when every signature gives
    a key. *)
Theorem verify_signee_correct (sig : PSIG) (id : sha256) (additional : list PSIG) (a : block_signing_authority_v0 K) :
  authority_ok a -> bsa_threshold a < 2 ^ 32 -> weights_u16 (bsa_keys a) ->
  let accepted := exists ks, recovered id (sig :: additional) ks /\ signed_by a ks in
  (accepted /\ verify_signee sig id additional (authority_v0 a) = Ok tt) \/
  (~ accepted /\ verify_signee sig id additional (authority_v0 a) = Err wrong_signing_key) \/
  (~ accepted /\ exists s e, s ∈ sig :: additional /\ recover s id = Err e /\
     verify_signee sig id additional (authority_v0 a) = Err e).
Proof.
  intros [Hnd Hth] Hlt Hw accepted. unfold verify_signee. cbn [authority_keys].
  assert (forall s e, s ∈ sig :: additional -> recover s id = Err e -> ~ accepted) as Hfail.
  { intros s e Hs E (ks & Hr & _). apply list_elem_of_lookup in Hs as [i Hi].
    destruct (Forall2_lookup_l _ _ _ _ _ Hr Hi) as (k & _ & Ek). congruence. }
  destruct (Z.leb_spec (1 + vsize additional) (vsize (bsa_keys a))) as [Hle|Hgt]; cbn [EOS_ASSERT].
  2: { right; left. split; [|done]. intros (ks & Hr & Hd & Hin & _). pose proof (NoDup_incl_size _ _ Hd Hin) as Hs.
       apply Forall2_length in Hr. unfold vsize in Hs, Hgt. rewrite length_fmap in Hs. simpl in Hr. lia. }
  rewrite ret_bind. destruct (recover sig id) as [k|e] eqn:Ek.
  2: { assert (sig ∈ sig :: additional) as Hin by (apply elem_of_cons; auto).
       right; right. split; [eapply Hfail; eauto|]. exists sig, e. auto. }
  rewrite ret_bind. pose proof (collect_keys_spec [k] id additional (NoDup_singleton k)) as Hc.
  destruct (collect_keys [k] id additional) as [all|e].
  2: { destruct Hc as [[-> Hn]|(s & Hs & E)].
       - right; left. split; [|done]. intros (ks & Hr & Hd & _). inversion Hr as [|? k' ? ks' E' Hr']; subst.
         assert (k' = k) as -> by congruence. by apply (Hn ks').
       - assert (s ∈ sig :: additional) as Hin by (apply elem_of_cons; auto).
         right; right. split; [eapply Hfail; eauto|]. exists s, e. auto. }
  destruct Hc as (ks & Hr & -> & Hd). change ([k] ++ ks) with (k :: ks) in *. rewrite ret_bind.
  assert (recovered id (sig :: additional) (k :: ks)) as Hall by by constructor.
  assert (accepted <-> signed_by a (k :: ks)) as ->.
  { split; [|by exists (k :: ks)]. intros (ks' & Hr' & Hs). by rewrite (recovered_unique _ _ _ _ Hall Hr'). }
  rewrite keys_satisfy_correct by (done || lia). pose proof (relevant_count_all (k :: ks) (bsa_keys a) Hd Hnd) as Hrc.
  destruct (Z.eqb_spec (relevant_count (k :: ks) (bsa_keys a)) (vsize (k :: ks))) as [Hc|Hc]; cbn [EOS_ASSERT].
  2: { right; left. split; [|done]. intros (_ & Hin & _). by apply Hc, Hrc. }
  rewrite ret_bind. destruct (Z.leb_spec (bsa_threshold a) (presented_weight (k :: ks) (bsa_keys a))) as [Hp|Hp].
  - left. split; [|done]. split_and!; [done|by apply Hrc|done].
  - right; left. split; [|done]. intros (_ & _ & ?). lia.
Qed.

End BlockState.

(** With libfc's recovery over the toy curve: two good signatures of an authority
    of three keys, and a third signature that gives no key. *)
Definition toy_block_authority : block_signing_authority_v0 (public_key unit) :=
  let key b := match toy_public_key_of (toy_signature b) sha256_zero with Ok k => k | Err _ => ecc_public_key [b] end in
  {| bsa_threshold := 5;
     bsa_keys := [{| kw_key := key 1; kw_weight := 4 |}; {| kw_key := key 2; kw_weight := 2 |};
                  {| kw_key := key 3; kw_weight := 3 |}] |}.

Lemma verify_signee_correct_witness :
  verify_signee toy_public_key_of (toy_signature 2) sha256_zero [toy_signature 3] (authority_v0 toy_block_authority) = Ok tt /\
  verify_signee toy_public_key_of (toy_signature 2) sha256_zero [toy_signature 9] (authority_v0 toy_block_authority)
    = Err fc_assert_exception.
Proof.
  assert (authority_ok toy_block_authority) as Ha.
  { split; [apply (bool_decide_unpack _); vm_compute; reflexivity|vm_compute; split; congruence]. }
  assert (bsa_threshold toy_block_authority < 2 ^ 32) as Ht by (vm_compute; reflexivity).
  assert (weights_u16 (bsa_keys toy_block_authority)) as Hw by (repeat constructor; vm_compute; congruence).
  split.
  - destruct (verify_signee_correct toy_public_key_of (toy_signature 2) sha256_zero [toy_signature 3] toy_block_authority Ha Ht Hw)
      as [[_ E]|[[_ E]|(_ & s & e & Hs & E & _)]]; [exact E|vm_compute in E; discriminate E|exfalso].
    apply elem_of_cons in Hs as [-> | ->%list_elem_of_singleton]; vm_compute in E; discriminate E.
  - destruct (verify_signee_correct toy_public_key_of (toy_signature 2) sha256_zero [toy_signature 9] toy_block_authority Ha Ht Hw)
      as [[_ E]|[[_ E]|(_ & s & e & Hs & Er & E)]]; [vm_compute in E; discriminate E|vm_compute in E; discriminate E|].
    rewrite E. apply elem_of_cons in Hs as [-> | ->%list_elem_of_singleton]; vm_compute in Er; [discriminate Er|].
    by injection Er as <-.
Defined.
