(* ===== verification/SignedBlock.v ===== *)
(** Signed blocks and their extensions (chain/include/eosio/chain/block.hpp,
    chain/block.cpp): the additional signatures of a producer and the quorum
    certificate that a block carries, their format on the wire with the bitsets
    of libfc/include/fc/io/raw.hpp, and the block that a producer builds and
    signs (chain/block_state.cpp).

    The transactions of a block are values of the parameter type [TRX], and the
    formats of signatures are those of the crypto library (class [Packable]). *)
From Stdlib Require Import ZArith Lia ZifyBool.
From stdpp Require Import base tactics numbers list sets.
From S2P Require Import Prelude Digest Raw Merkle FinalityCore OrderedDiff FinalizerPolicy ProducerSchedule Qc.
From S2P Require Import AggregatingQc BlockHeader BlockHeaderState PolicyTransitions BlockState.
#[local] Open Scope Z_scope.

(** ** Bitsets *)

(** [fc::dynamic_bitset], with blocks of eight bits; [bits] from the lowest. *)
Record dynamic_bitset : Type := Bitset { bits : list bool }.

Definition word_size : Z := 8.

Definition bits_value (l : list bool) : Z := foldr (fun b v => Z_of_bool b + 2 * v) 0 l.

(** [boost::to_block_range]. *)
Fixpoint to_block_range (num_blocks : nat) (l : list bool) : list Z :=
  match num_blocks with
  | O => []
  | S num_blocks => bits_value (take 8 l) :: to_block_range num_blocks (drop 8 l)
  end.

(** The bits of a range of blocks. *)
Definition of_block_range (blocks : list Z) : list bool :=
  blocks ≫= (fun b => Z.testbit b <$> seqZ 0 8).

(** [resize]: cuts, or appends false bits. *)
Definition resize_bits (size : nat) (l : list bool) : list bool :=
  take size l ++ replicate (size - length l) false.

Definition num_blocks (size : Z) : Z := (size + word_size - 1) / word_size.

Definition pack_bitset (value : dynamic_bitset) : result (list Z) :=
  let n := num_blocks (vsize (bits value)) in
  EOS_ASSERT (n <=? MAX_NUM_ARRAY_ELEMENTS) fc_assert_exception;;
  h ← pack_unsigned_int (u32 (vsize (bits value)));
  t ← pack_elements (UInt (n := 1) <$> to_block_range (Z.to_nat n) (bits value));
  mret (h ++ t).

Definition unpack_bitset (s : list Z) : result (dynamic_bitset * list Z) :=
  '(size, s) ← unpack_unsigned_int s;
  let n := num_blocks size in
  EOS_ASSERT (n <=? MAX_NUM_ARRAY_ELEMENTS) fc_assert_exception;;
  '(blocks, s) ← unpack_elements (A := uint 1) (Z.to_nat n) s;
  mret (Bitset (resize_bits (Z.to_nat size) (of_block_range (uint_value <$> blocks))), s).

#[global] Instance Packable_bitset : Packable dynamic_bitset := {
  pack := pack_bitset; unpack := unpack_bitset; fits _ := True }.

Lemma bits_value_range l : 0 <= bits_value l < 2 ^ vsize l.
Proof.
  induction l as [|b l IH]; [done|]. unfold vsize in *. cbn [bits_value foldr length]. fold (bits_value l).
  rewrite Nat2Z.inj_succ, Z.pow_succ_r by lia. destruct b; simpl; lia.
Qed.

Lemma bits_value_testbit l i : 0 <= i -> Z.testbit (bits_value l) i = default false (l !! Z.to_nat i).
Proof.
  revert i; induction l as [|b l IH]; intros i Hi; [by rewrite Z.testbit_0_l|].
  cbn [bits_value foldr]. fold (bits_value l). destruct (decide (i = 0)) as [->|Hne].
  - rewrite Z.add_comm. destruct b; [by rewrite Z.testbit_odd_0|]. rewrite Z.add_0_r. by rewrite Z.testbit_even_0.
  - replace i with (Z.succ (i - 1)) at 1 by lia. replace (Z.to_nat i) with (S (Z.to_nat (i - 1))) by lia.
    cbn [lookup list_lookup]. rewrite <- IH by lia. rewrite Z.add_comm.
    destruct b; [by rewrite Z.testbit_odd_succ by lia|]. rewrite Z.add_0_r. by rewrite Z.testbit_even_succ by lia.
Qed.

(** One block gives its bits back, with false bits after them. *)
Lemma block_bits l :
  (length l <= 8)%nat -> (Z.testbit (bits_value l) <$> seqZ 0 8) = l ++ replicate (8 - length l) false.
Proof.
  intros Hl. apply list_eq. intros i. destruct (decide (i < 8)%nat) as [Hi|Hi].
  - rewrite list_lookup_fmap, lookup_seqZ_lt by lia. cbn [fmap option_fmap option_map].
    rewrite bits_value_testbit by lia. rewrite Z.add_0_l, Nat2Z.id.
    destruct (decide (i < length l)%nat) as [H|H].
    + rewrite lookup_app_l by done. by destruct (lookup_lt_is_Some_2 l i H) as [x ->].
    + rewrite lookup_app_r, lookup_replicate_2 by lia. by rewrite (proj2 (lookup_ge_None l i)) by lia.
  - rewrite !(proj2 (lookup_ge_None _ i)); [done| |].
    + rewrite length_app, length_replicate. lia.
    + rewrite length_fmap, length_seqZ. lia.
Qed.

Lemma block_range_bits n l :
  (length l <= 8 * n)%nat -> of_block_range (to_block_range n l) = l ++ replicate (8 * n - length l) false.
Proof.
  revert l; induction n as [|n IH]; intros l Hl; [destruct l; [done|simpl in Hl; lia]|].
  cbn [to_block_range of_block_range mbind list_bind]. fold (of_block_range (to_block_range n (drop 8 l))).
  rewrite block_bits, IH by (rewrite ?length_take, ?length_drop; lia).
  rewrite length_take, length_drop. destruct (decide (length l <= 8)%nat).
  - rewrite take_ge, (drop_ge l) by lia. cbn [app]. rewrite <- app_assoc, <- replicate_add. do 2 f_equal. lia.
  - replace (8 - (8 `min` length l))%nat with 0%nat by lia. cbn [replicate]. rewrite app_nil_r, app_assoc, take_drop.
    do 2 f_equal. lia.
Qed.

Lemma to_block_range_bytes n l : Forall (fun b => 0 <= b < 256) (to_block_range n l).
Proof.
  revert l; induction n as [|n IH]; intros l; [constructor|]. constructor; [|apply IH].
  pose proof (bits_value_range (take 8 l)) as Hr. assert (2 ^ vsize (take 8 l) <= 2 ^ 8); [|lia].
  apply Z.pow_le_mono_r; [lia|]. unfold vsize. rewrite length_take. lia.
Qed.

Lemma num_blocks_bound size : 0 <= size -> size <= 8 * num_blocks size /\ 0 <= num_blocks size.
Proof. unfold num_blocks, word_size. intros. Z.to_euclidean_division_equations. lia. Qed.

Lemma length_to_block_range n l : length (to_block_range n l) = n.
Proof. revert l; induction n as [|n IH]; intros l; simpl; [done|by rewrite IH]. Qed.

#[global] Instance PackLaws_bitset : PackLaws dynamic_bitset.
Proof.
  intros [l] bs rest _ Hp. cbn [pack unpack Packable_bitset bits] in *. unfold pack_bitset, unpack_bitset in *.
  cbn [bits] in *. apply bind_Ok in Hp as (_ & Hn%EOS_ASSERT_Ok & Hp). apply bind_Ok in Hp as (h & Eh & Hp).
  apply bind_Ok in Hp as (t & Et & Hp). apply Ok_inj in Hp as <-.
  assert (0 <= vsize l) as H0 by (unfold vsize; lia). pose proof (num_blocks_bound _ H0) as [Hb Hb'].
  unfold MAX_NUM_ARRAY_ELEMENTS in *. rewrite u32_small in Eh by lia.
  rewrite <- app_assoc, (unpack_pack_unsigned_int (vsize l)) by (done || (unfold is_u32; lia)).
  cbn [mbind result_bind]. rewrite EOS_ASSERT_true by done. cbn [mbind result_bind].
  set (n := Z.to_nat (num_blocks (vsize l))) in *.
  pose proof (unpack_pack_elements (UInt (n := 1) <$> to_block_range n l) t rest) as Eu.
  rewrite length_fmap, length_to_block_range in Eu. rewrite Eu; [|clear Eu|done].
  - rewrite ret_bind, <- list_fmap_compose. unfold compose. cbn [uint_value]. rewrite list_fmap_id.
    unfold mret, result_ret. do 3 f_equal. unfold vsize in *. rewrite Nat2Z.id, block_range_bits by lia.
    unfold resize_bits. rewrite take_app_length, length_app.
    replace (length l - _)%nat with 0%nat by lia. apply app_nil_r.
  - apply Forall_fmap. eapply Forall_impl; [apply to_block_range_bytes|]. intros b Hb1. exact Hb1.
Qed.

(** ** Blocks *)

Section SignedBlock.
Context {PK K SIG APK PSIG TRX : Type} `{EqDecision PK} `{EqDecision K} `{EqDecision PSIG}.
Context `{Packable PK} `{Packable K} `{Packable SIG} `{Packable PSIG} `{Bls PK SIG APK}.
Variable sha : list Z -> sha256.
Variable recover : PSIG -> sha256 -> result K.
Abbreviation qc_t := (qc_t SIG).
Abbreviation qc_sig_t := (qc_sig_t SIG).
Abbreviation block_header_state := (block_header_state PK K).

#[global] Instance Packable_qc_sig : Packable qc_sig_t := Packable_struct
  (fun q => (Bitset <$> qs_strong_votes q, (Bitset <$> qs_weak_votes q, qs_sig q)))
  (fun '(s, (w, g)) => {| qs_strong_votes := bits <$> s; qs_weak_votes := bits <$> w; qs_sig := g |}).
#[global] Instance Packable_qc : Packable qc_t := Packable_struct
  (fun q => (UInt (n := 4) (qc_block_num q), (qc_active_policy_sig q, qc_pending_policy_sig q)))
  (fun '(n, (a, p)) => {| qc_block_num := uint_value n; qc_active_policy_sig := a; qc_pending_policy_sig := p |}).

Record signed_block_header : Type := SignedHeader {
  sh_header : block_header K;
  sh_producer_signature : PSIG
}.

Record signed_block : Type := SignedBlock {
  sb_header : signed_block_header;
  sb_transactions : list TRX;
  sb_block_extensions : extensions_type
}.

(** [block_extension], the variant of the two extension types. *)
Inductive block_extension : Type :=
| additional_block_signatures_extension (signatures : list PSIG)
| quorum_certificate_extension (qc : qc_t).

Definition additional_sigs_eid : Z := 2.
Definition quorum_certificate_extension_id : Z := 3.

Fixpoint check_unique_sigs (unique_sigs l : list PSIG) : result unit :=
  match l with
  | [] => mret tt
  | s :: l =>
      EOS_ASSERT (bool_decide (s ∉ unique_sigs)) ill_formed_additional_block_signatures_extension;;
      check_unique_sigs (unique_sigs ++ [s]) l
  end.

(** [additional_block_signatures_extension::reflector_init]. *)
Definition abs_reflector_init (signatures : list PSIG) : result unit :=
  EOS_ASSERT (0 <? vsize signatures) ill_formed_additional_block_signatures_extension;;
  check_unique_sigs [] signatures.

(** [decompose_t::extract] for the extensions of blocks. *)
Definition decompose_block_extension (id : Z) (data : blob) : result (option (block_extension * bool)) :=
  if id =? additional_sigs_eid then
    '(v, _) ← unpack (A := list PSIG) (blob_bytes data);
    abs_reflector_init v;;
    mret (Some (additional_block_signatures_extension v, true))
  else if id =? quorum_certificate_extension_id then
    '(v, _) ← unpack (A := qc_t) (blob_bytes data);
    mret (Some (quorum_certificate_extension v, true))
  else mret None.

Fixpoint validate_block_extensions (first : bool) (id_type_lower_bound : Z) (exts : extensions_type)
    (results : list (Z * block_extension)) : result (list (Z * block_extension)) :=
  match exts with
  | [] => mret results
  | (id, data) :: exts =>
      EOS_ASSERT (id_type_lower_bound <=? id) invalid_block_extension;;
      match_ ← decompose_block_extension id data;
      match match_ with
      | None => Err invalid_block_extension
      | Some (ext, enforce_unique) =>
          EOS_ASSERT (negb enforce_unique || (first || (id_type_lower_bound <? id))) invalid_block_header_extension;;
          validate_block_extensions false id exts (emplace_extension results id ext)
      end
  end.

Definition validate_and_extract_extensions (b : signed_block) : result (list (Z * block_extension)) :=
  validate_block_extensions true 0 (sb_block_extensions b) [].

Fixpoint extract_block_extension_loop (extension_id : Z) (exts : extensions_type) : result (option block_extension) :=
  match exts with
  | [] => mret None
  | (id, data) :: exts =>
      if extension_id <? id then mret None
      else if negb (id =? extension_id) then extract_block_extension_loop extension_id exts
      else
        match_ ← decompose_block_extension id data;
        match match_ with
        | None => Err invalid_block_extension
        | Some (ext, _) => mret (Some ext)
        end
  end.

(** [signed_block::extract_extension]. *)
Definition extract_block_extension (b : signed_block) (extension_id : Z) : result (option block_extension) :=
  c_assert (exts_sorted (sb_block_extensions b));;
  extract_block_extension_loop extension_id (sb_block_extensions b).

Definition contains_extension (b : signed_block) (extension_id : Z) : bool :=
  existsb (fun p => p.1 =? extension_id) (sb_block_extensions b).

Definition extract_additional_signatures (b : signed_block) : result (list PSIG) :=
  exts ← validate_and_extract_extensions b;
  match find_ext exts additional_sigs_eid with
  | Some (additional_block_signatures_extension l) => mret l
  | Some _ => Err undefined_behavior
  | None => mret []
  end.

(** [detail::verify_block_sig], on the block itself. *)
Definition verify_signed_block (prev : block_header_state) (b : signed_block) (skip_validate_signee : bool) : result unit :=
  if skip_validate_signee then mret tt
  else
    sigs ← extract_additional_signatures b;
    verify_block_sig sha recover prev (sh_header (sb_header b)) (sh_producer_signature (sb_header b)) sigs false.

(** [detail::inject_additional_signatures] of block_state.cpp. *)
Definition inject_signatures (exts : extensions_type) (additional_signatures : list PSIG) : result extensions_type :=
  if negb (is_empty additional_signatures) then
    bytes ← pack additional_signatures; mret (emplace_extension exts additional_sigs_eid (Blob bytes))
  else mret exts.

(** The body of the constructor of [block_state] for a block that was just
    produced: the block with its certificate, signed. *)
Definition build_signed_block (bhs : block_header_state) (trx_receipts : list TRX) (qc : option qc_t)
    (signer : sha256 -> list PSIG) (valid_block_signing_authority : block_signing_authority K) : result signed_block :=
  exts ← (match qc with
          | Some qc => bytes ← pack qc; mret (emplace_extension [] quorum_certificate_extension_id (Blob bytes))
          | None => mret []
          end);
  '(producer_signature, additional) ← sign recover (block_id bhs) (signer (block_id bhs)) valid_block_signing_authority;
  exts ← inject_signatures exts additional;
  mret (SignedBlock (SignedHeader (header bhs) producer_signature) trx_receipts exts).

(** ** What was put in comes out *)

Context `{!PackLaws SIG} `{!PackLaws PSIG}.

#[global] Instance PackLaws_qc_sig : PackLaws qc_sig_t.
Proof. apply PackLaws_struct. by intros [[] [] ?]. Qed.
#[global] Instance PackLaws_qc : PackLaws qc_t.
Proof. apply PackLaws_struct. by intros []. Qed.

Lemma unique_sigs_ok s l : NoDup (s ++ l) -> check_unique_sigs s l = Ok tt.
Proof.
  revert s; induction l as [|x l IH]; intros s Hd; [done|]. cbn [check_unique_sigs].
  rewrite EOS_ASSERT_true, ret_bind.
  - apply IH. by rewrite <- app_assoc.
  - apply bool_decide_eq_true. intros Hin. apply NoDup_app in Hd as (_ & Hd & _). apply (Hd x Hin). constructor.
Qed.

Lemma decompose_sigs l bytes :
  l <> [] -> NoDup l -> Forall fits l -> pack l = Ok bytes ->
  decompose_block_extension additional_sigs_eid (Blob bytes) = Ok (Some (additional_block_signatures_extension l, true)).
Proof.
  intros Hne Hd Hf Hp. unfold decompose_block_extension. cbn [Z.eqb additional_sigs_eid Pos.eqb blob_bytes].
  pose proof (unpack_pack l bytes [] Hf Hp) as E. rewrite app_nil_r in E. rewrite E, ret_bind.
  unfold abs_reflector_init. rewrite EOS_ASSERT_true, ret_bind by (destruct l; [done|unfold vsize; simpl; lia]).
  by rewrite unique_sigs_ok.
Qed.

Lemma decompose_qc (q : qc_t) bytes :
  fits q -> pack q = Ok bytes ->
  decompose_block_extension quorum_certificate_extension_id (Blob bytes) = Ok (Some (quorum_certificate_extension q, true)).
Proof.
  intros Hf Hp. unfold decompose_block_extension.
  cbn [Z.eqb additional_sigs_eid quorum_certificate_extension_id Pos.eqb blob_bytes].
  pose proof (unpack_pack q bytes [] Hf Hp) as E. rewrite app_nil_r in E. by rewrite E.
Qed.

(** Distinct keys were recovered, so the signatures are distinct. *)
Lemma verified_signatures_distinct sig id additional a :
  verify_signee recover sig id additional a = Ok tt -> NoDup additional.
Proof.
  intros Hv. unfold verify_signee in Hv. apply bind_Ok in Hv as (_ & _ & Hv). apply bind_Ok in Hv as (k & _ & Hv).
  apply bind_Ok in Hv as (keys & Ek & _). pose proof (collect_keys_spec recover [k] id additional (NoDup_singleton k)) as Hc.
  rewrite Ek in Hc. destruct Hc as (ks & Hr & _ & (_ & _ & Hd)%NoDup_app). clear Ek.
  revert Hd. induction Hr as [|s k' sigs ks' E Hr IH]; intros Hd; [constructor|].
  apply NoDup_cons in Hd as [Hn Hd]. constructor; [|auto]. intros Hin. apply Hn.
  apply list_elem_of_lookup in Hin as [i Hi]. destruct (Forall2_lookup_l _ _ _ _ _ Hr Hi) as (k2 & Hk & E2).
  assert (k' = k2) as -> by congruence. by eapply list_elem_of_lookup_2.
Qed.

(** The two extensions, however many of them are there. *)
Lemma produced_extensions (qc : option qc_t) (l : list PSIG) exts0 exts b :
  (forall q, qc = Some q -> fits q) -> Forall fits l -> NoDup l ->
  (match qc with
   | Some qc => bytes ← pack qc; mret (emplace_extension [] quorum_certificate_extension_id (Blob bytes))
   | None => mret []
   end) = Ok exts0 ->
  inject_signatures exts0 l = Ok exts -> sb_block_extensions b = exts ->
  extract_additional_signatures b = Ok l /\
  extract_block_extension b quorum_certificate_extension_id = Ok (quorum_certificate_extension <$> qc) /\
  contains_extension b quorum_certificate_extension_id = (match qc with Some _ => true | None => false end).
Proof.
  intros Hq Hl Hd E0 E1 Hb. unfold extract_additional_signatures, validate_and_extract_extensions,
    extract_block_extension, contains_extension. rewrite Hb. unfold inject_signatures in E1.
  destruct qc as [q|].
  - apply bind_Ok in E0 as (qb & Eq & E0). apply Ok_inj in E0 as <-. pose proof (decompose_qc q qb (Hq q eq_refl) Eq) as Dq.
    destruct l as [|s l]; cbn [is_empty negb] in E1.
    + apply Ok_inj in E1 as <-. cbn [emplace_extension validate_block_extensions extract_block_extension_loop].
      rewrite Dq. done.
    + apply bind_Ok in E1 as (sb & Es & E1). apply Ok_inj in E1 as <-.
      pose proof (decompose_sigs (s :: l) sb ltac:(done) Hd Hl Es) as Ds.
      change (emplace_extension _ additional_sigs_eid (Blob sb)) with
        [(additional_sigs_eid, Blob sb); (quorum_certificate_extension_id, Blob qb)].
      cbn [validate_block_extensions extract_block_extension_loop]. rewrite Ds, Dq. done.
  - apply Ok_inj in E0 as <-. destruct l as [|s l]; cbn [is_empty negb] in E1.
    + by apply Ok_inj in E1 as <-.
    + apply bind_Ok in E1 as (sb & Es & E1). apply Ok_inj in E1 as <-.
      pose proof (decompose_sigs (s :: l) sb ltac:(done) Hd Hl Es) as Ds.
      cbn [emplace_extension validate_block_extensions extract_block_extension_loop]. rewrite Ds. done.
Qed.

(** C26. A produced block is accepted and says what the producer put in: the
    block that the constructor of [block_state] builds and signs for the
    scheduled producer passes the check of its signatures at every node, its
    additional signatures are read back from the bytes of its extensions, and
    so is its quorum certificate, present exactly when one was given. *)
Theorem produced_block_accepted (prev bhs : block_header_state) (trxs : list TRX) (qc : option qc_t)
    (signer : sha256 -> list PSIG) (p : producer_authority K) (b : signed_block) :
  get_producer_for_block_at prev (hdr_timestamp (header bhs)) = Ok p ->
  calculate_id sha (header bhs) = Ok (block_id bhs) ->
  (forall q, qc = Some q -> fits q) -> (forall d, Forall fits (signer d)) ->
  build_signed_block bhs trxs qc signer (pa_authority p) = Ok b ->
  verify_signed_block prev b false = Ok tt /\ sb_transactions b = trxs /\ sh_header (sb_header b) = header bhs /\
  (exists additional, extract_additional_signatures b = Ok additional /\
     signer (block_id bhs) = additional ++ [sh_producer_signature (sb_header b)]) /\
  extract_block_extension b quorum_certificate_extension_id = Ok (quorum_certificate_extension <$> qc) /\
  contains_extension b quorum_certificate_extension_id = (match qc with Some _ => true | None => false end).
Proof.
  intros Ep Eid Hq Hs Hb. unfold build_signed_block in Hb. apply bind_Ok in Hb as (exts0 & E0 & Hb).
  apply bind_Ok in Hb as ([sig additional] & Es & Hb). apply bind_Ok in Hb as (exts & E1 & Hb). apply Ok_inj in Hb as <-.
  unfold sign in Es. apply bind_Ok in Es as (_ & _ & Es). apply bind_Ok in Es as (sig' & Ek & Es).
  apply bind_Ok in Es as ([] & Ev & Es). apply Ok_inj in Es as [= -> <-]. apply back_last in Ek.
  apply last_Some in Ek as [l El]. specialize (Hs (block_id bhs)). rewrite El, removelast_last in *.
  apply Forall_app in Hs as [Hs _].
  edestruct (produced_extensions qc l exts0 exts) as (X1 & X2 & X3);
    [exact Hq|exact Hs|by eapply verified_signatures_distinct|exact E0|exact E1| |].
  { instantiate (1 := SignedBlock (SignedHeader (header bhs) sig) trxs exts). done. }
  split_and!; [|done|done| |exact X2|exact X3].
  - unfold verify_signed_block. rewrite X1, ret_bind. unfold verify_block_sig.
    cbn [sb_header sh_header sh_producer_signature]. by rewrite Ep, ret_bind, Eid, ret_bind, Ev.
  - exists l. split; [exact X1|done].
Qed.
End SignedBlock.

Arguments signed_block_header K PSIG : clear implicits.
Arguments signed_block K PSIG TRX : clear implicits.

(** ** A concrete block *)

(** A producer whose blocks need two signatures. *)
Definition two_key_producer : producer_authority (uint 8) := {|
  pa_producer_name := 5;
  pa_authority := authority_v0 {| bsa_threshold := 2;
    bsa_keys := [{| kw_key := UInt 31; kw_weight := 1 |}; {| kw_key := UInt 32; kw_weight := 1 |}] |} |}.

Definition two_key_state (id : sha256) (h : block_header (uint 8)) : block_header_state (uint 8) (uint 8) := {|
  block_id := id; header := h; activated_protocol_features := [];
  core := create_core_for_genesis_block toy_id 100; active_finalizer_policy := toy_finalizers 1;
  active_proposer_policy := Ptr 1 {| pp_proposal_time := 0;
    pp_proposer_schedule := {| sched_version := 1; sched_producers := [two_key_producer] |} |};
  latest_proposed_proposer_policy := None; latest_pending_proposer_policy := None;
  proposed_finalizer_policies := []; pending_finalizer_policy := None;
  latest_qc_claim_block_active_finalizer_policy := None; finalizer_policy_generation := 1;
  last_pending_finalizer_policy_digest := sha256_zero; last_pending_finalizer_policy_start_timestamp := 100;
  header_exts := [] |}.

Definition sample_qc : qc_t (uint 8) := {|
  qc_block_num := 1;
  qc_active_policy_sig := {| qs_strong_votes := Some [true; false; true; true; false; false; true; false; true; true];
                             qs_weak_votes := None; qs_sig := UInt 9 |};
  qc_pending_policy_sig := None |}.

Lemma produced_block_accepted_witness :
  let h := toy_header toy_id 101 [] in
  let recover := fun (s : uint 8) (_ : sha256) => Ok s in
  exists id b, calculate_id toy_sha h = Ok id /\
    build_signed_block (TRX := Z) recover (two_key_state id h) [7] (Some sample_qc) (fun _ => [UInt 32; UInt 31])
      (pa_authority two_key_producer) = Ok b /\
    verify_signed_block (SIG := uint 8) toy_sha recover (two_key_state toy_id (toy_header sha256_zero 100 [])) b false = Ok tt /\
    vsize (sb_block_extensions b) = 2.
Proof.
  cbv zeta. set (h := toy_header toy_id 101 []).
  assert (is_Ok (calculate_id toy_sha h) = true) as Hid by (vm_compute; reflexivity).
  destruct (calculate_id toy_sha h) as [id|] eqn:Eid; [|discriminate Hid].
  assert (match build_signed_block (TRX := Z) (fun (s : uint 8) (_ : sha256) => Ok s) (two_key_state id h) [7] (Some sample_qc)
            (fun _ => [UInt 32; UInt 31]) (pa_authority two_key_producer) with
          | Ok b => vsize (sb_block_extensions b) =? 2 | Err _ => false end = true) as Hb by (vm_compute; reflexivity).
  destruct (build_signed_block _ (two_key_state id h) _ _ _ _) as [b|] eqn:Eb; [|discriminate Hb].
  exists id, b. split; [done|]. split; [done|]. split; [|by apply Z.eqb_eq].
  assert (get_producer_for_block_at (two_key_state toy_id (toy_header sha256_zero 100 []))
            (hdr_timestamp (header (two_key_state id h))) = Ok two_key_producer) as Ep by (vm_compute; reflexivity).
  apply (produced_block_accepted toy_sha (fun (s : uint 8) (_ : sha256) => Ok s)
    (two_key_state toy_id (toy_header sha256_zero 100 [])) (two_key_state id h) [7] (Some sample_qc)
    (fun _ => [UInt 32; UInt 31]) two_key_producer b Ep Eid); [| |exact Eb].
  - intros q [= <-]. vm_compute. repeat split; congruence.
  - intros _. repeat constructor; vm_compute; congruence.
Defined.
