(* ===== verification/ValidationTree.v ===== *)
(** The validation tree of executed blocks (valid_t, [new_valid],
    [get_validation_mroot] and [get_finality_mroot_claim] of
    chain/block_state.cpp): along every chain of executed blocks the stored roots
    are those of the Merkle trees over the finality leaves of the blocks, from
    the Savanna genesis block on. *)
From Stdlib Require Import ZArith Lia ZifyBool.
From stdpp Require Import base tactics numbers list.
From S2P Require Import Prelude Digest Raw Merkle FinalityCore FinalizerPolicy ProducerSchedule Qc AggregatingQc.
From S2P Require Import BlockHeader BlockHeaderState PolicyTransitions BlockState.
#[local] Open Scope Z_scope.

Section ValidationTree.
Context {PK K SIG : Type} `{Packable PK} `{Packable K}.
Variable sha : list Z -> sha256.
Abbreviation block_state := (block_state (PK := PK) (K := K) (SIG := SIG)).

(** [executed g s ls]: the block [s] was executed, on a chain of executed blocks
    since the genesis block number [g]; [ls] are the digests of their finality
    leaves. *)
Inductive executed (g : Z) : block_state -> list sha256 -> Prop :=
| executed_genesis s v action_mroot leaf :
    genesis_state (bhs s) -> g = bhs_block_num (bhs s) -> 0 < g ->
    leaf_digest sha g (bhs_timestamp (bhs s)) 0 (strong_digest s) action_mroot = Ok leaf ->
    genesis_valid sha g (bhs_timestamp (bhs s)) (strong_digest s) action_mroot = Ok v ->
    valid s = Some v -> executed g s [leaf]
| executed_next s ls h exts pfa f_ext fresh parent s' v action_mroot leaf :
    executed g s ls -> bhs_make_block_ref sha (bhs s) = Ok parent ->
    next_pre (core (bhs s)) parent (fx_qc_claim f_ext) -> hdr_previous h = block_id (bhs s) ->
    finish_next sha (bhs s) h exts pfa f_ext fresh = Ok (bhs s') ->
    leaf_digest sha (bhs_block_num (bhs s')) (bhs_timestamp (bhs s')) (bhs_timestamp (bhs s))
      (strong_digest s') action_mroot = Ok leaf ->
    new_valid sha s (bhs s') action_mroot (strong_digest s') = Ok v ->
    valid s' = Some v -> executed g s' (ls ++ [leaf]).

Lemma executed_chain g s ls : executed g s ls -> bhs_chain sha (bhs s).
Proof. induction 1; [by apply chain_genesis|by eapply chain_next]. Qed.

Lemma leaf_digest_Ok n t t' d m : exists l, leaf_digest sha n t t' d m = Ok l.
Proof. eexists. reflexivity. Qed.

Definition merkle_depth : nat := 64.

(** The roots are those of the trees up to each block from the last final one
    on; and only the genesis link of a core has its own block as target. *)
Record valid_inv (g : Z) (s : block_state) (ls : list sha256) (v : valid_t) (lib : Z) : Prop := {
  vi_valid : valid s = Some v;
  vi_tree : represents sha merkle_depth (validation_tree v) ls;
  vi_size : vsize ls = bhs_block_num (bhs s) - g + 1;
  vi_lib : last_final_block_num (core (bhs s)) = Ok lib;
  vi_lib_range : 0 < g <= lib /\ lib <= bhs_block_num (bhs s);
  vi_roots_size : vsize (validation_mroots v) = bhs_block_num (bhs s) - lib + 1;
  vi_roots : forall i r, validation_mroots v !! i = Some r ->
    calculate_merkle sha (take (Z.to_nat (lib - g + 1) + i) ls) = Ok r;
  vi_links : forall l, l ∈ links (core (bhs s)) ->
    g <= source_block_num l /\ (source_block_num l = target_block_num l <-> source_block_num l = g)
}.

Lemma bhs_block_num_range (s : block_header_state PK K) : 0 <= bhs_block_num s < 2 ^ 32.
Proof. apply u32_range. Qed.

Lemma genesis_valid_inv g s v action_mroot leaf :
  genesis_state (bhs s) -> g = bhs_block_num (bhs s) -> 0 < g ->
  leaf_digest sha g (bhs_timestamp (bhs s)) 0 (strong_digest s) action_mroot = Ok leaf ->
  genesis_valid sha g (bhs_timestamp (bhs s)) (strong_digest s) action_mroot = Ok v ->
  valid s = Some v -> valid_inv g s [leaf] v g.
Proof.
  intros Hs Hg Hpos El Hv Ev. destruct Hs as [(ts & Ec) Hn _ _ _]. pose proof (bhs_block_num_range (bhs s)).
  unfold genesis_valid in Hv. rewrite El, ret_bind in Hv.
  destruct (append_represents sha merkle_depth empty_tree [] leaf) as (t & Et & Hr);
    [done|apply represents_empty|done|]. rewrite Et, ret_bind in Hv.
  destruct (represents_root sha merkle_depth t _ eq_refl Hr) as (r & Er & Em).
  rewrite Er, ret_bind in Hv. apply Ok_inj in Hv as <-. constructor; cbn [validation_tree validation_mroots].
  - done.
  - exact Hr.
  - unfold vsize. simpl. lia.
  - rewrite Ec. pose proof (genesis_core_post (block_id (bhs s)) ts) as [_ _ _ -> _ _]. by rewrite Hn, Hg.
  - lia.
  - unfold vsize. simpl. lia.
  - intros i x [-> <-]%list_lookup_singleton_Some. by replace (Z.to_nat (g - g + 1) + 0)%nat with 1%nat by lia.
  - intros l. rewrite Ec. intros ->%list_elem_of_singleton. cbn. rewrite Hn. lia.
Qed.

(** The links of the next core are links of the core and the new claim. *)
Lemma next_links_in c b m c' l :
  core_inv c -> next_pre c b m -> next c b m = Ok c' -> l ∈ links c' ->
  l ∈ links c \/ l = {| source_block_num := ref_block_num b + 1; target_block_num := claim_block_num m;
                        is_link_strong := is_strong_qc m |}.
Proof.
  intros Hinv Hpre Hn Hl. destruct (core_inv_ends c Hinv) as (first & lst & Hfirst & Hlst).
  destruct (next_unfold c b m first lst Hinv Hfirst Hlst Hpre) as (i & x & _ & _ & _ & E).
  rewrite Hn in E. apply Ok_inj in E as ->. cbn [links] in Hl.
  pose proof (pre_current _ _ _ Hpre) as Hc. erewrite current_block_num_Ok in Hc by eauto.
  apply Ok_inj in Hc. rewrite elem_of_app, list_elem_of_singleton in Hl.
  destruct Hl as [Hl| ->]; [left|right; by rewrite <- Hc].
  apply list_elem_of_lookup in Hl as [k Hk]. rewrite lookup_drop in Hk. by eapply list_elem_of_lookup_2.
Qed.

(** What a step gives: the numbers of the next block. *)
Record step_facts (g : Z) (s s' : block_state) (lib lib' : Z) : Prop := {
  sf_num : bhs_block_num (bhs s') = bhs_block_num (bhs s) + 1;
  sf_lib : last_final_block_num (core (bhs s')) = Ok lib';
  sf_lib_range : lib <= lib' <= bhs_block_num (bhs s);
  sf_links : forall l, l ∈ links (core (bhs s')) ->
    g <= source_block_num l /\ (source_block_num l = target_block_num l <-> source_block_num l = g)
}.

Lemma step_facts_of g s ls v lib h exts pfa f_ext fresh parent s' :
  valid_inv g s ls v lib -> bhs_chain sha (bhs s) ->
  bhs_make_block_ref sha (bhs s) = Ok parent ->
  next_pre (core (bhs s)) parent (fx_qc_claim f_ext) -> hdr_previous h = block_id (bhs s) ->
  finish_next sha (bhs s) h exts pfa f_ext fresh = Ok (bhs s') -> exists lib', step_facts g s s' lib lib'.
Proof.
  intros Hi Hc Hp Hpre Hprev Hf. destruct (bhs_chain_inv sha _ Hc) as [claim Hpi].
  pose proof (finish_next_finished sha _ _ _ _ _ _ _ _ Hp Hf) as Hfin.
  pose proof (make_block_ref_own sha _ _ Hp) as (Hid & _).
  destruct (next_refs _ _ _ _ (pi_core _ _ Hpi) Hpre (fn_core _ _ _ _ _ _ Hfin)) as [Hpost _].
  assert (ref_block_num parent = bhs_block_num (bhs s)) as En
    by (unfold ref_block_num; rewrite Hid; apply (pi_id _ _ Hpi)).
  destruct (post_last_final _ _ _ _ Hpost) as (lf & lib' & Elf & Elf' & Hlf).
  rewrite (vi_lib _ _ _ _ _ Hi) in Elf. apply Ok_inj in Elf as <-.
  pose proof (pre_claim_current _ _ _ Hpre) as Hmc. pose proof (pre_no_wrap _ _ _ Hpre) as Hw.
  pose proof (bhs_block_num_range (bhs s)). pose proof (vi_lib_range _ _ _ _ _ Hi).
  exists lib'. constructor; [|done|lia|].
  - unfold bhs_block_num at 1. rewrite (fn_header _ _ _ _ _ _ Hfin), Hprev, (pi_id _ _ Hpi).
    apply u32_small. lia.
  - intros l Hl. destruct (next_links_in _ _ _ _ _ (pi_core _ _ Hpi) Hpre (fn_core _ _ _ _ _ _ Hfin) Hl) as [Hin| ->].
    + by apply (vi_links _ _ _ _ _ Hi).
    + cbn. lia.
Qed.

(** [new_valid] returns, and what it returns keeps the invariant. *)
Lemma new_valid_ok g s ls v lib s' lib' action_mroot leaf :
  valid_inv g s ls v lib -> step_facts g s s' lib lib' -> sha256_empty (strong_digest s') = false ->
  leaf_digest sha (bhs_block_num (bhs s')) (bhs_timestamp (bhs s')) (bhs_timestamp (bhs s))
    (strong_digest s') action_mroot = Ok leaf ->
  exists v', new_valid sha s (bhs s') action_mroot (strong_digest s') = Ok v' /\
    (valid s' = Some v' -> valid_inv g s' (ls ++ [leaf]) v' lib').
Proof.
  intros [Ev Ht Hsz Elib Hlr Hrs Hroots _] [En El' Hl' Hlinks] Hne El.
  pose proof (bhs_block_num_range (bhs s)). pose proof (bhs_block_num_range (bhs s')).
  unfold new_valid. rewrite Ev, El', ret_bind, Elib, ret_bind.
  step_assert. rewrite Hne. step_assert. rewrite !u32_small by lia.
  unfold trim_front. rewrite EOS_ASSERT_true, ret_bind by lia.
  destruct (append_represents sha merkle_depth (validation_tree v) ls leaf) as (t & Et & Hr); [done|done|lia|].
  destruct (represents_root sha merkle_depth t _ eq_refl Hr) as (r & Er & Em).
  change (mret ?x ≫= ?f) with (f x). cbv beta. rewrite El, ret_bind, Et, ret_bind, Er, ret_bind.
  set (kept := drop _ _). assert (vsize (kept ++ [r]) = bhs_block_num (bhs s') - lib' + 1) as Hk.
  { unfold kept, vsize in *. rewrite length_app, length_drop. simpl. lia. }
  rewrite Hk. step_assert by (by apply Z.eqb_refl).
  eexists. split; [reflexivity|]. intros Ev'. constructor; cbn [validation_tree validation_mroots]; try done.
  - unfold vsize in *. rewrite length_app. simpl. lia.
  - lia.
  - intros i x Hx. apply lookup_app_Some in Hx as [Hx|[Hi Hx]].
    + unfold kept in Hx. rewrite lookup_drop in Hx. pose proof (Hroots _ _ Hx) as Hx'.
      apply lookup_lt_Some in Hx. unfold vsize in *. rewrite take_app_le by lia.
      rewrite <- Hx'. do 2 f_equal. lia.
    + apply list_lookup_singleton_Some in Hx as [Hi0 <-]. unfold vsize in *. rewrite length_app in Hk. simpl in Hk.
      rewrite take_ge; [done|]. rewrite length_app. simpl. lia.
Qed.

Lemma executed_inv g s ls : executed g s ls -> exists v lib, valid_inv g s ls v lib.
Proof.
  induction 1 as [s v am leaf Hs Hg Hpos El Hv Ev|s ls h exts pfa f_ext fresh parent s' v am leaf He IH Hp Hpre Hprev Hf El Hv Ev].
  - exists v, g. by eapply genesis_valid_inv.
  - destruct IH as (v0 & lib & Hi). destruct (step_facts_of _ _ _ _ _ _ _ _ _ _ _ _ Hi (executed_chain _ _ _ He) Hp Hpre Hprev Hf)
      as [lib' Hsf].
    assert (sha256_empty (strong_digest s') = false) as Hne.
    { unfold new_valid in Hv. rewrite (vi_valid _ _ _ _ _ Hi) in Hv. inv_result. by apply negb_true_iff. }
    destruct (new_valid_ok _ _ _ _ _ _ _ am leaf Hi Hsf Hne El) as (v' & Hv' & Hi').
    rewrite Hv in Hv'. apply Ok_inj in Hv' as <-. exists v, lib'. auto.
Qed.

Lemma get_validation_mroot_spec g s ls v lib n :
  valid_inv g s ls v lib ->
  if (lib <=? n) && (n <=? bhs_block_num (bhs s)) then
    exists r, get_validation_mroot s n = Ok r /\ calculate_merkle sha (take (Z.to_nat (n - g + 1)) ls) = Ok r
  else get_validation_mroot s n = Err block_validate_exception.
Proof.
  intros [Ev Ht Hsz Elib Hlr Hrs Hroots _]. pose proof (bhs_block_num_range (bhs s)).
  unfold get_validation_mroot. rewrite Ev.
  rewrite EOS_ASSERT_true, ret_bind by (destruct (validation_mroots v); [exfalso; unfold vsize in Hrs; simpl in Hrs; lia|done]).
  rewrite Elib, ret_bind, Hrs.
  replace (n <? lib + (bhs_block_num (bhs s) - lib + 1)) with (n <=? bhs_block_num (bhs s)) by lia.
  destruct ((lib <=? n) && (n <=? bhs_block_num (bhs s))) eqn:E; cbn [EOS_ASSERT]; [|done]. rewrite ret_bind.
  rewrite u32_small by lia.
  destruct (lookup_lt_is_Some_2 (validation_mroots v) (Z.to_nat (n - lib))) as [r Hr]; [unfold vsize in *; lia|].
  exists r. split; [by apply at_index_lookup; [lia|]|]. rewrite <- (Hroots _ _ Hr). do 2 f_equal. lia.
Qed.

(** The root a child has to carry. *)
Lemma finality_mroot_claim_ok g s ls v lib parent m :
  valid_inv g s ls v lib -> bhs_chain sha (bhs s) ->
  bhs_make_block_ref sha (bhs s) = Ok parent -> next_pre (core (bhs s)) parent m ->
  exists r, get_finality_mroot_claim s m = Ok r /\
    if claim_block_num m =? g then r = sha256_zero
    else calculate_merkle sha (take (Z.to_nat (claim_block_num m - g + 1)) ls) = Ok r.
Proof.
  intros Hi Hc Hp Hpre. destruct (bhs_chain_inv sha _ Hc) as [claim Hpi]. pose proof (pi_core _ _ Hpi) as Hinv.
  destruct (next_metadata_agrees _ _ _ Hinv Hpre) as (c' & meta & _ & Em & _ & _ & Ecl).
  unfold get_finality_mroot_claim. rewrite Em, ret_bind, Ecl.
  destruct (core_inv_ends _ Hinv) as (first & lst & Hfirst & Hlst).
  pose proof (inv_2 _ Hinv first lst Hfirst Hlst) as H2.
  pose proof (pre_current _ _ _ Hpre) as Hcur. pose proof (pre_claim_current _ _ _ Hpre) as Hmc.
  destruct (pre_claim _ _ _ Hpre) as (latest & Elat & Hle). erewrite latest_qc_claim_Ok in Elat by eauto.
  apply Ok_inj in Elat as <-. unfold claim_leb in Hle. cbn [claim_block_num is_strong_qc] in Hle.
  pose proof (pi_current _ _ Hpi) as Hcur'. rewrite Hcur in Hcur'. apply Ok_inj in Hcur'.
  pose proof (vi_lib _ _ _ _ _ Hi) as Elib. erewrite last_final_block_num_Ok in Elib by eauto. apply Ok_inj in Elib.
  unfold is_genesis_block_num. erewrite last_final_block_num_Ok by eauto. rewrite ret_bind, Hcur, ret_bind.
  step_assert. rewrite (proj2 (front_head _ first) Hfirst), ret_bind.
  destruct (vi_links _ _ _ _ _ Hi first) as [Hg Hself]; [by apply head_Some_elem_of|].
  change (mret ?x ≫= ?f) with (f x). cbv beta.
  destruct (Z.eqb_spec (claim_block_num m) g) as [Eg|Eg].
  - replace (_ && _) with true by lia. by eexists.
  - replace (_ && _) with false by lia. pose proof (get_validation_mroot_spec _ _ _ _ _ (claim_block_num m) Hi) as Hv.
    replace (_ && _) with true in Hv by lia. exact Hv.
Qed.

(** C33. Along every chain of executed blocks, [new_valid] never fails an
    assertion for a next block (with a digest that is not zero); for every block
    number from the last final block to the block itself [get_validation_mroot]
    returns the Merkle root over the finality leaves from the genesis block to
    that block, although only an incremental tree is kept, and for every other
    number it throws [block_validate_exception]; and the finality root a child
    of the block has to carry for a claim is zero for a claim on the genesis
    block and the root of the tree up to the claimed block otherwise. *)
Theorem finality_roots_correct (g : Z) (s : block_state) (ls : list sha256) :
  executed g s ls ->
  (forall h exts pfa f_ext fresh parent (s' : block_state) action_mroot,
    bhs_make_block_ref sha (bhs s) = Ok parent -> next_pre (core (bhs s)) parent (fx_qc_claim f_ext) ->
    hdr_previous h = block_id (bhs s) -> finish_next sha (bhs s) h exts pfa f_ext fresh = Ok (bhs s') ->
    strong_digest s' <> sha256_zero ->
    exists v, new_valid sha s (bhs s') action_mroot (strong_digest s') = Ok v) /\
  (exists lib, last_final_block_num (core (bhs s)) = Ok lib /\ forall n,
    if (lib <=? n) && (n <=? bhs_block_num (bhs s)) then
      exists r, get_validation_mroot s n = Ok r /\ calculate_merkle sha (take (Z.to_nat (n - g + 1)) ls) = Ok r
    else get_validation_mroot s n = Err block_validate_exception) /\
  (forall parent m, bhs_make_block_ref sha (bhs s) = Ok parent -> next_pre (core (bhs s)) parent m ->
    exists r, get_finality_mroot_claim s m = Ok r /\
      if claim_block_num m =? g then r = sha256_zero
      else calculate_merkle sha (take (Z.to_nat (claim_block_num m - g + 1)) ls) = Ok r).
Proof.
  intros He. destruct (executed_inv _ _ _ He) as (v & lib & Hi). pose proof (executed_chain _ _ _ He) as Hc.
  split; [|split].
  - intros h exts pfa f_ext fresh parent s' am Hp Hpre Hprev Hf Hne.
    destruct (step_facts_of _ _ _ _ _ _ _ _ _ _ _ _ Hi Hc Hp Hpre Hprev Hf) as [lib' Hsf].
    destruct (leaf_digest_Ok (bhs_block_num (bhs s')) (bhs_timestamp (bhs s')) (bhs_timestamp (bhs s)) (strong_digest s') am)
      as [leaf El].
    destruct (new_valid_ok _ _ _ _ _ _ _ am leaf Hi Hsf) as (v' & Hv' & _); [|done|by exists v'].
    apply not_true_is_false. by rewrite sha256_empty_zero.
  - exists lib. split; [apply (vi_lib _ _ _ _ _ Hi)|]. intros n. by eapply get_validation_mroot_spec.
  - intros parent m Hp Hpre. by eapply finality_mroot_claim_ok.
Qed.
End ValidationTree.

(** ** A concrete chain of executed blocks *)

#[local] Instance toy_bls_uint : Bls (uint 8) Z Z := {|
  bls_verify k d s := bls_verify (uint_value k) d s; sig_zero := sig_zero;
  sig_aggregate := sig_aggregate; aggregate_public_keys ks := aggregate_public_keys (uint_value <$> ks);
  aggregate_verify := aggregate_verify |}.

Definition toy_block_state : Type := block_state (PK := uint 8) (K := uint 8) (SIG := Z).

Definition with_valid (s : toy_block_state) (v : valid_t) : toy_block_state :=
  BlockState (bhs s) (strong_digest s) (weak_digest s) (aggregating_qc s) (Some v) (validated s) (bs_action_mroot s).

Definition toy_execute_genesis : result (toy_block_state * list sha256) :=
  b ← make_block_state toy_sha toy_genesis None sha256_zero;
  leaf ← leaf_digest toy_sha 1 100 0 (strong_digest b) (toy_digest 7);
  v ← genesis_valid toy_sha 1 100 (strong_digest b) (toy_digest 7);
  mret (with_valid b v, [leaf]).

Fixpoint toy_execute (s : toy_block_state) (ls : list sha256)
    (l : list (qc_claim_t * option (finalizer_policy (uint 8)))) : result (toy_block_state * list sha256) :=
  match l with
  | [] => mret (s, ls)
  | x :: l =>
      s' ← toy_step (bhs s) x;
      b ← make_block_state toy_sha s' None sha256_zero;
      v ← new_valid toy_sha s s' (toy_digest 8) (strong_digest b);
      leaf ← leaf_digest toy_sha (bhs_block_num s') (bhs_timestamp s') (bhs_timestamp (bhs s)) (strong_digest b) (toy_digest 8);
      toy_execute (with_valid b v) (ls ++ [leaf]) l
  end.

Lemma make_block_state_bhs (s : block_header_state (uint 8) (uint 8)) v m (b : toy_block_state) :
  make_block_state toy_sha s v m = Ok b -> bhs b = s.
Proof. unfold make_block_state. intros E. inv_result. done. Qed.

Lemma toy_execute_executed s ls l s' ls' :
  executed toy_sha 1 s ls -> toy_execute s ls l = Ok (s', ls') -> executed toy_sha 1 s' ls'.
Proof.
  revert s ls; induction l as [|x l IH]; intros s ls He Hl; cbn [toy_execute] in Hl; [by apply Ok_inj in Hl as [= <- <-]|].
  apply bind_Ok in Hl as (h & Eh & Hl). apply bind_Ok in Hl as (b & Eb & Hl). apply bind_Ok in Hl as (v & Ev & Hl).
  apply bind_Ok in Hl as (leaf & El & Hl). apply (IH _ _) in Hl; [done|]. apply make_block_state_bhs in Eb as Ebh. subst h.
  unfold toy_step in Eh. apply bind_Ok in Eh as (d & _ & Eh). apply bind_Ok in Eh as (parent & Ep & Eh).
  apply bind_Ok in Eh as (_ & Hpre%EOS_ASSERT_Ok & Eh).
  eapply (executed_next toy_sha 1 s ls _ _ _ _ _ parent (with_valid b v) v);
    [exact He|exact Ep| | |exact Eh|exact El|exact Ev|done]; [by apply next_preb_pre|done].
Qed.

Lemma toy_genesis_executed s ls : toy_execute_genesis = Ok (s, ls) -> executed toy_sha 1 s ls.
Proof.
  unfold toy_execute_genesis. intros E.
  apply bind_Ok in E as (b & Eb & E). apply bind_Ok in E as (leaf & El & E).
  apply bind_Ok in E as (v & Ev & E). apply Ok_inj in E as [= <- <-]. apply make_block_state_bhs in Eb.
  assert (bhs_timestamp toy_genesis = 100) as Ht by reflexivity.
  assert (bhs_block_num toy_genesis = 1) as Hn by (vm_compute; reflexivity).
  apply (executed_genesis toy_sha 1 (with_valid b v) v (toy_digest 7)); cbn [with_valid bhs strong_digest valid];
    rewrite ?Eb, ?Ht, ?Hn; [|reflexivity|lia|exact El|exact Ev|reflexivity].
  apply toy_genesis_state.
Qed.

Lemma finality_roots_correct_witness :
  exists (s : toy_block_state) ls r, executed toy_sha 1 s ls /\ vsize ls = 6 /\
    get_validation_mroot s 5 = Ok r /\ calculate_merkle toy_sha (take 5 ls) = Ok r.
Proof.
  assert (match toy_execute_genesis ≫= (fun '(s, ls) => toy_execute s ls toy_inputs) with
          | Ok (s, ls) => (vsize ls =? 6) && (bhs_block_num (bhs s) =? 6) &&
              match last_final_block_num (core (bhs s)) with Ok lib => lib =? 4 | Err _ => false end
          | Err _ => false end = true) as Hc by (vm_compute; reflexivity).
  destruct (toy_execute_genesis ≫= _) as [[s ls]|] eqn:E; [|discriminate Hc].
  apply bind_Ok in E as ([s0 ls0] & E0 & E).
  pose proof (toy_genesis_executed _ _ E0) as He0.
  pose proof (toy_execute_executed _ _ _ _ _ He0 E) as He.
  destruct (finality_roots_correct toy_sha 1 s ls He) as (_ & (lib & Elib & Hv) & _).
  rewrite Elib in Hc. specialize (Hv 5). replace (_ && _) with true in Hv by lia.
  destruct Hv as (r & Hr & Hm). exists s, ls, r. split; [exact He|]. split; [lia|]. split; [exact Hr|]. exact Hm.
Defined.
