(* ===== verification/CoreAsset.v ===== *)
(** The core token as the chain itself reads and writes it: account names
    (name.hpp), symbols (symbol.hpp), assets (asset.hpp), and the rows of the
    token contract's [accounts] table through which gas is paid
    (contract_table_utils.hpp and contract_table_utils.cpp).  The database is
    chainbase, a submodule: the class [Table] is the part of its interface the
    code uses, [TableLaws] what its documentation promises of it. *)
From Stdlib Require Import ZArith Lia ZifyBool Ascii String.
From stdpp Require Import base tactics numbers list gmap.
From S2P Require Import Prelude Raw.
#[local] Open Scope Z_scope.

(** ** chainbase tables *)

(** A table with a unique index of keys [K] over rows [R]: [find] by key,
    [modify] of the row with a key, [create] of a new row. *)
Class Table (T K R : Type) : Type := {
  find_row : K -> T -> option R;
  modify_row : K -> R -> T -> T;
  create_row : K -> R -> T -> result T
}.

(** [modify] changes that row and no other; [create] adds that row and no
    other, and throws when the key is taken. *)
Class TableLaws (T K R : Type) `{Table T K R} : Prop := {
  find_modify_eq : forall k r r0 t, find_row k t = Some r0 -> find_row k (modify_row k r t) = Some r;
  find_modify_ne : forall k k' r t, k <> k' -> find_row k' (modify_row k r t) = find_row k' t;
  create_fresh : forall k r t, find_row k t = None -> exists t', create_row k r t = Ok t';
  create_taken : forall k r r0 t, find_row k t = Some r0 -> exists e, create_row k r t = Err e;
  find_create_eq : forall k r t t', create_row k r t = Ok t' -> find_row k t' = Some r;
  find_create_ne : forall k k' r t t',
    create_row k r t = Ok t' -> k <> k' -> find_row k' t' = find_row k' t
}.

(** [db.get<T, by_key>(k)]: throws when there is no such row. *)
Definition get_row {T K R} `{Table T K R} (k : K) (t : T) : result R :=
  match find_row k t with Some r => Ok r | None => Err out_of_range_exception end.

Lemma get_row_Ok {T K R} `{Table T K R} (k : K) (t : T) r :
  get_row k t = Ok r <-> find_row k t = Some r.
Proof. unfold get_row. destruct (find_row k t); naive_solver. Qed.

(** Finite maps are such tables. *)
#[global] Instance gmap_table K R `{Countable K} : Table (gmap K R) K R := {
  find_row k t := t !! k;
  modify_row k r t := <[k := r]> t;
  create_row k r t := match t !! k with None => Ok (<[k := r]> t) | Some _ => Err fc_assert_exception end
}.

#[global] Instance gmap_table_laws K R `{Countable K} : TableLaws (gmap K R) K R.
Proof.
  split; cbn [find_row modify_row create_row gmap_table].
  - intros k r r0 t _. apply lookup_insert_eq.
  - intros k k' r t Hk. by apply lookup_insert_ne.
  - intros k r t ->. eauto.
  - intros k r r0 t ->. eauto.
  - intros k r t t'. destruct (t !! k); [done|]. intros [= <-]. apply lookup_insert_eq.
  - intros k k' r t t'. destruct (t !! k); [done|]. intros [= <-] Hk. by apply lookup_insert_ne.
Qed.

(** ** Names *)

Definition chars (s : string) : list Z :=
  (fun c => Z.of_N (N_of_ascii c)) <$> list_ascii_of_string s.

Definition char_to_symbol (c : Z) : Z :=
  if (97 <=? c) && (c <=? 122) then (c - 97) + 6
  else if (49 <=? c) && (c <=? 53) then (c - 49) + 1
  else 0.

(** The loop over [str[0..11]], [i] characters in. *)
Fixpoint name_loop (i : Z) (n : Z) (str : list Z) : Z :=
  match str with
  | [] => n
  | c :: str =>
      if i <? 12
      then name_loop (i + 1) (Z.lor n (u64 (Z.shiftl (Z.land (char_to_symbol c) 0x1f) (64 - 5 * (i + 1))))) str
      else if i =? 12 then Z.lor n (Z.land (char_to_symbol c) 0x0f)
      else n
  end.

Definition string_to_uint64_t (str : list Z) : Z := name_loop 0 0 str.
Definition string_to_name (s : string) : Z := string_to_uint64_t (chars s).

Definition SYSTEM_ACCOUNT_PREFIX : string := "flon".
Definition SYS_NAME (n : string) : Z := string_to_name (SYSTEM_ACCOUNT_PREFIX ++ "." ++ n).
Definition token_account_name : Z := SYS_NAME "token".
Definition gas_account_name : Z := SYS_NAME "gas".
Definition accounts_table : Z := string_to_name "accounts".

(** ** Symbols *)

Definition max_precision : Z := 18.
Definition decimals (sym : Z) : Z := Z.land sym 0xff.

(** The characters of [name()]: seven rounds empty a 64-bit value shifted by 8. *)
Fixpoint symbol_name_loop (fuel : nat) (v : Z) : list Z :=
  match fuel with
  | O => []
  | S fuel => if 0 <? v then Z.land v 0xff :: symbol_name_loop fuel (Z.shiftr v 8) else []
  end.
Definition symbol_name (sym : Z) : list Z := symbol_name_loop 7 (Z.shiftr sym 8).
Definition valid_name (name : list Z) : bool := forallb (fun c => (65 <=? c) && (c <=? 90)) name.
Definition symbol_valid (sym : Z) : bool := (decimals sym <=? max_precision) && valid_name (symbol_name sym).

(** [symbol::reflector_init], which the deserializer calls. *)
Definition symbol_reflector_init (sym : Z) : result unit :=
  _ ← EOS_ASSERT (decimals sym <=? max_precision) symbol_type_exception;
  EOS_ASSERT (valid_name (symbol_name sym)) symbol_type_exception.

Fixpoint symbol_c_loop (i : Z) (result : Z) (str : list Z) : Z :=
  match str with
  | [] => result
  | c :: str => symbol_c_loop (i + 1) (Z.lor result (u64 (Z.shiftl c (8 * (1 + i))))) str
  end.
Definition string_to_symbol_c (precision : Z) (str : list Z) : Z :=
  Z.lor (symbol_c_loop 0 0 str) precision.

Definition core_symbol : Z := string_to_symbol_c 8 (chars "FLON").
Definition to_symbol_code (sym : Z) : Z := Z.shiftr sym 8.
Definition core_symbol_code : Z := to_symbol_code core_symbol.

(** ** Assets *)

Record asset : Type := Asset { amount : Z; sym : Z }.

Definition max_amount : Z := 2 ^ 62 - 1.
Definition is_amount_within_range (a : Z) : bool := (- max_amount <=? a) && (a <=? max_amount).

(** The constructor [asset(a, id)]. *)
Definition make_asset (a id : Z) : result asset :=
  _ ← EOS_ASSERT (is_amount_within_range a) asset_type_exception;
  _ ← EOS_ASSERT (symbol_valid id) asset_type_exception;
  mret (Asset a id).

(** [asset::reflector_init]. *)
Definition asset_reflector_init (a : asset) : result unit :=
  _ ← EOS_ASSERT (is_amount_within_range (amount a)) asset_type_exception;
  EOS_ASSERT (symbol_valid (sym a)) asset_type_exception.

(** Signed 64-bit arithmetic: an overflow is undefined. *)
Definition int64_max : Z := 2 ^ 63 - 1.
Definition int64_min : Z := - 2 ^ 63.
Definition i64_result (z : Z) : result Z :=
  _ ← EOS_ASSERT ((int64_min <=? z) && (z <=? int64_max)) undefined_behavior; mret z.

Definition asset_add (a o : asset) : result asset :=
  _ ← EOS_ASSERT (sym a =? sym o) asset_type_exception;
  z ← i64_result (amount a + amount o);
  mret (Asset z (sym a)).
Definition asset_sub (a o : asset) : result asset :=
  _ ← EOS_ASSERT (sym a =? sym o) asset_type_exception;
  z ← i64_result (amount a - amount o);
  mret (Asset z (sym a)).

(** [a < b] and [a >= b]; the symbols are equal once the assertion has passed,
    so the pairs compare by amount. *)
Definition asset_lt (a b : asset) : result bool :=
  _ ← EOS_ASSERT (sym a =? sym b) asset_type_exception;
  mret (amount a <? amount b).
Definition asset_ge (a b : asset) : result bool := negb <$> asset_lt a b.

(** [FC_REFLECT(asset, (amount)(sym))]: the two members in order. *)
Definition pack_asset (a : asset) : result (list Z) :=
  x ← pack_uint 8 (u64 (amount a));
  y ← pack_uint 8 (sym a);
  mret (x ++ y).
Definition unpack_asset (s : list Z) : result (asset * list Z) :=
  '(x, s) ← unpack_uint 8 s;
  '(y, s) ← unpack_uint 8 s;
  _ ← symbol_reflector_init y;
  _ ← asset_reflector_init (Asset (i64 x) y);
  mret (Asset (i64 x) y, s).

(** ** Rows of the token contract *)

(** The key of a contract row: code, scope, table, primary key.  The lookup of
    the [table_id_object] and the lookup by its id are one lookup here: a
    table id stands for its code, scope and table. *)
Definition kv_key : Type := (Z * Z * Z * Z)%type.

Record token_account_data : Type := TokenAccountData {
  balance : asset;
  remaining_data : list Z
}.

(** [unpack_from] reads the balance and keeps every byte after it. *)
Definition unpack_from (value : list Z) : result token_account_data :=
  '(b, s) ← unpack_asset value;
  mret (TokenAccountData b s).
Definition pack_to (d : token_account_data) : result (list Z) :=
  bs ← pack_asset (balance d);
  mret (bs ++ remaining_data d).

Record core_asset_account : Type := CoreAssetAccount {
  table_obj : kv_key;
  acct_data : token_account_data
}.

Definition min_packed_size : Z := 16.
Definition core_row_key (account : Z) : kv_key :=
  (token_account_name, account, accounts_table, core_symbol_code).

Section rows.
Context {KV : Type} `{TableLaws KV kv_key (list Z)}.

Definition core_asset_account_create (db : KV) (account : Z) : result (option core_asset_account) :=
  match find_row (core_row_key account) db with
  | None => mret None
  | Some value =>
      if vsize value <? min_packed_size then mret None
      else
        data ← unpack_from value;
        _ ← EOS_ASSERT (sym (balance data) =? core_symbol) tx_gas_exception;
        mret (Some (CoreAssetAccount (core_row_key account) data))
  end.

Definition core_asset_account_save (a : core_asset_account) (db : KV) : result KV :=
  value ← pack_to (acct_data a);
  mret (modify_row (table_obj a) value db).

(** ** What a row holds *)

(** The balance a row of the table holds: the first eight bytes, when the row
    is long enough to be read as an account. *)
Definition row_balance (value : list Z) : Z :=
  if vsize value <? min_packed_size then 0 else i64 (le_value (take 8 value)).
Definition core_balance (db : KV) (account : Z) : Z :=
  from_option row_balance 0 (find_row (core_row_key account) db).

Lemma unpack_from_Ok value d :
  unpack_from value = Ok d ->
  amount (balance d) = i64 (le_value (take 8 value)) /\
  is_amount_within_range (amount (balance d)) = true.
Proof.
  unfold unpack_from, unpack_asset, unpack_uint, ds_read, asset_reflector_init.
  intros Hd. apply bind_Ok in Hd as ([b s] & Ha & [= <-]).
  apply bind_Ok in Ha as ([x s1] & Hx & Ha). apply bind_Ok in Hx as ([bs s2] & Hx & [= <- <-]).
  destruct (8 <=? _)%nat; [|done]. injection Hx as <- <-.
  apply bind_Ok in Ha as ([y s3] & _ & Ha). apply bind_Ok in Ha as (u & _ & Ha).
  apply bind_Ok in Ha as (v & Hr & [= <- <-]). apply bind_Ok in Hr as (w & Hr & _).
  apply EOS_ASSERT_Ok in Hr. by split.
Qed.

Lemma core_asset_account_create_Ok db account a :
  core_asset_account_create db account = Ok (Some a) ->
  table_obj a = core_row_key account /\ amount (balance (acct_data a)) = core_balance db account /\
  is_amount_within_range (core_balance db account) = true /\
  sym (balance (acct_data a)) = core_symbol /\
  exists value, find_row (core_row_key account) db = Some value.
Proof.
  unfold core_asset_account_create, core_balance.
  destruct (find_row _ db) as [value|] eqn:Ef; [|done]. cbn [from_option]. unfold row_balance.
  destruct (vsize value <? min_packed_size); [done|]. intros Hc.
  apply bind_Ok in Hc as (d & Hd & Hc). apply bind_Ok in Hc as (u & Hs & Hc).
  apply EOS_ASSERT_Ok in Hs. apply Ok_inj in Hc as [= <-].
  apply unpack_from_Ok in Hd as [Ea Hr]. cbn. rewrite <- Ea. repeat split; eauto. lia.
Qed.

Lemma i64_u64 z : int64_min <= z <= int64_max -> i64 (u64 z) = z.
Proof.
  unfold int64_min, int64_max. intros Hz. unfold i64, u64.
  rewrite Zplus_mod_idemp_l, Z.mod_small; lia.
Qed.

(** A saved account: the row holds the new balance, every other row is as it was. *)
Lemma core_asset_account_save_Ok a account db db' value :
  core_asset_account_save a db = Ok db' ->
  table_obj a = core_row_key account -> find_row (core_row_key account) db = Some value ->
  int64_min <= amount (balance (acct_data a)) <= int64_max ->
  (forall b, core_balance db' b =
     if decide (b = account) then amount (balance (acct_data a)) else core_balance db b) /\
  (forall b, is_Some (find_row (core_row_key b) db) -> is_Some (find_row (core_row_key b) db')).
Proof.
  unfold core_asset_account_save, pack_to, pack_asset, pack_uint. cbn [mbind result_bind mret result_ret].
  intros E Ha Hf Hr. apply Ok_inj in E as <-. rewrite Ha.
  assert (Hn : forall b, b <> account -> core_row_key account <> core_row_key b) by (intros b Hb [=]; lia).
  split; intros b; unfold core_balance; destruct (decide (b = account)) as [->|Hb].
  - rewrite (find_modify_eq _ _ value) by done. cbn [from_option]. unfold row_balance.
    replace (vsize _ <? min_packed_size) with false.
    + rewrite <- (app_assoc (le_bytes 8 _)), take_app_length' by (symmetry; apply le_bytes_length).
      rewrite le_value_bytes by apply u64_range. by apply i64_u64.
    + unfold vsize, min_packed_size. rewrite !length_app, !le_bytes_length. lia.
  - by rewrite find_modify_ne by auto.
  - intros _. by rewrite (find_modify_eq _ _ value).
  - by rewrite find_modify_ne by auto.
Qed.

End rows.
