(* ===== verification/ResourceLimits.v ===== *)
(** Resource limits (resource_limits.hpp, resource_limits_private.hpp and
    resource_limits.cpp): the moving averages of block usage, the elastic
    virtual limits, and the gas an account pays for cpu, net and ram, first
    from its reserved gas and then from its core tokens.

    A method of [resource_limits_manager] is a function on [database]; where it
    throws, the caller's undo session discards what it changed, so a thrown
    exception carries no database.  Logging to deep-mind is left out. *)
From Stdlib Require Import ZArith Lia ZifyBool.
From stdpp Require Import base tactics numbers list gmap.
From S2P Require Import Prelude Raw CoreAsset.
#[local] Open Scope Z_scope.

(** ** Arithmetic on wider integers *)

Definition u128 (z : Z) : Z := z mod 2 ^ 128.
Definition uint64_max : Z := 2 ^ 64 - 1.
Definition uint128_max : Z := 2 ^ 128 - 1.

(** A division: undefined when the divisor is zero. *)
Definition c_div (a b : Z) : result Z :=
  _ ← EOS_ASSERT (negb (b =? 0)) undefined_behavior; mret (a / b).

(** [-x] on [int64_t]: undefined at the least value. *)
Definition neg_i64 (x : Z) : result Z := i64_result (- x).

Definition verify_add_u64 (a b : Z) : result unit :=
  EOS_ASSERT (b <=? uint64_max - a) calc_overflow_exception.

Definition verify_add_i64 (a b : Z) : result unit :=
  if (0 <? a) && (0 <? b) then EOS_ASSERT (b <=? int64_max - a) calc_overflow_exception
  else if (a <? 0) && (b <? 0) then EOS_ASSERT (int64_min - a <=? b) calc_overflow_exception
  else mret tt.

Definition verify_multiply (a b : Z) : result unit :=
  if negb (a =? 0) && negb (b =? 0)
  then EOS_ASSERT (b <=? uint64_max / a) calc_overflow_exception
  else mret tt.

Record ratio : Type := Ratio { numerator : Z; denominator : Z }.

Definition ratio_eqb (a b : ratio) : bool :=
  (numerator a =? numerator b) && (denominator a =? denominator b).

(** [value * r] on an unsigned type whose largest value is [tmax]. *)
Definition ratio_mul (tmax value : Z) (r : ratio) : result Z :=
  _ ← EOS_ASSERT ((numerator r =? 0) || (value <=? tmax / numerator r)) rate_limiting_state_inconsistent;
  c_div ((value * numerator r) mod (tmax + 1)) (denominator r).

Definition integer_divide_ceil (num den : Z) : Z :=
  num / den + (if 0 <? num mod den then 1 else 0).

(** [downgrade_cast<uint64_t>] of an unsigned value. *)
Definition downgrade_cast_u64 (val : Z) : result Z :=
  _ ← EOS_ASSERT ((0 <=? val) && (val <=? uint64_max)) rate_limiting_state_inconsistent;
  mret val.

(** ** Accumulators *)

Definition rate_limiting_precision : Z := 1000 * 1000.
Abbreviation Precision := rate_limiting_precision.
Definition max_raw_value : Z := uint64_max / Precision.

Record usage_accumulator : Type := UsageAccumulator {
  last_ordinal : Z;
  value_ex : Z;
  consumed : Z
}.

Definition usage_accumulator_init : usage_accumulator := UsageAccumulator 0 0 0.

Definition average (a : usage_accumulator) : Z := integer_divide_ceil (value_ex a) Precision.

(** The extended average [value_ex] decayed to [ordinal]. *)
Definition decay_u64 (last value ordinal window_size : Z) : result Z :=
  if ordinal <? last + window_size
  then ratio_mul uint64_max value
         (Ratio (u64 (window_size - u32 (ordinal - last))) window_size)
  else mret 0.

Definition accumulator_add (a : usage_accumulator) (units ordinal window_size : Z)
    : result usage_accumulator :=
  _ ← EOS_ASSERT (units <=? max_raw_value) rate_limiting_state_inconsistent;
  _ ← EOS_ASSERT (units <=? uint64_max - consumed a) rate_limiting_state_inconsistent;
  _ ← EOS_ASSERT (negb (window_size =? 0)) undefined_behavior;
  contrib ← downgrade_cast_u64 (integer_divide_ceil (u128 (units * Precision)) window_size);
  _ ← EOS_ASSERT (contrib <=? uint64_max - value_ex a) rate_limiting_state_inconsistent;
  a ← (if last_ordinal a =? ordinal then mret a
       else
         _ ← EOS_ASSERT (last_ordinal a <? ordinal) resource_limit_exception;
         v ← decay_u64 (last_ordinal a) (value_ex a) ordinal window_size;
         mret (UsageAccumulator ordinal v (integer_divide_ceil v Precision)));
  mret (UsageAccumulator (last_ordinal a) (u64 (value_ex a + contrib)) (u64 (consumed a + units))).

(** [exponential_decay_accumulator]. *)
Record decay_accumulator : Type := DecayAccumulator {
  d_last_ordinal : Z;
  d_value_ex : Z
}.

Definition value_ex_at (a : decay_accumulator) (ordinal window_size : Z) : result Z :=
  if d_last_ordinal a <? ordinal then
    if ordinal <? d_last_ordinal a + window_size then
      v ← ratio_mul uint128_max (d_value_ex a)
            (Ratio (u128 (window_size - u32 (ordinal - d_last_ordinal a))) window_size);
      downgrade_cast_u64 v
    else mret 0
  else mret (d_value_ex a).

Definition value_at (a : decay_accumulator) (ordinal window_size : Z) : result Z :=
  v ← value_ex_at a ordinal window_size; mret (integer_divide_ceil v Precision).

Definition decay_add (a : decay_accumulator) (units ordinal window_size : Z) : result decay_accumulator :=
  _ ← EOS_ASSERT (units <=? max_raw_value) rate_limiting_state_inconsistent;
  let units_ex := u128 (units * Precision) in
  a ← (if d_last_ordinal a <? ordinal
       then v ← value_ex_at a ordinal window_size; mret (DecayAccumulator ordinal v)
       else mret a);
  v ← downgrade_cast_u64 (Z.min (u128 (units_ex + d_value_ex a)) uint64_max);
  mret (DecayAccumulator (d_last_ordinal a) v).

(** ** The rows *)

Record elastic_limit_parameters : Type := ElasticLimitParameters {
  target : Z;
  max : Z;
  periods : Z;
  max_multiplier : Z;
  contract_rate : ratio;
  expand_rate : ratio
}.

Definition elastic_eqb (a b : elastic_limit_parameters) : bool :=
  (target a =? target b) && (max a =? max b) && (periods a =? periods b) &&
  (max_multiplier a =? max_multiplier b) && ratio_eqb (contract_rate a) (contract_rate b) &&
  ratio_eqb (expand_rate a) (expand_rate b).

Definition validate (p : elastic_limit_parameters) : result unit :=
  _ ← EOS_ASSERT (0 <? periods p) resource_limit_exception;
  _ ← EOS_ASSERT (0 <? denominator (contract_rate p)) resource_limit_exception;
  EOS_ASSERT (0 <? denominator (expand_rate p)) resource_limit_exception.

Record resource_limits_object : Type := ResourceLimitsObject {
  gas : Z;
  is_unlimited : bool
}.

Record resource_usage_object : Type := ResourceUsageObject {
  net_usage : Z;
  cpu_usage : Z;
  ram_usage : Z
}.

Record resource_limits_config_object : Type := ResourceLimitsConfig {
  cpu_limit_parameters : elastic_limit_parameters;
  net_limit_parameters : elastic_limit_parameters;
  account_cpu_usage_average_window : Z;
  account_net_usage_average_window : Z;
  gas_per_cpu_ms : Z;
  gas_per_net_kb : Z;
  gas_per_ram_kb : Z
}.

Record resource_limits_state_object : Type := ResourceLimitsState {
  average_block_net_usage : usage_accumulator;
  average_block_cpu_usage : usage_accumulator;
  pending_net_usage : Z;
  pending_cpu_usage : Z;
  total_net_usage : Z;
  total_cpu_usage : Z;
  total_ram_usage : Z;
  total_gas_consumed : Z;
  total_gas_value_flon : Z;
  virtual_net_limit : Z;
  virtual_cpu_limit : Z
}.

(** The members of [chain_config] the manager and its caller read. *)
Record chain_config : Type := ChainConfig {
  max_block_net_usage : Z;
  target_block_net_usage_pct : Z;
  max_block_cpu_usage : Z;
  target_block_cpu_usage_pct : Z;
  max_total_ram_usage : Z;
  cfg_gas_per_cpu_ms : Z;
  cfg_gas_per_net_kb : Z;
  cfg_gas_per_ram_kb : Z
}.

(** [transaction_res_usage]: what a transaction used and, once computed, the
    gas it costs. *)
Record transaction_res_usage : Type := TransactionResUsage {
  payer : Z;
  t_net_usage : Z;
  net_gas : Z;
  t_cpu_usage : Z;
  cpu_gas : Z
}.

Record account_gas_trace : Type := AccountGasTrace {
  g_account : Z;
  reserved_gas_before : Z;
  reserved_gas_after : Z;
  used_gas : Z;
  converted_gas : Z;
  ram_delta_of_trace : Z;
  gas_delta_of_trace : Z
}.

(** The tables: limits and usage by owner, the singletons, the contract rows
    and the chain configuration of [global_property_object]. *)
Record database (LT UT KV : Type) : Type := Database {
  limits : LT;
  usage : UT;
  config : resource_limits_config_object;
  state : resource_limits_state_object;
  kv : KV;
  global_config : chain_config
}.
Arguments Database {LT UT KV}.
Arguments limits {LT UT KV}.
Arguments usage {LT UT KV}.
Arguments config {LT UT KV}.
Arguments state {LT UT KV}.
Arguments kv {LT UT KV}.
Arguments global_config {LT UT KV}.

(** ** Conversions between resources and gas *)

Definition gas_rate_precision : Z := 1000.

(** The products are computed in [uint64_t], the type of the operands; only
    the quotient is widened. *)
Definition multiply_decimal (a b precision : Z) : result Z :=
  if (a =? 0) || (b =? 0) || (precision =? 0) then mret 0
  else
    let tmp := u64 (a * b) / precision in
    _ ← EOS_ASSERT (tmp <=? uint64_max) calc_overflow_exception;
    mret tmp.

Definition multiply_decimal_ceil (a b precision : Z) : result Z :=
  if (a =? 0) || (b =? 0) || (precision =? 0) then mret 0
  else
    let tmp := u64 (a * b + (precision - 1)) / precision in
    _ ← EOS_ASSERT ((tmp <=? uint64_max) &&
          ((precision - 1 <? uint64_max - a) || (precision - 1 <? uint64_max - b))) calc_overflow_exception;
    mret tmp.

Definition divide_decimal (a b precision : Z) : result Z :=
  if (a =? 0) || (b =? 0) || (precision =? 0) then mret 0
  else
    let tmp := u64 (a * precision) / b in
    _ ← EOS_ASSERT (tmp <=? uint64_max) calc_overflow_exception;
    mret tmp.

Definition convert_cpu_to_gas (c : resource_limits_config_object) (value : Z) : result Z :=
  multiply_decimal_ceil value (gas_per_cpu_ms c) gas_rate_precision.
Definition convert_net_to_gas (c : resource_limits_config_object) (value : Z) : result Z :=
  multiply_decimal_ceil value (gas_per_net_kb c) gas_rate_precision.
Definition convert_ram_to_gas (c : resource_limits_config_object) (value : Z) : result Z :=
  multiply_decimal_ceil value (gas_per_ram_kb c) gas_rate_precision.

Definition convert_gas_to_res (g gas_per_res : Z) : result Z :=
  if gas_per_res =? 0 then mret uint64_max
  else divide_decimal g gas_per_res gas_rate_precision.
Definition convert_gas_to_cpu (c : resource_limits_config_object) (g : Z) : result Z :=
  convert_gas_to_res g (gas_per_cpu_ms c).
Definition convert_gas_to_net (c : resource_limits_config_object) (g : Z) : result Z :=
  convert_gas_to_res g (gas_per_net_kb c).
Definition convert_gas_to_ram (c : resource_limits_config_object) (g : Z) : result Z :=
  convert_gas_to_res g (gas_per_ram_kb c).

Definition convert_gas_to_core_asset (g : Z) : result asset :=
  _ ← EOS_ASSERT (g <=? int64_max) calc_overflow_exception;
  make_asset g core_symbol.

Definition convert_core_asset_to_gas (core_asset_amount : Z) : Z :=
  if 0 <? core_asset_amount then core_asset_amount else 0.

(** [verify_delta_converting], [verify_sub_core_asset], [verify_add_core_asset]. *)
Definition verify_delta_converting (a : Z) : result unit :=
  EOS_ASSERT (a <=? int64_max) calc_overflow_exception.

Definition verify_sub_core_asset (a b : asset) : result unit :=
  if 0 <=? amount a
  then ge ← asset_ge a b; EOS_ASSERT ge substraction_insufficent_exception
  else Err substraction_insufficent_exception.

Definition verify_add_core_asset (a b : asset) : result unit :=
  EOS_ASSERT ((0 <=? amount a) && (0 <=? amount b) && (amount b <=? int64_max - amount a))
    calc_overflow_exception.

(** ** Elastic limits *)

Definition update_elastic_limit (current_limit average_usage : Z) (params : elastic_limit_parameters)
    : result Z :=
  r ← (if target params <? average_usage
       then ratio_mul uint64_max current_limit (contract_rate params)
       else ratio_mul uint64_max current_limit (expand_rate params));
  mret (Z.min (Z.max r (max params)) (u64 (max params * max_multiplier params))).

Definition update_virtual_cpu_limit (c : resource_limits_config_object) (s : resource_limits_state_object)
    : result resource_limits_state_object :=
  v ← update_elastic_limit (virtual_cpu_limit s) (average (average_block_cpu_usage s))
        (cpu_limit_parameters c);
  mret {| average_block_net_usage := average_block_net_usage s;
          average_block_cpu_usage := average_block_cpu_usage s;
          pending_net_usage := pending_net_usage s; pending_cpu_usage := pending_cpu_usage s;
          total_net_usage := total_net_usage s; total_cpu_usage := total_cpu_usage s;
          total_ram_usage := total_ram_usage s; total_gas_consumed := total_gas_consumed s;
          total_gas_value_flon := total_gas_value_flon s;
          virtual_net_limit := virtual_net_limit s; virtual_cpu_limit := v |}.

Definition update_virtual_net_limit (c : resource_limits_config_object) (s : resource_limits_state_object)
    : result resource_limits_state_object :=
  v ← update_elastic_limit (virtual_net_limit s) (average (average_block_net_usage s))
        (net_limit_parameters c);
  mret {| average_block_net_usage := average_block_net_usage s;
          average_block_cpu_usage := average_block_cpu_usage s;
          pending_net_usage := pending_net_usage s; pending_cpu_usage := pending_cpu_usage s;
          total_net_usage := total_net_usage s; total_cpu_usage := total_cpu_usage s;
          total_ram_usage := total_ram_usage s; total_gas_consumed := total_gas_consumed s;
          total_gas_value_flon := total_gas_value_flon s;
          virtual_net_limit := v; virtual_cpu_limit := virtual_cpu_limit s |}.

(** ** The manager *)

Definition EOS_PERCENT (value percentage : Z) : Z := u64 (value * percentage) / 10000.

(** The window of a block average, [60*1000 / 500] blocks. *)
Definition block_average_window : Z := 60 * 1000 / 500.
Definition default_limit_parameters (default_max : Z) : elastic_limit_parameters :=
  ElasticLimitParameters (EOS_PERCENT default_max 1000) default_max block_average_window 1000
    (Ratio 99 100) (Ratio 1000 999).

Definition default_max_block_cpu_usage : Z := 200000.
Definition default_max_block_net_usage : Z := 1024 * 1024.

Section manager.
Context {LT UT KV : Type}.
Context `{TableLaws LT Z resource_limits_object}.
Context `{TableLaws UT Z resource_usage_object}.
Context `{TableLaws KV kv_key (list Z)}.

Abbreviation db_t := (database LT UT KV).

Definition with_limits (db : db_t) (l : LT) : db_t :=
  Database l (usage db) (config db) (state db) (kv db) (global_config db).
Definition with_usage (db : db_t) (u : UT) : db_t :=
  Database (limits db) u (config db) (state db) (kv db) (global_config db).
Definition with_config (db : db_t) (c : resource_limits_config_object) : db_t :=
  Database (limits db) (usage db) c (state db) (kv db) (global_config db).
Definition with_state (db : db_t) (s : resource_limits_state_object) : db_t :=
  Database (limits db) (usage db) (config db) s (kv db) (global_config db).
Definition with_kv (db : db_t) (k : KV) : db_t :=
  Database (limits db) (usage db) (config db) (state db) k (global_config db).

(** The database after [initialize_database], next to the other tables. *)
Definition initialize_database (cfg : chain_config) (l : LT) (u : UT) (k : KV) : db_t :=
  let c := {| cpu_limit_parameters := default_limit_parameters default_max_block_cpu_usage;
              net_limit_parameters := default_limit_parameters default_max_block_net_usage;
              account_cpu_usage_average_window := 24 * 60 * 60 * 1000 / 500;
              account_net_usage_average_window := 24 * 60 * 60 * 1000 / 500;
              gas_per_cpu_ms := cfg_gas_per_cpu_ms cfg;
              gas_per_net_kb := cfg_gas_per_net_kb cfg;
              gas_per_ram_kb := cfg_gas_per_ram_kb cfg |} in
  let s := {| average_block_net_usage := usage_accumulator_init;
              average_block_cpu_usage := usage_accumulator_init;
              pending_net_usage := 0; pending_cpu_usage := 0;
              total_net_usage := 0; total_cpu_usage := 0; total_ram_usage := 0;
              total_gas_consumed := 0; total_gas_value_flon := 0;
              virtual_net_limit := max (net_limit_parameters c);
              virtual_cpu_limit := max (cpu_limit_parameters c) |} in
  Database l u c s k cfg.

(** A new account is unlimited, with no reserved gas and no usage. *)
Definition initialize_account (account : Z) (db : db_t) : result db_t :=
  l ← create_row account (ResourceLimitsObject 0 true) (limits db);
  let db := with_limits db l in
  u ← create_row account (ResourceUsageObject 0 0 0) (usage db);
  mret (with_usage db u).

Definition set_block_parameters (cfg : chain_config) (cpu net : elastic_limit_parameters) (db : db_t)
    : result db_t :=
  _ ← validate cpu;
  _ ← validate net;
  let c := config db in
  if elastic_eqb (cpu_limit_parameters c) cpu && elastic_eqb (net_limit_parameters c) net &&
     (gas_per_cpu_ms c =? cfg_gas_per_cpu_ms cfg) && (gas_per_net_kb c =? cfg_gas_per_net_kb cfg) &&
     (gas_per_ram_kb c =? cfg_gas_per_ram_kb cfg)
  then mret db
  else
    mret (with_config db
      {| cpu_limit_parameters := cpu; net_limit_parameters := net;
         account_cpu_usage_average_window := account_cpu_usage_average_window c;
         account_net_usage_average_window := account_net_usage_average_window c;
         gas_per_cpu_ms := cfg_gas_per_cpu_ms cfg;
         gas_per_net_kb := cfg_gas_per_net_kb cfg;
         gas_per_ram_kb := cfg_gas_per_ram_kb cfg |}).

(** [core_gas_accessor]. *)
Record core_gas_accessor : Type := CoreGasAccessor {
  sys_gas_account : core_asset_account;
  payer_gas_account : core_asset_account;
  accessor_convertible_gas : Z
}.

Definition core_gas_accessor_create (db : db_t) (p : Z) : result (option core_gas_accessor) :=
  po ← core_asset_account_create (kv db) p;
  match po with
  | None => mret None
  | Some pa =>
      let cg := convert_core_asset_to_gas (amount (balance (acct_data pa))) in
      if cg =? 0 then mret None
      else
        so ← core_asset_account_create (kv db) gas_account_name;
        match so with
        | None => mret None
        | Some sa => mret (Some (CoreGasAccessor sa pa cg))
        end
  end.

Definition set_balance (a : core_asset_account) (b : asset) : core_asset_account :=
  CoreAssetAccount (table_obj a) (TokenAccountData b (remaining_data (acct_data a))).

Definition pay_gas (c : core_gas_accessor) (g : Z) (db : db_t) : result db_t :=
  let pb := balance (acct_data (payer_gas_account c)) in
  let sb := balance (acct_data (sys_gas_account c)) in
  _ ← c_assert (0 <? accessor_convertible_gas c);
  quant ← convert_gas_to_core_asset g;
  _ ← verify_sub_core_asset pb quant;
  _ ← verify_add_core_asset sb quant;
  pb ← asset_sub pb quant;
  sb ← asset_add sb quant;
  k ← core_asset_account_save (set_balance (payer_gas_account c) pb) (kv db);
  k ← core_asset_account_save (set_balance (sys_gas_account c) sb) k;
  mret (with_kv db k).

Definition set_account_reserved_gas (account : Z) (l : resource_limits_object) (g : Z) (db : db_t) : db_t :=
  if gas l =? g then db
  else with_limits db (modify_row account (ResourceLimitsObject g (is_unlimited l)) (limits db)).

(** [res_utils::calc_transaction_gas_usage]: the gas, and the usage record
    with the two costs filled in. *)
Definition calc_transaction_gas_usage (ru : transaction_res_usage) (c : resource_limits_config_object)
    : result (Z * transaction_res_usage) :=
  cg ← convert_cpu_to_gas c (t_cpu_usage ru);
  ng ← convert_net_to_gas c (t_net_usage ru);
  _ ← verify_add_u64 cg ng;
  mret (u64 (cg + ng), TransactionResUsage (payer ru) (t_net_usage ru) ng (t_cpu_usage ru) cg).

Definition verify_transaction_gas_usage (ru : transaction_res_usage) (reserved_gas convertible_gas : Z)
    : result unit :=
  _ ← verify_add_u64 (cpu_gas ru) (net_gas ru);
  _ ← verify_add_u64 reserved_gas convertible_gas;
  EOS_ASSERT (u64 (cpu_gas ru + net_gas ru) <=? u64 (reserved_gas + convertible_gas)) tx_gas_usage_exceeded.

(** The accessor to the payer's core tokens, looked up when the reserved gas
    does not cover the use, and the gas those tokens convert to. *)
Definition lookup_convertible (db : db_t) (account used reserved : Z)
    : result (option core_gas_accessor * Z) :=
  cgs ← (if reserved <? used then core_gas_accessor_create db account else mret None);
  mret (cgs, from_option accessor_convertible_gas 0 cgs).

(** The limited branch of [add_transaction_usage]. *)
Definition charge_transaction (ru : transaction_res_usage) (l : resource_limits_object) (db : db_t)
    : result (db_t * transaction_res_usage * Z * account_gas_trace) :=
  let reserved := gas l in
  '(used, ru) ← calc_transaction_gas_usage ru (config db);
  '(cgs, convertible) ← lookup_convertible db (payer ru) used reserved;
  _ ← verify_add_u64 reserved convertible;
  _ ← EOS_ASSERT (used <=? u64 (reserved + convertible)) tx_gas_usage_exceeded;
  '(db, reserved', converted) ←
    (if reserved <? used then
       match cgs with
       | None => Err assertion_failed
       | Some c => db ← pay_gas c (used - reserved) db; mret (db, 0, used - reserved)
       end
     else mret (db, reserved - used, 0));
  let trace := AccountGasTrace (payer ru) reserved reserved' used converted 0 0 in
  let db := set_account_reserved_gas (payer ru) l reserved' db in
  _ ← verify_add_u64 (total_gas_consumed (state db)) used;
  _ ← verify_add_u64 (total_gas_value_flon (state db)) used;
  mret (db, ru, used, trace).

Definition add_transaction_usage (ru : transaction_res_usage) (db : db_t)
    : result (db_t * transaction_res_usage * option account_gas_trace) :=
  u ← get_row (payer ru) (usage db);
  l ← get_row (payer ru) (limits db);
  '(db, ru, used, trace) ←
    (if negb (is_unlimited l) then
       '(db, ru, used, t) ← charge_transaction ru l db; mret (db, ru, used, Some t)
     else mret (db, TransactionResUsage (payer ru) (t_net_usage ru) 0 (t_cpu_usage ru) 0, 0, None));
  let cpu := t_cpu_usage ru in
  let net := t_net_usage ru in
  _ ← verify_add_u64 (cpu_usage u) cpu;
  _ ← verify_add_u64 (net_usage u) net;
  let db := with_usage db (modify_row (payer ru)
              (ResourceUsageObject (u64 (net_usage u + net)) (u64 (cpu_usage u + cpu)) (ram_usage u))
              (usage db)) in
  let s := state db in
  _ ← verify_add_u64 (pending_cpu_usage s) cpu;
  _ ← verify_add_u64 (pending_net_usage s) net;
  _ ← verify_add_u64 (total_cpu_usage s) cpu;
  _ ← verify_add_u64 (total_net_usage s) net;
  let s :=
    {| average_block_net_usage := average_block_net_usage s;
       average_block_cpu_usage := average_block_cpu_usage s;
       pending_net_usage := u64 (pending_net_usage s + net);
       pending_cpu_usage := u64 (pending_cpu_usage s + cpu);
       total_net_usage := u64 (total_net_usage s + net);
       total_cpu_usage := u64 (total_cpu_usage s + cpu);
       total_ram_usage := total_ram_usage s;
       total_gas_consumed := u64 (total_gas_consumed s + used);
       total_gas_value_flon := u64 (total_gas_value_flon s + used);
       virtual_net_limit := virtual_net_limit s; virtual_cpu_limit := virtual_cpu_limit s |} in
  let db := with_state db s in
  _ ← EOS_ASSERT (pending_cpu_usage s <=? max (cpu_limit_parameters (config db))) block_resource_exhausted;
  _ ← EOS_ASSERT (pending_net_usage s <=? max (net_limit_parameters (config db))) block_resource_exhausted;
  mret (db, ru, trace).

Definition with_gas_totals (s : resource_limits_state_object) (used : Z) : resource_limits_state_object :=
  {| average_block_net_usage := average_block_net_usage s;
     average_block_cpu_usage := average_block_cpu_usage s;
     pending_net_usage := pending_net_usage s; pending_cpu_usage := pending_cpu_usage s;
     total_net_usage := total_net_usage s; total_cpu_usage := total_cpu_usage s;
     total_ram_usage := total_ram_usage s;
     total_gas_consumed := u64 (total_gas_consumed s + used);
     total_gas_value_flon := u64 (total_gas_value_flon s + used);
     virtual_net_limit := virtual_net_limit s; virtual_cpu_limit := virtual_cpu_limit s |}.

Definition with_total_ram (s : resource_limits_state_object) (r : Z) : resource_limits_state_object :=
  {| average_block_net_usage := average_block_net_usage s;
     average_block_cpu_usage := average_block_cpu_usage s;
     pending_net_usage := pending_net_usage s; pending_cpu_usage := pending_cpu_usage s;
     total_net_usage := total_net_usage s; total_cpu_usage := total_cpu_usage s;
     total_ram_usage := r; total_gas_consumed := total_gas_consumed s;
     total_gas_value_flon := total_gas_value_flon s;
     virtual_net_limit := virtual_net_limit s; virtual_cpu_limit := virtual_cpu_limit s |}.

(** The branch of [add_ram_usage] where a limited account uses more ram. *)
Definition charge_ram (account ram_delta : Z) (l : resource_limits_object) (db : db_t)
    : result (db_t * account_gas_trace) :=
  let reserved := gas l in
  used ← convert_ram_to_gas (config db) ram_delta;
  '(cgs, convertible) ← lookup_convertible db account used reserved;
  _ ← verify_add_u64 reserved convertible;
  _ ← EOS_ASSERT (used <=? u64 (reserved + convertible)) tx_gas_usage_exceeded;
  '(db, reserved', converted) ←
    match cgs with
    | Some c =>
        if 0 <? convertible then
          db ← pay_gas c (u64 (used - reserved)) db; mret (db, 0, u64 (used - reserved))
        else mret (db, u64 (reserved - used), 0)
    | None => mret (db, u64 (reserved - used), 0)
    end;
  let db := set_account_reserved_gas account l reserved' db in
  _ ← verify_add_u64 (total_gas_consumed (state db)) used;
  _ ← verify_add_u64 (total_gas_value_flon (state db)) used;
  let db := with_state db (with_gas_totals (state db) used) in
  _ ← verify_delta_converting used;
  mret (db, AccountGasTrace account reserved reserved' used converted ram_delta (i64 (- used))).

(** The branch where it gives ram back. *)
Definition refund_ram (account ram_delta : Z) (l : resource_limits_object) (db : db_t)
    : result (db_t * account_gas_trace) :=
  released ← neg_i64 ram_delta;
  ram_gas ← convert_ram_to_gas (config db) released;
  _ ← verify_add_u64 (gas l) ram_gas;
  let db := set_account_reserved_gas account l (u64 (gas l + ram_gas)) db in
  _ ← verify_delta_converting ram_gas;
  mret (db, AccountGasTrace account (gas l) (u64 (gas l + ram_gas)) 0 0 ram_delta ram_gas).

(** The checks that a usage counter can take the delta. *)
Definition verify_ram_delta (current ram_delta : Z) : result unit :=
  if 0 <? ram_delta then verify_add_u64 current ram_delta
  else released ← neg_i64 ram_delta; EOS_ASSERT (released <=? current) transaction_exception.

Definition add_ram_usage (account ram_delta : Z) (db : db_t)
    : result (db_t * option account_gas_trace) :=
  if ram_delta =? 0 then mret (db, None)
  else
    u ← get_row account (usage db);
    _ ← verify_ram_delta (ram_usage u) ram_delta;
    l ← get_row account (limits db);
    '(db, trace) ←
      (if negb (is_unlimited l) then
         '(db, t) ← (if 0 <? ram_delta then charge_ram account ram_delta l db
                     else refund_ram account ram_delta l db);
         mret (db, Some t)
       else mret (db, None));
    let db := with_usage db (modify_row account
                (ResourceUsageObject (net_usage u) (cpu_usage u) (u64 (ram_usage u + ram_delta)))
                (usage db)) in
    _ ← verify_ram_delta (total_ram_usage (state db)) ram_delta;
    let db := with_state db (with_total_ram (state db) (u64 (total_ram_usage (state db) + ram_delta))) in
    _ ← EOS_ASSERT (total_ram_usage (state db) <=? max_total_ram_usage (global_config db))
          resource_exhausted_exception;
    mret (db, trace).

Definition set_account_limits (account g : Z) (unlimited : bool) (db : db_t) : result db_t :=
  _ ← EOS_ASSERT (negb (account =? gas_account_name)) resource_limit_exception;
  l ← get_row account (limits db);
  mret (with_limits db (modify_row account (ResourceLimitsObject g unlimited) (limits db))).

Definition process_block_usage (block_num : Z) (db : db_t) : result db_t :=
  let s := state db in
  let c := config db in
  a ← accumulator_add (average_block_cpu_usage s) (pending_cpu_usage s) block_num
        (periods (cpu_limit_parameters c));
  s ← update_virtual_cpu_limit c
        {| average_block_net_usage := average_block_net_usage s; average_block_cpu_usage := a;
           pending_net_usage := pending_net_usage s; pending_cpu_usage := pending_cpu_usage s;
           total_net_usage := total_net_usage s; total_cpu_usage := total_cpu_usage s;
           total_ram_usage := total_ram_usage s; total_gas_consumed := total_gas_consumed s;
           total_gas_value_flon := total_gas_value_flon s;
           virtual_net_limit := virtual_net_limit s; virtual_cpu_limit := virtual_cpu_limit s |};
  a ← accumulator_add (average_block_net_usage s) (pending_net_usage s) block_num
        (periods (net_limit_parameters c));
  s ← update_virtual_net_limit c
        {| average_block_net_usage := a; average_block_cpu_usage := average_block_cpu_usage s;
           pending_net_usage := pending_net_usage s; pending_cpu_usage := 0;
           total_net_usage := total_net_usage s; total_cpu_usage := total_cpu_usage s;
           total_ram_usage := total_ram_usage s; total_gas_consumed := total_gas_consumed s;
           total_gas_value_flon := total_gas_value_flon s;
           virtual_net_limit := virtual_net_limit s; virtual_cpu_limit := virtual_cpu_limit s |};
  mret (with_state db
        {| average_block_net_usage := average_block_net_usage s;
           average_block_cpu_usage := average_block_cpu_usage s;
           pending_net_usage := 0; pending_cpu_usage := pending_cpu_usage s;
           total_net_usage := total_net_usage s; total_cpu_usage := total_cpu_usage s;
           total_ram_usage := total_ram_usage s; total_gas_consumed := total_gas_consumed s;
           total_gas_value_flon := total_gas_value_flon s;
           virtual_net_limit := virtual_net_limit s; virtual_cpu_limit := virtual_cpu_limit s |}).

(** The two calls [controller_impl::assemble_block] makes: the parameters of the
    chain configuration, then the usage of the block. *)
Definition block_limit_parameters (block_max target_pct : Z) : elastic_limit_parameters :=
  ElasticLimitParameters (EOS_PERCENT block_max target_pct) block_max block_average_window 1000
    (Ratio 99 100) (Ratio 1000 999).
Definition assemble_block_usage (block_num : Z) (db : db_t) : result db_t :=
  let cfg := global_config db in
  db ← set_block_parameters cfg
         (block_limit_parameters (max_block_cpu_usage cfg) (target_block_cpu_usage_pct cfg))
         (block_limit_parameters (max_block_net_usage cfg) (target_block_net_usage_pct cfg)) db;
  process_block_usage block_num db.

(** *** Queries *)

Definition get_account_limits (account : Z) (db : db_t) : result (Z * bool) :=
  l ← get_row account (limits db); mret (gas l, is_unlimited l).
Definition get_account_ram_usage (account : Z) (db : db_t) : result Z :=
  u ← get_row account (usage db); mret (i64 (ram_usage u)).

Definition get_account_convertible_gas (a : option core_asset_account) (db : db_t) : result Z :=
  match a with
  | None => mret 0
  | Some a =>
      if 0 <? amount (balance (acct_data a)) then
        so ← core_asset_account_create (kv db) gas_account_name;
        match so with
        | Some _ => mret (convert_core_asset_to_gas (amount (balance (acct_data a))))
        | None => mret 0
        end
      else mret 0
  end.
Definition get_account_gas_max (account reserved : Z) (db : db_t) : result Z :=
  a ← core_asset_account_create (kv db) account;
  convertible ← get_account_convertible_gas a db;
  _ ← verify_add_u64 reserved convertible;
  mret (u64 (reserved + convertible)).

Definition get_block_cpu_limit (db : db_t) : Z :=
  u64 (max (cpu_limit_parameters (config db)) - pending_cpu_usage (state db)).
Definition get_block_net_limit (db : db_t) : Z :=
  u64 (max (net_limit_parameters (config db)) - pending_net_usage (state db)).

Definition get_account_cpu_limit (account : Z) (db : db_t) : result Z :=
  l ← get_row account (limits db);
  if negb (is_unlimited l)
  then g ← get_account_gas_max account (gas l) db; convert_gas_to_cpu (config db) g
  else mret int64_max.
Definition get_account_net_limit (account : Z) (db : db_t) : result Z :=
  l ← get_row account (limits db);
  if negb (is_unlimited l)
  then g ← get_account_gas_max account (gas l) db; convert_gas_to_net (config db) g
  else mret int64_max.

End manager.
