(* ===== verification/ResourceRuns.v ===== *)
(** What the resource limits promise over any sequence of the manager's
    operations: core tokens are moved, never made or lost; a limited payer
    pays the gas of its transaction and nothing else; the accounting of a block
    never throws, as long as the configured maxima are bounded, and keeps the
    virtual limits in their bounds; and where the conversions between gas and
    resources are exact. *)
From Stdlib Require Import ZArith Lia ZifyBool.
From stdpp Require Import base tactics numbers list gmap.
From S2P Require Import Prelude Raw CoreAsset ResourceLimits.
#[local] Open Scope Z_scope.

(** ** Payments *)

Section payments.
Context {LT UT KV : Type}.
Context `{LL : TableLaws LT Z resource_limits_object}.
Context `{UL : TableLaws UT Z resource_usage_object}.
Context `{KL : TableLaws KV kv_key (list Z)}.

Abbreviation db_t := (database LT UT KV).
Implicit Types db : db_t.

Lemma convert_gas_to_core_asset_Ok g q :
  convert_gas_to_core_asset g = Ok q -> amount q = g /\ sym q = core_symbol.
Proof.
  unfold convert_gas_to_core_asset, make_asset. intros Hq. inv_result. done.
Qed.

Lemma i64_result_Ok z w : i64_result z = Ok w -> w = z /\ int64_min <= z <= int64_max.
Proof. unfold i64_result. intros Hz. inv_result. lia. Qed.

Lemma asset_sub_Ok a o r :
  asset_sub a o = Ok r -> amount r = amount a - amount o /\ int64_min <= amount r <= int64_max.
Proof.
  unfold asset_sub. intros Hs. inv_result.
  match goal with Hi : i64_result _ = _ |- _ => apply i64_result_Ok in Hi as [-> ?] end. done.
Qed.

Lemma asset_add_Ok a o r :
  asset_add a o = Ok r -> amount r = amount a + amount o /\ int64_min <= amount r <= int64_max.
Proof.
  unfold asset_add. intros Hs. inv_result.
  match goal with Hi : i64_result _ = _ |- _ => apply i64_result_Ok in Hi as [-> ?] end. done.
Qed.

(** The accessor holds the balances of the payer and of the gas account. *)
Lemma core_gas_accessor_create_Ok db p c :
  core_gas_accessor_create db p = Ok (Some c) ->
  core_asset_account_create (kv db) p = Ok (Some (payer_gas_account c)) /\
  core_asset_account_create (kv db) gas_account_name = Ok (Some (sys_gas_account c)) /\
  accessor_convertible_gas c = core_balance (kv db) p /\ 0 < core_balance (kv db) p.
Proof.
  unfold core_gas_accessor_create. intros Hc.
  apply bind_Ok in Hc as (po & Hp & Hc). destruct po as [pa|]; [|done].
  pose proof (core_asset_account_create_Ok _ _ _ Hp) as (_ & Hb & _).
  rewrite Hb in Hc. unfold convert_core_asset_to_gas in Hc.
  destruct (0 <? core_balance (kv db) p) eqn:E; [|done].
  destruct (core_balance (kv db) p =? 0) eqn:E2; [done|].
  apply bind_Ok in Hc as (so & Hs & Hc). destruct so as [sa|]; [|done].
  injection Hc as <-. cbn. repeat split; [done..|lia].
Qed.

(** A payment moves [g] from the payer to the gas account and touches nothing else. *)
Lemma pay_gas_Ok db p c g db' :
  core_gas_accessor_create db p = Ok (Some c) -> pay_gas c g db = Ok db' -> p <> gas_account_name ->
  db' = with_kv db (kv db') /\
  (forall b, core_balance (kv db') b =
     if decide (b = p) then core_balance (kv db) p - g
     else if decide (b = gas_account_name) then core_balance (kv db) gas_account_name + g
     else core_balance (kv db) b).
Proof.
  intros Hc Hp Hne. apply core_gas_accessor_create_Ok in Hc as (Hpa & Hsa & _ & _).
  apply core_asset_account_create_Ok in Hpa as (Tp & Bp & _ & _ & vp & Fp).
  apply core_asset_account_create_Ok in Hsa as (Ts & Bs & _ & _ & vs & Fs).
  unfold pay_gas in Hp.
  apply bind_Ok in Hp as (? & _ & Hp). apply bind_Ok in Hp as (q & Hq & Hp).
  apply bind_Ok in Hp as (? & _ & Hp). apply bind_Ok in Hp as (? & _ & Hp).
  apply bind_Ok in Hp as (pb & Hpb & Hp). apply bind_Ok in Hp as (sb & Hsb & Hp).
  apply bind_Ok in Hp as (k1 & Hk1 & Hp). apply bind_Ok in Hp as (k2 & Hk2 & Hp).
  apply Ok_inj in Hp as <-. cbn [kv with_kv limits usage config state global_config].
  apply convert_gas_to_core_asset_Ok in Hq as [Eq _].
  apply asset_sub_Ok in Hpb as [Epb Rpb]. apply asset_add_Ok in Hsb as [Esb Rsb].
  apply (core_asset_account_save_Ok _ p _ _ vp) in Hk1 as [B1 S1]; [|done..].
  destruct (S1 gas_account_name) as [v1 F1]; [eauto|].
  apply (core_asset_account_save_Ok _ gas_account_name _ _ v1) in Hk2 as [B2 _]; [|done..].
  split; [done|]. intros b. rewrite B2. cbn [set_balance acct_data balance] in *.
  destruct (decide (b = gas_account_name)) as [->|Hb].
  - rewrite decide_False by auto. lia.
  - rewrite B1. cbn [set_balance acct_data balance]. destruct (decide (b = p)); lia.
Qed.

(** ** Charging *)

(** The tokens and the reserved gas after a charge of [used] to [p] whose row
    of limits was [l]; [reserved'] is what is left of the reserve. *)
Definition charged db p (l : resource_limits_object) used reserved' db' : Prop :=
  (forall b, b <> p -> b <> gas_account_name -> core_balance (kv db') b = core_balance (kv db) b) /\
  gas l + core_balance (kv db) p = used + reserved' + core_balance (kv db') p /\
  core_balance (kv db') gas_account_name
    = core_balance (kv db) gas_account_name + (core_balance (kv db) p - core_balance (kv db') p) /\
  (used <= gas l -> core_balance (kv db') p = core_balance (kv db) p) /\
  (gas l < used -> reserved' = 0) /\ 0 <= reserved' <= gas l /\
  usage db' = usage db /\ config db' = config db /\ global_config db' = global_config db.

Lemma set_account_reserved_gas_find p (l : resource_limits_object) g db :
  find_row p (limits db) = Some l ->
  (forall b, find_row b (limits (set_account_reserved_gas p l g db))
     = if decide (b = p) then Some (ResourceLimitsObject g (is_unlimited l)) else find_row b (limits db)).
Proof.
  intros Hf b. unfold set_account_reserved_gas. destruct (gas l =? g) eqn:E.
  - destruct (decide (b = p)) as [->|]; [|done]. rewrite Hf. destruct l; cbn in *. f_equal. f_equal. lia.
  - cbn [limits with_limits]. destruct (decide (b = p)) as [->|].
    + by erewrite find_modify_eq.
    + by rewrite find_modify_ne.
Qed.

Lemma set_account_reserved_gas_rest p (l : resource_limits_object) g db :
  let db' := set_account_reserved_gas p l g db in
  usage db' = usage db /\ config db' = config db /\ state db' = state db /\ kv db' = kv db /\
  global_config db' = global_config db.
Proof. unfold set_account_reserved_gas. by destruct (gas l =? g). Qed.

Lemma multiply_decimal_ceil_range a b p r :
  0 < p -> multiply_decimal_ceil a b p = Ok r -> 0 <= r <= uint64_max.
Proof.
  intros Hp. unfold multiply_decimal_ceil. destruct (_ || _).
  - intros [= <-]. unfold uint64_max. lia.
  - intros Hr. inv_result. pose proof (u64_range (a * b + (p - 1))) as Hu.
    split; [apply Z.div_pos; lia|lia].
Qed.

Lemma calc_transaction_gas_usage_Ok ru c used ru' :
  calc_transaction_gas_usage ru c = Ok (used, ru') ->
  used = cpu_gas ru' + net_gas ru' /\ 0 <= used <= uint64_max /\ payer ru' = payer ru /\
  t_net_usage ru' = t_net_usage ru /\ t_cpu_usage ru' = t_cpu_usage ru /\
  convert_cpu_to_gas c (t_cpu_usage ru) = Ok (cpu_gas ru') /\
  convert_net_to_gas c (t_net_usage ru) = Ok (net_gas ru').
Proof.
  unfold calc_transaction_gas_usage. intros Hc.
  apply bind_Ok in Hc as (cg & Hcg & Hc). apply bind_Ok in Hc as (ng & Hng & Hc).
  apply bind_Ok in Hc as (? & Hv & Hc). injection Hc as <- <-. cbn.
  apply EOS_ASSERT_Ok in Hv.
  pose proof (multiply_decimal_ceil_range _ _ gas_rate_precision _ eq_refl Hcg).
  pose proof (multiply_decimal_ceil_range _ _ gas_rate_precision _ eq_refl Hng).
  unfold uint64_max in *. rewrite u64_small by lia. repeat split; first [done|lia].
Qed.

(** The tokens are looked at only when the reserve does not cover the use. *)
Lemma lookup_convertible_Ok db p used reserved cgs conv :
  lookup_convertible db p used reserved = Ok (cgs, conv) ->
  match cgs with
  | Some c => reserved < used /\ core_gas_accessor_create db p = Ok (Some c) /\
              conv = core_balance (kv db) p /\ 0 < conv
  | None => conv = 0
  end.
Proof.
  unfold lookup_convertible. intros Hl. apply bind_Ok in Hl as (cg & Hc & [= -> <-]).
  destruct cgs as [c|]; [|done]. destruct (reserved <? used) eqn:E; [|done].
  pose proof (core_gas_accessor_create_Ok _ _ _ Hc) as (_ & _ & Ha & Hb). cbn. rewrite Ha.
  split; [lia|done].
Qed.

Definition row_updated db p (l : resource_limits_object) reserved' db' : Prop :=
  forall b, find_row b (limits db') =
    if decide (b = p) then Some (ResourceLimitsObject reserved' (is_unlimited l))
    else find_row b (limits db).

(** A charge that did not need tokens, and one that paid the rest with them. *)
Lemma charged_reserve db p (l : resource_limits_object) used :
  0 <= used <= gas l -> find_row p (limits db) = Some l ->
  let db' := set_account_reserved_gas p l (gas l - used) db in
  charged db p l used (gas l - used) db' /\ row_updated db p l (gas l - used) db' /\
  state db' = state db.
Proof.
  intros Hu Hf db'. pose proof (set_account_reserved_gas_find p l (gas l - used) db Hf) as Hrow.
  destruct (set_account_reserved_gas_rest p l (gas l - used) db) as (E1 & E2 & E3 & E4 & E5).
  fold db' in E1, E2, E3, E4, E5. unfold charged. rewrite E1, E2, E3, E4, E5.
  repeat split; first [done|lia|exact Hrow].
Qed.

Lemma charged_tokens db p (l : resource_limits_object) used c db1 :
  0 <= gas l < used -> find_row p (limits db) = Some l -> p <> gas_account_name ->
  core_gas_accessor_create db p = Ok (Some c) -> pay_gas c (used - gas l) db = Ok db1 ->
  let db' := set_account_reserved_gas p l 0 db1 in
  charged db p l used 0 db' /\ row_updated db p l 0 db' /\ state db' = state db.
Proof.
  intros Hu Hf Hne Hc Hp db'. apply (pay_gas_Ok _ p) in Hp as [E B]; [|done..].
  assert (El : limits db1 = limits db) by by rewrite E.
  pose proof (set_account_reserved_gas_find p l 0 db1) as Hrow. rewrite El in Hrow.
  destruct (set_account_reserved_gas_rest p l 0 db1) as (E1 & E2 & E3 & E4 & E5).
  fold db' in E1, E2, E3, E4, E5. unfold charged. rewrite E1, E2, E3, E4, E5.
  rewrite !B, (decide_False (P := gas_account_name = p)), !(decide_True (P := _ = _)) by auto.
  split; [|split; [exact (Hrow Hf)|by rewrite E]].
  split; [intros b ??; by rewrite B, !decide_False|].
  rewrite E. cbn [with_kv usage config global_config kv]. repeat split; first [done|lia].
Qed.

Lemma charge_transaction_Ok ru (l : resource_limits_object) db db' ru' used t :
  charge_transaction ru l db = Ok (db', ru', used, t) ->
  find_row (payer ru) (limits db) = Some l -> payer ru <> gas_account_name -> is_u64 (gas l) ->
  (exists reserved', charged db (payer ru) l used reserved' db' /\
     row_updated db (payer ru) l reserved' db' /\ reserved_gas_after t = reserved') /\
  state db' = state db /\ calc_transaction_gas_usage ru (config db) = Ok (used, ru') /\
  total_gas_consumed (state db) + used <= uint64_max /\
  total_gas_value_flon (state db) + used <= uint64_max.
Proof.
  intros Hc Hf Hne Hg. unfold charge_transaction in Hc.
  apply bind_Ok in Hc as ([u r] & Hcalc & Hc). apply bind_Ok in Hc as ([cgs conv] & Hl & Hc).
  apply bind_Ok in Hc as (? & Hv & Hc). apply bind_Ok in Hc as (? & Ha & Hc).
  apply bind_Ok in Hc as ([[d rs] cv] & Hpay & Hc).
  apply bind_Ok in Hc as (? & V1 & Hc). apply bind_Ok in Hc as (? & V2 & Hc).
  apply Ok_inj in Hc. injection Hc as <- <- <- <-. apply EOS_ASSERT_Ok in V1, V2.
  pose proof (calc_transaction_gas_usage_Ok _ _ _ _ Hcalc) as (_ & Hu & Ep & _).
  rewrite Ep in *. apply lookup_convertible_Ok in Hl. destruct (gas l <? u) eqn:E.
  - destruct cgs as [c|]; [|done]. apply bind_Ok in Hpay as (d1 & Hp & [= -> <- <-]).
    destruct (charged_tokens db (payer ru) l u c d) as (H1' & H2' & H3'); [unfold is_u64 in Hg; lia|naive_solver..|].
    rewrite H3' in V1, V2. split; [exists 0; done|]. repeat split; first [done|lia].
  - injection Hpay as <- <- <-.
    destruct (charged_reserve db (payer ru) l u) as (H1' & H2' & H3'); [lia|done|].
    rewrite H3' in V1, V2. split; [exists (gas l - u); done|]. repeat split; first [done|lia].
Qed.

(** The part of the state that block accounting reads. *)
Definition block_part (s : resource_limits_state_object) :=
  (average_block_net_usage s, average_block_cpu_usage s, pending_net_usage s, pending_cpu_usage s,
   virtual_net_limit s, virtual_cpu_limit s).

Lemma charge_ram_Ok p delta (l : resource_limits_object) db db' t :
  charge_ram p delta l db = Ok (db', t) ->
  find_row p (limits db) = Some l -> p <> gas_account_name -> is_u64 (gas l) ->
  exists reserved' used, charged db p l used reserved' db' /\ row_updated db p l reserved' db' /\
    state db' = with_gas_totals (state db) used.
Proof.
  intros Hc Hf Hne Hg. unfold charge_ram in Hc.
  apply bind_Ok in Hc as (u & Hconv & Hc). apply bind_Ok in Hc as ([cgs conv] & Hl & Hc).
  apply bind_Ok in Hc as (? & Hv & Hc). apply bind_Ok in Hc as (? & Ha & Hc).
  apply bind_Ok in Hc as ([[d rs] cv] & Hpay & Hc).
  apply bind_Ok in Hc as (? & _ & Hc). apply bind_Ok in Hc as (? & _ & Hc).
  apply bind_Ok in Hc as (? & _ & Hc). apply Ok_inj in Hc. injection Hc as <- <-.
  apply EOS_ASSERT_Ok in Hv, Ha.
  pose proof (multiply_decimal_ceil_range _ _ gas_rate_precision _ eq_refl Hconv) as Hu.
  apply lookup_convertible_Ok in Hl. unfold is_u64, uint64_max in *. destruct cgs as [c|].
  - destruct Hl as (Hlt & Hcr & -> & Hpos). rewrite (proj2 (Z.ltb_lt _ _) Hpos) in Hpay.
    rewrite !u64_small in Hpay by lia. apply bind_Ok in Hpay as (d1 & Hp & [= -> <- <-]).
    destruct (charged_tokens db p l u c d) as (H1' & H2' & H3'); [lia|done..|].
    exists 0, u. split; [exact H1'|]. split; [exact H2'|]. cbn. by rewrite H3'.
  - subst conv. rewrite Z.add_0_r, u64_small in Ha by lia. injection Hpay as <- <- <-.
    rewrite u64_small by lia.
    destruct (charged_reserve db p l u) as (H1' & H2' & H3'); [lia|done|].
    exists (gas l - u), u. split; [exact H1'|]. split; [exact H2'|]. cbn. by rewrite H3'.
Qed.

Lemma refund_ram_Ok p delta (l : resource_limits_object) db db' t :
  refund_ram p delta l db = Ok (db', t) -> find_row p (limits db) = Some l -> is_u64 (gas l) ->
  (exists g, is_u64 g /\ row_updated db p l g db') /\ kv db' = kv db /\ config db' = config db /\
  global_config db' = global_config db /\ state db' = state db /\ usage db' = usage db.
Proof.
  intros Hc Hf Hg. unfold refund_ram in Hc.
  apply bind_Ok in Hc as (? & _ & Hc). apply bind_Ok in Hc as (g & _ & Hc).
  apply bind_Ok in Hc as (? & _ & Hc). apply bind_Ok in Hc as (? & _ & Hc).
  apply Ok_inj in Hc. injection Hc as <- <-.
  pose proof (set_account_reserved_gas_find p l (u64 (gas l + g)) db Hf) as Hrow.
  destruct (set_account_reserved_gas_rest p l (u64 (gas l + g)) db) as (E1 & E2 & E3 & E4 & E5).
  split; [|done]. exists (u64 (gas l + g)). split; [apply u64_range|exact Hrow].
Qed.

(** ** One transaction *)

(** What [add_transaction_usage] changes besides the charge: the counters. *)
Definition counted (s s' : resource_limits_state_object) (ru : transaction_res_usage) (used : Z) : Prop :=
  average_block_net_usage s' = average_block_net_usage s /\
  average_block_cpu_usage s' = average_block_cpu_usage s /\
  virtual_net_limit s' = virtual_net_limit s /\ virtual_cpu_limit s' = virtual_cpu_limit s /\
  total_ram_usage s' = total_ram_usage s /\
  pending_net_usage s' = pending_net_usage s + t_net_usage ru /\
  pending_cpu_usage s' = pending_cpu_usage s + t_cpu_usage ru /\
  total_net_usage s' = total_net_usage s + t_net_usage ru /\
  total_cpu_usage s' = total_cpu_usage s + t_cpu_usage ru /\
  total_gas_consumed s' = total_gas_consumed s + used.

(** The counters of the block are never negative. *)
Definition counters_ok (s : resource_limits_state_object) : Prop :=
  0 <= pending_net_usage s /\ 0 <= pending_cpu_usage s /\ 0 <= total_net_usage s /\
  0 <= total_cpu_usage s /\ is_u64 (total_gas_consumed s).

Lemma add_transaction_usage_Ok ru db db' ru' t (l : resource_limits_object) :
  add_transaction_usage ru db = Ok (db', ru', t) ->
  find_row (payer ru) (limits db) = Some l -> is_u64 (gas l) ->
  (is_unlimited l = false -> payer ru <> gas_account_name) ->
  0 <= t_net_usage ru -> 0 <= t_cpu_usage ru -> counters_ok (state db) ->
  counted (state db) (state db') ru (cpu_gas ru' + net_gas ru') /\ counters_ok (state db') /\
  config db' = config db /\ global_config db' = global_config db /\
  pending_cpu_usage (state db') <= max (cpu_limit_parameters (config db)) /\
  pending_net_usage (state db') <= max (net_limit_parameters (config db)) /\
  if is_unlimited l
  then cpu_gas ru' = 0 /\ net_gas ru' = 0 /\ kv db' = kv db /\ limits db' = limits db
  else convert_cpu_to_gas (config db) (t_cpu_usage ru) = Ok (cpu_gas ru') /\
       convert_net_to_gas (config db) (t_net_usage ru) = Ok (net_gas ru') /\
       exists reserved' db1, charged db (payer ru) l (cpu_gas ru' + net_gas ru') reserved' db1 /\
         row_updated db (payer ru) l reserved' db1 /\ limits db' = limits db1 /\ kv db' = kv db1.
Proof.
  intros Ht Hf Hg Hgas Hn Hc Hok. unfold add_transaction_usage in Ht.
  apply bind_Ok in Ht as (u & _ & Ht). apply bind_Ok in Ht as (l' & Hl & Ht).
  apply get_row_Ok in Hl. rewrite Hf in Hl. injection Hl as <-.
  apply bind_Ok in Ht as ([[[d r] used] tr] & Hch & Ht).
  apply bind_Ok in Ht as (? & _ & Ht). apply bind_Ok in Ht as (? & _ & Ht).
  apply bind_Ok in Ht as (? & V1 & Ht). apply bind_Ok in Ht as (? & V2 & Ht).
  apply bind_Ok in Ht as (? & V3 & Ht). apply bind_Ok in Ht as (? & V4 & Ht).
  apply bind_Ok in Ht as (? & A1 & Ht). apply bind_Ok in Ht as (? & A2 & Ht).
  apply Ok_inj in Ht. injection Ht as <- <- <-.
  apply EOS_ASSERT_Ok in V1, V2, V3, V4, A1, A2.
  destruct Hok as (Hk1 & Hk2 & Hk3 & Hk4 & Hk5). unfold counted, counters_ok, is_u64, uint64_max in *.
  cbn [with_state with_usage state config limits kv global_config usage] in *.
  cbn [average_block_net_usage average_block_cpu_usage pending_net_usage pending_cpu_usage total_net_usage
       total_cpu_usage total_ram_usage total_gas_consumed virtual_net_limit virtual_cpu_limit] in *.
  destruct (is_unlimited l) eqn:El.
  - injection Hch as <- <- <- <-. cbn in *. rewrite !u64_small in * by lia.
    repeat split; first [done|lia].
  - apply bind_Ok in Hch as ([[[d1 r1] u1] t1] & Hch & E). injection E as -> -> -> _.
    apply charge_transaction_Ok in Hch as ((rs & Hch & Hrow & _) & Es & Hcalc & B1 & _); [|by auto..].
    apply calc_transaction_gas_usage_Ok in Hcalc as (-> & Hu & _ & En & Ec & Hcpu & Hnet).
    assert (config d = config db /\ global_config d = global_config db) as [E1 E2] by (unfold charged in Hch; tauto).
    rewrite Es, E1, E2, En, Ec in *. unfold uint64_max in *. rewrite !u64_small in * by lia.
    repeat split; try first [done|lia]. exists rs, d. done.
Qed.

(** ** The tables over one operation *)

(** Reserved gas is a 64-bit number, and the gas account is unlimited. *)
Definition limits_ok db : Prop :=
  forall b l, find_row b (limits db) = Some l ->
    is_u64 (gas l) /\ (b = gas_account_name -> is_unlimited l = true).

(** Core tokens after an operation of [p]: as they were, or some moved from
    [p] to the gas account. *)
Definition tokens_moved db p db' : Prop :=
  (forall b, core_balance (kv db') b = core_balance (kv db) b) \/
  (p <> gas_account_name /\
   (forall b, b <> p -> b <> gas_account_name -> core_balance (kv db') b = core_balance (kv db) b) /\
   core_balance (kv db') p + core_balance (kv db') gas_account_name
     = core_balance (kv db) p + core_balance (kv db) gas_account_name).

Lemma tokens_moved_refl db p db' : kv db' = kv db -> tokens_moved db p db'.
Proof. intros E. left. by rewrite E. Qed.

Lemma charged_moved db p (l : resource_limits_object) used r db' :
  charged db p l used r db' -> p <> gas_account_name -> tokens_moved db p db'.
Proof. intros (Ho & _ & Hs & _) Hne. right. split; [done|]. split; [done|lia]. Qed.

Lemma row_updated_ok db p (l : resource_limits_object) g db' :
  row_updated db p l g db' -> find_row p (limits db) = Some l -> is_u64 g -> limits_ok db -> limits_ok db'.
Proof.
  intros Hrow Hf Hg Hok b l' Hl'. rewrite Hrow in Hl'. destruct (decide (b = p)) as [->|]; [|by apply Hok].
  injection Hl' as <-. cbn. split; [done|]. by apply (Hok p l).
Qed.

Lemma limits_ok_eq db db' : limits db' = limits db -> limits_ok db -> limits_ok db'.
Proof. unfold limits_ok. by intros ->. Qed.

(** Every operation moves tokens as above, keeps the limits well-formed, and
    leaves the configuration alone. *)
Definition stepped db p db' : Prop :=
  tokens_moved db p db' /\ limits_ok db' /\ config db' = config db /\ global_config db' = global_config db.

Lemma limited_not_gas db p l :
  limits_ok db -> find_row p (limits db) = Some l -> is_unlimited l = false -> p <> gas_account_name.
Proof. intros Hok Hf Hu ->. destruct (Hok _ _ Hf) as [_ Hg]. rewrite Hg in Hu; done. Qed.

Lemma add_transaction_usage_row ru db r :
  add_transaction_usage ru db = Ok r -> exists l, find_row (payer ru) (limits db) = Some l.
Proof.
  intros Ht. unfold add_transaction_usage in Ht. apply bind_Ok in Ht as (u & _ & Ht).
  apply bind_Ok in Ht as (l & Hl & _). apply get_row_Ok in Hl. eauto.
Qed.

Lemma add_transaction_usage_stepped ru db db' ru' t :
  add_transaction_usage ru db = Ok (db', ru', t) -> limits_ok db ->
  0 <= t_net_usage ru -> 0 <= t_cpu_usage ru -> counters_ok (state db) ->
  stepped db (payer ru) db'.
Proof.
  intros Ht Hok Hn Hc Hcnt.
  destruct (add_transaction_usage_row _ _ _ Ht) as [l Hf].
  destruct (Hok _ _ Hf) as [Hg _].
  destruct (add_transaction_usage_Ok _ _ _ _ _ _ Ht Hf Hg (limited_not_gas _ _ _ Hok Hf) Hn Hc Hcnt)
    as (_ & _ & E1 & E2 & _ & _ & Hl).
  destruct (is_unlimited l) eqn:El.
  - destruct Hl as (_ & _ & Ek & El'). unfold stepped; split_and!; [by apply tokens_moved_refl|by eapply limits_ok_eq|done..].
  - destruct Hl as (_ & _ & r & db1 & Hch & Hrow & El' & Ek).
    pose proof (limited_not_gas _ _ _ Hok Hf El) as Hne.
    pose proof (charged_moved _ _ _ _ _ _ Hch Hne) as Hm. unfold tokens_moved in Hm. rewrite <- Ek in Hm.
    unfold stepped; split_and!; [exact Hm| |done..]. apply (limits_ok_eq db1); [done|].
    eapply row_updated_ok; [done..| |done]. unfold charged, is_u64 in *. lia.
Qed.

(** A change of ram moves the counters of gas and ram, and nothing a block
    is accounted by. *)
Definition same_block (s s' : resource_limits_state_object) : Prop :=
  block_part s' = block_part s /\ (counters_ok s -> counters_ok s').

Lemma same_block_gas_totals s used : same_block s (with_gas_totals s used).
Proof. split; [done|]. unfold counters_ok. cbn. intros (? & ? & ? & ? & _). by repeat (split; [done|]); apply u64_range. Qed.

Lemma add_ram_usage_stepped p delta db db' t :
  add_ram_usage p delta db = Ok (db', t) -> limits_ok db ->
  stepped db p db' /\ same_block (state db) (state db').
Proof.
  intros Hr Hok. unfold add_ram_usage in Hr. destruct (delta =? 0).
  { apply Ok_inj in Hr. injection Hr as <- <-. unfold stepped; split_and!; [by apply tokens_moved_refl|done..]. }
  apply bind_Ok in Hr as (u & _ & Hr). apply bind_Ok in Hr as (? & _ & Hr).
  apply bind_Ok in Hr as (l & Hf & Hr). apply get_row_Ok in Hf.
  apply bind_Ok in Hr as ([d tr] & Hch & Hr). apply bind_Ok in Hr as (? & _ & Hr).
  apply bind_Ok in Hr as (? & _ & Hr). apply Ok_inj in Hr. injection Hr as <- <-.
  enough (stepped db p d /\ same_block (state db) (state d)) by done.
  destruct (Hok _ _ Hf) as [Hg _]. destruct (is_unlimited l) eqn:El.
  { injection Hch as <- <-. unfold stepped; split_and!; [by apply tokens_moved_refl|done..]. }
  pose proof (limited_not_gas _ _ _ Hok Hf El) as Hne.
  apply bind_Ok in Hch as ([d1 t1] & Hch & E). injection E as -> _. destruct (0 <? delta).
  - apply charge_ram_Ok in Hch as (r & used & Hch & Hrow & Hs); [|done..].
    pose proof (charged_moved _ _ _ _ _ _ Hch Hne) as Hm. unfold charged in Hch.
    rewrite Hs. split; [|apply same_block_gas_totals].
    unfold stepped; split_and!; [exact Hm| |tauto|tauto]. eapply row_updated_ok; [done..| |done].
    unfold is_u64 in *. lia.
  - apply refund_ram_Ok in Hch as ((g & Hg' & Hrow) & Ek & E1 & E2 & E3 & _); [|done..].
    rewrite E3. unfold stepped; split_and!; [by apply tokens_moved_refl|by eapply row_updated_ok|done..].
Qed.

End payments.

(** ** Block accounting *)

Lemma integer_divide_ceil_bound num den b :
  0 < den -> 0 <= num -> num <= b * den -> 0 <= integer_divide_ceil num den <= b.
Proof.
  intros Hd Hn Hb. unfold integer_divide_ceil. pose proof (Z.div_mod num den) as E.
  pose proof (Z.mod_pos_bound num den Hd) as Hm. pose proof (Z.div_pos num den Hn Hd).
  destruct (0 <? num mod den) eqn:E2; nia.
Qed.

Lemma integer_divide_ceil_mul num den :
  0 < den -> 0 <= num -> den * integer_divide_ceil num den <= num + den - 1 /\
  0 <= integer_divide_ceil num den.
Proof.
  intros Hd Hn. unfold integer_divide_ceil. pose proof (Z.div_mod num den) as E.
  pose proof (Z.mod_pos_bound num den Hd) as Hm. pose proof (Z.div_pos num den Hn Hd).
  destruct (0 <? num mod den) eqn:E2; nia.
Qed.

Lemma ratio_mul_Ok tmax v n d :
  0 < d -> 0 <= v -> 0 <= n -> v * n <= tmax -> ratio_mul tmax v (Ratio n d) = Ok (v * n / d).
Proof.
  intros Hd Hv Hn Hm. unfold ratio_mul, c_div. cbn [numerator denominator].
  rewrite (EOS_ASSERT_true (_ || _)), ret_bind.
  - rewrite (EOS_ASSERT_true (negb _)), ret_bind by lia. by rewrite Z.mod_small by nia.
  - destruct (Z.eqb_spec n 0); [done|]. cbn. apply Z.leb_le, Z.div_le_lower_bound; lia.
Qed.

(** A moving average over blocks that use at most [B] units, last fed at or
    before block [head]. *)
Definition accumulator_ok (B head : Z) (a : usage_accumulator) : Prop :=
  0 <= last_ordinal a <= head /\ 0 <= value_ex a <= B * Precision + block_average_window /\
  0 <= consumed a <= 2 * B + 1.

(** The largest block usage the bounds below are stated for. *)
Definition usage_bound : Z := 2 ^ 37.

Lemma decay_u64_Ok B last v ordinal :
  0 <= last < ordinal -> ordinal < 2 ^ 32 -> 0 <= B <= usage_bound ->
  0 <= v <= B * Precision + block_average_window ->
  exists v', decay_u64 last v ordinal block_average_window = Ok v' /\ 0 <= v' /\
    block_average_window * v' <= (B * Precision + block_average_window) * (block_average_window - 1).
Proof.
  intros Hl Ho HB Hv. unfold decay_u64. change block_average_window with 120 in *.
  change Precision with 1000000 in *. unfold usage_bound in HB.
  destruct (ordinal <? last + 120) eqn:E; [|exists 0; repeat split; first [done|nia]].
  set (delta := ordinal - last). assert (Hd : 1 <= delta < 120) by lia.
  rewrite (u32_small delta), u64_small by lia.
  assert (Hm : 0 <= v * (120 - delta) <= v * 119) by nia.
  rewrite ratio_mul_Ok; [|unfold uint64_max; lia..].
  eexists; split; [done|]. split; [apply Z.div_pos; lia|].
  pose proof (Z.mul_div_le (v * (120 - delta)) 120). lia.
Qed.

Lemma accumulator_add_Ok B head a units ordinal :
  0 <= B <= usage_bound -> accumulator_ok B head a -> 0 <= units <= B -> head < ordinal < 2 ^ 32 ->
  exists a', accumulator_add a units ordinal block_average_window = Ok a' /\ accumulator_ok B ordinal a'.
Proof.
  intros HB (Hl & Hv & Hc) Hu Ho. unfold accumulator_add.
  destruct (decay_u64_Ok B (last_ordinal a) (value_ex a) ordinal) as (v & Ev & Hv0 & Hvb); [lia..|].
  change block_average_window with 120 in *. unfold max_raw_value. unfold usage_bound in HB.
  change Precision with 1000000 in *. unfold uint64_max.
  assert (Hu128 : u128 (units * 1000000) = units * 1000000) by (apply Z.mod_small; lia). rewrite Hu128.
  destruct (integer_divide_ceil_mul (units * 1000000) 120) as [Hm1 Hm2]; [lia..|].
  set (contrib := integer_divide_ceil (units * 1000000) 120) in *.
  rewrite (EOS_ASSERT_true (units <=? (2 ^ 64 - 1) / 1000000)) by (apply Z.leb_le, Z.div_le_lower_bound; lia).
  rewrite ret_bind. step_assert. step_assert. unfold downgrade_cast_u64, uint64_max.
  rewrite (EOS_ASSERT_true (_ && _)) by lia. rewrite !ret_bind.
  step_assert. destruct (last_ordinal a =? ordinal) eqn:E; [lia|].
  step_assert. rewrite Ev, !ret_bind. cbn [last_ordinal value_ex consumed].
  destruct (integer_divide_ceil_bound v 1000000 (B + 1)) as [Ha1 Ha2]; [lia..|].
  eexists; split; [done|]. unfold accumulator_ok. change block_average_window with 120. change Precision with 1000000.
  cbn [last_ordinal value_ex consumed]. rewrite !u64_small by lia. lia.
Qed.

Lemma update_elastic_limit_Ok B limit avg m pct :
  0 <= B <= usage_bound -> 0 <= limit <= 1000 * B -> 0 <= m <= B ->
  exists v, update_elastic_limit limit avg (block_limit_parameters m pct) = Ok v /\
    m <= v <= 1000 * m.
Proof.
  intros HB Hl Hm. unfold update_elastic_limit, usage_bound in *. cbn.
  assert (exists r, (if EOS_PERCENT m pct <? avg then ratio_mul uint64_max limit (Ratio 99 100)
                     else ratio_mul uint64_max limit (Ratio 1000 999)) = Ok r) as [r Er].
  { destruct (_ <? _); rewrite ratio_mul_Ok by (unfold uint64_max; lia); eauto. }
  rewrite Er. cbn. eexists; split; [done|]. rewrite u64_small by lia. lia.
Qed.

(** ** Runs *)

Section runs.
Context {LT UT KV : Type}.
Context `{LL : TableLaws LT Z resource_limits_object}.
Context `{UL : TableLaws UT Z resource_usage_object}.
Context `{KL : TableLaws KV kv_key (list Z)}.

Abbreviation db_t := (database LT UT KV).
Implicit Types db : db_t.

(** What the rest of the chain asks of the manager; [op_set_configuration] is
    the privileged contract replacing the chain configuration. *)
Inductive resource_op : Type :=
| op_initialize_account (account : Z)
| op_set_account_limits (account g : Z) (unlimited : bool)
| op_add_transaction_usage (ru : transaction_res_usage)
| op_add_ram_usage (account delta : Z)
| op_set_configuration (cfg : chain_config)
| op_assemble_block.

Definition set_configuration (cfg : chain_config) db : db_t :=
  Database (limits db) (usage db) (config db) (state db) (kv db) cfg.

Definition keep db (r : result db_t) : db_t := match r with Ok db' => db' | Err _ => db end.

(** One operation at head block [c.1]; an operation that throws is undone. *)
Definition exec (c : Z * db_t) (o : resource_op) : Z * db_t :=
  let '(head, db) := c in
  match o with
  | op_initialize_account a => (head, keep db (initialize_account a db))
  | op_set_account_limits a g u => (head, keep db (set_account_limits a g u db))
  | op_add_transaction_usage ru => (head, keep db ('(db', _, _) ← add_transaction_usage ru db; mret db'))
  | op_add_ram_usage a d => (head, keep db ('(db', _) ← add_ram_usage a d db; mret db'))
  | op_set_configuration cfg => (head, set_configuration cfg db)
  | op_assemble_block =>
      match assemble_block_usage (head + 1) db with
      | Ok db' => (head + 1, db')
      | Err _ => (head, db)
      end
  end.

Definition run (c : Z * db_t) (ops : list resource_op) : Z * db_t := foldl exec c ops.

(** The arguments are values of their C++ types, so not negative. *)
Definition op_ok (o : resource_op) : Prop :=
  match o with
  | op_set_account_limits _ g _ => is_u64 g
  | op_add_transaction_usage ru => 0 <= t_net_usage ru /\ 0 <= t_cpu_usage ru
  | _ => True
  end.

(** The block maxima of a configuration are at most [B]. Nothing in
    [chain_config::validate] says so: it is a hypothesis on what the privileged
    contract configures, made only where it is needed. *)
Definition maxima_ok (B : Z) (cfg : chain_config) : Prop :=
  0 <= max_block_cpu_usage cfg <= B /\ 0 <= max_block_net_usage cfg <= B.

Definition op_maxima_ok (B : Z) (o : resource_op) : Prop :=
  match o with op_set_configuration cfg => maxima_ok B cfg | _ => True end.

Definition params_ok (B : Z) (p : elastic_limit_parameters) : Prop :=
  exists m pct, p = block_limit_parameters m pct /\ 0 <= m <= B.

(** What block accounting relies on. *)
Definition block_ok (B head : Z) db : Prop :=
  accumulator_ok B head (average_block_cpu_usage (state db)) /\
  accumulator_ok B head (average_block_net_usage (state db)) /\
  0 <= pending_cpu_usage (state db) <= B /\ 0 <= pending_net_usage (state db) <= B /\
  0 <= virtual_cpu_limit (state db) <= 1000 * B /\ 0 <= virtual_net_limit (state db) <= 1000 * B /\
  params_ok B (cpu_limit_parameters (config db)) /\ params_ok B (net_limit_parameters (config db)) /\
  maxima_ok B (global_config db).

Lemma ratio_eqb_eq a b : ratio_eqb a b = true -> a = b.
Proof. destruct a, b. unfold ratio_eqb. cbn. intros. f_equal; lia. Qed.

Lemma elastic_eqb_eq a b : elastic_eqb a b = true -> a = b.
Proof.
  destruct a, b. unfold elastic_eqb. cbn. intros He.
  repeat (apply andb_true_iff in He as [He ?]). f_equal; first [by apply ratio_eqb_eq|lia].
Qed.

(** The parameters in force after [set_block_parameters], changed or not. *)
Lemma set_block_parameters_Ok cfg mc pc mn pn db :
  exists db', set_block_parameters cfg (block_limit_parameters mc pc) (block_limit_parameters mn pn) db = Ok db' /\
    cpu_limit_parameters (config db') = block_limit_parameters mc pc /\
    net_limit_parameters (config db') = block_limit_parameters mn pn /\
    db' = with_config db (config db').
Proof.
  unfold set_block_parameters. cbn [validate]. unfold validate. cbn [periods contract_rate expand_rate denominator block_limit_parameters].
  cbn [mbind result_bind EOS_ASSERT Z.ltb Z.compare]. change (0 <? block_average_window) with true.
  cbn [mbind result_bind EOS_ASSERT]. destruct (_ && _) eqn:E.
  - eexists; split; [done|]. do 4 (apply andb_true_iff in E as [E ?]).
    split_and!; [eapply elastic_eqb_eq; eassumption..|by destruct db].
  - eexists; split; [done|]. done.
Qed.

(** Assembling a block succeeds, clears the pending usage and leaves each
    virtual limit between the maximum and a thousand times the maximum. *)
Lemma assemble_block_usage_Ok B head db :
  0 <= B <= usage_bound -> block_ok B head db -> 0 <= head -> head + 1 < 2 ^ 32 ->
  exists db', assemble_block_usage (head + 1) db = Ok db' /\ block_ok B (head + 1) db' /\
    pending_cpu_usage (state db') = 0 /\ pending_net_usage (state db') = 0 /\
    max_block_cpu_usage (global_config db) <= virtual_cpu_limit (state db')
      <= 1000 * max_block_cpu_usage (global_config db) /\
    max_block_net_usage (global_config db) <= virtual_net_limit (state db')
      <= 1000 * max_block_net_usage (global_config db) /\
    global_config db' = global_config db.
Proof.
  intros HB (Ac & An & Pc & Pn & Vc & Vn & _ & _ & Gc & Gn) Hh Hh'. unfold assemble_block_usage.
  destruct (set_block_parameters_Ok (global_config db)
    (max_block_cpu_usage (global_config db)) (target_block_cpu_usage_pct (global_config db))
    (max_block_net_usage (global_config db)) (target_block_net_usage_pct (global_config db)) db)
    as (d & -> & Ec & En & Ed). rewrite ret_bind.
  assert (Es : state d = state db) by by rewrite Ed. unfold process_block_usage.
  rewrite Es, Ec, En. cbn [periods block_limit_parameters].
  destruct (accumulator_add_Ok B head (average_block_cpu_usage (state db)) (pending_cpu_usage (state db)) (head + 1))
    as (ac & -> & Hac); [done..|lia|]. rewrite ret_bind.
  destruct (accumulator_add_Ok B head (average_block_net_usage (state db)) (pending_net_usage (state db)) (head + 1))
    as (an & Ean & Han); [done..|lia|].
  unfold update_virtual_cpu_limit. cbn [virtual_cpu_limit average_block_cpu_usage]. rewrite Ec.
  destruct (update_elastic_limit_Ok B (virtual_cpu_limit (state db)) (average ac)
    (max_block_cpu_usage (global_config db)) (target_block_cpu_usage_pct (global_config db)))
    as (vc & -> & Hvc); [done..|].
  cbn [mbind result_bind mret result_ret average_block_net_usage pending_net_usage]. rewrite Ean.
  cbn [mbind result_bind mret result_ret average_block_net_usage pending_net_usage].
  unfold update_virtual_net_limit. cbn [virtual_net_limit average_block_net_usage]. rewrite En.
  destruct (update_elastic_limit_Ok B (virtual_net_limit (state db)) (average an)
    (max_block_net_usage (global_config db)) (target_block_net_usage_pct (global_config db)))
    as (vn & -> & Hvn); [done..|].
  eexists; split; [done|]. unfold block_ok.
  cbn [mbind result_bind mret result_ret with_state state config limits kv global_config
       average_block_cpu_usage average_block_net_usage pending_cpu_usage pending_net_usage
       virtual_cpu_limit virtual_net_limit]. rewrite Ec, En, Ed.
  cbn [global_config with_config limits kv].
  split_and!; first [done|lia|by eexists _, _].
Qed.

(** *** The invariant of a run *)

(** What the accounts rely on, whatever is configured. *)
Definition accounts_ok db : Prop := limits_ok db /\ counters_ok (state db).

(** What block accounting relies on as well. *)
Definition run_ok (B : Z) (c : Z * db_t) : Prop :=
  0 <= B <= usage_bound /\ 0 <= c.1 < 2 ^ 32 /\ block_ok B c.1 c.2 /\ accounts_ok c.2.

(** Block accounting does not touch the accounts. *)
Lemma assemble_block_usage_accounts n db db' :
  assemble_block_usage n db = Ok db' ->
  limits db' = limits db /\ kv db' = kv db /\ (counters_ok (state db) -> counters_ok (state db')).
Proof.
  intros E. unfold assemble_block_usage, process_block_usage, update_virtual_cpu_limit, update_virtual_net_limit in E.
  apply bind_Ok in E as (d & Ed & E). apply bind_Ok in E as (a1 & _ & E). apply bind_Ok in E as (s1 & E1 & E).
  apply bind_Ok in E as (a2 & _ & E). apply bind_Ok in E as (s2 & E2 & E). apply Ok_inj in E as <-.
  apply bind_Ok in E1 as (v1 & _ & E1). apply Ok_inj in E1 as <-. apply bind_Ok in E2 as (v2 & _ & E2).
  apply Ok_inj in E2 as <-. unfold set_block_parameters in Ed. do 2 apply bind_Ok in Ed as (? & _ & Ed).
  destruct (_ && _); apply Ok_inj in Ed as <-; (split_and!; [done..|unfold counters_ok; cbn; intuition lia]).
Qed.

Lemma params_of_max B p : params_ok B p -> 0 <= max p <= B.
Proof. by intros (m & pct & -> & Hm). Qed.

Lemma initialize_account_Ok a db db' :
  initialize_account a db = Ok db' -> limits_ok db ->
  limits_ok db' /\ kv db' = kv db /\ config db' = config db /\ state db' = state db /\
  global_config db' = global_config db.
Proof.
  unfold initialize_account. intros Hi Hok.
  apply bind_Ok in Hi as (l & Hl & Hi). apply bind_Ok in Hi as (u & _ & Hi). apply Ok_inj in Hi as <-.
  split; [|done]. intros b r Hr. cbn in Hr. destruct (decide (a = b)) as [->|Hab].
  - rewrite (find_create_eq _ _ _ _ Hl) in Hr. injection Hr as <-. cbn. split; [unfold is_u64; lia|done].
  - rewrite (find_create_ne _ _ _ _ _ Hl Hab) in Hr. by apply Hok.
Qed.

Lemma set_account_limits_Ok a g u db db' :
  set_account_limits a g u db = Ok db' -> is_u64 g -> limits_ok db ->
  limits_ok db' /\ kv db' = kv db /\ config db' = config db /\ state db' = state db /\
  global_config db' = global_config db.
Proof.
  unfold set_account_limits. intros Hi Hg Hok.
  apply bind_Ok in Hi as (? & Hne & Hi). apply bind_Ok in Hi as (l & Hl & Hi). apply Ok_inj in Hi as <-.
  apply EOS_ASSERT_Ok in Hne. apply get_row_Ok in Hl.
  split; [|done]. intros b r Hr. cbn in Hr. destruct (decide (a = b)) as [->|Hab].
  - rewrite (find_modify_eq _ _ _ _ Hl) in Hr. injection Hr as <-. cbn. split; [done|lia].
  - rewrite find_modify_ne in Hr by done. by apply Hok.
Qed.

(** The accounts an operation can move tokens of. *)
Definition op_account (o : resource_op) : option Z :=
  match o with
  | op_add_transaction_usage ru => Some (payer ru)
  | op_add_ram_usage a _ => Some a
  | _ => None
  end.

Lemma block_part_inj s s' : block_part s = block_part s' ->
  average_block_net_usage s = average_block_net_usage s' /\
  average_block_cpu_usage s = average_block_cpu_usage s' /\
  pending_net_usage s = pending_net_usage s' /\ pending_cpu_usage s = pending_cpu_usage s' /\
  virtual_net_limit s = virtual_net_limit s' /\ virtual_cpu_limit s = virtual_cpu_limit s'.
Proof. unfold block_part. intros [=]. done. Qed.

Lemma block_ok_same B head db db' :
  block_ok B head db -> block_part (state db') = block_part (state db) -> config db' = config db ->
  global_config db' = global_config db -> block_ok B head db'.
Proof.
  intros Hb Hs E1 E2. apply block_part_inj in Hs as (E3 & E4 & E5 & E6 & E7 & E8).
  unfold block_ok in *. by rewrite E1, E2, E3, E4, E5, E6, E7, E8.
Qed.

Lemma block_ok_counted B head db db' ru used :
  block_ok B head db -> counted (state db) (state db') ru used ->
  config db' = config db -> global_config db' = global_config db ->
  0 <= t_net_usage ru -> 0 <= t_cpu_usage ru ->
  pending_cpu_usage (state db') <= max (cpu_limit_parameters (config db)) ->
  pending_net_usage (state db') <= max (net_limit_parameters (config db)) ->
  block_ok B head db'.
Proof.
  intros (Ac & An & Pc & Pn & Vc & Vn & Qc & Qn & G) (E1 & E2 & E3 & E4 & _ & E5 & E6 & _) Ec Eg Hn Hc Mc Mn.
  pose proof (params_of_max _ _ Qc). pose proof (params_of_max _ _ Qn).
  unfold block_ok. rewrite Ec, Eg, E1, E2, E3, E4. split_and!; first [done|lia|tauto].
Qed.

(** One operation: tokens move from the operation's account to the gas
    account or not at all. *)
Lemma exec_ok c o :
  accounts_ok c.2 -> op_ok o ->
  (forall b, core_balance (kv (exec c o).2) b = core_balance (kv c.2) b) \/
  (exists p, op_account o = Some p /\ tokens_moved c.2 p (exec c o).2).
Proof.
  destruct c as [head db]. intros (Hl & Hk) Ho. destruct o; cbn [exec op_account snd fst] in *.
  - left. destruct (initialize_account _ _) eqn:E; [|done].
    apply initialize_account_Ok in E as (_ & E & _); [|done]. intros b. cbn. by rewrite E.
  - left. destruct (set_account_limits _ _ _ _) eqn:E; [|done].
    apply set_account_limits_Ok in E as (_ & E & _); [|done..]. intros b. cbn. by rewrite E.
  - right. exists (payer ru). split; [done|]. destruct (add_transaction_usage ru db) as [[[db' ru'] t]|] eqn:E;
      [|by apply tokens_moved_refl]. destruct Ho. cbn. by eapply add_transaction_usage_stepped.
  - right. exists account. split; [done|]. destruct (add_ram_usage _ _ _) as [[db' t]|] eqn:E;
      [|by apply tokens_moved_refl]. cbn. by eapply add_ram_usage_stepped.
  - by left.
  - left. destruct (assemble_block_usage _ _) as [db'|] eqn:E; [|done]. cbn.
    apply assemble_block_usage_accounts in E as (_ & E & _). by rewrite E.
Qed.

Lemma exec_accounts_ok c o : accounts_ok c.2 -> op_ok o -> accounts_ok (exec c o).2.
Proof.
  destruct c as [head db]. intros (Hl & Hk) Ho. cbn [snd] in *. destruct o; cbn [exec snd].
  - destruct (initialize_account _ _) as [d|] eqn:E; [|done]. cbn.
    apply initialize_account_Ok in E as (? & _ & _ & E & _); [|done]. split; [done|by rewrite E].
  - destruct (set_account_limits _ _ _ _) as [d|] eqn:E; [|done]. cbn.
    apply set_account_limits_Ok in E as (? & _ & _ & E & _); [|done..]. split; [done|by rewrite E].
  - destruct (add_transaction_usage ru db) as [[[d ru'] t]|] eqn:E; [|done]. cbn. destruct Ho.
    destruct (add_transaction_usage_row _ _ _ E) as [l Hf]. destruct (Hl _ _ Hf) as [Hg _].
    destruct (add_transaction_usage_Ok _ _ _ _ _ _ E Hf Hg (limited_not_gas _ _ _ Hl Hf)) as (_ & Hk' & _); [done..|].
    split; [by eapply add_transaction_usage_stepped|done].
  - destruct (add_ram_usage _ _ _) as [[d t]|] eqn:E; [|done]. cbn.
    apply add_ram_usage_stepped in E as ((_ & Hl' & _) & _ & Hcnt); [|done]. split; [done|by apply Hcnt].
  - done.
  - destruct (assemble_block_usage _ _) as [d|] eqn:E; [|done]. cbn.
    apply assemble_block_usage_accounts in E as (El & _ & Hk'). split; [by eapply limits_ok_eq|by apply Hk'].
Qed.

Lemma exec_run_ok B c o :
  run_ok B c -> op_ok o -> op_maxima_ok B o -> (exec c o).1 < 2 ^ 32 -> run_ok B (exec c o).
Proof.
  intros (HB & Hh & Hb & Ha) Ho Hm Hh'. split; [done|]. pose proof (exec_accounts_ok c o Ha Ho) as Ha'.
  enough (0 <= (exec c o).1 < 2 ^ 32 /\ block_ok B (exec c o).1 (exec c o).2) by tauto.
  clear Ha'. destruct c as [head db], Ha as [Hl Hk]. cbn [fst snd] in *. destruct o; cbn [exec fst snd] in *.
  - split; [done|]. destruct (initialize_account _ _) as [d|] eqn:E; [|done]. cbn.
    apply initialize_account_Ok in E as (? & _ & E1 & E2 & E3); [|done]. by eapply block_ok_same; [|rewrite E2| |].
  - split; [done|]. destruct (set_account_limits _ _ _ _) as [d|] eqn:E; [|done]. cbn.
    apply set_account_limits_Ok in E as (? & _ & E1 & E2 & E3); [|done..]. by eapply block_ok_same; [|rewrite E2| |].
  - split; [done|]. destruct (add_transaction_usage ru db) as [[[d ru'] t]|] eqn:E; [|done]. cbn. destruct Ho.
    destruct (add_transaction_usage_row _ _ _ E) as [l Hf]. destruct (Hl _ _ Hf) as [Hg _].
    destruct (add_transaction_usage_Ok _ _ _ _ _ _ E Hf Hg (limited_not_gas _ _ _ Hl Hf))
      as (Hc & Hk' & E1 & E2 & M1 & M2 & _); [done..|]. by eapply block_ok_counted.
  - split; [done|]. destruct (add_ram_usage _ _ _) as [[d t]|] eqn:E; [|done]. cbn.
    apply add_ram_usage_stepped in E as ((_ & ? & E1 & E2) & Hs & _); [|done]. by eapply block_ok_same.
  - split; [done|]. destruct Hb as (Ac & An & Pc & Pn & Vc & Vn & Qc & Qn & G). done.
  - destruct (assemble_block_usage _ _) as [d|] eqn:E; [|done]. cbn [fst snd] in *.
    destruct (assemble_block_usage_Ok B head db HB Hb) as (d' & E' & Hb' & _); [lia..|].
    rewrite E in E'. injection E' as <-. split; [lia|done].
Qed.

Lemma exec_head c o : c.1 <= (exec c o).1 <= c.1 + 1.
Proof. destruct c as [head db]. destruct o; cbn; try lia. destruct (assemble_block_usage _ _); cbn; lia. Qed.

Lemma run_run_ok B ops c :
  run_ok B c -> Forall op_ok ops -> Forall (op_maxima_ok B) ops -> c.1 + Z.of_nat (length ops) < 2 ^ 32 ->
  run_ok B (run c ops).
Proof.
  intros Hc Hops. revert c Hc. induction Hops as [|o ops Ho _ IH]; intros c Hc Hm Hlen; [done|].
  apply Forall_cons in Hm as [Hm Hms]. cbn [run foldl length] in *. pose proof (exec_head c o).
  apply IH; [apply exec_run_ok; [done..|lia]|done|lia].
Qed.

Lemma run_accounts_ok ops c : accounts_ok c.2 -> Forall op_ok ops -> accounts_ok (run c ops).2.
Proof.
  intros Hc Hops. revert c Hc. induction Hops as [|o ops Ho _ IH]; intros c Hc; [done|].
  apply (IH (exec c o)). by apply exec_accounts_ok.
Qed.

(** A database that [initialize_database] made: no accounts yet. *)
Definition fresh db : Prop :=
  exists cfg l u k, db = initialize_database cfg l u k /\ (forall b, find_row b l = None).

Lemma fresh_accounts_ok db : fresh db -> accounts_ok db.
Proof.
  intros (cfg & l & u & k & -> & Hl). split; [|unfold counters_ok, is_u64; cbn; lia].
  intros b r Hr. cbn in Hr. by rewrite Hl in Hr.
Qed.

Lemma fresh_run_ok B db : 2 ^ 20 <= B <= usage_bound -> fresh db -> maxima_ok B (global_config db) -> run_ok B (1, db).
Proof.
  intros HB Hf Hm. split; [lia|]. split; [cbn; lia|]. split; [|by apply fresh_accounts_ok].
  destruct Hf as (cfg & l & u & k & -> & Hl), Hm as [Hc Hn]. cbn [initialize_database global_config] in Hc, Hn.
  unfold block_ok, accumulator_ok, maxima_ok.
  cbn [fst snd initialize_database state config global_config average_block_cpu_usage average_block_net_usage
       pending_cpu_usage pending_net_usage virtual_cpu_limit virtual_net_limit total_net_usage total_cpu_usage
       total_gas_consumed usage_accumulator_init last_ordinal value_ex consumed cpu_limit_parameters
       net_limit_parameters default_limit_parameters max].
  unfold default_max_block_cpu_usage, default_max_block_net_usage.
  change Precision with 1000000. change block_average_window with 120.
  split_and!; first [lia|by eexists _, 1000; split; [done|lia]].
Qed.

(** *** Sums of balances *)

Definition sumZ (f : Z -> Z) (l : list Z) : Z := foldr (fun x acc => f x + acc) 0 l.

Lemma sumZ_ext f g l : (forall x, x ∈ l -> f x = g x) -> sumZ f l = sumZ g l.
Proof.
  intros He. induction l as [|x l IH]; [done|].
  change (f x + sumZ f l = g x + sumZ g l). rewrite He, IH; [done| |by left].
  intros y Hy. apply He. by right.
Qed.

Lemma sumZ_perm f l l' : l ≡ₚ l' -> sumZ f l = sumZ f l'.
Proof. unfold sumZ. induction 1; cbn; lia. Qed.

(** A transfer between two members of the list keeps the sum. *)
Lemma sumZ_transfer f g l a b :
  NoDup l -> a ∈ l -> b ∈ l -> a <> b -> (forall x, x <> a -> x <> b -> g x = f x) ->
  g a + g b = f a + f b -> sumZ g l = sumZ f l.
Proof.
  intros Hnd Ha Hb Hab Ho Hs. apply elem_of_Permutation in Ha as [l1 Hp]. rewrite Hp in Hb, Hnd.
  apply elem_of_cons in Hb as [->|Hb]; [done|]. apply elem_of_Permutation in Hb as [l2 Hp2].
  rewrite Hp2 in Hnd. apply NoDup_cons in Hnd as [Na Hnd]. apply NoDup_cons in Hnd as [Nb _].
  assert (Hl : l ≡ₚ a :: b :: l2) by by rewrite Hp, Hp2.
  rewrite !(sumZ_perm _ _ _ Hl). unfold sumZ. cbn. fold (sumZ g l2) (sumZ f l2). rewrite (sumZ_ext g f l2); [lia|].
  intros x Hx. apply Ho; intros ->; set_solver.
Qed.

Lemma exec_sum c o accts :
  accounts_ok c.2 -> op_ok o -> NoDup accts -> gas_account_name ∈ accts ->
  (forall a, op_account o = Some a -> a ∈ accts) ->
  sumZ (core_balance (kv (exec c o).2)) accts = sumZ (core_balance (kv c.2)) accts.
Proof.
  intros Hc Ho Hnd Hg Ha. destruct (exec_ok _ _ Hc Ho) as [He|(p & Hp & [He|(Hne & He & Hs)])].
  - by apply sumZ_ext.
  - by apply sumZ_ext.
  - apply (sumZ_transfer _ _ _ p gas_account_name); auto.
Qed.

(** C7. Gas moves core tokens and never makes or destroys any: from a fresh
    database, whatever the chain asks of the resource manager (new accounts,
    new limits, transactions and ram charged, blocks assembled, operations that
    throw and are undone), the core tokens of all the accounts together are
    what they were.  The list [accts] holds the gas account and the accounts
    that are charged.  That the gas account is never itself a limited payer,
    which would have it credited twice, follows from the operations. *)
Theorem core_tokens_conserved db ops accts :
  fresh db -> Forall op_ok ops -> NoDup accts -> gas_account_name ∈ accts ->
  Forall (fun o => forall a, op_account o = Some a -> a ∈ accts) ops ->
  sumZ (core_balance (kv (run (1, db) ops).2)) accts = sumZ (core_balance (kv db)) accts.
Proof.
  intros Hf%fresh_accounts_ok Hops Hnd Hg Hin. change (kv db) with (kv (1, db).2). change db with (1, db).2 in Hf.
  revert Hf Hin. generalize (1, db). induction Hops as [|o ops Ho _ IH]; intros c Hc Hin; [done|].
  apply Forall_cons in Hin as [Hin Hins]. cbn [run foldl] in *.
  rewrite IH; [|by apply exec_accounts_ok|done]. by eapply exec_sum.
Qed.

(** C8. Suppose every configuration of the chain has block maxima of at most [B],
    for a [B] of at most 2^37 and not below the default of 2^20, which the code
    does not check, and fewer than 2^32 operations were asked for, so that block numbers
    do not wrap. Then assembling a block never fails in the resource accounting,
    whatever was done before: the moving averages, the elastic limits and their
    overflow checks accept the next block; the pending usage is cleared, and each
    virtual limit is between the configured maximum and a thousand times it.
    [huge_virtual_limit_rejected] and [oversized_usage_rejected] say why the
    bound is needed. *)
Theorem block_accounting_never_fails B db ops :
  2 ^ 20 <= B <= usage_bound -> fresh db -> maxima_ok B (global_config db) -> Forall op_ok ops ->
  Forall (op_maxima_ok B) ops -> 2 + Z.of_nat (length ops) < 2 ^ 32 ->
  let '(head, d) := run (1, db) ops in
  exists d', assemble_block_usage (head + 1) d = Ok d' /\
    pending_cpu_usage (state d') = 0 /\ pending_net_usage (state d') = 0 /\
    max_block_cpu_usage (global_config d) <= virtual_cpu_limit (state d')
      <= 1000 * max_block_cpu_usage (global_config d) /\
    max_block_net_usage (global_config d) <= virtual_net_limit (state d')
      <= 1000 * max_block_net_usage (global_config d) /\
    average (average_block_cpu_usage (state d')) <= B + 1 /\
    average (average_block_net_usage (state d')) <= B + 1.
Proof.
  intros HB Hf Hm Hops Hms Hlen. pose proof (fresh_run_ok _ _ HB Hf Hm) as Hc.
  pose proof (run_run_ok B ops (1, db) Hc Hops Hms) as Hr. cbn [fst] in Hr. specialize (Hr ltac:(lia)).
  assert (Hh : (run (1, db) ops).1 <= 1 + Z.of_nat (length ops)).
  { clear. change 1 with (1, db).1 at 2. generalize (1, db). induction ops as [|o ops IH]; intros c; cbn; [lia|].
    pose proof (exec_head c o). specialize (IH (exec c o)). unfold run in IH. lia. }
  destruct (run (1, db) ops) as [head d]. cbn [fst] in Hh. destruct Hr as (HB' & Hh0 & Hb & _). cbn [fst snd] in *.
  destruct (assemble_block_usage_Ok B head d) as (d' & E & Hb' & P1 & P2 & V1 & V2 & _); [done..|lia|lia|].
  exists d'. destruct Hb' as ((_ & Hvc & _) & (_ & Hvn & _) & _). unfold average.
  change block_average_window with 120 in *. change Precision with 1000000 in *.
  pose proof (integer_divide_ceil_bound (value_ex (average_block_cpu_usage (state d'))) 1000000 (B + 1)).
  pose proof (integer_divide_ceil_bound (value_ex (average_block_net_usage (state d'))) 1000000 (B + 1)).
  split_and!; first [done|lia].
Qed.

(** Without the bound: a block that used more than the averages can hold is
    rejected. *)
Lemma oversized_usage_rejected n db :
  max_raw_value < pending_cpu_usage (state db) -> is_Ok (assemble_block_usage n db) = false.
Proof.
  intros Hu. destruct (assemble_block_usage n db) as [d'|] eqn:E; [|done].
  unfold assemble_block_usage, process_block_usage in E. apply bind_Ok in E as (d & Ed & E).
  apply bind_Ok in E as (a & Ea & _). unfold accumulator_add in Ea. apply bind_Ok in Ea as (? & Ha & _).
  apply EOS_ASSERT_Ok in Ha. unfold set_block_parameters in Ed. do 2 apply bind_Ok in Ed as (? & _ & Ed).
  destruct (_ && _); apply Ok_inj in Ed as <-; cbn in Ha; lia.
Qed.

(** And once a virtual limit was set to more than the expansion by 1000/999 and
    the contraction by 99/100 can multiply, no block is accepted. *)
Lemma huge_virtual_limit_rejected n db :
  uint64_max / 99 < virtual_net_limit (state db) -> is_Ok (assemble_block_usage n db) = false.
Proof.
  intros Hv. destruct (assemble_block_usage n db) as [d'|] eqn:E; [|done].
  unfold assemble_block_usage, process_block_usage, update_virtual_cpu_limit in E. apply bind_Ok in E as (d & Ed & E).
  assert (state d = state db /\ (exists m p, net_limit_parameters (config d) = block_limit_parameters m p)) as [Es (m & p & Ep)].
  { destruct (set_block_parameters_Ok (global_config db)
      (max_block_cpu_usage (global_config db)) (target_block_cpu_usage_pct (global_config db))
      (max_block_net_usage (global_config db)) (target_block_net_usage_pct (global_config db)) db)
      as (d0 & E0 & _ & En & Ed0). rewrite E0 in Ed. apply Ok_inj in Ed as <-. rewrite Ed0. split; [done|].
    eexists _, _. rewrite <- Ed0. exact En. }
  apply bind_Ok in E as (a1 & _ & E). apply bind_Ok in E as (s1 & E1 & E). apply bind_Ok in E1 as (v1 & _ & E1).
  apply Ok_inj in E1 as <-. apply bind_Ok in E as (a2 & _ & E). apply bind_Ok in E as (s2 & E2 & _).
  unfold update_virtual_net_limit in E2. apply bind_Ok in E2 as (v2 & E2 & _). rewrite Ep, Es in E2.
  unfold update_elastic_limit in E2. apply bind_Ok in E2 as (r & Er & _). cbn [virtual_net_limit] in Er.
  assert (forall k, 99 <= k -> uint64_max / k <= uint64_max / 99) as Hk
    by (intros k Hk; apply Z.div_le_compat_l; unfold uint64_max; lia).
  destruct (_ <? _); apply bind_Ok in Er as (? & Er & _); apply EOS_ASSERT_Ok in Er; cbn in Er;
    [pose proof (Hk 99)|pose proof (Hk 1000)]; unfold uint64_max in *; lia.
Qed.

(** A limited payer pays for its transaction exactly once and in order:
    the gas is the price of the cpu and net it used; the reserve pays first,
    and the core tokens only for what the reserve does not cover, in which case
    the reserve is used up; what leaves the payer's balance arrives at the gas
    account; the counter of consumed gas grows by the same amount; no other
    account's limits or tokens change. *)
Theorem transaction_billing db ops ru ru' t l (d d' : db_t) :
  fresh db -> Forall op_ok ops -> d = (run (1, db) ops).2 ->
  op_ok (op_add_transaction_usage ru) ->
  find_row (payer ru) (limits d) = Some l -> is_unlimited l = false ->
  add_transaction_usage ru d = Ok (d', ru', t) ->
  let used := cpu_gas ru' + net_gas ru' in
  let tokens x a := core_balance (kv x) a in
  convert_cpu_to_gas (config d) (t_cpu_usage ru) = Ok (cpu_gas ru') /\
  convert_net_to_gas (config d) (t_net_usage ru) = Ok (net_gas ru') /\
  (exists reserved', find_row (payer ru) (limits d') = Some (ResourceLimitsObject reserved' false) /\
     gas l + tokens d (payer ru) = used + reserved' + tokens d' (payer ru) /\
     (gas l < used -> reserved' = 0)) /\
  (used <= gas l -> tokens d' (payer ru) = tokens d (payer ru)) /\
  tokens d' gas_account_name = tokens d gas_account_name + (tokens d (payer ru) - tokens d' (payer ru)) /\
  total_gas_consumed (state d') = total_gas_consumed (state d) + used /\
  (forall b, b <> payer ru -> find_row b (limits d') = find_row b (limits d)) /\
  (forall b, b <> payer ru -> b <> gas_account_name -> tokens d' b = tokens d b).
Proof.
  intros Hf Hops -> Hru Hl Hu Ht used tokens.
  pose proof (run_accounts_ok ops (1, db) (fresh_accounts_ok _ Hf) Hops) as (Hok & Hk).
  destruct Hru as [Hn Hc]. destruct (Hok _ _ Hl) as [Hg _].
  destruct (add_transaction_usage_Ok _ _ _ _ _ _ Ht Hl Hg (limited_not_gas _ _ _ Hok Hl) Hn Hc Hk)
    as (Hcnt & _ & _ & _ & _ & _ & Hch). rewrite Hu in Hch.
  destruct Hch as (Ec & En & r & d1 & (Ho & Hs & Hg1 & Hle & Hz & _) & Hrow & El & Ek).
  unfold tokens. rewrite El, Ek. split_and!; try done.
  - exists r. rewrite Hrow, decide_True, Hu by done. done.
  - apply Hcnt.
  - intros b Hb. by rewrite Hrow, decide_False.
Qed.

End runs.

(** ** Conversions *)

Lemma multiply_decimal_ceil_Ok a b :
  0 <= a -> 0 <= b < 2 ^ 32 -> a * b + 999 < 2 ^ 64 ->
  multiply_decimal_ceil a b 1000 = Ok (integer_divide_ceil (a * b) 1000).
Proof.
  intros Ha Hb Hm. unfold multiply_decimal_ceil. destruct (_ || _) eqn:E.
  { assert (a * b = 0) as -> by nia. done. }
  assert (0 <= a * b) by nia. rewrite u64_small by lia.
  assert (Hdiv : 0 <= (a * b + (1000 - 1)) / 1000 <= uint64_max).
  { split; [apply Z.div_pos; lia|]. apply Z.div_le_upper_bound; unfold uint64_max; lia. }
  rewrite (EOS_ASSERT_true (_ && _)) by (unfold uint64_max in *; lia). cbn. f_equal.
  unfold integer_divide_ceil. destruct (0 <? (a * b) mod 1000) eqn:E2; Z.to_euclidean_division_equations; lia.
Qed.

Lemma divide_decimal_Ok a b :
  0 <= a -> 0 < b -> a * 1000 < 2 ^ 64 -> divide_decimal a b 1000 = Ok (a * 1000 / b).
Proof.
  intros Ha Hb Hm. unfold divide_decimal. destruct (_ || _) eqn:E.
  { assert (a = 0) as -> by lia. by rewrite Z.div_0_l by lia. }
  rewrite u64_small by lia.
  rewrite EOS_ASSERT_true; [done|]. apply Z.leb_le, Z.div_le_upper_bound; unfold uint64_max; nia.
Qed.

(** Below [2^64] the conversions are exact and safe: the cpu an amount of
    gas buys is [gas * 1000 / rate] rounded down, and using that cpu costs no
    more gas than was given.  From [2^64 / 1000] gas on, the product wraps
    before it is widened and the overflow check, which looks at the quotient,
    cannot see it: an account with more gas is told it can afford no cpu at
    all. *)
Theorem gas_conversion_exact_until_overflow :
  (forall c g, 0 <= g -> 0 < gas_per_cpu_ms c < 2 ^ 32 -> g * 1000 + 999 < 2 ^ 64 ->
     exists v cost, convert_gas_to_cpu c g = Ok v /\ v = g * 1000 / gas_per_cpu_ms c /\
       convert_cpu_to_gas c v = Ok cost /\ cost <= g) /\
  (forall c, gas_per_cpu_ms c = 10000 ->
     convert_gas_to_cpu c (2 ^ 64 / 1000) = Ok (2 ^ 64 / 1000 * 1000 / 10000) /\
     convert_gas_to_cpu c (2 ^ 64 / 1000 + 1) = Ok 0).
Proof.
  split.
  - intros c g Hg Hr Hm. exists (g * 1000 / gas_per_cpu_ms c), (integer_divide_ceil (g * 1000 / gas_per_cpu_ms c * gas_per_cpu_ms c) 1000).
    unfold convert_gas_to_cpu, convert_gas_to_res. destruct (Z.eqb_spec (gas_per_cpu_ms c) 0); [lia|].
    pose proof (Z.mul_div_le (g * 1000) (gas_per_cpu_ms c)).
    assert (0 <= g * 1000 / gas_per_cpu_ms c) by (apply Z.div_pos; lia).
    rewrite divide_decimal_Ok by lia. unfold convert_cpu_to_gas, gas_rate_precision.
    rewrite multiply_decimal_ceil_Ok by lia. split_and!; [done..|].
    apply integer_divide_ceil_bound; nia.
  - intros c Hc. unfold convert_gas_to_cpu. rewrite Hc. by vm_compute.
Qed.

(** ** A small chain *)

Definition toy_row (b : Z) : list Z := le_bytes 8 b ++ le_bytes 8 core_symbol.
Definition toy_kv : gmap kv_key (list Z) :=
  <[core_row_key 5 := toy_row 20000]> (<[core_row_key gas_account_name := toy_row 7]> ∅).
Definition toy_config : chain_config :=
  ChainConfig (1024 * 1024) 1000 200000 1000 (64 * 2 ^ 30) 10000 50000 50000.
Definition toy_db : database (gmap Z resource_limits_object) (gmap Z resource_usage_object) (gmap kv_key (list Z)) :=
  initialize_database toy_config ∅ ∅ toy_kv.
Definition toy_use : transaction_res_usage := TransactionResUsage 5 100 0 200 0.
Definition toy_setup : list resource_op :=
  [op_initialize_account gas_account_name; op_initialize_account 5; op_set_account_limits 5 1000 false].
Definition toy_ops : list resource_op :=
  toy_setup ++ [op_add_transaction_usage toy_use; op_add_ram_usage 5 64; op_set_account_limits gas_account_name 0 false;
                op_assemble_block; op_add_ram_usage 5 (-64); op_add_transaction_usage toy_use].

Lemma toy_fresh : fresh toy_db.
Proof. exists toy_config, ∅, ∅, toy_kv. done. Qed.

Lemma toy_setup_ok : Forall op_ok toy_setup.
Proof. unfold toy_setup. repeat constructor; cbn; unfold is_u64; lia. Qed.

Lemma toy_ops_ok : Forall op_ok toy_ops.
Proof. unfold toy_ops, toy_setup. cbn [app]. repeat constructor; cbn; unfold is_u64; lia. Qed.

Example toy_balances :
  core_balance (kv (run (1, toy_db) toy_ops).2) 5 = 20000 - 6000 - 3200 - 3800 /\
  core_balance (kv (run (1, toy_db) toy_ops).2) gas_account_name = 7 + 6000 + 3200 + 3800.
Proof. by vm_compute. Qed.

(** A configuration whose maximum net usage is 2^60: the block that brings it
    passes and raises the virtual limit, the next one is rejected. *)
Definition huge_config : chain_config :=
  ChainConfig (2 ^ 60) 1000 200000 1000 (64 * 2 ^ 30) 10000 50000 50000.

Example huge_maximum_stops_the_chain :
  let '(head, d) := run (1, toy_db) [op_set_configuration huge_config; op_assemble_block] in
  head = 2 /\ virtual_net_limit (state d) = 2 ^ 60 /\ is_Ok (assemble_block_usage 3 d) = false.
Proof. by vm_compute. Qed.

Lemma core_tokens_conserved_witness :
  sumZ (core_balance (kv (run (1, toy_db) toy_ops).2)) [5; gas_account_name]
  = sumZ (core_balance (kv toy_db)) [5; gas_account_name].
Proof.
  apply core_tokens_conserved.
  - exact toy_fresh.
  - exact toy_ops_ok.
  - by apply (bool_decide_unpack _); vm_compute.
  - by apply (bool_decide_unpack _); vm_compute.
  - unfold toy_ops, toy_setup. cbn [app].
    repeat (apply Forall_cons_2;
      [intros a Ha; cbn in Ha; first [discriminate Ha|injection Ha as <-; by left]|]).
    apply Forall_nil_2.
Defined.

Lemma block_accounting_never_fails_witness :
  exists d', assemble_block_usage ((run (1, toy_db) toy_ops).1 + 1) (run (1, toy_db) toy_ops).2 = Ok d' /\
    200000 <= virtual_cpu_limit (state d') <= 1000 * 200000.
Proof.
  pose proof (block_accounting_never_fails (2 ^ 20) toy_db toy_ops ltac:(unfold usage_bound; lia)
    toy_fresh ltac:(split; cbn; lia) toy_ops_ok ltac:(repeat constructor) eq_refl) as Hb.
  replace (run (1, toy_db) toy_ops) with
    ((run (1, toy_db) toy_ops).1, (run (1, toy_db) toy_ops).2) in Hb by (symmetry; apply surjective_pairing).
  destruct Hb as (d' & E & _ & _ & Hv & _). exists d'. split; [exact E|].
  replace (max_block_cpu_usage _) with 200000 in Hv by by vm_compute. exact Hv.
Defined.

Lemma transaction_billing_witness :
  exists d', core_balance (kv d') 5 = 14000 /\
    find_row 5 (limits d') = Some (ResourceLimitsObject 0 false) /\
    match add_transaction_usage toy_use (run (1, toy_db) toy_setup).2 with
    | Ok (d, _, _) => d = d' | Err _ => False end.
Proof.
  assert (Hok : is_Ok (add_transaction_usage toy_use (run (1, toy_db) toy_setup).2) = true)
    by (vm_compute; reflexivity).
  destruct (add_transaction_usage toy_use (run (1, toy_db) toy_setup).2) as [[[d' ru'] t]|e] eqn:E;
    [|discriminate Hok]. clear Hok.
  exists d'.
  assert (Eg : ru' = TransactionResUsage 5 100 5000 200 2000).
  { enough (Ok ru' = Ok (TransactionResUsage 5 100 5000 200 2000)) as [= ->] by done.
    transitivity ('(_, r, _) ← add_transaction_usage toy_use (run (1, toy_db) toy_setup).2; Ok r); [by rewrite E|].
    clear E. vm_compute. reflexivity. }
  assert (Hf : find_row 5 (limits (run (1, toy_db) toy_setup).2) = Some (ResourceLimitsObject 1000 false))
    by (vm_compute; reflexivity).
  assert (H20 : core_balance (kv (run (1, toy_db) toy_setup).2) 5 = 20000) by (vm_compute; reflexivity).
  assert (Hop : op_ok (op_add_transaction_usage toy_use)) by (cbn; lia).
  remember (run (1, toy_db) toy_setup).2 as d eqn:Ed.
  destruct (transaction_billing toy_db toy_setup toy_use ru' t (ResourceLimitsObject 1000 false)
    d d' toy_fresh toy_setup_ok Ed Hop Hf eq_refl E) as (_ & _ & (r & Hr & Hs & Hz) & _).
  rewrite Eg in Hs, Hz. cbn [gas cpu_gas net_gas payer toy_use] in *. specialize (Hz ltac:(lia)).
  rewrite H20 in Hs.
  subst r. split; [lia|]. split; [exact Hr|done].
Defined.
