(* ===== verification/Authority.v ===== *)
(** Authorities (chain/include/eosio/chain/authority.hpp) and the check whether
    provided keys, permissions and a delay satisfy one
    (chain/include/eosio/chain/authority_checker.hpp).

    Public keys are any type [K] with decidable equality.  The function
    [permission_to_authority] that the checker is made with is a variable: it
    returns the authority of a permission, nothing, or the exception it throws. *)
From Stdlib Require Import ZArith Lia ZifyBool.
From stdpp Require Import base tactics numbers list gmap.
From S2P Require Import Prelude ProducerSchedule.
#[local] Open Scope Z_scope.

(** ** Data *)

(** Names are their 64-bit values; the empty name is 0. *)
Record permission_level : Type := PermissionLevel { actor : Z; permission : Z }.

#[global] Instance permission_level_eq_dec : EqDecision permission_level.
Proof. solve_decision. Defined.
#[global] Instance permission_level_countable : Countable permission_level.
Proof.
  refine (inj_countable' (fun p => (actor p, permission p)) (fun x => PermissionLevel x.1 x.2) _). by intros [].
Defined.

(** [tie(actor, permission)], compared lexicographically. *)
Definition permission_level_ltb (a b : permission_level) : bool :=
  (actor a <? actor b) || ((actor a =? actor b) && (permission a <? permission b)).

Record permission_level_weight : Type := PermissionLevelWeight {
  plw_permission : permission_level;
  plw_weight : Z
}.
Record wait_weight : Type := WaitWeight { ww_wait_sec : Z; ww_weight : Z }.

Record authority (K : Type) : Type := Authority {
  auth_threshold : Z;
  auth_keys : list (key_weight K);
  auth_accounts : list permission_level_weight;
  auth_waits : list wait_weight
}.
Arguments Authority {K}.
Arguments auth_threshold {K}.
Arguments auth_keys {K}.
Arguments auth_accounts {K}.
Arguments auth_waits {K}.

(** The constructors from one key and from one permission, with a delay. *)
Definition authority_of_key {K} (k : K) (delay_sec : Z) : authority K :=
  if 0 <? delay_sec
  then Authority 2 [{| kw_key := k; kw_weight := 1 |}] [] [WaitWeight delay_sec 1]
  else Authority 1 [{| kw_key := k; kw_weight := 1 |}] [] [].
Definition authority_of_permission {K} (p : permission_level) (delay_sec : Z) : authority K :=
  if 0 <? delay_sec
  then Authority 2 [] [PermissionLevelWeight p 1] [WaitWeight delay_sec 1]
  else Authority 1 [] [PermissionLevelWeight p 1] [].

(** ** validate *)

(** One of its three loops: strictly ascending, and the weights added up. *)
Fixpoint ascending {A} (lt : A -> A -> bool) (weight : A -> Z) (prev : option A) (total_weight : Z) (l : list A)
    : option Z :=
  match l with
  | [] => Some total_weight
  | x :: l =>
      if match prev with Some y => negb (lt y x) | None => false end then None
      else ascending lt weight (Some x) (u32 (total_weight + weight x)) l
  end.

Definition validate {K} (key_ltb : K -> K -> bool) (a : authority K) : bool :=
  if 2 ^ 16 <? vsize (auth_keys a) + vsize (auth_accounts a) + vsize (auth_waits a) then false
  else if auth_threshold a =? 0 then false
  else
    match ascending (fun x y => key_ltb (kw_key x) (kw_key y)) kw_weight None 0 (auth_keys a) with
    | None => false
    | Some w =>
        match ascending (fun x y => permission_level_ltb (plw_permission x) (plw_permission y)) plw_weight None w
                (auth_accounts a) with
        | None => false
        | Some w =>
            if match auth_waits a with x :: _ => ww_wait_sec x =? 0 | [] => false end then false
            else
              match ascending (fun x y => ww_wait_sec x <? ww_wait_sec y) ww_weight None w (auth_waits a) with
              | None => false
              | Some w => auth_threshold a <=? w
              end
        end
    end.

(** ** The checker *)

Inductive permission_cache_status : Type := being_evaluated | permission_unsatisfied | permission_satisfied.

Abbreviation permission_cache_type := (gmap permission_level permission_cache_status).

Definition permission_status_in_cache (permissions : permission_cache_type) (level : permission_level)
    : option permission_cache_status :=
  match permissions !! level with
  | Some s => Some s
  | None => permissions !! PermissionLevel (actor level) 0
  end.

(** An entry of the map of meta permissions: which visitor is called. *)
Inductive meta_permission (K : Type) : Type :=
| account_permission (p : permission_level_weight)
| key_permission (k : key_weight K)
| wait_permission (w : wait_weight).
Arguments account_permission {K}.
Arguments key_permission {K}.
Arguments wait_permission {K}.

Definition meta_weight {K} (m : meta_permission K) : Z :=
  match m with account_permission p => plw_weight p | key_permission k => kw_weight k | wait_permission w => ww_weight w end.
Definition meta_priority {K} (m : meta_permission K) : Z :=
  match m with account_permission _ => 1 | key_permission _ => 2 | wait_permission _ => 3 end.
Definition meta_greater {K} (x y : meta_permission K) : bool :=
  (meta_weight y <? meta_weight x) || ((meta_weight x =? meta_weight y) && (meta_priority y <? meta_priority x)).

(** [flat_multimap] with [std::greater]: a new entry goes behind those with the
    same key. *)
Fixpoint insert_meta {K} (m : meta_permission K) (l : list (meta_permission K)) : list (meta_permission K) :=
  match l with
  | [] => [m]
  | x :: l' => if meta_greater m x then m :: l else x :: insert_meta m l'
  end.

Definition auth_factors {K} (a : authority K) : list (meta_permission K) :=
  (account_permission <$> auth_accounts a) ++ (key_permission <$> auth_keys a) ++ (wait_permission <$> auth_waits a).
Definition meta_permissions {K} (a : authority K) : list (meta_permission K) :=
  foldl (fun l m => insert_meta m l) [] (auth_factors a).

Section Checker.
Context {K : Type} `{EqDecision K}.
Variable permission_to_authority : permission_level -> result (option (authority K)).
Variable recursion_depth_limit : Z.
Variable provided_keys : list K.
Variable provided_permissions : list permission_level.
Variable provided_delay : Z.

Record checker_state : Type := CheckerState {
  used_keys : list bool;
  cached_permissions : permission_cache_type
}.

Definition set_status (p : permission_level) (s : permission_cache_status) (st : checker_state) : checker_state :=
  CheckerState (used_keys st) (<[p := s]> (cached_permissions st)).

(** [boost::find(provided_keys, key)]: the position of the key. *)
Fixpoint find_key (k : K) (l : list K) : option nat :=
  match l with
  | [] => None
  | x :: l => if bool_decide (x = k) then Some O else S <$> find_key k l
  end.

Definition evaluator : Type := authority K -> checker_state -> result (bool * checker_state).

(** [weight_tally_visitor]: the new total weight.  [rec] is the evaluation of a
    nested authority, when [recursion_depth < recursion_depth_limit]. *)
Definition visit (rec : option evaluator) (m : meta_permission K) (total_weight : Z) (st : checker_state)
    : result (Z * checker_state) :=
  match m with
  | wait_permission w =>
      mret (if ww_wait_sec w * 1000000 <=? provided_delay then u32 (total_weight + ww_weight w) else total_weight, st)
  | key_permission k =>
      match find_key (kw_key k) provided_keys with
      | Some i => mret (u32 (total_weight + kw_weight k),
                        CheckerState (<[i := true]> (used_keys st)) (cached_permissions st))
      | None => mret (total_weight, st)
      end
  | account_permission p =>
      match permission_status_in_cache (cached_permissions st) (plw_permission p) with
      | Some permission_satisfied => mret (u32 (total_weight + plw_weight p), st)
      | Some _ => mret (total_weight, st)
      | None =>
          match rec with
          | None => mret (total_weight, st)
          | Some evaluate =>
              match permission_to_authority (plw_permission p) with
              | Err permission_query_exception | Ok None => mret (total_weight, st)
              | Err e => Err e
              | Ok (Some auth) =>
                  '(r, st) ← evaluate auth (set_status (plw_permission p) being_evaluated st);
                  mret (if r : bool
                        then (u32 (total_weight + plw_weight p), set_status (plw_permission p) permission_satisfied st)
                        else (total_weight, set_status (plw_permission p) permission_unsatisfied st))
              end
          end
      end
  end.

(** The loop over the meta permissions. *)
Fixpoint tally (rec : option evaluator) (threshold : Z) (ms : list (meta_permission K)) (total_weight : Z)
    (st : checker_state) : result (bool * checker_state) :=
  match ms with
  | [] => mret (false, st)
  | m :: ms =>
      '(w, st) ← visit rec m total_weight st;
      if threshold <=? w then mret (true, st) else tally rec threshold ms w st
  end.

(** [satisfied(authority, cached_permissions, depth)], with [levels] the number
    of nested authorities the depth limit still allows.  The used keys are put
    back unless the authority is satisfied. *)
Fixpoint satisfied_authority (levels : nat) (auth : authority K) (st : checker_state) : result (bool * checker_state) :=
  let rec := match levels with O => None | S levels => Some (satisfied_authority levels) end in
  '(r, st') ← tally rec (auth_threshold auth) (meta_permissions auth) 0 st;
  mret (if r : bool then (true, st') else (false, CheckerState (used_keys st) (cached_permissions st'))).

Definition nested (levels : nat) : option evaluator :=
  match levels with O => None | S levels => Some (satisfied_authority levels) end.

Definition initialize_permission_cache : permission_cache_type :=
  foldl (fun c p => <[p := permission_satisfied]> c) ∅ provided_permissions.

(** [satisfied(permission)] with no cache given: the used keys are kept from
    call to call. *)
Definition satisfied (p : permission_level) (used : list bool) : result (bool * list bool) :=
  '(w, st) ← visit (nested (Z.to_nat recursion_depth_limit)) (account_permission (PermissionLevelWeight p 1)) 0
               (CheckerState used initialize_permission_cache);
  mret (0 <? w, used_keys st).

Definition no_keys_used : list bool := (fun _ => false) <$> provided_keys.
Definition all_keys_used (used : list bool) : bool := forallb id used.
Definition keys_marked (mark : bool) (used : list bool) : list K :=
  fst <$> filter (fun x => x.2 = mark) (zip provided_keys used).
End Checker.
