(* ===== verification/AuthorityRuns.v ===== *)
(** What the check of authorities decides: a reference definition without cache,
    early return or bookkeeping of keys; the check is sound for it on every
    system of authorities and exact where permissions do not refer to each other
    in a circle; valid authorities can be satisfied; and how used keys are
    tracked. *)
From Stdlib Require Import ZArith Lia ZifyBool.
From stdpp Require Import base tactics numbers list gmap.
From S2P Require Import Prelude ProducerSchedule Authority.
#[local] Open Scope Z_scope.

(** ** Sums of weights *)

Section Weights.
Context {K : Type}.

(** The weight of the factors that count. *)
Definition weight_sum (ok : meta_permission K -> bool) (l : list (meta_permission K)) : Z :=
  foldr (fun m acc => (if ok m then meta_weight m else 0) + acc) 0 l.

Definition weights_ok (l : list (meta_permission K)) : Prop := Forall (fun m => 0 <= meta_weight m < 2 ^ 16) l.

Lemma weight_sum_nonneg ok l : weights_ok l -> 0 <= weight_sum ok l.
Proof. induction 1 as [|m l Hm _ IH]; cbn [weight_sum foldr]; [lia|]. fold (weight_sum ok l). destruct (ok m); lia. Qed.

Lemma weight_sum_mono ok ok' l :
  weights_ok l -> (forall m, m ∈ l -> ok m = true -> ok' m = true) -> weight_sum ok l <= weight_sum ok' l.
Proof.
  induction 1 as [|m l Hm Hl IH]; intros Hi; cbn [weight_sum foldr]; [lia|].
  fold (weight_sum ok l) (weight_sum ok' l).
  assert (weight_sum ok l <= weight_sum ok' l) by (apply IH; intros; apply Hi; [by right|done]).
  pose proof (Hi m ltac:(left)). destruct (ok m); [rewrite H0 by done; lia|destruct (ok' m); lia].
Qed.

Lemma weight_sum_ext ok ok' l : (forall m, m ∈ l -> ok m = ok' m) -> weight_sum ok l = weight_sum ok' l.
Proof.
  induction l as [|m l IH]; intros Hi; [done|]. cbn [weight_sum foldr]. fold (weight_sum ok l) (weight_sum ok' l).
  rewrite (Hi m) by left. rewrite IH; [done|]. intros; apply Hi; by right.
Qed.

Lemma weight_sum_perm ok l k : l ≡ₚ k -> weight_sum ok l = weight_sum ok k.
Proof.
  induction 1 as [|m l k _ IH|a b l|l k j _ IH1 _ IH2]; cbn [weight_sum foldr]; [done| |lia|congruence].
  fold (weight_sum ok l) (weight_sum ok k). lia.
Qed.

Lemma weight_sum_bound ok l : weights_ok l -> weight_sum ok l <= vsize l * (2 ^ 16 - 1).
Proof.
  induction 1 as [|m l Hm _ IH]; cbn [weight_sum foldr]; [done|]. fold (weight_sum ok l).
  unfold vsize in *. cbn [length]. destruct (ok m); lia.
Qed.

Lemma weight_sum_app ok l k : weight_sum ok (l ++ k) = weight_sum ok l + weight_sum ok k.
Proof. induction l as [|m l IH]; cbn [weight_sum foldr app]; [done|]. fold (weight_sum ok (l ++ k)) (weight_sum ok l). lia. Qed.

(** The map of meta permissions holds the factors of the authority. *)
Lemma insert_meta_perm (m : meta_permission K) l : insert_meta m l ≡ₚ m :: l.
Proof. induction l as [|x l IH]; cbn [insert_meta]; [done|]. destruct (meta_greater m x); [done|]. rewrite IH. constructor. Qed.

Lemma meta_permissions_perm (a : authority K) : meta_permissions a ≡ₚ auth_factors a.
Proof.
  unfold meta_permissions. set (l := auth_factors a). rewrite <- (app_nil_r l) at 2. generalize (@nil (meta_permission K)) as acc.
  induction l as [|m l IH]; intros acc; cbn [foldl]; [done|]. rewrite IH, insert_meta_perm. cbn [app].
  by rewrite Permutation_middle.
Qed.

Lemma meta_permissions_in (a : authority K) m : m ∈ meta_permissions a <-> m ∈ auth_factors a.
Proof. by rewrite meta_permissions_perm. Qed.

Definition auth_typed (a : authority K) : Prop := weights_ok (auth_factors a).

Lemma meta_permissions_typed a : auth_typed a -> weights_ok (meta_permissions a).
Proof. unfold auth_typed, weights_ok. by rewrite meta_permissions_perm. Qed.
End Weights.

(** ** The reference definition *)

Section Reference.
Context {K : Type} `{EqDecision K}.
Variable permission_to_authority : permission_level -> result (option (authority K)).
Variable provided_keys : list K.
Variable provided_permissions : list permission_level.
Variable provided_delay : Z.

(** A permission that was provided itself, or by the wildcard of its account. *)
Definition given (p : permission_level) : bool :=
  bool_decide (p ∈ provided_permissions) || bool_decide (PermissionLevel (actor p) 0 ∈ provided_permissions).

Definition factor_ok (holds : permission_level -> bool) (m : meta_permission K) : bool :=
  match m with
  | account_permission p => holds (plw_permission p)
  | key_permission k => bool_decide (kw_key k ∈ provided_keys)
  | wait_permission w => ww_wait_sec w * 1000000 <=? provided_delay
  end.

Definition authority_holds (holds : permission_level -> bool) (a : authority K) : bool :=
  auth_threshold a <=? weight_sum (factor_ok holds) (auth_factors a).

(** A permission holds, by a derivation of at most [n] nested authorities. *)
Fixpoint holds_at (n : nat) (p : permission_level) : bool :=
  given p ||
  match n with
  | O => false
  | S n => match permission_to_authority p with
           | Ok (Some a) => authority_holds (holds_at n) a
           | _ => false
           end
  end.

Lemma factor_ok_mono (h h' : permission_level -> bool) m :
  (forall p, h p = true -> h' p = true) -> factor_ok h m = true -> factor_ok h' m = true.
Proof. intros Hi. destruct m; cbn [factor_ok]; auto. Qed.

Hypothesis typed : forall p a, permission_to_authority p = Ok (Some a) -> auth_typed a.

Lemma authority_holds_mono h h' a :
  auth_typed a -> (forall p, h p = true -> h' p = true) -> authority_holds h a = true -> authority_holds h' a = true.
Proof.
  unfold authority_holds. intros Ht Hi. rewrite !Z.leb_le. intros Hh.
  pose proof (weight_sum_mono (factor_ok h) (factor_ok h') (auth_factors a) Ht) as Hm.
  specialize (Hm ltac:(intros m _; by apply factor_ok_mono)). lia.
Qed.

Lemma holds_at_mono n m p : (n <= m)%nat -> holds_at n p = true -> holds_at m p = true.
Proof.
  revert m p; induction n as [|n IH]; intros m p Hnm; cbn [holds_at].
  - rewrite orb_false_r. intros Hg. destruct m; cbn [holds_at]; by rewrite Hg.
  - destruct m as [|m]; [lia|]. cbn [holds_at]. intros [Hg|Ha]%orb_true_iff; [by rewrite Hg|].
    apply orb_true_iff. right. destruct (permission_to_authority p) as [[a|]|] eqn:Ep; [|done..].
    revert Ha. apply authority_holds_mono; [by eapply typed|]. intros q. apply IH. lia.
Qed.
End Reference.

Lemma find_key_Some {K} `{EqDecision K} (k : K) l i : find_key k l = Some i -> k ∈ l.
Proof.
  revert i; induction l as [|x l IH]; intros i; cbn [find_key]; [done|].
  case_bool_decide as E; [subst; left|]. intros (j & Hj & _)%fmap_Some. right. eauto.
Qed.

Lemma find_key_None {K} `{EqDecision K} (k : K) l : find_key k l = None -> k ∉ l.
Proof.
  induction l as [|x l IH]; cbn [find_key]; [intros _; apply not_elem_of_nil|].
  case_bool_decide as E; [done|]. intros Hf%fmap_None. rewrite elem_of_cons. intros [->|Hin]; [done|]. by apply IH.
Qed.

(** ** Soundness *)

Section Sound.
Context {K : Type} `{EqDecision K}.
Variable permission_to_authority : permission_level -> result (option (authority K)).
Variable provided_keys : list K.
Variable provided_permissions : list permission_level.
Variable provided_delay : Z.
Abbreviation holds_at := (holds_at permission_to_authority provided_keys provided_permissions provided_delay).
Abbreviation authority_holds := (authority_holds provided_keys provided_delay).
Abbreviation factor_ok := (factor_ok provided_keys provided_delay).
Abbreviation given := (given provided_permissions).
Abbreviation visit := (visit permission_to_authority provided_keys provided_delay).
Abbreviation tally := (tally permission_to_authority provided_keys provided_delay).
Abbreviation satisfied_authority := (satisfied_authority permission_to_authority provided_keys provided_delay).

Hypothesis typed : forall p a, permission_to_authority p = Ok (Some a) -> auth_typed a.
(** A permission with an empty name has no authority: asking for it throws. *)
Hypothesis no_wildcard : forall n a, permission_to_authority (PermissionLevel n 0) <> Ok (Some a).

(** What the cache knows is true, and wildcards in it were provided. *)
Record cache_sound (c : permission_cache_type) : Prop := {
  cs_satisfied : forall p, c !! p = Some permission_satisfied -> exists n, holds_at n p = true;
  cs_wildcard : forall n s, c !! PermissionLevel n 0 = Some s -> PermissionLevel n 0 ∈ provided_permissions
}.

Lemma status_sound c p :
  cache_sound c -> permission_status_in_cache c p = Some permission_satisfied -> exists n, holds_at n p = true.
Proof.
  intros [Hs Hw]. unfold permission_status_in_cache. destruct (c !! p) as [s|] eqn:Ep; [intros [= ->]; auto|].
  intros E. exists O. cbn [AuthorityRuns.holds_at]. apply Hw in E. unfold AuthorityRuns.given.
  by rewrite (bool_decide_eq_true_2 _ E), !orb_true_r.
Qed.

Lemma cache_sound_insert c p s :
  cache_sound c -> (forall n, p <> PermissionLevel n 0) ->
  (s = permission_satisfied -> exists n, holds_at n p = true) -> cache_sound (<[p := s]> c).
Proof.
  intros [Hs Hw] Hp Hn. constructor.
  - intros q. destruct (decide (q = p)) as [->|Hq].
    + rewrite lookup_insert_eq. intros [= ->]. auto.
    + rewrite lookup_insert_ne by done. auto.
  - intros n s'. rewrite lookup_insert_ne by (by apply not_eq_sym; auto). apply Hw.
Qed.

(** An evaluation of nested authorities that is sound. *)
Definition evaluator_sound (rec : option (evaluator (K := K))) : Prop :=
  forall e a st b st', rec = Some e -> auth_typed a -> e a st = Ok (b, st') -> cache_sound (cached_permissions st) ->
    cache_sound (cached_permissions st') /\ (b = true -> exists n, authority_holds (holds_at n) a = true).

Lemma u32_le z : 0 <= z -> 0 <= u32 z <= z.
Proof. intros Hz. pose proof (u32_range z). split; [lia|]. by apply Z.mod_le. Qed.

(** A visit adds at most the weight of the factor, and only if it holds. *)
Lemma visit_sound rec m w st w' st' :
  evaluator_sound rec -> 0 <= meta_weight m -> 0 <= w -> visit rec m w st = Ok (w', st') ->
  cache_sound (cached_permissions st) ->
  cache_sound (cached_permissions st') /\ 0 <= w' /\
  exists n, w' <= w + (if factor_ok (holds_at n) m then meta_weight m else 0).
Proof.
  intros Hrec Hm Hw Hv Hc. destruct m as [p|k|x]; cbn [Authority.visit meta_weight AuthorityRuns.factor_ok] in *.
  - destruct (permission_status_in_cache (cached_permissions st) (plw_permission p)) as [[]|] eqn:Es.
    + apply Ok_inj in Hv as [= <- <-]. split_and!; [done..|]. exists O. destruct (holds_at 0 (plw_permission p)); lia.
    + apply Ok_inj in Hv as [= <- <-]. split_and!; [done..|]. exists O. destruct (holds_at 0 (plw_permission p)); lia.
    + apply Ok_inj in Hv as [= <- <-]. destruct (status_sound _ _ Hc Es) as [n Hn].
      pose proof (u32_le (w + plw_weight p) ltac:(lia)). split_and!; [done|lia|]. exists n. rewrite Hn. lia.
    + assert (forall w0 st0, w0 = w -> st0 = st -> cache_sound (cached_permissions st0) /\ 0 <= w0 /\
        exists n, w0 <= w + (if holds_at n (plw_permission p) then plw_weight p else 0)) as Hskip.
      { intros w0 st0 -> ->. split_and!; [done..|]. exists O. destruct (holds_at 0 (plw_permission p)); lia. }
      destruct rec as [e|]; [|apply Ok_inj in Hv as [= <- <-]; by apply Hskip].
      destruct (permission_to_authority (plw_permission p)) as [[a|]|[]] eqn:Ea;
        try discriminate Hv; try (apply Ok_inj in Hv as [= <- <-]; by apply Hskip).
      assert (forall n, plw_permission p <> PermissionLevel n 0) as Hnw
        by (intros n E; rewrite E in Ea; by apply no_wildcard in Ea).
      apply bind_Ok in Hv as ([b st1] & He & Hv).
      assert (cache_sound (cached_permissions (set_status (plw_permission p) being_evaluated st))) as Hc1
        by (by apply cache_sound_insert).
      destruct (Hrec e a _ _ _ eq_refl (typed _ _ Ea) He Hc1) as [Hc2 Hb]. apply Ok_inj in Hv.
      destruct b; injection Hv as <- <-; cbn [set_status cached_permissions].
      * destruct (Hb eq_refl) as [n Hn]. assert (holds_at (S n) (plw_permission p) = true) as Hh
          by (cbn [AuthorityRuns.holds_at]; rewrite Ea, Hn; apply orb_true_r).
        pose proof (u32_le (w + plw_weight p) ltac:(lia)). split_and!; [|lia|].
        -- apply cache_sound_insert; eauto.
        -- exists (S n). rewrite Hh. lia.
      * split_and!; [by apply cache_sound_insert|lia|]. exists O. destruct (holds_at 0 (plw_permission p)); lia.
  - destruct (find_key (kw_key k) provided_keys) as [i|] eqn:Ef; apply Ok_inj in Hv as [= <- <-].
    + pose proof (u32_le (w + kw_weight k) ltac:(lia)). split_and!; [done|lia|]. exists O.
      rewrite bool_decide_eq_true_2 by (by eapply find_key_Some). lia.
    + split_and!; [done..|]. exists O. case_bool_decide; lia.
  - apply Ok_inj in Hv as [= <- <-]. pose proof (u32_le (w + ww_weight x) ltac:(lia)).
    destruct (ww_wait_sec x * 1000000 <=? provided_delay); (split_and!; [done|lia|by exists O; lia]).
Qed.

Lemma factor_weight_mono n n' m :
  (n <= n')%nat -> 0 <= meta_weight m ->
  (if factor_ok (holds_at n) m then meta_weight m else 0) <= (if factor_ok (holds_at n') m then meta_weight m else 0).
Proof.
  intros Hn Hm. destruct (factor_ok (holds_at n) m) eqn:E.
  - rewrite (factor_ok_mono _ _ (holds_at n) (holds_at n')); [lia| |done]. intros p. by apply holds_at_mono.
  - destruct (factor_ok (holds_at n') m); lia.
Qed.

Lemma tally_sound rec th ms w st b st' :
  evaluator_sound rec -> weights_ok ms -> 0 <= w -> tally rec th ms w st = Ok (b, st') ->
  cache_sound (cached_permissions st) ->
  cache_sound (cached_permissions st') /\ (b = true -> exists n, th <= w + weight_sum (factor_ok (holds_at n)) ms).
Proof.
  intros Hrec. revert w st; induction ms as [|m ms IH]; intros w st Hms Hw Ht Hc; cbn [Authority.tally] in Ht.
  - by apply Ok_inj in Ht as [= <- <-].
  - apply Forall_cons_iff in Hms as [Hm Hms]. apply bind_Ok in Ht as ([w1 st1] & Hv & Ht).
    destruct (visit_sound _ _ _ _ _ _ Hrec (proj1 Hm) Hw Hv Hc) as (Hc1 & Hw1 & n1 & Hn1).
    destruct (Z.leb_spec th w1).
    + apply Ok_inj in Ht as [= <- <-]. split; [done|]. intros _. exists n1. cbn [weight_sum foldr].
      fold (weight_sum (factor_ok (holds_at n1)) ms).
      pose proof (weight_sum_nonneg (factor_ok (holds_at n1)) ms Hms). lia.
    + destruct (IH w1 st1 Hms Hw1 Ht Hc1) as [Hc2 Hb]. split; [done|]. intros E. destruct (Hb E) as [n2 Hn2].
      exists (max n1 n2). cbn [weight_sum foldr]. fold (weight_sum (factor_ok (holds_at (max n1 n2))) ms).
      pose proof (factor_weight_mono n1 (max n1 n2) m ltac:(lia) (proj1 Hm)).
      assert (weight_sum (factor_ok (holds_at n2)) ms <= weight_sum (factor_ok (holds_at (max n1 n2))) ms).
      { apply weight_sum_mono; [done|]. intros x _. apply factor_ok_mono. intros p. apply holds_at_mono; [done|lia]. }
      lia.
Qed.

Lemma satisfied_authority_sound levels a st b st' :
  auth_typed a -> satisfied_authority levels a st = Ok (b, st') -> cache_sound (cached_permissions st) ->
  cache_sound (cached_permissions st') /\ (b = true -> exists n, authority_holds (holds_at n) a = true).
Proof.
  revert a st b st'; induction levels as [|levels IH]; intros a st b st' Ha Hs Hc;
    cbn [Authority.satisfied_authority] in Hs; apply bind_Ok in Hs as ([r st1] & Ht & Hs); apply Ok_inj in Hs.
  all: match type of Ht with tally ?rec _ _ _ _ = _ => assert (evaluator_sound rec) as Hrec end.
  1: by intros e a0 s1 b1 s2 E.
  2: intros e a0 s1 b1 s2 E; injection E as <-; apply IH.
  all: destruct (tally_sound _ _ _ _ _ _ _ Hrec (meta_permissions_typed a Ha) (Z.le_refl 0) Ht Hc) as [Hc1 Hb].
  all: destruct r; injection Hs as <- <-; (split; [done|]); [|done].
  all: intros _; destruct (Hb eq_refl) as [n Hn]; exists n; unfold AuthorityRuns.authority_holds;
    rewrite Z.leb_le, <- (weight_sum_perm _ _ _ (meta_permissions_perm a)); lia.
Qed.
End Sound.

(** The cache a check starts with. *)
Lemma initial_cache_lookup l p s :
  (initialize_permission_cache l) !! p = Some s <-> p ∈ l /\ s = permission_satisfied.
Proof.
  unfold initialize_permission_cache.
  assert (forall c : permission_cache_type,
    (foldl (fun c p => <[p := permission_satisfied]> c) c l) !! p = Some s <->
    (p ∈ l /\ s = permission_satisfied) \/ ((p ∉ l) /\ c !! p = Some s)) as Hg.
  { induction l as [|q l IH]; intros c; cbn [foldl].
    - split; [intros Hc; right; split; [apply not_elem_of_nil|done]|]. intros [[Hp _]|[_ Hc]]; [by apply elem_of_nil in Hp|done].
    - rewrite IH, elem_of_cons. destruct (decide (p = q)) as [->|Hq].
      + rewrite lookup_insert_eq. destruct (decide (q ∈ l)); naive_solver.
      + rewrite lookup_insert_ne by done. naive_solver. }
  rewrite Hg, lookup_empty. naive_solver.
Qed.

(** ** Exactness without circular references *)

Section Exact.
Context {K : Type} `{EqDecision K}.
Variable permission_to_authority : permission_level -> result (option (authority K)).
Variable provided_keys : list K.
Variable provided_permissions : list permission_level.
Variable provided_delay : Z.
Abbreviation holds_at := (holds_at permission_to_authority provided_keys provided_permissions provided_delay).
Abbreviation authority_holds := (authority_holds provided_keys provided_delay).
Abbreviation factor_ok := (factor_ok provided_keys provided_delay).
Abbreviation given := (given provided_permissions).
Abbreviation visit := (visit permission_to_authority provided_keys provided_delay).
Abbreviation tally := (tally permission_to_authority provided_keys provided_delay).
Abbreviation satisfied_authority := (satisfied_authority permission_to_authority provided_keys provided_delay).
Abbreviation nested := (nested permission_to_authority provided_keys provided_delay).

(** The permissions in question, and a rank that falls from a permission to
    those its authority names: there is no circle. *)
Variable domain : permission_level -> Prop.
Variable rank : permission_level -> nat.

Definition good_authority (a : authority K) : Prop :=
  auth_typed a /\ 0 < auth_threshold a /\ weight_sum (fun _ => true) (auth_factors a) < 2 ^ 32.

Definition refers_below (r : nat) (a : authority K) : Prop :=
  forall q, q ∈ auth_accounts a -> domain (plw_permission q) /\ (rank (plw_permission q) < r)%nat.

Definition ranked : Prop := forall p, domain p ->
  match permission_to_authority p with
  | Ok (Some a) => permission p <> 0 /\ good_authority a /\ refers_below (rank p) a
  | Ok None => True
  | Err e => e = permission_query_exception
  end.

Definition holds (p : permission_level) : bool := holds_at (S (rank p)) p.

Hypothesis Hranked : ranked.

Lemma factor_account (a : authority K) p : account_permission p ∈ auth_factors a -> p ∈ auth_accounts a.
Proof.
  unfold auth_factors. rewrite !elem_of_app, !list_elem_of_fmap. intros [(x & [= ->] & Hx)|[(x & E & _)|(x & E & _)]]; done.
Qed.

Lemma authority_holds_ext h h' r a :
  refers_below r a -> (forall q, domain q -> (rank q < r)%nat -> h q = h' q) -> authority_holds h a = authority_holds h' a.
Proof.
  intros Hr He. unfold AuthorityRuns.authority_holds. f_equal. apply weight_sum_ext. intros [p|k|x] Hm; [|done..].
  cbn [AuthorityRuns.factor_ok]. destruct (Hr p (factor_account _ _ Hm)). auto.
Qed.

Lemma holds_at_stable n p : domain p -> (rank p < n)%nat -> holds_at n p = holds p.
Proof.
  unfold holds. remember (rank p) as k eqn:Ek. assert (rank p <= k)%nat as Hk by lia. clear Ek. revert n p Hk.
  induction k as [k IH] using lt_wf_ind. intros n p Hk Hd Hn. destruct n as [|n]; [lia|]. cbn [AuthorityRuns.holds_at].
  f_equal. pose proof (Hranked p Hd) as Hp. destruct (permission_to_authority p) as [[a|]|]; [|done..].
  destruct Hp as (_ & _ & Hr). apply (authority_holds_ext _ _ (rank p) a Hr). intros q Hq Hqr.
  rewrite (IH (rank q) ltac:(lia) n q), (IH (rank q) ltac:(lia) k q) by (done || lia). done.
Qed.

Lemma holds_eq p :
  domain p -> holds p = given p || match permission_to_authority p with Ok (Some a) => authority_holds holds a | _ => false end.
Proof.
  intros Hd. unfold holds at 1. cbn [AuthorityRuns.holds_at]. f_equal. pose proof (Hranked p Hd) as Hp.
  destruct (permission_to_authority p) as [[a|]|]; [|done..]. destruct Hp as (_ & _ & Hr).
  apply (authority_holds_ext _ _ (rank p) a Hr). intros q Hq Hqr. by apply holds_at_stable.
Qed.

Record cache_exact (c : permission_cache_type) : Prop := {
  ce_given : forall p, p ∈ provided_permissions -> c !! p = Some permission_satisfied;
  ce_satisfied : forall p, domain p -> c !! p = Some permission_satisfied -> holds p = true;
  ce_unsatisfied : forall p, domain p -> c !! p = Some permission_unsatisfied -> holds p = false;
  ce_wildcard : forall n s, c !! PermissionLevel n 0 = Some s -> PermissionLevel n 0 ∈ provided_permissions
}.

(** The permissions under evaluation have at least the rank [r]. *)
Definition busy_above (r : nat) (c : permission_cache_type) : Prop :=
  forall p, c !! p = Some being_evaluated -> (r <= rank p)%nat.
Definition same_busy (c c' : permission_cache_type) : Prop :=
  forall p, c' !! p = Some being_evaluated <-> c !! p = Some being_evaluated.

Lemma cache_exact_insert c p s :
  cache_exact c -> permission p <> 0 -> p ∉ provided_permissions ->
  (s = permission_satisfied -> holds p = true) -> (s = permission_unsatisfied -> holds p = false) ->
  cache_exact (<[p := s]> c).
Proof.
  intros [Hg Hs Hu Hw] Hp Hn H1 H2. constructor.
  - intros q Hq. rewrite lookup_insert_ne by (intros ->; done). auto.
  - intros q Hd. destruct (decide (q = p)) as [->|Hq]; [rewrite lookup_insert_eq; intros [= ->]; auto|].
    rewrite lookup_insert_ne by done. auto.
  - intros q Hd. destruct (decide (q = p)) as [->|Hq]; [rewrite lookup_insert_eq; intros [= ->]; auto|].
    rewrite lookup_insert_ne by done. auto.
  - intros n s'. rewrite lookup_insert_ne by (intros ->; by apply Hp). apply Hw.
Qed.

(** What the cache answers for a permission that is not under evaluation. *)
Lemma status_exact c p r :
  cache_exact c -> busy_above r c -> domain p -> (rank p < r)%nat ->
  match permission_status_in_cache c p with
  | Some permission_satisfied => holds p = true
  | Some permission_unsatisfied => holds p = false
  | Some being_evaluated => False
  | None => given p = false /\ c !! p = None
  end.
Proof.
  intros [Hg Hs Hu Hw] Hb Hd Hr. unfold permission_status_in_cache. destruct (c !! p) as [[]|] eqn:Ep; auto.
  - apply Hb in Ep. lia.
  - destruct (c !! PermissionLevel (actor p) 0) as [s|] eqn:Ew.
    + assert (PermissionLevel (actor p) 0 ∈ provided_permissions) as Hin by (by eapply Hw).
      rewrite (Hg _ Hin) in Ew. injection Ew as <-. rewrite holds_eq by done. unfold AuthorityRuns.given.
      by rewrite (bool_decide_eq_true_2 _ Hin), orb_true_r.
    + split; [|done]. apply orb_false_iff. split; apply bool_decide_eq_false; intros Hin; apply Hg in Hin; congruence.
Qed.

Definition factor_below (r n : nat) (m : meta_permission K) : Prop :=
  match m with
  | account_permission q => domain (plw_permission q) /\ (rank (plw_permission q) < r)%nat /\ (rank (plw_permission q) < n)%nat
  | _ => True
  end.

(** A nested evaluation with [n] levels left that decides authorities exactly. *)
Definition evaluator_exact (n : nat) : Prop :=
  forall a st r, good_authority a -> refers_below r a -> (r <= n)%nat ->
    cache_exact (cached_permissions st) -> busy_above r (cached_permissions st) ->
    exists st', satisfied_authority n a st = Ok (authority_holds holds a, st') /\
      cache_exact (cached_permissions st') /\ same_busy (cached_permissions st) (cached_permissions st').

Lemma visit_account_exact n p w st r :
  evaluator_exact n -> cache_exact (cached_permissions st) -> busy_above r (cached_permissions st) ->
  domain (plw_permission p) -> (rank (plw_permission p) < r)%nat -> (rank (plw_permission p) <= n)%nat ->
  0 <= w -> 0 <= plw_weight p -> w + plw_weight p < 2 ^ 32 ->
  exists st', visit (nested (S n)) (account_permission p) w st
      = Ok (w + (if holds (plw_permission p) then plw_weight p else 0), st') /\
    cache_exact (cached_permissions st') /\ same_busy (cached_permissions st) (cached_permissions st').
Proof.
  intros He Hc Hb Hd Hr Hn Hw Hp Hlt. pose proof (status_exact _ _ _ Hc Hb Hd Hr) as Hs.
  cbn [Authority.visit]. destruct (permission_status_in_cache _ _) as [[]|]; [done| | |].
  1: { rewrite Hs, Z.add_0_r. by exists st. }
  1: { rewrite Hs, u32_small by lia. by exists st. }
  destruct Hs as [Hg Hnone]. cbn [Authority.nested]. pose proof (holds_eq _ Hd) as Heq. rewrite Hg in Heq. cbn [orb] in Heq.
  pose proof (Hranked _ Hd) as Hk. destruct (permission_to_authority (plw_permission p)) as [[a|]|e].
  2: { rewrite Heq, Z.add_0_r. by exists st. }
  2: { subst e. rewrite Heq, Z.add_0_r. by exists st. }
  destruct Hk as (Hnz & Ha & Href).
  assert (plw_permission p ∉ provided_permissions) as Hnp.
  { intros Hin. by rewrite (ce_given _ Hc _ Hin) in Hnone. }
  destruct (He a (set_status (plw_permission p) being_evaluated st) (rank (plw_permission p))) as (st1 & E1 & Hc1 & Hb1);
    [done|done|done| | |].
  { by apply cache_exact_insert. }
  { intros q. cbn [set_status cached_permissions]. destruct (decide (q = plw_permission p)) as [->|Hq]; [done|].
    rewrite lookup_insert_ne by done. intros Hq'. apply Hb in Hq'. lia. }
  rewrite E1, ret_bind, <- Heq. cbn [set_status cached_permissions] in Hb1.
  assert (forall s, s <> being_evaluated -> same_busy (cached_permissions st)
    (<[plw_permission p := s]> (cached_permissions st1))) as Hsame.
  { intros s Hne q. destruct (decide (q = plw_permission p)) as [->|Hq].
    - rewrite lookup_insert_eq, Hnone. split; congruence.
    - rewrite lookup_insert_ne, (Hb1 q), lookup_insert_ne by done. done. }
  destruct (holds (plw_permission p)) eqn:Eh; eexists; (split; [|split]).
  - rewrite u32_small by lia. reflexivity.
  - by apply cache_exact_insert.
  - by apply Hsame.
  - by rewrite Z.add_0_r.
  - by apply cache_exact_insert.
  - by apply Hsame.
Qed.

Lemma visit_exact n m w st r :
  (forall n', n = S n' -> evaluator_exact n') -> cache_exact (cached_permissions st) ->
  busy_above r (cached_permissions st) -> factor_below r n m ->
  0 <= w -> 0 <= meta_weight m -> w + meta_weight m < 2 ^ 32 ->
  exists st', visit (nested n) m w st = Ok (w + (if factor_ok holds m then meta_weight m else 0), st') /\
    cache_exact (cached_permissions st') /\ same_busy (cached_permissions st) (cached_permissions st').
Proof.
  intros He Hc Hb Hm Hw Hp Hlt. destruct m as [p|k|x]; cbn [meta_weight] in *.
  - destruct Hm as (Hd & Hr & Hn). destruct n as [|n]; [lia|]. apply (visit_account_exact n p w st r); auto. lia.
  - cbn [Authority.visit AuthorityRuns.factor_ok]. destruct (find_key (kw_key k) provided_keys) as [i|] eqn:Ef.
    + rewrite bool_decide_eq_true_2 by (by eapply find_key_Some). rewrite u32_small by lia. eexists. split; [reflexivity|].
      by split.
    + rewrite bool_decide_eq_false_2 by (by apply find_key_None). rewrite Z.add_0_r. by exists st.
  - cbn [Authority.visit AuthorityRuns.factor_ok]. destruct (_ <=? provided_delay).
    + rewrite u32_small by lia. by exists st.
    + rewrite Z.add_0_r. by exists st.
Qed.

Lemma tally_exact n r ms w st th :
  (forall n', n = S n' -> evaluator_exact n') -> Forall (factor_below r n) ms -> weights_ok ms ->
  cache_exact (cached_permissions st) -> busy_above r (cached_permissions st) ->
  0 <= w < th -> w + weight_sum (fun _ => true) ms < 2 ^ 32 ->
  exists st', tally (nested n) th ms w st = Ok (th <=? w + weight_sum (factor_ok holds) ms, st') /\
    cache_exact (cached_permissions st') /\ same_busy (cached_permissions st) (cached_permissions st').
Proof.
  intros He. revert w st; induction ms as [|m ms IH]; intros w st Hf Hms Hc Hb Hw Hlt; cbn [Authority.tally weight_sum foldr].
  - rewrite Z.add_0_r. destruct (Z.leb_spec th w); [lia|]. by exists st.
  - apply Forall_cons_iff in Hf as [Hm Hf]. apply Forall_cons_iff in Hms as [Hwm Hms].
    fold (weight_sum (factor_ok holds) ms). cbn [weight_sum foldr] in Hlt. fold (weight_sum (K := K) (fun _ => true) ms) in Hlt.
    pose proof (weight_sum_nonneg (fun _ => true) ms Hms). pose proof (weight_sum_nonneg (factor_ok holds) ms Hms).
    assert (w + meta_weight m < 2 ^ 32) as Hmw by lia.
    destruct (visit_exact n m w st r He Hc Hb Hm (proj1 Hw) (proj1 Hwm) Hmw) as (st1 & Ev & Hc1 & Hb1).
    rewrite Ev, ret_bind. set (w1 := w + _).
    assert (w <= w1 <= w + meta_weight m) as Hw1 by (unfold w1; destruct (factor_ok holds m); lia).
    rewrite Z.add_assoc. fold w1. destruct (Z.leb_spec th w1) as [Hle|Hgt].
    + destruct (Z.leb_spec th (w1 + weight_sum (factor_ok holds) ms)); [|lia]. by exists st1.
    + destruct (IH w1 st1 Hf Hms Hc1) as (st2 & Et & Hc2 & Hb2); [|lia|lia|].
      { intros q Hq. apply Hb. by apply Hb1. }
      exists st2. split_and!; [done|done|]. intros q. by rewrite (Hb2 q), (Hb1 q).
Qed.

Lemma refers_factors_below r n a : refers_below r a -> (r <= n)%nat -> Forall (factor_below r n) (meta_permissions a).
Proof.
  intros Hr Hn. apply Forall_forall. intros [q|k|x] Hm; [|done..]. apply meta_permissions_in, factor_account, Hr in Hm.
  destruct Hm. split_and!; [done|done|lia].
Qed.

Lemma satisfied_authority_exact n : evaluator_exact n.
Proof.
  induction n as [|n IH]; intros a st r (Ht & Hth & Hlt) Hr Hn Hc Hb.
  all: rewrite <- (weight_sum_perm _ _ _ (meta_permissions_perm a)) in Hlt.
  all: cbn [Authority.satisfied_authority]; match goal with |- context [tally ?x] =>
         change x with (nested 0) || change x with (nested (S n)) end.
  1: destruct (tally_exact 0 r (meta_permissions a) 0 st (auth_threshold a)) as (st1 & Et & Hc1 & Hb1);
       [done|by apply refers_factors_below|by apply meta_permissions_typed|done|done|lia|lia|].
  2: destruct (tally_exact (S n) r (meta_permissions a) 0 st (auth_threshold a)) as (st1 & Et & Hc1 & Hb1);
       [by intros ? [= <-]|by apply refers_factors_below|by apply meta_permissions_typed|done|done|lia|lia|].
  all: rewrite Et, ret_bind, (weight_sum_perm _ _ _ (meta_permissions_perm a)), Z.add_0_l.
  all: fold (authority_holds holds a); destruct (authority_holds holds a); eexists; (split; [reflexivity|by split]).
Qed.
End Exact.

(** ** Used keys *)

Section Used.
Context {K : Type} `{EqDecision K}.
Variable permission_to_authority : permission_level -> result (option (authority K)).
Variable provided_keys : list K.
Variable provided_delay : Z.
Abbreviation visit := (visit permission_to_authority provided_keys provided_delay).
Abbreviation tally := (tally permission_to_authority provided_keys provided_delay).
Abbreviation satisfied_authority := (satisfied_authority permission_to_authority provided_keys provided_delay).
Abbreviation nested := (nested permission_to_authority provided_keys provided_delay).

(** Keys stay used, and a key becomes used only if it was provided. *)
Definition used_grows (used used' : list bool) : Prop :=
  length used' = length used /\ forall i, used !! i = Some true -> used' !! i = Some true.

Lemma used_grows_refl u : used_grows u u.
Proof. by split. Qed.
Lemma used_grows_trans u v w : used_grows u v -> used_grows v w -> used_grows u w.
Proof. intros [L1 G1] [L2 G2]. split; [congruence|auto]. Qed.

Definition evaluator_keys (rec : option (evaluator (K := K))) : Prop :=
  forall e a st b st', rec = Some e -> e a st = Ok (b, st') ->
    if b : bool then used_grows (used_keys st) (used_keys st') else used_keys st' = used_keys st.

Lemma mark_grows i (used : list bool) : used_grows used (<[i := true]> used).
Proof.
  split; [apply length_insert|]. intros j Hj. destruct (decide (i = j)) as [->|Hne].
  - apply list_lookup_insert_eq. by eapply lookup_lt_Some.
  - by rewrite list_lookup_insert_ne.
Qed.

Lemma visit_keys rec m w st w' st' :
  evaluator_keys rec -> visit rec m w st = Ok (w', st') -> used_grows (used_keys st) (used_keys st').
Proof.
  intros Hrec Hv. destruct m as [p|k|x]; cbn [Authority.visit] in Hv.
  - destruct (permission_status_in_cache _ _) as [[]|]; [by apply Ok_inj in Hv as [= <- <-]..|].
    destruct rec as [e|]; [|by apply Ok_inj in Hv as [= <- <-]].
    destruct (permission_to_authority _) as [[a|]|[]]; try discriminate Hv; try (by apply Ok_inj in Hv as [= <- <-]).
    apply bind_Ok in Hv as ([b st1] & He & Hv). apply Ok_inj in Hv. specialize (Hrec e a _ _ _ eq_refl He).
    destruct b; injection Hv as <- <-; cbn [set_status used_keys] in *; [done|]. rewrite Hrec. apply used_grows_refl.
  - destruct (find_key _ _) as [i|]; apply Ok_inj in Hv as [= <- <-]; [apply mark_grows|apply used_grows_refl].
  - apply Ok_inj in Hv as [= <- <-]. apply used_grows_refl.
Qed.

Lemma tally_keys rec th ms w st b st' :
  evaluator_keys rec -> tally rec th ms w st = Ok (b, st') -> used_grows (used_keys st) (used_keys st').
Proof.
  intros Hrec. revert w st; induction ms as [|m ms IH]; intros w st Ht; cbn [Authority.tally] in Ht.
  - apply Ok_inj in Ht as [= <- <-]. apply used_grows_refl.
  - apply bind_Ok in Ht as ([w1 st1] & Hv & Ht). apply visit_keys in Hv; [|done].
    destruct (th <=? w1); [by apply Ok_inj in Ht as [= <- <-]|]. eapply used_grows_trans; [exact Hv|by eapply IH].
Qed.

Lemma satisfied_authority_keys n : evaluator_keys (Some (satisfied_authority n)).
Proof.
  induction n as [|n IH]; intros e a st b st' E Hs; injection E as <-; cbn [Authority.satisfied_authority] in Hs;
    apply bind_Ok in Hs as ([r st1] & Ht & Hs); apply Ok_inj in Hs.
  all: destruct r; injection Hs as <- <-; [|done]; eapply tally_keys; [|exact Ht].
  - intros e a0 s1 b0 s2 [=].
  - exact IH.
Qed.

Lemma nested_keys n : evaluator_keys (nested n).
Proof. destruct n; [intros e a s1 b s2 [=]|apply satisfied_authority_keys]. Qed.
End Used.

(** ** Valid authorities *)

Section Valid.
Context {K : Type} `{EqDecision K}.

Lemma ascending_sum {A} (lt : A -> A -> bool) (weight : A -> Z) l prev w w' :
  Forall (fun x => 0 <= weight x < 2 ^ 16) l -> 0 <= w -> w + vsize l * (2 ^ 16 - 1) < 2 ^ 32 ->
  ascending lt weight prev w l = Some w' -> w' = w + foldr (fun x acc => weight x + acc) 0 l.
Proof.
  intros Hl. revert prev w; induction Hl as [|x l Hx Hl IH]; intros prev w Hw Hb; cbn [ascending foldr].
  - intros [= <-]. lia.
  - destruct (match prev with Some y => _ | None => _ end); [done|]. unfold vsize in *. cbn [length] in Hb.
    rewrite u32_small by lia. intros E. apply IH in E; [lia|lia|lia].
Qed.

Lemma weight_sum_fmap {A} (f : A -> meta_permission K) l :
  weight_sum (fun _ => true) (f <$> l) = foldr (fun x acc => meta_weight (f x) + acc) 0 l.
Proof. induction l as [|x l IH]; [done|]. cbn [fmap list_fmap weight_sum foldr]. by fold (weight_sum (fun _ => true) (f <$> l)); rewrite IH. Qed.

Lemma weights_ok_fmap {A} (f : A -> meta_permission K) l :
  weights_ok (f <$> l) -> Forall (fun x => 0 <= meta_weight (f x) < 2 ^ 16) l.
Proof. unfold weights_ok. by rewrite Forall_fmap. Qed.

Lemma ascending_bound {A} (f : A -> meta_permission K) l : weights_ok (f <$> l) ->
  0 <= foldr (fun x acc => meta_weight (f x) + acc) 0 l <= vsize l * (2 ^ 16 - 1).
Proof.
  intros Hl. rewrite <- weight_sum_fmap. pose proof (weight_sum_nonneg (fun _ => true) _ Hl).
  pose proof (weight_sum_bound (fun _ => true) _ Hl) as Hb. unfold vsize in *. rewrite length_fmap in Hb. lia.
Qed.

(** An authority that [validate] accepts has a threshold that is not zero and
    that all its factors together reach, without an overflow. *)
Lemma validate_good (key_ltb : K -> K -> bool) (a : authority K) :
  auth_typed a -> 0 <= auth_threshold a -> validate key_ltb a = true ->
  good_authority a /\ auth_threshold a <= weight_sum (fun _ => true) (auth_factors a).
Proof.
  unfold auth_typed, auth_factors. intros Ht Hth Hv. unfold validate in Hv.
  destruct (Z.ltb_spec (2 ^ 16) (vsize (auth_keys a) + vsize (auth_accounts a) + vsize (auth_waits a))) as [|Hsz]; [done|].
  destruct (Z.eqb_spec (auth_threshold a) 0) as [|Hnz]; [done|].
  assert (Ht' := Ht). unfold weights_ok in Ht'. rewrite !Forall_app in Ht'. destruct Ht' as (Ha & Hk & Hw).
  pose proof (ascending_bound _ _ Ha). pose proof (ascending_bound _ _ Hk). pose proof (ascending_bound _ _ Hw).
  cbn [meta_weight] in *.
  destruct (ascending _ kw_weight None 0 (auth_keys a)) as [w1|] eqn:E1; [|done].
  apply ascending_sum in E1; [|by apply (weights_ok_fmap key_permission)|lia|unfold vsize in *; lia].
  destruct (ascending _ plw_weight None w1 (auth_accounts a)) as [w2|] eqn:E2; [|done].
  apply ascending_sum in E2; [|by apply (weights_ok_fmap account_permission)|lia|unfold vsize in *; cbn [meta_weight] in *; lia].
  destruct (match auth_waits a with [] => false | x :: _ => _ end); [done|].
  destruct (ascending _ ww_weight None w2 (auth_waits a)) as [w3|] eqn:E3; [|done].
  apply ascending_sum in E3; [|by apply (weights_ok_fmap wait_permission)|cbn [meta_weight] in *; lia|unfold vsize in *; cbn [meta_weight] in *; lia].
  unfold good_authority, auth_typed, auth_factors. rewrite !weight_sum_app, !weight_sum_fmap. cbn [meta_weight] in *.
  split_and!; [done|lia|unfold vsize in *; lia|lia].
Qed.

Variable permission_to_authority : permission_level -> result (option (authority K)).
Variable provided_keys : list K.
Variable provided_permissions : list permission_level.
Variable provided_delay : Z.

(** A factor that is provided directly. *)
Definition factor_given (m : meta_permission K) : Prop :=
  match m with
  | account_permission p => plw_permission p ∈ provided_permissions
  | key_permission k => kw_key k ∈ provided_keys
  | wait_permission w => ww_wait_sec w * 1000000 <= provided_delay
  end.

Lemma tally_given rec th ms w st :
  cached_permissions st = initialize_permission_cache provided_permissions ->
  Forall factor_given ms -> weights_ok ms -> 0 <= w < th -> w + weight_sum (fun _ => true) ms < 2 ^ 32 ->
  th <= w + weight_sum (fun _ => true) ms ->
  exists st', tally permission_to_authority provided_keys provided_delay rec th ms w st = Ok (true, st').
Proof.
  revert w st; induction ms as [|m ms IH]; intros w st Hc Hf Hms Hw Hlt Hth; cbn [tally weight_sum foldr] in *; [lia|].
  fold (weight_sum (K := K) (fun _ => true) ms) in *. apply Forall_cons_iff in Hf as [Hm Hf].
  apply Forall_cons_iff in Hms as [Hwm Hms]. pose proof (weight_sum_nonneg (fun _ => true) ms Hms).
  assert (exists st1, visit permission_to_authority provided_keys provided_delay rec m w st = Ok (w + meta_weight m, st1) /\
    cached_permissions st1 = initialize_permission_cache provided_permissions) as (st1 & Ev & Hc1).
  { destruct m as [p|k|x]; cbn [visit meta_weight factor_given] in *.
    - unfold permission_status_in_cache.
      rewrite Hc, (proj2 (initial_cache_lookup _ _ permission_satisfied)) by (by split). rewrite u32_small by lia. by exists st.
    - destruct (find_key (kw_key k) provided_keys) eqn:Ef; [|by apply find_key_None in Ef].
      rewrite u32_small by lia. by eexists.
    - destruct (Z.leb_spec (ww_wait_sec x * 1000000) provided_delay); [|lia]. rewrite u32_small by lia. by exists st. }
  rewrite Ev, ret_bind. destruct (Z.leb_spec th (w + meta_weight m)); [by eexists|]. apply IH; auto; lia.
Qed.
End Valid.

(** ** Theorems *)

Section Theorems.
Context {K : Type} `{EqDecision K}.
Variable permission_to_authority : permission_level -> result (option (authority K)).
Variable limit : Z.
Variable provided_keys : list K.
Variable provided_permissions : list permission_level.
Variable provided_delay : Z.
Abbreviation holds_at := (holds_at permission_to_authority provided_keys provided_permissions provided_delay).
Abbreviation satisfied :=
  (satisfied permission_to_authority limit provided_keys provided_permissions provided_delay).

Lemma initial_cache_sound :
  cache_sound permission_to_authority provided_keys provided_permissions provided_delay
    (initialize_permission_cache provided_permissions).
Proof.
  constructor.
  - intros p [Hp _]%initial_cache_lookup. exists O. cbn [AuthorityRuns.holds_at]. unfold given.
    by rewrite (bool_decide_eq_true_2 _ Hp).
  - by intros n s [Hp _]%initial_cache_lookup.
Qed.

(** No authorization out of thin air: when the checker answers that a
    permission is satisfied, there is a finite derivation of it from the
    provided keys, permissions and delay, each nested authority reaching its
    threshold; neither the cache, nor permissions that refer to each other in a
    circle, nor a weight that overflows can make up for a missing one. *)
Lemma satisfied_sound p used used' :
  (forall p a, permission_to_authority p = Ok (Some a) -> auth_typed a) ->
  (forall n a, permission_to_authority (PermissionLevel n 0) <> Ok (Some a)) ->
  satisfied p used = Ok (true, used') -> exists n, holds_at n p = true.
Proof.
  intros Ht Hw Hs. unfold Authority.satisfied in Hs. apply bind_Ok in Hs as ([w st] & Hv & Hs).
  apply Ok_inj in Hs as [= Hpos <-].
  assert (evaluator_sound permission_to_authority provided_keys provided_permissions provided_delay
    (nested permission_to_authority provided_keys provided_delay (Z.to_nat limit))) as Hrec.
  { destruct (Z.to_nat limit) as [|n]; intros e a st0 b st1 E; [done|]. injection E as <-.
    by apply satisfied_authority_sound. }
  eapply visit_sound in Hv; [|done|done|exact Hrec|cbn; lia|lia|apply initial_cache_sound].
  destruct Hv as (_ & _ & n & Hn). exists n. cbn [factor_ok meta_weight plw_permission plw_weight] in Hn.
  destruct (holds_at n p); [done|]. lia.
Qed.

(** C21. The check is exact where permissions do not refer to each other in a
    circle and nest less deeply than the limit: it returns, and its answer is
    that of the reference definition, whatever the order of the factors, the
    early return and the cache. *)
Theorem satisfied_exact (domain : permission_level -> Prop) (rank : permission_level -> nat) p used :
  ranked permission_to_authority domain rank -> domain p -> (rank p < Z.to_nat limit)%nat ->
  exists used', satisfied p used = Ok (holds_at (Z.to_nat limit) p, used').
Proof.
  intros Hr Hd Hlt. rewrite (holds_at_stable _ _ _ _ domain rank Hr _ _ Hd Hlt).
  unfold Authority.satisfied. set (st := CheckerState used _).
  assert (cache_exact permission_to_authority provided_keys provided_permissions provided_delay domain rank
    (cached_permissions st)) as Hc.
  { constructor; cbn [cached_permissions st].
    - intros q Hq. by apply initial_cache_lookup.
    - intros q Hq [Hin _]%initial_cache_lookup. rewrite (holds_eq _ _ _ _ domain rank Hr) by done. unfold given.
      by rewrite (bool_decide_eq_true_2 _ Hin).
    - by intros q Hq [_ E]%initial_cache_lookup.
    - by intros n s [Hin _]%initial_cache_lookup. }
  destruct (visit_exact permission_to_authority provided_keys provided_permissions provided_delay domain rank Hr
    (Z.to_nat limit) (account_permission (PermissionLevelWeight p 1)) 0 st (S (rank p))) as (st' & E & _).
  - intros n' _. by apply satisfied_authority_exact.
  - exact Hc.
  - by intros q [_ E]%initial_cache_lookup.
  - cbn. split_and!; [done|lia|lia].
  - lia.
  - cbn. lia.
  - cbn. lia.
  - rewrite E, ret_bind. cbn [factor_ok meta_weight plw_permission plw_weight]. exists (used_keys st').
    by destruct (holds _ _ _ _ _ p).
Qed.

(** A check that fails gives the keys it had marked back; one that succeeds
    only adds marks, one per provided key at most. *)
Theorem used_keys_kept p used used' b :
  satisfied p used = Ok (b, used') ->
  used_grows used used' /\ (b = false -> used' = used).
Proof.
  unfold Authority.satisfied. intros Hs. apply bind_Ok in Hs as ([w st] & Hv & Hs). apply Ok_inj in Hs as [= Hb <-].
  pose proof (nested_keys permission_to_authority provided_keys provided_delay (Z.to_nat limit)) as Hn. split.
  - by apply visit_keys in Hv.
  - intros ->. cbn [visit] in Hv. destruct (permission_status_in_cache _ _) as [[]|]; [by apply Ok_inj in Hv as [= <- <-]..|].
    destruct (nested _ _ _ _) as [e|]; [|by apply Ok_inj in Hv as [= <- <-]].
    destruct (permission_to_authority _) as [[a|]|[]]; try discriminate Hv; try (by apply Ok_inj in Hv as [= <- <-]).
    apply bind_Ok in Hv as ([r st1] & He & Hv). apply Ok_inj in Hv. specialize (Hn e a _ _ _ eq_refl He).
    destruct r; injection Hv as <- <-; [done|]. exact Hn.
Qed.

(** An authority that [validate] accepts can be satisfied: whoever provides
    all its keys, all its permissions and its longest wait satisfies it, at any
    nesting depth. *)
Theorem validated_authority_satisfiable (key_ltb : K -> K -> bool) (a : authority K) levels used :
  auth_typed a -> 0 <= auth_threshold a -> validate key_ltb a = true ->
  Forall (factor_given provided_keys provided_permissions provided_delay) (auth_factors a) ->
  exists st, satisfied_authority permission_to_authority provided_keys provided_delay levels a
    (CheckerState used (initialize_permission_cache provided_permissions)) = Ok (true, st).
Proof.
  intros Ht Hth Hv Hf. destruct (validate_good key_ltb a Ht Hth Hv) as ((_ & Hpos & Hlt) & Hreach).
  rewrite <- (weight_sum_perm _ _ _ (meta_permissions_perm a)) in Hlt, Hreach. rewrite <- (meta_permissions_perm a) in Hf.
  set (st := CheckerState used _). set (rec := nested permission_to_authority provided_keys provided_delay levels).
  destruct (tally_given permission_to_authority provided_keys provided_permissions provided_delay rec (auth_threshold a)
    (meta_permissions a) 0 st) as [st' E]; [done|done|by apply meta_permissions_typed|lia|lia|lia|].
  exists st'. destruct levels; cbn [satisfied_authority]; subst rec; cbn [nested] in E.
  all: match goal with |- (?t ≫= _) = _ => by replace t with (Ok (true, st')) by (symmetry; exact E) end.
Qed.
End Theorems.

(** ** A concrete system of permissions *)

Definition toy_key (k w : Z) : key_weight Z := {| kw_key := k; kw_weight := w |}.

(** Permission 1 needs permission 2, or permission 3 and key 20; permission 2
    needs permission 3 and key 30; permission 3 needs key 10. *)
Definition toy_permissions (p : permission_level) : result (option (authority Z)) :=
  if actor p =? 1 then
    if permission p =? 1 then
      Ok (Some (Authority 2 [toy_key 20 1]
        [PermissionLevelWeight (PermissionLevel 1 2) 2; PermissionLevelWeight (PermissionLevel 1 3) 1] []))
    else if permission p =? 2 then
      Ok (Some (Authority 2 [toy_key 30 1] [PermissionLevelWeight (PermissionLevel 1 3) 1] []))
    else if permission p =? 3 then Ok (Some (Authority 1 [toy_key 10 1] [] []))
    else Ok None
  else Ok None.

Definition toy_rank (p : permission_level) : nat := Z.to_nat (3 - permission p).
Definition toy_domain (p : permission_level) : Prop := actor p = 1 /\ 1 <= permission p <= 3.

Lemma toy_permissions_ranked : ranked toy_permissions toy_domain toy_rank.
Proof.
  intros [a n] [Ha Hn]. cbn in Ha, Hn. subst a.
  assert (n = 1 \/ n = 2 \/ n = 3) as [->|[->| ->]] by lia; cbn [toy_permissions actor permission Z.eqb Pos.eqb];
    (split; [done|split; [split; [repeat constructor; cbn; lia|split; [done|done]]|]]).
  - intros q [->|[->|[]%elem_of_nil]%elem_of_cons]%elem_of_cons; cbn; unfold toy_domain, toy_rank; cbn; lia.
  - intros q [->|[]%elem_of_nil]%elem_of_cons; cbn; unfold toy_domain, toy_rank; cbn; lia.
  - by intros q []%elem_of_nil.
Qed.

Lemma satisfied_exact_witness :
  exists used', satisfied toy_permissions 6 [10; 20] [] 0 (PermissionLevel 1 1) [false; false] = Ok (true, used').
Proof.
  assert (holds_at toy_permissions [10; 20] [] 0 (Z.to_nat 6) (PermissionLevel 1 1) = true) as <- by (vm_compute; reflexivity).
  apply (satisfied_exact toy_permissions 6 [10; 20] [] 0 toy_domain toy_rank (PermissionLevel 1 1) [false; false] toy_permissions_ranked).
  - split; cbn; lia.
  - vm_compute. lia.
Defined.

Lemma used_keys_kept_witness :
  exists used', satisfied toy_permissions 6 [10] [] 0 (PermissionLevel 1 1) [false] = Ok (false, used') /\ used' = [false].
Proof.
  assert (exists used', satisfied toy_permissions 6 [10] [] 0 (PermissionLevel 1 1) [false] = Ok (false, used')) as [used' E]
    by (eexists; vm_compute; reflexivity).
  exists used'. split; [exact E|]. destruct (used_keys_kept toy_permissions 6 [10] [] 0 _ _ _ _ E) as [_ Hk]. by apply Hk.
Defined.

Definition toy_authority : authority Z :=
  Authority 6 [toy_key 10 1; toy_key 20 2] [PermissionLevelWeight (PermissionLevel 7 8) 2] [WaitWeight 60 1].

Lemma validated_authority_satisfiable_witness :
  exists st, satisfied_authority toy_permissions [10; 20] 60000000 2 toy_authority
    (CheckerState [false; false] (initialize_permission_cache [PermissionLevel 7 8])) = Ok (true, st).
Proof.
  apply (validated_authority_satisfiable toy_permissions [10; 20] [PermissionLevel 7 8] 60000000 Z.ltb).
  - repeat constructor; cbn; lia.
  - vm_compute. congruence.
  - vm_compute. reflexivity.
  - repeat constructor; cbn; lia.
Defined.

(** A key can be needed and still not be marked as used: the marks of a
    permission evaluated inside an authority that fails are taken back, its
    entry in the cache is not, and a later use of the cached answer marks
    nothing.  Here both keys are needed and the transaction would be rejected
    for an irrelevant signature. *)
Theorem cached_permission_keys_lost :
  satisfied toy_permissions 6 [10; 20] [] 0 (PermissionLevel 1 1) (no_keys_used [10; 20]) = Ok (true, [false; true]) /\
  all_keys_used [false; true] = false /\
  satisfied toy_permissions 6 [20] [] 0 (PermissionLevel 1 1) (no_keys_used [20]) = Ok (false, [false]) /\
  satisfied toy_permissions 6 [10] [] 0 (PermissionLevel 1 1) (no_keys_used [10]) = Ok (false, [false]).
Proof. split_and!; vm_compute; reflexivity. Qed.
