(* ===== verification/Authorization.v ===== *)
(** The authorization manager (chain/authorization_manager.cpp and its header,
    permission_object.hpp, permission_link_object.hpp): permissions, their
    hierarchy, the links from contract actions to permissions, and the check of
    the authorizations that the actions of a transaction declare.

    chainbase is a submodule: its tables are the lists and finite maps of their
    rows, a row that violates a unique index is refused with [logic_error] and
    [get] of a missing row throws [out_of_range_exception].  The code is that of
    a build without ENABLE_DEFERRED_TRANSACTION, which no build file sets.  Rows
    are found by scanning: the indices only make this fast. *)
From Stdlib Require Import ZArith Lia ZifyBool Ascii String.
From stdpp Require Import base tactics numbers list gmap.
From S2P Require Import Prelude Raw ProducerSchedule BlockHeader CoreAsset Authority.
#[local] Open Scope Z_scope.

(** ** Names *)

Definition system_account_name : Z := string_to_name "flon".
Definition active_name : Z := string_to_name "active".
Definition owner_name : Z := string_to_name "owner".
Definition eosio_any_name : Z := SYS_NAME "any".
Definition eosio_code_name : Z := SYS_NAME "code".
Definition newaccount_name : Z := string_to_name "newaccount".
Definition updateauth_name : Z := string_to_name "updateauth".
Definition deleteauth_name : Z := string_to_name "deleteauth".
Definition linkauth_name : Z := string_to_name "linkauth".
Definition unlinkauth_name : Z := string_to_name "unlinkauth".
Definition canceldelay_name : Z := string_to_name "canceldelay".

(** ** Rows *)

Record permission_object (K : Type) : Type := PermissionObject {
  po_id : Z;
  po_usage_id : Z;
  po_parent : Z;
  po_owner : Z;
  po_name : Z;
  po_last_updated : Z;
  po_auth : authority K
}.
Arguments PermissionObject {K}.
Arguments po_id {K}.
Arguments po_usage_id {K}.
Arguments po_parent {K}.
Arguments po_owner {K}.
Arguments po_name {K}.
Arguments po_last_updated {K}.
Arguments po_auth {K}.

(** The tables that the manager and the native actions use. *)
Record auth_db (K : Type) : Type := AuthDb {
  account_objects : gset Z;                       (* account_object, by name *)
  privileged_accounts : gset Z;                   (* account_metadata_object::is_privileged *)
  permissions : list (permission_object K);       (* in the order of ids *)
  next_permission_id : Z;
  permission_usages : gmap Z Z;                   (* id to last_used *)
  next_usage_id : Z;
  permission_links : gmap (Z * Z * Z) Z;          (* (account, code, message_type) to required_permission *)
  num_supported_key_types : Z                     (* protocol_state_object *)
}.
Arguments AuthDb {K}.
Arguments account_objects {K}.
Arguments privileged_accounts {K}.
Arguments permissions {K}.
Arguments next_permission_id {K}.
Arguments permission_usages {K}.
Arguments next_usage_id {K}.
Arguments permission_links {K}.
Arguments num_supported_key_types {K}.

(** ** Native actions and their serialization *)

Record updateauth (K : Type) : Type := UpdateAuth {
  ua_account : Z; ua_permission : Z; ua_parent : Z; ua_auth : authority K }.
Arguments UpdateAuth {K}.
Arguments ua_account {K}.
Arguments ua_permission {K}.
Arguments ua_parent {K}.
Arguments ua_auth {K}.
Record deleteauth : Type := DeleteAuth { da_account : Z; da_permission : Z }.
Record linkauth : Type := LinkAuth { la_account : Z; la_code : Z; la_type : Z; la_requirement : Z }.
Record unlinkauth : Type := UnlinkAuth { ul_account : Z; ul_code : Z; ul_type : Z }.

#[global] Instance Packable_permission_level : Packable permission_level := Packable_struct
  (fun p => (UInt (n := 8) (actor p), UInt (n := 8) (permission p)))
  (fun '(a, b) => PermissionLevel (uint_value a) (uint_value b)).
#[global] Instance Packable_permission_level_weight : Packable permission_level_weight := Packable_struct
  (fun p => (plw_permission p, UInt (n := 2) (plw_weight p)))
  (fun '(a, b) => PermissionLevelWeight a (uint_value b)).
#[global] Instance Packable_wait_weight : Packable wait_weight := Packable_struct
  (fun w => (UInt (n := 4) (ww_wait_sec w), UInt (n := 2) (ww_weight w)))
  (fun '(a, b) => WaitWeight (uint_value a) (uint_value b)).
#[global] Instance Packable_authority {K} `{Packable K} : Packable (authority K) := Packable_struct
  (fun a => (UInt (n := 4) (auth_threshold a), (auth_keys a, (auth_accounts a, auth_waits a))))
  (fun '(t, (k, (a, w))) => Authority (uint_value t) k a w).
#[global] Instance Packable_updateauth {K} `{Packable K} : Packable (updateauth K) := Packable_struct
  (fun u => (UInt (n := 8) (ua_account u), (UInt (n := 8) (ua_permission u), (UInt (n := 8) (ua_parent u), ua_auth u))))
  (fun '(a, (b, (c, d))) => UpdateAuth (uint_value a) (uint_value b) (uint_value c) d).
#[global] Instance Packable_deleteauth : Packable deleteauth := Packable_struct
  (fun d => (UInt (n := 8) (da_account d), UInt (n := 8) (da_permission d)))
  (fun '(a, b) => DeleteAuth (uint_value a) (uint_value b)).
#[global] Instance Packable_linkauth : Packable linkauth := Packable_struct
  (fun l => (UInt (n := 8) (la_account l), (UInt (n := 8) (la_code l), (UInt (n := 8) (la_type l), UInt (n := 8) (la_requirement l)))))
  (fun '(a, (b, (c, d))) => LinkAuth (uint_value a) (uint_value b) (uint_value c) (uint_value d)).
#[global] Instance Packable_unlinkauth : Packable unlinkauth := Packable_struct
  (fun l => (UInt (n := 8) (ul_account l), (UInt (n := 8) (ul_code l), UInt (n := 8) (ul_type l))))
  (fun '(a, (b, c)) => UnlinkAuth (uint_value a) (uint_value b) (uint_value c)).

Record action : Type := Action {
  act_account : Z;
  act_name : Z;
  act_authorization : list permission_level;
  act_data : list Z
}.

(** [data_as<T>()], with [T::get_name()]; the account of all native actions is
    the system account. *)
Definition data_as {T} `{Packable T} (name : Z) (act : action) : result T :=
  _ ← EOS_ASSERT (act_account act =? system_account_name) action_type_exception;
  _ ← EOS_ASSERT (act_name act =? name) action_type_exception;
  '(v, _) ← unpack (act_data act); mret v.

Section Authorization.
Context {K : Type} `{EqDecision K} `{Packable K}.
(** [public_key::which()]: the index of the key's type. *)
Variable key_which : K -> Z.

Abbreviation auth_db := (auth_db K).
Abbreviation permission_object := (permission_object K).

Definition with_permissions (db : auth_db) (l : list permission_object) (next : Z) : auth_db :=
  AuthDb (account_objects db) (privileged_accounts db) l next (permission_usages db) (next_usage_id db)
    (permission_links db) (num_supported_key_types db).
Definition with_usages (db : auth_db) (u : gmap Z Z) (next : Z) : auth_db :=
  AuthDb (account_objects db) (privileged_accounts db) (permissions db) (next_permission_id db) u next
    (permission_links db) (num_supported_key_types db).
Definition with_links (db : auth_db) (l : gmap (Z * Z * Z) Z) : auth_db :=
  AuthDb (account_objects db) (privileged_accounts db) (permissions db) (next_permission_id db)
    (permission_usages db) (next_usage_id db) l (num_supported_key_types db).
Definition with_account (db : auth_db) (name : Z) : auth_db :=
  AuthDb ({[name]} ∪ account_objects db) (privileged_accounts db) (permissions db) (next_permission_id db)
    (permission_usages db) (next_usage_id db) (permission_links db) (num_supported_key_types db).

Definition permission_by_id (db : auth_db) (id : Z) : option permission_object :=
  List.find (fun po => po_id po =? id) (permissions db).
Definition permission_by_owner (db : auth_db) (owner name : Z) : option permission_object :=
  List.find (fun po => (po_owner po =? owner) && (po_name po =? name)) (permissions db).
Definition permission_by_name (db : auth_db) (name : Z) : option permission_object :=
  List.find (fun po => po_name po =? name) (permissions db).

(** ** Changes *)

Definition insert_permission (db : auth_db) (f : Z -> permission_object) : result (auth_db * permission_object) :=
  let po := f (next_permission_id db) in
  match permission_by_owner db (po_owner po) (po_name po) with
  | Some _ => Err logic_error
  | None => mret (with_permissions db (permissions db ++ [po]) (next_permission_id db + 1), po)
  end.

(** The reserved permission 0. *)
Definition initialize_database (db : auth_db) : result auth_db :=
  '(db, _) ← insert_permission db (fun id => PermissionObject id 0 0 0 0 0 (Authority 0 [] [] [])); mret db.

Definition check_key_types (db : auth_db) (auth : authority K) : result unit :=
  EOS_ASSERT (forallb (fun k => key_which (kw_key k) <? num_supported_key_types db) (auth_keys auth)) unactivated_key_type.

(** [pending_block_time] is the controller's. *)
Definition create_permission (db : auth_db) (pending_block_time account name parent : Z) (auth : authority K)
    (initial_creation_time : Z) : result (auth_db * permission_object) :=
  _ ← check_key_types db auth;
  let creation_time := if initial_creation_time =? 0 then pending_block_time else initial_creation_time in
  let usage_id := next_usage_id db in
  let db := with_usages db (<[usage_id := creation_time]> (permission_usages db)) (usage_id + 1) in
  insert_permission db (fun id => PermissionObject id usage_id parent account name creation_time auth).

Definition modify_permission (db : auth_db) (pending_block_time : Z) (p : permission_object) (auth : authority K)
    : result auth_db :=
  _ ← check_key_types db auth;
  mret (with_permissions db
    ((fun po => if po_id po =? po_id p
                then PermissionObject (po_id po) (po_usage_id po) (po_parent po) (po_owner po) (po_name po)
                       pending_block_time auth
                else po) <$> permissions db) (next_permission_id db)).

Definition remove_permission (db : auth_db) (p : permission_object) : result auth_db :=
  _ ← EOS_ASSERT (negb (existsb (fun po => po_parent po =? po_id p) (permissions db))) action_validate_exception;
  let db := with_usages db (delete (po_usage_id p) (permission_usages db)) (next_usage_id db) in
  mret (with_permissions db (filter (fun po => po_id po <> po_id p) (permissions db)) (next_permission_id db)).

Definition update_permission_usage (db : auth_db) (pending_block_time : Z) (p : permission_object) : result auth_db :=
  match permission_usages db !! po_usage_id p with
  | None => Err out_of_range_exception
  | Some _ => mret (with_usages db (<[po_usage_id p := pending_block_time]> (permission_usages db)) (next_usage_id db))
  end.

Definition get_permission_last_used (db : auth_db) (p : permission_object) : result Z :=
  match permission_usages db !! po_usage_id p with None => Err out_of_range_exception | Some t => mret t end.

(** ** Queries *)

Definition check_level (level : permission_level) : result unit :=
  EOS_ASSERT (negb (actor level =? 0) && negb (permission level =? 0)) invalid_permission.

Definition find_permission (db : auth_db) (level : permission_level) : result (option permission_object) :=
  EOS_RETHROW_EXCEPTIONS permission_query_exception
    (_ ← check_level level; mret (permission_by_owner db (actor level) (permission level))).

Definition get_permission (db : auth_db) (level : permission_level) : result permission_object :=
  EOS_RETHROW_EXCEPTIONS permission_query_exception
    (_ ← check_level level;
     match permission_by_owner db (actor level) (permission level) with
     | Some po => mret po
     | None => Err out_of_range_exception
     end).

Definition lookup_linked_permission (db : auth_db) (authorizer_account scope act_name : Z) : option Z :=
  match permission_links db !! (authorizer_account, scope, act_name) with
  | Some p => Some p
  | None => permission_links db !! (authorizer_account, scope, 0)
  end.

(** The native actions that no permission can be linked to. *)
Definition unlinkable_action (act_name : Z) : bool :=
  (act_name =? updateauth_name) || (act_name =? deleteauth_name) || (act_name =? linkauth_name) ||
  (act_name =? unlinkauth_name) || (act_name =? canceldelay_name).

Definition lookup_minimum_permission (db : auth_db) (authorizer_account scope act_name : Z) : result (option Z) :=
  _ ← (if scope =? system_account_name
       then EOS_ASSERT (negb (unlinkable_action act_name)) unlinkable_min_permission_action else mret tt);
  match lookup_linked_permission db authorizer_account scope act_name with
  | None => mret (Some active_name)
  | Some p => if p =? eosio_any_name then mret None else mret (Some p)
  end.

(** [permission_object::satisfies].  The loop climbs from [parent]; ids fall
    from a permission to its parent, so fewer rounds are needed than there were
    ids given out.  Dereferencing the end of the index is undefined. *)
Fixpoint climb (fuel : nat) (db : auth_db) (id : Z) (parent : permission_object) : result bool :=
  match fuel with
  | O => Err assertion_failed
  | S fuel =>
      if id =? po_parent parent then mret true
      else if po_parent parent =? 0 then mret false
      else match permission_by_id db (po_parent parent) with
           | None => Err undefined_behavior
           | Some parent => climb fuel db id parent
           end
  end.

Definition satisfies (db : auth_db) (p other : permission_object) : result bool :=
  if negb (po_owner p =? po_owner other) then mret false
  else if (po_id p =? po_id other) || (po_id p =? po_parent other) then mret true
  else match permission_by_id db (po_parent other) with
       | None => Err undefined_behavior
       | Some parent => climb (S (Z.to_nat (next_permission_id db))) db (po_id p) parent
       end.

(** ** The authorization of native actions *)

(** [get_permission(auth).satisfies(min, ...)], or the exception. *)
Definition require_satisfies (db : auth_db) (auth : permission_level) (min : permission_object) : result unit :=
  p ← get_permission db auth;
  b ← satisfies db p min;
  EOS_ASSERT b irrelevant_auth_exception.

(** [get_permission(auth).satisfies(get_permission(min), ...)]: the left operand
    is evaluated first. *)
Definition require_satisfies_level (db : auth_db) (auth min : permission_level) : result unit :=
  p ← get_permission db auth;
  m ← get_permission db min;
  b ← satisfies db p m;
  EOS_ASSERT b irrelevant_auth_exception.

(** The single declared authorization, which must be of the given account. *)
Definition single_authorization (auths : list permission_level) (account : Z) : result permission_level :=
  _ ← EOS_ASSERT (vsize auths =? 1) irrelevant_auth_exception;
  auth ← at_index auths 0;
  _ ← EOS_ASSERT (actor auth =? account) irrelevant_auth_exception;
  mret auth.

Definition check_updateauth_authorization (db : auth_db) (update : updateauth K) (auths : list permission_level) : result unit :=
  auth ← single_authorization auths (ua_account update);
  found ← find_permission db (PermissionLevel (ua_account update) (ua_permission update));
  min ← (match found with
         | Some po => mret po
         | None => get_permission db (PermissionLevel (ua_account update) (ua_parent update))
         end);
  require_satisfies db auth min.

Definition check_deleteauth_authorization (db : auth_db) (del : deleteauth) (auths : list permission_level) : result unit :=
  auth ← single_authorization auths (da_account del);
  min ← get_permission db (PermissionLevel (da_account del) (da_permission del));
  require_satisfies db auth min.

(** [fix_linkauth_restriction] says whether that feature is activated. *)
Definition check_linkauth_authorization (db : auth_db) (fix_linkauth_restriction : bool) (link : linkauth)
    (auths : list permission_level) : result unit :=
  auth ← single_authorization auths (la_account link);
  _ ← (if (la_code link =? system_account_name) || negb fix_linkauth_restriction
       then EOS_ASSERT (negb (unlinkable_action (la_type link))) action_validate_exception else mret tt);
  linked ← lookup_minimum_permission db (la_account link) (la_code link) (la_type link);
  match linked with
  | None => mret tt
  | Some name => require_satisfies_level db auth (PermissionLevel (la_account link) name)
  end.

Definition check_unlinkauth_authorization (db : auth_db) (unlink : unlinkauth) (auths : list permission_level) : result unit :=
  auth ← single_authorization auths (ul_account unlink);
  match lookup_linked_permission db (ul_account unlink) (ul_code unlink) (ul_type unlink) with
  | None => Err transaction_exception
  | Some name =>
      if name =? eosio_any_name then mret tt
      else require_satisfies_level db auth (PermissionLevel (ul_account unlink) name)
  end.

(** ** check_authorization *)

Definition microseconds_maximum : Z := 2 ^ 63 - 1.

(** The parts of the configuration that are read. *)
Record auth_config : Type := AuthConfig {
  max_transaction_delay : Z;
  max_authority_depth : Z;
  fix_linkauth_restriction : bool
}.

(** The function the checkers are made with. *)
Definition permission_to_authority (db : auth_db) (p : permission_level) : result (option (authority K)) :=
  po ← find_permission db p; mret (match po with Some po => Some (po_auth po) | None => None end).

(** Whether the action is one of the native ones with a check of its own, and
    that check. *)
Definition check_special_case (db : auth_db) (cfg : auth_config) (act : action) : result bool :=
  if act_account act =? system_account_name then
    if act_name act =? updateauth_name then
      d ← data_as updateauth_name act; _ ← check_updateauth_authorization db d (act_authorization act); mret true
    else if act_name act =? deleteauth_name then
      d ← data_as deleteauth_name act; _ ← check_deleteauth_authorization db d (act_authorization act); mret true
    else if act_name act =? linkauth_name then
      d ← data_as linkauth_name act;
      _ ← check_linkauth_authorization db (fix_linkauth_restriction cfg) d (act_authorization act); mret true
    else if act_name act =? unlinkauth_name then
      d ← data_as unlinkauth_name act; _ ← check_unlinkauth_authorization db d (act_authorization act); mret true
    else mret false
  else mret false.

(** [permissions_to_satisfy.emplace(auth, delay)], lowering the delay of an
    entry that is there; the map is ordered. *)
Fixpoint add_to_satisfy (auth : permission_level) (delay : Z) (l : list (permission_level * Z)) : list (permission_level * Z) :=
  match l with
  | [] => [(auth, delay)]
  | (q, d) :: l' =>
      if bool_decide (q = auth) then (q, if delay <? d then delay else d) :: l'
      else if permission_level_ltb auth q then (auth, delay) :: l
      else (q, d) :: add_to_satisfy auth delay l'
  end.

(** [checktime], a callback that throws when the time is up, is the outcome of
    its [n]-th call. *)
Variable checktime : nat -> result unit.

Definition check_minimum (db : auth_db) (act : action) (declared_auth : permission_level) : result unit :=
  name ← lookup_minimum_permission db (actor declared_auth) (act_account act) (act_name act);
  match name with
  | None => mret tt
  | Some name =>
      min ← get_permission db (PermissionLevel (actor declared_auth) name);
      require_satisfies db declared_auth min
  end.

(** The inner loop, over the authorizations an action declares. *)
Fixpoint collect_declared (db : auth_db) (act : action) (special_case : bool) (delay : Z)
    (satisfied_authorizations : list permission_level) (auths : list permission_level)
    (n : nat) (to_satisfy : list (permission_level * Z)) : result (nat * list (permission_level * Z)) :=
  match auths with
  | [] => mret (n, to_satisfy)
  | declared_auth :: auths =>
      _ ← checktime n;
      _ ← (if special_case then mret tt else check_minimum db act declared_auth);
      collect_declared db act special_case delay satisfied_authorizations auths (S n)
        (if bool_decide (declared_auth ∈ satisfied_authorizations) then to_satisfy
         else add_to_satisfy declared_auth delay to_satisfy)
  end.

Fixpoint collect_actions (db : auth_db) (cfg : auth_config) (delay : Z) (satisfied_authorizations : list permission_level)
    (actions : list action) (n : nat) (to_satisfy : list (permission_level * Z)) : result (nat * list (permission_level * Z)) :=
  match actions with
  | [] => mret (n, to_satisfy)
  | act :: actions =>
      special_case ← check_special_case db cfg act;
      '(n, to_satisfy) ← collect_declared db act special_case delay satisfied_authorizations (act_authorization act) n to_satisfy;
      collect_actions db cfg delay satisfied_authorizations actions n to_satisfy
  end.

(** The loop over the permissions to satisfy, with the keys used so far. *)
Fixpoint check_to_satisfy (db : auth_db) (cfg : auth_config) (provided_keys : list K) (provided_permissions : list permission_level)
    (check_but_dont_fail : bool) (l : list (permission_level * Z)) (n : nat) (used : list bool) : result (list bool) :=
  match l with
  | [] => mret used
  | (p, delay) :: l =>
      _ ← checktime n;
      '(r, used) ← satisfied (permission_to_authority db) (max_authority_depth cfg) provided_keys provided_permissions delay p used;
      _ ← EOS_ASSERT (r || check_but_dont_fail) unsatisfied_authorization;
      check_to_satisfy db cfg provided_keys provided_permissions check_but_dont_fail l (S n) used
  end.

Definition effective_delay (cfg : auth_config) (provided_delay : Z) : Z :=
  if max_transaction_delay cfg * 1000000 <=? provided_delay then microseconds_maximum else provided_delay.

Definition check_authorization (db : auth_db) (cfg : auth_config) (actions : list action) (provided_keys : list K)
    (provided_permissions : list permission_level) (provided_delay : Z) (allow_unused_keys check_but_dont_fail : bool)
    (satisfied_authorizations : list permission_level) : result unit :=
  '(n, to_satisfy) ← collect_actions db cfg (effective_delay cfg provided_delay) satisfied_authorizations actions O [];
  used ← check_to_satisfy db cfg provided_keys provided_permissions check_but_dont_fail to_satisfy n
           (no_keys_used provided_keys);
  if allow_unused_keys then mret tt
  else EOS_ASSERT (all_keys_used used || check_but_dont_fail) tx_irrelevant_sig.

(** The overload for one permission. *)
Definition check_permission_authorization (db : auth_db) (cfg : auth_config) (account permission : Z) (provided_keys : list K)
    (provided_permissions : list permission_level) (provided_delay : Z) (allow_unused_keys : bool) : result unit :=
  '(r, used) ← satisfied (permission_to_authority db) (max_authority_depth cfg) provided_keys provided_permissions
                 (effective_delay cfg provided_delay) (PermissionLevel account permission) (no_keys_used provided_keys);
  _ ← EOS_ASSERT r unsatisfied_authorization;
  if allow_unused_keys then mret tt else EOS_ASSERT (all_keys_used used) tx_irrelevant_sig.

(** [get_required_keys]: the keys among the candidates that were used. *)
Fixpoint require_declared (db : auth_db) (cfg : auth_config) (candidate_keys : list K) (provided_delay : Z)
    (auths : list permission_level) (used : list bool) : result (list bool) :=
  match auths with
  | [] => mret used
  | a :: auths =>
      '(r, used) ← satisfied (permission_to_authority db) (max_authority_depth cfg) candidate_keys [] provided_delay a used;
      _ ← EOS_ASSERT r unsatisfied_authorization;
      require_declared db cfg candidate_keys provided_delay auths used
  end.

Definition get_required_keys (db : auth_db) (cfg : auth_config) (actions : list action) (candidate_keys : list K)
    (provided_delay : Z) : result (list K) :=
  used ← require_declared db cfg candidate_keys provided_delay (mjoin (act_authorization <$> actions)) (no_keys_used candidate_keys);
  mret (keys_marked candidate_keys true used).
End Authorization.
