(* ===== verification/PermissionTree.v ===== *)
(** The permissions of an account form a tree: the invariant of the permission
    table, what [satisfies] decides in it, and what it means that
    [check_authorization] accepts the actions of a transaction. *)
From Stdlib Require Import ZArith Lia ZifyBool.
From stdpp Require Import base tactics numbers list gmap.
From S2P Require Import Prelude Raw ProducerSchedule CoreAsset Authority AuthorityRuns Authorization.
#[local] Open Scope Z_scope.

Section Tree.
Context {K : Type} `{EqDecision K} `{Packable K}.
Abbreviation auth_db := (auth_db K).
Abbreviation permission_object := (permission_object K).

Definition owner_name_of (po : permission_object) : Z * Z := (po_owner po, po_name po).

(** A permission of an account: it has a parent made before it, of the same
    account, unless it is the account's owner permission; its authority is one
    that the checker decides exactly. *)
Record row_ok (db : auth_db) (po : permission_object) : Prop := {
  ro_owner : po_owner po ∈ account_objects db /\ po_owner po <> 0;
  ro_name : po_name po <> 0;
  ro_parent : 0 <= po_parent po < po_id po;
  ro_root : po_parent po = 0 <-> po_name po = owner_name;
  ro_parent_row : po_parent po <> 0 ->
    exists q, q ∈ permissions db /\ po_id q = po_parent po /\ po_owner q = po_owner po;
  ro_auth : good_authority (po_auth po)
}.

Record perm_ok (db : auth_db) : Prop := {
  pk_reserved : exists r, r ∈ permissions db /\ po_id r = 0 /\ po_parent r = 0 /\ po_owner r = 0 /\ po_name r = 0;
  pk_next : forall po, po ∈ permissions db -> 0 <= po_id po < next_permission_id db;
  pk_ids : NoDup (po_id <$> permissions db);
  pk_names : NoDup (owner_name_of <$> permissions db);
  pk_rows : forall po, po ∈ permissions db -> po_id po <> 0 -> row_ok db po
}.

Lemma by_owner_Some (db : auth_db) o n po :
  permission_by_owner db o n = Some po -> po ∈ permissions db /\ po_owner po = o /\ po_name po = n.
Proof. intros [Hin E]%find_Some. split; [done|lia]. Qed.

Lemma by_owner_None (db : auth_db) o n po :
  permission_by_owner db o n = None -> po ∈ permissions db -> owner_name_of po <> (o, n).
Proof. intros E Hin. pose proof (find_None _ _ _ E Hin) as Hf. cbn in Hf. intros [= <- <-]. lia. Qed.

Lemma by_id_in (db : auth_db) po : perm_ok db -> po ∈ permissions db -> permission_by_id db (po_id po) = Some po.
Proof. intros Hok. apply (find_unique po_id); [apply (pk_ids _ Hok)|]. intros y. apply Z.eqb_eq. Qed.

Lemma same_id (db : auth_db) p q : perm_ok db -> p ∈ permissions db -> q ∈ permissions db -> po_id p = po_id q -> p = q.
Proof. intros Hok Hp Hq E. pose proof (by_id_in _ _ Hok Hp) as E1. rewrite E, (by_id_in _ _ Hok Hq) in E1. congruence. Qed.

(** ** The hierarchy *)

(** The permission with the id is the other one or one above it. *)
Inductive dominates (db : auth_db) (id : Z) : permission_object -> Prop :=
| dom_self q : po_id q = id -> dominates db id q
| dom_parent q r : r ∈ permissions db -> po_id r = po_parent q -> dominates db id r -> dominates db id q.

(** From the reserved permission nothing else is reached. *)
Lemma dominates_reserved db id r :
  perm_ok db -> r ∈ permissions db -> po_id r = 0 -> dominates db id r -> id = 0.
Proof.
  intros Hok Hr E0 Hd. destruct (pk_reserved _ Hok) as (z & Hz & Ez & Ep & _).
  assert (r = z) as -> by (eapply same_id; eauto; congruence). clear E0.
  remember z as q eqn:Eq. revert Eq. induction Hd as [q Eid|q x Hx Ex Hd IH]; intros ->; [congruence|].
  assert (x = z) as -> by (eapply same_id; eauto; congruence). by apply IH.
Qed.

(** The loop: [q] is already known not to be the permission looked for. *)
Lemma climb_ok db fuel id q :
  perm_ok db -> q ∈ permissions db -> 0 < id -> po_id q <> id -> (Z.to_nat (po_id q) < fuel)%nat ->
  exists b, climb fuel db id q = Ok b /\ (b = true <-> dominates db id q).
Proof.
  intros Hok Hq Hid. revert q Hq. induction fuel as [|fuel IH]; intros q Hq Hne Hf; [lia|]. cbn [climb].
  pose proof (pk_next _ Hok q Hq) as Hn.
  assert (forall x, x ∈ permissions db -> po_id x = po_parent q -> (dominates db id q <-> dominates db id x)) as Hstep.
  { intros x Hx Ex. split; [|by apply (dom_parent _ _ q x)]. inversion 1 as [? E|? y Hy Ey Hd]; subst; [done|].
    assert (y = x) as -> by (eapply same_id; eauto; congruence). done. }
  destruct (Z.eqb_spec id (po_parent q)) as [E|E].
  - exists true. split; [done|]. split; [|done]. intros _. destruct (decide (po_id q = 0)) as [E0|E0].
    + destruct (pk_reserved _ Hok) as (z & Hz & Ez & Ep & _). assert (q = z) as -> by (eapply same_id; eauto; congruence). lia.
    + destruct (ro_parent_row _ _ (pk_rows _ Hok q Hq E0)) as (x & Hx & Ex & _); [lia|].
      apply (Hstep x Hx Ex). constructor. congruence.
  - destruct (Z.eqb_spec (po_parent q) 0) as [E0|E0].
    + exists false. split; [done|]. split; [done|]. intros Hd. destruct (pk_reserved _ Hok) as (z & Hz & Ez & _).
      apply (Hstep z Hz) in Hd; [|congruence]. apply dominates_reserved in Hd; [lia|done..].
    + assert (po_id q <> 0) as Hq0.
      { intros Hq0. destruct (pk_reserved _ Hok) as (z & Hz & Ez & Ep & _).
        assert (q = z) as -> by (eapply same_id; eauto; congruence). done. }
      pose proof (pk_rows _ Hok q Hq Hq0) as Hrow. destruct (ro_parent_row _ _ Hrow E0) as (x & Hx & Ex & _).
      rewrite <- Ex, (by_id_in _ _ Hok Hx). pose proof (ro_parent _ _ Hrow).
      destruct (IH x Hx) as (b & Eb & Hb); [congruence|lia|]. exists b. split; [done|]. by rewrite Hb, (Hstep x Hx Ex).
Qed.

(** What [satisfies] decides. *)
Lemma satisfies_ok db p other :
  perm_ok db -> p ∈ permissions db -> other ∈ permissions db -> po_id p <> 0 -> po_id other <> 0 ->
  exists b, satisfies db p other = Ok b /\ (b = true <-> po_owner p = po_owner other /\ dominates db (po_id p) other).
Proof.
  intros Hok Hp Ho Hp0 Ho0. unfold satisfies. destruct (Z.eqb_spec (po_owner p) (po_owner other)) as [Eo|Eo]; cbn [negb].
  2: { exists false. split; [done|]. by split; [|intros [? _]]. }
  pose proof (pk_next _ Hok p Hp). pose proof (pk_next _ Hok other Ho).
  pose proof (pk_rows _ Hok other Ho Ho0) as Hrow. pose proof (ro_parent _ _ Hrow).
  assert (exists x, x ∈ permissions db /\ po_id x = po_parent other) as (x & Hx & Ex).
  { destruct (decide (po_parent other = 0)) as [E0|E0].
    - destruct (pk_reserved _ Hok) as (z & Hz & Ez & _). exists z. split; [done|congruence].
    - destruct (ro_parent_row _ _ Hrow E0) as (x & Hx & Ex & _). eauto. }
  destruct ((po_id p =? po_id other) || (po_id p =? po_parent other)) eqn:E.
  - exists true. split; [done|]. split; [|done]. intros _. split; [done|]. apply orb_true_iff in E as [E|E].
    + constructor. lia.
    + apply (dom_parent _ _ other x Hx Ex). constructor. lia.
  - rewrite <- Ex, (by_id_in _ _ Hok Hx). pose proof (pk_next _ Hok x Hx).
    destruct (climb_ok db (S (Z.to_nat (next_permission_id db))) (po_id p) x) as (b & Eb & Hb); [done|done|lia|lia|lia|].
    exists b. split; [done|]. rewrite Hb. split.
    + intros Hd. split; [done|]. by apply (dom_parent _ _ other x).
    + intros [_ Hd]. inversion Hd as [? E'|? y Hy Ey Hd']; subst; [lia|].
      assert (y = x) as -> by (eapply same_id; eauto; congruence). done.
Qed.

(** ** Lookups *)

Lemma check_level_Ok level : check_level level = Ok tt -> actor level <> 0 /\ permission level <> 0.
Proof. unfold check_level. intros E%EOS_ASSERT_Ok. lia. Qed.

Lemma rethrow_Ok {A} e (m : result A) a : EOS_RETHROW_EXCEPTIONS e m = Ok a -> m = Ok a.
Proof. destruct m as [x|[]]; cbn; done. Qed.

(** A row of the level, which is not the reserved one. *)
Definition row_of (db : auth_db) (level : permission_level) (po : permission_object) : Prop :=
  po ∈ permissions db /\ owner_name_of po = (actor level, permission level) /\ po_id po <> 0.

Lemma row_of_level (db : auth_db) level po :
  perm_ok db -> check_level level = Ok tt -> permission_by_owner db (actor level) (permission level) = Some po ->
  row_of db level po.
Proof.
  intros Hok [Ha Hp]%check_level_Ok (Hin & E1 & E2)%by_owner_Some.
  split_and!; [done|unfold owner_name_of; congruence|]. intros E0.
  destruct (pk_reserved _ Hok) as (z & Hz & Ez & _ & Eo & _).
  assert (po = z) as -> by (eapply same_id; eauto; congruence). congruence.
Qed.

Lemma get_permission_Ok db level po : perm_ok db -> get_permission db level = Ok po -> row_of db level po.
Proof.
  intros Hok E%rethrow_Ok. apply bind_Ok in E as ([] & Hl & E).
  destruct (permission_by_owner db (actor level) (permission level)) as [q|] eqn:Eq; [|done].
  apply Ok_inj in E as <-. by apply row_of_level.
Qed.

Lemma find_permission_Ok db level o :
  perm_ok db -> find_permission db level = Ok o ->
  o = permission_by_owner db (actor level) (permission level) /\ forall po, o = Some po -> row_of db level po.
Proof.
  intros Hok E%rethrow_Ok. apply bind_Ok in E as ([] & Hl & E). apply Ok_inj in E as <-. split; [done|].
  intros po E. by apply row_of_level.
Qed.

(** The function the checker gets meets what the checker relies on. *)
Lemma permission_to_authority_typed db p a :
  perm_ok db -> permission_to_authority db p = Ok (Some a) -> auth_typed a.
Proof.
  intros Hok E. apply bind_Ok in E as (o & Ef & E). apply Ok_inj in E. destruct o as [po|]; [|done]. injection E as <-.
  destruct (find_permission_Ok _ _ _ Hok Ef) as [_ Hrow]. destruct (Hrow po eq_refl) as (Hin & _ & Hne).
  apply (ro_auth _ _ (pk_rows _ Hok po Hin Hne)).
Qed.

Lemma permission_to_authority_no_wildcard (db : auth_db) n a : permission_to_authority db (PermissionLevel n 0) <> Ok (Some a).
Proof.
  unfold permission_to_authority, find_permission, check_level. cbn [actor permission]. rewrite Z.eqb_refl, andb_false_r. done.
Qed.

(** ** What a declared authorization has to be *)

(** The declared permission is the minimum permission or one above it. *)
Definition authorized_by (db : auth_db) (auth min : permission_level) : Prop :=
  exists p m, row_of db auth p /\ row_of db min m /\ po_owner p = po_owner m /\ dominates db (po_id p) m.

Lemma satisfies_authorized db auth min p m :
  perm_ok db -> row_of db auth p -> row_of db min m -> satisfies db p m = Ok true -> authorized_by db auth min.
Proof.
  intros Hok Hp Hm Hs. destruct (Hp) as (Hp1 & _ & Hp2). destruct (Hm) as (Hm1 & _ & Hm2).
  destruct (satisfies_ok db p m Hok Hp1 Hm1 Hp2 Hm2) as (b & Eb & Hb). rewrite Hs in Eb. apply Ok_inj in Eb as <-.
  destruct (proj1 Hb eq_refl). by exists p, m.
Qed.

Lemma require_satisfies_Ok db auth min m :
  perm_ok db -> row_of db min m -> require_satisfies db auth m = Ok tt -> authorized_by db auth min.
Proof.
  intros Hok Hm Hr. apply bind_Ok in Hr as (p & Hp & Hr). apply bind_Ok in Hr as (b & Hb & Hr). apply EOS_ASSERT_Ok in Hr as ->.
  eapply satisfies_authorized; eauto. by apply get_permission_Ok.
Qed.

Lemma require_satisfies_level_Ok db auth min :
  perm_ok db -> require_satisfies_level db auth min = Ok tt -> authorized_by db auth min.
Proof.
  intros Hok Hr. apply bind_Ok in Hr as (p & Hp & Hr). apply bind_Ok in Hr as (m & Hm & Hr).
  apply bind_Ok in Hr as (b & Hb & Hr). apply EOS_ASSERT_Ok in Hr as ->.
  eapply satisfies_authorized; eauto; by apply get_permission_Ok.
Qed.

(** The minimum permission of an action of a contract, if there is one. *)
Definition minimum_ok (db : auth_db) (auth : permission_level) (account code type : Z) : Prop :=
  lookup_minimum_permission db account code type = Ok None \/
  exists name, lookup_minimum_permission db account code type = Ok (Some name) /\
    authorized_by db auth (PermissionLevel account name).

(** The permission an updateauth action needs: the one it changes or, when it
    makes a new one, the parent. *)
Definition update_target (db : auth_db) (d : updateauth K) : permission_level :=
  PermissionLevel (ua_account d)
    (match permission_by_owner db (ua_account d) (ua_permission d) with Some _ => ua_permission d | None => ua_parent d end).

Inductive declared_ok (db : auth_db) (act : action) (auth : permission_level) : Prop :=
| declared_updateauth d :
    data_as updateauth_name act = Ok d -> act_authorization act = [auth] -> actor auth = ua_account d ->
    authorized_by db auth (update_target db d) -> declared_ok db act auth
| declared_deleteauth d :
    data_as deleteauth_name act = Ok d -> act_authorization act = [auth] -> actor auth = da_account d ->
    authorized_by db auth (PermissionLevel (da_account d) (da_permission d)) -> declared_ok db act auth
| declared_linkauth d :
    data_as linkauth_name act = Ok d -> act_authorization act = [auth] -> actor auth = la_account d ->
    minimum_ok db auth (la_account d) (la_code d) (la_type d) -> declared_ok db act auth
| declared_unlinkauth d name :
    data_as unlinkauth_name act = Ok d -> act_authorization act = [auth] -> actor auth = ul_account d ->
    lookup_linked_permission db (ul_account d) (ul_code d) (ul_type d) = Some name ->
    name = eosio_any_name \/ authorized_by db auth (PermissionLevel (ul_account d) name) -> declared_ok db act auth
| declared_other :
    minimum_ok db auth (actor auth) (act_account act) (act_name act) -> declared_ok db act auth.

Lemma single_authorization_Ok auths account auth :
  single_authorization auths account = Ok auth -> auths = [auth] /\ actor auth = account.
Proof.
  unfold single_authorization. intros E. inv_result. destruct auths as [|x [|y l]]; [done| |unfold vsize in *; cbn in *; lia].
  apply at_index_Ok in Ha0 as [_ E]. injection E as <-. split; [done|lia].
Qed.

Lemma updateauth_declared db act d :
  perm_ok db -> data_as updateauth_name act = Ok d -> check_updateauth_authorization db d (act_authorization act) = Ok tt ->
  forall auth, auth ∈ act_authorization act -> declared_ok db act auth.
Proof.
  intros Hok Ed Hc auth Hin. apply bind_Ok in Hc as (a & Ha & Hc). apply single_authorization_Ok in Ha as [Ea Eact].
  rewrite Ea in Hin. apply list_elem_of_singleton in Hin as ->.
  apply bind_Ok in Hc as (o & Hf & Hc). apply bind_Ok in Hc as (m & Hm & Hc).
  destruct (find_permission_Ok _ _ _ Hok Hf) as [Eo Hrow]. cbn [actor permission] in Eo.
  apply (declared_updateauth db act a d); [done..|]. unfold update_target. rewrite <- Eo. destruct o as [po|].
  - apply Ok_inj in Hm as <-. eapply require_satisfies_Ok; [done|by apply Hrow|done].
  - eapply require_satisfies_Ok; [done| |done]. by apply get_permission_Ok.
Qed.

Lemma deleteauth_declared db act d :
  perm_ok db -> data_as deleteauth_name act = Ok d -> check_deleteauth_authorization db d (act_authorization act) = Ok tt ->
  forall auth, auth ∈ act_authorization act -> declared_ok db act auth.
Proof.
  intros Hok Ed Hc auth Hin. apply bind_Ok in Hc as (a & Ha & Hc). apply single_authorization_Ok in Ha as [Ea Eact].
  rewrite Ea in Hin. apply list_elem_of_singleton in Hin as ->. apply bind_Ok in Hc as (m & Hm & Hc).
  apply (declared_deleteauth db act a d); [done..|]. eapply require_satisfies_Ok; [done| |done]. by apply get_permission_Ok.
Qed.

Lemma linkauth_declared db act fix_restriction d :
  perm_ok db -> data_as linkauth_name act = Ok d ->
  check_linkauth_authorization db fix_restriction d (act_authorization act) = Ok tt ->
  forall auth, auth ∈ act_authorization act -> declared_ok db act auth.
Proof.
  intros Hok Ed Hc auth Hin. apply bind_Ok in Hc as (a & Ha & Hc). apply single_authorization_Ok in Ha as [Ea Eact].
  rewrite Ea in Hin. apply list_elem_of_singleton in Hin as ->. apply bind_Ok in Hc as ([] & _ & Hc).
  apply bind_Ok in Hc as (o & Ho & Hc). apply (declared_linkauth db act a d); [done..|].
  destruct o as [name|]; [right|by left]. exists name. split; [done|]. by apply require_satisfies_level_Ok.
Qed.

Lemma unlinkauth_declared db act d :
  perm_ok db -> data_as unlinkauth_name act = Ok d -> check_unlinkauth_authorization db d (act_authorization act) = Ok tt ->
  forall auth, auth ∈ act_authorization act -> declared_ok db act auth.
Proof.
  intros Hok Ed Hc auth Hin. apply bind_Ok in Hc as (a & Ha & Hc). apply single_authorization_Ok in Ha as [Ea Eact].
  rewrite Ea in Hin. apply list_elem_of_singleton in Hin as ->.
  destruct (lookup_linked_permission db (ul_account d) (ul_code d) (ul_type d)) as [name|] eqn:El; [|done].
  apply (declared_unlinkauth db act a d name); [done..|]. destruct (Z.eqb_spec name eosio_any_name); [by left|right].
  by apply require_satisfies_level_Ok.
Qed.

Lemma special_case_declared db cfg act :
  perm_ok db -> check_special_case db cfg act = Ok true ->
  forall auth, auth ∈ act_authorization act -> declared_ok db act auth.
Proof.
  intros Hok Hc. unfold check_special_case in Hc. destruct (act_account act =? system_account_name); [|done].
  destruct (act_name act =? updateauth_name).
  { apply bind_Ok in Hc as (d & Hd & Hc). apply bind_Ok in Hc as ([] & Hc & _). by eapply updateauth_declared. }
  destruct (act_name act =? deleteauth_name).
  { apply bind_Ok in Hc as (d & Hd & Hc). apply bind_Ok in Hc as ([] & Hc & _). by eapply deleteauth_declared. }
  destruct (act_name act =? linkauth_name).
  { apply bind_Ok in Hc as (d & Hd & Hc). apply bind_Ok in Hc as ([] & Hc & _). by eapply linkauth_declared. }
  destruct (act_name act =? unlinkauth_name); [|done].
  apply bind_Ok in Hc as (d & Hd & Hc). apply bind_Ok in Hc as ([] & Hc & _). by eapply unlinkauth_declared.
Qed.

(** ** check_authorization *)

Definition all_delays (delay : Z) (l : list (permission_level * Z)) : Prop := Forall (fun x => x.2 = delay) l.

Lemma add_to_satisfy_spec auth delay l :
  all_delays delay l ->
  all_delays delay (add_to_satisfy auth delay l) /\ (auth, delay) ∈ add_to_satisfy auth delay l /\
  forall x, x ∈ l -> x ∈ add_to_satisfy auth delay l.
Proof.
  induction 1 as [|[q d] l Hd Hl IH]; cbn [add_to_satisfy].
  - split_and!; [by constructor|left|by intros x []%elem_of_nil].
  - cbn in Hd. subst d. destruct IH as (I1 & I2 & I3). rewrite Z.ltb_irrefl. case_bool_decide as E.
    + subst q. split_and!; [by constructor|left|done].
    + destruct (permission_level_ltb auth q).
      * split_and!; [by constructor; [|constructor]|left|]. intros x Hx. by right.
      * split_and!; [by constructor|by right|]. intros x [->|Hx]%elem_of_cons; [left|right; auto].
Qed.

Variable checktime : nat -> result unit.

Lemma collect_declared_Ok db act special delay sats auths n l n' l' :
  perm_ok db -> all_delays delay l ->
  collect_declared checktime db act special delay sats auths n l = Ok (n', l') ->
  all_delays delay l' /\ (forall x, x ∈ l -> x ∈ l') /\
  forall auth, auth ∈ auths ->
    ((auth ∈ sats) \/ (auth, delay) ∈ l') /\
    (special = false -> minimum_ok db auth (actor auth) (act_account act) (act_name act)).
Proof.
  intros Hok. revert n l; induction auths as [|a auths IH]; intros n l Hd Hc; cbn [collect_declared] in Hc.
  - apply Ok_inj in Hc as [= <- <-]. split_and!; [done|done|by intros a []%elem_of_nil].
  - apply bind_Ok in Hc as ([] & _ & Hc). apply bind_Ok in Hc as ([] & Hm & Hc).
    destruct (add_to_satisfy_spec a delay l Hd) as (A1 & A2 & A3).
    assert (special = false -> minimum_ok db a (actor a) (act_account act) (act_name act)) as Hmin.
    { intros ->. apply bind_Ok in Hm as (o & Ho & Hm). destruct o as [name|]; [right|by left].
      apply bind_Ok in Hm as (m & Hg & Hm). exists name. split; [done|].
      eapply require_satisfies_Ok; [done| |done]. by apply get_permission_Ok. }
    case_bool_decide as Hs.
    + destruct (IH _ _ Hd Hc) as (I1 & I2 & I3). split_and!; [done|done|]. intros x [->|Hx]%elem_of_cons; [|by apply I3].
      split; [by left|done].
    + destruct (IH _ _ A1 Hc) as (I1 & I2 & I3). split_and!; [done|auto|]. intros x [->|Hx]%elem_of_cons; [|by apply I3].
      split; [right; auto|done].
Qed.

Lemma collect_actions_Ok db cfg delay sats actions n l n' l' :
  perm_ok db -> all_delays delay l ->
  collect_actions checktime db cfg delay sats actions n l = Ok (n', l') ->
  all_delays delay l' /\ (forall x, x ∈ l -> x ∈ l') /\
  forall act auth, act ∈ actions -> auth ∈ act_authorization act ->
    ((auth ∈ sats) \/ (auth, delay) ∈ l') /\ declared_ok db act auth.
Proof.
  intros Hok. revert n l; induction actions as [|a actions IH]; intros n l Hd Hc; cbn [collect_actions] in Hc.
  - apply Ok_inj in Hc as [= <- <-]. split_and!; [done|done|by intros a auth []%elem_of_nil].
  - apply bind_Ok in Hc as (special & Hs & Hc). apply bind_Ok in Hc as ([n1 l1] & Hc1 & Hc).
    destruct (collect_declared_Ok _ _ _ _ _ _ _ _ _ _ Hok Hd Hc1) as (D1 & D2 & D3).
    destruct (IH _ _ D1 Hc) as (I1 & I2 & I3). split_and!; [done|auto|].
    intros act auth [->|Hin]%elem_of_cons Hauth; [|by apply I3]. destruct (D3 auth Hauth) as [D4 D5]. split.
    + destruct D4; [by left|right; auto].
    + destruct special; [by eapply special_case_declared|]. apply declared_other. auto.
Qed.

Lemma check_to_satisfy_Ok db cfg keys perms l n used used' :
  perm_ok db -> check_to_satisfy checktime db cfg keys perms false l n used = Ok used' ->
  forall p delay, (p, delay) ∈ l -> exists k, holds_at (permission_to_authority db) keys perms delay k p = true.
Proof.
  intros Hok. revert n used; induction l as [|[q d] l IH]; intros n used Hc p delay; cbn [check_to_satisfy] in Hc;
    [by intros []%elem_of_nil|].
  apply bind_Ok in Hc as ([] & _ & Hc). apply bind_Ok in Hc as ([r used1] & Hs & Hc).
  apply bind_Ok in Hc as ([] & Hr%EOS_ASSERT_Ok & Hc). rewrite orb_false_r in Hr. subst r.
  intros [[= -> ->]|Hin]%elem_of_cons; [|by eapply IH].
  eapply satisfied_sound; [|apply permission_to_authority_no_wildcard|exact Hs]. intros x a. by apply permission_to_authority_typed.
Qed.

(** C19. No action without authority: when [check_authorization] accepts the
    actions of a transaction, every authorization that an action declares is
    permitted for that action (it is the action's minimum permission, a
    permission above it in the account's hierarchy, or the action needs none;
    for the actions that change permissions the permission they change takes
    that place), and it was satisfied before or follows from the provided keys,
    permissions and delay. *)
Theorem check_authorization_sound db cfg actions keys perms delay allow_unused sats :
  perm_ok db ->
  check_authorization checktime db cfg actions keys perms delay allow_unused false sats = Ok tt ->
  forall act auth, act ∈ actions -> auth ∈ act_authorization act ->
    declared_ok db act auth /\
    ((auth ∈ sats) \/ exists n, holds_at (permission_to_authority db) keys perms (effective_delay cfg delay) n auth = true).
Proof.
  intros Hok Hc act auth Hact Hauth. apply bind_Ok in Hc as ([n l] & Hl & Hc). apply bind_Ok in Hc as (used & Hs & _).
  destruct (collect_actions_Ok _ _ _ _ _ _ _ _ _ Hok (Forall_nil_2 _) Hl) as (_ & _ & H3).
  destruct (H3 act auth Hact Hauth) as [[Hin|Hin] Hd]; (split; [done|]); [by left|right].
  by eapply check_to_satisfy_Ok.
Qed.
End Tree.
