(* ===== verification/PermissionActions.v ===== *)
(** The native actions on accounts and permissions (chain/eosio_contract.cpp):
    newaccount, updateauth, deleteauth, linkauth and unlinkauth, with the RAM
    they bill (transaction_context::add_ram_usage).

    An action that throws is undone with its transaction, so a handler returns
    the new state or the exception.  What it reads of its context is the record
    [action_context]; the resource limits manager is the class
    [ResourceAccounts], which [ResourceLimits] implements.  The copy of the RAM
    deltas that an action keeps for its trace, and deep-mind logging, have no
    part in the state. *)
From Stdlib Require Import ZArith Lia ZifyBool Ascii String.
From stdpp Require Import base tactics numbers list gmap.
From S2P Require Import Prelude Raw ProducerSchedule CoreAsset ResourceLimits Authority Authorization.
#[local] Open Scope Z_scope.

(** ** Names as strings *)

Definition charmap : list Z := chars ".12345abcdefghijklmnopqrstuvwxyz".

(** The loop of [name::to_string]: from the last character to the first. *)
Fixpoint name_chars (fuel : nat) (i tmp : Z) (acc : list Z) : list Z :=
  match fuel with
  | O => acc
  | S fuel =>
      let c := default 0 (charmap !! Z.to_nat (Z.land tmp (if i =? 0 then 0x0f else 0x1f))) in
      name_chars fuel (i + 1) (Z.shiftr tmp (if i =? 0 then 4 else 5)) (c :: acc)
  end.
Definition dot : Z := 46.
Fixpoint trim_right (l : list Z) : list Z :=
  match l with
  | [] => []
  | c :: l => match trim_right l with [] => if c =? dot then [] else [c] | t => c :: t end
  end.
Definition name_to_string (value : Z) : list Z := trim_right (name_chars 13 0 value []).

Definition system_name_prefix_str : list Z := chars "flon.".
(** [str.find(prefix) == 0]. *)
Fixpoint starts_with (prefix str : list Z) : bool :=
  match prefix, str with
  | [], _ => true
  | p :: prefix, c :: str => (p =? c) && starts_with prefix str
  | _ :: _, [] => false
  end.

(** ** Billable sizes *)

Definition billable_size_v (value : Z) : Z := (value + 16 - 1) / 16 * 16.
Definition overhead_per_row_per_index_ram_bytes : Z := 32.
Definition fixed_overhead_shared_vector_ram_bytes : Z := 16.
Definition overhead_per_account_ram_bytes : Z := 2 * 1024.
Definition shared_authority_size : Z := billable_size_v (3 * fixed_overhead_shared_vector_ram_bytes + 4).
Definition permission_object_size : Z :=
  billable_size_v ((shared_authority_size + 64) + 5 * overhead_per_row_per_index_ram_bytes).
Definition permission_link_size : Z := billable_size_v (40 + 3 * overhead_per_row_per_index_ram_bytes).

(** ** The resource limits manager, as these actions use it *)

(** [rl_add_ram_usage] also says whether it made a gas trace, which it does for
    an account that is not unlimited. *)
Class ResourceAccounts (RL : Type) : Type := {
  rl_initialize_account : Z -> RL -> result RL;
  rl_add_ram_usage : Z -> Z -> RL -> result (RL * bool)
}.

#[export] Instance resource_limits_accounts LT UT KV
    `{Table LT Z resource_limits_object} `{Table UT Z resource_usage_object} `{Table KV kv_key (list Z)} :
  ResourceAccounts (database LT UT KV) := {
  rl_initialize_account := initialize_account;
  rl_add_ram_usage a d db :=
    '(db, trace) ← add_ram_usage a d db; mret (db, match trace with Some _ => true | None => false end)
}.

Section Actions.
Context {K RL : Type} `{EqDecision K} `{Packable K} `{ResourceAccounts RL}.
Variable key_which : K -> Z.
Variable key_ltb : K -> K -> bool.
(** [fc::raw::pack_size] of a key as it is stored. *)
Variable key_pack_size : K -> Z.

Definition get_billable_size (a : authority K) : Z :=
  vsize (auth_accounts a) * billable_size_v 24 + vsize (auth_waits a) * billable_size_v 16 +
  foldr (fun k acc => billable_size_v 8 + key_pack_size (kw_key k) + acc) 0 (auth_keys a).

Record action_context : Type := ActionContext {
  ctx_read_only : bool;
  ctx_authorization : list permission_level;
  ctx_pending_block_time : Z;
  ctx_max_transaction_delay : Z;
  ctx_only_link_to_existing_permission : bool;
  (* [enforce_whiteblacklist && is_speculative_block()], and [check_key_list] *)
  ctx_enforce_key_list : bool;
  ctx_check_key_list : K -> result unit
}.

Record exec_state : Type := ExecState {
  ex_db : auth_db K;
  ex_rl : RL;
  ex_ram_deltas : gmap Z Z
}.

(** [apply_context::require_authorization]. *)
Definition require_authorization (ctx : action_context) (account : Z) : result unit :=
  EOS_ASSERT (existsb (fun a => actor a =? account) (ctx_authorization ctx)) missing_auth_exception.

(** [transaction_context::add_ram_usage]. *)
Definition trx_add_ram_usage (account ram_delta : Z) (deltas : gmap Z Z) : result (gmap Z Z) :=
  match deltas !! account with
  | None => mret (<[account := ram_delta]> deltas)
  | Some d => _ ← verify_add_i64 d ram_delta; mret (<[account := d + ram_delta]> deltas)
  end.

Definition validate_account_permission (db : auth_db K) (p : permission_level) : result unit :=
  _ ← EOS_ASSERT (bool_decide (actor p ∈ account_objects db)) action_validate_exception;
  if (permission p =? owner_name) || (permission p =? active_name) || (permission p =? eosio_code_name) then mret tt
  else match get_permission db p with
       | Ok _ => mret tt
       | Err permission_query_exception => Err action_validate_exception
       | Err e => Err e
       end.

Fixpoint for_all {A} (f : A -> result unit) (l : list A) : result unit :=
  match l with [] => mret tt | x :: l => _ ← f x; for_all f l end.

Definition validate_authority_precondition (ctx : action_context) (db : auth_db K) (auth : authority K) : result unit :=
  _ ← for_all (fun a => validate_account_permission db (plw_permission a)) (auth_accounts auth);
  if ctx_enforce_key_list ctx then for_all (fun k => ctx_check_key_list ctx (kw_key k)) (auth_keys auth) else mret tt.

Record newaccount : Type := NewAccount {
  na_creator : Z; na_name : Z; na_owner : authority K; na_active : authority K }.

Definition apply_newaccount (ctx : action_context) (create : newaccount) (st : exec_state) : result exec_state :=
  _ ← EOS_ASSERT (negb (ctx_read_only ctx)) action_validate_exception;
  _ ← require_authorization ctx (na_creator create);
  _ ← EOS_ASSERT (Authority.validate key_ltb (na_owner create)) action_validate_exception;
  _ ← EOS_ASSERT (Authority.validate key_ltb (na_active create)) action_validate_exception;
  let db := ex_db st in
  let name_str := name_to_string (na_name create) in
  _ ← EOS_ASSERT (negb (na_name create =? 0)) action_validate_exception;
  _ ← EOS_ASSERT (vsize name_str <=? 12) action_validate_exception;
  _ ← EOS_ASSERT (bool_decide (na_creator create ∈ account_objects db)) out_of_range_exception;
  _ ← (if bool_decide (na_creator create ∈ privileged_accounts db) then mret tt
       else EOS_ASSERT (negb (starts_with system_name_prefix_str name_str)) action_validate_exception);
  _ ← EOS_ASSERT (bool_decide (na_name create ∉ account_objects db)) account_name_exists_exception;
  let db := with_account db (na_name create) in
  _ ← for_all (validate_authority_precondition ctx db) [na_owner create; na_active create];
  '(db, owner) ← create_permission key_which db (ctx_pending_block_time ctx) (na_name create) owner_name 0 (na_owner create) 0;
  '(db, active) ← create_permission key_which db (ctx_pending_block_time ctx) (na_name create) active_name (po_id owner)
                    (na_active create) 0;
  rl ← rl_initialize_account (na_name create) (ex_rl st);
  let ram_delta := overhead_per_account_ram_bytes + 2 * permission_object_size +
                   get_billable_size (po_auth owner) + get_billable_size (po_auth active) in
  deltas ← trx_add_ram_usage (na_name create) ram_delta (ex_ram_deltas st);
  mret (ExecState db rl deltas).

Definition last_wait (a : authority K) : option Z := ww_wait_sec <$> last (auth_waits a).

(** The checks of the fields of an updateauth action. *)
Definition check_updateauth_fields (ctx : action_context) (db : auth_db K) (update : updateauth K) : result unit :=
  _ ← EOS_ASSERT (negb (ua_permission update =? 0)) action_validate_exception;
  _ ← EOS_ASSERT (negb (starts_with system_name_prefix_str (name_to_string (ua_permission update)))) action_validate_exception;
  _ ← EOS_ASSERT (negb (ua_permission update =? ua_parent update)) action_validate_exception;
  _ ← EOS_ASSERT (bool_decide (ua_account update ∈ account_objects db)) out_of_range_exception;
  _ ← EOS_ASSERT (Authority.validate key_ltb (ua_auth update)) action_validate_exception;
  _ ← (if ua_permission update =? active_name
       then EOS_ASSERT (ua_parent update =? owner_name) action_validate_exception else mret tt);
  _ ← (if ua_permission update =? owner_name
       then EOS_ASSERT (ua_parent update =? 0) action_validate_exception
       else EOS_ASSERT (negb (ua_parent update =? 0)) action_validate_exception);
  match last_wait (ua_auth update) with
  | None => mret tt
  | Some w => EOS_ASSERT (w <=? ctx_max_transaction_delay ctx) action_validate_exception
  end.

Definition apply_updateauth (ctx : action_context) (update : updateauth K) (st : exec_state) : result exec_state :=
  _ ← EOS_ASSERT (negb (ctx_read_only ctx)) action_validate_exception;
  _ ← require_authorization ctx (ua_account update);
  let db := ex_db st in
  _ ← check_updateauth_fields ctx db update;
  _ ← validate_authority_precondition ctx db (ua_auth update);
  found ← find_permission db (PermissionLevel (ua_account update) (ua_permission update));
  parent_id ← (if ua_permission update =? owner_name then mret 0
               else parent ← get_permission db (PermissionLevel (ua_account update) (ua_parent update)); mret (po_id parent));
  match found with
  | Some p =>
      _ ← EOS_ASSERT (parent_id =? po_parent p) action_validate_exception;
      let old_size := permission_object_size + get_billable_size (po_auth p) in
      db ← modify_permission key_which db (ctx_pending_block_time ctx) p (ua_auth update);
      let new_size := permission_object_size + get_billable_size (ua_auth update) in
      deltas ← trx_add_ram_usage (po_owner p) (new_size - old_size) (ex_ram_deltas st);
      mret (ExecState db (ex_rl st) deltas)
  | None =>
      '(db, p) ← create_permission key_which db (ctx_pending_block_time ctx) (ua_account update) (ua_permission update) parent_id
                   (ua_auth update) 0;
      let new_size := permission_object_size + get_billable_size (po_auth p) in
      deltas ← trx_add_ram_usage (ua_account update) new_size (ex_ram_deltas st);
      mret (ExecState db (ex_rl st) deltas)
  end.

(** A link of the account to the permission. *)
Definition is_linked (db : auth_db K) (account permission : Z) : bool :=
  existsb (fun x => (x.1.1.1 =? account) && (x.2 =? permission)) (map_to_list (permission_links db)).

Definition apply_deleteauth (ctx : action_context) (remove : deleteauth) (st : exec_state) : result exec_state :=
  _ ← EOS_ASSERT (negb (ctx_read_only ctx)) action_validate_exception;
  _ ← require_authorization ctx (da_account remove);
  _ ← EOS_ASSERT (negb (da_permission remove =? active_name)) action_validate_exception;
  _ ← EOS_ASSERT (negb (da_permission remove =? owner_name)) action_validate_exception;
  let db := ex_db st in
  _ ← EOS_ASSERT (negb (is_linked db (da_account remove) (da_permission remove))) action_validate_exception;
  p ← get_permission db (PermissionLevel (da_account remove) (da_permission remove));
  let old_size := permission_object_size + get_billable_size (po_auth p) in
  db ← remove_permission db p;
  deltas ← trx_add_ram_usage (da_account remove) (- old_size) (ex_ram_deltas st);
  mret (ExecState db (ex_rl st) deltas).

Definition apply_linkauth (ctx : action_context) (link : linkauth) (st : exec_state) : result exec_state :=
  _ ← EOS_ASSERT (negb (ctx_read_only ctx)) action_validate_exception;
  _ ← EOS_ASSERT (negb (la_requirement link =? 0)) action_validate_exception;
  _ ← require_authorization ctx (la_account link);
  let db := ex_db st in
  _ ← EOS_ASSERT (bool_decide (la_account link ∈ account_objects db)) account_query_exception;
  _ ← EOS_ASSERT (bool_decide (la_code link ∈ account_objects db)) account_query_exception;
  _ ← (if la_requirement link =? eosio_any_name then mret tt
       else
         let p := if ctx_only_link_to_existing_permission ctx
                  then permission_by_owner db (la_account link) (la_requirement link)
                  else permission_by_name db (la_requirement link) in
         EOS_ASSERT (match p with Some _ => true | None => false end) permission_query_exception);
  let link_key := (la_account link, la_code link, la_type link) in
  match permission_links db !! link_key with
  | Some required =>
      _ ← EOS_ASSERT (negb (required =? la_requirement link)) action_validate_exception;
      mret (ExecState (with_links db (<[link_key := la_requirement link]> (permission_links db))) (ex_rl st) (ex_ram_deltas st))
  | None =>
      deltas ← trx_add_ram_usage (la_account link) permission_link_size (ex_ram_deltas st);
      mret (ExecState (with_links db (<[link_key := la_requirement link]> (permission_links db))) (ex_rl st) deltas)
  end.

Definition apply_unlinkauth (ctx : action_context) (unlink : unlinkauth) (st : exec_state) : result exec_state :=
  _ ← EOS_ASSERT (negb (ctx_read_only ctx)) action_validate_exception;
  _ ← require_authorization ctx (ul_account unlink);
  let db := ex_db st in
  let link_key := (ul_account unlink, ul_code unlink, ul_type unlink) in
  match permission_links db !! link_key with
  | None => Err action_validate_exception
  | Some _ =>
      deltas ← trx_add_ram_usage (ul_account unlink) (- permission_link_size) (ex_ram_deltas st);
      mret (ExecState (with_links db (delete link_key (permission_links db))) (ex_rl st) deltas)
  end.

(** ** The accounts a new chain starts with (controller.cpp) *)

Definition null_account_name : Z := SYS_NAME "null".
Definition producers_account_name : Z := SYS_NAME "prods".
Definition majority_producers_permission_name : Z := string_to_name "prod.major".
Definition minority_producers_permission_name : Z := string_to_name "prod.minor".

Definition with_privileged (db : auth_db K) (name : Z) : auth_db K :=
  AuthDb (account_objects db) ({[name]} ∪ privileged_accounts db) (permissions db) (next_permission_id db)
    (permission_usages db) (next_usage_id db) (permission_links db) (num_supported_key_types db).

Definition create_native_account (initial_timestamp name : Z) (owner active : authority K) (is_privileged : bool)
    (db : auth_db K) (rl : RL) : result (auth_db K * RL) :=
  _ ← EOS_ASSERT (bool_decide (name ∉ account_objects db)) logic_error;
  let db := with_account db name in
  let db := if is_privileged then with_privileged db name else db in
  '(db, po) ← create_permission key_which db 0 name owner_name 0 owner initial_timestamp;
  '(db, pa) ← create_permission key_which db 0 name active_name (po_id po) active initial_timestamp;
  rl ← rl_initialize_account name rl;
  let ram_delta := overhead_per_account_ram_bytes + 2 * permission_object_size +
                   get_billable_size (po_auth po) + get_billable_size (po_auth pa) in
  '(rl, traced) ← rl_add_ram_usage name ram_delta rl;
  _ ← c_assert (negb traced);
  mret (db, rl).

(** The part of [controller_impl::initialize_database] that makes permissions. *)
Definition initialize_accounts (initial_timestamp : Z) (system_auth : authority K) (db : auth_db K) (rl : RL)
    : result (auth_db K * RL) :=
  db ← initialize_database db;
  '(db, rl) ← create_native_account initial_timestamp system_account_name system_auth system_auth true db rl;
  let empty_authority := Authority 1 [] [] [] in
  let active_producers_authority :=
    Authority 1 [] [PermissionLevelWeight (PermissionLevel system_account_name active_name) 1] [] in
  '(db, rl) ← create_native_account initial_timestamp null_account_name empty_authority empty_authority false db rl;
  '(db, rl) ← create_native_account initial_timestamp producers_account_name empty_authority active_producers_authority false db rl;
  '(db, rl) ← create_native_account initial_timestamp gas_account_name empty_authority active_producers_authority false db rl;
  active ← get_permission db (PermissionLevel producers_account_name active_name);
  '(db, majority) ← create_permission key_which db 0 producers_account_name majority_producers_permission_name (po_id active)
                      active_producers_authority initial_timestamp;
  '(db, _) ← create_permission key_which db 0 producers_account_name minority_producers_permission_name (po_id majority)
               active_producers_authority initial_timestamp;
  mret (db, rl).
End Actions.
