(* ===== verification/PermissionRuns.v ===== *)
(** Sequences of native actions on accounts and permissions: the permission
    tables stay a forest with one tree per account, every account keeps its
    owner and active permission, links refer to existing permissions but for
    those made before the protocol feature that checks it, and the RAM billed is
    exactly the growth of what is stored. *)
From Stdlib Require Import ZArith Lia ZifyBool String.
From stdpp Require Import base tactics numbers list gmap.
From S2P Require Import Prelude Raw ProducerSchedule CoreAsset ResourceLimits Authority AuthorityRuns Authorization.
From S2P Require Import PermissionTree PermissionActions.
#[local] Open Scope Z_scope.

Section Runs.
Context {K : Type} `{EqDecision K} `{Packable K}.
Variable key_which : K -> Z.
Variable key_ltb : K -> K -> bool.
Variable key_pack_size : K -> Z.
Abbreviation auth_db := (auth_db K).
Abbreviation permission_object := (permission_object K).

(** ** Changes of the table keep the tree *)

Lemma row_ok_mono (db db' : auth_db) po :
  account_objects db ⊆ account_objects db' ->
  (forall q, q ∈ permissions db -> exists q', q' ∈ permissions db' /\ po_id q' = po_id q /\ po_owner q' = po_owner q) ->
  row_ok db po -> row_ok db' po.
Proof.
  intros Ha Hp [[O1 O2] Hn Hpar Hroot Hrow Hauth]. constructor; try done.
  - split; [by apply Ha|done].
  - intros E. destruct (Hrow E) as (q & Hq & Eq & Eo). destruct (Hp q Hq) as (q' & Hq' & E1 & E2).
    exists q'. split_and!; [done|congruence|congruence].
Qed.

(** Only the permissions and the accounts matter. *)
Lemma perm_ok_ext (db db' : auth_db) :
  permissions db' = permissions db -> next_permission_id db' = next_permission_id db ->
  account_objects db ⊆ account_objects db' -> perm_ok db -> perm_ok db'.
Proof.
  intros Ep En Ha [Hr Hnext Hids Hnames Hrows]. constructor; rewrite ?Ep, ?En; try done.
  intros po Hpo E0. eapply row_ok_mono; [exact Ha| |by apply Hrows]. rewrite Ep. eauto.
Qed.

Lemma insert_row_ok (db : auth_db) po :
  perm_ok db -> po_id po = next_permission_id db -> 0 < next_permission_id db ->
  permission_by_owner db (po_owner po) (po_name po) = None ->
  row_ok (with_permissions db (permissions db ++ [po]) (next_permission_id db + 1)) po ->
  perm_ok (with_permissions db (permissions db ++ [po]) (next_permission_id db + 1)).
Proof.
  intros Hok Eid Hpos Hnone Hrow. destruct Hok as [(r & Hr & Er) Hnext Hids Hnames Hrows] eqn:Ek. clear Ek.
  constructor; cbn [with_permissions permissions next_permission_id].
  - exists r. split; [apply elem_of_app; by left|done].
  - intros q [Hq|Hq]%elem_of_app; [pose proof (Hnext q Hq); lia|]. apply list_elem_of_singleton in Hq as ->. lia.
  - rewrite fmap_app. apply NoDup_app. split_and!; [done| |apply NoDup_singleton].
    intros x (q & -> & Hq)%list_elem_of_fmap E%list_elem_of_singleton. pose proof (Hnext q Hq). lia.
  - rewrite fmap_app. apply NoDup_app. split_and!; [done| |apply NoDup_singleton].
    intros x (q & -> & Hq)%list_elem_of_fmap E%list_elem_of_singleton. by apply (by_owner_None _ _ _ _ Hnone Hq).
  - intros q [Hq|Hq]%elem_of_app E0.
    + eapply row_ok_mono; [| |by apply Hrows]; [done|]. intros x Hx. exists x. split; [apply elem_of_app; by left|done].
    + apply list_elem_of_singleton in Hq as ->. done.
Qed.

(** The effect of [create_permission]. *)
Lemma create_permission_ok db t account name parent auth init db' po :
  perm_ok db -> account ∈ account_objects db -> account <> 0 -> name <> 0 -> good_authority auth ->
  (parent = 0 <-> name = owner_name) ->
  (parent <> 0 -> exists q, q ∈ permissions db /\ po_id q = parent /\ po_owner q = account) ->
  create_permission key_which db t account name parent auth init = Ok (db', po) ->
  perm_ok db' /\ permissions db' = permissions db ++ [po] /\ account_objects db' = account_objects db /\
  permission_links db' = permission_links db /\
  owner_name_of po = (account, name) /\ po_parent po = parent /\ po_auth po = auth /\ po_id po <> 0.
Proof.
  intros Hok Ha Ha0 Hn0 Hg Hroot Hpar Hc. unfold create_permission in Hc. apply bind_Ok in Hc as ([] & _ & Hc).
  unfold insert_permission in Hc. cbn [po_owner po_name next_permission_id with_usages] in Hc.
  set (db1 := with_usages db _ _) in *. set (row := PermissionObject _ _ _ _ _ _ _) in *.
  assert (perm_ok db1) as Hok1 by (by apply (perm_ok_ext db)).
  destruct (permission_by_owner db1 account name) as [x|] eqn:En; [done|]. apply Ok_inj in Hc as [= <- <-].
  destruct (pk_reserved _ Hok1) as (r & Hr & Er & _). pose proof (pk_next _ Hok1 r Hr) as Hnext.
  assert (0 < next_permission_id db1) as Hpos by (cbn in *; lia).
  split_and!; [|done|done|done|done|done|done|cbn in *; lia].
  apply (insert_row_ok db1 row); [done|done|done|exact En|].
  assert (forall q, q ∈ permissions db -> 0 <= po_id q < next_permission_id db) as Hn by apply (pk_next _ Hok1).
  constructor; cbn [row po_owner po_name po_parent po_id po_auth with_permissions permissions account_objects].
  - done.
  - done.
  - destruct (decide (parent = 0)) as [->|E]; [cbn in *; lia|]. destruct (Hpar E) as (q & Hq & <- & _).
    pose proof (Hn q Hq). pose proof (pk_next _ Hok q Hq). cbn in *. lia.
  - done.
  - intros E. destruct (Hpar E) as (q & Hq & Eq & Eo). exists q. split_and!; [apply elem_of_app; by left|done|done].
  - done.
Qed.

(** [modify_permission] gives one row a new authority. *)
Definition set_auth (id t : Z) (auth : authority K) (po : permission_object) : permission_object :=
  if po_id po =? id
  then PermissionObject (po_id po) (po_usage_id po) (po_parent po) (po_owner po) (po_name po) t auth else po.

Lemma set_auth_fields id t auth po :
  po_id (set_auth id t auth po) = po_id po /\ po_parent (set_auth id t auth po) = po_parent po /\
  owner_name_of (set_auth id t auth po) = owner_name_of po.
Proof. unfold set_auth. by destruct (po_id po =? id). Qed.

Lemma modify_permission_ok db t p auth db' :
  perm_ok db -> po_id p <> 0 -> good_authority auth -> modify_permission key_which db t p auth = Ok db' ->
  perm_ok db' /\ permissions db' = set_auth (po_id p) t auth <$> permissions db /\
  account_objects db' = account_objects db /\ permission_links db' = permission_links db.
Proof.
  intros Hok Hp0 Hg Hm. apply bind_Ok in Hm as ([] & _ & Hm). apply Ok_inj in Hm as <-.
  change (fun po : permission_object => if po_id po =? po_id p then _ else po) with (set_auth (po_id p) t auth).
  split_and!; [|done|done|done].
  assert (forall q, q ∈ permissions db -> exists q', q' ∈ set_auth (po_id p) t auth <$> permissions db /\
    po_id q' = po_id q /\ po_owner q' = po_owner q) as Hkeep.
  { intros q Hq. exists (set_auth (po_id p) t auth q). destruct (set_auth_fields (po_id p) t auth q) as (E1 & _ & [= E3 _]).
    split_and!; [by apply list_elem_of_fmap_2|done|done]. }
  destruct Hok as [(r & Hr & Er & Epar & Eo & En) Hnext Hids Hnames Hrows].
  constructor; cbn [with_permissions permissions next_permission_id].
  - exists (set_auth (po_id p) t auth r). destruct (set_auth_fields (po_id p) t auth r) as (E1 & E2 & [= E3 E4]).
    split_and!; [by apply list_elem_of_fmap_2|congruence..].
  - intros x (q & -> & Hq)%list_elem_of_fmap. destruct (set_auth_fields (po_id p) t auth q) as (-> & _). by apply Hnext.
  - rewrite <- list_fmap_compose. erewrite list_fmap_ext; [exact Hids|]. intros j q _. cbn. apply set_auth_fields.
  - rewrite <- list_fmap_compose. erewrite list_fmap_ext; [exact Hnames|]. intros j q _. cbn. apply set_auth_fields.
  - intros x (q & -> & Hq)%list_elem_of_fmap E0. destruct (set_auth_fields (po_id p) t auth q) as (E1 & _).
    rewrite E1 in E0. pose proof (Hrows q Hq E0) as Hrow.
    apply (row_ok_mono db); [done|exact Hkeep|]. destruct Hrow. unfold set_auth. destruct (po_id q =? po_id p); by constructor.
Qed.

Lemma remove_permission_ok db p db' :
  perm_ok db -> p ∈ permissions db -> po_id p <> 0 -> remove_permission db p = Ok db' ->
  perm_ok db' /\ permissions db' = filter (fun po : permission_object => po_id po <> po_id p) (permissions db) /\
  account_objects db' = account_objects db /\ permission_links db' = permission_links db.
Proof.
  intros Hok Hp Hp0 Hr. apply bind_Ok in Hr as ([] & Hch%EOS_ASSERT_Ok & Hr). apply Ok_inj in Hr as <-.
  split_and!; [|done|done|done].
  assert (forall q, q ∈ permissions db -> po_parent q <> po_id p) as Hno.
  { intros q Hq E. apply negb_true_iff in Hch. assert (existsb (fun po => po_parent po =? po_id p) (permissions db) = true); [|congruence].
    apply existsb_exists. exists q. split; [by apply list_elem_of_In|lia]. }
  destruct Hok as [(r & Hr & Er & Epar & Eo & En) Hnext Hids Hnames Hrows].
  assert (filter (fun po : permission_object => po_id po <> po_id p) (permissions db) `sublist_of` permissions db) as Hsub by apply sublist_filter.
  constructor; cbn [with_permissions with_usages permissions next_permission_id].
  - exists r. split_and!; [|done..]. apply list_elem_of_filter. split; [congruence|done].
  - intros q [_ Hq]%list_elem_of_filter. by apply Hnext.
  - by eapply sublist_NoDup; [|apply fmap_sublist].
  - by eapply sublist_NoDup; [|apply fmap_sublist].
  - intros q [_ Hq]%list_elem_of_filter E0. destruct (Hrows q Hq E0) as [O Hn Hpar Hroot Hrow Hauth].
    constructor; try done. intros E. destruct (Hrow E) as (x & Hx & Ex & Exo). exists x. split_and!; [|done..].
    apply list_elem_of_filter. split; [|done]. rewrite Ex. by apply Hno.
Qed.

(** ** What is stored for an account *)

Definition row_size (po : permission_object) : Z := permission_object_size + get_billable_size key_pack_size (po_auth po).
Definition rows_size (a : Z) (l : list permission_object) : Z :=
  foldr (fun po acc => (if po_owner po =? a then row_size po else 0) + acc) 0 l.
Definition link_of (a : Z) (x : Z * Z * Z * Z) : Prop := x.1.1.1 = a.
#[local] Instance link_of_dec a x : Decision (link_of a x).
Proof. unfold link_of. apply _. Defined.
Definition links_of (a : Z) (m : gmap (Z * Z * Z) Z) : Z := Z.of_nat (size (filter (link_of a) m)).
Definition ram_size (db : auth_db) (a : Z) : Z :=
  (if bool_decide (a ∈ account_objects db) then overhead_per_account_ram_bytes else 0) +
  rows_size a (permissions db) + permission_link_size * links_of a (permission_links db).

Lemma rows_size_app a l k : rows_size a (l ++ k) = rows_size a l + rows_size a k.
Proof. induction l as [|x l IH]; cbn [rows_size foldr app]; [done|]. fold (rows_size a (l ++ k)) (rows_size a l). lia. Qed.

Lemma split_row (l : list permission_object) p :
  NoDup (po_id <$> l) -> p ∈ l -> exists l1 l2, l = l1 ++ p :: l2 /\
    Forall (fun q => po_id q <> po_id p) l1 /\ Forall (fun q => po_id q <> po_id p) l2.
Proof.
  intros Hnd Hp. apply list_elem_of_split in Hp as (l1 & l2 & ->). exists l1, l2. split; [done|].
  rewrite fmap_app, fmap_cons, NoDup_app, NoDup_cons in Hnd. destruct Hnd as (_ & H1 & H2 & _).
  split; apply Forall_forall; intros q Hq E.
  - apply (H1 (po_id q)); [by apply list_elem_of_fmap_2|]. rewrite E. left.
  - apply H2. rewrite <- E. by apply list_elem_of_fmap_2.
Qed.

Lemma set_auth_other id t auth (l : list permission_object) :
  Forall (fun q => po_id q <> id) l -> set_auth id t auth <$> l = l.
Proof.
  induction 1 as [|q l Hq _ IH]; [done|]. rewrite fmap_cons, IH. unfold set_auth. by destruct (Z.eqb_spec (po_id q) id).
Qed.

Lemma filter_other id (l : list permission_object) :
  Forall (fun q => po_id q <> id) l -> filter (fun po : permission_object => po_id po <> id) l = l.
Proof. induction 1 as [|q l Hq _ IH]; [done|]. rewrite filter_cons, decide_True by done. by rewrite IH. Qed.

Lemma rows_size_set_auth a t auth (l : list permission_object) p :
  NoDup (po_id <$> l) -> p ∈ l ->
  rows_size a (set_auth (po_id p) t auth <$> l) =
  rows_size a l + (if po_owner p =? a then get_billable_size key_pack_size auth - get_billable_size key_pack_size (po_auth p) else 0).
Proof.
  intros Hnd Hp. destruct (split_row l p Hnd Hp) as (l1 & l2 & -> & H1 & H2).
  rewrite fmap_app, fmap_cons, !set_auth_other by done. rewrite !rows_size_app. cbn [rows_size foldr].
  unfold set_auth. rewrite Z.eqb_refl. cbn [po_owner]. unfold row_size. cbn [po_auth]. destruct (po_owner p =? a); lia.
Qed.

Lemma rows_size_remove a (l : list permission_object) p :
  NoDup (po_id <$> l) -> p ∈ l ->
  rows_size a (filter (fun po : permission_object => po_id po <> po_id p) l) =
  rows_size a l - (if po_owner p =? a then row_size p else 0).
Proof.
  intros Hnd Hp. destruct (split_row l p Hnd Hp) as (l1 & l2 & -> & H1 & H2).
  rewrite filter_app, filter_cons, decide_False by (by intros E). rewrite !filter_other by done.
  rewrite !rows_size_app. cbn [rows_size foldr]. fold (rows_size a l2). lia.
Qed.

Lemma links_of_insert_fresh a k p m :
  m !! k = None -> links_of a (<[k := p]> m) = links_of a m + (if k.1.1 =? a then 1 else 0).
Proof.
  intros Hk. unfold links_of. destruct (Z.eqb_spec k.1.1 a) as [E|E].
  - rewrite map_filter_insert_True by done. rewrite map_size_insert_None; [lia|].
    apply map_lookup_filter_None. by left.
  - rewrite map_filter_insert_not by (intros; done). lia.
Qed.

Lemma links_of_insert_present a k p q m : m !! k = Some q -> links_of a (<[k := p]> m) = links_of a m.
Proof.
  intros Hk. unfold links_of. destruct (decide (k.1.1 = a)) as [E|E].
  - rewrite map_filter_insert_True by done. rewrite map_size_insert_Some; [done|].
    exists q. by apply map_lookup_filter_Some.
  - by rewrite map_filter_insert_not by (intros; done).
Qed.

Lemma links_of_delete a k q m : m !! k = Some q -> links_of a (delete k m) = links_of a m - (if k.1.1 =? a then 1 else 0).
Proof.
  intros Hk. rewrite <- (insert_delete_id m k q Hk) at 2. rewrite links_of_insert_fresh by apply lookup_delete_eq. lia.
Qed.

(** The change of a transaction's RAM deltas. *)
Definition billed (d d' : gmap Z Z) (a : Z) : Z := default 0 (d' !! a) - default 0 (d !! a).

Lemma add_ram_billed account delta d d' a :
  trx_add_ram_usage account delta d = Ok d' -> billed d d' a = if account =? a then delta else 0.
Proof.
  unfold trx_add_ram_usage, billed. destruct (d !! account) as [x|] eqn:Ex.
  - intros E. apply bind_Ok in E as ([] & _ & E). apply Ok_inj in E as <-. destruct (Z.eqb_spec account a) as [<-|Hne].
    + rewrite lookup_insert_eq, Ex. cbn. lia.
    + rewrite lookup_insert_ne by done. lia.
  - intros E. apply Ok_inj in E as <-. destruct (Z.eqb_spec account a) as [<-|Hne].
    + rewrite lookup_insert_eq, Ex. cbn. lia.
    + rewrite lookup_insert_ne by done. lia.
Qed.

(** ** The invariant of the actions *)

(** Links that may name a permission the account does not have: those that a
    linkauth before the feature ONLY_LINK_TO_EXISTING_PERMISSION made. *)
Variable early : Z * Z * Z -> Z -> Prop.

Record perm_inv (db : auth_db) : Prop := {
  iv_tree : perm_ok db;
  iv_accounts : forall a, a ∈ account_objects db -> exists o act, o ∈ permissions db /\ act ∈ permissions db /\
    owner_name_of o = (a, owner_name) /\ owner_name_of act = (a, active_name) /\ po_parent act = po_id o;
  iv_links : forall a c t p, permission_links db !! (a, c, t) = Some p -> p <> eosio_any_name ->
    (exists po, po ∈ permissions db /\ owner_name_of po = (a, p)) \/ early (a, c, t) p
}.

Lemma owner_name_nonzero : owner_name <> 0.
Proof. vm_compute. discriminate. Qed.
Lemma active_name_nonzero : active_name <> 0.
Proof. vm_compute. discriminate. Qed.
Lemma active_not_owner : active_name <> owner_name.
Proof. vm_compute. discriminate. Qed.

Lemma account_nonzero db a : perm_inv db -> a ∈ account_objects db -> a <> 0.
Proof.
  intros [Hok Ha _] Hin. destruct (Ha a Hin) as (o & act & Ho & _ & [= E1 E2] & _).
  destruct (decide (po_id o = 0)) as [E0|E0].
  - destruct (pk_reserved _ Hok) as (z & Hz & Ez & _ & _ & En). assert (o = z) as -> by (eapply same_id; eauto; congruence).
    pose proof owner_name_nonzero. congruence.
  - destruct (ro_owner _ _ (pk_rows _ Hok o Ho E0)). congruence.
Qed.

(** Inputs are values of their types. *)
Definition auth_input_ok (a : authority K) : Prop := auth_typed a /\ 0 <= auth_threshold a.

Lemma validated_good a : auth_input_ok a -> Authority.validate key_ltb a = true -> good_authority a.
Proof. intros [Ht Hth] Hv. by destruct (validate_good key_ltb a Ht Hth Hv). Qed.

(** What one action does. *)
Definition step_ok (db db' : auth_db) (d d' : gmap Z Z) : Prop :=
  perm_inv db' /\ forall a, billed d d' a = ram_size db' a - ram_size db a.

Context {RL : Type} `{ResourceAccounts RL}.
Abbreviation exec_state := (exec_state (K := K) (RL := RL)).
Abbreviation action_context := (action_context (K := K)).

(** A new row for an account that is there. *)
Lemma created_inv db db' po :
  perm_inv db -> perm_ok db' -> permissions db' = permissions db ++ [po] ->
  account_objects db' = account_objects db -> permission_links db' = permission_links db -> perm_inv db'.
Proof.
  intros [_ Ha Hl] Hok Ep Ea El. constructor; [done| |]; rewrite ?Ep, ?Ea, ?El.
  - intros a Hin. destruct (Ha a Hin) as (o & act & Ho & Hact & E). exists o, act. rewrite !elem_of_app. eauto 6.
  - intros a c t p Hp Hne. destruct (Hl a c t p Hp Hne) as [(q & Hq & E)|]; [left|by right]. exists q. rewrite elem_of_app. eauto.
Qed.

Lemma with_account_ok (db : auth_db) name : perm_ok db -> perm_ok (with_account db name).
Proof. apply perm_ok_ext; [done|done|]. cbn. set_solver. Qed.

Lemma newaccount_step ctx c (st st' : exec_state) :
  auth_input_ok (na_owner c) -> auth_input_ok (na_active c) -> perm_inv (ex_db st) ->
  apply_newaccount key_which key_ltb key_pack_size ctx c st = Ok st' ->
  step_ok (ex_db st) (ex_db st') (ex_ram_deltas st) (ex_ram_deltas st').
Proof.
  intros Ho Hact Hi Hn. unfold apply_newaccount in Hn.
  do 2 (apply bind_Ok in Hn as ([] & _ & Hn)).
  apply bind_Ok in Hn as ([] & Hvo%EOS_ASSERT_Ok & Hn). apply bind_Ok in Hn as ([] & Hva%EOS_ASSERT_Ok & Hn).
  apply bind_Ok in Hn as ([] & Hn0%EOS_ASSERT_Ok & Hn). do 3 (apply bind_Ok in Hn as ([] & _ & Hn)).
  apply bind_Ok in Hn as ([] & Hnew%EOS_ASSERT_Ok & Hn). apply bool_decide_eq_true in Hnew.
  apply bind_Ok in Hn as ([] & _ & Hn). apply bind_Ok in Hn as ([db1 o] & Eo & Hn). apply bind_Ok in Hn as ([db2 a] & Ea & Hn).
  apply bind_Ok in Hn as (rl & _ & Hn). apply bind_Ok in Hn as (d & Ed & Hn). apply Ok_inj in Hn as <-. cbn [ex_db ex_ram_deltas].
  assert (na_name c <> 0) as Hnz by lia. pose proof (with_account_ok _ (na_name c) (iv_tree _ Hi)) as Hok0.
  apply create_permission_ok in Eo as (Hok1 & Ep1 & Eac1 & El1 & Eon1 & _ & Eau1 & Eid1);
    [|exact Hok0|cbn; set_solver|exact Hnz|exact owner_name_nonzero|by apply validated_good|done|done].
  apply create_permission_ok in Ea as (Hok2 & Ep2 & Eac2 & El2 & Eon2 & Epar2 & Eau2 & _);
    [|exact Hok1|rewrite Eac1; cbn; set_solver|exact Hnz|exact active_name_nonzero|by apply validated_good
     |split; [done|intros E; by apply active_not_owner in E]
     |intros _; exists o; rewrite Ep1, elem_of_app, list_elem_of_singleton; injection Eon1 as E1 _; by split_and!; [right|..]].
  rewrite Ep1 in Ep2. rewrite Eac1 in Eac2. rewrite El1 in El2. cbn [with_account permissions account_objects permission_links] in *.
  destruct Hi as [_ Hia Hil]. split.
  - constructor; [done| |]; rewrite ?Ep2, ?Eac2, ?El2.
    + intros x [->%elem_of_singleton|Hx]%elem_of_union.
      * exists o, a. rewrite !elem_of_app, !list_elem_of_singleton. split_and!; [by left; right|by right|done|done|done].
      * destruct (Hia x Hx) as (q & q' & Hq & Hq' & E1 & E2 & E3). exists q, q'. rewrite !elem_of_app. split_and!; [by left; left..|done|done|done].
    + intros x c' t p Hp Hne. destruct (Hil x c' t p Hp Hne) as [(q & Hq & E)|]; [left|by right]. exists q. rewrite !elem_of_app. split; [by left; left|done].
  - intros x. rewrite (add_ram_billed _ _ _ _ x Ed). unfold ram_size. rewrite Ep2, Eac2, El2, !rows_size_app.
    cbn [rows_size foldr]. injection Eon1 as -> _. injection Eon2 as -> _. unfold row_size. rewrite Eau1, Eau2.
    destruct (Z.eqb_spec (na_name c) x) as [<-|Hne].
    + rewrite (bool_decide_eq_true_2 (na_name c ∈ _)) by set_solver. rewrite bool_decide_eq_false_2 by done. lia.
    + rewrite (bool_decide_ext (x ∈ {[na_name c]} ∪ account_objects (ex_db st)) (x ∈ account_objects (ex_db st))) by set_solver. lia.
Qed.

(** The fields an updateauth action was checked for. *)
Lemma updateauth_fields ctx db u :
  check_updateauth_fields key_ltb ctx db u = Ok tt ->
  ua_permission u <> 0 /\ ua_account u ∈ account_objects db /\ Authority.validate key_ltb (ua_auth u) = true /\
  (ua_permission u <> owner_name -> ua_parent u <> 0).
Proof.
  unfold check_updateauth_fields. intros Hc.
  apply bind_Ok in Hc as ([] & H1%EOS_ASSERT_Ok & Hc). do 2 (apply bind_Ok in Hc as ([] & _ & Hc)).
  apply bind_Ok in Hc as ([] & H2%EOS_ASSERT_Ok & Hc). apply bind_Ok in Hc as ([] & H3%EOS_ASSERT_Ok & Hc).
  apply bind_Ok in Hc as ([] & _ & Hc). apply bind_Ok in Hc as ([] & H4 & _). apply bool_decide_eq_true in H2.
  split_and!; [lia|done|done|]. intros E. destruct (Z.eqb_spec (ua_permission u) owner_name); [done|].
  apply EOS_ASSERT_Ok in H4. lia.
Qed.

Lemma ram_size_set_auth db db' p t auth a :
  perm_ok db -> p ∈ permissions db ->
  permissions db' = set_auth (po_id p) t auth <$> permissions db ->
  account_objects db' = account_objects db -> permission_links db' = permission_links db ->
  ram_size db' a - ram_size db a =
    if po_owner p =? a then get_billable_size key_pack_size auth - get_billable_size key_pack_size (po_auth p) else 0.
Proof.
  intros Hok Hp Ep Ea El. unfold ram_size. rewrite Ep, Ea, El.
  rewrite rows_size_set_auth by (done || apply (pk_ids _ Hok)). lia.
Qed.

Lemma modified_inv db db' id t auth :
  perm_inv db -> perm_ok db' -> permissions db' = set_auth id t auth <$> permissions db ->
  account_objects db' = account_objects db -> permission_links db' = permission_links db -> perm_inv db'.
Proof.
  intros [_ Ha Hl] Hok Ep Ea El. constructor; [done| |]; rewrite ?Ep, ?Ea, ?El.
  - intros a Hin. destruct (Ha a Hin) as (o & act & Ho & Hact & E1 & E2 & E3).
    exists (set_auth id t auth o), (set_auth id t auth act).
    destruct (set_auth_fields id t auth o) as (F1 & _ & F3). destruct (set_auth_fields id t auth act) as (_ & G2 & G3).
    split_and!; [by apply list_elem_of_fmap_2..|congruence|congruence|congruence].
  - intros a c x p Hp Hne. destruct (Hl a c x p Hp Hne) as [(q & Hq & E)|]; [left|by right]. exists (set_auth id t auth q).
    destruct (set_auth_fields id t auth q) as (_ & _ & F3). split; [by apply list_elem_of_fmap_2|congruence].
Qed.

Lemma updateauth_step ctx u (st st' : exec_state) :
  auth_input_ok (ua_auth u) -> perm_inv (ex_db st) ->
  apply_updateauth key_which key_ltb key_pack_size ctx u st = Ok st' ->
  step_ok (ex_db st) (ex_db st') (ex_ram_deltas st) (ex_ram_deltas st').
Proof.
  intros Hu Hi Hn. unfold apply_updateauth in Hn. do 2 (apply bind_Ok in Hn as ([] & _ & Hn)).
  apply bind_Ok in Hn as ([] & Hf & Hn). apply updateauth_fields in Hf as (Hn0 & Hacc & Hv & Hpar).
  apply bind_Ok in Hn as ([] & _ & Hn). apply bind_Ok in Hn as (found & Hfind & Hn). apply bind_Ok in Hn as (pid & Hpid & Hn).
  pose proof (iv_tree _ Hi) as Hok. pose proof (validated_good _ Hu Hv) as Hg.
  destruct (find_permission_Ok _ _ _ Hok Hfind) as [_ Hrow]. destruct found as [p|].
  - destruct (Hrow p eq_refl) as (Hp & _ & Hp0). apply bind_Ok in Hn as ([] & _ & Hn). apply bind_Ok in Hn as (db1 & Hm & Hn).
    apply bind_Ok in Hn as (d & Ed & Hn). apply Ok_inj in Hn as <-. cbn [ex_db ex_ram_deltas].
    destruct (modify_permission_ok _ _ _ _ _ Hok Hp0 Hg Hm) as (Hok1 & Ep & Ea & El). split.
    + by eapply modified_inv.
    + intros a. rewrite (add_ram_billed _ _ _ _ a Ed), (ram_size_set_auth _ _ _ _ _ _ Hok Hp Ep Ea El).
      destruct (po_owner p =? a); lia.
  - apply bind_Ok in Hn as ([db1 p] & Hc & Hn). apply bind_Ok in Hn as (d & Ed & Hn). apply Ok_inj in Hn as <-.
    cbn [ex_db ex_ram_deltas].
    assert ((pid = 0 <-> ua_permission u = owner_name) /\
      (pid <> 0 -> exists q, q ∈ permissions (ex_db st) /\ po_id q = pid /\ po_owner q = ua_account u)) as [Hroot Hprow].
    { destruct (Z.eqb_spec (ua_permission u) owner_name) as [E|E]; [by apply Ok_inj in Hpid as <-|].
      apply bind_Ok in Hpid as (q & Hq & Hpid). apply Ok_inj in Hpid as <-.
      destruct (get_permission_Ok _ _ _ Hok Hq) as (Hqin & [= Eq _] & Hq0). split; [done|]. intros _. by exists q. }
    apply create_permission_ok in Hc as (Hok1 & Ep & Ea & El & Eon & _ & Eau & _);
      [|exact Hok|exact Hacc|by eapply account_nonzero|exact Hn0|exact Hg|exact Hroot|exact Hprow].
    split; [by eapply created_inv|]. intros a. rewrite (add_ram_billed _ _ _ _ a Ed). unfold ram_size.
    rewrite Ep, Ea, El, rows_size_app. cbn [rows_size foldr]. injection Eon as -> _. unfold row_size.
    destruct (ua_account u =? a); lia.
Qed.

Lemma not_linked (db : auth_db) account name a c t p :
  is_linked db account name = false -> permission_links db !! (a, c, t) = Some p -> (a, p) <> (account, name).
Proof.
  unfold is_linked. intros Hn Hl [= -> ->]. assert (existsb (fun x => (x.1.1.1 =? account) && (x.2 =? name))
    (map_to_list (permission_links db)) = true); [|congruence].
  apply existsb_exists. exists ((account, c, t), name). split; [|cbn; lia].
  by apply list_elem_of_In, elem_of_map_to_list.
Qed.

Lemma deleteauth_step ctx x (st st' : exec_state) :
  perm_inv (ex_db st) -> apply_deleteauth key_pack_size ctx x st = Ok st' ->
  step_ok (ex_db st) (ex_db st') (ex_ram_deltas st) (ex_ram_deltas st').
Proof.
  intros Hi Hn. unfold apply_deleteauth in Hn. do 2 (apply bind_Ok in Hn as ([] & _ & Hn)).
  apply bind_Ok in Hn as ([] & Hna%EOS_ASSERT_Ok & Hn). apply bind_Ok in Hn as ([] & Hno%EOS_ASSERT_Ok & Hn).
  apply bind_Ok in Hn as ([] & Hl%EOS_ASSERT_Ok & Hn). apply negb_true_iff in Hl.
  apply bind_Ok in Hn as (p & Hp & Hn). apply bind_Ok in Hn as (db1 & Hr & Hn). apply bind_Ok in Hn as (d & Ed & Hn).
  apply Ok_inj in Hn as <-. cbn [ex_db ex_ram_deltas]. pose proof (iv_tree _ Hi) as Hok.
  destruct (get_permission_Ok _ _ _ Hok Hp) as (Hpin & [= Eo En] & Hp0). cbn [actor permission] in *.
  destruct (remove_permission_ok _ _ _ Hok Hpin Hp0 Hr) as (Hok1 & Ep & Ea & El).
  assert (forall q, q ∈ permissions (ex_db st) -> owner_name_of q <> owner_name_of p -> q ∈ permissions db1) as Hkeep.
  { intros q Hq Hne. rewrite Ep. apply list_elem_of_filter. split; [|done]. intros E. apply Hne. f_equal. by apply (same_id (ex_db st)). }
  unfold owner_name_of in Hkeep at 2. rewrite Eo, En in Hkeep. split.
  - destruct Hi as [_ Hia Hil]. constructor; [done| |].
    + rewrite Ea. intros a Hin. destruct (Hia a Hin) as (o & act & Ho & Hact & E1 & E2 & E3). exists o, act.
      split_and!; [apply Hkeep; [done|]|apply Hkeep; [done|]|done..]; rewrite ?E1, ?E2; intros [= _ E]; lia.
    + rewrite El. intros a c t q Hq Hne. destruct (Hil a c t q Hq Hne) as [(po & Hpo & E)|]; [left|by right]. exists po. split; [|done].
      apply Hkeep; [done|]. rewrite E. by eapply not_linked.
  - intros a. rewrite (add_ram_billed _ _ _ _ a Ed). unfold ram_size.
    rewrite Ep, Ea, El, rows_size_remove by (done || apply (pk_ids _ Hok)). rewrite Eo. unfold row_size.
    destruct (da_account x =? a); lia.
Qed.

Lemma linked_inv (db : auth_db) k p :
  perm_inv db -> (p <> eosio_any_name -> (exists po, po ∈ permissions db /\ owner_name_of po = (k.1.1, p)) \/ early k p) ->
  perm_inv (with_links db (<[k := p]> (permission_links db))).
Proof.
  intros [Hok Ha Hl] Hp. constructor; [by apply (perm_ok_ext db)|exact Ha|].
  cbn [with_links permissions permission_links]. intros a c t q. destruct (decide (k = (a, c, t))) as [->|Hne].
  - rewrite lookup_insert_eq. intros [= <-] E. by apply Hp.
  - rewrite lookup_insert_ne by done. apply Hl.
Qed.

Lemma linkauth_step ctx x (st st' : exec_state) :
  (ctx_only_link_to_existing_permission ctx = false -> early (la_account x, la_code x, la_type x) (la_requirement x)) -> perm_inv (ex_db st) -> apply_linkauth ctx x st = Ok st' ->
  step_ok (ex_db st) (ex_db st') (ex_ram_deltas st) (ex_ram_deltas st').
Proof.
  intros Hctx Hi Hn. unfold apply_linkauth in Hn. do 5 (apply bind_Ok in Hn as ([] & _ & Hn)).
  apply bind_Ok in Hn as ([] & Hreq & Hn).
  set (k := (la_account x, la_code x, la_type x)) in *.
  assert (la_requirement x <> eosio_any_name -> (exists po, po ∈ permissions (ex_db st) /\
    owner_name_of po = (k.1.1, la_requirement x)) \/ early k (la_requirement x)) as Hrow.
  { intros E. destruct (ctx_only_link_to_existing_permission ctx); [left|right; by apply Hctx].
    destruct (Z.eqb_spec (la_requirement x) eosio_any_name); [done|]. apply EOS_ASSERT_Ok in Hreq.
    destruct (permission_by_owner _ _ _) as [po|] eqn:Ep; [|done]. apply by_owner_Some in Ep as (Hpo & E1 & E2).
    exists po. split; [done|]. unfold owner_name_of. by rewrite E1, E2. }
  destruct (permission_links (ex_db st) !! k) as [q|] eqn:Ek.
  - apply bind_Ok in Hn as ([] & _ & Hn). apply Ok_inj in Hn as <-. cbn [ex_db ex_ram_deltas]. split; [by apply linked_inv|].
    intros a. unfold billed, ram_size. cbn [with_links permissions account_objects permission_links].
    rewrite (links_of_insert_present _ _ _ _ _ Ek). lia.
  - apply bind_Ok in Hn as (d & Ed & Hn). apply Ok_inj in Hn as <-. cbn [ex_db ex_ram_deltas]. split; [by apply linked_inv|].
    intros a. rewrite (add_ram_billed _ _ _ _ a Ed). unfold ram_size. cbn [with_links permissions account_objects permission_links].
    rewrite (links_of_insert_fresh _ _ _ _ Ek). cbn [k fst]. destruct (la_account x =? a); lia.
Qed.

Lemma unlinkauth_step ctx x (st st' : exec_state) :
  perm_inv (ex_db st) -> apply_unlinkauth ctx x st = Ok st' ->
  step_ok (ex_db st) (ex_db st') (ex_ram_deltas st) (ex_ram_deltas st').
Proof.
  intros Hi Hn. unfold apply_unlinkauth in Hn. do 2 (apply bind_Ok in Hn as ([] & _ & Hn)).
  set (k := (ul_account x, ul_code x, ul_type x)) in *.
  destruct (permission_links (ex_db st) !! k) as [q|] eqn:Ek; [|done].
  apply bind_Ok in Hn as (d & Ed & Hn). apply Ok_inj in Hn as <-. cbn [ex_db ex_ram_deltas]. split.
  - destruct Hi as [Hok Ha Hl]. constructor; [by apply (perm_ok_ext (ex_db st))|exact Ha|].
    cbn [with_links permissions permission_links]. intros a c t p [_ Hp]%lookup_delete_Some. by eapply Hl.
  - intros a. rewrite (add_ram_billed _ _ _ _ a Ed). unfold ram_size. cbn [with_links permissions account_objects permission_links].
    rewrite (links_of_delete _ _ _ _ Ek). cbn [k fst]. destruct (ul_account x =? a); lia.
Qed.

(** ** The accounts of a new chain *)

Definition empty_db (key_types : Z) : auth_db := AuthDb ∅ ∅ [] 0 ∅ 0 ∅ key_types.

Lemma initialized_ok n db : initialize_database (empty_db n) = Ok db -> perm_inv db.
Proof.
  unfold initialize_database, insert_permission. cbn [permission_by_owner empty_db permissions List.find].
  intros E. apply Ok_inj in E as <-. constructor; cbn.
  - constructor; cbn.
    + eexists. split; [left|done].
    + intros po ->%list_elem_of_singleton. cbn. lia.
    + apply NoDup_singleton.
    + apply NoDup_singleton.
    + intros po ->%list_elem_of_singleton. done.
  - set_solver.
  - intros a c t p. by rewrite lookup_empty.
Qed.

Lemma native_account_inv ts name owner active priv db rl db' rl' :
  perm_inv db -> name <> 0 -> good_authority owner -> good_authority active ->
  create_native_account key_which key_pack_size ts name owner active priv db rl = Ok (db', rl') ->
  perm_inv db' /\ account_objects db' = {[name]} ∪ account_objects db.
Proof.
  intros Hi Hnz Ho Ha Hn. unfold create_native_account in Hn. apply bind_Ok in Hn as ([] & _ & Hn).
  set (db0 := if priv then _ else _) in Hn.
  assert (perm_ok db0) as Hok0.
  { apply (perm_ok_ext (with_account db name)); [by destruct priv..| |by apply with_account_ok, iv_tree]. by destruct priv. }
  assert (account_objects db0 = {[name]} ∪ account_objects db) as Eac0 by (by destruct priv).
  assert (permissions db0 = permissions db) as Ep0 by (by destruct priv).
  assert (permission_links db0 = permission_links db) as El0 by (by destruct priv).
  apply bind_Ok in Hn as ([db1 o] & Eo & Hn). apply bind_Ok in Hn as ([db2 a] & Ea & Hn).
  apply bind_Ok in Hn as (rl1 & _ & Hn). apply bind_Ok in Hn as ([rl2 traced] & _ & Hn). apply bind_Ok in Hn as ([] & _ & Hn).
  apply Ok_inj in Hn as [= <- <-].
  apply create_permission_ok in Eo as (Hok1 & Ep1 & Eac1 & El1 & Eon1 & _ & Eau1 & Eid1);
    [|exact Hok0|rewrite Eac0; set_solver|exact Hnz|exact owner_name_nonzero|done|done|done].
  apply create_permission_ok in Ea as (Hok2 & Ep2 & Eac2 & El2 & Eon2 & Epar2 & Eau2 & _);
    [|exact Hok1|rewrite Eac1, Eac0; set_solver|exact Hnz|exact active_name_nonzero|done
     |split; [done|intros E; by apply active_not_owner in E]
     |intros _; exists o; rewrite Ep1, elem_of_app, list_elem_of_singleton; injection Eon1 as E1 _; by split_and!; [right|..]].
  rewrite Ep1, Ep0 in Ep2. rewrite Eac1, Eac0 in Eac2. rewrite El1, El0 in El2. split; [|done].
  destruct Hi as [_ Hia Hil]. constructor; [done| |]; rewrite ?Ep2, ?Eac2, ?El2.
  - intros x [->%elem_of_singleton|Hx]%elem_of_union.
    + exists o, a. rewrite !elem_of_app, !list_elem_of_singleton. split_and!; [by left; right|by right|done|done|done].
    + destruct (Hia x Hx) as (q & q' & Hq & Hq' & E1 & E2 & E3). exists q, q'. rewrite !elem_of_app. split_and!; [by left; left..|done|done|done].
  - intros x c' t p Hp Hne. destruct (Hil x c' t p Hp Hne) as [(q & Hq & E)|]; [left|by right]. exists q. rewrite !elem_of_app. split; [by left; left|done].
Qed.

(** A permission below an existing one. *)
Lemma create_child_inv db t account name q auth init db' po :
  perm_inv db -> q ∈ permissions db -> po_id q <> 0 -> po_owner q = account -> name <> 0 -> name <> owner_name ->
  good_authority auth -> create_permission key_which db t account name (po_id q) auth init = Ok (db', po) ->
  perm_inv db' /\ po ∈ permissions db' /\ po_id po <> 0 /\ po_owner po = account.
Proof.
  intros Hi Hq Hq0 Eq Hn Hno Hg Hc. pose proof (ro_owner _ _ (pk_rows _ (iv_tree _ Hi) q Hq Hq0)) as [Ha Ha0].
  rewrite Eq in Ha, Ha0.
  apply create_permission_ok in Hc as (Hok & Ep & Ea & El & [= Eo _] & _ & _ & E0);
    [|apply (iv_tree _ Hi)|done|done|done|done|by split|intros _; by exists q].
  split_and!; [by eapply created_inv|rewrite Ep; apply elem_of_app; right; by apply list_elem_of_singleton|done|done].
Qed.

Lemma good_small_authority (accounts : list permission_level_weight) :
  Forall (fun p => plw_weight p = 1) accounts -> (length accounts <= 1)%nat -> good_authority (Authority 1 [] accounts [] : authority K).
Proof.
  intros Hf Hl. destruct accounts as [|p [|? ?]]; [| |cbn in Hl; lia].
  - split_and!; [constructor|done|done].
  - destruct p as [p w]. apply Forall_cons_iff in Hf as [Hw _]. cbn in Hw. subst w. split_and!; [by repeat constructor|done|done].
Qed.

Lemma initial_accounts_inv ts system_auth n (rl : RL) db rl' :
  good_authority system_auth ->
  initialize_accounts key_which key_pack_size ts system_auth (empty_db n) rl = Ok (db, rl') -> perm_inv db.
Proof.
  intros Hg Hn. unfold initialize_accounts in Hn. apply bind_Ok in Hn as (db0 & E0 & Hn). apply initialized_ok in E0.
  apply bind_Ok in Hn as ([db1 rl1] & E1 & Hn). apply native_account_inv in E1 as [E1 _]; [|done|vm_compute; discriminate|done|done].
  assert (good_authority (Authority 1 [] [] [] : authority K)) as Hge by (apply good_small_authority; [constructor|cbn; lia]).
  set (pa := Authority 1 [] [_] []) in Hn.
  assert (good_authority pa) as Hgp by (apply good_small_authority; [by repeat constructor|cbn; lia]).
  apply bind_Ok in Hn as ([db2 rl2] & E2 & Hn). apply native_account_inv in E2 as [E2 _]; [|done|vm_compute; discriminate|done|done].
  apply bind_Ok in Hn as ([db3 rl3] & E3 & Hn). apply native_account_inv in E3 as [E3 _]; [|done|vm_compute; discriminate|done|done].
  apply bind_Ok in Hn as ([db4 rl4] & E4 & Hn). apply native_account_inv in E4 as [E4 _]; [|done|vm_compute; discriminate|done|done].
  apply bind_Ok in Hn as (act & Eact & Hn). destruct (get_permission_Ok _ _ _ (iv_tree _ E4) Eact) as (Ha & [= Eo _] & Ha0).
  cbn [actor] in Eo. apply bind_Ok in Hn as ([db5 maj] & E5 & Hn).
  eapply create_child_inv in E5 as (E5 & Hm & Hm0 & Em); [|done|done|done|done|vm_compute; discriminate|vm_compute; discriminate|done].
  apply bind_Ok in Hn as ([db6 mn] & E6 & Hn).
  eapply create_child_inv in E6 as (E6 & _); [|done|done|done|done|vm_compute; discriminate|vm_compute; discriminate|done].
  by apply Ok_inj in Hn as [= <- <-].
Qed.

(** ** Runs *)

Inductive perm_op : Type :=
| op_newaccount (c : newaccount (K := K))
| op_updateauth (u : updateauth K)
| op_deleteauth (x : deleteauth)
| op_linkauth (x : linkauth)
| op_unlinkauth (x : unlinkauth).

Definition perm_apply (ctx : action_context) (o : perm_op) (st : exec_state) : result exec_state :=
  match o with
  | op_newaccount c => apply_newaccount key_which key_ltb key_pack_size ctx c st
  | op_updateauth u => apply_updateauth key_which key_ltb key_pack_size ctx u st
  | op_deleteauth x => apply_deleteauth key_pack_size ctx x st
  | op_linkauth x => apply_linkauth ctx x st
  | op_unlinkauth x => apply_unlinkauth ctx x st
  end.

(** An action that throws leaves nothing behind. *)
Definition perm_exec (st : exec_state) (x : action_context * perm_op) : exec_state :=
  match perm_apply x.1 x.2 st with Ok st' => st' | Err _ => st end.
Definition perm_run (st : exec_state) (l : list (action_context * perm_op)) : exec_state := foldl perm_exec st l.

(** The authorities in actions are values of their types. *)
Definition op_ok (x : action_context * perm_op) : Prop :=
  match x.2 with
  | op_newaccount c => auth_input_ok (na_owner c) /\ auth_input_ok (na_active c)
  | op_updateauth u => auth_input_ok (ua_auth u)
  | _ => True
  end.

(** A linkauth before the feature. *)
Definition early_link (x : action_context * perm_op) (k : Z * Z * Z) (p : Z) : Prop :=
  match x.2 with
  | op_linkauth link => ctx_only_link_to_existing_permission x.1 = false /\
                        k = (la_account link, la_code link, la_type link) /\ p = la_requirement link
  | _ => False
  end.

Lemma perm_apply_step ctx o (st st' : exec_state) :
  op_ok (ctx, o) -> (forall k p, early_link (ctx, o) k p -> early k p) -> perm_inv (ex_db st) -> perm_apply ctx o st = Ok st' ->
  step_ok (ex_db st) (ex_db st') (ex_ram_deltas st) (ex_ram_deltas st').
Proof.
  intros Hop Hearly Hi. destruct o; cbn in *.
  - destruct Hop. by apply newaccount_step.
  - by apply updateauth_step.
  - by apply deleteauth_step.
  - apply linkauth_step; [|done]. auto.
  - by apply unlinkauth_step.
Qed.

Lemma perm_run_step l (st : exec_state) :
  Forall op_ok l -> (forall x k p, x ∈ l -> early_link x k p -> early k p) -> perm_inv (ex_db st) ->
  step_ok (ex_db st) (ex_db (perm_run st l)) (ex_ram_deltas st) (ex_ram_deltas (perm_run st l)).
Proof.
  intros Hl. revert st; induction Hl as [|[ctx o] l Ho Hl IH]; intros st He Hi; cbn [perm_run foldl].
  - split; [done|]. intros a. unfold billed. lia.
  - fold (perm_run (perm_exec st (ctx, o)) l). unfold perm_exec. cbn [fst snd].
    assert (forall x k p, x ∈ l -> early_link x k p -> early k p) as He' by (intros x k p Hx; apply He; by right).
    destruct (perm_apply ctx o st) as [st1|] eqn:E; [|by apply IH].
    destruct (perm_apply_step ctx o st st1 Ho (fun k p => He (ctx, o) k p ltac:(left)) Hi E) as [Hi1 Hb1]. destruct (IH st1 He' Hi1) as [Hi2 Hb2]. split; [done|].
    intros a. specialize (Hb1 a). specialize (Hb2 a). unfold billed in *. lia.
Qed.

End Runs.

Section Chains.
Context {K : Type} `{EqDecision K} `{Packable K}.
Variable key_which : K -> Z.
Variable key_ltb : K -> K -> bool.
Variable key_pack_size : K -> Z.
Context {RL : Type} `{ResourceAccounts RL}.

(** The links that the linkauth actions of a run made before the feature. *)
Definition early_links (l : list (action_context (K := K) * perm_op (K := K))) (k : Z * Z * Z) (p : Z) : Prop :=
  exists x, x ∈ l /\ early_link x k p.

(** C20. Whatever native actions on accounts and permissions a chain executes
    after its start, successfully or not: the permissions of every account form
    a tree under its owner permission, built from rows with distinct ids and
    distinct names, with parents that exist and belong to the same account;
    every account keeps its owner and its active permission; every stored
    authority has a threshold that is not zero; every link refers to an existing
    permission of the account, unless it is one that a linkauth made before the
    feature ONLY_LINK_TO_EXISTING_PERMISSION, which asked only that some account
    has a permission of the name; and the RAM deltas of the transaction are, for
    every account, exactly the growth of the billable size of its rows. *)
Theorem permission_tables_reachable ts system_auth key_types (rl rl' : RL) db l :
  good_authority system_auth ->
  initialize_accounts key_which key_pack_size ts system_auth (empty_db key_types) rl = Ok (db, rl') ->
  Forall op_ok l ->
  let st := perm_run key_which key_ltb key_pack_size (ExecState db rl' ∅) l in
  perm_inv (early_links l) (ex_db st) /\
  forall a, default 0 (ex_ram_deltas st !! a) = ram_size key_pack_size (ex_db st) a - ram_size key_pack_size db a.
Proof.
  intros Hg Hn Hl. pose proof (initial_accounts_inv key_which key_pack_size (early_links l) _ _ _ _ _ _ Hg Hn) as Hi.
  destruct (perm_run_step key_which key_ltb key_pack_size (early_links l) l (ExecState db rl' ∅) Hl) as [Hi' Hb]; [|done|].
  { intros x k p Hx He. by exists x. }
  split; [exact Hi'|]. intros a. specialize (Hb a). unfold billed in Hb. cbn [ex_db ex_ram_deltas] in Hb.
  rewrite lookup_empty in Hb. cbn [default] in Hb. lia.
Qed.
End Chains.

(** ** A concrete chain *)

Definition toy_which (_ : uint 8) : Z := 0.
Definition toy_key_ltb (a b : uint 8) : bool := uint_value a <? uint_value b.
Definition toy_pack_size (_ : uint 8) : Z := 34.

Definition toy_limits_db : database (gmap Z resource_limits_object) (gmap Z resource_usage_object) (gmap kv_key (list Z)) :=
  ResourceLimits.initialize_database (ChainConfig (1024 * 1024) 1000 200000 1000 (64 * 2 ^ 30) 10000 50000 50000) ∅ ∅ ∅.

Definition toy_chain : result (auth_db (uint 8) * database (gmap Z resource_limits_object) (gmap Z resource_usage_object) (gmap kv_key (list Z))) :=
  initialize_accounts toy_which toy_pack_size 1000 (authority_of_key (UInt 1) 0) (empty_db 2) toy_limits_db.

Definition alice : Z := string_to_name "alice".
Definition trade : Z := string_to_name "trade".

Definition toy_ctx (account : Z) : action_context (K := uint 8) :=
  ActionContext false [PermissionLevel account active_name] 2000 3600 true false (fun _ => Ok tt).

(** Before the feature ONLY_LINK_TO_EXISTING_PERMISSION. *)
Definition toy_early_ctx (account : Z) : action_context (K := uint 8) :=
  ActionContext false [PermissionLevel account active_name] 2000 3600 false false (fun _ => Ok tt).

(** alice is created, makes a permission below active, links it, and links a
    permission that only the producers' account has; she fails to delete her
    permission while it is linked, and gives it another authority. *)
Definition toy_perm_ops : list (action_context (K := uint 8) * perm_op (K := uint 8)) := [
  (toy_ctx system_account_name,
   op_newaccount (NewAccount system_account_name alice (authority_of_key (UInt 7) 0) (authority_of_key (UInt 8) 0)));
  (toy_ctx alice, op_updateauth (UpdateAuth alice trade active_name (authority_of_key (UInt 9) 0)));
  (toy_ctx alice, op_linkauth (LinkAuth alice gas_account_name (string_to_name "buy") trade));
  (toy_early_ctx alice, op_linkauth (LinkAuth alice gas_account_name (string_to_name "sell") majority_producers_permission_name));
  (toy_ctx alice, op_deleteauth (DeleteAuth alice trade));
  (toy_ctx alice, op_updateauth (UpdateAuth alice trade active_name (authority_of_key (UInt 9) 60)))
].

Definition toy_perm_run := perm_run toy_which toy_key_ltb toy_pack_size.

Lemma toy_perm_ops_ok : Forall op_ok toy_perm_ops.
Proof.
  repeat (apply Forall_cons_2; [unfold op_ok|]); [..|apply Forall_nil_2]; cbn [fst snd]; try exact I.
  - split; (split; [repeat constructor; cbn; lia|vm_compute; congruence]).
  - split; [repeat constructor; cbn; lia|vm_compute; congruence].
  - split; [repeat constructor; cbn; lia|vm_compute; congruence].
Qed.

Lemma toy_system_auth_good : good_authority (authority_of_key (UInt 1 : uint 8) 0).
Proof. split_and!; [repeat constructor; cbn; lia|vm_compute; reflexivity|vm_compute; reflexivity]. Qed.

Definition toy_perm_checks (db db' : auth_db (uint 8)) : bool :=
  match permission_by_owner db' alice trade with Some po => vsize (auth_waits (po_auth po)) =? 1 | None => false end &&
  (vsize (permissions db') =? vsize (permissions db) + 3) && (size (permission_links db') =? 2)%nat.

Lemma permission_tables_reachable_witness :
  exists db rl, toy_chain = Ok (db, rl) /\
    let st := toy_perm_run (ExecState db rl ∅) toy_perm_ops in
    perm_inv (early_links toy_perm_ops) (ex_db st) /\ toy_perm_checks db (ex_db st) = true /\
    default 0 (ex_ram_deltas st !! alice) = ram_size toy_pack_size (ex_db st) alice - ram_size toy_pack_size db alice.
Proof.
  assert (match toy_chain with
          | Ok (db, rl) => toy_perm_checks db (ex_db (toy_perm_run (ExecState db rl ∅) toy_perm_ops))
          | Err _ => false end = true) as Hc by (vm_compute; reflexivity).
  destruct toy_chain as [[db rl]|] eqn:E; [|discriminate Hc]. exists db, rl. split; [reflexivity|].
  destruct (permission_tables_reachable toy_which toy_key_ltb toy_pack_size 1000 (authority_of_key (UInt 1) 0) 2
    toy_limits_db rl db toy_perm_ops toy_system_auth_good E toy_perm_ops_ok) as [Hi Hr].
  split; [exact Hi|]. split; [exact Hc|]. exact (Hr alice).
Defined.

(** The state after these actions. *)
Definition toy_perm_db : result (auth_db (uint 8)) :=
  '(db, rl) ← toy_chain; mret (ex_db (toy_perm_run (ExecState db rl ∅) toy_perm_ops)).

Lemma toy_perm_db_ok db : toy_perm_db = Ok db -> perm_ok db.
Proof.
  unfold toy_perm_db. intros E. apply bind_Ok in E as ([db0 rl] & E0 & E). apply Ok_inj in E as <-.
  pose proof (initial_accounts_inv _ _ (early_links toy_perm_ops) _ _ _ _ _ _ toy_system_auth_good E0) as Hi.
  destruct (perm_run_step toy_which toy_key_ltb toy_pack_size (early_links toy_perm_ops) toy_perm_ops (ExecState db0 rl ∅) toy_perm_ops_ok
    (fun x k p Hx He => ex_intro _ x (conj Hx He)) Hi) as [Hi' _].
  apply (iv_tree _ _ Hi').
Qed.

Definition toy_auth_config : auth_config := AuthConfig 3600 6 true.

(** A purchase with the linked permission, and a change of the permission with
    the one above it. *)
Definition toy_actions : list action := [
  Action gas_account_name (string_to_name "buy") [PermissionLevel alice trade] [];
  Action system_account_name deleteauth_name [PermissionLevel alice active_name] (le_bytes 8 alice ++ le_bytes 8 trade)].

Lemma check_authorization_sound_witness :
  exists db, toy_perm_db = Ok db /\
    declared_ok db (Action gas_account_name (string_to_name "buy") [PermissionLevel alice trade] []) (PermissionLevel alice trade) /\
    exists n, holds_at (permission_to_authority db) [UInt 8; UInt 9] [] (effective_delay toy_auth_config 60000000) n
      (PermissionLevel alice trade) = true.
Proof.
  assert (match toy_perm_db with
          | Ok db => is_Ok (check_authorization (fun _ => Ok tt) db toy_auth_config toy_actions [UInt 8; UInt 9] [] 60000000 false false [])
          | Err _ => false end = true) as Hc by (vm_compute; reflexivity).
  destruct toy_perm_db as [db|] eqn:E; [|discriminate Hc]. exists db. split; [reflexivity|].
  destruct (check_authorization _ _ _ _ _ _ _ _ _ _) as [[]|] eqn:Ec; [|discriminate Hc].
  destruct (check_authorization_sound (fun _ => Ok tt) db toy_auth_config toy_actions [UInt 8; UInt 9] [] 60000000 false []
    (toy_perm_db_ok db E) Ec (Action gas_account_name (string_to_name "buy") [PermissionLevel alice trade] [])
    (PermissionLevel alice trade)) as [Hd Hs].
  - left.
  - left.
  - split; [exact Hd|]. destruct Hs as [Hs|Hs]; [exfalso; revert Hs; apply not_elem_of_nil|exact Hs].
Defined.
