(* ===== verification/SlotStats.v ===== *)
(** Statistics of produced and missed slots (chain/producer_slot_stats.hpp) and
    the host functions that give them, and the gas totals, to contracts
    (chain/webassembly/producer.cpp, chain/gas_fee_totals.hpp).

    A slot is its 32-bit number; the loops count in 64 bits.  The [std::map] of
    the accumulators is the list of its entries in the order of the keys.  The
    schedule resolver that the code takes as a template argument is an argument
    of the definitions. *)
From Stdlib Require Import ZArith Lia ZifyBool Sorted Ascii String.
From stdpp Require Import base tactics numbers list list_numbers.
From S2P Require Import Prelude Raw ProducerSchedule BlockHeader CoreAsset BlockHeaderState PolicyTransitions ResourceLimits Authorization.
#[local] Open Scope Z_scope.

(** ** Data *)

Record producer_slot_stats_v0 : Type := SlotStatsV0 {
  s0_producer : Z;
  s0_expected : Z;
  s0_produced : Z;
  s0_missed : Z;
  s0_longest_missed_streak : Z;
  s0_leading_missed_streak : Z;
  s0_trailing_missed_streak : Z
}.

Record producer_slot_stats_v1 : Type := SlotStatsV1 {
  s1_producer : Z;
  s1_expected : Z;
  s1_produced : Z;
  s1_missed : Z;
  s1_idle_skipped : Z;
  s1_longest_missed_streak : Z;
  s1_leading_missed_streak : Z;
  s1_trailing_missed_streak : Z
}.

Record gas_fee_totals_v0 : Type := GasFeeTotals {
  gt_total_gas_consumed : Z;
  gt_total_gas_value_flon : Z
}.

(** ** Accumulators *)

Record accumulator_v0 : Type := AccumulatorV0 {
  a0_result : producer_slot_stats_v0;
  a0_current_missed_streak : Z;
  a0_seen_produced : bool
}.
Definition accumulator_v0_zero : accumulator_v0 := AccumulatorV0 (SlotStatsV0 0 0 0 0 0 0 0) 0 false.

(** One slot of [scheduled_producer], in the first version. *)
Definition account_slot_v0 (scheduled_producer : Z) (was_produced : bool) (entry : accumulator_v0) : accumulator_v0 :=
  let r := a0_result entry in
  let expected := u32 (s0_expected r + 1) in
  if was_produced then
    AccumulatorV0 (SlotStatsV0 scheduled_producer expected (u32 (s0_produced r + 1)) (s0_missed r)
                     (s0_longest_missed_streak r) (s0_leading_missed_streak r) (s0_trailing_missed_streak r)) 0 true
  else
    let current := u32 (a0_current_missed_streak entry + 1) in
    AccumulatorV0 (SlotStatsV0 scheduled_producer expected (s0_produced r) (u32 (s0_missed r + 1))
                     (Z.max (s0_longest_missed_streak r) current)
                     (if a0_seen_produced entry then s0_leading_missed_streak r else u32 (s0_leading_missed_streak r + 1))
                     (s0_trailing_missed_streak r)) current (a0_seen_produced entry).

Record accumulator_v1 : Type := AccumulatorV1 {
  a1_result : producer_slot_stats_v1;
  a1_current_missed_streak : Z;
  a1_seen_mandatory_result : bool
}.
Definition accumulator_v1_zero : accumulator_v1 := AccumulatorV1 (SlotStatsV1 0 0 0 0 0 0 0 0) 0 false.

(** The three branches of the second version. *)
Inductive slot_outcome : Type := slot_produced | slot_idle | slot_missed.

Definition account_slot_v1 (slot_producer : Z) (o : slot_outcome) (entry : accumulator_v1) : accumulator_v1 :=
  let r := a1_result entry in
  match o with
  | slot_produced =>
      AccumulatorV1 (SlotStatsV1 slot_producer (u32 (s1_expected r + 1)) (u32 (s1_produced r + 1)) (s1_missed r)
                       (s1_idle_skipped r) (s1_longest_missed_streak r) (s1_leading_missed_streak r)
                       (s1_trailing_missed_streak r)) 0 true
  | slot_idle =>
      AccumulatorV1 (SlotStatsV1 slot_producer (s1_expected r) (s1_produced r) (s1_missed r)
                       (u32 (s1_idle_skipped r + 1)) (s1_longest_missed_streak r) (s1_leading_missed_streak r)
                       (s1_trailing_missed_streak r)) (a1_current_missed_streak entry) (a1_seen_mandatory_result entry)
  | slot_missed =>
      let current := u32 (a1_current_missed_streak entry + 1) in
      AccumulatorV1 (SlotStatsV1 slot_producer (u32 (s1_expected r + 1)) (s1_produced r) (u32 (s1_missed r + 1))
                       (s1_idle_skipped r) (Z.max (s1_longest_missed_streak r) current)
                       (if a1_seen_mandatory_result entry then s1_leading_missed_streak r
                        else u32 (s1_leading_missed_streak r + 1))
                       (s1_trailing_missed_streak r)) current (a1_seen_mandatory_result entry)
  end.

(** The last loops: the streak an entry ends with. *)
Definition finish_v0 (entry : accumulator_v0) : producer_slot_stats_v0 :=
  let r := a0_result entry in
  SlotStatsV0 (s0_producer r) (s0_expected r) (s0_produced r) (s0_missed r) (s0_longest_missed_streak r)
    (s0_leading_missed_streak r) (a0_current_missed_streak entry).
Definition finish_v1 (entry : accumulator_v1) : producer_slot_stats_v1 :=
  let r := a1_result entry in
  SlotStatsV1 (s1_producer r) (s1_expected r) (s1_produced r) (s1_missed r) (s1_idle_skipped r)
    (s1_longest_missed_streak r) (s1_leading_missed_streak r) (a1_current_missed_streak entry).

(** ** The loop over the slots *)

Section Loop.
Context {O A : Type}.
Variable zero : A.
Variable account : Z -> O -> A -> A.

(** [by_producer[k]], changed in place: a new entry is value-initialized. *)
Fixpoint map_update (k : Z) (f : A -> A) (m : list (Z * A)) : list (Z * A) :=
  match m with
  | [] => [(k, f zero)]
  | (k', a) :: m' =>
      if k <? k' then (k, f zero) :: m
      else if k =? k' then (k', f a) :: m'
      else (k', a) :: map_update k f m'
  end.

(** [classify] is the body up to the choice of the entry and the branch. *)
Variable classify : Z -> result (Z * O).
Fixpoint account_slots (slots : list Z) (by_producer : list (Z * A)) : result (list (Z * A)) :=
  match slots with
  | [] => mret by_producer
  | slot :: slots =>
      '(producer, o) ← classify slot;
      account_slots slots (map_update producer (account producer o) by_producer)
  end.
End Loop.

Section Stats.
Context {K : Type}.
Variable resolve_schedule : Z -> result (producer_authority_schedule K).

(** The slots of the inclusive range. *)
Definition slots (from_slot to_slot : Z) : list Z := seqZ from_slot (to_slot - from_slot + 1).

Definition resolved_producer (slot : Z) : result Z :=
  let timestamp := u32 slot in
  schedule ← resolve_schedule timestamp;
  p ← get_scheduled_producer schedule timestamp;
  mret (pa_producer_name p).

(** The entry of a slot, and whether its block was produced. *)
Definition classify_v0 (produced_slot actual_producer slot : Z) : result (Z * bool) :=
  scheduled_producer ← resolved_producer slot;
  mret (scheduled_producer, (slot =? produced_slot) && (scheduled_producer =? actual_producer)).

Definition calculate_producer_slot_stats (from_slot to_slot produced_slot actual_producer : Z)
    : result (list producer_slot_stats_v0) :=
  by_producer ←
    account_slots accumulator_v0_zero account_slot_v0 (classify_v0 produced_slot actual_producer)
      (slots from_slot to_slot) [];
  mret (finish_v0 <$> (by_producer : list (Z * accumulator_v0)).*2).

(** The committed header names the producer of the one slot with a block. *)
Definition classify_v1 (mandatory_from produced_slot actual_producer slot : Z) : result (Z * slot_outcome) :=
  resolved ← resolved_producer slot;
  mret (if slot =? produced_slot then actual_producer else resolved,
        if slot =? produced_slot then slot_produced else if slot <? mandatory_from then slot_idle else slot_missed).

Definition calculate_producer_slot_stats_v2
    (from_slot to_slot previous_produced_slot produced_slot idle_interval_slots actual_producer : Z)
    : result (list producer_slot_stats_v1) :=
  let mandatory_from := u64 (previous_produced_slot + Z.max idle_interval_slots 1) in
  by_producer ←
    account_slots accumulator_v1_zero account_slot_v1 (classify_v1 mandatory_from produced_slot actual_producer)
      (slots from_slot to_slot) [];
  mret (finish_v1 <$> (by_producer : list (Z * accumulator_v1)).*2).
End Stats.

(** ** The host functions *)

(** The bytes of the structures as they lie in memory.  [producer_slot_stats_v1]
    has 36 bytes of members and a size of 40: what the last four hold is not
    defined by the program. *)
Definition stats_v0_bytes (s : producer_slot_stats_v0) : list Z :=
  le_bytes 8 (s0_producer s) ++ le_bytes 4 (s0_expected s) ++ le_bytes 4 (s0_produced s) ++ le_bytes 4 (s0_missed s) ++
  le_bytes 4 (s0_longest_missed_streak s) ++ le_bytes 4 (s0_leading_missed_streak s) ++
  le_bytes 4 (s0_trailing_missed_streak s).
Definition stats_v1_bytes (padding : list Z) (s : producer_slot_stats_v1) : list Z :=
  le_bytes 8 (s1_producer s) ++ le_bytes 4 (s1_expected s) ++ le_bytes 4 (s1_produced s) ++ le_bytes 4 (s1_missed s) ++
  le_bytes 4 (s1_idle_skipped s) ++ le_bytes 4 (s1_longest_missed_streak s) ++
  le_bytes 4 (s1_leading_missed_streak s) ++ le_bytes 4 (s1_trailing_missed_streak s) ++ padding.
Definition gas_fee_totals_bytes (t : gas_fee_totals_v0) : list Z :=
  le_bytes 8 (gt_total_gas_consumed t) ++ le_bytes 8 (gt_total_gas_value_flon t).

(** The result value and what is written to the start of the span. *)
Definition copy_out (bytes : list Z) (required_size span_size : Z) : Z * list Z :=
  if span_size =? 0 then (i32 required_size, [])
  else let copy_size := Z.min span_size required_size in (i32 copy_size, take (Z.to_nat copy_size) bytes).

Definition max_producer_stats_slots_per_call : Z := 100000.
Definition int32_max : Z := 2 ^ 31 - 1.

Section Host.
Context {K : Type}.
(** The head block of the controller. *)
Variable head_slot head_producer : Z.
Variable head_active_producers : Z -> result (producer_authority_schedule K).

(** The resolver both functions pass. *)
Definition resolve_head_schedule (timestamp : Z) : result (producer_authority_schedule K) :=
  schedule ← head_active_producers timestamp;
  _ ← EOS_ASSERT (negb (is_empty (sched_producers schedule))) wasm_execution_error;
  mret schedule.

Definition get_producer_slot_stats (from_slot to_slot span_size : Z) : result (Z * list Z) :=
  _ ← EOS_ASSERT (from_slot <=? to_slot) wasm_execution_error;
  _ ← EOS_ASSERT (to_slot =? head_slot) wasm_execution_error;
  let slot_count := to_slot - from_slot + 1 in
  _ ← EOS_ASSERT (slot_count <=? max_producer_stats_slots_per_call) wasm_execution_error;
  stats ← calculate_producer_slot_stats resolve_head_schedule from_slot to_slot head_slot head_producer;
  let required_size := vsize stats * 32 in
  _ ← EOS_ASSERT (required_size <=? int32_max) wasm_execution_error;
  mret (copy_out (stats ≫= stats_v0_bytes) required_size span_size).

Definition get_producer_slot_stats_v2 (padding : list Z) (idle_ms previous_produced_slot from_slot to_slot span_size : Z)
    : result (Z * list Z) :=
  _ ← EOS_ASSERT (from_slot <=? to_slot) wasm_execution_error;
  _ ← EOS_ASSERT (to_slot <=? head_slot) wasm_execution_error;
  _ ← EOS_ASSERT (previous_produced_slot <? from_slot) wasm_execution_error;
  let slot_count := to_slot - from_slot + 1 in
  _ ← EOS_ASSERT (slot_count <=? max_producer_stats_slots_per_call) wasm_execution_error;
  let idle_slots_64 := Z.max 1 (u64 (idle_ms + block_interval_ms - 1) / block_interval_ms) in
  _ ← EOS_ASSERT (idle_slots_64 <=? 2 ^ 32 - 1) wasm_execution_error;
  stats ← calculate_producer_slot_stats_v2 resolve_head_schedule from_slot to_slot previous_produced_slot head_slot
            idle_slots_64 head_producer;
  let required_size := vsize stats * 40 in
  _ ← EOS_ASSERT (required_size <=? int32_max) wasm_execution_error;
  mret (copy_out (stats ≫= stats_v1_bytes padding) required_size span_size).
End Host.

(** [controller_impl::get_idle_block_interval_ms]: the first field of a row of
    the system contract. *)
Definition get_idle_block_interval_ms {KV} `{Table KV kv_key (list Z)} (kv : KV) : result Z :=
  match find_row (system_account_name, system_account_name, string_to_name "prodconf", string_to_name "prodconf") kv with
  | None => mret 0
  | Some value =>
      if vsize value <? 8 then mret 0
      else
        '(ms, _) ← unpack (A := uint 8) value;
        mret (if 3600 * 1000 <? uint_value ms then 0 else uint_value ms)
  end.

Definition get_gas_fee_totals {LT UT KV} (db : database LT UT KV) (span_size : Z) : Z * list Z :=
  let totals := GasFeeTotals (total_gas_consumed (state db)) (total_gas_value_flon (state db)) in
  copy_out (gas_fee_totals_bytes totals) 16 span_size.

(** [controller_impl::head_active_producers] for a Savanna head: as written,
    and with the assertions compiled out. *)
Section Head.
Context {PK K : Type}.
Definition head_active_producers (s : block_header_state PK K) (timestamp : Z) : result (producer_authority_schedule K) :=
  p ← get_active_proposer_policy_for_block_at s timestamp; mret (pp_proposer_schedule (deref p)).
Definition head_active_producers_release (s : block_header_state PK K) (timestamp : Z)
    : result (producer_authority_schedule K) :=
  p ← proposer_policy_at s timestamp; mret (pp_proposer_schedule (deref p)).
End Head.

(** ** The map of accumulators *)

Section Map.
Context {O A : Type}.
Variable zero : A.

Fixpoint map_entry (k : Z) (m : list (Z * A)) : option A :=
  match m with [] => None | (k', a) :: m => if k =? k' then Some a else map_entry k m end.

Abbreviation ordered := (fun m : list (Z * A) => StronglySorted Z.lt m.*1).

Lemma map_update_keys k f m k' : k' ∈ (map_update zero k f m).*1 <-> k' = k \/ k' ∈ m.*1.
Proof.
  induction m as [|[k0 a] m IH]; cbn [map_update].
  - rewrite fmap_cons, !elem_of_cons. cbn. naive_solver.
  - destruct (Z.ltb_spec k k0), (Z.eqb_spec k k0); rewrite ?fmap_cons, ?elem_of_cons; cbn [fst] in *;
      rewrite ?IH; naive_solver.
Qed.

Lemma map_update_ordered k f m : ordered m -> ordered (map_update zero k f m).
Proof.
  induction m as [|[k0 a] m IH]; intros Hs; cbn [map_update]; [repeat constructor|].
  rewrite fmap_cons in Hs. cbn [fst] in Hs. pose proof (StronglySorted_inv Hs) as [Hs' Hk].
  destruct (Z.ltb_spec k k0), (Z.eqb_spec k k0); try (cbn; done).
  - rewrite !fmap_cons. cbn [fst]. constructor; [done|]. constructor; [lia|].
    eapply Forall_impl; [exact Hk|]. cbn. lia.
  - rewrite !fmap_cons. cbn [fst]. constructor; [done|]. constructor; [lia|].
    eapply Forall_impl; [exact Hk|]. cbn. lia.
  - rewrite fmap_cons. cbn [fst]. constructor; [by apply IH|]. apply Forall_forall. intros x Hx.
    apply map_update_keys in Hx as [->|Hx]; [lia|]. by eapply Forall_forall in Hk.
Qed.

Lemma map_entry_none k m : Forall (Z.lt k) m.*1 -> map_entry k m = None.
Proof.
  induction m as [|[k0 a] m IH]; [done|]. rewrite fmap_cons, Forall_cons. cbn [fst map_entry].
  intros [? ?]. destruct (Z.eqb_spec k k0); [lia|auto].
Qed.

Lemma map_entry_update k f m k' :
  ordered m -> map_entry k' (map_update zero k f m) =
    if k' =? k then Some (f (default zero (map_entry k m))) else map_entry k' m.
Proof.
  induction m as [|[k0 a] m IH]; intros Hs; cbn [map_update map_entry]; [done|].
  rewrite fmap_cons in Hs. cbn [fst] in Hs. apply StronglySorted_inv in Hs as [Hs Hk].
  destruct (Z.ltb_spec k k0).
  - assert (Forall (Z.lt k) m.*1) as Hk' by (eapply Forall_impl; [exact Hk|]; cbn; lia).
    cbn [map_entry]. destruct (Z.eqb_spec k k0); [lia|]. rewrite (map_entry_none k m Hk'). done.
  - destruct (Z.eqb_spec k k0) as [->|]; cbn [map_entry].
    + destruct (Z.eqb_spec k' k0); done.
    + destruct (Z.eqb_spec k' k0); [|by apply IH]. destruct (Z.eqb_spec k' k); [lia|done].
Qed.

Lemma map_entry_elem k a m : ordered m -> (k, a) ∈ m -> map_entry k m = Some a.
Proof.
  induction m as [|[k0 b] m IH]; intros Hs Hin; [by apply elem_of_nil in Hin|].
  rewrite fmap_cons in Hs. cbn [fst map_entry] in *. apply StronglySorted_inv in Hs as [Hs Hk].
  apply elem_of_cons in Hin as [[= -> ->]|Hin]; [by rewrite Z.eqb_refl|].
  destruct (Z.eqb_spec k k0) as [->|]; [|by apply IH].
  eapply Forall_forall in Hk; [|apply (list_elem_of_fmap_2 fst _ _ Hin)]. cbn in Hk. lia.
Qed.

(** The loop: one ordered entry per producer that has a slot, made from the
    outcomes of its slots alone. *)
Lemma account_slots_spec (account : Z -> O -> A -> A) classify owner outcome l m :
  (forall slot, slot ∈ l -> classify slot = Ok (owner slot, outcome slot)) -> ordered m ->
  exists m', account_slots zero account classify l m = Ok m' /\ ordered m' /\
    (forall p, p ∈ m'.*1 <-> p ∈ m.*1 \/ p ∈ owner <$> l) /\
    (forall p a, (p, a) ∈ m' ->
      a = foldl (fun a o => account p o a) (default zero (map_entry p m)) (outcome <$> filter (fun s => owner s = p) l)).
Proof.
  revert m; induction l as [|s l IH]; intros m Hc Hm; cbn [account_slots].
  { exists m. split_and!; [done|done| |].
    - intros p. rewrite fmap_nil, elem_of_nil. tauto.
    - intros p a Hin. by rewrite (map_entry_elem p a m Hm Hin). }
  rewrite Hc by (by apply elem_of_cons; left). rewrite ret_bind.
  destruct (IH (map_update zero (owner s) (account (owner s) (outcome s)) m)) as (m' & E & Ho & Hk & He).
  { intros x Hx. apply Hc. by apply elem_of_cons; right. }
  { by apply map_update_ordered. }
  exists m'. split_and!; [done|done| |].
  - intros p. rewrite Hk, map_update_keys, fmap_cons, elem_of_cons. tauto.
  - intros p a Hin. rewrite (He p a Hin), map_entry_update by done. rewrite filter_cons.
    destruct (Z.eqb_spec p (owner s)) as [->|]; [by rewrite decide_True by done|by rewrite decide_False by done].
Qed.
End Map.

(** ** Reference definition of the statistics *)

(** A slot that must be produced is [true] when it was and [false] when it was
    missed, in the order of the slots. *)
Fixpoint missed_prefix (bs : list bool) : Z :=
  match bs with false :: bs => 1 + missed_prefix bs | _ => 0 end.

Definition missed_run (n : nat) (bs : list bool) : Prop := exists l1 l2, bs = l1 ++ replicate n false ++ l2.

Record slot_record (bs : list bool) (expected produced missed longest leading trailing : Z) : Prop := {
  sr_expected : expected = vsize bs;
  sr_produced : produced = vsize (filter (fun b => b = true) bs);
  sr_missed : missed = vsize (filter (fun b => b = false) bs);
  sr_longest : exists n, longest = Z.of_nat n /\ missed_run n bs /\ forall k, missed_run k bs -> (k <= n)%nat;
  sr_leading : leading = missed_prefix bs;
  sr_trailing : trailing = missed_prefix (rev bs)
}.

Lemma missed_prefix_range bs : 0 <= missed_prefix bs <= vsize bs.
Proof. unfold vsize. induction bs as [|[] bs IH]; cbn; lia. Qed.

Lemma missed_prefix_snoc bs b :
  missed_prefix (bs ++ [b]) = if existsb id bs then missed_prefix bs
                              else if b then missed_prefix bs else missed_prefix bs + 1.
Proof. induction bs as [|[] bs IH]; cbn; [by destruct b|done|]. rewrite IH. destruct (existsb id bs), b; lia. Qed.

Lemma rev_replicate n (b : bool) : rev (replicate n b) = replicate n b.
Proof. induction n as [|n IH]; [done|]. cbn [replicate rev]. by rewrite IH, <- replicate_S_end. Qed.

Lemma missed_prefix_replicate n bs : missed_prefix (replicate n false ++ bs) = Z.of_nat n + missed_prefix bs.
Proof. induction n as [|n IH]; [done|]. cbn [replicate app missed_prefix]. lia. Qed.

(** A run of misses ends in the last slot or was there before. *)
Lemma missed_run_snoc k bs b :
  missed_run k (bs ++ [b]) -> missed_run k bs \/ Z.of_nat k <= missed_prefix (rev (bs ++ [b])).
Proof.
  intros (l1 & l2 & E). destruct l2 as [|c l2 _] using rev_ind.
  - right. rewrite app_nil_r in E. rewrite E, rev_app_distr, rev_replicate, missed_prefix_replicate.
    pose proof (missed_prefix_range (rev l1)). lia.
  - left. rewrite !app_assoc in E. apply app_inj_tail in E as [-> _]. exists l1, l2. by rewrite <- app_assoc.
Qed.

Lemma missed_run_app k bs l : missed_run k bs -> missed_run k (bs ++ l).
Proof. intros (l1 & l2 & ->). exists l1, (l2 ++ l). by rewrite !app_assoc. Qed.

Lemma missed_run_prefix bs : missed_run (Z.to_nat (missed_prefix (rev bs))) bs.
Proof.
  enough (exists l, rev bs = replicate (Z.to_nat (missed_prefix (rev bs))) false ++ l) as [l E].
  { exists (rev l), []. rewrite <- (rev_involutive bs), E at 1. by rewrite rev_app_distr, rev_replicate, app_nil_r. }
  generalize (rev bs). clear bs. intros bs. induction bs as [|[] bs [l IH]]; [by exists []|by exists (true :: bs)|].
  exists l. cbn [missed_prefix]. pose proof (missed_prefix_range bs).
  replace (Z.to_nat (1 + missed_prefix bs)) with (S (Z.to_nat (missed_prefix bs))) by lia.
  cbn [replicate app]. f_equal. exact IH.
Qed.

Lemma longest_snoc bs b n :
  missed_run n bs -> (forall k, missed_run k bs -> (k <= n)%nat) ->
  let n' := Nat.max n (Z.to_nat (missed_prefix (rev (bs ++ [b])))) in
  missed_run n' (bs ++ [b]) /\ forall k, missed_run k (bs ++ [b]) -> (k <= n')%nat.
Proof.
  intros Hr Hm n'. split.
  - unfold n'. destruct (Nat.max_spec n (Z.to_nat (missed_prefix (rev (bs ++ [b]))))) as [[_ ->]|[_ ->]];
      [apply missed_run_prefix|by apply missed_run_app].
  - intros k [Hk|Hk]%missed_run_snoc; [specialize (Hm k Hk)|]; lia.
Qed.

(** ** The accumulators compute it *)

Abbreviation tally_v0 := (fun p => foldl (fun a b => account_slot_v0 p b a)).

(** What the accumulator of a producer holds after its outcomes [bs]. *)
Record tallied (p q : Z) (bs : list bool) (a : accumulator_v0) : Prop := {
  td_producer : s0_producer (a0_result a) = if is_empty bs then q else p;
  td_record : slot_record bs (s0_expected (a0_result a)) (s0_produced (a0_result a)) (s0_missed (a0_result a))
                (s0_longest_missed_streak (a0_result a)) (s0_leading_missed_streak (a0_result a))
                (a0_current_missed_streak a);
  td_seen : a0_seen_produced a = existsb id bs
}.

Lemma tallied_nil p q t : tallied p q [] (AccumulatorV0 (SlotStatsV0 q 0 0 0 0 0 t) 0 false).
Proof.
  constructor; [done| |done]. constructor; try done. exists 0%nat. split_and!; [done|by exists [], []|].
  intros k (l1 & l2 & E). symmetry in E. apply app_eq_nil in E as [_ E]. apply app_eq_nil in E as [E _].
  destruct k; [lia|done].
Qed.

Lemma tallied_snoc p q bs a b :
  tallied p q bs a -> vsize (bs ++ [b]) < 2 ^ 32 -> tallied p q (bs ++ [b]) (account_slot_v0 p b a).
Proof.
  intros [Hp [He Hpr Hm (n & Hl & Hr & Hmax) Hle Ht] Hs] Hlen.
  pose proof (missed_prefix_range bs) as R1. pose proof (missed_prefix_range (rev bs)) as R2.
  assert (vsize (rev bs) = vsize bs) as Ev by (unfold vsize; by rewrite length_rev). rewrite Ev in R2.
  assert (vsize (bs ++ [b]) = vsize bs + 1) as Es by (unfold vsize; rewrite length_app; simpl; lia). rewrite Es in Hlen.
  assert (forall P (H : forall x : bool, Decision (P x)), vsize (filter P bs) <= vsize bs) as R3
    by (intros P H; unfold vsize; pose proof (length_filter P bs); lia).
  pose proof (R3 (fun x => x = true) _) as R4. pose proof (R3 (fun x => x = false) _) as R5.
  destruct (longest_snoc bs b n Hr Hmax) as [Hr' Hmax'].
  assert (forall (x : bool), vsize (filter (fun y => y = x) (bs ++ [b])) =
    vsize (filter (fun y => y = x) bs) + (if Bool.eqb b x then 1 else 0)) as Hf.
  { intros x. unfold vsize. rewrite filter_app, length_app. cbn [filter list_filter].
    destruct b, x, (decide _); simpl; (done || lia). }
  pose proof (Hf true) as Hft. pose proof (Hf false) as Hff.
  assert (is_empty (bs ++ [b]) = false) as En by (by destruct bs). rewrite rev_app_distr in Hr', Hmax'.
  assert (0 <= vsize (filter (fun x => x = true) bs)) by (unfold vsize; lia).
  assert (0 <= vsize (filter (fun x => x = false) bs)) by (unfold vsize; lia).
  unfold account_slot_v0. destruct b; (constructor; [by rewrite En| |]);
    cbn [a0_result a0_current_missed_streak a0_seen_produced s0_expected s0_produced s0_missed s0_longest_missed_streak
         s0_leading_missed_streak]; rewrite ?He, ?Hpr, ?Hm, ?Hl, ?Hle, ?Ht, ?Hs, ?existsb_app;
    try (cbn; by rewrite ?orb_true_r, ?orb_false_r).
  - cbn [Bool.eqb] in Hft, Hff. constructor; rewrite ?Es, ?Hft, ?Hff, ?missed_prefix_snoc; rewrite ?u32_small by lia; try done.
    + rewrite Z.add_0_r. done.
    + exists n. cbn [rev app missed_prefix] in Hr', Hmax'. rewrite Nat.max_0_r in Hr', Hmax'. done.
    + by destruct (existsb id bs).
    + by rewrite rev_app_distr.
  - cbn [rev app missed_prefix] in Hr', Hmax'. cbn [Bool.eqb] in Hft, Hff.
    constructor; rewrite ?Es, ?Hft, ?Hff, ?missed_prefix_snoc; rewrite ?u32_small by lia; try done.
    + rewrite Z.add_0_r. done.
    + eexists. split; [|split; [exact Hr'|exact Hmax']]. lia.
    + rewrite rev_app_distr. cbn [rev app missed_prefix]. lia.
Qed.

Lemma tally_v0_spec p q bs t :
  vsize bs < 2 ^ 32 -> tallied p q bs (tally_v0 p (AccumulatorV0 (SlotStatsV0 q 0 0 0 0 0 t) 0 false) bs).
Proof.
  induction bs as [|b bs IH] using rev_ind; intros Hl; [apply tallied_nil|].
  rewrite foldl_snoc. apply tallied_snoc; [|done]. apply IH. unfold vsize in *. rewrite length_app in Hl. simpl in Hl. lia.
Qed.

(** The second version counts the idle slots on the side and the others like
    the first. *)
Definition mandatory (os : list slot_outcome) : list bool :=
  omap (fun o => match o with slot_produced => Some true | slot_idle => None | slot_missed => Some false end) os.

#[global] Instance slot_outcome_eq_dec : EqDecision slot_outcome.
Proof. solve_decision. Defined.

Definition view_v0 (p : Z) (a : accumulator_v1) : accumulator_v0 :=
  let r := a1_result a in
  AccumulatorV0 (SlotStatsV0 p (s1_expected r) (s1_produced r) (s1_missed r) (s1_longest_missed_streak r)
                   (s1_leading_missed_streak r) (s1_trailing_missed_streak r))
    (a1_current_missed_streak a) (a1_seen_mandatory_result a).

Abbreviation tally_v1 := (fun p => foldl (fun a o => account_slot_v1 p o a)).

Lemma view_account p o a :
  view_v0 p (account_slot_v1 p o a) =
  match o with
  | slot_produced => account_slot_v0 p true (view_v0 p a)
  | slot_idle => view_v0 p a
  | slot_missed => account_slot_v0 p false (view_v0 p a)
  end.
Proof. by destruct o. Qed.

Lemma view_tally p os a : view_v0 p (tally_v1 p a os) = tally_v0 p (view_v0 p a) (mandatory os).
Proof. revert a; induction os as [|o os IH]; intros a; [done|]. cbn [foldl]. rewrite IH, view_account. by destruct o. Qed.

Lemma tally_idle p os a :
  s1_idle_skipped (a1_result a) + vsize os < 2 ^ 32 -> 0 <= s1_idle_skipped (a1_result a) ->
  s1_idle_skipped (a1_result (tally_v1 p a os)) =
  s1_idle_skipped (a1_result a) + vsize (filter (fun o => o = slot_idle) os).
Proof.
  revert a; induction os as [|o os IH]; intros a Hl Hp; [unfold vsize in *; simpl; lia|]. cbn [foldl].
  assert (vsize (o :: os) = vsize os + 1) as E by (unfold vsize; cbn; lia). assert (0 <= vsize os) by (unfold vsize; lia).
  rewrite filter_cons. destruct o; cbn [account_slot_v1].
  - rewrite IH by (cbn; lia). done.
  - rewrite IH by (cbn; rewrite u32_small by lia; lia). cbn [a1_result s1_idle_skipped].
    rewrite u32_small, decide_True by (done || lia). unfold vsize. cbn [length]. lia.
  - rewrite IH by (cbn; lia). done.
Qed.

Lemma tally_producer p os a : os <> [] -> s1_producer (a1_result (tally_v1 p a os)) = p.
Proof.
  destruct os as [|o os _] using rev_ind; [done|]. intros _. rewrite foldl_snoc. by destruct o.
Qed.

Lemma mandatory_length os : vsize (mandatory os) + vsize (filter (fun o => o = slot_idle) os) = vsize os.
Proof.
  unfold vsize. induction os as [|o os IH]; [done|]. rewrite filter_cons. unfold mandatory in *. cbn [omap list_omap length].
  destruct o; [rewrite decide_False by done|rewrite decide_True by done|rewrite decide_False by done]; cbn [length]; lia.
Qed.

(** The slots of the producers together are all slots. *)
Lemma slots_partition (owner : Z -> Z) (l ks : list Z) :
  NoDup ks -> (forall s, s ∈ l -> owner s ∈ ks) ->
  foldr Z.add 0 ((fun p => vsize (filter (fun s => owner s = p) l)) <$> ks) = vsize l.
Proof.
  intros Hd. induction l as [|s l IH]; intros Hin.
  - clear. induction ks as [|k ks IH]; [done|]. rewrite fmap_cons. cbn [foldr]. by rewrite IH.
  - replace (vsize (s :: l)) with (1 + vsize l) by (unfold vsize; cbn; lia).
    rewrite <- IH by (intros x Hx; apply Hin; by apply elem_of_cons; right).
    specialize (Hin s ltac:(by apply elem_of_cons; left)). clear IH.
    enough (forall ks, NoDup ks -> foldr Z.add 0 ((fun p => vsize (filter (fun s => owner s = p) (s :: l))) <$> ks) =
      (if bool_decide (owner s ∈ ks) then 1 else 0) + foldr Z.add 0 ((fun p => vsize (filter (fun s => owner s = p) l)) <$> ks)) as H.
    { rewrite H by done. by rewrite bool_decide_eq_true_2 by done. }
    clear. intros ks Hd. induction Hd as [|k ks Hk _ IH]; [done|]. rewrite !fmap_cons. cbn [foldr]. rewrite IH, filter_cons.
    unfold vsize. destruct (decide (owner s = k)) as [<-|Hne]; cbn [length].
    + rewrite (bool_decide_eq_true_2 (_ ∈ _ :: _)) by (by apply elem_of_cons; left). rewrite bool_decide_eq_false_2 by done. lia.
    + rewrite (bool_decide_ext (owner s ∈ k :: ks) (owner s ∈ ks)) by (rewrite elem_of_cons; tauto). lia.
Qed.

Lemma elem_of_slots from_slot to_slot s : s ∈ slots from_slot to_slot <-> from_slot <= s <= to_slot.
Proof. unfold slots. rewrite elem_of_seqZ. lia. Qed.

Lemma slots_size from_slot to_slot : from_slot <= to_slot -> vsize (slots from_slot to_slot) = to_slot - from_slot + 1.
Proof. intros H. unfold vsize, slots. rewrite length_seqZ. lia. Qed.

Lemma slots_of_length (owner : Z -> Z) from_slot to_slot p :
  from_slot <= to_slot -> vsize (filter (fun s => owner s = p) (slots from_slot to_slot)) <= to_slot - from_slot + 1.
Proof.
  intros H. rewrite <- slots_size by done. unfold vsize.
  pose proof (length_filter (fun s => owner s = p) (slots from_slot to_slot)). lia.
Qed.

Lemma owner_has_slot (owner : Z -> Z) l p : p ∈ owner <$> l -> filter (fun s => owner s = p) l <> [].
Proof.
  intros (s & -> & Hs)%list_elem_of_fmap Hn. assert (s ∈ filter (fun x => owner x = owner s) l) as H
    by (by apply list_elem_of_filter). rewrite Hn in H. by apply elem_of_nil in H.
Qed.

(** The entries of the result, whatever is kept per producer. *)
Lemma account_slots_stats {O A S : Type} (zero : A) (account : Z -> O -> A -> A) classify owner outcome from_slot to_slot
    (finish : A -> S) (name : S -> Z) (P : list O -> S -> Prop) :
  from_slot <= to_slot -> to_slot - from_slot + 1 < 2 ^ 32 ->
  (forall slot, from_slot <= slot <= to_slot -> classify slot = Ok (owner slot, outcome slot)) ->
  (forall p os, os <> [] -> vsize os < 2 ^ 32 ->
     let s := finish (foldl (fun a o => account p o a) zero os) in name s = p /\ P os s) ->
  exists m, account_slots zero account classify (slots from_slot to_slot) [] = Ok m /\
    StronglySorted Z.lt (name <$> (finish <$> m.*2)) /\
    (forall p, p ∈ name <$> (finish <$> m.*2) <-> exists slot, from_slot <= slot <= to_slot /\ owner slot = p) /\
    forall s, s ∈ finish <$> m.*2 ->
      P (outcome <$> filter (fun slot => owner slot = name s) (slots from_slot to_slot)) s.
Proof.
  intros Hr Hn Hc HP.
  destruct (account_slots_spec zero account classify owner outcome (slots from_slot to_slot) []) as (m & E & Ho & Hk & He).
  { intros slot Hs%elem_of_slots. by apply Hc. }
  { constructor. }
  exists m. split; [done|].
  assert (forall e, e ∈ m -> name (finish e.2) = e.1 /\
    P (outcome <$> filter (fun s => owner s = e.1) (slots from_slot to_slot)) (finish e.2)) as Hm.
  { intros [p a] Hin. cbn [fst snd]. rewrite (He p a Hin). cbn [map_entry default].
    pose proof (slots_of_length owner from_slot to_slot p Hr). apply HP.
    - destruct (proj1 (Hk p) (list_elem_of_fmap_2 fst _ _ Hin)) as [Hx|Hx%owner_has_slot]; [by apply elem_of_nil in Hx|].
      by destruct (filter _ _).
    - unfold vsize in *. rewrite length_fmap. lia. }
  assert (name <$> (finish <$> m.*2) = m.*1) as Ek.
  { rewrite <- !list_fmap_compose. apply list_fmap_ext. intros i e Hi. apply Hm. by eapply list_elem_of_lookup_2. }
  rewrite Ek. split_and!; [done| |].
  - intros p. rewrite Hk, fmap_nil, elem_of_nil, list_elem_of_fmap. split.
    + intros [[]|(s & -> & Hs%elem_of_slots)]. by exists s.
    + intros (s & Hs & <-). right. exists s. by rewrite elem_of_slots.
  - intros s (a & -> & (e & -> & Hin)%list_elem_of_fmap)%list_elem_of_fmap. destruct (Hm e Hin) as [-> H]. exact H.
Qed.

Lemma sorted_nodup (l : list Z) : StronglySorted Z.lt l -> NoDup l.
Proof.
  induction 1 as [|x l _ IH Hx]; constructor; [|done]. intros Hin. eapply Forall_forall in Hx; [|exact Hin]. lia.
Qed.

(** Entries that count their own slots count all slots together. *)
Lemma stats_total {S : Type} (owner : Z -> Z) (name count : S -> Z) from_slot to_slot l :
  from_slot <= to_slot -> StronglySorted Z.lt (name <$> l) ->
  (forall p, p ∈ name <$> l <-> exists slot, from_slot <= slot <= to_slot /\ owner slot = p) ->
  (forall s, s ∈ l -> count s = vsize (filter (fun slot => owner slot = name s) (slots from_slot to_slot))) ->
  foldr Z.add 0 (count <$> l) = to_slot - from_slot + 1.
Proof.
  intros Hr Hs Hk Hc. rewrite <- slots_size by done. rewrite <- (slots_partition owner _ (name <$> l)).
  - f_equal. rewrite <- list_fmap_compose. apply list_fmap_ext. intros i s Hi. apply Hc. by eapply list_elem_of_lookup_2.
  - by apply sorted_nodup.
  - intros slot Hin%elem_of_slots. apply Hk. by exists slot.
Qed.

Section Correct.
Context {K : Type}.
Variable resolve_schedule : Z -> result (producer_authority_schedule K).
Variable who : Z -> Z.
Abbreviation resolves from_slot to_slot :=
  (forall slot, from_slot <= slot <= to_slot -> resolved_producer resolve_schedule slot = Ok (who slot)).

(** Every scheduled producer has exactly one entry, in the order of the names,
    and each number in it is the one of the reference definition for the
    producer's slots in the range. *)
Theorem slot_stats_v0_correct from_slot to_slot produced_slot actual_producer :
  0 <= from_slot <= to_slot -> to_slot - from_slot + 1 < 2 ^ 32 -> resolves from_slot to_slot ->
  exists l, calculate_producer_slot_stats resolve_schedule from_slot to_slot produced_slot actual_producer = Ok l /\
    StronglySorted Z.lt (s0_producer <$> l) /\
    (forall p, p ∈ s0_producer <$> l <-> exists slot, from_slot <= slot <= to_slot /\ who slot = p) /\
    forall s, s ∈ l ->
      slot_record ((fun slot => (slot =? produced_slot) && (who slot =? actual_producer)) <$>
                     filter (fun slot => who slot = s0_producer s) (slots from_slot to_slot))
        (s0_expected s) (s0_produced s) (s0_missed s) (s0_longest_missed_streak s) (s0_leading_missed_streak s)
        (s0_trailing_missed_streak s).
Proof.
  intros Hr Hn Hres. unfold calculate_producer_slot_stats.
  destruct (account_slots_stats accumulator_v0_zero account_slot_v0 (classify_v0 resolve_schedule produced_slot actual_producer)
    who (fun slot => (slot =? produced_slot) && (who slot =? actual_producer)) from_slot to_slot finish_v0 s0_producer
    (fun bs s => slot_record bs (s0_expected s) (s0_produced s) (s0_missed s) (s0_longest_missed_streak s)
                   (s0_leading_missed_streak s) (s0_trailing_missed_streak s))) as (m & E & Hs & Hk & He); [lia|done| | |].
  - intros slot Hs. unfold classify_v0. rewrite Hres by done. done.
  - intros p bs Hbs Hl s. destruct (tally_v0_spec p 0 bs 0 Hl) as [Hp Ht _]. split; [|exact Ht].
    etransitivity; [exact Hp|]. by destruct bs.
  - rewrite E, ret_bind. by eexists.
Qed.

(** The statistics that elastic block production pays by: every producer
    with a slot in the range has one entry, in the order of the names.  The
    slots before the first mandatory heartbeat count as idle; over the others
    the entry has the number of produced and missed slots and the longest, the
    first and the last run of misses of the reference definition; and the slots
    of all entries together are the slots of the range. *)
Theorem slot_stats_v2_correct from_slot to_slot previous_produced_slot produced_slot idle_interval_slots actual_producer :
  0 <= from_slot <= to_slot -> to_slot - from_slot + 1 < 2 ^ 32 -> resolves from_slot to_slot ->
  is_u32 previous_produced_slot -> is_u32 idle_interval_slots ->
  let owner slot := if slot =? produced_slot then actual_producer else who slot in
  let outcome slot := if slot =? produced_slot then slot_produced
                      else if slot <? previous_produced_slot + Z.max idle_interval_slots 1 then slot_idle else slot_missed in
  exists l, calculate_producer_slot_stats_v2 resolve_schedule from_slot to_slot previous_produced_slot produced_slot
              idle_interval_slots actual_producer = Ok l /\
    StronglySorted Z.lt (s1_producer <$> l) /\
    (forall p, p ∈ s1_producer <$> l <-> exists slot, from_slot <= slot <= to_slot /\ owner slot = p) /\
    (forall s, s ∈ l ->
      let os := outcome <$> filter (fun slot => owner slot = s1_producer s) (slots from_slot to_slot) in
      s1_idle_skipped s = vsize (filter (fun o => o = slot_idle) os) /\
      slot_record (mandatory os) (s1_expected s) (s1_produced s) (s1_missed s) (s1_longest_missed_streak s)
        (s1_leading_missed_streak s) (s1_trailing_missed_streak s)) /\
    foldr Z.add 0 ((fun s => s1_expected s + s1_idle_skipped s) <$> l) = to_slot - from_slot + 1.
Proof.
  intros Hr Hn Hres Hpu Hiu owner outcome. unfold is_u32 in *. unfold calculate_producer_slot_stats_v2.
  destruct (account_slots_stats accumulator_v1_zero account_slot_v1
    (classify_v1 resolve_schedule (u64 (previous_produced_slot + Z.max idle_interval_slots 1)) produced_slot actual_producer)
    owner outcome from_slot to_slot finish_v1 s1_producer
    (fun os s => s1_idle_skipped s = vsize (filter (fun o => o = slot_idle) os) /\
       slot_record (mandatory os) (s1_expected s) (s1_produced s) (s1_missed s) (s1_longest_missed_streak s)
         (s1_leading_missed_streak s) (s1_trailing_missed_streak s))) as (m & E & Hs & Hk & He); [lia|done| | |].
  - intros slot Hs. unfold classify_v1. rewrite Hres by done. rewrite u64_small by lia. done.
  - intros p os Hos Hl s. pose proof (mandatory_length os) as Hml.
    assert (0 <= vsize (filter (fun o => o = slot_idle) os)) by (unfold vsize; lia). split_and!.
    + cbn [s finish_v1 s1_producer]. by apply tally_producer.
    + cbn [s finish_v1 s1_idle_skipped]. rewrite tally_idle by (cbn; lia). done.
    + pose proof (tally_v0_spec p p (mandatory os) 0 ltac:(lia)) as [_ Ht _].
      change (AccumulatorV0 _ 0 false) with (view_v0 p accumulator_v1_zero) in Ht. rewrite <- view_tally in Ht. exact Ht.
  - rewrite E, ret_bind. eexists. split_and!; [done|done|exact Hk|exact He|].
    apply (stats_total owner s1_producer); [lia|done|exact Hk|]. intros s Hin. destruct (He s Hin) as [Hi Hrec].
    rewrite (sr_expected _ _ _ _ _ _ _ Hrec), Hi, mandatory_length. unfold vsize. by rewrite length_fmap.
Qed.
End Correct.

(** ** The host functions *)

Lemma account_slots_fails {O A} (zero : A) (account : Z -> O -> A -> A) classify from_slot to_slot m e :
  from_slot <= to_slot -> classify from_slot = Err e ->
  account_slots zero account classify (slots from_slot to_slot) m = Err e.
Proof. intros Hr He. unfold slots. rewrite seqZ_cons by lia. cbn [account_slots]. by rewrite He. Qed.

Section HostTheorems.
Context {PK K : Type}.

Lemma past_schedule_asserts (s : block_header_state PK K) slot :
  is_u32 slot -> slot <= bhs_timestamp s ->
  resolved_producer (resolve_head_schedule (head_active_producers s)) slot = Err assertion_failed.
Proof.
  intros Hu Hle. unfold resolved_producer, resolve_head_schedule, head_active_producers, get_active_proposer_policy_for_block_at.
  rewrite u32_small by done. unfold c_assert, EOS_ASSERT. by destruct (Z.ltb_spec (bhs_timestamp s) slot); [lia|].
Qed.

(** The statistics are about slots up to the head, but
    [get_active_proposer_policy_for_block_at] asserts that it is asked about
    slots after it: with assertions, every call with an accepted range fails on
    a Savanna head.  Without them every slot of the range is attributed to the
    policy that is active at the head, also the slots before it was. *)
Theorem slot_stats_on_savanna_head (s : block_header_state PK K) from_slot to_slot :
  0 <= from_slot <= to_slot -> is_u32 (bhs_timestamp s) -> to_slot - from_slot + 1 <= max_producer_stats_slots_per_call ->
  (forall producer span_size, to_slot = bhs_timestamp s ->
     get_producer_slot_stats (bhs_timestamp s) producer (head_active_producers s) from_slot to_slot span_size =
     Err assertion_failed) /\
  (forall producer padding idle_ms previous span_size, to_slot <= bhs_timestamp s -> previous < from_slot ->
     0 <= idle_ms <= 3600 * 1000 ->
     get_producer_slot_stats_v2 (bhs_timestamp s) producer (head_active_producers s) padding idle_ms previous
       from_slot to_slot span_size = Err assertion_failed) /\
  (bhs_timestamp s + producer_repetitions < 2 ^ 32 ->
   forall slot, 0 <= slot <= bhs_timestamp s ->
     head_active_producers_release s slot = Ok (pp_proposer_schedule (deref (active_proposer_policy s)))).
Proof.
  intros Hr Hu Hn. unfold max_producer_stats_slots_per_call in Hn. split_and!.
  - intros producer span ->. unfold get_producer_slot_stats. do 3 step_assert by (unfold max_producer_stats_slots_per_call; lia).
    unfold calculate_producer_slot_stats. rewrite (account_slots_fails _ _ _ _ _ _ assertion_failed); [done|lia|].
    unfold classify_v0. by rewrite past_schedule_asserts by (unfold is_u32 in *; lia).
  - intros producer padding idle_ms previous span Hle Hp Hi. unfold get_producer_slot_stats_v2.
    do 4 step_assert by (unfold max_producer_stats_slots_per_call; lia).
    step_assert by (unfold block_interval_ms; rewrite u64_small by lia;
      pose proof (Z.div_le_upper_bound (idle_ms + 500 - 1) 500 (2 ^ 31)); lia).
    unfold calculate_producer_slot_stats_v2. rewrite (account_slots_fails _ _ _ _ _ _ assertion_failed); [done|lia|].
    unfold classify_v1. by rewrite past_schedule_asserts by (unfold is_u32 in *; lia).
  - intros Hw slot Hs. unfold head_active_producers_release, proposer_policy_at.
    replace (in_same_round slot (bhs_timestamp s)) with true; [done|]. symmetry. unfold in_same_round, get_current_round_start_slot.
    unfold is_u32, producer_repetitions in *. pose proof (Z.div_mod (bhs_timestamp s) 12 ltac:(lia)).
    pose proof (Z.mod_pos_bound (bhs_timestamp s) 12 ltac:(lia)). rewrite !u32_small; rewrite ?u32_small; lia.
Qed.
End HostTheorems.

(** ** Concrete statistics *)

(** Producers 5 and 3 alternate every twelve slots. *)
Definition toy_schedule : producer_authority_schedule (uint 8) := {|
  sched_version := 1;
  sched_producers := (fun n => {| pa_producer_name := n; pa_authority := authority_v0 {| bsa_threshold := 1; bsa_keys := [] |} |})
                       <$> [5; 3] |}.
Definition toy_who (slot : Z) : Z := if slot mod 24 <? 12 then 5 else 3.

Lemma toy_resolves slot : 100 <= slot <= 130 -> resolved_producer (fun _ => Ok toy_schedule) slot = Ok (toy_who slot).
Proof.
  intros Hs. assert (forallb (fun slot => match resolved_producer (fun _ => Ok toy_schedule) slot with
    Ok p => p =? toy_who slot | Err _ => false end) (slots 100 130) = true) as H by (vm_compute; reflexivity).
  rewrite forallb_forall in H. specialize (H slot (proj1 (list_elem_of_In _ _) (proj2 (elem_of_slots 100 130 slot) Hs))).
  cbv beta in H. destruct (resolved_producer _ _); [|done]. apply Z.eqb_eq in H. by subst.
Qed.

Lemma slot_stats_v2_correct_witness :
  calculate_producer_slot_stats_v2 (fun _ => Ok toy_schedule) 100 130 99 130 4 3 =
    Ok [SlotStatsV1 3 13 1 12 0 12 12 0; SlotStatsV1 5 15 0 15 3 15 15 15] /\
  exists l, calculate_producer_slot_stats_v2 (fun _ => Ok toy_schedule) 100 130 99 130 4 3 = Ok l /\
    foldr Z.add 0 ((fun s => s1_expected s + s1_idle_skipped s) <$> l) = 31.
Proof.
  split; [vm_compute; reflexivity|].
  destruct (slot_stats_v2_correct (fun _ => Ok toy_schedule) toy_who 100 130 99 130 4 3) as (l & E & _ & _ & _ & Ht).
  - lia.
  - lia.
  - exact toy_resolves.
  - unfold is_u32. lia.
  - unfold is_u32. lia.
  - exists l. split; [exact E|]. rewrite Ht. reflexivity.
Defined.

Lemma slot_stats_on_savanna_head_witness :
  bhs_timestamp toy_waiting = 100 /\
  get_producer_slot_stats 100 3 (head_active_producers toy_waiting) 90 100 0 = Err assertion_failed.
Proof.
  assert (bhs_timestamp toy_waiting = 100) as E by (vm_compute; reflexivity). split; [exact E|].
  pose proof (slot_stats_on_savanna_head toy_waiting 90 100) as H. rewrite E in H. apply H.
  - lia.
  - unfold is_u32. lia.
  - unfold max_producer_stats_slots_per_call. lia.
  - reflexivity.
Defined.
