(* ===== verification/VoteAdmission.v ===== *)
(** The budget for votes in flight (chain/vote_admission.hpp).

    Every access to the counters holds the mutex of [state], so a call is one
    step.  Tickets are shared pointers: [tickets] are the control blocks, with
    the peer of the reservation and the use count; the destructor of the
    reservation runs when the count reaches zero. *)
From Stdlib Require Import ZArith Lia ZifyBool.
From stdpp Require Import base tactics numbers list gmap.
From S2P Require Import Prelude.
#[local] Open Scope Z_scope.

(** ** Data *)

(** [vote_admission::state]: counters of type [size_t]. *)
Record admission_counts : Type := AdmissionCounts {
  ac_remote : Z;
  ac_local : Z;
  ac_peers : gmap Z Z
}.

Record admission_limits : Type := AdmissionLimits {
  global_limit : Z;
  peer_limit : Z;
  local_limit : Z
}.

Record vote_admission : Type := VoteAdmission {
  counts : admission_counts;
  tickets : gmap Z (Z * Z);
  next_ticket : Z
}.

Definition empty_admission : vote_admission := VoteAdmission (AdmissionCounts 0 0 ∅) ∅ 0.

(** ** Operations *)

(** The counters after [acquire], or no ticket. *)
Definition acquire (limits : admission_limits) (peer : Z) (s : admission_counts) : option admission_counts :=
  if peer =? 0 then
    if local_limit limits <=? ac_local s then None
    else Some (AdmissionCounts (ac_remote s) (u64 (ac_local s + 1)) (ac_peers s))
  else
    if (global_limit limits <=? ac_remote s) ||
       match ac_peers s !! peer with Some n => peer_limit limits <=? n | None => false end
    then None
    else Some (AdmissionCounts (u64 (ac_remote s + 1)) (ac_local s)
                 (<[peer := u64 (default 0 (ac_peers s !! peer) + 1)]> (ac_peers s))).

(** The destructor of an active reservation. *)
Definition release (peer : Z) (s : admission_counts) : result admission_counts :=
  if peer =? 0 then mret (AdmissionCounts (ac_remote s) (u64 (ac_local s - 1)) (ac_peers s))
  else
    match ac_peers s !! peer with
    | None => Err undefined_behavior
    | Some n =>
        let n := u64 (n - 1) in
        mret (AdmissionCounts (u64 (ac_remote s - 1)) (ac_local s)
                (if n =? 0 then delete peer (ac_peers s) else <[peer := n]> (ac_peers s)))
    end.

Definition admission_size (a : vote_admission) : Z := u64 (ac_remote (counts a) + ac_local (counts a)).

(** [acquire] with the ticket it returns, the copy of a ticket, and the end of
    the life of one. *)
Definition acquire_ticket (limits : admission_limits) (peer : Z) (a : vote_admission) : option (Z * vote_admission) :=
  match acquire limits peer (counts a) with
  | None => None
  | Some s => Some (next_ticket a,
                    VoteAdmission s (<[next_ticket a := (peer, 1)]> (tickets a)) (next_ticket a + 1))
  end.

Definition copy_ticket (id : Z) (a : vote_admission) : result vote_admission :=
  match tickets a !! id with
  | None => Err undefined_behavior
  | Some (peer, uses) => mret (VoteAdmission (counts a) (<[id := (peer, uses + 1)]> (tickets a)) (next_ticket a))
  end.

Definition drop_ticket (id : Z) (a : vote_admission) : result vote_admission :=
  match tickets a !! id with
  | None => Err undefined_behavior
  | Some (peer, uses) =>
      if uses =? 1 then
        s ← release peer (counts a);
        mret (VoteAdmission s (delete id (tickets a)) (next_ticket a))
      else mret (VoteAdmission (counts a) (<[id := (peer, uses - 1)]> (tickets a)) (next_ticket a))
  end.

(** ** What the counters mean *)

(** The reservations, by ticket, and how many satisfy a test on the peer. *)
Definition live (a : vote_admission) : gmap Z Z := fst <$> tickets a.
Definition held (f : Z -> bool) (m : gmap Z Z) : Z := Z.of_nat (size (filter (fun kv => f kv.2 = true) m)).
Definition is_peer (p q : Z) : bool := q =? p.
Definition is_remote (q : Z) : bool := negb (q =? 0).

Lemma held_insert f m id q :
  m !! id = None -> held f (<[id := q]> m) = held f m + (if f q then 1 else 0).
Proof.
  intros Hn. unfold held. destruct (f q) eqn:E.
  - rewrite map_filter_insert_True by done. rewrite map_size_insert_None; [lia|].
    apply map_lookup_filter_None. by left.
  - rewrite map_filter_insert_False by (cbn; congruence). rewrite delete_id by done. lia.
Qed.

Lemma held_delete f m id q :
  m !! id = Some q -> held f (delete id m) = held f m - (if f q then 1 else 0).
Proof.
  intros Hs. rewrite <- (insert_delete_id m id q Hs) at 2. rewrite held_insert by apply lookup_delete_eq. lia.
Qed.

Lemma held_nonneg f m : 0 <= held f m.
Proof. unfold held. lia. Qed.

Lemma held_pos f m id q : m !! id = Some q -> f q = true -> 1 <= held f m.
Proof. intros Hs Hf. pose proof (held_nonneg f (delete id m)) as H. rewrite (held_delete f m id q Hs), Hf in H. cbn in H. lia. Qed.

(** Open the tests where they are applied. *)
Ltac open_tests :=
  repeat match goal with
  | |- context [is_peer ?p ?q] => change (is_peer p q) with (q =? p)
  | |- context [is_remote ?q] => change (is_remote q) with (negb (q =? 0))
  end.

Lemma held_split m : held is_remote m + held (is_peer 0) m = Z.of_nat (size m).
Proof.
  induction m as [|id q m Hn IH] using map_ind; [done|].
  rewrite !held_insert, map_size_insert_None by done. open_tests. destruct (q =? 0); cbn; lia.
Qed.

Lemma held_peer_le_remote p m : p <> 0 -> held (is_peer p) m <= held is_remote m.
Proof.
  intros Hp. induction m as [|id q m Hn IH] using map_ind; [done|].
  rewrite !held_insert by done. open_tests. destruct (Z.eqb_spec q p), (Z.eqb_spec q 0); cbn; lia.
Qed.

(** The counters are the numbers of reservations. *)
Record counts_ok (s : admission_counts) (m : gmap Z Z) : Prop := {
  co_remote : ac_remote s = held is_remote m;
  co_local : ac_local s = held (is_peer 0) m;
  co_peers : forall p, ac_peers s !! p =
    if (p =? 0) || (held (is_peer p) m =? 0) then None else Some (held (is_peer p) m)
}.

(** Limits that fit a [size_t]. *)
Record limits_ok (limits : admission_limits) : Prop := {
  lo_global : 0 <= global_limit limits < 2 ^ 63;
  lo_peer : 1 <= peer_limit limits < 2 ^ 64;
  lo_local : 0 <= local_limit limits < 2 ^ 63
}.

Record within_limits (limits : admission_limits) (m : gmap Z Z) : Prop := {
  wl_global : held is_remote m <= global_limit limits;
  wl_local : held (is_peer 0) m <= local_limit limits;
  wl_peer : forall p, p <> 0 -> held (is_peer p) m <= peer_limit limits
}.

Record admission_inv (limits : admission_limits) (a : vote_admission) : Prop := {
  ai_counts : counts_ok (counts a) (live a);
  ai_limits : within_limits limits (live a);
  ai_uses : forall id t, tickets a !! id = Some t -> 1 <= t.2;
  ai_fresh : forall id, is_Some (tickets a !! id) -> id < next_ticket a
}.

(** Room for one more reservation of a peer. *)
Definition has_room (limits : admission_limits) (m : gmap Z Z) (peer : Z) : bool :=
  if peer =? 0 then held (is_peer 0) m <? local_limit limits
  else (held is_remote m <? global_limit limits) && (held (is_peer peer) m <? peer_limit limits).

Section Inv.
Variable limits : admission_limits.
Hypothesis Hlim : limits_ok limits.

Lemma held_empty f : held f ∅ = 0.
Proof. unfold held. by rewrite map_filter_empty, map_size_empty. Qed.

Lemma empty_admission_inv : admission_inv limits empty_admission.
Proof.
  pose proof Hlim as [? ? ?]. assert (live empty_admission = ∅) as E by apply fmap_empty.
  constructor; rewrite ?E.
  - constructor; cbn; rewrite ?held_empty; try done. intros p. by rewrite held_empty, lookup_empty, orb_true_r.
  - constructor; rewrite ?held_empty; try lia. intros p _. rewrite held_empty. lia.
  - intros id t Ht. cbn in Ht. by rewrite lookup_empty in Ht.
  - intros id [t Ht]. cbn in Ht. by rewrite lookup_empty in Ht.
Qed.

Lemma has_room_insert m id peer :
  within_limits limits m -> m !! id = None -> has_room limits m peer = true -> within_limits limits (<[id := peer]> m).
Proof.
  intros [Hg Hl Hp] Hn Hr. unfold has_room in Hr. constructor; rewrite ?held_insert by done.
  - open_tests. destruct (Z.eqb_spec peer 0); cbn [negb]; lia.
  - open_tests. destruct (Z.eqb_spec peer 0); lia.
  - intros p Hp0. rewrite held_insert by done. open_tests. specialize (Hp p Hp0).
    destruct (Z.eqb_spec peer p) as [->|]; [|lia]. destruct (Z.eqb_spec p 0); lia.
Qed.

(** [acquire] grants exactly when there is room, and counts the reservation. *)
Lemma acquire_spec s m id peer :
  counts_ok s m -> within_limits limits m -> m !! id = None ->
  match acquire limits peer s with
  | None => has_room limits m peer = false
  | Some s' => has_room limits m peer = true /\ counts_ok s' (<[id := peer]> m)
  end.
Proof.
  intros [Hr Hl Hp] [Lg Ll Lp] Hn. pose proof Hlim as [? ? ?]. unfold acquire, has_room. rewrite Hr, Hl, Hp.
  pose proof (held_nonneg is_remote m). pose proof (held_nonneg (is_peer 0) m). pose proof (held_nonneg (is_peer peer) m).
  destruct (Z.eqb_spec peer 0) as [->|Hne]; cbn [orb].
  - destruct (Z.leb_spec (local_limit limits) (held (is_peer 0) m)); [lia|]. split; [lia|].
    constructor; cbn [ac_remote ac_local ac_peers]; rewrite ?held_insert by done; cbn [is_remote is_peer Z.eqb negb].
    + lia.
    + rewrite u64_small; lia.
    + intros p. rewrite Hp, held_insert by done. open_tests.
      destruct (Z.eqb_spec p 0); [done|]. destruct (Z.eqb_spec 0 p); [lia|]. by rewrite Z.add_0_r.
  - specialize (Lp peer Hne).
    assert (match (if held (is_peer peer) m =? 0 then None else Some (held (is_peer peer) m)) with
            | Some n => peer_limit limits <=? n | None => false end = (peer_limit limits <=? held (is_peer peer) m)) as ->
      by (destruct (Z.eqb_spec (held (is_peer peer) m) 0); lia).
    destruct ((global_limit limits <=? _) || _) eqn:E; [lia|]. split; [lia|].
    constructor; cbn [ac_remote ac_local ac_peers]; rewrite ?held_insert by done.
    + open_tests. destruct (Z.eqb_spec peer 0); [lia|]. cbn [negb]. rewrite u64_small; lia.
    + open_tests. destruct (Z.eqb_spec peer 0); [lia|]. lia.
    + intros p. rewrite held_insert by done. open_tests. destruct (Z.eqb_spec peer p) as [<-|Hp'].
      * rewrite lookup_insert_eq. destruct (Z.eqb_spec peer 0); [lia|]. cbn [orb].
        destruct (Z.eqb_spec (held (is_peer peer) m + 1) 0); [lia|]. f_equal.
        destruct (Z.eqb_spec (held (is_peer peer) m) 0); cbn; rewrite u64_small; lia.
      * rewrite lookup_insert_ne, Hp by done. by rewrite Z.add_0_r.
Qed.

(** The destructor finds its peer, and takes the reservation off the counts. *)
Lemma release_spec s m id peer :
  counts_ok s m -> within_limits limits m -> m !! id = Some peer ->
  exists s', release peer s = Ok s' /\ counts_ok s' (delete id m).
Proof.
  intros [Hr Hl Hp] [Lg Ll Lp] Hs. pose proof Hlim as [? ? ?]. unfold release. rewrite Hr, Hl, Hp.
  pose proof (held_nonneg is_remote m). pose proof (held_nonneg (is_peer 0) m).
  destruct (Z.eqb_spec peer 0) as [->|Hne]; cbn [orb].
  - pose proof (held_pos (is_peer 0) m id 0 Hs eq_refl). eexists. split; [done|].
    constructor; cbn [ac_remote ac_local ac_peers]; rewrite ?(held_delete _ m id 0 Hs); cbn [is_remote is_peer Z.eqb negb].
    + lia.
    + rewrite u64_small; lia.
    + intros p. rewrite Hp, (held_delete _ m id 0 Hs). open_tests.
      destruct (Z.eqb_spec p 0); [done|]. destruct (Z.eqb_spec 0 p); [lia|]. by rewrite Z.sub_0_r.
  - specialize (Lp peer Hne). pose proof (held_peer_le_remote peer m Hne).
    pose proof (held_pos (is_peer peer) m id peer Hs ltac:(unfold is_peer; lia)) as Hpos.
    destruct (Z.eqb_spec (held (is_peer peer) m) 0); [lia|]. eexists. split; [done|].
    rewrite !(u64_small (held _ m - 1)) by lia.
    constructor; cbn [ac_remote ac_local ac_peers]; rewrite ?(held_delete _ m id peer Hs).
    + open_tests. destruct (Z.eqb_spec peer 0); [lia|]. done.
    + open_tests. destruct (Z.eqb_spec peer 0); [lia|]. lia.
    + intros p. rewrite (held_delete _ m id peer Hs). open_tests. destruct (Z.eqb_spec peer p) as [<-|Hp'].
      * destruct (Z.eqb_spec peer 0); [lia|]. cbn [orb]. destruct (Z.eqb_spec (held (is_peer peer) m - 1) 0);
          [by rewrite lookup_delete_eq|by rewrite lookup_insert_eq].
      * rewrite Z.sub_0_r. destruct (held (is_peer peer) m - 1 =? 0);
          [rewrite lookup_delete_ne by done|rewrite lookup_insert_ne by done]; apply Hp.
Qed.

Lemma live_lookup a id : live a !! id = fst <$> tickets a !! id.
Proof. unfold live. by rewrite lookup_fmap. Qed.

Lemma acquire_ticket_spec a peer :
  admission_inv limits a ->
  match acquire_ticket limits peer a with
  | None => has_room limits (live a) peer = false
  | Some (id, a') =>
      has_room limits (live a) peer = true /\ tickets a !! id = None /\ admission_inv limits a' /\
      tickets a' = <[id := (peer, 1)]> (tickets a)
  end.
Proof.
  intros [Hc Hl Hu Hf]. unfold acquire_ticket.
  assert (tickets a !! next_ticket a = None) as Hn.
  { destruct (tickets a !! next_ticket a) eqn:E; [|done]. specialize (Hf (next_ticket a) ltac:(by eexists)). lia. }
  assert (live a !! next_ticket a = None) as Hn' by (by rewrite live_lookup, Hn).
  pose proof (acquire_spec (counts a) (live a) (next_ticket a) peer Hc Hl Hn') as H.
  destruct (acquire limits peer (counts a)) as [s|]; [|done]. destruct H as [Hroom Hc'].
  split_and!; [done|done| |done].
  constructor; unfold live; cbn [counts tickets next_ticket]; rewrite ?fmap_insert.
  - exact Hc'.
  - by apply has_room_insert.
  - intros id t. rewrite lookup_insert_Some. intros [[<- <-]|[_ Ht]]; [done|by eapply Hu].
  - intros id [t Ht]. rewrite lookup_insert_Some in Ht. destruct Ht as [[<- _]|[_ Ht]]; [lia|].
    specialize (Hf id ltac:(by eexists)). lia.
Qed.

(** Changing the use count of a ticket leaves the reservations as they are. *)
Lemma set_uses_inv a id peer uses n :
  admission_inv limits a -> tickets a !! id = Some (peer, uses) -> 1 <= n ->
  admission_inv limits (VoteAdmission (counts a) (<[id := (peer, n)]> (tickets a)) (next_ticket a)).
Proof.
  intros [Hc Hl Hu Hf] Ht Hn.
  assert (live (VoteAdmission (counts a) (<[id := (peer, n)]> (tickets a)) (next_ticket a)) = live a) as E.
  { apply map_eq. intros i. rewrite !live_lookup. cbn [tickets]. destruct (decide (i = id)) as [->|Hi].
    - by rewrite lookup_insert_eq, Ht.
    - by rewrite lookup_insert_ne by done. }
  constructor; rewrite ?E; cbn [counts tickets next_ticket]; [done|done| |].
  - intros i t. rewrite lookup_insert_Some. intros [[<- <-]|[_ Hi]]; [done|by eapply Hu].
  - intros i [t Hi]. rewrite lookup_insert_Some in Hi. destruct Hi as [[<- _]|[_ Hi]]; apply Hf; by eexists.
Qed.

Lemma copy_ticket_spec a id peer uses :
  admission_inv limits a -> tickets a !! id = Some (peer, uses) ->
  exists a', copy_ticket id a = Ok a' /\ admission_inv limits a' /\ tickets a' = <[id := (peer, uses + 1)]> (tickets a).
Proof.
  intros Hi Ht. pose proof (ai_uses _ _ Hi _ _ Ht) as Hu. cbn in Hu. unfold copy_ticket. rewrite Ht.
  eexists. split_and!; [done| |done]. eapply set_uses_inv; [done|done|lia].
Qed.

Lemma drop_ticket_spec a id peer uses :
  admission_inv limits a -> tickets a !! id = Some (peer, uses) ->
  exists a', drop_ticket id a = Ok a' /\ admission_inv limits a' /\
    tickets a' = if uses =? 1 then delete id (tickets a) else <[id := (peer, uses - 1)]> (tickets a).
Proof.
  intros Hi Ht. pose proof (ai_uses _ _ Hi _ _ Ht) as Hu. cbn in Hu. unfold drop_ticket. rewrite Ht.
  destruct (Z.eqb_spec uses 1) as [->|].
  - pose proof Hi as [Hc Hl Hu' Hf]. assert (live a !! id = Some peer) as Hs by (by rewrite live_lookup, Ht).
    destruct (release_spec (counts a) (live a) id peer Hc Hl Hs) as (s & -> & Hc'). rewrite ret_bind.
    eexists. split_and!; [done| |done]. constructor; unfold live; cbn [counts tickets next_ticket]; rewrite ?fmap_delete.
    + exact Hc'.
    + destruct Hl as [L1 L2 L3]. constructor; rewrite ?(held_delete _ (live a) id peer Hs).
      * destruct (is_remote peer); lia.
      * destruct (is_peer 0 peer); lia.
      * intros p Hp. rewrite (held_delete _ (live a) id peer Hs). specialize (L3 p Hp). destruct (is_peer p peer); lia.
    + intros i t. rewrite lookup_delete_Some. intros [_ Hx]. by eapply Hu'.
    + intros i [t [_ Hx]%lookup_delete_Some]. apply Hf. by exists t.
  - eexists. split_and!; [done| |done]. eapply set_uses_inv; [done|done|lia].
Qed.

(** ** Any use of the tickets *)

(** What owners of tickets can do, in any order and from any thread. *)
Inductive ticket_op : Type := op_acquire (peer : Z) | op_copy (id : Z) | op_drop (id : Z).

Definition ticket_step (op : ticket_op) (a : vote_admission) : result vote_admission :=
  match op with
  | op_acquire peer => mret (match acquire_ticket limits peer a with Some (_, a') => a' | None => a end)
  | op_copy id => copy_ticket id a
  | op_drop id => drop_ticket id a
  end.

(** Only a ticket that somebody owns is copied or dropped. *)
Definition owned (op : ticket_op) (a : vote_admission) : Prop :=
  match op with op_acquire _ => True | op_copy id | op_drop id => is_Some (tickets a !! id) end.

Inductive admission_reachable : vote_admission -> Prop :=
| ar_start : admission_reachable empty_admission
| ar_step a op a' : admission_reachable a -> owned op a -> ticket_step op a = Ok a' -> admission_reachable a'.

Lemma ticket_step_inv a op :
  admission_inv limits a -> owned op a -> exists a', ticket_step op a = Ok a' /\ admission_inv limits a'.
Proof.
  intros Hi Ho. destruct op as [peer|id|id]; cbn [ticket_step owned] in *.
  - pose proof (acquire_ticket_spec a peer Hi) as H. destruct (acquire_ticket limits peer a) as [[id a']|].
    + destruct H as (_ & _ & H & _). by exists a'.
    + by exists a.
  - destruct Ho as [[peer uses] Ht]. destruct (copy_ticket_spec a id peer uses Hi Ht) as (a' & E & Hi' & _). by exists a'.
  - destruct Ho as [[peer uses] Ht]. destruct (drop_ticket_spec a id peer uses Hi Ht) as (a' & E & Hi' & _). by exists a'.
Qed.

(** A sequence of operations that does not fail. *)
Fixpoint ticket_run (ops : list ticket_op) (a : vote_admission) : result vote_admission :=
  match ops with [] => mret a | op :: ops => a ← ticket_step op a; ticket_run ops a end.

Lemma ticket_run_reachable ops a a' : admission_reachable a -> ticket_run ops a = Ok a' -> admission_reachable a'.
Proof.
  revert a; induction ops as [|op ops IH]; intros a Hr E; cbn [ticket_run] in E; [by apply Ok_inj in E as <-|].
  apply bind_Ok in E as (a1 & E1 & E). apply (IH a1); [|done]. apply (ar_step a op); [done| |done].
  destruct op as [peer|id|id]; cbn [ticket_step owned] in *; [done| |]; unfold copy_ticket, drop_ticket in E1;
    by destruct (tickets a !! id).
Qed.

(** Whatever the owners of tickets do, in any order: no operation on a
    ticket that is owned is undefined, the counters are exactly the numbers of
    reservations with an owner (so they return to zero with the last owner), the
    global, per-peer and local limits hold, and a ticket is refused exactly when
    the limits leave no room for it.  Local votes have a budget of their own,
    which remote peers cannot use up. *)
Theorem admission_exact a :
  admission_reachable a ->
  (forall op, owned op a -> exists a', ticket_step op a = Ok a') /\
  counts_ok (counts a) (live a) /\ within_limits limits (live a) /\
  admission_size a = Z.of_nat (size (tickets a)) /\
  (forall peer, acquire_ticket limits peer a = None <-> has_room limits (live a) peer = false).
Proof.
  intros Hr. assert (admission_inv limits a) as Hi.
  { induction Hr as [|a op a' _ IH Ho E]; [apply empty_admission_inv|].
    destruct (ticket_step_inv a op IH Ho) as (a1 & E1 & Hi). rewrite E1 in E. by apply Ok_inj in E as <-. }
  pose proof Hi as [[Hc1 Hc2 Hc3] [L1 L2 L3] _ _]. pose proof Hlim as [? ? ?]. split_and!; try done.
  - intros op Ho. destruct (ticket_step_inv a op Hi Ho) as (a' & E & _). by exists a'.
  - unfold admission_size. rewrite Hc1, Hc2, u64_small.
    + rewrite held_split. unfold live. by rewrite map_size_fmap.
    + pose proof (held_nonneg is_remote (live a)). pose proof (held_nonneg (is_peer 0) (live a)). lia.
  - intros peer. pose proof (acquire_ticket_spec a peer Hi) as H. destruct (acquire_ticket limits peer a) as [[id a']|]; [|done].
    destruct H as (H & _). rewrite H. done.
Qed.
End Inv.

(** ** A concrete budget *)

Definition toy_limits : admission_limits := AdmissionLimits 3 2 1.

Definition toy_ops : list ticket_op := [op_acquire 1; op_acquire 1; op_acquire 0; op_copy 0; op_drop 0].

(** The first peer and the node itself are at their limits, a second peer still
    gets a ticket; the reservation of a copied ticket is kept. *)
Lemma admission_exact_witness :
  exists a, ticket_run toy_limits toy_ops empty_admission = Ok a /\ admission_size a = 3 /\
    acquire_ticket toy_limits 1 a = None /\ acquire_ticket toy_limits 0 a = None /\ acquire_ticket toy_limits 2 a <> None.
Proof.
  destruct (ticket_run toy_limits toy_ops empty_admission) as [a|] eqn:E; [|vm_compute in E; discriminate E].
  exists a. split; [reflexivity|].
  destruct (admission_exact toy_limits ltac:(constructor; cbn; lia) a
    (ticket_run_reachable toy_limits toy_ops _ a (ar_start toy_limits) E)) as (_ & _ & _ & Hsize & Hroom).
  rewrite Hsize, !Hroom. vm_compute in E. injection E as <-. vm_compute. repeat split; congruence.
Defined.
