(* ===== verification/VoteProcessor.v ===== *)
(** The vote processor (chain/vote_processor.hpp): votes from peers and from the
    node itself are admitted, looked up, aggregated into their block or kept for
    later, by several threads.

    A thread, a posted handler and a call in progress are all a [task]; a step
    runs one task up to its next access to shared state.  A section that holds
    [mtx] is one step, since every other access to what it guards holds it too.
    Any task may run at any time: this includes what the thread pools and their
    queues can do.  The messages, the blocks and what [fetch_block_func] returns
    are the environment's; the aggregation itself is in AggregatingQc.v, here it
    is an entry of the log.  Exceptions of the allocator and of [asio::post] are
    not modelled. *)
From Stdlib Require Import ZArith Lia ZifyBool Sorted.
From stdpp Require Import base tactics numbers list gmap.
From S2P Require Import Prelude Digest VoteAdmission.
#[local] Open Scope Z_scope.

(** ** State *)

Definition max_votes_per_connection : Z := 2500.
Definition too_old : Z := 5 * 1000000.
Definition processor_limits : admission_limits := AdmissionLimits 10000 max_votes_per_connection 256.

Section Processor.
Context {M B : Type}.
Variable msg_block_id : M -> sha256.
Variable blk_id : B -> sha256.
Variable blk_num : B -> Z.

(** An entry of the index of votes kept for later. *)
Record vote : Type := Vote {
  v_connection_id : Z;
  v_received : Z;
  v_msg : M;
  v_admission : Z
}.
Definition vote_block_num (v : vote) : Z := num_from_id (msg_block_id (v_msg v)).

(** What the handler [process_vote] captures. *)
Record closure : Type := Closure { c_connection_id : Z; c_msg : M; c_ticket : Z }.

(** [process_vote] and [process_any_queued_for_later] at the points between two
    accesses to shared state.  The scan of the kept votes runs inside a handler
    (which it destroys afterwards) or inside a notification. *)
Inductive task : Type :=
| t_receive (connection_id : Z) (msg : M)           (* process_vote_message, at its start *)
| t_admit (connection_id : Z) (msg : M)             (* ... before acquire *)
| t_process (c : closure)                           (* the handler, posted or called *)
| t_lookup (c : closure)                            (* ... before get_block *)
| t_fetch (c : closure)                             (* get_block, before fetch_block_func *)
| t_store (c : closure) (b : B)                     (* ... before it stores the block *)
| t_defer (c : closure)                             (* before queue_for_later *)
| t_aggregate (c : closure) (b : B)                 (* before aggregate_vote *)
| t_aggregated (c : closure)                        (* before the lock after it *)
| t_scan (c : option closure) (current : option vote) (unprocessed : list vote) (* the loop, before the lock *)
| t_scan_fetch (c : option closure) (v : vote) (unprocessed : list vote)
| t_scan_store (c : option closure) (v : vote) (b : B) (unprocessed : list vote)
| t_scan_aggregate (c : option closure) (v : vote) (b : B) (unprocessed : list vote)
| t_signal (c : option closure)                     (* notify_new_block, at its start *)
| t_mark (c : option closure)                       (* ... before the exchange *)
| t_notify                                          (* its handler, posted or called *)
| t_scan_enter                                      (* ... before the lock *)
| t_finished (c : closure).                         (* a handler that returned, before its destruction *)

Record processor : Type := Processor {
  stopped : bool;
  lib : Z;
  largest_known_block_num : Z;
  last_bsp : option B;
  index : list vote;                                (* in the order by_last_received *)
  admission : vote_admission;
  rejected_votes : Z;
  last_overload_notice : Z;
  notification_pending : bool;
  tasks : list task;
  aggregated : list (vote * B)                      (* every call of aggregate_vote, with its vote *)
}.

Definition initial_processor : processor :=
  Processor true 0 0 None [] empty_admission 0 0 false [] [].

Definition set_admission (a : vote_admission) (s : processor) : processor :=
  Processor (stopped s) (lib s) (largest_known_block_num s) (last_bsp s) (index s) a (rejected_votes s)
    (last_overload_notice s) (notification_pending s) (tasks s) (aggregated s).
Definition set_index (l : list vote) (a : vote_admission) (s : processor) : processor :=
  Processor (stopped s) (lib s) (largest_known_block_num s) (last_bsp s) l a (rejected_votes s)
    (last_overload_notice s) (notification_pending s) (tasks s) (aggregated s).
Definition set_tasks (l : list task) (s : processor) : processor :=
  Processor (stopped s) (lib s) (largest_known_block_num s) (last_bsp s) (index s) (admission s) (rejected_votes s)
    (last_overload_notice s) (notification_pending s) l (aggregated s).
Definition set_notification (b : bool) (s : processor) : processor :=
  Processor (stopped s) (lib s) (largest_known_block_num s) (last_bsp s) (index s) (admission s) (rejected_votes s)
    (last_overload_notice s) b (tasks s) (aggregated s).
Definition set_bsp (b : B) (s : processor) : processor :=
  Processor (stopped s) (lib s) (Z.max (blk_num b) (largest_known_block_num s)) (Some b) (index s) (admission s)
    (rejected_votes s) (last_overload_notice s) (notification_pending s) (tasks s) (aggregated s).
Definition log_vote (v : vote) (b : B) (s : processor) : processor :=
  Processor (stopped s) (lib s) (largest_known_block_num s) (last_bsp s) (index s) (admission s) (rejected_votes s)
    (last_overload_notice s) (notification_pending s) (tasks s) ((v, b) :: aggregated s).

(** ** The index of votes kept for later *)

(** [ordered_non_unique]: a new entry goes behind those with the same time. *)
Fixpoint insert_vote (v : vote) (l : list vote) : list vote :=
  match l with
  | [] => [v]
  | x :: l' => if v_received v <? v_received x then v :: l else x :: insert_vote v l'
  end.

(** Destroying votes gives up their tickets. *)
Fixpoint drop_votes (l : list vote) (a : vote_admission) : result vote_admission :=
  match l with [] => mret a | v :: l => a ← drop_ticket (v_admission v) a; drop_votes l a end.

Definition remove_where (dead : vote -> bool) (s : processor) : result processor :=
  a ← drop_votes (filter (fun v => dead v = true) (index s)) (admission s);
  mret (set_index (filter (fun v => dead v = false) (index s)) a s).

Definition remove_before_lib (s : processor) : result processor :=
  remove_where (fun v => vote_block_num v <=? lib s) s.
Definition remove_too_old (now : Z) (s : processor) : result processor :=
  remove_where (fun v => v_received v <=? now - too_old) s.

Definition queue_for_later (now connection_id : Z) (msg : M) (ticket : Z) (s : processor) : result processor :=
  s ← remove_before_lib s;
  s ← remove_too_old now s;
  a ← copy_ticket ticket (admission s);
  mret (set_index (insert_vote (Vote connection_id now msg ticket) (index s)) a s).

(** ** One step of a task *)

(** [get_block] with the lock: the cached block, if it is the one. *)
Definition cached_block (id : sha256) (s : processor) : option B :=
  match last_bsp s with Some b => if sha256_eqb (blk_id b) id then Some b else None | None => None end.

Definition finish (c : option closure) : list task := match c with Some c => [t_finished c] | None => [] end.

(** The loop of [process_any_queued_for_later], from the lock to the unlock. *)
Definition scan_loop (c : option closure) (unprocessed : list vote) (s : processor) : result (processor * list task) :=
  match index s with
  | [] => mret (set_index (foldl (fun l v => insert_vote v l) [] unprocessed) (admission s) s, finish c)
  | v :: rest =>
      if stopped s then
        a ← drop_votes unprocessed (admission s);
        mret (set_admission a s, finish c)
      else
        let s := set_index rest (admission s) s in
        match cached_block (msg_block_id (v_msg v)) s with
        | Some b => mret (s, [t_scan_aggregate c v b unprocessed])
        | None => mret (s, [t_scan_fetch c v unprocessed])
        end
  end.

Definition scan_enter (now : Z) (c : option closure) (s : processor) : result (processor * list task) :=
  if is_empty (index s) then mret (s, finish c)
  else
    s ← remove_too_old now s;
    s ← remove_before_lib s;
    scan_loop c [] s.

Definition process_vote_message (connection_id : Z) (msg : M) (s : processor) : list task :=
  if stopped s then []
  else if num_from_id (msg_block_id msg) <=? lib s then []
  else [t_admit connection_id msg].

Definition admit_message (now connection_id : Z) (msg : M) (s : processor) : processor * list task :=
  match acquire_ticket processor_limits connection_id (admission s) with
  | Some (ticket, a) => (set_admission a s, [t_process (Closure connection_id msg ticket)])
  | None =>
      let notice := 1000000 <=? now - last_overload_notice s in
      (Processor (stopped s) (lib s) (largest_known_block_num s) (last_bsp s) (index s) (admission s)
         (u64 (rejected_votes s + 1)) (if notice then now else last_overload_notice s) (notification_pending s) (tasks s)
         (aggregated s),
       if notice then [t_signal None] else [])
  end.

(** The vote a handler is about. *)
Definition closure_vote (now : Z) (c : closure) : vote := Vote (c_connection_id c) now (c_msg c) (c_ticket c).

(** [now] is the clock, [fetch_block_func] the lookup of blocks at this moment. *)
Definition run_task (now : Z) (fetch_block_func : sha256 -> option B) (t : task) (s : processor) : result (processor * list task) :=
  match t with
  | t_receive connection_id msg => mret (s, process_vote_message connection_id msg s)
  | t_admit connection_id msg => mret (admit_message now connection_id msg s)
  | t_process c =>
      if stopped s then mret (s, [t_finished c])
      else if num_from_id (msg_block_id (c_msg c)) <=? lib s then mret (s, [t_finished c])
      else mret (s, [t_lookup c])
  | t_lookup c =>
      match cached_block (msg_block_id (c_msg c)) s with
      | Some b => mret (s, [t_aggregate c b])
      | None => mret (s, [t_fetch c])
      end
  | t_fetch c => mret (s, match fetch_block_func (msg_block_id (c_msg c)) with Some b => [t_store c b] | None => [t_defer c] end)
  | t_store c b => mret (set_bsp b s, [t_aggregate c b])
  | t_defer c => s ← queue_for_later now (c_connection_id c) (c_msg c) (c_ticket c) s; mret (s, [t_finished c])
  | t_aggregate c b => mret (log_vote (closure_vote now c) b s, [t_aggregated c])
  | t_aggregated c =>
      if c_connection_id c =? 0 then mret (s, [t_signal (Some c)]) else scan_enter now (Some c) s
  | t_scan c current unprocessed =>
      a ← drop_votes (option_list current) (admission s);
      scan_loop c unprocessed (set_admission a s)
  | t_scan_fetch c v unprocessed =>
      mret (s, match fetch_block_func (msg_block_id (v_msg v)) with
               | Some b => [t_scan_store c v b unprocessed]
               | None => [t_scan c None (unprocessed ++ [v])]
               end)
  | t_scan_store c v b unprocessed => mret (set_bsp b s, [t_scan_aggregate c v b unprocessed])
  | t_scan_aggregate c v b unprocessed => mret (log_vote v b s, [t_scan c (Some v) unprocessed])
  | t_signal c => mret (s, if stopped s then finish c else [t_mark c])
  | t_mark c =>
      mret (set_notification true s, (if notification_pending s then [] else [t_notify]) ++ finish c)
  | t_notify => mret (set_notification false s, if stopped s then [] else [t_scan_enter])
  | t_scan_enter => scan_enter now None s
  | t_finished c => a ← drop_ticket (c_ticket c) (admission s); mret (set_admission a s, [])
  end.

(** ** The whole processor *)

Inductive event : Type :=
| ev_start | ev_stop
| ev_lib (block_num : Z)                            (* notify_lib *)
| ev_new_block                                      (* notify_new_block *)
| ev_vote (connection_id : Z) (msg : M)             (* process_vote_message *)
| ev_discard (i : nat)                              (* a posted handler is destroyed without running, with its pool *)
| ev_run (i : nat) (now : Z) (fetch_block_func : sha256 -> option B).  (* task [i] makes a step *)

Definition step (e : event) (s : processor) : result processor :=
  match e with
  | ev_start | ev_stop =>
      mret (Processor (match e with ev_stop => true | _ => false end) (lib s) (largest_known_block_num s) (last_bsp s)
              (index s) (admission s) (rejected_votes s) (last_overload_notice s) (notification_pending s) (tasks s)
              (aggregated s))
  | ev_lib n =>
      mret (Processor (stopped s) n (largest_known_block_num s) (last_bsp s) (index s) (admission s) (rejected_votes s)
              (last_overload_notice s) (notification_pending s) (tasks s) (aggregated s))
  | ev_new_block => mret (set_tasks (tasks s ++ [t_signal None]) s)
  | ev_vote connection_id msg => mret (set_tasks (tasks s ++ [t_receive connection_id msg]) s)
  | ev_discard i =>
      match tasks s !! i with
      | Some (t_process c) => mret (set_tasks (take i (tasks s) ++ t_finished c :: drop (S i) (tasks s)) s)
      | Some t_notify => mret (set_tasks (take i (tasks s) ++ drop (S i) (tasks s)) s)
      | _ => mret s
      end
  | ev_run i now fetch_block_func =>
      match tasks s !! i with
      | Some t =>
          '(s, new) ← run_task now fetch_block_func t (set_tasks (take i (tasks s) ++ drop (S i) (tasks s)) s);
          mret (set_tasks (tasks s ++ new) s)
      | None => mret s
      end
  end.

Fixpoint run (es : list event) (s : processor) : result processor :=
  match es with [] => mret s | e :: es => s ← step e s; run es s end.

(** ** Who holds which ticket *)

Definition closure_holder (c : closure) : Z * Z := (c_ticket c, c_connection_id c).
Definition vote_holder (v : vote) : Z * Z := (v_admission v, v_connection_id v).
Definition scan_holders (c : option closure) : list (Z * Z) := closure_holder <$> option_list c.

Definition task_holders (t : task) : list (Z * Z) :=
  match t with
  | t_receive _ _ | t_admit _ _ | t_notify | t_scan_enter => []
  | t_process c | t_lookup c | t_fetch c | t_store c _ | t_defer c | t_aggregate c _ | t_aggregated c | t_finished c =>
      [closure_holder c]
  | t_scan c current u => scan_holders c ++ (vote_holder <$> option_list current) ++ (vote_holder <$> u)
  | t_scan_fetch c v u | t_scan_store c v _ u | t_scan_aggregate c v _ u =>
      scan_holders c ++ vote_holder v :: (vote_holder <$> u)
  | t_signal c | t_mark c => scan_holders c
  end.

(** The tickets of the votes that are still to be aggregated. *)
Definition task_active (t : task) : list Z :=
  match t with
  | t_process c | t_lookup c | t_fetch c | t_store c _ | t_defer c | t_aggregate c _ => [c_ticket c]
  | t_scan _ _ u => v_admission <$> u
  | t_scan_fetch _ v u | t_scan_store _ v _ u | t_scan_aggregate _ v _ u => v_admission v :: (v_admission <$> u)
  | _ => []
  end.

(** A block that was found for a vote is the block of the vote. *)
Definition task_ok (t : task) : Prop :=
  match t with
  | t_store c b | t_aggregate c b => blk_id b = msg_block_id (c_msg c)
  | t_scan_store _ v b _ | t_scan_aggregate _ v b _ => blk_id b = msg_block_id (v_msg v)
  | _ => True
  end.

Definition is_notify (t : task) : bool := match t with t_notify => true | _ => false end.
Definition notifies (ts : list task) : Z := vsize (filter (fun t => is_notify t = true) ts).

Definition uses (a : vote_admission) (id : Z) : Z := match tickets a !! id with Some t => t.2 | None => 0 end.
Definition hold_count (id : Z) (l : list (Z * Z)) : Z := vsize (filter (fun h => h.1 = id) l).

(** The use counts are the numbers of holders, and the reservation of a ticket
    is that of its connection. *)
Record held_ok (a : vote_admission) (l : list (Z * Z)) : Prop := {
  ho_inv : admission_inv processor_limits a;
  ho_uses : forall id, uses a id = hold_count id l;
  ho_peer : forall h, h ∈ l -> exists n, tickets a !! h.1 = Some (h.2, n)
}.

Lemma processor_limits_ok : limits_ok processor_limits.
Proof. constructor; cbn; unfold max_votes_per_connection; lia. Qed.

Lemma hold_count_cons id h l : hold_count id (h :: l) = (if bool_decide (h.1 = id) then 1 else 0) + hold_count id l.
Proof. unfold hold_count, vsize. rewrite filter_cons. repeat case_decide; repeat case_bool_decide; cbn; (done || lia). Qed.

#[global] Instance held_ok_perm a : Proper ((≡ₚ) ==> iff) (held_ok a).
Proof.
  assert (forall l k, l ≡ₚ k -> held_ok a l -> held_ok a k) as H.
  { intros l k Hp [H1 H2 H3]. constructor; [done| |].
    - intros id. rewrite H2. unfold hold_count, vsize. by rewrite Hp.
    - intros h Hh. apply H3. by rewrite Hp. }
  intros l k Hp. split; apply H; [done|by symmetry].
Qed.

Lemma held_ok_use a h l : held_ok a (h :: l) -> tickets a !! h.1 = Some (h.2, 1 + hold_count h.1 l).
Proof.
  intros [_ Hu Hp]. destruct (Hp h) as [n Hn]; [by apply elem_of_cons; left|]. specialize (Hu h.1). unfold uses in Hu.
  rewrite Hn, hold_count_cons, bool_decide_eq_true_2 in Hu by done. cbn in Hu. by rewrite Hn, Hu.
Qed.

Lemma hold_count_nonneg id l : 0 <= hold_count id l.
Proof. unfold hold_count, vsize. lia. Qed.

Lemma hold_count_elem h l : h ∈ l -> 1 <= hold_count h.1 l.
Proof.
  intros Hin. apply list_elem_of_split in Hin as (l1 & l2 & ->). unfold hold_count, vsize. rewrite filter_app, length_app.
  rewrite filter_cons_True by done. cbn. lia.
Qed.

(** Give up, copy and take a ticket. *)
Lemma held_drop a h l : held_ok a (h :: l) -> exists a', drop_ticket h.1 a = Ok a' /\ held_ok a' l.
Proof.
  intros Hh. pose proof (held_ok_use a h l Hh) as Ht. destruct Hh as [Hi Hu Hp].
  destruct (drop_ticket_spec processor_limits processor_limits_ok a h.1 _ _ Hi Ht) as (a' & E & Hi' & Et).
  exists a'. split; [done|]. pose proof (hold_count_nonneg h.1 l).
  assert (forall id, id <> h.1 -> tickets a' !! id = tickets a !! id) as Hne.
  { intros id Hid. rewrite Et. case_match; [by rewrite lookup_delete_ne|by rewrite lookup_insert_ne]. }
  constructor; [done| |].
  - intros id. specialize (Hu id). rewrite hold_count_cons in Hu. unfold uses in *. destruct (decide (id = h.1)) as [->|Hid].
    + rewrite bool_decide_eq_true_2 in Hu by done. rewrite Et. destruct (Z.eqb_spec (1 + hold_count h.1 l) 1).
      * rewrite lookup_delete_eq. lia.
      * rewrite lookup_insert_eq. cbn. lia.
    + rewrite bool_decide_eq_false_2 in Hu by done. rewrite (Hne id Hid). lia.
  - intros k Hk. destruct (Hp k) as [n Hn]; [by apply elem_of_cons; right|]. destruct (decide (k.1 = h.1)) as [Ek|Hid].
    + pose proof (hold_count_elem k l Hk) as H1. rewrite Ek in *. rewrite Hn in Ht. injection Ht as Ek2 _.
      rewrite Et. destruct (Z.eqb_spec (1 + hold_count h.1 l) 1); [lia|]. rewrite lookup_insert_eq, <- Ek2. by eexists.
    + rewrite (Hne k.1 Hid). by exists n.
Qed.

Lemma held_copy a h l : held_ok a l -> h ∈ l -> exists a', copy_ticket h.1 a = Ok a' /\ held_ok a' (h :: l).
Proof.
  intros [Hi Hu Hp] Hin. destruct (Hp h Hin) as [n Hn].
  destruct (copy_ticket_spec processor_limits a h.1 _ _ Hi Hn) as (a' & E & Hi' & Et). exists a'. split; [done|].
  constructor; [done| |].
  - intros id. specialize (Hu id). rewrite hold_count_cons. unfold uses in *. rewrite Et. destruct (decide (h.1 = id)) as [<-|Hid].
    + rewrite bool_decide_eq_true_2, lookup_insert_eq by done. rewrite Hn in Hu. cbn in *. lia.
    + rewrite bool_decide_eq_false_2, lookup_insert_ne by done. lia.
  - intros k Hk. rewrite Et. destruct (decide (h.1 = k.1)) as [Ek|Hid].
    + rewrite Ek, lookup_insert_eq. apply elem_of_cons in Hk as [->|Hk]; [by eexists|].
      destruct (Hp k Hk) as [m Hm]. rewrite <- Ek, Hn in Hm. injection Hm as -> _. by eexists.
    + rewrite lookup_insert_ne by done. apply elem_of_cons in Hk as [->|Hk]; [done|by apply Hp].
Qed.

Lemma held_acquire a l peer id a' :
  held_ok a l -> acquire_ticket processor_limits peer a = Some (id, a') ->
  id = next_ticket a /\ next_ticket a' = id + 1 /\ held_ok a' ((id, peer) :: l).
Proof.
  intros [Hi Hu Hp] E. pose proof (acquire_ticket_spec processor_limits processor_limits_ok a peer Hi) as H. rewrite E in H.
  destruct H as (_ & Hn & Hi' & Et). assert (id = next_ticket a /\ next_ticket a' = id + 1) as [-> En].
  { unfold acquire_ticket in E. destruct (acquire _ _ _); [|done]. by injection E as <- <-. }
  split_and!; [done|done|]. constructor; [done| |].
  - intros i. specialize (Hu i). rewrite hold_count_cons. unfold uses in *. rewrite Et. cbn [fst].
    destruct (decide (next_ticket a = i)) as [<-|Hid].
    + rewrite bool_decide_eq_true_2, lookup_insert_eq by done. rewrite Hn in Hu. cbn. lia.
    + rewrite bool_decide_eq_false_2, lookup_insert_ne by done. lia.
  - intros k Hk. rewrite Et. apply elem_of_cons in Hk as [->|Hk].
    + cbn [fst snd]. rewrite lookup_insert_eq. by eexists.
    + destruct (Hp k Hk) as [m Hm]. rewrite lookup_insert_ne by congruence. by exists m.
Qed.

Lemma held_drop_votes a vs l :
  held_ok a ((vote_holder <$> vs) ++ l) -> exists a', drop_votes vs a = Ok a' /\ held_ok a' l.
Proof.
  revert a; induction vs as [|v vs IH]; intros a Hh; cbn [drop_votes]; [by exists a|].
  rewrite fmap_cons in Hh. destruct (held_drop a (vote_holder v) _ Hh) as (a1 & E & Hh1). cbn [vote_holder fst] in E.
  rewrite E, ret_bind. by apply IH.
Qed.

Lemma drop_ticket_next id a a' : drop_ticket id a = Ok a' -> next_ticket a' = next_ticket a.
Proof.
  unfold drop_ticket. destruct (tickets a !! id) as [[p n]|]; [|done]. destruct (n =? 1).
  - intros (s & _ & [= <-])%bind_Ok. done.
  - by intros [= <-].
Qed.
Lemma copy_ticket_next id a a' : copy_ticket id a = Ok a' -> next_ticket a' = next_ticket a.
Proof. unfold copy_ticket. destruct (tickets a !! id) as [[p n]|]; [|done]. by intros [= <-]. Qed.
Lemma drop_votes_next vs a a' : drop_votes vs a = Ok a' -> next_ticket a' = next_ticket a.
Proof.
  revert a; induction vs as [|v vs IH]; intros a E; [by injection E as <-|].
  apply bind_Ok in E as (a1 & E1 & E). rewrite (IH _ E). by eapply drop_ticket_next.
Qed.

(** ** The invariant, relative to the tickets [H] and the active votes [A] of
    the tasks *)

Definition before (x y : vote) : Prop := v_received x <= v_received y.
Definition logged (s : processor) : list Z := (fun x => v_admission x.1) <$> aggregated s.

Record core_ok (H : list (Z * Z)) (A : list Z) (s : processor) : Prop := {
  ck_held : held_ok (admission s) (H ++ (vote_holder <$> index s));
  ck_once : NoDup (A ++ (v_admission <$> index s) ++ logged s);
  ck_fresh : Forall (fun id => id < next_ticket (admission s)) (A ++ (v_admission <$> index s) ++ logged s);
  ck_sorted : StronglySorted before (index s);
  ck_blocks : Forall (fun x => blk_id x.2 = msg_block_id (v_msg x.1)) (aggregated s)
}.

(** What a step of one task leaves alone. *)
Definition framed (s s' : processor) : Prop :=
  tasks s' = tasks s /\ notification_pending s' = notification_pending s /\ stopped s' = stopped s /\ lib s' = lib s.

Lemma framed_trans s1 s2 s3 : framed s1 s2 -> framed s2 s3 -> framed s1 s3.
Proof. unfold framed. intros (? & ? & ? & ?) (? & ? & ? & ?). split_and!; congruence. Qed.

(** Fewer active votes, the same holders in another order. *)
Lemma core_weaken H H' A A' s : H ≡ₚ H' -> A' ⊆+ A -> core_ok H A s -> core_ok H' A' s.
Proof.
  intros HH HA [H1 H2 H3 H4 H5]. assert (A' ++ (v_admission <$> index s) ++ logged s ⊆+ A ++ (v_admission <$> index s) ++ logged s) as Hs
    by (by apply submseteq_skips_r).
  constructor; [by rewrite <- HH| | |done|done].
  - destruct (submseteq_Permutation _ _ Hs) as [k Hk]. rewrite Hk in H2. by apply NoDup_app in H2 as [? _].
  - destruct (submseteq_Permutation _ _ Hs) as [k Hk]. rewrite Hk in H3. by apply Forall_app in H3 as [? _].
Qed.

Lemma filter_perm_split {T} (P : T -> bool) (l : list T) :
  l ≡ₚ filter (fun x => P x = true) l ++ filter (fun x => P x = false) l.
Proof.
  induction l as [|x l IH]; [done|]. rewrite !filter_cons. destruct (P x) eqn:E.
  - rewrite decide_True, decide_False by congruence. cbn [app]. by constructor.
  - rewrite decide_False, decide_True by congruence. rewrite <- Permutation_middle. by constructor.
Qed.

Lemma core_remove_where H A dead s :
  core_ok H A s -> exists s', remove_where dead s = Ok s' /\ core_ok H A s' /\ framed s s'.
Proof.
  intros [H1 H2 H3 H4 H5]. pose proof (filter_perm_split dead (index s)) as Hp. unfold remove_where.
  destruct (held_drop_votes (admission s) (filter (fun v => dead v = true) (index s))
    (H ++ (vote_holder <$> filter (fun v => dead v = false) (index s)))) as (a & E & Ha).
  { rewrite Hp in H1 at 1. rewrite fmap_app in H1. by rewrite Permutation_app_swap_app. }
  rewrite E, ret_bind. eexists. split_and!; [done| |done].
  assert (A ++ (v_admission <$> filter (fun v => dead v = false) (index s)) ++ logged s ⊆+
          A ++ (v_admission <$> index s) ++ logged s) as Hs.
  { apply submseteq_skips_l, submseteq_skips_r. rewrite Hp at 2. rewrite fmap_app. by apply submseteq_inserts_l. }
  destruct (submseteq_Permutation _ _ Hs) as [k Hk].
  constructor; cbn [set_index admission index aggregated].
  - exact Ha.
  - change (logged (set_index _ _ _)) with (logged s). rewrite Hk in H2. by apply NoDup_app in H2 as [? _].
  - change (logged (set_index _ _ _)) with (logged s). rewrite (drop_votes_next _ _ _ E). rewrite Hk in H3.
    by apply Forall_app in H3 as [? _].
  - by apply filter_sorted.
  - done.
Qed.

Lemma insert_vote_perm v l : insert_vote v l ≡ₚ v :: l.
Proof. induction l as [|x l IH]; [done|]. cbn. case_match; [done|]. rewrite IH. by constructor. Qed.

Lemma insert_vote_sorted v l : StronglySorted before l -> StronglySorted before (insert_vote v l).
Proof.
  induction 1 as [|x l Hs IH Hx]; [repeat constructor|]. cbn. destruct (Z.ltb_spec (v_received v) (v_received x)).
  - constructor; [by constructor|]. constructor; [unfold before; lia|]. eapply Forall_impl; [exact Hx|].
    unfold before. cbn. lia.
  - constructor; [done|]. rewrite insert_vote_perm. constructor; [unfold before; lia|done].
Qed.

Lemma insert_all vs l : foldl (fun l v => insert_vote v l) l vs ≡ₚ vs ++ l /\
  (StronglySorted before l -> StronglySorted before (foldl (fun l v => insert_vote v l) l vs)).
Proof.
  revert l; induction vs as [|v vs IH]; intros l; [done|]. cbn [foldl]. destruct (IH (insert_vote v l)) as [Hp Hs]. split.
  - rewrite Hp, insert_vote_perm. by rewrite <- Permutation_middle.
  - intros Hl. by apply Hs, insert_vote_sorted.
Qed.

Lemma core_queue H A now c s :
  core_ok (closure_holder c :: H) (c_ticket c :: A) s ->
  exists s', queue_for_later now (c_connection_id c) (c_msg c) (c_ticket c) s = Ok s' /\
    core_ok (closure_holder c :: H) A s' /\ framed s s'.
Proof.
  intros Hc. unfold queue_for_later, remove_before_lib.
  destruct (core_remove_where _ _ (fun v => vote_block_num v <=? lib s) s Hc) as (s1 & -> & Hc1 & F1). rewrite ret_bind.
  unfold remove_too_old.
  destruct (core_remove_where _ _ (fun v => v_received v <=? now - too_old) s1 Hc1) as (s2 & -> & Hc2 & F2). rewrite ret_bind.
  destruct Hc2 as [H1 H2 H3 H4 H5]. destruct (held_copy (admission s2) (closure_holder c) _ H1) as (a & E & Ha).
  { by apply elem_of_cons; left. }
  cbn [closure_holder fst] in E. rewrite E, ret_bind. eexists. split_and!; [done| |].
  - constructor; cbn [set_index admission index aggregated]; try done.
    + rewrite insert_vote_perm, fmap_cons. rewrite <- Permutation_middle. exact Ha.
    + change (logged (set_index _ _ _)) with (logged s2). rewrite insert_vote_perm, fmap_cons. cbn [v_admission].
      rewrite <- app_comm_cons, <- Permutation_middle. exact H2.
    + change (logged (set_index _ _ _)) with (logged s2). rewrite insert_vote_perm, fmap_cons. cbn [v_admission].
      rewrite <- app_comm_cons, <- Permutation_middle, (copy_ticket_next _ _ _ E). exact H3.
    + by apply insert_vote_sorted.
  - eapply framed_trans; [exact F1|exact F2].
Qed.

(** ** The steps keep it *)

Definition tasks_holders (ts : list task) : list (Z * Z) := ts ≫= task_holders.
Definition tasks_active (ts : list task) : list Z := ts ≫= task_active.

(** The outcome of a step: the invariant with the new tasks in place of the one
    that ran. *)
Definition stepped (H : list (Z * Z)) (A : list Z) (s : processor) (r : result (processor * list task)) : Prop :=
  exists s' new, r = Ok (s', new) /\ core_ok (tasks_holders new ++ H) (tasks_active new ++ A) s' /\
    framed s s' /\ Forall task_ok new /\ notifies new = 0.

Lemma finish_holders c : tasks_holders (finish c) = scan_holders c.
Proof. by destruct c. Qed.
Lemma finish_active c : tasks_active (finish c) = [].
Proof. by destruct c. Qed.
Lemma finish_ok c : Forall task_ok (finish c) /\ notifies (finish c) = 0.
Proof. destruct c; repeat constructor. Qed.

Lemma cached_block_id id s b : cached_block id s = Some b -> blk_id b = id.
Proof.
  unfold cached_block. destruct (last_bsp s) as [b0|]; [|done]. destruct (sha256_eqb (blk_id b0) id) eqn:E; [|done].
  intros [= <-]. by apply sha256_eqb_eq.
Qed.

Lemma core_admission H A s a : held_ok a (H ++ (vote_holder <$> index s)) -> next_ticket a = next_ticket (admission s) ->
  NoDup (A ++ (v_admission <$> index s) ++ logged s) ->
  Forall (fun id => id < next_ticket (admission s)) (A ++ (v_admission <$> index s) ++ logged s) ->
  StronglySorted before (index s) -> Forall (fun x => blk_id x.2 = msg_block_id (v_msg x.1)) (aggregated s) ->
  core_ok H A (set_admission a s).
Proof. intros Ha En H1 H2 H3 H4. constructor; cbn [set_admission admission index aggregated]; try done. by rewrite En. Qed.

(** Votes that a task gives up. *)
Lemma core_drop_votes H A vs A' s :
  core_ok ((vote_holder <$> vs) ++ H) (A' ++ A) s ->
  exists a, drop_votes vs (admission s) = Ok a /\ core_ok H A (set_admission a s).
Proof.
  intros [H1 H2 H3 H4 H5]. rewrite <- app_assoc in H1. destruct (held_drop_votes _ vs _ H1) as (a & E & Ha). exists a.
  split; [done|]. rewrite <- app_assoc in H2, H3.
  apply core_admission; [done|by eapply drop_votes_next| | |done|done].
  - by apply NoDup_app in H2 as (_ & _ & ?).
  - by apply Forall_app in H3 as [_ ?].
Qed.

Lemma scan_loop_ok H A c u s :
  core_ok (scan_holders c ++ (vote_holder <$> u) ++ H) ((v_admission <$> u) ++ A) s -> stepped H A s (scan_loop c u s).
Proof.
  intros Hc. unfold scan_loop, stepped. destruct (index s) as [|v rest] eqn:Ei.
  - destruct (insert_all u []) as [Hp Hs]. rewrite app_nil_r in Hp. eexists _, (finish c). rewrite finish_holders, finish_active.
    destruct (finish_ok c) as [Hf Hn]. split_and!; [done| |done|done|done].
    destruct Hc as [H1 H2 H3 H4 H5]. rewrite Ei in H1, H2, H3. cbn [fmap list_fmap app] in H1, H2, H3.
    constructor; cbn [set_index admission index aggregated]; change (logged (set_index _ _ _)) with (logged s).
    + rewrite Hp. rewrite app_nil_r in H1. rewrite <- app_assoc, (Permutation_app_comm H). exact H1.
    + rewrite Hp, app_assoc, (Permutation_app_comm A). exact H2.
    + rewrite Hp, app_assoc, (Permutation_app_comm A). exact H3.
    + apply Hs. constructor.
    + done.
  - destruct (stopped s).
    + destruct (core_drop_votes (scan_holders c ++ H) A u (v_admission <$> u) s) as (a & -> & Ha).
      { eapply core_weaken; [|done|exact Hc]. by rewrite Permutation_app_swap_app. }
      rewrite ret_bind. destruct (finish_ok c) as [Hf Hn]. eexists _, (finish c). rewrite finish_holders, finish_active.
      split_and!; [done|exact Ha|done|done|done].
    + assert (core_ok (scan_holders c ++ vote_holder v :: (vote_holder <$> u) ++ H)
        (v_admission v :: (v_admission <$> u) ++ A) (set_index rest (admission s) s)) as Hc'.
      { destruct Hc as [H1 H2 H3 H4 H5]. rewrite Ei in H1, H2, H3, H4. rewrite fmap_cons in H1. rewrite fmap_cons in H2. rewrite fmap_cons in H3.
        apply StronglySorted_inv in H4 as [H4 _].
        constructor; cbn [set_index admission index aggregated]; change (logged (set_index _ _ _)) with (logged s); try done.
        - rewrite <- Permutation_middle in H1. rewrite <- Permutation_middle. exact H1.
        - rewrite <- app_comm_cons, <- Permutation_middle in H2. exact H2.
        - rewrite <- app_comm_cons, <- Permutation_middle in H3. exact H3. }
      destruct (cached_block _ _) as [b|] eqn:Eb; eexists _, _; (split; [done|]);
        unfold tasks_holders, tasks_active; cbn [mbind list_bind task_holders task_active]; rewrite ?app_nil_r;
        (split_and!; [by rewrite <- app_assoc|done| |done]).
      * constructor; [|done]. by apply cached_block_id in Eb.
      * by constructor.
Qed.

Lemma stepped_framed H A s s' r : framed s s' -> stepped H A s' r -> stepped H A s r.
Proof.
  intros Hf (s2 & new & E & Hc & Hf' & Ht & Hn). exists s2, new. split_and!; [done|done| |done|done].
  by eapply framed_trans.
Qed.

Lemma scan_enter_ok H A now c s : core_ok (scan_holders c ++ H) A s -> stepped H A s (scan_enter now c s).
Proof.
  intros Hc. unfold scan_enter. destruct (is_empty (index s)).
  { destruct (finish_ok c) as [Hf Hn]. exists s, (finish c). by rewrite finish_holders, finish_active. }
  unfold remove_too_old, remove_before_lib.
  destruct (core_remove_where _ _ (fun v => v_received v <=? now - too_old) s Hc) as (s1 & -> & Hc1 & F1). rewrite ret_bind.
  destruct (core_remove_where _ _ (fun v => vote_block_num v <=? lib s1) s1 Hc1) as (s2 & -> & Hc2 & F2). rewrite ret_bind.
  eapply stepped_framed; [eapply framed_trans; [exact F1|exact F2]|]. by apply scan_loop_ok.
Qed.

(** Tasks that only move on. *)
Lemma stepped_move H A t s s' new :
  core_ok (task_holders t ++ H) (task_active t ++ A) s ->
  index s' = index s -> admission s' = admission s -> aggregated s' = aggregated s -> framed s s' ->
  tasks_holders new ≡ₚ task_holders t -> tasks_active new ⊆+ task_active t -> Forall task_ok new -> notifies new = 0 ->
  stepped H A s (mret (s', new)).
Proof.
  intros Hc Ei Ea El Hf Hh Hact Ht Hn. exists s', new. split_and!; [done| |done|done|done].
  assert (core_ok (tasks_holders new ++ H) (tasks_active new ++ A) s) as [H1 H2 H3 H4 H5].
  { eapply core_weaken; [|by apply submseteq_app|exact Hc]. by rewrite Hh. }
  constructor; unfold logged in *; rewrite ?Ei, ?Ea, ?El; done.
Qed.

(** [fetch_block_func] returns the block with the id. *)
Definition fetch_ok (f : sha256 -> option B) : Prop := forall id b, f id = Some b -> blk_id b = id.

(** A vote that is aggregated moves from the active votes to the log. *)
Lemma stepped_log H A s v b t new :
  core_ok (task_holders t ++ H) (task_active t ++ A) s -> blk_id b = msg_block_id (v_msg v) ->
  tasks_holders new ≡ₚ task_holders t -> task_active t ≡ₚ v_admission v :: tasks_active new -> Forall task_ok new ->
  notifies new = 0 -> stepped H A s (mret (log_vote v b s, new)).
Proof.
  intros [H1 H2 H3 H4 H5] Hb Hh Ha Ht Hn. eexists _, new. split_and!; [done| |done|done|done].
  assert ((tasks_active new ++ A) ++ (v_admission <$> index s) ++ logged (log_vote v b s) ≡ₚ
          (task_active t ++ A) ++ (v_admission <$> index s) ++ logged s) as Hp.
  { rewrite Ha. change (logged (log_vote v b s)) with (v_admission v :: logged s). cbn [app].
    by rewrite !app_assoc, <- Permutation_middle. }
  constructor; cbn [log_vote admission index aggregated]; rewrite ?Hp, ?Hh; try done. by constructor.
Qed.

(** Close the side conditions that computation decides. *)
Ltac move_task t := apply (stepped_move _ _ t); try done; try (by repeat constructor).

(** A new vote: its ticket is new. *)
Lemma admit_message_ok H A now connection_id msg s : core_ok H A s -> stepped H A s (mret (admit_message now connection_id msg s)).
Proof.
  intros Hc. unfold admit_message. destruct (acquire_ticket _ _ _) as [[id a]|] eqn:E.
  - destruct Hc as [H1 H2 H3 H4 H5]. destruct (held_acquire _ _ _ _ _ H1 E) as (-> & En & Ha).
    eexists _, _. split_and!; [done| |done|by repeat constructor|done].
    unfold tasks_holders, tasks_active. cbn [mbind list_bind task_holders task_active app closure_holder c_ticket c_connection_id].
    constructor; cbn [set_admission admission index aggregated]; try done; change (logged (set_admission a s)) with (logged s).
    + constructor; [|done]. intros Hin. eapply Forall_forall in H3; [|exact Hin]. cbn in H3. lia.
    + constructor; [lia|]. eapply Forall_impl; [exact H3|]. cbn. lia.
  - case_match; move_task (t_admit connection_id msg).
Qed.

Lemma run_task_ok H A now f t s :
  core_ok (task_holders t ++ H) (task_active t ++ A) s -> task_ok t -> fetch_ok f ->
  (match t with t_mark _ | t_notify => False | _ => True end) -> stepped H A s (run_task now f t s).
Proof.
  intros Hc Ht Hf Hm. destruct t; cbn [run_task]; try done.
  - unfold process_vote_message. repeat case_match; move_task (t_receive connection_id msg).
  - by apply admit_message_ok.
  - repeat case_match; move_task (t_process c).
    all: apply submseteq_nil_l.
  - case_match; move_task (t_lookup c). constructor; [by eapply cached_block_id|constructor].
  - destruct (f _) eqn:E; move_task (t_fetch c). constructor; [by apply Hf|constructor].
  - move_task (t_store c b).
  - destruct (core_queue H A now c s) as (s' & -> & Hc' & Hfr); [done|]. rewrite ret_bind. exists s', [t_finished c].
    split_and!; try done. repeat constructor.
  - apply (stepped_log _ _ _ _ _ (t_aggregate c b)); try done. repeat constructor.
  - case_match.
    + move_task (t_aggregated c).
    + by apply scan_enter_ok.
  - destruct (core_drop_votes (scan_holders c ++ (vote_holder <$> unprocessed) ++ H) ((v_admission <$> unprocessed) ++ A)
      (option_list current) [] s) as (a & -> & Ha).
    { eapply core_weaken; [|done|exact Hc]. cbn [task_holders]. by rewrite <- !app_assoc, Permutation_app_swap_app. }
    rewrite ret_bind. eapply stepped_framed; [|by apply scan_loop_ok]. done.
  - destruct (f _) as [b|] eqn:E; apply (stepped_move _ _ (t_scan_fetch c v unprocessed)); try done;
      unfold tasks_holders, tasks_active; cbn [mbind list_bind task_holders task_active]; rewrite ?app_nil_r; try done.
    + constructor; [by apply Hf|constructor].
    + cbn [option_list fmap list_fmap app]. by rewrite fmap_app, (Permutation_app_comm (vote_holder <$> unprocessed)).
    + by rewrite fmap_app, Permutation_app_comm.
    + repeat constructor.
  - apply (stepped_move _ _ (t_scan_store c v b unprocessed)); try done;
      unfold tasks_holders, tasks_active; cbn [mbind list_bind task_holders task_active]; rewrite ?app_nil_r; try done.
    by constructor.
  - apply (stepped_log _ _ _ _ _ (t_scan_aggregate c v b unprocessed)); try done;
      unfold tasks_holders, tasks_active; cbn [mbind list_bind task_holders task_active]; rewrite ?app_nil_r; try done.
    by constructor.
  - apply (stepped_move _ _ (t_signal c)); try done; case_match; rewrite ?finish_holders, ?finish_active; try done.
    + unfold tasks_holders. cbn. by rewrite app_nil_r.
    + apply finish_ok.
    + repeat constructor.
    + apply finish_ok.
  - by apply scan_enter_ok.
  - destruct Hc as [H1 H2 H3 H4 H5]. destruct (held_drop (admission s) (closure_holder c) _ H1) as (a & E & Ha).
    cbn [closure_holder fst] in E. rewrite E, ret_bind. exists (set_admission a s), []. split_and!; try done.
    apply core_admission; try done. by eapply drop_ticket_next.
Qed.

(** ** Every reachable state *)

Record processor_inv (s : processor) : Prop := {
  pi_tasks : core_ok (tasks_holders (tasks s)) (tasks_active (tasks s)) s;
  pi_task_ok : Forall task_ok (tasks s);
  pi_notify : notifies (tasks s) <= Z_of_bool (notification_pending s)
}.

(** Notifications that are pending without a handler. *)
Definition lost (s : processor) : Z := Z_of_bool (notification_pending s) - notifies (tasks s).
Definition is_discard (e : event) : bool := match e with ev_discard _ => true | _ => false end.

Definition event_ok (e : event) : Prop := match e with ev_run _ _ f => fetch_ok f | _ => True end.

Lemma notifies_app l k : notifies (l ++ k) = notifies l + notifies k.
Proof. unfold notifies, vsize. rewrite filter_app, length_app. lia. Qed.

(** The same state with its tasks in another order, or with other fields that
    the invariant does not mention. *)
Lemma core_tasks ts ts' s s' :
  ts ≡ₚ ts' -> index s' = index s -> admission s' = admission s -> aggregated s' = aggregated s ->
  core_ok (tasks_holders ts) (tasks_active ts) s -> core_ok (tasks_holders ts') (tasks_active ts') s'.
Proof.
  intros Hp Ei Ea El Hc. assert (core_ok (tasks_holders ts') (tasks_active ts') s) as [H1 H2 H3 H4 H5].
  { eapply core_weaken; [| |exact Hc]; unfold tasks_holders, tasks_active; by rewrite Hp. }
  constructor; unfold logged in *; rewrite ?Ei, ?Ea, ?El; done.
Qed.

Lemma take_drop_perm {T} (l : list T) i x : l !! i = Some x -> l ≡ₚ x :: take i l ++ drop (S i) l.
Proof. intros H. rewrite <- (take_drop_middle l i x H) at 1. by rewrite <- Permutation_middle. Qed.

Lemma notifies_cons t l : notifies (t :: l) = (if is_notify t then 1 else 0) + notifies l.
Proof. unfold notifies, vsize. rewrite filter_cons. destruct (is_notify t); [rewrite decide_True by done|rewrite decide_False by done];
  cbn [length]; lia. Qed.

Lemma notifies_perm l k : l ≡ₚ k -> notifies l = notifies k.
Proof. intros H. unfold notifies, vsize. by rewrite H. Qed.

Lemma tasks_cons_holders t l : tasks_holders (t :: l) = task_holders t ++ tasks_holders l.
Proof. done. Qed.
Lemma tasks_app_holders l k : tasks_holders (l ++ k) = tasks_holders l ++ tasks_holders k.
Proof. apply bind_app. Qed.
Lemma tasks_app_active l k : tasks_active (l ++ k) = tasks_active l ++ tasks_active k.
Proof. apply bind_app. Qed.

(** A task of the processor runs. *)
Lemma run_inv i now f s t :
  processor_inv s -> fetch_ok f -> tasks s !! i = Some t ->
  exists s', step (ev_run i now f) s = Ok s' /\ processor_inv s' /\ lost s' = lost s.
Proof.
  intros [Hc Ht Hn] Hf Hi. unfold lost. pose proof (take_drop_perm _ _ _ Hi) as Hp. cbn [step]. rewrite Hi.
  set (l := take i (tasks s) ++ drop (S i) (tasks s)) in *. set (s0 := set_tasks l s).
  apply (core_tasks _ (t :: l) s s0 Hp) in Hc; [|done|done|done]. rewrite Hp in Ht. apply Forall_cons in Ht as [Ht Hl].
  rewrite (notifies_perm _ _ Hp), notifies_cons in Hn |- *. rewrite tasks_cons_holders in Hc.
  change (tasks_active (t :: l)) with (task_active t ++ tasks_active l) in Hc.
  assert (match t with t_mark _ | t_notify => False | _ => True end \/ (exists c, t = t_mark c) \/ t = t_notify) as [Hm|[[c ->]| ->]]
    by (destruct t; eauto).
  - destruct (run_task_ok (tasks_holders l) (tasks_active l) now f t s0 Hc Ht Hf Hm) as (s' & new & -> & Hc' & (F1 & F2 & _) & Ho & Hz).
    rewrite ret_bind. eexists. split; [done|]. assert (is_notify t = false) as Hnt by (by destruct t). rewrite Hnt in *.
    cbn [set_tasks tasks notification_pending s0] in F1, F2.
    assert (notifies (tasks s' ++ new) = notifies l) as Hnl by (rewrite F1, notifies_app; lia).
    split; [|cbn [set_tasks tasks notification_pending]; rewrite Hnl, F2; lia]. constructor.
    + rewrite <- tasks_app_holders, <- tasks_app_active in Hc'. cbn [set_tasks tasks]. rewrite F1.
      apply (core_tasks (new ++ l) _ s'); [apply Permutation_app_comm|done|done|done|exact Hc'].
    + cbn [set_tasks tasks]. rewrite F1. apply Forall_app. done.
    + cbn [set_tasks tasks notification_pending]. rewrite Hnl, F2. lia.
  - cbn [run_task]. rewrite ret_bind. eexists. split; [done|]. cbn [is_notify] in Hn |- *. destruct (finish_ok c) as [Hfo Hfn].
    assert (notifies (l ++ (if notification_pending s then [] else [t_notify]) ++ finish c) =
            notifies l + 1 - Z_of_bool (notification_pending s)) as Hnl.
    { rewrite !notifies_app, Hfn. destruct (notification_pending s); change (notifies [t_notify]) with 1; change (notifies []) with 0; cbn; lia. }
    cbn [set_tasks set_notification tasks notification_pending s0] in *. rewrite Hnl. split; [|cbn [Z_of_bool]; lia].
    cbn [task_holders task_active] in Hc. constructor; cbn [set_tasks set_notification tasks notification_pending s0].
    + apply (core_tasks ((finish c ++ if notification_pending s then [] else [t_notify]) ++ l) _ s0); [|done|done|done|].
      * rewrite Permutation_app_comm. apply Permutation_app_head, Permutation_app_comm.
      * rewrite !tasks_app_holders, !tasks_app_active, finish_holders, finish_active.
        destruct (notification_pending s); cbn; rewrite ?app_nil_r; exact Hc.
    + apply Forall_app. split; [done|]. apply Forall_app. split; [|done]. destruct (notification_pending s); repeat constructor.
    + rewrite Hnl. cbn [Z_of_bool] in *. lia.
  - cbn [run_task]. rewrite ret_bind. eexists. split; [done|]. cbn [is_notify] in Hn |- *.
    assert (notification_pending s = true /\ notifies l = 0) as [Ep Ez].
    { pose proof (Nat2Z.is_nonneg (length (filter (fun t => is_notify t = true) l))). unfold notifies, vsize in *.
      destruct (notification_pending s); cbn [Z_of_bool] in Hn; [|lia]. split; [done|lia]. }
    assert (notifies (l ++ (if stopped s0 then [] else [t_scan_enter])) = 0) as Hnl by (rewrite notifies_app, Ez; by destruct (stopped s0)).
    cbn [set_tasks set_notification tasks notification_pending s0] in *. rewrite Ep, Ez, Hnl. split; [|done].
    constructor; cbn [set_tasks set_notification tasks notification_pending s0].
    + apply (core_tasks ((if stopped s then [] else [t_scan_enter]) ++ l) _ s0); [apply Permutation_app_comm|done|done|done|].
      rewrite tasks_app_holders, tasks_app_active. destruct (stopped s); exact Hc.
    + apply Forall_app. split; [done|]. destruct (stopped s0); [constructor|]. by constructor.
    + by rewrite Hnl.
Qed.

(** A handler is destroyed without running. *)
Lemma discard_inv i s : processor_inv s -> exists s', step (ev_discard i) s = Ok s' /\ processor_inv s'.
Proof.
  intros Hi. cbn [step]. destruct (tasks s !! i) as [[]|] eqn:E; try (by exists s).
  - pose proof Hi as [Hc Ht Hn]. pose proof (take_drop_perm _ _ _ E) as Hp. eexists. split; [done|].
    assert (take i (tasks s) ++ t_finished c :: drop (S i) (tasks s) ≡ₚ
            t_finished c :: take i (tasks s) ++ drop (S i) (tasks s)) as Hp' by (by rewrite <- Permutation_middle).
    constructor; cbn [set_tasks tasks notification_pending].
    + apply (core_tasks (t_finished c :: take i (tasks s) ++ drop (S i) (tasks s)) _ s); [by symmetry|done|done|done|].
      apply (core_tasks _ _ s s Hp) in Hc; [|done|done|done].
      eapply core_weaken; [done| |exact Hc]. apply submseteq_cons. done.
    + rewrite Hp'. rewrite Hp in Ht. apply Forall_cons in Ht as [_ Ht]. by constructor.
    + rewrite (notifies_perm _ _ Hp'). rewrite (notifies_perm _ _ Hp) in Hn. rewrite !notifies_cons in *. done.
  - pose proof Hi as [Hc Ht Hn]. pose proof (take_drop_perm _ _ _ E) as Hp. eexists. split; [done|].
    rewrite (notifies_perm _ _ Hp), notifies_cons in Hn. cbn [is_notify] in Hn.
    constructor; cbn [set_tasks tasks notification_pending]; [|by rewrite Hp in Ht; apply Forall_cons in Ht as [_ Ht]|lia].
    apply (core_tasks _ (t_notify :: take i (tasks s) ++ drop (S i) (tasks s)) s s Hp) in Hc; [|done|done|done].
    by apply (core_tasks (take i (tasks s) ++ drop (S i) (tasks s)) _ s).
Qed.

Lemma step_inv e s : processor_inv s -> event_ok e ->
  exists s', step e s = Ok s' /\ processor_inv s' /\ (is_discard e = false -> lost s' = lost s).
Proof.
  intros Hi He. destruct e as [| |n| |connection_id msg|i|i now f].
  5: { pose proof Hi as [Hc Ht Hn]. eexists. split; [done|]. unfold lost. cbn [set_tasks tasks notification_pending].
       rewrite notifies_app, Z.add_0_r. split; [|done]. constructor; cbn [set_tasks tasks notification_pending].
       - apply (core_tasks (t_receive connection_id msg :: tasks s) _ s); try done. apply Permutation_cons_append.
       - apply Forall_app. split; [done|repeat constructor].
       - by rewrite notifies_app, Z.add_0_r. }
  4: { pose proof Hi as [Hc Ht Hn]. eexists. split; [done|]. unfold lost. cbn [set_tasks tasks notification_pending].
       rewrite notifies_app, Z.add_0_r. split; [|done]. constructor; cbn [set_tasks tasks notification_pending].
       - apply (core_tasks (t_signal None :: tasks s) _ s); try done. apply Permutation_cons_append.
       - apply Forall_app. split; [done|repeat constructor].
       - by rewrite notifies_app, Z.add_0_r. }
  1,2,3: destruct Hi as [[H1 H2 H3 H4 H5] Ht Hn]; eexists; (split; [done|]); (split; [constructor; [by constructor|done|done]|done]).
  - destruct (discard_inv i s Hi) as (s' & E & Hi'). by exists s'.
  - destruct (tasks s !! i) as [t|] eqn:E; [|cbn [step]; rewrite E; by exists s].
    destruct (run_inv i now f s t Hi He E) as (s' & Es & Hi' & Hl). by exists s'.
Qed.

Lemma initial_inv : processor_inv initial_processor.
Proof.
  constructor; [|constructor|done]. constructor; try constructor.
  - apply empty_admission_inv, processor_limits_ok.
  - intros id. unfold uses. cbn [initial_processor admission empty_admission tickets]. by rewrite lookup_empty.
  - by intros h Hh%elem_of_nil.
Qed.

Lemma run_events_inv es s : processor_inv s -> Forall event_ok es ->
  exists s', run es s = Ok s' /\ processor_inv s' /\ (Forall (fun e => is_discard e = false) es -> lost s' = lost s).
Proof.
  intros Hi He. revert s Hi. induction He as [|e es He _ IH]; intros s Hi; cbn [run]; [by exists s|].
  destruct (step_inv e s Hi He) as (s1 & -> & Hi1 & Hl1). rewrite ret_bind. destruct (IH s1 Hi1) as (s2 & E & Hi2 & Hl2).
  exists s2. split_and!; [done|done|]. intros [Hd Hds]%Forall_cons. rewrite Hl2 by done. by apply Hl1.
Qed.

(** The votes that were admitted and are not done with: those of handlers, posted
    or running, of scans and those kept for later, each as the ticket and the
    connection.  A vote that a handler has just put aside is there twice. *)
Definition in_flight (s : processor) : list (Z * Z) := tasks_holders (tasks s) ++ (vote_holder <$> index s).
Definition in_flight_of (f : Z -> bool) (s : processor) : list Z :=
  remove_dups (filter (fun h => f h.2 = true) (in_flight s)).*1.

(** A ticket is held exactly as long as its vote is in flight. *)
Lemma in_flight_held f s : processor_inv s -> vsize (in_flight_of f s) = held f (live (admission s)).
Proof.
  intros [[[Hi Hu Hp] _ _ _ _] _ _]. unfold in_flight_of, held, vsize. f_equal.
  assert (list_to_set (remove_dups (filter (fun h : Z * Z => f h.2 = true) (in_flight s)).*1) =@{gset Z}
    dom (filter (fun kv : Z * Z => f kv.2 = true) (live (admission s)))) as E.
  { apply set_eq. intros id. rewrite elem_of_list_to_set, elem_of_remove_dups, list_elem_of_fmap, elem_of_dom. split.
    - intros (h & -> & Hh). apply list_elem_of_filter in Hh as [Hf Hh]. destruct (Hp h Hh) as [n Hn]. exists h.2.
      apply map_lookup_filter_Some. split; [|done]. by rewrite live_lookup, Hn.
    - intros [p Hl]. apply map_lookup_filter_Some in Hl as [Hl Hf]. rewrite live_lookup in Hl.
      destruct (tickets (admission s) !! id) as [[q n]|] eqn:Et; [|done]. injection Hl as ->.
      pose proof (ai_uses _ _ Hi id _ Et) as Hn. specialize (Hu id). unfold uses in Hu. rewrite Et in Hu. cbn [snd] in *.
      assert (exists h, h ∈ in_flight s /\ h.1 = id) as (h & Hh & <-).
      { unfold hold_count in Hu. destruct (filter (fun h : Z * Z => h.1 = id) (tasks_holders (tasks s) ++ (vote_holder <$> index s))) as [|h l] eqn:El;
          [unfold vsize in Hu; cbn in Hu; lia|].
        assert (h ∈ filter (fun h : Z * Z => h.1 = id) (in_flight s)) as Hh by (unfold in_flight; rewrite El; left).
        apply list_elem_of_filter in Hh as [? ?]. eauto. }
      exists h. split; [done|]. apply list_elem_of_filter. split; [|done]. destruct (Hp h Hh) as [n' Hn']. rewrite Et in Hn'. congruence. }
  rewrite <- size_dom, <- E. symmetry. apply size_list_to_set, NoDup_remove_dups.
Qed.

(** C27. Whatever peers, blocks and threads do: no step fails; every admitted vote
    holds a reservation of its connection for as long as it is in flight, in a
    posted or running handler, in a scan or kept for later, and reservations are
    not held for anything else; so the votes in flight and kept are within the
    budgets, 10000 of all peers, 2500 of each, 256 of the node itself (a flooding
    peer neither grows memory nor crowds out others); there is at most one
    handler for notifications that has not started its pass, and exactly one
    while a notification is pending, as long as the pools are not destroyed with
    handlers in them; the votes still to be aggregated and those that were are all
    different, so each is aggregated at most once, and into its own block. *)
Theorem vote_processor_reachable es :
  Forall event_ok es -> exists s, run es initial_processor = Ok s /\
    (forall h, h ∈ in_flight s -> exists n, tickets (admission s) !! h.1 = Some (h.2, n)) /\
    admission_size (admission s) = vsize (in_flight_of (fun _ => true) s) /\
    vsize (in_flight_of is_remote s) <= 10000 /\
    (forall p, vsize (in_flight_of (is_peer p) s) <= if p =? 0 then 256 else max_votes_per_connection) /\
    notifies (tasks s) <= Z_of_bool (notification_pending s) /\
    (Forall (fun e => is_discard e = false) es -> notifies (tasks s) = Z_of_bool (notification_pending s)) /\
    NoDup (tasks_active (tasks s) ++ (v_admission <$> index s) ++ logged s) /\
    Forall (fun x => blk_id x.2 = msg_block_id (v_msg x.1)) (aggregated s).
Proof.
  intros He. destruct (run_events_inv es initial_processor initial_inv He) as (s & E & Hinv & Hl).
  pose proof Hinv as [[[Hi Hu Hp] H2 H3 H4 H5] Ht Hn]. exists s. split; [done|].
  pose proof Hi as [[C1 C2 C3] [L1 L2 L3] _ _]. cbn [processor_limits global_limit local_limit peer_limit] in *.
  pose proof (held_nonneg is_remote (live (admission s))). pose proof (held_nonneg (is_peer 0) (live (admission s))).
  split_and!; [done| |by rewrite in_flight_held| |done| |done|done].
  - rewrite in_flight_held by done. unfold admission_size. rewrite C1, C2, u64_small, held_split by lia. unfold held.
    by rewrite map_filter_id by done.
  - intros p. rewrite in_flight_held by done. destruct (Z.eqb_spec p 0) as [->|Hp0]; [done|by apply L3].
  - intros Hd. specialize (Hl Hd). change (lost initial_processor) with 0 in Hl. unfold lost in Hl. lia.
Qed.

(** ** An undisturbed pass *)

Lemma run_app es es' s s1 : run es s = Ok s1 -> run (es ++ es') s = run es' s1.
Proof.
  revert s; induction es as [|e es IH]; intros s E; cbn [run app] in *; [by injection E as <-|].
  apply bind_Ok in E as (s2 & -> & E). rewrite ret_bind. by apply IH.
Qed.

Definition known (f : sha256 -> option B) (v : vote) : bool :=
  match f (msg_block_id (v_msg v)) with Some _ => true | None => false end.

(** The block that was used last is still there. *)
Definition cache_ok (f : sha256 -> option B) (s : processor) : Prop :=
  forall b, last_bsp s = Some b -> is_Some (f (blk_id b)).

Section Pass.
Variable now : Z.
Variable f : sha256 -> option B.
Hypothesis Hf : fetch_ok f.

Abbreviation pass n := (run (replicate n (ev_run 0 now f))).

Lemma pass_step s s1 n s' : step (ev_run 0 now f) s = Ok s1 -> pass n s1 = Ok s' -> pass (S n) s = Ok s'.
Proof. intros E1 E2. cbn [replicate run]. by rewrite E1, ret_bind. Qed.

(** The single task makes a step. *)
Lemma single_step s t s1 new :
  tasks s = [t] -> run_task now f t (set_tasks [] s) = Ok (s1, new) -> tasks s1 = [] ->
  step (ev_run 0 now f) s = Ok (set_tasks new s1).
Proof. intros Et E E1. cbn [step]. rewrite Et. cbn [take drop app lookup list_lookup]. rewrite E, ret_bind, E1. done. Qed.

Lemma ev_inv s s1 : processor_inv s -> step (ev_run 0 now f) s = Ok s1 -> processor_inv s1.
Proof.
  intros Hi E. destruct (step_inv _ _ Hi (Hf : event_ok (ev_run 0 now f))) as (x & Ex & Ix & _). rewrite E in Ex.
  by apply Ok_inj in Ex as <-.
Qed.

(** A vote that was taken out: it is aggregated when its block is known. *)
Lemma vote_looked_up s c v u :
  processor_inv s -> cache_ok f s ->
  tasks s = [t_scan_fetch c v u] \/ (exists b, tasks s = [t_scan_aggregate c v b u] /\ known f v = true) ->
  exists n s', pass n s = Ok s' /\ processor_inv s' /\ cache_ok f s' /\ stopped s' = stopped s /\ index s' = index s /\
    lib s' = lib s /\
    tasks s' = [if known f v then t_scan c (Some v) u else t_scan c None (u ++ [v])] /\
    (aggregated s').*1 = (if known f v then [v] else []) ++ (aggregated s).*1.
Proof.
  intros Hi Hc [Et|(b & Et & Hk)].
  - destruct (f (msg_block_id (v_msg v))) as [b|] eqn:Ef.
    + assert (known f v = true) as -> by (unfold known; by rewrite Ef).
      assert (step (ev_run 0 now f) s = Ok (set_tasks [t_scan_store c v b u] (set_tasks [] s))) as E1
        by (apply (single_step s _ _ _ Et); [cbn [run_task]; by rewrite Ef|done]).
      set (s1 := set_tasks _ _) in E1.
      assert (step (ev_run 0 now f) s1 = Ok (set_tasks [t_scan_aggregate c v b u] (set_bsp b (set_tasks [] s1)))) as E2
        by (apply (single_step s1 (t_scan_store c v b u)); done).
      set (s2 := set_tasks _ _) in E2.
      assert (step (ev_run 0 now f) s2 = Ok (set_tasks [t_scan c (Some v) u] (log_vote v b (set_tasks [] s2)))) as E3
        by (apply (single_step s2 (t_scan_aggregate c v b u)); done).
      exists 3%nat. eexists. split; [eapply pass_step, pass_step, pass_step; [exact E1|exact E2|exact E3|done]|].
      pose proof (ev_inv _ _ (ev_inv _ _ (ev_inv _ _ Hi E1) E2) E3).
      split_and!; try done. intros b' [= <-]. rewrite (Hf _ _ Ef), Ef. by eexists.
    + assert (known f v = false) as -> by (unfold known; by rewrite Ef).
      assert (step (ev_run 0 now f) s = Ok (set_tasks [t_scan c None (u ++ [v])] (set_tasks [] s))) as E1
        by (apply (single_step s _ _ _ Et); [cbn [run_task]; by rewrite Ef|done]).
      exists 1%nat. eexists. split; [by eapply pass_step; [exact E1|]|].
      pose proof (ev_inv _ _ Hi E1).
      split_and!; done.
  - rewrite Hk. assert (step (ev_run 0 now f) s = Ok (set_tasks [t_scan c (Some v) u] (log_vote v b (set_tasks [] s)))) as E1
      by (by apply (single_step s _ _ _ Et)).
    exists 1%nat. eexists. split; [by eapply pass_step; [exact E1|]|].
    pose proof (ev_inv _ _ Hi E1).
    split_and!; done.
Qed.

Lemma insert_vote_last v l : Forall (fun x => before x v) l -> insert_vote v l = l ++ [v].
Proof.
  induction 1 as [|x l Hx _ IH]; [done|]. cbn. unfold before in Hx. destruct (Z.ltb_spec (v_received v) (v_received x)); [lia|].
  by rewrite IH.
Qed.

Lemma sorted_app_le {T} (R : T -> T -> Prop) (k l : list T) x y : StronglySorted R (k ++ l) -> x ∈ k -> y ∈ l -> R x y.
Proof.
  induction k as [|z k IH]; intros Hs Hx Hy; [by apply elem_of_nil in Hx|]. cbn in Hs. apply StronglySorted_inv in Hs as [Hs Hz].
  apply elem_of_cons in Hx as [->|Hx]; [|by apply IH]. eapply Forall_forall in Hz; [exact Hz|]. apply elem_of_app. by right.
Qed.

Lemma insert_all_sorted l k : StronglySorted before (k ++ l) -> foldl (fun l v => insert_vote v l) k l = k ++ l.
Proof.
  revert k; induction l as [|v l IH]; intros k Hs; cbn [foldl]; [by rewrite app_nil_r|].
  rewrite insert_vote_last.
  - rewrite IH; by rewrite <- app_assoc.
  - apply Forall_forall. intros x Hx. eapply sorted_app_le; [exact Hs|done|by left].
Qed.

(** The loop, from any point of the index. *)
Lemma scan_pass rest : forall s c current u,
  processor_inv s -> cache_ok f s -> stopped s = false -> index s = rest -> tasks s = [t_scan c current u] ->
  exists n s', pass n s = Ok s' /\ processor_inv s' /\ tasks s' = finish c /\
    index s' = foldl (fun l v => insert_vote v l) [] (u ++ filter (fun v => known f v = false) rest) /\
    (aggregated s').*1 = rev (filter (fun v => known f v = true) rest) ++ (aggregated s).*1.
Proof.
  induction rest as [|v rest IH]; intros s c current u Hi Hc Hst Ex Et.
  - destruct (step_inv _ _ Hi (Hf : event_ok (ev_run 0 now f))) as (s1 & E1 & I1 & _). pose proof E1 as E1'.
    cbn [step] in E1. rewrite Et in E1. cbn [take drop app lookup list_lookup run_task] in E1.
    apply bind_Ok in E1 as ([s2 new] & E2 & E1). apply bind_Ok in E2 as (a & Ea & E2). unfold scan_loop in E2.
    cbn [set_tasks set_admission index] in E2. rewrite Ex in E2. apply Ok_inj in E2 as [= <- <-]. apply Ok_inj in E1 as <-.
    exists 1%nat. eexists. split; [by eapply pass_step; [exact E1'|]|]. split_and!; [done|done| |done].
    cbn [filter list_filter set_tasks set_index index]. by rewrite app_nil_r.
  - destruct (step_inv _ _ Hi (Hf : event_ok (ev_run 0 now f))) as (s1 & E1 & I1 & _). pose proof E1 as E1'.
    cbn [step] in E1. rewrite Et in E1. cbn [take drop app lookup list_lookup run_task] in E1.
    apply bind_Ok in E1 as ([s2 new] & E2 & E1). apply bind_Ok in E2 as (a & Ea & E2). unfold scan_loop in E2.
    cbn [set_tasks set_admission index stopped] in E2. rewrite Ex, Hst in E2.
    assert (index s1 = rest /\ stopped s1 = false /\ last_bsp s1 = last_bsp s /\ aggregated s1 = aggregated s /\
      (tasks s1 = [t_scan_fetch c v u] \/ (exists b, tasks s1 = [t_scan_aggregate c v b u] /\ known f v = true)))
      as (X1 & X2 & X3 & X4 & X5).
    { destruct (cached_block _ _) as [b|] eqn:Eb; apply Ok_inj in E2 as [= <- <-]; apply Ok_inj in E1 as <-;
        (split_and!; [done|done|done|done|]); [right|by left].
      exists b. split; [done|]. unfold cached_block in Eb.
      cbn [set_index set_admission set_tasks last_bsp] in Eb. destruct (last_bsp s) as [b0|] eqn:El; [|done]. destruct (sha256_eqb (blk_id b0) _) eqn:Es; [|done].
      apply sha256_eqb_eq in Es. destruct (Hc b0 El) as [y Hy]. rewrite Es in Hy. unfold known. by rewrite Hy. }
    destruct (vote_looked_up s1 c v u I1) as (n1 & s3 & P1 & I3 & C3 & S3 & X6 & _ & T3 & A3); [|done|].
    { intros b. rewrite X3. apply Hc. }
    destruct (IH s3 c (if known f v then Some v else None) (if known f v then u else u ++ [v])) as (n2 & s4 & P2 & I4 & T4 & X7 & A4);
      [done|done|congruence|congruence|rewrite T3; by destruct (known f v)|].
    exists (S n1 + n2)%nat, s4. split_and!; [|done|done| |].
    + rewrite replicate_add. cbn [replicate app run]. rewrite E1', ret_bind. rewrite (run_app _ _ _ _ P1). exact P2.
    + rewrite X7, filter_cons. destruct (known f v); [rewrite decide_False by done|rewrite decide_True by done]; [done|].
      by rewrite <- app_assoc.
    + rewrite A4, A3, X4, filter_cons. destruct (known f v); [rewrite decide_True by done|rewrite decide_False by done]; [|done].
      cbn [rev]. by rewrite <- app_assoc.
Qed.

Definition alive (s : processor) : list vote :=
  filter (fun v => (vote_block_num v <=? lib s) = false) (filter (fun v => (v_received v <=? now - too_old) = false) (index s)).

(** Entering the scan is a step of the loop after the removals. *)
Lemma scan_enter_as_loop s :
  processor_inv s -> tasks s = [t_scan_enter] -> index s <> [] ->
  exists s2, processor_inv s2 /\ tasks s2 = [t_scan None None []] /\ index s2 = alive s /\ stopped s2 = stopped s /\
    last_bsp s2 = last_bsp s /\ aggregated s2 = aggregated s /\ step (ev_run 0 now f) s = step (ev_run 0 now f) s2.
Proof.
  intros Hi Et Hx. pose proof Hi as [Hc Ht Hn]. rewrite Et in Hc.
  destruct (core_remove_where _ _ (fun v => v_received v <=? now - too_old) s Hc) as (s1 & E1 & C1 & F1).
  destruct (core_remove_where _ _ (fun v => vote_block_num v <=? lib s1) s1 C1) as (s2 & E2 & C2 & F2).
  unfold remove_where in E1, E2. apply bind_Ok in E1 as (a1 & D1 & E1). apply Ok_inj in E1 as <-.
  apply bind_Ok in E2 as (a2 & D2 & E2). apply Ok_inj in E2 as <-. cbn [set_index admission index lib] in D2, C2.
  exists (set_tasks [t_scan None None []] (set_index (alive s) a2 s)). split_and!; try done.
  - constructor; cbn [set_tasks tasks notification_pending set_index].
    + destruct C2 as [H1 H2 H3 H4 H5]. by constructor.
    + repeat constructor.
    + by rewrite Et in Hn.
  - cbn [step]. rewrite Et. cbn [take drop app lookup list_lookup set_tasks tasks run_task option_list drop_votes].
    unfold scan_enter. cbn [set_tasks index]. replace (is_empty (index s)) with false by (by destruct (index s)).
    unfold remove_too_old, remove_before_lib, remove_where. cbn [set_tasks set_index index admission lib].
    rewrite D1, !ret_bind. cbn [set_index set_tasks index admission lib]. rewrite D2, ret_bind. done.
Qed.

(** C28. No kept vote is forgotten: when a notification is handled undisturbed on
    a running processor, the pass ends after finitely many steps; every kept vote
    that is neither too old nor final and whose block is known is aggregated, in
    the order of arrival; the others stay kept, in that order. *)
Theorem notified_pass_complete es s :
  Forall event_ok es -> run es initial_processor = Ok s -> tasks s = [t_notify] -> stopped s = false -> cache_ok f s ->
  exists n s', pass n s = Ok s' /\ tasks s' = [] /\
    index s' = filter (fun v => known f v = false) (alive s) /\
    (aggregated s').*1 = rev (filter (fun v => known f v = true) (alive s)) ++ (aggregated s).*1.
Proof.
  intros He Er Et Hst Hc. destruct (run_events_inv es _ initial_inv He) as (x & Ex & Hi & _). rewrite Er in Ex. apply Ok_inj in Ex as <-.
  assert (step (ev_run 0 now f) s = Ok (set_tasks [t_scan_enter] (set_notification false (set_tasks [] s)))) as E1.
  { apply (single_step s t_notify _ _ Et); [cbn [run_task]; change (stopped (set_tasks [] s)) with (stopped s); by rewrite Hst|done]. }
  pose proof (ev_inv _ _ Hi E1) as I1. set (s1 := set_tasks _ _) in *.
  assert (alive s1 = alive s) as Ea by done. destruct (decide (index s = [])) as [Ei|Ei].
  - assert (step (ev_run 0 now f) s1 = Ok (set_tasks [] (set_tasks [] s1))) as E2.
    { apply (single_step s1 t_scan_enter); [done| |done]. cbn [run_task]. unfold scan_enter.
      change (index (set_tasks [] s1)) with (index s). by rewrite Ei. }
    exists 2%nat. eexists. split; [eapply pass_step, pass_step; [exact E1|exact E2|done]|].
    unfold alive. rewrite Ei. split_and!; [done|exact Ei|done].
  - destruct (scan_enter_as_loop s1 I1 eq_refl Ei) as (s2 & I2 & T2 & X2 & S2 & B2 & A2 & E2).
    destruct (scan_pass (alive s1) s2 None None [] I2) as (n & s' & P & I' & T' & X' & A'); try done.
    { intros b. rewrite B2. apply Hc. }
    { rewrite S2. exact Hst. }
    exists (S n), s'. split_and!; [|done| |].
    + eapply pass_step; [exact E1|]. destruct n as [|n]; [|exact (eq_trans (f_equal (fun r => r ≫= run (replicate n (ev_run 0 now f))) E2) P)].
      apply Ok_inj in P as <-. by rewrite T2 in T'.
    + rewrite X', app_nil_l. rewrite Ea. apply (insert_all_sorted _ []). cbn [app]. repeat apply filter_sorted.
      apply (ck_sorted _ _ _ (pi_tasks _ Hi)).
    + rewrite A', A2, Ea. done.
Qed.
End Pass.
End Processor.

(** ** A concrete run *)

(** Messages and blocks are their block ids. *)
Definition toy_block (n : Z) : sha256 := stamp_block_num (Sha256 0 0 0 n) n.
Definition toy_fetch (l : list sha256) (id : sha256) : option sha256 :=
  if existsb (sha256_eqb id) l then Some id else None.

Lemma toy_fetch_ok l : fetch_ok (B := sha256) id (toy_fetch l).
Proof. intros i b. unfold toy_fetch. destruct (existsb _ l); [|done]. by intros [= <-]. Qed.

(** Peer 7 votes for blocks 5 and 6 before they are known; then a new block is
    announced. *)
Definition toy_vote (n : Z) : list (event (M := sha256) (B := sha256)) :=
  ev_vote 7 (toy_block n) :: replicate 7 (ev_run 0 (1000000 * n) (toy_fetch [])).
Definition toy_events : list (event (M := sha256) (B := sha256)) :=
  ev_start :: toy_vote 5 ++ toy_vote 6 ++ [ev_new_block; ev_run 0 6500000 (toy_fetch []); ev_run 0 6500000 (toy_fetch [])].

Lemma toy_events_ok : Forall (event_ok (M := sha256) (B := sha256) id) toy_events.
Proof. repeat constructor; apply toy_fetch_ok. Qed.

Lemma vote_processor_reachable_witness :
  exists s, run id id num_from_id toy_events initial_processor = Ok s /\ vsize (index s) = 2 /\
    in_flight_of (is_peer 7) s = [0; 1] /\ vsize (in_flight_of (is_peer 7) s) <= max_votes_per_connection /\
    notifies (tasks s) = Z_of_bool (notification_pending s).
Proof.
  destruct (vote_processor_reachable id id num_from_id toy_events toy_events_ok) as (s & E & _ & _ & _ & Hb & _ & Hn & _).
  exists s. split; [exact E|].
  assert (match run id id num_from_id toy_events initial_processor with
          | Ok s => vsize (index s) = 2 /\ in_flight_of (is_peer 7) s = [0; 1] | Err _ => False end) as H
    by (vm_compute; split; reflexivity). rewrite E in H. destruct H as [H1 H2].
  split; [exact H1|]. split; [exact H2|]. split; [exact (Hb 7)|]. apply Hn. repeat constructor.
Defined.

(** The vote for block 5 is aggregated when that block is known. *)
Lemma notified_pass_complete_witness :
  exists s, run id id num_from_id toy_events initial_processor = Ok s /\
    exists n s', run id id num_from_id (replicate n (ev_run 0 7000000 (toy_fetch [toy_block 5]))) s = Ok s' /\
      v_msg <$> index s' = [toy_block 6] /\ v_msg <$> (aggregated s').*1 = [toy_block 5].
Proof.
  destruct (run id id num_from_id toy_events initial_processor) as [s|e] eqn:E; [|vm_compute in E; discriminate E].
  exists s. split; [reflexivity|].
  destruct (notified_pass_complete id id num_from_id 7000000 (toy_fetch [toy_block 5]) (toy_fetch_ok _) toy_events s
    toy_events_ok E) as (n & s' & P & _ & X & A).
  - vm_compute in E. injection E as <-. reflexivity.
  - vm_compute in E. injection E as <-. reflexivity.
  - vm_compute in E. injection E as <-. intros b Hb. discriminate Hb.
  - exists n, s'. split; [exact P|]. rewrite X, A. vm_compute in E. injection E as <-. split; vm_compute; reflexivity.
Defined.
