(* ===== verification/Whitelist.v ===== *)
(** The intrinsics that contracts may import (chain/whitelisted_intrinsics.hpp and
    whitelisted_intrinsics.cpp, genesis_intrinsics.cpp).

    The whitelist is a [flat_multimap] from the hash of a name to the name: the
    list of its entries in the order of the keys, in which an entry is inserted
    after those of the same key.  An iterator is the part of the list that starts
    at it, the empty list is [end].  [std::hash] is the variable [hash]; names
    may collide. *)
From Stdlib Require Import ZArith Lia ZifyBool Sorted.
From stdpp Require Import base tactics numbers list strings.
From S2P Require Import Prelude.
#[local] Open Scope Z_scope.

Definition whitelisted_intrinsics_type : Type := list (Z * string).

Definition genesis_intrinsics : list string := [
  "__ashrti3"; "__lshlti3"; "__lshrti3"; "__ashlti3"; "__divti3"; "__udivti3"; "__modti3"; "__umodti3";
  "__multi3"; "__addtf3"; "__subtf3"; "__multf3"; "__divtf3"; "__eqtf2"; "__netf2"; "__getf2"; "__gttf2";
  "__lttf2"; "__letf2"; "__cmptf2"; "__unordtf2"; "__negtf2"; "__floatsitf"; "__floatunsitf"; "__floatditf";
  "__floatunditf"; "__floattidf"; "__floatuntidf"; "__floatsidf"; "__extendsftf2"; "__extenddftf2";
  "__fixtfti"; "__fixtfdi"; "__fixtfsi"; "__fixunstfti"; "__fixunstfdi"; "__fixunstfsi"; "__fixsfti";
  "__fixdfti"; "__fixunssfti"; "__fixunsdfti"; "__trunctfdf2"; "__trunctfsf2"; "is_feature_active";
  "activate_feature"; "get_resource_limits"; "set_resource_limits"; "set_proposed_producers";
  "get_blockchain_parameters_packed"; "set_blockchain_parameters_packed"; "is_privileged"; "set_privileged";
  "get_active_producers"; "db_idx64_store"; "db_idx64_remove"; "db_idx64_update"; "db_idx64_find_primary";
  "db_idx64_find_secondary"; "db_idx64_lowerbound"; "db_idx64_upperbound"; "db_idx64_end"; "db_idx64_next";
  "db_idx64_previous"; "db_idx128_store"; "db_idx128_remove"; "db_idx128_update"; "db_idx128_find_primary";
  "db_idx128_find_secondary"; "db_idx128_lowerbound"; "db_idx128_upperbound"; "db_idx128_end";
  "db_idx128_next"; "db_idx128_previous"; "db_idx256_store"; "db_idx256_remove"; "db_idx256_update";
  "db_idx256_find_primary"; "db_idx256_find_secondary"; "db_idx256_lowerbound"; "db_idx256_upperbound";
  "db_idx256_end"; "db_idx256_next"; "db_idx256_previous"; "db_idx_double_store"; "db_idx_double_remove";
  "db_idx_double_update"; "db_idx_double_find_primary"; "db_idx_double_find_secondary";
  "db_idx_double_lowerbound"; "db_idx_double_upperbound"; "db_idx_double_end"; "db_idx_double_next";
  "db_idx_double_previous"; "db_idx_long_double_store"; "db_idx_long_double_remove";
  "db_idx_long_double_update"; "db_idx_long_double_find_primary"; "db_idx_long_double_find_secondary";
  "db_idx_long_double_lowerbound"; "db_idx_long_double_upperbound"; "db_idx_long_double_end";
  "db_idx_long_double_next"; "db_idx_long_double_previous"; "db_store_i64"; "db_update_i64"; "db_remove_i64";
  "db_get_i64"; "db_next_i64"; "db_previous_i64"; "db_find_i64"; "db_lowerbound_i64"; "db_upperbound_i64";
  "db_end_i64"; "assert_recover_key"; "recover_key"; "assert_sha256"; "assert_sha1"; "assert_sha512";
  "assert_ripemd160"; "sha1"; "sha256"; "sha512"; "ripemd160"; "check_transaction_authorization";
  "check_permission_authorization"; "get_permission_last_used"; "get_account_creation_time"; "current_time";
  "publication_time"; "abort"; "eosio_assert"; "eosio_assert_message"; "eosio_assert_code"; "eosio_exit";
  "read_action_data"; "action_data_size"; "current_receiver"; "require_recipient"; "require_auth";
  "require_auth2"; "has_auth"; "is_account"; "prints"; "prints_l"; "printi"; "printui"; "printi128";
  "printui128"; "printsf"; "printdf"; "printqf"; "printn"; "printhex"; "read_transaction";
  "transaction_size"; "expiration"; "tapos_block_prefix"; "tapos_block_num"; "get_action"; "send_inline";
  "send_context_free_inline"; "send_deferred"; "cancel_deferred"; "get_context_free_data"; "memcpy";
  "memmove"; "memcmp"; "memset"
]%string.

Fixpoint lower_bound (h : Z) (wl : whitelisted_intrinsics_type) : whitelisted_intrinsics_type :=
  match wl with
  | [] => []
  | e :: t => if e.1 <? h then lower_bound h t else wl
  end.

(** [emplace] of a [flat_multimap]: before the first entry with a greater key. *)
Fixpoint multimap_emplace (h : Z) (name : string) (wl : whitelisted_intrinsics_type) : whitelisted_intrinsics_type :=
  match wl with
  | [] => [(h, name)]
  | e :: t => if h <? e.1 then (h, name) :: wl else e :: multimap_emplace h name t
  end.

Definition multimap_erase (itr wl : whitelisted_intrinsics_type) : whitelisted_intrinsics_type :=
  take (length wl - length itr) wl ++ tail itr.

(** The result, and where the iterator stopped. *)
Fixpoint find_intrinsic_helper (h : Z) (name : string) (itr : whitelisted_intrinsics_type)
    : bool * whitelisted_intrinsics_type :=
  match itr with
  | [] => (false, [])
  | e :: t =>
      if e.1 =? h then if String.eqb e.2 name then (true, itr) else find_intrinsic_helper h name t
      else (false, itr)
  end.

Definition find_intrinsic (wl : whitelisted_intrinsics_type) (h : Z) (name : string) : whitelisted_intrinsics_type :=
  let '(found, itr) := find_intrinsic_helper h name (lower_bound h wl) in if found then itr else [].

(** [std::set<std::string>]: the names in increasing order. *)
Fixpoint set_emplace (name : string) (s : list string) : list string :=
  match s with
  | [] => [name]
  | x :: t =>
      match String.compare name x with
      | Lt => name :: s
      | Eq => s
      | Gt => x :: set_emplace name t
      end
  end.

Definition convert_intrinsic_whitelist_to_set (wl : whitelisted_intrinsics_type) : list string :=
  foldl (fun s p => set_emplace p.2 s) [] wl.

Section Whitelist.
Variable hash : string -> Z.

Definition is_intrinsic_whitelisted (wl : whitelisted_intrinsics_type) (name : string) : bool :=
  (find_intrinsic_helper (hash name) name (lower_bound (hash name) wl)).1.

Definition add_intrinsic_to_whitelist (wl : whitelisted_intrinsics_type) (name : string)
    : result whitelisted_intrinsics_type :=
  let h := hash name in
  let itr := find_intrinsic wl h name in
  _ ← EOS_ASSERT (is_empty itr) database_exception;
  mret (multimap_emplace h name wl).

Definition remove_intrinsic_from_whitelist (wl : whitelisted_intrinsics_type) (name : string)
    : result whitelisted_intrinsics_type :=
  let h := hash name in
  let itr := find_intrinsic wl h name in
  _ ← EOS_ASSERT (negb (is_empty itr)) database_exception;
  mret (multimap_erase itr wl).

Definition reset_intrinsic_whitelist (s : list string) : whitelisted_intrinsics_type :=
  foldl (fun wl name => multimap_emplace (hash name) name wl) [] s.

(** Several names, one after the other. *)
Fixpoint add_intrinsics (wl : whitelisted_intrinsics_type) (names : list string) : result whitelisted_intrinsics_type :=
  match names with
  | [] => mret wl
  | name :: names => wl ← add_intrinsic_to_whitelist wl name; add_intrinsics wl names
  end.

(** ** The whitelist is the set of its names *)

Record whitelist_ok (wl : whitelisted_intrinsics_type) : Prop := {
  wl_sorted : StronglySorted Z.le wl.*1;
  wl_hashed : Forall (fun e => e.1 = hash e.2) wl;
  wl_names : NoDup wl.*2
}.

Lemma whitelist_empty : whitelist_ok [].
Proof. split; [constructor|constructor|apply NoDup_nil_2]. Qed.

Lemma whitelist_cons e wl :
  whitelist_ok (e :: wl) <->
  e.1 = hash e.2 /\ Forall (fun x => e.1 <= x.1) wl /\ (e.2 ∉ wl.*2) /\ whitelist_ok wl.
Proof.
  split.
  - intros [Hs Hh Hn]. rewrite fmap_cons in Hs. rewrite fmap_cons in Hn. apply StronglySorted_inv in Hs as [Hs Hle].
    apply Forall_cons in Hh as [He Hh]. apply NoDup_cons in Hn as [Hne Hn].
    rewrite Forall_fmap in Hle. done.
  - intros (He & Hle & Hne & [Hs Hh Hn]). split; rewrite ?fmap_cons.
    + constructor; [done|]. by rewrite Forall_fmap.
    + by constructor.
    + by constructor.
Qed.

(** A search passes everything with a smaller hash. *)
Lemma find_helper_spec wl name :
  whitelist_ok wl ->
  match find_intrinsic_helper (hash name) name (lower_bound (hash name) wl) with
  | (true, itr) => exists l1 t, itr = (hash name, name) :: t /\ wl = l1 ++ itr
  | (false, _) => name ∉ wl.*2
  end.
Proof.
  induction wl as [|[h x] wl IH]; [intros _; apply not_elem_of_nil|].
  intros (He & Hle & Hx & Hwl)%whitelist_cons. specialize (IH Hwl). cbn [lower_bound fst snd] in *.
  destruct (Z.ltb_spec h (hash name)) as [Hlt|Hge].
  { destruct (find_intrinsic_helper _ _ (lower_bound _ wl)) as [[] itr].
    - destruct IH as (l1 & t & -> & ->). exists ((h, x) :: l1), t. done.
    - rewrite fmap_cons, not_elem_of_cons. split; [|done]. cbn. intros ->. lia. }
  assert (lower_bound (hash name) wl = wl) as El.
  { destruct wl as [|e wl]; [done|]. cbn. apply Forall_cons in Hle as [Hle _].
    destruct (Z.ltb_spec e.1 (hash name)); [lia|done]. }
  rewrite El in IH. cbn [find_intrinsic_helper fst snd]. destruct (Z.eqb_spec h (hash name)) as [Eh|Nh].
  - destruct (String.eqb_spec x name) as [->|Nx].
    + exists [], wl. subst h. done.
    + destruct (find_intrinsic_helper _ _ wl) as [[] itr].
      * destruct IH as (l1 & t & -> & ->). exists ((h, x) :: l1), t. done.
      * rewrite fmap_cons, not_elem_of_cons. done.
  - rewrite fmap_cons, not_elem_of_cons. cbn. split; [congruence|]. intros Hin.
    apply list_elem_of_fmap in Hin as (e & -> & Hin). rewrite Forall_forall in Hle.
    specialize (Hle _ Hin). pose proof (wl_hashed _ Hwl) as Hh. rewrite Forall_forall in Hh.
    specialize (Hh _ Hin). cbn in *. lia.
Qed.

Lemma find_intrinsic_found wl name :
  whitelist_ok wl -> name ∈ wl.*2 ->
  exists l1 t, find_intrinsic wl (hash name) name = (hash name, name) :: t /\ wl = l1 ++ (hash name, name) :: t.
Proof.
  intros Hw Hin. pose proof (find_helper_spec wl name Hw) as H. unfold find_intrinsic.
  destruct (find_intrinsic_helper _ _ _) as [[] itr]; [|done].
  destruct H as (l1 & t & -> & E). eauto.
Qed.

Lemma find_intrinsic_missing wl name :
  whitelist_ok wl -> name ∉ wl.*2 -> find_intrinsic wl (hash name) name = [].
Proof.
  intros Hw Hin. pose proof (find_helper_spec wl name Hw) as H. unfold find_intrinsic.
  destruct (find_intrinsic_helper _ _ _) as [[] itr]; [|done].
  destruct H as (l1 & t & -> & ->). destruct Hin. rewrite fmap_app, fmap_cons, elem_of_app, elem_of_cons. auto.
Qed.

Lemma whitelisted_iff wl name :
  whitelist_ok wl -> (is_intrinsic_whitelisted wl name = true <-> name ∈ wl.*2).
Proof.
  intros Hw. pose proof (find_helper_spec wl name Hw) as H. unfold is_intrinsic_whitelisted.
  destruct (find_intrinsic_helper _ _ _) as [[] itr]; cbn.
  - destruct H as (l1 & t & -> & ->). split; [|done]. intros _. rewrite fmap_app, fmap_cons, elem_of_app, elem_of_cons. auto.
  - split; [done|]. intros Hin. done.
Qed.

Lemma emplace_perm h name wl : multimap_emplace h name wl ≡ₚ (h, name) :: wl.
Proof.
  induction wl as [|e wl IH]; cbn; [done|]. destruct (h <? e.1); [done|]. rewrite IH. apply perm_swap.
Qed.

Lemma emplace_ok wl name :
  whitelist_ok wl -> name ∉ wl.*2 -> whitelist_ok (multimap_emplace (hash name) name wl).
Proof.
  induction wl as [|e wl IH]; intros Hw Hn; cbn.
  { apply whitelist_cons. cbn. split_and!; [done|constructor|apply not_elem_of_nil|apply whitelist_empty]. }
  pose proof Hw as (He & Hle & Hx & Hwl)%whitelist_cons. rewrite fmap_cons, not_elem_of_cons in Hn.
  destruct (Z.ltb_spec (hash name) e.1).
  - apply whitelist_cons. cbn. split_and!; [done| |rewrite not_elem_of_cons; tauto|done].
    constructor; [lia|]. eapply Forall_impl; [exact Hle|]. cbn. lia.
  - apply whitelist_cons. split_and!; [done| | |apply IH; tauto].
    + rewrite emplace_perm. by constructor.
    + rewrite emplace_perm, fmap_cons, not_elem_of_cons. cbn. split; [|done]. intros E. destruct Hn as [Hn _]. by apply Hn.
Qed.

Lemma add_intrinsics_ok wl names :
  whitelist_ok wl -> NoDup names -> (forall n, n ∈ names -> n ∉ wl.*2) ->
  exists wl', add_intrinsics wl names = Ok wl' /\ whitelist_ok wl' /\ wl'.*2 ≡ₚ names ++ wl.*2.
Proof.
  revert wl; induction names as [|n names IH]; intros wl Hw Hd Hn; cbn [add_intrinsics]; [eauto|].
  apply NoDup_cons in Hd as [Hnn Hd]. unfold add_intrinsic_to_whitelist.
  rewrite find_intrinsic_missing by (done || apply Hn; constructor).
  rewrite EOS_ASSERT_true, !ret_bind by done.
  destruct (IH (multimap_emplace (hash n) n wl)) as (wl' & E & Hw' & Hp); [|done| |].
  - apply emplace_ok; [done|]. apply Hn. constructor.
  - intros m Hm. rewrite emplace_perm, fmap_cons, not_elem_of_cons. cbn. split; [by intros ->|].
    apply Hn. by constructor.
  - exists wl'. split_and!; [done|done|]. rewrite Hp, emplace_perm, fmap_cons. cbn.
    symmetry. apply Permutation_middle.
Qed.

Lemma add_intrinsic_refused wl name :
  whitelist_ok wl -> name ∈ wl.*2 -> add_intrinsic_to_whitelist wl name = Err database_exception.
Proof.
  intros Hw Hin. unfold add_intrinsic_to_whitelist.
  by destruct (find_intrinsic_found wl name Hw Hin) as (l1 & t & -> & _).
Qed.

Lemma remove_intrinsic_ok wl name :
  whitelist_ok wl ->
  if bool_decide (name ∈ wl.*2)
  then exists wl', remove_intrinsic_from_whitelist wl name = Ok wl' /\ whitelist_ok wl' /\ wl.*2 ≡ₚ name :: wl'.*2
  else remove_intrinsic_from_whitelist wl name = Err database_exception.
Proof.
  intros Hw. unfold remove_intrinsic_from_whitelist. case_bool_decide as Hin.
  - destruct (find_intrinsic_found wl name Hw Hin) as (l1 & t & -> & E).
    rewrite EOS_ASSERT_true, ret_bind by done. exists (l1 ++ t). unfold multimap_erase. cbn [tail].
    assert (take (length wl - length ((hash name, name) :: t)) wl = l1) as ->.
    { rewrite E, length_app. rewrite take_app_le by lia. apply take_ge. lia. }
    split; [done|]. subst wl. destruct Hw as [Hs Hh Hn]. split.
    + split.
      * rewrite !fmap_app, fmap_cons in *. clear -Hs. induction l1 as [|e l1 IH]; cbn in *.
        { by apply StronglySorted_inv in Hs as [? _]. }
        apply StronglySorted_inv in Hs as [Hs Hf]. constructor; [by apply IH|].
        rewrite Forall_app, Forall_cons in Hf. rewrite Forall_app. tauto.
      * rewrite Forall_app, Forall_cons in Hh. rewrite Forall_app. tauto.
      * rewrite !fmap_app, fmap_cons in *. rewrite <- Permutation_middle in Hn. by apply NoDup_cons in Hn as [_ ?].
    + rewrite !fmap_app, fmap_cons. symmetry. apply Permutation_middle.
  - by rewrite find_intrinsic_missing.
Qed.

(** *** Snapshots *)

Lemma set_emplace_elem n s x : x ∈ set_emplace n s <-> x = n \/ x ∈ s.
Proof.
  induction s as [|y s IH]; cbn; [by rewrite list_elem_of_singleton, elem_of_nil; tauto|].
  destruct (String.compare n y) eqn:E; rewrite ?elem_of_cons, ?IH, ?elem_of_cons; [|tauto..].
  apply String.compare_eq_iff in E as ->. tauto.
Qed.

Lemma set_emplace_NoDup n s : NoDup s -> n ∉ s -> NoDup (set_emplace n s).
Proof.
  induction s as [|y s IH]; cbn; intros Hs Hn; [by repeat constructor|].
  destruct (String.compare n y); [done|by constructor|].
  apply NoDup_cons in Hs as [Hy Hs]. rewrite not_elem_of_cons in Hn. constructor; [|apply IH; tauto].
  rewrite set_emplace_elem. intros [->|?]; tauto.
Qed.

Lemma convert_spec (wl : whitelisted_intrinsics_type) s :
  NoDup wl.*2 -> NoDup s -> (forall n, n ∈ wl.*2 -> n ∉ s) ->
  NoDup (foldl (fun s p => set_emplace p.2 s) s wl) /\
  forall n, n ∈ foldl (fun s p => set_emplace p.2 s) s wl <-> n ∈ s \/ n ∈ wl.*2.
Proof.
  revert s; induction wl as [|e wl IH]; intros s Hw Hs Hd; cbn [foldl].
  { split; [done|]. intros n. rewrite fmap_nil, elem_of_nil. tauto. }
  rewrite fmap_cons in Hw. setoid_rewrite fmap_cons in Hd. apply NoDup_cons in Hw as [He Hw].
  destruct (IH (set_emplace e.2 s)) as [H1 H2].
  - done.
  - apply set_emplace_NoDup; [done|]. apply Hd. constructor.
  - intros n Hn. rewrite set_emplace_elem. intros [->|Hin]; [done|]. revert Hin. apply Hd. by constructor.
  - split; [done|]. intros n. rewrite H2, set_emplace_elem, fmap_cons, elem_of_cons. tauto.
Qed.

Lemma reset_ok s (wl : whitelisted_intrinsics_type) :
  whitelist_ok wl -> NoDup s -> (forall n, n ∈ s -> n ∉ wl.*2) ->
  let wl' := foldl (fun wl name => multimap_emplace (hash name) name wl) wl s in
  whitelist_ok wl' /\ wl'.*2 ≡ₚ s ++ wl.*2.
Proof.
  revert wl; induction s as [|n s IH]; intros wl Hw Hs Hd; cbn [foldl]; [done|].
  apply NoDup_cons in Hs as [Hn Hs]. destruct (IH (multimap_emplace (hash n) n wl)) as [H1 H2]; [|done| |].
  - apply emplace_ok; [done|]. apply Hd. constructor.
  - intros m Hm. rewrite emplace_perm, fmap_cons, not_elem_of_cons. split; [cbn; by intros ->|].
    apply Hd. by constructor.
  - split; [done|]. rewrite H2, emplace_perm, fmap_cons. symmetry. apply Permutation_middle.
Qed.

(** Writing the whitelist to a snapshot and reading it back keeps its names. *)
Lemma snapshot_whitelist wl :
  whitelist_ok wl ->
  whitelist_ok (reset_intrinsic_whitelist (convert_intrinsic_whitelist_to_set wl)) /\
  (reset_intrinsic_whitelist (convert_intrinsic_whitelist_to_set wl)).*2 ≡ₚ wl.*2.
Proof.
  intros Hw. pose proof (wl_names _ Hw) as Hn. unfold convert_intrinsic_whitelist_to_set.
  destruct (convert_spec wl [] Hn ltac:(apply NoDup_nil_2) ltac:(intros; apply not_elem_of_nil)) as [H1 H2].
  destruct (reset_ok _ [] whitelist_empty H1 ltac:(intros; apply not_elem_of_nil)) as [H3 H4].
  split; [done|]. unfold reset_intrinsic_whitelist. rewrite H4, fmap_nil, app_nil_r.
  apply NoDup_Permutation; [done|done|]. intros n. rewrite H2, elem_of_nil. tauto.
Qed.
End Whitelist.
