(* ===== verification/ProtocolFeatures.v ===== *)
(** Protocol features (chain/protocol_feature_manager.hpp and .cpp): the built-in
    features, their digests, the set of features a node recognizes and how it is
    put together from files and defaults when the node starts.  What is activated
    is in FeatureManager.v.

    The hash function is the parameter [sha].  [std::set] and [flat_set] are
    lists in the order of their elements; an iterator into the set is the element
    it points to, [end] is [None].  The table of features is an [unordered_map]:
    the order in which a loop visits it is a parameter.  The code is that of a
    build without ENABLE_DEFERRED_TRANSACTION, where the features about deferred
    transactions are not in the table.  Logging is left out. *)
From Stdlib Require Import ZArith Lia ZifyBool Sorted Ascii.
From stdpp Require Import base tactics numbers list strings sorting.
From S2P Require Import Prelude Digest Raw BlockHeader.
#[local] Open Scope Z_scope.

(** ** Hexadecimal digests (libfc/src/crypto/hex.cpp) *)

Definition from_hex_char (c : Ascii.ascii) : result Z :=
  let c := Z.of_nat (Ascii.nat_of_ascii c) in
  if (48 <=? c) && (c <=? 57) then mret (c - 48)
  else if (97 <=? c) && (c <=? 102) then mret (c - 97 + 10)
  else if (65 <=? c) && (c <=? 70) then mret (c - 65 + 10)
  else Err fc_exception.

(** [from_hex(str, out, out_data_len)]: the bytes written. *)
Fixpoint from_hex (s : string) (out_data_len : nat) : result (list Z) :=
  match out_data_len, s with
  | S n, String a (String b s) =>
      h ← from_hex_char a; l ← from_hex_char b; t ← from_hex s n;
      mret (Z.lor (u8 (Z.shiftl h 4)) l :: t)
  | S n, String a EmptyString => h ← from_hex_char a; mret [u8 (Z.shiftl h 4)]
  | _, _ => mret []
  end.

(** [variant.as<digest_type>()] of a string: the bytes it denotes, copied to the
    front of the digest, which was zero. *)
Definition digest_of_hex (s : string) : result sha256 :=
  _ ← EOS_ASSERT (Nat.even (String.length s)) fc_assert_exception;
  bytes ← from_hex s (Nat.div (String.length s) 2);
  '(d, _) ← unpack_sha256 (take 32 bytes ++ replicate (32 - length bytes) 0);
  mret d.

(** ** Features *)

Inductive builtin_protocol_feature_t : Type :=
| bf_preactivate_feature
| bf_only_link_to_existing_permission
| bf_replace_deferred
| bf_no_duplicate_deferred_id
| bf_fix_linkauth_restriction
| bf_disallow_empty_producer_schedule
| bf_restrict_action_to_self
| bf_only_bill_first_authorizer
| bf_forward_setcode
| bf_get_sender
| bf_ram_restrictions
| bf_webauthn_key
| bf_wtmsig_block_signatures
| bf_action_return_value
| bf_blockchain_parameters
| bf_get_code_hash
| bf_configurable_wasm_limits
| bf_crypto_primitives
| bf_get_block_num
| bf_bls_primitives
| bf_disable_deferred_trxs_stage_1
| bf_disable_deferred_trxs_stage_2
| bf_savanna
| bf_action_data_to_json
| bf_block_reference_data
| bf_producer_slot_stats
| bf_gas_fee_totals
| bf_producer_slot_stats_v2
| bf_reserved_private_fork_protocol_features.

#[global] Instance builtin_protocol_feature_eq_dec : EqDecision builtin_protocol_feature_t.
Proof. solve_decision. Defined.

(** The value of the enumerator, which is what comparisons and digests see. *)
Definition builtin_value (f : builtin_protocol_feature_t) : Z :=
  match f with
  | bf_preactivate_feature => 0
  | bf_only_link_to_existing_permission => 1
  | bf_replace_deferred => 2
  | bf_no_duplicate_deferred_id => 3
  | bf_fix_linkauth_restriction => 4
  | bf_disallow_empty_producer_schedule => 5
  | bf_restrict_action_to_self => 6
  | bf_only_bill_first_authorizer => 7
  | bf_forward_setcode => 8
  | bf_get_sender => 9
  | bf_ram_restrictions => 10
  | bf_webauthn_key => 11
  | bf_wtmsig_block_signatures => 12
  | bf_action_return_value => 13
  | bf_blockchain_parameters => 16
  | bf_get_code_hash => 17
  | bf_configurable_wasm_limits => 18
  | bf_crypto_primitives => 19
  | bf_get_block_num => 20
  | bf_bls_primitives => 21
  | bf_disable_deferred_trxs_stage_1 => 22
  | bf_disable_deferred_trxs_stage_2 => 23
  | bf_savanna => 24
  | bf_action_data_to_json => 100
  | bf_block_reference_data => 101
  | bf_producer_slot_stats => 102
  | bf_gas_fee_totals => 103
  | bf_producer_slot_stats_v2 => 104
  | bf_reserved_private_fork_protocol_features => 500000
  end.

(** [flat_set<builtin_protocol_feature_t>]. *)
Fixpoint builtin_insert (f : builtin_protocol_feature_t) (l : list builtin_protocol_feature_t)
    : list builtin_protocol_feature_t :=
  match l with
  | [] => [f]
  | x :: t =>
      if builtin_value f <? builtin_value x then f :: l
      else if builtin_value x <? builtin_value f then x :: builtin_insert f t
      else l
  end.
Definition builtin_set (l : list builtin_protocol_feature_t) : list builtin_protocol_feature_t :=
  foldl (fun s f => builtin_insert f s) [] l.

Record protocol_feature_subjective_restrictions : Type := SubjectiveRestrictions {
  sr_earliest_allowed_activation_time : Z;
  sr_preactivation_required : bool;
  sr_enabled : bool
}.
Definition default_restrictions : protocol_feature_subjective_restrictions := SubjectiveRestrictions 0 true true.

Record builtin_protocol_feature_spec : Type := BuiltinSpec {
  spec_codename : string;
  spec_description_digest : sha256;
  spec_builtin_dependencies : list builtin_protocol_feature_t;
  spec_subjective_restrictions : protocol_feature_subjective_restrictions
}.

Definition digest_literal (s : string) : sha256 :=
  match digest_of_hex s with Ok d => d | Err _ => sha256_zero end.

Definition builtin_protocol_feature_codenames : list (builtin_protocol_feature_t * builtin_protocol_feature_spec) := [
  (bf_preactivate_feature, BuiltinSpec "PREACTIVATE_FEATURE"
    (digest_literal "64fe7df32e9b86be2b296b3f81dfd527f84e82b98e363bc97e40bc7a83733310")
    [] (SubjectiveRestrictions 0 false true));
  (bf_only_link_to_existing_permission, BuiltinSpec "ONLY_LINK_TO_EXISTING_PERMISSION"
    (digest_literal "f3c3d91c4603cde2397268bfed4e662465293aab10cd9416db0d442b8cec2949")
    [] default_restrictions);
  (bf_fix_linkauth_restriction, BuiltinSpec "FIX_LINKAUTH_RESTRICTION"
    (digest_literal "a98241c83511dc86c857221b9372b4aa7cea3aaebc567a48604e1d3db3557050")
    [] default_restrictions);
  (bf_disallow_empty_producer_schedule, BuiltinSpec "DISALLOW_EMPTY_PRODUCER_SCHEDULE"
    (digest_literal "2853617cec3eabd41881eb48882e6fc5e81a0db917d375057864b3befbe29acd")
    [] default_restrictions);
  (bf_restrict_action_to_self, BuiltinSpec "RESTRICT_ACTION_TO_SELF"
    (digest_literal "e71b6712188391994c78d8c722c1d42c477cf091e5601b5cf1befd05721a57f3")
    [] default_restrictions);
  (bf_only_bill_first_authorizer, BuiltinSpec "ONLY_BILL_FIRST_AUTHORIZER"
    (digest_literal "2f1f13e291c79da5a2bbad259ed7c1f2d34f697ea460b14b565ac33b063b73e2")
    [] default_restrictions);
  (bf_forward_setcode, BuiltinSpec "FORWARD_SETCODE"
    (digest_literal "898082c59f921d0042e581f00a59d5ceb8be6f1d9c7a45b6f07c0e26eaee0222")
    [] default_restrictions);
  (bf_get_sender, BuiltinSpec "GET_SENDER"
    (digest_literal "1eab748b95a2e6f4d7cb42065bdee5566af8efddf01a55a0a8d831b823f8828a")
    [] default_restrictions);
  (bf_ram_restrictions, BuiltinSpec "RAM_RESTRICTIONS"
    (digest_literal "1812fdb5096fd854a4958eb9d53b43219d114de0e858ce00255bd46569ad2c68")
    [] default_restrictions);
  (bf_webauthn_key, BuiltinSpec "WEBAUTHN_KEY"
    (digest_literal "927fdf78c51e77a899f2db938249fb1f8bb38f4e43d9c1f75b190492080cbc34")
    [] default_restrictions);
  (bf_wtmsig_block_signatures, BuiltinSpec "WTMSIG_BLOCK_SIGNATURES"
    (digest_literal "ab76031cad7a457f4fd5f5fca97a3f03b8a635278e0416f77dcc91eb99a48e10")
    [] default_restrictions);
  (bf_action_return_value, BuiltinSpec "ACTION_RETURN_VALUE"
    (digest_literal "69b064c5178e2738e144ed6caa9349a3995370d78db29e494b3126ebd9111966")
    [] default_restrictions);
  (bf_configurable_wasm_limits, BuiltinSpec "CONFIGURABLE_WASM_LIMITS2"
    (digest_literal "8139e99247b87f18ef7eae99f07f00ea3adf39ed53f4d2da3f44e6aa0bfd7c62")
    [] default_restrictions);
  (bf_blockchain_parameters, BuiltinSpec "BLOCKCHAIN_PARAMETERS"
    (digest_literal "70787548dcea1a2c52c913a37f74ce99e6caae79110d7ca7b859936a0075b314")
    [] default_restrictions);
  (bf_get_code_hash, BuiltinSpec "GET_CODE_HASH"
    (digest_literal "d2596697fed14a0840013647b99045022ae6a885089f35a7e78da7a43ad76ed4")
    [] default_restrictions);
  (bf_crypto_primitives, BuiltinSpec "CRYPTO_PRIMITIVES"
    (digest_literal "68d6405cb8df3de95bd834ebb408196578500a9f818ff62ccc68f60b932f7d82")
    [] default_restrictions);
  (bf_get_block_num, BuiltinSpec "GET_BLOCK_NUM"
    (digest_literal "e5d7992006e628a38c5e6c28dd55ff5e57ea682079bf41fef9b3cced0f46b491")
    [] default_restrictions);
  (bf_bls_primitives, BuiltinSpec "BLS_PRIMITIVES2"
    (digest_literal "c0cce5bcd8ea19a28d9e12eafda65ebe6d0e0177e280d4f20c7ad66dcd9e011b")
    [] default_restrictions);
  (bf_savanna, BuiltinSpec "SAVANNA"
    (digest_literal "01a8bebb4922c38293a8909668f7d00ba4a21a455c69719ad7dcc33ea1e631c0")
    (builtin_set [
        bf_only_link_to_existing_permission; bf_fix_linkauth_restriction;
        bf_disallow_empty_producer_schedule; bf_restrict_action_to_self;
        bf_only_bill_first_authorizer; bf_forward_setcode; bf_get_sender; bf_ram_restrictions;
        bf_webauthn_key; bf_wtmsig_block_signatures; bf_action_return_value;
        bf_configurable_wasm_limits; bf_blockchain_parameters; bf_get_code_hash; bf_crypto_primitives;
        bf_get_block_num; bf_bls_primitives]) default_restrictions);
  (bf_action_data_to_json, BuiltinSpec "ACTION_DATA_TO_JSON"
    (digest_literal "980dbdaf3f7113763b62acebfd33b21b71f925f57e64b78bfd932b356190bdb1")
    [] default_restrictions);
  (bf_block_reference_data, BuiltinSpec "BLOCK_REFERENCE_DATA"
    (digest_literal "6fe9ee791b80476589a767b93d01ba778c5f774d366e8f377140d96cb7b3e28c")
    [] default_restrictions);
  (bf_producer_slot_stats, BuiltinSpec "PRODUCER_SLOT_STATS"
    (digest_literal "e2ebbbc97cde24e7acd17d94dac5c2580c38e3759facc3e1196a6ed9eb97934c")
    [] default_restrictions);
  (bf_gas_fee_totals, BuiltinSpec "GAS_FEE_TOTALS"
    (digest_literal "4f547f190fb9393c446690c93524fed3d1dab6bc2ccb72a2f2f63b06db82dd55")
    [] default_restrictions);
  (bf_producer_slot_stats_v2, BuiltinSpec "PRODUCER_SLOT_STATS_V2"
    (digest_literal "31ba9a3e812b9781346ebf9fe624f006c9fac141bd380293014aeab220c8d158")
    (builtin_set [bf_producer_slot_stats]) default_restrictions)
]%string.

Definition find_spec (c : builtin_protocol_feature_t) : option builtin_protocol_feature_spec :=
  (fun x => x.2.2) <$> list_find (fun e => e.1 = c) builtin_protocol_feature_codenames.

Definition builtin_protocol_feature_codename (c : builtin_protocol_feature_t) : result string :=
  match find_spec c with
  | None => Err protocol_feature_validation_exception
  | Some spec => mret (spec_codename spec)
  end.

Inductive protocol_feature_t : Type := builtin.
Definition protocol_feature_value (t : protocol_feature_t) : Z := match t with builtin => 0 end.

(** [builtin_protocol_feature] with the members of its base class. *)
Record builtin_protocol_feature : Type := BuiltinProtocolFeature {
  protocol_feature_type : string;
  bpf_description_digest : sha256;
  bpf_dependencies : list sha256;
  bpf_subjective_restrictions : protocol_feature_subjective_restrictions;
  bpf_type : protocol_feature_t;
  builtin_feature_codename : string;
  bpf_codename : builtin_protocol_feature_t
}.

Definition feature_type_string : string := "builtin".

(** The constructor. *)
Definition make_builtin_protocol_feature (codename : builtin_protocol_feature_t) (description_digest : sha256)
    (dependencies : list sha256) (restrictions : protocol_feature_subjective_restrictions)
    : result builtin_protocol_feature :=
  match find_spec codename with
  | None => Err protocol_feature_validation_exception
  | Some spec =>
      mret (BuiltinProtocolFeature feature_type_string description_digest dependencies restrictions builtin
              (spec_codename spec) codename)
  end.

(** [reflector_init], after the members were read from a file: [order] is the
    order in which the loop visits the table. *)
Definition bpf_reflector_init (order : list (builtin_protocol_feature_t * builtin_protocol_feature_spec))
    (f : builtin_protocol_feature) : result builtin_protocol_feature :=
  _ ← EOS_ASSERT (String.eqb (protocol_feature_type f) feature_type_string) protocol_feature_validation_exception;
  match list_find (fun p => spec_codename p.2 = builtin_feature_codename f) order with
  | None => Err protocol_feature_validation_exception
  | Some (_, p) =>
      mret (BuiltinProtocolFeature (protocol_feature_type f) (bpf_description_digest f) (bpf_dependencies f)
              (bpf_subjective_restrictions f) builtin (builtin_feature_codename f) p.1)
  end.

Record protocol_feature : Type := ProtocolFeature {
  feature_digest : sha256;
  pf_description_digest : sha256;
  pf_dependencies : list sha256;
  earliest_allowed_activation_time : Z;
  preactivation_required : bool;
  enabled : bool;
  builtin_feature : option builtin_protocol_feature_t
}.

(** ** The set of recognized features *)

Record protocol_feature_set : Type := ProtocolFeatureSet {
  recognized_protocol_features : list protocol_feature;
  recognized_builtin_protocol_features : list (option protocol_feature)
}.
Definition empty_feature_set : protocol_feature_set := ProtocolFeatureSet [] [].

(** [find] and [insert] of the [std::set], which is ordered by the digests. *)
Definition find_feature (d : sha256) (l : list protocol_feature) : option protocol_feature :=
  snd <$> list_find (fun f => feature_digest f = d) l.

Fixpoint insert_feature (f : protocol_feature) (l : list protocol_feature) : option (list protocol_feature) :=
  match l with
  | [] => Some [f]
  | x :: t =>
      if sha256_ltb (feature_digest f) (feature_digest x) then Some (f :: l)
      else if sha256_ltb (feature_digest x) (feature_digest f) then (x ::.) <$> insert_feature f t
      else None
  end.

Inductive recognized_t : Type := unrecognized | disabled | too_early | ready.

Definition is_recognized (pfs : protocol_feature_set) (d : sha256) (now : Z) : recognized_t :=
  match find_feature d (recognized_protocol_features pfs) with
  | None => unrecognized
  | Some f =>
      if negb (enabled f) then disabled
      else if now <? earliest_allowed_activation_time f then too_early
      else ready
  end.

Definition get_builtin_digest (pfs : protocol_feature_set) (c : builtin_protocol_feature_t) : option sha256 :=
  match recognized_builtin_protocol_features pfs !! Z.to_nat (builtin_value c) with
  | Some (Some f) => Some (feature_digest f)
  | _ => None
  end.

Definition get_protocol_feature (pfs : protocol_feature_set) (d : sha256) : result protocol_feature :=
  match find_feature d (recognized_protocol_features pfs) with
  | None => Err protocol_feature_exception
  | Some f => mret f
  end.

Definition validate_dependencies (pfs : protocol_feature_set) (d : sha256) (validator : sha256 -> bool) : bool :=
  match find_feature d (recognized_protocol_features pfs) with
  | None => false
  | Some f => forallb validator (pf_dependencies f)
  end.

(** [make_default_builtin_protocol_feature]; [handle_dependency] works on the
    state [S] of its closure. *)
Definition make_default_builtin_protocol_feature {S} (codename : builtin_protocol_feature_t)
    (handle_dependency : S -> builtin_protocol_feature_t -> result (sha256 * S)) (s : S)
    : result (builtin_protocol_feature * S) :=
  match find_spec codename with
  | None => Err protocol_feature_validation_exception
  | Some spec =>
      '(dependencies, s) ← fold_result (fun '(deps, s) d =>
          '(digest, s) ← handle_dependency s d; mret (flat_insert digest deps, s))
        (spec_builtin_dependencies spec) ([], s);
      f ← make_builtin_protocol_feature codename (spec_description_digest spec) dependencies
            (spec_subjective_restrictions spec);
      mret (f, s)
  end.

Section Features.
Variable sha : list Z -> sha256.

Definition bpf_digest (f : builtin_protocol_feature) : result sha256 :=
  a ← pack (UInt (n := 4) (protocol_feature_value (bpf_type f)));
  b ← pack (bpf_description_digest f);
  c ← pack (bpf_dependencies f);
  d ← pack (UInt (n := 4) (builtin_value (bpf_codename f)));
  mret (sha (a ++ b ++ c ++ d)).

(** The loop of [add_feature] over the dependencies: the expected built-in
    features among them. *)
Definition satisfied_dependencies (recognized : list protocol_feature)
    (expected : list builtin_protocol_feature_t) (dependencies : list sha256) : result (list builtin_protocol_feature_t) :=
  fold_result (fun satisfied d =>
      match find_feature d recognized with
      | None => Err protocol_feature_exception
      | Some f =>
          mret match builtin_feature f with
               | Some c => if bool_decide (c ∈ expected) then builtin_insert c satisfied else satisfied
               | None => satisfied
               end
      end) dependencies [].

Definition add_feature (pfs : protocol_feature_set) (f : builtin_protocol_feature)
    : result (protocol_feature_set * protocol_feature) :=
  match find_spec (bpf_codename f) with
  | None => Err protocol_feature_validation_exception
  | Some spec =>
      let indx := Z.to_nat (builtin_value (bpf_codename f)) in
      let builtins := recognized_builtin_protocol_features pfs in
      _ ← EOS_ASSERT (match builtins !! indx with Some (Some _) => false | _ => true end) protocol_feature_exception;
      feature_digest ← bpf_digest f;
      let expected := spec_builtin_dependencies spec in
      satisfied ← satisfied_dependencies (recognized_protocol_features pfs) expected (bpf_dependencies f);
      _ ← (if (length satisfied <? length expected)%nat then
             let missing := filter (fun c => c ∉ satisfied) expected in
             _ ← fold_result (fun _ c => match find_spec c with None => Err protocol_feature_exception | Some _ => mret tt end)
                   missing tt;
             Err protocol_feature_validation_exception
           else mret tt);
      let pf := ProtocolFeature feature_digest (bpf_description_digest f) (bpf_dependencies f)
                  (sr_earliest_allowed_activation_time (bpf_subjective_restrictions f))
                  (sr_preactivation_required (bpf_subjective_restrictions f))
                  (sr_enabled (bpf_subjective_restrictions f)) (Some (bpf_codename f)) in
      match insert_feature pf (recognized_protocol_features pfs) with
      | None => Err protocol_feature_exception
      | Some recognized =>
          let builtins := builtins ++ replicate (S indx - length builtins) None in
          mret (ProtocolFeatureSet recognized (<[indx := Some pf]> builtins), pf)
      end
  end.
(** ** Building the set at the start of the node *)

(** The entries of the directory with the features' files: the path, whether it
    is a regular file with the extension .json, and what the JSON parser reads
    from it. *)
Record directory_entry : Type := DirectoryEntry {
  de_path : string;
  de_json_file : bool;
  de_content : result builtin_protocol_feature
}.

Definition read_builtin_protocol_feature (order : list (builtin_protocol_feature_t * builtin_protocol_feature_spec))
    (content : result builtin_protocol_feature) : option builtin_protocol_feature :=
  match (f ← content; bpf_reflector_init order f) with Ok f => Some f | Err _ => None end.

(** [std::map<digest_type, ...>::emplace]. *)
Fixpoint features_emplace (d : sha256) (f : builtin_protocol_feature) (l : list (sha256 * builtin_protocol_feature))
    : list (sha256 * builtin_protocol_feature) :=
  match l with
  | [] => [(d, f)]
  | x :: t =>
      if sha256_ltb d x.1 then (d, f) :: l
      else if sha256_ltb x.1 d then x :: features_emplace d f t
      else l
  end.

(** What the loop over the directory finds: [found_builtin_protocol_features] and
    [builtin_protocol_features_to_add]. *)
Definition read_directory (order : list (builtin_protocol_feature_t * builtin_protocol_feature_spec))
    (directory : list directory_entry)
    : result (list (builtin_protocol_feature_t * string) * list (sha256 * builtin_protocol_feature)) :=
  fold_result (fun '(found, to_add) e =>
      if negb (de_json_file e) then mret (found, to_add)
      else match read_builtin_protocol_feature order (de_content e) with
           | None => mret (found, to_add)
           | Some f =>
               _ ← EOS_ASSERT (bool_decide (bpf_codename f ∉ found.*1)) plugin_exception;
               d ← bpf_digest f;
               mret ((bpf_codename f, de_path e) :: found, features_emplace d f to_add)
           end) directory ([], []).

(** The state that the recursive closures share: the set, the digests of
    [builtin_protocol_features_to_add] that were visited, [visited_builtins]. *)
Record init_state : Type := InitState {
  is_pfs : protocol_feature_set;
  is_visited : list sha256;
  is_builtins : list (builtin_protocol_feature_t * option sha256)
}.

Definition find_visited (c : builtin_protocol_feature_t) (l : list (builtin_protocol_feature_t * option sha256))
    : option (option sha256) :=
  (fun x => x.2.2) <$> list_find (fun e => e.1 = c) l.
Definition emplace_visited (c : builtin_protocol_feature_t) (d : option sha256)
    (l : list (builtin_protocol_feature_t * option sha256)) : list (builtin_protocol_feature_t * option sha256) :=
  match find_visited c l with None => (c, d) :: l | Some _ => l end.
Definition assign_visited (c : builtin_protocol_feature_t) (d : sha256)
    (l : list (builtin_protocol_feature_t * option sha256)) : list (builtin_protocol_feature_t * option sha256) :=
  (fun e => if bool_decide (e.1 = c) then (e.1, Some d) else e) <$> l.

(** The closure [add_protocol_feature].  A feature is marked before its
    dependencies are visited, so the depth is bounded by the number of
    features. *)
Fixpoint add_protocol_feature (fuel : nat) (to_add : list (sha256 * builtin_protocol_feature)) (st : init_state)
    (itr : sha256 * builtin_protocol_feature) : result init_state :=
  match fuel with
  | O => Err undefined_behavior
  | S fuel =>
      if bool_decide (itr.1 ∈ is_visited st) then mret st
      else
        let st := InitState (is_pfs st) (itr.1 :: is_visited st)
                    (emplace_visited (bpf_codename itr.2) (Some itr.1) (is_builtins st)) in
        st ← fold_result (fun st d =>
               match list_find (fun e => e.1 = d) to_add with
               | Some (_, itr2) => add_protocol_feature fuel to_add st itr2
               | None => mret st
               end) (bpf_dependencies itr.2) st;
        '(pfs, _) ← add_feature (is_pfs st) itr.2;
        mret (InitState pfs (is_visited st) (is_builtins st))
  end.

Definition with_enabled (b : bool) (f : builtin_protocol_feature) : builtin_protocol_feature :=
  let r := bpf_subjective_restrictions f in
  BuiltinProtocolFeature (protocol_feature_type f) (bpf_description_digest f) (bpf_dependencies f)
    (SubjectiveRestrictions (sr_earliest_allowed_activation_time r) (sr_preactivation_required r) b)
    (bpf_type f) (builtin_feature_codename f) (bpf_codename f).

Variable populate_missing_builtins : bool.
Variable file_exists : string -> bool.

(** [output_protocol_feature]: only the check can throw, a failed write is
    logged. *)
Definition output_protocol_feature (f : builtin_protocol_feature) : result unit :=
  codename ← builtin_protocol_feature_codename (bpf_codename f);
  EOS_ASSERT (negb (file_exists ("BUILTIN-" +:+ codename +:+ ".json")%string)) plugin_exception.

(** The closure [add_missing_builtins].  [visited_builtins] has an entry for
    every feature under way, so the depth is bounded by the size of the table. *)
Fixpoint add_missing_builtins (fuel : nat) (st : init_state) (codename : builtin_protocol_feature_t)
    : result (sha256 * init_state) :=
  match fuel with
  | O => Err undefined_behavior
  | S fuel =>
      match find_visited codename (is_builtins st) with
      | Some None => Err protocol_feature_exception
      | Some (Some d) => mret (d, st)
      | None =>
          let st := InitState (is_pfs st) (is_visited st) ((codename, None) :: is_builtins st) in
          '(f, st) ← make_default_builtin_protocol_feature codename (add_missing_builtins fuel) st;
          let f := if populate_missing_builtins then f else with_enabled false f in
          '(pfs, pf) ← add_feature (is_pfs st) f;
          let st := InitState pfs (is_visited st) (assign_visited codename (feature_digest pf) (is_builtins st)) in
          _ ← (if populate_missing_builtins then output_protocol_feature f else mret tt);
          mret (feature_digest pf, st)
      end
  end.

(** [order] is the order in which the loops visit the table; [path_exists] and
    [path_is_directory] are about the path of the directory. *)
Definition initialize_protocol_features (order : list (builtin_protocol_feature_t * builtin_protocol_feature_spec))
    (path_exists path_is_directory : bool) (directory : list directory_entry) : result protocol_feature_set :=
  _ ← (if path_exists then EOS_ASSERT path_is_directory plugin_exception else mret tt);
  '(found, to_add) ← read_directory order (if path_exists then directory else []);
  st ← fold_result (add_protocol_feature (S (length to_add)) to_add) to_add (InitState empty_feature_set [] []);
  st ← fold_result (fun st p =>
         if bool_decide (p.1 ∈ found.*1) then mret st
         else '(_, st) ← add_missing_builtins (S (length order)) st p.1; mret st) order st;
  mret (is_pfs st).
End Features.
