(* ===== verification/FeatureSet.v ===== *)
(** The set of recognized protocol features: what [add_feature] keeps, and that a
    node without feature files recognizes every feature of the table with the
    digest its definition gives, in whatever order the table is visited. *)
From Stdlib Require Import ZArith Lia ZifyBool Sorted.
From stdpp Require Import base tactics numbers list strings.
From S2P Require Import Prelude Digest Raw BlockHeader ProtocolFeatures.
#[local] Open Scope Z_scope.
#[local] Opaque sha256_key.

(** ** The ordered sets *)

Abbreviation feature_key := (fun f : protocol_feature => sha256_key (feature_digest f)).

Lemma find_feature_Some d l f : find_feature d l = Some f -> f ∈ l /\ feature_digest f = d.
Proof.
  unfold find_feature. destruct (list_find _ l) as [[i x]|] eqn:E; [|done].
  intros [= <-]. apply list_find_Some in E as (Hl & Hd & _). split; [by eapply list_elem_of_lookup_2|done].
Qed.

Lemma find_feature_None d l : find_feature d l = None -> forall f, f ∈ l -> feature_digest f <> d.
Proof.
  unfold find_feature. destruct (list_find _ l) as [?|] eqn:E; [done|]. intros _ f Hf.
  apply list_find_None in E. rewrite Forall_forall in E. by apply E.
Qed.

Lemma find_feature_unique l f :
  NoDup (feature_digest <$> l) -> f ∈ l -> find_feature (feature_digest f) l = Some f.
Proof.
  intros Hd Hf. destruct (find_feature (feature_digest f) l) as [g|] eqn:E.
  - apply find_feature_Some in E as [Hg E]. f_equal. apply list_elem_of_lookup in Hf as [i Hi].
    apply list_elem_of_lookup in Hg as [j Hj].
    assert (i = j) as ->; [|congruence]. eapply (NoDup_lookup _ i j (feature_digest f) Hd).
    + by rewrite list_lookup_fmap, Hi.
    + rewrite list_lookup_fmap, Hj. cbn. by rewrite E.
  - by destruct (find_feature_None _ _ E f Hf).
Qed.

Lemma insert_feature_spec f l :
  StronglySorted Z.lt (feature_key <$> l) ->
  match insert_feature f l with
  | Some l' => l' ≡ₚ f :: l /\ StronglySorted Z.lt (feature_key <$> l') /\ feature_key f ∉ feature_key <$> l
  | None => feature_key f ∈ feature_key <$> l
  end.
Proof.
  induction l as [|x l IH]; intros Hs; cbn [insert_feature].
  { split_and!; [done|repeat constructor|apply not_elem_of_nil]. }
  pose proof Hs as Hs0. rewrite fmap_cons in Hs. apply StronglySorted_inv in Hs as [Hs Hx]. unfold sha256_ltb.
  destruct (Z.ltb_spec (sha256_key (feature_digest f)) (sha256_key (feature_digest x))) as [H1|H1].
  { split_and!; [done| |].
    - rewrite fmap_cons. constructor; [done|]. rewrite fmap_cons. constructor; [done|].
      eapply Forall_impl; [exact Hx|]. cbn beta. intros k Hk. lia.
    - rewrite fmap_cons, not_elem_of_cons. split; [cbn beta; lia|]. intros Hin. rewrite Forall_forall in Hx.
      specialize (Hx _ Hin). cbn beta in Hx. lia. }
  destruct (Z.ltb_spec (sha256_key (feature_digest x)) (sha256_key (feature_digest f))) as [H2|H2].
  - specialize (IH Hs). destruct (insert_feature f l) as [l'|]; cbn.
    + destruct IH as (Hp & Hs' & Hn). split_and!.
      * by rewrite Hp, perm_swap.
      * constructor; [done|]. apply Forall_forall. intros k Hk. change (k ∈ feature_key <$> l') in Hk. rewrite Hp, fmap_cons in Hk.
        apply elem_of_cons in Hk as [->|Hk]; [done|]. rewrite Forall_forall in Hx. by apply Hx.
      * rewrite not_elem_of_cons. split; [cbn beta; lia|done].
    + by constructor.
  - rewrite fmap_cons. replace (feature_key f) with (feature_key x) by (cbn; lia). constructor.
Qed.

Lemma sorted_digests l : StronglySorted Z.lt (feature_key <$> l) -> NoDup (feature_digest <$> l).
Proof.
  intros Hs. assert (NoDup (sha256_key <$> (feature_digest <$> l))) as H.
  { apply key_sorted_NoDup. unfold key_sorted. by rewrite <- list_fmap_compose. }
  by apply NoDup_fmap_1 in H.
Qed.

(** ** Sets of built-in features *)

#[global] Instance builtin_value_inj : Inj (=) (=) builtin_value.
Proof. by intros [] []. Qed.

Lemma builtin_value_nat a b : Z.to_nat (builtin_value a) = Z.to_nat (builtin_value b) -> a = b.
Proof. intros H. apply (inj builtin_value). by destruct a, b. Qed.

Lemma builtin_insert_elem f l c : c ∈ builtin_insert f l <-> c = f \/ c ∈ l.
Proof.
  induction l as [|x l IH]; cbn [builtin_insert]; [by rewrite list_elem_of_singleton, elem_of_nil; tauto|].
  destruct (Z.ltb_spec (builtin_value f) (builtin_value x)); [rewrite elem_of_cons; tauto|].
  destruct (Z.ltb_spec (builtin_value x) (builtin_value f)); rewrite !elem_of_cons; [rewrite IH; tauto|].
  assert (f = x) as -> by (apply (inj builtin_value); lia). tauto.
Qed.

Lemma builtin_insert_NoDup f l : StronglySorted Z.lt (builtin_value <$> l) -> StronglySorted Z.lt (builtin_value <$> builtin_insert f l).
Proof.
  induction l as [|x l IH]; intros Hs; cbn [builtin_insert]; [repeat constructor|].
  pose proof Hs as Hs0. rewrite fmap_cons in Hs. apply StronglySorted_inv in Hs as [Hs Hx].
  destruct (Z.ltb_spec (builtin_value f) (builtin_value x)).
  - rewrite fmap_cons. constructor; [done|]. rewrite fmap_cons. constructor; [done|].
    eapply Forall_impl; [exact Hx|]. cbn. lia.
  - destruct (Z.ltb_spec (builtin_value x) (builtin_value f)); [|done]. rewrite fmap_cons. constructor; [by apply IH|].
    rewrite Forall_fmap in Hx |- *. apply Forall_forall. intros c Hc. apply builtin_insert_elem in Hc as [->|Hc]; [done|].
    rewrite Forall_forall in Hx. by apply Hx.
Qed.

Lemma sorted_builtins l : StronglySorted Z.lt (builtin_value <$> l) -> NoDup l.
Proof.
  induction l as [|x l IH]; intros Hs; [apply NoDup_nil_2|]. rewrite fmap_cons in Hs.
  apply StronglySorted_inv in Hs as [Hs Hx]. constructor; [|by apply IH]. intros Hin.
  rewrite Forall_fmap, Forall_forall in Hx. specialize (Hx _ Hin). cbn in Hx. lia.
Qed.

(** ** The invariant of the set *)

(** What is known of a recognized feature: it is one of the table, everything it
    depends on is recognized, and the dependencies the table demands are among
    its own. *)
Record feature_ok (recognized : list protocol_feature) (f : protocol_feature) : Prop := {
  fo_builtin : exists c spec, builtin_feature f = Some c /\ find_spec c = Some spec /\
    forall b, b ∈ spec_builtin_dependencies spec ->
      exists g, g ∈ recognized /\ builtin_feature g = Some b /\ feature_digest g ∈ pf_dependencies f;
  fo_dependencies : forall d, d ∈ pf_dependencies f -> exists g, g ∈ recognized /\ feature_digest g = d
}.

Record feature_set_ok (pfs : protocol_feature_set) : Prop := {
  fs_sorted : StronglySorted Z.lt (feature_key <$> recognized_protocol_features pfs);
  fs_builtins : forall i f, recognized_builtin_protocol_features pfs !! i = Some (Some f) <->
    f ∈ recognized_protocol_features pfs /\ exists c, builtin_feature f = Some c /\ i = Z.to_nat (builtin_value c);
  fs_features : forall f, f ∈ recognized_protocol_features pfs -> feature_ok (recognized_protocol_features pfs) f
}.

Lemma empty_feature_set_ok : feature_set_ok empty_feature_set.
Proof.
  split; cbn; [constructor| |by intros f Hf%elem_of_nil].
  intros i f. rewrite lookup_nil, elem_of_nil. naive_solver.
Qed.

Lemma feature_ok_mono l1 l2 f : (forall g, g ∈ l1 -> g ∈ l2) -> feature_ok l1 f -> feature_ok l2 f.
Proof.
  intros Hl [(c & spec & Hc & Hs & Hb) Hd]. split.
  - exists c, spec. split_and!; [done|done|]. intros b Hin. destruct (Hb b Hin) as (g & ? & ?). eauto.
  - intros d Hin. destruct (Hd d Hin) as (g & ? & ?). eauto.
Qed.

(** Every entry of the table lists its dependencies in order. *)
Lemma table_sorted c spec :
  find_spec c = Some spec -> StronglySorted Z.lt (builtin_value <$> spec_builtin_dependencies spec).
Proof. destruct c; vm_compute; intros [= <-]; repeat constructor. Qed.

Lemma satisfied_spec recognized expected ds satisfied :
  satisfied_dependencies recognized expected ds = Ok satisfied ->
  (forall d, d ∈ ds -> exists g, g ∈ recognized /\ feature_digest g = d) /\
  NoDup satisfied /\
  (forall b, b ∈ satisfied <-> b ∈ expected /\
     exists g d, d ∈ ds /\ find_feature d recognized = Some g /\ builtin_feature g = Some b).
Proof.
  unfold satisfied_dependencies. cut (forall acc, StronglySorted Z.lt (builtin_value <$> acc) ->
    fold_result (fun satisfied d =>
      match find_feature d recognized with
      | None => Err protocol_feature_exception
      | Some f =>
          mret match builtin_feature f with
               | Some c => if bool_decide (c ∈ expected) then builtin_insert c satisfied else satisfied
               | None => satisfied
               end
      end) ds acc = Ok satisfied ->
    (forall d, d ∈ ds -> exists g, g ∈ recognized /\ feature_digest g = d) /\
    StronglySorted Z.lt (builtin_value <$> satisfied) /\
    (forall b, b ∈ satisfied <-> b ∈ acc \/ (b ∈ expected /\
       exists g d, d ∈ ds /\ find_feature d recognized = Some g /\ builtin_feature g = Some b))).
  { intros H E. destruct (H [] ltac:(constructor) E) as (H1 & H2 & H3). split_and!; [done|by apply sorted_builtins|].
    intros b. rewrite H3, elem_of_nil. tauto. }
  induction ds as [|d ds IH]; intros acc Ha E; cbn [fold_result] in E.
  { apply Ok_inj in E as <-. split_and!; [by intros d Hd%elem_of_nil|done|]. intros b. split; [tauto|].
    intros [?|(_ & g & d & Hd%elem_of_nil & _)]; done. }
  destruct (find_feature d recognized) as [g|] eqn:Eg; [|done]. rewrite ret_bind in E.
  apply IH in E as (H1 & H2 & H3); [|by destruct (builtin_feature g) as [c|]; [case_bool_decide|]; auto using builtin_insert_NoDup].
  split_and!; [|done|].
  - intros d' [->|Hd]%elem_of_cons; [|by apply H1]. apply find_feature_Some in Eg as [? ?]. eauto.
  - intros b. rewrite H3. split.
    + intros [Hb|(Hb & g' & d' & Hd & Hg)]; [|right; split; [done|]; exists g', d'; rewrite elem_of_cons; tauto].
      destruct (builtin_feature g) as [c|] eqn:Ec; [|tauto]. case_bool_decide; [|tauto].
      apply builtin_insert_elem in Hb as [->|Hb]; [|tauto]. right. split; [done|]. exists g, d.
      rewrite elem_of_cons. tauto.
    + intros [Hb|(Hb & g' & d' & Hd & Hg & Hc)].
      * left. destruct (builtin_feature g); [|done]. case_bool_decide; [|done]. apply builtin_insert_elem. tauto.
      * apply elem_of_cons in Hd as [->|Hd]; [|right; split; [done|]; eauto]. left. rewrite Eg in Hg. simplify_eq.
        rewrite Hc, bool_decide_eq_true_2 by done. apply builtin_insert_elem. tauto.
Qed.

Section Sets.
Variable sha : list Z -> sha256.

Definition recognized_as (f : builtin_protocol_feature) (d : sha256) : protocol_feature :=
  ProtocolFeature d (bpf_description_digest f) (bpf_dependencies f)
    (sr_earliest_allowed_activation_time (bpf_subjective_restrictions f))
    (sr_preactivation_required (bpf_subjective_restrictions f))
    (sr_enabled (bpf_subjective_restrictions f)) (Some (bpf_codename f)).

(** The vector of built-in features after one more of them. *)
Lemma builtins_insert l r r' c pf i f :
  r' ≡ₚ pf :: r -> builtin_feature pf = Some c ->
  (match l !! Z.to_nat (builtin_value c) with Some (Some _) => false | _ => true end) = true ->
  (forall i f, l !! i = Some (Some f) <-> f ∈ r /\ exists c, builtin_feature f = Some c /\ i = Z.to_nat (builtin_value c)) ->
  let indx := Z.to_nat (builtin_value c) in
  <[indx := Some pf]> (l ++ replicate (S indx - length l) None) !! i = Some (Some f) <->
  f ∈ r' /\ exists c, builtin_feature f = Some c /\ i = Z.to_nat (builtin_value c).
Proof.
  intros Hp Hc Hfree Hl indx. fold indx in Hfree.
  assert (forall i f, (l ++ replicate (S indx - length l) None) !! i = Some (Some f) <-> l !! i = Some (Some f)) as Hext.
  { intros j g. rewrite lookup_app. destruct (l !! j) as [x|] eqn:E; [done|]. split; [|done].
    intros (_ & [=] & _)%lookup_replicate || intros H%lookup_replicate; naive_solver. }
  assert (indx < length (l ++ replicate (S indx - length l) (@None protocol_feature)))%nat as Hlt.
  { rewrite length_app, length_replicate. lia. }
  destruct (decide (i = indx)) as [->|Hne].
  - rewrite list_lookup_insert_eq by done. rewrite Hp, elem_of_cons. split.
    + intros [= <-]. eauto.
    + intros ([->|Hf] & c' & Hc' & Hi); [done|]. apply builtin_value_nat in Hi as <-.
      assert (l !! indx = Some (Some f)) as Hx by (apply Hl; eauto). rewrite Hx in Hfree. done.
  - rewrite list_lookup_insert_ne by done. rewrite Hext, Hl, Hp, elem_of_cons. split; [naive_solver|].
    intros ([->|Hf] & c' & Hc' & ->); [|eauto]. simplify_eq.
Qed.

Lemma add_feature_ok pfs f pfs' pf :
  feature_set_ok pfs -> add_feature sha pfs f = Ok (pfs', pf) ->
  feature_set_ok pfs' /\ bpf_digest sha f = Ok (feature_digest pf) /\ pf = recognized_as f (feature_digest pf) /\
  recognized_protocol_features pfs' ≡ₚ pf :: recognized_protocol_features pfs.
Proof.
  intros [Hs Hb Hf] E. unfold add_feature in E.
  destruct (find_spec (bpf_codename f)) as [spec|] eqn:Espec; [|done]. inv_result.
  destruct (length a1 <? length (spec_builtin_dependencies spec))%nat eqn:El.
  { apply bind_Ok in Ha2 as (? & _ & [=]). }
  apply Nat.ltb_ge in El. apply satisfied_spec in Ha1 as (Hdeps & Hnd & Hsat).
  set (p := ProtocolFeature _ _ _ _ _ _ _) in E.
  pose proof (insert_feature_spec p (recognized_protocol_features pfs) Hs) as Hi.
  destruct (insert_feature p _) as [r|]; [|done]. destruct Hi as (Hp & Hs' & Hn). inv_result. simplify_eq.
  assert (forall b, b ∈ spec_builtin_dependencies spec -> b ∈ a1) as Hall.
  { assert (a1 ⊆+ spec_builtin_dependencies spec) as Hsub.
    { apply NoDup_submseteq; [done|]. intros b Hbin. by apply Hsat in Hbin as [? _]. }
    apply submseteq_length_Permutation in Hsub; [|done]. intros b. by rewrite Hsub. }
  split_and!; [|done|done|done]. split; cbn [recognized_protocol_features recognized_builtin_protocol_features].
  - done.
  - intros i g. apply (builtins_insert _ _ _ (bpf_codename f) _ i g Hp); done.
  - intros g Hg. rewrite Hp, elem_of_cons in Hg. destruct Hg as [->|Hg].
    + split.
      * exists (bpf_codename f), spec. split_and!; [done|done|]. intros b Hbin.
        apply Hall, Hsat in Hbin as (_ & g & d & Hd & Hgd & Hc). apply find_feature_Some in Hgd as [Hg <-].
        exists g. rewrite Hp, elem_of_cons. auto.
      * intros d Hd. destruct (Hdeps d Hd) as (g & Hg & <-). exists g. rewrite Hp, elem_of_cons. auto.
    + eapply feature_ok_mono; [|by apply Hf]. intros x Hx. rewrite Hp, elem_of_cons. auto.
Qed.

(** *** Every way to build the set keeps the invariant *)

Variable populate_missing_builtins : bool.
Variable file_exists : string -> bool.
Abbreviation add_missing := (add_missing_builtins sha populate_missing_builtins file_exists).

Lemma add_protocol_feature_keeps fuel to_add itr st st' :
  feature_set_ok (is_pfs st) -> add_protocol_feature sha fuel to_add st itr = Ok st' -> feature_set_ok (is_pfs st').
Proof.
  revert itr st st'; induction fuel as [|fuel IH]; intros itr st st' Hst E; [done|]. cbn [add_protocol_feature] in E.
  case_bool_decide; [by inv_result|]. apply bind_Ok in E as (st1 & E1 & E). inv_result. destruct a as [pfs pf]. inv_result.
  cbn [is_pfs]. eapply add_feature_ok; [|done]. refine (fold_result_keeps _ (fun st => feature_set_ok (is_pfs st)) _ _ _ _ _ E1); [|done].
  intros s d s' Hs Ed. destruct (list_find _ to_add) as [[? itr2]|]; [eauto|by inv_result].
Qed.

Lemma make_default_keeps codename (handle : init_state -> builtin_protocol_feature_t -> result (sha256 * init_state)) st f st' :
  (forall s c d s', feature_set_ok (is_pfs s) -> handle s c = Ok (d, s') -> feature_set_ok (is_pfs s')) ->
  feature_set_ok (is_pfs st) ->
  make_default_builtin_protocol_feature codename handle st = Ok (f, st') -> feature_set_ok (is_pfs st').
Proof.
  intros Hh Hst E. unfold make_default_builtin_protocol_feature in E.
  destruct (find_spec codename) as [spec|]; [|done]. apply bind_Ok in E as ([deps s1] & E1 & E). inv_result.
  simplify_eq. refine (fold_result_keeps _ (fun x => feature_set_ok (is_pfs x.2)) _ _ _ _ _ E1); [|done].
  intros [ds s] c [ds' s'] Hs Ed. apply bind_Ok in Ed as ([d s2] & E2 & Ed). inv_result. simplify_eq. cbn in *. eauto.
Qed.

Lemma add_missing_keeps fuel st c d st' :
  feature_set_ok (is_pfs st) -> add_missing fuel st c = Ok (d, st') -> feature_set_ok (is_pfs st').
Proof.
  revert st c d st'; induction fuel as [|fuel IH]; intros st c d st' Hst E; [done|]. cbn [add_missing_builtins] in E.
  destruct (find_visited c (is_builtins st)) as [[d'|]|]; [inv_result; by simplify_eq|done|].
  apply bind_Ok in E as ([f s1] & E1 & E). apply bind_Ok in E as ([pfs pf] & E2 & E). inv_result. simplify_eq.
  cbn [is_pfs]. eapply add_feature_ok; [|exact E2]. eapply make_default_keeps; [| |exact E1]; [eauto|done].
Qed.

Lemma initialize_keeps order path_exists path_is_directory directory pfs :
  initialize_protocol_features sha populate_missing_builtins file_exists order path_exists path_is_directory directory = Ok pfs ->
  feature_set_ok pfs.
Proof.
  intros E. unfold initialize_protocol_features in E. apply bind_Ok in E as (? & _ & E).
  apply bind_Ok in E as ([found to_add] & _ & E). apply bind_Ok in E as (st & E1 & E). apply bind_Ok in E as (st' & E2 & E).
  inv_result. refine (fold_result_keeps _ (fun s => feature_set_ok (is_pfs s)) _ _ _ _ _ E2).
  - intros s p s' Hs Ep. case_bool_decide; [by inv_result|]. apply bind_Ok in Ep as ([d s1] & Ep & E3). inv_result.
    by eapply add_missing_keeps.
  - refine (fold_result_keeps _ (fun s => feature_set_ok (is_pfs s)) _ _ _ _ _ E1); [|apply empty_feature_set_ok].
    intros. by eapply add_protocol_feature_keeps.
Qed.

(** ** The features of a node without feature files *)

Definition default_feature (c : builtin_protocol_feature_t) (spec : builtin_protocol_feature_spec)
    (dependencies : list sha256) : builtin_protocol_feature :=
  BuiltinProtocolFeature feature_type_string (spec_description_digest spec) dependencies
    (spec_subjective_restrictions spec) builtin (spec_codename spec) c.

Definition digest_with (c : builtin_protocol_feature_t) (dependencies : builtin_protocol_feature_spec -> list sha256) : sha256 :=
  match find_spec c with
  | None => sha256_zero
  | Some spec => match bpf_digest sha (default_feature c spec (dependencies spec)) with Ok d => d | Err _ => sha256_zero end
  end.

(** Features that others depend on have no dependencies themselves. *)
Definition leaf_digest (c : builtin_protocol_feature_t) : sha256 := digest_with c (fun _ => []).
Definition default_dependencies (spec : builtin_protocol_feature_spec) : list sha256 :=
  foldl (fun l d => flat_insert d l) [] (leaf_digest <$> spec_builtin_dependencies spec).
Definition default_digest (c : builtin_protocol_feature_t) : sha256 := digest_with c default_dependencies.

Definition default_builtin (c : builtin_protocol_feature_t) (spec : builtin_protocol_feature_spec) : builtin_protocol_feature :=
  let f := default_feature c spec (default_dependencies spec) in
  if populate_missing_builtins then f else with_enabled false f.

Lemma table_depth c spec b :
  find_spec c = Some spec -> b ∈ spec_builtin_dependencies spec ->
  b <> c /\ exists spec', find_spec b = Some spec' /\ spec_builtin_dependencies spec' = [].
Proof.
  assert (forallb (fun e => forallb (fun b => bool_decide (b <> e.1) &&
            match find_spec b with Some s => is_empty (spec_builtin_dependencies s) | None => false end)
            (spec_builtin_dependencies e.2)) builtin_protocol_feature_codenames = true) as H by (vm_compute; reflexivity).
  intros Hc Hb. unfold find_spec in Hc. destruct (list_find _ _) as [[i e]|] eqn:E; [|done].
  injection Hc as <-. apply list_find_Some in E as (Hi & Hc & _). apply list_elem_of_lookup_2 in Hi.
  rewrite forallb_forall in H. specialize (H e ltac:(by apply list_elem_of_In)). rewrite forallb_forall in H.
  specialize (H b ltac:(by apply list_elem_of_In)). apply andb_true_iff in H as [Hne H].
  apply bool_decide_eq_true in Hne. split; [congruence|]. destruct (find_spec b) as [s|]; [|done].
  exists s. split; [done|]. by apply is_empty_true.
Qed.

Lemma table_deps_few c spec : find_spec c = Some spec -> (length (spec_builtin_dependencies spec) <= 20)%nat.
Proof. destruct c; vm_compute; intros [= <-]; cbn; lia. Qed.

Lemma leaf_default b spec : find_spec b = Some spec -> spec_builtin_dependencies spec = [] -> default_digest b = leaf_digest b.
Proof. intros E Hd. unfold default_digest, leaf_digest, digest_with, default_dependencies. by rewrite E, Hd. Qed.

Lemma default_dep_digest c spec b :
  find_spec c = Some spec -> b ∈ spec_builtin_dependencies spec -> default_digest b = leaf_digest b.
Proof. intros Hc Hb. destruct (table_depth c spec b Hc Hb) as (_ & spec' & E & Hd). by eapply leaf_default. Qed.

Lemma pack_digests_Ok (l : list sha256) : exists bs, pack_elements l = Ok bs.
Proof.
  induction l as [|x l [bs IH]]; [by eexists|]. cbn [pack_elements]. rewrite IH. by eexists.
Qed.

Lemma bpf_digest_Ok f : (length (bpf_dependencies f) <= 20)%nat -> exists d, bpf_digest sha f = Ok d.
Proof.
  intros Hl. unfold bpf_digest. cbn [pack Packable_uint Packable_sha256 Packable_vector]. unfold pack_uint, pack_sha256, pack_vector.
  rewrite !ret_bind. destruct (pack_digests_Ok (bpf_dependencies f)) as [bs Hb].
  rewrite EOS_ASSERT_true by (unfold vsize, MAX_NUM_ARRAY_ELEMENTS; lia).
  rewrite ret_bind. unfold pack_unsigned_int. cbn [mbind result_bind]. rewrite Hb. by eexists.
Qed.

Lemma flat_insert_length d l : (length (flat_insert d l) <= S (length l))%nat.
Proof. apply flat_insert_perm. Qed.

Lemma flat_inserts_length ds l : (length (foldl (fun l d => flat_insert d l) l ds) <= length ds + length l)%nat.
Proof.
  revert l; induction ds as [|d ds IH]; intros l; cbn [foldl length]; [lia|].
  specialize (IH (flat_insert d l)). pose proof (flat_insert_length d l). lia.
Qed.

Lemma default_digest_eq c spec : find_spec c = Some spec -> bpf_digest sha (default_builtin c spec) = Ok (default_digest c).
Proof.
  intros E. assert (bpf_digest sha (default_builtin c spec) = bpf_digest sha (default_feature c spec (default_dependencies spec))) as ->
    by (unfold default_builtin; by destruct populate_missing_builtins).
  unfold default_digest, digest_with. rewrite E.
  destruct (bpf_digest_Ok (default_feature c spec (default_dependencies spec))) as [d ->]; [|done].
  cbn [bpf_dependencies default_feature]. unfold default_dependencies.
  pose proof (flat_inserts_length (leaf_digest <$> spec_builtin_dependencies spec) []) as H.
  rewrite length_fmap in H. pose proof (table_deps_few c spec E). cbn in H. lia.
Qed.

(** The digests of the default features do not collide, and no file is in the way
    of those that are written. *)
Hypothesis digests_distinct : NoDup ((fun e => sha256_key (default_digest e.1)) <$> builtin_protocol_feature_codenames).
Hypothesis no_files : forall name, file_exists name = false.

Lemma find_spec_elem c spec : find_spec c = Some spec -> (c, spec) ∈ builtin_protocol_feature_codenames.
Proof.
  unfold find_spec. destruct (list_find _ _) as [[i e]|] eqn:E; [|done]. intros [= <-].
  apply list_find_Some in E as (Hi & <- & _). rewrite <- surjective_pairing. by eapply list_elem_of_lookup_2.
Qed.

Lemma table_NoDup : NoDup builtin_protocol_feature_codenames.*1.
Proof. apply (bool_decide_unpack _). vm_compute. exact I. Qed.

Lemma list_find_key {A B} `{EqDecision A} (l : list (A * B)) (e : A * B) :
  NoDup l.*1 -> e ∈ l -> (fun x => x.2.2) <$> list_find (fun x => x.1 = e.1) l = Some e.2.
Proof.
  intros Hn He. apply list_elem_of_lookup in He as [j Hj].
  destruct (list_find (fun x => x.1 = e.1) l) as [[i x]|] eqn:E.
  - apply list_find_Some in E as (Hi & Hx & _). assert (i = j) as ->; [|by simplify_eq].
    eapply (NoDup_lookup _ i j e.1 Hn); rewrite list_lookup_fmap, ?Hi, ?Hj; cbn; congruence.
  - apply list_find_None in E. rewrite Forall_forall in E. destruct (E e); [|done]. by eapply list_elem_of_lookup_2.
Qed.

Lemma table_find_spec e : e ∈ builtin_protocol_feature_codenames -> find_spec e.1 = Some e.2.
Proof. intros He. exact (list_find_key _ e table_NoDup He). Qed.

Lemma default_key_inj c1 c2 spec1 spec2 :
  find_spec c1 = Some spec1 -> find_spec c2 = Some spec2 ->
  sha256_key (default_digest c1) = sha256_key (default_digest c2) -> c1 = c2.
Proof.
  intros H1%find_spec_elem H2%find_spec_elem Hk.
  apply list_elem_of_lookup in H1 as [i Hi], H2 as [j Hj].
  assert (i = j) as ->; [|by simplify_eq].
  eapply (NoDup_lookup _ i j (sha256_key (default_digest c1)) digests_distinct).
  - by rewrite list_lookup_fmap, Hi.
  - rewrite list_lookup_fmap, Hj. cbn. by rewrite Hk.
Qed.

Lemma default_dependencies_perm c spec :
  find_spec c = Some spec -> default_dependencies spec ≡ₚ leaf_digest <$> spec_builtin_dependencies spec.
Proof.
  intros Hc. unfold default_dependencies.
  destruct (flat_inserts (leaf_digest <$> spec_builtin_dependencies spec) [] ltac:(constructor)) as (_ & _ & _ & H).
  rewrite app_nil_r in H. apply H. rewrite <- list_fmap_compose.
  apply NoDup_fmap_2_strong; [|by eapply sorted_builtins, table_sorted].
  intros x y Hx Hy E. cbn in E. rewrite <- (default_dep_digest c spec x), <- (default_dep_digest c spec y) in E by done.
  destruct (table_depth c spec x Hc Hx) as (_ & sx & Ex & _), (table_depth c spec y Hc Hy) as (_ & sy & Ey & _).
  by eapply default_key_inj.
Qed.

Lemma find_visited_cons c c' d l :
  find_visited c ((c', d) :: l) = if bool_decide (c' = c) then Some d else find_visited c l.
Proof.
  unfold find_visited. cbn [list_find fst]. destruct (decide (c' = c)) as [->|Hne].
  - by rewrite bool_decide_eq_true_2.
  - rewrite bool_decide_eq_false_2 by done. by destruct (list_find _ l) as [[i x]|].
Qed.

Lemma find_assign_visited c c' d l :
  find_visited c (assign_visited c' d l) =
  if bool_decide (c' = c) then (fun _ => Some d) <$> find_visited c l else find_visited c l.
Proof.
  induction l as [|[x v] l IH]; [by case_bool_decide|]. unfold assign_visited. rewrite fmap_cons. cbn [fst].
  fold (assign_visited c' d l). destruct (decide (x = c')) as [->|Hx].
  - rewrite bool_decide_eq_true_2, !find_visited_cons, IH by done. by case_bool_decide.
  - rewrite (bool_decide_eq_false_2 (x = c')), !find_visited_cons, IH by done. by repeat case_bool_decide; simplify_eq.
Qed.

(** The state between the features: what is recognized are defaults, and exactly
    the features marked with a digest. *)
Record defaults_ok (st : init_state) : Prop := {
  do_set : feature_set_ok (is_pfs st);
  do_recognized : forall f, f ∈ recognized_protocol_features (is_pfs st) ->
    exists c spec, find_spec c = Some spec /\ f = recognized_as (default_builtin c spec) (default_digest c) /\
      find_visited c (is_builtins st) = Some (Some (default_digest c));
  do_visited : forall c d, find_visited c (is_builtins st) = Some (Some d) ->
    exists spec, find_spec c = Some spec /\ d = default_digest c /\
      recognized_as (default_builtin c spec) d ∈ recognized_protocol_features (is_pfs st)
}.

Record grows (st st' : init_state) : Prop := {
  gr_keeps : forall c x, find_visited c (is_builtins st) = Some x -> find_visited c (is_builtins st') = Some x;
  gr_open : forall c, find_visited c (is_builtins st') = Some None -> find_visited c (is_builtins st) = Some None
}.

Lemma grows_trans s1 s2 s3 : grows s1 s2 -> grows s2 s3 -> grows s1 s3.
Proof. intros [A1 B1] [A2 B2]. split; eauto. Qed.

Lemma codename_default c spec : bpf_codename (default_builtin c spec) = c.
Proof. unfold default_builtin. by destruct populate_missing_builtins. Qed.

Lemma recognized_builtin_default c spec : builtin_feature (recognized_as (default_builtin c spec) (default_digest c)) = Some c.
Proof. cbn. by rewrite codename_default. Qed.

Lemma satisfied_Ok recognized expected ds :
  (forall d, d ∈ ds -> exists g, find_feature d recognized = Some g) ->
  exists s, satisfied_dependencies recognized expected ds = Ok s.
Proof.
  unfold satisfied_dependencies. generalize (@nil builtin_protocol_feature_t).
  induction ds as [|d ds IH]; intros acc H; cbn [fold_result]; [by eexists|].
  destruct (H d) as [g ->]; [constructor|]. rewrite ret_bind. apply IH. intros d' Hd. apply H. by constructor.
Qed.

(** A dependency that was visited is found in the set. *)
Lemma visited_found st b :
  defaults_ok st -> find_visited b (is_builtins st) = Some (Some (default_digest b)) ->
  exists spec, find_spec b = Some spec /\
    find_feature (default_digest b) (recognized_protocol_features (is_pfs st)) =
      Some (recognized_as (default_builtin b spec) (default_digest b)).
Proof.
  intros Hst Hb. apply (do_visited _ Hst) in Hb as (spec & Hs & _ & Hin). exists spec. split; [done|].
  apply (find_feature_unique _ _ (sorted_digests _ (fs_sorted _ (do_set _ Hst))) Hin).
Qed.

Lemma add_default_Ok st c spec :
  defaults_ok st -> find_spec c = Some spec -> find_visited c (is_builtins st) = Some None ->
  (forall b, b ∈ spec_builtin_dependencies spec -> find_visited b (is_builtins st) = Some (Some (default_digest b))) ->
  exists pfs, add_feature sha (is_pfs st) (default_builtin c spec) =
    Ok (pfs, recognized_as (default_builtin c spec) (default_digest c)).
Proof.
  intros Hok Hspec Hopen Hdeps. pose proof Hok as [Hset Hrec Hvis].
  unfold add_feature. rewrite (codename_default c spec).
  rewrite Hspec. rewrite EOS_ASSERT_true, ret_bind.
  2: { destruct (_ !! _) as [[f|]|] eqn:E; [|done..]. apply (fs_builtins _ Hset) in E as (Hf & c' & Hc & Hi).
       apply builtin_value_nat in Hi as <-. apply Hrec in Hf as (c2 & s2 & _ & -> & Hv).
       rewrite recognized_builtin_default in Hc. congruence. }
  rewrite (default_digest_eq c spec Hspec). cbn [mbind result_bind].
  assert (bpf_dependencies (default_builtin c spec) = default_dependencies spec) as Ed
    by (unfold default_builtin; by destruct populate_missing_builtins).
  assert (forall d, d ∈ default_dependencies spec -> exists b, b ∈ spec_builtin_dependencies spec /\ d = default_digest b) as Hd.
  { intros d Hd. rewrite (default_dependencies_perm c spec Hspec) in Hd. apply list_elem_of_fmap in Hd as (b & -> & Hb).
    exists b. by rewrite (default_dep_digest c spec b). }
  destruct (satisfied_Ok (recognized_protocol_features (is_pfs st)) (spec_builtin_dependencies spec) (default_dependencies spec)) as [sat Es].
  { intros d (b & Hb & ->)%Hd. destruct (visited_found st b Hok (Hdeps b Hb)) as (s & _ & E). eauto. }
  rewrite Ed, Es, ret_bind. apply satisfied_spec in Es as (_ & Hnd & Hsat).
  assert (length (spec_builtin_dependencies spec) <= length sat)%nat as Hlen.
  { apply submseteq_length, NoDup_submseteq; [by eapply sorted_builtins, table_sorted|]. intros b Hb. apply Hsat. split; [done|].
    destruct (visited_found st b Hok (Hdeps b Hb)) as (s & _ & E). eexists _, _. split_and!; [|exact E|apply recognized_builtin_default].
    rewrite (default_dependencies_perm c spec Hspec), (default_dep_digest c spec b) by done. by apply list_elem_of_fmap_2. }
  destruct (Nat.ltb_spec (length sat) (length (spec_builtin_dependencies spec))); [lia|]. rewrite ret_bind.
  match goal with |- context [insert_feature ?p ?l] => pose proof (insert_feature_spec p l (fs_sorted _ Hset)) as Hi;
    destruct (insert_feature p l) as [r|] end.
  - eexists. unfold mret, result_ret, recognized_as. rewrite Ed. by rewrite codename_default.
  - exfalso. apply list_elem_of_fmap in Hi as (g & Hk & Hg). apply Hrec in Hg as (c' & s' & Hs' & -> & Hv).
    cbn in Hk. eapply default_key_inj in Hk; [|done..]. subst c'. congruence.
Qed.

(** What one call of the closure does, whether the feature was there or not. *)
Definition adds (n : nat) (c : builtin_protocol_feature_t) : Prop :=
  forall st, defaults_ok st -> find_visited c (is_builtins st) <> Some None ->
  (forall spec b, find_spec c = Some spec -> b ∈ spec_builtin_dependencies spec ->
     find_visited b (is_builtins st) <> Some None) ->
  exists st', add_missing n st c = Ok (default_digest c, st') /\ defaults_ok st' /\ grows st st' /\
    find_visited c (is_builtins st') = Some (Some (default_digest c)).

(** Opening a feature, and closing it with the digest of what was added. *)
Lemma open_ok st c :
  defaults_ok st -> find_visited c (is_builtins st) = None ->
  defaults_ok (InitState (is_pfs st) (is_visited st) ((c, None) :: is_builtins st)).
Proof.
  intros [Hset Hrec Hvis] Hc. split; cbn [is_pfs is_builtins]; [done| |].
  - intros f Hf. destruct (Hrec f Hf) as (c' & spec & Hs & E & Hv). exists c', spec. split_and!; [done|done|].
    rewrite find_visited_cons. case_bool_decide; [congruence|done].
  - intros c' d. rewrite find_visited_cons. case_bool_decide; [done|]. apply Hvis.
Qed.

Lemma close_ok st c spec pfs :
  defaults_ok st -> find_spec c = Some spec -> find_visited c (is_builtins st) = Some None ->
  add_feature sha (is_pfs st) (default_builtin c spec) = Ok (pfs, recognized_as (default_builtin c spec) (default_digest c)) ->
  defaults_ok (InitState pfs (is_visited st) (assign_visited c (default_digest c) (is_builtins st))).
Proof.
  intros [Hset Hrec Hvis] Hspec Hc E. apply add_feature_ok in E as (Hset' & _ & _ & Hp); [|done].
  split; cbn [is_pfs is_builtins]; [done| |].
  - intros f. rewrite Hp, elem_of_cons. intros [->|Hf].
    + exists c, spec. split_and!; [done|done|]. by rewrite find_assign_visited, bool_decide_eq_true_2, Hc.
    + destruct (Hrec f Hf) as (c' & s' & Hs & Ef & Hv). exists c', s'. split_and!; [done|done|].
      rewrite find_assign_visited. case_bool_decide; [congruence|done].
  - intros c' d. rewrite find_assign_visited. case_bool_decide as Ec.
    + subst c'. rewrite Hc. intros [= <-]. exists spec. rewrite Hp, elem_of_cons. auto.
    + intros Hv. destruct (Hvis c' d Hv) as (s' & Hs & Ed & Hin). exists s'. rewrite Hp, elem_of_cons. auto.
Qed.

(** The dependencies are added one after the other. *)
Lemma dependencies_added n c spec st :
  find_spec c = Some spec -> defaults_ok st ->
  (forall b, b ∈ spec_builtin_dependencies spec -> adds n b /\ find_visited b (is_builtins st) <> Some None) ->
  exists st', make_default_builtin_protocol_feature c (add_missing n) st =
      Ok (default_feature c spec (default_dependencies spec), st') /\
    defaults_ok st' /\ grows st st' /\
    forall b, b ∈ spec_builtin_dependencies spec -> find_visited b (is_builtins st') = Some (Some (default_digest b)).
Proof.
  intros Hspec Hst Hb. unfold make_default_builtin_protocol_feature, make_builtin_protocol_feature. rewrite !Hspec.
  destruct (fold_result_ind (fun '(deps, s) d => '(digest, s) ← add_missing n s d; mret (flat_insert digest deps, s))
    (fun pre '(deps, s) => deps = foldl (fun l d => flat_insert d l) [] (leaf_digest <$> pre) /\ defaults_ok s /\ grows st s /\
       forall b, b ∈ pre -> find_visited b (is_builtins s) = Some (Some (default_digest b)))
    (spec_builtin_dependencies spec) ([], st)) as ([deps s] & -> & -> & Hs & Hg & Hv).
  - split_and!; [done|done|by split|by intros b Hbin%elem_of_nil].
  - intros pre b rest [deps s] El (-> & Hs & Hg & Hv).
    assert (b ∈ spec_builtin_dependencies spec) as Hin by (rewrite El, elem_of_app, elem_of_cons; auto).
    destruct (Hb b Hin) as [Ha Hn]. destruct (Ha s Hs) as (s' & -> & Hs' & Hg' & Hv').
    { intros Ho. by apply Hn, (gr_open _ _ Hg). }
    { intros spec' b' Eb Hb'. destruct (table_depth c spec b Hspec Hin) as (_ & s2 & E2 & Ed). simplify_eq.
      rewrite Ed in Hb'. by apply elem_of_nil in Hb'. }
    eexists (_, s'). split; [done|]. split_and!; [|done|by eapply grows_trans|].
    + rewrite fmap_app, foldl_app. cbn. by rewrite (default_dep_digest c spec b).
    + intros b'. rewrite elem_of_app, list_elem_of_singleton. intros [Hb'| ->]; [|done]. by apply (gr_keeps _ _ Hg'), Hv.
  - exists s. cbn [mbind result_bind]. split_and!; done.
Qed.

Lemma output_Ok f c spec : find_spec c = Some spec -> bpf_codename f = c -> output_protocol_feature file_exists f = Ok tt.
Proof.
  intros Hs <-. unfold output_protocol_feature, builtin_protocol_feature_codename. rewrite Hs. cbn. by rewrite no_files.
Qed.

Lemma adds_step n c spec :
  find_spec c = Some spec -> (forall b, b ∈ spec_builtin_dependencies spec -> adds n b) -> adds (S n) c.
Proof.
  intros Hspec Hb st Hst Hopen Hdeps. cbn [add_missing_builtins].
  destruct (find_visited c (is_builtins st)) as [[d|]|] eqn:Ev; [|done|].
  { pose proof Ev as (spec' & _ & -> & _)%(do_visited _ Hst). exists st. split_and!; [done|done|by split|done]. }
  pose proof (open_ok st c Hst Ev) as Hst1. set (st1 := InitState _ _ _) in *.
  destruct (dependencies_added n c spec st1 Hspec Hst1) as (s & -> & Hs & Hg & Hv).
  { intros b Hin. split; [by apply Hb|]. destruct (table_depth c spec b Hspec Hin) as (Hne & _).
    cbn [st1 is_builtins]. rewrite find_visited_cons, bool_decide_eq_false_2 by done. by eapply Hdeps. }
  assert (find_visited c (is_builtins s) = Some None) as Hc.
  { apply (gr_keeps _ _ Hg). cbn [st1 is_builtins]. by rewrite find_visited_cons, bool_decide_eq_true_2. }
  destruct (add_default_Ok s c spec Hs Hspec Hc Hv) as [pfs E]. cbn [mbind result_bind].
  fold (default_builtin c spec). rewrite E. cbn [mbind result_bind feature_digest recognized_as].
  assert ((if populate_missing_builtins then output_protocol_feature file_exists (default_builtin c spec) else mret tt) = Ok tt) as ->.
  { destruct populate_missing_builtins; [|done]. eapply output_Ok; [done|apply codename_default]. }
  eexists. split; [done|]. split; [by eapply close_ok|]. split.
  - split; cbn [is_builtins]; intros c' *.
    + intros Hx. rewrite find_assign_visited. case_bool_decide; [congruence|]. apply (gr_keeps _ _ Hg). cbn [st1 is_builtins].
      by rewrite find_visited_cons, bool_decide_eq_false_2.
    + rewrite find_assign_visited. case_bool_decide; [subst c'; by rewrite Hc|]. intros Ho. apply (gr_open _ _ Hg) in Ho.
      cbn [st1 is_builtins] in Ho. by rewrite find_visited_cons, bool_decide_eq_false_2 in Ho.
  - cbn [is_builtins]. by rewrite find_assign_visited, bool_decide_eq_true_2, Hc.
Qed.

Lemma adds_default n c spec : find_spec c = Some spec -> adds (S (S n)) c.
Proof.
  intros Hspec. eapply adds_step; [done|]. intros b Hb. destruct (table_depth c spec b Hspec Hb) as (_ & s & Hs & Hd).
  eapply adds_step; [done|]. rewrite Hd. by intros b' Hb'%elem_of_nil.
Qed.

Lemma read_directory_nothing order directory :
  Forall (fun e => de_json_file e = false \/ read_builtin_protocol_feature order (de_content e) = None) directory ->
  read_directory sha order directory = Ok ([], []).
Proof.
  unfold read_directory. induction 1 as [|e l He _ IH]; [done|]. cbn [fold_result].
  destruct (de_json_file e) eqn:Ej; cbn [negb].
  - destruct He as [?|He]; [done|]. rewrite He. apply IH.
  - apply IH.
Qed.

(** The loop over the table. *)
Lemma missing_loop order :
  (forall p, p ∈ order -> find_spec p.1 = Some p.2) ->
  exists st, fold_result (fun st p =>
      if bool_decide (p.1 ∈ ([] : list (builtin_protocol_feature_t * string)).*1) then mret st
      else '(_, st) ← add_missing (S (length builtin_protocol_feature_codenames)) st p.1; mret st) order
      (InitState empty_feature_set [] []) = Ok st /\
    defaults_ok st /\ forall p, p ∈ order -> find_visited p.1 (is_builtins st) = Some (Some (default_digest p.1)).
Proof.
  intros Ho. edestruct (fold_result_ind (fun st p =>
      if bool_decide (p.1 ∈ ([] : list (builtin_protocol_feature_t * string)).*1) then mret st
      else '(_, st) ← add_missing (S (length builtin_protocol_feature_codenames)) st p.1; mret st)
    (fun pre st => (defaults_ok st /\ forall c, find_visited c (is_builtins st) <> Some None) /\
       forall p, p ∈ pre -> find_visited p.1 (is_builtins st) = Some (Some (default_digest p.1)))
    order (InitState empty_feature_set [] [])) as (st & E & (Hst & _) & Hv).
  - split; [split|by intros p Hp%elem_of_nil]; [|done]. split; cbn.
    + apply empty_feature_set_ok.
    + by intros f Hf%elem_of_nil.
    + done.
  - intros pre p rest st El ((Hst & Hn) & Hv). assert (p ∈ order) as Hp by (rewrite El, elem_of_app, elem_of_cons; auto).
    rewrite bool_decide_eq_false_2 by apply not_elem_of_nil.
    destruct (adds_default (length builtin_protocol_feature_codenames - 1) p.1 p.2 (Ho p Hp) st Hst (Hn _)) as (st' & E & Hst' & Hg & Hv').
    { intros. apply Hn. }
    replace (S (length builtin_protocol_feature_codenames)) with
      (S (S (length builtin_protocol_feature_codenames - 1))) by (vm_compute; reflexivity).
    rewrite E. exists st'. split; [done|]. split; [split; [done|]|].
    + intros c Hc. by apply (Hn c), (gr_open _ _ Hg).
    + intros q. rewrite elem_of_app, list_elem_of_singleton. intros [Hq| ->]; [|done]. by apply (gr_keeps _ _ Hg), Hv.
  - exists st. done.
Qed.

(** A node that finds no feature file starts: whatever order the table of
    built-in features is visited in, the set of recognized features is built
    without an exception, it has every feature of the table with the digest that
    its description, its dependencies and its code name define, and no other. *)
Theorem default_features_recognized order path_exists directory :
  order ≡ₚ builtin_protocol_feature_codenames ->
  Forall (fun e => de_json_file e = false \/ read_builtin_protocol_feature order (de_content e) = None) directory ->
  exists pfs,
    initialize_protocol_features sha populate_missing_builtins file_exists order path_exists true directory = Ok pfs /\
    feature_set_ok pfs /\
    (forall c spec, find_spec c = Some spec ->
       get_builtin_digest pfs c = Some (default_digest c) /\
       get_protocol_feature pfs (default_digest c) = Ok (recognized_as (default_builtin c spec) (default_digest c))) /\
    (forall f, f ∈ recognized_protocol_features pfs ->
       exists c spec, find_spec c = Some spec /\ f = recognized_as (default_builtin c spec) (default_digest c)).
Proof.
  intros Ho Hd. unfold initialize_protocol_features.
  destruct (missing_loop order) as (st & E & Hst & Hv).
  { intros p Hp. rewrite Ho in Hp. by apply table_find_spec. }
  assert (exists u, (if path_exists then EOS_ASSERT true plugin_exception else mret tt) = Ok u) as [u ->] by (destruct path_exists; by eexists).
  rewrite ret_bind, read_directory_nothing by (destruct path_exists; [done|constructor]).
  cbn [mbind result_bind fold_result]. assert (length order = length builtin_protocol_feature_codenames) as -> by by rewrite Ho.
  rewrite E. cbn [mbind result_bind].
  exists (is_pfs st). split; [done|]. split; [apply Hst|]. split.
  - intros c spec Hs. assert (find_visited c (is_builtins st) = Some (Some (default_digest c))) as Hc.
    { apply (Hv (c, spec)). rewrite Ho. by apply find_spec_elem. }
    destruct (visited_found st c Hst Hc) as (spec' & Hs' & Hf). simplify_eq. unfold get_builtin_digest, get_protocol_feature.
    rewrite Hf. split; [|done]. apply find_feature_Some in Hf as [Hin _].
    assert (recognized_builtin_protocol_features (is_pfs st) !! Z.to_nat (builtin_value c) =
      Some (Some (recognized_as (default_builtin c spec) (default_digest c)))) as ->; [|done].
    apply (fs_builtins _ (do_set _ Hst)). split; [done|]. exists c. split; [apply recognized_builtin_default|done].
  - intros f Hf. destruct (do_recognized _ Hst f Hf) as (c & spec & ? & ? & _). eauto.
Qed.
End Sets.

(** ** A concrete hash *)

Definition toy_feature_sha (l : list Z) : sha256 :=
  Sha256 (foldl (fun a x => (a * 263 + x + 1) mod (2 ^ 64 - 59)) 7 l) 0 0 0.

Lemma toy_digests_distinct :
  NoDup ((fun e => sha256_key (default_digest toy_feature_sha e.1)) <$> builtin_protocol_feature_codenames).
Proof. apply (bool_decide_unpack _). vm_compute. exact I. Qed.

Lemma default_features_recognized_witness :
  exists pfs,
    initialize_protocol_features toy_feature_sha true (fun _ => false) (rev builtin_protocol_feature_codenames) true true
      [DirectoryEntry "README.md" false (Err fc_exception); DirectoryEntry "broken.json" true (Err fc_exception)] = Ok pfs /\
    get_builtin_digest pfs bf_savanna = Some (default_digest toy_feature_sha bf_savanna).
Proof.
  destruct (default_features_recognized toy_feature_sha true (fun _ => false) toy_digests_distinct (fun _ => eq_refl)
    (rev builtin_protocol_feature_codenames) true
    [DirectoryEntry "README.md" false (Err fc_exception); DirectoryEntry "broken.json" true (Err fc_exception)])
    as (pfs & E & _ & H & _).
  - symmetry. apply Permutation_rev.
  - constructor; [left; reflexivity|]. constructor; [right; reflexivity|constructor].
  - exists pfs. split; [exact E|]. edestruct (H bf_savanna) as [H1 _]; [vm_compute; reflexivity|exact H1].
Defined.
