(* ===== verification/FeatureManager.v ===== *)
(** The protocol feature manager (chain/protocol_feature_manager.hpp and .cpp):
    which features are activated, and since which block.

    The manager keeps the activations in order, and beside them a vector indexed
    by built-in feature, whose entries are linked from the newest to the oldest
    activation.  The vector and its links are a function of the list of
    activations ([builtin_links]); activating and popping blocks keep it so, and
    with it every answer of [is_builtin_activated].  Logging to deep-mind is left
    out. *)
From Stdlib Require Import ZArith Lia ZifyBool Sorted.
From stdpp Require Import base tactics numbers list.
From S2P Require Import Prelude Digest BlockHeader ProtocolFeatures FeatureSet.
#[local] Open Scope Z_scope.

(** ** State *)

Record protocol_feature_entry : Type := ProtocolFeatureEntry {
  entry_feature : protocol_feature;
  entry_block_num : Z
}.

Definition no_previous : Z := 2 ^ 64 - 1.
Definition not_active : Z := 2 ^ 32 - 1.

Record builtin_protocol_feature_entry : Type := BuiltinEntry {
  be_previous : Z;
  be_activation_block_num : Z
}.
Definition inactive_entry : builtin_protocol_feature_entry := BuiltinEntry no_previous not_active.

Record protocol_feature_manager : Type := ProtocolFeatureManager {
  pfm_protocol_feature_set : protocol_feature_set;
  activated_protocol_features : list protocol_feature_entry;
  builtin_protocol_features : list builtin_protocol_feature_entry;
  head_of_builtin_activation_list : Z;
  is_initialized : bool
}.

(** The constructor. *)
Definition make_protocol_feature_manager (pfs : protocol_feature_set) : protocol_feature_manager :=
  ProtocolFeatureManager pfs []
    (replicate (length (recognized_builtin_protocol_features pfs)) inactive_entry) no_previous false.

(** ** Operations *)

Definition is_builtin_activated (m : protocol_feature_manager) (c : builtin_protocol_feature_t) (current_block_num : Z) : bool :=
  match builtin_protocol_features m !! Z.to_nat (builtin_value c) with
  | None => false
  | Some e => be_activation_block_num e <=? current_block_num
  end.

Definition activate_feature (m : protocol_feature_manager) (d : sha256) (current_block_num : Z)
    : result protocol_feature_manager :=
  _ ← EOS_ASSERT (is_initialized m) protocol_feature_exception;
  match find_feature d (recognized_protocol_features (pfm_protocol_feature_set m)) with
  | None => Err protocol_feature_exception
  | Some f =>
      _ ← EOS_ASSERT (match last (activated_protocol_features m) with
                      | None => true
                      | Some e => entry_block_num e <=? current_block_num
                      end) protocol_feature_exception;
      match builtin_feature f with
      | None => Err protocol_feature_exception
      | Some c =>
          let indx := Z.to_nat (builtin_value c) in
          match builtin_protocol_features m !! indx with
          | None => Err protocol_feature_exception
          | Some e =>
              _ ← EOS_ASSERT (be_activation_block_num e =? not_active) protocol_feature_exception;
              mret (ProtocolFeatureManager (pfm_protocol_feature_set m)
                      (activated_protocol_features m ++ [ProtocolFeatureEntry f current_block_num])
                      (<[indx := BuiltinEntry (head_of_builtin_activation_list m) current_block_num]>
                         (builtin_protocol_features m))
                      (builtin_value c) (is_initialized m))
          end
      end
  end.

(** The first loop of [popped_blocks_to]: follow the links while they lead to
    activations that are undone.  Every round makes one more entry inactive. *)
Fixpoint pop_builtins (fuel : nat) (block_num : Z) (builtins : list builtin_protocol_feature_entry) (head : Z)
    : result (list builtin_protocol_feature_entry * Z) :=
  if head =? no_previous then mret (builtins, head)
  else match fuel with
       | O => Err undefined_behavior
       | S fuel =>
           e ← at_index builtins head;
           if be_activation_block_num e <=? block_num then mret (builtins, head)
           else pop_builtins fuel block_num (<[Z.to_nat head := inactive_entry]> builtins) (be_previous e)
       end.

(** The second loop, on the list from the newest activation to the oldest. *)
Fixpoint pop_activated (block_num : Z) (l : list protocol_feature_entry) : list protocol_feature_entry :=
  match l with
  | [] => []
  | e :: t => if block_num <? entry_block_num e then pop_activated block_num t else l
  end.

Definition popped_blocks_to (m : protocol_feature_manager) (block_num : Z) : result protocol_feature_manager :=
  _ ← EOS_ASSERT (is_initialized m) protocol_feature_exception;
  '(builtins, head) ← pop_builtins (length (builtin_protocol_features m)) block_num
                        (builtin_protocol_features m) (head_of_builtin_activation_list m);
  mret (ProtocolFeatureManager (pfm_protocol_feature_set m)
          (rev (pop_activated block_num (rev (activated_protocol_features m)))) builtins head (is_initialized m)).

(** [init]: [activated] are the features of the protocol state object.  When an
    activation throws, the scoped exit clears the flag again; what was activated
    before stays. *)
Definition set_initialized (b : bool) (m : protocol_feature_manager) : protocol_feature_manager :=
  ProtocolFeatureManager (pfm_protocol_feature_set m) (activated_protocol_features m) (builtin_protocol_features m)
    (head_of_builtin_activation_list m) b.

Fixpoint init_loop (m : protocol_feature_manager) (activated : list (sha256 * Z)) : protocol_feature_manager * result unit :=
  match activated with
  | [] => (m, mret tt)
  | (d, n) :: activated =>
      match activate_feature m d n with
      | Ok m => init_loop m activated
      | Err e => (set_initialized false m, Err e)
      end
  end.

Definition pfm_init (m : protocol_feature_manager) (activated : list (sha256 * Z)) : protocol_feature_manager * result unit :=
  if is_initialized m then (m, Err protocol_feature_exception) else init_loop (set_initialized true m) activated.

(** ** Iterators over the activated features *)

(** The manager an iterator points to is an argument of its methods; a
    default-constructed iterator has none. *)
Definition end_index : Z := 2 ^ 64 - 1.
Record const_iterator : Type := ConstIterator { it_pfm : bool; it_index : Z }.

Definition cend : const_iterator := ConstIterator true end_index.
Definition cbegin (m : protocol_feature_manager) : const_iterator :=
  if is_empty (activated_protocol_features m) then cend else ConstIterator true 0.

Definition get_pointer (m : protocol_feature_manager) (it : const_iterator) : result protocol_feature :=
  e ← at_index (activated_protocol_features m) (it_index it); mret (entry_feature e).

Definition activation_ordinal (it : const_iterator) : result Z :=
  _ ← EOS_ASSERT (it_pfm it) protocol_feature_iterator_exception;
  _ ← EOS_ASSERT (negb (it_index it =? end_index)) protocol_feature_iterator_exception;
  mret (u32 (it_index it)).

Definition activation_block_num (m : protocol_feature_manager) (it : const_iterator) : result Z :=
  _ ← EOS_ASSERT (it_pfm it) protocol_feature_iterator_exception;
  _ ← EOS_ASSERT (negb (it_index it =? end_index)) protocol_feature_iterator_exception;
  e ← at_index (activated_protocol_features m) (it_index it); mret (entry_block_num e).

Definition it_increment (m : protocol_feature_manager) (it : const_iterator) : result const_iterator :=
  _ ← EOS_ASSERT (it_pfm it) protocol_feature_iterator_exception;
  _ ← EOS_ASSERT (negb (it_index it =? end_index)) protocol_feature_iterator_exception;
  let i := it_index it + 1 in
  mret (if vsize (activated_protocol_features m) <=? i then cend else ConstIterator true i).

Definition it_decrement (m : protocol_feature_manager) (it : const_iterator) : result const_iterator :=
  _ ← EOS_ASSERT (it_pfm it) protocol_feature_iterator_exception;
  if it_index it =? end_index then
    _ ← EOS_ASSERT (0 <? vsize (activated_protocol_features m)) protocol_feature_iterator_exception;
    mret (ConstIterator true (vsize (activated_protocol_features m) - 1))
  else
    _ ← EOS_ASSERT (0 <? it_index it) protocol_feature_iterator_exception;
    mret (ConstIterator true (it_index it - 1)).

Definition at_activation_ordinal (m : protocol_feature_manager) (activation_ordinal : Z) : const_iterator :=
  if vsize (activated_protocol_features m) <=? activation_ordinal then cend else ConstIterator true activation_ordinal.

(** [std::lower_bound] and [std::upper_bound]: the first element from which on
    the condition fails, in a range that is partitioned by it. *)
Fixpoint partition_point (before : protocol_feature_entry -> bool) (l : list protocol_feature_entry) : Z :=
  match l with
  | [] => 0
  | e :: t => if before e then 1 + partition_point before t else 0
  end.
Definition iterator_at (m : protocol_feature_manager) (i : Z) : const_iterator :=
  if i =? vsize (activated_protocol_features m) then cend else ConstIterator true i.
Definition pfm_lower_bound (m : protocol_feature_manager) (block_num : Z) : const_iterator :=
  iterator_at m (partition_point (fun e => entry_block_num e <? block_num) (activated_protocol_features m)).
Definition pfm_upper_bound (m : protocol_feature_manager) (block_num : Z) : const_iterator :=
  iterator_at m (partition_point (fun e => negb (block_num <? entry_block_num e)) (activated_protocol_features m)).

(** ** The vector of built-in features is a function of the activations *)

(** An activation: the index of the feature, and the block. *)
Definition link_step (s : list builtin_protocol_feature_entry * Z) (a : nat * Z) : list builtin_protocol_feature_entry * Z :=
  (<[a.1 := BuiltinEntry s.2 a.2]> s.1, Z.of_nat a.1).
Definition builtin_links (n : nat) (acts : list (nat * Z)) : list builtin_protocol_feature_entry * Z :=
  foldl link_step (replicate n inactive_entry, no_previous) acts.

Lemma links_snoc n acts a : builtin_links n (acts ++ [a]) = link_step (builtin_links n acts) a.
Proof. unfold builtin_links. by rewrite foldl_app. Qed.

Lemma links_length n acts : length (builtin_links n acts).1 = n.
Proof.
  induction acts as [|a acts IH] using rev_ind; [apply length_replicate|].
  rewrite links_snoc. cbn. by rewrite length_insert.
Qed.

Lemma links_inactive n acts i : (i < n)%nat -> i ∉ acts.*1 -> (builtin_links n acts).1 !! i = Some inactive_entry.
Proof.
  intros Hi. induction acts as [|a acts IH] using rev_ind; intros Hn; [by apply lookup_replicate_2|].
  rewrite fmap_app, not_elem_of_app in Hn. destruct Hn as [Hn Ha]. rewrite fmap_cons, not_elem_of_cons in Ha.
  rewrite links_snoc. cbn. rewrite list_lookup_insert_ne; [by apply IH|]. intros E. destruct Ha as [Ha _]. by apply Ha.
Qed.

Lemma links_active n acts i k :
  (i < n)%nat -> NoDup acts.*1 -> (i, k) ∈ acts -> exists h, (builtin_links n acts).1 !! i = Some (BuiltinEntry h k).
Proof.
  intros Hi. induction acts as [|a acts IH] using rev_ind; intros Hd Hin; [by apply elem_of_nil in Hin|].
  rewrite fmap_app in Hd. apply NoDup_app in Hd as (Hd & Hn & _). rewrite links_snoc. cbn.
  rewrite elem_of_app, list_elem_of_singleton in Hin. destruct Hin as [Hin|<-].
  - rewrite list_lookup_insert_ne; [by apply IH|]. intros E. apply (Hn i); [by apply (list_elem_of_fmap_2 fst _ (i, k))|].
    rewrite <- E. constructor.
  - cbn. rewrite list_lookup_insert_eq by (by rewrite links_length). by eexists.
Qed.

(** Clearing the newest entry undoes its activation. *)
Lemma links_undo n acts a :
  (a.1 < n)%nat -> a.1 ∉ acts.*1 -> <[a.1 := inactive_entry]> (builtin_links n (acts ++ [a])).1 = (builtin_links n acts).1.
Proof.
  intros Hi Hn. rewrite links_snoc. cbn. rewrite list_insert_insert_eq. apply list_insert_id. by apply links_inactive.
Qed.

Abbreviation sorted_acts := (fun acts : list (nat * Z) => StronglySorted Z.le acts.*2).

Lemma sorted_snoc (l : list Z) x : StronglySorted Z.le (l ++ [x]) <-> StronglySorted Z.le l /\ Forall (fun y => y <= x) l.
Proof.
  induction l as [|y l IH]; cbn; [split; intros _; [split; constructor|repeat constructor]|]. split.
  - intros [H1 H2]%StronglySorted_inv. apply IH in H1 as [H1 H3]. apply Forall_app in H2 as [H2 H4].
    apply Forall_cons in H4 as [H4 _]. split; [by constructor|by constructor].
  - intros [[H1 H2]%StronglySorted_inv [H3 H4]%Forall_cons]. constructor; [by apply IH|].
    apply Forall_app. by repeat constructor.
Qed.

Lemma pop_builtins_links fuel n k acts :
  Forall (fun a => Z.of_nat a.1 < no_previous) acts -> (length acts <= fuel)%nat -> Forall (fun a => (a.1 < n)%nat) acts ->
  NoDup acts.*1 -> sorted_acts acts ->
  pop_builtins fuel k (builtin_links n acts).1 (builtin_links n acts).2 =
    Ok (builtin_links n (filter (fun a => a.2 <= k) acts)).
Proof.
  revert fuel; induction acts as [|a acts IH] using rev_ind; intros fuel Hn Hf Hi Hd Hs.
  { destruct fuel; reflexivity. }
  rewrite length_app in Hf. cbn in Hf. destruct fuel as [|fuel]; [lia|].
  apply Forall_app in Hi as [Hi Ha]. apply Forall_cons in Ha as [Ha _]. cbn beta in Ha.
  apply Forall_app in Hn as [Hn Hna']. apply Forall_cons in Hna' as [Hnp _]. cbn beta in Hnp.
  pose proof Hd as Hd0. rewrite fmap_app in Hd. cbn beta in Hs. rewrite fmap_app in Hs. apply sorted_snoc in Hs as [Hs Hle]. apply NoDup_app in Hd as (Hd & Hna & _).
  assert (a.1 ∉ acts.*1) as Hnew by (intros Hin; apply (Hna _ Hin); constructor).
  destruct (links_active n (acts ++ [a]) a.1 a.2 Ha Hd0) as [h Hl]; [rewrite elem_of_app; right; destruct a; constructor|].
  assert (h = (builtin_links n acts).2) as ->.
  { rewrite links_snoc in Hl. cbn in Hl. rewrite list_lookup_insert_eq in Hl by (by rewrite links_length). congruence. }
  cbn [pop_builtins]. replace (builtin_links n (acts ++ [a])).2 with (Z.of_nat a.1) by (by rewrite links_snoc).
  destruct (Z.eqb_spec (Z.of_nat a.1) no_previous); [lia|].
  rewrite (at_index_lookup _ (Z.of_nat a.1) (BuiltinEntry (builtin_links n acts).2 a.2)) by (lia || by rewrite Nat2Z.id). cbn [mbind result_bind be_activation_block_num be_previous].
  rewrite filter_app, filter_cons, filter_nil. destruct (Z.leb_spec a.2 k) as [Hk|Hk].
  - rewrite decide_True by done. rewrite filter_true; [by rewrite links_snoc|].
    apply Forall_forall. intros x Hx. pose proof (proj1 (Forall_forall _ _) Hle x.2 (list_elem_of_fmap_2 _ _ _ Hx)) as H. cbn beta in H. lia.
  - rewrite decide_False by lia. rewrite app_nil_r, Nat2Z.id, links_undo by done. apply IH; [done|lia|done..].
Qed.

(** ** The invariant of the manager *)

Definition feature_index (f : protocol_feature) : nat :=
  match builtin_feature f with Some c => Z.to_nat (builtin_value c) | None => O end.
Definition activations (l : list protocol_feature_entry) : list (nat * Z) :=
  (fun e => (feature_index (entry_feature e), entry_block_num e)) <$> l.

Record manager_ok (m : protocol_feature_manager) : Prop := {
  mo_set : feature_set_ok (pfm_protocol_feature_set m);
  mo_initialized : is_initialized m = true;
  mo_links : (builtin_protocol_features m, head_of_builtin_activation_list m) =
    builtin_links (length (recognized_builtin_protocol_features (pfm_protocol_feature_set m)))
      (activations (activated_protocol_features m));
  mo_recognized : forall e, e ∈ activated_protocol_features m ->
    entry_feature e ∈ recognized_protocol_features (pfm_protocol_feature_set m) /\ 0 <= entry_block_num e < not_active;
  mo_distinct : NoDup (entry_feature <$> activated_protocol_features m);
  mo_sorted : StronglySorted Z.le (entry_block_num <$> activated_protocol_features m)
}.

(** The vector of built-in features is short enough for its links. *)
Lemma builtin_value_range c : 0 <= builtin_value c <= 500000.
Proof. by destruct c. Qed.

Section Manager.
Context (pfs : protocol_feature_set) (Hpfs : feature_set_ok pfs).

Lemma recognized_index f :
  f ∈ recognized_protocol_features pfs ->
  exists c, builtin_feature f = Some c /\ feature_index f = Z.to_nat (builtin_value c) /\
    recognized_builtin_protocol_features pfs !! feature_index f = Some (Some f).
Proof.
  intros Hf. destruct (fo_builtin _ _ (fs_features _ Hpfs f Hf)) as (c & spec & Hc & _).
  exists c. unfold feature_index. rewrite Hc. split_and!; [done|done|]. apply (fs_builtins _ Hpfs). eauto.
Qed.

Lemma index_unique f g :
  f ∈ recognized_protocol_features pfs -> g ∈ recognized_protocol_features pfs -> feature_index f = feature_index g -> f = g.
Proof.
  intros (c & _ & _ & Hf)%recognized_index (c' & _ & _ & Hg)%recognized_index E. rewrite E in Hf. congruence.
Qed.

Lemma activations_distinct l :
  (forall e, e ∈ l -> entry_feature e ∈ recognized_protocol_features pfs) -> NoDup (entry_feature <$> l) -> NoDup (activations l).*1.
Proof.
  intros Hr Hd. unfold activations. rewrite <- list_fmap_compose. cbn.
  change (NoDup ((feature_index ∘ entry_feature) <$> l)). rewrite list_fmap_compose.
  apply NoDup_fmap_2_strong; [|done]. intros f g Hf Hg. apply list_elem_of_fmap in Hf as (e & -> & He), Hg as (e' & -> & He').
  apply index_unique; by apply Hr.
Qed.

Lemma activations_range l :
  (forall e, e ∈ l -> entry_feature e ∈ recognized_protocol_features pfs) ->
  Forall (fun a => (a.1 < length (recognized_builtin_protocol_features pfs))%nat) (activations l).
Proof.
  intros Hr. apply Forall_fmap, Forall_forall. intros e He. cbn.
  destruct (recognized_index _ (Hr e He)) as (c & _ & _ & Hl). by apply lookup_lt_Some in Hl.
Qed.
End Manager.

Lemma activations_small l : Forall (fun a => Z.of_nat a.1 < no_previous) (activations l).
Proof.
  apply Forall_fmap, Forall_forall. intros e _. cbn. unfold feature_index.
  destruct (builtin_feature _) as [c|]; [pose proof (builtin_value_range c)|]; unfold no_previous; lia.
Qed.

Lemma activations_sorted l : StronglySorted Z.le (entry_block_num <$> l) -> sorted_acts (activations l).
Proof. intros Hs. unfold activations. by rewrite <- list_fmap_compose. Qed.

(** Whether a feature is active, in terms of the activations. *)
Definition activated_by (m : protocol_feature_manager) (c : builtin_protocol_feature_t) (n : Z) : Prop :=
  exists e, e ∈ activated_protocol_features m /\ builtin_feature (entry_feature e) = Some c /\ entry_block_num e <= n.

Lemma is_builtin_activated_iff m c n :
  manager_ok m -> n < not_active -> (is_builtin_activated m c n = true <-> activated_by m c n).
Proof.
  intros Hm Hn. pose proof Hm as [Hset _ Hl Hr Hd Hs]. unfold is_builtin_activated, activated_by.
  apply (f_equal fst) in Hl. cbn in Hl. rewrite Hl. set (N := length _).
  assert (NoDup (activations (activated_protocol_features m)).*1) as Hnd
    by (eapply activations_distinct; [exact Hset| |done]; intros e He; by apply Hr).
  split.
  - destruct (_ !! _) as [b|] eqn:E; [|done]. intros Hle. pose proof (lookup_lt_Some _ _ _ E) as Hlt. rewrite links_length in Hlt.
    destruct (decide (Z.to_nat (builtin_value c) ∈ (activations (activated_protocol_features m)).*1)) as [Hin|Hin].
    + apply list_elem_of_fmap in Hin as ([i k] & Ei & Ha). cbn in Ei. subst i.
      destruct (links_active N _ _ k Hlt Hnd Ha) as [h E']. rewrite E in E'. simplify_eq. cbn in Hle.
      apply list_elem_of_fmap in Ha as (e & Ee & He). simplify_eq. exists e. split; [done|]. split; [|lia].
      destruct (recognized_index _ Hset _ (proj1 (Hr e He))) as (c' & Hc & Hi & _). rewrite Hi in H. by apply builtin_value_nat in H as <-.
    + rewrite links_inactive in E by done. simplify_eq. cbn in Hle. lia.
  - intros (e & He & Hc & Hle). destruct (Hr e He) as [Hf _].
    destruct (recognized_index _ Hset _ Hf) as (c' & Hc' & Hi & Hlook). simplify_eq.
    apply lookup_lt_Some in Hlook. rewrite Hi in Hlook.
    destruct (links_active N (activations (activated_protocol_features m)) (Z.to_nat (builtin_value c)) (entry_block_num e)
      Hlook Hnd) as [h ->]; [|cbn; lia].
    apply list_elem_of_fmap. exists e. by rewrite Hi.
Qed.

(** ** Activating *)

Definition with_activated (m : protocol_feature_manager) (l : list protocol_feature_entry) : protocol_feature_manager :=
  let '(builtins, head) := builtin_links (length (recognized_builtin_protocol_features (pfm_protocol_feature_set m))) (activations l) in
  ProtocolFeatureManager (pfm_protocol_feature_set m) l builtins head (is_initialized m).

Lemma manager_eta m : manager_ok m -> with_activated m (activated_protocol_features m) = m.
Proof. intros [_ _ Hl _ _ _]. unfold with_activated. rewrite <- Hl. by destruct m. Qed.

Lemma with_activated_ok m l :
  manager_ok m ->
  (forall e, e ∈ l -> entry_feature e ∈ recognized_protocol_features (pfm_protocol_feature_set m) /\ 0 <= entry_block_num e < not_active) ->
  NoDup (entry_feature <$> l) -> StronglySorted Z.le (entry_block_num <$> l) -> manager_ok (with_activated m l).
Proof.
  intros [Hset Hi _ _ _ _] Hr Hd Hs. unfold with_activated. destruct (builtin_links _ _) as [b h] eqn:E. by split.
Qed.

Lemma activate_feature_Ok m d f n :
  manager_ok m -> find_feature d (recognized_protocol_features (pfm_protocol_feature_set m)) = Some f ->
  0 <= n < not_active -> f ∉ entry_feature <$> activated_protocol_features m ->
  (forall e, last (activated_protocol_features m) = Some e -> entry_block_num e <= n) ->
  let m' := with_activated m (activated_protocol_features m ++ [ProtocolFeatureEntry f n]) in
  activate_feature m d n = Ok m' /\ manager_ok m'.
Proof.
  intros Hm Hf Hn Hnew Hlast. pose proof Hm as [Hset Hi Hl Hr Hd Hs]. cbn zeta.
  pose proof Hf as [Hin _]%find_feature_Some. destruct (recognized_index _ Hset f Hin) as (c & Hc & Hx & Hlook).
  apply lookup_lt_Some in Hlook. split.
  - unfold activate_feature. rewrite Hi, Hf, Hc. cbn [EOS_ASSERT mbind result_bind].
    rewrite EOS_ASSERT_true, ret_bind by (destruct (last _) as [e|]; [specialize (Hlast e eq_refl); lia|done]).
    rewrite <- Hx. unfold with_activated, activations. rewrite fmap_app. cbn [fmap list_fmap entry_feature entry_block_num].
    rewrite links_snoc. fold (activations (activated_protocol_features m)). rewrite <- Hl. cbn [fst snd link_step].
    assert (builtin_protocol_features m = (builtin_protocol_features m, head_of_builtin_activation_list m).1) as E by done.
    rewrite Hl in E. rewrite E, links_inactive; [|done|].
    + cbn [be_activation_block_num inactive_entry]. rewrite EOS_ASSERT_true, ret_bind by done. rewrite <- E, Hi.
      assert (Z.of_nat (feature_index f) = builtin_value c) as -> by (rewrite Hx; pose proof (builtin_value_range c); lia). done.
    + intros Ha. apply list_elem_of_fmap in Ha as ([i k] & Ei & Ha). apply list_elem_of_fmap in Ha as (e & Ee & He). simplify_eq.
      destruct Hnew. assert (f = entry_feature e) as -> by (eapply index_unique; [exact Hset|done|by apply Hr|done]).
      by apply list_elem_of_fmap_2.
  - apply with_activated_ok; [done| | |].
    + intros e. rewrite elem_of_app, list_elem_of_singleton. intros [He| ->]; [by apply Hr|done].
    + rewrite fmap_app. apply NoDup_app. split_and!; [done| |apply NoDup_singleton].
      intros g Hg. cbn. rewrite list_elem_of_singleton. by intros ->.
    + rewrite fmap_app. apply sorted_snoc. split; [done|]. cbn [entry_block_num].
      clear -Hs Hlast. induction (activated_protocol_features m) as [|e l _] using rev_ind; [constructor|].
      rewrite last_snoc in Hlast. specialize (Hlast e eq_refl). rewrite fmap_app in Hs |- *. apply sorted_snoc in Hs as [_ Hs].
      apply Forall_app. split; [|by repeat constructor]. eapply Forall_impl; [exact Hs|]. cbn. lia.
Qed.

(** ** Popping blocks *)

Lemma distinct_below (l : list nat) n : NoDup l -> Forall (fun i => (i < n)%nat) l -> (length l <= n)%nat.
Proof.
  intros Hd Hl. rewrite <- (length_seq n 0). apply submseteq_length, NoDup_submseteq; [done|].
  intros i Hi. apply elem_of_seq. rewrite Forall_forall in Hl. specialize (Hl i Hi). lia.
Qed.

Lemma filter_activations k l :
  filter (fun a => a.2 <= k) (activations l) = activations (filter (fun e => entry_block_num e <= k) l).
Proof.
  induction l as [|e l IH]; [done|]. unfold activations. rewrite fmap_cons, !filter_cons. cbn [snd].
  case_decide; rewrite ?fmap_cons; fold (activations l); by rewrite IH.
Qed.

Lemma pop_activated_filter k l :
  StronglySorted Z.le (entry_block_num <$> l) -> rev (pop_activated k (rev l)) = filter (fun e => entry_block_num e <= k) l.
Proof.
  induction l as [|e l IH] using rev_ind; intros Hs; [done|]. rewrite fmap_app in Hs. apply sorted_snoc in Hs as [Hs Hle].
  rewrite rev_app_distr, filter_app, filter_cons, filter_nil. cbn [rev app pop_activated].
  destruct (Z.ltb_spec k (entry_block_num e)).
  - rewrite decide_False by lia. rewrite app_nil_r. by apply IH.
  - rewrite decide_True by lia. cbn [rev]. rewrite rev_involutive. f_equal. symmetry. apply filter_true.
    apply Forall_forall. intros x Hx. pose proof (proj1 (Forall_forall _ _) Hle _ (list_elem_of_fmap_2 _ _ _ Hx)) as H1. cbn beta in H1. lia.
Qed.

Lemma popped_blocks_to_Ok m n :
  manager_ok m ->
  let m' := with_activated m (filter (fun e => entry_block_num e <= n) (activated_protocol_features m)) in
  popped_blocks_to m n = Ok m' /\ manager_ok m'.
Proof.
  intros Hm. pose proof Hm as [Hset Hi Hl Hr Hd Hs]. cbn zeta.
  set (N := length (recognized_builtin_protocol_features (pfm_protocol_feature_set m))).
  assert (forall e, e ∈ activated_protocol_features m -> entry_feature e ∈ recognized_protocol_features (pfm_protocol_feature_set m)) as Hr1
    by (intros e He; by apply Hr).
  pose proof (activations_range _ Hset _ Hr1) as Hrange. pose proof (activations_distinct _ Hset _ Hr1 Hd) as Hdist.
  assert (length (activations (activated_protocol_features m)) <= N)%nat as Hlen.
  { rewrite <- (length_fmap fst). apply distinct_below; [done|]. by apply Forall_fmap. }
  pose proof (f_equal fst Hl) as Hb. pose proof (f_equal snd Hl) as Hh. cbn [fst snd] in Hb, Hh. split.
  - unfold popped_blocks_to. rewrite Hi. cbn [EOS_ASSERT mbind result_bind]. rewrite Hb at 1. rewrite links_length, Hb, Hh.
    rewrite pop_builtins_links; [|by apply activations_small|done..|by apply activations_sorted].
    cbn [mbind result_bind]. rewrite pop_activated_filter, filter_activations by done. unfold with_activated.
    rewrite Hi. by destruct (builtin_links _ (activations (filter _ _))).
  - apply with_activated_ok; [done| | |].
    + intros e He. apply list_elem_of_filter in He as [_ He]. by apply Hr.
    + eapply sublist_NoDup; [exact Hd|]. apply fmap_sublist, sublist_filter.
    + eapply sublist_sorted; [|exact Hs]. apply fmap_sublist, sublist_filter.
Qed.

(** ** Starting from the database *)

(** The digests and blocks that the protocol state object keeps. *)
Definition stored (l : list protocol_feature_entry) : list (sha256 * Z) :=
  (fun e => (feature_digest (entry_feature e), entry_block_num e)) <$> l.

Lemma make_manager_ok pfs : feature_set_ok pfs -> manager_ok (set_initialized true (make_protocol_feature_manager pfs)).
Proof.
  intros Hp. split; cbn; [done|done|done|by intros e He%elem_of_nil|apply NoDup_nil_2|constructor].
Qed.

Lemma init_loop_Ok m l :
  manager_ok m -> manager_ok (with_activated m (activated_protocol_features m ++ l)) ->
  init_loop m (stored l) = (with_activated m (activated_protocol_features m ++ l), Ok tt).
Proof.
  revert m; induction l as [|e l IH]; intros m Hm Hall.
  { rewrite app_nil_r. cbn. by rewrite manager_eta. }
  assert (activated_protocol_features (with_activated m (activated_protocol_features m ++ e :: l)) = activated_protocol_features m ++ e :: l) as Ea
    by (unfold with_activated; by destruct (builtin_links _ _)).
  assert (pfm_protocol_feature_set (with_activated m (activated_protocol_features m ++ e :: l)) = pfm_protocol_feature_set m) as Es
    by (unfold with_activated; by destruct (builtin_links _ _)).
  pose proof Hall as [Hset _ _ Hr Hd Hs]. rewrite Ea in Hr, Hd, Hs. rewrite Es in Hset, Hr.
  assert (e ∈ activated_protocol_features m ++ e :: l) as He by (rewrite elem_of_app, elem_of_cons; auto).
  destruct (Hr e He) as [Hf Hn].
  destruct (activate_feature_Ok m (feature_digest (entry_feature e)) (entry_feature e) (entry_block_num e) Hm) as [E Hm'].
  - apply find_feature_unique; [|done]. apply sorted_digests, Hset.
  - done.
  - rewrite fmap_app, fmap_cons in Hd. apply NoDup_app in Hd as (_ & Hd & _). intros Hin. apply (Hd _ Hin). constructor.
  - intros x Hx. rewrite fmap_app, fmap_cons in Hs. apply last_Some in Hx as [l' Hx]. rewrite Hx in Hs.
    rewrite fmap_app in Hs. rewrite <- app_assoc in Hs. clear -Hs. induction (entry_block_num <$> l') as [|y ys IH].
    + cbn in Hs. apply StronglySorted_inv in Hs as [_ Hs]. by apply Forall_cons in Hs as [Hs _].
    + apply IH. by apply StronglySorted_inv in Hs as [Hs _].
  - cbn [stored fmap list_fmap init_loop]. rewrite E.
    set (m1 := with_activated m (activated_protocol_features m ++ [ProtocolFeatureEntry (entry_feature e) (entry_block_num e)])) in *.
    assert (activated_protocol_features m1 = activated_protocol_features m ++ [e]) as E1
      by (subst m1; unfold with_activated; destruct (builtin_links _ _); by destruct e).
    assert (with_activated m1 (activated_protocol_features m1 ++ l) = with_activated m (activated_protocol_features m ++ e :: l)) as E2.
    { rewrite E1, <- app_assoc. subst m1. unfold with_activated at 1 2. by destruct (builtin_links _ (activations (_ ++ [_]))). }
    fold (stored l). rewrite IH; [by rewrite E2|done|by rewrite E2].
Qed.

(** A manager started from what another one's activations were stored as is the
    same manager. *)
Lemma init_stored m :
  manager_ok m ->
  pfm_init (make_protocol_feature_manager (pfm_protocol_feature_set m)) (stored (activated_protocol_features m)) = (m, Ok tt).
Proof.
  intros Hm. pose proof Hm as [Hset Hi Hl _ _ _]. unfold pfm_init. cbn [is_initialized make_protocol_feature_manager].
  set (m0 := set_initialized true _). assert (with_activated m0 (activated_protocol_features m) = m) as E.
  { unfold with_activated. cbn [m0 set_initialized pfm_protocol_feature_set make_protocol_feature_manager is_initialized].
    rewrite <- Hl, <- Hi. by destruct m. }
  rewrite (init_loop_Ok m0 (activated_protocol_features m)); cbn [m0 set_initialized make_protocol_feature_manager activated_protocol_features app];
    fold m0; rewrite ?E; [done|by apply make_manager_ok|done].
Qed.
