(* ===== verification/FeatureRuns.v ===== *)
(** Activating protocol features in the controller (chain/controller.cpp and
    protocol_state_object.hpp): the checks on a block's new features, their
    activation when the block starts, pre-activation by a contract, and what
    happens to them when a block fails, is popped or aborted, or the node starts
    again.

    The database is its protocol state object, with an undo stack of one entry per
    block; a block that throws leaves no trace in it.  [std::hash], by which the
    whitelist of intrinsics is ordered, is the variable [hash]. *)
From Stdlib Require Import ZArith Lia ZifyBool Sorted.
From stdpp Require Import base tactics numbers list strings.
From S2P Require Import Prelude Digest Raw BlockHeader Whitelist ProtocolFeatures FeatureSet FeatureManager.
#[local] Open Scope Z_scope.
#[local] Opaque sha256_key.

(** ** State *)

Record protocol_state_object : Type := ProtocolStateObject {
  pso_activated : list (sha256 * Z);
  pso_preactivated : list sha256;
  pso_whitelisted_intrinsics : whitelisted_intrinsics_type;
  pso_num_supported_key_types : Z
}.

Definition genesis_num_supported_key_types : Z := 2.

(** The intrinsics that the activation handlers add to the whitelist. *)
Definition handler_intrinsics (c : builtin_protocol_feature_t) : list string :=
  match c with
  | bf_preactivate_feature => ["preactivate_feature"; "is_feature_activated"]
  | bf_get_sender => ["get_sender"]
  | bf_wtmsig_block_signatures => ["set_proposed_producers_ex"]
  | bf_action_return_value => ["set_action_return_value"]
  | bf_configurable_wasm_limits => ["set_wasm_parameters_packed"; "get_wasm_parameters_packed"]
  | bf_blockchain_parameters => ["get_parameters_packed"; "set_parameters_packed"]
  | bf_get_code_hash => ["get_code_hash"]
  | bf_get_block_num => ["get_block_num"]
  | bf_crypto_primitives => [
      "alt_bn128_add"; "alt_bn128_mul"; "alt_bn128_pair"; "mod_exp"; "blake2_f"; "sha3";
      "k1_recover"]
  | bf_bls_primitives => [
      "bls_g1_add"; "bls_g2_add"; "bls_g1_weighted_sum"; "bls_g2_weighted_sum"; "bls_pairing";
      "bls_g1_map"; "bls_g2_map"; "bls_fp_mod"; "bls_fp_mul"; "bls_fp_exp"]
  | bf_savanna => ["set_finalizers"]
  | bf_action_data_to_json => ["init_action_data_to_json"; "final_action_data_to_json"]
  | bf_block_reference_data => ["get_recent_block_id"; "get_last_irreversible_block_num"]
  | bf_producer_slot_stats => ["get_producer_slot_stats"]
  | bf_gas_fee_totals => ["get_gas_fee_totals"]
  | bf_producer_slot_stats_v2 => ["get_producer_slot_stats_v2"]
  | _ => []
  end%string.

Section Activation.
Variable hash : string -> Z.

(** [trigger_activation_handler] with the handlers [on_activation]. *)
Definition on_activation (c : builtin_protocol_feature_t) (pso : protocol_state_object) : result protocol_state_object :=
  match c with
  | bf_webauthn_key =>
      mret (ProtocolStateObject (pso_activated pso) (pso_preactivated pso) (pso_whitelisted_intrinsics pso) 3)
  | _ =>
      wl ← add_intrinsics hash (pso_whitelisted_intrinsics pso) (handler_intrinsics c);
      mret (ProtocolStateObject (pso_activated pso) (pso_preactivated pso) wl (pso_num_supported_key_types pso))
  end.

(** What [initialize_database] creates. *)
Definition genesis_protocol_state : result protocol_state_object :=
  wl ← add_intrinsics hash [] genesis_intrinsics;
  mret (ProtocolStateObject [] [] wl genesis_num_supported_key_types).

(** The rows of a snapshot ([snapshot_row_traits<protocol_state_object>]). *)
Record snapshot_protocol_state_object : Type := SnapshotProtocolState {
  sps_activated : list (sha256 * Z);
  sps_preactivated : list sha256;
  sps_whitelisted_intrinsics : list string;
  sps_num_supported_key_types : Z
}.
Definition to_snapshot_row (pso : protocol_state_object) : snapshot_protocol_state_object :=
  SnapshotProtocolState (pso_activated pso) (pso_preactivated pso)
    (convert_intrinsic_whitelist_to_set (pso_whitelisted_intrinsics pso)) (pso_num_supported_key_types pso).
Definition from_snapshot_row (row : snapshot_protocol_state_object) : protocol_state_object :=
  ProtocolStateObject (sps_activated row) (sps_preactivated row)
    (reset_intrinsic_whitelist hash (sps_whitelisted_intrinsics row)) (sps_num_supported_key_types row).

(** [check_protocol_features]; [before] are the new features that the iterator
    has passed. *)
Fixpoint check_features_from (pfs : protocol_feature_set) (timestamp : Z) (current before new : list sha256) : result unit :=
  match new with
  | [] => mret tt
  | f :: new =>
      _ ← (match is_recognized pfs f timestamp with
           | ready => mret tt
           | _ => Err protocol_feature_exception
           end);
      _ ← EOS_ASSERT (bool_decide (f ∉ current)) protocol_feature_exception;
      _ ← EOS_ASSERT (validate_dependencies pfs f (fun d => bool_decide (d ∈ current) || bool_decide (d ∈ before)))
            protocol_feature_exception;
      check_features_from pfs timestamp current (before ++ [f]) new
  end.
Definition check_protocol_features (pfs : protocol_feature_set) (timestamp : Z) (current new : list sha256) : result unit :=
  check_features_from pfs timestamp current [] new.

(** [building_block_common::is_protocol_feature_activated]: [activated] are the
    features at the parent, [num] how many of the new ones have been activated. *)
Definition is_protocol_feature_activated (activated new : list sha256) (num : nat) (d : sha256) : bool :=
  bool_decide (d ∈ activated) || bool_decide (d ∈ take num new).

(** [controller::preactivate_feature] while a block is being built. *)
Definition preactivate_feature (pfs : protocol_feature_set) (cur_time : Z) (is_speculative_block : bool)
    (activated : sha256 -> bool) (pso : protocol_state_object) (d : sha256) : result protocol_state_object :=
  _ ← (match is_recognized pfs d cur_time with
       | ready => mret tt
       | _ => Err (if is_speculative_block then subjective_block_production_exception else protocol_feature_bad_block_exception)
       end);
  _ ← EOS_ASSERT (negb (activated d)) protocol_feature_exception;
  _ ← EOS_ASSERT (bool_decide (d ∉ pso_preactivated pso)) protocol_feature_exception;
  _ ← EOS_ASSERT (validate_dependencies pfs d (fun x => activated x || bool_decide (x ∈ pso_preactivated pso)))
        protocol_feature_exception;
  mret (ProtocolStateObject (pso_activated pso) (pso_preactivated pso ++ [d]) (pso_whitelisted_intrinsics pso)
          (pso_num_supported_key_types pso)).

(** The loop of [start_block] over the new features.  [seen] is the [flat_map]
    of pre-activated features and whether they were activated, extended by those
    activated without; [count] counts the former.  The manager is returned also
    when an exception leaves the loop. *)
Fixpoint activate_loop (pfs : protocol_feature_set) (block_num : Z) (new : list sha256)
    (seen : list (sha256 * bool)) (count : Z) (m : protocol_feature_manager) (pso : protocol_state_object)
    : protocol_feature_manager * result (Z * protocol_state_object) :=
  match new with
  | [] => (m, mret (count, pso))
  | d :: new =>
      match (f ← get_protocol_feature pfs d;
             '(seen, count) ←
               match list_find (fun e => e.1 = d) seen with
               | None =>
                   _ ← EOS_ASSERT (negb (preactivation_required f)) protocol_feature_exception;
                   mret ((d, true) :: seen, count)
               | Some (i, (_, activated)) =>
                   _ ← EOS_ASSERT (negb activated) block_validate_exception;
                   mret (<[i := (d, true)]> seen, count + 1)
               end;
             pso ← match builtin_feature f with Some c => on_activation c pso | None => mret pso end;
             m ← activate_feature m d block_num;
             mret (seen, count, m, pso))
      with
      | Ok (seen, count, m, pso) => activate_loop pfs block_num new seen count m pso
      | Err e => (m, Err e)
      end
  end.

(** The part of [start_block] that deals with protocol features, for a block that
    is not ephemeral. *)
Definition start_block_features (pfs : protocol_feature_set) (block_num : Z) (new : list sha256)
    (m : protocol_feature_manager) (pso : protocol_state_object)
    : protocol_feature_manager * result protocol_state_object :=
  let num_preactivated := vsize (pso_preactivated pso) in
  if is_empty new then
    (m, _ ← EOS_ASSERT (num_preactivated =? 0) block_validate_exception; mret pso)
  else
    let '(m, r) := activate_loop pfs block_num new ((fun d => (d, false)) <$> pso_preactivated pso) 0 m pso in
    (m, '(count, pso) ← r;
        _ ← EOS_ASSERT ((num_preactivated =? 0) || (count =? num_preactivated)) block_validate_exception;
        mret (ProtocolStateObject (pso_activated pso ++ ((fun d => (d, block_num)) <$> new)) []
                (pso_whitelisted_intrinsics pso) (pso_num_supported_key_types pso))).

(** ** The node *)

(** The manager, the protocol state object, the number of the head block, the
    features that its header state has, and what the database returns to when
    blocks are popped. *)
Record node : Type := Node {
  n_manager : protocol_feature_manager;
  n_pso : protocol_state_object;
  n_head : Z;
  n_features : list sha256;
  n_undo : list (protocol_state_object * list sha256)
}.

(** A block: its time, its new features, whether it is being produced
    ([is_speculative_block()]) or validated, and the features that the onblock
    transaction and each of the other transactions pre-activate. *)
Record feature_block : Type := FeatureBlock {
  fb_timestamp : Z;
  fb_new_features : list sha256;
  fb_speculative : bool;
  fb_onblock : list sha256;
  fb_transactions : list (list sha256)
}.

Inductive node_op : Type :=
| op_apply (b : feature_block)      (* a block is validated or produced, and becomes the head *)
| op_abort (b : feature_block)      (* a block is started and aborted *)
| op_pop                            (* pop_block *)
| op_restart
| op_snapshot.                      (* the node starts from a snapshot of its state *)

Variable pfs : protocol_feature_set.

(** One transaction, which changes nothing when it throws. *)
Fixpoint preactivate_trx (b : feature_block) (features ds : list sha256) (pso : protocol_state_object) : result protocol_state_object :=
  match ds with
  | [] => mret pso
  | d :: ds =>
      pso ← preactivate_feature pfs (fb_timestamp b) (fb_speculative b)
              (is_protocol_feature_activated features (fb_new_features b) (length (fb_new_features b))) pso d;
      preactivate_trx b features ds pso
  end.

(** [start_block] catches whatever the onblock transaction throws. *)
Definition run_onblock (b : feature_block) (features : list sha256) (pso : protocol_state_object) : protocol_state_object :=
  match preactivate_trx b features (fb_onblock b) pso with Ok pso => pso | Err _ => pso end.

(** A transaction that fails is left out of a block that is produced; a block
    that is validated is refused, with the exception of the transaction, which
    [push_transaction] throws or [apply_block] takes from the trace. *)
Fixpoint run_transactions (b : feature_block) (features : list sha256) (trxs : list (list sha256)) (pso : protocol_state_object)
    : result protocol_state_object :=
  match trxs with
  | [] => mret pso
  | ds :: trxs =>
      match preactivate_trx b features ds pso with
      | Ok pso => run_transactions b features trxs pso
      | Err e => if fb_speculative b then run_transactions b features trxs pso else Err e
      end
  end.

(** The features of the header state: checked, and added to those of the parent
    when there are any. *)
Definition next_features (timestamp : Z) (current new : list sha256) : result (list sha256) :=
  _ ← check_protocol_features pfs timestamp current new;
  if is_empty new then mret current else protocol_feature_activation_set current new true.

(** From the check of the header to the last transaction.  After an exception in
    [start_block], or one after it by [abort_block], the manager is popped to the
    head block. *)
Definition execute_block (b : feature_block) (nd : node)
    : result (protocol_feature_manager * result (protocol_state_object * list sha256)) :=
  match next_features (fb_timestamp b) (n_features nd) (fb_new_features b) with
  | Err e => Ok (n_manager nd, Err e)
  | Ok features =>
      match start_block_features pfs (u32 (n_head nd + 1)) (fb_new_features b) (n_manager nd) (n_pso nd) with
      | (m, Ok pso) =>
          match run_transactions b (n_features nd) (fb_transactions b) (run_onblock b (n_features nd) pso) with
          | Ok pso => Ok (m, Ok (pso, features))
          | Err e => popped_blocks_to m (n_head nd) ≫= fun m => Ok (m, Err e)
          end
      | (m, Err e) => popped_blocks_to m (n_head nd) ≫= fun m => Ok (m, Err e)
      end
  end.

(** The node after an operation, with the exception of a block that is refused;
    an exception outside of that is the result's. *)
Definition node_step (op : node_op) (nd : node) : result (node * option exn) :=
  match op with
  | op_apply b =>
      '(m, r) ← execute_block b nd;
      mret match r with
           | Ok (pso, features) => (Node m pso (u32 (n_head nd + 1)) features ((n_pso nd, n_features nd) :: n_undo nd), None)
           | Err e => (Node m (n_pso nd) (n_head nd) (n_features nd) (n_undo nd), Some e)
           end
  | op_abort b =>
      '(m, r) ← execute_block b nd;
      match r with
      | Ok _ => m ← popped_blocks_to m (n_head nd); mret (Node m (n_pso nd) (n_head nd) (n_features nd) (n_undo nd), None)
      | Err e => mret (Node m (n_pso nd) (n_head nd) (n_features nd) (n_undo nd), Some e)
      end
  | op_pop =>
      match n_undo nd with
      | [] => mret (nd, Some block_validate_exception)
      | (pso, features) :: undo =>
          m ← popped_blocks_to (n_manager nd) (n_head nd - 1);
          mret (Node m pso (n_head nd - 1) features undo, None)
      end
  | op_restart =>
      let '(m, r) := pfm_init (make_protocol_feature_manager pfs) (pso_activated (n_pso nd)) in
      _ ← r; mret (Node m (n_pso nd) (n_head nd) (n_features nd) (n_undo nd), None)
  | op_snapshot =>
      let pso := from_snapshot_row (to_snapshot_row (n_pso nd)) in
      let '(m, r) := pfm_init (make_protocol_feature_manager pfs) (pso_activated pso) in
      _ ← r; mret (Node m pso (n_head nd) (n_features nd) [], None)
  end.

(** The node after the genesis block. *)
Definition genesis_node : result node :=
  pso ← genesis_protocol_state;
  let '(m, r) := pfm_init (make_protocol_feature_manager pfs) (pso_activated pso) in
  _ ← r; mret (Node m pso 1 [] []).

Fixpoint node_run (ops : list node_op) (nd : node) : result node :=
  match ops with
  | [] => mret nd
  | op :: ops => '(nd, _) ← node_step op nd; node_run ops nd
  end.
End Activation.

(** ** Intrinsics *)

Lemma bind_disjoint {A B} (f : A -> list B) (l : list A) x y b :
  NoDup (l ≫= f) -> x ∈ l -> y ∈ l -> b ∈ f x -> b ∈ f y -> x = y.
Proof.
  induction l as [|a l IH]; intros Hd Hx Hy Hbx Hby; [by apply elem_of_nil in Hx|].
  rewrite bind_cons in Hd. apply NoDup_app in Hd as (_ & Hn & Hd).
  assert (forall z, z ∈ l -> b ∈ f z -> b ∈ l ≫= f) as Hin by (intros z Hz Hbz; apply list_elem_of_bind; eauto).
  apply elem_of_cons in Hx as [->|Hx], Hy as [->|Hy]; [done| | |by apply IH].
  - destruct (Hn b Hbx). by apply (Hin y).
  - destruct (Hn b Hby). by apply (Hin x).
Qed.

Lemma intrinsics_distinct :
  NoDup (genesis_intrinsics ++ (builtin_protocol_feature_codenames.*1 ≫= handler_intrinsics)).
Proof. apply (bool_decide_unpack _). vm_compute. exact I. Qed.

(** The intrinsics of a feature are new when it has not been activated. *)
Lemma fresh_intrinsics c (cs : list builtin_protocol_feature_t) :
  c ∈ builtin_protocol_feature_codenames.*1 -> (forall x, x ∈ cs -> x ∈ builtin_protocol_feature_codenames.*1) -> c ∉ cs ->
  NoDup (handler_intrinsics c) /\ forall n, n ∈ handler_intrinsics c -> n ∉ genesis_intrinsics ++ (cs ≫= handler_intrinsics).
Proof.
  intros Hc Hcs Hnew. pose proof intrinsics_distinct as Hd. apply NoDup_app in Hd as (_ & Hg & Hd). split.
  - clear -Hc Hd. induction (builtin_protocol_feature_codenames.*1) as [|x l IH]; [by apply elem_of_nil in Hc|].
    rewrite bind_cons in Hd. apply NoDup_app in Hd as (Hx & _ & Hd). apply elem_of_cons in Hc as [->|Hc]; [done|by apply IH].
  - intros n Hn. rewrite not_elem_of_app. split.
    + intros Hin. apply (Hg n Hin). apply list_elem_of_bind. eauto.
    + intros Hin. apply list_elem_of_bind in Hin as (x & Hx & Hin). destruct Hnew.
      by rewrite (bind_disjoint _ _ c x n Hd Hc (Hcs x Hin) Hn Hx).
Qed.

(** ** The invariant *)

Section Runs.
Variable hash : string -> Z.
Context (pfs : protocol_feature_set) (Hpfs : feature_set_ok pfs).
Abbreviation recognized := (recognized_protocol_features pfs).

Definition builtin_of (d : sha256) : option builtin_protocol_feature_t := find_feature d recognized ≫= builtin_feature.
Definition builtins_of (ds : list sha256) : list builtin_protocol_feature_t := omap builtin_of ds.
Definition expected_key_types (ds : list sha256) : Z :=
  if bool_decide (bf_webauthn_key ∈ builtins_of ds) then 3 else genesis_num_supported_key_types.

(** What the database says of the features [l] that were activated. *)
Record pso_ok (l : list (sha256 * Z)) (pso : protocol_state_object) : Prop := {
  pk_whitelist : whitelist_ok hash (pso_whitelisted_intrinsics pso);
  pk_names : (pso_whitelisted_intrinsics pso).*2 ≡ₚ genesis_intrinsics ++ (builtins_of l.*1 ≫= handler_intrinsics);
  pk_key_types : pso_num_supported_key_types pso = expected_key_types l.*1
}.

Lemma builtin_of_recognized d f : find_feature d recognized = Some f ->
  exists c, builtin_feature f = Some c /\ builtin_of d = Some c /\ c ∈ builtin_protocol_feature_codenames.*1.
Proof.
  intros Hf. unfold builtin_of. rewrite Hf. pose proof Hf as [Hin _]%find_feature_Some.
  destruct (fo_builtin _ _ (fs_features _ Hpfs f Hin)) as (c & spec & Hc & Hs & _). exists c. cbn [mbind option_bind]. rewrite Hc.
  split_and!; [done|done|]. apply find_spec_elem in Hs. by apply (list_elem_of_fmap_2 fst _ (c, spec)).
Qed.

Lemma builtin_of_inj d1 d2 c : builtin_of d1 = Some c -> builtin_of d2 = Some c -> d1 = d2.
Proof.
  unfold builtin_of. destruct (find_feature d1 _) as [f1|] eqn:E1; [|done]. destruct (find_feature d2 _) as [f2|] eqn:E2; [|done].
  cbn. intros H1 H2. apply find_feature_Some in E1 as [Hf1 <-], E2 as [Hf2 <-]. f_equal.
  apply (index_unique _ Hpfs); [done|done|]. unfold feature_index. by rewrite H1, H2.
Qed.

Lemma builtins_of_elem c ds : c ∈ builtins_of ds <-> exists d, d ∈ ds /\ builtin_of d = Some c.
Proof. unfold builtins_of. rewrite list_elem_of_omap. done. Qed.

Lemma builtins_of_table c ds : c ∈ builtins_of ds -> c ∈ builtin_protocol_feature_codenames.*1.
Proof.
  intros (d & _ & Hd)%builtins_of_elem. pose proof Hd as H0. unfold builtin_of in Hd.
  destruct (find_feature d _) as [f|] eqn:E; [|done]. destruct (builtin_of_recognized d f E) as (c' & _ & Hc & Hin). congruence.
Qed.

(** The handler of a feature that is not active succeeds. *)
Lemma on_activation_ok l pso d c n :
  pso_ok l pso -> builtin_of d = Some c -> d ∉ l.*1 ->
  exists pso', on_activation hash c pso = Ok pso' /\ pso_ok (l ++ [(d, n)]) pso' /\
    pso_activated pso' = pso_activated pso /\ pso_preactivated pso' = pso_preactivated pso.
Proof.
  intros [Hw Hn Hk] Hc Hd. assert (c ∉ builtins_of l.*1) as Hnew.
  { intros (d' & Hd' & Hc')%builtins_of_elem. by rewrite (builtin_of_inj d d' c Hc Hc') in Hd. }
  assert (c ∈ builtins_of [d]) as Hin by (apply builtins_of_elem; exists d; split; [constructor|done]).
  destruct (fresh_intrinsics c (builtins_of l.*1)) as [Hnd Hfresh];
    [by eapply builtins_of_table|intros x Hx; by eapply builtins_of_table|done|].
  destruct (add_intrinsics_ok hash (pso_whitelisted_intrinsics pso) (handler_intrinsics c) Hw Hnd) as (wl & E & Hw' & Hp).
  { intros x Hx. rewrite Hn. by apply Hfresh. }
  assert (builtins_of (l ++ [(d, n)]).*1 = builtins_of l.*1 ++ [c]) as Eb
    by (unfold builtins_of; rewrite fmap_app, omap_app; cbn; by rewrite Hc).
  assert (wl.*2 ≡ₚ genesis_intrinsics ++ (builtins_of (l ++ [(d, n)]).*1 ≫= handler_intrinsics)) as Hp'.
  { rewrite Hp, Hn, Eb, bind_app. cbn [mbind list_bind]. rewrite app_nil_r, Permutation_app_comm. by rewrite <- app_assoc. }
  assert (expected_key_types (l ++ [(d, n)]).*1 = if bool_decide (c = bf_webauthn_key) then 3 else pso_num_supported_key_types pso) as Ek.
  { rewrite Hk. unfold expected_key_types. rewrite Eb. case_bool_decide as H1; case_bool_decide as H2; [done| |subst c|].
    - by rewrite bool_decide_eq_true_2 by (rewrite elem_of_app, list_elem_of_singleton in H1; destruct H1; congruence).
    - destruct H1. rewrite elem_of_app. right. constructor.
    - rewrite bool_decide_eq_false_2; [done|]. intros H3. apply H1. rewrite elem_of_app. auto. }
  destruct (decide (c = bf_webauthn_key)) as [->|Hne].
  - eexists. split; [reflexivity|]. split; [|done]. cbn in E. apply Ok_inj in E as <-. split; cbn; [done|done|].
    by rewrite Ek, bool_decide_eq_true_2.
  - rewrite bool_decide_eq_false_2 in Ek by done.
    assert (on_activation hash c pso = Ok (ProtocolStateObject (pso_activated pso) (pso_preactivated pso) wl (pso_num_supported_key_types pso))) as ->
      by (destruct c; try done; cbn [on_activation]; rewrite E; done).
    eexists. split; [reflexivity|]. split; [|done]. by split.
Qed.

(** *** The loop of [start_block] *)

Definition find_seen (d : sha256) (seen : list (sha256 * bool)) : option bool :=
  (fun x => x.2.2) <$> list_find (fun e => e.1 = d) seen.

Lemma find_seen_cons d e seen : find_seen d (e :: seen) = if bool_decide (e.1 = d) then Some e.2 else find_seen d seen.
Proof.
  unfold find_seen. cbn [list_find]. destruct (decide (e.1 = d)) as [E|E].
  - by rewrite bool_decide_eq_true_2.
  - rewrite bool_decide_eq_false_2 by done. by destruct (list_find _ seen) as [[]|].
Qed.

Lemma find_seen_insert d d' b b' i seen :
  seen !! i = Some (d', b') -> d <> d' -> find_seen d (<[i := (d', b)]> seen) = find_seen d seen.
Proof.
  revert i; induction seen as [|e seen IH]; intros [|i] Hi Hne; [done|done|injection Hi as ->|]; cbn [insert list_insert].
  - by rewrite !find_seen_cons, !bool_decide_eq_false_2 by done.
  - rewrite !find_seen_cons. by rewrite IH.
Qed.

Lemma find_seen_preactivated d (preact : list sha256) :
  find_seen d ((fun d => (d, false)) <$> preact) = if bool_decide (d ∈ preact) then Some false else None.
Proof.
  induction preact as [|x l IH]; [by rewrite bool_decide_eq_false_2 by apply not_elem_of_nil|].
  rewrite fmap_cons, find_seen_cons, IH. cbn [fst snd].
  destruct (decide (x = d)) as [->|Hne].
  - rewrite !bool_decide_eq_true_2; [done|constructor|done].
  - rewrite (bool_decide_eq_false_2 (x = d)) by done.
    rewrite (bool_decide_ext (d ∈ x :: l) (d ∈ l)); [done|]. rewrite elem_of_cons. naive_solver.
Qed.

(** Features that must be pre-activated were. *)
Definition allowed (preact new : list sha256) : Prop :=
  forall d f, d ∈ new -> find_feature d recognized = Some f -> preactivation_required f = true -> d ∈ preact.

(** The new features of a block are those it may and must activate. *)
Definition accepted (preact new : list sha256) : Prop := allowed preact new /\ forall d, d ∈ preact -> d ∈ new.

(** The manager and the database after the features [l]. *)
Record in_step (l : list (sha256 * Z)) (m : protocol_feature_manager) (pso : protocol_state_object) : Prop := {
  st_manager : manager_ok m;
  st_set : pfm_protocol_feature_set m = pfs;
  st_stored : stored (activated_protocol_features m) = l;
  st_pso : pso_ok l pso
}.

Lemma stored_elem d n l : (d, n) ∈ stored l <-> exists e, e ∈ l /\ feature_digest (entry_feature e) = d /\ entry_block_num e = n.
Proof.
  unfold stored. rewrite list_elem_of_fmap. split.
  - intros (e & E & He). simplify_eq. eauto.
  - intros (e & He & <- & <-). eauto.
Qed.

(** One feature of the loop. *)
Lemma activate_one l m pso d f c n :
  in_step l m pso -> 0 <= n < not_active -> Forall (fun e => e.2 <= n) l -> d ∉ l.*1 ->
  find_feature d recognized = Some f -> builtin_feature f = Some c ->
  exists m' pso', on_activation hash c pso = Ok pso' /\ activate_feature m d n = Ok m' /\ in_step (l ++ [(d, n)]) m' pso' /\
    pso_activated pso' = pso_activated pso /\ pso_preactivated pso' = pso_preactivated pso.
Proof.
  intros [Hm Hset Hst Hp] Hn Hle Hd Hf Hc.
  destruct (on_activation_ok l pso d c n Hp) as (pso' & E & Hp' & Ha & Hpre); [unfold builtin_of; by rewrite Hf|done|].
  pose proof Hf as [Hin Hdf]%find_feature_Some. rewrite <- Hset in Hf.
  destruct (activate_feature_Ok m d f n Hm Hf Hn) as [E2 Hm'].
  - intros (e & He & Hein)%list_elem_of_fmap. destruct Hd. rewrite <- Hst, <- Hdf, He.
    unfold stored. rewrite <- list_fmap_compose. by apply (list_elem_of_fmap_2 (fun e => feature_digest (entry_feature e)) _ e).
  - intros e He. rewrite Forall_forall in Hle. apply (Hle (feature_digest (entry_feature e), entry_block_num e)).
    rewrite <- Hst. apply stored_elem. exists e. split; [|done]. by apply last_Some_elem_of.
  - eexists _, pso'. split; [exact E|]. split; [exact E2|]. split; [|done]. split; [exact Hm'| | |done].
    + unfold with_activated. by destruct (builtin_links _ _).
    + assert (stored (activated_protocol_features m ++ [ProtocolFeatureEntry f n]) = l ++ [(d, n)]) as Es
        by (unfold stored in *; rewrite fmap_app, Hst; cbn; by rewrite Hdf).
      rewrite <- Es. unfold with_activated. by destruct (builtin_links _ _).
Qed.

Lemma activate_loop_spec n preact new seen count l m pso :
  in_step l m pso -> 0 <= n < not_active -> Forall (fun e => e.2 <= n) l -> NoDup new ->
  (forall d, d ∈ new -> (d ∉ l.*1) /\ exists f, find_feature d recognized = Some f) ->
  (forall d, d ∈ new -> find_seen d seen = if bool_decide (d ∈ preact) then Some false else None) ->
  let '(m', r) := activate_loop hash pfs n new seen count m pso in
  match r with
  | Ok (count', pso') =>
      in_step (l ++ ((fun d => (d, n)) <$> new)) m' pso' /\
      pso_activated pso' = pso_activated pso /\ pso_preactivated pso' = pso_preactivated pso /\
      count' = count + vsize (filter (fun d => d ∈ preact) new) /\ allowed preact new
  | Err e => e = protocol_feature_exception /\ ~ allowed preact new /\
      exists k pso', in_step (l ++ ((fun d => (d, n)) <$> take k new)) m' pso'
  end.
Proof.
  intros Hst Hn. revert seen count l m pso Hst; induction new as [|d new IH]; intros seen count l m pso Hst Hle Hnd Hnew Hseen.
  { cbn [activate_loop mret result_ret fmap list_fmap]. rewrite app_nil_r, filter_nil. split_and!; [done|done|done|unfold vsize; cbn [length]; lia|].
    intros d f Hd. by apply elem_of_nil in Hd. }
  apply NoDup_cons in Hnd as [Hdn Hnd]. destruct (Hnew d ltac:(constructor)) as [Hdl [f Hf]].
  destruct (builtin_of_recognized d f Hf) as (c & Hc & _).
  destruct (activate_one l m pso d f c n Hst Hn Hle Hdl Hf Hc) as (m1 & pso1 & E1 & E2 & Hst1 & Ha & Hpre).
  pose proof (Hseen d ltac:(constructor)) as Hsd. cbn [activate_loop]. unfold get_protocol_feature. rewrite Hf, ret_bind.
  assert (forall d', d' ∈ new -> (d' ∉ (l ++ [(d, n)]).*1) /\ exists f, find_feature d' recognized = Some f) as Hnew'.
  { intros d' Hd'. destruct (Hnew d' ltac:(by constructor)) as [H1 H2]. split; [|done].
    rewrite fmap_app, not_elem_of_app. split; [done|]. cbn. rewrite list_elem_of_singleton. by intros ->. }
  assert (Forall (fun e => e.2 <= n) (l ++ [(d, n)])) as Hle' by (apply Forall_app; split; [done|apply Forall_singleton, Z.le_refl]).
  assert (forall seen' count', (forall d', d' ∈ new -> find_seen d' seen' = find_seen d' seen) ->
    count' = count + Z_of_bool (bool_decide (d ∈ preact)) -> (preactivation_required f = true -> d ∈ preact) ->
    let '(m', r) := activate_loop hash pfs n new seen' count' m1 pso1 in
    match r with
    | Ok (count', pso') =>
        in_step (l ++ ((fun d => (d, n)) <$> d :: new)) m' pso' /\
        pso_activated pso' = pso_activated pso /\ pso_preactivated pso' = pso_preactivated pso /\
        count' = count + vsize (filter (fun d => d ∈ preact) (d :: new)) /\ allowed preact (d :: new)
    | Err e => e = protocol_feature_exception /\ ~ allowed preact (d :: new) /\
        exists k pso', in_step (l ++ ((fun d => (d, n)) <$> take k (d :: new))) m' pso'
    end) as Hrest.
  { intros seen' count' Hseen' -> Hreq.
    specialize (IH seen' (count + Z_of_bool (bool_decide (d ∈ preact))) _ _ _ Hst1 Hle' Hnd Hnew').
    destruct (activate_loop _ _ _ _ _ _ _ _) as [m' [[count' pso']|e]].
    - destruct IH as (H1 & H2 & H3 & -> & H5); [intros d' Hd'; rewrite Hseen' by done; apply Hseen; by constructor|].
      rewrite <- app_assoc in H1. split_and!; [done|congruence|congruence| |].
      + rewrite filter_cons. case_bool_decide as Hb; [rewrite decide_True by done|rewrite decide_False by done]; unfold vsize; cbn; lia.
      + intros d' f' Hd' Hf' Hr. apply elem_of_cons in Hd' as [->|Hd']; [apply Hreq; congruence|by eapply H5].
    - destruct IH as (-> & H2 & k & pso' & H3); [intros d' Hd'; rewrite Hseen' by done; apply Hseen; by constructor|].
      split_and!; [done| |].
      + intros Hall. apply H2. intros d' f' Hd'. apply Hall. by constructor.
      + exists (S k), pso'. by rewrite <- app_assoc in H3. }
  unfold find_seen in Hsd. destruct (list_find (fun e => e.1 = d) seen) as [[i [d0 b]]|] eqn:Ef; cbn [fmap option_fmap option_map snd fst] in Hsd.
  - case_bool_decide as Hb; [|done]. injection Hsd as ->. apply list_find_Some in Ef as (Hi & Hd0 & _). cbn in Hd0. subst d0.
    cbn [negb EOS_ASSERT mbind result_bind mret result_ret]. rewrite Hc, E1. cbn [mbind result_bind]. rewrite E2.
    cbn [mbind result_bind mret result_ret]. apply Hrest.
    + intros d' Hd'. eapply find_seen_insert; [exact Hi|]. by intros ->.
    + done.
    + done.
  - case_bool_decide as Hb; [done|]. destruct (preactivation_required f) eqn:Er; cbn [negb EOS_ASSERT mbind result_bind mret result_ret].
    + split_and!; [done| |].
      * intros Hall. apply Hb. by eapply Hall; [constructor|exact Hf|].
      * exists O, pso. cbn. by rewrite app_nil_r.
    + rewrite Hc, E1. cbn [mbind result_bind]. rewrite E2. cbn [mbind result_bind mret result_ret]. apply Hrest.
      * intros d' Hd'. rewrite find_seen_cons. cbn. rewrite bool_decide_eq_false_2; [done|]. by intros ->.
      * cbn [Z_of_bool]. lia.
      * done.
Qed.

Lemma count_all (preact new : list sha256) :
  NoDup preact -> NoDup new ->
  (vsize (filter (fun d => d ∈ preact) new) = vsize preact <-> forall d, d ∈ preact -> d ∈ new).
Proof.
  intros Hp Hn. assert (NoDup (filter (fun d => d ∈ preact) new)) as Hf by by apply NoDup_filter. unfold vsize. split.
  - intros E d Hd. assert (filter (fun d => d ∈ preact) new ≡ₚ preact) as Hperm.
    { apply submseteq_length_Permutation; [|lia]. apply NoDup_submseteq; [done|]. by intros x [? _]%list_elem_of_filter. }
    rewrite <- Hperm in Hd. by apply list_elem_of_filter in Hd as [_ ?].
  - intros Hin. f_equal. apply Permutation_length, NoDup_Permutation; [done|done|]. intros d. rewrite list_elem_of_filter.
    split; [tauto|]. auto.
Qed.

(** At the start of a block: its features are activated exactly when every
    feature that needs it was pre-activated and every pre-activated feature is
    among them; otherwise the block is refused, and what was activated up to
    there are the first of its features. *)
Lemma start_block_features_spec n new l m pso :
  in_step l m pso -> 0 <= n < not_active -> Forall (fun e => e.2 <= n) l -> NoDup new -> NoDup (pso_preactivated pso) ->
  (forall d, d ∈ new -> (d ∉ l.*1) /\ exists f, find_feature d recognized = Some f) ->
  let '(m', r) := start_block_features hash pfs n new m pso in
  match r with
  | Ok pso' => accepted (pso_preactivated pso) new /\ in_step (l ++ ((fun d => (d, n)) <$> new)) m' pso' /\
      pso_activated pso' = pso_activated pso ++ ((fun d => (d, n)) <$> new) /\ pso_preactivated pso' = []
  | Err e => ~ accepted (pso_preactivated pso) new /\ exists k pso', in_step (l ++ ((fun d => (d, n)) <$> take k new)) m' pso'
  end.
Proof.
  intros Hst Hn Hle Hnd Hpd Hnew. unfold start_block_features. destruct new as [|d0 new0] eqn:En; cbn [is_empty].
  - cbn [fmap list_fmap]. rewrite !app_nil_r. unfold EOS_ASSERT. destruct (Z.eqb_spec (vsize (pso_preactivated pso)) 0) as [E|E];
      cbn [mbind result_bind mret result_ret].
    + assert (pso_preactivated pso = []) as Ep by (by apply nil_length_inv; unfold vsize in E; lia). rewrite Ep.
      split_and!; [|done|done|done..]. split; [intros d f Hd|intros d Hd]; by apply elem_of_nil in Hd.
    + split; [|exists O, pso; cbn; by rewrite app_nil_r]. intros [_ Hall]. apply E. destruct (pso_preactivated pso) as [|x t]; [done|].
      specialize (Hall x ltac:(constructor)). by apply elem_of_nil in Hall.
  - rewrite <- En in *. clear En. clear d0 new0.
    pose proof (activate_loop_spec n (pso_preactivated pso) new ((fun d => (d, false)) <$> pso_preactivated pso) 0 l m pso
      Hst Hn Hle Hnd Hnew (fun d _ => find_seen_preactivated d _)) as H.
    destruct (activate_loop _ _ _ _ _ _ _ _) as [m' [[count pso']|e]]; cbn [mbind result_bind].
    + destruct H as (H1 & H2 & H3 & -> & H5). pose proof (count_all (pso_preactivated pso) new Hpd Hnd) as Hc.
      unfold EOS_ASSERT.
      destruct (Z.eqb_spec (vsize (pso_preactivated pso)) 0) as [E|E];
        [|destruct (Z.eqb_spec (0 + vsize (filter (fun d => d ∈ pso_preactivated pso) new)) (vsize (pso_preactivated pso))) as [E2|E2]];
        cbn [orb mbind result_bind mret result_ret].
      * assert (pso_preactivated pso = []) as Ep by (by apply nil_length_inv; unfold vsize in E; lia).
        destruct H1 as [A1 A2 A3 [A4 A5 A6]]. cbn. rewrite H2. split_and!; [|by split|done|done]. split; [done|].
        rewrite Ep. intros d Hd. by apply elem_of_nil in Hd.
      * destruct H1 as [A1 A2 A3 [A4 A5 A6]]. cbn. rewrite H2. split_and!; [|by split|done|done]. split; [done|]. apply Hc. lia.
      * split; [|exists (length new), pso'; by rewrite firstn_all]. intros [_ Hall]. apply Hc in Hall. lia.
    + destruct H as (_ & H2 & k & pso' & H3). split; [by intros [? _]|eauto].
Qed.

(** *** The node *)

Record state_ok (pso : protocol_state_object) (features : list sha256) (head : Z) : Prop := {
  so_head : 1 <= head;
  so_features : features ≡ₚ (pso_activated pso).*1;
  so_recognized : forall d, d ∈ (pso_activated pso).*1 ->
    exists f, find_feature d recognized = Some f /\ forall x, x ∈ pf_dependencies f -> x ∈ (pso_activated pso).*1;
  so_blocks : Forall (fun e => e.2 <= head) (pso_activated pso);
  so_preactivated : NoDup (pso_preactivated pso);
  so_pending : forall d, d ∈ pso_preactivated pso -> (d ∉ (pso_activated pso).*1) /\ exists f, find_feature d recognized = Some f;
  so_pso : pso_ok (pso_activated pso) pso
}.

(** Popping a block takes the features activated in it away. *)
Fixpoint undo_ok (pso : protocol_state_object) (head : Z) (undo : list (protocol_state_object * list sha256)) : Prop :=
  match undo with
  | [] => True
  | (p, features) :: undo =>
      state_ok p features (head - 1) /\
      pso_activated p = filter (fun e => e.2 <= head - 1) (pso_activated pso) /\ undo_ok p (head - 1) undo
  end.

Record node_ok (nd : node) : Prop := {
  no_step : in_step (pso_activated (n_pso nd)) (n_manager nd) (n_pso nd);
  no_state : state_ok (n_pso nd) (n_features nd) (n_head nd);
  no_undo : undo_ok (n_pso nd) (n_head nd) (n_undo nd)
}.

Lemma stored_filter n l : stored (filter (fun e => entry_block_num e <= n) l) = filter (fun e => e.2 <= n) (stored l).
Proof.
  induction l as [|e l IH]; [done|]. unfold stored. rewrite fmap_cons, !filter_cons. cbn [snd].
  case_decide; rewrite ?fmap_cons; fold (stored l); by rewrite <- IH.
Qed.

Lemma popped_in_step l m pso n pso' :
  in_step l m pso -> pso_ok (filter (fun e => e.2 <= n) l) pso' ->
  exists m', popped_blocks_to m n = Ok m' /\ in_step (filter (fun e => e.2 <= n) l) m' pso'.
Proof.
  intros [Hm Hs Hl _] Hp. destruct (popped_blocks_to_Ok m n Hm) as [E Hm']. eexists. split; [exact E|].
  split; [exact Hm'| | |done].
  - unfold with_activated. by destruct (builtin_links _ _).
  - rewrite <- Hl, <- stored_filter. unfold with_activated. by destruct (builtin_links _ _).
Qed.

(** The manager is determined by what is stored. *)
Lemma in_step_unique l m1 m2 p1 p2 : in_step l m1 p1 -> in_step l m2 p2 -> m1 = m2.
Proof.
  intros [H1 S1 L1 _] [H2 S2 L2 _]. rewrite <- (manager_eta m1 H1), <- (manager_eta m2 H2).
  assert (activated_protocol_features m1 = activated_protocol_features m2) as Ea.
  { pose proof (mo_recognized _ H1) as R1. pose proof (mo_recognized _ H2) as R2. rewrite S1 in R1. rewrite S2 in R2.
    assert (stored (activated_protocol_features m1) = stored (activated_protocol_features m2)) as E by congruence.
    clear -E R1 R2 Hpfs. revert E R1 R2. generalize (activated_protocol_features m1) as l1, (activated_protocol_features m2) as l2.
    induction l1 as [|[f1 n1] l1 IH]; intros [|[f2 n2] l2] E R1 R2; cbn in E; [done|done|done|].
    injection E as Ed -> Et. f_equal; [|apply IH; [done|intros e He; apply R1; by constructor|intros e He; apply R2; by constructor]].
    destruct (R1 _ ltac:(constructor)) as [I1 _], (R2 _ ltac:(constructor)) as [I2 _]. cbn in I1, I2. f_equal.
    pose proof (sorted_digests _ (fs_sorted _ Hpfs)) as Hnd.
    pose proof (find_feature_unique _ _ Hnd I1). pose proof (find_feature_unique _ _ Hnd I2). congruence. }
  unfold with_activated. rewrite S1, S2, Ea. destruct (builtin_links _ _).
  by rewrite (mo_initialized _ H1), (mo_initialized _ H2).
Qed.

(** What [check_protocol_features] demands. *)
Lemma check_spec ts current before new :
  check_features_from pfs ts current before new = Ok tt ->
  forall d, d ∈ new -> (d ∉ current) /\ exists f, find_feature d recognized = Some f /\
    forall x, x ∈ pf_dependencies f -> x ∈ current \/ x ∈ before ++ new.
Proof.
  revert before; induction new as [|d new IH]; intros before E d' Hd'; [by apply elem_of_nil in Hd'|].
  cbn [check_features_from] in E. inv_result. apply elem_of_cons in Hd' as [->|Hd'].
  - apply bool_decide_eq_true in Ha0. split; [done|]. unfold validate_dependencies in Ha1.
    destruct (find_feature d recognized) as [f|]; [|done]. exists f. split; [done|]. intros x Hx.
    rewrite forallb_forall in Ha1. specialize (Ha1 x ltac:(by apply list_elem_of_In)).
    apply orb_true_iff in Ha1 as [H1|H1]; apply bool_decide_eq_true in H1; [auto|]. right. rewrite elem_of_app. auto.
  - destruct (IH _ E d' Hd') as (H1 & f & Hf & H2). split; [done|]. exists f. split; [done|]. intros x Hx.
    destruct (H2 x Hx) as [?|Hin]; [auto|]. right. by rewrite <- app_assoc in Hin.
Qed.

Lemma next_features_spec ts current new features :
  next_features pfs ts current new = Ok features ->
  features ≡ₚ current ++ new /\ NoDup new /\
  forall d, d ∈ new -> (d ∉ current) /\ exists f, find_feature d recognized = Some f /\
    forall x, x ∈ pf_dependencies f -> x ∈ current ++ new.
Proof.
  intros E. unfold next_features in E. apply bind_Ok in E as ([] & Hc & E). split_and!.
  - destruct new as [|d new]; cbn [is_empty] in E; [inv_result; by rewrite app_nil_r|].
    destruct (decide (NoDup (sha256_key <$> (current ++ d :: new)))) as [Hd|Hd].
    + destruct (proj1 (activation_set_correct current (d :: new)) Hd) as (s & Es & _ & Hp). congruence.
    + by rewrite (proj2 (activation_set_correct current (d :: new)) Hd) in E.
  - destruct new as [|d new]; cbn [is_empty] in E; [apply NoDup_nil_2|].
    destruct (decide (NoDup (sha256_key <$> (current ++ d :: new)))) as [Hd|Hd].
    + apply NoDup_fmap_1 in Hd. by apply NoDup_app in Hd as (_ & _ & ?).
    + by rewrite (proj2 (activation_set_correct current (d :: new)) Hd) in E.
  - intros d Hd. destruct (check_spec _ _ _ _ Hc d Hd) as (H1 & f & Hf & H2). split; [done|]. exists f. split; [done|].
    intros x Hx. rewrite elem_of_app. by apply H2 in Hx.
Qed.

(** A feature can be pre-activated in a block on a chain with [features], after
    those [pending]: the node knows it and it may be activated at this time, it is
    neither active nor pending, and its dependencies are. *)
Definition may_preactivate (b : feature_block) (features pending : list sha256) (d : sha256) : Prop :=
  is_recognized pfs d (fb_timestamp b) = ready /\ (d ∉ features ++ fb_new_features b) /\ (d ∉ pending) /\
  exists f, find_feature d recognized = Some f /\
    forall x, x ∈ pf_dependencies f -> x ∈ (features ++ fb_new_features b) ++ pending.
Fixpoint all_granted (b : feature_block) (features pending ds : list sha256) : Prop :=
  match ds with
  | [] => True
  | d :: ds => may_preactivate b features pending d /\ all_granted b features (pending ++ [d]) ds
  end.

(** What is pending after the onblock transaction: all it asked for, or nothing. *)
Definition after_onblock (b : feature_block) (features pending : list sha256) : Prop :=
  (all_granted b features [] (fb_onblock b) /\ pending = fb_onblock b) \/
  (~ all_granted b features [] (fb_onblock b) /\ pending = []).

Definition with_preactivated (pso : protocol_state_object) (l : list sha256) : protocol_state_object :=
  ProtocolStateObject (pso_activated pso) l (pso_whitelisted_intrinsics pso) (pso_num_supported_key_types pso).

Lemma activated_iff b features d :
  is_protocol_feature_activated features (fb_new_features b) (length (fb_new_features b)) d = true <-> d ∈ features ++ fb_new_features b.
Proof. unfold is_protocol_feature_activated. by rewrite firstn_all, orb_true_iff, !bool_decide_eq_true, elem_of_app. Qed.

Lemma preactivate_feature_iff b features pso d pso' :
  preactivate_feature pfs (fb_timestamp b) (fb_speculative b)
    (is_protocol_feature_activated features (fb_new_features b) (length (fb_new_features b))) pso d = Ok pso' <->
  may_preactivate b features (pso_preactivated pso) d /\ pso' = with_preactivated pso (pso_preactivated pso ++ [d]).
Proof.
  unfold preactivate_feature, may_preactivate. rewrite !bind_Ok.
  assert ((exists x, match is_recognized pfs d (fb_timestamp b) with ready => mret tt | _ => Err (if fb_speculative b
    then subjective_block_production_exception else protocol_feature_bad_block_exception) end = Ok x) <->
    is_recognized pfs d (fb_timestamp b) = ready) as Hr.
  { destruct (is_recognized _ _ _); split; intros; naive_solver. }
  assert (validate_dependencies pfs d (fun x => is_protocol_feature_activated features (fb_new_features b) (length (fb_new_features b)) x
    || bool_decide (x ∈ pso_preactivated pso)) = true <->
    exists f, find_feature d recognized = Some f /\ forall x, x ∈ pf_dependencies f -> x ∈ (features ++ fb_new_features b) ++ pso_preactivated pso) as Hd.
  { unfold validate_dependencies. destruct (find_feature d recognized) as [f|]; [|naive_solver].
    rewrite forallb_forall.
    assert (forall x, is_protocol_feature_activated features (fb_new_features b) (length (fb_new_features b)) x ||
      bool_decide (x ∈ pso_preactivated pso) = true <-> x ∈ (features ++ fb_new_features b) ++ pso_preactivated pso) as Hx.
    { intros x. by rewrite orb_true_iff, activated_iff, bool_decide_eq_true, (elem_of_app (features ++ _)). }
    split.
    - intros Hall. exists f. split; [done|]. intros x Hin%list_elem_of_In. by apply Hx, Hall.
    - intros (f' & [= <-] & Hall) x Hin%list_elem_of_In. by apply Hx, Hall. }
  split.
  - intros (x & Hx & E). inv_result. split; [|done]. apply bool_decide_eq_true in Ha0. apply negb_true_iff in Ha.
    split_and!; [apply Hr; eauto| |done|by apply Hd]. intros Hin. apply activated_iff in Hin. congruence.
  - intros ((H1 & H2 & H3 & H4) & ->). apply Hr in H1 as [x Hx]. exists x. split; [done|].
    assert (is_protocol_feature_activated features (fb_new_features b) (length (fb_new_features b)) d = false) as ->
      by (apply not_true_iff_false; by rewrite activated_iff).
    apply Hd in H4 as ->. by rewrite bool_decide_eq_true_2 by done.
Qed.

Lemma with_preactivated_id pso : with_preactivated pso (pso_preactivated pso) = pso.
Proof. by destruct pso. Qed.

Lemma preactivate_trx_iff b features ds pso pso' :
  preactivate_trx pfs b features ds pso = Ok pso' <->
  all_granted b features (pso_preactivated pso) ds /\ pso' = with_preactivated pso (pso_preactivated pso ++ ds).
Proof.
  revert pso; induction ds as [|d ds IH]; intros pso; cbn [preactivate_trx all_granted].
  - rewrite app_nil_r, with_preactivated_id. split; [intros E; inv_result; done|by intros [_ ->]].
  - rewrite bind_Ok. setoid_rewrite preactivate_feature_iff. setoid_rewrite IH. split.
    + intros (p & [H1 ->] & H2 & ->). cbn in *. by rewrite <- app_assoc.
    + intros ([H1 H2] & ->). eexists. split; [by split|]. cbn. by rewrite <- app_assoc.
Qed.

Lemma all_granted_app b features pending ds ds' :
  all_granted b features pending (ds ++ ds') <-> all_granted b features pending ds /\ all_granted b features (pending ++ ds) ds'.
Proof.
  revert pending; induction ds as [|d ds IH]; intros pending; cbn [all_granted app]; [rewrite app_nil_r; naive_solver|].
  rewrite IH, <- app_assoc. cbn. tauto.
Qed.

(** The transactions of a validated block. *)
Lemma run_transactions_iff b features trxs pso pso' :
  fb_speculative b = false ->
  run_transactions pfs b features trxs pso = Ok pso' <->
  all_granted b features (pso_preactivated pso) (concat trxs) /\ pso' = with_preactivated pso (pso_preactivated pso ++ concat trxs).
Proof.
  intros Hv. revert pso; induction trxs as [|ds trxs IH]; intros pso; cbn [run_transactions concat].
  - rewrite app_nil_r, with_preactivated_id. split; [intros E; inv_result; done|by intros [_ ->]].
  - rewrite all_granted_app. destruct (preactivate_trx pfs b features ds pso) as [p|e] eqn:E.
    + apply preactivate_trx_iff in E as [Hg ->]. rewrite IH. cbn. rewrite <- app_assoc. tauto.
    + rewrite Hv. split; [done|]. intros [[Hg _] _]. assert (Err e = Ok (with_preactivated pso (pso_preactivated pso ++ ds))) as Hx; [|done].
      rewrite <- E. by apply preactivate_trx_iff.
Qed.

Lemma run_transactions_speculative b features trxs pso :
  fb_speculative b = true -> exists pso', run_transactions pfs b features trxs pso = Ok pso'.
Proof.
  intros Hv. revert pso; induction trxs as [|ds trxs IH]; intros pso; cbn [run_transactions]; [by eexists|].
  destruct (preactivate_trx _ _ _ _ _); [apply IH|]. rewrite Hv. apply IH.
Qed.

Lemma run_onblock_pending b features pso :
  pso_preactivated pso = [] ->
  exists pending, after_onblock b features pending /\ run_onblock pfs b features pso = with_preactivated pso pending.
Proof.
  intros Hp. unfold run_onblock, after_onblock. destruct (preactivate_trx pfs b features (fb_onblock b) pso) as [p|e] eqn:E.
  - apply preactivate_trx_iff in E as [Hg ->]. rewrite Hp in Hg |- *. exists (fb_onblock b). auto.
  - exists []. split; [|rewrite <- Hp; symmetry; apply with_preactivated_id]. right. split; [|done]. intros Hg.
    assert (Err e = Ok (with_preactivated pso (pso_preactivated pso ++ fb_onblock b))) as Hx; [|done].
    rewrite <- E. apply preactivate_trx_iff. by rewrite Hp.
Qed.

Lemma after_onblock_unique b features p q : after_onblock b features p -> after_onblock b features q -> p = q.
Proof. unfold after_onblock. naive_solver. Qed.

(** Pre-activation keeps the state. *)
Lemma preactivate_trx_ok b features features' head ds pso pso' :
  state_ok pso features' head -> features' ≡ₚ features ++ fb_new_features b ->
  preactivate_trx pfs b features ds pso = Ok pso' ->
  state_ok pso' features' head /\ pso_activated pso' = pso_activated pso.
Proof.
  intros Hst Hp [Hg ->]%preactivate_trx_iff. split; [|done]. revert Hg.
  destruct Hst as [H1 H2 H3 H4 H5 H6 [K1 K2 K3]]. intros Hg.
  split; cbn [with_preactivated pso_activated pso_preactivated]; [done|done|done|done| | |by split].
  - clear -H5 Hg. revert H5 Hg. generalize (pso_preactivated pso). induction ds as [|d ds IH]; intros l Hl Hg; [by rewrite app_nil_r|].
    cbn in Hg. destruct Hg as [(_ & _ & Hn & _) Hg]. rewrite cons_middle, app_assoc. apply IH; [|done].
    apply NoDup_app. split_and!; [done| |apply NoDup_singleton]. by intros x Hx ->%list_elem_of_singleton.
  - assert (forall x, x ∈ ds -> (x ∉ (pso_activated pso).*1) /\ exists f, find_feature x recognized = Some f) as Hds.
    { revert Hg. generalize (pso_preactivated pso). induction ds as [|d ds IH]; intros l Hg x Hx; [by apply elem_of_nil in Hx|].
      cbn in Hg. destruct Hg as [(_ & Hn & _ & f & Hf & _) Hg]. apply elem_of_cons in Hx as [->|Hx]; [|by eapply IH].
      split; [by rewrite <- H2, Hp|eauto]. }
    intros x. rewrite elem_of_app. intros [Hx|Hx]; [by apply H6|by apply Hds].
Qed.

Lemma run_transactions_ok b features features' head trxs pso pso' :
  state_ok pso features' head -> features' ≡ₚ features ++ fb_new_features b ->
  run_transactions pfs b features trxs pso = Ok pso' ->
  state_ok pso' features' head /\ pso_activated pso' = pso_activated pso.
Proof.
  intros Hst Hp. revert pso Hst. induction trxs as [|ds trxs IH]; intros pso Hst E; cbn [run_transactions] in E; [inv_result; done|].
  destruct (preactivate_trx _ _ _ _ _) as [p|e] eqn:Et.
  - destruct (preactivate_trx_ok _ _ _ _ _ _ _ Hst Hp Et) as [Hst' Ea]. destruct (IH p Hst' E). split; [done|congruence].
  - destruct (fb_speculative b); [|done]. by apply IH.
Qed.

Lemma run_onblock_ok b features features' head pso :
  state_ok pso features' head -> features' ≡ₚ features ++ fb_new_features b ->
  state_ok (run_onblock pfs b features pso) features' head /\ pso_activated (run_onblock pfs b features pso) = pso_activated pso.
Proof.
  intros Hst Hp. unfold run_onblock. destruct (preactivate_trx _ _ _ _ _) as [p|e] eqn:Et; [|done]. by eapply preactivate_trx_ok.
Qed.

(** What the transactions of a block have to ask for: a block that is produced
    leaves those out that fail. *)
Definition transactions_pass (b : feature_block) (features : list sha256) : Prop :=
  fb_speculative b = false -> forall pending, after_onblock b features pending ->
  all_granted b features pending (concat (fb_transactions b)).

Lemma filter_old (l : list (sha256 * Z)) n (ds : list sha256) :
  Forall (fun e => e.2 <= n) l -> filter (fun e => e.2 <= n) (l ++ ((fun d => (d, n + 1)) <$> ds)) = l.
Proof.
  intros Hl. rewrite filter_app, filter_true by done.
  replace (filter _ (_ <$> ds)) with (@nil (sha256 * Z)); [apply app_nil_r|]. symmetry.
  induction ds as [|d ds IH]; [done|]. rewrite fmap_cons, filter_cons_False by (cbn; lia). done.
Qed.

(** The state after the activations of a block. *)
Lemma state_ok_next pso features head new features' pso' :
  state_ok pso features head -> features' ≡ₚ features ++ new ->
  (forall d, d ∈ new -> exists f, find_feature d recognized = Some f /\ forall x, x ∈ pf_dependencies f -> x ∈ features ++ new) ->
  pso_activated pso' = pso_activated pso ++ ((fun d => (d, head + 1)) <$> new) -> pso_preactivated pso' = [] ->
  pso_ok (pso_activated pso') pso' -> state_ok pso' features' (head + 1).
Proof.
  intros [H1 H2 H3 H4 H5 H6 H7] Hf Hn Ea Ep Hok.
  assert ((pso_activated pso').*1 = (pso_activated pso).*1 ++ new) as E1.
  { rewrite Ea, fmap_app. f_equal. rewrite <- list_fmap_compose. cbn. apply list_fmap_id. }
  split; rewrite ?E1.
  - lia.
  - by rewrite Hf, H2.
  - intros d. rewrite elem_of_app. intros [Hd|Hd].
    + destruct (H3 d Hd) as (f & Hff & Hx). exists f. split; [done|]. intros x Hin. rewrite elem_of_app. auto.
    + destruct (Hn d Hd) as (f & Hff & Hx). exists f. split; [done|]. intros x Hin. rewrite <- H2. by apply Hx.
  - rewrite Ea. apply Forall_app. split; [eapply Forall_impl; [exact H4|]; cbn; lia|].
    apply Forall_fmap, Forall_forall. intros d _. cbn. lia.
  - rewrite Ep. apply NoDup_nil_2.
  - rewrite Ep. intros d Hd. by apply elem_of_nil in Hd.
  - done.
Qed.

(** A snapshot keeps the names of the whitelist. *)
Lemma snapshot_pso_ok l pso : pso_ok l pso -> pso_ok l (from_snapshot_row hash (to_snapshot_row pso)).
Proof.
  intros [Hw Hn Hk]. destruct (snapshot_whitelist hash _ Hw) as [Hw' Hn']. split; cbn; [done|by rewrite Hn'|done].
Qed.

Lemma execute_block_spec b nd :
  node_ok nd -> n_head nd + 1 < not_active ->
  exists m r, execute_block hash pfs b nd = Ok (m, r) /\
  match r with
  | Ok (pso, features) =>
      next_features pfs (fb_timestamp b) (n_features nd) (fb_new_features b) = Ok features /\
      accepted (pso_preactivated (n_pso nd)) (fb_new_features b) /\ transactions_pass b (n_features nd) /\
      in_step (pso_activated pso) m pso /\ state_ok pso features (n_head nd + 1) /\
      pso_activated pso = pso_activated (n_pso nd) ++ ((fun d => (d, n_head nd + 1)) <$> fb_new_features b) /\
      (fb_speculative b = false -> exists pending, after_onblock b (n_features nd) pending /\
         pso_preactivated pso = pending ++ concat (fb_transactions b))
  | Err e => m = n_manager nd /\
      ~ (is_Ok (next_features pfs (fb_timestamp b) (n_features nd) (fb_new_features b)) = true /\
         accepted (pso_preactivated (n_pso nd)) (fb_new_features b) /\ transactions_pass b (n_features nd))
  end.
Proof.
  intros [Hin Hst Hun] Hh. pose proof (so_head _ _ _ Hst) as H1. unfold execute_block.
  rewrite u32_small by (unfold is_u32, not_active in *; lia).
  destruct (next_features _ _ _ _) as [features|e] eqn:Ef; [|eexists _, _; split; [reflexivity|]; split; [done|by intros [? _]]].
  pose proof Ef as (Hp & Hnd & Hnew)%next_features_spec.
  assert (Forall (fun e => e.2 <= n_head nd + 1) (pso_activated (n_pso nd))) as Hle
    by (eapply Forall_impl; [apply (so_blocks _ _ _ Hst)|]; cbn; lia).
  pose proof (start_block_features_spec (n_head nd + 1) (fb_new_features b) _ _ _ Hin ltac:(lia) Hle Hnd (so_preactivated _ _ _ Hst)) as Hs.
  (* after an exception the manager is what it was *)
  assert (forall k m pso' e, in_step (pso_activated (n_pso nd) ++ ((fun d => (d, n_head nd + 1)) <$> k)) m pso' ->
    exists m' r, popped_blocks_to m (n_head nd) ≫= (fun m => Ok (m, Err e)) = Ok (m', r : result (protocol_state_object * list sha256)) /\
      r = Err e /\ m' = n_manager nd) as Hpop.
  { intros k m pso' e Hk. destruct (popped_in_step _ _ _ (n_head nd) (n_pso nd) Hk) as (m' & E & Hm'); rewrite filter_old in * by apply Hst; [apply Hst|].
    rewrite E. eexists _, _. split; [reflexivity|]. split; [done|by eapply in_step_unique]. }
  destruct (start_block_features _ _ _ _ _ _) as [m [pso|e]].
  - destruct Hs as (Hacc & Hin' & Ea & Epre).
    { intros d Hd. destruct (Hnew d Hd) as (Hx & f & Hf & _). rewrite (so_features _ _ _ Hst) in Hx. eauto. }
    assert (in_step (pso_activated pso) m pso) as Hin2 by by rewrite Ea.
    assert (state_ok pso features (n_head nd + 1)) as Hst'.
    { eapply state_ok_next; [exact Hst|exact Hp| |done|done|apply Hin2].
      intros d Hd. destruct (Hnew d Hd) as (_ & f & Hf & Hx). eauto. }
    destruct (run_onblock_ok b (n_features nd) features _ _ Hst' Hp) as [Hst2 Ea2].
    destruct (run_onblock_pending b (n_features nd) pso Epre) as (pending & Hpend & Eonb).
    pose proof (run_transactions_iff b (n_features nd) (fb_transactions b) (run_onblock pfs b (n_features nd) pso)) as Hiff.
    assert (pso_preactivated (run_onblock pfs b (n_features nd) pso) = pending) as Epend by by rewrite Eonb.
    rewrite Epend in Hiff.
    destruct (run_transactions _ _ _ _ _) as [pso3|e] eqn:Et.
    + destruct (run_transactions_ok _ _ _ _ _ _ _ Hst2 Hp Et) as [Hst3 Ea3].
      eexists _, _. split; [reflexivity|]. cbn beta iota. split_and!; [done|done| | |done|by rewrite Ea3, Ea2| ].
      * intros Hv q Hq. rewrite (after_onblock_unique _ _ _ _ Hq Hpend). by apply (Hiff pso3 Hv).
      * destruct Hin2 as [A1 A2 A3 A4]. split; [done|done|by rewrite Ea3, Ea2|apply Hst3].
      * intros Hv. exists pending. split; [done|]. destruct (proj1 (Hiff pso3 Hv) eq_refl) as [_ ->]. done.
    + destruct (Hpop _ _ _ e Hin') as (m' & r & E & -> & ->). eexists _, _. split; [exact E|]. split; [done|]. intros (_ & _ & Htp).
      destruct (fb_speculative b) eqn:Hv.
      * destruct (run_transactions_speculative b (n_features nd) (fb_transactions b) (run_onblock pfs b (n_features nd) pso) Hv) as [x Hx]. congruence.
      * pose proof (Htp Hv pending Hpend) as Hg. destruct (Hiff (with_preactivated (run_onblock pfs b (n_features nd) pso) (pending ++ concat (fb_transactions b))) eq_refl) as [_ Hi]. by specialize (Hi (conj Hg eq_refl)).
  - destruct Hs as (Hacc & k & pso' & Hin').
    { intros d Hd. destruct (Hnew d Hd) as (Hx & f & Hf & _). rewrite (so_features _ _ _ Hst) in Hx. eauto. }
    destruct (Hpop _ _ _ e Hin') as (m' & r & E & -> & ->). eexists _, _. split; [exact E|]. split; [done|]. by intros (_ & ? & _).
Qed.

Lemma node_step_ok op nd :
  node_ok nd -> n_head nd + 1 < not_active ->
  exists nd' r, node_step hash pfs op nd = Ok (nd', r) /\ node_ok nd' /\ n_head nd' <= n_head nd + 1.
Proof.
  intros Hok Hh. pose proof Hok as [Hin Hst Hun]. pose proof (so_head _ _ _ Hst) as H1.
  assert (forall m, in_step (pso_activated (n_pso nd)) m (n_pso nd) ->
    node_ok (Node m (n_pso nd) (n_head nd) (n_features nd) (n_undo nd))) as Hkeep by (intros m Hm; by split).
  destruct op as [b|b| | |]; cbn [node_step].
  - destruct (execute_block_spec b nd Hok Hh) as (m & [[pso features]|e] & -> & H); cbn [mbind result_bind].
    + destruct H as (Hf & _ & _ & Hin' & Hst' & Ea & _). eexists _, _. split; [reflexivity|].
      rewrite u32_small by (unfold is_u32, not_active in *; lia). split; [|cbn; lia]. split; cbn; [done|done|].
      replace (n_head nd + 1 - 1) with (n_head nd) by lia. split_and!; [done| |done]. by rewrite Ea, filter_old by apply Hst.
    + destruct H as [-> _]. eexists _, _. split; [reflexivity|]. split; [by apply Hkeep|cbn; lia].
  - destruct (execute_block_spec b nd Hok Hh) as (m & [[pso features]|e] & -> & H); cbn [mbind result_bind].
    + destruct H as (Hf & _ & _ & Hin' & Hst' & Ea & _). rewrite Ea in Hin'.
      destruct (popped_in_step _ _ _ (n_head nd) (n_pso nd) Hin') as (m' & E & Hm'); rewrite filter_old in * by apply Hst; [apply Hst|].
      rewrite E. eexists _, _. split; [reflexivity|]. split; [by apply Hkeep|cbn; lia].
    + destruct H as [-> _]. eexists _, _. split; [reflexivity|]. split; [by apply Hkeep|cbn; lia].
  - destruct (n_undo nd) as [|[p features] undo] eqn:Eu; [eexists _, _; split; [reflexivity|]; split; [done|lia]|].
    destruct Hun as (Hst' & Ea & Hun'). destruct (popped_in_step _ _ _ (n_head nd - 1) p Hin) as (m' & E & Hm').
    { rewrite <- Ea. apply Hst'. }
    rewrite E. cbn [mbind result_bind]. eexists _, _. split; [reflexivity|]. split; [|cbn; lia]. split; cbn; [by rewrite Ea|done|done].
  - rewrite <- (st_stored _ _ _ Hin), <- (st_set _ _ _ Hin), init_stored by apply Hin. cbn [mbind result_bind].
    eexists _, _. split; [reflexivity|]. split; [by apply Hkeep|cbn; lia].
  - change (pso_activated (from_snapshot_row hash (to_snapshot_row (n_pso nd)))) with (pso_activated (n_pso nd)).
    rewrite <- (st_stored _ _ _ Hin), <- (st_set _ _ _ Hin), init_stored by apply Hin. cbn [mbind result_bind].
    eexists _, _. split; [reflexivity|]. split; [|cbn; lia]. pose proof (snapshot_pso_ok _ _ (so_pso _ _ _ Hst)) as Hp.
    split; cbn [n_manager n_pso n_head n_features n_undo undo_ok].
    + destruct Hin as [A1 A2 A3 _]. by split.
    + destruct Hst as [B1 B2 B3 B4 B5 B6 _]. by split.
    + done.
Qed.

Lemma genesis_ok : exists nd, genesis_node hash pfs = Ok nd /\ node_ok nd /\ n_head nd = 1.
Proof.
  pose proof intrinsics_distinct as Hd. apply NoDup_app in Hd as (Hd & _ & _).
  destruct (add_intrinsics_ok hash [] genesis_intrinsics (whitelist_empty hash) Hd) as (wl & E & Hw & Hp).
  { intros n _. apply not_elem_of_nil. }
  unfold genesis_node, genesis_protocol_state. rewrite E. cbn [mbind result_bind mret result_ret pso_activated].
  unfold pfm_init. cbn [is_initialized make_protocol_feature_manager init_loop].
  eexists. split; [reflexivity|]. split; [|done].
  assert (pso_ok [] (ProtocolStateObject [] [] wl genesis_num_supported_key_types)) as Hk.
  { split; [done| |done]. cbn [pso_whitelisted_intrinsics]. by rewrite Hp. }
  split; [|split|done]; cbn.
  - split; [by apply make_manager_ok|done|done|done].
  - lia.
  - done.
  - intros d Hx. by apply elem_of_nil in Hx.
  - constructor.
  - apply NoDup_nil_2.
  - intros d Hx. by apply elem_of_nil in Hx.
  - done.
Qed.

Lemma node_run_ok ops nd :
  node_ok nd -> n_head nd + Z.of_nat (length ops) < not_active -> exists nd', node_run hash pfs ops nd = Ok nd' /\ node_ok nd' /\ n_head nd' <= n_head nd + Z.of_nat (length ops).
Proof.
  revert nd; induction ops as [|op ops IH]; intros nd Hok Hlen; cbn [node_run]; [exists nd; split_and!; [done|done|cbn; lia]|]. cbn [length] in Hlen.
  destruct (node_step_ok op nd Hok) as (nd' & r & E & Hok' & Hh); [lia|]. rewrite E. cbn [mbind result_bind].
  destruct (IH nd' Hok') as (nd2 & E2 & Hok2 & Hh2); [lia|]. exists nd2. split_and!; [done|done|cbn [length]; lia].
Qed.

(** C22. Whatever blocks are applied, refused, aborted and popped and however often
    the node starts again or from a snapshot, no exception leaves the bookkeeping of protocol
    features; the manager says a feature is active at the head exactly when the
    header state of the head has its digest; the active features contain their
    dependencies; a contract may import exactly the intrinsics of the genesis
    and of the active features; and the manager is the one that a restart builds
    from the database. *)
Theorem protocol_features_reachable ops :
  1 + Z.of_nat (length ops) < not_active ->
  exists nd0 nd, genesis_node hash pfs = Ok nd0 /\ node_run hash pfs ops nd0 = Ok nd /\
    (forall c,
       is_builtin_activated (n_manager nd) c (n_head nd) = true <-> exists d, d ∈ n_features nd /\ builtin_of d = Some c) /\
    (forall d, d ∈ n_features nd ->
       exists f, find_feature d recognized = Some f /\ forall x, x ∈ pf_dependencies f -> x ∈ n_features nd) /\
    (forall name, is_intrinsic_whitelisted hash (pso_whitelisted_intrinsics (n_pso nd)) name = true <->
       name ∈ genesis_intrinsics \/ exists d c, d ∈ n_features nd /\ builtin_of d = Some c /\ name ∈ handler_intrinsics c) /\
    pfm_init (make_protocol_feature_manager pfs) (pso_activated (n_pso nd)) = (n_manager nd, Ok tt).
Proof.
  intros Hlen. destruct genesis_ok as (nd0 & E0 & Hok0 & Hh0).
  destruct (node_run_ok ops nd0 Hok0) as (nd & E & Hok & Hh); [lia|]. exists nd0, nd. split; [done|]. split; [done|].
  destruct Hok as [[Hm Hset Hstored Hpso] [_ Hf Hrec Hb _ _ _] _]. split_and!.
  - intros c. rewrite is_builtin_activated_iff by (done || lia). unfold activated_by. split.
    + intros (e & He & Hc & Hn). exists (feature_digest (entry_feature e)). pose proof (mo_recognized _ Hm e He) as [Hr _].
      rewrite Hset in Hr. split.
      * rewrite Hf, <- Hstored. apply list_elem_of_fmap. exists (feature_digest (entry_feature e), entry_block_num e).
        split; [done|]. apply stored_elem. eauto.
      * unfold builtin_of. by rewrite find_feature_unique by (done || apply sorted_digests, Hpfs).
    + intros (d & Hd & Hc). rewrite Hf, <- Hstored in Hd. apply list_elem_of_fmap in Hd as ([d' n] & -> & Hd).
      pose proof Hd as (e & He & <- & <-)%stored_elem. exists e. split; [done|]. pose proof (mo_recognized _ Hm e He) as [Hr _].
      rewrite Hset in Hr. unfold builtin_of in Hc. cbn [fst] in Hc. rewrite find_feature_unique in Hc by (done || apply sorted_digests, Hpfs).
      split; [done|]. rewrite Hstored in Hd. rewrite Forall_forall in Hb. apply (Hb _ Hd).
  - intros d Hd. rewrite Hf in Hd. destruct (Hrec d Hd) as (f & Hff & Hx). exists f. split; [done|]. intros x Hin. rewrite Hf. by apply Hx.
  - intros name. destruct Hpso as [Hw Hn _]. rewrite (whitelisted_iff hash _ name Hw), Hn, elem_of_app, list_elem_of_bind. split.
    + intros [?|(c & Hc & Hin)]; [auto|]. apply builtins_of_elem in Hin as (d & Hd & Hb'). right. exists d, c. by rewrite Hf.
    + intros [?|(d & c & Hd & Hc & Hin)]; [auto|]. right. exists c. split; [done|]. apply builtins_of_elem. exists d. by rewrite <- Hf.
  - rewrite <- Hstored, <- Hset at 1. by apply init_stored.
Qed.

(** C23. A block becomes the head exactly when its header passes the checks on
    features, every feature that needs it was pre-activated and every
    pre-activated feature is among the new ones, and, for a block that is
    validated, every pre-activation its transactions ask for can be granted: a
    refused one, known to the node or not, refuses the whole block.  (A block
    that is produced leaves such a transaction out; what the onblock transaction
    throws is caught.)  The block's features are then active, and a validated
    block leaves exactly those pre-activated that its transactions asked for; a
    refused block leaves the node exactly as it was, and popping an accepted
    block gives the node from before it back. *)
Theorem block_features_undone ops b nd0 nd nd' r :
  1 + Z.of_nat (S (length ops)) < not_active ->
  genesis_node hash pfs = Ok nd0 -> node_run hash pfs ops nd0 = Ok nd ->
  node_step hash pfs (op_apply b) nd = Ok (nd', r) ->
  (r = None <-> is_Ok (next_features pfs (fb_timestamp b) (n_features nd) (fb_new_features b)) = true /\
                accepted (pso_preactivated (n_pso nd)) (fb_new_features b) /\ transactions_pass b (n_features nd)) /\
  (r = None -> n_features nd' ≡ₚ n_features nd ++ fb_new_features b /\ node_step hash pfs op_pop nd' = Ok (nd, None) /\
     (fb_speculative b = false -> exists pending, after_onblock b (n_features nd) pending /\
        pso_preactivated (n_pso nd') = pending ++ concat (fb_transactions b))) /\
  (r <> None -> nd' = nd).
Proof.
  intros Hlen E0 Erun Estep. destruct genesis_ok as (nd1 & E1 & Hok0 & Hh0). rewrite E0 in E1. apply Ok_inj in E1 as <-.
  destruct (node_run_ok ops nd0 Hok0) as (nd1 & E1 & Hok & Hh); [lia|]. rewrite Erun in E1. apply Ok_inj in E1 as <-.
  assert (n_head nd + 1 < not_active) as Hn by lia. pose proof Hok as [Hin Hst Hun]. pose proof (so_head _ _ _ Hst) as H1.
  cbn [node_step] in Estep. destruct (execute_block_spec b nd Hok Hn) as (m & [[pso features]|e] & E & H); rewrite E in Estep;
    cbn [mbind result_bind mret result_ret] in Estep; apply Ok_inj in Estep; simplify_eq.
  - destruct H as (Hf & Hacc & Htp & Hin' & Hst' & Ea & Hpre). rewrite Hf. split_and!; [done| |done]. intros _.
    cbn [n_features node_step n_undo n_manager n_head n_pso]. split; [by apply next_features_spec in Hf as (Hp & _)|]. split; [|done].
    rewrite u32_small by (unfold is_u32, not_active in *; lia). replace (n_head nd + 1 - 1) with (n_head nd) by lia. rewrite Ea in Hin'.
    destruct (popped_in_step _ _ _ (n_head nd) (n_pso nd) Hin') as (m' & Ep & Hm'); rewrite filter_old in * by apply Hst; [apply Hst|].
    rewrite Ep. cbn [mbind result_bind mret result_ret]. rewrite (in_step_unique _ _ _ _ _ Hm' Hin). by destruct nd.
  - destruct H as [-> Hno]. split_and!; [|done|by destruct nd]. split; [done|]. intros Hy. by destruct (Hno Hy).
Qed.
End Runs.

(** ** A concrete run *)

Definition toy_feature_set : protocol_feature_set :=
  Eval vm_compute in
    match initialize_protocol_features toy_feature_sha true (fun _ => false) builtin_protocol_feature_codenames false true [] with
    | Ok pfs => pfs
    | Err _ => empty_feature_set
    end.

Lemma toy_feature_set_ok : feature_set_ok toy_feature_set.
Proof.
  apply (initialize_keeps toy_feature_sha true (fun _ => false) builtin_protocol_feature_codenames false true []).
  vm_compute. reflexivity.
Qed.

Definition toy_name_hash (s : string) : Z := Z.of_nat (String.length s).
Definition toy_digest (c : builtin_protocol_feature_t) : sha256 :=
  match get_builtin_digest toy_feature_set c with Some d => d | None => sha256_zero end.

(** The first feature is activated without pre-activation; the node produces a
    block that leaves out a transaction it refuses, and another one is activated;
    blocks that forget it, bring an unknown one or pre-activate an unknown one are
    refused; blocks are popped and the node starts again. *)
Definition toy_feature_ops : list node_op := [
  op_apply (FeatureBlock 10 [toy_digest bf_preactivate_feature] false [] []);
  op_apply (FeatureBlock 11 [] false [] [[toy_digest bf_get_sender]; [sha256_zero]]);
  op_apply (FeatureBlock 11 [] true [] [[toy_digest bf_get_sender]; [sha256_zero]]);
  op_apply (FeatureBlock 12 [] false [] []);
  op_abort (FeatureBlock 12 [toy_digest bf_get_sender] false [] []);
  op_apply (FeatureBlock 12 [toy_digest bf_get_sender] false [sha256_zero] [[toy_digest bf_webauthn_key]]);
  op_pop;
  op_restart;
  op_snapshot;
  op_apply (FeatureBlock 12 [sha256_zero] false [] []);
  op_apply (FeatureBlock 12 [toy_digest bf_get_sender] false [] [])].

Definition toy_feature_node : result node :=
  nd ← genesis_node toy_name_hash toy_feature_set; node_run toy_name_hash toy_feature_set toy_feature_ops nd.

Lemma protocol_features_reachable_witness :
  exists nd, toy_feature_node = Ok nd /\ n_head nd = 4 /\
    (is_builtin_activated (n_manager nd) bf_get_sender 4 = true <->
       exists d, d ∈ n_features nd /\ builtin_of toy_feature_set d = Some bf_get_sender) /\
    is_builtin_activated (n_manager nd) bf_get_sender 4 = true.
Proof.
  destruct (protocol_features_reachable toy_name_hash toy_feature_set toy_feature_set_ok toy_feature_ops)
    as (nd0 & nd & E0 & E & H & _); [vm_compute; reflexivity|].
  assert (toy_feature_node = Ok nd) as En by (unfold toy_feature_node; rewrite E0; exact E).
  exists nd. split; [exact En|].
  assert (n_head nd = 4 /\ is_builtin_activated (n_manager nd) bf_get_sender 4 = true) as [Hh Ha].
  { assert (match toy_feature_node with
            | Ok nd => n_head nd = 4 /\ is_builtin_activated (n_manager nd) bf_get_sender 4 = true
            | Err _ => False end) as Hc by (vm_compute; split; reflexivity).
    rewrite En in Hc. exact Hc. }
  split; [exact Hh|]. split; [|exact Ha]. specialize (H bf_get_sender). rewrite Hh in H. exact H.
Defined.

Lemma block_features_undone_witness :
  exists nd nd', toy_feature_node = Ok nd /\
    node_step toy_name_hash toy_feature_set (op_apply (FeatureBlock 13 [] false [] [[toy_digest bf_webauthn_key]])) nd = Ok (nd', None) /\
    pso_preactivated (n_pso nd') = [toy_digest bf_webauthn_key] /\
    node_step toy_name_hash toy_feature_set op_pop nd' = Ok (nd, None).
Proof.
  destruct (genesis_node toy_name_hash toy_feature_set) as [nd0|] eqn:E0; [|vm_compute in E0; discriminate].
  destruct (node_run toy_name_hash toy_feature_set toy_feature_ops nd0) as [nd|] eqn:E.
  2: { exfalso. vm_compute in E0. apply Ok_inj in E0 as <-. vm_compute in E. discriminate. }
  destruct (node_step toy_name_hash toy_feature_set (op_apply (FeatureBlock 13 [] false [] [[toy_digest bf_webauthn_key]])) nd) as [[nd' r]|] eqn:Es.
  2: { exfalso. vm_compute in E0. apply Ok_inj in E0 as <-. vm_compute in E. apply Ok_inj in E as <-. vm_compute in Es. discriminate. }
  assert (r = None) as ->.
  { clear -E0 E Es. vm_compute in E0. apply Ok_inj in E0 as <-. vm_compute in E. apply Ok_inj in E as <-. vm_compute in Es.
    congruence. }
  destruct (block_features_undone toy_name_hash toy_feature_set toy_feature_set_ok toy_feature_ops (FeatureBlock 13 [] false [] [[toy_digest bf_webauthn_key]]) nd0 nd nd' None)
    as (_ & H & _); [vm_compute; reflexivity|exact E0|exact E|exact Es|].
  exists nd, nd'. split; [unfold toy_feature_node; rewrite E0; exact E|]. split; [exact Es|].
  destruct (H eq_refl) as (_ & Hpop & Hpre). split; [|exact Hpop]. destruct (Hpre eq_refl) as (q & [[_ Eq]|[_ Eq]] & E2);
    cbn [fb_onblock] in Eq; rewrite Eq in E2; exact E2.
Defined.
