(* ===== verification/LegacyHeaderState.v ===== *)
(** The header state of blocks before Savanna
    (chain/include/eosio/chain/block_header_state_legacy.hpp and
    block_header_state_legacy.cpp): the DPoS counters that decide which block is
    irreversible, the schedules, the header of the next block, its validation and
    its signatures; [block_state_legacy] (block_state_legacy.hpp and .cpp); the
    state of the genesis block (controller.cpp) and the Savanna state of the
    block that starts the transition (block_state.cpp).

    [recover] is the constructor of a public key from a signature and a digest,
    which may throw (KeyRecovery.v), [default_signature] the default-constructed
    signature. *)
From Stdlib Require Import ZArith Lia ZifyBool.
From stdpp Require Import base tactics numbers list gmap sorting.
From S2P Require Import Prelude Digest Raw Merkle MerkleLegacy FinalityCore OrderedDiff FinalizerPolicy.
From S2P Require Import ProducerSchedule Qc AggregatingQc BlockHeader BlockHeaderState BlockState.
From S2P Require Import SignedBlock Authorization ProtocolFeatures.
#[local] Open Scope Z_scope.

Definition maximum_tracked_dpos_confirmations : Z := 1024.

(** [std::nth_element] leaves at [index] what sorting would put there. *)
Definition nth_element (l : list Z) (index : Z) : result Z := at_index (merge_sort Z.le l) index.

(** [detail::is_builtin_activated]. *)
Definition is_builtin_activated (pfa : list sha256) (pfs : protocol_feature_set)
    (feature_codename : builtin_protocol_feature_t) : bool :=
  match get_builtin_digest pfs feature_codename with
  | Some digest => bool_decide (digest ∈ pfa)
  | None => false
  end.

Section Legacy.
Context {PK K SIG APK PSIG TRX META : Type} `{EqDecision PK} `{EqDecision K} `{EqDecision PSIG}.
Context `{Packable PK} `{Packable K} `{Packable SIG} `{Packable PSIG} `{Bls PK SIG APK}.
Variable sha : list Z -> sha256.
Variable recover : PSIG -> sha256 -> result K.
Variable default_signature : PSIG.
Abbreviation schedule_t := (producer_authority_schedule K).
Abbreviation signed_block_header := (signed_block_header K PSIG).
Abbreviation signed_block := (signed_block K PSIG TRX).
Abbreviation validator_t := (Z -> list sha256 -> list sha256 -> result unit).

Record schedule_info : Type := ScheduleInfo {
  schedule_lib_num : Z;
  schedule_hash : sha256;
  schedule : schedule_t
}.

Record block_header_state_legacy_common : Type := LegacyCommon {
  block_num : Z;
  dpos_proposed_irreversible_blocknum : Z;
  dpos_irreversible_blocknum : Z;
  active_schedule : schedule_t;
  blockroot_merkle : incremental_merkle_tree_legacy;
  producer_to_last_produced : gmap Z Z;
  producer_to_last_implied_irb : gmap Z Z;
  valid_block_signing_authority : block_signing_authority K;
  confirm_count : list Z           (* uint8_t *)
}.

Record pending_block_header_state_legacy : Type := PendingLegacy {
  pending_common : block_header_state_legacy_common;
  prev_activated_protocol_features : list sha256;
  prev_pending_schedule : schedule_info;
  was_pending_promoted : bool;
  previous : sha256;
  producer : Z;
  timestamp : Z;
  active_schedule_version : Z;
  confirmed : Z;                   (* uint16_t *)
  pending_qc_claim : option qc_claim_t
}.

Record block_header_state_legacy : Type := HeaderStateLegacy {
  common : block_header_state_legacy_common;
  id : sha256;
  legacy_header : signed_block_header;
  pending_schedule : schedule_info;
  legacy_activated_features : list sha256;
  additional_signatures : list PSIG;
  legacy_header_exts : list (Z * block_header_extension PK K)
}.

(** ** DPoS counters *)

Definition calc_dpos_last_irreversible (s : block_header_state_legacy_common) (producer_of_next_block : Z) : result Z :=
  let blocknums :=
    (fun i : Z * Z => if i.1 =? producer_of_next_block then dpos_proposed_irreversible_blocknum s else i.2)
      <$> map_to_list (producer_to_last_implied_irb s) in
  if vsize blocknums =? 0 then mret 0
  else nth_element blocknums ((vsize blocknums - 1) / 3).

Definition required_confirmations (s : schedule_t) : Z :=
  u32 (u32 (vsize (sched_producers s) * 2 / 3) + 1).

(** The confirmations of the next block, before any is counted. *)
Definition grow_confirm_count (confirm_count : list Z) (required_confs : Z) : list Z :=
  if vsize confirm_count <? maximum_tracked_dpos_confirmations
  then confirm_count ++ [u8 required_confs]
  else drop 1 confirm_count ++ [u8 required_confs].

(** The loop that counts the confirmations of a block, for [i] one less than
    [i1]: what remains to be confirmed and the proposed irreversible block. *)
Fixpoint confirm_blocks (i1 : nat) (blocks_to_confirm : Z) (block_num : Z) (confirm_count : list Z)
    (proposed_irreversible_blocknum : Z) : result (list Z * Z) :=
  match i1 with
  | O => mret (confirm_count, proposed_irreversible_blocknum)
  | S i =>
      if blocks_to_confirm =? 0 then mret (confirm_count, proposed_irreversible_blocknum)
      else
        c ← at_index confirm_count (Z.of_nat i);
        let c := u8 (c - 1) in
        let confirm_count := <[i := c]> confirm_count in
        if c =? 0 then
          let block_num_for_i := u32 (block_num - u32 (vsize confirm_count - 1 - Z.of_nat i)) in
          if Z.of_nat i =? vsize confirm_count - 1
          then mret ([], block_num_for_i)
          else mret (drop (S i) confirm_count, block_num_for_i)
        else confirm_blocks i (blocks_to_confirm - 1) block_num confirm_count proposed_irreversible_blocknum
  end.

(** ** The next block *)

Definition legacy_get_scheduled_producer (s : block_header_state_legacy) (t : Z) : result (producer_authority K) :=
  get_scheduled_producer (active_schedule (common s)) t.

(** The value a producer of a new schedule starts with in one of the maps. *)
Definition carry_over (old : gmap Z Z) (current_producer current_value default_value : Z)
    (producers : list (producer_authority K)) : gmap Z Z :=
  foldl (fun m pro =>
           let name := pa_producer_name pro in
           if name =? current_producer then <[name := current_value]> m
           else match old !! name with
                | Some v => <[name := v]> m
                | None => <[name := default_value]> m
                end) ∅ producers.

Definition legacy_next (s : block_header_state_legacy) (when_ num_prev_blocks_to_confirm : Z)
    : result pending_block_header_state_legacy :=
  let c := common s in
  when_ ← (if negb (when_ =? 0)
           then EOS_ASSERT (hdr_timestamp (sh_header (legacy_header s)) <? when_) block_validate_exception;; mret when_
           else mret (u32 (hdr_timestamp (sh_header (legacy_header s)) + 1)));
  proauth ← legacy_get_scheduled_producer s when_;
  let name := pa_producer_name proauth in
  (match producer_to_last_produced c !! name with
   | Some last => EOS_ASSERT (last <? u32 (u32 (block_num c + 1) - num_prev_blocks_to_confirm)) producer_double_confirm
   | None => mret tt
   end);;
  let next_num := u32 (block_num c + 1) in
  merkle ← append_legacy sha (blockroot_merkle c) (id s);
  let grown := grow_confirm_count (confirm_count c) (required_confirmations (active_schedule c)) in
  '(counts, proposed) ← confirm_blocks (length grown) (u32 (num_prev_blocks_to_confirm + 1)) next_num grown
                          (dpos_proposed_irreversible_blocknum c);
  lib ← calc_dpos_last_irreversible c name;
  let promoted := negb (is_empty (sched_producers (schedule (pending_schedule s))))
                  && (schedule_lib_num (pending_schedule s) <=? lib) in
  let next_schedule := if promoted then schedule (pending_schedule s) else active_schedule c in
  let last_produced :=
    if promoted
    then <[name := next_num]>
           (carry_over (producer_to_last_produced c) name next_num lib (sched_producers next_schedule))
    else <[name := next_num]> (producer_to_last_produced c) in
  let implied :=
    if promoted
    then carry_over (producer_to_last_implied_irb c) name (dpos_proposed_irreversible_blocknum c) lib
           (sched_producers next_schedule)
    else <[name := dpos_proposed_irreversible_blocknum c]> (producer_to_last_implied_irb c) in
  claim ← (match find_ext (legacy_header_exts s) finality_extension_id with
           | Some (finality_ext f) => mret (Some (fx_qc_claim f))
           | Some _ => Err undefined_behavior
           | None => mret None
           end);
  mret {| pending_common :=
            {| block_num := next_num; dpos_proposed_irreversible_blocknum := proposed;
               dpos_irreversible_blocknum := lib; active_schedule := next_schedule; blockroot_merkle := merkle;
               producer_to_last_produced := last_produced; producer_to_last_implied_irb := implied;
               valid_block_signing_authority := pa_authority proauth; confirm_count := counts |};
          prev_activated_protocol_features := legacy_activated_features s;
          prev_pending_schedule := pending_schedule s; was_pending_promoted := promoted;
          previous := id s; producer := name; timestamp := when_;
          active_schedule_version := sched_version (active_schedule c);
          confirmed := num_prev_blocks_to_confirm; pending_qc_claim := claim |}.

Definition savanna_transition_block (p : pending_block_header_state_legacy) : bool :=
  match pending_qc_claim p with Some _ => true | None => false end.
Definition pending_savanna_genesis_block_num (p : pending_block_header_state_legacy) : option Z :=
  claim_block_num <$> pending_qc_claim p.

(** ** The header of a new block *)

(** One producer of a schedule before weighted signatures were enabled. *)
Definition downgrade_producer (p : producer_authority K) : result (legacy_producer_key (K := K)) :=
  match pa_authority p with
  | authority_v0 auth =>
      match bsa_keys auth with
      | [k] =>
          EOS_ASSERT (kw_weight k =? bsa_threshold auth) producer_schedule_exception;;
          mret {| lpk_producer_name := pa_producer_name p; lpk_block_signing_key := kw_key k |}
      | _ => Err producer_schedule_exception
      end
  end.

Fixpoint downgrade_producers (l : list (producer_authority K)) : result (list (legacy_producer_key (K := K))) :=
  match l with
  | [] => mret []
  | p :: l => k ← downgrade_producer p; ks ← downgrade_producers l; mret (k :: ks)
  end.

Definition no_policy : finalizer_policy PK := {| fp_generation := 0; fp_threshold := 0; fp_finalizers := [] |}.

Definition make_block_header (p : pending_block_header_state_legacy) (transaction_mroot action_mroot : sha256)
    (new_producers : option schedule_t) (new_finalizer_policy : option (finalizer_policy PK))
    (new_protocol_feature_activations : list sha256) (pfs : protocol_feature_set) : result signed_block_header :=
  exts ← (if 0 <? vsize new_protocol_feature_activations then
            bytes ← pack new_protocol_feature_activations;
            mret (emplace_extension [] protocol_feature_activation_id (Blob bytes))
          else mret []);
  '(exts, legacy_producers) ←
    (match new_producers with
     | None => mret (exts, None)
     | Some np =>
         if is_builtin_activated (prev_activated_protocol_features p) pfs bf_wtmsig_block_signatures then
           bytes ← pack np;
           mret (emplace_extension exts producer_schedule_change_extension_id (Blob bytes), None)
         else
           ks ← downgrade_producers (sched_producers np);
           mret (exts, Some {| lps_version := sched_version np; lps_producers := ks |})
     end);
  exts ←
    (match new_finalizer_policy with
     | Some fp =>
         c_assert (fp_generation fp =? 1);;
         diff ← fp_create_diff no_policy fp;
         bytes ← pack (A := finality_extension PK K)
                   {| fx_qc_claim := {| claim_block_num := block_num (pending_common p); is_strong_qc := false |};
                      fx_new_finalizer_policy_diff := Some diff; fx_new_proposer_policy_diff := None |};
         mret (emplace_extension exts finality_extension_id (Blob bytes))
     | None =>
         match pending_qc_claim p with
         | Some claim =>
             bytes ← pack (A := finality_extension PK K)
                       {| fx_qc_claim := claim; fx_new_finalizer_policy_diff := None;
                          fx_new_proposer_policy_diff := None |};
             mret (emplace_extension exts finality_extension_id (Blob bytes))
         | None => mret exts
         end
     end);
  mret (SignedHeader
          {| hdr_timestamp := timestamp p; hdr_producer := producer p; hdr_confirmed := confirmed p;
             hdr_previous := previous p; hdr_transaction_mroot := transaction_mroot;
             hdr_action_mroot := action_mroot; hdr_schedule_version := active_schedule_version p;
             hdr_new_producers := legacy_producers; hdr_header_extensions := exts |} default_signature).

(** ** Signatures *)

Definition sig_digest (s : block_header_state_legacy) : result sha256 :=
  d ← hdr_digest sha (sh_header (legacy_header s));
  root ← get_root_legacy (blockroot_merkle (common s));
  let header_bmroot := hash_combine sha d root in
  mret (hash_combine sha header_bmroot (schedule_hash (pending_schedule s))).

Definition legacy_verify_signee (s : block_header_state_legacy) : result unit :=
  let authority := valid_block_signing_authority (common s) in
  EOS_ASSERT (1 + vsize (additional_signatures s) <=? vsize (authority_keys authority)) wrong_signing_key;;
  digest ← sig_digest s;
  k ← recover (sh_producer_signature (legacy_header s)) digest;
  keys ← collect_keys recover [k] digest (additional_signatures s);
  let '(is_satisfied, relevant_sig_count) := keys_satisfy_and_relevant keys authority in
  EOS_ASSERT (relevant_sig_count =? vsize keys) wrong_signing_key;;
  EOS_ASSERT is_satisfied wrong_signing_key.

Definition with_signatures (s : block_header_state_legacy) (sig : PSIG) (additional : list PSIG)
    : block_header_state_legacy :=
  {| common := common s; id := id s; legacy_header := SignedHeader (sh_header (legacy_header s)) sig;
     pending_schedule := pending_schedule s; legacy_activated_features := legacy_activated_features s;
     additional_signatures := additional; legacy_header_exts := legacy_header_exts s |}.

Definition legacy_sign (s : block_header_state_legacy) (signer : sha256 -> list PSIG)
    : result block_header_state_legacy :=
  d ← sig_digest s;
  let sigs := signer d in
  EOS_ASSERT (negb (is_empty sigs)) no_block_signatures;;
  sig ← back sigs;
  let s := with_signatures s sig (removelast sigs) in
  legacy_verify_signee s;; mret s.

(** ** The next state *)

(** The checks a new schedule of either kind has to pass. *)
Definition check_new_schedule (p : pending_block_header_state_legacy) (version : Z) : result unit :=
  EOS_ASSERT (negb (was_pending_promoted p)) producer_schedule_exception;;
  EOS_ASSERT (version =? u32 (sched_version (active_schedule (pending_common p)) + 1)) producer_schedule_exception;;
  EOS_ASSERT (is_empty (sched_producers (schedule (prev_pending_schedule p)))) producer_schedule_exception.

Definition legacy_finish (p : pending_block_header_state_legacy) (sh : signed_block_header)
    (pfs : protocol_feature_set) (validator : validator_t) : result block_header_state_legacy :=
  let h := sh_header sh in
  EOS_ASSERT (hdr_timestamp h =? timestamp p) block_validate_exception;;
  EOS_ASSERT (sha256_eqb (hdr_previous h) (previous p)) unlinkable_block_exception;;
  EOS_ASSERT (hdr_confirmed h =? confirmed p) block_validate_exception;;
  EOS_ASSERT (hdr_producer h =? producer p) wrong_producer;;
  EOS_ASSERT (hdr_schedule_version h =? active_schedule_version p) producer_schedule_exception;;
  exts ← validate_and_extract_header_extensions (PK := PK) h;
  let ext := find_ext exts producer_schedule_change_extension_id in
  let wtmsig_enabled :=
    (match hdr_new_producers h, ext with None, None => false | _, _ => true end)
    && is_builtin_activated (prev_activated_protocol_features p) pfs bf_wtmsig_block_signatures in
  new_schedule ←
    (match hdr_new_producers h with
     | Some np =>
         EOS_ASSERT (negb wtmsig_enabled) producer_schedule_exception;;
         check_new_schedule p (lps_version np);;
         bytes ← pack np;
         mret (Some (sha bytes, schedule_of_legacy (lps_version np) (lps_producers np)))
     | None => mret None
     end);
  new_schedule ←
    (match ext with
     | Some (producer_schedule_change_extension np) =>
         EOS_ASSERT wtmsig_enabled producer_schedule_exception;;
         check_new_schedule p (sched_version np);;
         bytes ← pack np;
         mret (Some (sha bytes, np))
     | Some _ => Err undefined_behavior
     | None => mret new_schedule
     end);
  features ←
    (match find_ext exts protocol_feature_activation_id with
     | Some (protocol_feature_activation l) =>
         validator (timestamp p) (prev_activated_protocol_features p) l;;
         protocol_feature_activation_set (prev_activated_protocol_features p) l true
     | Some _ => Err undefined_behavior
     | None => mret (prev_activated_protocol_features p)
     end);
  new_id ← calculate_id sha h;
  let prev_pending := prev_pending_schedule p in
  let pending :=
    match new_schedule with
    | Some (hash, np) => ScheduleInfo (block_num (pending_common p)) hash np
    | None =>
        ScheduleInfo (schedule_lib_num prev_pending) (schedule_hash prev_pending)
          (if was_pending_promoted p
           then {| sched_version := sched_version (schedule prev_pending); sched_producers := [] |}
           else schedule prev_pending)
    end in
  mret {| common := pending_common p; id := new_id; legacy_header := sh; pending_schedule := pending;
          legacy_activated_features := features; additional_signatures := []; legacy_header_exts := exts |}.

(** [finish_next] of a received header. *)
Definition legacy_finish_received (p : pending_block_header_state_legacy) (h : signed_block_header)
    (additional : list PSIG) (pfs : protocol_feature_set) (validator : validator_t) (skip_validate_signee : bool)
    : result block_header_state_legacy :=
  (if negb (is_empty additional) then
     EOS_ASSERT (is_builtin_activated (prev_activated_protocol_features p) pfs bf_wtmsig_block_signatures)
       producer_schedule_exception
   else mret tt);;
  s ← legacy_finish p h pfs validator;
  let s := if negb (is_empty additional)
           then with_signatures s (sh_producer_signature (legacy_header s)) additional else s in
  (if negb skip_validate_signee then legacy_verify_signee s else mret tt);;
  mret s.

(** [finish_next] of a header to be signed; the signed header is that of the
    state. *)
Definition legacy_finish_signing (p : pending_block_header_state_legacy) (h : signed_block_header)
    (pfs : protocol_feature_set) (validator : validator_t) (signer : sha256 -> list PSIG)
    : result block_header_state_legacy :=
  s ← legacy_finish p h pfs validator;
  s ← legacy_sign s signer;
  (if negb (is_empty (additional_signatures s)) then
     EOS_ASSERT (is_builtin_activated (prev_activated_protocol_features p) pfs bf_wtmsig_block_signatures)
       producer_schedule_exception
   else mret tt);;
  mret s.

Definition legacy_next_from_header (s : block_header_state_legacy) (h : signed_block_header)
    (additional : list PSIG) (pfs : protocol_feature_set) (validator : validator_t) (skip_validate_signee : bool)
    : result block_header_state_legacy :=
  p ← legacy_next s (hdr_timestamp (sh_header h)) (hdr_confirmed (sh_header h));
  legacy_finish_received p h additional pfs validator skip_validate_signee.

Definition legacy_new_protocol_feature_activations (s : block_header_state_legacy) : result (list sha256) :=
  match find_ext (legacy_header_exts s) protocol_feature_activation_id with
  | Some (protocol_feature_activation l) => mret l
  | Some _ => Err undefined_behavior
  | None => mret []
  end.

(** ** block_state_legacy *)

Record block_state_legacy : Type := BlockStateLegacy {
  lbs_state : block_header_state_legacy;
  lbs_block : signed_block;
  lbs_validated : bool;
  pub_keys_recovered : bool;
  cached_trxs : list META;
  action_mroot_savanna : option sha256
}.

Definition legacy_block_of_received (prev : block_header_state_legacy) (b : signed_block)
    (pfs : protocol_feature_set) (validator : validator_t) (skip_validate_signee : bool) : result block_state_legacy :=
  sigs ← extract_additional_signatures (SIG := SIG) b;
  s ← legacy_next_from_header prev (sb_header b) sigs pfs validator skip_validate_signee;
  mret {| lbs_state := s; lbs_block := b; lbs_validated := false; pub_keys_recovered := false; cached_trxs := [];
          action_mroot_savanna := None |}.

(** [inject_additional_signatures] of block_state_legacy.cpp: the state, and the
    block with the signatures written into it. *)
Definition legacy_inject_additional_signatures (cur : pending_block_header_state_legacy) (b : signed_block)
    (pfs : protocol_feature_set) (validator : validator_t) (signer : sha256 -> list PSIG)
    : result (block_header_state_legacy * signed_block) :=
  s ← legacy_finish_signing cur (sb_header b) pfs validator signer;
  let signed := SignedHeader (sh_header (sb_header b)) (sh_producer_signature (legacy_header s)) in
  if negb (is_empty (additional_signatures s)) then
    EOS_ASSERT (is_builtin_activated (prev_activated_protocol_features cur) pfs bf_wtmsig_block_signatures)
      block_validate_exception;;
    bytes ← pack (additional_signatures s);
    mret (s, SignedBlock signed (sb_transactions b)
               (emplace_extension (sb_block_extensions b) additional_sigs_eid (Blob bytes)))
  else mret (s, SignedBlock signed (sb_transactions b) (sb_block_extensions b)).

Definition legacy_block_of_produced (cur : pending_block_header_state_legacy) (b : signed_block) (trx_metas : list META)
    (action_receipt_digests_savanna : option (list sha256)) (pfs : protocol_feature_set) (validator : validator_t)
    (signer : sha256 -> list PSIG) : result block_state_legacy :=
  '(s, b) ← legacy_inject_additional_signatures cur b pfs validator signer;
  mroot ← (match action_receipt_digests_savanna with
           | Some digests => r ← calculate_merkle sha digests; mret (Some r)
           | None => mret None
           end);
  mret {| lbs_state := s; lbs_block := b; lbs_validated := false; pub_keys_recovered := true;
          cached_trxs := trx_metas; action_mroot_savanna := mroot |}.

Definition legacy_savanna_genesis_block_num (s : block_header_state_legacy) : result (option Z) :=
  match find_ext (legacy_header_exts s) finality_extension_id with
  | Some (finality_ext f) => mret (Some (claim_block_num (fx_qc_claim f)))
  | Some _ => Err undefined_behavior
  | None => mret None
  end.

Definition irreversible_blocknum (s : block_header_state_legacy) : result Z :=
  g ← legacy_savanna_genesis_block_num s;
  match g with
  | Some gen_block_num => mret (Z.min gen_block_num (dpos_irreversible_blocknum (common s)))
  | None => mret (dpos_irreversible_blocknum (common s))
  end.

Definition is_savanna_critical_block (s : block_header_state_legacy) : result bool :=
  g ← legacy_savanna_genesis_block_num s;
  match g with
  | Some gen_block_num => mret (gen_block_num <=? dpos_irreversible_blocknum (common s))
  | None => mret false
  end.

Definition set_legacy_valid (b : block_state_legacy) (v : bool) : block_state_legacy :=
  {| lbs_state := lbs_state b; lbs_block := lbs_block b; lbs_validated := v;
     pub_keys_recovered := pub_keys_recovered b; cached_trxs := cached_trxs b;
     action_mroot_savanna := action_mroot_savanna b |}.
Definition set_trxs_metas (b : block_state_legacy) (trxs_metas : list META) (keys_recovered : bool) : block_state_legacy :=
  {| lbs_state := lbs_state b; lbs_block := lbs_block b; lbs_validated := lbs_validated b;
     pub_keys_recovered := keys_recovered; cached_trxs := trxs_metas; action_mroot_savanna := action_mroot_savanna b |}.
Definition extract_trxs_metas (b : block_state_legacy) : list META * block_state_legacy :=
  (cached_trxs b, set_trxs_metas b [] false).

(** ** The first state of each kind *)

(** The header state of [initialize_blockchain_state]; [initial_timestamp] is in
    microseconds. *)
Definition genesis_legacy (initial_key : K) (initial_timestamp : Z) (chain_id : sha256) : result block_header_state_legacy :=
  let initial_schedule := {| sched_version := 0; sched_producers :=
    [{| pa_producer_name := system_account_name;
        pa_authority := authority_v0 {| bsa_threshold := 1;
                                        bsa_keys := [{| kw_key := initial_key; kw_weight := 1 |}] |} |}] |} in
  legacy_bytes ← pack {| lps_version := 0;
                         lps_producers := [{| lpk_producer_name := system_account_name;
                                              lpk_block_signing_key := initial_key |}] |};
  let h := {| hdr_timestamp := set_time_point initial_timestamp; hdr_producer := 0; hdr_confirmed := 1;
              hdr_previous := sha256_zero; hdr_transaction_mroot := sha256_zero; hdr_action_mroot := chain_id;
              hdr_schedule_version := 0; hdr_new_producers := None; hdr_header_extensions := [] |} in
  gen_id ← calculate_id sha h;
  mret {| common := {| block_num := hdr_block_num h; dpos_proposed_irreversible_blocknum := 0;
                       dpos_irreversible_blocknum := 0; active_schedule := initial_schedule;
                       blockroot_merkle := empty_tree_legacy; producer_to_last_produced := ∅;
                       producer_to_last_implied_irb := ∅;
                       valid_block_signing_authority := authority_v0 {| bsa_threshold := 0; bsa_keys := [] |};
                       confirm_count := [] |};
          id := gen_id; legacy_header := SignedHeader h default_signature;
          pending_schedule := ScheduleInfo 0 (sha legacy_bytes) initial_schedule;
          legacy_activated_features := []; additional_signatures := []; legacy_header_exts := [] |}.

(** [block_state::create_if_genesis_block]: the Savanna state of the legacy
    block that starts the transition; [fresh] is the address of its proposer
    policy. *)
Definition create_if_genesis_block (bsp : block_state_legacy) (fresh : Z) : result (block_state (PK := PK) (K := K) (SIG := SIG)) :=
  let s := lbs_state bsp in
  let h := sh_header (legacy_header s) in
  match action_mroot_savanna bsp with
  | None => Err assertion_failed
  | Some action_mroot =>
      c_assert (contains_header_extension h finality_extension_id);;
      e ← extract_header_extension (PK := PK) h finality_extension_id;
      match e with
      | Some (finality_ext f_ext) =>
          match fx_new_finalizer_policy_diff f_ext with
          | None => Err assertion_failed
          | Some diff =>
              policy ← fp_apply_diff no_policy diff;
              bytes ← pack policy;
              let bhs := {|
                BlockHeaderState.block_id := id s; BlockHeaderState.header := h;
                BlockHeaderState.activated_protocol_features := legacy_activated_features s;
                BlockHeaderState.core := create_core_for_genesis_block (id s) (hdr_timestamp h);
                BlockHeaderState.active_finalizer_policy := policy;
                BlockHeaderState.active_proposer_policy :=
                  Ptr fresh {| pp_proposal_time := 0; pp_proposer_schedule := active_schedule (common s) |};
                BlockHeaderState.latest_proposed_proposer_policy := None;
                BlockHeaderState.latest_pending_proposer_policy := None;
                BlockHeaderState.proposed_finalizer_policies := [];
                BlockHeaderState.pending_finalizer_policy := None;
                BlockHeaderState.latest_qc_claim_block_active_finalizer_policy := None;
                BlockHeaderState.finalizer_policy_generation := 1;
                BlockHeaderState.last_pending_finalizer_policy_digest := sha bytes;
                BlockHeaderState.last_pending_finalizer_policy_start_timestamp := hdr_timestamp h;
                BlockHeaderState.header_exts := legacy_header_exts s |} in
              strong ← compute_finality_digest sha bhs;
              v ← genesis_valid sha (block_num (common s)) (hdr_timestamp h) strong action_mroot;
              mret (BlockState bhs strong (create_weak_digest strong) (aggregating_qc_init policy None) (Some v)
                      (lbs_validated bsp) action_mroot)
          end
      | _ => Err undefined_behavior
      end
  end.
End Legacy.
