(* ===== verification/DposFinality.v ===== *)
(** Which block is irreversible before Savanna.  Each block confirms itself and
    the [confirmed] blocks before it; a block is proposed irreversible when
    enough blocks have confirmed it, and is irreversible when more than two
    thirds of the producers have implied that it or a later block is.

    The theorems relate the counters of [block_header_state_legacy], which
    remember at most 1024 blocks and one number per producer, to the chain of
    blocks that led to a state: the proposed block is the last one that its
    confirmations carry, confirmations come from different producers, and the
    irreversible block is the greatest one that a supermajority supports and
    does not move back while the schedule stays. *)
From Stdlib Require Import ZArith Lia ZifyBool.
From stdpp Require Import base tactics numbers list gmap sorting.
From S2P Require Import Prelude Digest Raw Merkle MerkleLegacy FinalityCore FinalizerPolicy.
From S2P Require Import ProducerSchedule Qc BlockHeader BlockState SignedBlock Authorization ProtocolFeatures LegacyHeaderState.
#[local] Open Scope Z_scope.

(** [config::max_producers]. *)
Definition max_producers : Z := 125.

(** ** The irreversible block *)

(** How many of the numbers are at least [v]. *)
Definition support (v : Z) (l : list Z) : Z := vsize (filter (fun x => v <= x) l).

Lemma support_app v l k : support v (l ++ k) = support v l + support v k.
Proof. unfold support, vsize. rewrite filter_app, length_app. lia. Qed.

Lemma support_perm v l k : l ≡ₚ k -> support v l = support v k.
Proof. intros Hp. unfold support, vsize. by rewrite Hp. Qed.

Lemma support_all v l : Forall (fun x => v <= x) l -> support v l = vsize l.
Proof.
  unfold support. induction 1 as [|x l Hx _ IH]; [done|]. rewrite filter_cons_True by done. unfold vsize in *. simpl. lia.
Qed.

Lemma support_none v l : Forall (fun x => x < v) l -> support v l = 0.
Proof.
  unfold support. induction 1 as [|x l Hx _ IH]; [done|]. rewrite filter_cons_False by lia. done.
Qed.

Lemma support_range v l : 0 <= support v l <= vsize l.
Proof. unfold support, vsize. pose proof (length_filter (fun x => v <= x) l). lia. Qed.

(** The element of the sorted list at a third of its length is the greatest
    number that more than two thirds of the list reach. *)
Definition supermajority_value (l : list Z) (v : Z) : Prop :=
  2 * vsize l < 3 * support v l /\ forall w, v < w -> 3 * support w l <= 2 * vsize l.

Lemma supermajority_unique l v w : supermajority_value l v -> supermajority_value l w -> v = w.
Proof.
  intros [Hv Hv'] [Hw Hw']. destruct (Z.lt_trichotomy v w) as [H|[H|H]]; [|done|].
  - specialize (Hv' w H). lia.
  - specialize (Hw' v H). lia.
Qed.

Lemma supermajority_mono l k v w :
  Forall2 Z.le l k -> supermajority_value l v -> supermajority_value k w -> v <= w.
Proof.
  intros Hle [Hv _] [_ Hw]. destruct (Z.le_gt_cases v w) as [|Hgt]; [done|]. specialize (Hw v ltac:(lia)).
  assert (support v l <= support v k /\ vsize l = vsize k) as [Hs Hl]; [|lia].
  clear -Hle. unfold support, vsize. induction Hle as [|x y l k Hxy _ IH]; [done|].
  rewrite !filter_cons. do 2 case_decide; simpl; lia.
Qed.

Lemma sorted_supermajority s i x :
  StronglySorted Z.le s -> i = (vsize s - 1) / 3 -> s !! Z.to_nat i = Some x -> supermajority_value s x.
Proof.
  intros Hs Hi Hx. assert (Z.to_nat i < length s)%nat as Hlt by by eapply lookup_lt_Some.
  assert (0 <= i /\ 3 * i <= vsize s - 1 < 3 * i + 3) as [H0 Hi3].
  { unfold vsize in *. subst i. Z.to_euclidean_division_equations. lia. }
  pose proof (take_drop_middle s (Z.to_nat i) x Hx) as Es. rewrite <- Es in Hs.
  apply StronglySorted_app in Hs as (Hab & _ & Hs). apply StronglySorted_inv in Hs as [_ Hs].
  assert (vsize (take (Z.to_nat i) s) = i) as Ht by (unfold vsize; rewrite length_take; lia).
  assert (vsize (drop (S (Z.to_nat i)) s) = vsize s - i - 1) as Hd by (unfold vsize in *; rewrite length_drop; lia).
  assert (forall v, support v s = support v (take (Z.to_nat i) s) + (support v [x] + support v (drop (S (Z.to_nat i)) s))) as Hsum.
  { intros v. rewrite <- !support_app. by rewrite <- Es at 1. }
  split; [|intros w Hw]; rewrite Hsum.
  - rewrite (support_all x [x]), (support_all x (drop _ _)) by (done || by repeat constructor).
    pose proof (support_range x (take (Z.to_nat i) s)). change (vsize [x]) with 1. lia.
  - rewrite (support_none w (take _ _)), (support_none w [x]); [|repeat constructor; lia|].
    + pose proof (support_range w (drop (S (Z.to_nat i)) s)). lia.
    + apply Forall_forall. intros y Hy. specialize (Hab y x Hy ltac:(constructor)). lia.
Qed.

Lemma supermajority_perm l k v : l ≡ₚ k -> supermajority_value l v -> supermajority_value k v.
Proof.
  intros Hp [H1 H2]. assert (vsize l = vsize k) as Hl by (unfold vsize; by rewrite Hp). rewrite Hl, (support_perm v l k Hp) in *.
  split; [done|]. intros w Hw. rewrite <- (support_perm w l k Hp). by apply H2.
Qed.

Lemma nth_element_supermajority l :
  l <> [] -> exists v, nth_element l ((vsize l - 1) / 3) = Ok v /\ supermajority_value l v /\ v ∈ l.
Proof.
  intros Hne. unfold nth_element. pose proof (merge_sort_Permutation Z.le l) as Hp.
  pose proof (StronglySorted_merge_sort Z.le l) as Hs.
  assert (vsize (merge_sort Z.le l) = vsize l) as Hl by (unfold vsize; by rewrite Hp).
  assert (0 < vsize l) as H0 by (destruct l; [done|unfold vsize; simpl; lia]).
  set (i := (vsize l - 1) / 3). assert (0 <= i < vsize l) as Hi by (unfold i; Z.to_euclidean_division_equations; lia).
  assert (exists x, merge_sort Z.le l !! Z.to_nat i = Some x) as [x Hx] by (apply lookup_lt_is_Some_2; unfold vsize in *; lia).
  exists x. split; [apply at_index_lookup; [lia|done]|]. split.
  - destruct (sorted_supermajority _ i x Hs) as [H1 H2]; [by rewrite Hl|done|]. rewrite Hl in *.
    rewrite (support_perm x _ l Hp) in H1. split; [done|]. intros w Hw. specialize (H2 w Hw).
    by rewrite (support_perm w _ l Hp) in H2.
  - rewrite <- Hp. by eapply list_elem_of_lookup_2.
Qed.

(** ** Counting confirmations *)

(** The loop of [next] on the counters from the newest block back: the counters
    that remain, and how far back the block is that has its last confirmation. *)
Fixpoint count_down (k : Z) (r : list Z) : list Z * option nat :=
  match r with
  | [] => ([], None)
  | c :: r =>
      if k =? 0 then (c :: r, None)
      else if c =? 1 then ([], Some 0%nat)
      else let '(r, o) := count_down (k - 1) r in (c - 1 :: r, S <$> o)
  end.

Definition counter_ok (c : Z) : Prop := 1 <= c < 256.

Lemma confirm_blocks_spec l done_ k num irb :
  Forall counter_ok l -> vsize (l ++ done_) <= num < 2 ^ 32 ->
  confirm_blocks (length l) k num (l ++ done_) irb =
  let '(r, o) := count_down k (reverse l) in
  Ok (reverse r ++ done_, match o with Some j => num - (vsize done_ + Z.of_nat j) | None => irb end).
Proof.
  revert done_ k; induction l as [|c l IH] using rev_ind; intros done_ k Hc Hn; [done|].
  rewrite length_app, Nat.add_1_r, reverse_snoc. cbn [confirm_blocks count_down].
  destruct (Z.eqb_spec k 0) as [->|Hk].
  { by rewrite reverse_cons, reverse_involutive. }
  apply Forall_app in Hc as [Hl Hc]. apply Forall_cons_iff in Hc as [Hc _]. unfold counter_ok in Hc.
  rewrite <- app_assoc in *. cbn [app] in *.
  rewrite (at_index_lookup _ _ c); [|lia|rewrite Nat2Z.id; by rewrite list_lookup_middle]. rewrite ret_bind.
  rewrite insert_app_r_alt, Nat.sub_diag by lia. cbn [insert list_insert].
  assert (u8 (c - 1) = c - 1) as -> by (unfold u8; apply Z.mod_small; lia).
  destruct (Z.eqb_spec c 1) as [->|Hc1].
  - change (1 - 1) with 0. cbn [Z.eqb]. unfold vsize in *. rewrite length_app in *. cbn [length] in *.
    rewrite (u32_small (Z.of_nat _ - 1 - _)) by lia. rewrite u32_small by lia. change (reverse (@nil Z)) with (@nil Z). cbn [app].
    assert (drop (S (length l)) (l ++ 0 :: done_) = done_) as ->.
    { rewrite drop_app_ge by lia. by replace (S (length l) - length l)%nat with 1%nat by lia. }
    destruct (Z.eqb_spec (Z.of_nat (length l)) (Z.of_nat (length l + S (length done_)) - 1)) as [E|E].
    + destruct done_; [|simpl in E; lia]. unfold mret, result_ret. do 2 f_equal. simpl. lia.
    + unfold mret, result_ret. do 2 f_equal. lia.
  - destruct (Z.eqb_spec (c - 1) 0); [lia|].
    rewrite (IH (c - 1 :: done_)) by (done || unfold vsize in *; rewrite !length_app in *; simpl in *; lia).
    destruct (count_down (k - 1) (reverse l)) as [r [j|]]; cbn [fmap option_fmap option_map];
      rewrite reverse_cons, <- app_assoc; do 2 f_equal; unfold vsize; simpl; lia.
Qed.

(** Where a counter that remains comes from. *)
Lemma count_down_spec k r r' o :
  0 <= k -> count_down k r = (r', o) ->
  (forall j c', r' !! j = Some c' -> exists c, r !! j = Some c /\ c' = c - Z_of_bool (Z.of_nat j <? k) /\ (Z.of_nat j < k -> c <> 1)) /\
  match o with
  | None => length r' = length r
  | Some j => length r' = j /\ Z.of_nat j < k /\ r !! j = Some 1
  end.
Proof.
  revert k r' o; induction r as [|c r IH]; intros k r' o Hk Hd; cbn [count_down] in Hd.
  { injection Hd as <- <-. split; [|done]. intros j c'. by rewrite lookup_nil. }
  destruct (Z.eqb_spec k 0) as [->|Hk0].
  { injection Hd as <- <-. split; [|done]. intros j c' Hj. exists c'. split_and!; [done| |lia].
    replace (Z.of_nat j <? 0) with false by lia. simpl. lia. }
  destruct (Z.eqb_spec c 1) as [->|Hc].
  { injection Hd as <- <-. split; [intros j c'; by rewrite lookup_nil|]. split_and!; [done|lia|done]. }
  destruct (count_down (k - 1) r) as [r1 o1] eqn:E. injection Hd as <- <-. apply IH in E as [H1 H2]; [|lia].
  split.
  - intros [|j] c' Hj; cbn [lookup list_lookup] in *.
    + injection Hj as <-. exists c. split_and!; [done| |done]. replace (Z.of_nat 0 <? k) with true by lia. simpl. lia.
    + destruct (H1 j c' Hj) as (c0 & ? & -> & ?). exists c0. split_and!; [done| |lia].
      by replace (Z.of_nat (S j) <? k) with (Z.of_nat j <? k - 1) by lia.
  - destruct o1 as [j|]; cbn [fmap option_fmap option_map length lookup list_lookup].
    + destruct H2 as (? & ? & ?). split_and!; [lia|lia|done].
    + lia.
Qed.

(** ** Chains of blocks *)

Section Dpos.
Context {PK K SIG APK PSIG : Type} `{EqDecision PK} `{EqDecision K} `{EqDecision PSIG}.
Context `{Packable PK} `{Packable K} `{Packable SIG} `{Packable PSIG}.
Variable sha : list Z -> sha256.
Variable recover : PSIG -> sha256 -> result K.
Variable default_signature : PSIG.
Abbreviation state := (block_header_state_legacy (PK := PK) (K := K) (PSIG := PSIG)).
Abbreviation pending := (pending_block_header_state_legacy (K := K)).
Abbreviation header_of s := (sh_header (legacy_header s)).

(** The names of the producers that may produce after the state. *)
Definition scheduled (s : state) : list Z := pa_producer_name <$> sched_producers (active_schedule (common s)).

(** A block was received or produced on top of [s]; its fields are values of
    their types, and its state respects the limit on producers. *)
Inductive legacy_step (s s' : state) (p : pending) : Prop :=
| step_received h additional pfs validator skip :
    legacy_next sha s (hdr_timestamp (sh_header h)) (hdr_confirmed (sh_header h)) = Ok p ->
    legacy_finish_received sha recover p h additional pfs validator skip = Ok s' ->
    0 <= hdr_confirmed (sh_header h) < 2 ^ 16 -> vsize (scheduled s') <= max_producers -> legacy_step s s' p
| step_produced when_ n h pfs validator signer :
    legacy_next sha s when_ n = Ok p ->
    legacy_finish_signing sha recover p h pfs validator signer = Ok s' ->
    0 <= n < 2 ^ 16 -> vsize (scheduled s') <= max_producers -> legacy_step s s' p.

(** A block of the chain, as far as DPoS is concerned. *)
Record chain_block : Type := ChainBlock {
  cb_num : Z;
  cb_producer : Z;
  cb_confirmed : Z;
  cb_required : Z;           (* of the schedule that signs the block *)
  cb_scheduled : list Z      (* the producers after the block *)
}.

Definition block_of (s s' : state) : chain_block :=
  ChainBlock (block_num (common s')) (hdr_producer (header_of s')) (hdr_confirmed (header_of s'))
    (vsize (scheduled s) * 2 / 3 + 1) (scheduled s').

Inductive legacy_chain (s0 : state) : list chain_block -> state -> Prop :=
| chain_start : legacy_chain s0 [] s0
| chain_step chain s s' p :
    legacy_chain s0 chain s -> legacy_step s s' p -> block_num (common s) + 1 < 2 ^ 32 ->
    legacy_chain s0 (chain ++ [block_of s s']) s'.

(** What the counters count: a block confirms itself and the [confirmed] blocks
    before it, as [next] does with the loop over [num_prev_blocks_to_confirm + 1]
    blocks, while the comment on [confirmed] in block_header.hpp speaks of the
    blocks before it alone ([confirms_before]). *)
Definition confirms (b : Z) (x : chain_block) : Prop := cb_num x - cb_confirmed x <= b <= cb_num x.
#[export] Instance confirms_dec b x : Decision (confirms b x).
Proof. unfold confirms. apply _. Defined.
Definition confirmations (b : Z) (chain : list chain_block) : Z := vsize (filter (confirms b) chain).

Lemma confirmations_snoc b chain x :
  confirmations b (chain ++ [x]) = confirmations b chain + Z_of_bool (bool_decide (confirms b x)).
Proof.
  unfold confirmations, vsize. rewrite filter_app, length_app. cbn [filter list_filter].
  case_decide as Hc; [rewrite bool_decide_eq_true_2 by done|rewrite bool_decide_eq_false_2 by done]; simpl; lia.
Qed.

(** *** What a step does *)

Lemma legacy_finish_fields (p : pending) h pfs validator (s : state) :
  legacy_finish sha p h pfs validator = Ok s ->
  common s = pending_common p /\ legacy_header s = h /\ hdr_confirmed (sh_header h) = confirmed p /\
  hdr_producer (sh_header h) = producer p /\ hdr_timestamp (sh_header h) = timestamp p.
Proof.
  intros Hf. unfold legacy_finish in Hf.
  apply bind_Ok in Hf as (_ & Ht%EOS_ASSERT_Ok & Hf). apply bind_Ok in Hf as (_ & _ & Hf).
  apply bind_Ok in Hf as (_ & Hc%EOS_ASSERT_Ok & Hf). apply bind_Ok in Hf as (_ & Hp%EOS_ASSERT_Ok & Hf).
  apply bind_Ok in Hf as (_ & _ & Hf). apply bind_Ok in Hf as (exts & _ & Hf).
  apply bind_Ok in Hf as (ns1 & _ & Hf). apply bind_Ok in Hf as (ns2 & _ & Hf).
  apply bind_Ok in Hf as (features & _ & Hf). apply bind_Ok in Hf as (i & _ & Hf). apply Ok_inj in Hf as <-.
  cbn. split_and!; [done|done|lia..].
Qed.

Lemma legacy_step_fields s s' p :
  legacy_step s s' p ->
  exists when_ n, legacy_next sha s when_ n = Ok p /\ 0 <= n < 2 ^ 16 /\
    common s' = pending_common p /\ hdr_confirmed (header_of s') = n /\ hdr_producer (header_of s') = producer p /\
    vsize (scheduled s') <= max_producers.
Proof.
  assert (forall when_ n, legacy_next sha s when_ n = Ok p -> confirmed p = n) as Hconf.
  { intros when_ n Hn. unfold legacy_next in Hn. repeat (apply bind_Ok in Hn as (? & _ & Hn); repeat case_match; try done).
    all: repeat (apply bind_Ok in Hn as (? & _ & Hn); repeat case_match; try done); by apply Ok_inj in Hn as <-. }
  intros [h additional pfs validator skip Hn Hf Hc Hs|when_ n h pfs validator signer Hn Hf Hc Hs].
  - unfold legacy_finish_received in Hf. apply bind_Ok in Hf as (_ & _ & Hf). apply bind_Ok in Hf as (s1 & E & Hf).
    apply bind_Ok in Hf as (_ & _ & Hf). apply Ok_inj in Hf as <-.
    apply legacy_finish_fields in E as (E1 & E2 & E3 & E4 & _).
    exists (hdr_timestamp (sh_header h)), (hdr_confirmed (sh_header h)).
    destruct (is_empty additional); cbn [negb with_signatures common legacy_header sh_header] in *; subst; done.
  - unfold legacy_finish_signing in Hf. apply bind_Ok in Hf as (s1 & E & Hf). apply bind_Ok in Hf as (s2 & E' & Hf).
    apply bind_Ok in Hf as (_ & _ & Hf). apply Ok_inj in Hf as <-.
    apply legacy_finish_fields in E as (E1 & E2 & E3 & E4 & _).
    unfold legacy_sign in E'. apply bind_Ok in E' as (d & _ & E'). apply bind_Ok in E' as (_ & _ & E').
    apply bind_Ok in E' as (sig & _ & E'). apply bind_Ok in E' as (_ & _ & E'). apply Ok_inj in E' as <-.
    cbn [with_signatures common legacy_header sh_header] in *. exists when_, n.
    pose proof (Hconf _ _ Hn). split_and!; try done; try lia; congruence.
Qed.

(** The numbers that [calc_dpos_last_irreversible] looks at. *)
Definition values_with (m : gmap Z Z) (name x : Z) : list Z :=
  (fun i : Z * Z => if i.1 =? name then x else i.2) <$> map_to_list m.

Record dpos_next (s : state) (n : Z) (p : pending) : Prop := {
  dn_scheduled : producer p ∈ scheduled s;
  dn_guard : forall last, producer_to_last_produced (common s) !! producer p = Some last ->
    last < u32 (u32 (block_num (common s) + 1) - n);
  dn_num : block_num (pending_common p) = u32 (block_num (common s) + 1);
  dn_confirm :
    let grown := grow_confirm_count (confirm_count (common s)) (required_confirmations (active_schedule (common s))) in
    confirm_blocks (length grown) (u32 (n + 1)) (u32 (block_num (common s) + 1)) grown
      (dpos_proposed_irreversible_blocknum (common s)) =
    Ok (confirm_count (pending_common p), dpos_proposed_irreversible_blocknum (pending_common p));
  dn_lib : calc_dpos_last_irreversible (common s) (producer p) = Ok (dpos_irreversible_blocknum (pending_common p));
  dn_promoted : was_pending_promoted p =
    negb (is_empty (sched_producers (schedule (pending_schedule s))))
    && (schedule_lib_num (pending_schedule s) <=? dpos_irreversible_blocknum (pending_common p));
  dn_schedule : active_schedule (pending_common p) =
    if was_pending_promoted p then schedule (pending_schedule s) else active_schedule (common s);
  dn_produced : producer_to_last_produced (pending_common p) =
    let next_num := u32 (block_num (common s) + 1) in
    <[producer p := next_num]>
      (if was_pending_promoted p
       then carry_over (producer_to_last_produced (common s)) (producer p) next_num
              (dpos_irreversible_blocknum (pending_common p)) (sched_producers (active_schedule (pending_common p)))
       else producer_to_last_produced (common s));
  dn_implied : producer_to_last_implied_irb (pending_common p) =
    if was_pending_promoted p
    then carry_over (producer_to_last_implied_irb (common s)) (producer p) (dpos_proposed_irreversible_blocknum (common s))
           (dpos_irreversible_blocknum (pending_common p)) (sched_producers (active_schedule (pending_common p)))
    else <[producer p := dpos_proposed_irreversible_blocknum (common s)]> (producer_to_last_implied_irb (common s))
}.

Lemma legacy_next_dpos s when_ n p : legacy_next sha s when_ n = Ok p -> dpos_next s n p.
Proof.
  intros Hn. unfold legacy_next in Hn. apply bind_Ok in Hn as (w & _ & Hn). apply bind_Ok in Hn as (pa & Epa & Hn).
  apply bind_Ok in Hn as (u & Eg & Hn). apply bind_Ok in Hn as (mk & _ & Hn). apply bind_Ok in Hn as ([cc ir] & Ec & Hn).
  apply bind_Ok in Hn as (lib & El & Hn). apply bind_Ok in Hn as (cl & _ & Hn). apply Ok_inj in Hn as <-.
  constructor; cbn [producer pending_common block_num confirm_count dpos_proposed_irreversible_blocknum
    dpos_irreversible_blocknum was_pending_promoted active_schedule producer_to_last_produced
    producer_to_last_implied_irb]; try done.
  - unfold legacy_get_scheduled_producer, get_scheduled_producer in Epa. apply bind_Ok in Epa as (_ & _ & Epa).
    apply at_index_Ok in Epa as [_ Epa]. unfold scheduled. apply list_elem_of_fmap. exists pa. split; [done|].
    by eapply list_elem_of_lookup_2.
  - intros last Hl. rewrite Hl in Eg. destruct u. apply EOS_ASSERT_Ok in Eg. lia.
  - destruct (negb _ && _); done.
Qed.

(** *** The counters *)

Record counters_ok (chain : list chain_block) (s : state) : Prop := {
  co_num : block_num (common s) = 1 + vsize chain;
  co_nums : cb_num <$> chain = seqZ 2 (vsize chain);
  co_counts : forall j c, reverse (confirm_count (common s)) !! j = Some c ->
    counter_ok c /\
    exists x, x ∈ chain /\ cb_num x = block_num (common s) - Z.of_nat j /\
      c = cb_required x - confirmations (cb_num x) chain;
  co_floor : let m := vsize (confirm_count (common s)) in
    let floor := Z.max 1 (dpos_proposed_irreversible_blocknum (common s)) in
    m <= maximum_tracked_dpos_confirmations /\ floor <= block_num (common s) - m /\
    (m < maximum_tracked_dpos_confirmations -> block_num (common s) - m = floor);
  co_proposed : dpos_proposed_irreversible_blocknum (common s) = 0 \/
    exists x, x ∈ chain /\ cb_num x = dpos_proposed_irreversible_blocknum (common s) /\
      cb_required x <= confirmations (cb_num x) chain;
  co_small : vsize (scheduled s) <= max_producers
}.

Lemma chain_nums chain s x : counters_ok chain s -> x ∈ chain -> 2 <= cb_num x <= block_num (common s).
Proof.
  intros Hc Hx. assert (cb_num x ∈ seqZ 2 (vsize chain)) as Hin.
  { rewrite <- (co_nums _ _ Hc). apply list_elem_of_fmap. eauto. }
  apply elem_of_seqZ in Hin. rewrite (co_num _ _ Hc). lia.
Qed.

Lemma reverse_tail_lookup {A} (l : list A) j x : reverse (drop 1 l) !! j = Some x -> reverse l !! j = Some x.
Proof.
  destruct l as [|y l]; [done|]. cbn [drop]. rewrite reverse_cons. intros Hj. by apply lookup_app_l_Some.
Qed.

(** The new counter in front of those that are kept. *)
Lemma grown_spec cc q :
  vsize cc <= maximum_tracked_dpos_confirmations -> 0 <= q < 256 ->
  let grown := grow_confirm_count cc q in
  (exists kept, reverse grown = q :: kept /\ forall j c, kept !! j = Some c -> reverse cc !! j = Some c) /\
  vsize grown = Z.min (vsize cc + 1) maximum_tracked_dpos_confirmations.
Proof.
  intros Hm Hq. unfold grow_confirm_count. assert (u8 q = q) as -> by (unfold u8; apply Z.mod_small; lia).
  unfold maximum_tracked_dpos_confirmations in *. destruct (Z.ltb_spec (vsize cc) 1024) as [Hlt|Hge]; cbv zeta; rewrite reverse_snoc.
  - split; [by exists (reverse cc)|]. unfold vsize in *. rewrite length_app. simpl. lia.
  - split; [exists (reverse (drop 1 cc)); split; [done|apply reverse_tail_lookup]|].
    unfold vsize in *. rewrite length_app, length_drop. simpl. lia.
Qed.

Lemma required_small s :
  vsize (scheduled s) <= max_producers ->
  required_confirmations (active_schedule (common s)) = vsize (scheduled s) * 2 / 3 + 1 /\
  1 <= vsize (scheduled s) * 2 / 3 + 1 < 256.
Proof.
  unfold scheduled, vsize, max_producers, required_confirmations. rewrite length_fmap. intros Hs. unfold vsize.
  assert (0 <= Z.of_nat (length (sched_producers (active_schedule (common s)))) * 2 / 3 < 84)
    by (Z.to_euclidean_division_equations; lia).
  rewrite (u32_small (_ / 3)) by lia. rewrite u32_small by lia. lia.
Qed.

Lemma confirmations_new b chain s : counters_ok chain s -> block_num (common s) < b -> confirmations b chain = 0.
Proof.
  intros Hc Hb. unfold confirmations, vsize. assert (filter (confirms b) chain = []) as ->; [|done].
  destruct (filter (confirms b) chain) as [|x l] eqn:E; [done|].
  assert (x ∈ filter (confirms b) chain) as Hx by (rewrite E; constructor).
  apply list_elem_of_filter in Hx as [[_ Hx] Hin]. pose proof (chain_nums _ _ _ Hc Hin). lia.
Qed.

(** What the loop of [next] leaves, in terms of the counters before. *)
Lemma counters_next chain (s s' : state) n p :
  counters_ok chain s -> dpos_next s n p -> 0 <= n < 2 ^ 16 -> block_num (common s) + 1 < 2 ^ 32 ->
  common s' = pending_common p ->
  exists kept r o, count_down (n + 1) ((vsize (scheduled s) * 2 / 3 + 1) :: kept) = (r, o) /\
    (forall j c, kept !! j = Some c -> reverse (confirm_count (common s)) !! j = Some c) /\
    1 + vsize kept = Z.min (vsize (confirm_count (common s)) + 1) maximum_tracked_dpos_confirmations /\
    confirm_count (common s') = reverse r /\
    dpos_proposed_irreversible_blocknum (common s') =
      match o with
      | Some j => block_num (common s) + 1 - Z.of_nat j
      | None => dpos_proposed_irreversible_blocknum (common s)
      end.
Proof.
  intros Hc Hd Hn Hb Hs'. destruct (required_small s (co_small _ _ Hc)) as [Eq Hq].
  pose proof (co_floor _ _ Hc) as (Hm & Hf & _). pose proof (dn_confirm _ _ _ Hd) as Ec. cbv zeta in Ec.
  rewrite Eq in Ec. set (q := vsize (scheduled s) * 2 / 3 + 1) in *.
  destruct (grown_spec (confirm_count (common s)) q Hm) as [(kept & Er & Hk) Hsz]; [lia|].
  set (grown := grow_confirm_count _ q) in *.
  assert (0 <= block_num (common s)) by (rewrite (co_num _ _ Hc); unfold vsize; lia).
  rewrite !u32_small in Ec by lia.
  assert (Forall counter_ok grown) as Hg.
  { rewrite <- (reverse_involutive grown), Er. apply Forall_reverse. constructor; [unfold counter_ok; lia|].
    apply Forall_forall. intros c [j Hj]%list_elem_of_lookup_1. apply (co_counts _ _ Hc j c). by apply Hk. }
  pose proof (confirm_blocks_spec grown [] (n + 1) (block_num (common s) + 1)
    (dpos_proposed_irreversible_blocknum (common s)) Hg) as Es.
  rewrite app_nil_r in Es. rewrite Es in Ec by lia. rewrite Er in Ec.
  destruct (count_down (n + 1) (q :: kept)) as [r o] eqn:Ed. apply Ok_inj in Ec as [= E1 E2].
  exists kept, r, o. rewrite Hs'. split_and!; [done|done| |by rewrite app_nil_r in E1|].
  - rewrite <- Hsz. rewrite <- (reverse_involutive grown), Er. unfold vsize. rewrite length_reverse. simpl. lia.
  - rewrite <- E2. destruct o; unfold vsize; simpl; lia.
Qed.

Lemma counters_step chain (s s' : state) p :
  counters_ok chain s -> legacy_step s s' p -> block_num (common s) + 1 < 2 ^ 32 ->
  counters_ok (chain ++ [block_of s s']) s' /\
  dpos_proposed_irreversible_blocknum (common s) <= dpos_proposed_irreversible_blocknum (common s').
Proof.
  intros Hc Hst Hb. destruct (legacy_step_fields _ _ _ Hst) as (when_ & n & Hn & Hnr & Hs' & Hcf & Hpr & Hsz).
  apply legacy_next_dpos in Hn as Hd.
  destruct (counters_next chain s s' n p Hc Hd Hnr Hb Hs') as (kept & r & o & Ed & Hk & Hks & Er & Ep).
  apply count_down_spec in Ed as [Hr Ho]; [|lia].
  pose proof (co_floor _ _ Hc) as (Hm & Hf & Hfe). pose proof (co_num _ _ Hc) as Hnum.
  assert (block_num (common s') = block_num (common s) + 1) as Hnum'.
  { rewrite Hs', (dn_num _ _ _ Hd), u32_small; [done|]. rewrite Hnum in *. unfold vsize in *. lia. }
  set (x' := block_of s s') in *.
  assert (cb_num x' = block_num (common s) + 1) as Hx'num by (subst x'; cbn; done).
  assert (cb_confirmed x' = n) as Hx'c by (subst x'; cbn; done).
  assert (forall j c, (vsize (scheduled s) * 2 / 3 + 1 :: kept) !! j = Some c ->
    counter_ok c /\ exists x, x ∈ chain ++ [x'] /\ cb_num x = block_num (common s') - Z.of_nat j /\
      c = cb_required x - confirmations (cb_num x) chain) as Hold.
  { destruct (required_small s (co_small _ _ Hc)) as [_ Hq]. intros [|j] c Hj; cbn [lookup list_lookup] in Hj.
    - injection Hj as <-. split; [unfold counter_ok; lia|]. exists x'. split; [set_solver|]. split; [lia|].
      rewrite (confirmations_new _ _ _ Hc) by lia. subst x'. cbn. lia.
    - destruct (co_counts _ _ Hc j c (Hk j c Hj)) as (Hok & x & Hx & Hxn & Hxc). split; [done|].
      exists x. split; [set_solver|]. split; [lia|done]. }
  assert (forall j b, b = block_num (common s') - Z.of_nat j ->
    confirmations b (chain ++ [x']) = confirmations b chain + Z_of_bool (Z.of_nat j <? n + 1)) as Hsnoc.
  { intros j b ->. rewrite confirmations_snoc. do 2 f_equal. apply eq_true_iff_eq.
    rewrite bool_decide_eq_true. unfold confirms. lia. }
  assert (vsize r <= 1 + vsize kept /\ match o with Some j => vsize r = Z.of_nat j /\ Z.of_nat j < 1 + vsize kept | None => vsize r = 1 + vsize kept end) as [Hrl Hrl'].
  { unfold vsize. destruct o as [j|]; [destruct Ho as (<- & _ & Ho); apply lookup_lt_Some in Ho; simpl in Ho; lia|].
    simpl in Ho. lia. }
  assert (vsize (reverse r) = vsize r) as Hrev by (unfold vsize; by rewrite length_reverse).
  unfold maximum_tracked_dpos_confirmations in *.
  split; [|rewrite Ep; destruct o; lia]. constructor.
  - rewrite Hnum', Hnum. unfold vsize. rewrite length_app. simpl. lia.
  - rewrite fmap_app, (co_nums _ _ Hc). unfold vsize. rewrite length_app, Nat2Z.inj_add, seqZ_app by lia.
    f_equal. cbn [fmap list_fmap]. rewrite Hx'num, Hnum. unfold vsize. change (Z.of_nat (length [x'])) with 1.
    rewrite seqZ_cons by lia. f_equal. lia.
  - intros j c. rewrite Er, reverse_involutive. intros Hj. destruct (Hr j c Hj) as (c0 & Hc0 & -> & Hne).
    destruct (Hold j c0 Hc0) as (Hok & x & Hx & Hxn & Hxc). unfold counter_ok in *.
    split; [destruct (Z.ltb_spec (Z.of_nat j) (n + 1)); simpl; lia|].
    exists x. split; [done|]. split; [done|]. rewrite (Hsnoc j) by done. lia.
  - cbv zeta. unfold maximum_tracked_dpos_confirmations. rewrite Er, Hrev, Ep, Hnum'. destruct o as [j|]; lia.
  - rewrite Ep. destruct o as [j|].
    + right. destruct Ho as (_ & Hjn & Hj1). destruct (Hold j 1 Hj1) as (_ & x & Hx & Hxn & Hxc).
      exists x. split; [done|]. split; [lia|]. rewrite (Hsnoc j) by done. replace (Z.of_nat j <? n + 1) with true by lia. simpl. lia.
    + destruct (co_proposed _ _ Hc) as [Hz|(x & Hx & Hxn & Hxc)]; [by left|right]. exists x. split; [set_solver|]. split; [done|].
      rewrite confirmations_snoc. destruct (bool_decide _); simpl; lia.
  - done.
Qed.

(** *** From genesis on *)

Lemma genesis_counters key ts chain_id (s0 : state) :
  genesis_legacy sha default_signature key ts chain_id = Ok s0 -> counters_ok [] s0.
Proof.
  intros Hg. unfold genesis_legacy in Hg. apply bind_Ok in Hg as (bytes & _ & Hg). apply bind_Ok in Hg as (gid & _ & Hg).
  apply Ok_inj in Hg as <-. constructor; cbn [common block_num confirm_count dpos_proposed_irreversible_blocknum]; try done.
  by left.
Qed.

Lemma chain_counters key ts chain_id (s0 : state) chain s :
  genesis_legacy sha default_signature key ts chain_id = Ok s0 -> legacy_chain s0 chain s -> counters_ok chain s.
Proof.
  intros Hg. induction 1 as [|chain s s' p Hch IH Hst Hb]; [by eapply genesis_counters|].
  by eapply counters_step.
Qed.

(** A block after the proposed one that is still counted. *)
Lemma tracked_counter (s : state) (chain : list chain_block) x :
  counters_ok chain s -> x ∈ chain -> dpos_proposed_irreversible_blocknum (common s) < cb_num x ->
  block_num (common s) - maximum_tracked_dpos_confirmations < cb_num x ->
  let counts := confirm_count (common s) in
  confirmations (cb_num x) chain < cb_required x /\
  at_index counts (vsize counts - 1 - (block_num (common s) - cb_num x)) = Ok (cb_required x - confirmations (cb_num x) chain).
Proof.
  intros Hc Hx Hp Hw. cbv zeta. pose proof (chain_nums _ _ _ Hc Hx) as Hr. pose proof (co_floor _ _ Hc) as (Hm & Hf & Hfe).
  set (counts := confirm_count (common s)) in *. set (j := Z.to_nat (block_num (common s) - cb_num x)).
  assert (j < length counts)%nat as Hj by (unfold j, vsize in *; lia).
  destruct (lookup_lt_is_Some_2 (reverse counts) j) as [c Hcj]; [by rewrite length_reverse|].
  destruct (co_counts _ _ Hc j c Hcj) as (Hok & y & Hy & Hyn & Hyc). unfold counter_ok in Hok.
  assert (x = y) as <-.
  { pose proof (co_nums _ _ Hc) as Hnums. assert (NoDup (cb_num <$> chain)) as Hnd by (rewrite Hnums; apply NoDup_seqZ).
    assert (cb_num x = cb_num y) as E by (unfold j in *; lia). clear -Hnd E Hx Hy.
    apply list_elem_of_lookup_1 in Hx as [i Hi], Hy as [k Hk].
    assert (i = k) as <-; [|congruence]. eapply NoDup_lookup; [exact Hnd|rewrite list_lookup_fmap, Hi; done|].
    rewrite list_lookup_fmap, Hk. simpl. by rewrite E. }
  split; [lia|]. apply at_index_lookup; [unfold vsize in *; lia|].
  rewrite <- Hyc. rewrite reverse_lookup in Hcj by done. rewrite <- Hcj. f_equal. unfold j, vsize in *. lia.
Qed.

(** The range that block_header.hpp documents for [confirmed]: the blocks
    before the block, not the block itself. *)
Definition confirms_before (b : Z) (x : chain_block) : Prop := cb_num x - cb_confirmed x <= b < cb_num x.
#[export] Instance confirms_before_dec b x : Decision (confirms_before b x).
Proof. unfold confirms_before. apply _. Defined.
Definition confirmations_after (b : Z) (chain : list chain_block) : Z := vsize (filter (confirms_before b) chain).

Lemma confirmations_absent b (chain : list chain_block) :
  b ∉ (cb_num <$> chain) -> confirmations b chain = confirmations_after b chain.
Proof.
  unfold confirmations, confirmations_after. induction chain as [|x chain IH]; [done|]. rewrite fmap_cons, not_elem_of_cons.
  intros [Hx Hb]. rewrite !filter_cons. unfold confirms at 1, confirms_before at 1. specialize (IH Hb). unfold vsize in *.
  destruct (decide (_ <= b <= _)), (decide (_ <= b < _)); cbn; lia.
Qed.

Lemma chain_confirmed_pos (s0 s : state) chain : legacy_chain s0 chain s -> Forall (fun x => 0 <= cb_confirmed x) chain.
Proof.
  induction 1 as [|chain s s' p _ IH Hst _]; [constructor|]. apply Forall_app. split; [done|]. constructor; [|constructor].
  destruct (legacy_step_fields _ _ _ Hst) as (_ & n & _ & Hn & _ & Hc & _). cbn. lia.
Qed.

(** A block counts once for itself. *)
Lemma confirmations_own b (chain : list chain_block) :
  Forall (fun x => 0 <= cb_confirmed x) chain -> NoDup (cb_num <$> chain) -> b ∈ (cb_num <$> chain) ->
  confirmations b chain = 1 + confirmations_after b chain.
Proof.
  induction 1 as [|x chain Hc _ IH]; intros Hnd Hb; [by apply elem_of_nil in Hb|].
  rewrite fmap_cons in Hnd, Hb. apply NoDup_cons in Hnd as [Hx Hnd].
  unfold confirmations, confirmations_after in *. rewrite !filter_cons. unfold confirms at 1, confirms_before at 1.
  apply elem_of_cons in Hb as [->|Hb].
  - pose proof (confirmations_absent _ _ Hx) as E. unfold confirmations, confirmations_after, vsize in *.
    destruct (decide (_ <= cb_num x <= _)), (decide (_ <= cb_num x < _)); cbn; lia.
  - assert (cb_num x <> b) by congruence. specialize (IH Hnd Hb).
    destruct (decide (_ <= b <= _)), (decide (_ <= b < _)); unfold vsize in *; cbn; lia.
Qed.

(** C24. The proposed irreversible block is the one its confirmations carry: on
    every chain from the genesis block, it is a block with as many confirmations
    as its schedule required (or none, 0), and no later block, among the 1024
    that the state keeps count of, has as many; the counters of the state say how
    many each of them still lacks.  The confirmations of a block are one for the
    block itself, which the code counts (it has to 'confirm the head block too',
    although the comment in block_header.hpp says that a producer cannot confirm
    its own block), and one for each later block whose documented range, the
    [confirmed] blocks before it, has the block. *)
Theorem dpos_proposed_exact (key : K) (ts : Z) (chain_id : sha256) (s0 s : state) (chain : list chain_block) :
  genesis_legacy sha default_signature key ts chain_id = Ok s0 -> legacy_chain s0 chain s ->
  let proposed := dpos_proposed_irreversible_blocknum (common s) in
  let counts := confirm_count (common s) in
  (proposed = 0 \/
   exists x, x ∈ chain /\ cb_num x = proposed /\ cb_required x <= 1 + confirmations_after proposed chain) /\
  (forall x, x ∈ chain -> proposed < cb_num x -> block_num (common s) - maximum_tracked_dpos_confirmations < cb_num x ->
     1 + confirmations_after (cb_num x) chain < cb_required x /\
     at_index counts (vsize counts - 1 - (block_num (common s) - cb_num x)) =
       Ok (cb_required x - (1 + confirmations_after (cb_num x) chain))).
Proof.
  intros Hg Hch. pose proof (chain_counters _ _ _ _ _ _ Hg Hch) as Hc. cbv zeta.
  assert (forall x, x ∈ chain -> 1 + confirmations_after (cb_num x) chain = confirmations (cb_num x) chain) as Hown.
  { intros x Hx. symmetry. apply confirmations_own; [by eapply chain_confirmed_pos| |by apply list_elem_of_fmap_2].
    rewrite (co_nums _ _ Hc). apply NoDup_seqZ. }
  split.
  { destruct (co_proposed _ _ Hc) as [Hz|(x & Hx & Hxn & Hxc)]; [by left|right]. exists x. rewrite <- Hxn, Hown by done. done. }
  intros x Hx Hp Hw. rewrite Hown by done. by apply tracked_counter.
Qed.

(** *** Confirmations come from different producers *)

Lemma carry_over_lookup (old : gmap Z Z) cur cv dv (ps : list (producer_authority K)) a :
  carry_over old cur cv dv ps !! a =
  if bool_decide (a ∈ pa_producer_name <$> ps)
  then Some (if a =? cur then cv else default dv (old !! a)) else None.
Proof.
  unfold carry_over. induction ps as [|pro ps IH] using rev_ind; [done|].
  rewrite foldl_app. cbn [foldl]. set (m := foldl _ ∅ ps) in *.
  assert ((if pa_producer_name pro =? cur then <[pa_producer_name pro := cv]> m
           else match old !! pa_producer_name pro with
                | Some v => <[pa_producer_name pro := v]> m
                | None => <[pa_producer_name pro := dv]> m
                end) = <[pa_producer_name pro := (if pa_producer_name pro =? cur then cv
                                                  else default dv (old !! pa_producer_name pro))]> m) as ->.
  { destruct (pa_producer_name pro =? cur); [reflexivity|]. by destruct (old !! pa_producer_name pro). }
  rewrite fmap_app. cbn [fmap list_fmap]. destruct (decide (a = pa_producer_name pro)) as [->|Hne].
  - rewrite lookup_insert_eq. rewrite bool_decide_eq_true_2; [done|]. set_solver.
  - rewrite lookup_insert_ne, IH by done.
    rewrite (bool_decide_ext (a ∈ pa_producer_name <$> ps) (a ∈ (pa_producer_name <$> ps) ++ [pa_producer_name pro])) by set_solver.
    done.
Qed.

(** From block [b] on, who has produced a block stays scheduled. *)
Definition stays_scheduled (b : Z) (chain : list chain_block) : Prop :=
  forall x y, x ∈ chain -> y ∈ chain -> b <= cb_num x <= cb_num y -> cb_producer x ∈ cb_scheduled y.

(** The producer's own blocks are remembered. *)
Definition remembered (b : Z) (chain : list chain_block) (s : state) : Prop :=
  forall x, x ∈ chain -> b <= cb_num x ->
    exists last, producer_to_last_produced (common s) !! cb_producer x = Some last /\ cb_num x <= last.

Lemma remembered_step b chain s s' p :
  counters_ok chain s -> remembered b chain s -> legacy_step s s' p -> block_num (common s) + 1 < 2 ^ 32 ->
  stays_scheduled b (chain ++ [block_of s s']) -> remembered b (chain ++ [block_of s s']) s'.
Proof.
  intros Hc Hrem Hst Hb Hstay x Hx Hbx. pose proof (counters_step _ _ _ _ Hc Hst Hb) as [Hc' _].
  pose proof (chain_nums _ _ _ Hc' Hx) as Hxr. pose proof (Hstay x (block_of s s') Hx ltac:(set_solver)) as Hsch.
  destruct (legacy_step_fields _ _ _ Hst) as (when_ & n & Hn & Hnr & Hs' & Hcf & Hpr & Hsz).
  apply legacy_next_dpos in Hn as Hd. rewrite Hs', (dn_produced _ _ _ Hd). cbv zeta.
  assert (u32 (block_num (common s) + 1) = block_num (common s')) as Hnum by (rewrite Hs'; symmetry; apply (dn_num _ _ _ Hd)).
  rewrite Hnum. destruct (decide (cb_producer x = producer p)) as [Ep|Ep].
  { rewrite Ep, lookup_insert_eq. eexists. split; [done|]. lia. }
  rewrite lookup_insert_ne by congruence.
  assert (x ∈ chain) as Hin.
  { apply elem_of_app in Hx as [Hx|Hx]; [done|]. apply list_elem_of_singleton in Hx as ->. cbn in Ep. congruence. }
  destruct (Hrem x Hin Hbx) as (last & Hl & Hle). exists last. split; [|done].
  destruct (was_pending_promoted p); [|done]. rewrite carry_over_lookup. rewrite bool_decide_eq_true_2.
  - replace (cb_producer x =? producer p) with false by lia. by rewrite Hl.
  - specialize (Hsch ltac:(cbn; lia)). unfold block_of in Hsch. cbn [cb_scheduled] in Hsch. unfold scheduled in Hsch.
    by rewrite Hs' in Hsch.
Qed.

(** A block that a producer signs does not reach back to its last one. *)
Lemma disjoint_step b chain s s' p x :
  remembered b chain s -> legacy_step s s' p -> 0 <= block_num (common s) -> block_num (common s) + 1 < 2 ^ 32 ->
  cb_confirmed (block_of s s') <= cb_num (block_of s s') ->
  x ∈ chain -> b <= cb_num x -> cb_producer x = cb_producer (block_of s s') ->
  cb_num x < cb_num (block_of s s') - cb_confirmed (block_of s s').
Proof.
  intros Hrem Hst H0b Hb Hw Hx Hbx Ep. destruct (Hrem x Hx Hbx) as (last & Hl & Hle).
  destruct (legacy_step_fields _ _ _ Hst) as (when_ & n & Hn & Hnr & Hs' & Hcf & Hpr & Hsz).
  apply legacy_next_dpos in Hn as Hd. cbn in *. rewrite Ep, Hpr in Hl. pose proof (dn_guard _ _ _ Hd last Hl) as Hg.
  assert (block_num (common s') = block_num (common s) + 1) as Hnum by (rewrite Hs', (dn_num _ _ _ Hd), u32_small; lia).
  rewrite (u32_small (block_num (common s) + 1)) in Hg by lia. rewrite u32_small in Hg by lia. lia.
Qed.

Lemma distinct_confirmations b chain (s0 s : state) :
  counters_ok [] s0 -> legacy_chain s0 chain s ->
  Forall (fun x => cb_confirmed x <= cb_num x) chain -> stays_scheduled b chain ->
  counters_ok chain s /\ remembered b chain s /\ NoDup (cb_producer <$> filter (confirms b) chain).
Proof.
  intros Hc0. induction 1 as [|chain s s' p Hch IH Hst Hb]; intros Hw Hstay.
  { split_and!; [done|intros x Hx; set_solver|constructor]. }
  apply Forall_app in Hw as [Hw Hw']. apply Forall_cons_iff in Hw' as [Hw' _].
  destruct IH as (Hc & Hrem & Hnd); [done|intros x y Hx Hy; apply Hstay; set_solver|].
  split_and!; [by eapply counters_step|by eapply remembered_step|].
  rewrite filter_app, fmap_app. cbn [filter list_filter]. case_decide as Hcf; [|by rewrite app_nil_r].
  apply NoDup_app. split_and!; [done| |apply NoDup_singleton].
  intros a Ha ->%list_elem_of_singleton. apply list_elem_of_fmap in Ha as (x & Ep & Hx).
  apply list_elem_of_filter in Hx as [Hxc Hx]. unfold confirms in *.
  pose proof (co_num _ _ Hc) as Hnum. assert (0 <= block_num (common s)) by (rewrite Hnum; unfold vsize; lia).
  pose proof (disjoint_step b chain s s' p x Hrem Hst ltac:(lia) Hb Hw' Hx ltac:(lia) (eq_sym Ep)). lia.
Qed.

(** Confirmations are votes of different producers: on every chain from the
    genesis block whose blocks do not claim to confirm more blocks than there
    are, the blocks that confirm a block [b] were signed by different producers,
    as long as those who produced after it stay scheduled.  So more than two
    thirds of the producers of its schedule have signed blocks that confirm the
    proposed irreversible block. *)
Theorem dpos_confirmations_distinct (key : K) (ts : Z) (chain_id : sha256) (s0 s : state) (chain : list chain_block) :
  genesis_legacy sha default_signature key ts chain_id = Ok s0 -> legacy_chain s0 chain s ->
  Forall (fun x => cb_confirmed x <= cb_num x) chain ->
  (forall b, stays_scheduled b chain -> NoDup (cb_producer <$> filter (confirms b) chain)) /\
  (let proposed := dpos_proposed_irreversible_blocknum (common s) in
   proposed <> 0 -> stays_scheduled proposed chain ->
   exists x producers, x ∈ chain /\ cb_num x = proposed /\ NoDup producers /\
     (forall a, a ∈ producers -> exists y, y ∈ chain /\ cb_producer y = a /\ confirms proposed y) /\
     cb_required x <= vsize producers).
Proof.
  intros Hg Hch Hw. pose proof (genesis_counters _ _ _ _ Hg) as Hc0. split.
  { intros b Hstay. by destruct (distinct_confirmations b chain s0 s Hc0 Hch Hw Hstay) as (_ & _ & ?). }
  cbv zeta. intros Hne Hstay. destruct (distinct_confirmations _ chain s0 s Hc0 Hch Hw Hstay) as (Hc & _ & Hnd).
  destruct (co_proposed _ _ Hc) as [Hz|(x & Hx & Hxn & Hxc)]; [done|].
  exists x, (cb_producer <$> filter (confirms (dpos_proposed_irreversible_blocknum (common s))) chain).
  split_and!; [done|done|done| |].
  - intros a (y & -> & Hy)%list_elem_of_fmap. apply list_elem_of_filter in Hy as [? ?]. eauto.
  - unfold vsize. rewrite length_fmap. by rewrite Hxn in Hxc.
Qed.

(** *** The irreversible block *)

Lemma calc_exact (c : block_header_state_legacy_common (K := K)) (name : Z) :
  exists lib, calc_dpos_last_irreversible c name = Ok lib /\
    (producer_to_last_implied_irb c = ∅ -> lib = 0) /\
    (producer_to_last_implied_irb c <> ∅ ->
     supermajority_value (values_with (producer_to_last_implied_irb c) name (dpos_proposed_irreversible_blocknum c)) lib).
Proof.
  unfold calc_dpos_last_irreversible. fold (values_with (producer_to_last_implied_irb c) name (dpos_proposed_irreversible_blocknum c)).
  destruct (Z.eqb_spec (vsize (values_with (producer_to_last_implied_irb c) name (dpos_proposed_irreversible_blocknum c))) 0) as [E|E].
  - exists 0. split; [done|]. split; [done|]. intros Hne. destruct Hne. unfold values_with, vsize in E. rewrite length_fmap in E.
    apply map_to_list_empty_iff. by apply nil_length_inv; lia.
  - destruct (nth_element_supermajority (values_with (producer_to_last_implied_irb c) name (dpos_proposed_irreversible_blocknum c)))
      as (v & Ev & Hv & _); [by intros E'; rewrite E' in E|].
    exists v. split; [done|]. split; [|done]. intros Em. rewrite Em in E. unfold values_with in E. rewrite map_to_list_empty in E. done.
Qed.

(** The irreversible block is the greatest one that more than two thirds of
    the producers support: [calc_dpos_last_irreversible] returns, among the
    numbers the producers have implied to be irreversible, with that of the next
    producer replaced by what its block implies, the greatest one that more than
    two thirds of them reach; and 0 before any block. *)
Theorem dpos_irreversible_exact (c : block_header_state_legacy_common (K := K)) (name : Z) :
  exists lib, calc_dpos_last_irreversible c name = Ok lib /\
    (producer_to_last_implied_irb c = ∅ -> lib = 0) /\
    (producer_to_last_implied_irb c <> ∅ ->
     supermajority_value (values_with (producer_to_last_implied_irb c) name (dpos_proposed_irreversible_blocknum c)) lib).
Proof. apply calc_exact. Qed.

(** The value is one of the numbers. *)
Lemma calc_bounds (c : block_header_state_legacy_common (K := K)) name v hi :
  calc_dpos_last_irreversible c name = Ok v -> 0 <= hi ->
  0 <= dpos_proposed_irreversible_blocknum c <= hi ->
  (forall a w, producer_to_last_implied_irb c !! a = Some w -> 0 <= w <= hi) -> 0 <= v <= hi.
Proof.
  intros Hc Hhi Hp Hv. unfold calc_dpos_last_irreversible in Hc. set (l := _ <$> map_to_list _) in Hc.
  destruct (Z.eqb_spec (vsize l) 0) as [E|E]; [apply Ok_inj in Hc; lia|].
  destruct (nth_element_supermajority l) as (v' & Ev & _ & Hin); [by intros E'; rewrite E' in E|].
  rewrite Ev in Hc. apply Ok_inj in Hc as <-. unfold l in Hin. apply list_elem_of_fmap in Hin as ([a w] & -> & Hin).
  apply elem_of_map_to_list in Hin. cbn [fst snd]. destruct (a =? name); [done|by eapply Hv].
Qed.

Lemma values_with_insert (m : gmap Z Z) name x :
  is_Some (m !! name) -> values_with m name x ≡ₚ (map_to_list (<[name := x]> m)).*2.
Proof.
  intros [v Hv]. unfold values_with. rewrite <- (insert_delete_id m name v Hv) at 1.
  rewrite <- (insert_delete_eq m name x), !map_to_list_insert by apply lookup_delete_eq.
  cbn [fmap list_fmap fst snd]. rewrite Z.eqb_refl. constructor.
  assert ((fun i : Z * Z => if i.1 =? name then x else i.2) <$> map_to_list (delete name m) = (map_to_list (delete name m)).*2) as ->;
    [|done].
  apply list_fmap_ext. intros i [a w] Hi. apply list_elem_of_lookup_2, elem_of_map_to_list in Hi. cbn [fst snd].
  destruct (Z.eqb_spec a name) as [->|]; [by rewrite lookup_delete_eq in Hi|done].
Qed.

Record lib_ok (s : state) : Prop := {
  lo_implied : forall a v, producer_to_last_implied_irb (common s) !! a = Some v ->
    0 <= v <= dpos_proposed_irreversible_blocknum (common s);
  lo_lib : 0 <= dpos_irreversible_blocknum (common s) <= dpos_proposed_irreversible_blocknum (common s)
}.

Lemma lib_step chain s s' p :
  counters_ok chain s -> lib_ok s -> legacy_step s s' p -> block_num (common s) + 1 < 2 ^ 32 -> lib_ok s'.
Proof.
  intros Hc Hl Hst Hb. pose proof (counters_step _ _ _ _ Hc Hst Hb) as [_ Hmono].
  destruct (legacy_step_fields _ _ _ Hst) as (when_ & n & Hn & Hnr & Hs' & Hcf & Hpr & Hsz).
  apply legacy_next_dpos in Hn as Hd. pose proof (lo_lib _ Hl) as Hlib.
  pose proof (calc_bounds _ _ _ (dpos_proposed_irreversible_blocknum (common s)) (dn_lib _ _ _ Hd) ltac:(lia) ltac:(lia) (lo_implied _ Hl)) as Hv.
  rewrite Hs' in Hmono. constructor; [|rewrite Hs'; lia]. intros a v. rewrite Hs', (dn_implied _ _ _ Hd). intros Ha.
  destruct (was_pending_promoted p).
  - rewrite carry_over_lookup in Ha. case_bool_decide; [|done]. injection Ha as <-. destruct (a =? producer p); [lia|].
    destruct (producer_to_last_implied_irb (common s) !! a) as [w|] eqn:Ew; cbn [default]; [|lia].
    apply (lo_implied _ Hl) in Ew. unfold Datatypes.id. lia.
  - apply lookup_insert_Some in Ha as [[_ <-]|[_ Ha]]; [lia|]. apply (lo_implied _ Hl) in Ha. lia.
Qed.

(** Every producer that is scheduled has an entry, after the first block. *)
Definition entries_ok (chain : list chain_block) (s : state) : Prop :=
  match chain with
  | [] => producer_to_last_implied_irb (common s) = ∅ /\ sched_producers (schedule (pending_schedule s)) <> [] /\
          schedule_lib_num (pending_schedule s) = 0
  | _ => forall a, a ∈ scheduled s -> is_Some (producer_to_last_implied_irb (common s) !! a)
  end.

Lemma entries_step chain s s' p :
  entries_ok chain s -> legacy_step s s' p -> entries_ok (chain ++ [block_of s s']) s' /\
  (was_pending_promoted p = false -> is_Some (producer_to_last_implied_irb (common s) !! producer p)).
Proof.
  intros He Hst. destruct (legacy_step_fields _ _ _ Hst) as (when_ & n & Hn & Hnr & Hs' & Hcf & Hpr & Hsz).
  apply legacy_next_dpos in Hn as Hd.
  assert (was_pending_promoted p = false -> chain <> []) as Hne.
  { intros Hp ->. destruct He as (Em & Hne & El). rewrite (dn_promoted _ _ _ Hd) in Hp.
    destruct (calc_exact (common s) (producer p)) as (lib & E & Hlib & _). specialize (Hlib Em). subst lib.
    rewrite (dn_lib _ _ _ Hd) in E. apply Ok_inj in E. rewrite E, El in Hp.
    destruct (sched_producers (schedule (pending_schedule s))); [done|]. cbn in Hp. done. }
  assert (was_pending_promoted p = false -> forall a, a ∈ scheduled s -> is_Some (producer_to_last_implied_irb (common s) !! a)) as Hold.
  { intros Hp. specialize (Hne Hp). destruct chain; [done|exact He]. }
  split.
  - assert (forall a, a ∈ scheduled s' -> is_Some (producer_to_last_implied_irb (common s') !! a)) as Hnew; [|by destruct chain].
    intros a Ha. unfold scheduled in Ha. rewrite Hs' in *. rewrite (dn_implied _ _ _ Hd).
    destruct (was_pending_promoted p) eqn:Ep.
    + rewrite carry_over_lookup, bool_decide_eq_true_2 by done. by eexists.
    + rewrite (dn_schedule _ _ _ Hd), Ep in Ha. destruct (decide (a = producer p)) as [->|]; [rewrite lookup_insert_eq; by eexists|].
      rewrite lookup_insert_ne by done. by apply Hold.
  - intros Hp. apply Hold; [done|apply (dn_scheduled _ _ _ Hd)].
Qed.

Lemma chain_lib key ts chain_id (s0 : state) chain s :
  genesis_legacy sha default_signature key ts chain_id = Ok s0 -> legacy_chain s0 chain s ->
  counters_ok chain s /\ lib_ok s /\ entries_ok chain s.
Proof.
  intros Hg. induction 1 as [|chain s s' p Hch (Hc & Hl & He) Hst Hb].
  - split; [by eapply genesis_counters|]. unfold genesis_legacy in Hg. apply bind_Ok in Hg as (bytes & _ & Hg).
    apply bind_Ok in Hg as (gid & _ & Hg). apply Ok_inj in Hg as <-. split; [|done].
    constructor; cbn [common dpos_irreversible_blocknum dpos_proposed_irreversible_blocknum producer_to_last_implied_irb]; [|lia].
    intros a v. by rewrite lookup_empty.
  - split; [by eapply counters_step|]. split; [by eapply lib_step|]. by eapply entries_step.
Qed.

(** The irreversible block does not move back while the schedule stays: on
    every chain from the genesis block the irreversible block is at most the
    proposed one, which is at most the block itself and never decreases; and
    unless a block promotes a new schedule, the irreversible block of the next
    block is not before its own. *)
Theorem dpos_irreversible_monotone (key : K) (ts : Z) (chain_id : sha256) (s0 s1 s2 s3 : state)
    (chain : list chain_block) (p q : pending) :
  genesis_legacy sha default_signature key ts chain_id = Ok s0 -> legacy_chain s0 chain s1 ->
  legacy_step s1 s2 p -> legacy_step s2 s3 q -> block_num (common s1) + 2 < 2 ^ 32 ->
  dpos_irreversible_blocknum (common s2) <= dpos_proposed_irreversible_blocknum (common s2) <= block_num (common s2) /\
  dpos_proposed_irreversible_blocknum (common s2) <= dpos_proposed_irreversible_blocknum (common s3) /\
  (was_pending_promoted p = false -> dpos_irreversible_blocknum (common s2) <= dpos_irreversible_blocknum (common s3)).
Proof.
  intros Hg Hch Hp Hq Hb. destruct (chain_lib _ _ _ _ _ _ Hg Hch) as (Hc & Hl & He).
  destruct (counters_step _ _ _ _ Hc Hp ltac:(lia)) as [Hc2 _]. pose proof (lib_step _ _ _ _ Hc Hl Hp ltac:(lia)) as Hl2.
  destruct (entries_step _ _ _ _ He Hp) as [_ Hsome].
  destruct (legacy_step_fields _ _ _ Hp) as (w1 & n1 & Hn1 & _ & Hs2 & _). apply legacy_next_dpos in Hn1 as Hd1.
  destruct (legacy_step_fields _ _ _ Hq) as (w2 & n2 & Hn2 & _ & Hs3 & _). apply legacy_next_dpos in Hn2 as Hd2.
  assert (block_num (common s2) = block_num (common s1) + 1) as Hnum.
  { rewrite (co_num _ _ Hc2), (co_num _ _ Hc). unfold vsize. rewrite length_app. simpl. lia. }
  destruct (counters_step _ _ _ _ Hc2 Hq ltac:(lia)) as [_ Hmono].
  pose proof (lo_lib _ Hl2). pose proof (co_floor _ _ Hc2) as (_ & Hf & _).
  split; [unfold vsize in Hf; lia|]. split; [done|]. intros Hnp. specialize (Hsome Hnp).
  destruct (calc_exact (common s1) (producer p)) as (v & Ev & _ & Hv).
  destruct (calc_exact (common s2) (producer q)) as (w & Ew & _ & Hw).
  pose proof (dn_lib _ _ _ Hd1) as E1. pose proof (dn_lib _ _ _ Hd2) as E2. rewrite Ev in E1. rewrite Ew in E2.
  apply Ok_inj in E1, E2. rewrite Hs3, <- E2. rewrite Hs2 at 1. rewrite <- E1.
  pose proof (dn_implied _ _ _ Hd1) as Hi. rewrite Hnp, <- Hs2 in Hi.
  assert (producer_to_last_implied_irb (common s1) <> ∅) as Hne by (intros E; rewrite E, lookup_empty in Hsome; by destruct Hsome).
  specialize (Hv Hne). assert (producer_to_last_implied_irb (common s2) <> ∅) as Hne2 by (rewrite Hi; apply insert_non_empty).
  specialize (Hw Hne2). apply (supermajority_perm _ _ _ (values_with_insert _ _ _ Hsome)) in Hv.
  rewrite <- Hi in Hv. eapply supermajority_mono; [|exact Hv|exact Hw]. unfold values_with. apply Forall2_fmap, Forall_Forall2_diag.
  apply Forall_forall. intros [a x] Hin%elem_of_map_to_list. cbn [fst snd]. apply (lo_implied _ Hl2) in Hin.
  destruct (a =? producer q); lia.
Qed.
End Dpos.

(** ** A concrete chain *)

Abbreviation toy_state := (block_header_state_legacy (PK := uint 8) (K := uint 8) (PSIG := uint 8)).
Definition toy_recover (s : uint 8) (_ : sha256) : result (uint 8) := Ok s.
Definition toy_accept (_ : Z) (_ _ : list sha256) : result unit := mret tt.

Definition toy_genesis_legacy : result toy_state :=
  genesis_legacy toy_sha (UInt 0) (UInt 1) 946684850000000 sha256_zero.

(** A schedule of three producers that sign with the same key. *)
Definition toy_schedule : producer_authority_schedule (uint 8) := {|
  sched_version := 1;
  sched_producers := (fun n => {| pa_producer_name := n;
    pa_authority := authority_v0 {| bsa_threshold := 1; bsa_keys := [{| kw_key := UInt 1; kw_weight := 1 |}] |} |})
    <$> [10; 11; 12] |}.

Definition toy_produce (s : toy_state) (when_ n : Z) (np : option (producer_authority_schedule (uint 8)))
    : result (pending_block_header_state_legacy (K := uint 8) * toy_state) :=
  p ← legacy_next toy_sha s when_ n;
  h ← make_block_header (PK := uint 8) (UInt 0) p sha256_zero sha256_zero np None [] empty_feature_set;
  s' ← legacy_finish_signing toy_sha toy_recover p h empty_feature_set toy_accept (fun _ => [UInt 1]);
  EOS_ASSERT ((0 <=? n) && (n <? 2 ^ 16) && (vsize (scheduled s') <=? max_producers) && (block_num (common s) + 1 <? 2 ^ 32))
    assertion_failed;;
  mret (p, s').

Fixpoint toy_run (chain : list chain_block) (s : toy_state)
    (inputs : list (Z * Z * option (producer_authority_schedule (uint 8)))) : result (list chain_block * toy_state) :=
  match inputs with
  | [] => mret (chain, s)
  | (when_, n, np) :: inputs =>
      '(p, s') ← toy_produce s when_ n np;
      toy_run (chain ++ [block_of s s']) s' inputs
  end.

Lemma toy_produce_step s when_ n np p s' :
  toy_produce s when_ n np = Ok (p, s') ->
  legacy_step toy_sha toy_recover s s' p /\ block_num (common s) + 1 < 2 ^ 32.
Proof.
  intros Hp. unfold toy_produce in Hp. apply bind_Ok in Hp as (p' & En & Hp). apply bind_Ok in Hp as (h & Eh & Hp).
  apply bind_Ok in Hp as (s1 & Es & Hp). apply bind_Ok in Hp as (_ & Ha%EOS_ASSERT_Ok & Hp). apply Ok_inj in Hp as [= <- <-].
  rewrite !andb_true_iff in Ha. destruct Ha as (((H1 & H2) & H3) & H4). split; [|lia].
  by apply (step_produced _ _ _ _ _ when_ n h empty_feature_set toy_accept (fun _ => [UInt 1]) En Es); lia.
Qed.

Lemma toy_run_chain s0 chain s inputs chain' s' :
  legacy_chain toy_sha toy_recover s0 chain s -> toy_run chain s inputs = Ok (chain', s') ->
  legacy_chain toy_sha toy_recover s0 chain' s'.
Proof.
  revert chain s; induction inputs as [|[[when_ n] np] inputs IH]; intros chain s Hch Hr; cbn [toy_run] in Hr.
  { by apply Ok_inj in Hr as [= <- <-]. }
  apply bind_Ok in Hr as ([p s1] & Ep & Hr). apply toy_produce_step in Ep as [Hst Hb].
  eapply IH; [|exact Hr]. by econstructor.
Qed.

(** The first producer alone, then the schedule of three; each producer confirms
    what it has not confirmed yet. *)
Definition toy_inputs_dpos : list (Z * Z * option (producer_authority_schedule (uint 8))) :=
  [(0, 0, None); (0, 0, Some toy_schedule); (0, 0, None); (144, 0, None); (156, 2, None); (168, 3, None)].

Definition toy_dpos : result (toy_state * list chain_block * toy_state) :=
  s0 ← toy_genesis_legacy; '(chain, s) ← toy_run [] s0 toy_inputs_dpos; mret (s0, chain, s).

Definition toy_dpos_ok (P : toy_state -> list chain_block -> toy_state -> bool) : bool :=
  match toy_dpos with Ok (s0, chain, s) => P s0 chain s | Err _ => false end.

Lemma toy_dpos_chain P :
  toy_dpos_ok P = true ->
  exists s0 chain s, toy_genesis_legacy = Ok s0 /\ legacy_chain toy_sha toy_recover s0 chain s /\ P s0 chain s = true.
Proof.
  unfold toy_dpos_ok, toy_dpos. destruct toy_genesis_legacy as [s0|] eqn:E0; [|done]. rewrite ret_bind.
  destruct (toy_run [] s0 toy_inputs_dpos) as [[chain s]|] eqn:Er; [|done]. rewrite ret_bind. intros HP.
  exists s0, chain, s. split; [done|]. split; [|done]. eapply toy_run_chain; [constructor|exact Er].
Qed.

Lemma dpos_proposed_exact_witness :
  exists (s0 s : toy_state) chain x, toy_genesis_legacy = Ok s0 /\ legacy_chain toy_sha toy_recover s0 chain s /\
    dpos_proposed_irreversible_blocknum (common s) = 5 /\ x ∈ chain /\ cb_num x = 6 /\
    1 + confirmations_after (cb_num x) chain < cb_required x.
Proof.
  destruct (toy_dpos_chain (fun s0 chain s => (dpos_proposed_irreversible_blocknum (common s) =? 5) && (block_num (common s) =? 7)
    && bool_decide ((cb_num <$> chain) = [2; 3; 4; 5; 6; 7]))) as (s0 & chain & s & E0 & Hch & HP); [vm_compute; reflexivity|].
  rewrite !andb_true_iff in HP. destruct HP as ((Hp & Hn) & Hl). apply bool_decide_eq_true in Hl.
  assert (6 ∈ cb_num <$> chain) as Hin by (rewrite Hl; refine (bool_decide_unpack _ _); vm_compute; reflexivity).
  apply list_elem_of_fmap in Hin as (x & Ex & Hx).
  destruct (dpos_proposed_exact toy_sha toy_recover (UInt 0) (UInt 1) 946684850000000 sha256_zero s0 s chain E0 Hch) as [_ H].
  exists s0, s, chain, x. split_and!; [done|done|lia|done|done|].
  apply (H x Hx); unfold maximum_tracked_dpos_confirmations; lia.
Defined.

Lemma dpos_confirmations_distinct_witness :
  exists (s0 s : toy_state) chain x (producers : list Z), toy_genesis_legacy = Ok s0 /\ legacy_chain toy_sha toy_recover s0 chain s /\
    x ∈ chain /\ cb_num x = dpos_proposed_irreversible_blocknum (common s) /\ cb_num x = 5 /\ NoDup producers /\
    cb_required x <= vsize producers.
Proof.
  destruct (toy_dpos_chain (fun s0 chain s => (dpos_proposed_irreversible_blocknum (common s) =? 5)
    && forallb (fun x => cb_confirmed x <=? cb_num x) chain
    && forallb (fun x => forallb (fun y => negb ((5 <=? cb_num x) && (cb_num x <=? cb_num y))
         || bool_decide (cb_producer x ∈ cb_scheduled y)) chain) chain)) as (s0 & chain & s & E0 & Hch & HP); [vm_compute; reflexivity|].
  rewrite !andb_true_iff in HP. destruct HP as ((Hp & Hw) & Hst). rewrite forallb_forall in Hw, Hst.
  destruct (dpos_confirmations_distinct toy_sha toy_recover (UInt 0) (UInt 1) 946684850000000 sha256_zero s0 s chain E0 Hch)
    as [_ H].
  { apply Forall_forall. intros x Hx%list_elem_of_In. specialize (Hw x Hx). lia. }
  destruct H as (x & producers & Hx & Hxn & Hnd & _ & Hr); [lia| |].
  - intros x y Hx%list_elem_of_In Hy%list_elem_of_In Hb. specialize (Hst x Hx). rewrite forallb_forall in Hst.
    specialize (Hst y Hy). apply orb_true_iff in Hst as [Hst|Hst]; [lia|by apply bool_decide_eq_true in Hst].
  - exists s0, s, chain, x, producers. split_and!; [done|done|done|done|lia|done|done].
Defined.

Lemma dpos_irreversible_monotone_witness :
  exists (s1 s2 s3 : toy_state) p q, legacy_step toy_sha toy_recover s1 s2 p /\ legacy_step toy_sha toy_recover s2 s3 q /\
    was_pending_promoted p = false /\ dpos_irreversible_blocknum (common s2) <= dpos_irreversible_blocknum (common s3).
Proof.
  destruct (toy_dpos_chain (fun s0 chain s => (block_num (common s) =? 7) &&
    match toy_produce s 180 2 None with
    | Ok (p, s2) => negb (was_pending_promoted p) && is_Ok (toy_produce s2 192 2 None)
    | Err _ => false
    end)) as (s0 & chain & s & E0 & Hch & HP); [vm_compute; reflexivity|].
  apply andb_true_iff in HP as [Hn HP]. destruct (toy_produce s 180 2 None) as [[p s2]|] eqn:E2; [|discriminate HP].
  apply andb_true_iff in HP as [Hp HP]. destruct (toy_produce s2 192 2 None) as [[q s3]|] eqn:E3; [|discriminate HP].
  apply toy_produce_step in E2 as [H2 _], E3 as [H3 _]. apply negb_true_iff in Hp.
  exists s, s2, s3, p, q. split_and!; [done|done|done|].
  apply (dpos_irreversible_monotone toy_sha toy_recover (UInt 0) (UInt 1) 946684850000000 sha256_zero s0 s s2 s3 chain p q E0 Hch H2 H3);
    [lia|exact Hp].
Defined.

(** The guard against confirming a range twice subtracts in [uint32_t]: a block
    that claims to confirm more blocks than there are passes it, and its
    producer's confirmation of a block counts a second time. *)
Theorem double_confirm_guard_wraps :
  exists (s0 s : toy_state) chain, toy_genesis_legacy = Ok s0 /\ legacy_chain toy_sha toy_recover s0 chain s /\
    stays_scheduled 5 chain /\ ~ NoDup (cb_producer <$> filter (confirms 5) chain).
Proof.
  destruct (toy_dpos_chain (fun s0 chain s =>
    match toy_produce s 180 9 None with
    | Ok (p, s2) =>
        let chain := chain ++ [block_of s s2] in
        negb (bool_decide (NoDup (cb_producer <$> filter (confirms 5) chain)))
        && forallb (fun x => forallb (fun y => negb ((5 <=? cb_num x) && (cb_num x <=? cb_num y))
             || bool_decide (cb_producer x ∈ cb_scheduled y)) chain) chain
    | Err _ => false
    end)) as (s0 & chain & s & E0 & Hch & HP); [vm_compute; reflexivity|].
  destruct (toy_produce s 180 9 None) as [[p s2]|] eqn:E2; [|discriminate HP]. apply toy_produce_step in E2 as [H2 Hb].
  apply andb_true_iff in HP as [Hd Hst]. apply negb_true_iff, bool_decide_eq_false in Hd. rewrite forallb_forall in Hst.
  exists s0, s2, (chain ++ [block_of s s2]). split; [done|]. split; [by econstructor|]. split; [|done].
  intros x y Hx%list_elem_of_In Hy%list_elem_of_In Hxy. specialize (Hst x Hx). rewrite forallb_forall in Hst.
  specialize (Hst y Hy). apply orb_true_iff in Hst as [Hst|Hst]; [lia|by apply bool_decide_eq_true in Hst].
Qed.
