(* ===== verification/LegacyAssembly.v ===== *)
(** Producing and validating blocks before Savanna, and the block that starts
    the transition: the state a producer computes for the block it signs is the
    state every node computes from the block it receives, and the block that
    carries the first finalizer policy gives, through its bytes, the Savanna
    genesis state with that policy. *)
From Stdlib Require Import ZArith Lia ZifyBool Sorted.
From stdpp Require Import base tactics numbers list gmap.
From S2P Require Import Prelude Digest Raw Merkle MerkleLegacy FinalityCore OrderedDiff FinalizerPolicy.
From S2P Require Import ProducerSchedule Qc BlockHeader BlockHeaderState PolicyTransitions BlockAssembly BlockState SignedBlock.
From S2P Require Import ProtocolFeatures LegacyHeaderState DposFinality.
#[local] Open Scope Z_scope.

Section Assembly.
Context {PK K SIG APK PSIG TRX META : Type} `{EqDecision PK} `{EqDecision K} `{EqDecision PSIG}.
Context `{PackLaws PK} `{PackLaws K} `{PackLaws SIG} `{PackLaws PSIG} `{Bls PK SIG APK}.
Variable sha : list Z -> sha256.
Variable recover : PSIG -> sha256 -> result K.
Variable default_signature : PSIG.
Abbreviation state := (block_header_state_legacy (PK := PK) (K := K) (PSIG := PSIG)).
Abbreviation pending := (pending_block_header_state_legacy (K := K)).
Abbreviation header_of s := (sh_header (legacy_header s)).

(** The slot that was chosen can be given instead of asking for the next one. *)
Lemma legacy_next_at (s : state) when_ n p :
  0 <= hdr_timestamp (header_of s) -> hdr_timestamp (header_of s) + 1 < 2 ^ 32 ->
  legacy_next sha s when_ n = Ok p -> legacy_next sha s (timestamp p) n = Ok p /\ confirmed p = n.
Proof.
  intros H0ts Hts Hn. unfold legacy_next in Hn. apply bind_Ok in Hn as (w & Ew & Hn).
  assert (w <> 0 /\ hdr_timestamp (header_of s) < w) as [Hw0 Hw].
  { destruct (Z.eqb_spec when_ 0); cbn [negb] in Ew.
    - apply Ok_inj in Ew. rewrite u32_small in Ew by lia. lia.
    - apply bind_Ok in Ew as (_ & He%EOS_ASSERT_Ok & Ew). apply Ok_inj in Ew. lia. }
  assert (timestamp p = w /\ confirmed p = n) as [-> Hc].
  { clear -Hn. repeat (apply bind_Ok in Hn as (? & _ & Hn); repeat case_match; try done).
    all: repeat (apply bind_Ok in Hn as (? & _ & Hn); repeat case_match; try done); by apply Ok_inj in Hn as <-. }
  split; [|done]. unfold legacy_next. replace (w =? 0) with false by lia. cbn [negb].
  rewrite EOS_ASSERT_true, !ret_bind by lia. exact Hn.
Qed.

(** The signature of a header does not enter its state, except as itself. *)
Lemma legacy_finish_signature (p : pending) h sig0 sig pfs validator (s : state) :
  legacy_finish sha p (SignedHeader h sig0) pfs validator = Ok s ->
  legacy_finish sha p (SignedHeader h sig) pfs validator = Ok (with_signatures s sig []).
Proof.
  unfold legacy_finish. cbn [sh_header]. intros Hf.
  apply bind_Ok in Hf as (u1 & -> & Hf). apply bind_Ok in Hf as (u2 & -> & Hf). apply bind_Ok in Hf as (u3 & -> & Hf).
  apply bind_Ok in Hf as (u4 & -> & Hf). apply bind_Ok in Hf as (u5 & -> & Hf). apply bind_Ok in Hf as (exts & -> & Hf).
  rewrite !ret_bind. apply bind_Ok in Hf as (ns1 & E1 & Hf). rewrite E1, ret_bind.
  apply bind_Ok in Hf as (ns2 & E2 & Hf). rewrite E2, ret_bind. apply bind_Ok in Hf as (features & E3 & Hf).
  rewrite E3, ret_bind. apply bind_Ok in Hf as (i & -> & Hf). apply Ok_inj in Hf as <-. done.
Qed.

Lemma legacy_verify_signee_Ok (s : state) :
  legacy_verify_signee sha recover s = Ok tt ->
  exists d, sig_digest sha s = Ok d /\
    verify_signee recover (sh_producer_signature (legacy_header s)) d (additional_signatures s)
      (valid_block_signing_authority (common s)) = Ok tt.
Proof.
  unfold legacy_verify_signee, verify_signee. intros Hv. apply bind_Ok in Hv as (u & -> & Hv).
  apply bind_Ok in Hv as (d & Ed & Hv). exists d. split; [done|]. rewrite ret_bind. exact Hv.
Qed.

(** What the producer of a block ends up with. *)
Lemma legacy_signing_Ok (p : pending) h pfs validator signer (s : state) :
  legacy_finish_signing sha recover p h pfs validator signer = Ok s ->
  exists s1, legacy_finish sha p h pfs validator = Ok s1 /\
    s = with_signatures s1 (sh_producer_signature (legacy_header s)) (additional_signatures s) /\
    legacy_verify_signee sha recover s = Ok tt /\
    (exists d, signer d = additional_signatures s ++ [sh_producer_signature (legacy_header s)]) /\
    (additional_signatures s <> [] ->
     is_builtin_activated (prev_activated_protocol_features p) pfs bf_wtmsig_block_signatures = true).
Proof.
  intros Hf. unfold legacy_finish_signing in Hf. apply bind_Ok in Hf as (s1 & E1 & Hf). apply bind_Ok in Hf as (s2 & E2 & Hf).
  apply bind_Ok in Hf as (u & Ea & Hf). apply Ok_inj in Hf as <-. unfold legacy_sign in E2.
  apply bind_Ok in E2 as (d & Ed & E2). apply bind_Ok in E2 as (_ & _ & E2). apply bind_Ok in E2 as (sig & Eb & E2).
  apply bind_Ok in E2 as ([] & Ev & E2). apply Ok_inj in E2 as <-. exists s1. split_and!; [done|done|done| |].
  - exists d. cbn. apply back_last, last_Some in Eb as [l El]. rewrite El. by rewrite removelast_last.
  - intros Hne. destruct (is_empty _) eqn:Ee; [by apply is_empty_true in Ee|]. cbn [negb] in Ea. destruct u. by apply EOS_ASSERT_Ok in Ea.
Qed.

(** C25. Production and validation agree before Savanna: the block that a
    producer builds on a state and signs is accepted on that state by every node
    that checks its signatures, whose state for it is the producer's, with the
    additional signatures read back from the bytes of the block. *)
Theorem legacy_block_validates (s : state) (when_ n : Z) (p : pending) (b : signed_block K PSIG TRX) (metas : list META)
    (digests : option (list sha256)) (pfs : protocol_feature_set)
    (validator : Z -> list sha256 -> list sha256 -> result unit) (signer : sha256 -> list PSIG)
    (bs : block_state_legacy (PK := PK) (META := META)) :
  0 <= hdr_timestamp (header_of s) -> hdr_timestamp (header_of s) + 1 < 2 ^ 32 -> (forall d, Forall fits (signer d)) ->
  legacy_next sha s when_ n = Ok p -> sb_block_extensions b = [] ->
  legacy_block_of_produced sha recover p b metas digests pfs validator signer = Ok bs ->
  exists bs' : block_state_legacy (PK := PK) (META := META),
    legacy_block_of_received (SIG := SIG) sha recover s (lbs_block bs) pfs validator false = Ok bs' /\
    lbs_state bs' = lbs_state bs /\ lbs_block bs' = lbs_block bs.
Proof.
  intros H0ts Hts Hfit Hn Hext Hb. destruct (legacy_next_at s when_ n p H0ts Hts Hn) as [Hn' Hc].
  unfold legacy_block_of_produced in Hb. apply bind_Ok in Hb as ([s' b'] & Ei & Hb). apply bind_Ok in Hb as (mroot & _ & Hb).
  apply Ok_inj in Hb as <-. cbn [lbs_block lbs_state]. unfold legacy_inject_additional_signatures in Ei.
  apply bind_Ok in Ei as (s2 & Es & Ei).
  destruct (legacy_signing_Ok _ _ _ _ _ _ Es) as (s1 & E1 & Es2 & Ev & [d Hd] & Hwt).
  destruct (legacy_verify_signee_Ok _ Ev) as (dg & _ & Evs). apply verified_signatures_distinct in Evs as Hnd.
  set (sig := sh_producer_signature (legacy_header s2)) in *. set (l := additional_signatures s2) in *.
  pose proof (Hfit d) as Hfl. rewrite Hd in Hfl. apply Forall_app in Hfl as [Hfl _].
  assert (s' = s2 /\ sb_header b' = SignedHeader (sh_header (sb_header b)) sig /\
          inject_signatures [] l = Ok (sb_block_extensions b')) as (-> & Ehdr & Einj).
  { rewrite Hext in Ei. unfold inject_signatures. destruct (is_empty l); cbn [negb] in *.
    - by apply Ok_inj in Ei as [= <- <-].
    - apply bind_Ok in Ei as (_ & _ & Ei). apply bind_Ok in Ei as (bytes & -> & Ei). by apply Ok_inj in Ei as [= <- <-]. }
  destruct (produced_extensions (SIG := SIG) None l [] (sb_block_extensions b') b') as (Ex & _); [done|done|done|done|done|done|].
  destruct (sb_header b) as [h sig0] eqn:Eh0. cbn [sh_header] in Ehdr.
  apply legacy_finish_fields in E1 as Hf. destruct Hf as (_ & _ & Hfc & _ & Hft). cbn [sh_header] in Hfc, Hft.
  unfold legacy_block_of_received. rewrite Ex, ret_bind. unfold legacy_next_from_header. rewrite Ehdr. cbn [sh_header].
  rewrite Hft, Hfc, Hc, Hn', ret_bind. unfold legacy_finish_received.
  rewrite (legacy_finish_signature _ _ _ sig _ _ _ E1).
  assert ((if negb (is_empty l) then with_signatures (with_signatures s1 sig []) (sh_producer_signature (legacy_header (with_signatures s1 sig []))) l
           else with_signatures s1 sig []) = s2) as Estate.
  { rewrite Es2. destruct (is_empty l) eqn:Ee; [|done]. apply is_empty_true in Ee. by rewrite Ee. }
  assert ((if negb (is_empty l)
           then EOS_ASSERT (is_builtin_activated (prev_activated_protocol_features p) pfs bf_wtmsig_block_signatures) producer_schedule_exception
           else mret tt) = Ok tt) as ->.
  { destruct (is_empty l) eqn:Ee; [done|]. cbn [negb]. apply EOS_ASSERT_true, Hwt. intros E. by rewrite E in Ee. }
  rewrite !ret_bind. cbv zeta. rewrite Estate. cbn [negb]. rewrite Ev, !ret_bind. eexists. split; [reflexivity|]. done.
Qed.

(** ** The transition to Savanna *)

Lemma emplace_elem {A} (l : list (Z * A)) eid x : (eid, x) ∈ emplace_extension l eid x.
Proof.
  induction l as [|[i y] l IH]; cbn [emplace_extension]; [by apply list_elem_of_singleton|].
  destruct (eid <? i); [by constructor|by constructor].
Qed.

Lemma find_decoded (exts : extensions_type) (rs : list (Z * block_header_extension PK K)) eid data x :
  Forall2 decodes exts rs -> StronglySorted Z.lt exts.*1 -> (eid, data) ∈ exts ->
  extract_extension (PK := PK) (K := K) eid data = Ok (Some (x, true)) -> find_ext rs eid = Some x.
Proof.
  induction 1 as [|[i y] [j r] exts rs [Ei Er] _ IH]; intros Hs Hin Hx; [by apply not_elem_of_nil in Hin|].
  cbn [fst snd] in *. subst j. rewrite fmap_cons in Hs. apply StronglySorted_inv in Hs as [Hs Hi]. cbn [find_ext fst].
  apply elem_of_cons in Hin as [[= <- <-]|Hin].
  - rewrite Z.eqb_refl. rewrite Hx in Er. by apply Ok_inj in Er as [= <-].
  - destruct (Z.eqb_spec i eid) as [->|]; [|by apply IH]. rewrite Forall_forall in Hi.
    specialize (Hi eid). cbn [fst] in Hi. exfalso. apply (Z.lt_irrefl eid), Hi. apply list_elem_of_fmap. by exists (eid, data).
Qed.

Lemma legacy_finish_exts (p : pending) h pfs validator (s : state) :
  legacy_finish sha p h pfs validator = Ok s ->
  validate_and_extract_header_extensions (PK := PK) (sh_header h) = Ok (legacy_header_exts s).
Proof.
  intros Hf. unfold legacy_finish in Hf. do 5 (apply bind_Ok in Hf as (_ & _ & Hf)).
  apply bind_Ok in Hf as (exts & E & Hf). apply bind_Ok in Hf as (ns1 & _ & Hf). apply bind_Ok in Hf as (ns2 & _ & Hf).
  apply bind_Ok in Hf as (features & _ & Hf). apply bind_Ok in Hf as (i & _ & Hf). by apply Ok_inj in Hf as <-.
Qed.

(** The finality extension of a header that [make_block_header] makes. *)
Definition made_extension (p : pending) (fp : option (finalizer_policy PK)) (f : finality_extension PK K) : Prop :=
  match fp with
  | Some fp => exists d, fp_create_diff no_policy fp = Ok d /\
      f = {| fx_qc_claim := {| claim_block_num := block_num (pending_common p); is_strong_qc := false |};
             fx_new_finalizer_policy_diff := Some d; fx_new_proposer_policy_diff := None |}
  | None => exists claim, pending_qc_claim p = Some claim /\
      f = {| fx_qc_claim := claim; fx_new_finalizer_policy_diff := None; fx_new_proposer_policy_diff := None |}
  end.

Lemma made_header_extension (p : pending) tm am np fp pfa pfs h :
  make_block_header (PK := PK) default_signature p tm am np fp pfa pfs = Ok h ->
  (fp = None -> is_Some (pending_qc_claim p)) ->
  exists f bytes, made_extension p fp f /\ pack f = Ok bytes /\
    (finality_extension_id, Blob bytes) ∈ hdr_header_extensions (sh_header h).
Proof.
  intros Hm Hc. unfold make_block_header in Hm. apply bind_Ok in Hm as (e1 & _ & Hm). apply bind_Ok in Hm as ([e2 lp] & _ & Hm).
  apply bind_Ok in Hm as (e3 & E3 & Hm). apply Ok_inj in Hm as <-. cbn [sh_header hdr_header_extensions].
  destruct fp as [fp|].
  - apply bind_Ok in E3 as (_ & _ & E3). apply bind_Ok in E3 as (d & Ed & E3). apply bind_Ok in E3 as (bytes & Eb & E3).
    apply Ok_inj in E3 as <-. eexists _, bytes. split; [by exists d|]. split; [exact Eb|apply emplace_elem].
  - destruct (Hc eq_refl) as [claim Ecl]. rewrite Ecl in E3. apply bind_Ok in E3 as (bytes & Eb & E3).
    apply Ok_inj in E3 as <-. eexists _, bytes. split; [by exists claim|]. split; [exact Eb|apply emplace_elem].
Qed.

(** ... and it is what a node reads from the header. *)
Lemma made_extension_found (p : pending) tm am np fp pfa pfs h validator (s : state) f bytes :
  make_block_header (PK := PK) default_signature p tm am np fp pfa pfs = Ok h ->
  legacy_finish sha p h pfs validator = Ok s -> fits f -> pack f = Ok bytes ->
  (finality_extension_id, Blob bytes) ∈ hdr_header_extensions (sh_header h) ->
  find_ext (legacy_header_exts s) finality_extension_id = Some (finality_ext f) /\
  extract_header_extension (PK := PK) (sh_header h) finality_extension_id = Ok (Some (finality_ext f)) /\
  contains_header_extension (sh_header h) finality_extension_id = true.
Proof.
  intros _ Hf Hfit Hp Hin. apply legacy_finish_exts in Hf.
  destruct (header_extensions_correct (PK := PK) (sh_header h)) as [Hv Hx].
  apply Hv in Hf as Hd. destruct Hd as (Hd & Hs & _).
  pose proof (find_decoded _ _ _ _ _ Hd Hs Hin (extract_finality f bytes Hfit Hp)) as Hfind.
  split; [done|]. split; [by rewrite (Hx _ _ Hf), Hfind|].
  unfold contains_header_extension. apply existsb_exists. eexists. split; [by apply list_elem_of_In|apply Z.eqb_refl].
Qed.

(** The claim of a header is handed down to the next block. *)
Lemma next_claim (s : state) when_ n (q : pending) f :
  find_ext (legacy_header_exts s) finality_extension_id = Some (finality_ext f) ->
  legacy_next sha s when_ n = Ok q -> pending_qc_claim q = Some (fx_qc_claim f).
Proof.
  intros Hf Hn. unfold legacy_next in Hn. rewrite Hf in Hn.
  apply bind_Ok in Hn as (w & _ & Hn). apply bind_Ok in Hn as (pa & _ & Hn). apply bind_Ok in Hn as (u & _ & Hn).
  apply bind_Ok in Hn as (mk & _ & Hn). apply bind_Ok in Hn as ([cc ir] & _ & Hn). apply bind_Ok in Hn as (lib & _ & Hn).
  rewrite ret_bind in Hn. by apply Ok_inj in Hn as <-.
Qed.

(** The first finalizer policy starts Savanna: when a producer puts it into
    a block, the states of that block and of its descendants know that block as
    the Savanna genesis block, as its number is handed down by the headers; the
    assertions of [create_if_genesis_block] hold for it, and the state it
    creates has the policy that was put in as the active one, recovered from the
    bytes of the header, the active schedule as proposer policy and the finality
    core of a genesis block. *)
Theorem savanna_transition (p : pending) (tm am : sha256) (np : option (producer_authority_schedule K))
    (fp : finalizer_policy PK) (pfa : list sha256) (pfs : protocol_feature_set) (h : signed_block_header K PSIG)
    (validator : Z -> list sha256 -> list sha256 -> result unit) (signer : sha256 -> list PSIG) (s : state) :
  is_u32 (block_num (pending_common p)) -> fits fp -> vsize (fp_finalizers fp) <= max_finalizers ->
  make_block_header default_signature p tm am np (Some fp) pfa pfs = Ok h ->
  legacy_finish_signing sha recover p h pfs validator signer = Ok s ->
  legacy_savanna_genesis_block_num s = Ok (Some (block_num (common s))) /\
  contains_header_extension (header_of s) finality_extension_id = true /\
  (exists f d, extract_header_extension (header_of s) finality_extension_id = Ok (Some (finality_ext f)) /\
     fx_new_finalizer_policy_diff f = Some d /\ fp_apply_diff no_policy d = Ok fp) /\
  (forall (bs : block_state_legacy (TRX := TRX) (META := META)) fresh g,
     lbs_state bs = s -> create_if_genesis_block (SIG := SIG) sha bs fresh = Ok g ->
     BlockHeaderState.active_finalizer_policy (bhs g) = fp /\
     pp_proposer_schedule (deref (BlockHeaderState.active_proposer_policy (bhs g))) = active_schedule (common s) /\
     BlockHeaderState.core (bhs g) = create_core_for_genesis_block (id s) (hdr_timestamp (header_of s)) /\
     BlockHeaderState.header (bhs g) = header_of s /\ BlockHeaderState.block_id (bhs g) = id s) /\
  (forall when_ n q tm' am' np' pfa' h' signer' (s' : state),
     legacy_next sha s when_ n = Ok q -> make_block_header (PK := PK) default_signature q tm' am' np' None pfa' pfs = Ok h' ->
     legacy_finish_signing sha recover q h' pfs validator signer' = Ok s' ->
     legacy_savanna_genesis_block_num s' = Ok (Some (block_num (common s)))).
Proof.
  intros Hnum Hfit Hsz Hm Hs. destruct (legacy_signing_Ok _ _ _ _ _ _ Hs) as (s1 & E1 & Es & _).
  destruct (made_header_extension _ _ _ _ _ _ _ _ Hm) as (f & bytes & Hmade & Hpack & Hin); [done|].
  destruct Hmade as (d & Ed & Ef).
  assert (fits f) as Hf.
  { rewrite Ef. split; [split; [exact Hnum|exact I]|]. split; [by eapply fp_diff_fits|exact I]. }
  destruct (made_extension_found _ _ _ _ _ _ _ _ _ _ f bytes Hm E1 Hf Hpack Hin) as (Hfind & Hext & Hcont).
  apply legacy_finish_fields in E1 as Hfields. destruct Hfields as (Hcom & Hhdr & _).
  assert (common s = pending_common p /\ header_of s = sh_header h /\ legacy_header_exts s = legacy_header_exts s1) as (Hcs & Hhs & Hxs)
    by (rewrite Es; cbn; by rewrite Hcom, Hhdr).
  destruct (finalizer_policy_diff_roundtrip no_policy fp) as (d' & Ed' & Ea); [done|done|].
  rewrite Ed in Ed'. apply Ok_inj in Ed' as <-.
  rewrite Hhs. unfold legacy_savanna_genesis_block_num at 1. rewrite Hxs, Hfind, Ef, Hcs. split; [done|]. split; [done|].
  split; [exists f, d; by rewrite Ef in *|]. split.
  - intros bs fresh g Hbs Hg. unfold create_if_genesis_block in Hg. rewrite Hbs, Hhs in Hg. destruct (action_mroot_savanna bs); [|done].
    rewrite Hcont in Hg. apply bind_Ok in Hg as (_ & _ & Hg). rewrite Hext, ret_bind, Ef in Hg. cbn [fx_new_finalizer_policy_diff] in Hg.
    rewrite Ea, ret_bind in Hg. apply bind_Ok in Hg as (pb & _ & Hg). apply bind_Ok in Hg as (strong & _ & Hg).
    apply bind_Ok in Hg as (v & _ & Hg). apply Ok_inj in Hg as <-. by rewrite <- Hcs.
  - intros when_ n q tm' am' np' pfa' h' signer' s' Hn Hm' Hs'.
    destruct (legacy_signing_Ok _ _ _ _ _ _ Hs') as (s1' & E1' & Es' & _).
    rewrite <- Hxs in Hfind. pose proof (next_claim s when_ n q f Hfind Hn) as Hcl. rewrite Ef in Hcl. cbn [fx_qc_claim] in Hcl.
    destruct (made_header_extension _ _ _ _ _ _ _ _ Hm') as (f' & bytes' & (c & Ec & Ef') & Hpack' & Hin'); [by eexists|].
    assert (fits f') as Hf'. { rewrite Ef'. rewrite Hcl in Ec. injection Ec as <-. split; [split; [exact Hnum|exact I]|]. split; exact I. }
    destruct (made_extension_found _ _ _ _ _ _ _ _ _ _ f' bytes' Hm' E1' Hf' Hpack' Hin') as (Hfind' & _).
    unfold legacy_savanna_genesis_block_num. rewrite Es'. cbn [with_signatures legacy_header_exts]. rewrite Hfind', Ef'.
    rewrite Hcl in Ec. by injection Ec as <-.
Qed.
End Assembly.

(** ** A concrete transition *)

(** The first block after the genesis block, with the first finalizer policy. *)
Definition transition_policy : finalizer_policy (uint 8) := {|
  fp_generation := 1; fp_threshold := 2;
  fp_finalizers := [{| fa_description := Blob [65]; fa_weight := 1; fa_public_key := UInt 7 |};
                    {| fa_description := Blob [66]; fa_weight := 1; fa_public_key := UInt 8 |}] |}.

Definition transition_inputs : result (toy_state * pending_block_header_state_legacy (K := uint 8) * signed_block_header (uint 8) (uint 8)) :=
  s ← toy_genesis_legacy;
  p ← legacy_next toy_sha s 0 0;
  h ← make_block_header (UInt 0) p sha256_zero sha256_zero None (Some transition_policy) [] empty_feature_set;
  mret (s, p, h).

Lemma transition_inputs_inv s p h :
  transition_inputs = Ok (s, p, h) ->
  legacy_next toy_sha s 0 0 = Ok p /\
  make_block_header (UInt 0) p sha256_zero sha256_zero None (Some transition_policy) [] empty_feature_set = Ok h.
Proof.
  unfold transition_inputs. intros E. apply bind_Ok in E as (s' & _ & E). apply bind_Ok in E as (p' & Ep & E).
  apply bind_Ok in E as (h' & Eh & E). by apply Ok_inj in E as [= -> -> ->].
Qed.

#[local] Instance toy_bls_legacy : Bls (uint 8) (uint 8) Z := {|
  bls_verify k d s := uint_value s =? uint_value k; sig_zero := UInt 0;
  sig_aggregate a b := UInt (uint_value a + uint_value b); aggregate_public_keys l := 0;
  aggregate_verify _ _ _ := true |}.

Lemma legacy_block_validates_witness :
  exists (s : toy_state) p h (bs bs' : block_state_legacy (PK := uint 8) (TRX := Z) (META := Z)),
    transition_inputs = Ok (s, p, h) /\
    legacy_block_of_produced toy_sha toy_recover p (SignedBlock h [7] []) [9] (Some [toy_id]) empty_feature_set toy_accept
      (fun _ => [UInt 1]) = Ok bs /\
    legacy_block_of_received (SIG := uint 8) toy_sha toy_recover s (lbs_block bs) empty_feature_set toy_accept false = Ok bs' /\
    lbs_state bs' = lbs_state bs.
Proof.
  assert (match transition_inputs with
          | Ok (s, p, h) =>
              (0 <=? hdr_timestamp (sh_header (legacy_header s))) && (hdr_timestamp (sh_header (legacy_header s)) + 1 <? 2 ^ 32)
              && is_Ok (legacy_block_of_produced (PK := uint 8) (TRX := Z) (META := Z) toy_sha toy_recover p (SignedBlock h [7] []) [9] (Some [toy_id])
                          empty_feature_set toy_accept (fun _ => [UInt 1]))
          | Err _ => false end = true) as Hok by (vm_compute; reflexivity).
  destruct transition_inputs as [[[s p] h]|] eqn:E; [|discriminate Hok]. rewrite !andb_true_iff in Hok. destruct Hok as ((H1 & H2) & H3).
  destruct (legacy_block_of_produced (PK := uint 8) (TRX := Z) (META := Z) toy_sha toy_recover p (SignedBlock h [7] []) [9] (Some [toy_id])
    empty_feature_set toy_accept (fun _ => [UInt 1])) as [bs|] eqn:Eb; [|discriminate H3].
  destruct (transition_inputs_inv _ _ _ E) as [Ep _].
  destruct (legacy_block_validates (SIG := uint 8) toy_sha toy_recover s 0 0 p (SignedBlock h [7] []) [9] (Some [toy_id]) empty_feature_set
    toy_accept (fun _ => [UInt 1]) bs) as (bs' & Er & Es & _); [lia|lia| |exact Ep|reflexivity|exact Eb|].
  - intros _. repeat constructor; vm_compute; congruence.
  - exists s, p, h, bs, bs'. split_and!; [done|exact Eb|exact Er|exact Es].
Defined.

Lemma savanna_transition_witness :
  exists (s s' : toy_state) p h (bs : block_state_legacy (PK := uint 8) (TRX := Z) (META := Z)) g,
    transition_inputs = Ok (s, p, h) /\ legacy_savanna_genesis_block_num s' = Ok (Some 2) /\ lbs_state bs = s' /\
    create_if_genesis_block (SIG := uint 8) toy_sha bs 1 = Ok g /\
    BlockHeaderState.active_finalizer_policy (bhs g) = transition_policy.
Proof.
  assert (match transition_inputs with
          | Ok (s, p, h) =>
              match legacy_finish_signing (PK := uint 8) toy_sha toy_recover p h empty_feature_set toy_accept (fun _ => [UInt 1]) with
              | Ok s' => (block_num (common s') =? 2) && (block_num (pending_common p) =? 2) &&
                  is_Ok (create_if_genesis_block (SIG := uint 8) toy_sha
                    {| lbs_state := s'; lbs_block := SignedBlock h [7] []; lbs_validated := true; pub_keys_recovered := true;
                       cached_trxs := [9]; action_mroot_savanna := Some toy_id |} 1)
              | Err _ => false end
          | Err _ => false end = true) as Hok by (vm_compute; reflexivity).
  destruct transition_inputs as [[[s p] h]|] eqn:E; [|discriminate Hok]. destruct (transition_inputs_inv _ _ _ E) as [_ Em].
  destruct (legacy_finish_signing (PK := uint 8) toy_sha toy_recover p h empty_feature_set toy_accept (fun _ => [UInt 1]))
    as [s'|] eqn:Es; [|discriminate Hok].
  set (bs := {| lbs_state := s'; lbs_block := SignedBlock h [7] []; lbs_validated := true; pub_keys_recovered := true;
                cached_trxs := [9]; action_mroot_savanna := Some toy_id |}) in Hok.
  destruct (create_if_genesis_block (SIG := uint 8) toy_sha bs 1) as [g|] eqn:Eg; [|rewrite andb_false_r in Hok; discriminate Hok].
  rewrite !andb_true_iff in Hok. destruct Hok as ((H2 & Hp2) & _).
  destruct (savanna_transition (SIG := uint 8) (TRX := Z) (META := Z) toy_sha toy_recover (UInt 0) p sha256_zero sha256_zero None
    transition_policy [] empty_feature_set h toy_accept (fun _ => [UInt 1]) s') as (Hnum & _ & _ & Hg & _).
  - unfold is_u32. lia.
  - split; [in_word|]. split; [in_word|]. do 2 (constructor; [split; [exact I|]; split; in_word|]). constructor.
  - vm_compute. congruence.
  - exact Em.
  - exact Es.
  - exists s, s', p, h, bs, g. split_and!; [done| |done|exact Eg|].
    + rewrite Hnum. do 2 f_equal. lia.
    + by apply (Hg bs 1 g).
Defined.
