(* ===== verification/UnappliedQueue.v ===== *)
(** The queue of transactions that wait for a block
    (chain/include/eosio/chain/unapplied_transaction_queue.hpp): transactions of
    forked and aborted blocks, and incoming ones, whose total size is bounded.

    The three indices of the container are views of one list in the order of
    insertion, which is the order that the ordered indices keep among equal
    keys.  A callback [next] is its number, and what the queue tells callbacks is
    returned as events.  [sizeof_metadata] is the size of a C++ object. *)
From Stdlib Require Import ZArith Lia ZifyBool Sorted.
From stdpp Require Import base tactics numbers list.
From S2P Require Import Prelude Digest.
#[local] Open Scope Z_scope.

Inductive trx_enum_type : Type := unknown | forked | aborted | incoming_api | incoming_p2p.

#[global] Instance trx_enum_type_eq_dec : EqDecision trx_enum_type.
Proof. solve_decision. Defined.

Definition type_value (t : trx_enum_type) : Z :=
  match t with unknown => 0 | forked => 1 | aborted => 2 | incoming_api => 3 | incoming_p2p => 4 end.

(** What the queue reads of a [transaction_metadata] behind its pointer. *)
Record transaction_metadata : Type := TransactionMetadata {
  meta_ptr : Z;
  meta_id : sha256;
  meta_expiration : Z;                    (* seconds, uint32_t *)
  packed_trx_size : Z;                    (* bytes *)
  signatures_pack_size : Z;
  packed_context_free_data_size : Z
}.

Record unapplied_transaction : Type := UnappliedTransaction {
  trx_meta : transaction_metadata;
  trx_type : trx_enum_type;
  return_failure_trace : bool;
  next : option Z
}.

Definition trx_id (e : unapplied_transaction) : sha256 := meta_id (trx_meta e).
Definition expiration (e : unapplied_transaction) : Z := meta_expiration (trx_meta e).

(** What leaves the queue: the callback of [clear_expired] is told of a
    transaction, a [next] gets an exception. *)
Inductive event : Type :=
| expired_callback (id : sha256) (type : trx_enum_type)
| responded (callback : Z) (e : exn).

#[global] Instance event_eq_dec : EqDecision event.
Proof. solve_decision. Defined.

Definition respond (e : unapplied_transaction) (x : exn) : list event :=
  match next e with Some callback => [responded callback x] | None => [] end.

Definition fixed_net_overhead_of_packed_trx : Z := 16.
Definition uint32_max : Z := 2 ^ 32 - 1.

Definition get_unprunable_size (t : transaction_metadata) : result Z :=
  let size := u64 (fixed_net_overhead_of_packed_trx + packed_trx_size t) in
  EOS_ASSERT (size <=? uint32_max) tx_too_big;; mret size.

Definition get_prunable_size (t : transaction_metadata) : result Z :=
  let size := u64 (signatures_pack_size t + packed_context_free_data_size t) in
  EOS_ASSERT (size <=? uint32_max) tx_too_big;; mret size.

Section Queue.
Variable sizeof_metadata : Z.

Definition calc_size (t : transaction_metadata) : result Z :=
  a ← get_unprunable_size t; b ← get_prunable_size t; mret (u64 ((a + b) * 2 + sizeof_metadata)).

Record unapplied_transaction_queue : Type := Queue {
  queue : list unapplied_transaction;
  max_transaction_queue_size : Z;
  size_in_bytes : Z;
  incoming_count : Z
}.

Definition empty_queue : unapplied_transaction_queue := Queue [] (1024 * 1024 * 1024) 0 0.

Definition set_max_transaction_queue_size (q : unapplied_transaction_queue) (v : Z) : unapplied_transaction_queue :=
  Queue (queue q) v (size_in_bytes q) (incoming_count q).
Definition with_queue (q : unapplied_transaction_queue) (l : list unapplied_transaction) : unapplied_transaction_queue :=
  Queue l (max_transaction_queue_size q) (size_in_bytes q) (incoming_count q).

Definition queue_empty (q : unapplied_transaction_queue) : bool := is_empty (queue q).
Definition queue_size (q : unapplied_transaction_queue) : Z := vsize (queue q).
Definition clear (q : unapplied_transaction_queue) : unapplied_transaction_queue :=
  Queue [] (max_transaction_queue_size q) 0 0.
Definition incoming_size (q : unapplied_transaction_queue) : Z := incoming_count q.

(** ** Indices *)

(** By id: unique. *)
Fixpoint find_trx (id : sha256) (l : list unapplied_transaction) : option unapplied_transaction :=
  match l with
  | [] => None
  | e :: l => if sha256_eqb (trx_id e) id then Some e else find_trx id l
  end.
Fixpoint erase_trx (id : sha256) (l : list unapplied_transaction) : list unapplied_transaction :=
  match l with
  | [] => []
  | e :: l => if sha256_eqb (trx_id e) id then l else e :: erase_trx id l
  end.

(** By expiration: the first of the earliest. *)
Fixpoint first_expiring (l : list unapplied_transaction) : option unapplied_transaction :=
  match l with
  | [] => None
  | e :: l =>
      match first_expiring l with
      | Some f => if expiration f <? expiration e then Some f else Some e
      | None => Some e
      end
  end.

(** By type: the order of iteration. *)
Definition of_type (t : trx_enum_type) (l : list unapplied_transaction) : list unapplied_transaction :=
  filter (fun e => trx_type e = t) l.
Definition by_type (l : list unapplied_transaction) : list unapplied_transaction :=
  of_type unknown l ++ of_type forked l ++ of_type aborted l ++ of_type incoming_api l ++ of_type incoming_p2p l.

(** Ranges between iterators: from the first element whose type is not less,
    and up to the first whose type is greater. *)
Definition from_lower_bound (t : trx_enum_type) (l : list unapplied_transaction) : list unapplied_transaction :=
  filter (fun e => type_value t <= type_value (trx_type e)) (by_type l).
Definition to_upper_bound (t : trx_enum_type) (l : list unapplied_transaction) : list unapplied_transaction :=
  filter (fun e => type_value (trx_type e) <= type_value t) (by_type l).

Definition iterate (q : unapplied_transaction_queue) : list unapplied_transaction := by_type (queue q).
Definition unapplied_range (q : unapplied_transaction_queue) : list unapplied_transaction :=
  to_upper_bound aborted (queue q).
Definition incoming_range (q : unapplied_transaction_queue) : list unapplied_transaction :=
  from_lower_bound incoming_api (queue q).

(** [lower_bound(id)]: the iteration from the transaction on, or the end. *)
Fixpoint iterate_from (id : sha256) (l : list unapplied_transaction) : list unapplied_transaction :=
  match l with
  | [] => []
  | e :: l' => if sha256_eqb (trx_id e) id then l else iterate_from id l'
  end.
Definition lower_bound (q : unapplied_transaction_queue) (id : sha256) : list unapplied_transaction :=
  match find_trx id (queue q) with None => [] | Some _ => iterate_from id (by_type (queue q)) end.

Definition get_trx (q : unapplied_transaction_queue) (id : sha256) : option transaction_metadata :=
  trx_meta <$> find_trx id (queue q).

(** ** Accounting *)

Definition is_incoming (t : trx_enum_type) : bool :=
  match t with incoming_p2p | incoming_api => true | _ => false end.

Definition added (q : unapplied_transaction_queue) (e : unapplied_transaction) : result unapplied_transaction_queue :=
  size ← calc_size (trx_meta e);
  (if is_incoming (trx_type e) then
     EOS_ASSERT ((size <? max_transaction_queue_size q) &&
                 (size_in_bytes q <? u64 (max_transaction_queue_size q - size))) tx_resource_exhaustion
   else mret tt);;
  mret (Queue (queue q) (max_transaction_queue_size q) (u64 (size_in_bytes q + size))
          (if is_incoming (trx_type e) then u64 (incoming_count q + 1) else incoming_count q)).

Definition removed (q : unapplied_transaction_queue) (e : unapplied_transaction) : result unapplied_transaction_queue :=
  size ← calc_size (trx_meta e);
  mret (Queue (queue q) (max_transaction_queue_size q) (u64 (size_in_bytes q - size))
          (if is_incoming (trx_type e) then u64 (incoming_count q - 1) else incoming_count q)).

(** [queue.insert] and [added], which undoes the insertion when it throws: the
    error leaves the queue as it was. *)
Definition insert_trx (q : unapplied_transaction_queue) (e : unapplied_transaction) : result unapplied_transaction_queue :=
  match find_trx (trx_id e) (queue q) with
  | Some _ => mret q
  | None => added (with_queue q (queue q ++ [e])) e
  end.

Definition add_forked (q : unapplied_transaction_queue) (trx : transaction_metadata) : result unapplied_transaction_queue :=
  insert_trx q (UnappliedTransaction trx forked false None).

Fixpoint add_aborted (q : unapplied_transaction_queue) (aborted_trxs : list transaction_metadata)
    : unapplied_transaction_queue * option exn :=
  match aborted_trxs with
  | [] => (q, None)
  | trx :: aborted_trxs =>
      match insert_trx q (UnappliedTransaction trx aborted false None) with
      | Ok q => add_aborted q aborted_trxs
      | Err e => (q, Some e)
      end
  end.

Definition add_incoming (q : unapplied_transaction_queue) (trx : transaction_metadata) (api_trx return_failure : bool)
    (next_ : option Z) : result (unapplied_transaction_queue * list event) :=
  match find_trx (meta_id trx) (queue q) with
  | None =>
      q ← insert_trx q (UnappliedTransaction trx (if api_trx then incoming_api else incoming_p2p) return_failure next_);
      mret (q, [])
  | Some e =>
      if meta_ptr (trx_meta e) =? meta_ptr trx then mret (q, [])
      else match next_ with
           | Some callback => mret (q, [responded callback tx_duplicate])
           | None => mret (q, [])
           end
  end.

(** [erase(itr)] of a transaction in the queue: the iteration goes on with the
    next one. *)
Definition erase (q : unapplied_transaction_queue) (e : unapplied_transaction)
    : result (unapplied_transaction_queue * list unapplied_transaction) :=
  let rest := drop 1 (iterate_from (trx_id e) (by_type (queue q))) in
  q ← removed q e;
  mret (with_queue q (erase_trx (trx_id e) (queue q)), rest).

(** ** Expired and applied transactions *)

(** The loop of [clear_expired]; [yield i] is the answer of the [i]th call.
    Each round removes a transaction. *)
Fixpoint clear_expired_loop (fuel : nat) (q : unapplied_transaction_queue) (pending_block_time : Z)
    (yield : nat -> bool) (i : nat) : result (bool * unapplied_transaction_queue * list event) :=
  match fuel with
  | O => Err undefined_behavior
  | S fuel =>
      match first_expiring (queue q) with
      | None => mret (true, q, [])
      | Some e =>
          if pending_block_time <? expiration e * 1000000 then mret (true, q, [])
          else if yield i then mret (false, q, [])
          else
            q ← removed q e;
            '(finished, q, events) ←
              clear_expired_loop fuel (with_queue q (erase_trx (trx_id e) (queue q))) pending_block_time yield (S i);
            mret (finished, q,
                  expired_callback (trx_id e) (trx_type e) :: respond e expired_tx_exception ++ events)
      end
  end.

Definition clear_expired (q : unapplied_transaction_queue) (pending_block_time : Z) (yield : nat -> bool)
    : result (bool * unapplied_transaction_queue * list event) :=
  clear_expired_loop (S (length (queue q))) q pending_block_time yield 0.

(** The receipts of a block: the id of the transaction it holds, if it holds a
    packed transaction. *)
Fixpoint clear_applied_loop (q : unapplied_transaction_queue) (receipts : list (option sha256))
    : result (unapplied_transaction_queue * list event) :=
  match receipts with
  | [] => mret (q, [])
  | None :: receipts => clear_applied_loop q receipts
  | Some id :: receipts =>
      match find_trx id (queue q) with
      | None => clear_applied_loop q receipts
      | Some e =>
          q ← removed q e;
          '(q, events) ← clear_applied_loop (with_queue q (erase_trx id (queue q))) receipts;
          mret (q, respond e tx_duplicate ++ events)
      end
  end.

Definition clear_applied (q : unapplied_transaction_queue) (receipts : list (option sha256))
    : result (unapplied_transaction_queue * list event) :=
  if queue_empty q then mret (q, []) else clear_applied_loop q receipts.

(** ** Invariant *)

Definition size_of (e : unapplied_transaction) : Z :=
  match calc_size (trx_meta e) with Ok s => s | Err _ => 0 end.
Definition total_size (l : list unapplied_transaction) : Z := foldr (fun e n => size_of e + n) 0 l.
Definition incoming_of (l : list unapplied_transaction) : list unapplied_transaction :=
  filter (fun e => is_incoming (trx_type e) = true) l.

Record queue_ok (q : unapplied_transaction_queue) : Prop := {
  qo_ids : NoDup (trx_id <$> queue q);
  qo_sizes : Forall (fun e => calc_size (trx_meta e) = Ok (size_of e)) (queue q);
  qo_bytes : size_in_bytes q = u64 (total_size (queue q));
  qo_incoming : incoming_count q = u64 (vsize (incoming_of (queue q)));
  qo_types : Forall (fun e => trx_type e <> unknown) (queue q)
}.

Lemma find_trx_Some id l e : find_trx id l = Some e -> e ∈ l /\ trx_id e = id.
Proof.
  induction l as [|x l IH]; cbn [find_trx]; [done|]. destruct (sha256_eqb (trx_id x) id) eqn:E.
  - intros [= <-]. apply sha256_eqb_eq in E. split; [constructor|done].
  - intros Hf. apply IH in Hf as [? ?]. split; [by constructor|done].
Qed.

Lemma find_trx_None id l : find_trx id l = None <-> id ∉ (trx_id <$> l).
Proof.
  induction l as [|x l IH]; cbn [find_trx fmap list_fmap]; [split; [intros _; apply not_elem_of_nil|done]|].
  rewrite not_elem_of_cons. destruct (sha256_eqb (trx_id x) id) eqn:E.
  - apply sha256_eqb_eq in E. split; [done|]. intros [? _]. congruence.
  - rewrite IH. split; [|by intros [_ ?]]. intros Hn. split; [|done]. intros ->. by rewrite sha256_eqb_refl in E.
Qed.

Lemma erase_trx_perm id l e : NoDup (trx_id <$> l) -> e ∈ l -> trx_id e = id -> l ≡ₚ e :: erase_trx id l.
Proof.
  intros Hd Hin <-. induction l as [|x l IH]; [by apply not_elem_of_nil in Hin|]. rewrite fmap_cons in Hd.
  apply NoDup_cons in Hd as [Hn Hd]. cbn [erase_trx]. destruct (sha256_eqb (trx_id x) (trx_id e)) eqn:E.
  - apply sha256_eqb_eq in E. apply elem_of_cons in Hin as [->|Hin]; [done|]. exfalso. apply Hn. rewrite E.
    apply list_elem_of_fmap. eauto.
  - apply elem_of_cons in Hin as [->|Hin]; [by rewrite sha256_eqb_refl in E|]. rewrite (IH Hd Hin) at 1. constructor.
Qed.

Lemma erase_trx_sublist id l : sublist (erase_trx id l) l.
Proof. induction l as [|x l IH]; cbn [erase_trx]; [constructor|]. destruct (sha256_eqb _ _); by repeat constructor. Qed.

Lemma ids_sublist id l k : sublist l k -> id ∈ (trx_id <$> l) -> id ∈ (trx_id <$> k).
Proof. intros Hs (e & -> & He)%list_elem_of_fmap. apply list_elem_of_fmap. exists e. split; [done|by eapply elem_of_sublist]. Qed.

Lemma total_size_perm l k : l ≡ₚ k -> total_size l = total_size k.
Proof. unfold total_size. induction 1; simpl; lia. Qed.

Lemma incoming_perm l k : l ≡ₚ k -> vsize (incoming_of l) = vsize (incoming_of k).
Proof. intros Hp. unfold vsize, incoming_of. by rewrite Hp. Qed.

Lemma total_size_app l k : total_size (l ++ k) = total_size l + total_size k.
Proof. unfold total_size. induction l as [|e l IH]; simpl; lia. Qed.

(** Removing a transaction takes its share out of the accounts. *)
Lemma remove_ok q e :
  queue_ok q -> e ∈ queue q ->
  exists q1, removed q e = Ok q1 /\ queue q1 = queue q /\ max_transaction_queue_size q1 = max_transaction_queue_size q /\
    queue_ok (with_queue q1 (erase_trx (trx_id e) (queue q))).
Proof.
  intros Hq Hin. unfold removed. pose proof (qo_sizes _ Hq) as Hsz. rewrite Forall_forall in Hsz. rewrite (Hsz e Hin), ret_bind.
  eexists. split; [done|]. split; [done|]. split; [done|].
  pose proof (erase_trx_perm _ _ e (qo_ids _ Hq) Hin eq_refl) as Hp. pose proof (erase_trx_sublist (trx_id e) (queue q)) as Hs.
  constructor; cbn [with_queue queue size_in_bytes incoming_count].
  - pose proof (qo_ids _ Hq) as Hd. rewrite Hp in Hd. cbn [fmap list_fmap] in Hd. by apply NoDup_cons in Hd as [_ Hd].
  - eapply Forall_of_sublist; [exact Hs|apply Hq].
  - rewrite (qo_bytes _ Hq), (total_size_perm _ _ Hp). unfold u64. cbn [total_size foldr]. fold (total_size (erase_trx (trx_id e) (queue q))).
    rewrite Zminus_mod_idemp_l. f_equal. lia.
  - rewrite (qo_incoming _ Hq), (incoming_perm _ _ Hp).
    unfold incoming_of. rewrite filter_cons. destruct (is_incoming (trx_type e)) eqn:E; [rewrite decide_True by done|by rewrite decide_False].
    unfold u64, vsize. cbn [length]. rewrite Zminus_mod_idemp_l. f_equal. lia.
  - eapply Forall_of_sublist; [exact Hs|apply Hq].
Qed.

Lemma insert_ok q e q' :
  queue_ok q -> trx_type e <> unknown -> insert_trx q e = Ok q' ->
  queue_ok q' /\ max_transaction_queue_size q' = max_transaction_queue_size q.
Proof.
  intros Hq Ht Hi. unfold insert_trx in Hi. destruct (find_trx (trx_id e) (queue q)) eqn:Ef; [by apply Ok_inj in Hi as <-|].
  apply find_trx_None in Ef. unfold added in Hi. cbn [with_queue queue max_transaction_queue_size size_in_bytes incoming_count] in Hi.
  apply bind_Ok in Hi as (size & Es & Hi). apply bind_Ok in Hi as (_ & _ & Hi). apply Ok_inj in Hi as <-.
  assert (size_of e = size) as Hsz by (unfold size_of; by rewrite Es). split; [|done].
  constructor; cbn [queue size_in_bytes incoming_count].
  - rewrite fmap_app. cbn [fmap list_fmap]. apply NoDup_app. split_and!; [apply Hq| |apply NoDup_singleton].
    intros x Hx ->%list_elem_of_singleton. done.
  - apply Forall_app. split; [apply Hq|]. constructor; [by rewrite Hsz|constructor].
  - rewrite (qo_bytes _ Hq), total_size_app. unfold u64. rewrite Zplus_mod_idemp_l. cbn [total_size foldr]. f_equal. lia.
  - rewrite (qo_incoming _ Hq). unfold incoming_of. rewrite filter_app, filter_cons.
    destruct (is_incoming (trx_type e)) eqn:E; [rewrite decide_True by done|rewrite decide_False by done].
    + unfold u64, vsize. rewrite Zplus_mod_idemp_l, length_app. f_equal. simpl. lia.
    + by rewrite app_nil_r.
  - apply Forall_app. split; [apply Hq|]. by constructor.
Qed.

(** ** Expired transactions *)

Lemma first_expiring_spec l :
  match first_expiring l with
  | Some e => e ∈ l /\ Forall (fun f => expiration e <= expiration f) l
  | None => l = []
  end.
Proof.
  induction l as [|e l IH]; [done|]. cbn [first_expiring]. destruct (first_expiring l) as [f|].
  - destruct IH as [Hf Hl]. destruct (Z.ltb_spec (expiration f) (expiration e)).
    + split; [by constructor|]. constructor; [lia|done].
    + split; [constructor|]. constructor; [lia|]. eapply Forall_impl; [exact Hl|]. simpl. lia.
  - subst l. split; [constructor|]. constructor; [lia|constructor].
Qed.

Definition is_expired (t : Z) (e : unapplied_transaction) : Prop := expiration e * 1000000 <= t.

(** What [clear_expired] tells of the transactions it removes. *)
Definition expired_events (gone : list unapplied_transaction) : list event :=
  gone ≫= fun e => expired_callback (trx_id e) (trx_type e) :: respond e expired_tx_exception.

Definition expired_post (q q' : unapplied_transaction_queue) (t : Z) (finished : bool) (gone : list unapplied_transaction) : Prop :=
  queue_ok q' /\ max_transaction_queue_size q' = max_transaction_queue_size q /\
  queue q ≡ₚ gone ++ queue q' /\ sublist (queue q') (queue q) /\
  Forall (is_expired t) gone /\ StronglySorted (fun e f => expiration e <= expiration f) gone /\
  (finished = true -> Forall (fun e => ~ is_expired t e) (queue q')).

Lemma clear_expired_loop_spec fuel q t yield i :
  queue_ok q -> (length (queue q) < fuel)%nat ->
  exists finished q' gone, clear_expired_loop fuel q t yield i = Ok (finished, q', expired_events gone) /\
    expired_post q q' t finished gone /\ ((forall j, yield j = false) -> finished = true).
Proof.
  revert q i; induction fuel as [|fuel IH]; intros q i Hq Hl; [lia|]. cbn [clear_expired_loop].
  pose proof (first_expiring_spec (queue q)) as Hf. destruct (first_expiring (queue q)) as [e|].
  2: { exists true, q, []. split; [done|]. split; [|done]. split_and!; [done|done|done|done|constructor|constructor|].
       rewrite Hf. by constructor. }
  destruct Hf as [Hin Hmin]. destruct (Z.ltb_spec t (expiration e * 1000000)) as [Ht|Ht].
  { exists true, q, []. split; [done|]. split; [|done]. split_and!; [done|done|done|done|constructor|constructor|].
    intros _. eapply Forall_impl; [exact Hmin|]. unfold is_expired. simpl. lia. }
  destruct (yield i) eqn:Ey.
  { exists false, q, []. split; [done|]. split; [|intros Hy; by rewrite Hy in Ey].
    split_and!; [done|done|done|done|constructor|constructor|done]. }
  destruct (remove_ok q e Hq Hin) as (q1 & -> & Eq1 & Em1 & Hq1). rewrite ret_bind, Eq1.
  pose proof (erase_trx_perm _ _ e (qo_ids _ Hq) Hin eq_refl) as Hp.
  destruct (IH (with_queue q1 (erase_trx (trx_id e) (queue q))) (S i) Hq1) as (finished & q' & gone & -> & Hpost & Hy).
  { cbn [with_queue queue]. apply Permutation_length in Hp. simpl in Hp. lia. }
  destruct Hpost as (Hq' & Hm & Hpg & Hsub & Hg & Hs & Hfin). cbn [with_queue queue max_transaction_queue_size] in *.
  rewrite ret_bind. exists finished, q', (e :: gone). split; [done|]. split; [|done]. split_and!; [done|congruence| | | | |done].
  - rewrite Hp at 1. cbn [app]. by rewrite Hpg.
  - etrans; [exact Hsub|apply erase_trx_sublist].
  - constructor; [unfold is_expired; lia|done].
  - constructor; [done|]. apply Forall_forall. intros f Hf. rewrite Forall_forall in Hmin. apply Hmin. rewrite Hp.
    constructor. rewrite Hpg. by apply elem_of_app; left.
Qed.

(** Expired transactions are dropped, and their senders told: with the
    accounts of the queue in order, [clear_expired] returns; it removes
    transactions that are expired at the time of the pending block, earliest
    first, and keeps the others in their order with the accounts exact; for each
    removed transaction, in that order, it calls the callback and answers [next]
    once, if there is one; when it reports that it finished no expired
    transaction is left, and it finishes unless [yield] stops it. *)
Theorem clear_expired_correct (q : unapplied_transaction_queue) (t : Z) (yield : nat -> bool) :
  queue_ok q ->
  exists finished q' gone, clear_expired q t yield = Ok (finished, q', expired_events gone) /\
    expired_post q q' t finished gone /\ ((forall j, yield j = false) -> finished = true).
Proof. intros Hq. apply clear_expired_loop_spec; [done|lia]. Qed.

(** ** Every sequence of operations *)

Lemma clear_applied_ok q receipts :
  queue_ok q -> exists q' events, clear_applied_loop q receipts = Ok (q', events) /\ queue_ok q' /\
    sublist (queue q') (queue q) /\ (forall id, Some id ∈ receipts -> id ∉ (trx_id <$> queue q')).
Proof.
  revert q; induction receipts as [|[id|] receipts IH]; intros q Hq; cbn [clear_applied_loop].
  - exists q, []. split_and!; [done|done|done|]. intros id Hid. by apply not_elem_of_nil in Hid.
  - destruct (find_trx id (queue q)) as [e|] eqn:Ef.
    + apply find_trx_Some in Ef as [Hin <-]. destruct (remove_ok q e Hq Hin) as (q1 & -> & Eq1 & _ & Hq1). rewrite ret_bind, Eq1.
      destruct (IH _ Hq1) as (q' & events & -> & Hq' & Hs & Hn). cbn [with_queue queue] in Hs. rewrite ret_bind.
      exists q', (respond e tx_duplicate ++ events). split_and!; [done|done|etrans; [exact Hs|apply erase_trx_sublist]|].
      intros id [[= ->]|Hid]%elem_of_cons; [|by apply Hn]. intros Hid. apply (ids_sublist _ _ _ Hs) in Hid.
      pose proof (qo_ids _ Hq) as Hd. rewrite (erase_trx_perm _ _ e (qo_ids _ Hq) Hin eq_refl) in Hd.
      cbn [fmap list_fmap] in Hd. by apply NoDup_cons in Hd as [Hd _].
    + destruct (IH q Hq) as (q' & events & -> & Hq' & Hs & Hn). exists q', events. split_and!; [done|done|done|].
      intros id' [[= ->]|Hid]%elem_of_cons; [|by apply Hn]. apply find_trx_None in Ef. intros Hid. apply Ef.
      by eapply ids_sublist.
  - destruct (IH q Hq) as (q' & events & -> & Hq' & Hs & Hn). exists q', events. split_and!; [done|done|done|].
    intros id' [[=]|Hid]%elem_of_cons. by apply Hn.
Qed.

Inductive queue_step : unapplied_transaction_queue -> unapplied_transaction_queue -> Prop :=
| step_set_max q v : is_u64 v -> queue_step q (set_max_transaction_queue_size q v)
| step_clear q : queue_step q (clear q)
| step_add_forked q trx q' : add_forked q trx = Ok q' -> queue_step q q'
| step_add_aborted q trxs q' e : add_aborted q trxs = (q', e) -> queue_step q q'
| step_add_incoming q trx api failure next_ q' events :
    add_incoming q trx api failure next_ = Ok (q', events) -> queue_step q q'
| step_erase q e q' rest : e ∈ queue q -> erase q e = Ok (q', rest) -> queue_step q q'
| step_clear_expired q t yield finished q' events :
    clear_expired q t yield = Ok (finished, q', events) -> queue_step q q'
| step_clear_applied q receipts q' events : clear_applied q receipts = Ok (q', events) -> queue_step q q'.

Inductive queue_reachable : unapplied_transaction_queue -> Prop :=
| reachable_empty : queue_reachable empty_queue
| reachable_step q q' : queue_reachable q -> queue_step q q' -> queue_reachable q'.

Lemma queue_step_ok q q' : queue_ok q -> queue_step q q' -> queue_ok q'.
Proof.
  intros Hq Hs. destruct Hs as [q v Hv|q|q trx q' H|q trxs q' e H|q trx api failure next_ q' events H|q e q' rest Hin H|q t yield finished q' events H|q receipts q' events H].
  - by destruct Hq.
  - constructor; try done; constructor.
  - by eapply insert_ok in H as [? _].
  - revert q Hq H; induction trxs as [|trx trxs IH]; intros q Hq H; cbn [add_aborted] in H; [by injection H as <- <-|].
    destruct (insert_trx q _) as [q1|] eqn:E; [|by injection H as <- <-]. apply insert_ok in E as [Hq1 _]; [|done|done]. by eapply IH.
  - unfold add_incoming in H. destruct (find_trx (meta_id trx) (queue q)) as [e|].
    + destruct (_ =? _); [by apply Ok_inj in H as [= <- <-]|]. destruct next_; by apply Ok_inj in H as [= <- <-].
    + apply bind_Ok in H as (q1 & E & H). apply Ok_inj in H as [= <- <-]. apply insert_ok in E as [? _]; [done|done|by destruct api].
  - unfold erase in H. destruct (remove_ok q e Hq Hin) as (q1 & E & Eq1 & _ & Hq1). rewrite E, ret_bind, Eq1 in H.
    by apply Ok_inj in H as [= <- <-].
  - destruct (clear_expired_loop_spec (S (length (queue q))) q t yield 0 Hq) as (f & q1 & gone & E & (Hq1 & _) & _); [lia|].
    unfold clear_expired in H. rewrite E in H. by apply Ok_inj in H as [= _ <- _].
  - unfold clear_applied in H. destruct (queue_empty q); [by apply Ok_inj in H as [= <- <-]|].
    destruct (clear_applied_ok q receipts Hq) as (q1 & ev & E & Hq1 & _). rewrite E in H. by apply Ok_inj in H as [= <- _].
Qed.

Lemma insert_max q e q' : insert_trx q e = Ok q' -> max_transaction_queue_size q' = max_transaction_queue_size q.
Proof.
  unfold insert_trx. destruct (find_trx _ _); [by intros [= <-]%Ok_inj|]. unfold added. intros H.
  apply bind_Ok in H as (size & _ & H). apply bind_Ok in H as (_ & _ & H). by apply Ok_inj in H as <-.
Qed.

Lemma queue_step_max q q' :
  queue_ok q -> is_u64 (max_transaction_queue_size q) -> queue_step q q' -> is_u64 (max_transaction_queue_size q').
Proof.
  intros Hq Hm Hs. destruct Hs as [q v Hv|q|q trx q' H|q trxs q' e H|q trx api failure next_ q' events H|q e q' rest Hin H|q t yield finished q' events H|q receipts q' events H]; try done.
  - apply insert_max in H. by rewrite H.
  - clear Hq. revert q Hm H; induction trxs as [|trx trxs IH]; intros q Hm H; cbn [add_aborted] in H; [by injection H as <- <-|].
    destruct (insert_trx q _) as [q1|] eqn:E; [|by injection H as <- <-]. apply insert_max in E. eapply IH; [|exact H]. by rewrite E.
  - unfold add_incoming in H. destruct (find_trx (meta_id trx) (queue q)) as [e|].
    + destruct (_ =? _); [by apply Ok_inj in H as [= <- <-]|]. destruct next_; by apply Ok_inj in H as [= <- <-].
    + apply bind_Ok in H as (q1 & E & H). apply Ok_inj in H as [= <- <-]. apply insert_max in E. by rewrite E.
  - unfold erase, removed in H. apply bind_Ok in H as (q1 & E & H). apply bind_Ok in E as (size & _ & E).
    apply Ok_inj in E as <-. by apply Ok_inj in H as [= <- <-].
  - destruct (clear_expired_loop_spec (S (length (queue q))) q t yield 0 Hq) as (f & q1 & gone & E & (_ & Em & _) & _); [lia|].
    unfold clear_expired in H. rewrite E in H. apply Ok_inj in H as [= _ <- _]. by rewrite Em.
  - unfold clear_applied in H. destruct (queue_empty q); [by apply Ok_inj in H as [= <- <-]|]. clear Hq.
    revert q q' events Hm H; induction receipts as [|[id|] receipts IH]; intros q q' events Hm H; cbn [clear_applied_loop] in H;
      [by apply Ok_inj in H as [= <- <-]| |by eapply IH].
    destruct (find_trx id (queue q)) as [e|]; [|by eapply IH]. apply bind_Ok in H as (q1 & E & H).
    unfold removed in E. apply bind_Ok in E as (size & _ & E). apply Ok_inj in E as <-.
    apply bind_Ok in H as ([q2 ev] & E2 & H). apply Ok_inj in H as [= <- <-]. by eapply IH; [|exact E2].
Qed.

(** *** Iteration *)

Lemma by_type_perm l : by_type l ≡ₚ l.
Proof.
  induction l as [|e l IH]; [done|]. etrans; [|constructor; exact IH]. unfold by_type, of_type. rewrite !filter_cons.
  destruct (trx_type e); repeat (first [rewrite decide_True by done|rewrite decide_False by done]); cbn [app];
    by rewrite <- ?Permutation_middle.
Qed.

Lemma filter_of_type (P : unapplied_transaction -> Prop) `{!forall e, Decision (P e)} (b : bool) t l :
  (forall e, trx_type e = t -> P e <-> b = true) -> filter P (of_type t l) = if b then of_type t l else [].
Proof.
  intros Hb. unfold of_type. induction l as [|e l IH]; [by destruct b|]. rewrite !filter_cons.
  destruct (decide (trx_type e = t)) as [Et|Et]; [|exact IH]. rewrite filter_cons, IH. specialize (Hb e Et).
  destruct b; [rewrite decide_True by tauto; done|rewrite decide_False; [done|by intros ?%Hb]].
Qed.

Lemma ranges_iterate q : iterate q = unapplied_range q ++ incoming_range q /\ incoming_range q = of_type incoming_api (queue q) ++ of_type incoming_p2p (queue q).
Proof.
  unfold iterate, unapplied_range, incoming_range, to_upper_bound, from_lower_bound, by_type. rewrite !filter_app.
  rewrite (filter_of_type _ true unknown), (filter_of_type _ true forked), (filter_of_type _ true aborted),
    (filter_of_type _ false incoming_api), (filter_of_type _ false incoming_p2p), (filter_of_type _ false unknown),
    (filter_of_type _ false forked), (filter_of_type _ false aborted), (filter_of_type _ true incoming_api),
    (filter_of_type _ true incoming_p2p) by (intros e ->; cbn [type_value]; first [split; [done|lia]|split; [lia|done]]).
  cbn [app]. rewrite !app_nil_r. by rewrite <- !app_assoc.
Qed.

Lemma incoming_range_size q : vsize (incoming_range q) = vsize (incoming_of (queue q)).
Proof.
  destruct (ranges_iterate q) as [_ ->]. unfold vsize, incoming_of, of_type. rewrite length_app. f_equal.
  induction (queue q) as [|e l IH]; [done|]. rewrite !filter_cons.
  destruct (trx_type e); repeat (first [rewrite decide_True by done|rewrite decide_False by done]); cbn [length is_incoming]; lia.
Qed.

(** C29. The accounts of the queue are exact, whatever operations run on it from
    the empty queue: transactions have different ids; the size in bytes and the
    count of incoming transactions are those of the transactions in the queue;
    iterating visits each once, forked and aborted before incoming ones, of
    which there are as many as counted; and a new incoming transaction is
    accepted exactly when it fits below the maximum, which it then does not
    exceed. *)
Theorem unapplied_queue_exact (q : unapplied_transaction_queue) :
  queue_reachable q ->
  NoDup (trx_id <$> queue q) /\ size_in_bytes q = u64 (total_size (queue q)) /\
  iterate q = unapplied_range q ++ incoming_range q /\ iterate q ≡ₚ queue q /\
  incoming_size q = u64 (vsize (incoming_range q)) /\
  (forall trx (api failure : bool) next_ size,
     meta_id trx ∉ (trx_id <$> queue q) -> calc_size trx = Ok size ->
     add_incoming q trx api failure next_ =
       if size_in_bytes q + size <? max_transaction_queue_size q then
         Ok (Queue (queue q ++ [UnappliedTransaction trx (if api then incoming_api else incoming_p2p) failure next_])
               (max_transaction_queue_size q) (size_in_bytes q + size) (u64 (incoming_count q + 1)), [])
       else Err tx_resource_exhaustion).
Proof.
  intros Hr. assert (queue_ok q /\ is_u64 (max_transaction_queue_size q)) as [Hq Hm].
  { induction Hr as [|q q' Hr [Hq Hm] Hs].
    - split; [constructor; try done; constructor|]. unfold is_u64. cbn. lia.
    - split; [by eapply queue_step_ok|by eapply queue_step_max]. }
  split_and!; [apply Hq|apply Hq|apply ranges_iterate|apply by_type_perm|rewrite incoming_range_size; apply Hq|].
  intros trx api failure next_ size Hn Hs. apply find_trx_None in Hn. unfold add_incoming, insert_trx.
  rewrite Hn. change (trx_id (UnappliedTransaction trx _ failure next_)) with (meta_id trx). rewrite Hn.
  unfold added. cbn [trx_meta trx_type with_queue queue max_transaction_queue_size size_in_bytes incoming_count]. rewrite Hs, ret_bind.
  assert (is_incoming (if api then incoming_api else incoming_p2p) = true) as -> by by destruct api.
  assert (0 <= size) by (unfold calc_size in Hs; apply bind_Ok in Hs as (a & _ & Hs); apply bind_Ok in Hs as (b & _ & Hs);
    apply Ok_inj in Hs as <-; apply u64_range).
  assert (0 <= size_in_bytes q) by (rewrite (qo_bytes _ Hq); apply u64_range). unfold is_u64 in Hm.
  destruct (Z.ltb_spec (size_in_bytes q + size) (max_transaction_queue_size q)) as [Hlt|Hge].
  - rewrite (u64_small (_ - _)) by lia. rewrite EOS_ASSERT_true by lia. rewrite ret_bind, u64_small by lia. done.
  - destruct (Z.ltb_spec size (max_transaction_queue_size q)); [|done].
    rewrite (u64_small (_ - _)) by lia. by replace (size_in_bytes q <? max_transaction_queue_size q - size) with false by lia.
Qed.
End Queue.

(** ** A concrete queue *)

Definition sample_trx (n : Z) (expiration : Z) : transaction_metadata :=
  TransactionMetadata n (Sha256 n 0 0 0) expiration 100 66 0.

(** An incoming transaction, one of a forked block, one of an aborted block and
    another incoming one. *)
Definition sample_queue : result unapplied_transaction_queue :=
  '(q, _) ← add_incoming 200 empty_queue (sample_trx 1 30) false false (Some 11);
  q ← add_forked 200 q (sample_trx 2 20);
  let '(q, _) := add_aborted 200 q [sample_trx 3 40; sample_trx 2 20] in
  '(q, _) ← add_incoming 200 q (sample_trx 4 10) true true (Some 14);
  mret q.

Lemma sample_queue_reachable q : sample_queue = Ok q -> queue_reachable 200 q.
Proof.
  unfold sample_queue. intros E. apply bind_Ok in E as ([q1 e1] & E1 & E). apply bind_Ok in E as (q2 & E2 & E).
  destruct (add_aborted 200 q2 _) as [q3 e3] eqn:E3. apply bind_Ok in E as ([q4 e4] & E4 & E). apply Ok_inj in E as <-.
  eapply reachable_step; [|by eapply step_add_incoming]. eapply reachable_step; [|by eapply step_add_aborted].
  eapply reachable_step; [|by eapply step_add_forked]. eapply reachable_step; [|by eapply step_add_incoming]. constructor.
Qed.

Lemma unapplied_queue_exact_witness :
  exists q, sample_queue = Ok q /\ incoming_size q = u64 (vsize (incoming_range q)) /\
    (trx_id <$> iterate q) = [Sha256 2 0 0 0; Sha256 3 0 0 0; Sha256 4 0 0 0; Sha256 1 0 0 0] /\
    iterate q = unapplied_range q ++ incoming_range q.
Proof.
  assert (match sample_queue with
          | Ok q => bool_decide ((trx_id <$> iterate q) = [Sha256 2 0 0 0; Sha256 3 0 0 0; Sha256 4 0 0 0; Sha256 1 0 0 0])
          | Err _ => false end = true) as Hok by (vm_compute; reflexivity).
  destruct sample_queue as [q|] eqn:E; [|discriminate Hok]. apply bool_decide_eq_true in Hok.
  destruct (unapplied_queue_exact 200 q (sample_queue_reachable q E)) as (_ & _ & Hi & _ & Hc & _).
  exists q. split_and!; [done|exact Hc|exact Hok|exact Hi].
Defined.

Lemma clear_expired_correct_witness :
  exists q finished q' gone, sample_queue = Ok q /\ clear_expired 200 q 25000000 (fun _ => false) = Ok (finished, q', expired_events gone) /\
    finished = true /\ expired_events gone = [expired_callback (Sha256 4 0 0 0) incoming_api; responded 14 expired_tx_exception;
      expired_callback (Sha256 2 0 0 0) forked].
Proof.
  assert (match sample_queue with
          | Ok q => match clear_expired 200 q 25000000 (fun _ => false) with
                    | Ok (f, q', ev) => bool_decide (ev = [expired_callback (Sha256 4 0 0 0) incoming_api;
                        responded 14 expired_tx_exception; expired_callback (Sha256 2 0 0 0) forked])
                    | Err _ => false end
          | Err _ => false end = true) as Hok by (vm_compute; reflexivity).
  destruct sample_queue as [q|] eqn:E; [|discriminate Hok].
  destruct (clear_expired_correct 200 q 25000000 (fun _ => false)) as (finished & q' & gone & Ec & _ & Hf).
  { pose proof (sample_queue_reachable q E) as Hr. clear -Hr. induction Hr; [constructor; try done; constructor|by eapply queue_step_ok]. }
  exists q, finished, q', gone. rewrite Ec in Hok. apply bool_decide_eq_true in Hok.
  split_and!; [done|exact Ec|by apply Hf|exact Hok].
Defined.
