(* ===== verification/SubjectiveBilling.v ===== *)
(** Subjective billing (chain/include/eosio/chain/subjective_billing.hpp): the
    cpu time of transactions that are not in a block, billed to the account that
    authorized them: as pending while they may still succeed, and, once they
    have expired, in an accumulator that decays.

    The index of transactions by expiry is a view of the list of entries in the
    order of insertion, which the index keeps among equal expiries.  Logging is
    left out.  An exception leaves no state: the theorem is about calls that
    do not throw, and shows that they do not. *)
From Stdlib Require Import ZArith Lia ZifyBool.
From stdpp Require Import base tactics numbers list gmap.
From S2P Require Import Prelude Digest ResourceLimits.
#[local] Open Scope Z_scope.

Definition subjective_time_interval_ms : Z := 5000.
Definition account_cpu_usage_average_window_ms : Z := 24 * 60 * 60 * 1000.

Record trx_cache_entry : Type := TrxCacheEntry {
  ce_trx_id : sha256;
  ce_account : Z;
  subjective_cpu_bill : Z;              (* int64_t *)
  ce_expiry : Z                         (* microseconds *)
}.

Record subjective_billing_info : Type := BillingInfo {
  pending_cpu_us : Z;                   (* uint64_t *)
  expired_accumulator : decay_accumulator
}.

Definition billing_info_init : subjective_billing_info := BillingInfo 0 (DecayAccumulator 0 0).

Record subjective_billing : Type := SubjectiveBilling {
  disabled : bool;
  trx_cache_index : list trx_cache_entry;
  account_subjective_bill_cache : gmap Z subjective_billing_info;
  disabled_accounts : gset Z;
  expired_accumulator_average_window : Z
}.

Definition billing_init : subjective_billing :=
  SubjectiveBilling false [] ∅ ∅ (account_cpu_usage_average_window_ms / subjective_time_interval_ms).

Definition with_caches (s : subjective_billing) (trxs : list trx_cache_entry) (bills : gmap Z subjective_billing_info)
    : subjective_billing :=
  SubjectiveBilling (disabled s) trxs bills (disabled_accounts s) (expired_accumulator_average_window s).

(** [t] is in microseconds since the epoch. *)
Definition time_ordinal_for (t : Z) : result Z :=
  let ordinal := u64 t / (1000 * subjective_time_interval_ms) in
  EOS_ASSERT (ordinal <=? 2 ^ 32 - 1) tx_resource_exhaustion;; mret ordinal.

Definition info_empty (i : subjective_billing_info) (time_ordinal window : Z) : result bool :=
  if pending_cpu_us i =? 0
  then v ← value_at (expired_accumulator i) time_ordinal window; mret (v =? 0)
  else mret false.

Definition get_info (s : subjective_billing) (a : Z) : subjective_billing_info :=
  default billing_info_init (account_subjective_bill_cache s !! a).

(** ** Entries leave the cache *)

Fixpoint find_entry (id : sha256) (l : list trx_cache_entry) : option trx_cache_entry :=
  match l with
  | [] => None
  | e :: l => if sha256_eqb (ce_trx_id e) id then Some e else find_entry id l
  end.
Fixpoint erase_entry (id : sha256) (l : list trx_cache_entry) : list trx_cache_entry :=
  match l with
  | [] => []
  | e :: l => if sha256_eqb (ce_trx_id e) id then l else e :: erase_entry id l
  end.
Fixpoint first_entry_expiring (l : list trx_cache_entry) : option trx_cache_entry :=
  match l with
  | [] => None
  | e :: l =>
      match first_entry_expiring l with
      | Some f => if ce_expiry f <? ce_expiry e then Some f else Some e
      | None => Some e
      end
  end.

(** [remove_subjective_billing] of an entry; the assertion is on an unsigned
    number. *)
Definition remove_entry_billing (s : subjective_billing) (entry : trx_cache_entry) (time_ordinal : Z)
    : result subjective_billing :=
  match account_subjective_bill_cache s !! ce_account entry with
  | None => mret s
  | Some i =>
      let i := BillingInfo (u64 (pending_cpu_us i - subjective_cpu_bill entry)) (expired_accumulator i) in
      EOS_ASSERT (0 <=? pending_cpu_us i) tx_resource_exhaustion;;
      empty ← info_empty i time_ordinal (expired_accumulator_average_window s);
      mret (with_caches s (trx_cache_index s)
              (if (empty : bool) then delete (ce_account entry) (account_subjective_bill_cache s)
               else <[ce_account entry := i]> (account_subjective_bill_cache s)))
  end.

Definition transition_to_expired (s : subjective_billing) (entry : trx_cache_entry) (time_ordinal : Z)
    : result subjective_billing :=
  match account_subjective_bill_cache s !! ce_account entry with
  | None => mret s
  | Some i =>
      acc ← decay_add (expired_accumulator i) (u64 (subjective_cpu_bill entry)) time_ordinal
              (expired_accumulator_average_window s);
      mret (with_caches s (trx_cache_index s)
              (<[ce_account entry := BillingInfo (u64 (pending_cpu_us i - subjective_cpu_bill entry)) acc]>
                 (account_subjective_bill_cache s)))
  end.

(** [remove_subjective_billing(trx_id, time_ordinal)]. *)
Definition remove_subjective_billing (s : subjective_billing) (id : sha256) (time_ordinal : Z) : result subjective_billing :=
  match find_entry id (trx_cache_index s) with
  | None => mret s
  | Some e =>
      s ← remove_entry_billing s e time_ordinal;
      mret (with_caches s (erase_entry id (trx_cache_index s)) (account_subjective_bill_cache s))
  end.

(** The receipts of a block: the ids of the packed transactions among them. *)
Fixpoint remove_receipts (s : subjective_billing) (receipts : list (option sha256)) (time_ordinal : Z) : result subjective_billing :=
  match receipts with
  | [] => mret s
  | None :: receipts => remove_receipts s receipts time_ordinal
  | Some id :: receipts =>
      s ← remove_subjective_billing s id time_ordinal; remove_receipts s receipts time_ordinal
  end.

(** ** Public operations *)

Definition disable (s : subjective_billing) : subjective_billing :=
  SubjectiveBilling true (trx_cache_index s) (account_subjective_bill_cache s) (disabled_accounts s)
    (expired_accumulator_average_window s).
Definition disable_account (s : subjective_billing) (a : Z) : subjective_billing :=
  SubjectiveBilling (disabled s) (trx_cache_index s) (account_subjective_bill_cache s) ({[a]} ∪ disabled_accounts s)
    (expired_accumulator_average_window s).
Definition is_account_disabled (s : subjective_billing) (a : Z) : bool :=
  disabled s || bool_decide (a ∈ disabled_accounts s).

(** [expire] in seconds, [elapsed] in microseconds. *)
Definition subjective_bill (s : subjective_billing) (id : sha256) (expire first_auth elapsed : Z) : subjective_billing :=
  if negb (is_account_disabled s first_auth) then
    let bill := Z.max 0 elapsed in
    match find_entry id (trx_cache_index s) with
    | Some _ => s
    | None =>
        let i := get_info s first_auth in
        with_caches s (trx_cache_index s ++ [TrxCacheEntry id first_auth bill (expire * 1000000)])
          (<[first_auth := BillingInfo (u64 (pending_cpu_us i + bill)) (expired_accumulator i)]>
             (account_subjective_bill_cache s))
    end
  else s.

Definition subjective_bill_failure (s : subjective_billing) (first_auth elapsed now : Z) : result subjective_billing :=
  if negb (is_account_disabled s first_auth) then
    let bill := Z.max 0 elapsed in
    time_ordinal ← time_ordinal_for now;
    let i := get_info s first_auth in
    acc ← decay_add (expired_accumulator i) bill time_ordinal (expired_accumulator_average_window s);
    mret (with_caches s (trx_cache_index s)
            (<[first_auth := BillingInfo (pending_cpu_us i) acc]> (account_subjective_bill_cache s)))
  else mret s.

Definition get_subjective_bill (s : subjective_billing) (first_auth now : Z) : result Z :=
  if is_account_disabled s first_auth then mret 0
  else
    time_ordinal ← time_ordinal_for now;
    match account_subjective_bill_cache s !! first_auth with
    | Some i =>
        v ← value_at (expired_accumulator i) time_ordinal (expired_accumulator_average_window s);
        mret (i64 (u64 (pending_cpu_us i + v)))
    | None => mret 0
    end.

(** [block] is [None] for a null pointer. *)
Definition on_block (s : subjective_billing) (block : option (list (option sha256))) (now : Z) : result subjective_billing :=
  match block with
  | None => mret s
  | Some receipts =>
      if disabled s then mret s
      else
        time_ordinal ← time_ordinal_for now;
        if is_empty (trx_cache_index s) then mret s else remove_receipts s receipts time_ordinal
  end.

(** The loop of [remove_expired]; [yield i] is the answer of the [i]th call, and
    each round that goes on removes an entry. *)
Fixpoint remove_expired_loop (fuel : nat) (s : subjective_billing) (pending_block_time time_ordinal : Z)
    (yield : nat -> bool) (i : nat) : result (bool * subjective_billing) :=
  match fuel with
  | O => Err undefined_behavior
  | S fuel =>
      match first_entry_expiring (trx_cache_index s) with
      | None => mret (false, s)
      | Some b =>
          if yield i then mret (true, s)
          else if pending_block_time <? ce_expiry b then mret (false, s)
          else
            s ← transition_to_expired s b time_ordinal;
            remove_expired_loop fuel
              (with_caches s (erase_entry (ce_trx_id b) (trx_cache_index s)) (account_subjective_bill_cache s))
              pending_block_time time_ordinal yield (S i)
      end
  end.

Definition remove_expired (s : subjective_billing) (pending_block_time now : Z) (yield : nat -> bool)
    : result (bool * subjective_billing) :=
  if is_empty (trx_cache_index s) then mret (true, s)
  else
    time_ordinal ← time_ordinal_for now;
    '(exhausted, s) ←
      remove_expired_loop (S (length (trx_cache_index s))) s pending_block_time time_ordinal yield 0;
    mret (negb exhausted, s).

Definition set_expired_accumulator_average_window (s : subjective_billing) (decay_time : Z) : subjective_billing :=
  SubjectiveBilling (disabled s) (trx_cache_index s) (account_subjective_bill_cache s) (disabled_accounts s)
    (u32 (Z.quot (Z.quot decay_time 1000) subjective_time_interval_ms)).

(** ** Invariant *)

(** What the cached transactions of an account were billed. *)
Definition bills_of (a : Z) (l : list trx_cache_entry) : Z :=
  foldr (fun e n => (if ce_account e =? a then subjective_cpu_bill e else 0) + n) 0 l.
Definition total_bills (l : list trx_cache_entry) : Z := foldr (fun e n => subjective_cpu_bill e + n) 0 l.

Definition accumulator_ok (a : decay_accumulator) : Prop := is_u32 (d_last_ordinal a) /\ is_u64 (d_value_ex a).

Record billing_ok (s : subjective_billing) : Prop := {
  bo_ids : NoDup (ce_trx_id <$> trx_cache_index s);
  bo_bills : Forall (fun e => 0 <= subjective_cpu_bill e <= max_raw_value) (trx_cache_index s);
  bo_total : total_bills (trx_cache_index s) < 2 ^ 64;
  bo_pending : forall a, pending_cpu_us (get_info s a) = bills_of a (trx_cache_index s);
  bo_accumulators : forall a i, account_subjective_bill_cache s !! a = Some i -> accumulator_ok (expired_accumulator i);
  bo_window : is_u32 (expired_accumulator_average_window s)
}.

Lemma erase_entry_perm l e : NoDup (ce_trx_id <$> l) -> e ∈ l -> l ≡ₚ e :: erase_entry (ce_trx_id e) l.
Proof.
  intros Hd Hin. induction l as [|x l IH]; [by apply not_elem_of_nil in Hin|]. rewrite fmap_cons in Hd.
  apply NoDup_cons in Hd as [Hn Hd]. cbn [erase_entry]. destruct (sha256_eqb (ce_trx_id x) (ce_trx_id e)) eqn:E.
  - apply sha256_eqb_eq in E. apply elem_of_cons in Hin as [->|Hin]; [done|]. exfalso. apply Hn. rewrite E.
    apply list_elem_of_fmap. eauto.
  - apply elem_of_cons in Hin as [->|Hin]; [by rewrite sha256_eqb_refl in E|]. rewrite (IH Hd Hin) at 1. constructor.
Qed.

Lemma bills_perm a l k : l ≡ₚ k -> bills_of a l = bills_of a k.
Proof. unfold bills_of. induction 1; simpl; lia. Qed.
Lemma total_perm l k : l ≡ₚ k -> total_bills l = total_bills k.
Proof. unfold total_bills. induction 1; simpl; lia. Qed.

Lemma bills_bound a l :
  Forall (fun e => 0 <= subjective_cpu_bill e <= max_raw_value) l -> 0 <= bills_of a l <= total_bills l.
Proof.
  unfold bills_of, total_bills. induction 1 as [|e l He _ IH]; [done|]. simpl. destruct (ce_account e =? a); lia.
Qed.

Lemma bills_app a l k : bills_of a (l ++ k) = bills_of a l + bills_of a k.
Proof. unfold bills_of. induction l as [|e l IH]; simpl; lia. Qed.
Lemma total_app l k : total_bills (l ++ k) = total_bills l + total_bills k.
Proof. unfold total_bills. induction l as [|e l IH]; simpl; lia. Qed.

(** *** The accumulator never throws *)

Lemma value_ex_at_ok a ordinal window :
  accumulator_ok a -> is_u32 ordinal -> is_u32 window ->
  exists v, value_ex_at a ordinal window = Ok v /\ 0 <= v <= d_value_ex a.
Proof.
  unfold accumulator_ok, is_u32, is_u64. intros [Hl Hv] Ho Hw. unfold value_ex_at.
  destruct (Z.ltb_spec (d_last_ordinal a) ordinal); [|exists (d_value_ex a); split; [done|lia]].
  destruct (Z.ltb_spec ordinal (d_last_ordinal a + window)); [|exists 0; split; [done|lia]].
  rewrite u32_small by lia. set (n := window - (ordinal - d_last_ordinal a)). assert (0 < n <= window) as Hn by lia.
  unfold ratio_mul. cbn [numerator denominator]. assert (u128 n = n) as -> by (unfold u128; apply Z.mod_small; lia).
  assert (0 <= d_value_ex a * n < 2 ^ 128) as Hp by nia.
  rewrite EOS_ASSERT_true, ret_bind.
  2: { apply orb_true_iff. right. apply Z.leb_le. apply Z.div_le_lower_bound; [lia|]. unfold uint128_max. lia. }
  unfold c_div. rewrite EOS_ASSERT_true, ret_bind by lia. unfold uint128_max. rewrite Z.mod_small by lia. rewrite ret_bind.
  assert (0 <= d_value_ex a * n / window <= d_value_ex a) as Hq.
  { split; [apply Z.div_pos; lia|]. apply Z.div_le_upper_bound; [lia|]. nia. }
  unfold downgrade_cast_u64, uint64_max. rewrite EOS_ASSERT_true, ret_bind by lia. by eexists.
Qed.

Lemma decay_add_ok a units ordinal window :
  accumulator_ok a -> is_u32 ordinal -> is_u32 window -> 0 <= units <= max_raw_value ->
  exists a', decay_add a units ordinal window = Ok a' /\ accumulator_ok a'.
Proof.
  intros Ha Ho Hw Hu. unfold decay_add. rewrite EOS_ASSERT_true, ret_bind by lia.
  assert (exists a1, (if d_last_ordinal a <? ordinal then v ← value_ex_at a ordinal window; mret (DecayAccumulator ordinal v) else mret a) = Ok a1
    /\ accumulator_ok a1) as (a1 & -> & Ha1).
  { destruct (d_last_ordinal a <? ordinal); [|by exists a]. destruct (value_ex_at_ok a ordinal window Ha Ho Hw) as (v & -> & Hv).
    rewrite ret_bind. eexists. split; [done|]. destruct Ha. split; [exact Ho|]. unfold is_u64 in *. cbn. lia. }
  rewrite ret_bind. destruct Ha1 as [Hl1 Hv1]. unfold is_u64 in Hv1.
  assert (0 <= u128 (u128 (units * rate_limiting_precision) + d_value_ex a1)) by (apply Z.mod_pos_bound; lia).
  unfold downgrade_cast_u64, uint64_max. rewrite EOS_ASSERT_true, ret_bind by lia. eexists. split; [done|].
  split; [exact Hl1|]. unfold is_u64. cbn. lia.
Qed.

(** *** Entries leave *)

(** A change of the caches that takes an entry out of the index and its bill
    out of the account. *)
Lemma entry_removed s e bills :
  billing_ok s -> e ∈ trx_cache_index s ->
  (forall a, pending_cpu_us (default billing_info_init (bills !! a)) =
     pending_cpu_us (get_info s a) - (if ce_account e =? a then subjective_cpu_bill e else 0)) ->
  (forall a i, bills !! a = Some i -> accumulator_ok (expired_accumulator i)) ->
  billing_ok (with_caches s (erase_entry (ce_trx_id e) (trx_cache_index s)) bills).
Proof.
  intros Hs Hin Hp Ha. pose proof (erase_entry_perm _ e (bo_ids _ Hs) Hin) as Hperm.
  pose proof (bo_bills _ Hs) as Hb. rewrite Hperm in Hb. apply Forall_cons_iff in Hb as [He Hb].
  constructor; cbn [with_caches trx_cache_index account_subjective_bill_cache expired_accumulator_average_window].
  - pose proof (bo_ids _ Hs) as Hd. rewrite Hperm in Hd. cbn [fmap list_fmap] in Hd. by apply NoDup_cons in Hd as [_ Hd].
  - exact Hb.
  - pose proof (bo_total _ Hs) as Ht. rewrite (total_perm _ _ Hperm) in Ht. unfold total_bills in *. simpl in Ht. lia.
  - intros a. unfold get_info. cbn [account_subjective_bill_cache]. rewrite Hp, (bo_pending _ Hs), (bills_perm a _ _ Hperm).
    unfold bills_of. simpl. lia.
  - exact Ha.
  - apply Hs.
Qed.

(** The pending time of an account covers each of its cached bills. *)
Lemma pending_covers s e :
  billing_ok s -> e ∈ trx_cache_index s ->
  0 <= subjective_cpu_bill e <= pending_cpu_us (get_info s (ce_account e)) /\ pending_cpu_us (get_info s (ce_account e)) < 2 ^ 64.
Proof.
  intros Hs Hin. rewrite (bo_pending _ Hs). pose proof (bills_bound (ce_account e) _ (bo_bills _ Hs)). pose proof (bo_total _ Hs).
  pose proof (erase_entry_perm _ e (bo_ids _ Hs) Hin) as Hperm. pose proof (bo_bills _ Hs) as Hb. rewrite Hperm in Hb.
  apply Forall_cons_iff in Hb as [He Hb]. pose proof (bills_bound (ce_account e) _ Hb). split; [|lia].
  rewrite (bills_perm _ _ _ Hperm). unfold bills_of in *. cbn [foldr]. rewrite Z.eqb_refl. lia.
Qed.

Lemma get_info_lookup s a :
  get_info s a = match account_subjective_bill_cache s !! a with Some i => i | None => billing_info_init end.
Proof. unfold get_info. by destruct (_ !! a). Qed.

Lemma remove_entry_ok s e ord :
  billing_ok s -> e ∈ trx_cache_index s -> is_u32 ord ->
  exists s1, remove_entry_billing s e ord = Ok s1 /\ trx_cache_index s1 = trx_cache_index s /\
    billing_ok (with_caches s1 (erase_entry (ce_trx_id e) (trx_cache_index s1)) (account_subjective_bill_cache s1)).
Proof.
  intros Hs Hin Ho. destruct (pending_covers s e Hs Hin) as [Hc Hc64]. rewrite get_info_lookup in Hc, Hc64. unfold remove_entry_billing.
  destruct (account_subjective_bill_cache s !! ce_account e) as [i|] eqn:Ei.
  2: { exists s. split; [done|]. split; [done|]. apply (entry_removed s e (account_subjective_bill_cache s)); [done|done| |apply Hs].
       intros a. fold (get_info s a). destruct (Z.eqb_spec (ce_account e) a); cbn in Hc; lia. }
  cbn [pending_cpu_us]. rewrite u64_small by lia. rewrite EOS_ASSERT_true, ret_bind by lia.
  assert (accumulator_ok (expired_accumulator i)) as Hacc by by eapply bo_accumulators.
  set (i' := BillingInfo _ _).
  assert (exists b : bool, info_empty i' ord (expired_accumulator_average_window s) = Ok b /\ (b = true -> pending_cpu_us i' = 0)) as (b & -> & Hb).
  { unfold info_empty. destruct (Z.eqb_spec (pending_cpu_us i') 0); [|by exists false]. unfold value_at.
    destruct (value_ex_at_ok (expired_accumulator i) ord _ Hacc Ho (bo_window _ Hs)) as (v & Ev & _). cbn [i' expired_accumulator].
    rewrite Ev, !ret_bind. by eexists. }
  rewrite ret_bind. eexists. split; [done|]. split; [done|].
  cbn [with_caches trx_cache_index account_subjective_bill_cache expired_accumulator_average_window].
  change (billing_ok (with_caches s (erase_entry (ce_trx_id e) (trx_cache_index s))
    (if b then delete (ce_account e) (account_subjective_bill_cache s) else <[ce_account e:=i']> (account_subjective_bill_cache s)))).
  apply entry_removed; [done|done| |].
  - intros a. rewrite get_info_lookup. destruct (Z.eqb_spec (ce_account e) a) as [<-|Hne].
    + rewrite Ei. destruct b; [rewrite lookup_delete_eq|rewrite lookup_insert_eq]; cbn; [|done]. specialize (Hb eq_refl). cbn in Hb. lia.
    + destruct b; [rewrite lookup_delete_ne by done|rewrite lookup_insert_ne by done]; destruct (_ !! a); cbn; lia.
  - intros a j Hj. destruct b.
    + apply lookup_delete_Some in Hj as [_ Hj]. by eapply bo_accumulators.
    + apply lookup_insert_Some in Hj as [[_ <-]|[_ Hj]]; [done|by eapply bo_accumulators].
Qed.

Lemma transition_ok s e ord :
  billing_ok s -> e ∈ trx_cache_index s -> is_u32 ord ->
  exists s1, transition_to_expired s e ord = Ok s1 /\ trx_cache_index s1 = trx_cache_index s /\
    billing_ok (with_caches s1 (erase_entry (ce_trx_id e) (trx_cache_index s1)) (account_subjective_bill_cache s1)).
Proof.
  intros Hs Hin Ho. destruct (pending_covers s e Hs Hin) as [Hc Hc64]. rewrite get_info_lookup in Hc, Hc64. unfold transition_to_expired.
  destruct (account_subjective_bill_cache s !! ce_account e) as [i|] eqn:Ei.
  2: { exists s. split; [done|]. split; [done|]. apply (entry_removed s e (account_subjective_bill_cache s)); [done|done| |apply Hs].
       intros a. fold (get_info s a). destruct (Z.eqb_spec (ce_account e) a); cbn in Hc; lia. }
  pose proof (bo_bills _ Hs) as Hb. rewrite Forall_forall in Hb. specialize (Hb e Hin).
  rewrite (u64_small (subjective_cpu_bill e)) by lia.
  destruct (decay_add_ok (expired_accumulator i) (subjective_cpu_bill e) ord (expired_accumulator_average_window s)) as (acc & -> & Hacc);
    [by eapply bo_accumulators|done|apply Hs|done|].
  rewrite ret_bind, u64_small by lia. eexists. split; [done|]. split; [done|].
  cbn [with_caches trx_cache_index account_subjective_bill_cache expired_accumulator_average_window].
  match goal with |- billing_ok (with_caches _ ?l ?m) => change (billing_ok (with_caches s l m)) end.
  apply entry_removed; [done|done| |].
  - intros a. rewrite get_info_lookup. destruct (Z.eqb_spec (ce_account e) a) as [<-|Hne].
    + rewrite Ei, lookup_insert_eq. done.
    + rewrite lookup_insert_ne by done. destruct (_ !! a); cbn; lia.
  - intros a j Hj. apply lookup_insert_Some in Hj as [[_ <-]|[_ Hj]]; [done|by eapply bo_accumulators].
Qed.

Lemma find_entry_Some id l e : find_entry id l = Some e -> e ∈ l /\ ce_trx_id e = id.
Proof.
  induction l as [|x l IH]; cbn [find_entry]; [done|]. destruct (sha256_eqb (ce_trx_id x) id) eqn:E.
  - intros [= <-]. apply sha256_eqb_eq in E. split; [constructor|done].
  - intros Hf. apply IH in Hf as [? ?]. split; [by constructor|done].
Qed.

Lemma find_entry_None id l : find_entry id l = None -> id ∉ (ce_trx_id <$> l).
Proof.
  induction l as [|x l IH]; cbn [find_entry fmap list_fmap]; [intros _; apply not_elem_of_nil|].
  destruct (sha256_eqb (ce_trx_id x) id) eqn:E; [done|]. intros Hf. apply not_elem_of_cons. split; [|by apply IH].
  intros ->. by rewrite sha256_eqb_refl in E.
Qed.

Lemma remove_receipts_ok s receipts ord :
  billing_ok s -> is_u32 ord -> exists s', remove_receipts s receipts ord = Ok s' /\ billing_ok s'.
Proof.
  revert s; induction receipts as [|[id|] receipts IH]; intros s Hs Ho; cbn [remove_receipts]; [by exists s| |by apply IH].
  unfold remove_subjective_billing. destruct (find_entry id (trx_cache_index s)) as [e|] eqn:Ef.
  - apply find_entry_Some in Ef as [Hin <-]. destruct (remove_entry_ok s e ord Hs Hin Ho) as (s1 & -> & _ & Hs1).
    rewrite !ret_bind. by apply IH.
  - rewrite ret_bind. by apply IH.
Qed.

Lemma first_entry_elem l e : first_entry_expiring l = Some e -> e ∈ l.
Proof.
  revert e; induction l as [|x l IH]; intros e; cbn [first_entry_expiring]; [done|].
  destruct (first_entry_expiring l) as [f|].
  - specialize (IH f eq_refl). destruct (_ <? _); intros [= <-]; [by constructor|constructor].
  - intros [= <-]. constructor.
Qed.

Lemma remove_expired_loop_ok fuel s t ord yield i :
  billing_ok s -> is_u32 ord -> (length (trx_cache_index s) < fuel)%nat ->
  exists b s', remove_expired_loop fuel s t ord yield i = Ok (b, s') /\ billing_ok s'.
Proof.
  revert s i; induction fuel as [|fuel IH]; intros s i Hs Ho Hl; [lia|]. cbn [remove_expired_loop].
  destruct (first_entry_expiring (trx_cache_index s)) as [e|] eqn:Ef; [|by exists false, s]. apply first_entry_elem in Ef as Hin.
  destruct (yield i); [by exists true, s|]. destruct (_ <? _); [by exists false, s|].
  destruct (transition_ok s e ord Hs Hin Ho) as (s1 & -> & E1 & Hs1). rewrite ret_bind. apply IH; [done|done|].
  cbn [with_caches trx_cache_index]. rewrite E1.
  pose proof (Permutation_length (erase_entry_perm _ e (bo_ids _ Hs) Hin)) as Hp. simpl in Hp. lia.
Qed.

(** ** Every sequence of operations *)

(** A time whose ordinal fits 32 bits: until the year 2650. *)
Definition time_ok (t : Z) : Prop := 0 <= t < 2 ^ 32 * (1000 * subjective_time_interval_ms).

Lemma time_ordinal_ok t : time_ok t -> exists o, time_ordinal_for t = Ok o /\ is_u32 o.
Proof.
  unfold time_ok, time_ordinal_for, subjective_time_interval_ms, is_u32. intros Ht. rewrite u64_small by lia.
  change (1000 * 5000) with 5000000 in *. assert (0 <= t / 5000000 < 2 ^ 32) by (Z.to_euclidean_division_equations; lia).
  rewrite EOS_ASSERT_true, ret_bind by lia. by eexists.
Qed.

(** The operations, with times in range and cpu times that the accumulator can
    hold, which are those below 213 days; the bills in the cache sum to less
    than [2^64]. *)
Inductive billing_op : Type :=
| op_disable
| op_disable_account (a : Z)
| op_bill (id : sha256) (expire first_auth elapsed : Z)
| op_failure (first_auth elapsed now : Z)
| op_block (block : option (list (option sha256))) (now : Z)
| op_remove_expired (pending_block_time now : Z) (yield : nat -> bool)
| op_set_window (decay_time : Z).

Definition op_ok (s : subjective_billing) (op : billing_op) : Prop :=
  match op with
  | op_bill _ _ _ elapsed => elapsed <= max_raw_value /\ total_bills (trx_cache_index s) + Z.max 0 elapsed < 2 ^ 64
  | op_failure _ elapsed now => elapsed <= max_raw_value /\ time_ok now
  | op_block _ now | op_remove_expired _ now _ => time_ok now
  | _ => True
  end.

Definition run_op (s : subjective_billing) (op : billing_op) : result subjective_billing :=
  match op with
  | op_disable => mret (disable s)
  | op_disable_account a => mret (disable_account s a)
  | op_bill id expire first_auth elapsed => mret (subjective_bill s id expire first_auth elapsed)
  | op_failure first_auth elapsed now => subjective_bill_failure s first_auth elapsed now
  | op_block block now => on_block s block now
  | op_remove_expired t now yield => '(_, s) ← remove_expired s t now yield; mret s
  | op_set_window decay_time => mret (set_expired_accumulator_average_window s decay_time)
  end.

Inductive billing_reachable : subjective_billing -> Prop :=
| billing_start : billing_reachable billing_init
| billing_run s op s' : billing_reachable s -> op_ok s op -> run_op s op = Ok s' -> billing_reachable s'.

Lemma max_raw_value_eq : max_raw_value = 18446744073709.
Proof. vm_compute. reflexivity. Qed.

Lemma accumulator_of_ok s a : billing_ok s -> accumulator_ok (expired_accumulator (get_info s a)).
Proof.
  intros Hs. rewrite get_info_lookup. destruct (_ !! a) eqn:Ei; [by eapply bo_accumulators|]. split; cbn; unfold is_u32, is_u64; lia.
Qed.

Lemma subjective_bill_ok s id expire first_auth elapsed :
  billing_ok s -> elapsed <= max_raw_value -> total_bills (trx_cache_index s) + Z.max 0 elapsed < 2 ^ 64 ->
  billing_ok (subjective_bill s id expire first_auth elapsed).
Proof.
  intros Hs He Ht.
  unfold subjective_bill. destruct (is_account_disabled s first_auth); [done|]. cbn [negb].
  destruct (find_entry id (trx_cache_index s)) eqn:Ef; [done|]. apply find_entry_None in Ef.
  set (bill := Z.max 0 elapsed) in *. set (e := TrxCacheEntry id first_auth bill (expire * 1000000)).
  pose proof (bills_bound first_auth _ (bo_bills _ Hs)) as Hb. pose proof (bo_total _ Hs) as Htot.
  assert (0 <= bill <= max_raw_value) as Hbill by (rewrite max_raw_value_eq in *; lia).
  assert (forall a, pending_cpu_us (default billing_info_init
    (<[first_auth := BillingInfo (u64 (pending_cpu_us (get_info s first_auth) + bill)) (expired_accumulator (get_info s first_auth))]>
       (account_subjective_bill_cache s) !! a)) = bills_of a (trx_cache_index s ++ [e])) as Hpend.
  { intros a. rewrite bills_app. destruct (decide (a = first_auth)) as [->|Hne].
    - rewrite lookup_insert_eq. cbn -[u64 bills_of get_info]. rewrite (bo_pending _ Hs), u64_small by lia.
      unfold bills_of at 3. cbn. rewrite Z.eqb_refl. lia.
    - rewrite lookup_insert_ne by done. fold (get_info s a). rewrite (bo_pending _ Hs). unfold bills_of at 3. cbn.
      destruct (Z.eqb_spec first_auth a); [congruence|lia]. }
  constructor; cbn [with_caches trx_cache_index account_subjective_bill_cache expired_accumulator_average_window].
  - rewrite fmap_app. apply NoDup_app. split_and!; [apply Hs| |apply NoDup_singleton]. intros x Hx ->%list_elem_of_singleton. done.
  - apply Forall_app. split; [apply Hs|]. by constructor.
  - rewrite total_app. unfold total_bills at 2. cbn. lia.
  - exact Hpend.
  - intros a i Hi. apply lookup_insert_Some in Hi as [[_ <-]|[_ Hi]]; [|by eapply bo_accumulators]. cbn [expired_accumulator].
    by apply accumulator_of_ok.
  - apply Hs.
Qed.

Lemma subjective_bill_failure_ok s first_auth elapsed now :
  billing_ok s -> elapsed <= max_raw_value -> time_ok now ->
  exists s', subjective_bill_failure s first_auth elapsed now = Ok s' /\ billing_ok s'.
Proof.
  intros Hs He Ht.
  unfold subjective_bill_failure. destruct (is_account_disabled s first_auth); [by exists s|]. cbn [negb].
  destruct (time_ordinal_ok now Ht) as (o & -> & Ho). rewrite ret_bind.
  assert (0 <= Z.max 0 elapsed <= max_raw_value) as Hbill by (rewrite max_raw_value_eq in *; lia).
  assert (accumulator_ok (expired_accumulator (get_info s first_auth))) as Hacc0.
  { by apply accumulator_of_ok. }
  destruct (decay_add_ok _ _ o _ Hacc0 Ho (bo_window _ Hs) Hbill) as (acc & -> & Hacc). rewrite ret_bind. eexists. split; [done|].
  constructor; cbn [with_caches trx_cache_index account_subjective_bill_cache expired_accumulator_average_window]; try apply Hs.
  - intros a. rewrite <- (bo_pending _ Hs). unfold get_info at 1. cbn [with_caches account_subjective_bill_cache].
    destruct (decide (a = first_auth)) as [->|Hne]; [by rewrite lookup_insert_eq|by rewrite lookup_insert_ne].
  - intros a i Hi. apply lookup_insert_Some in Hi as [[_ <-]|[_ Hi]]; [done|by eapply bo_accumulators].
Qed.

Lemma run_op_ok s op : billing_ok s -> op_ok s op -> exists s', run_op s op = Ok s' /\ billing_ok s'.
Proof.
  intros Hs Hop. destruct op as [|a|id expire first_auth elapsed|first_auth elapsed now|block now|t now yield|decay_time]; cbn [run_op op_ok] in *.
  - eexists. split; [done|]. by destruct Hs.
  - eexists. split; [done|]. by destruct Hs.
  - destruct Hop. eexists. split; [done|]. by apply subjective_bill_ok.
  - destruct Hop. by apply subjective_bill_failure_ok.
  - destruct block as [receipts|]; [|by exists s]. cbn [on_block]. destruct (disabled s); [by exists s|].
    destruct (time_ordinal_ok now Hop) as (o & -> & Ho). rewrite ret_bind. destruct (is_empty _); [by exists s|]. by apply remove_receipts_ok.
  - unfold remove_expired. destruct (is_empty _); [rewrite ret_bind; by exists s|].
    destruct (time_ordinal_ok now Hop) as (o & -> & Ho). rewrite ret_bind.
    destruct (remove_expired_loop_ok (S (length (trx_cache_index s))) s t o yield 0 Hs Ho) as (b & s' & -> & Hs'); [lia|].
    rewrite !ret_bind. by exists s'.
  - eexists. split; [done|]. destruct Hs. constructor; try done. apply u32_range.
Qed.

(** C30. Subjective bills are exact, whatever operations run: the pending time of
    an account is the sum of what its transactions in the cache were billed, so
    that the subtractions never go below zero; no operation on times and bills
    in range throws; and the bill of an account is the sum of its pending time
    and of its expired time, decayed to now, or zero when billing is disabled
    for it. *)
Theorem subjective_billing_exact (s : subjective_billing) :
  billing_reachable s ->
  (forall a, pending_cpu_us (get_info s a) = bills_of a (trx_cache_index s)) /\
  (forall e, e ∈ trx_cache_index s -> 0 <= subjective_cpu_bill e <= pending_cpu_us (get_info s (ce_account e))) /\
  (forall op, op_ok s op -> is_Ok (run_op s op) = true) /\
  (forall a now, time_ok now ->
     exists ordinal expired, time_ordinal_for now = Ok ordinal /\
       value_at (expired_accumulator (get_info s a)) ordinal (expired_accumulator_average_window s) = Ok expired /\
       get_subjective_bill s a now =
         Ok (if is_account_disabled s a then 0 else i64 (u64 (bills_of a (trx_cache_index s) + expired)))).
Proof.
  intros Hr. assert (billing_ok s) as Hs.
  { induction Hr as [|s op s' Hr IH Hop Hrun].
    - constructor; try done. constructor.
    - destruct (run_op_ok s op IH Hop) as (s1 & E & Hs1). rewrite E in Hrun. by apply Ok_inj in Hrun as <-. }
  split; [apply Hs|]. split; [intros e He; by apply pending_covers|]. split.
  { intros op Hop. by destruct (run_op_ok s op Hs Hop) as (s' & -> & _). }
  intros a now Hn. destruct (time_ordinal_ok now Hn) as (o & Eo & Ho).
  assert (accumulator_ok (expired_accumulator (get_info s a))) as Hacc.
  { by apply accumulator_of_ok. }
  destruct (value_ex_at_ok _ o _ Hacc Ho (bo_window _ Hs)) as (v & Ev & Hv).
  exists o, (integer_divide_ceil v rate_limiting_precision). split; [done|].
  assert (value_at (expired_accumulator (get_info s a)) o (expired_accumulator_average_window s) = Ok (integer_divide_ceil v rate_limiting_precision)) as Eval
    by (unfold value_at; by rewrite Ev).
  split; [done|]. unfold get_subjective_bill. destruct (is_account_disabled s a); [done|]. rewrite Eo, ret_bind.
  rewrite <- (bo_pending _ Hs a). rewrite get_info_lookup in *. destruct (account_subjective_bill_cache s !! a) as [i|].
  - by rewrite Eval.
  - cbn in Ev. unfold value_ex_at in Ev. cbn in Ev. assert (v = 0) as ->; [|done].
    cbn in Hv. lia.
Qed.

(** Three transactions are billed to two accounts, one fails, one enters a block
    and one expires. *)
Definition sample_ops : list billing_op := [
  op_bill (Sha256 1 0 0 0) 100 7 500; op_bill (Sha256 2 0 0 0) 200 7 300; op_bill (Sha256 3 0 0 0) 100 8 400;
  op_failure 7 1000 5000000; op_block (Some [Some (Sha256 3 0 0 0); None]) 5000000;
  op_remove_expired 150000000 10000000 (fun _ => false)].

Definition op_okb (s : subjective_billing) (op : billing_op) : bool :=
  let time_okb t := (0 <=? t) && (t <? 2 ^ 32 * (1000 * subjective_time_interval_ms)) in
  match op with
  | op_bill _ _ _ elapsed => (elapsed <=? max_raw_value) && (total_bills (trx_cache_index s) + Z.max 0 elapsed <? 2 ^ 64)
  | op_failure _ elapsed now => (elapsed <=? max_raw_value) && time_okb now
  | op_block _ now | op_remove_expired _ now _ => time_okb now
  | _ => true
  end.

Fixpoint run_ops (s : subjective_billing) (ops : list billing_op) : result subjective_billing :=
  match ops with
  | [] => mret s
  | op :: ops => EOS_ASSERT (op_okb s op) assertion_failed;; s ← run_op s op; run_ops s ops
  end.

Lemma run_ops_reachable s ops s' : billing_reachable s -> run_ops s ops = Ok s' -> billing_reachable s'.
Proof.
  revert s; induction ops as [|op ops IH]; intros s Hr Hrun; cbn [run_ops] in Hrun; [by apply Ok_inj in Hrun as <-|].
  apply bind_Ok in Hrun as (_ & Hok%EOS_ASSERT_Ok & Hrun). apply bind_Ok in Hrun as (s1 & E & Hrun).
  eapply IH; [|exact Hrun]. eapply billing_run; [exact Hr| |exact E].
  destruct op; cbn [op_ok op_okb] in *; unfold time_ok; try done; lia.
Qed.

Lemma subjective_billing_exact_witness :
  exists s, run_ops billing_init sample_ops = Ok s /\ billing_reachable s /\
    pending_cpu_us (get_info s 7) = 300 /\ get_subjective_bill s 7 10000000 = Ok 1800.
Proof.
  assert (match run_ops billing_init sample_ops with
          | Ok s => (bills_of 7 (trx_cache_index s) =? 300)
                    && match get_subjective_bill s 7 10000000 with Ok v => v =? 1800 | Err _ => false end
          | Err _ => false end = true) as Hok by (vm_compute; reflexivity).
  destruct (run_ops billing_init sample_ops) as [s|] eqn:E; [|discriminate Hok].
  pose proof (run_ops_reachable _ _ _ billing_start E) as Hr.
  destruct (subjective_billing_exact s Hr) as (Hp & _). apply andb_true_iff in Hok as [H1 H2].
  exists s. split; [done|]. split; [done|]. split; [rewrite Hp; lia|].
  destruct (get_subjective_bill s 7 10000000); [|done]. f_equal. lia.
Defined.
