(* ===== verification/ContractTables.v ===== *)
(** Tables of contracts as actions use them: the database methods of
    [apply_context] (chain/apply_context.cpp and apply_context.hpp) over the rows
    of contract_table_objects.hpp: the cache that hands out iterators as numbers,
    the primary index and the secondary indices, and the RAM they bill.

    An index of the database is the list of its rows; its ordered views are the
    first or the last row, in their order, of those that satisfy a condition.  A
    pointer to a row is the id of the row, which the database never gives out
    again; following a pointer to a row that is gone is [undefined_behavior].
    Traces for deep-mind logging have no part in the state. *)
From Stdlib Require Import ZArith Lia ZifyBool.
From stdpp Require Import base tactics numbers list gmap.
From S2P Require Import Prelude ResourceLimits Authority PermissionActions.
#[local] Open Scope Z_scope.

(** ** Rows *)

Record table_id_object : Type := TableId {
  tab_id : Z;
  tab_code : Z; tab_scope : Z; tab_table : Z;
  tab_payer : Z;
  tab_count : Z                           (* uint32_t *)
}.

Record key_value_object : Type := KeyValue {
  kv_id : Z;
  kv_t_id : Z;
  kv_primary_key : Z;
  kv_payer : Z;
  kv_value : list Z
}.

Record index_object (SK : Type) : Type := IndexObject {
  ix_id : Z;
  ix_t_id : Z;
  ix_primary_key : Z;
  ix_payer : Z;
  ix_secondary_key : SK
}.
Arguments IndexObject {SK}.
Arguments ix_id {SK}.
Arguments ix_t_id {SK}.
Arguments ix_primary_key {SK}.
Arguments ix_payer {SK}.
Arguments ix_secondary_key {SK}.

(** What the rows of all indices have. *)
Class Row (R : Type) : Type := {
  row_id : R -> Z;
  row_t_id : R -> Z;
  row_primary_key : R -> Z;
  row_payer : R -> Z
}.
#[export] Instance key_value_row : Row key_value_object :=
  {| row_id := kv_id; row_t_id := kv_t_id; row_primary_key := kv_primary_key; row_payer := kv_payer |}.
#[export] Instance index_object_row SK : Row (index_object SK) :=
  {| row_id := ix_id; row_t_id := ix_t_id; row_primary_key := ix_primary_key; row_payer := ix_payer |}.

(** [billable_size_v<...>] of the rows. *)
Definition table_id_size : Z := billable_size_v (44 + overhead_per_row_per_index_ram_bytes * 2).
Definition key_value_size : Z := billable_size_v (32 + 8 + 4 + overhead_per_row_per_index_ram_bytes * 2).
Definition index64_size : Z := billable_size_v (24 + 8 + overhead_per_row_per_index_ram_bytes * 3).
Definition index128_size : Z := billable_size_v (24 + 16 + overhead_per_row_per_index_ram_bytes * 3).
Definition index256_size : Z := billable_size_v (24 + 32 + overhead_per_row_per_index_ram_bytes * 3).
Definition index_double_size : Z := billable_size_v (24 + 8 + overhead_per_row_per_index_ram_bytes * 3).
Definition index_long_double_size : Z := billable_size_v (24 + 16 + overhead_per_row_per_index_ram_bytes * 3).

(** ** The iterator cache *)

Record iterator_cache : Type := IteratorCache {
  table_cache : gmap Z (Z * Z);           (* id to pointer and end iterator *)
  end_iterator_to_table : list Z;
  iterator_to_object : list (option Z);
  object_to_iterator : gmap Z Z
}.

Definition empty_cache : iterator_cache := IteratorCache ∅ [] [] ∅.

Definition index_to_end_iterator (indx : Z) : Z := i32 (u64 (- (indx + 2))).
(** The negation overflows for the least [int]. *)
Definition end_iterator_to_index (ei : Z) : result Z :=
  if ei =? - 2 ^ 31 then Err undefined_behavior else mret (u64 (- ei - 2)).

Definition cache_table (c : iterator_cache) (tobj : Z) : Z * iterator_cache :=
  match table_cache c !! tobj with
  | Some (_, ei) => (ei, c)
  | None =>
      let ei := index_to_end_iterator (vsize (end_iterator_to_table c)) in
      (ei, IteratorCache (<[tobj := (tobj, ei)]> (table_cache c)) (end_iterator_to_table c ++ [tobj])
             (iterator_to_object c) (object_to_iterator c))
  end.

Definition get_table (c : iterator_cache) (i : Z) : result Z :=
  match table_cache c !! i with Some (tobj, _) => mret tobj | None => Err table_not_in_cache end.

Definition get_end_iterator_by_table_id (c : iterator_cache) (i : Z) : result Z :=
  match table_cache c !! i with Some (_, ei) => mret ei | None => Err table_not_in_cache end.

Definition find_table_by_end_iterator (c : iterator_cache) (ei : Z) : result (option Z) :=
  EOS_ASSERT (ei <? -1) invalid_table_iterator;;
  indx ← end_iterator_to_index ei;
  if vsize (end_iterator_to_table c) <=? indx then mret None
  else tobj ← at_index (end_iterator_to_table c) indx; mret (Some tobj).

Definition cache_get (c : iterator_cache) (iterator : Z) : result Z :=
  EOS_ASSERT (negb (iterator =? -1)) invalid_table_iterator;;
  EOS_ASSERT (0 <=? iterator) table_operation_not_permitted;;
  EOS_ASSERT (iterator <? vsize (iterator_to_object c)) invalid_table_iterator;;
  result ← at_index (iterator_to_object c) iterator;
  match result with Some obj => mret obj | None => Err table_operation_not_permitted end.

Definition cache_remove (c : iterator_cache) (iterator : Z) : result iterator_cache :=
  EOS_ASSERT (negb (iterator =? -1)) invalid_table_iterator;;
  EOS_ASSERT (0 <=? iterator) table_operation_not_permitted;;
  EOS_ASSERT (iterator <? vsize (iterator_to_object c)) invalid_table_iterator;;
  obj_ptr ← at_index (iterator_to_object c) iterator;
  match obj_ptr with
  | None => mret c
  | Some obj =>
      mret (IteratorCache (table_cache c) (end_iterator_to_table c) (<[Z.to_nat iterator := None]> (iterator_to_object c))
              (delete obj (object_to_iterator c)))
  end.

Definition cache_add (c : iterator_cache) (obj : Z) : Z * iterator_cache :=
  match object_to_iterator c !! obj with
  | Some iterator => (iterator, c)
  | None =>
      let iterator := i32 (vsize (iterator_to_object c)) in
      (iterator, IteratorCache (table_cache c) (end_iterator_to_table c) (iterator_to_object c ++ [Some obj])
                   (<[obj := iterator]> (object_to_iterator c)))
  end.

(** ** The context of an action *)

Record context : Type := Context_ {
  receiver : Z;
  act_account : Z;
  act_authorization : list permission_level;
  privileged : bool;
  trx_read_only : bool;
  ram_restrictions_activated : bool;
  ram_billing_in_notify_allowed : bool
}.

(** The tables of the database, the RAM deltas of the transaction and those of
    the action. *)
Record tables_state : Type := TablesState {
  tables : list table_id_object;
  next_table_id : Z;
  ram_deltas : gmap Z Z;
  account_ram_deltas : gmap Z Z
}.

Definition has_authorization (cx : context) (account : Z) : bool :=
  existsb (fun a => actor a =? account) (act_authorization cx).

(** [apply_context::add_ram_usage]: both the transaction and the action count,
    in the same way. *)
Definition add_ram_usage_deltas (account ram_delta : Z) (s : tables_state) : result tables_state :=
  d ← trx_add_ram_usage account ram_delta (ram_deltas s);
  d' ← trx_add_ram_usage account ram_delta (account_ram_deltas s);
  mret (TablesState (tables s) (next_table_id s) d d').

Definition update_db_usage (cx : context) (payer delta : Z) (s : tables_state) : result tables_state :=
  (if (0 <? delta) && negb (privileged cx || (payer =? receiver cx) || ram_restrictions_activated cx) then
     EOS_ASSERT (ram_billing_in_notify_allowed cx || (receiver cx =? act_account cx)) subjective_block_production_exception;;
     EOS_ASSERT (has_authorization cx payer) missing_auth_exception
   else mret tt);;
  add_ram_usage_deltas payer delta s.

(** ** Tables *)

Definition find_table (s : tables_state) (code scope table : Z) : option table_id_object :=
  List.find (fun t => (tab_code t =? code) && (tab_scope t =? scope) && (tab_table t =? table)) (tables s).

(** Following a pointer to a table. *)
Definition deref_table (s : tables_state) (tobj : Z) : result table_id_object :=
  match List.find (fun t => tab_id t =? tobj) (tables s) with Some t => mret t | None => Err undefined_behavior end.

Definition with_tables (s : tables_state) (l : list table_id_object) : tables_state :=
  TablesState l (next_table_id s) (ram_deltas s) (account_ram_deltas s).

Definition find_or_create_table (cx : context) (code scope table payer : Z) (s : tables_state)
    : result (table_id_object * tables_state) :=
  match find_table s code scope table with
  | Some t => mret (t, s)
  | None =>
      s ← update_db_usage cx payer table_id_size s;
      let t := TableId (next_table_id s) code scope table payer 0 in
      mret (t, TablesState (tables s ++ [t]) (next_table_id s + 1) (ram_deltas s) (account_ram_deltas s))
  end.

Definition add_count (tobj delta : Z) (s : tables_state) : tables_state :=
  with_tables s
    ((fun t => if tab_id t =? tobj
               then TableId (tab_id t) (tab_code t) (tab_scope t) (tab_table t) (tab_payer t) (u32 (tab_count t + delta))
               else t) <$> tables s).

Definition remove_table (cx : context) (t : table_id_object) (s : tables_state) : result tables_state :=
  s ← update_db_usage cx (tab_payer t) (- table_id_size) s;
  mret (with_tables s (filter (fun t' => tab_id t' <> tab_id t) (tables s))).

(** ** Indices *)

Record index_state (R : Type) : Type := IndexState {
  rows : list R;
  next_row_id : Z;
  itr_cache : iterator_cache
}.
Arguments IndexState {R}.
Arguments rows {R}.
Arguments next_row_id {R}.
Arguments itr_cache {R}.

Section Index.
Context {R : Type} `{Row R}.

Definition with_cache (i : index_state R) (c : iterator_cache) : index_state R := IndexState (rows i) (next_row_id i) c.

Definition deref_row (i : index_state R) (obj : Z) : result R :=
  match List.find (fun r => row_id r =? obj) (rows i) with Some r => mret r | None => Err undefined_behavior end.

(** [itr_cache.get(iterator)], a reference to a row. *)
Definition get_row (i : index_state R) (iterator : Z) : result R := obj ← cache_get (itr_cache i) iterator; deref_row i obj.

(** The unique key of both kinds of rows. *)
Definition same_key (t_id primary_key : Z) (r : R) : bool := (row_t_id r =? t_id) && (row_primary_key r =? primary_key).
Definition find_row_key (i : index_state R) (t_id primary_key : Z) : option R := List.find (same_key t_id primary_key) (rows i).

(** [db.create], [db.modify] and [db.remove]. *)
Definition create_row (mk : Z -> R) (i : index_state R) : result (R * index_state R) :=
  let r := mk (next_row_id i) in
  match find_row_key i (row_t_id r) (row_primary_key r) with
  | Some _ => Err logic_error
  | None => mret (r, IndexState (rows i ++ [r]) (next_row_id i + 1) (itr_cache i))
  end.
Definition modify_row (r : R) (i : index_state R) : index_state R :=
  IndexState ((fun r' => if row_id r' =? row_id r then r else r') <$> rows i) (next_row_id i) (itr_cache i).
Definition remove_row (r : R) (i : index_state R) : index_state R :=
  IndexState (filter (fun r' => row_id r' <> row_id r) (rows i)) (next_row_id i) (itr_cache i).

(** The first and the last row, in an order, that satisfy a condition. *)
Fixpoint first_row (lt : R -> R -> bool) (p : R -> bool) (l : list R) : option R :=
  match l with
  | [] => None
  | r :: l =>
      match first_row lt p l with
      | Some m => if p r && lt r m then Some r else Some m
      | None => if p r then Some r else None
      end
  end.
Definition last_row (lt : R -> R -> bool) (p : R -> bool) (l : list R) : option R := first_row (fun a b => lt b a) p l.

(** The order of [by_scope_primary] and [by_primary], between a row and a key. *)
Definition key_ltb (t p t' p' : Z) : bool := (t <? t') || ((t =? t') && (p <? p')).
Definition primary_ltb (a b : R) : bool := key_ltb (row_t_id a) (row_primary_key a) (row_t_id b) (row_primary_key b).

(** [cache_table] and [add], on the state of the index. *)
Definition index_cache_table (tobj : Z) (i : index_state R) : Z * index_state R :=
  let '(ei, c) := cache_table (itr_cache i) tobj in (ei, with_cache i c).
Definition index_add (r : R) (i : index_state R) : Z * index_state R :=
  let '(iterator, c) := cache_add (itr_cache i) (row_id r) in (iterator, with_cache i c).

(** What lookups return: the iterator, and the row that the out parameters are
    filled from, if any. *)
Abbreviation lookup_t := (Z * option R * index_state R)%type.

(** The common end of lookups: an iterator to the row, or the given one. *)
Definition found (itr : option R) (otherwise : Z) (i : index_state R) : lookup_t :=
  match itr with
  | None => (otherwise, None, i)
  | Some r => let '(iterator, i) := index_add r i in (iterator, Some r, i)
  end.

(** A search in the table with a name: -1 when there is none, its end iterator
    when nothing is found. *)
Definition lookup_in (s : tables_state) (code scope table : Z) (search : Z -> list R -> option R) (i : index_state R) : lookup_t :=
  match find_table s code scope table with
  | None => (-1, None, i)
  | Some tab =>
      let '(ei, i) := index_cache_table (tab_id tab) i in
      match search (tab_id tab) (rows i) with
      | None => (ei, None, i)
      | Some r => if negb (row_t_id r =? tab_id tab) then (ei, None, i) else found (Some r) ei i
      end
  end.

Definition lookup_end (s : tables_state) (code scope table : Z) (i : index_state R) : Z * index_state R :=
  match find_table s code scope table with
  | None => (-1, i)
  | Some tab => index_cache_table (tab_id tab) i
  end.

(** [++itr] and [--itr] from a row, and [--idx.upper_bound(tab->id)]. *)
Definition next_in (lt : R -> R -> bool) (iterator : Z) (i : index_state R) : result lookup_t :=
  if iterator <? -1 then mret (-1, None, i)
  else
    obj ← get_row i iterator;
    match first_row lt (lt obj) (rows i) with
    | Some r =>
        if negb (row_t_id r =? row_t_id obj)
        then ei ← get_end_iterator_by_table_id (itr_cache i) (row_t_id obj); mret (ei, None, i)
        else mret (found (Some r) (-1) i)
    | None => ei ← get_end_iterator_by_table_id (itr_cache i) (row_t_id obj); mret (ei, None, i)
    end.

Definition previous_in (lt : R -> R -> bool) (s : tables_state) (iterator : Z) (i : index_state R) : result lookup_t :=
  if iterator <? -1 then
    tobj ← find_table_by_end_iterator (itr_cache i) iterator;
    match tobj with
    | None => Err invalid_table_iterator
    | Some tobj =>
        tab ← deref_table s tobj;
        match last_row lt (fun r => row_t_id r <=? tab_id tab) (rows i) with
        | None => mret (-1, None, i)
        | Some r => if negb (row_t_id r =? tab_id tab) then mret (-1, None, i) else mret (found (Some r) (-1) i)
        end
    end
  else
    obj ← get_row i iterator;
    match last_row lt (fun r => lt r obj) (rows i) with
    | None => mret (-1, None, i)
    | Some r => if negb (row_t_id r =? row_t_id obj) then mret (-1, None, i) else mret (found (Some r) (-1) i)
    end.

(** The common part of [store] and of [remove]: the row, the count of its table
    and the RAM. *)
Definition store_row (cx : context) (tab : table_id_object) (mk : Z -> R) (bill : Z) (s : tables_state) (i : index_state R)
    : result (Z * tables_state * index_state R) :=
  '(obj, i) ← create_row mk i;
  let s := add_count (tab_id tab) 1 s in
  s ← update_db_usage cx (row_payer obj) bill s;
  let '(_, i) := index_cache_table (tab_id tab) i in
  let '(iterator, i) := index_add obj i in
  mret (iterator, s, i).

Definition remove_iterator (cx : context) (delta : R -> Z) (iterator : Z) (s : tables_state) (i : index_state R)
    : result (tables_state * index_state R) :=
  EOS_ASSERT (negb (trx_read_only cx)) table_operation_not_permitted;;
  obj ← get_row i iterator;
  tobj ← get_table (itr_cache i) (row_t_id obj);
  table_obj ← deref_table s tobj;
  EOS_ASSERT (tab_code table_obj =? receiver cx) table_access_violation;;
  s ← update_db_usage cx (row_payer obj) (delta obj) s;
  let s := add_count (tab_id table_obj) (-1) s in
  let i := remove_row obj i in
  table_obj ← deref_table s tobj;
  s ← (if tab_count table_obj =? 0 then remove_table cx table_obj s else mret s);
  c ← cache_remove (itr_cache i) iterator;
  mret (s, with_cache i c).

End Index.

(** ** The primary index *)

Abbreviation kv_index := (index_state key_value_object).

Definition db_store_i64_code (cx : context) (code scope table payer id : Z) (buffer : list Z) (s : tables_state) (kv : kv_index)
    : result (Z * tables_state * kv_index) :=
  EOS_ASSERT (negb (trx_read_only cx)) table_operation_not_permitted;;
  '(tab, s) ← find_or_create_table cx code scope table payer s;
  EOS_ASSERT (negb (payer =? 0)) invalid_table_payer;;
  store_row cx tab (fun i => KeyValue i (tab_id tab) id payer buffer) (i64 (u64 (vsize buffer + key_value_size))) s kv.

Definition db_store_i64 (cx : context) (scope table payer id : Z) (buffer : list Z) (s : tables_state) (kv : kv_index)
    : result (Z * tables_state * kv_index) :=
  EOS_ASSERT (negb (trx_read_only cx)) table_operation_not_permitted;;
  db_store_i64_code cx (receiver cx) scope table payer id buffer s kv.

Definition db_update_i64 (cx : context) (iterator payer : Z) (buffer : list Z) (s : tables_state) (kv : kv_index)
    : result (tables_state * kv_index) :=
  EOS_ASSERT (negb (trx_read_only cx)) table_operation_not_permitted;;
  obj ← get_row kv iterator;
  tobj ← get_table (itr_cache kv) (kv_t_id obj);
  table_obj ← deref_table s tobj;
  EOS_ASSERT (tab_code table_obj =? receiver cx) table_access_violation;;
  let old_size := i64 (u64 (vsize (kv_value obj) + key_value_size)) in
  let new_size := i64 (u64 (vsize buffer + key_value_size)) in
  let payer := if payer =? 0 then kv_payer obj else payer in
  s ← (if negb (kv_payer obj =? payer) then
         s ← update_db_usage cx (kv_payer obj) (- old_size) s; update_db_usage cx payer new_size s
       else if negb (old_size =? new_size) then update_db_usage cx (kv_payer obj) (new_size - old_size) s
       else mret s);
  mret (s, modify_row (KeyValue (kv_id obj) (kv_t_id obj) (kv_primary_key obj) payer buffer) kv).

Definition db_remove_i64 (cx : context) (iterator : Z) (s : tables_state) (kv : kv_index) : result (tables_state * kv_index) :=
  remove_iterator cx (fun obj => i64 (u64 (- u64 (vsize (kv_value obj) + key_value_size)))) iterator s kv.

(** What is returned and what is copied to the buffer. *)
Definition db_get_i64 (iterator buffer_size : Z) (kv : kv_index) : result (Z * list Z) :=
  obj ← get_row kv iterator;
  let s := vsize (kv_value obj) in
  if buffer_size =? 0 then mret (i32 s, [])
  else
    let copy_size := Z.min buffer_size s in
    mret (i32 copy_size, take (Z.to_nat copy_size) (kv_value obj)).

Definition db_next_i64 (iterator : Z) (kv : kv_index) : result (Z * option key_value_object * kv_index) :=
  next_in primary_ltb iterator kv.
Definition db_previous_i64 (s : tables_state) (iterator : Z) (kv : kv_index) : result (Z * option key_value_object * kv_index) :=
  previous_in primary_ltb s iterator kv.

Definition db_find_i64 (s : tables_state) (code scope table id : Z) (kv : kv_index) : Z * kv_index :=
  let '(iterator, _, kv) := lookup_in s code scope table (fun t => List.find (same_key t id)) kv in (iterator, kv).
Definition db_lowerbound_i64 (s : tables_state) (code scope table id : Z) (kv : kv_index) : Z * kv_index :=
  let '(iterator, _, kv) :=
    lookup_in s code scope table
      (fun t => first_row primary_ltb (fun r => negb (key_ltb (row_t_id r) (row_primary_key r) t id))) kv in
  (iterator, kv).
Definition db_upperbound_i64 (s : tables_state) (code scope table id : Z) (kv : kv_index) : Z * kv_index :=
  let '(iterator, _, kv) :=
    lookup_in s code scope table
      (fun t => first_row primary_ltb (fun r => key_ltb t id (row_t_id r) (row_primary_key r))) kv in
  (iterator, kv).
Definition db_end_i64 (s : tables_state) (code scope table : Z) (kv : kv_index) : Z * kv_index :=
  lookup_end s code scope table kv.

(** ** Secondary indices *)

Section Secondary.
Context {SK : Type}.
(** [SecondaryKeyLess], and the billable size of a row. *)
Variable less : SK -> SK -> bool.
Variable object_size : Z.

Abbreviation row := (index_object SK).
Abbreviation sec_index := (index_state (index_object SK)).

(** The order of [by_secondary], on whole and on partial keys. *)
Definition secondary_ltb (a b : row) : bool :=
  (ix_t_id a <? ix_t_id b) ||
  ((ix_t_id a =? ix_t_id b) &&
   (less (ix_secondary_key a) (ix_secondary_key b) ||
    (negb (less (ix_secondary_key b) (ix_secondary_key a)) && (ix_primary_key a <? ix_primary_key b)))).
Definition row_ltb_key (r : row) (t : Z) (k : SK) : bool :=
  (ix_t_id r <? t) || ((ix_t_id r =? t) && less (ix_secondary_key r) k).
Definition key_ltb_row (t : Z) (k : SK) (r : row) : bool :=
  (t <? ix_t_id r) || ((t =? ix_t_id r) && less k (ix_secondary_key r)).

Definition idx_store (cx : context) (scope table payer id : Z) (value : SK) (s : tables_state) (i : sec_index)
    : result (Z * tables_state * sec_index) :=
  EOS_ASSERT (negb (trx_read_only cx)) table_operation_not_permitted;;
  EOS_ASSERT (negb (payer =? 0)) invalid_table_payer;;
  '(tab, s) ← find_or_create_table cx (receiver cx) scope table payer s;
  store_row cx tab (fun n => IndexObject n (tab_id tab) id payer value) object_size s i.

Definition idx_remove (cx : context) (iterator : Z) (s : tables_state) (i : sec_index) : result (tables_state * sec_index) :=
  remove_iterator cx (fun _ => - object_size) iterator s i.

Definition idx_update (cx : context) (iterator payer : Z) (secondary : SK) (s : tables_state) (i : sec_index)
    : result (tables_state * sec_index) :=
  EOS_ASSERT (negb (trx_read_only cx)) table_operation_not_permitted;;
  obj ← get_row i iterator;
  tobj ← get_table (itr_cache i) (ix_t_id obj);
  table_obj ← deref_table s tobj;
  EOS_ASSERT (tab_code table_obj =? receiver cx) table_access_violation;;
  let payer := if payer =? 0 then ix_payer obj else payer in
  s ← (if negb (ix_payer obj =? payer) then
         s ← update_db_usage cx (ix_payer obj) (- object_size) s; update_db_usage cx payer object_size s
       else mret s);
  mret (s, modify_row (IndexObject (ix_id obj) (ix_t_id obj) (ix_primary_key obj) payer secondary) i).

Definition find_secondary (s : tables_state) (code scope table : Z) (secondary : SK) (i : sec_index)
    : Z * option row * sec_index :=
  lookup_in s code scope table
    (fun t => first_row secondary_ltb (fun r => negb (row_ltb_key r t secondary) && negb (key_ltb_row t secondary r))) i.
Definition lowerbound_secondary (s : tables_state) (code scope table : Z) (secondary : SK) (i : sec_index)
    : Z * option row * sec_index :=
  lookup_in s code scope table (fun t => first_row secondary_ltb (fun r => negb (row_ltb_key r t secondary))) i.
Definition upperbound_secondary (s : tables_state) (code scope table : Z) (secondary : SK) (i : sec_index)
    : Z * option row * sec_index :=
  lookup_in s code scope table (fun t => first_row secondary_ltb (key_ltb_row t secondary)) i.
Definition end_secondary (s : tables_state) (code scope table : Z) (i : sec_index) : Z * sec_index :=
  lookup_end s code scope table i.
Definition next_secondary (iterator : Z) (i : sec_index) : result (Z * option row * sec_index) :=
  next_in secondary_ltb iterator i.
Definition previous_secondary (s : tables_state) (iterator : Z) (i : sec_index) : result (Z * option row * sec_index) :=
  previous_in secondary_ltb s iterator i.

Definition find_primary (s : tables_state) (code scope table primary : Z) (i : sec_index) : Z * option row * sec_index :=
  lookup_in s code scope table (fun t => List.find (same_key t primary)) i.
Definition lowerbound_primary (s : tables_state) (code scope table primary : Z) (i : sec_index) : Z * sec_index :=
  let '(iterator, _, i) :=
    lookup_in s code scope table
      (fun t => first_row primary_ltb (fun r => negb (key_ltb (row_t_id r) (row_primary_key r) t primary))) i in
  (iterator, i).
Definition upperbound_primary (s : tables_state) (code scope table primary : Z) (i : sec_index) : Z * sec_index :=
  let '(iterator, _, i) :=
    lookup_in s code scope table
      (fun t => first_row primary_ltb (fun r => key_ltb t primary (row_t_id r) (row_primary_key r))) i in
  (iterator, i).
Definition next_primary (iterator : Z) (i : sec_index) : result (Z * option row * sec_index) := next_in primary_ltb iterator i.
Definition previous_primary (s : tables_state) (iterator : Z) (i : sec_index) : result (Z * option row * sec_index) :=
  previous_in primary_ltb s iterator i.

Definition idx_get (iterator : Z) (i : sec_index) : result (Z * SK) :=
  obj ← get_row i iterator; mret (ix_primary_key obj, ix_secondary_key obj).
End Secondary.

(** ** All tables of a context *)

(** [std::array<uint128_t, 2>] compares lexicographically. *)
Definition key256_ltb (a b : Z * Z) : bool := (a.1 <? b.1) || ((a.1 =? b.1) && (a.2 <? b.2)).

(** Keys of the last two indices are floats of the softfloat library, those that
    are not NaN: host functions refuse NaN. *)
Record apply_tables (F64 F128 : Type) : Type := ApplyTables {
  ap_shared : tables_state;
  keyval : kv_index;
  idx64 : index_state (index_object Z);
  idx128 : index_state (index_object Z);
  idx256 : index_state (index_object (Z * Z));
  idx_double : index_state (index_object F64);
  idx_long_double : index_state (index_object F128)
}.
Arguments ApplyTables {F64 F128}.
Arguments ap_shared {F64 F128}.
Arguments keyval {F64 F128}.
Arguments idx64 {F64 F128}.
Arguments idx128 {F64 F128}.
Arguments idx256 {F64 F128}.
Arguments idx_double {F64 F128}.
Arguments idx_long_double {F64 F128}.

(** [finalize_trace] moves the RAM deltas of an action to its trace. *)
Definition finalize_trace (s : tables_state) : gmap Z Z * tables_state :=
  (account_ram_deltas s, TablesState (tables s) (next_table_id s) (ram_deltas s) ∅).

(** Each action, and each inline action, runs in an [apply_context] of its own,
    which starts with nothing in its caches; notified accounts share it. *)
Definition new_apply_context {F64 F128} (st : apply_tables F64 F128) : apply_tables F64 F128 :=
  let s := ap_shared st in
  ApplyTables (TablesState (tables s) (next_table_id s) (ram_deltas s) ∅) (with_cache (keyval st) empty_cache)
    (with_cache (idx64 st) empty_cache) (with_cache (idx128 st) empty_cache) (with_cache (idx256 st) empty_cache)
    (with_cache (idx_double st) empty_cache) (with_cache (idx_long_double st) empty_cache).

(** The check of [exec_one] on what an action did to the RAM of others, when
    [ram_restrictions] is activated and the contract is not privileged. *)
Definition check_ram_restrictions (cx : context) (s : tables_state) : result unit :=
  if negb (privileged cx) && ram_restrictions_activated cx then
    foldr (fun (d : Z * Z) rest =>
      (if (0 <? d.2) && negb (d.1 =? receiver cx) then
         EOS_ASSERT (receiver cx =? act_account cx) unauthorized_ram_usage_increase;;
         EOS_ASSERT (has_authorization cx d.1) unauthorized_ram_usage_increase
       else mret tt);; rest) (mret tt) (map_to_list (account_ram_deltas s))
  else mret tt.
