(* ===== verification/TableIndex.v ===== *)
(** The parts of contract tables and what each does on its own: the cache of
    iterators, the orders of rows, the tables with their counts and the RAM they
    cost, and lookups, which only make the cache grow. *)
From Stdlib Require Import ZArith Lia ZifyBool Sorted.
From stdpp Require Import base tactics numbers list gmap.
From S2P Require Import Prelude ResourceLimits Authority PermissionActions PermissionRuns ContractTables.
#[local] Open Scope Z_scope.

(** ** The cache *)

Record cache_wf (c : iterator_cache) : Prop := {
  cw_tables : forall t p ei, table_cache c !! t = Some (p, ei) <->
    p = t /\ exists n : nat, end_iterator_to_table c !! n = Some t /\ ei = - (Z.of_nat n + 2);
  cw_objects : forall obj it, object_to_iterator c !! obj = Some it <->
    0 <= it /\ iterator_to_object c !! Z.to_nat it = Some (Some obj)
}.

(** There are numbers left for a new iterator and a new end iterator. *)
Definition room_object (c : iterator_cache) : Prop := vsize (iterator_to_object c) < 2 ^ 31.
Definition room_end (c : iterator_cache) : Prop := vsize (end_iterator_to_table c) < 2 ^ 31 - 2.

Definition end_iterator (c : iterator_cache) (t ei : Z) : Prop :=
  exists n : nat, end_iterator_to_table c !! n = Some t /\ ei = - (Z.of_nat n + 2).

Lemma empty_cache_wf : cache_wf empty_cache.
Proof.
  constructor; cbn; intros; rewrite lookup_empty; split; try done.
  - intros (_ & n & E & _). by rewrite lookup_nil in E.
  - intros [_ E]. by rewrite lookup_nil in E.
Qed.

Lemma i32_u64 z : i32 (u64 z) = i32 z.
Proof.
  unfold i32, u64. rewrite <- (Zplus_mod_idemp_l (z mod 2 ^ 64)), <- (Zplus_mod_idemp_l z).
  by rewrite Z.mod_mod_divide by (by exists (2 ^ 32)).
Qed.

Lemma new_end_iterator n : 0 <= n < 2 ^ 31 - 2 -> index_to_end_iterator n = - (n + 2).
Proof. intros Hn. unfold index_to_end_iterator. rewrite i32_u64. apply i32_small. lia. Qed.

Lemma lookup_app_last {A} (l : list A) x (n : nat) y :
  (l ++ [x]) !! n = Some y <-> l !! n = Some y \/ (n = length l /\ y = x).
Proof.
  rewrite lookup_app_Some, list_lookup_singleton_Some. split.
  - intros [?|(? & ? & ?)]; [by left|right]. split; [lia|done].
  - intros [?|[-> ->]]; [by left|right]. split; [lia|]. by rewrite Nat.sub_diag.
Qed.

Lemma cache_table_spec c t ei c' :
  cache_wf c -> room_end c -> cache_table c t = (ei, c') ->
  cache_wf c' /\ end_iterator c' t ei /\ iterator_to_object c' = iterator_to_object c /\
  (forall t', is_Some (table_cache c' !! t') <-> t' = t \/ is_Some (table_cache c !! t')) /\
  end_iterator_to_table c `prefix_of` end_iterator_to_table c'.
Proof.
  intros Hc Hr E. unfold room_end in Hr. unfold cache_table in E. destruct (table_cache c !! t) as [[p ei0]|] eqn:Et.
  - injection E as <- <-. pose proof Et as Et'. apply (cw_tables c Hc) in Et as (-> & n & En & ->). split; [done|].
    split; [by exists n|]. split; [done|]. split; [|done]. intros t'. split; [by right|]. intros [->|?]; [|done]. by rewrite Et'.
  - rewrite new_end_iterator in E by (unfold vsize in *; lia). injection E as <- <-. split; [|split; [|split; [done|split]]].
    + constructor; cbn [table_cache end_iterator_to_table iterator_to_object object_to_iterator]; [|apply Hc].
      intros t' p ei. destruct (decide (t' = t)) as [->|Hne].
      * rewrite lookup_insert_eq. split.
        -- intros [= <- <-]. split; [done|]. exists (length (end_iterator_to_table c)). split; [|done].
           apply lookup_app_last. by right.
        -- intros (-> & n & En & ->). apply lookup_app_last in En as [En|[-> _]]; [|done].
           assert (table_cache c !! t = Some (t, - (Z.of_nat n + 2))) by (apply (cw_tables c Hc); eauto). congruence.
      * rewrite lookup_insert_ne by done. rewrite (cw_tables c Hc). split; intros (-> & n & En & ->); (split; [done|]); exists n.
        -- split; [apply lookup_app_last; by left|done].
        -- apply lookup_app_last in En as [En|[_ ->]]; done.
    + exists (length (end_iterator_to_table c)). cbn [end_iterator_to_table]. split; [|done]. apply lookup_app_last. by right.
    + intros t'. cbn [table_cache]. destruct (decide (t' = t)) as [->|Hne].
      * rewrite lookup_insert_eq. split; [by left|done].
      * rewrite lookup_insert_ne by done. split; [by right|]. by intros [?|?].
    + by eexists.
Qed.

Lemma cache_get_Ok c it obj :
  cache_get c it = Ok obj <-> 0 <= it /\ iterator_to_object c !! Z.to_nat it = Some (Some obj).
Proof.
  unfold cache_get, at_index. split.
  - intros E. inv_result. destruct (0 <=? it) eqn:E0; [|done]. split; [lia|].
    destruct (iterator_to_object c !! Z.to_nat it) as [o|]; [|done]. apply Ok_inj in Ha2 as <-. destruct o; [|done]. by inv_result.
  - intros [H0 E]. pose proof (lookup_lt_Some _ _ _ E). do 3 (step_assert by (unfold vsize; lia)).
    replace (0 <=? it) with true by lia. rewrite E. done.
Qed.

Lemma cache_get_empty it obj : cache_get empty_cache it <> Ok obj.
Proof. by intros [_ E]%cache_get_Ok. Qed.

Lemma cache_add_spec c obj it c' :
  cache_wf c -> room_object c -> cache_add c obj = (it, c') ->
  cache_wf c' /\ cache_get c' it = Ok obj /\ table_cache c' = table_cache c /\
  end_iterator_to_table c' = end_iterator_to_table c /\ (c' = c \/ iterator_to_object c' = iterator_to_object c ++ [Some obj]).
Proof.
  intros Hc Hr E. unfold room_object in Hr. unfold cache_add in E. destruct (object_to_iterator c !! obj) as [i|] eqn:Eo.
  - injection E as <- <-. apply (cw_objects c Hc) in Eo. split_and!; try done; [by apply cache_get_Ok|by left].
  - rewrite i32_small in E by (unfold vsize in *; lia). injection E as <- <-.
    assert (forall i, (iterator_to_object c ++ [Some obj]) !! i = Some (Some obj) -> i = length (iterator_to_object c)) as Hlast.
    { intros i [Ei|[Ei _]]%lookup_app_last; [|done].
      assert (object_to_iterator c !! obj = Some (Z.of_nat i)) by (apply (cw_objects c Hc); rewrite Nat2Z.id; split; [lia|done]).
      congruence. }
    split; [|split; [|split; [done|split; [done|by right]]]].
    + constructor; cbn [table_cache end_iterator_to_table iterator_to_object object_to_iterator]; [apply Hc|].
      intros o i. destruct (decide (o = obj)) as [->|Hne].
      * rewrite lookup_insert_eq. split.
        -- intros [= <-]. unfold vsize. rewrite Nat2Z.id. split; [lia|]. apply lookup_app_last. by right.
        -- intros [Hi Ei]. apply Hlast in Ei. unfold vsize. f_equal. lia.
      * rewrite lookup_insert_ne by done. rewrite (cw_objects c Hc). split; intros [Hi Ei]; (split; [done|]).
        -- apply lookup_app_last. by left.
        -- apply lookup_app_last in Ei as [Ei|[_ [= ->]]]; done.
    + apply cache_get_Ok. cbn [iterator_to_object]. unfold vsize. rewrite Nat2Z.id. split; [lia|]. apply lookup_app_last. by right.
Qed.

(** Iterators that were handed out keep their rows. *)
Lemma cache_add_keeps c obj it c' it' o :
  cache_wf c -> room_object c -> cache_add c obj = (it, c') -> cache_get c it' = Ok o -> cache_get c' it' = Ok o.
Proof.
  intros Hc Hr E [H0 Ho]%cache_get_Ok. apply cache_get_Ok. split; [done|].
  destruct (cache_add_spec _ _ _ _ Hc Hr E) as (_ & _ & _ & _ & [->| ->]); [done|]. apply lookup_app_last. by left.
Qed.

Lemma cache_get_inj c it it' obj : cache_wf c -> cache_get c it = Ok obj -> cache_get c it' = Ok obj -> it = it'.
Proof. intros Hc H1%cache_get_Ok H2%cache_get_Ok. apply (cw_objects c Hc) in H1, H2. congruence. Qed.

Lemma cache_remove_spec c it obj :
  cache_wf c -> cache_get c it = Ok obj ->
  exists c', cache_remove c it = Ok c' /\ cache_wf c' /\ table_cache c' = table_cache c /\
    end_iterator_to_table c' = end_iterator_to_table c /\ vsize (iterator_to_object c') = vsize (iterator_to_object c) /\
    (forall it' o, cache_get c' it' = Ok o <-> it' <> it /\ cache_get c it' = Ok o).
Proof.
  intros Hc Hg. pose proof Hg as [H0 Ho]%cache_get_Ok. pose proof (lookup_lt_Some _ _ _ Ho) as Hlt.
  unfold cache_remove. do 3 (step_assert by (unfold vsize; lia)). unfold at_index. replace (0 <=? it) with true by lia. rewrite Ho.
  cbn [mbind result_bind]. eexists. split; [done|].
  assert (forall it' o, (0 <= it' /\ <[Z.to_nat it := None]> (iterator_to_object c) !! Z.to_nat it' = Some (Some o)) <->
    it' <> it /\ cache_get c it' = Ok o) as Hget.
  { intros it' o. rewrite cache_get_Ok. destruct (decide (it' = it)) as [->|Hne].
    - rewrite list_lookup_insert_eq by done. naive_solver.
    - destruct (decide (0 <= it')); [|naive_solver]. rewrite list_lookup_insert_ne by lia. naive_solver. }
  split; [|split; [done|split; [done|split]]].
  - constructor; cbn [table_cache end_iterator_to_table iterator_to_object object_to_iterator]; [apply Hc|].
    intros o i. rewrite Hget, lookup_delete_Some, (cw_objects c Hc), <- cache_get_Ok. split.
    + intros [Hne E]. split; [|done]. intros ->. congruence.
    + intros [Hne E]. split; [|done]. intros ->. by pose proof (cache_get_inj _ _ _ _ Hc E Hg).
  - cbn [iterator_to_object]. unfold vsize. by rewrite length_insert.
  - intros it' o. rewrite <- Hget, cache_get_Ok. done.
Qed.

(** ** Orders of rows *)

Section Rows.
Context {R : Type} `{Row R}.

Definition row_key (r : R) : Z * Z := (row_t_id r, row_primary_key r).

Record row_order (lt : R -> R -> bool) : Prop := {
  ro_irrefl : forall a, lt a a = false;
  ro_trans : forall a b c, lt a b = true -> lt b c = true -> lt a c = true;
  ro_total : forall a b, row_key a <> row_key b -> lt a b = true \/ lt b a = true
}.

(** Rows of a table lie together. *)
Definition table_order (lt : R -> R -> bool) : Prop := forall a b, lt a b = true -> row_t_id a <= row_t_id b.

Lemma row_order_flip lt : row_order lt -> row_order (fun a b => lt b a).
Proof.
  intros [Hi Ht Hc]. constructor; [done|eauto|]. intros a b Hk. destruct (Hc a b Hk); auto.
Qed.

Lemma primary_order : row_order primary_ltb /\ table_order primary_ltb.
Proof.
  unfold primary_ltb, key_ltb, table_order. split; [constructor|]; [intros; lia|intros; lia| |intros; lia].
  intros a b Hk. unfold row_key in Hk. destruct (decide (row_t_id a = row_t_id b)); [|lia].
  destruct (decide (row_primary_key a = row_primary_key b)); [congruence|lia].
Qed.

Lemma first_row_Some lt p (l : list R) m :
  row_order lt -> NoDup (row_key <$> l) -> first_row lt p l = Some m ->
  m ∈ l /\ p m = true /\ (forall r, r ∈ l -> p r = true -> r = m \/ lt m r = true).
Proof.
  intros Ho. revert m. induction l as [|x l IH]; intros m Hd E; [done|]. cbn [first_row] in E.
  rewrite fmap_cons, NoDup_cons in Hd. destruct Hd as [Hx Hd].
  assert (forall y, y ∈ l -> row_key x <> row_key y) as Hne.
  { intros y Hy E'. destruct Hx. rewrite E'. apply list_elem_of_fmap. eauto. }
  destruct (first_row lt p l) as [m'|] eqn:Ef.
  - destruct (IH m' Hd eq_refl) as (Hm & Pm & Hmin). destruct (p x && lt x m') eqn:Ex; injection E as <-.
    + apply andb_true_iff in Ex as [Px Hlt]. split; [by left|]. split; [done|]. intros r [->|Hr]%elem_of_cons Pr; [by left|right].
      destruct (Hmin r Hr Pr) as [->|Hr']; [done|]. by eapply ro_trans.
    + split; [by right|]. split; [done|]. intros r [->|Hr]%elem_of_cons Pr; [|by apply Hmin]. right.
      rewrite Pr in Ex. cbn in Ex. destruct (ro_total lt Ho x m' (Hne m' Hm)); [congruence|done].
  - destruct (p x) eqn:Px; [|done]. injection E as <-. split; [by left|]. split; [done|].
    intros r [->|Hr]%elem_of_cons Pr; [by left|]. exfalso. clear IH Hne Hx Hd.
    revert Ef. induction l as [|y l IH]; [by apply not_elem_of_nil in Hr|]. cbn [first_row].
    destruct (first_row lt p l); [by destruct (_ && _)|]. destruct (p y) eqn:Py; [done|].
    apply elem_of_cons in Hr as [->|Hr]; [congruence|]. intros _. by apply IH.
Qed.

Lemma first_row_None lt p (l : list R) : first_row lt p l = None <-> forall r, r ∈ l -> p r = false.
Proof.
  induction l as [|x l IH]; cbn [first_row].
  - split; [|done]. intros _ r Hr. by apply not_elem_of_nil in Hr.
  - split.
    + intros E r Hr. destruct (first_row lt p l); [by destruct (_ && _)|]. destruct (p x) eqn:Px; [done|].
      apply elem_of_cons in Hr as [->|Hr]; [done|by apply IH].
    + intros Hp. rewrite (proj2 IH) by (intros r Hr; apply Hp; by right). by rewrite Hp by (by left).
Qed.

End Rows.

(** ** Counting and billing *)

(** What [a] pays for. *)
Definition paid {A} (payer size : A -> Z) (a : Z) (l : list A) : Z :=
  foldr (fun x n => (if payer x =? a then size x else 0) + n) 0 l.

Lemma paid_cons {A} (payer size : A -> Z) a x l :
  paid payer size a (x :: l) = (if payer x =? a then size x else 0) + paid payer size a l.
Proof. done. Qed.

Lemma paid_app {A} (payer size : A -> Z) a l k : paid payer size a (l ++ k) = paid payer size a l + paid payer size a k.
Proof. unfold paid. induction l as [|x l IH]; cbn; lia. Qed.

Lemma filter_ne_split {A} (f : A -> Z) (l : list A) x :
  NoDup (f <$> l) -> x ∈ l -> l ≡ₚ x :: filter (fun y => f y <> f x) l.
Proof.
  intros Hd Hx. induction l as [|y l IH]; [by apply not_elem_of_nil in Hx|]. rewrite fmap_cons, NoDup_cons in Hd.
  destruct Hd as [Hy Hd]. rewrite filter_cons. destruct (decide (f y <> f x)) as [Hne|Heq].
  - apply elem_of_cons in Hx as [->|Hx]; [done|]. rewrite (IH Hd Hx) at 1. constructor.
  - apply dec_stable in Heq. apply elem_of_cons in Hx as [->|Hx].
    + constructor. rewrite filter_true; [done|]. apply Forall_forall. intros z Hz E. destruct Hy.
      rewrite <- E. apply list_elem_of_fmap. eauto.
    + destruct Hy. rewrite Heq. apply list_elem_of_fmap. eauto.
Qed.

Lemma paid_perm {A} (payer size : A -> Z) a l k : l ≡ₚ k -> paid payer size a l = paid payer size a k.
Proof. unfold paid. induction 1; cbn; lia. Qed.

Lemma paid_remove {A} (f payer size : A -> Z) a l x :
  NoDup (f <$> l) -> x ∈ l ->
  paid payer size a (filter (fun y => f y <> f x) l) = paid payer size a l - (if payer x =? a then size x else 0).
Proof. intros Hd Hx. rewrite (paid_perm payer size a _ _ (filter_ne_split f l x Hd Hx)). rewrite paid_cons. lia. Qed.

Lemma paid_replace {A} (f payer size : A -> Z) a l x y :
  NoDup (f <$> l) -> x ∈ l -> f y = f x ->
  paid payer size a ((fun z => if f z =? f y then y else z) <$> l) =
    paid payer size a l - (if payer x =? a then size x else 0) + (if payer y =? a then size y else 0).
Proof.
  intros Hd Hx Ey. rewrite Ey. induction l as [|z l IH]; [by apply not_elem_of_nil in Hx|].
  rewrite fmap_cons, NoDup_cons in Hd. destruct Hd as [Hz Hd]. rewrite fmap_cons, !paid_cons.
  apply elem_of_cons in Hx as [<-|Hx].
  - rewrite Z.eqb_refl. assert ((fun z => if f z =? f x then y else z) <$> l = l) as ->; [|lia].
    rewrite <- (list_fmap_id l) at 2. apply list_fmap_ext. intros n z Hn. destruct (Z.eqb_spec (f z) (f x)) as [E|]; [|done].
    destruct Hz. rewrite <- E. apply list_elem_of_fmap. exists z. split; [done|]. by eapply list_elem_of_lookup_2.
  - rewrite IH by done. destruct (Z.eqb_spec (f z) (f x)) as [E|]; [|lia]. destruct Hz. rewrite E. apply list_elem_of_fmap. eauto.
Qed.

(** The rows of a table. *)
Definition rows_in {R} `{Row R} (t : Z) (i : index_state R) : Z := paid row_t_id (fun _ => 1) t (rows i).

Lemma paid_nonneg {A} (payer size : A -> Z) a l : (forall x, x ∈ l -> 0 <= size x) -> 0 <= paid payer size a l.
Proof.
  induction l as [|x l IH]; intros Hs; [done|]. rewrite paid_cons. assert (0 <= size x) by (apply Hs; by left).
  assert (0 <= paid payer size a l) by (apply IH; intros y Hy; apply Hs; by right). destruct (_ =? _); lia.
Qed.

Lemma rows_in_pos {R} `{Row R} (i : index_state R) r : r ∈ rows i -> 0 < rows_in (row_t_id r) i.
Proof.
  unfold rows_in. induction (rows i) as [|x l IH]; [by intros ?%not_elem_of_nil|]. rewrite paid_cons.
  assert (0 <= paid row_t_id (fun _ => 1) (row_t_id r) l) by (by apply paid_nonneg).
  intros [->|Hr]%elem_of_cons; [rewrite Z.eqb_refl; lia|]. specialize (IH Hr). destruct (_ =? _); lia.
Qed.

(** ** The invariants *)

Definition table_name (t : table_id_object) : Z * Z * Z := (tab_code t, tab_scope t, tab_table t).

(** The tables, when [n] says how many rows each has. *)
Record tables_wf (n : Z -> Z) (s : tables_state) : Prop := {
  tw_ids : NoDup (tab_id <$> tables s);
  tw_below : forall t, t ∈ tables s -> tab_id t < next_table_id s;
  tw_names : NoDup (table_name <$> tables s);
  tw_count : forall t, t ∈ tables s -> tab_count t = n (tab_id t);
  tw_rows : forall id, n id <> 0 -> id ∈ tab_id <$> tables s
}.

Definition no_empty_table (s : tables_state) : Prop := forall t, t ∈ tables s -> 0 < tab_count t.

Record index_ok {R} `{Row R} (i : index_state R) : Prop := {
  io_ids : NoDup (row_id <$> rows i);
  io_below : forall r, r ∈ rows i -> row_id r < next_row_id i;
  io_keys : NoDup (row_key <$> rows i);
  io_cache : cache_wf (itr_cache i);
  io_live : forall it obj, cache_get (itr_cache i) it = Ok obj ->
    exists r, r ∈ rows i /\ row_id r = obj /\ is_Some (table_cache (itr_cache i) !! row_t_id r)
}.

Lemma deref_table_Ok n s tobj t : tables_wf n s -> deref_table s tobj = Ok t <-> t ∈ tables s /\ tab_id t = tobj.
Proof.
  intros Hw. unfold deref_table. split.
  - destruct (List.find _ _) as [t'|] eqn:E; [|done]. intros ->%Ok_inj. apply find_Some in E as [? ?%Z.eqb_eq]. done.
  - intros [Ht <-]. rewrite (find_unique tab_id _ _ t); [done|apply Hw|intros y; apply Z.eqb_eq|done].
Qed.

Lemma find_table_Some n s code scope table t :
  tables_wf n s -> find_table s code scope table = Some t <-> t ∈ tables s /\ table_name t = (code, scope, table).
Proof.
  intros Hw. unfold find_table, table_name. split.
  - intros [Ht Hn]%find_Some. split; [done|]. f_equal; [f_equal|]; lia.
  - intros [Ht [= <- <- <-]]. apply (find_unique table_name); [apply Hw| |done].
    intros y. unfold table_name. rewrite !andb_true_iff, !Z.eqb_eq. split; [intros [[-> ->] ->]; done|intros [= -> -> ->]; done].
Qed.

Lemma find_table_None s code scope table :
  find_table s code scope table = None -> (code, scope, table) ∉ table_name <$> tables s.
Proof.
  intros E Hin. apply list_elem_of_fmap in Hin as (t & En & Ht). apply (find_None _ _ _ E) in Ht. cbn in Ht.
  injection En as -> -> ->. lia.
Qed.

(** ** Billing *)

Definition table_bytes (a : Z) (s : tables_state) : Z := paid tab_payer (fun _ => table_id_size) a (tables s).

Definition charge (payer delta a : Z) : Z := if payer =? a then delta else 0.

Lemma update_db_usage_Ok cx payer delta s s' :
  update_db_usage cx payer delta s = Ok s' ->
  tables s' = tables s /\ next_table_id s' = next_table_id s /\
  (forall a, billed (ram_deltas s) (ram_deltas s') a = charge payer delta a).
Proof.
  unfold update_db_usage, add_ram_usage_deltas. intros E. inv_result. split; [done|]. split; [done|]. intros a'.
  by apply add_ram_billed.
Qed.

Lemma billed_trans d1 d2 d3 a : billed d1 d3 a = billed d1 d2 a + billed d2 d3 a.
Proof. unfold billed. lia. Qed.

Lemma tables_wf_same n s s' :
  tables s' = tables s -> next_table_id s' = next_table_id s -> tables_wf n s -> tables_wf n s'.
Proof. intros E1 E2 [? ? ? ? ?]. constructor; rewrite ?E1, ?E2; done. Qed.

Lemma tables_wf_ext n n' s : (forall t, n t = n' t) -> tables_wf n s -> tables_wf n' s.
Proof. intros E [H1 H2 H3 H4 H5]. constructor; try done; intros; [rewrite <- E; auto|]. apply H5. by rewrite E. Qed.

(** ** Tables *)

Lemma find_or_create_spec n cx code scope table payer s tab s' :
  tables_wf n s -> no_empty_table s -> find_or_create_table cx code scope table payer s = Ok (tab, s') ->
  tables_wf n s' /\ tab ∈ tables s' /\ table_name tab = (code, scope, table) /\
  (forall t, t ∈ tables s' -> t = tab \/ 0 < tab_count t) /\
  (tables s' = tables s \/ (find_table s code scope table = None /\ tables s' = tables s ++ [tab] /\ n (tab_id tab) = 0)) /\
  (forall a, billed (ram_deltas s) (ram_deltas s') a = table_bytes a s' - table_bytes a s).
Proof.
  intros Hw Hne E. unfold find_or_create_table in E. destruct (find_table s code scope table) as [t|] eqn:Ef.
  - inv_result. injection E as <- <-. apply (find_table_Some n) in Ef as [Ht En]; [|done].
    split_and!; auto. intros a. unfold billed. lia.
  - apply bind_Ok in E as (s1 & E1 & E). inv_result. injection E as <- <-.
    destruct (update_db_usage_Ok _ _ _ _ _ E1) as (Et & Ei & Hb).
    pose proof (tables_wf_same _ _ _ Et Ei Hw) as [H1 H2 H3 H4 H5]. apply find_table_None in Ef as Hname. rewrite <- Et in Hname.
    set (tab := TableId (next_table_id s1) code scope table payer 0) in *.
    assert (tab_id tab ∉ tab_id <$> tables s1) as Hid.
    { intros Hin. apply list_elem_of_fmap in Hin as (t & E & Ht). apply H2 in Ht. rewrite <- E in Ht. cbn in Ht. lia. }
    assert (n (tab_id tab) = 0) as Hn0.
    { destruct (decide (n (tab_id tab) = 0)) as [|Hn]; [done|]. by destruct Hid; apply H5. }
    split_and!.
    + constructor; cbn [tables next_table_id]; rewrite ?fmap_app.
      * apply NoDup_app. split_and!; [done| |apply NoDup_singleton]. by intros x Hx ->%list_elem_of_singleton.
      * intros t [Ht| ->%list_elem_of_singleton]%elem_of_app; [apply H2 in Ht; lia|cbn; lia].
      * apply NoDup_app. split_and!; [done| |apply NoDup_singleton]. by intros x Hx ->%list_elem_of_singleton.
      * intros t [Ht| ->%list_elem_of_singleton]%elem_of_app; [by apply H4|]. by rewrite Hn0.
      * intros id Hi. apply elem_of_app. left. by apply H5.
    + cbn [tables]. apply elem_of_app. right. by apply list_elem_of_singleton.
    + done.
    + intros t [Ht| ->%list_elem_of_singleton]%elem_of_app; [right|by left]. apply Hne. by rewrite <- Et.
    + right. cbn [tables]. by rewrite Et.
    + intros a. cbn [ram_deltas]. rewrite Hb. unfold table_bytes. cbn [tables]. rewrite Et, paid_app, paid_cons.
      unfold charge. cbn [tab_payer tab paid foldr]. lia.
Qed.

Lemma add_count_spec n tobj delta s t :
  tables_wf n s -> t ∈ tables s -> tab_id t = tobj -> 0 <= n tobj + delta < 2 ^ 32 ->
  tables_wf (fun id => n id + if id =? tobj then delta else 0) (add_count tobj delta s) /\
  (forall t', t' ∈ tables (add_count tobj delta s) -> tab_id t' <> tobj -> t' ∈ tables s) /\
  (forall a, table_bytes a (add_count tobj delta s) = table_bytes a s) /\
  ram_deltas (add_count tobj delta s) = ram_deltas s /\ table_name <$> tables (add_count tobj delta s) = table_name <$> tables s /\
  tab_id <$> tables (add_count tobj delta s) = tab_id <$> tables s.
Proof.
  intros Hw Ht Eid Hb. destruct Hw as [H1 H2 H3 H4 H5]. unfold add_count. cbn [tables with_tables ram_deltas].
  set (f := fun t0 : table_id_object => _).
  assert (tab_id <$> (f <$> tables s) = tab_id <$> tables s) as Eids.
  { rewrite <- list_fmap_compose. apply list_fmap_ext. intros k x _. unfold f, compose. by destruct (_ =? _). }
  assert (table_name <$> (f <$> tables s) = table_name <$> tables s) as Enames.
  { rewrite <- list_fmap_compose. apply list_fmap_ext. intros k x _. unfold f, compose. by destruct (_ =? _). }
  split_and!; [|..|done|done|done].
  - constructor; cbn [tables next_table_id with_tables]; rewrite ?Eids, ?Enames; try done.
    + intros t' (x & -> & Hx)%list_elem_of_fmap. apply H2 in Hx. unfold f. by destruct (_ =? _).
    + intros t' (x & -> & Hx)%list_elem_of_fmap. unfold f. pose proof (H4 x Hx) as Hc.
      destruct (Z.eqb_spec (tab_id x) tobj) as [E|E]; cbn [tab_id tab_count].
      * rewrite Hc, E, Z.eqb_refl, u32_small; lia.
      * destruct (Z.eqb_spec (tab_id x) tobj); [done|]. lia.
    + intros x Hn. destruct (Z.eqb_spec x tobj) as [E|]; [|apply H5; lia]. apply list_elem_of_fmap. exists t. by rewrite E.
  - intros t' (x & -> & Hx)%list_elem_of_fmap. unfold f. destruct (Z.eqb_spec (tab_id x) tobj) as [E|E]; cbn; [done|done].
  - intros a. unfold table_bytes. cbn [tables with_tables]. clear -f. induction (tables s) as [|x l IH]; [done|].
    rewrite fmap_cons, !paid_cons, IH. unfold f. by destruct (tab_id x =? tobj).
Qed.

Lemma remove_table_spec n cx t s s' :
  tables_wf n s -> t ∈ tables s -> n (tab_id t) = 0 -> remove_table cx t s = Ok s' ->
  tables_wf n s' /\ (forall t', t' ∈ tables s' <-> t' ∈ tables s /\ t' <> t) /\
  (forall a, billed (ram_deltas s) (ram_deltas s') a = table_bytes a s' - table_bytes a s).
Proof.
  intros Hw Ht Hn E. unfold remove_table in E. apply bind_Ok in E as (s1 & E1 & E). inv_result.
  destruct (update_db_usage_Ok _ _ _ _ _ E1) as (Et & Ei & Hb). pose proof Hw as [H1 H2 H3 H4 H5].
  assert (forall t', t' ∈ filter (fun t'0 => tab_id t'0 <> tab_id t) (tables s1) <-> t' ∈ tables s /\ t' <> t) as Hin.
  { intros t'. rewrite list_elem_of_filter, Et. split.
    - intros [Hne Ht']. split; [done|]. by intros ->.
    - intros [Ht' Hne]. split; [|done]. intros E. apply Hne. by apply (fmap_NoDup_inj tab_id (tables s)). }
  assert (sublist (filter (fun t' => tab_id t' <> tab_id t) (tables s1)) (tables s)) as Hsub by (rewrite Et; apply sublist_filter).
  split_and!; [|done|].
  - constructor; cbn [tables with_tables next_table_id]; rewrite ?Ei.
    + eapply sublist_NoDup; [exact H1|]. by apply fmap_sublist.
    + intros t' [Ht' _]%Hin. by apply H2.
    + eapply sublist_NoDup; [exact H3|]. by apply fmap_sublist.
    + intros t' [Ht' _]%Hin. by apply H4.
    + intros id Hid. apply H5 in Hid as Hid'. apply list_elem_of_fmap in Hid' as (t' & -> & Ht'). apply list_elem_of_fmap.
      exists t'. split; [done|]. apply Hin. split; [done|]. intros ->. done.
  - intros a. cbn [ram_deltas with_tables]. rewrite Hb. unfold table_bytes. cbn [tables with_tables]. rewrite Et.
    rewrite (paid_remove tab_id) by done. unfold charge. destruct (_ =? _); lia.
Qed.

(** ** Lookups *)

Section Lookups.
Context {R : Type} `{Row R}.

Lemma deref_row_Ok (i : index_state R) obj r : index_ok i -> deref_row i obj = Ok r <-> r ∈ rows i /\ row_id r = obj.
Proof.
  intros Hi. unfold deref_row. split.
  - destruct (List.find _ _) as [r'|] eqn:E; [|done]. intros ->%Ok_inj. apply find_Some in E as [? ?%Z.eqb_eq]. done.
  - intros [Hr <-]. rewrite (find_unique row_id _ _ r); [done|apply Hi|intros y; apply Z.eqb_eq|done].
Qed.

Lemma index_row_Ok (i : index_state R) it r :
  index_ok i -> get_row i it = Ok r <-> cache_get (itr_cache i) it = Ok (row_id r) /\ r ∈ rows i.
Proof.
  intros Hi. unfold get_row. rewrite bind_Ok. split.
  - intros (obj & E & Hd). apply (deref_row_Ok i obj r Hi) in Hd as [Hr <-]. done.
  - intros [E Hr]. exists (row_id r). split; [done|]. by apply deref_row_Ok.
Qed.

(** Every iterator handed out leads to a row, unless it was removed. *)
Lemma cached_row (i : index_state R) it obj :
  index_ok i -> cache_get (itr_cache i) it = Ok obj ->
  exists r, get_row i it = Ok r /\ row_id r = obj /\ is_Some (table_cache (itr_cache i) !! row_t_id r).
Proof.
  intros Hi E. destruct (io_live i Hi it obj E) as (r & Hr & <- & Ht). exists r. split; [|done]. by apply index_row_Ok.
Qed.

Lemma get_row_known (i : index_state R) it r :
  index_ok i -> get_row i it = Ok r -> is_Some (table_cache (itr_cache i) !! row_t_id r).
Proof.
  intros Hi E. pose proof E as [Ec Hr]%index_row_Ok; [|done]. destruct (cached_row i it _ Hi Ec) as (r' & E' & _ & Ht). congruence.
Qed.

(** The cache has grown, the rows are the same. *)
Record grown (i i' : index_state R) : Prop := {
  gr_rows : rows i' = rows i;
  gr_next : next_row_id i' = next_row_id i;
  gr_ok : index_ok i';
  gr_get : forall it r, get_row i it = Ok r -> get_row i' it = Ok r;
  gr_end : forall t ei, end_iterator (itr_cache i) t ei -> end_iterator (itr_cache i') t ei
}.

Lemma grown_refl i : index_ok i -> grown i i.
Proof. by constructor. Qed.
Lemma grown_trans i1 i2 i3 : grown i1 i2 -> grown i2 i3 -> grown i1 i3.
Proof. intros [? ? ? ? ?] [? ? ? ? ?]. constructor; auto; congruence. Qed.

Lemma index_cache_table_spec (i : index_state R) t ei i' :
  index_ok i -> room_end (itr_cache i) -> index_cache_table t i = (ei, i') ->
  grown i i' /\ end_iterator (itr_cache i') t ei /\ is_Some (table_cache (itr_cache i') !! t) /\
  iterator_to_object (itr_cache i') = iterator_to_object (itr_cache i).
Proof.
  intros Hi Hr E. unfold index_cache_table in E. destruct (cache_table (itr_cache i) t) as [e c] eqn:Ec. injection E as <- <-.
  destruct (cache_table_spec _ _ _ _ (io_cache i Hi) Hr Ec) as (Hc & He & Eo & Ht & Hp).
  assert (forall it, cache_get c it = cache_get (itr_cache i) it) as Eg by (intros it; unfold cache_get; by rewrite Eo).
  split; [|split; [done|split; [apply Ht; by left|done]]]. constructor; try done.
  - destruct Hi. constructor; try done. cbn [itr_cache with_cache rows]. intros it obj. rewrite Eg. intros E.
    destruct (io_live0 it obj E) as (r & Hrw & <- & Hk). exists r. split_and!; [done|done|]. apply Ht. by right.
  - intros it r. unfold get_row. cbn [itr_cache with_cache]. by rewrite Eg.
  - intros t' ei' (n & En & ->). exists n. split; [|done]. by eapply prefix_lookup_Some.
Qed.

Lemma index_add_spec (i : index_state R) r it i' :
  index_ok i -> room_object (itr_cache i) -> r ∈ rows i -> is_Some (table_cache (itr_cache i) !! row_t_id r) ->
  index_add r i = (it, i') -> grown i i' /\ get_row i' it = Ok r.
Proof.
  intros Hi Hr Hin Hk E. unfold index_add in E. destruct (cache_add (itr_cache i) (row_id r)) as [n c] eqn:Ec. injection E as <- <-.
  destruct (cache_add_spec _ _ _ _ (io_cache i Hi) Hr Ec) as (Hc & Hg & Et & Ee & Ho).
  assert (index_ok (with_cache i c)) as Hi'.
  { destruct Hi. constructor; try done. cbn [itr_cache with_cache rows]. rewrite Et. intros it obj [H0 E]%cache_get_Ok.
    destruct Ho as [->|Ho]; [apply io_live0 with it; by apply cache_get_Ok|]. rewrite Ho in E.
    apply lookup_app_last in E as [E|[_ [= ->]]]; [apply io_live0 with it; by apply cache_get_Ok|eauto]. }
  split; [|by apply index_row_Ok]. constructor; try done.
  - intros it r' [E Hr']%index_row_Ok; [|done]. apply index_row_Ok; [done|]. split; [|done].
    exact (cache_add_keeps _ _ _ _ _ _ (io_cache i Hi) Hr Ec E).
  - intros t ei (k & Ek & ->). exists k. cbn [itr_cache with_cache]. by rewrite Ee.
Qed.

(** What a lookup returns, and what the index is then. *)
Lemma found_spec (i : index_state R) r otherwise it o i' :
  index_ok i -> room_object (itr_cache i) -> r ∈ rows i -> is_Some (table_cache (itr_cache i) !! row_t_id r) ->
  found (Some r) otherwise i = (it, o, i') -> grown i i' /\ get_row i' it = Ok r /\ o = Some r.
Proof.
  intros Hi Hr Hin Hk E. unfold found in E. destruct (index_add r i) as [n i1] eqn:Ea. injection E as <- <- <-.
  destruct (index_add_spec _ _ _ _ Hi Hr Hin Hk Ea) as [Hg E]. done.
Qed.

Lemma lookup_in_spec s code scope table search (i : index_state R) it o i' :
  index_ok i -> room_object (itr_cache i) -> room_end (itr_cache i) ->
  (forall t r, search t (rows i) = Some r -> r ∈ rows i) ->
  lookup_in s code scope table search i = (it, o, i') ->
  grown i i' /\
  match find_table s code scope table with
  | None => it = -1 /\ o = None
  | Some tab =>
      match search (tab_id tab) (rows i) with
      | Some r => if row_t_id r =? tab_id tab then get_row i' it = Ok r /\ o = Some r
                  else end_iterator (itr_cache i') (tab_id tab) it /\ o = None
      | None => end_iterator (itr_cache i') (tab_id tab) it /\ o = None
      end
  end.
Proof.
  intros Hi Ho He Hs E. unfold lookup_in in E. destruct (find_table s code scope table) as [tab|]; [|].
  - destruct (index_cache_table (tab_id tab) i) as [ei i1] eqn:Ec.
    destruct (index_cache_table_spec _ _ _ _ Hi He Ec) as (Hg & Hei & Hk & Eo). rewrite (gr_rows _ _ Hg) in E.
    destruct (search (tab_id tab) (rows i)) as [r|] eqn:Es; [|by injection E as <- <- <-].
    destruct (Z.eqb_spec (row_t_id r) (tab_id tab)) as [Et|Et]; cbn [negb] in E; [|by injection E as <- <- <-].
    eapply found_spec in E as (Hg' & Er & ->); [| apply Hg|unfold room_object; by rewrite Eo| |by rewrite Et].
    + split; [by eapply grown_trans|done].
    + rewrite (gr_rows _ _ Hg). by eapply Hs.
  - injection E as <- <- <-. split; [by apply grown_refl|done].
Qed.

Lemma lookup_end_spec s code scope table (i : index_state R) it i' :
  index_ok i -> room_end (itr_cache i) -> lookup_end s code scope table i = (it, i') ->
  grown i i' /\
  match find_table s code scope table with None => it = -1 | Some tab => end_iterator (itr_cache i') (tab_id tab) it end.
Proof.
  intros Hi He E. unfold lookup_end in E. destruct (find_table s code scope table) as [tab|].
  - by destruct (index_cache_table_spec _ _ _ _ Hi He E) as (Hg & Hei & _).
  - injection E as <- <-. split; [by apply grown_refl|done].
Qed.

Lemma cached_end (i : index_state R) t :
  index_ok i -> is_Some (table_cache (itr_cache i) !! t) ->
  exists ei, get_end_iterator_by_table_id (itr_cache i) t = Ok ei /\ end_iterator (itr_cache i) t ei.
Proof.
  intros Hi [[p ei] E]. exists ei. unfold get_end_iterator_by_table_id. rewrite E. split; [done|].
  by apply (cw_tables _ (io_cache i Hi)) in E as [_ ?].
Qed.

Lemma end_iterator_table (i : index_state R) t ei :
  index_ok i -> end_iterator (itr_cache i) t ei -> - 2 ^ 31 < ei ->
  ei < -1 /\ find_table_by_end_iterator (itr_cache i) ei = Ok (Some t).
Proof.
  intros Hi (n & En & ->) Hb. split; [lia|]. unfold find_table_by_end_iterator, end_iterator_to_index.
  step_assert. replace (- (Z.of_nat n + 2) =? - 2 ^ 31) with false by lia. rewrite ret_bind.
  pose proof (lookup_lt_Some _ _ _ En). rewrite u64_small by lia.
  replace (- - (Z.of_nat n + 2) - 2) with (Z.of_nat n) by lia. replace (vsize (end_iterator_to_table (itr_cache i)) <=? Z.of_nat n) with false by (unfold vsize; lia).
  unfold at_index. replace (0 <=? Z.of_nat n) with true by lia. rewrite Nat2Z.id, En. done.
Qed.

(** [r] is the row that follows, or precedes, [obj] in its table. *)
Definition row_after (lt : R -> R -> bool) (l : list R) (obj r : R) : Prop :=
  r ∈ l /\ row_t_id r = row_t_id obj /\ lt obj r = true /\
  (forall r', r' ∈ l -> row_t_id r' = row_t_id obj -> lt obj r' = true -> r' = r \/ lt r r' = true).
Definition row_before (lt : R -> R -> bool) (l : list R) (obj r : R) : Prop := row_after (fun a b => lt b a) l obj r.
Definition last_of (lt : R -> R -> bool) (l : list R) (t : Z) (r : R) : Prop :=
  r ∈ l /\ row_t_id r = t /\ (forall r', r' ∈ l -> row_t_id r' = t -> r' = r \/ lt r' r = true).

Lemma next_in_spec lt (i : index_state R) it obj :
  row_order lt -> table_order lt -> index_ok i -> room_object (itr_cache i) -> get_row i it = Ok obj ->
  exists it' o i', next_in lt it i = Ok (it', o, i') /\ grown i i' /\
    ((exists r, o = Some r /\ row_after lt (rows i) obj r /\ get_row i' it' = Ok r) \/
     (o = None /\ (forall r, r ∈ rows i -> row_t_id r = row_t_id obj -> lt obj r = false) /\
      end_iterator (itr_cache i') (row_t_id obj) it')).
Proof.
  intros Hlt Htab Hi Hr Hg. pose proof Hg as [[H0 _]%cache_get_Ok Hin]%index_row_Ok; [|done].
  pose proof (get_row_known i it obj Hi Hg) as Hk. destruct (cached_end i _ Hi Hk) as (ei & Ee & Hei).
  unfold next_in. replace (it <? -1) with false by lia. rewrite Hg, ret_bind.
  destruct (first_row lt (lt obj) (rows i)) as [r|] eqn:Ef.
  - apply first_row_Some in Ef as (Hrin & Hor & Hmin); [|done|apply Hi].
    destruct (Z.eqb_spec (row_t_id r) (row_t_id obj)) as [Et|Et]; cbn [negb].
    + destruct (found (Some r) (-1) i) as [[it' o] i'] eqn:Efd. exists it', o, i'. split; [done|].
      eapply found_spec in Efd as (Hgr & Er & ->); [|done..|by rewrite Et]. split; [done|]. left. exists r. split; [done|]. split; [|done].
      split_and!; [done..|]. intros r' Hr' _ Hlt'. by apply Hmin.
    + rewrite Ee, ret_bind. exists ei, None, i. split; [done|]. split; [by apply grown_refl|]. right. split_and!; [done| |done].
      intros r' Hr' Et'. destruct (lt obj r') eqn:El; [|done]. exfalso. apply Htab in Hor.
      destruct (Hmin r' Hr' El) as [->|Hlt'%Htab]; lia.
  - rewrite Ee, ret_bind. exists ei, None, i. split; [done|]. split; [by apply grown_refl|]. right. split_and!; [done| |done].
    intros r' Hr' _. rewrite first_row_None in Ef. by apply Ef.
Qed.

Lemma previous_in_row_spec lt s (i : index_state R) it obj :
  row_order lt -> table_order lt -> index_ok i -> room_object (itr_cache i) -> get_row i it = Ok obj ->
  exists it' o i', previous_in lt s it i = Ok (it', o, i') /\ grown i i' /\
    ((exists r, o = Some r /\ row_before lt (rows i) obj r /\ get_row i' it' = Ok r) \/
     (o = None /\ it' = -1 /\ forall r, r ∈ rows i -> row_t_id r = row_t_id obj -> lt r obj = false)).
Proof.
  intros Hlt Htab Hi Hr Hg. pose proof Hg as [[H0 _]%cache_get_Ok Hin]%index_row_Ok; [|done].
  pose proof (get_row_known i it obj Hi Hg) as Hk. unfold previous_in. replace (it <? -1) with false by lia. rewrite Hg, ret_bind.
  destruct (last_row lt (fun r => lt r obj) (rows i)) as [r|] eqn:Ef; unfold last_row in Ef.
  - apply first_row_Some in Ef as (Hrin & Hor & Hmin); [|by apply row_order_flip|apply Hi].
    destruct (Z.eqb_spec (row_t_id r) (row_t_id obj)) as [Et|Et]; cbn [negb].
    + destruct (found (Some r) (-1) i) as [[it' o] i'] eqn:Efd. exists it', o, i'. split; [done|].
      eapply found_spec in Efd as (Hgr & Er & ->); [|done..|by rewrite Et]. split; [done|]. left. exists r. split; [done|]. split; [|done].
      split_and!; [done..|]. intros r' Hr' _ Hlt'. by apply Hmin.
    + exists (-1), None, i. split; [done|]. split; [by apply grown_refl|]. right. split_and!; [done..|].
      intros r' Hr' Et'. destruct (lt r' obj) eqn:El; [|done]. exfalso. apply Htab in Hor.
      destruct (Hmin r' Hr' El) as [->|Hlt'%Htab]; lia.
  - exists (-1), None, i. split; [done|]. split; [by apply grown_refl|]. right. split_and!; [done..|].
    intros r' Hr' _. rewrite first_row_None in Ef. by apply (Ef r').
Qed.

Lemma previous_in_end_spec lt s (i : index_state R) ei tab n :
  row_order lt -> table_order lt -> index_ok i -> room_object (itr_cache i) -> tables_wf n s -> tab ∈ tables s ->
  end_iterator (itr_cache i) (tab_id tab) ei -> - 2 ^ 31 < ei ->
  exists it' o i', previous_in lt s ei i = Ok (it', o, i') /\ grown i i' /\
    ((exists r, o = Some r /\ last_of lt (rows i) (tab_id tab) r /\ get_row i' it' = Ok r) \/
     (o = None /\ it' = -1 /\ forall r, r ∈ rows i -> row_t_id r <> tab_id tab)).
Proof.
  intros Hlt Htab Hi Hr Hw Ht He Hb. destruct (end_iterator_table i _ _ Hi He Hb) as [Hneg Hf].
  unfold previous_in. replace (ei <? -1) with true by lia. rewrite Hf, ret_bind.
  rewrite (proj2 (deref_table_Ok n s (tab_id tab) tab Hw)) by done. rewrite ret_bind.
  destruct (last_row lt _ (rows i)) as [r|] eqn:Ef; unfold last_row in Ef.
  - apply first_row_Some in Ef as (Hrin & Hor & Hmin); [|by apply row_order_flip|apply Hi].
    destruct (Z.eqb_spec (row_t_id r) (tab_id tab)) as [Et|Et]; cbn [negb].
    + destruct (found (Some r) (-1) i) as [[it' o] i'] eqn:Efd. exists it', o, i'. split; [done|].
      eapply found_spec in Efd as (Hgr & Er & ->); [|done..|].
      * split; [done|]. left. exists r. split; [done|]. split; [|done]. split_and!; [done..|].
        intros r' Hr' Et'. apply Hmin; [done|lia].
      * rewrite Et. eexists. apply (cw_tables _ (io_cache i Hi)). split; [done|exact He].
    + exists (-1), None, i. split; [done|]. split; [by apply grown_refl|]. right. split_and!; [done..|].
      intros r' Hr' Et'. destruct (Hmin r' Hr') as [->|Hlt'%Htab]; lia.
  - exists (-1), None, i. split; [done|]. split; [by apply grown_refl|]. right. split_and!; [done..|].
    intros r' Hr' Et'. rewrite first_row_None in Ef. apply Ef in Hr'. lia.
Qed.

End Lookups.
