(* ===== verification/TableOps.v ===== *)
(** What the operations on contract tables do: changes of the primary index are
    those of a map from table names and keys to values, and its lookups find the
    least or the greatest key; changes of secondary indices add, replace and
    remove rows, and their lookups find the first row in their order.  Each keeps
    the counts of the tables and bills the RAM of what it stores. *)
From Stdlib Require Import ZArith Lia ZifyBool Sorted.
From stdpp Require Import base tactics numbers list gmap.
From S2P Require Import Prelude ResourceLimits Authority PermissionActions PermissionRuns ContractTables TableIndex.
#[local] Open Scope Z_scope.

(** ** Changes *)

Section Changes.
Context {R : Type} `{Row R}.
(** What a row costs. *)
Variable bill : R -> Z.

Definition index_bytes (a : Z) (i : index_state R) : Z := paid row_payer bill a (rows i).

(** The index after [create]: the new row is last. *)
Lemma create_row_spec mk (i : index_state R) r i' :
  (forall n, row_id (mk n) = n) -> index_ok i -> create_row mk i = Ok (r, i') ->
  r = mk (next_row_id i) /\ rows i' = rows i ++ [r] /\ itr_cache i' = itr_cache i /\ index_ok i' /\
  (forall r', r' ∈ rows i -> row_key r' <> row_key r).
Proof.
  intros Hmk Hi E. unfold create_row in E. destruct (find_row_key _ _ _) as [|] eqn:Ef; [done|]. inv_result. injection E as <- <-.
  set (r := mk (next_row_id i)) in *. assert (forall r', r' ∈ rows i -> row_key r' <> row_key r) as Hk.
  { intros r' Hr' [= E1 E2]. apply (find_None _ _ _ Ef) in Hr'. unfold same_key in Hr'. lia. }
  destruct Hi. split_and!; [done..| |done]. constructor; cbn [rows next_row_id itr_cache]; rewrite ?fmap_app; try done.
  - apply NoDup_app. split_and!; [done| |apply NoDup_singleton]. intros x Hx ->%list_elem_of_singleton.
    apply list_elem_of_fmap in Hx as (r' & E & Hr'). apply io_below in Hr'. unfold r in E. rewrite Hmk in E. lia.
  - intros r' [Hr'| ->%list_elem_of_singleton]%elem_of_app; [apply io_below in Hr'; lia|]. unfold r. rewrite Hmk. lia.
  - apply NoDup_app. split_and!; [done| |apply NoDup_singleton]. intros x Hx ->%list_elem_of_singleton.
    apply list_elem_of_fmap in Hx as (r' & E & Hr'). by apply (Hk r').
  - intros it obj E. destruct (io_live it obj E) as (r' & Hr' & ? & ?). exists r'. split; [|done]. apply elem_of_app. by left.
Qed.

(** [store]: the row is there, the iterator leads to it, the others keep
    theirs. *)
Lemma store_row_spec cx tab mk b (s : tables_state) (i : index_state R) it s' i' (other : Z -> Z) :
  (forall n, row_id (mk n) = n /\ row_t_id (mk n) = tab_id tab /\ bill (mk n) = b) ->
  (forall t, 0 <= other t) -> tables_wf (fun t => other t + rows_in t i) s -> tab ∈ tables s ->
  (forall t, t ∈ tables s -> t = tab \/ 0 < tab_count t) -> index_ok i ->
  room_object (itr_cache i) -> room_end (itr_cache i) -> other (tab_id tab) + rows_in (tab_id tab) i + 1 < 2 ^ 32 ->
  store_row cx tab mk b s i = Ok (it, s', i') ->
  tables_wf (fun t => other t + rows_in t i') s' /\ no_empty_table s' /\ index_ok i' /\
  (forall a, billed (ram_deltas s) (ram_deltas s') a =
     (table_bytes a s' + index_bytes a i') - (table_bytes a s + index_bytes a i)) /\
  tab_id <$> tables s' = tab_id <$> tables s /\ table_name <$> tables s' = table_name <$> tables s /\
  exists r, r = mk (next_row_id i) /\ rows i' = rows i ++ [r] /\ get_row i' it = Ok r /\
    (forall r', r' ∈ rows i -> row_key r' <> row_key r) /\
    (forall it' r', get_row i it' = Ok r' -> get_row i' it' = Ok r') /\
    (forall t ei, end_iterator (itr_cache i) t ei -> end_iterator (itr_cache i') t ei).
Proof.
  intros Hmk Ho Hw Ht Hne Hi Hr1 Hr2 Hcount E. unfold store_row in E.
  apply bind_Ok in E as ([r i1] & Ec & E). apply bind_Ok in E as (s1 & Eu & E).
  destruct (create_row_spec mk i r i1) as (Er & Erows & Ecache & Hi1 & Hk); [apply Hmk|done|done|].
  pose proof (Hmk (next_row_id i)) as (Hid & Htid & Hb). rewrite <- Er in Hid, Htid, Hb.
  destruct (index_cache_table (tab_id tab) i1) as [ei i2] eqn:Et.
  eapply index_cache_table_spec in Et as (Hg2 & _ & Hk2 & Eo2); [|done|by rewrite Ecache].
  destruct (index_add r i2) as [it2 i3] eqn:Ea. apply Ok_inj in E. injection E as <- <- <-.
  assert (r ∈ rows i2) as Hr2in by (rewrite (gr_rows _ _ Hg2), Erows; apply elem_of_app; right; by apply list_elem_of_singleton).
  eapply index_add_spec in Ea as [Hg3 Hget]; [|apply Hg2|unfold room_object; by rewrite Eo2, Ecache|done|by rewrite Htid].
  pose proof (grown_trans _ _ _ Hg2 Hg3) as Hg. assert (rows i3 = rows i ++ [r]) as Erows3 by by rewrite (gr_rows _ _ Hg).
  assert (0 <= rows_in (tab_id tab) i) as Hn0 by (by apply paid_nonneg).
  destruct (add_count_spec _ (tab_id tab) 1 s tab Hw Ht eq_refl) as (Hw1 & Hold & Hbytes & Hram & Hnames & Hids); [specialize (Ho (tab_id tab)); lia|].
  destruct (update_db_usage_Ok _ _ _ _ _ Eu) as (Etab & Enext & Hbill).
  assert (forall t, rows_in t i3 = rows_in t i + if t =? tab_id tab then 1 else 0) as Hrows.
  { intros t. unfold rows_in. rewrite Erows3, paid_app, paid_cons. cbn [paid foldr]. rewrite Htid, (Z.eqb_sym t). lia. }
  split_and!.
  - eapply tables_wf_same; [exact Etab|exact Enext|]. eapply tables_wf_ext; [|exact Hw1]. intros t. cbn. rewrite Hrows. lia.
  - intros t. rewrite Etab. intros Ht'. destruct (decide (tab_id t = tab_id tab)) as [Eid|Hne'].
    + rewrite (tw_count _ _ Hw1) by done. rewrite Eid, Z.eqb_refl. specialize (Ho (tab_id tab)). lia.
    + destruct (Hne t (Hold t Ht' Hne')) as [->|?]; done.
  - apply Hg.
  - intros a. rewrite <- Hram, Hbill. rewrite <- (Hbytes a). unfold table_bytes. rewrite Etab. unfold index_bytes.
    rewrite Erows3, paid_app, paid_cons, Hb. cbn [paid foldr]. unfold charge. lia.
  - by rewrite Etab.
  - by rewrite Etab.
  - exists r. split_and!; [done..| |].
    + intros it' r' Hr'. apply (gr_get _ _ Hg). apply index_row_Ok in Hr' as [Hc Hin]; [|done]. apply index_row_Ok; [done|].
      rewrite Ecache, Erows. split; [done|]. apply elem_of_app. by left.
    + intros t e He. apply (gr_end _ _ Hg). by rewrite Ecache.
Qed.

(** [modify] of a row, with the same keys. *)
Lemma modify_row_spec (i : index_state R) obj r :
  index_ok i -> obj ∈ rows i -> row_id r = row_id obj -> row_key r = row_key obj ->
  index_ok (modify_row r i) /\ (forall t, rows_in t (modify_row r i) = rows_in t i) /\
  (forall a, index_bytes a (modify_row r i) = index_bytes a i - charge (row_payer obj) (bill obj) a + charge (row_payer r) (bill r) a) /\
  (forall x, x ∈ rows (modify_row r i) <-> x = r \/ (x ∈ rows i /\ x <> obj)) /\
  (forall it x, get_row i it = Ok x -> get_row (modify_row r i) it = Ok (if row_id x =? row_id r then r else x)).
Proof.
  intros Hi Hin Hid Hkey. assert (forall x, x ∈ rows i -> row_id x = row_id r -> x = obj) as Huniq.
  { intros x Hx E. apply (fmap_NoDup_inj row_id (rows i)); [apply Hi|done..|congruence]. }
  assert (forall {B} (f : R -> B), f r = f obj -> f <$> rows (modify_row r i) = f <$> rows i) as Hf.
  { intros B f Ef. cbn. rewrite <- list_fmap_compose. apply list_fmap_ext. intros k x Hx. cbn.
    destruct (Z.eqb_spec (row_id x) (row_id r)) as [E|]; [|done]. apply list_elem_of_lookup_2 in Hx.
    rewrite (Huniq x Hx E). done. }
  assert (forall x, x ∈ rows (modify_row r i) <-> x = r \/ (x ∈ rows i /\ x <> obj)) as Hrows.
  { intros x. cbn. rewrite list_elem_of_fmap. split.
    - intros (y & -> & Hy). destruct (Z.eqb_spec (row_id y) (row_id r)); [by left|right]. split; [done|]. intros ->. congruence.
    - intros [->|[Hx Hne]]; [exists obj|exists x]; (split; [|done]).
      + by rewrite Hid, Z.eqb_refl.
      + destruct (Z.eqb_spec (row_id x) (row_id r)) as [E|]; [|done]. by destruct Hne; apply Huniq. }
  assert (index_ok (modify_row r i)) as Hi'.
  { pose proof Hi as [Hids Hbelow Hkeys Hcache Hlive]. constructor; cbn [itr_cache modify_row next_row_id]; try done.
    - by rewrite Hf.
    - intros x [->|[Hx _]]%Hrows; [rewrite Hid|]; by apply Hbelow.
    - by rewrite Hf.
    - intros it o E. destruct (Hlive it o E) as (x & Hx & <- & Hk). destruct (decide (row_id x = row_id r)) as [Ex|Hne].
      + exists r. split; [apply Hrows; by left|]. split; [done|]. injection Hkey as -> _. by rewrite <- (Huniq x Hx Ex).
      + exists x. split; [apply Hrows; right|done]. split; [done|]. congruence. }
  split_and!; [done| | |done|].
  - intros t. unfold rows_in. cbn [rows modify_row remove_row]. rewrite (paid_replace row_id) with (x := obj); [|apply Hi|done|done]. injection Hkey as -> _. lia.
  - intros a. unfold index_bytes. cbn [rows modify_row remove_row]. rewrite (paid_replace row_id) with (x := obj); [|apply Hi|done|done]. unfold charge. lia.
  - intros it x [Hc Hx]%index_row_Ok; [|done]. apply index_row_Ok; [done|]. cbn [itr_cache modify_row].
    destruct (Z.eqb_spec (row_id x) (row_id r)) as [E|E].
    + rewrite <- E. split; [done|]. apply Hrows. by left.
    + split; [done|]. apply Hrows. right. split; [done|]. congruence.
Qed.

(** The table of a row that an iterator leads to. *)
Lemma get_table_Ok (i : index_state R) it obj tobj :
  index_ok i -> get_row i it = Ok obj -> get_table (itr_cache i) (row_t_id obj) = Ok tobj -> tobj = row_t_id obj.
Proof.
  intros Hi Hg E. unfold get_table in E. destruct (table_cache _ !! _) as [[p ei]|] eqn:Ec; [|done]. inv_result.
  by apply (cw_tables _ (io_cache i Hi)) in Ec as [-> _].
Qed.

(** [remove] of a row and of its iterator. *)
Lemma remove_row_spec (i : index_state R) it obj :
  index_ok i -> get_row i it = Ok obj ->
  exists c, cache_remove (itr_cache i) it = Ok c /\ index_ok (with_cache (remove_row obj i) c) /\
    (forall t, rows_in t (remove_row obj i) = rows_in t i - if t =? row_t_id obj then 1 else 0) /\
    (forall a, index_bytes a (remove_row obj i) = index_bytes a i - charge (row_payer obj) (bill obj) a) /\
    (forall r, r ∈ rows (remove_row obj i) <-> r ∈ rows i /\ r <> obj) /\
    (forall it' r, get_row (with_cache (remove_row obj i) c) it' = Ok r <-> it' <> it /\ get_row i it' = Ok r) /\
    (forall t ei, end_iterator (itr_cache i) t ei <-> end_iterator c t ei).
Proof.
  intros Hi Hg. pose proof Hg as [Hcg Hobj]%index_row_Ok; [|done].
  destruct (cache_remove_spec _ _ _ (io_cache i Hi) Hcg) as (c & Ec & Hcw & Etc & Eend & _ & Hget). exists c.
  assert (forall r, r ∈ rows (remove_row obj i) <-> r ∈ rows i /\ r <> obj) as Hin.
  { intros r. cbn. rewrite list_elem_of_filter. split.
    - intros [Hn Hr]. split; [done|]. by intros ->.
    - intros [Hr Hn]. split; [|done]. intros E. apply Hn. by apply (fmap_NoDup_inj row_id (rows i)); [apply Hi|..]. }
  assert (index_ok (with_cache (remove_row obj i) c)) as Hi'.
  { pose proof Hi as [Hids' Hbelow Hkeys Hcache Hlive]. constructor; cbn [itr_cache with_cache rows next_row_id].
    - eapply sublist_NoDup; [exact Hids'|]. apply fmap_sublist, sublist_filter.
    - intros r [Hr _]%Hin. by apply Hbelow.
    - eapply sublist_NoDup; [exact Hkeys|]. apply fmap_sublist, sublist_filter.
    - done.
    - intros it' o [Hne' Ho']%Hget. destruct (Hlive it' o Ho') as (r & Hr & <- & Hk). exists r. rewrite Etc. split; [|done].
      apply Hin. split; [done|]. intros ->. apply Hne'. by apply (cache_get_inj _ _ _ _ Hcache Ho' Hcg). }
  split_and!; try done.
  - intros t. unfold rows_in. cbn [rows remove_row]. rewrite (paid_remove row_id); [|apply Hi|done]. rewrite (Z.eqb_sym t). lia.
  - intros a. unfold index_bytes. cbn [rows remove_row]. rewrite (paid_remove row_id); [|apply Hi|done]. done.
  - intros it' r. rewrite index_row_Ok by done. rewrite (index_row_Ok i) by done. cbn [itr_cache with_cache]. rewrite Hget.
    change (rows (with_cache (remove_row obj i) c)) with (rows (remove_row obj i)). rewrite Hin.
    split; [naive_solver|]. intros (Hne' & Ho' & Hr). split_and!; [done..|]. intros ->. apply Hne'.
    by apply (cache_get_inj _ _ _ _ (io_cache i Hi) Ho' Hcg).
  - intros t ei. unfold end_iterator. by rewrite Eend.
Qed.

(** There is a table with that name and id. *)
Definition known_table (s : tables_state) (name : Z * Z * Z) (t : Z) : Prop :=
  exists tab, tab ∈ tables s /\ table_name tab = name /\ tab_id tab = t.

Lemma known_table_same s s' name t :
  table_name <$> tables s' = table_name <$> tables s -> tab_id <$> tables s' = tab_id <$> tables s ->
  known_table s' name t <-> known_table s name t.
Proof.
  assert (forall s, known_table s name t <-> (name, t) ∈ zip (table_name <$> tables s) (tab_id <$> tables s)) as Hz.
  { intros s0. rewrite zip_with_fmap_l, zip_with_fmap_r, zip_with_diag, list_elem_of_fmap.
    split; [intros (tab & Ht & <- & <-)|intros (tab & [= -> ->] & Ht)]; by exists tab. }
  intros En Ei. by rewrite !Hz, En, Ei.
Qed.

(** The table of a removed row goes when it is empty. *)
Lemma drop_empty_spec n cx tab s s' :
  tables_wf n s -> tab ∈ tables s -> (forall t, 0 <= n t) -> (forall t, t ∈ tables s -> t = tab \/ 0 < tab_count t) ->
  (if tab_count tab =? 0 then remove_table cx tab s else mret s) = Ok s' ->
  tables_wf n s' /\ no_empty_table s' /\
  (forall a, billed (ram_deltas s) (ram_deltas s') a = table_bytes a s' - table_bytes a s) /\
  (forall name t, known_table s' name t <-> known_table s name t /\ n t <> 0).
Proof.
  intros Hw Ht Hn Hne E. pose proof (tw_count _ _ Hw tab Ht) as Hc.
  destruct (Z.eqb_spec (tab_count tab) 0) as [E0|E0].
  - eapply remove_table_spec in E as (Hw' & Hin & Hb); [|exact Hw|done|lia]. split_and!; [done| |done|].
    + intros t [Ht' Hn']%Hin. by destruct (Hne t Ht').
    + intros name t. split.
      * intros (t' & [Ht' Hne']%Hin & <- & <-). split; [by exists t'|]. destruct (Hne t' Ht') as [->|Hp]; [done|].
        rewrite <- (tw_count _ _ Hw) by done. lia.
      * intros [(t' & Ht' & <- & <-) Hn']. exists t'. split; [|done]. apply Hin. split; [done|]. intros ->. congruence.
  - apply Ok_inj in E as <-. split_and!; [done| |intros a; unfold billed; lia|].
    + intros t Ht'. destruct (Hne t Ht') as [->|]; [|done]. specialize (Hn (tab_id tab)). lia.
    + intros name t. split; [|tauto]. intros Hk. split; [done|]. destruct Hk as (t' & Ht' & _ & <-).
      rewrite <- (tw_count _ _ Hw) by done. destruct (Hne t' Ht') as [->|?]; lia.
Qed.

(** [remove]: the row is gone, with its table when it was the last one. *)
Lemma remove_iterator_spec cx delta it (s : tables_state) (i : index_state R) s' i' (other : Z -> Z) :
  (forall r, r ∈ rows i -> delta r = - bill r) -> (forall t, 0 <= other t) ->
  tables_wf (fun t => other t + rows_in t i) s -> no_empty_table s -> index_ok i ->
  (forall t, other t + rows_in t i < 2 ^ 32) ->
  remove_iterator cx delta it s i = Ok (s', i') ->
  tables_wf (fun t => other t + rows_in t i') s' /\ no_empty_table s' /\ index_ok i' /\
  (forall a, billed (ram_deltas s) (ram_deltas s') a =
     (table_bytes a s' + index_bytes a i') - (table_bytes a s + index_bytes a i)) /\
  exists obj tab, get_row i it = Ok obj /\ tab ∈ tables s /\ tab_id tab = row_t_id obj /\ tab_code tab = receiver cx /\
    (forall r, r ∈ rows i' <-> r ∈ rows i /\ r <> obj) /\
    (forall it' r, get_row i' it' = Ok r <-> it' <> it /\ get_row i it' = Ok r) /\
    (forall t ei, end_iterator (itr_cache i) t ei <-> end_iterator (itr_cache i') t ei) /\
    (forall name t, known_table s' name t <-> known_table s name t /\ other t + rows_in t i' <> 0) /\
    (forall t, rows_in t i' <= rows_in t i).
Proof.
  intros Hdelta Ho Hw Hne Hi Hbound E. unfold remove_iterator in E.
  apply bind_Ok in E as (? & _ & E). apply bind_Ok in E as (obj & Hg & E). apply bind_Ok in E as (tobj & Etab & E).
  apply bind_Ok in E as (tab & Ed & E). apply bind_Ok in E as (? & Ecode & E). apply bind_Ok in E as (s1 & Eu & E).
  apply bind_Ok in E as (tab2 & Ed2 & E). apply bind_Ok in E as (s2 & Er & E). apply bind_Ok in E as (c & Ec & E).
  apply Ok_inj in E. injection E as <- <-. apply EOS_ASSERT_Ok in Ecode.
  apply (get_table_Ok i it) in Etab as ->; [|done..]. apply (deref_table_Ok _ _ _ _ Hw) in Ed as [Htab Hid].
  destruct (remove_row_spec i it obj Hi Hg) as (c' & Ec' & Hi' & Hrows & Hib & Hin & Hgr & Hends).
  cbn [remove_row itr_cache] in Ec. rewrite Ec' in Ec. apply Ok_inj in Ec as ->.
  pose proof Hg as [_ Hobj]%index_row_Ok; [|done]. pose proof (rows_in_pos i obj Hobj) as Hpos.
  destruct (update_db_usage_Ok _ _ _ _ _ Eu) as (Et1 & En1 & Hb1). pose proof (tables_wf_same _ _ _ Et1 En1 Hw) as Hw1.
  destruct (add_count_spec _ (tab_id tab) (-1) s1 tab Hw1) as (Hw2 & Hold & Hbytes & Hram & Hnames & Hids); [by rewrite Et1|done| |].
  { rewrite Hid. specialize (Ho (row_t_id obj)). specialize (Hbound (row_t_id obj)). lia. }
  set (sc := add_count (tab_id tab) (-1) s1) in *. apply (deref_table_Ok _ _ _ _ Hw2) in Ed2 as [Htab2 Hid2].
  assert (forall t, 0 <= other t + rows_in t (remove_row obj i)) as Hpos'.
  { intros t. specialize (Ho t). assert (0 <= rows_in t (remove_row obj i)) by (by apply paid_nonneg). lia. }
  eapply drop_empty_spec in Er as (Hw4 & Hne4 & Hb4 & Hkn); [| |exact Htab2|exact Hpos'|].
  - split_and!; [exact Hw4|done|done| |].
    + intros a. rewrite (billed_trans _ (ram_deltas sc)), Hb4. rewrite Hram, Hb1, (Hbytes a).
      change (index_bytes a (with_cache (remove_row obj i) c)) with (index_bytes a (remove_row obj i)).
      assert (table_bytes a s1 = table_bytes a s) as -> by (unfold table_bytes; by rewrite Et1).
      rewrite Hib, Hdelta by done. unfold charge. clear. destruct (row_payer obj =? a); ring.
    + exists obj, tab. split_and!; try done; [lia| |].
      * intros name t. rewrite Hkn. rewrite (known_table_same sc s) by (by rewrite ?Hnames, ?Hids, Et1). done.
      * intros t. change (rows_in t (with_cache (remove_row obj i) c)) with (rows_in t (remove_row obj i)). rewrite Hrows. destruct (t =? _); lia.
  - eapply tables_wf_ext; [|exact Hw2]. intros t. change (rows_in t (with_cache (remove_row obj i) c)) with (rows_in t (remove_row obj i)). rewrite Hrows, Hid. destruct (t =? _); lia.
  - intros t Ht. destruct (decide (tab_id t = tab_id tab)) as [E|Hn].
    + left. apply (fmap_NoDup_inj tab_id (tables sc)); [apply Hw2|done..|congruence].
    + right. apply Hne. rewrite <- Et1. by apply Hold.
Qed.
End Changes.

(** ** The operations of the primary index *)

Definition kv_bill (r : key_value_object) : Z := vsize (kv_value r) + key_value_size.

(** Values are buffers of WebAssembly memory. *)
Definition kv_sizes (kv : kv_index) : Prop := forall r, r ∈ rows kv -> vsize (kv_value r) < 2 ^ 32.

Lemma kv_size_exact (l : list Z) : vsize l < 2 ^ 32 -> i64 (u64 (vsize l + key_value_size)) = vsize l + key_value_size.
Proof.
  intros Hl. assert (0 <= vsize l) by (unfold vsize; lia). replace key_value_size with 112 by (vm_compute; reflexivity).
  rewrite u64_small by lia. unfold i64. rewrite Z.mod_small; lia.
Qed.

Lemma kv_delta_exact r : vsize (kv_value r) < 2 ^ 32 -> i64 (u64 (- u64 (vsize (kv_value r) + key_value_size))) = - kv_bill r.
Proof.
  intros Hl. unfold kv_bill. assert (0 <= vsize (kv_value r)) by (unfold vsize; lia).
  replace key_value_size with 112 by (vm_compute; reflexivity). rewrite (u64_small (vsize _ + 112)) by lia.
  assert (u64 (- (vsize (kv_value r) + 112)) = 2 ^ 64 - (vsize (kv_value r) + 112)) as ->.
  { unfold u64. symmetry. apply Z.mod_unique with (-1); lia. }
  unfold i64. rewrite <- (Z.mod_unique _ _ 1 (2 ^ 63 - (vsize (kv_value r) + 112))) by lia. lia.
Qed.

(** The map that the tables and the primary index represent: from the name of a
    table and a key to the payer and the value. *)
Definition db_map (s : tables_state) (kv : kv_index) (name : Z * Z * Z) (k : Z) : option (Z * list Z) :=
  match find_table s name.1.1 name.1.2 name.2 with
  | None => None
  | Some tab => (fun r => (kv_payer r, kv_value r)) <$> find_row_key kv (tab_id tab) k
  end.

Lemma find_row_key_Some {R} `{Row R} (i : index_state R) t k r :
  index_ok i -> find_row_key i t k = Some r <-> r ∈ rows i /\ row_key r = (t, k).
Proof.
  intros Hi. unfold find_row_key, row_key. split.
  - intros [Hr Hk]%find_Some. split; [done|]. unfold same_key in Hk. f_equal; lia.
  - intros [Hr [= <- <-]]. apply (find_unique row_key); [apply Hi| |done]. intros y. unfold same_key, row_key.
    rewrite andb_true_iff, !Z.eqb_eq. split; [by intros [-> ->]|by intros [= -> ->]].
Qed.

Lemma db_map_Some n s kv name k v :
  tables_wf n s -> index_ok kv ->
  db_map s kv name k = Some v <->
  exists tab r, tab ∈ tables s /\ table_name tab = name /\ r ∈ rows kv /\ row_key r = (tab_id tab, k) /\ v = (kv_payer r, kv_value r).
Proof.
  intros Hw Hi. destruct name as [[code scope] table]. unfold db_map. cbn [fst snd]. split.
  - destruct (find_table s code scope table) as [tab|] eqn:Et; [|done]. apply (find_table_Some n) in Et as [Ht En]; [|done].
    intros (r & Hr & ->)%fmap_Some. apply find_row_key_Some in Hr as [Hr Hk]; [|done]. by exists tab, r.
  - intros (tab & r & Ht & En & Hr & Hk & ->).
    rewrite (proj2 (find_table_Some n s code scope table tab Hw)) by done.
    rewrite (proj2 (find_row_key_Some kv (tab_id tab) k r Hi)) by done. done.
Qed.

(** Where the tables say the same, the map does for unchanged rows. *)
Lemma known_table_row n s name t : tables_wf n s -> known_table s name t ->
  forall t', known_table s name t' -> t' = t.
Proof.
  intros Hw (tab & Ht & <- & <-) t' (tab' & Ht' & En & <-). f_equal. by apply (fmap_NoDup_inj table_name (tables s)); [apply Hw|..].
Qed.

Lemma db_map_known n s kv name k v :
  tables_wf n s -> index_ok kv ->
  db_map s kv name k = Some v <->
  exists t r, known_table s name t /\ r ∈ rows kv /\ row_key r = (t, k) /\ v = (kv_payer r, kv_value r).
Proof.
  intros Hw Hi. rewrite (db_map_Some n) by done. split.
  - intros (tab & r & Ht & En & Hr & Hk & ->). exists (tab_id tab), r. split; [by exists tab|done].
  - intros (t & r & (tab & Ht & En & <-) & Hr & Hk & ->). by exists tab, r.
Qed.

(** Names and ids of tables go together. *)
Lemma known_table_name n s name name' t : tables_wf n s -> known_table s name t -> known_table s name' t -> name = name'.
Proof.
  intros Hw (tab & Ht & <- & <-) (tab' & Ht' & <- & Eid). f_equal. symmetry. by apply (fmap_NoDup_inj tab_id (tables s)); [apply Hw|..].
Qed.

Section Primary.
(** Rows of the other indices. *)
Variable other : Z -> Z.
Hypothesis other_nonneg : forall t, 0 <= other t.

(** What holds of the tables and the primary index. *)
Record primary_ok (s : tables_state) (kv : kv_index) : Prop := {
  po_tables : tables_wf (fun t => other t + rows_in t kv) s;
  po_nonempty : no_empty_table s;
  po_index : index_ok kv;
  po_sizes : kv_sizes kv;
  po_bound : forall t, other t + rows_in t kv < 2 ^ 32
}.

Definition balanced (s : tables_state) (kv : kv_index) (s' : tables_state) (kv' : kv_index) : Prop :=
  forall a, billed (ram_deltas s) (ram_deltas s') a =
    (table_bytes a s' + index_bytes kv_bill a kv') - (table_bytes a s + index_bytes kv_bill a kv).

Lemma store_spec cx scope table payer k buffer s kv it s' kv' :
  primary_ok s kv -> room_object (itr_cache kv) -> room_end (itr_cache kv) -> vsize buffer < 2 ^ 32 ->
  (forall t, other t + rows_in t kv + 1 < 2 ^ 32) ->
  db_store_i64 cx scope table payer k buffer s kv = Ok (it, s', kv') ->
  primary_ok s' kv' /\ balanced s kv s' kv' /\ db_map s kv (receiver cx, scope, table) k = None /\
  (forall name k', db_map s' kv' name k' =
     if decide ((name, k') = ((receiver cx, scope, table), k)) then Some (payer, buffer) else db_map s kv name k') /\
  (exists r, get_row kv' it = Ok r /\ kv_primary_key r = k /\ known_table s' (receiver cx, scope, table) (kv_t_id r)) /\
  (forall it' r, get_row kv it' = Ok r -> get_row kv' it' = Ok r).
Proof.
  intros [Hw Hne Hi Hsz Hbd] Hr1 Hr2 Hbuf Hroom E. unfold db_store_i64, db_store_i64_code in E.
  apply bind_Ok in E as (? & _ & E). apply bind_Ok in E as (? & _ & E). apply bind_Ok in E as ([tab s1] & Ef & E).
  apply bind_Ok in E as (? & _ & E). destruct (find_or_create_spec _ _ _ _ _ _ _ _ _ Hw Hne Ef) as (Hw1 & Ht & En & Hne1 & Hnew & Hb1).
  eapply (store_row_spec kv_bill) with (other := other) in E as (Hw2 & Hne2 & Hi2 & Hb2 & Eids & Enames & r & Er & Erows & Hget & Hk & Hkeep & _);
    [|intros i; cbn; unfold kv_bill; cbn [kv_value]; split_and!; [done..|by rewrite kv_size_exact]|done|exact Hw1|done..].
  cbn in Er. assert (forall name t, known_table s' name t <-> known_table s1 name t) as Hkn by (intros; by apply known_table_same).
  assert (row_key r = (tab_id tab, k)) as Hkey by by rewrite Er.
  assert (known_table s1 (receiver cx, scope, table) (tab_id tab)) as Hkt by by exists tab.
  assert (forall name t r', known_table s1 name t -> r' ∈ rows kv -> kv_t_id r' = t -> known_table s name t) as Hold.
  { intros name t r' Hk1 Hr' Et. destruct Hnew as [Eq|(_ & Eq & Hn0)]; [by unfold known_table in *; rewrite Eq in Hk1|].
    destruct Hk1 as (tb & Htb & <- & <-). rewrite Eq in Htb. apply elem_of_app in Htb as [Htb| ->%list_elem_of_singleton]; [by exists tb|].
    pose proof (rows_in_pos kv r' Hr') as Hp. cbn in Hp. rewrite Et in Hp. specialize (other_nonneg (tab_id tab)). cbn in Hn0. lia. }
  assert (forall name t, known_table s name t -> known_table s1 name t) as Hmono.
  { intros name t (tb & Htb & <- & <-). exists tb. split; [|done]. destruct Hnew as [->|(_ & -> & _)]; [done|]. apply elem_of_app. by left. }
  split_and!; try done.
  - constructor; try done.
    + intros r' Hr'. rewrite Erows in Hr'. apply elem_of_app in Hr' as [Hr'| ->%list_elem_of_singleton]; [by apply Hsz|]. by rewrite Er.
    + intros t. unfold rows_in. rewrite Erows, paid_app, paid_cons. cbn [paid foldr]. specialize (Hroom t). unfold rows_in in Hroom.
      destruct (_ =? _); lia.
  - intros a. rewrite (billed_trans _ (ram_deltas s1)), Hb1, Hb2. lia.
  - apply eq_None_not_Some. intros [v Hv]. apply (db_map_known _ _ _ _ _ _ Hw Hi) in Hv as (t & r' & Hkt' & Hr' & Hk' & _).
    apply (Hk r' Hr'). rewrite Hk', Hkey. f_equal. apply (known_table_row _ _ _ _ Hw1 Hkt). by apply Hmono.
  - intros name k'. apply option_eq. intros v. rewrite (db_map_known _ _ _ _ _ _ Hw2 Hi2). rewrite Erows. setoid_rewrite Hkn. case_decide as Hd.
    + injection Hd as -> ->. split.
      * intros (t & r' & Hkt' & [Hr'| ->%list_elem_of_singleton]%elem_of_app & Hk' & ->); [|by rewrite Er]. exfalso. apply (Hk r' Hr').
        rewrite Hk', Hkey. f_equal. by apply (known_table_row _ _ _ _ Hw1 Hkt).
      * intros [= <-]. exists (tab_id tab), r. split_and!; [done| |done|by rewrite Er]. apply elem_of_app. right. by apply list_elem_of_singleton.
    + rewrite (db_map_known _ _ _ _ _ _ Hw Hi). split.
      * intros (t & r' & Hkt' & [Hr'| ->%list_elem_of_singleton]%elem_of_app & Hk' & ->).
        -- exists t, r'. split_and!; try done. apply (Hold _ _ r'); [done..|]. by injection Hk'.
        -- destruct Hd. rewrite Hkey in Hk'. injection Hk' as <- <-. f_equal. by apply (known_table_name _ _ _ _ _ Hw1 Hkt').
      * intros (t & r' & Hkt' & Hr' & Hk' & ->). exists t, r'. split_and!; [by apply Hmono| |done..]. apply elem_of_app. by left.
  - exists r. split_and!; [done|by rewrite Er|]. apply Hkn. by rewrite Er.
Qed.

Lemma update_spec cx it payer buffer s kv s' kv' :
  primary_ok s kv -> vsize buffer < 2 ^ 32 -> db_update_i64 cx it payer buffer s kv = Ok (s', kv') ->
  primary_ok s' kv' /\ balanced s kv s' kv' /\
  exists r name, get_row kv it = Ok r /\ known_table s name (kv_t_id r) /\ name.1.1 = receiver cx /\
    (forall name' k', db_map s' kv' name' k' =
       if decide ((name', k') = (name, kv_primary_key r)) then Some (if payer =? 0 then kv_payer r else payer, buffer)
       else db_map s kv name' k') /\
    (forall it' x, get_row kv it' = Ok x -> exists x', get_row kv' it' = Ok x' /\ row_key x' = row_key x).
Proof.
  intros Hok Hbuf E. pose proof Hok as [Hw Hne Hi Hsz Hbd]. unfold db_update_i64 in E.
  apply bind_Ok in E as (u1 & _ & E). apply bind_Ok in E as (r & Hg & E). apply bind_Ok in E as (tobj & Et & E).
  apply bind_Ok in E as (tab & Ed & E). apply bind_Ok in E as (u2 & Ec & E). apply bind_Ok in E as (s1 & Eu & E).
  apply Ok_inj in E. injection E as <- <-. apply EOS_ASSERT_Ok in Ec. pose proof (get_table_Ok kv it r tobj Hi Hg Et) as ->.
  apply (deref_table_Ok _ _ _ _ Hw) in Ed as [Htab Hid]. pose proof Hg as [_ Hr]%index_row_Ok; [|done].
  set (p := if payer =? 0 then kv_payer r else payer) in *. set (r' := KeyValue (kv_id r) (kv_t_id r) (kv_primary_key r) p buffer) in *.
  destruct (modify_row_spec kv_bill kv r r' Hi Hr) as (Hi' & Hrows & Hbytes & Hin & Hget); [done..|].
  assert (tables s1 = tables s /\ next_table_id s1 = next_table_id s /\
    forall a, billed (ram_deltas s) (ram_deltas s1) a = charge p (kv_bill r') a - charge (kv_payer r) (kv_bill r) a) as (Et1 & En1 & Hb).
  { rewrite !kv_size_exact in Eu by (try apply Hsz; done). change (vsize (kv_value r) + key_value_size) with (kv_bill r) in Eu.
    change (vsize buffer + key_value_size) with (kv_bill r') in Eu. destruct (Z.eqb_spec (kv_payer r) p) as [Ep|Ep]; cbn [negb] in Eu.
    - destruct (Z.eqb_spec (kv_bill r) (kv_bill r')) as [Es|Es]; cbn [negb] in Eu.
      + apply Ok_inj in Eu as <-. split_and!; [done..|]. intros a. rewrite Ep, Es. unfold billed. lia.
      + apply update_db_usage_Ok in Eu as (? & ? & Hb). split_and!; [done..|]. intros a. rewrite Hb, Ep. unfold charge. destruct (p =? a); ring.
    - apply bind_Ok in Eu as (s2 & E1 & E2). apply update_db_usage_Ok in E1 as (? & ? & Hb1). apply update_db_usage_Ok in E2 as (? & ? & Hb2).
      split_and!; [congruence..|]. intros a. rewrite (billed_trans _ (ram_deltas s2)), Hb1, Hb2. unfold charge.
      destruct (kv_payer r =? a), (p =? a); ring. }
  assert (tables_wf (fun t => other t + rows_in t (modify_row r' kv)) s1) as Hw'.
  { eapply tables_wf_same; [done..|]. eapply tables_wf_ext; [|exact Hw]. intros t. cbv beta. by rewrite Hrows. }
  assert (forall name t, known_table s1 name t <-> known_table s name t) as Hkn by (intros; unfold known_table; by rewrite Et1).
  assert (known_table s (table_name tab) (kv_t_id r)) as Hkt by by exists tab.
  split_and!.
  - constructor; try done.
    + intros t Ht. apply Hne. by rewrite <- Et1.
    + intros x [->|[Hx _]]%Hin; [done|by apply Hsz].
    + intros t. rewrite Hrows. apply Hbd.
  - intros a. rewrite Hb, Hbytes. unfold table_bytes. rewrite Et1. cbn [row_payer key_value_row r' kv_payer]. lia.
  - exists r, (table_name tab). split_and!; [done..|cbn; lia| |].
    + intros name' k'. apply option_eq. intros v. rewrite (db_map_known _ _ _ _ _ _ Hw' Hi'). setoid_rewrite Hkn. setoid_rewrite Hin.
      case_decide as Hd.
      * injection Hd as -> ->. split.
        -- intros (t & x & Hk & [->|[Hx Hnx]] & Hkey & ->); [done|]. destruct Hnx. apply (fmap_NoDup_inj row_key (rows kv)); [apply Hi|done..|].
           rewrite Hkey, (known_table_row _ _ _ _ Hw Hkt t Hk). done.
        -- intros [= <-]. exists (kv_t_id r), r'. split_and!; try done. by left.
      * rewrite (db_map_known _ _ _ _ _ _ Hw Hi). split.
        -- intros (t & x & Hk & [->|[Hx Hnx]] & Hkey & ->); [|by exists t, x]. destruct Hd. injection Hkey as <- <-. f_equal.
           by apply (known_table_name _ _ _ _ _ Hw Hk).
        -- intros (t & x & Hk & Hx & Hkey & ->). exists t, x. split_and!; try done. right. split; [done|]. intros ->. destruct Hd.
           injection Hkey as <- <-. f_equal. by apply (known_table_name _ _ _ _ _ Hw Hk).
    + intros it' x Hx. apply Hget in Hx as Hx'. eexists. split; [exact Hx'|]. destruct (Z.eqb_spec (row_id x) (row_id r')) as [E|]; [|done].
      pose proof Hx as [_ Hxr]%index_row_Ok; [|done]. by rewrite (fmap_NoDup_inj row_id (rows kv) x r (io_ids _ Hi) Hxr Hr E).
Qed.

Lemma remove_spec cx it s kv s' kv' :
  primary_ok s kv -> db_remove_i64 cx it s kv = Ok (s', kv') ->
  primary_ok s' kv' /\ balanced s kv s' kv' /\
  exists r name, get_row kv it = Ok r /\ known_table s name (kv_t_id r) /\ name.1.1 = receiver cx /\
    (forall name' k', db_map s' kv' name' k' =
       if decide ((name', k') = (name, kv_primary_key r)) then None else db_map s kv name' k') /\
    (forall it' x, get_row kv' it' = Ok x <-> it' <> it /\ get_row kv it' = Ok x).
Proof.
  intros Hok E. pose proof Hok as [Hw Hne Hi Hsz Hbd]. unfold db_remove_i64 in E.
  eapply (remove_iterator_spec kv_bill) with (other := other) in E as (Hw' & Hne' & Hi' & Hb & r & tab & Hg & Htab & Hid & Hc & Hin & Hget & _ & Hkn & Hle);
    [|intros r Hr; apply kv_delta_exact; by apply Hsz|done..].
  pose proof Hg as [_ Hr]%index_row_Ok; [|done]. assert (known_table s (table_name tab) (kv_t_id r)) as Hkt by by exists tab.
  assert (forall x, x ∈ rows kv' -> x ∈ rows kv) as Hsub by (intros x Hx; by apply Hin in Hx as [? _]).
  split_and!; [constructor; try done| |].
  - intros x Hx. apply Hsz. by apply Hsub.
  - intros t. specialize (Hbd t). specialize (Hle t). lia.
  - done.
  - exists r, (table_name tab). split_and!; [done..| |done].
    intros name' k'. apply option_eq. intros v. rewrite (db_map_known _ _ _ _ _ _ Hw' Hi'). setoid_rewrite Hkn. setoid_rewrite Hin.
    case_decide as Hd.
    + injection Hd as -> ->. split; [|done]. intros (t & x & [Hk _] & [Hx Hnx] & Hkey & ->). destruct Hnx.
      apply (fmap_NoDup_inj row_key (rows kv)); [apply Hi|done..|]. by rewrite Hkey, (known_table_row _ _ _ _ Hw Hkt t Hk).
    + rewrite (db_map_known _ _ _ _ _ _ Hw Hi). split.
      * intros (t & x & [Hk _] & [Hx Hnx] & Hkey & ->). by exists t, x.
      * intros (t & x & Hk & Hx & Hkey & ->). assert (x <> r) as Hxr.
        { intros ->. destruct Hd. injection Hkey as <- <-. f_equal. by apply (known_table_name _ _ _ _ _ Hw Hk). }
        exists t, x. split_and!; try done. pose proof (rows_in_pos kv' x) as Hp. rewrite Hin in Hp. specialize (Hp (conj Hx Hxr)).
        injection Hkey as <- <-. specialize (other_nonneg (kv_t_id x)). cbn in *. lia.
Qed.

(** *** Lookups *)

(** An iterator is at the row of a key, or at the end of a table. *)
Definition points_to (s : tables_state) (kv : kv_index) (it : Z) (name : Z * Z * Z) (k : Z) : Prop :=
  exists r, get_row kv it = Ok r /\ known_table s name (kv_t_id r) /\ kv_primary_key r = k /\
    db_map s kv name k = Some (kv_payer r, kv_value r).
Definition at_end (s : tables_state) (kv : kv_index) (it : Z) (name : Z * Z * Z) : Prop :=
  exists t, known_table s name t /\ end_iterator (itr_cache kv) t it.

(** An iterator at the least key of the map that satisfies [P]; at the end when
    there is none; -1 when there is no table. *)
Definition at_least (s : tables_state) (kv : kv_index) (it : Z) (name : Z * Z * Z) (P : Z -> Prop) : Prop :=
  (exists k, P k /\ (forall k', is_Some (db_map s kv name k') -> P k' -> k <= k') /\ points_to s kv it name k) \/
  ((forall k, is_Some (db_map s kv name k) -> ~ P k) /\
   (at_end s kv it name \/ ((forall t, ~ known_table s name t) /\ it = -1))).
(** The same for the greatest key; -1 when there is none. *)
Definition at_greatest (s : tables_state) (kv : kv_index) (it : Z) (name : Z * Z * Z) (P : Z -> Prop) : Prop :=
  (exists k, P k /\ (forall k', is_Some (db_map s kv name k') -> P k' -> k' <= k) /\ points_to s kv it name k) \/
  ((forall k, is_Some (db_map s kv name k) -> ~ P k) /\ it = -1).

Lemma db_map_grown s kv kv' : grown kv kv' -> forall name k, db_map s kv' name k = db_map s kv name k.
Proof. intros Hg name k. unfold db_map, find_row_key. by rewrite (gr_rows _ _ Hg). Qed.

Lemma row_in_map s kv name r :
  primary_ok s kv -> r ∈ rows kv -> known_table s name (kv_t_id r) ->
  db_map s kv name (kv_primary_key r) = Some (kv_payer r, kv_value r).
Proof. intros Hok Hr Hk. apply (db_map_known _ _ _ _ _ _ (po_tables _ _ Hok) (po_index _ _ Hok)). by exists (kv_t_id r), r. Qed.

Lemma map_row s kv name t k :
  primary_ok s kv -> known_table s name t -> is_Some (db_map s kv name k) ->
  exists r, r ∈ rows kv /\ kv_t_id r = t /\ kv_primary_key r = k.
Proof.
  intros Hok Hk [v Hv]. apply (db_map_known _ _ _ _ _ _ (po_tables _ _ Hok) (po_index _ _ Hok)) in Hv as (t' & r & Hk' & Hr & [= E1 E2] & _).
  exists r. split_and!; [done| |done]. rewrite E1. by apply (known_table_row _ _ _ _ (po_tables _ _ Hok) Hk).
Qed.

Lemma no_table_no_row s kv name k : primary_ok s kv -> (forall t, ~ known_table s name t) -> ~ is_Some (db_map s kv name k).
Proof.
  intros Hok Hno [v Hv]. apply (db_map_known _ _ _ _ _ _ (po_tables _ _ Hok) (po_index _ _ Hok)) in Hv as (t & _ & Hk & _). by apply (Hno t).
Qed.

Lemma points_grown s kv kv' it r name :
  primary_ok s kv -> grown kv kv' -> r ∈ rows kv -> known_table s name (kv_t_id r) -> get_row kv' it = Ok r ->
  points_to s kv' it name (kv_primary_key r).
Proof.
  intros Hok Hg Hr Hk E. exists r. split_and!; [done..|]. rewrite (db_map_grown _ _ _ Hg). by apply row_in_map.
Qed.

(** A search by key is a search in the map. *)
Lemma lookup_least s kv code scope table search it o kv' (P : Z -> Prop) :
  primary_ok s kv -> room_object (itr_cache kv) -> room_end (itr_cache kv) ->
  (forall t r, search t (rows kv) = Some r -> r ∈ rows kv) ->
  (forall t r, search t (rows kv) = Some r -> kv_t_id r = t -> P (kv_primary_key r) /\
     forall r', r' ∈ rows kv -> kv_t_id r' = t -> P (kv_primary_key r') -> kv_primary_key r <= kv_primary_key r') ->
  (forall t, (search t (rows kv) = None \/ exists r, search t (rows kv) = Some r /\ kv_t_id r <> t) ->
     forall r', r' ∈ rows kv -> kv_t_id r' = t -> ~ P (kv_primary_key r')) ->
  lookup_in s code scope table search kv = (it, o, kv') ->
  grown kv kv' /\ at_least s kv' it (code, scope, table) P.
Proof.
  intros Hok Hr1 Hr2 Hs Hfound Hnone E. pose proof (po_tables _ _ Hok) as Hw.
  destruct (lookup_in_spec _ _ _ _ _ _ _ _ _ (po_index _ _ Hok) Hr1 Hr2 Hs E) as [Hg Hl]. split; [done|].
  unfold at_least. setoid_rewrite (db_map_grown s _ _ Hg).
  destruct (find_table s code scope table) as [tab|] eqn:Ef.
  - apply (find_table_Some _ _ _ _ _ _ Hw) in Ef as [Ht En].
    assert (known_table s (code, scope, table) (tab_id tab)) as Hk by by exists tab.
    assert (forall k, (search (tab_id tab) (rows kv) = None \/ exists r, search (tab_id tab) (rows kv) = Some r /\ kv_t_id r <> tab_id tab) ->
      is_Some (db_map s kv (code, scope, table) k) -> ~ P k) as Hno.
    { intros k Hn Hm. destruct (map_row _ _ _ _ _ Hok Hk Hm) as (r & Hr & Et & <-). by apply (Hnone (tab_id tab)). }
    destruct (search (tab_id tab) (rows kv)) as [r|] eqn:Es.
    + cbn in Hl. destruct (Z.eqb_spec (kv_t_id r) (tab_id tab)) as [Et|Et].
      * destruct Hl as [Hget ->]. left. exists (kv_primary_key r). destruct (Hfound _ _ Es Et) as [HP Hmin]. split_and!; [done| |].
        -- intros k' Hm HP'. destruct (map_row _ _ _ _ _ Hok Hk Hm) as (r' & Hr' & Et' & <-). by apply Hmin.
        -- apply (points_grown s kv kv'); try done; [by eapply Hs|by rewrite Et].
      * destruct Hl as [He _]. right. split; [intros k; apply Hno; right; by exists r|]. left. by exists (tab_id tab).
    + destruct Hl as [He _]. right. split; [intros k; apply Hno; by left|]. left. by exists (tab_id tab).
  - destruct Hl as [-> _]. apply find_table_None in Ef as Hn.
    assert (forall t, ~ known_table s (code, scope, table) t) as Hno.
    { intros t (tb & Ht & En & _). destruct Hn. rewrite <- En. apply list_elem_of_fmap. eauto. }
    right. split; [|by right]. intros k Hm. by destruct (no_table_no_row s kv (code, scope, table) k).
Qed.

Lemma first_row_search (p : Z -> key_value_object -> bool) (P : Z -> Prop) kv :
  index_ok kv -> (forall t r, kv_t_id r < t -> p t r = false) -> (forall t r, kv_t_id r = t -> p t r = true <-> P (kv_primary_key r)) ->
  (forall t r, first_row primary_ltb (p t) (rows kv) = Some r -> r ∈ rows kv) /\
  (forall t r, first_row primary_ltb (p t) (rows kv) = Some r -> kv_t_id r = t -> P (kv_primary_key r) /\
     forall r', r' ∈ rows kv -> kv_t_id r' = t -> P (kv_primary_key r') -> kv_primary_key r <= kv_primary_key r') /\
  (forall t, (first_row primary_ltb (p t) (rows kv) = None \/
              exists r, first_row primary_ltb (p t) (rows kv) = Some r /\ kv_t_id r <> t) ->
     forall r', r' ∈ rows kv -> kv_t_id r' = t -> ~ P (kv_primary_key r')).
Proof.
  intros Hi Hlow Heq. pose proof (proj1 (@primary_order key_value_object _)) as Hord. split_and!.
  - intros t r E. by apply first_row_Some in E as [? _]; [|done|apply Hi].
  - intros t r E Et. apply first_row_Some in E as (Hr & Hp & Hmin); [|done|apply Hi]. split; [by apply (Heq t)|].
    intros r' Hr' Et' HP. destruct (Hmin r' Hr') as [->|Hlt]; [by apply Heq|done|]. unfold primary_ltb, key_ltb in Hlt. cbn in Hlt. lia.
  - intros t [E|(r & E & Et)] r' Hr' Et' HP; apply (Heq t) in HP; [|done| |done].
    + rewrite first_row_None in E. rewrite E in HP by done. done.
    + apply first_row_Some in E as (Hr & Hp & Hmin); [|done|apply Hi]. assert (t < kv_t_id r).
      { destruct (decide (kv_t_id r < t)) as [Hl|]; [by rewrite (Hlow _ _ Hl) in Hp|lia]. }
      destruct (Hmin r' Hr' HP) as [->|Hlt]; [lia|]. unfold primary_ltb, key_ltb in Hlt. cbn in Hlt. lia.
Qed.

Lemma find_i64_spec s kv code scope table k it kv' :
  primary_ok s kv -> room_object (itr_cache kv) -> room_end (itr_cache kv) -> db_find_i64 s code scope table k kv = (it, kv') ->
  grown kv kv' /\ at_least s kv' it (code, scope, table) (fun k' => k' = k).
Proof.
  intros Hok Hr1 Hr2 E. unfold db_find_i64 in E. destruct (lookup_in _ _ _ _ _ _) as [[it' o] i'] eqn:El. injection E as <- <-.
  eapply lookup_least; [done..| | | |exact El].
  - by intros t r [? _]%find_Some.
  - intros t r [Hr Hk]%find_Some Et. unfold same_key in Hk. cbn in Hk. split; [lia|]. intros; lia.
  - intros t [Hn|(r & Hf & Et)] r' Hr' Et' Ek.
    + apply (find_None _ _ _ Hn) in Hr'. unfold same_key in Hr'. cbn in Hr'. lia.
    + apply find_Some in Hf as [_ Hk]. unfold same_key in Hk. cbn in Hk. lia.
Qed.

Lemma lowerbound_i64_spec s kv code scope table k it kv' :
  primary_ok s kv -> room_object (itr_cache kv) -> room_end (itr_cache kv) -> db_lowerbound_i64 s code scope table k kv = (it, kv') ->
  grown kv kv' /\ at_least s kv' it (code, scope, table) (fun k' => k <= k').
Proof.
  intros Hok Hr1 Hr2 E. unfold db_lowerbound_i64 in E. destruct (lookup_in _ _ _ _ _ _) as [[it' o] i'] eqn:El. injection E as <- <-.
  destruct (first_row_search (fun t r => negb (key_ltb (row_t_id r) (row_primary_key r) t k)) (fun k' => k <= k') kv) as (H1 & H2 & H3);
    [apply Hok|unfold key_ltb; cbn; intros; lia..|]. exact (lookup_least _ _ _ _ _ _ _ _ _ _ Hok Hr1 Hr2 H1 H2 H3 El).
Qed.

Lemma upperbound_i64_spec s kv code scope table k it kv' :
  primary_ok s kv -> room_object (itr_cache kv) -> room_end (itr_cache kv) -> db_upperbound_i64 s code scope table k kv = (it, kv') ->
  grown kv kv' /\ at_least s kv' it (code, scope, table) (fun k' => k < k').
Proof.
  intros Hok Hr1 Hr2 E. unfold db_upperbound_i64 in E. destruct (lookup_in _ _ _ _ _ _) as [[it' o] i'] eqn:El. injection E as <- <-.
  destruct (first_row_search (fun t r => key_ltb t k (row_t_id r) (row_primary_key r)) (fun k' => k < k') kv) as (H1 & H2 & H3);
    [apply Hok|unfold key_ltb; cbn; intros; lia..|]. exact (lookup_least _ _ _ _ _ _ _ _ _ _ Hok Hr1 Hr2 H1 H2 H3 El).
Qed.

Lemma end_i64_spec s kv code scope table it kv' :
  primary_ok s kv -> room_end (itr_cache kv) -> db_end_i64 s code scope table kv = (it, kv') ->
  grown kv kv' /\ at_least s kv' it (code, scope, table) (fun _ => False).
Proof.
  intros Hok Hr E. destruct (lookup_end_spec _ _ _ _ _ _ _ (po_index _ _ Hok) Hr E) as [Hg Hl]. split; [done|].
  right. split; [by intros ? _ []|]. destruct (find_table s code scope table) as [tab|] eqn:Ef.
  - apply (find_table_Some _ _ _ _ _ _ (po_tables _ _ Hok)) in Ef as [Ht En]. left. exists (tab_id tab). split; [by exists tab|done].
  - right. split; [|done]. intros t (tb & Ht & En & _). destruct (find_table_None _ _ _ _ Ef). rewrite <- En. apply list_elem_of_fmap. eauto.
Qed.

Lemma points_row s kv it name k : points_to s kv it name k -> exists r, get_row kv it = Ok r /\ known_table s name (kv_t_id r) /\ kv_primary_key r = k.
Proof. intros (r & ? & ? & ? & _). by exists r. Qed.

Lemma next_i64_spec s kv it name k :
  primary_ok s kv -> room_object (itr_cache kv) -> points_to s kv it name k ->
  exists it' o kv', db_next_i64 it kv = Ok (it', o, kv') /\ grown kv kv' /\ at_least s kv' it' name (fun k' => k < k') /\
    (forall r, o = Some r -> points_to s kv' it' name (kv_primary_key r)).
Proof.
  intros Hok Hr (obj & Hg & Hk & <-)%points_row. destruct (@primary_order key_value_object _) as [Ho1 Ho2].
  destruct (next_in_spec primary_ltb kv it obj Ho1 Ho2 (po_index _ _ Hok) Hr Hg) as (it' & o & kv' & E & Hgr & Hcase).
  exists it', o, kv'. split; [done|]. split; [done|]. unfold at_least. setoid_rewrite (db_map_grown s _ _ Hgr).
  destruct Hcase as [(r & -> & (Hrin & Et & Hlt & Hmin) & Er)|(-> & Hno & He)]; cbn in *.
  - assert (points_to s kv' it' name (kv_primary_key r)) as Hp by (apply (points_grown s kv kv'); try done; by rewrite Et).
    split; [|by intros ? [= <-]]. left. exists (kv_primary_key r). unfold primary_ltb, key_ltb in *. cbn in *. split_and!; [lia| |done].
    intros k' Hm Hk'. destruct (map_row _ _ _ _ _ Hok Hk Hm) as (r' & Hr' & Et' & <-). destruct (Hmin r' Hr' Et') as [->|]; lia.
  - split; [|done]. right. split; [|left; by exists (kv_t_id obj)]. intros k' Hm Hk'.
    destruct (map_row _ _ _ _ _ Hok Hk Hm) as (r' & Hr' & Et' & <-). specialize (Hno r' Hr' Et').
    unfold primary_ltb, key_ltb in Hno. cbn in Hno. lia.
Qed.

Lemma previous_i64_spec s kv it name k :
  primary_ok s kv -> room_object (itr_cache kv) -> points_to s kv it name k ->
  exists it' o kv', db_previous_i64 s it kv = Ok (it', o, kv') /\ grown kv kv' /\ at_greatest s kv' it' name (fun k' => k' < k) /\
    (forall r, o = Some r -> points_to s kv' it' name (kv_primary_key r)).
Proof.
  intros Hok Hr (obj & Hg & Hk & <-)%points_row. destruct (@primary_order key_value_object _) as [Ho1 Ho2].
  destruct (previous_in_row_spec primary_ltb s kv it obj Ho1 Ho2 (po_index _ _ Hok) Hr Hg) as (it' & o & kv' & E & Hgr & Hcase).
  exists it', o, kv'. split; [done|]. split; [done|]. unfold at_greatest. setoid_rewrite (db_map_grown s _ _ Hgr).
  destruct Hcase as [(r & -> & (Hrin & Et & Hlt & Hmin) & Er)|(-> & -> & Hno)]; cbn in *.
  - assert (points_to s kv' it' name (kv_primary_key r)) as Hp by (apply (points_grown s kv kv'); try done; by rewrite Et).
    split; [|by intros ? [= <-]]. left. exists (kv_primary_key r). unfold primary_ltb, key_ltb in *. cbn in *. split_and!; [lia| |done].
    intros k' Hm Hk'. destruct (map_row _ _ _ _ _ Hok Hk Hm) as (r' & Hr' & Et' & <-). destruct (Hmin r' Hr' Et') as [->|]; lia.
  - split; [|done]. right. split; [|done]. intros k' Hm Hk'.
    destruct (map_row _ _ _ _ _ Hok Hk Hm) as (r' & Hr' & Et' & <-). specialize (Hno r' Hr' Et').
    unfold primary_ltb, key_ltb in Hno. cbn in Hno. lia.
Qed.

Lemma previous_end_spec s kv it name :
  primary_ok s kv -> room_object (itr_cache kv) -> vsize (end_iterator_to_table (itr_cache kv)) <= 2 ^ 31 - 2 -> at_end s kv it name ->
  exists it' o kv', db_previous_i64 s it kv = Ok (it', o, kv') /\ grown kv kv' /\ at_greatest s kv' it' name (fun _ => True) /\
    (forall r, o = Some r -> points_to s kv' it' name (kv_primary_key r)).
Proof.
  intros Hok Hr Hsz (t & Hk & He). destruct (@primary_order key_value_object _) as [Ho1 Ho2].
  assert (- 2 ^ 31 < it) as Hb.
  { destruct He as (n & En & ->). apply lookup_lt_Some in En. unfold vsize in Hsz. lia. }
  pose proof Hk as (tab & Ht & En & <-).
  destruct (previous_in_end_spec primary_ltb s kv it tab _ Ho1 Ho2 (po_index _ _ Hok) Hr (po_tables _ _ Hok) Ht He Hb)
    as (it' & o & kv' & E & Hgr & Hcase).
  exists it', o, kv'. split; [done|]. split; [done|]. unfold at_greatest. setoid_rewrite (db_map_grown s _ _ Hgr).
  destruct Hcase as [(r & -> & (Hrin & Et & Hmax) & Er)|(-> & -> & Hno)]; cbn in *.
  - assert (points_to s kv' it' name (kv_primary_key r)) as Hp by (apply (points_grown s kv kv'); try done; by rewrite Et).
    split; [|by intros ? [= <-]]. left. exists (kv_primary_key r). split_and!; [done| |done].
    intros k' Hm _. destruct (map_row _ _ _ _ _ Hok Hk Hm) as (r' & Hr' & Et' & <-).
    destruct (Hmax r' Hr' Et') as [->|Hlt]; [lia|]. unfold primary_ltb, key_ltb in Hlt. cbn in Hlt. lia.
  - split; [|done]. right. split; [|done]. intros k' Hm _.
    destruct (map_row _ _ _ _ _ Hok Hk Hm) as (r' & Hr' & Et' & <-). by apply (Hno r').
Qed.
End Primary.

(** ** Secondary indices *)

(** What [SecondaryKeyLess] has to be. *)
Record strict_weak {SK} (less : SK -> SK -> bool) : Prop := {
  sw_irrefl : forall a, less a a = false;
  sw_trans : forall a b c, less a b = true -> less b c = true -> less a c = true;
  sw_incomparable : forall a b c, less a b = true -> less a c = true \/ less c b = true
}.

Lemma Z_strict_weak : strict_weak Z.ltb.
Proof. constructor; lia. Qed.
Lemma key256_strict_weak : strict_weak key256_ltb.
Proof. constructor; unfold key256_ltb; lia. Qed.

Section Secondary.
Context {SK : Type}.
Variable less : SK -> SK -> bool.
Variable object_size : Z.
Hypothesis Hless : strict_weak less.

Abbreviation row := (index_object SK).
Abbreviation sec_index := (index_state (index_object SK)).
Abbreviation sec_bytes := (index_bytes (fun _ : row => object_size)).

Lemma secondary_order : row_order (secondary_ltb less) /\ table_order (secondary_ltb less).
Proof.
  destruct Hless as [Hi Ht Hc]. unfold secondary_ltb. split; [constructor|].
  - intros a. rewrite Hi. cbn. lia.
  - intros a b c. pose proof (Ht (ix_secondary_key a) (ix_secondary_key b) (ix_secondary_key c)).
    pose proof (Hc (ix_secondary_key a) (ix_secondary_key b) (ix_secondary_key c)).
    pose proof (Hc (ix_secondary_key b) (ix_secondary_key c) (ix_secondary_key a)).
    pose proof (Hc (ix_secondary_key c) (ix_secondary_key a) (ix_secondary_key b)). lia.
  - intros a b Hk. unfold row_key in Hk. cbn in Hk. destruct (Z.lt_trichotomy (ix_t_id a) (ix_t_id b)) as [?|[Et|?]]; [left; lia| |right; lia].
    rewrite Et, Z.ltb_irrefl, Z.eqb_refl. cbn. destruct (less (ix_secondary_key a) (ix_secondary_key b)) eqn:E1; [by left|].
    destruct (less (ix_secondary_key b) (ix_secondary_key a)) eqn:E2; [by right|]. cbn.
    destruct (Z.lt_trichotomy (ix_primary_key a) (ix_primary_key b)) as [?|[Ep|?]]; [left; lia| |right; lia]. destruct Hk. congruence.
  - intros a b. cbn. rewrite orb_true_iff, andb_true_iff. lia.
Qed.

(** The first row of a table, in an order, that satisfies [P]. *)
Definition first_of (lt : row -> row -> bool) (l : list row) (t : Z) (P : row -> Prop) (r : row) : Prop :=
  r ∈ l /\ ix_t_id r = t /\ P r /\ (forall r', r' ∈ l -> ix_t_id r' = t -> P r' -> r' = r \/ lt r r' = true).

(** A lookup in the table with a name. *)
Definition looked_up (lt : row -> row -> bool) (s : tables_state) (i : sec_index) (name : Z * Z * Z) (P : row -> Prop)
    (it : Z) (o : option row) (i' : sec_index) : Prop :=
  grown i i' /\
  ((exists t r, known_table s name t /\ first_of lt (rows i) t P r /\ o = Some r /\ get_row i' it = Ok r) \/
   (o = None /\ (forall t r, known_table s name t -> r ∈ rows i -> ix_t_id r = t -> ~ P r) /\
    ((exists t, known_table s name t /\ end_iterator (itr_cache i') t it) \/ ((forall t, ~ known_table s name t) /\ it = -1)))).

Lemma looked_up_spec n s (i : sec_index) lt (p : Z -> row -> bool) (P : row -> Prop) code scope table it o i' :
  tables_wf n s -> index_ok i -> room_object (itr_cache i) -> room_end (itr_cache i) -> row_order lt -> table_order lt ->
  (forall t r, ix_t_id r < t -> p t r = false) -> (forall t r, ix_t_id r = t -> p t r = true <-> P r) ->
  lookup_in s code scope table (fun t => first_row lt (p t)) i = (it, o, i') ->
  looked_up lt s i (code, scope, table) P it o i'.
Proof.
  intros Hw Hi Hr1 Hr2 Ho1 Ho2 Hlow Heq E.
  eapply lookup_in_spec in E as [Hg Hl]; [|done..|intros t r Ef; by apply first_row_Some in Ef as [? _]; [|done|apply Hi]]. split; [done|].
  destruct (find_table s code scope table) as [tab|] eqn:Ef.
  - apply (find_table_Some n) in Ef as [Ht En]; [|done]. assert (known_table s (code, scope, table) (tab_id tab)) as Hk by by exists tab.
    destruct (first_row lt (p (tab_id tab)) (rows i)) as [r|] eqn:Es.
    + apply first_row_Some in Es as (Hr & Hp & Hmin); [|done|apply Hi]. cbn in Hl. destruct (Z.eqb_spec (ix_t_id r) (tab_id tab)) as [Et|Et].
      * destruct Hl as [Hget ->]. left. exists (tab_id tab), r. split_and!; [done| |done..]. split_and!; [done..|by apply (Heq (tab_id tab))|].
        intros r' Hr' Et' HP. apply Hmin; [done|]. by apply Heq.
      * destruct Hl as [He ->]. right. split; [done|]. split; [|left; by exists (tab_id tab)].
        intros t r' Hk' Hr' Et' HP. assert (t = tab_id tab) as -> by by eapply known_table_row. apply (Heq (tab_id tab)) in HP; [|done].
        assert (tab_id tab < ix_t_id r) by (destruct (decide (ix_t_id r < tab_id tab)) as [Hl|]; [by rewrite (Hlow _ _ Hl) in Hp|lia]).
        destruct (Hmin r' Hr' HP) as [->|Hlt%Ho2]; [lia|]. cbn in Hlt. lia.
    + destruct Hl as [He ->]. right. split; [done|]. split; [|left; by exists (tab_id tab)].
      intros t r' Hk' Hr' Et' HP. assert (t = tab_id tab) as -> by by eapply known_table_row. apply (Heq (tab_id tab)) in HP; [|done].
      rewrite first_row_None in Es. by rewrite Es in HP.
  - destruct Hl as [-> ->]. assert (forall t, ~ known_table s (code, scope, table) t) as Hno.
    { intros t (tb & Ht & En & _). destruct (find_table_None _ _ _ _ Ef). rewrite <- En. apply list_elem_of_fmap. eauto. }
    right. split; [done|]. split; [|by right]. intros t r Hk. by destruct (Hno t).
Qed.

(** *** Changes *)

Variable other : Z -> Z.
Hypothesis other_nonneg : forall t, 0 <= other t.

Record secondary_ok (s : tables_state) (i : sec_index) : Prop := {
  so_tables : tables_wf (fun t => other t + rows_in t i) s;
  so_nonempty : no_empty_table s;
  so_index : index_ok i;
  so_bound : forall t, other t + rows_in t i < 2 ^ 32
}.

Definition sec_balanced (s : tables_state) (i : sec_index) (s' : tables_state) (i' : sec_index) : Prop :=
  forall a, billed (ram_deltas s) (ram_deltas s') a = (table_bytes a s' + sec_bytes a i') - (table_bytes a s + sec_bytes a i).

Lemma idx_store_spec cx scope table payer k v s i it s' i' :
  secondary_ok s i -> room_object (itr_cache i) -> room_end (itr_cache i) -> (forall t, other t + rows_in t i + 1 < 2 ^ 32) ->
  idx_store object_size cx scope table payer k v s i = Ok (it, s', i') ->
  secondary_ok s' i' /\ sec_balanced s i s' i' /\
  (exists r, get_row i' it = Ok r /\ rows i' = rows i ++ [r] /\ ix_primary_key r = k /\ ix_secondary_key r = v /\ ix_payer r = payer /\
     known_table s' (receiver cx, scope, table) (ix_t_id r)) /\
  (forall it' r, get_row i it' = Ok r -> get_row i' it' = Ok r).
Proof.
  intros [Hw Hne Hi Hbd] Hr1 Hr2 Hroom E. unfold idx_store in E. apply bind_Ok in E as (u1 & _ & E). apply bind_Ok in E as (u2 & _ & E).
  apply bind_Ok in E as ([tab s1] & Ef & E). destruct (find_or_create_spec _ _ _ _ _ _ _ _ _ Hw Hne Ef) as (Hw1 & Ht & En & Hne1 & _ & Hb1).
  eapply (store_row_spec (fun _ => object_size)) with (other := other) in E as (Hw2 & Hne2 & Hi2 & Hb2 & Eids & Enames & r & Er & Erows & Hget & _ & Hkeep & _);
    [|by intros|done|exact Hw1|done..].
  split_and!; [constructor; try done| |exists r; split_and!; try done; try by rewrite Er|done].
  - intros t. unfold rows_in. rewrite Erows, paid_app, paid_cons. cbn [paid foldr]. specialize (Hroom t). unfold rows_in in Hroom.
    destruct (_ =? _); lia.
  - intros a. rewrite (billed_trans _ (ram_deltas s1)), Hb1, Hb2. lia.
  - apply (known_table_same s1); [done..|]. exists tab. by rewrite Er.
Qed.

Lemma idx_update_spec cx it payer v s i s' i' :
  secondary_ok s i -> idx_update object_size cx it payer v s i = Ok (s', i') ->
  secondary_ok s' i' /\ sec_balanced s i s' i' /\
  exists r, get_row i it = Ok r /\
    (forall x, x ∈ rows i' <-> x = IndexObject (ix_id r) (ix_t_id r) (ix_primary_key r) (if payer =? 0 then ix_payer r else payer) v \/
       (x ∈ rows i /\ x <> r)) /\
    (forall it' x, get_row i it' = Ok x -> exists x', get_row i' it' = Ok x' /\ row_key x' = row_key x).
Proof.
  intros [Hw Hne Hi Hbd] E. unfold idx_update in E. apply bind_Ok in E as (u1 & _ & E). apply bind_Ok in E as (r & Hg & E).
  apply bind_Ok in E as (tobj & _ & E). apply bind_Ok in E as (tab & _ & E). apply bind_Ok in E as (u2 & _ & E).
  apply bind_Ok in E as (s1 & Eu & E). apply Ok_inj in E. injection E as <- <-. pose proof Hg as [_ Hr]%index_row_Ok; [|done].
  set (p := if payer =? 0 then ix_payer r else payer) in *. set (r' := IndexObject (ix_id r) (ix_t_id r) (ix_primary_key r) p v) in *.
  destruct (modify_row_spec (fun _ => object_size) i r r' Hi Hr) as (Hi' & Hrows & Hbytes & Hin & Hget); [done..|].
  assert (tables s1 = tables s /\ next_table_id s1 = next_table_id s /\
    forall a, billed (ram_deltas s) (ram_deltas s1) a = charge p object_size a - charge (ix_payer r) object_size a) as (Et1 & En1 & Hb).
  { destruct (Z.eqb_spec (ix_payer r) p) as [Ep|Ep]; cbn [negb] in Eu.
    - apply Ok_inj in Eu as <-. split_and!; [done..|]. intros a. rewrite Ep. unfold billed. lia.
    - apply bind_Ok in Eu as (s2 & E1 & E2). apply update_db_usage_Ok in E1 as (? & ? & Hb1). apply update_db_usage_Ok in E2 as (? & ? & Hb2).
      split_and!; [congruence..|]. intros a. rewrite (billed_trans _ (ram_deltas s2)), Hb1, Hb2. unfold charge.
      destruct (ix_payer r =? a), (p =? a); ring. }
  split_and!.
  - constructor; [|intros t Ht; apply Hne; by rewrite <- Et1|done|intros t; rewrite Hrows; apply Hbd].
    eapply tables_wf_same; [done..|]. eapply tables_wf_ext; [|exact Hw]. intros t. cbv beta. by rewrite Hrows.
  - intros a. rewrite Hb, Hbytes. unfold table_bytes. rewrite Et1. cbn [row_payer index_object_row r' ix_payer]. lia.
  - exists r. split_and!; [done..|]. intros it' x Hx. apply Hget in Hx as Hx'. eexists. split; [exact Hx'|].
    destruct (Z.eqb_spec (row_id x) (row_id r')) as [E|]; [|done]. pose proof Hx as [_ Hxr]%index_row_Ok; [|done].
    by rewrite (fmap_NoDup_inj row_id (rows i) x r (io_ids _ Hi) Hxr Hr E).
Qed.

Lemma idx_remove_spec cx it s i s' i' :
  secondary_ok s i -> idx_remove object_size cx it s i = Ok (s', i') ->
  secondary_ok s' i' /\ sec_balanced s i s' i' /\
  exists r, get_row i it = Ok r /\ (forall x, x ∈ rows i' <-> x ∈ rows i /\ x <> r) /\
    (forall it' x, get_row i' it' = Ok x <-> it' <> it /\ get_row i it' = Ok x).
Proof.
  intros [Hw Hne Hi Hbd] E. unfold idx_remove in E.
  eapply (remove_iterator_spec (fun _ => object_size)) with (other := other) in E
    as (Hw' & Hne' & Hi' & Hb & r & tab & Hg & _ & _ & _ & Hin & Hget & _ & _ & Hle); [|done..].
  split_and!; [constructor; try done|done|by exists r]. intros t. specialize (Hbd t). specialize (Hle t). lia.
Qed.
End Secondary.
