(* ===== verification/TableRuns.v ===== *)
(** Contract tables along any sequence of operations of the contracts of a
    transaction, on the primary and on all secondary indices, and the theorems on
    them. *)
From Stdlib Require Import ZArith Lia ZifyBool Sorted.
From stdpp Require Import base tactics numbers list gmap.
From S2P Require Import Prelude ResourceLimits Authority PermissionActions PermissionRuns ContractTables TableIndex TableOps.
#[local] Open Scope Z_scope.

(** ** Operations as values *)

Inductive index_op (SK : Type) : Type :=
| op_store (scope table payer id : Z) (value : SK)
| op_update (iterator payer : Z) (value : SK)
| op_remove (iterator : Z)
| op_find_secondary (code scope table : Z) (key : SK)
| op_lowerbound_secondary (code scope table : Z) (key : SK)
| op_upperbound_secondary (code scope table : Z) (key : SK)
| op_end_secondary (code scope table : Z)
| op_next_secondary (iterator : Z)
| op_previous_secondary (iterator : Z)
| op_find_primary (code scope table id : Z)
| op_lowerbound_primary (code scope table id : Z)
| op_upperbound_primary (code scope table id : Z)
| op_next_primary (iterator : Z)
| op_previous_primary (iterator : Z).
Arguments op_store {SK}.
Arguments op_update {SK}.
Arguments op_remove {SK}.
Arguments op_find_secondary {SK}.
Arguments op_lowerbound_secondary {SK}.
Arguments op_upperbound_secondary {SK}.
Arguments op_end_secondary {SK}.
Arguments op_next_secondary {SK}.
Arguments op_previous_secondary {SK}.
Arguments op_find_primary {SK}.
Arguments op_lowerbound_primary {SK}.
Arguments op_upperbound_primary {SK}.
Arguments op_next_primary {SK}.
Arguments op_previous_primary {SK}.

(** An operation on a secondary index, for its effect. *)
Definition run_index_op {SK} (less : SK -> SK -> bool) (object_size : Z) (cx : context) (op : index_op SK)
    (s : tables_state) (i : index_state (index_object SK)) : result (tables_state * index_state (index_object SK)) :=
  match op with
  | op_store scope table payer id value =>
      '(_, s, i) ← idx_store object_size cx scope table payer id value s i; mret (s, i)
  | op_update it payer value => idx_update object_size cx it payer value s i
  | op_remove it => idx_remove object_size cx it s i
  | op_find_secondary code scope table key => mret (s, (find_secondary less s code scope table key i).2)
  | op_lowerbound_secondary code scope table key => mret (s, (lowerbound_secondary less s code scope table key i).2)
  | op_upperbound_secondary code scope table key => mret (s, (upperbound_secondary less s code scope table key i).2)
  | op_end_secondary code scope table => mret (s, (end_secondary s code scope table i).2)
  | op_next_secondary it => x ← next_secondary less it i; mret (s, x.2)
  | op_previous_secondary it => x ← previous_secondary less s it i; mret (s, x.2)
  | op_find_primary code scope table id => mret (s, (find_primary s code scope table id i).2)
  | op_lowerbound_primary code scope table id => mret (s, (lowerbound_primary s code scope table id i).2)
  | op_upperbound_primary code scope table id => mret (s, (upperbound_primary s code scope table id i).2)
  | op_next_primary it => x ← next_primary it i; mret (s, x.2)
  | op_previous_primary it => x ← previous_primary s it i; mret (s, x.2)
  end.

Inductive kv_op : Type :=
| kv_store (scope table payer id : Z) (buffer : list Z)
| kv_update (iterator payer : Z) (buffer : list Z)
| kv_remove (iterator : Z)
| kv_find (code scope table id : Z)
| kv_lowerbound (code scope table id : Z)
| kv_upperbound (code scope table id : Z)
| kv_end (code scope table : Z)
| kv_next (iterator : Z)
| kv_previous (iterator : Z).

Definition run_kv_op (cx : context) (op : kv_op) (s : tables_state) (kv : kv_index) : result (tables_state * kv_index) :=
  match op with
  | kv_store scope table payer id buffer => '(_, s, kv) ← db_store_i64 cx scope table payer id buffer s kv; mret (s, kv)
  | kv_update it payer buffer => db_update_i64 cx it payer buffer s kv
  | kv_remove it => db_remove_i64 cx it s kv
  | kv_find code scope table id => mret (s, (db_find_i64 s code scope table id kv).2)
  | kv_lowerbound code scope table id => mret (s, (db_lowerbound_i64 s code scope table id kv).2)
  | kv_upperbound code scope table id => mret (s, (db_upperbound_i64 s code scope table id kv).2)
  | kv_end code scope table => mret (s, (db_end_i64 s code scope table kv).2)
  | kv_next it => x ← db_next_i64 it kv; mret (s, x.2)
  | kv_previous it => x ← db_previous_i64 s it kv; mret (s, x.2)
  end.

(** What is stored is a buffer of WebAssembly memory. *)
Definition kv_op_ok (op : kv_op) : Prop :=
  match op with kv_store _ _ _ _ buffer | kv_update _ _ buffer => vsize buffer < 2 ^ 32 | _ => True end.

(** ** Lookups make the cache grow *)

Section Lookups.
Context {R : Type} `{Row R}.

Lemma first_row_elem lt p (l : list R) m : first_row lt p l = Some m -> m ∈ l.
Proof.
  revert m. induction l as [|x l IH]; intros m E; [done|]. cbn [first_row] in E. destruct (first_row lt p l) as [m'|].
  - destruct (_ && _); injection E as <-; [by left|right; by apply IH].
  - destruct (p x); [|done]. injection E as <-. by left.
Qed.

Lemma next_in_grown lt it (i : index_state R) x :
  index_ok i -> room_object (itr_cache i) -> next_in lt it i = Ok x -> grown i x.2.
Proof.
  intros Hi Hr E. unfold next_in in E. destruct (it <? -1); [apply Ok_inj in E as <-; by apply grown_refl|].
  apply bind_Ok in E as (obj & Hg & E). destruct (first_row lt (lt obj) (rows i)) as [r|] eqn:Ef.
  - destruct (Z.eqb_spec (row_t_id r) (row_t_id obj)) as [Et|Et]; cbn [negb] in E.
    + apply Ok_inj in E as <-. destruct (found (Some r) (-1) i) as [[it' o] i'] eqn:Efd.
      eapply found_spec in Efd as [Hgr _]; [exact Hgr|done..|by eapply first_row_elem|].
      rewrite Et. by eapply get_row_known.
    + apply bind_Ok in E as (ei & _ & E). apply Ok_inj in E as <-. by apply grown_refl.
  - apply bind_Ok in E as (ei & _ & E). apply Ok_inj in E as <-. by apply grown_refl.
Qed.

Lemma end_iterator_known (i : index_state R) ei tobj :
  index_ok i -> find_table_by_end_iterator (itr_cache i) ei = Ok (Some tobj) -> is_Some (table_cache (itr_cache i) !! tobj).
Proof.
  intros Hi E. unfold find_table_by_end_iterator in E. apply bind_Ok in E as (u & _ & E). apply bind_Ok in E as (n & _ & E).
  destruct (_ <=? n); [done|]. apply bind_Ok in E as (t & Ea & E). apply Ok_inj in E as [= ->].
  unfold at_index in Ea. destruct (0 <=? n); [|done]. destruct (end_iterator_to_table (itr_cache i) !! Z.to_nat n) as [t|] eqn:En; [|done].
  apply Ok_inj in Ea as ->. eexists. apply (cw_tables _ (io_cache i Hi)). split; [done|by exists (Z.to_nat n)].
Qed.

Lemma previous_in_grown lt s n it (i : index_state R) x :
  tables_wf n s -> index_ok i -> room_object (itr_cache i) -> previous_in lt s it i = Ok x -> grown i x.2.
Proof.
  intros Hw Hi Hr E. unfold previous_in in E. destruct (it <? -1).
  - apply bind_Ok in E as ([tobj|] & Ef & E); [|done]. apply bind_Ok in E as (tab & Ed & E).
    apply (deref_table_Ok _ _ _ _ Hw) in Ed as [_ <-]. apply end_iterator_known in Ef; [|done].
    destruct (last_row _ _ _) as [r|] eqn:El; [|apply Ok_inj in E as <-; by apply grown_refl].
    destruct (Z.eqb_spec (row_t_id r) (tab_id tab)) as [Et|Et]; cbn [negb] in E; [|apply Ok_inj in E as <-; by apply grown_refl].
    apply Ok_inj in E as <-. destruct (found (Some r) (-1) i) as [[it' o] i'] eqn:Efd.
    eapply found_spec in Efd as [Hgr _]; [exact Hgr|done..|by eapply first_row_elem|by rewrite Et].
  - apply bind_Ok in E as (obj & Hg & E).
    destruct (last_row _ _ _) as [r|] eqn:El; [|apply Ok_inj in E as <-; by apply grown_refl].
    destruct (Z.eqb_spec (row_t_id r) (row_t_id obj)) as [Et|Et]; cbn [negb] in E; [|apply Ok_inj in E as <-; by apply grown_refl].
    apply Ok_inj in E as <-. destruct (found (Some r) (-1) i) as [[it' o] i'] eqn:Efd.
    eapply found_spec in Efd as [Hgr _]; [exact Hgr|done..|by eapply first_row_elem|]. rewrite Et. by eapply get_row_known.
Qed.

Lemma lookup_in_grown s code scope table search (i : index_state R) :
  index_ok i -> room_object (itr_cache i) -> room_end (itr_cache i) -> (forall t r, search t (rows i) = Some r -> r ∈ rows i) ->
  grown i (lookup_in s code scope table search i).2.
Proof.
  intros Hi H1 H2 Hs. destruct (lookup_in s code scope table search i) as [[it o] i'] eqn:E.
  by destruct (lookup_in_spec _ _ _ _ _ _ _ _ _ Hi H1 H2 Hs E) as [Hg _].
Qed.
End Lookups.

(** ** An operation keeps the invariants *)

Section Steps.
Variable other : Z -> Z.
Hypothesis other_nonneg : forall t, 0 <= other t.

Ltac grown_lookup :=
  first [apply lookup_in_grown; [done..|]; intros t r; first [apply first_row_elem|by intros [? _]%find_Some]
        |eapply next_in_grown; eassumption|eapply previous_in_grown; eassumption].

Lemma drop_row {A B C} (x : A * B * C) : (let '(it, _, i) := x in (it, i)).2 = x.2.
Proof. by destruct x as [[? ?] ?]. Qed.

Lemma grown_primary_ok s kv kv' : primary_ok other s kv -> grown kv kv' -> primary_ok other s kv' /\ balanced s kv s kv'.
Proof.
  intros [Hw Hne Hi Hsz Hbd] [Er En Hok _ _]. split.
  - constructor; try done; unfold rows_in, kv_sizes in *; rewrite ?Er; done.
  - intros a. unfold billed, index_bytes. rewrite Er. lia.
Qed.

Lemma run_kv_op_ok cx op s kv s' kv' :
  primary_ok other s kv -> room_object (itr_cache kv) -> room_end (itr_cache kv) ->
  (forall t, other t + rows_in t kv + 1 < 2 ^ 32) -> kv_op_ok op -> run_kv_op cx op s kv = Ok (s', kv') ->
  primary_ok other s' kv' /\ balanced s kv s' kv'.
Proof.
  intros Hok H1 H2 Hb Hop E. pose proof (po_index _ _ _ Hok) as Hi. pose proof (po_tables _ _ _ Hok) as Hw.
  destruct op; cbn [run_kv_op kv_op_ok] in *.
  - apply bind_Ok in E as ([[it s1] kv1] & E1 & E). apply Ok_inj in E. injection E as <- <-.
    eapply store_spec in E1 as (? & ? & _); done.
  - eapply update_spec in E as (? & ? & _); done.
  - eapply remove_spec in E as (? & ? & _); done.
  - apply Ok_inj in E. injection E as <- <-. apply grown_primary_ok; [done|]. unfold db_find_i64. rewrite drop_row. grown_lookup.
  - apply Ok_inj in E. injection E as <- <-. apply grown_primary_ok; [done|]. unfold db_lowerbound_i64. rewrite drop_row. grown_lookup.
  - apply Ok_inj in E. injection E as <- <-. apply grown_primary_ok; [done|]. unfold db_upperbound_i64. rewrite drop_row. grown_lookup.
  - apply Ok_inj in E. injection E as <- <-. apply grown_primary_ok; [done|]. unfold db_end_i64.
    destruct (lookup_end _ _ _ _ _) as [it i'] eqn:El. by destruct (lookup_end_spec _ _ _ _ _ _ _ Hi H2 El) as [? _].
  - apply bind_Ok in E as (x & E1 & E). apply Ok_inj in E. injection E as <- <-. apply grown_primary_ok; [done|]. unfold db_next_i64 in E1. grown_lookup.
  - apply bind_Ok in E as (x & E1 & E). apply Ok_inj in E. injection E as <- <-. apply grown_primary_ok; [done|]. unfold db_previous_i64 in E1. grown_lookup.
Qed.

Lemma grown_secondary_ok {SK} size s (i i' : index_state (index_object SK)) :
  secondary_ok other s i -> grown i i' -> secondary_ok other s i' /\ sec_balanced size s i s i'.
Proof.
  intros [Hw Hne Hi Hbd] [Er En Hok _ _]. split.
  - constructor; try done; unfold rows_in in *; rewrite ?Er; done.
  - intros a. unfold billed, index_bytes. rewrite Er. lia.
Qed.

Lemma run_index_op_ok {SK} less size cx (op : index_op SK) s i s' i' :
  secondary_ok other s i -> room_object (itr_cache i) -> room_end (itr_cache i) ->
  (forall t, other t + rows_in t i + 1 < 2 ^ 32) -> run_index_op less size cx op s i = Ok (s', i') ->
  secondary_ok other s' i' /\ sec_balanced size s i s' i'.
Proof.
  intros Hok H1 H2 Hb E. pose proof (so_index _ _ _ Hok) as Hi. pose proof (so_tables _ _ _ Hok) as Hw.
  destruct op; cbn [run_index_op] in *;
    try (apply Ok_inj in E; injection E as <- <-; apply grown_secondary_ok; [done|]);
    try (apply bind_Ok in E as (x & E1 & E); apply Ok_inj in E; injection E as <- <-; apply grown_secondary_ok; [done|]).
  - apply bind_Ok in E as ([[it s1] i1] & E1 & E). apply Ok_inj in E. injection E as <- <-. eapply idx_store_spec in E1 as (? & ? & _); done.
  - eapply idx_update_spec in E as (? & ? & _); done.
  - eapply idx_remove_spec in E as (? & ? & _); done.
  - unfold find_secondary. grown_lookup.
  - unfold lowerbound_secondary. grown_lookup.
  - unfold upperbound_secondary. grown_lookup.
  - unfold end_secondary. destruct (lookup_end _ _ _ _ _) as [it i'] eqn:El. by destruct (lookup_end_spec _ _ _ _ _ _ _ Hi H2 El) as [? _].
  - unfold next_secondary in E1. grown_lookup.
  - unfold previous_secondary in E1. grown_lookup.
  - unfold find_primary. grown_lookup.
  - unfold lowerbound_primary. rewrite drop_row. grown_lookup.
  - unfold upperbound_primary. rewrite drop_row. grown_lookup.
  - unfold next_primary in E1. grown_lookup.
  - unfold previous_primary in E1. grown_lookup.
Qed.
End Steps.

(** ** All indices together *)

Inductive table_op (F64 F128 : Type) : Type :=
| on_keyval (op : kv_op)
| on_idx64 (op : index_op Z)
| on_idx128 (op : index_op Z)
| on_idx256 (op : index_op (Z * Z))
| on_idx_double (op : index_op F64)
| on_idx_long_double (op : index_op F128)
| end_of_action
| next_action.
Arguments on_keyval {F64 F128}.
Arguments on_idx64 {F64 F128}.
Arguments on_idx128 {F64 F128}.
Arguments on_idx256 {F64 F128}.
Arguments on_idx_double {F64 F128}.
Arguments on_idx_long_double {F64 F128}.
Arguments end_of_action {F64 F128}.
Arguments next_action {F64 F128}.

Section Runs.
(** The floats that are not NaN, and the comparisons of the softfloat library. *)
Context {F64 F128 : Type}.
Variable f64_lt : F64 -> F64 -> bool.
Variable f128_lt : F128 -> F128 -> bool.
Abbreviation tables_t := (apply_tables F64 F128).

Definition with_keyval (st : tables_t) (x : tables_state * kv_index) : tables_t :=
  ApplyTables x.1 x.2 (idx64 st) (idx128 st) (idx256 st) (idx_double st) (idx_long_double st).
Definition run_table_op (cx : context) (op : table_op F64 F128) (st : tables_t) : result tables_t :=
  let s := ap_shared st in
  match op with
  | on_keyval op => x ← run_kv_op cx op s (keyval st); mret (with_keyval st x)
  | on_idx64 op =>
      x ← run_index_op Z.ltb index64_size cx op s (idx64 st);
      mret (ApplyTables x.1 (keyval st) x.2 (idx128 st) (idx256 st) (idx_double st) (idx_long_double st))
  | on_idx128 op =>
      x ← run_index_op Z.ltb index128_size cx op s (idx128 st);
      mret (ApplyTables x.1 (keyval st) (idx64 st) x.2 (idx256 st) (idx_double st) (idx_long_double st))
  | on_idx256 op =>
      x ← run_index_op key256_ltb index256_size cx op s (idx256 st);
      mret (ApplyTables x.1 (keyval st) (idx64 st) (idx128 st) x.2 (idx_double st) (idx_long_double st))
  | on_idx_double op =>
      x ← run_index_op f64_lt index_double_size cx op s (idx_double st);
      mret (ApplyTables x.1 (keyval st) (idx64 st) (idx128 st) (idx256 st) x.2 (idx_long_double st))
  | on_idx_long_double op =>
      x ← run_index_op f128_lt index_long_double_size cx op s (idx_long_double st);
      mret (ApplyTables x.1 (keyval st) (idx64 st) (idx128 st) (idx256 st) (idx_double st) x.2)
  | end_of_action =>
      check_ram_restrictions cx s;; mret (with_keyval st ((finalize_trace s).2, keyval st))
  | next_action => mret (new_apply_context st)
  end.

Definition secondary_rows (t : Z) (st : tables_t) : Z :=
  rows_in t (idx64 st) + rows_in t (idx128 st) + rows_in t (idx256 st) + rows_in t (idx_double st) + rows_in t (idx_long_double st).
Definition total_rows (t : Z) (st : tables_t) : Z := rows_in t (keyval st) + secondary_rows t st.

Record state_ok (st : tables_t) : Prop := {
  st_tables : tables_wf (fun t => total_rows t st) (ap_shared st);
  st_nonempty : no_empty_table (ap_shared st);
  st_keyval : index_ok (keyval st);
  st_sizes : kv_sizes (keyval st);
  st_idx64 : index_ok (idx64 st);
  st_idx128 : index_ok (idx128 st);
  st_idx256 : index_ok (idx256 st);
  st_double : index_ok (idx_double st);
  st_long_double : index_ok (idx_long_double st);
  st_bound : forall t, total_rows t st < 2 ^ 32
}.

(** What an account pays for in all indices. *)
Definition stored_bytes (a : Z) (st : tables_t) : Z :=
  table_bytes a (ap_shared st) + index_bytes kv_bill a (keyval st) + index_bytes (fun _ => index64_size) a (idx64 st) +
  index_bytes (fun _ => index128_size) a (idx128 st) + index_bytes (fun _ => index256_size) a (idx256 st) +
  index_bytes (fun _ => index_double_size) a (idx_double st) + index_bytes (fun _ => index_long_double_size) a (idx_long_double st).

(** There are numbers left for iterators and for counting rows. *)
Definition has_room (st : tables_t) : Prop :=
  let room c := room_object c /\ room_end c in
  room (itr_cache (keyval st)) /\ room (itr_cache (idx64 st)) /\ room (itr_cache (idx128 st)) /\ room (itr_cache (idx256 st)) /\
  room (itr_cache (idx_double st)) /\ room (itr_cache (idx_long_double st)) /\ (forall t, total_rows t st + 1 < 2 ^ 32).

Definition table_op_ok (op : table_op F64 F128) : Prop := match op with on_keyval op => kv_op_ok op | _ => True end.

(** The states of a transaction that starts from [st0], in whatever contexts its
    operations run. *)
Inductive reachable (st0 : tables_t) : tables_t -> Prop :=
| reach_start : reachable st0 st0
| reach_step st cx op st' : reachable st0 st -> has_room st -> table_op_ok op ->
    run_table_op cx op st = Ok st' -> reachable st0 st'.

Lemma rows_in_nonneg {R} `{Row R} t (i : index_state R) : 0 <= rows_in t i.
Proof. by apply paid_nonneg. Qed.

Lemma secondary_nonneg t st : 0 <= secondary_rows t st.
Proof.
  unfold secondary_rows. pose proof (rows_in_nonneg t (idx64 st)). pose proof (rows_in_nonneg t (idx128 st)).
  pose proof (rows_in_nonneg t (idx256 st)). pose proof (rows_in_nonneg t (idx_double st)). pose proof (rows_in_nonneg t (idx_long_double st)). lia.
Qed.

Lemma state_primary st : state_ok st -> primary_ok (fun t => secondary_rows t st) (ap_shared st) (keyval st).
Proof.
  intros Hst. constructor; try apply Hst.
  - eapply tables_wf_ext; [|apply Hst]. intros t. unfold total_rows. lia.
  - intros t. pose proof (st_bound _ Hst t). unfold total_rows in *. lia.
Qed.

(** What an operation on one secondary index leaves to prove. *)
Lemma secondary_step {SK} less size cx (op : index_op SK) (st : tables_t) (i i' : index_state (index_object SK)) s' :
  state_ok st -> index_ok i -> room_object (itr_cache i) -> room_end (itr_cache i) -> (forall t, total_rows t st + 1 < 2 ^ 32) ->
  (forall t, rows_in t i <= total_rows t st) -> run_index_op less size cx op (ap_shared st) i = Ok (s', i') ->
  tables_wf (fun t => total_rows t st - rows_in t i + rows_in t i') s' /\ no_empty_table s' /\ index_ok i' /\
  (forall t, total_rows t st - rows_in t i + rows_in t i' < 2 ^ 32) /\
  (forall a, billed (ram_deltas (ap_shared st)) (ram_deltas s') a =
     (table_bytes a s' + index_bytes (fun _ => size) a i') - (table_bytes a (ap_shared st) + index_bytes (fun _ => size) a i)).
Proof.
  intros Hst Hi H1 H2 Hb Hle E.
  eapply (run_index_op_ok (fun t => total_rows t st - rows_in t i)) in E as [[Hw Hne Hi' Hbd] Hbal]; [done|..]; try done.
  - intros t. specialize (Hle t). cbv beta. lia.
  - constructor; [|apply Hst|done|].
    + eapply tables_wf_ext; [|apply Hst]. intros t. cbv beta. lia.
    + intros t. pose proof (st_bound _ Hst t). cbv beta. lia.
  - intros t. specialize (Hb t). cbv beta. lia.
Qed.

Lemma end_of_action_ok st :
  state_ok st -> state_ok (with_keyval st ((finalize_trace (ap_shared st)).2, keyval st)).
Proof. intros [[? ? ? ? ?] ? ? ? ? ? ? ? ? ?]. constructor; done. Qed.

Lemma empty_cache_ok {R} `{Row R} (i : index_state R) : index_ok i -> index_ok (with_cache i empty_cache).
Proof.
  intros Hi. constructor; try apply Hi; [apply empty_cache_wf|]. intros it obj E.
  cbn [with_cache itr_cache] in E. by apply cache_get_empty in E.
Qed.

Lemma next_action_ok st : state_ok st -> state_ok (new_apply_context st).
Proof.
  intros [[? ? ? ? ?] ? ? ? ? ? ? ? ? ?]. constructor; try done; by apply empty_cache_ok.
Qed.

Ltac secondary_case Hst :=
  lazymatch goal with
  | E : _ ≫= _ = Ok _ |- _ =>
      let x := fresh "x" in let E1 := fresh "E" in
      apply bind_Ok in E as (x & E1 & E); destruct x as [s' i']; apply Ok_inj in E as <-;
      eapply secondary_step in E1 as (Hw & Hne & Hi & Hbd & Hbal);
        [split; [constructor; try apply Hst; try done;
                 [eapply tables_wf_ext; [|exact Hw]; intros t; unfold total_rows, secondary_rows; cbn; lia
                 |intros t; specialize (Hbd t); unfold total_rows, secondary_rows in *; cbn in *; lia]
                |intros a; specialize (Hbal a); unfold stored_bytes; cbn in *; lia]
        |exact Hst|apply Hst|done|done|done
        |intros t; unfold total_rows, secondary_rows; repeat match goal with P : forall t, 0 <= rows_in t _ |- _ => specialize (P t) end; lia]
  end.

Lemma step_ok cx op st st' :
  state_ok st -> has_room st -> table_op_ok op -> run_table_op cx op st = Ok st' ->
  state_ok st' /\ (forall a, billed (ram_deltas (ap_shared st)) (ram_deltas (ap_shared st')) a = stored_bytes a st' - stored_bytes a st).
Proof.
  intros Hst ([R1 R1'] & [R2 R2'] & [R3 R3'] & [R4 R4'] & [R5 R5'] & [R6 R6'] & Hcount) Hop E.
  assert (forall t, 0 <= rows_in t (keyval st)) as P0 by (intros; apply rows_in_nonneg).
  assert (forall t, 0 <= rows_in t (idx64 st)) as P1 by (intros; apply rows_in_nonneg).
  assert (forall t, 0 <= rows_in t (idx128 st)) as P2 by (intros; apply rows_in_nonneg).
  assert (forall t, 0 <= rows_in t (idx256 st)) as P3 by (intros; apply rows_in_nonneg).
  assert (forall t, 0 <= rows_in t (idx_double st)) as P4 by (intros; apply rows_in_nonneg).
  assert (forall t, 0 <= rows_in t (idx_long_double st)) as P5 by (intros; apply rows_in_nonneg).
  destruct op as [op|op|op|op|op|op| |]; cbn [run_table_op] in E.
  - apply bind_Ok in E as ([s' kv'] & E & Eq). apply Ok_inj in Eq as <-.
    eapply (run_kv_op_ok (fun t => secondary_rows t st)) in E as [[Hw Hne Hi Hsz Hbd] Hbal];
      [|intros; apply secondary_nonneg|by apply state_primary|done..|intros t; specialize (Hcount t); unfold total_rows in Hcount; lia|done].
    split; [|intros a; specialize (Hbal a); unfold stored_bytes; cbn in *; lia]. constructor; try apply Hst; try done.
    + eapply tables_wf_ext; [|exact Hw]. intros t. unfold total_rows, secondary_rows. cbn. lia.
    + intros t. specialize (Hbd t). unfold total_rows, secondary_rows in *. cbn in *. lia.
  - secondary_case Hst.
  - secondary_case Hst.
  - secondary_case Hst.
  - secondary_case Hst.
  - secondary_case Hst.
  - apply bind_Ok in E as (u & _ & E). apply Ok_inj in E as <-. split; [by apply end_of_action_ok|]. intros a.
    set (st' := with_keyval _ _). change (stored_bytes a st') with (stored_bytes a st).
    change (ram_deltas (ap_shared st')) with (ram_deltas (ap_shared st)). unfold billed. lia.
  - apply Ok_inj in E as <-. split; [by apply next_action_ok|]. intros a.
    change (stored_bytes a (new_apply_context st)) with (stored_bytes a st). unfold billed. cbn. lia.
Qed.

(** A transaction starts with a database in order, and nothing in its caches. *)
Definition starts (st : tables_t) : Prop :=
  state_ok st /\ ram_deltas (ap_shared st) = ∅ /\
  itr_cache (keyval st) = empty_cache /\ itr_cache (idx64 st) = empty_cache /\ itr_cache (idx128 st) = empty_cache /\
  itr_cache (idx256 st) = empty_cache /\ itr_cache (idx_double st) = empty_cache /\ itr_cache (idx_long_double st) = empty_cache.

Lemma reachable_ok st0 st :
  state_ok st0 -> reachable st0 st ->
  state_ok st /\ (forall a, billed (ram_deltas (ap_shared st0)) (ram_deltas (ap_shared st)) a = stored_bytes a st - stored_bytes a st0).
Proof.
  intros H0. induction 1 as [|st cx op st' Hr [Hst Hb] Hroom Hop E].
  - split; [done|]. intros a. unfold billed. lia.
  - destruct (step_ok _ _ _ _ Hst Hroom Hop E) as [Hst' Hb']. split; [done|]. intros a.
    rewrite (billed_trans _ (ram_deltas (ap_shared st))), Hb, Hb'. lia.
Qed.

(** Every iterator that the cache hands out leads to a row. *)
Definition never_dangles {R} `{Row R} (i : index_state R) : Prop :=
  forall it obj, cache_get (itr_cache i) it = Ok obj -> exists r, get_row i it = Ok r /\ row_id r = obj.

Lemma index_never_dangles {R} `{Row R} (i : index_state R) : index_ok i -> never_dangles i.
Proof. intros Hi it obj E. destruct (cached_row i it obj Hi E) as (r & ? & ? & _). by exists r. Qed.

(** C9. Contract tables stay exact, whatever operations the actions of a
    transaction make on the primary and the secondary indices: tables have
    different names; each counts the rows that it has in all indices, and has at
    least one; every row is in a table; no iterator that was handed out and not
    removed leads to a row that is gone; and the RAM that an account was billed is
    the size of the rows and tables it pays for, less what it paid for before. *)
Theorem contract_tables_reachable (st0 st : tables_t) :
  starts st0 -> reachable st0 st ->
  NoDup (table_name <$> tables (ap_shared st)) /\
  (forall tab, tab ∈ tables (ap_shared st) -> tab_count tab = total_rows (tab_id tab) st /\ 0 < tab_count tab) /\
  (forall t, 0 < total_rows t st -> t ∈ tab_id <$> tables (ap_shared st)) /\
  never_dangles (keyval st) /\ never_dangles (idx64 st) /\ never_dangles (idx128 st) /\ never_dangles (idx256 st) /\
  never_dangles (idx_double st) /\ never_dangles (idx_long_double st) /\
  (forall a, default 0 (ram_deltas (ap_shared st) !! a) = stored_bytes a st - stored_bytes a st0).
Proof.
  intros (Hst0 & Hram & _) Hr. destruct (reachable_ok st0 st Hst0 Hr) as [Hst Hb]. pose proof (st_tables _ Hst) as Hw.
  split_and!; try (apply index_never_dangles; apply Hst).
  - apply Hw.
  - intros tab Ht. split; [by apply Hw|by apply Hst].
  - intros t Ht. apply Hw. lia.
  - intros a. specialize (Hb a). rewrite Hram in Hb. unfold billed in Hb. rewrite lookup_empty in Hb. cbn in Hb. lia.
Qed.

(** C10. The primary index is a map: in every state of a transaction, a stored row
    is one that was not there, and then the map has it and is otherwise the same;
    an update changes the payer and the value of the key that its iterator is at,
    a removal takes that key out, both only in tables of the receiver; and the
    iterators to other rows keep them. *)
Theorem primary_index_changes (st0 st : tables_t) (cx : context) :
  starts st0 -> reachable st0 st -> has_room st ->
  let s := ap_shared st in let kv := keyval st in
  (forall scope table payer k buffer it s' kv', vsize buffer < 2 ^ 32 ->
     db_store_i64 cx scope table payer k buffer s kv = Ok (it, s', kv') ->
     let name := (receiver cx, scope, table) in
     db_map s kv name k = None /\ points_to s' kv' it name k /\
     (forall name' k', db_map s' kv' name' k' = if decide ((name', k') = (name, k)) then Some (payer, buffer) else db_map s kv name' k') /\
     (forall it' r, get_row kv it' = Ok r -> get_row kv' it' = Ok r)) /\
  (forall it payer buffer s' kv', vsize buffer < 2 ^ 32 -> db_update_i64 cx it payer buffer s kv = Ok (s', kv') ->
     exists name k old, points_to s kv it name k /\ db_map s kv name k = Some old /\ name.1.1 = receiver cx /\
     (forall name' k', db_map s' kv' name' k' =
        if decide ((name', k') = (name, k)) then Some (if payer =? 0 then old.1 else payer, buffer) else db_map s kv name' k') /\
     (forall it' x, get_row kv it' = Ok x -> exists x', get_row kv' it' = Ok x' /\ row_key x' = row_key x)) /\
  (forall it s' kv', db_remove_i64 cx it s kv = Ok (s', kv') ->
     exists name k, points_to s kv it name k /\ name.1.1 = receiver cx /\
     (forall name' k', db_map s' kv' name' k' = if decide ((name', k') = (name, k)) then None else db_map s kv name' k') /\
     (forall it' x, get_row kv' it' = Ok x <-> it' <> it /\ get_row kv it' = Ok x)).
Proof.
  intros (Hst0 & _) Hr Hroom s kv. destruct (reachable_ok st0 st Hst0 Hr) as [Hst _]. pose proof (state_primary st Hst) as Hok.
  fold s kv in Hok. destruct Hroom as ([R1 R2] & _ & _ & _ & _ & _ & Hcount).
  assert (forall t, 0 <= secondary_rows t st) as Hsec by (intros; apply secondary_nonneg).
  assert (forall it r name, get_row kv it = Ok r -> known_table s name (kv_t_id r) -> points_to s kv it name (kv_primary_key r)) as Hpt.
  { intros it r name Hg Hk. exists r. split_and!; [done..|]. eapply row_in_map; [exact Hok| |done]. by apply index_row_Ok in Hg as [_ ?]; [|apply Hok]. }
  split_and!.
  - intros scope table payer k buffer it s' kv' Hb E name.
    eapply (store_spec _ Hsec) in E as (Hok' & _ & Hnone & Hmap & (r & Hg & <- & Hk) & Hkeep);
      [|done..|intros t; specialize (Hcount t); unfold total_rows in Hcount; cbv beta; fold kv in Hcount; lia].
    split_and!; try done. exists r. split_and!; [done..|]. eapply row_in_map; [exact Hok'| |done]. by apply index_row_Ok in Hg as [_ ?]; [|apply Hok'].
  - intros it payer buffer s' kv' Hb E. eapply (update_spec _) in E as (_ & _ & r & name & Hg & Hk & Hrc & Hmap & Hkeep); [|done..].
    pose proof (Hpt it r name Hg Hk) as Hp. exists name, (kv_primary_key r), (kv_payer r, kv_value r). split_and!; [done| |done..].
    destruct Hp as (r' & Hg' & _ & _ & Hm). congruence.
  - intros it s' kv' E. eapply (remove_spec _ Hsec) in E as (_ & _ & r & name & Hg & Hk & Hrc & Hmap & Hkeep); [|done].
    exists name, (kv_primary_key r). split_and!; try done. by apply Hpt.
Qed.

(** C11. Lookups in the primary index are lookups in the map: in every state of a
    transaction, finding, lower and upper bounds return an iterator at the key,
    at the least key not below, and at the least key above; the end iterator of
    the table when there is none, and -1 when there is no table; stepping forward
    and back from an iterator, or back from the end, returns and leads to the
    next key and the one before; and reading an iterator copies the value of its
    key.  None of them fails, and iterators handed out before keep their rows. *)
Theorem primary_index_lookups (st0 st : tables_t) :
  starts st0 -> reachable st0 st -> has_room st ->
  let s := ap_shared st in let kv := keyval st in
  (forall code scope table k,
     let name := (code, scope, table) in
     (let '(it, kv') := db_find_i64 s code scope table k kv in grown kv kv' /\ at_least s kv' it name (fun k' => k' = k)) /\
     (let '(it, kv') := db_lowerbound_i64 s code scope table k kv in grown kv kv' /\ at_least s kv' it name (fun k' => k <= k')) /\
     (let '(it, kv') := db_upperbound_i64 s code scope table k kv in grown kv kv' /\ at_least s kv' it name (fun k' => k < k')) /\
     (let '(it, kv') := db_end_i64 s code scope table kv in grown kv kv' /\ at_least s kv' it name (fun _ => False))) /\
  (forall it name k, points_to s kv it name k ->
     (exists it' o kv', db_next_i64 it kv = Ok (it', o, kv') /\ grown kv kv' /\ at_least s kv' it' name (fun k' => k < k') /\
        (forall r, o = Some r -> points_to s kv' it' name (kv_primary_key r))) /\
     (exists it' o kv', db_previous_i64 s it kv = Ok (it', o, kv') /\ grown kv kv' /\ at_greatest s kv' it' name (fun k' => k' < k) /\
        (forall r, o = Some r -> points_to s kv' it' name (kv_primary_key r))) /\
     (forall p v size, db_map s kv name k = Some (p, v) -> 0 < size < 2 ^ 31 ->
        db_get_i64 it size kv = Ok (Z.min size (vsize v), take (Z.to_nat size) v))) /\
  (forall it name, at_end s kv it name ->
     exists it' o kv', db_previous_i64 s it kv = Ok (it', o, kv') /\ grown kv kv' /\ at_greatest s kv' it' name (fun _ => True) /\
       (forall r, o = Some r -> points_to s kv' it' name (kv_primary_key r))).
Proof.
  intros (Hst0 & _) Hr Hroom s kv. destruct (reachable_ok st0 st Hst0 Hr) as [Hst _]. pose proof (state_primary st Hst) as Hok.
  fold s kv in Hok. destruct Hroom as ([R1 R2] & _). split_and!.
  - intros code scope table k name. split_and!.
    + destruct (db_find_i64 s code scope table k kv) as [it kv'] eqn:E. by eapply find_i64_spec.
    + destruct (db_lowerbound_i64 s code scope table k kv) as [it kv'] eqn:E. by eapply lowerbound_i64_spec.
    + destruct (db_upperbound_i64 s code scope table k kv) as [it kv'] eqn:E. by eapply upperbound_i64_spec.
    + destruct (db_end_i64 s code scope table kv) as [it kv'] eqn:E. by eapply end_i64_spec.
  - intros it name k Hp. split_and!; [by eapply next_i64_spec|by eapply previous_i64_spec|].
    intros p v size Hm Hsize. destruct Hp as (r & Hg & _ & _ & Hm'). rewrite Hm in Hm'. injection Hm' as -> ->. unfold db_get_i64.
    rewrite Hg, ret_bind. replace (size =? 0) with false by lia. rewrite i32_small by (unfold vsize; lia).
    unfold mret, result_ret. do 2 f_equal. destruct (decide (size <= vsize (kv_value r))) as [Hle|Hgt].
    + by rewrite Z.min_l.
    + rewrite Z.min_r by lia. unfold vsize in *. rewrite Nat2Z.id. rewrite !take_ge by lia. done.
  - intros it name He. eapply previous_end_spec; try done. unfold room_end in R2. fold kv in R2. lia.
Qed.

(** What lookups and steps of a secondary index are to return. *)
Definition secondary_exact {SK} (less : SK -> SK -> bool) (s : tables_state) (i : index_state (index_object SK)) : Prop :=
  let lt := secondary_ltb less in
  (forall code scope table key,
     let name := (code, scope, table) in
     (let '(it, o, i') := find_secondary less s code scope table key i in
      looked_up lt s i name (fun r => less (ix_secondary_key r) key = false /\ less key (ix_secondary_key r) = false) it o i') /\
     (let '(it, o, i') := lowerbound_secondary less s code scope table key i in
      looked_up lt s i name (fun r => less (ix_secondary_key r) key = false) it o i') /\
     (let '(it, o, i') := upperbound_secondary less s code scope table key i in
      looked_up lt s i name (fun r => less key (ix_secondary_key r) = true) it o i')) /\
  (forall it obj, get_row i it = Ok obj ->
     (exists it' o i', next_secondary less it i = Ok (it', o, i') /\ grown i i' /\
        ((exists r, o = Some r /\ row_after lt (rows i) obj r /\ get_row i' it' = Ok r) \/
         (o = None /\ (forall r, r ∈ rows i -> row_t_id r = row_t_id obj -> lt obj r = false) /\
          end_iterator (itr_cache i') (row_t_id obj) it'))) /\
     (exists it' o i', previous_secondary less s it i = Ok (it', o, i') /\ grown i i' /\
        ((exists r, o = Some r /\ row_before lt (rows i) obj r /\ get_row i' it' = Ok r) \/
         (o = None /\ it' = -1 /\ forall r, r ∈ rows i -> row_t_id r = row_t_id obj -> lt r obj = false)))).

Lemma secondary_exact_ok {SK} less n s (i : index_state (index_object SK)) :
  strict_weak less -> tables_wf n s -> index_ok i -> room_object (itr_cache i) -> room_end (itr_cache i) -> secondary_exact less s i.
Proof.
  intros Hless Hw Hi R1 R2. destruct (secondary_order less Hless) as [Ho1 Ho2]. split.
  - intros code scope table key name. split_and!.
    + unfold find_secondary. destruct (lookup_in _ _ _ _ _ _) as [[it o] i'] eqn:E.
      eapply looked_up_spec in E; [exact E|done..| |]; intros t r Ht; unfold row_ltb_key, key_ltb_row; lia.
    + unfold lowerbound_secondary. destruct (lookup_in _ _ _ _ _ _) as [[it o] i'] eqn:E.
      eapply looked_up_spec in E; [exact E|done..| |]; intros t r Ht; unfold row_ltb_key; lia.
    + unfold upperbound_secondary. destruct (lookup_in _ _ _ _ _ _) as [[it o] i'] eqn:E.
      eapply looked_up_spec in E; [exact E|done..| |]; intros t r Ht; unfold key_ltb_row; lia.
  - intros it obj Hg. split; [by apply next_in_spec|by apply previous_in_row_spec].
Qed.

(** C12. Secondary indices are ordered by their keys: in every state of a
    transaction, lookups in each of them return the first row of the table, by
    secondary and then by primary key, among those with the key, with one not
    below it, and with one above it; and steps from a row lead to the next row of
    its table and the one before in that order, or say that there is none. *)
Theorem secondary_index_ordered (st0 st : tables_t) :
  strict_weak f64_lt -> strict_weak f128_lt -> starts st0 -> reachable st0 st -> has_room st ->
  let s := ap_shared st in
  secondary_exact Z.ltb s (idx64 st) /\ secondary_exact Z.ltb s (idx128 st) /\ secondary_exact key256_ltb s (idx256 st) /\
  secondary_exact f64_lt s (idx_double st) /\ secondary_exact f128_lt s (idx_long_double st).
Proof.
  intros H64 H128 (Hst0 & _) Hr Hroom s. destruct (reachable_ok st0 st Hst0 Hr) as [Hst _].
  destruct Hroom as (_ & [? ?] & [? ?] & [? ?] & [? ?] & [? ?] & _). pose proof (st_tables _ Hst) as Hw.
  split_and!; (eapply secondary_exact_ok; [|exact Hw|apply Hst|done|done]);
    [apply Z_strict_weak|apply Z_strict_weak|apply key256_strict_weak|done|done].
Qed.
End Runs.

(** ** A run *)

Section Evaluate.
Context {F64 F128 : Type}.
Variable f64_lt : F64 -> F64 -> bool.
Variable f128_lt : F128 -> F128 -> bool.
Abbreviation tables_t := (apply_tables F64 F128).

(** Room that can be computed. *)
Definition cache_room (c : iterator_cache) : bool :=
  (vsize (iterator_to_object c) <? 2 ^ 31) && (vsize (end_iterator_to_table c) <? 2 ^ 31 - 2).
Definition room_check (st : tables_t) : bool :=
  cache_room (itr_cache (keyval st)) && cache_room (itr_cache (idx64 st)) && cache_room (itr_cache (idx128 st)) &&
  cache_room (itr_cache (idx256 st)) && cache_room (itr_cache (idx_double st)) && cache_room (itr_cache (idx_long_double st)) &&
  (vsize (rows (keyval st)) + vsize (rows (idx64 st)) + vsize (rows (idx128 st)) + vsize (rows (idx256 st)) +
   vsize (rows (idx_double st)) + vsize (rows (idx_long_double st)) + 1 <? 2 ^ 32).
Definition op_check (op : table_op F64 F128) : bool :=
  match op with on_keyval (kv_store _ _ _ _ buffer) | on_keyval (kv_update _ _ buffer) => vsize buffer <? 2 ^ 32 | _ => true end.

Lemma rows_in_le {R} `{Row R} t (i : index_state R) : rows_in t i <= vsize (rows i).
Proof.
  unfold rows_in, vsize. induction (rows i) as [|r l IH]; [done|]. rewrite paid_cons. cbn [length]. destruct (_ =? _); lia.
Qed.

Lemma room_check_ok st : room_check st = true -> has_room st.
Proof.
  unfold room_check, has_room, cache_room, room_object, room_end. intros Hc. split_and!; try lia. intros t.
  pose proof (rows_in_le t (keyval st)). pose proof (rows_in_le t (idx64 st)). pose proof (rows_in_le t (idx128 st)).
  pose proof (rows_in_le t (idx256 st)). pose proof (rows_in_le t (idx_double st)). pose proof (rows_in_le t (idx_long_double st)).
  unfold total_rows, secondary_rows. lia.
Qed.

Fixpoint run_ops (ops : list (context * table_op F64 F128)) (st : tables_t) : option tables_t :=
  match ops with
  | [] => Some st
  | (cx, op) :: ops =>
      if room_check st && op_check op
      then match run_table_op f64_lt f128_lt cx op st with Ok st' => run_ops ops st' | Err _ => None end
      else None
  end.

Lemma op_check_ok op : op_check op = true -> table_op_ok op.
Proof. destruct op as [[]|?|?|?|?|?| |]; cbn; try done; lia. Qed.

Lemma table_run_reachable ops st0 st st' :
  reachable f64_lt f128_lt st0 st -> run_ops ops st = Some st' -> reachable f64_lt f128_lt st0 st'.
Proof.
  revert st. induction ops as [|[cx op] ops IH]; intros st Hr E; cbn [run_ops] in E; [by injection E as <-|].
  destruct (room_check st && op_check op) eqn:Ec; [|done]. apply andb_true_iff in Ec as [Hroom Hop].
  destruct (run_table_op f64_lt f128_lt cx op st) as [st1|e] eqn:E1; [|done]. apply (IH st1); [|done].
  eapply reach_step; [done|by apply room_check_ok|by apply op_check_ok|done].
Qed.

(** A database without contract tables. *)
Definition no_tables : tables_t :=
  ApplyTables (TablesState [] 0 ∅ ∅) (IndexState [] 0 empty_cache) (IndexState [] 0 empty_cache) (IndexState [] 0 empty_cache)
    (IndexState [] 0 empty_cache) (IndexState [] 0 empty_cache) (IndexState [] 0 empty_cache).

Lemma no_rows_ok {R} `{Row R} : index_ok (IndexState (R := R) [] 0 empty_cache).
Proof.
  constructor; cbn [rows itr_cache fmap list_fmap];
    [constructor|by intros r ?%elem_of_nil|constructor|apply empty_cache_wf|by intros it obj ?%cache_get_empty].
Qed.

Lemma no_tables_starts : starts no_tables.
Proof.
  split; [|done]. constructor; try apply no_rows_ok; try (cbn; by intros t ?%elem_of_nil); try done.
  constructor; cbn; first [constructor|by intros t ?%elem_of_nil|done].
Qed.
End Evaluate.

(** A contract 5 that stores rows 7 and 3 of one table, the second paid by
    account 9 that authorized the action, a row in a secondary index, and asks for
    the end of the table. *)
Definition example_context : context := Context_ 5 5 [PermissionLevel 9 1] false false true true.
Definition example_ops : list (context * table_op Z Z) :=
  (fun op => (example_context, op)) <$>
  [on_keyval (kv_store 1 2 5 7 [1; 2; 3]); on_keyval (kv_store 1 2 9 3 [4]); on_idx64 (op_store 1 2 5 7 40); on_keyval (kv_end 5 1 2)].
Definition example_state : apply_tables Z Z := default no_tables (run_ops Z.ltb Z.ltb example_ops no_tables).

Lemma example_reachable : reachable Z.ltb Z.ltb no_tables example_state.
Proof. apply (table_run_reachable _ _ example_ops _ no_tables); [constructor|]. vm_compute. reflexivity. Qed.
Lemma example_room : has_room example_state.
Proof. apply room_check_ok. vm_compute. reflexivity. Qed.

(** Billed: a table, a row of three bytes and a secondary row to the contract. *)
Lemma contract_tables_reachable_witness :
  default 0 (ram_deltas (ap_shared example_state) !! 5) = 112 + 115 + 128 /\
  stored_bytes 5 example_state - stored_bytes 5 (no_tables (F64 := Z) (F128 := Z)) = 112 + 115 + 128.
Proof.
  destruct (contract_tables_reachable Z.ltb Z.ltb no_tables example_state no_tables_starts example_reachable)
    as (_ & _ & _ & _ & _ & _ & _ & _ & _ & Hb).
  rewrite <- Hb. split; vm_compute; reflexivity.
Defined.

(** Storing row 4. *)
Lemma primary_index_changes_witness :
  exists it s' kv',
    db_store_i64 example_context 1 2 5 4 [8] (ap_shared example_state) (keyval example_state) = Ok (it, s', kv') /\
    db_map (ap_shared example_state) (keyval example_state) (5, 1, 2) 4 = None /\
    db_map s' kv' (5, 1, 2) 4 = Some (5, [8]) /\ db_map s' kv' (5, 1, 2) 7 = Some (5, [1; 2; 3]).
Proof.
  destruct (primary_index_changes Z.ltb Z.ltb no_tables example_state example_context no_tables_starts example_reachable example_room)
    as [Hstore _].
  destruct (db_store_i64 example_context 1 2 5 4 [8] (ap_shared example_state) (keyval example_state)) as [[[it s'] kv']|e] eqn:E;
    [|by vm_compute in E].
  exists it, s', kv'. destruct (Hstore 1 2 5 4 [8] it s' kv' ltac:(vm_compute; reflexivity) E) as (Hn & _ & Hm & _).
  split_and!; [done|exact Hn|by rewrite Hm|]. rewrite Hm. vm_compute. reflexivity.
Defined.

(** The least key from 4 on, which is 7; and a step back from the end. *)
Lemma primary_index_lookups_witness :
  (let '(it, kv') := db_lowerbound_i64 (ap_shared example_state) 5 1 2 4 (keyval example_state) in
   it = 0 /\ at_least (ap_shared example_state) kv' it (5, 1, 2) (fun k => 4 <= k)) /\
  (exists o kv', db_previous_i64 (ap_shared example_state) (-2) (keyval example_state) = Ok (0, o, kv') /\
     at_greatest (ap_shared example_state) kv' 0 (5, 1, 2) (fun _ => True)).
Proof.
  destruct (primary_index_lookups Z.ltb Z.ltb no_tables example_state no_tables_starts example_reachable example_room)
    as (Hlook & _ & Hprev). split.
  - destruct (Hlook 5 1 2 4) as (_ & Hl & _). destruct (db_lowerbound_i64 _ _ _ _ _ _) as [it kv'] eqn:E.
    split; [|exact (proj2 Hl)]. change it with (it, kv').1. rewrite <- E. vm_compute. reflexivity.
  - destruct (Hprev (-2) (5, 1, 2)) as (it & o & kv' & E & _ & Hg & _).
    + exists 0. split; [eexists; split; [apply list_elem_of_here|vm_compute; split; reflexivity]|]. exists 0%nat. vm_compute. split; reflexivity.
    + assert (match db_previous_i64 (ap_shared example_state) (-2) (keyval example_state) with Ok x => x.1.1 | Err _ => 1 end = 0) as Hit
        by (vm_compute; reflexivity).
      rewrite E in Hit. cbn in Hit. subst it. exists o, kv'. exact (conj E Hg).
Defined.

(** The row with secondary key 40 is the first from 30 on. *)
Lemma secondary_index_ordered_witness :
  let '(it, o, i') := lowerbound_secondary Z.ltb (ap_shared example_state) 5 1 2 30 (idx64 example_state) in
  it = 0 /\
  looked_up (secondary_ltb Z.ltb) (ap_shared example_state) (idx64 example_state) (5, 1, 2)
    (fun r => (ix_secondary_key r <? 30) = false) it o i'.
Proof.
  destruct (secondary_index_ordered Z.ltb Z.ltb no_tables example_state Z_strict_weak Z_strict_weak no_tables_starts example_reachable
    example_room) as ([Hlook _] & _).
  destruct (Hlook 5 1 2 30) as (_ & Hl & _). destruct (lowerbound_secondary _ _ _ _ _ _ _) as [[it o] i'] eqn:E.
  split; [|exact Hl]. change it with (it, o, i').1.1. rewrite <- E. vm_compute. reflexivity.
Defined.
