(* ===== verification/TablePayers.v ===== *)
(** Who pays for the rows of contract tables: what the operations of one action
    bill to accounts, and what a contract cannot do to the RAM of others; and what
    becomes of the end iterator of a table that is removed. *)
From Stdlib Require Import ZArith Lia ZifyBool.
From stdpp Require Import base tactics numbers list gmap.
From S2P Require Import Prelude ResourceLimits Authority PermissionActions PermissionRuns ContractTables TableIndex TableOps TableRuns.
#[local] Open Scope Z_scope.

(** ** What one action bills *)

(** The contract itself, or an account that authorized the action, and that not
    in a notification unless the node allows it. *)
Definition may_bill (cx : context) (a : Z) : Prop :=
  a = receiver cx \/
  (has_authorization cx a = true /\
   (receiver cx = act_account cx \/ (ram_restrictions_activated cx = false /\ ram_billing_in_notify_allowed cx = true))).

(** The action counts what the transaction counts; and without the check at its
    end, nothing is added to an account that did not agree. *)
Record bills (cx : context) (s s' : tables_state) : Prop := {
  bl_same : forall a, billed (account_ram_deltas s) (account_ram_deltas s') a = billed (ram_deltas s) (ram_deltas s') a;
  bl_guard : privileged cx = false -> ram_restrictions_activated cx = false ->
    forall a, 0 < billed (ram_deltas s) (ram_deltas s') a -> may_bill cx a
}.

Lemma bills_same cx s s' : ram_deltas s' = ram_deltas s -> account_ram_deltas s' = account_ram_deltas s -> bills cx s s'.
Proof. intros E1 E2. constructor; intros; unfold billed in *; rewrite ?E1, ?E2 in *; lia. Qed.

Lemma bills_trans cx s1 s2 s3 : bills cx s1 s2 -> bills cx s2 s3 -> bills cx s1 s3.
Proof.
  intros [A1 G1] [A2 G2]. constructor.
  - intros a. rewrite (billed_trans _ (account_ram_deltas s2)), (billed_trans _ (ram_deltas s2) (ram_deltas s3)), A1, A2. done.
  - intros Hp Hr a Ha. rewrite (billed_trans _ (ram_deltas s2)) in Ha.
    destruct (decide (0 < billed (ram_deltas s1) (ram_deltas s2) a)); [by apply G1|apply G2; [done..|lia]].
Qed.

Lemma update_db_usage_bills cx payer delta s s' : update_db_usage cx payer delta s = Ok s' -> bills cx s s'.
Proof.
  intros E. unfold update_db_usage in E. apply bind_Ok in E as (u & Eg & E). unfold add_ram_usage_deltas in E.
  apply bind_Ok in E as (d & E1 & E). apply bind_Ok in E as (d' & E2 & E). apply Ok_inj in E as <-.
  pose proof (fun a => add_ram_billed _ _ _ _ a E1) as B1. pose proof (fun a => add_ram_billed _ _ _ _ a E2) as B2. constructor; cbn.
  - intros a. by rewrite B1, B2.
  - intros Hp Hr a Ha. rewrite B1 in Ha. rewrite Hp, Hr in Eg. cbn [orb] in Eg. rewrite orb_false_r in Eg.
    destruct (Z.eqb_spec payer a) as [->|]; [|lia]. destruct (Z.eqb_spec a (receiver cx)); [by left|]. right.
    replace (0 <? delta) with true in Eg by lia. cbn in Eg. apply bind_Ok in Eg as (u' & Hn%EOS_ASSERT_Ok & Ha'%EOS_ASSERT_Ok).
    split; [done|]. apply orb_true_iff in Hn as [Hn|Hn]; [by right|left; lia].
Qed.

Lemma find_or_create_bills cx code scope table payer s t s' :
  find_or_create_table cx code scope table payer s = Ok (t, s') -> bills cx s s'.
Proof.
  unfold find_or_create_table. destruct (find_table _ _ _ _).
  - intros E. apply Ok_inj in E. injection E as _ <-. by apply bills_same.
  - intros E. apply bind_Ok in E as (s1 & E1%update_db_usage_bills & E). apply Ok_inj in E. injection E as _ <-.
    eapply bills_trans; [exact E1|by apply bills_same].
Qed.

Section Rows.
Context {R : Type} `{Row R}.

Lemma store_row_bills cx tab mk bill s (i : index_state R) it s' i' :
  store_row cx tab mk bill s i = Ok (it, s', i') -> bills cx s s'.
Proof.
  intros E. unfold store_row in E. apply bind_Ok in E as ([obj i1] & _ & E). apply bind_Ok in E as (s1 & E1%update_db_usage_bills & E).
  destruct (index_cache_table _ _). destruct (index_add _ _). apply Ok_inj in E. injection E as _ <- _.
  eapply bills_trans; [|exact E1]. by apply bills_same.
Qed.

Lemma remove_iterator_bills cx delta it s (i : index_state R) s' i' :
  remove_iterator cx delta it s i = Ok (s', i') -> bills cx s s'.
Proof.
  intros E. unfold remove_iterator in E. apply bind_Ok in E as (u & _ & E). apply bind_Ok in E as (obj & _ & E).
  apply bind_Ok in E as (tobj & _ & E). apply bind_Ok in E as (t & _ & E). apply bind_Ok in E as (u' & _ & E).
  apply bind_Ok in E as (s1 & E1%update_db_usage_bills & E). apply bind_Ok in E as (t' & _ & E).
  apply bind_Ok in E as (s2 & E2 & E). apply bind_Ok in E as (c & _ & E). apply Ok_inj in E. injection E as <- _.
  eapply bills_trans; [exact E1|]. apply (bills_trans _ _ (add_count (tab_id t) (-1) s1)); [by apply bills_same|].
  destruct (_ =? 0).
  - unfold remove_table in E2. apply bind_Ok in E2 as (s3 & E3%update_db_usage_bills & E2). apply Ok_inj in E2 as <-.
    eapply bills_trans; [exact E3|by apply bills_same].
  - apply Ok_inj in E2 as <-. by apply bills_same.
Qed.
End Rows.

(** What an operation passes on of the state of tables. *)
Ltac unchanged E := apply Ok_inj in E; injection E as <- _; by apply bills_same.
Ltac unchanged_bind E := let x := fresh "x" in apply bind_Ok in E as (x & _ & E); unchanged E.

Lemma run_kv_op_bills cx op s kv s' kv' : run_kv_op cx op s kv = Ok (s', kv') -> bills cx s s'.
Proof.
  intros E. destruct op; cbn [run_kv_op] in E; try unchanged E; try unchanged_bind E.
  - apply bind_Ok in E as ([[it s1] kv1] & E1 & E). apply Ok_inj in E. injection E as <- _. unfold db_store_i64, db_store_i64_code in E1.
    apply bind_Ok in E1 as (u & _ & E1). apply bind_Ok in E1 as (u' & _ & E1). apply bind_Ok in E1 as ([tab s2] & Ec & E1).
    apply bind_Ok in E1 as (u'' & _ & E1). eapply bills_trans; [by eapply find_or_create_bills|by apply store_row_bills in E1].
  - unfold db_update_i64 in E. apply bind_Ok in E as (u & _ & E). apply bind_Ok in E as (obj & _ & E). apply bind_Ok in E as (tobj & _ & E).
    apply bind_Ok in E as (t & _ & E). apply bind_Ok in E as (u' & _ & E). apply bind_Ok in E as (s1 & E1 & E).
    apply Ok_inj in E. injection E as <- _. destruct (negb (kv_payer obj =? _)).
    + apply bind_Ok in E1 as (s2 & E2%update_db_usage_bills & E1%update_db_usage_bills). by eapply bills_trans.
    + destruct (negb _); [by eapply update_db_usage_bills|]. apply Ok_inj in E1 as <-. by apply bills_same.
  - by apply remove_iterator_bills in E.
Qed.

Lemma run_index_op_bills {SK} less size cx (op : index_op SK) s i s' i' : run_index_op less size cx op s i = Ok (s', i') -> bills cx s s'.
Proof.
  intros E. destruct op; cbn [run_index_op] in E; try unchanged E; try unchanged_bind E.
  - apply bind_Ok in E as ([[it s1] i1] & E1 & E). apply Ok_inj in E. injection E as <- _. unfold idx_store in E1.
    apply bind_Ok in E1 as (u & _ & E1). apply bind_Ok in E1 as (u' & _ & E1). apply bind_Ok in E1 as ([tab s2] & Ec & E1).
    eapply bills_trans; [by eapply find_or_create_bills|by apply store_row_bills in E1].
  - unfold idx_update in E. apply bind_Ok in E as (u & _ & E). apply bind_Ok in E as (obj & _ & E). apply bind_Ok in E as (tobj & _ & E).
    apply bind_Ok in E as (t & _ & E). apply bind_Ok in E as (u' & _ & E). apply bind_Ok in E as (s1 & E1 & E).
    apply Ok_inj in E. injection E as <- _. destruct (negb (ix_payer obj =? _)).
    + apply bind_Ok in E1 as (s2 & E2%update_db_usage_bills & E1%update_db_usage_bills). by eapply bills_trans.
    + apply Ok_inj in E1 as <-. by apply bills_same.
  - by apply remove_iterator_bills in E.
Qed.

(** ** One action of a contract *)

Definition contract_op {F64 F128} (op : table_op F64 F128) : bool := match op with end_of_action | next_action => false | _ => true end.

Section Action.
Context {F64 F128 : Type}.
Variable f64_lt : F64 -> F64 -> bool.
Variable f128_lt : F128 -> F128 -> bool.
Abbreviation tables_t := (apply_tables F64 F128).

(** The operations of one receiver of an action, all in its context. *)
Inductive action_run (cx : context) (st0 : tables_t) : tables_t -> Prop :=
| run_start : action_run cx st0 st0
| run_op st op st' : action_run cx st0 st -> has_room st -> table_op_ok op -> contract_op op = true ->
    run_table_op f64_lt f128_lt cx op st = Ok st' -> action_run cx st0 st'.

Lemma run_table_op_bills cx op st st' :
  contract_op op = true -> run_table_op f64_lt f128_lt cx op st = Ok st' -> bills cx (ap_shared st) (ap_shared st').
Proof.
  intros Hop E. destruct op; try done; cbn [run_table_op] in E; apply bind_Ok in E as ([s i] & E & Eq); apply Ok_inj in Eq as <-;
    [by eapply run_kv_op_bills|by eapply run_index_op_bills..].
Qed.

Lemma action_run_bills cx st0 st : action_run cx st0 st -> bills cx (ap_shared st0) (ap_shared st).
Proof.
  induction 1 as [|st op st' _ IH _ _ Hop E]; [by apply bills_same|]. eapply bills_trans; [exact IH|by eapply run_table_op_bills].
Qed.

Lemma action_run_reachable cx st0 st : action_run cx st0 st -> reachable f64_lt f128_lt st0 st.
Proof. induction 1; [constructor|by eapply reach_step]. Qed.

Lemma check_ram_restrictions_Ok cx s :
  check_ram_restrictions cx s = Ok tt -> privileged cx = false -> ram_restrictions_activated cx = true ->
  forall a, 0 < default 0 (account_ram_deltas s !! a) -> may_bill cx a.
Proof.
  intros E Hp Hr a Ha. unfold check_ram_restrictions in E. rewrite Hp, Hr in E. cbn [negb andb] in E.
  destruct (account_ram_deltas s !! a) as [d|] eqn:Ed; cbn in Ha; [|lia]. apply elem_of_map_to_list in Ed. revert Ed E.
  induction (map_to_list _) as [|[a' d'] l IH]; intros Hin E; [by apply elem_of_nil in Hin|]. cbn [foldr] in E.
  apply bind_Ok in E as (u & E1 & E). apply elem_of_cons in Hin as [[= <- <-]|Hin]; [|by apply IH]. cbn in E1.
  destruct (Z.eqb_spec a (receiver cx)); [by left|]. replace (0 <? d) with true in E1 by lia. cbn in E1.
  apply bind_Ok in E1 as (u' & Hn%EOS_ASSERT_Ok & Ha'%EOS_ASSERT_Ok). right. split; [done|]. left. lia.
Qed.

(** C13. A contract cannot spend the RAM of others: when the code of an
    unprivileged contract has run for an action, on any tables and indices, and
    the action ends without error, an account that now pays for more stored bytes
    than before is the contract itself, or authorized the action, and that not in
    a notification where this is not allowed; both with the check at the end of
    the action that a protocol feature brought and with the checks before it. *)
Theorem ram_payers_authorize (st0 st st1 st2 : tables_t) (cx : context) (a : Z) :
  starts st0 -> reachable f64_lt f128_lt st0 st -> account_ram_deltas (ap_shared st) = ∅ -> privileged cx = false ->
  action_run cx st st1 -> has_room st1 -> run_table_op f64_lt f128_lt cx end_of_action st1 = Ok st2 ->
  stored_bytes a st < stored_bytes a st2 -> may_bill cx a.
Proof.
  intros (Hst0 & _) Hr Hd Hp Hrun Hroom E Hlt. destruct (reachable_ok _ _ _ _ Hst0 Hr) as [Hst _].
  destruct (reachable_ok _ _ _ _ Hst (action_run_reachable _ _ _ Hrun)) as [Hst1 Hb].
  destruct (action_run_bills _ _ _ Hrun) as [Hsame Hguard]. cbn [run_table_op] in E. apply bind_Ok in E as ([] & Ec & E).
  apply Ok_inj in E as <-. change (stored_bytes a _) with (stored_bytes a st1) in Hlt at 2.
  assert (0 < billed (ram_deltas (ap_shared st)) (ram_deltas (ap_shared st1)) a) as Hpos by (rewrite Hb; lia).
  destruct (ram_restrictions_activated cx) eqn:Hra; [|by apply Hguard].
  eapply check_ram_restrictions_Ok; [done..|]. rewrite <- Hsame in Hpos. unfold billed in Hpos. rewrite Hd, lookup_empty in Hpos. cbn in Hpos. lia.
Qed.
End Action.

(** The contract of the example runs its operations in one action; account 9
    authorized it and pays for one row. *)
Definition example_end : apply_tables Z Z :=
  match run_table_op Z.ltb Z.ltb example_context end_of_action example_state with Ok st => st | Err _ => no_tables end.

Section Evaluate.
Context {F64 F128 : Type}.
Variable f64_lt : F64 -> F64 -> bool.
Variable f128_lt : F128 -> F128 -> bool.

Lemma run_ops_action cx ops st0 st st' :
  Forall (fun op => contract_op op = true) ops -> action_run f64_lt f128_lt cx st0 st ->
  run_ops f64_lt f128_lt ((fun op => (cx, op)) <$> ops) st = Some st' -> action_run f64_lt f128_lt cx st0 st'.
Proof.
  intros Hops. revert st. induction Hops as [|op ops Hop _ IH]; intros st Hr E; cbn [fmap list_fmap run_ops] in E; [by injection E as <-|].
  destruct (room_check st && op_check op) eqn:Ec; [|done]. apply andb_true_iff in Ec as [Hroom Hok].
  destruct (run_table_op f64_lt f128_lt cx op st) as [st1|e] eqn:E1; [|done]. apply (IH st1); [|done].
  eapply run_op; [done|by apply room_check_ok|by apply op_check_ok|done..].
Qed.
End Evaluate.

Lemma example_action : action_run Z.ltb Z.ltb example_context no_tables example_state.
Proof.
  apply (run_ops_action _ _ _ (snd <$> example_ops) _ no_tables); [repeat constructor|constructor|]. vm_compute. reflexivity.
Qed.

Lemma ram_payers_authorize_witness :
  stored_bytes 9 (no_tables (F64 := Z) (F128 := Z)) < stored_bytes 9 example_end /\ may_bill example_context 9.
Proof.
  assert (stored_bytes 9 (no_tables (F64 := Z) (F128 := Z)) < stored_bytes 9 example_end) as Hlt by (vm_compute; reflexivity).
  split; [exact Hlt|].
  apply (ram_payers_authorize Z.ltb Z.ltb no_tables no_tables example_state example_end example_context 9 no_tables_starts
    (reach_start _ _ _) eq_refl eq_refl example_action example_room ltac:(vm_compute; reflexivity) Hlt).
Defined.

(** ** End iterators that are not checked *)

(** End iterators keep their tables: none is taken from the cache. *)
Definition ends_kept (c c' : iterator_cache) : Prop := end_iterator_to_table c `prefix_of` end_iterator_to_table c'.
#[local] Instance ends_kept_preorder : PreOrder ends_kept.
Proof. unfold ends_kept. split; [by intros ?|]. intros c1 c2 c3 H1 H2. by etrans. Qed.

Lemma cache_table_ends c t : ends_kept c (cache_table c t).2.
Proof. unfold ends_kept, cache_table. destruct (table_cache c !! t) as [[? ?]|]; [done|]. by eexists. Qed.

Lemma cache_add_ends c obj : end_iterator_to_table (cache_add c obj).2 = end_iterator_to_table c.
Proof. unfold cache_add. by destruct (object_to_iterator c !! obj). Qed.

Lemma cache_remove_ends c it c' : cache_remove c it = Ok c' -> end_iterator_to_table c' = end_iterator_to_table c.
Proof.
  intros E. unfold cache_remove in E. do 3 apply bind_Ok in E as (? & _ & E). apply bind_Ok in E as ([obj|] & _ & E);
    by apply Ok_inj in E as <-.
Qed.

Section Ends.
Context {R : Type} `{Row R}.
Implicit Types i : index_state R.

Lemma index_cache_table_ends t i : ends_kept (itr_cache i) (itr_cache (index_cache_table t i).2).
Proof.
  unfold index_cache_table. pose proof (cache_table_ends (itr_cache i) t) as Hc. by destruct (cache_table (itr_cache i) t).
Qed.

Lemma found_ends r otherwise i : ends_kept (itr_cache i) (itr_cache (found r otherwise i).2).
Proof.
  unfold found, index_add. destruct r as [r|]; [|done]. pose proof (cache_add_ends (itr_cache i) (row_id r)) as Hc.
  destruct (cache_add _ _) as [it c]. unfold ends_kept. cbn in *. by rewrite Hc.
Qed.

Lemma lookup_in_ends s code scope table search i : ends_kept (itr_cache i) (itr_cache (lookup_in s code scope table search i).2).
Proof.
  unfold lookup_in. destruct (find_table s code scope table) as [tab|]; [|done].
  pose proof (index_cache_table_ends (tab_id tab) i) as Hc. destruct (index_cache_table (tab_id tab) i) as [ei i1].
  cbn [snd] in Hc. destruct (search _ _) as [r|]; [|done]. destruct (negb _); [done|]. etrans; [exact Hc|apply found_ends].
Qed.

Lemma lookup_end_ends s code scope table i : ends_kept (itr_cache i) (itr_cache (lookup_end s code scope table i).2).
Proof. unfold lookup_end. destruct (find_table s code scope table); [apply index_cache_table_ends|done]. Qed.

Lemma next_in_ends lt it i x : next_in lt it i = Ok x -> ends_kept (itr_cache i) (itr_cache x.2).
Proof.
  intros E. unfold next_in in E. destruct (it <? -1); [by apply Ok_inj in E as <-|]. apply bind_Ok in E as (obj & _ & E).
  destruct (first_row _ _ _) as [r|]; [destruct (negb _)|];
    try (apply bind_Ok in E as (ei & _ & E)); apply Ok_inj in E as <-; [done|apply found_ends|done].
Qed.

Lemma previous_in_ends lt s it i x : previous_in lt s it i = Ok x -> ends_kept (itr_cache i) (itr_cache x.2).
Proof.
  intros E. unfold previous_in in E. destruct (it <? -1).
  - apply bind_Ok in E as ([tobj|] & _ & E); [|done]. apply bind_Ok in E as (tab & _ & E).
    destruct (last_row _ _ _) as [r|]; [destruct (negb _)|]; apply Ok_inj in E as <-; [done|apply found_ends|done].
  - apply bind_Ok in E as (obj & _ & E).
    destruct (last_row _ _ _) as [r|]; [destruct (negb _)|]; apply Ok_inj in E as <-; [done|apply found_ends|done].
Qed.

Lemma store_row_ends cx tab mk bill s i it s' i' :
  store_row cx tab mk bill s i = Ok (it, s', i') -> ends_kept (itr_cache i) (itr_cache i').
Proof.
  intros E. unfold store_row in E. apply bind_Ok in E as ([obj i1] & E1 & E). apply bind_Ok in E as (s1 & _ & E).
  assert (itr_cache i1 = itr_cache i) as Hi.
  { unfold create_row in E1. destruct (find_row_key _ _ _); [done|]. by apply Ok_inj in E1 as [= _ <-]. }
  pose proof (index_cache_table_ends (tab_id tab) i1) as Hc. rewrite Hi in Hc.
  destruct (index_cache_table (tab_id tab) i1) as [ei i2]. cbn [snd] in Hc. unfold index_add in E.
  pose proof (cache_add_ends (itr_cache i2) (row_id obj)) as Ha. destruct (cache_add _ _) as [it' c].
  apply Ok_inj in E as [= _ _ <-]. unfold ends_kept in *. cbn in *. by rewrite Ha.
Qed.

Lemma remove_iterator_ends cx delta it s i s' i' :
  remove_iterator cx delta it s i = Ok (s', i') -> ends_kept (itr_cache i) (itr_cache i').
Proof.
  intros E. unfold remove_iterator in E. do 5 apply bind_Ok in E as (? & _ & E). apply bind_Ok in E as (s1 & _ & E).
  apply bind_Ok in E as (t' & _ & E). apply bind_Ok in E as (s2 & _ & E). apply bind_Ok in E as (c & Ec & E).
  apply Ok_inj in E as [= _ <-]. apply cache_remove_ends in Ec. unfold ends_kept. cbn in *. by rewrite Ec.
Qed.
End Ends.

Lemma run_kv_op_ends cx op s kv s' kv' : run_kv_op cx op s kv = Ok (s', kv') -> ends_kept (itr_cache kv) (itr_cache kv').
Proof.
  intros E. destruct op; cbn [run_kv_op] in E.
  - apply bind_Ok in E as ([[it s1] kv1] & E1 & E). apply Ok_inj in E as [= _ <-]. unfold db_store_i64, db_store_i64_code in E1.
    do 2 apply bind_Ok in E1 as (? & _ & E1). apply bind_Ok in E1 as ([tab s2] & _ & E1). apply bind_Ok in E1 as (? & _ & E1).
    by eapply store_row_ends.
  - unfold db_update_i64 in E. do 6 apply bind_Ok in E as (? & _ & E). by apply Ok_inj in E as [= _ <-].
  - by eapply remove_iterator_ends.
  - apply Ok_inj in E as [= _ <-]. unfold db_find_i64. rewrite drop_row. apply lookup_in_ends.
  - apply Ok_inj in E as [= _ <-]. unfold db_lowerbound_i64. rewrite drop_row. apply lookup_in_ends.
  - apply Ok_inj in E as [= _ <-]. unfold db_upperbound_i64. rewrite drop_row. apply lookup_in_ends.
  - apply Ok_inj in E as [= _ <-]. apply lookup_end_ends.
  - apply bind_Ok in E as (x & E1 & E). apply Ok_inj in E as [= _ <-]. by eapply next_in_ends.
  - apply bind_Ok in E as (x & E1 & E). apply Ok_inj in E as [= _ <-]. by eapply previous_in_ends.
Qed.

Section Unchecked.
Context {F64 F128 : Type}.
Variable f64_lt : F64 -> F64 -> bool.
Variable f128_lt : F128 -> F128 -> bool.
Abbreviation tables_t := (apply_tables F64 F128).

Lemma action_run_ends cx (st0 st : tables_t) :
  action_run f64_lt f128_lt cx st0 st -> ends_kept (itr_cache (keyval st0)) (itr_cache (keyval st)).
Proof.
  induction 1 as [|st op st' _ IH _ _ Hop E]; [done|]. etrans; [exact IH|].
  destruct op; try done; cbn [run_table_op] in E; apply bind_Ok in E as ([s i] & E & Eq); apply Ok_inj in Eq as <-; [|done..].
  by eapply run_kv_op_ends.
Qed.

(** Stepping back from the least 32-bit integer negates it. *)
Lemma previous_of_least_int s kv : db_previous_i64 s (- 2 ^ 31) kv = Err undefined_behavior.
Proof. done. Qed.

(** C38. Nothing checks that the table of an end iterator is still there. A
    contract asks, in any reachable state, for the end of a table that exists,
    and then runs any of its operations, on any tables and indices. Stepping back
    from that end iterator succeeds while the table is there; once its last row,
    and with it the table, was removed, the step follows the pointer to the
    removed table, also when a table with the same name was created since. *)
Theorem end_iterators_unchecked (st0 st st' : tables_t) (cx : context) (code scope table : Z) (tab : table_id_object)
    (ei : Z) (kv : kv_index) :
  starts st0 -> reachable f64_lt f128_lt st0 st -> has_room st ->
  find_table (ap_shared st) code scope table = Some tab ->
  db_end_i64 (ap_shared st) code scope table (keyval st) = (ei, kv) ->
  action_run f64_lt f128_lt cx (with_keyval st (ap_shared st, kv)) st' ->
  let there := tab_id tab ∈ (tab_id <$> tables (ap_shared st')) in
  let step := db_previous_i64 (ap_shared st') ei (keyval st') in
  (there -> is_Ok step = true) /\ (~ there -> step = Err undefined_behavior).
Proof.
  intros (Hst0 & _) Hr Hroom Hf He Hrun there step. destruct (reachable_ok _ _ _ _ Hst0 Hr) as [Hst _].
  assert (reachable f64_lt f128_lt st (with_keyval st (ap_shared st, kv))) as Hr1.
  { eapply (reach_step _ _ _ st cx (on_keyval (kv_end code scope table))); [constructor|done|done|].
    cbn [run_table_op run_kv_op]. by rewrite He. }
  destruct (reachable_ok _ _ _ _ Hst Hr1) as [Hst1 _].
  destruct (reachable_ok _ _ _ _ Hst1 (action_run_reachable _ _ _ _ _ Hrun)) as [Hst' _].
  apply state_primary in Hst as Hp. apply state_primary in Hst' as Hp'.
  pose proof (proj2 (proj1 Hroom)) as Hre. pose proof Hre as Hre'. unfold room_end in Hre'.
  pose proof (lookup_end_spec _ _ _ _ _ _ _ (po_index _ _ _ Hp) Hre He) as [_ Hei]. rewrite Hf in Hei.
  assert (vsize (end_iterator_to_table (itr_cache kv)) <= vsize (end_iterator_to_table (itr_cache (keyval st))) + 1) as Hlen.
  { unfold db_end_i64, lookup_end, index_cache_table, cache_table in He. rewrite Hf in He. unfold vsize.
    destruct (table_cache _ !! _) as [[? ?]|]; injection He as _ <-; cbn; rewrite ?length_app; cbn; lia. }
  destruct Hei as (n & En & ->). pose proof (lookup_lt_Some _ _ _ En) as Hn.
  assert (end_iterator (itr_cache (keyval st')) (tab_id tab) (- (Z.of_nat n + 2))) as Hei'.
  { exists n. split; [|done]. apply action_run_ends in Hrun. by eapply prefix_lookup_Some. }
  destruct (end_iterator_table (keyval st') _ _ (po_index _ _ _ Hp') Hei') as [Hneg Hfind]; [unfold vsize in *; lia|].
  unfold step, db_previous_i64, previous_in. replace (_ <? -1) with true by lia. rewrite Hfind, ret_bind.
  split; intros Ht.
  - apply list_elem_of_fmap in Ht as (tab' & Eid & Hin).
    rewrite (proj2 (deref_table_Ok _ _ (tab_id tab) tab' (po_tables _ _ _ Hp')) (conj Hin (eq_sym Eid))), ret_bind.
    destruct (last_row _ _ _) as [r|]; [|done]. by destruct (negb _).
  - unfold deref_table. destruct (List.find _ _) as [t|] eqn:Et; [|done]. apply find_Some in Et as [Hin Eid%Z.eqb_eq].
    exfalso. apply Ht. unfold there. rewrite <- Eid. by apply list_elem_of_fmap_2.
Qed.
End Unchecked.

(** A row is stored and its table's end asked for; the row is removed, with which
    the table goes, and a table with the same name is made again. *)
Definition one_row : apply_tables Z Z :=
  default no_tables (run_ops Z.ltb Z.ltb [(example_context, on_keyval (kv_store 1 2 5 7 []))] no_tables).
Definition one_row_end : Z * kv_index := db_end_i64 (ap_shared one_row) 5 1 2 (keyval one_row).
Definition replaced_table : apply_tables Z Z :=
  default no_tables (run_ops Z.ltb Z.ltb ((fun op => (example_context, op)) <$> [on_keyval (kv_remove 0); on_keyval (kv_store 1 2 5 7 [])])
                       (with_keyval one_row (ap_shared one_row, one_row_end.2))).

Lemma end_iterators_unchecked_witness :
  one_row_end.1 = -2 /\ is_Some (find_table (ap_shared replaced_table) 5 1 2) /\
  db_previous_i64 (ap_shared replaced_table) (-2) (keyval replaced_table) = Err undefined_behavior.
Proof.
  split; [vm_compute; reflexivity|]. split; [vm_compute; eexists; reflexivity|].
  assert (exists tab, find_table (ap_shared one_row) 5 1 2 = Some tab /\ tab_id tab = 0) as (tab & Hf & Hid)
    by (eexists; vm_compute; split; reflexivity).
  apply (end_iterators_unchecked Z.ltb Z.ltb no_tables one_row replaced_table example_context 5 1 2 tab (-2) one_row_end.2).
  - exact no_tables_starts.
  - apply (table_run_reachable _ _ [(example_context, on_keyval (kv_store 1 2 5 7 []))] _ no_tables); [constructor|].
    vm_compute. reflexivity.
  - apply room_check_ok. vm_compute. reflexivity.
  - exact Hf.
  - vm_compute. reflexivity.
  - apply (run_ops_action _ _ _ [on_keyval (kv_remove 0); on_keyval (kv_store 1 2 5 7 [])] _
      (with_keyval one_row (ap_shared one_row, one_row_end.2))); [repeat constructor|constructor|]. vm_compute. reflexivity.
  - rewrite Hid. intros Hin. apply (bool_decide_pack _) in Hin. vm_compute in Hin. exact Hin.
Defined.
