(* ===== verification/ActionExecution.v ===== *)
(** How the actions of a transaction run: the traces that are scheduled, the
    notified accounts, inline actions and their authorization, the receipts with
    their sequence numbers and digests (chain/apply_context.cpp,
    transaction_context.cpp, trace.hpp, action.hpp).

    What contract code does to its tables is not looked into here: code is a
    function of the state that returns the new state and, in their order, the
    requests that it made of its context.  An exception ends the transaction, so
    the traces of a failed one are not kept.  Deadlines, console output and
    logging have no part in the state. *)
From Stdlib Require Import ZArith Lia ZifyBool Ascii String.
From stdpp Require Import base tactics numbers list gmap.
From S2P Require Import Prelude Digest Raw CoreAsset ResourceLimits Authority PermissionActions ContractTables Authorization.
#[local] Open Scope Z_scope.

(** ** Traces and receipts *)

Record action_receipt : Type := ActionReceipt {
  ar_receiver : Z;
  ar_act_digest : sha256;
  ar_global_sequence : Z;
  ar_recv_sequence : Z;
  ar_auth_sequence : list (Z * Z);        (* flat_map<account_name,uint64_t> *)
  ar_code_sequence : Z;                   (* unsigned_int *)
  ar_abi_sequence : Z
}.

Record action_trace : Type := ActionTrace {
  at_action_ordinal : Z;
  at_creator_action_ordinal : Z;
  at_closest_unnotified_ancestor_action_ordinal : Z;
  at_receipt : option action_receipt;
  at_receiver : Z;
  at_act : action;
  at_context_free : bool;
  at_account_ram_deltas : gmap Z Z;
  at_return_value : list Z
}.

Record account_metadata_object : Type := AccountMetadata {
  recv_sequence : Z;
  auth_sequence : Z;
  code_sequence : Z;
  abi_sequence : Z;
  code_hash : sha256
}.

Section Digests.
Variable sha : list Z -> sha256.

Definition pack_name (n : Z) : result (list Z) := pack (UInt (n := 8) n).
Definition pack_permission_levels (l : list permission_level) : result (list Z) :=
  pack ((fun p => (UInt (n := 8) (actor p), UInt (n := 8) (permission p))) <$> l).

(** An encoder packs one value after the other. *)
Definition concat_results (l : list (result (list Z))) : result (list Z) :=
  foldr (fun m acc => bs ← m; rest ← acc; mret (bs ++ rest)) (mret []) l.
Definition hash_packed (l : list (result (list Z))) : result sha256 := bs ← concat_results l; mret (sha bs).

Definition pack_action_base (act : action) : list (result (list Z)) :=
  [pack_name (act_account act); pack_name (act_name act); pack_permission_levels (act_authorization act)].

(** [digest_type::hash(act)]. *)
Definition hash_action (act : action) : result sha256 := hash_packed (pack_action_base act ++ [pack_bytes (act_data act)]).

Definition generate_action_digest (act : action) (action_output : list Z) : result sha256 :=
  base ← hash_packed (pack_action_base act);
  rhs ← hash_packed [pack_bytes (act_data act); pack_bytes action_output];
  hash_packed [pack base; pack rhs].

Definition pack_auth_sequence (l : list (Z * Z)) : result (list Z) :=
  pack ((fun p => (UInt (n := 8) p.1, UInt (n := 8) p.2)) <$> l).

Definition savanna_witness_hash (r : action_receipt) : result sha256 :=
  hash_packed [pack_u64 (ar_global_sequence r); pack_auth_sequence (ar_auth_sequence r);
               pack_unsigned_int (ar_code_sequence r); pack_unsigned_int (ar_abi_sequence r)].

(** Both digests assert that there is a receipt. *)
Definition digest_savanna (t : action_trace) : result sha256 :=
  match at_receipt t with
  | None => Err assertion_failed
  | Some r =>
      w ← savanna_witness_hash r;
      hash_packed [pack_name (ar_receiver r); pack_u64 (ar_recv_sequence r); pack_name (act_account (at_act t));
                   pack_name (act_name (at_act t)); pack (ar_act_digest r); pack w]
  end.
Definition digest_legacy (t : action_trace) : result sha256 :=
  match at_receipt t with
  | None => Err assertion_failed
  | Some r =>
      hash_packed [pack_name (ar_receiver r); pack (ar_act_digest r); pack_u64 (ar_global_sequence r);
                   pack_u64 (ar_recv_sequence r); pack_auth_sequence (ar_auth_sequence r);
                   pack_unsigned_int (ar_code_sequence r); pack_unsigned_int (ar_abi_sequence r)]
  end.
End Digests.

(** [action_digests_t]. *)
Record action_digests_t : Type := ActionDigests {
  digests_l : option (list sha256);
  digests_s : option (list sha256)
}.

Definition compute_and_append_digests_from (sha : list Z -> sha256) (d : action_digests_t) (t : action_trace) : result action_digests_t :=
  l ← match digests_l d with None => mret None | Some l => h ← digest_legacy sha t; mret (Some (l ++ [h])) end;
  s ← match digests_s d with None => mret None | Some l => h ← digest_savanna sha t; mret (Some (l ++ [h])) end;
  mret (ActionDigests l s).

(** [flat_map::operator[]] with an assignment. *)
Fixpoint flat_map_assign (k v : Z) (l : list (Z * Z)) : list (Z * Z) :=
  match l with
  | [] => [(k, v)]
  | (k', v') :: l' =>
      if k <? k' then (k, v) :: l else if k' <? k then (k', v') :: flat_map_assign k v l' else (k, v) :: l'
  end.

(** ** Lists of accounts that the node allows or refuses *)

(** [std::lower_bound] from a position on, in a sorted vector. *)
Fixpoint lower_bound_from (x : Z) (l : list Z) : list Z :=
  match l with [] => [] | y :: l' => if y <? x then lower_bound_from x l' else l end.

Fixpoint subset_loop (actors whitelist : list Z) : bool :=
  match actors with
  | [] => true
  | x :: actors =>
      match lower_bound_from x whitelist with
      | [] => false
      | y :: rest => if y =? x then subset_loop actors rest else false
      end
  end.
Fixpoint intersects_loop (actors blacklist : list Z) : bool :=
  match actors with
  | [] => false
  | x :: actors =>
      match lower_bound_from x blacklist with
      | [] => false
      | y :: rest => if y =? x then true else intersects_loop actors (y :: rest)
      end
  end.

Record access_lists : Type := AccessLists {
  actor_whitelist : list Z; actor_blacklist : list Z;         (* flat_set, in order *)
  contract_whitelist : gset Z; contract_blacklist : gset Z;
  action_blacklist : gset (Z * Z)
}.

(** [*cbegin()] and [*crbegin()]. *)
Definition first_of_set (l : list Z) : Z := default 0 (head l).
Definition last_of_set (l : list Z) : Z := default 0 (last l).

Definition check_actor_list (conf : access_lists) (actors : list Z) : result unit :=
  if vsize actors =? 0 then mret tt
  else if 0 <? vsize (actor_whitelist conf) then
    EOS_ASSERT ((first_of_set (actor_whitelist conf) <=? first_of_set actors) &&
                (last_of_set actors <=? last_of_set (actor_whitelist conf)) && subset_loop actors (actor_whitelist conf))
      actor_whitelist_exception
  else if 0 <? vsize (actor_blacklist conf) then
    EOS_ASSERT (negb ((first_of_set actors <=? last_of_set (actor_blacklist conf)) &&
                      (first_of_set (actor_blacklist conf) <=? last_of_set actors) && intersects_loop actors (actor_blacklist conf)))
      actor_blacklist_exception
  else mret tt.

Definition check_contract_list (conf : access_lists) (code : Z) : result unit :=
  if negb (bool_decide (contract_whitelist conf = ∅)) then
    EOS_ASSERT (bool_decide (code ∈ contract_whitelist conf)) contract_whitelist_exception
  else EOS_ASSERT (bool_decide (contract_blacklist conf = ∅) || negb (bool_decide (code ∈ contract_blacklist conf)))
         contract_blacklist_exception.

Definition check_action_list (conf : access_lists) (code act : Z) : result unit :=
  EOS_ASSERT (bool_decide (action_blacklist conf = ∅) || negb (bool_decide ((code, act) ∈ action_blacklist conf)))
    action_blacklist_exception.

(** ** The state of a transaction *)

(** What executing actions reads and changes itself; [w_rest] is everything else,
    which code changes. *)
Record world (K W : Type) : Type := World {
  w_auth : auth_db K;
  w_metadata : gmap Z account_metadata_object;
  w_global_action_sequence : Z;
  w_rest : W
}.
Arguments World {K W}.
Arguments w_auth {K W}.
Arguments w_metadata {K W}.
Arguments w_global_action_sequence {K W}.
Arguments w_rest {K W}.

Record trx_state (K W : Type) : Type := TrxState {
  ts_world : world K W;
  ts_action_traces : list action_trace;
  ts_executed_action_receipts : action_digests_t
}.
Arguments TrxState {K W}.
Arguments ts_world {K W}.
Arguments ts_action_traces {K W}.
Arguments ts_executed_action_receipts {K W}.

(** The fields of [apply_context].  [act] points to the action of a trace, which
    is the same in the traces of all accounts that it notifies. *)
Record apply_context : Type := ApplyContext {
  ac_act : action;
  ac_receiver : Z;
  ac_recurse_depth : Z;
  ac_first_receiver_action_ordinal : Z;
  ac_action_ordinal : Z;
  ac_privileged : bool;
  ac_context_free : bool;
  ac_notified : list (Z * Z);
  ac_inline_actions : list Z;
  ac_cfa_inline_actions : list Z
}.

(** What code asks of its context, with the actions that the host functions have
    unpacked. *)
Inductive request : Type :=
| notify (recipient : Z)
| send_inline (a : action)
| send_context_free_inline (a : action).

(** What running code leaves behind. *)
Record code_output (W : Type) : Type := CodeOutput {
  co_rest : W;
  co_privileged : gset Z;
  co_requests : list request;
  co_action_return_value : list Z;
  co_account_ram_deltas : gmap Z Z
}.
Arguments CodeOutput {W}.
Arguments co_rest {W}.
Arguments co_privileged {W}.
Arguments co_requests {W}.
Arguments co_action_return_value {W}.
Arguments co_account_ram_deltas {W}.

(** The settings of the block, the transaction and the node. *)
Record exec_config : Type := ExecConfig {
  xc_auth : auth_config;
  xc_restrict_action_to_self : bool;
  xc_forward_setcode : bool;
  xc_action_return_value : bool;
  xc_ram_restrictions : bool;
  xc_ram_billing_in_notify_allowed : bool;
  xc_skip_trx_checks : bool;
  xc_skip_auth_check : bool;
  xc_is_speculative_block : bool;
  xc_enforce_whiteblacklist : bool;
  xc_is_read_only : bool;
  xc_is_dry_run : bool;
  xc_provided_delay : Z;                  (* pending_block_time() - published *)
  xc_lists : access_lists
}.

(** ** Loops with a bound *)

(** [None] when a bound on rounds was reached. *)
Definition bounded (A : Type) : Type := option (result A).
Definition bbind {A B} (m : bounded A) (f : A -> bounded B) : bounded B :=
  match m with None => None | Some (Err e) => Some (Err e) | Some (Ok a) => f a end.
Fixpoint bounded_fold {A S} (f : A -> S -> bounded S) (l : list A) (s : S) : bounded S :=
  match l with [] => Some (Ok s) | x :: l => bbind (f x s) (bounded_fold f l) end.

Section Execution.
Context {K W : Type} `{EqDecision K} `{Packable K}.
Variable sha : list Z -> sha256.
Variable checktime : nat -> result unit.
Variable cfg : exec_config.
(** [max_inline_action_depth] of the global properties, which code can change. *)
Variable max_inline_action_depth : W -> Z.
(** Native handlers, found by receiver, account and name, and contract code, with
    the RAM deltas of the action. *)
Variable find_apply_handler : Z -> Z -> Z -> option (apply_context -> world K W -> result (world K W * gmap Z Z)).
Variable wasm_apply : sha256 -> apply_context -> list action_trace -> gmap Z Z -> world K W -> result (code_output W).

Abbreviation world_t := (world K W).
Abbreviation state_t := (trx_state K W).

(** ** Traces *)

Definition get_action_trace (traces : list action_trace) (action_ordinal : Z) : result action_trace :=
  EOS_ASSERT ((0 <? action_ordinal) && (action_ordinal <=? vsize traces)) transaction_exception;;
  at_index traces (action_ordinal - 1).

Definition with_traces (st : state_t) (l : list action_trace) : state_t := TrxState (ts_world st) l (ts_executed_action_receipts st).
Definition with_world (st : state_t) (w : world_t) : state_t := TrxState w (ts_action_traces st) (ts_executed_action_receipts st).

(** [transaction_context::schedule_action] with an action. *)
Definition schedule_action (act : action) (receiver : Z) (context_free : bool) (creator_action_ordinal closest : Z) (st : state_t)
    : Z * state_t :=
  let new_action_ordinal := u32 (vsize (ts_action_traces st) + 1) in
  (new_action_ordinal,
   with_traces st (ts_action_traces st ++ [ActionTrace new_action_ordinal creator_action_ordinal closest None receiver act context_free ∅ []])).

(** With the action of a trace. *)
Definition schedule_action_ordinal (action_ordinal receiver : Z) (context_free : bool) (creator_action_ordinal closest : Z) (st : state_t)
    : result (Z * state_t) :=
  t ← get_action_trace (ts_action_traces st) action_ordinal;
  mret (schedule_action (at_act t) receiver context_free creator_action_ordinal closest st).

(** ** What code asks for *)

Definition has_recipient (ctx : apply_context) (code : Z) : bool := existsb (fun p : Z * Z => p.1 =? code) (ac_notified ctx).

Definition with_notified (ctx : apply_context) (l : list (Z * Z)) : apply_context :=
  ApplyContext (ac_act ctx) (ac_receiver ctx) (ac_recurse_depth ctx) (ac_first_receiver_action_ordinal ctx) (ac_action_ordinal ctx)
    (ac_privileged ctx) (ac_context_free ctx) l (ac_inline_actions ctx) (ac_cfa_inline_actions ctx).
Definition with_inline (ctx : apply_context) (inline cfa : list Z) : apply_context :=
  ApplyContext (ac_act ctx) (ac_receiver ctx) (ac_recurse_depth ctx) (ac_first_receiver_action_ordinal ctx) (ac_action_ordinal ctx)
    (ac_privileged ctx) (ac_context_free ctx) (ac_notified ctx) inline cfa.
Definition with_privileged (ctx : apply_context) (p : bool) : apply_context :=
  ApplyContext (ac_act ctx) (ac_receiver ctx) (ac_recurse_depth ctx) (ac_first_receiver_action_ordinal ctx) (ac_action_ordinal ctx)
    p (ac_context_free ctx) (ac_notified ctx) (ac_inline_actions ctx) (ac_cfa_inline_actions ctx).
Definition with_receiver (ctx : apply_context) (receiver ordinal : Z) : apply_context :=
  ApplyContext (ac_act ctx) receiver (ac_recurse_depth ctx) (ac_first_receiver_action_ordinal ctx) ordinal
    (ac_privileged ctx) (ac_context_free ctx) (ac_notified ctx) (ac_inline_actions ctx) (ac_cfa_inline_actions ctx).

Definition require_recipient (recipient : Z) (ctx : apply_context) (st : state_t) : result (apply_context * state_t) :=
  if has_recipient ctx recipient then mret (ctx, st)
  else
    '(o, st) ← schedule_action_ordinal (ac_action_ordinal ctx) recipient false (ac_action_ordinal ctx) (ac_first_receiver_action_ordinal ctx) st;
    mret (with_notified ctx (ac_notified ctx ++ [(recipient, o)]), st).

(** The loop over the authorizations of an inline action; actors are inserted
    into a [flat_set]. *)
Fixpoint insert_actor (x : Z) (l : list Z) : list Z :=
  match l with [] => [x] | y :: l' => if x <? y then x :: l else if y <? x then y :: insert_actor x l' else l end.
Fixpoint check_declared (db : auth_db K) (auths : list permission_level) : result unit :=
  match auths with
  | [] => mret tt
  | a :: auths =>
      EOS_ASSERT (bool_decide (actor a ∈ account_objects db)) action_validate_exception;;
      p ← find_permission db a;
      EOS_ASSERT (bool_decide (is_Some p)) action_validate_exception;;
      check_declared db auths
  end.

Definition is_exception (e : exn) : bool := match e with assertion_failed | undefined_behavior => false | _ => true end.

Definition execute_inline (a : action) (ctx : apply_context) (st : state_t) : result (apply_context * state_t) :=
  let db := w_auth (ts_world st) in
  EOS_ASSERT (bool_decide (act_account a ∈ account_objects db)) action_validate_exception;;
  let send_to_self := act_account a =? ac_receiver ctx in
  let inherit := negb (xc_restrict_action_to_self cfg) && send_to_self && (ac_receiver ctx =? act_account (ac_act ctx)) &&
                 xc_is_speculative_block cfg in
  check_declared db (act_authorization a);;
  (if xc_enforce_whiteblacklist cfg && xc_is_speculative_block cfg
   then check_actor_list (xc_lists cfg) (foldl (fun l p => insert_actor (actor p) l) [] (act_authorization a)) else mret tt);;
  (if negb (xc_skip_auth_check cfg) && negb (ac_privileged ctx) && negb (xc_is_read_only cfg) then
     match check_authorization checktime db (xc_auth cfg) [a] [] [PermissionLevel (ac_receiver ctx) eosio_code_name]
             (xc_provided_delay cfg) false (xc_is_dry_run cfg)
             (if inherit then filter (fun p => p ∈ act_authorization (ac_act ctx)) (act_authorization a) else []) with
     | Ok _ => mret tt
     | Err e =>
         if negb (is_exception e) || xc_restrict_action_to_self cfg || negb send_to_self then Err e
         else if xc_is_speculative_block cfg then Err subjective_block_production_exception
         else mret tt
     end
   else mret tt);;
  let '(o, st) := schedule_action a (act_account a) false (ac_action_ordinal ctx) (ac_first_receiver_action_ordinal ctx) st in
  mret (with_inline ctx (ac_inline_actions ctx ++ [o]) (ac_cfa_inline_actions ctx), st).

Definition execute_context_free_inline (a : action) (ctx : apply_context) (st : state_t) : result (apply_context * state_t) :=
  EOS_ASSERT (bool_decide (act_account a ∈ account_objects (w_auth (ts_world st)))) action_validate_exception;;
  EOS_ASSERT (vsize (act_authorization a) =? 0) action_validate_exception;;
  let '(o, st) := schedule_action a (act_account a) true (ac_action_ordinal ctx) (ac_first_receiver_action_ordinal ctx) st in
  mret (with_inline ctx (ac_inline_actions ctx) (ac_cfa_inline_actions ctx ++ [o]), st).

Definition apply_request (r : request) (ctx : apply_context) (st : state_t) : result (apply_context * state_t) :=
  match r with
  | notify recipient => require_recipient recipient ctx st
  | send_inline a => execute_inline a ctx st
  | send_context_free_inline a => execute_context_free_inline a ctx st
  end.
Fixpoint apply_requests (l : list request) (ctx : apply_context) (st : state_t) : result (apply_context * state_t) :=
  match l with [] => mret (ctx, st) | r :: l => '(ctx, st) ← apply_request r ctx st; apply_requests l ctx st end.

(** ** Sequence numbers *)

Definition get_metadata (w : world_t) (name : Z) : result account_metadata_object :=
  match w_metadata w !! name with Some m => mret m | None => Err out_of_range_exception end.
Definition with_metadata (w : world_t) (m : gmap Z account_metadata_object) : world_t :=
  World (w_auth w) m (w_global_action_sequence w) (w_rest w).

Definition next_global_sequence (w : world_t) : Z * world_t :=
  if xc_is_read_only cfg then (0, w)
  else let n := u64 (w_global_action_sequence w + 1) in (n, World (w_auth w) (w_metadata w) n (w_rest w)).

Definition next_recv_sequence (name : Z) (w : world_t) : result (Z * world_t) :=
  m ← get_metadata w name;
  if xc_is_read_only cfg then mret (0, w)
  else
    let n := u64 (recv_sequence m + 1) in
    mret (n, with_metadata w (<[name := AccountMetadata n (auth_sequence m) (code_sequence m) (abi_sequence m) (code_hash m)]> (w_metadata w))).

Definition next_auth_sequence (name : Z) (w : world_t) : result (Z * world_t) :=
  m ← get_metadata w name;
  let n := u64 (auth_sequence m + 1) in
  mret (n, with_metadata w (<[name := AccountMetadata (recv_sequence m) n (code_sequence m) (abi_sequence m) (code_hash m)]> (w_metadata w))).

Fixpoint next_auth_sequences (auths : list permission_level) (l : list (Z * Z)) (w : world_t) : result (list (Z * Z) * world_t) :=
  match auths with
  | [] => mret (l, w)
  | a :: auths => '(n, w) ← next_auth_sequence (actor a) w; next_auth_sequences auths (flat_map_assign (actor a) n l) w
  end.

(** ** Running one receiver *)

Definition check_code_lists (ctx : apply_context) : result unit :=
  if xc_enforce_whiteblacklist cfg && xc_is_speculative_block cfg then
    check_contract_list (xc_lists cfg) (ac_receiver ctx);; check_action_list (xc_lists cfg) (act_account (ac_act ctx)) (act_name (ac_act ctx))
  else mret tt.

Definition run_native (ctx : apply_context) (st : state_t) : result (state_t * gmap Z Z) :=
  match find_apply_handler (ac_receiver ctx) (act_account (ac_act ctx)) (act_name (ac_act ctx)) with
  | None => mret (st, ∅)
  | Some native => check_code_lists ctx;; '(w, deltas) ← native ctx (ts_world st); mret (with_world st w, deltas)
  end.

Definition setcode_name : Z := string_to_name "setcode".

(** Code runs unless the account has none, or it is setcode of the system account
    before the feature [forward_setcode]. *)
Definition runs_code (ctx : apply_context) (m : account_metadata_object) : bool :=
  negb (bool_decide (code_hash m = sha256_zero)) &&
  (negb ((act_account (ac_act ctx) =? system_account_name) && (act_name (ac_act ctx) =? setcode_name) &&
         (ac_receiver ctx =? system_account_name)) || xc_forward_setcode cfg).

Definition run_wasm (ctx : apply_context) (st : state_t) (deltas : gmap Z Z) : result (apply_context * state_t * gmap Z Z * list Z) :=
  m ← get_metadata (ts_world st) (ac_receiver ctx);
  if runs_code ctx m then
    check_code_lists ctx;;
    out ← wasm_apply (code_hash m) ctx (ts_action_traces st) deltas (ts_world st);
    let w := ts_world st in
    let db := w_auth w in
    let db := AuthDb (account_objects db) (co_privileged out) (permissions db) (next_permission_id db) (permission_usages db)
                (next_usage_id db) (permission_links db) (num_supported_key_types db) in
    '(ctx, st) ← apply_requests (co_requests out) ctx
                   (with_world st (World db (w_metadata w) (w_global_action_sequence w) (co_rest out)));
    mret (ctx, st, co_account_ram_deltas out, co_action_return_value out)
  else mret (ctx, st, deltas, []).

Definition run_action (ctx : apply_context) (st : state_t) : result (apply_context * state_t * gmap Z Z * list Z) :=
  if ac_context_free ctx && xc_skip_trx_checks cfg then mret (ctx, st, ∅, [])
  else
    let ctx := with_privileged ctx (bool_decide (ac_receiver ctx ∈ privileged_accounts (w_auth (ts_world st)))) in
    '(st, deltas) ← run_native ctx st;
    '(ctx, st, deltas, value) ← run_wasm ctx st deltas;
    check_ram_restrictions
      (Context_ (ac_receiver ctx) (act_account (ac_act ctx)) (act_authorization (ac_act ctx)) (ac_privileged ctx) (xc_is_read_only cfg)
         (xc_ram_restrictions cfg) (xc_ram_billing_in_notify_allowed cfg))
      (TablesState [] 0 ∅ deltas);;
    mret (ctx, st, deltas, value).

(** The receipt, with the numbers it takes. *)
Definition make_receipt (ctx : apply_context) (act_digest : sha256) (w : world_t) : result (action_receipt * world_t) :=
  let '(g, w) := next_global_sequence w in
  '(r, w) ← next_recv_sequence (ac_receiver ctx) w;
  first_receiver_account ← get_metadata w (act_account (ac_act ctx));
  '(auth, w) ← next_auth_sequences (act_authorization (ac_act ctx)) [] w;
  mret (ActionReceipt (ac_receiver ctx) act_digest g r auth (u32 (code_sequence first_receiver_account))
          (u32 (abi_sequence first_receiver_account)), w).

Definition finish_trace (t : action_trace) (r : action_receipt) (deltas : gmap Z Z) (value : list Z) : action_trace :=
  ActionTrace (at_action_ordinal t) (at_creator_action_ordinal t) (at_closest_unnotified_ancestor_action_ordinal t) (Some r)
    (at_receiver t) (at_act t) (at_context_free t) deltas value.

Definition exec_one (ctx : apply_context) (st : state_t) : result (apply_context * state_t) :=
  _ ← get_metadata (ts_world st) (ac_receiver ctx);
  '(ctx, st, deltas, value) ← run_action ctx st;
  act_digest ← (if xc_action_return_value cfg then generate_action_digest sha (ac_act ctx) value else hash_action sha (ac_act ctx));
  t ← get_action_trace (ts_action_traces st) (ac_action_ordinal ctx);
  '(r, w) ← make_receipt ctx act_digest (ts_world st);
  let t := finish_trace t r deltas value in
  d ← compute_and_append_digests_from sha (ts_executed_action_receipts st) t;
  mret (ctx, TrxState w (<[Z.to_nat (ac_action_ordinal ctx - 1) := t]> (ts_action_traces st)) d).

(** ** Running an action and those it sends *)

Fixpoint exec_notified (fuel i : nat) (ctx : apply_context) (st : state_t) : bounded (apply_context * state_t) :=
  match ac_notified ctx !! i with
  | None => Some (Ok (ctx, st))
  | Some (receiver, ordinal) =>
      match fuel with
      | O => None
      | S fuel => bbind (Some (exec_one (with_receiver ctx receiver ordinal) st)) (fun '(ctx, st) => exec_notified fuel (S i) ctx st)
      end
  end.

(** [apply_context::apply_context]. *)
Definition make_context (action_ordinal depth : Z) (st : state_t) : result apply_context :=
  t ← get_action_trace (ts_action_traces st) action_ordinal;
  mret (ApplyContext (at_act t) (at_receiver t) depth action_ordinal action_ordinal false (at_context_free t) [] [] []).

(** The part of [exec] for the receiver and the accounts it notifies: as many
    rounds as there can be accounts. *)
Definition exec_receivers (ctx : apply_context) (st : state_t) : bounded (apply_context * state_t) :=
  let ctx := with_notified ctx (ac_notified ctx ++ [(ac_receiver ctx, ac_action_ordinal ctx)]) in
  bbind (Some (exec_one ctx st)) (fun '(ctx, st) => exec_notified (S (size (w_metadata (ts_world st)))) 1 ctx st).

Fixpoint execute_action (fuel : nat) (action_ordinal recurse_depth : Z) (st : state_t) : bounded state_t :=
  bbind (Some (make_context action_ordinal recurse_depth st)) (fun ctx =>
  bbind (exec_receivers ctx st) (fun '(ctx, st) =>
  match ac_cfa_inline_actions ctx ++ ac_inline_actions ctx with
  | [] => Some (Ok st)
  | scheduled =>
      if recurse_depth <? max_inline_action_depth (w_rest (ts_world st)) then
        match fuel with
        | O => None
        | S fuel => bounded_fold (fun ordinal => execute_action fuel ordinal (u32 (recurse_depth + 1))) scheduled st
        end
      else Some (Err transaction_exception)
  end)).

(** [transaction_context::exec]; a depth is an [uint16_t]. *)
Definition exec (apply_context_free : bool) (delay : Z) (context_free_actions actions : list action) (st : state_t) : bounded state_t :=
  let schedule cf := foldl (fun st act => (schedule_action act (act_account act) cf 0 0 st).2) in
  let st := if apply_context_free then schedule true st context_free_actions else st in
  let st := if delay =? 0 then schedule false st actions else st in
  let num_original_actions_to_execute := length (ts_action_traces st) in
  bbind (bounded_fold (fun i => execute_action (Z.to_nat (2 ^ 16)) i 0) (Z.of_nat <$> seq 1 num_original_actions_to_execute) st) (fun st =>
  if delay =? 0 then Some (Ok st) else Some (Err transaction_exception)).
End Execution.
