(* ===== verification/ActionRuns.v ===== *)
(** The actions of a transaction: they all come to an end, and what their traces
    and receipts say of them. *)
From Stdlib Require Import ZArith Lia ZifyBool Sorted.
From stdpp Require Import base tactics numbers list gmap fin_maps fin_map_dom sets.
From S2P Require Import Prelude Digest Raw CoreAsset ResourceLimits Authority PermissionActions ContractTables Authorization ActionExecution.
#[local] Open Scope Z_scope.

Lemma bbind_Ok {A B} (m : bounded A) (f : A -> bounded B) b :
  bbind m f = Some (Ok b) <-> exists a, m = Some (Ok a) /\ f a = Some (Ok b).
Proof. destruct m as [[a|e]|]; cbn; naive_solver. Qed.

Section Requests.
Context {K W : Type} `{EqDecision K} `{Packable K}.
Variable checktime : nat -> result unit.
Variable cfg : exec_config.
Abbreviation state_t := (trx_state K W).

(** ** What running a receiver leaves as it was *)

Definition same_run (c c' : apply_context) : Prop :=
  ac_act c' = ac_act c /\ ac_receiver c' = ac_receiver c /\ ac_recurse_depth c' = ac_recurse_depth c /\
  ac_first_receiver_action_ordinal c' = ac_first_receiver_action_ordinal c /\ ac_action_ordinal c' = ac_action_ordinal c /\
  ac_context_free c' = ac_context_free c.

Lemma same_run_trans c1 c2 c3 : same_run c1 c2 -> same_run c2 c3 -> same_run c1 c3.
Proof. unfold same_run. intros (?&?&?&?&?&?) (?&?&?&?&?&?). split_and!; congruence. Qed.

(** What requests do: they only add to the context and to the traces. *)
Record asked (c : apply_context) (st : state_t) (c' : apply_context) (st' : state_t) : Prop := {
  ak_run : same_run c c';
  ak_world : ts_world st' = ts_world st;
  ak_digests : ts_executed_action_receipts st' = ts_executed_action_receipts st;
  ak_traces : ts_action_traces st `prefix_of` ts_action_traces st';
  ak_notified : ac_notified c `prefix_of` ac_notified c';
  ak_nodup : NoDup (ac_notified c).*1 -> NoDup (ac_notified c').*1
}.

Lemma asked_refl c st : asked c st c st.
Proof. constructor; [unfold same_run|..]; done. Qed.

Lemma asked_trans c1 s1 c2 s2 c3 s3 : asked c1 s1 c2 s2 -> asked c2 s2 c3 s3 -> asked c1 s1 c3 s3.
Proof. intros [] []. constructor; [by eapply same_run_trans|congruence|congruence|by etrans|by etrans|auto]. Qed.

Lemma has_recipient_elem c code : has_recipient c code = true <-> code ∈ (ac_notified c).*1.
Proof.
  unfold has_recipient. rewrite existsb_exists, list_elem_of_fmap. setoid_rewrite Z.eqb_eq. setoid_rewrite <- list_elem_of_In.
  split; intros ([r o] & ? & ?); exists (r, o); cbn in *; naive_solver.
Qed.

(** The three requests, as what they schedule. *)
Inductive schedules (c : apply_context) (l : list action_trace) : action_trace -> apply_context -> Prop :=
| schedules_notify t r : get_action_trace l (ac_action_ordinal c) = Ok t -> r ∉ (ac_notified c).*1 ->
    schedules c l (ActionTrace (u32 (vsize l + 1)) (ac_action_ordinal c) (ac_first_receiver_action_ordinal c) None r (at_act t) false ∅ [])
      (with_notified c (ac_notified c ++ [(r, u32 (vsize l + 1))]))
| schedules_inline a :
    schedules c l (ActionTrace (u32 (vsize l + 1)) (ac_action_ordinal c) (ac_first_receiver_action_ordinal c) None (act_account a) a false ∅ [])
      (with_inline c (ac_inline_actions c ++ [u32 (vsize l + 1)]) (ac_cfa_inline_actions c))
| schedules_cfa a :
    schedules c l (ActionTrace (u32 (vsize l + 1)) (ac_action_ordinal c) (ac_first_receiver_action_ordinal c) None (act_account a) a true ∅ [])
      (with_inline c (ac_inline_actions c) (ac_cfa_inline_actions c ++ [u32 (vsize l + 1)])).

Lemma apply_request_schedules r c (st : state_t) c' st' :
  apply_request checktime cfg r c st = Ok (c', st') ->
  (c' = c /\ st' = st) \/
  exists t, schedules c (ts_action_traces st) t c' /\ st' = with_traces st (ts_action_traces st ++ [t]).
Proof.
  intros E. destruct r as [r|a|a]; cbn [apply_request] in E.
  - unfold require_recipient, schedule_action_ordinal in E. destruct (has_recipient c r) eqn:Hr.
    + apply Ok_inj in E. injection E as <- <-. by left.
    + right. apply bind_Ok in E as ([o st1] & E1 & E). apply bind_Ok in E1 as (t & Et & E1). apply Ok_inj in E1.
      injection E1 as <- <-. apply Ok_inj in E. injection E as <- <-. eexists. split; [|done]. constructor; [done|].
      intros Hin%has_recipient_elem. congruence.
  - right. unfold execute_inline in E. do 4 (apply bind_Ok in E as (? & _ & E)). apply Ok_inj in E. injection E as <- <-.
    eexists. split; [constructor|done].
  - right. unfold execute_context_free_inline in E. do 2 (apply bind_Ok in E as (? & _ & E)). apply Ok_inj in E. injection E as <- <-.
    eexists. split; [constructor|done].
Qed.

Lemma schedules_asked c (st : state_t) t c' : schedules c (ts_action_traces st) t c' -> asked c st c' (with_traces st (ts_action_traces st ++ [t])).
Proof.
  intros Hs. destruct Hs as [t r _ Hr|a|a]; constructor; try done; try (cbn; by eexists).
  - cbn. intros Hd. rewrite fmap_app. apply NoDup_app. split_and!; [done| |apply NoDup_singleton].
    intros x Hx ->%list_elem_of_singleton. done.
Qed.

Lemma apply_requests_asked l c (st : state_t) c' st' : apply_requests checktime cfg l c st = Ok (c', st') -> asked c st c' st'.
Proof.
  revert c st. induction l as [|r l IH]; intros c st E; cbn [apply_requests] in E.
  - apply Ok_inj in E. injection E as <- <-. apply asked_refl.
  - apply bind_Ok in E as ([c1 st1] & E1 & E). eapply asked_trans; [|by apply IH].
    apply apply_request_schedules in E1 as [[-> ->]|(t & Hs & ->)]; [apply asked_refl|by apply schedules_asked].
Qed.
End Requests.

Abbreviation accounts w := (dom (w_metadata w) : gset Z).

Section Worlds.
Context {K W : Type}.
Variable cfg : exec_config.
Abbreviation world_t := (world K W).

(** ** What code does to accounts *)

Definition recv_of (w : world_t) (a : Z) : Z := default 0 (recv_sequence <$> w_metadata w !! a).
Definition auth_of (w : world_t) (a : Z) : Z := default 0 (auth_sequence <$> w_metadata w !! a).

(** A native handler creates at most one account, removes none, and leaves the
    numbers of receipts alone; those of a new account are zero. *)
Record keeps_accounts (w w' : world_t) : Prop := {
  ka_accounts : accounts w ⊆ accounts w';
  ka_one : (size (w_metadata w') <= S (size (w_metadata w)))%nat;
  ka_global : w_global_action_sequence w' = w_global_action_sequence w;
  ka_recv : forall a, recv_of w' a = recv_of w a;
  ka_auth : forall a, auth_of w' a = auth_of w a
}.

Lemma keeps_same w w' : w_metadata w' = w_metadata w -> w_global_action_sequence w' = w_global_action_sequence w -> keeps_accounts w w'.
Proof. intros E1 E2. constructor; unfold recv_of, auth_of; rewrite ?E1; done || lia. Qed.

(** Only for the account of the action itself is native code run. *)
Definition code_ran (c : apply_context) (w w' : world_t) : Prop :=
  keeps_accounts w w' /\ (ac_receiver c <> act_account (ac_act c) -> w_metadata w' = w_metadata w).

(** ** Numbers of receipts *)

Lemma insert_dom (w : world_t) n m m' : w_metadata w !! n = Some m -> accounts (with_metadata w (<[n := m']> (w_metadata w))) = accounts w.
Proof. intros E. cbn. rewrite dom_insert_L. apply elem_of_dom_2 in E. set_solver. Qed.

Lemma next_recv_spec n (w : world_t) k w' :
  next_recv_sequence cfg n w = Ok (k, w') ->
  accounts w' = accounts w /\ w_global_action_sequence w' = w_global_action_sequence w /\ (forall a, auth_of w' a = auth_of w a) /\
  (xc_is_read_only cfg = false -> k = u64 (recv_of w n + 1) /\ forall a, recv_of w' a = if a =? n then k else recv_of w a) /\
  (xc_is_read_only cfg = true -> k = 0 /\ forall a, recv_of w' a = recv_of w a) /\
  n ∈ accounts w.
Proof.
  unfold next_recv_sequence, get_metadata. destruct (w_metadata w !! n) as [m|] eqn:Em; [|done]. cbn [mbind result_bind mret result_ret].
  destruct (xc_is_read_only cfg) eqn:Er; intros E; apply Ok_inj in E; injection E as <- <-.
  - split_and!; try done. by apply elem_of_dom_2 in Em.
  - split_and!; [by eapply insert_dom|done| | |done|by apply elem_of_dom_2 in Em].
    + intros a. unfold auth_of. cbn. destruct (decide (a = n)) as [->|]; [by rewrite lookup_insert_eq, Em|by rewrite lookup_insert_ne].
    + intros _. split; [unfold recv_of; by rewrite Em|]. intros a. unfold recv_of. cbn. destruct (Z.eqb_spec a n) as [->|].
      * by rewrite lookup_insert_eq.
      * by rewrite lookup_insert_ne.
Qed.

Lemma next_auth_spec n (w : world_t) k w' :
  next_auth_sequence n w = Ok (k, w') ->
  accounts w' = accounts w /\ w_global_action_sequence w' = w_global_action_sequence w /\ (forall a, recv_of w' a = recv_of w a) /\
  k = u64 (auth_of w n + 1) /\ (forall a, auth_of w' a = if a =? n then k else auth_of w a).
Proof.
  unfold next_auth_sequence, get_metadata. destruct (w_metadata w !! n) as [m|] eqn:Em; [|done]. cbn [mbind result_bind mret result_ret].
  intros E; apply Ok_inj in E; injection E as <- <-. split_and!; [by eapply insert_dom|done| |unfold auth_of; by rewrite Em|].
  - intros a. unfold recv_of. cbn. destruct (decide (a = n)) as [->|]; [by rewrite lookup_insert_eq, Em|by rewrite lookup_insert_ne].
  - intros a. unfold auth_of. cbn. destruct (Z.eqb_spec a n) as [->|].
    + by rewrite lookup_insert_eq.
    + by rewrite lookup_insert_ne.
Qed.

Definition times (a : Z) (l : list Z) : Z := Z.of_nat (length (filter (fun x => x = a) l)).

Lemma times_cons a x l : times a (x :: l) = (if a =? x then 1 else 0) + times a l.
Proof. unfold times. rewrite filter_cons. destruct (Z.eqb_spec a x), (decide (x = a)); cbn; lia || congruence. Qed.
Lemma times_app a l k : times a (l ++ k) = times a l + times a k.
Proof. unfold times. rewrite filter_app, length_app. lia. Qed.

Lemma u64_step x y n : u64 y = u64 (x + 1) -> u64 (y + n) = u64 (x + (1 + n)).
Proof. unfold u64. intros E. rewrite Z.add_assoc, Z.add_mod, E, <- Z.add_mod by lia. done. Qed.
Lemma u64_idem x : u64 (u64 x) = u64 x.
Proof. unfold u64. by rewrite Z.mod_mod by lia. Qed.

Lemma times_zero a l : a ∉ l -> times a l = 0.
Proof. induction l as [|x l IH]; [done|]. rewrite not_elem_of_cons, times_cons. intros [Hx Hl]. rewrite IH by done. by destruct (Z.eqb_spec a x). Qed.

(** An assignment replaces what the map had for the key. *)
Lemma flat_map_assign_elem k v (l : list (Z * Z)) a n :
  StronglySorted Z.lt l.*1 -> (a, n) ∈ flat_map_assign k v l <-> (a = k /\ n = v) \/ (a <> k /\ (a, n) ∈ l).
Proof.
  induction l as [|[k' v'] l IH]; intros Hs; cbn [flat_map_assign].
  - rewrite list_elem_of_singleton, elem_of_nil. naive_solver.
  - rewrite fmap_cons in Hs. apply StronglySorted_inv in Hs as [Hs Hk']. rewrite Forall_forall in Hk'. cbn [fst] in Hk'.
    assert (forall n', (a, n') ∈ l -> k' < a) as Hlt.
    { intros n' Hn'. apply Hk'. apply list_elem_of_fmap. by exists (a, n'). }
    specialize (IH Hs). destruct (Z.ltb_spec k k'), (Z.ltb_spec k' k); rewrite ?elem_of_cons, ?IH;
      split; intros Hx; destruct_or?; simplify_eq; naive_solver lia.
Qed.

Lemma flat_map_assign_sorted k v (l : list (Z * Z)) : StronglySorted Z.lt l.*1 -> StronglySorted Z.lt (flat_map_assign k v l).*1.
Proof.
  induction l as [|[k' v'] l IH]; intros Hs0; cbn [flat_map_assign]; [repeat constructor|].
  pose proof Hs0 as Hs. rewrite fmap_cons in Hs. apply StronglySorted_inv in Hs as [Hs Hk']. cbn [fst] in Hk'.
  destruct (Z.ltb_spec k k'), (Z.ltb_spec k' k); rewrite ?fmap_cons; cbn [fst]; try lia.
  - constructor; [done|]. constructor; [done|]. eapply Forall_impl; [exact Hk'|]. cbn. lia.
  - constructor; [by apply IH|]. rewrite Forall_forall in *. intros x ([a n] & -> & Hx)%list_elem_of_fmap. cbn [fst].
    apply flat_map_assign_elem in Hx as [[-> _]|[_ Hx]]; [lia| |done]. apply Hk'. apply list_elem_of_fmap. by exists (a, n).
  - by replace k with k' by lia.
Qed.

(** A receipt's map: in order, one number for each authorizing account. *)
Definition numbers_of (l : list (Z * Z)) (accounts : list Z) (number : Z -> Z) : Prop :=
  StronglySorted Z.lt l.*1 /\ forall a n, (a, n) ∈ l <-> a ∈ accounts /\ n = number a.

Lemma numbers_of_ext l accounts f g : (forall a, a ∈ accounts -> f a = g a) -> numbers_of l accounts f -> numbers_of l accounts g.
Proof. intros He [Hs Hl]. split; [done|]. intros a n. rewrite Hl. split; intros [Ha ->]; (split; [done|]); by rewrite He. Qed.

Lemma next_auths_spec auths l (w : world_t) l' w' :
  next_auth_sequences auths l w = Ok (l', w') -> StronglySorted Z.lt l.*1 ->
  accounts w' = accounts w /\ w_global_action_sequence w' = w_global_action_sequence w /\ (forall a, recv_of w' a = recv_of w a) /\
  (forall a, u64 (auth_of w' a) = u64 (auth_of w a + times a (actor <$> auths))) /\
  StronglySorted Z.lt l'.*1 /\
  (forall a n, (a, n) ∈ l' <-> (a ∈ (actor <$> auths) /\ n = u64 (auth_of w a + times a (actor <$> auths))) \/
                               ((a ∉ (actor <$> auths)) /\ (a, n) ∈ l)).
Proof.
  revert l w. induction auths as [|p auths IH]; intros l w E Hl; cbn [next_auth_sequences] in E.
  - apply Ok_inj in E. injection E as <- <-. split_and!; try done.
    + intros a. by rewrite Z.add_0_r.
    + intros a n. cbn. rewrite elem_of_nil. naive_solver.
  - apply bind_Ok in E as ([k w1] & E1 & E). apply next_auth_spec in E1 as (D1 & G1 & R1 & -> & A1).
    set (v := u64 (auth_of w (actor p) + 1)) in *.
    pose proof (flat_map_assign_sorted (actor p) v l Hl) as Hl1.
    pose proof (fun a n => flat_map_assign_elem (actor p) v l a n Hl) as Hin1.
    assert (forall a n, u64 (auth_of w1 a + n) = u64 (auth_of w a + ((if a =? actor p then 1 else 0) + n))) as Hstep.
    { intros a n. rewrite A1. destruct (Z.eqb_spec a (actor p)) as [->|]; [|done]. apply u64_step. unfold v. by rewrite u64_idem. }
    apply IH in E as (D2 & G2 & R2 & A2 & Hs2 & Hin2); [|done].
    split_and!; [congruence|congruence|intros a; by rewrite R2| |done|].
    + intros a. rewrite A2, Hstep. cbn [fmap list_fmap]. by rewrite times_cons.
    + intros a n. rewrite Hin2, Hin1, Hstep. cbn [fmap list_fmap]. rewrite times_cons, elem_of_cons. fold (actor <$> auths).
      destruct (decide (a ∈ (actor <$> auths))) as [Ha|Ha]; [naive_solver|]. rewrite (times_zero _ _ Ha).
      destruct (Z.eqb_spec a (actor p)) as [->|Hne]; [|naive_solver]. rewrite Z.add_0_r. unfold v. naive_solver.
Qed.

Lemma make_receipt_spec c dg (w : world_t) r w' :
  make_receipt cfg c dg w = Ok (r, w') ->
  accounts w' = accounts w /\ ac_receiver c ∈ accounts w /\ ar_receiver r = ac_receiver c /\
  (xc_is_read_only cfg = false ->
     ar_global_sequence r = u64 (w_global_action_sequence w + 1) /\ w_global_action_sequence w' = ar_global_sequence r /\
     ar_recv_sequence r = u64 (recv_of w (ac_receiver c) + 1) /\
     (forall a, recv_of w' a = if a =? ac_receiver c then ar_recv_sequence r else recv_of w a)) /\
  (xc_is_read_only cfg = true ->
     ar_global_sequence r = 0 /\ w_global_action_sequence w' = w_global_action_sequence w /\
     ar_recv_sequence r = 0 /\ (forall a, recv_of w' a = recv_of w a)) /\
  (forall a, u64 (auth_of w' a) = u64 (auth_of w a + times a (actor <$> act_authorization (ac_act c)))) /\
  numbers_of (ar_auth_sequence r) (actor <$> act_authorization (ac_act c))
    (fun a => u64 (auth_of w a + times a (actor <$> act_authorization (ac_act c)))).
Proof.
  intros E. unfold make_receipt in E. destruct (next_global_sequence cfg w) as [g w1] eqn:Eg.
  assert (w_metadata w1 = w_metadata w) as Em by (unfold next_global_sequence in Eg; destruct (xc_is_read_only cfg); by injection Eg as _ <-).
  apply bind_Ok in E as ([k w2] & E2 & E). apply next_recv_spec in E2 as (D2 & G2 & A2 & R2 & R2r & Hin).
  apply bind_Ok in E as (m & _ & E). apply bind_Ok in E as ([auth w3] & E3 & E). apply next_auths_spec in E3 as (D3 & G3 & R3 & A3 & S3 & N3); [|constructor].
  assert (forall a, auth_of w1 a = auth_of w a) as A1 by (intros a; unfold auth_of; by rewrite Em).
  apply Ok_inj in E. injection E as <- <-. cbn [ar_receiver ar_global_sequence ar_recv_sequence ar_auth_sequence].
  rewrite Em in *. split_and!; [congruence|done|done| | | |].
  - intros Hro. destruct (R2 Hro) as [-> R2']. unfold next_global_sequence in Eg. rewrite Hro in Eg. injection Eg as <- <-.
    split_and!; [done|by rewrite G3, G2|by unfold recv_of|]. intros a. rewrite R3, R2'. by unfold recv_of.
  - intros Hro. destruct (R2r Hro) as [-> R2']. unfold next_global_sequence in Eg. rewrite Hro in Eg. injection Eg as <- <-.
    split_and!; [done|by rewrite G3, G2|done|]. intros a. by rewrite R3, R2'.
  - intros a. by rewrite A3, A2, A1.
  - split; [done|]. intros a n. rewrite N3, A2, A1. rewrite elem_of_nil. naive_solver.
Qed.
End Worlds.

Section Runs.
Context {K W : Type} `{EqDecision K} `{Packable K}.
Variable sha : list Z -> sha256.
Variable checktime : nat -> result unit.
Variable cfg : exec_config.
Variable max_inline_action_depth : W -> Z.
Variable find_apply_handler : Z -> Z -> Z -> option (apply_context -> world K W -> result (world K W * gmap Z Z)).
Variable wasm_apply : sha256 -> apply_context -> list action_trace -> gmap Z Z -> world K W -> result (code_output W).

Abbreviation world_t := (world K W).
Abbreviation state_t := (trx_state K W).

Hypothesis native_receiver : forall receiver account name h, find_apply_handler receiver account name = Some h -> receiver = account.
Hypothesis native_accounts : forall receiver account name h c w w' d,
  find_apply_handler receiver account name = Some h -> h c w = Ok (w', d) -> keeps_accounts w w'.

Lemma run_action_asked c (st : state_t) c' st' d v :
  run_action checktime cfg find_apply_handler wasm_apply c st = Ok (c', st', d, v) ->
  exists c1 w, same_run c c1 /\ ac_notified c1 = ac_notified c /\ ac_inline_actions c1 = ac_inline_actions c /\
    ac_cfa_inline_actions c1 = ac_cfa_inline_actions c /\ code_ran c (ts_world st) w /\
    exists rq, apply_requests checktime cfg rq c1 (with_world st w) = Ok (c', st').
Proof.
  intros E. unfold run_action in E. destruct (_ && _).
  - apply Ok_inj in E. injection E as <- <- <- <-. exists c, (ts_world st). split_and!; try done.
    + split; [by apply keeps_same|done].
    + exists []. cbn. by destruct st.
  - set (c1 := with_privileged _ _) in E. apply bind_Ok in E as ([st1 d1] & En & E). apply bind_Ok in E as ([[[c2 st2] d2] v2] & Ew & E).
    apply bind_Ok in E as (u & _ & E). apply Ok_inj in E. injection E as -> -> -> ->.
    assert (exists w, st1 = with_world st w /\ code_ran c (ts_world st) w) as (w1 & -> & Hk1 & Hn1).
    { unfold run_native in En. destruct (find_apply_handler _ _ _) as [h|] eqn:Eh.
      - apply bind_Ok in En as (u' & _ & En). apply bind_Ok in En as ([w d'] & Eh' & En). apply Ok_inj in En. injection En as <- <-.
        exists w. split; [done|]. split; [by eapply native_accounts|]. intros Hne. by apply native_receiver in Eh.
      - apply Ok_inj in En. injection En as <- <-. exists (ts_world st). split; [by destruct st|]. split; [by apply keeps_same|done]. }
    unfold run_wasm in Ew. apply bind_Ok in Ew as (m & _ & Ew). destruct (runs_code _ _ _).
    + apply bind_Ok in Ew as (u' & _ & Ew). apply bind_Ok in Ew as (out & _ & Ew). apply bind_Ok in Ew as ([c3 st3] & Er & Ew).
      apply Ok_inj in Ew. injection Ew as -> -> _ _. eexists c1, _. do 4 (split; [done|]). split; [|by eexists].
      split; [destruct Hk1; constructor; done|done].
    + apply Ok_inj in Ew. injection Ew as <- <- _ _. exists c1, w1. split_and!; try done. by exists [].
Qed.

(** Running a receiver, taken apart. *)
Lemma exec_one_spec c (st : state_t) c' st' :
  exec_one sha checktime cfg find_apply_handler wasm_apply c st = Ok (c', st') ->
  exists c1 w rq st1 t r deltas value dg,
    same_run c c1 /\ ac_notified c1 = ac_notified c /\ ac_inline_actions c1 = ac_inline_actions c /\
    ac_cfa_inline_actions c1 = ac_cfa_inline_actions c /\ code_ran c (ts_world st) w /\
    apply_requests checktime cfg rq c1 (with_world st w) = Ok (c', st1) /\ ts_world st1 = w /\
    get_action_trace (ts_action_traces st1) (ac_action_ordinal c) = Ok t /\
    make_receipt cfg c' dg w = Ok (r, ts_world st') /\
    ts_action_traces st' = <[Z.to_nat (ac_action_ordinal c - 1) := finish_trace t r deltas value]> (ts_action_traces st1).
Proof.
  intros E. unfold exec_one in E. apply bind_Ok in E as (m & _ & E). apply bind_Ok in E as ([[[c2 st2] deltas] value] & Er & E).
  apply bind_Ok in E as (dg & _ & E). apply bind_Ok in E as (t & Et & E). apply bind_Ok in E as ([r w2] & Em & E).
  apply bind_Ok in E as (d & _ & E). apply Ok_inj in E. injection E as <- <-.
  apply run_action_asked in Er as (c1 & w & Hc & H1 & H2 & H3 & Hw & rq & Hrq). pose proof (apply_requests_asked _ _ _ _ _ _ _ Hrq) as Ha.
  destruct (ak_run _ _ _ _ Ha) as (_ & _ & _ & _ & Eo & _). destruct Hc as (? & ? & ? & ? & Eo' & ?). rewrite Eo, Eo' in *.
  exists c1, w, rq, st2, t, r, deltas, value, dg. pose proof (ak_world _ _ _ _ Ha) as Ew. cbn in Ew. rewrite Ew in Em.
  by split_and!.
Qed.

(** What it does to accounts and to the list of notified ones. *)
Lemma exec_one_accounts c (st : state_t) c' st' :
  exec_one sha checktime cfg find_apply_handler wasm_apply c st = Ok (c', st') ->
  same_run c c' /\ ac_receiver c ∈ accounts (ts_world st') /\
  (accounts (ts_world st)) ⊆ accounts (ts_world st') /\
  (size (accounts (ts_world st')) <= S (size (accounts (ts_world st))))%nat /\
  (ac_receiver c <> act_account (ac_act c) -> accounts (ts_world st') = accounts (ts_world st)) /\
  ac_notified c `prefix_of` ac_notified c' /\ (NoDup (ac_notified c).*1 -> NoDup (ac_notified c').*1).
Proof.
  intros (c1 & w & rq & st1 & t & r & ds & v & dg & Hc & Hn & _ & _ & [Hk Hne] & Hrq & Ew & _ & Em & _)%exec_one_spec.
  apply apply_requests_asked in Hrq as [Hc' _ _ _ Hpre Hnd]. rewrite Hn in *. apply make_receipt_spec in Em as (D & Hin & _).
  pose proof (same_run_trans _ _ _ Hc Hc') as Hcc. destruct Hcc as (? & Er & _). rewrite Er, <- D in Hin. destruct Hk as [Hsub Hone _ _ _].
  split_and!; try done; [by eapply same_run_trans|by rewrite D| |].
  - rewrite D. rewrite !size_dom. done.
  - intros Hd. rewrite D. by rewrite (Hne Hd).
Qed.

(** ** Actions come to an end *)

Lemma nodup_size (l : list Z) (X : gset Z) : NoDup l -> (forall x, x ∈ l -> x ∈ X) -> (length l <= size X)%nat.
Proof. intros Hd Hin. rewrite <- (size_list_to_set (C := gset Z) l Hd). apply subseteq_size. set_solver. Qed.

(** Every round takes an account that no round before had. *)
Lemma exec_notified_ends fuel i B c (st : state_t) :
  let acc := accounts (ts_world st) in
  NoDup (ac_notified c).*1 -> (forall r, r ∈ (take i (ac_notified c)).*1 -> r ∈ acc) -> (1 <= i <= length (ac_notified c))%nat ->
  (size acc <= B)%nat -> (act_account (ac_act c) ∉ (take i (ac_notified c)).*1 -> (size acc < B)%nat) -> (fuel + i = S B)%nat ->
  exec_notified sha checktime cfg find_apply_handler wasm_apply fuel i c st <> None.
Proof.
  revert i c st. induction fuel as [|fuel IH]; intros i c st acc Hd Hin Hi HB HB' Hf; cbn [exec_notified];
    destruct (ac_notified c !! i) as [[r o]|] eqn:En; try done.
  - assert (i <= size acc)%nat; [|lia]. apply lookup_lt_Some in En as Hlt.
    replace i with (length (take i (ac_notified c)).*1) by (rewrite length_fmap, length_take; lia).
    apply nodup_size; [|done]. rewrite fmap_take. eapply sublist_NoDup; [exact Hd|]. apply sublist_take.
  - destruct (exec_one _ _ _ _ _ _ _) as [[c' st']|e] eqn:E; [|done]. cbn [bbind].
    apply exec_one_accounts in E as ((Ea & _) & Hr & Hsub & Hone & Hsame & Hpre & Hnd). cbn [with_receiver ac_act ac_notified ac_receiver] in *.
    specialize (Hnd Hd). destruct Hpre as [k Hk]. apply lookup_lt_Some in En as Hlt.
    assert (take (S i) (ac_notified c') = take i (ac_notified c) ++ [(r, o)]) as Et.
    { rewrite Hk, take_app_le by lia. by apply take_S_r. }
    apply IH; try done.
    + intros x. rewrite Et, fmap_app, elem_of_app. intros [Hx|Hx]; [by apply Hsub, Hin|]. by apply list_elem_of_singleton in Hx as ->.
    + rewrite Hk, length_app. lia.
    + destruct (decide (r = act_account (ac_act c))) as [->|Hne]; [|rewrite Hsame by done; done].
      assert (size acc < B)%nat; [|unfold acc in *; lia]. apply HB'. intros Hx. rewrite Hk in Hnd.
      rewrite <- (take_drop_middle _ _ _ En), !fmap_app, fmap_cons in Hnd. rewrite <- !app_assoc in Hnd.
      apply NoDup_app in Hnd as (_ & Hnd & _). apply (Hnd _ Hx). cbn. by left.
    + rewrite Et, Ea, fmap_app, not_elem_of_app. intros [Hx Hy]. cbn in Hy. rewrite Hsame by set_solver. by apply HB'.
    + lia.
Qed.

Lemma exec_receivers_ends o depth (st : state_t) c :
  make_context o depth st = Ok c -> exec_receivers sha checktime cfg find_apply_handler wasm_apply c st <> None.
Proof.
  intros E. unfold make_context in E. apply bind_Ok in E as (t & _ & E). apply Ok_inj in E as <-. unfold exec_receivers.
  cbn [ac_notified ac_receiver ac_action_ordinal app].
  destruct (exec_one _ _ _ _ _ _ _) as [[c st']|e] eqn:E; [|done]. cbn [bbind]. apply exec_one_accounts in E as ((Ea & _) & Hr & _ & _ & _ & Hpre & Hnd).
  cbn [with_notified ac_act ac_notified ac_receiver] in *. destruct Hpre as [k Hk]. apply (exec_notified_ends _ _ (S (size (accounts (ts_world st'))))).
  - apply Hnd, NoDup_singleton.
  - intros r. rewrite Hk. cbn. rewrite list_elem_of_singleton. by intros ->.
  - rewrite Hk. cbn. lia.
  - lia.
  - lia.
  - rewrite size_dom. lia.
Qed.

Lemma execute_action_ends fuel o depth (st : state_t) :
  (forall x, max_inline_action_depth x < 2 ^ 16) -> 0 <= depth -> depth + Z.of_nat fuel = 2 ^ 16 ->
  execute_action sha checktime cfg max_inline_action_depth find_apply_handler wasm_apply fuel o depth st <> None.
Proof.
  intros Hmax. revert o depth st. induction fuel as [|fuel IH]; intros o depth st Hd Hf; cbn [execute_action].
  all: destruct (make_context o depth st) as [c|e] eqn:Ec; [|done]; cbn [bbind].
  all: pose proof (exec_receivers_ends _ _ _ _ Ec) as Hends; destruct (exec_receivers _ _ _ _ _ c st) as [[[c' st']|e]|]; [|done..]; cbn [bbind].
  all: destruct (ac_cfa_inline_actions c' ++ ac_inline_actions c') as [|x l]; [done|]; destruct (Z.ltb_spec depth (max_inline_action_depth (w_rest (ts_world st')))) as [Hlt|]; [|done].
  - pose proof (Hmax (w_rest (ts_world st'))). lia.
  - rewrite u32_small by lia. generalize st'. clear -IH Hd Hf. induction (x :: l) as [|y k IHk]; intros st; [done|]. cbn [bounded_fold].
    assert (exists r, execute_action sha checktime cfg max_inline_action_depth find_apply_handler wasm_apply fuel y (depth + 1) st = Some r) as [r Er].
    { destruct (execute_action _ _ _ _ _ _ fuel y (depth + 1) st) as [r|] eqn:E; [by exists r|]. by apply IH in E; [|lia..]. }
    rewrite Er. destruct r as [st2|e]; [apply IHk|done].
Qed.

(** C16. A transaction comes to an end: whatever contract code does in one run,
    the accounts that it notifies, each at most once per action, and the inline
    actions that it sends, down to the maximal depth, run out; the bounds that the
    loops have here, as many rounds as there are accounts and as many levels as
    the type of the depth allows, are never reached. *)
Theorem actions_terminate apply_cf delay cfas actions (st : state_t) :
  (forall x, max_inline_action_depth x < 2 ^ 16) ->
  exec sha checktime cfg max_inline_action_depth find_apply_handler wasm_apply apply_cf delay cfas actions st <> None.
Proof.
  intros Hmax. unfold exec. match goal with |- context [bounded_fold _ _ ?s] => generalize s end. intros s.
  match goal with |- context [bounded_fold _ ?l s] => generalize l end. intros l.
  assert (exists r, bounded_fold (fun i => execute_action sha checktime cfg max_inline_action_depth find_apply_handler wasm_apply (Z.to_nat (2 ^ 16)) i 0) l s
    = Some r) as [r ->].
  { revert s. induction l as [|x l IH]; intros s; [by eexists|]. cbn [bounded_fold].
    pose proof (execute_action_ends (Z.to_nat (2 ^ 16)) x 0 s Hmax ltac:(lia) ltac:(lia)) as Hn.
    destruct (execute_action _ _ _ _ _ _ _ x 0 s) as [[s'|e]|]; [apply IH|by eexists|done]. }
  destruct r as [s'|e]; [|done]. cbn. by destruct (delay =? 0).
Qed.
End Runs.

(** ** Lists of actors *)

Lemma lower_bound_spec x l :
  StronglySorted Z.lt l ->
  (forall y, y ∈ lower_bound_from x l <-> y ∈ l /\ x <= y) /\ StronglySorted Z.lt (lower_bound_from x l).
Proof.
  induction 1 as [|z l Hs IH Hz]; cbn [lower_bound_from]; [split; [|constructor]; intros y; rewrite elem_of_nil; tauto|].
  rewrite Forall_forall in Hz. destruct (Z.ltb_spec z x) as [Hlt|Hge].
  - destruct IH as [IH1 IH2]. split; [|done]. intros y. rewrite IH1, elem_of_cons. split; [tauto|]. intros [[->|?] ?]; [lia|done].
  - split; [|constructor; [done|by apply Forall_forall]]. intros y. rewrite elem_of_cons. split; [|tauto].
    intros [->|Hy]; [split; [by left|lia]|]. split; [by right|]. apply Hz in Hy. lia.
Qed.

Lemma subset_loop_spec actors whitelist :
  StronglySorted Z.lt actors -> StronglySorted Z.lt whitelist -> subset_loop actors whitelist = true <-> (forall x, x ∈ actors -> x ∈ whitelist).
Proof.
  intros Ha. revert whitelist. induction Ha as [|x actors Ha IH Hx]; intros w Hw; cbn [subset_loop].
  - split; [intros _ x Hx; by apply elem_of_nil in Hx|done].
  - destruct (lower_bound_spec x w Hw) as [Hin Hs]. rewrite Forall_forall in Hx. destruct (lower_bound_from x w) as [|y rest] eqn:E.
    + split; [done|]. intros Hall. assert (x ∈ @nil Z) as H%elem_of_nil; [|done]. apply Hin. split; [apply Hall; by left|lia].
    + apply StronglySorted_inv in Hs as [Hs Hy]. rewrite Forall_forall in Hy. destruct (Z.eqb_spec y x) as [->|Hne].
      * rewrite (IH rest Hs). split; intros Hall z Hz.
        -- apply elem_of_cons in Hz as [->|Hz]; [|apply Hin; right; by apply Hall]. apply Hin. by left.
        -- assert (z ∈ x :: rest) as [->|?]%elem_of_cons; [|apply Hx in Hz; lia|done]. apply Hin. split; [apply Hall; by right|]. apply Hx in Hz. lia.
      * split; [done|]. intros Hall. assert (x ∈ y :: rest) as [->|Hr]%elem_of_cons by (apply Hin; split; [apply Hall; by left|lia]); [done|].
        assert (y ∈ w /\ x <= y) as [_ ?] by (apply Hin; by left). apply Hy in Hr. lia.
Qed.

Lemma intersects_loop_spec actors blacklist :
  StronglySorted Z.lt actors -> StronglySorted Z.lt blacklist -> intersects_loop actors blacklist = true <-> (exists x, x ∈ actors /\ x ∈ blacklist).
Proof.
  intros Ha. revert blacklist. induction Ha as [|x actors Ha IH Hx]; intros b Hb; cbn [intersects_loop].
  - split; [done|]. intros (x & Hx%elem_of_nil & _). done.
  - destruct (lower_bound_spec x b Hb) as [Hin Hs]. rewrite Forall_forall in Hx. destruct (lower_bound_from x b) as [|y rest] eqn:E.
    + split; [done|]. intros (z & Hz & Hzb). assert (z ∈ @nil Z) as H%elem_of_nil; [|done]. apply Hin. split; [done|].
      apply elem_of_cons in Hz as [->|Hz]; [lia|]. apply Hx in Hz. lia.
    + destruct (Z.eqb_spec y x) as [->|Hne].
      * split; [|done]. intros _. exists x. split; [by left|]. apply Hin. by left.
      * rewrite (IH (y :: rest) Hs). split; intros (z & Hz & Hzb).
        -- exists z. split; [by right|]. by apply Hin in Hzb as [? _].
        -- exists z. apply elem_of_cons in Hz as [->|Hz].
           ++ assert (x ∈ y :: rest) as Hr by (apply Hin; split; [done|lia]). apply elem_of_cons in Hr as [->|Hr]; [done|].
              apply StronglySorted_inv in Hs as [_ Hy]. rewrite Forall_forall in Hy. apply Hy in Hr.
              assert (y ∈ b /\ x <= y) as [_ ?] by (apply Hin; by left). lia.
           ++ split; [done|]. apply Hin. split; [done|]. apply Hx in Hz. lia.
Qed.

(** The ends of a set. *)
Lemma set_ends (l : list Z) x : StronglySorted Z.lt l -> x ∈ l -> first_of_set l <= x <= last_of_set l.
Proof.
  unfold first_of_set, last_of_set. intros Hs Hx. split.
  - destruct Hs as [|y l Hs Hy]; [by apply elem_of_nil in Hx|]. cbn. rewrite Forall_forall in Hy. apply elem_of_cons in Hx as [->|Hx]; [lia|].
    apply Hy in Hx. lia.
  - revert x Hx. induction Hs as [|y l Hs IH Hy]; intros x Hx; [by apply elem_of_nil in Hx|]. rewrite Forall_forall in Hy. destruct l as [|z l].
    + apply list_elem_of_singleton in Hx as ->. cbn. lia.
    + change (last (y :: z :: l)) with (last (z :: l)). apply elem_of_cons in Hx as [->|Hx]; [|by apply IH].
      specialize (IH z ltac:(by left)). assert (y < z) by (apply Hy; by left). lia.
Qed.
Lemma first_elem (l : list Z) : l <> [] -> first_of_set l ∈ l.
Proof. destruct l; [done|]. intros _. by left. Qed.
Lemma last_elem (l : list Z) : l <> [] -> last_of_set l ∈ l.
Proof.
  intros Hl. unfold last_of_set. destruct (last l) as [x|] eqn:E; [by apply last_Some_elem_of in E|]. by apply last_None in E.
Qed.

(** C39. The check of the actors of an inline action against the lists of the node
    decides inclusion and disjointness: with extents compared first and then one
    pass over both sorted sets, it passes exactly when all actors are on the
    whitelist, or, where there is none, no actor is on the blacklist. *)
Theorem check_actor_list_exact (conf : access_lists) (actors : list Z) :
  StronglySorted Z.lt actors -> StronglySorted Z.lt (actor_whitelist conf) -> StronglySorted Z.lt (actor_blacklist conf) ->
  check_actor_list conf actors = Ok tt <->
  (if bool_decide (actor_whitelist conf = []) then forall x, x ∈ actors -> x ∉ actor_blacklist conf
   else forall x, x ∈ actors -> x ∈ actor_whitelist conf).
Proof.
  intros Ha Hw Hb. unfold check_actor_list, vsize. destruct actors as [|a0 actors0] eqn:Ea.
  { cbn. split; [|done]. intros _. case_bool_decide; intros x Hx; by apply elem_of_nil in Hx. }
  rewrite <- Ea in *. assert (actors <> []) as Hne by by rewrite Ea. replace (Z.of_nat (length actors) =? 0) with false by (rewrite Ea; cbn; lia).
  destruct (actor_whitelist conf) as [|w0 ws] eqn:Ew; cbn [length].
  - rewrite bool_decide_eq_true_2 by done. change (0 <? Z.of_nat 0) with false. cbv iota. destruct (actor_blacklist conf) as [|b0 bs] eqn:Eb.
    + split; [|done]. intros _ x _. apply not_elem_of_nil.
    + replace (0 <? Z.of_nat (length (b0 :: bs))) with true by (cbn [length]; lia). rewrite <- Eb in *. rewrite EOS_ASSERT_Ok, negb_true_iff, <- not_true_iff_false.
      rewrite !andb_true_iff, (intersects_loop_spec _ _ Ha Hb), !Z.leb_le. split.
      * intros Hn x Hx Hxb. apply Hn. pose proof (set_ends _ _ Ha Hx). pose proof (set_ends _ _ Hb Hxb). split; [lia|by exists x].
      * intros Hall (_ & x & Hx & Hxb). by apply (Hall x).
  - rewrite <- Ew in *. rewrite bool_decide_eq_false_2 by by rewrite Ew. replace (0 <? Z.of_nat (S (length ws))) with true by lia.
    rewrite EOS_ASSERT_Ok, !andb_true_iff, (subset_loop_spec _ _ Ha Hw), !Z.leb_le. split; [by intros [_ ?]|]. intros Hall. split; [|done].
    pose proof (set_ends _ _ Hw (Hall _ (first_elem _ Hne))). pose proof (set_ends _ _ Hw (Hall _ (last_elem _ Hne))). lia.
Qed.

Lemma check_actor_list_exact_witness :
  check_actor_list (AccessLists [2; 4; 7] [] ∅ ∅ ∅) [2; 7] = Ok tt /\
  check_actor_list (AccessLists [] [3; 8] ∅ ∅ ∅) [2; 8] <> Ok tt.
Proof.
  split.
  - apply (check_actor_list_exact (AccessLists [2; 4; 7] [] ∅ ∅ ∅) [2; 7]); [repeat constructor..|]. cbn. set_solver.
  - rewrite (check_actor_list_exact (AccessLists [] [3; 8] ∅ ∅ ∅) [2; 8]) by repeat constructor. cbn. intros H. apply (H 8); set_solver.
Defined.
