(* ===== verification/ActionTraces.v ===== *)
(** The traces of the actions of a transaction while they run: where each comes
    from, what one action with the accounts it notifies adds, and the receipts. *)
From Stdlib Require Import ZArith Lia ZifyBool Sorted.
From stdpp Require Import base tactics numbers list gmap fin_maps fin_map_dom sets.
From S2P Require Import Prelude Digest Raw CoreAsset ResourceLimits Authority PermissionActions ContractTables Authorization ActionExecution ActionRuns.
#[local] Open Scope Z_scope.

(** ** Traces and their ordinals *)

Definition trace_at (l : list action_trace) (o : Z) (t : action_trace) : Prop := 0 < o /\ l !! Z.to_nat (o - 1) = Some t.

(** All but what a receipt adds. *)
Definition same_trace (t t' : action_trace) : Prop :=
  at_action_ordinal t' = at_action_ordinal t /\ at_creator_action_ordinal t' = at_creator_action_ordinal t /\
  at_closest_unnotified_ancestor_action_ordinal t' = at_closest_unnotified_ancestor_action_ordinal t /\
  at_receiver t' = at_receiver t /\ at_act t' = at_act t /\ at_context_free t' = at_context_free t.

Definition extended (l l' : list action_trace) : Prop := forall o t, trace_at l o t -> exists t', trace_at l' o t' /\ same_trace t t'.

Abbreviation closest := at_closest_unnotified_ancestor_action_ordinal.
Abbreviation creator := at_creator_action_ordinal.

Lemma trace_at_inj l o t t' : trace_at l o t -> trace_at l o t' -> t = t'.
Proof. intros [_ E] [_ E']. congruence. Qed.
Lemma trace_at_bound l o t : trace_at l o t -> 0 < o <= vsize l.
Proof. intros [Ho E%lookup_lt_Some]. unfold vsize. lia. Qed.
Lemma trace_at_exists l o : 0 < o <= vsize l -> exists t, trace_at l o t.
Proof.
  intros Ho. unfold vsize in Ho. destruct (lookup_lt_is_Some_2 l (Z.to_nat (o - 1))) as [t E]; [lia|]. exists t. split; [lia|done].
Qed.
Lemma trace_at_app l k o t : trace_at l o t -> trace_at (l ++ k) o t.
Proof. intros [Ho E]. split; [done|by apply lookup_app_l_Some]. Qed.
Lemma trace_at_snoc l x o t : trace_at (l ++ [x]) o t <-> trace_at l o t \/ (o = vsize l + 1 /\ t = x).
Proof.
  unfold trace_at, vsize. rewrite lookup_app_Some, list_lookup_singleton_Some. split.
  - intros [Ho [E|(Hl & E & <-)]]; [by left|right]. split; [lia|done].
  - intros [[Ho E]|[-> ->]]; [auto|]. split; [lia|]. right. split; [lia|]. split; [lia|done].
Qed.
Lemma trace_at_get l o t : get_action_trace l o = Ok t <-> trace_at l o t.
Proof.
  unfold get_action_trace. split.
  - intros E. apply bind_Ok in E as (u & Hb%EOS_ASSERT_Ok & E). apply at_index_Ok in E as [? ?]. split; [lia|done].
  - intros Ht. pose proof (trace_at_bound _ _ _ Ht). destruct Ht as [Ho E]. step_assert by lia.
    apply at_index_Ok. split; [lia|done].
Qed.

Lemma same_trace_refl t : same_trace t t.
Proof. done. Qed.
Lemma extends_refl l : extended l l.
Proof. intros o t Ht. by exists t. Qed.
Lemma extends_trans l1 l2 l3 : extended l1 l2 -> extended l2 l3 -> extended l1 l3.
Proof.
  intros H1 H2 o t (t' & Ht' & Hs)%H1. apply H2 in Ht' as (t'' & Ht'' & Hs'). exists t''. split; [done|].
  unfold same_trace in *. destruct Hs as (?&?&?&?&?&?), Hs' as (?&?&?&?&?&?). split_and!; congruence.
Qed.
Lemma extends_app l k : extended l (l ++ k).
Proof. intros o t Ht. exists t. split; [by apply trace_at_app|done]. Qed.
Lemma extends_len l l' : extended l l' -> vsize l <= vsize l'.
Proof.
  intros He. destruct (decide (vsize l = 0)); [unfold vsize in *; lia|].
  destruct (trace_at_exists l (vsize l)) as [t Ht]; [unfold vsize in *; lia|].
  apply He in Ht as (t' & Ht' & _). apply trace_at_bound in Ht'. lia.
Qed.
(** A longer list has the traces of a shorter one. *)
Lemma extends_back l l' o t' : extended l l' -> trace_at l' o t' -> o <= vsize l -> exists t, trace_at l o t /\ same_trace t t'.
Proof.
  intros He Ht Ho. pose proof (trace_at_bound _ _ _ Ht). destruct (trace_at_exists l o) as [t Ht0]; [lia|].
  pose proof Ht0 as (t2 & Ht2 & Hs)%He. exists t. by rewrite (trace_at_inj _ _ _ _ Ht Ht2).
Qed.

(** ** Well-formed traces *)

Definition is_notification (t : action_trace) : bool := negb (at_receiver t =? act_account (at_act t)).

(** Where a trace comes from: an action of the transaction, or one that the
    creator's code asked for. *)
Definition origin (l : list action_trace) (o : Z) (t : action_trace) : Prop :=
  (creator t = 0 /\ closest t = 0 /\ is_notification t = false) \/
  exists c, trace_at l (creator t) c /\ creator t < o /\
    closest t = (if is_notification c then closest c else creator t) /\
    (is_notification t = true -> at_act t = at_act c /\ at_context_free t = false).

Record traces_ok (l : list action_trace) : Prop := {
  tk_ordinal : forall o t, trace_at l o t -> at_action_ordinal t = o;
  tk_origin : forall o t, trace_at l o t -> origin l o t;
  tk_once : forall o o' t t', trace_at l o t -> trace_at l o' t' -> is_notification t = true -> is_notification t' = true ->
    closest t = closest t' -> at_receiver t = at_receiver t' -> o = o'
}.

Lemma same_notification t t' : same_trace t t' -> is_notification t' = is_notification t.
Proof. intros (_ & _ & _ & Er & Ea & _). unfold is_notification. by rewrite Er, Ea. Qed.

Lemma origin_same l l' o t t' : extended l l' -> same_trace t t' -> origin l o t -> origin l' o t'.
Proof.
  intros He Hs Ho. pose proof (same_notification _ _ Hs) as En. destruct Hs as (_ & Ec & Ecl & _ & Ea & Ecf). unfold origin in *.
  rewrite Ec, Ecl, En, Ea, Ecf. destruct Ho as [Ho|(c & Hc & Hlt & Hcl & Hn)]; [by left|right].
  apply He in Hc as (c' & Hc' & Hsc). exists c'. rewrite (same_notification _ _ Hsc). destruct Hsc as (_ & _ & -> & _ & -> & _). done.
Qed.

(** Traces that only got receipts. *)
Lemma traces_ok_same l l' : extended l l' -> vsize l' = vsize l -> traces_ok l -> traces_ok l'.
Proof.
  intros He Hl [H1 H2 H3]. constructor.
  - intros o t' Ht. destruct (extends_back l l' o t' He Ht) as (t & Ht0 & Hs); [apply trace_at_bound in Ht; lia|]. destruct Hs as (-> & _). eauto.
  - intros o t' Ht. destruct (extends_back l l' o t' He Ht) as (t & Ht0 & Hs); [apply trace_at_bound in Ht; lia|].
    eapply origin_same; [done..|eauto].
  - intros o o2 t t2 Ht Ht2 Hn Hn2. destruct (extends_back l l' o t He Ht) as (x & Hx & Hs); [apply trace_at_bound in Ht; lia|].
    destruct (extends_back l l' o2 t2 He Ht2) as (y & Hy & Hs'); [apply trace_at_bound in Ht2; lia|].
    rewrite (same_notification _ _ Hs) in Hn. rewrite (same_notification _ _ Hs') in Hn2.
    destruct Hs as (_ & _ & -> & -> & _), Hs' as (_ & _ & -> & -> & _). eauto.
Qed.

Lemma traces_ok_snoc l t :
  traces_ok l -> at_action_ordinal t = vsize l + 1 -> origin l (vsize l + 1) t ->
  (forall o t', trace_at l o t' -> is_notification t = true -> is_notification t' = true -> closest t' = closest t ->
     at_receiver t' <> at_receiver t) -> traces_ok (l ++ [t]).
Proof.
  intros [H1 H2 H3] Eo Hor Hnew. constructor.
  - intros o t' [Ht|[-> ->]]%trace_at_snoc; [eauto|done].
  - intros o t' [Ht|[-> ->]]%trace_at_snoc; (eapply origin_same; [apply extends_app|apply same_trace_refl|eauto]).
  - intros o o' x x' [Hx|[-> ->]]%trace_at_snoc [Hx'|[-> ->]]%trace_at_snoc; intros; try done; [eauto| |]; exfalso; eapply Hnew; eauto.
Qed.

(** ** One action with the accounts it notifies *)

Abbreviation first_ordinal := ac_first_receiver_action_ordinal.

(** Ordinals that were given out from [n] on. *)
Definition fresh (n : nat) (l : list action_trace) : list Z := Z.of_nat <$> seq (S n) (length l - n).

Lemma fresh_elem n l o : (n <= length l)%nat -> o ∈ fresh n l <-> Z.of_nat n < o <= vsize l.
Proof.
  intros Hn. unfold fresh, vsize. rewrite list_elem_of_fmap. setoid_rewrite elem_of_seq. split.
  - intros (k & -> & ?). lia.
  - intros Ho. exists (Z.to_nat o). lia.
Qed.
Lemma fresh_snoc n l t : (n <= length l)%nat -> fresh n (l ++ [t]) = fresh n l ++ [vsize l + 1].
Proof.
  intros Hn. unfold fresh. rewrite length_app. cbn [length]. replace (length l + 1 - n)%nat with (S (length l - n)) by lia.
  rewrite seq_S, fmap_app. cbn. f_equal. f_equal. unfold vsize. lia.
Qed.
Lemma fresh_split n (l l' : list action_trace) : (n <= length l <= length l')%nat -> fresh n l' = fresh n l ++ fresh (length l) l'.
Proof.
  intros Hn. unfold fresh. rewrite <- fmap_app. f_equal. rewrite <- (Nat.sub_add (length l - n) (length l' - n)) by lia.
  rewrite Nat.add_comm, seq_app. f_equal; f_equal; lia.
Qed.
Lemma fresh_NoDup n l : NoDup (fresh n l).
Proof. unfold fresh. apply NoDup_fmap_2; [intros x y; lia|apply NoDup_seq]. Qed.

(** The receiver with number [i] of an action runs that began with [n] traces. *)
Record group (n i : nat) (c : apply_context) (l : list action_trace) : Prop := {
  g_run : ac_notified c !! i = Some (ac_receiver c, ac_action_ordinal c);
  g_head : ac_notified c !! 0%nat = Some (act_account (ac_act c), first_ordinal c);
  g_nodup : NoDup (ac_notified c).*1;
  g_first : 0 < first_ordinal c <= Z.of_nat n;
  g_len : (n <= length l)%nat;
  g_perm : (ac_notified c).*2 ++ ac_cfa_inline_actions c ++ ac_inline_actions c ≡ₚ first_ordinal c :: fresh n l;
  g_sorted : StronglySorted Z.lt (ac_notified c).*2 /\ StronglySorted Z.lt (ac_cfa_inline_actions c) /\
    StronglySorted Z.lt (ac_inline_actions c);
  g_notified : forall r o, (r, o) ∈ ac_notified c ->
    exists t, trace_at l o t /\ at_receiver t = r /\ at_act t = ac_act c /\ (o = first_ordinal c \/ closest t = first_ordinal c);
  g_cfa : forall o, o ∈ ac_cfa_inline_actions c ->
    exists t, trace_at l o t /\ is_notification t = false /\ closest t = first_ordinal c /\ at_context_free t = true;
  g_inline : forall o, o ∈ ac_inline_actions c ->
    exists t, trace_at l o t /\ is_notification t = false /\ closest t = first_ordinal c /\ at_context_free t = false;
  g_old : forall o t, trace_at l o t -> o <= Z.of_nat n -> closest t <> first_ordinal c
}.

Lemma ordinals_snoc (l : list Z) x : StronglySorted Z.lt l -> (forall y, y ∈ l -> y < x) -> StronglySorted Z.lt (l ++ [x]).
Proof.
  induction 1 as [|y l Hs IH Hf]; intros Hx; cbn; [repeat constructor|]. constructor.
  - apply IH. intros z Hz. apply Hx. by right.
  - apply Forall_app. split; [done|]. constructor; [|constructor]. apply Hx. by left.
Qed.

Section Group.
Variable (n i : nat) (c : apply_context) (l : list action_trace).
Hypothesis Hg : group n i c l.

(** All its ordinals are in range. *)
Lemma group_bound o :
  o ∈ (ac_notified c).*2 \/ o ∈ ac_cfa_inline_actions c \/ o ∈ ac_inline_actions c <-> o = first_ordinal c \/ Z.of_nat n < o <= vsize l.
Proof.
  pose proof (g_perm _ _ _ _ Hg) as Hp. pose proof (g_len _ _ _ _ Hg). rewrite <- (fresh_elem n l o) by done.
  rewrite <- elem_of_cons, <- Hp, !elem_of_app. done.
Qed.
Lemma group_below o : o ∈ (ac_notified c).*2 \/ o ∈ ac_cfa_inline_actions c \/ o ∈ ac_inline_actions c -> o <= vsize l.
Proof. intros Ho%group_bound. pose proof (g_first _ _ _ _ Hg). pose proof (g_len _ _ _ _ Hg). unfold vsize in *. lia. Qed.

(** Only the first is the account of the action. *)
Lemma group_account r o : (r, o) ∈ ac_notified c -> r = act_account (ac_act c) <-> o = first_ordinal c.
Proof.
  intros Hin. pose proof (g_head _ _ _ _ Hg) as Hh. apply list_elem_of_lookup_2 in Hh. split.
  - intros ->. pose proof (fmap_NoDup_inj fst (ac_notified c) _ _ (g_nodup _ _ _ _ Hg) Hin Hh eq_refl) as [= ?]. done.
  - intros ->. apply (g_notified _ _ _ _ Hg) in Hin as (t & Ht & <- & _), Hh as (t' & Ht' & <- & _). by rewrite (trace_at_inj _ _ _ _ Ht Ht').
Qed.

(** The trace that is running, and the ancestor that others get from it. *)
Lemma group_running : exists t, trace_at l (ac_action_ordinal c) t /\ at_receiver t = ac_receiver c /\ at_act t = ac_act c /\
  first_ordinal c = (if is_notification t then closest t else ac_action_ordinal c).
Proof.
  pose proof (g_run _ _ _ _ Hg) as Hr. apply list_elem_of_lookup_2 in Hr. pose proof (group_account _ _ Hr) as Ha.
  apply (g_notified _ _ _ _ Hg) in Hr as (t & Ht & Er & Ea & Ho). exists t. split_and!; try done. unfold is_notification. rewrite Er, Ea.
  destruct (Z.eqb_spec (ac_receiver c) (act_account (ac_act c))) as [E|E]; cbn [negb]; [symmetry; tauto|].
  destruct Ho as [Ho|Ho]; [tauto|done].
Qed.

(** Every notification of this action is in the list. *)
Lemma group_complete o t : trace_at l o t -> is_notification t = true -> closest t = first_ordinal c -> at_receiver t ∈ (ac_notified c).*1.
Proof.
  intros Ht Hn Hc. destruct (decide (o <= Z.of_nat n)) as [Hle|Hgt]; [by pose proof (g_old _ _ _ _ Hg o t Ht Hle)|].
  pose proof (trace_at_bound _ _ _ Ht). destruct (proj2 (group_bound o)) as [Ho|[Ho|Ho]]; [right; lia|..].
  - apply list_elem_of_fmap in Ho as ([r o'] & -> & Hin). pose proof Hin as (t' & Ht' & Er & _)%(g_notified _ _ _ _ Hg).
    cbn in Ht. rewrite (trace_at_inj _ _ _ _ Ht Ht'), Er. apply list_elem_of_fmap. by exists (r, o').
  - apply (g_cfa _ _ _ _ Hg) in Ho as (t' & Ht' & Hn' & _). rewrite (trace_at_inj _ _ _ _ Ht Ht') in Hn. congruence.
  - apply (g_inline _ _ _ _ Hg) in Ho as (t' & Ht' & Hn' & _). rewrite (trace_at_inj _ _ _ _ Ht Ht') in Hn. congruence.
Qed.
End Group.

Lemma group_extends n i c l l' : extended l l' -> vsize l' = vsize l -> group n i c l -> group n i c l'.
Proof.
  intros He Hl [H1 H2 H3 H4 H5 H6 H7 H8 H9 H10 H11].
  assert (length l' = length l) as Hlen by (unfold vsize in Hl; lia).
  constructor; try done; [lia|by unfold fresh in *; rewrite Hlen|..].
  - intros r o Hin. apply H8 in Hin as (t & Ht & ? & ? & Ho). apply He in Ht as (t' & Ht' & Hs). exists t'. destruct Hs as (_ & _ & -> & -> & -> & _). done.
  - intros o (t & Ht & ? & ? & ?)%H9. apply He in Ht as (t' & Ht' & Hs). exists t'. rewrite (same_notification _ _ Hs).
    destruct Hs as (_ & _ & -> & _ & _ & ->). done.
  - intros o (t & Ht & ? & ? & ?)%H10. apply He in Ht as (t' & Ht' & Hs). exists t'. rewrite (same_notification _ _ Hs).
    destruct Hs as (_ & _ & -> & _ & _ & ->). done.
  - intros o t' Ht Ho. destruct (extends_back l l' o t' He Ht) as (t & Ht0 & (_ & _ & -> & _)); [apply trace_at_bound in Ht; lia|]. eauto.
Qed.

(** The parts of a group that a context with more requests has from before. *)
Lemma group_old_parts n i c l x :
  group n i c l -> closest x = first_ordinal c ->
  (forall r o, (r, o) ∈ ac_notified c -> exists t, trace_at (l ++ [x]) o t /\ at_receiver t = r /\ at_act t = ac_act c /\
     (o = first_ordinal c \/ closest t = first_ordinal c)) /\
  (forall o, o ∈ ac_cfa_inline_actions c ->
     exists t, trace_at (l ++ [x]) o t /\ is_notification t = false /\ closest t = first_ordinal c /\ at_context_free t = true) /\
  (forall o, o ∈ ac_inline_actions c ->
     exists t, trace_at (l ++ [x]) o t /\ is_notification t = false /\ closest t = first_ordinal c /\ at_context_free t = false) /\
  (forall o t, trace_at (l ++ [x]) o t -> o <= Z.of_nat n -> closest t <> first_ordinal c).
Proof.
  intros Hg Hx. split_and!.
  - intros r o (t & Ht & ?)%(g_notified _ _ _ _ Hg). exists t. split; [by apply trace_at_app|done].
  - intros o (t & Ht & ?)%(g_cfa _ _ _ _ Hg). exists t. split; [by apply trace_at_app|done].
  - intros o (t & Ht & ?)%(g_inline _ _ _ _ Hg). exists t. split; [by apply trace_at_app|done].
  - intros o t [Ht|[-> ->]]%trace_at_snoc; [by apply (g_old _ _ _ _ Hg)|]. pose proof (g_len _ _ _ _ Hg). unfold vsize. lia.
Qed.

Lemma schedules_group n i c l t c' :
  group n i c l -> traces_ok l -> vsize l + 1 < 2 ^ 32 -> schedules c l t c' -> group n i c' (l ++ [t]) /\ traces_ok (l ++ [t]).
Proof.
  intros Hg Hl Hb Hs. pose proof Hg as [H1 H2 H3 H4 H5 H6 [S1 [S2 S3]] _ _ _ _].
  destruct (group_running _ _ _ _ Hg) as (tr & Htr & Er & Ea & Efirst).
  assert (0 <= vsize l) by (unfold vsize; lia). assert (u32 (vsize l + 1) = vsize l + 1) as Eo by (apply u32_small; lia).
  assert (forall y, y ∈ (ac_notified c).*2 \/ y ∈ ac_cfa_inline_actions c \/ y ∈ ac_inline_actions c -> y < vsize l + 1) as Hlt.
  { intros y Hy%(group_below _ _ _ _ Hg). lia. }
  assert (trace_at (l ++ [t]) (vsize l + 1) t) as Htn by (apply trace_at_snoc; by right).
  pose proof (trace_at_bound _ _ _ Htr) as Hbt.
  assert (at_action_ordinal t = vsize l + 1 /\ creator t = ac_action_ordinal c /\ closest t = first_ordinal c) as (Et1 & Et2 & Et3).
  { by destruct Hs; cbn. }
  destruct (group_old_parts n i c l t Hg Et3) as (G1 & G2 & G3 & G4). split.
  - destruct Hs as [t0 r Ht0 Hr|a|a]; constructor; cbn [with_notified with_inline ac_notified ac_receiver ac_action_ordinal ac_act
      ac_first_receiver_action_ordinal ac_cfa_inline_actions ac_inline_actions]; try done; try (rewrite length_app; lia).
    + by apply lookup_app_l_Some.
    + by apply lookup_app_l_Some.
    + rewrite fmap_app. apply NoDup_app. split_and!; [done| |apply NoDup_singleton]. by intros x Hx ->%list_elem_of_singleton.
    + rewrite fresh_snoc, fmap_app, app_comm_cons, <- H6, Eo by done. cbn. solve_Permutation.
    + rewrite fmap_app. split_and!; try done. cbn. rewrite Eo. apply ordinals_snoc; [done|]. intros; apply Hlt; by left.
    + intros r' o' [Hin|[= -> ->]%list_elem_of_singleton]%elem_of_app; [by apply G1|]. rewrite Eo in Htn |- *. eexists. split; [exact Htn|].
      apply trace_at_get in Ht0. rewrite (trace_at_inj _ _ _ _ Ht0 Htr). cbn. auto.
    + rewrite fresh_snoc, app_comm_cons, <- H6, Eo by done. solve_Permutation.
    + split_and!; try done. rewrite Eo. apply ordinals_snoc; [done|]. intros; apply Hlt; tauto.
    + intros o' [Hin| ->%list_elem_of_singleton]%elem_of_app; [by apply G3|]. rewrite Eo in Htn |- *. eexists. split; [exact Htn|].
      unfold is_notification. cbn. by rewrite Z.eqb_refl.
    + rewrite fresh_snoc, app_comm_cons, <- H6, Eo by done. solve_Permutation.
    + split_and!; try done. rewrite Eo. apply ordinals_snoc; [done|]. intros; apply Hlt; tauto.
    + intros o' [Hin| ->%list_elem_of_singleton]%elem_of_app; [by apply G2|]. rewrite Eo in Htn |- *. eexists. split; [exact Htn|].
      unfold is_notification. cbn. by rewrite Z.eqb_refl.
  - apply traces_ok_snoc; [done|done| |].
    + right. exists tr. rewrite Et2, Et3. split_and!; [done|lia|done|]. destruct Hs as [t0 r Ht0 Hr|a|a]; cbn.
      * intros _. apply trace_at_get in Ht0. by rewrite (trace_at_inj _ _ _ _ Ht0 Htr).
      * unfold is_notification. cbn. by rewrite Z.eqb_refl.
      * unfold is_notification. cbn. by rewrite Z.eqb_refl.
    + rewrite Et3. intros o t' Ht' Hn Hn' Hc Hr'. destruct Hs as [t0 r Ht0 Hr|a|a]; cbn in Hr';
        [|unfold is_notification in Hn; cbn in Hn; by rewrite Z.eqb_refl in Hn..].
      apply Hr. rewrite <- Hr'. by eapply group_complete.
Qed.

Lemma apply_requests_group {K W} `{EqDecision K} `{Packable K} checktime cfg n i rq c (st : trx_state K W) c' st' :
  apply_requests checktime cfg rq c st = Ok (c', st') -> group n i c (ts_action_traces st) -> traces_ok (ts_action_traces st) ->
  vsize (ts_action_traces st') < 2 ^ 32 ->
  group n i c' (ts_action_traces st') /\ traces_ok (ts_action_traces st') /\
  exists k, ts_action_traces st' = ts_action_traces st ++ k /\ Forall (fun t => at_receipt t = None) k.
Proof.
  revert c st. induction rq as [|r rq IH]; intros c st E Hg Hl Hb; cbn [apply_requests] in E.
  - apply Ok_inj in E. injection E as <- <-. split_and!; try done. exists []. by rewrite app_nil_r.
  - apply bind_Ok in E as ([c1 st1] & E1 & E). apply apply_request_schedules in E1 as [[-> ->]|(t & Hs & ->)]; [by apply (IH c st)|].
    assert (vsize (ts_action_traces st) + 1 < 2 ^ 32) as Hb1.
    { apply apply_requests_asked in E as [_ _ _ [k Ek] _ _]. rewrite Ek in Hb. cbn in Hb. unfold vsize in *. rewrite !length_app in Hb. cbn in Hb. lia. }
    destruct (schedules_group _ _ _ _ _ _ Hg Hl Hb1 Hs) as [Hg1 Hl1]. destruct (IH _ _ E Hg1 Hl1 Hb) as (Hg' & Hl' & k & Ek & Hk).
    split_and!; [done|done|]. exists (t :: k). rewrite Ek. cbn. rewrite <- app_assoc. split; [done|]. constructor; [|done]. by destruct Hs.
Qed.

(** ** Receipts *)

Definition receivers_of (l : list action_trace) (L : list Z) : list Z :=
  (fun o => default 0 (at_receiver <$> l !! Z.to_nat (o - 1))) <$> L.
Definition actors_of (l : list action_trace) (L : list Z) : list Z :=
  L ≫= (fun o => default [] ((fun t => actor <$> act_authorization (at_act t)) <$> l !! Z.to_nat (o - 1))).

Lemma receivers_app l L L' : receivers_of l (L ++ L') = receivers_of l L ++ receivers_of l L'.
Proof. apply fmap_app. Qed.
Lemma actors_app l L L' : actors_of l (L ++ L') = actors_of l L ++ actors_of l L'.
Proof. apply bind_app. Qed.

Lemma receivers_same l l' L :
  extended l l' -> (forall o, o ∈ L -> exists t, trace_at l o t) -> receivers_of l' L = receivers_of l L /\ actors_of l' L = actors_of l L.
Proof.
  intros He Hin. split.
  - apply list_fmap_ext. intros k o Ho%list_elem_of_lookup_2. apply Hin in Ho as (t & Ht). pose proof Ht as (t' & [_ E'] & Hs)%He.
    destruct Ht as [_ E]. rewrite E, E'. cbn. apply Hs.
  - unfold actors_of. induction L as [|o L IH]; [done|]. cbn. f_equal; [|apply IH; intros; apply Hin; by right].
    destruct (Hin o) as (t & Ht); [by left|]. pose proof Ht as (t' & [_ E'] & Hs)%He. destruct Ht as [_ E]. rewrite E, E'. cbn.
    destruct Hs as (_ & _ & _ & _ & -> & _). done.
Qed.

Section Order.
Context {K W : Type} `{EqDecision K} `{Packable K}.
Variable sha : list Z -> sha256.
Variable checktime : nat -> result unit.
Variable cfg : exec_config.
Variable max_inline_action_depth : W -> Z.
Variable find_apply_handler : Z -> Z -> Z -> option (apply_context -> world K W -> result (world K W * gmap Z Z)).
Variable wasm_apply : sha256 -> apply_context -> list action_trace -> gmap Z Z -> world K W -> result (code_output W).
Hypothesis native_receiver : forall receiver account name h, find_apply_handler receiver account name = Some h -> receiver = account.
Hypothesis native_accounts : forall receiver account name h c w w' d,
  find_apply_handler receiver account name = Some h -> h c w = Ok (w', d) -> keeps_accounts w w'.

Abbreviation state_t := (trx_state K W).
Abbreviation traces := ts_action_traces.
Abbreviation global st := (w_global_action_sequence (ts_world st)).

(** The actions with the ordinals [L] ran, in this order, and got their receipts;
    in a read-only transaction sequence numbers are zero, but for authorizations. *)
Record ran (st st' : state_t) (L : list Z) : Prop := {
  rn_extends : extended (traces st) (traces st');
  rn_kept : forall o t, trace_at (traces st) o t -> o ∉ L -> trace_at (traces st') o t;
  rn_fresh : forall o t, trace_at (traces st') o t -> vsize (traces st) < o -> o ∉ L -> at_receipt t = None;
  rn_done : forall k o, L !! k = Some o ->
    exists t r, trace_at (traces st') o t /\ at_receipt t = Some r /\ ar_receiver r = at_receiver t /\
      numbers_of (ar_auth_sequence r) (actor <$> act_authorization (at_act t))
        (fun a => u64 (auth_of (ts_world st) a + times a (actors_of (traces st') (take (S k) L)))) /\
      if xc_is_read_only cfg then ar_global_sequence r = 0 /\ ar_recv_sequence r = 0
      else
        ar_global_sequence r = u64 (global st + Z.of_nat (S k)) /\
        ar_recv_sequence r =
          u64 (recv_of (ts_world st) (at_receiver t) + times (at_receiver t) (receivers_of (traces st') (take (S k) L)));
  rn_global : xc_is_read_only cfg = false -> u64 (global st') = u64 (global st + vsize L);
  rn_recv : xc_is_read_only cfg = false ->
    forall a, u64 (recv_of (ts_world st') a) = u64 (recv_of (ts_world st) a + times a (receivers_of (traces st') L));
  rn_auth : forall a, u64 (auth_of (ts_world st') a) = u64 (auth_of (ts_world st) a + times a (actors_of (traces st') L));
  rn_read_only : xc_is_read_only cfg = true -> global st' = global st /\ forall a, recv_of (ts_world st') a = recv_of (ts_world st) a
}.

Lemma ran_refl st : ran st st [].
Proof.
  constructor; try done.
  - apply extends_refl.
  - intros o t Ht%trace_at_bound. lia.
  - intros _. unfold vsize. cbn. by rewrite Z.add_0_r.
  - intros _ a. cbn. by rewrite Z.add_0_r.
  - intros a. cbn. by rewrite Z.add_0_r.
Qed.

Lemma ran_done_trace st st' L o : ran st st' L -> o ∈ L -> exists t, trace_at (traces st') o t.
Proof. intros Hr [k Hk]%list_elem_of_lookup. destruct (rn_done _ _ _ Hr k o Hk) as (t & _ & Ht & _). by exists t. Qed.

Lemma u64_plus x y a b : u64 x = u64 y -> y + a = b -> u64 (x + a) = u64 b.
Proof. unfold u64. intros E <-. by rewrite Z.add_mod, E, <- Z.add_mod by lia. Qed.

Lemma ran_trans st1 st2 st3 L1 L2 :
  ran st1 st2 L1 -> ran st2 st3 L2 -> (forall o, o ∈ L1 -> o ∉ L2) -> ran st1 st3 (L1 ++ L2).
Proof.
  intros H1 H2 Hdis. pose proof (rn_extends _ _ _ H1) as E1. pose proof (rn_extends _ _ _ H2) as E2.
  pose proof (extends_len _ _ E1) as Hlen. destruct (receivers_same _ _ L1 E2) as [Rs As]; [intros o Ho; by eapply ran_done_trace|].
  assert (forall k, receivers_of (traces st3) (take k L1) = receivers_of (traces st2) (take k L1) /\
    actors_of (traces st3) (take k L1) = actors_of (traces st2) (take k L1)) as RAt.
  { intros k. apply receivers_same; [done|]. intros o Ho. eapply ran_done_trace; [exact H1|].
    by eapply (elem_of_sublist _ _ _ Ho), sublist_take. }
  constructor.
  - by eapply extends_trans.
  - intros o t Ht Ho. rewrite not_elem_of_app in Ho. destruct Ho. apply (rn_kept _ _ _ H2); [|done]. by apply (rn_kept _ _ _ H1).
  - intros o t Ht Hgt Ho. rewrite not_elem_of_app in Ho. destruct Ho as [Ho1 Ho2]. destruct (decide (vsize (traces st2) < o)) as [Hlt|Hge].
    + by apply (rn_fresh _ _ _ H2) in Ht.
    + destruct (extends_back _ _ _ _ E2 Ht) as (t' & Ht' & _); [lia|]. pose proof (rn_kept _ _ _ H2 _ _ Ht' Ho2) as Ht2.
      rewrite (trace_at_inj _ _ _ _ Ht Ht2). by eapply (rn_fresh _ _ _ H1).
  - intros k o Hk. apply lookup_app_Some in Hk as [Hk|[Hge Hk]].
    + destruct (rn_done _ _ _ H1 k o Hk) as (t & r & Ht & Hr & Hrc & Hau & Hs). exists t, r.
      apply lookup_lt_Some in Hk as Hlt. destruct (RAt (S k)) as [Rt At]. rewrite take_app_le, Rt, At by lia. split_and!; try done.
      apply (rn_kept _ _ _ H2); [done|]. apply Hdis. by eapply list_elem_of_lookup_2.
    + destruct (rn_done _ _ _ H2 _ o Hk) as (t & r & Ht & Hr & Hrc & Hau & Hs). exists t, r.
      rewrite take_app_ge, receivers_app, actors_app, Rs, As by lia.
      replace (S k - length L1)%nat with (S (k - length L1)) by lia. split_and!; try done.
      * eapply numbers_of_ext; [|exact Hau]. intros a _. cbn beta. apply (u64_plus _ _ _ _ (rn_auth _ _ _ H1 _)). rewrite times_app. lia.
      * destruct (xc_is_read_only cfg) eqn:Hro; [done|]. destruct Hs as [-> ->]. split.
        -- apply (u64_plus _ _ _ _ (rn_global _ _ _ H1 Hro)). unfold vsize. lia.
        -- apply (u64_plus _ _ _ _ (rn_recv _ _ _ H1 Hro _)). rewrite times_app. lia.
  - intros Hro. rewrite (rn_global _ _ _ H2 Hro). apply (u64_plus _ _ _ _ (rn_global _ _ _ H1 Hro)).
    unfold vsize. rewrite length_app. lia.
  - intros Hro a. rewrite (rn_recv _ _ _ H2 Hro). apply (u64_plus _ _ _ _ (rn_recv _ _ _ H1 Hro _)).
    rewrite receivers_app, times_app, Rs. lia.
  - intros a. rewrite (rn_auth _ _ _ H2). apply (u64_plus _ _ _ _ (rn_auth _ _ _ H1 _)). rewrite actors_app, times_app, As. lia.
  - intros Hro. destruct (rn_read_only _ _ _ H1 Hro) as [G1 R1], (rn_read_only _ _ _ H2 Hro) as [G2 R2].
    split; [congruence|]. intros a. by rewrite R2.
Qed.

Lemma group_context n i c c' l :
  same_run c c' -> ac_notified c' = ac_notified c -> ac_inline_actions c' = ac_inline_actions c ->
  ac_cfa_inline_actions c' = ac_cfa_inline_actions c -> group n i c l -> group n i c' l.
Proof.
  intros (E1 & E2 & _ & E3 & E4 & _) En Ei Ec [? ? ? ? ? ? ? ? ? ? ?].
  constructor; rewrite ?E1, ?E2, ?E3, ?E4, ?En, ?Ei, ?Ec; done.
Qed.

Lemma finish_extends l o t r ds v : trace_at l o t -> extended l (<[Z.to_nat (o - 1) := finish_trace t r ds v]> l).
Proof.
  intros [Ho E] o' t' [Ho' E']. destruct (decide (o' = o)) as [->|Hne].
  - exists (finish_trace t r ds v). split; [split; [done|]; apply list_lookup_insert_eq; by eapply lookup_lt_Some|].
    rewrite E in E'. injection E' as <-. done.
  - exists t'. split; [|done]. split; [done|]. rewrite list_lookup_insert_ne by lia. done.
Qed.

Lemma exec_one_order n i c st c' st' :
  exec_one sha checktime cfg find_apply_handler wasm_apply c st = Ok (c', st') ->
  group n i c (traces st) -> traces_ok (traces st) -> vsize (traces st') < 2 ^ 32 ->
  group n i c' (traces st') /\ traces_ok (traces st') /\ ran st st' [ac_action_ordinal c].
Proof.
  intros (c1 & w & rq & st1 & t & r & ds & v & dg & Hc & Hn & Hi & Hcf & [Hk _] & Hrq & Ew & Ht & Em & El)%exec_one_spec Hg Hl Hb; [|done..].
  apply trace_at_get in Ht. pose proof (finish_extends _ _ _ r ds v Ht) as He. rewrite <- El in He.
  assert (vsize (traces st') = vsize (traces st1)) as Hlen by (unfold vsize; by rewrite El, length_insert).
  pose proof (apply_requests_asked _ _ _ _ _ _ _ Hrq) as [Hc' _ _ _ _ _].
  destruct (apply_requests_group _ _ n i _ _ _ _ _ Hrq) as (Hg1 & Hl1 & k & Ek & Hk0); [by eapply group_context|done|by rewrite <- Hlen|].
  cbn [with_world ts_action_traces] in Ek.
  assert (extended (traces st) (traces st1)) as He1 by (rewrite Ek; apply extends_app).
  split_and!; [by eapply group_extends|by eapply traces_ok_same|].
  destruct (group_running _ _ _ _ Hg) as (tr & Htr & Er & Ea & _). pose proof (trace_at_app _ k _ _ Htr) as Htr1. rewrite <- Ek in Htr1.
  rewrite (trace_at_inj _ _ _ _ Htr1 Ht) in *. apply make_receipt_spec in Em as (_ & _ & Ear & Hs & Hro' & Hau & Hnum).
  assert (ac_receiver c' = at_receiver t) as Erc by (destruct Hc as (_ & ? & _), Hc' as (_ & ? & _); congruence).
  assert (ac_act c' = at_act t) as Eact by (destruct Hc as (? & _), Hc' as (? & _); congruence).
  rewrite Erc, Eact in *. destruct Hk as [_ _ Kg Kr Ka].
  assert (traces st' !! Z.to_nat (ac_action_ordinal c - 1) = Some (finish_trace t r ds v)) as Elk.
  { rewrite El. apply list_lookup_insert_eq. destruct Ht as [_ E]. by eapply lookup_lt_Some. }
  assert (receivers_of (traces st') [ac_action_ordinal c] = [at_receiver t]) as Erv by (cbn; by rewrite Elk).
  assert (actors_of (traces st') [ac_action_ordinal c] = actor <$> act_authorization (at_act t)) as Eac.
  { cbn. rewrite Elk. cbn. by rewrite app_nil_r. }
  constructor.
  - by eapply extends_trans.
  - intros o x Hx Ho. apply not_elem_of_cons in Ho as [Ho _]. apply (trace_at_app _ k) in Hx. rewrite <- Ek in Hx. destruct Hx as [Ho' E].
    split; [done|]. rewrite El, list_lookup_insert_ne; [done|]. apply trace_at_bound in Ht. lia.
  - intros o x [Ho' E] Hgt Ho. apply not_elem_of_cons in Ho as [Ho _]. rewrite El, list_lookup_insert_ne in E by (apply trace_at_bound in Ht; lia).
    rewrite Ek in E. apply lookup_app_Some in E as [E%lookup_lt_Some|[_ E]]; [unfold vsize in Hgt; lia|]. by eapply Forall_lookup_1 in Hk0.
  - intros j o Hj. apply list_lookup_singleton_Some in Hj as [-> <-]. exists (finish_trace t r ds v), r. cbn [finish_trace at_receipt at_receiver].
    change (take 1 [ac_action_ordinal c]) with [ac_action_ordinal c]. rewrite Erv, Eac. cbn [finish_trace at_act].
    split_and!; [split; [apply trace_at_bound in Ht; lia|done]|done|done| |].
    + eapply numbers_of_ext; [|exact Hnum]. intros a _. cbn beta. by rewrite Ka.
    + destruct (xc_is_read_only cfg) eqn:Hro; [by destruct (Hro' eq_refl) as (-> & _ & -> & _)|].
      destruct (Hs eq_refl) as (-> & _ & -> & _). rewrite Kg, Kr, times_cons, Z.eqb_refl. done.
  - intros Hro. destruct (Hs Hro) as (-> & -> & _). by rewrite u64_idem, Kg.
  - intros Hro a. destruct (Hs Hro) as (_ & _ & Hrs & ->). rewrite Erv, times_cons. destruct (Z.eqb_spec a (at_receiver t)) as [->|].
    + by rewrite Hrs, u64_idem, Kr.
    + rewrite Kr. f_equal. unfold times. cbn. lia.
  - intros a. by rewrite Hau, Ka, Eac.
  - intros Hro. destruct (Hro' Hro) as (_ & -> & _ & Hrr). split; [done|]. intros a. by rewrite Hrr, Kr.
Qed.

(** Traces only become more, whatever the numbers. *)
Lemma exec_one_len c st c' st' :
  exec_one sha checktime cfg find_apply_handler wasm_apply c st = Ok (c', st') -> vsize (traces st) <= vsize (traces st').
Proof.
  intros (c1 & w & rq & st1 & t & r & ds & v & dg & _ & _ & _ & _ & _ & Hrq & _ & _ & _ & El)%exec_one_spec; [|done..].
  apply apply_requests_asked in Hrq as [_ _ _ [k Ek] _ _]. cbn in Ek. unfold vsize. rewrite El, length_insert, Ek, length_app. lia.
Qed.

Lemma exec_notified_len fuel i c st c' st' :
  exec_notified sha checktime cfg find_apply_handler wasm_apply fuel i c st = Some (Ok (c', st')) -> vsize (traces st) <= vsize (traces st').
Proof.
  revert i c st. induction fuel as [|fuel IH]; intros i c st E; cbn [exec_notified] in E; destruct (_ !! i) as [[r o]|]; try done;
    try (injection E as <- <-; lia). apply bbind_Ok in E as ([c1 st1] & E1 & E). injection E1 as E1. apply exec_one_len in E1. apply IH in E. lia.
Qed.

Lemma group_nodup_ordinals n i c l : group n i c l -> NoDup ((ac_notified c).*2 ++ ac_cfa_inline_actions c ++ ac_inline_actions c).
Proof.
  intros Hg. rewrite (g_perm _ _ _ _ Hg). constructor; [|apply fresh_NoDup]. rewrite fresh_elem by apply Hg.
  pose proof (g_first _ _ _ _ Hg). lia.
Qed.

Lemma exec_notified_order fuel n i c st c' st' :
  exec_notified sha checktime cfg find_apply_handler wasm_apply fuel (S i) c st = Some (Ok (c', st')) ->
  group n i c (traces st) -> traces_ok (traces st) -> vsize (traces st') < 2 ^ 32 ->
  (exists i', group n i' c' (traces st')) /\ traces_ok (traces st') /\ ran st st' (drop (S i) (ac_notified c')).*2 /\
  first_ordinal c' = first_ordinal c /\ ac_notified c `prefix_of` ac_notified c'.
Proof.
  revert i c st. induction fuel as [|fuel IH]; intros i c st E Hg Hl Hb; cbn [exec_notified] in E;
    destruct (ac_notified c !! S i) as [[r o]|] eqn:En; try done;
    try (injection E as <- <-; split_and!; [by exists i|done| |done|done]; rewrite drop_ge by (by apply lookup_ge_None); apply ran_refl).
  apply bbind_Ok in E as ([c1 st1] & E1 & E). injection E1 as E1. pose proof (exec_notified_len _ _ _ _ _ _ E) as Hlen.
  assert (group n (S i) (with_receiver c r o) (traces st)) as Hg1 by (destruct Hg; by constructor).
  pose proof (exec_one_accounts _ _ _ _ _ native_receiver native_accounts _ _ _ _ E1) as ((_ & _ & _ & Ef & _) & _ & _ & _ & _ & Hpre & _).
  destruct (exec_one_order _ _ _ _ _ _ E1 Hg1 Hl) as (Hg2 & Hl2 & Hr); [lia|]. cbn [with_receiver ac_action_ordinal ac_notified ac_first_receiver_action_ordinal] in *.
  destruct (IH _ _ _ E Hg2 Hl2 Hb) as ([i' Hg3] & Hl3 & Hr3 & Ef3 & Hpre3).
  assert (ac_notified c `prefix_of` ac_notified c') as Hpre' by by etrans.
  assert (ac_notified c' !! S i = Some (r, o)) as En' by (destruct Hpre' as [k ->]; by apply lookup_app_l_Some).
  split_and!; [by exists i'|done| |congruence|done]. rewrite (drop_S _ _ _ En'). cbn [fmap list_fmap snd].
  apply (ran_trans _ st1 _ [o]); [done|done|]. intros x ->%list_elem_of_singleton Hin.
  apply group_nodup_ordinals in Hg3. apply NoDup_app in Hg3 as (Hnd & _). rewrite <- (take_drop_middle _ _ _ En'), fmap_app, fmap_cons in Hnd.
  apply NoDup_app in Hnd as (_ & _ & Hnd). apply NoDup_cons in Hnd as [Hnd _]. done.
Qed.
End Order.
