(* ===== verification/ActionOrder.v ===== *)
(** The order in which the actions of a transaction run, as its traces tell it,
    and the theorems on whole transactions. *)
From Stdlib Require Import ZArith Lia ZifyBool Sorted.
From stdpp Require Import base tactics numbers list gmap fin_maps fin_map_dom sets.
From S2P Require Import Prelude Digest Raw CoreAsset ResourceLimits Authority PermissionActions ContractTables Authorization ActionExecution ActionRuns ActionTraces.
#[local] Open Scope Z_scope.

(** ** The order, from the traces alone *)

(** The traces of a kind that come from the first receiver with an ordinal and
    those it notified. *)
Definition sent (l : list action_trace) (o : Z) (p : action_trace -> bool) : list Z :=
  at_action_ordinal <$> filter (fun t => closest t = o /\ p t = true) l.
Definition is_context_free_inline (t : action_trace) : bool := negb (is_notification t) && at_context_free t.
Definition is_inline (t : action_trace) : bool := negb (is_notification t) && negb (at_context_free t).

(** An action runs, then the accounts that it notifies in the order in which they
    were, then the context-free inline actions and the other inline actions that
    any of these sent, each with all that comes of it. *)
Inductive in_order (l : list action_trace) : Z -> list Z -> Prop :=
| in_order_action o L : all_in_order l (sent l o is_context_free_inline ++ sent l o is_inline) L ->
    in_order l o ((o :: sent l o is_notification) ++ L)
with all_in_order (l : list action_trace) : list Z -> list Z -> Prop :=
| all_in_order_nil : all_in_order l [] []
| all_in_order_cons o os L L' : in_order l o L -> all_in_order l os L' -> all_in_order l (o :: os) (L ++ L').

Lemma sorted_unique (l k : list Z) : StronglySorted Z.lt l -> StronglySorted Z.lt k -> (forall x, x ∈ l <-> x ∈ k) -> l = k.
Proof.
  intros Hl. revert k. induction Hl as [|x l Hl IH Hx]; intros k Hk He.
  - destruct k as [|y k]; [done|]. assert (y ∈ @nil Z) as Hy by (apply He; by left). by apply elem_of_nil in Hy.
  - destruct Hk as [|y k Hk Hy]; [assert (x ∈ @nil Z) as Hx' by (apply He; by left); by apply elem_of_nil in Hx'|].
    rewrite Forall_forall in Hx, Hy. assert (x = y) as ->.
    { assert (x ∈ y :: k) as [->|Hxk]%elem_of_cons by (apply He; by left); [done|].
      assert (y ∈ x :: l) as [->|Hyl]%elem_of_cons by (apply He; by left); [done|]. apply Hx in Hyl. apply Hy in Hxk. lia. }
    f_equal. apply IH; [done|]. intros z. specialize (He z). rewrite !elem_of_cons in He. split; intros Hz.
    + destruct (proj1 He (or_intror Hz)) as [->|?]; [apply Hx in Hz; lia|done].
    + destruct (proj2 He (or_intror Hz)) as [->|?]; [apply Hy in Hz; lia|done].
Qed.

Lemma sent_elem l o p o' : traces_ok l -> o' ∈ sent l o p <-> exists t, trace_at l o' t /\ closest t = o /\ p t = true.
Proof.
  intros Hl. unfold sent. rewrite list_elem_of_fmap. split.
  - intros (t & -> & Ht). apply list_elem_of_filter in Ht as [[Hc Hp] Hin]. apply list_elem_of_lookup in Hin as [k Hk].
    assert (trace_at l (Z.of_nat (S k)) t) as Ht by (split; [lia|]; by replace (Z.to_nat (Z.of_nat (S k) - 1)) with k by lia).
    rewrite (tk_ordinal _ Hl _ _ Ht). by exists t.
  - intros (t & Ht & Hc & Hp). exists t. rewrite (tk_ordinal _ Hl _ _ Ht). split; [done|]. apply list_elem_of_filter. split; [done|].
    destruct Ht as [_ E]. by eapply list_elem_of_lookup_2.
Qed.

Lemma sorted_ordinals (l : list action_trace) k P `{!forall t, Decision (P t)} :
  (forall i t, l !! i = Some t -> at_action_ordinal t = Z.of_nat (k + i)) -> StronglySorted Z.lt (at_action_ordinal <$> filter P l).
Proof.
  revert k. induction l as [|t l IH]; intros k Hk; [constructor|]. assert (StronglySorted Z.lt (at_action_ordinal <$> filter P l)) as Hs.
  { apply (IH (S k)). intros i x Hx. rewrite (Hk (S i) x Hx). f_equal. lia. }
  rewrite filter_cons. case_decide; [|done]. cbn. constructor; [done|]. apply Forall_forall. intros x Hx.
  apply list_elem_of_fmap in Hx as (y & -> & Hy). apply list_elem_of_filter in Hy as [_ Hy]. apply list_elem_of_lookup in Hy as [i Hi].
  rewrite (Hk 0%nat t eq_refl), (Hk (S i) y Hi). lia.
Qed.

Lemma sent_sorted l o p : traces_ok l -> StronglySorted Z.lt (sent l o p).
Proof.
  intros Hl. apply (sorted_ordinals l 1). intros i t Hi. apply (tk_ordinal _ Hl). split; [lia|]. by replace (Z.to_nat (Z.of_nat (1 + i) - 1)) with i by lia.
Qed.

(** Each of the lists of a context holds one kind of the traces it caused. *)
Lemma group_kinds n i c l o :
  group n i c l ->
  ((o ∈ (ac_notified c).*2 /\ o <> first_ordinal c) <->
     exists t, trace_at l o t /\ closest t = first_ordinal c /\ is_notification t = true) /\
  (o ∈ ac_cfa_inline_actions c <-> exists t, trace_at l o t /\ closest t = first_ordinal c /\ is_context_free_inline t = true) /\
  (o ∈ ac_inline_actions c <-> exists t, trace_at l o t /\ closest t = first_ordinal c /\ is_inline t = true).
Proof.
  intros Hg.
  assert (forall t, trace_at l o t -> closest t = first_ordinal c -> o <> first_ordinal c /\
    (o ∈ (ac_notified c).*2 \/ o ∈ ac_cfa_inline_actions c \/ o ∈ ac_inline_actions c)) as Hin.
  { intros t Ht Hc. pose proof (trace_at_bound _ _ _ Ht). pose proof (g_first _ _ _ _ Hg).
    destruct (decide (o <= Z.of_nat n)) as [Hle|]; [by pose proof (g_old _ _ _ _ Hg o t Ht Hle)|].
    split; [lia|]. apply (group_bound _ _ _ _ Hg). lia. }
  assert (o ∈ (ac_notified c).*2 -> o <> first_ordinal c -> exists t, trace_at l o t /\ closest t = first_ordinal c /\ is_notification t = true) as Hn.
  { intros ([r o'] & -> & Ho)%list_elem_of_fmap Hne. cbn [snd] in *. pose proof (group_account _ _ _ _ Hg _ _ Ho) as Ha.
    apply (g_notified _ _ _ _ Hg) in Ho as (t & Ht & Er & Ea & [Hc|Hc]); [done|]. exists t. split_and!; [done|done|].
    unfold is_notification. rewrite Er, Ea. destruct (Z.eqb_spec r (act_account (ac_act c))); [tauto|done]. }
  assert (o ∈ ac_cfa_inline_actions c -> exists t, trace_at l o t /\ closest t = first_ordinal c /\ is_context_free_inline t = true) as Hc.
  { intros (t & Ht & En & Ec & Ef)%(g_cfa _ _ _ _ Hg). exists t. unfold is_context_free_inline. by rewrite En, Ef. }
  assert (o ∈ ac_inline_actions c -> exists t, trace_at l o t /\ closest t = first_ordinal c /\ is_inline t = true) as Hi.
  { intros (t & Ht & En & Ec & Ef)%(g_inline _ _ _ _ Hg). exists t. unfold is_inline. by rewrite En, Ef. }
  assert (forall (A : Prop) p, (exists t, trace_at l o t /\ closest t = first_ordinal c /\ p t = true) ->
    (o ∈ (ac_notified c).*2 -> o <> first_ordinal c -> (exists t, is_notification t = true /\ p t = true) -> A) ->
    (o ∈ ac_cfa_inline_actions c -> (exists t, is_context_free_inline t = true /\ p t = true) -> A) ->
    (o ∈ ac_inline_actions c -> (exists t, is_inline t = true /\ p t = true) -> A) -> A) as Hcase.
  { intros A p (t & Ht & Ec & Ep) A1 A2 A3. destruct (Hin t Ht Ec) as [Hne [Ho|[Ho|Ho]]]; [pose proof (Hn Ho Hne) as Hx|pose proof (Hc Ho) as Hx|pose proof (Hi Ho) as Hx];
      destruct Hx as (t' & Ht' & _ & Ep'); rewrite (trace_at_inj _ _ _ _ Ht' Ht) in Ep'; eauto. }
  assert (forall t, is_notification t && is_context_free_inline t = false /\ is_notification t && is_inline t = false /\
    is_context_free_inline t && is_inline t = false) as Hdis.
  { intros t. unfold is_context_free_inline, is_inline. by destruct (is_notification t), (at_context_free t). }
  split_and!; (split; [naive_solver|]); intros Hex; apply (Hcase _ _ Hex); try done;
    intros; repeat match goal with H : exists t, _ /\ _ |- _ => destruct H as (t & H1 & H2); destruct (Hdis t) as (D1 & D2 & D3); rewrite H1, H2 in * end; done.
Qed.

(** What an action has asked for is what the traces show of it, at any later time. *)
Lemma group_sent n i c l l' :
  group n i c l -> traces_ok l' -> extended l l' -> (forall o t, trace_at l' o t -> vsize l < o -> closest t <> first_ordinal c) ->
  (ac_notified c).*2 = first_ordinal c :: sent l' (first_ordinal c) is_notification /\
  ac_cfa_inline_actions c = sent l' (first_ordinal c) is_context_free_inline /\
  ac_inline_actions c = sent l' (first_ordinal c) is_inline.
Proof.
  intros Hg Hl' He Hnew. pose proof (g_sorted _ _ _ _ Hg) as (S1 & S2 & S3).
  assert (forall p, (forall t t', same_trace t t' -> p t' = p t) -> forall o,
    o ∈ sent l' (first_ordinal c) p <-> exists t, trace_at l o t /\ closest t = first_ordinal c /\ p t = true) as Hsent.
  { intros p Hp o. rewrite sent_elem by done. split.
    - intros (t & Ht & Hc & Ep). destruct (decide (vsize l < o)) as [Hlt|Hge]; [by pose proof (Hnew o t Ht Hlt)|].
      destruct (extends_back l l' o t He Ht) as (t0 & Ht0 & Hs); [lia|]. exists t0. rewrite <- (Hp _ _ Hs). by destruct Hs as (_ & _ & <- & _).
    - intros (t & Ht & Hc & Ep). apply He in Ht as (t' & Ht' & Hs). exists t'. rewrite (Hp _ _ Hs). by destruct Hs as (_ & _ & -> & _). }
  assert (forall t t', same_trace t t' -> is_context_free_inline t' = is_context_free_inline t /\ is_inline t' = is_inline t) as Hk.
  { intros t t' Hs. unfold is_context_free_inline, is_inline. rewrite (same_notification _ _ Hs). by destruct Hs as (_ & _ & _ & _ & _ & ->). }
  split_and!.
  - pose proof (group_nodup_ordinals _ _ _ _ Hg) as Hnd. pose proof (g_head _ _ _ _ Hg) as Hh. pose proof (fun o => proj1 (group_kinds _ _ _ _ o Hg)) as Hns.
    destruct (ac_notified c) as [|[r0 o0] ns]; [done|]. cbn in Hh. injection Hh as -> ->. cbn [fmap list_fmap snd] in *.
    apply StronglySorted_inv in S1 as [S1 _]. apply NoDup_cons in Hnd as [Hni _]. rewrite not_elem_of_app in Hni. f_equal.
    apply sorted_unique; [done|by apply sent_sorted|]. intros o. rewrite (Hsent _ same_notification o), <- Hns, elem_of_cons. naive_solver.
  - apply sorted_unique; [done|by apply sent_sorted|]. intros o. rewrite Hsent by apply Hk. apply (group_kinds _ _ _ _ o Hg).
  - apply sorted_unique; [done|by apply sent_sorted|]. intros o. rewrite Hsent by apply Hk. apply (group_kinds _ _ _ _ o Hg).
Qed.

Section Execution.
Context {K W : Type} `{EqDecision K} `{Packable K}.
Variable sha : list Z -> sha256.
Variable checktime : nat -> result unit.
Variable cfg : exec_config.
Variable max_inline_action_depth : W -> Z.
Variable find_apply_handler : Z -> Z -> Z -> option (apply_context -> world K W -> result (world K W * gmap Z Z)).
Variable wasm_apply : sha256 -> apply_context -> list action_trace -> gmap Z Z -> world K W -> result (code_output W).
Hypothesis native_receiver : forall receiver account name h, find_apply_handler receiver account name = Some h -> receiver = account.
Hypothesis native_accounts : forall receiver account name h c w w' d,
  find_apply_handler receiver account name = Some h -> h c w = Ok (w', d) -> keeps_accounts w w'.

Abbreviation state_t := (trx_state K W).
Abbreviation traces := ts_action_traces.
Abbreviation execute fuel := (execute_action sha checktime cfg max_inline_action_depth find_apply_handler wasm_apply fuel).

(** Traces come only from actions that have run. *)
Definition started (l : list action_trace) : Prop :=
  forall o t, trace_at l o t -> closest t <> 0 -> exists t', trace_at l (closest t) t' /\ is_Some (at_receipt t').

(** An action that is waiting. *)
Definition waiting (l : list action_trace) (o : Z) : Prop :=
  exists t, trace_at l o t /\ is_notification t = false /\ at_receipt t = None.

(** What running the actions [os] with all that comes of them does. *)
Record executed (os : list Z) (st st' : state_t) (L : list Z) : Prop := {
  ex_ok : traces_ok (traces st');
  ex_started : started (traces st');
  ex_ran : ran cfg st st' L;
  ex_perm : L ≡ₚ os ++ fresh (length (traces st)) (traces st');
  ex_closest : forall o t, trace_at (traces st') o t -> vsize (traces st) < o -> closest t ∈ L
}.

(** Later traces, none of which comes from [L]. *)
Definition later (l l' : list action_trace) (L : list Z) : Prop :=
  extended l l' /\ traces_ok l' /\ forall o t, trace_at l' o t -> vsize l < o -> closest t ∉ L.

Lemma ran_started (st st' : state_t) L :
  started (traces st) -> ran cfg st st' L -> (forall o t, trace_at (traces st') o t -> vsize (traces st) < o -> closest t ∈ L) -> started (traces st').
Proof.
  intros Hs Hr Hc o t Ht Hne.
  assert (forall x, x ∈ L -> exists t', trace_at (traces st') x t' /\ is_Some (at_receipt t')) as Hdone.
  { intros x [k Hk]%list_elem_of_lookup. destruct (rn_done _ _ _ _ Hr k x Hk) as (t' & r & Ht' & E & _). exists t'. split; [done|by eexists]. }
  destruct (decide (vsize (traces st) < o)) as [Hlt|Hge]; [by apply Hdone, (Hc o)|].
  destruct (extends_back _ _ _ _ (rn_extends _ _ _ _ Hr) Ht) as (t0 & Ht0 & (_ & _ & Ec & _)); [lia|]. rewrite Ec in *.
  destruct (Hs o t0 Ht0 Hne) as (t1 & Ht1 & Hsome). destruct (decide (closest t0 ∈ L)) as [Hin|Hni]; [by apply Hdone|].
  exists t1. split; [by apply (rn_kept _ _ _ _ Hr)|done].
Qed.

Lemma exec_receivers_order o depth (st : state_t) c c' st' :
  make_context o depth st = Ok c -> exec_receivers sha checktime cfg find_apply_handler wasm_apply c st = Some (Ok (c', st')) ->
  waiting (traces st) o -> traces_ok (traces st) -> started (traces st) -> vsize (traces st') < 2 ^ 32 ->
  (exists i, group (length (traces st)) i c' (traces st')) /\ traces_ok (traces st') /\ ran cfg st st' (ac_notified c').*2 /\ first_ordinal c' = o.
Proof.
  intros Ec E (t & Ht & Hn & Hnone) Hl Hst Hb. unfold make_context in Ec. apply bind_Ok in Ec as (t' & Ht' & Ec).
  apply trace_at_get in Ht'. rewrite (trace_at_inj _ _ _ _ Ht' Ht) in Ec. apply Ok_inj in Ec as <-.
  unfold exec_receivers in E. cbn [ac_notified ac_receiver ac_action_ordinal app] in E. apply bbind_Ok in E as ([c1 st1] & E1 & E).
  injection E1 as E1. pose proof (trace_at_bound _ _ _ Ht) as Hbt. pose proof (exec_notified_len _ _ _ _ _ native_receiver native_accounts _ _ _ _ _ _ E) as Hlen.
  set (c0 := with_notified _ _) in E1. assert (group (length (traces st)) 0 c0 (traces st)) as Hg.
  { unfold is_notification in Hn. apply negb_false_iff, Z.eqb_eq in Hn. unfold c0. constructor;
      cbn [with_notified ac_notified ac_receiver ac_action_ordinal ac_act ac_first_receiver_action_ordinal ac_cfa_inline_actions
        ac_inline_actions fmap list_fmap app fst snd]; try done.
    - by rewrite Hn.
    - apply NoDup_singleton.
    - unfold fresh. by rewrite Nat.sub_diag.
    - repeat constructor.
    - intros r o' [= -> ->]%list_elem_of_singleton. exists t. auto.
    - by intros o' ?%elem_of_nil.
    - by intros o' ?%elem_of_nil.
    - intros o' t1 Ht1 _ Hc. destruct (Hst o' t1 Ht1) as (t2 & Ht2 & Hsome); [lia|]. rewrite Hc, (trace_at_inj _ _ _ _ Ht2 Ht), Hnone in *.
      by destruct Hsome. }
  destruct (exec_one_order _ _ _ _ _ native_receiver native_accounts _ _ _ _ _ _ E1 Hg Hl) as (Hg1 & Hl1 & Hr1); [lia|].
  pose proof (exec_one_accounts _ _ _ _ _ native_receiver native_accounts _ _ _ _ E1) as ((_ & _ & _ & Ef & _) & _ & _ & _ & _ & Hpre & _).
  destruct (exec_notified_order _ _ _ _ _ native_receiver native_accounts _ _ _ _ _ _ _ E Hg1 Hl1 Hb) as ([i' Hg2] & Hl2 & Hr2 & Ef2 & Hpre2).
  assert (ac_notified c' !! 0%nat = Some (at_receiver t, o)) as E0.
  { destruct Hpre2 as [k2 ->]. destruct Hpre as [k1 ->]. done. }
  split_and!; [by exists i'|done| |by rewrite Ef2, Ef].
  rewrite <- (drop_0 (ac_notified c')), (drop_S _ _ _ E0). cbn [fmap list_fmap snd]. apply (ran_trans _ _ st1 _ [o]); [done|done|].
  intros x ->%list_elem_of_singleton Hin. apply group_nodup_ordinals in Hg2. apply NoDup_app in Hg2 as (Hnd & _).
  rewrite <- (drop_0 (ac_notified c')), (drop_S _ _ _ E0) in Hnd. cbn in Hnd. by apply NoDup_cons in Hnd as [? _].
Qed.

(** The last part of running an action is running those that it sent. *)
Lemma execute_split fuel o depth (st st' : state_t) :
  execute fuel o depth st = Some (Ok st') ->
  exists c c1 st1 fuel', make_context o depth st = Ok c /\
    exec_receivers sha checktime cfg find_apply_handler wasm_apply c st = Some (Ok (c1, st1)) /\ (fuel' < fuel \/ fuel' = 0 /\ fuel = 0)%nat /\
    (ac_cfa_inline_actions c1 ++ ac_inline_actions c1 = [] /\ st' = st1 \/
     (fuel' < fuel)%nat /\
     bounded_fold (fun ordinal => execute fuel' ordinal (u32 (depth + 1))) (ac_cfa_inline_actions c1 ++ ac_inline_actions c1) st1 = Some (Ok st')).
Proof.
  intros E. destruct fuel as [|fuel]; cbn [execute_action] in E; apply bbind_Ok in E as (c & Ec & E); injection Ec as Ec;
    apply bbind_Ok in E as ([c1 st1] & E1 & E).
  - exists c, c1, st1, 0%nat. split_and!; [done|done|lia|]. left. destruct (_ ++ _); [|by destruct (_ <? _)]. by injection E as <-.
  - exists c, c1, st1, fuel. split_and!; [done|done|lia|]. destruct (_ ++ _) as [|x xs] eqn:Ex; [left; by injection E as <-|right].
    destruct (_ <? _); [|done]. split; [lia|done].
Qed.

Lemma exec_receivers_len c (st : state_t) c1 st1 :
  exec_receivers sha checktime cfg find_apply_handler wasm_apply c st = Some (Ok (c1, st1)) -> vsize (traces st) <= vsize (traces st1).
Proof.
  intros E. unfold exec_receivers in E. apply bbind_Ok in E as ([c2 st2] & E2 & E). injection E2 as E2.
  apply (exec_one_len _ _ _ _ _ native_receiver native_accounts) in E2. apply (exec_notified_len _ _ _ _ _ native_receiver native_accounts) in E. lia.
Qed.

Lemma fold_len (f : Z -> state_t -> bounded state_t) os (st st' : state_t) :
  (forall o st st', f o st = Some (Ok st') -> vsize (traces st) <= vsize (traces st')) ->
  bounded_fold f os st = Some (Ok st') -> vsize (traces st) <= vsize (traces st').
Proof.
  intros Hf. revert st. induction os as [|o os IH]; intros st E; cbn [bounded_fold] in E; [injection E as <-; lia|].
  apply bbind_Ok in E as (st1 & E1 & E). apply Hf in E1. apply IH in E. lia.
Qed.

Lemma execute_len fuel o depth (st st' : state_t) : execute fuel o depth st = Some (Ok st') -> vsize (traces st) <= vsize (traces st').
Proof.
  revert o depth st st'. induction (lt_wf fuel) as [fuel _ IH]. intros o depth st st' E.
  apply execute_split in E as (c & c1 & st1 & fuel' & _ & E1%exec_receivers_len & _ & [[_ ->]|[Hf E]]); [done|].
  apply fold_len in E; [lia|]. intros. by eapply IH.
Qed.

Lemma executed_nil (st : state_t) : traces_ok (traces st) -> started (traces st) -> executed [] st st [].
Proof.
  intros Hl Hs. constructor; [done|done|apply ran_refl| |].
  - unfold fresh. by rewrite Nat.sub_diag.
  - intros o t Ht%trace_at_bound. lia.
Qed.

(** The actions that wait stay so while others run. *)
Lemma executed_waiting os (st st' : state_t) L o : executed os st st' L -> waiting (traces st) o -> o ∉ os -> waiting (traces st') o.
Proof.
  intros Hx (t & Ht & Hn & Hr) Ho. exists t. split; [|done]. apply (rn_kept _ _ _ _ (ex_ran _ _ _ _ Hx)); [done|].
  rewrite (ex_perm _ _ _ _ Hx), not_elem_of_app. split; [done|]. apply trace_at_bound in Ht.
  pose proof (extends_len _ _ (rn_extends _ _ _ _ (ex_ran _ _ _ _ Hx))). unfold vsize in *. rewrite fresh_elem by lia. lia.
Qed.

Lemma executed_app os os' (st st1 st' : state_t) L L' :
  executed os st st1 L -> executed os' st1 st' L' -> (forall o, o ∈ os ++ os' -> 0 < o <= vsize (traces st)) -> NoDup (os ++ os') ->
  executed (os ++ os') st st' (L ++ L') /\ (forall o, o ∈ L -> o ∉ L').
Proof.
  intros H1 H2 Hos Hnd. pose proof (rn_extends _ _ _ _ (ex_ran _ _ _ _ H2)) as E2.
  pose proof (extends_len _ _ (rn_extends _ _ _ _ (ex_ran _ _ _ _ H1))) as Hl1. pose proof (extends_len _ _ E2) as Hl2.
  setoid_rewrite elem_of_app in Hos. apply NoDup_app in Hnd as (_ & Hnd & _). unfold vsize in *.
  assert (forall o, o ∈ L -> o ∉ L') as Hdis.
  { intros o. rewrite (ex_perm _ _ _ _ H1), (ex_perm _ _ _ _ H2), !elem_of_app, !fresh_elem by lia. unfold vsize.
    intros [Ho|Ho] [Ho'|Ho']; [by eapply Hnd|..].
    - specialize (Hos o (or_introl Ho)). lia.
    - specialize (Hos o (or_intror Ho')). lia.
    - lia. }
  assert (forall o t, trace_at (traces st') o t -> vsize (traces st) < o -> closest t ∈ L ++ L') as Hc.
  { intros o t Ht Hgt. rewrite elem_of_app. destruct (decide (vsize (traces st1) < o)) as [Hlt|Hge].
    - right. by eapply (ex_closest _ _ _ _ H2).
    - left. destruct (extends_back _ _ _ _ E2 Ht) as (t0 & Ht0 & (_ & _ & -> & _)); [lia|]. by eapply (ex_closest _ _ _ _ H1). }
  split; [|done]. constructor; try done; try apply H2.
  - eapply ran_trans; [apply H1|apply H2|done].
  - rewrite (ex_perm _ _ _ _ H1), (ex_perm _ _ _ _ H2), (fresh_split (length (traces st)) (traces st1) (traces st')) by lia. solve_Permutation.
Qed.

(** What is later than the second of two runs is later than the first. *)
Lemma later_app os os' (st st1 st' : state_t) L L' l :
  executed os st st1 L -> executed os' st1 st' L' -> (forall o, o ∈ L -> o ∉ L') -> later (traces st') l (L ++ L') ->
  later (traces st1) l L /\ later (traces st') l L'.
Proof.
  intros H1 H2 Hdis (He & Hl & Hnew). pose proof (rn_extends _ _ _ _ (ex_ran _ _ _ _ H2)) as E2.
  split; (split_and!; [done || by eapply extends_trans|done|]); intros o t Ht Hgt Hin.
  - destruct (decide (vsize (traces st') < o)) as [Hlt|Hge]; [eapply Hnew; [done..|apply elem_of_app; by left]|].
    destruct (extends_back _ _ _ _ He Ht) as (t0 & Ht0 & (_ & _ & Ec & _)); [lia|]. rewrite Ec in Hin.
    apply (Hdis _ Hin). by eapply (ex_closest _ _ _ _ H2 o).
  - eapply Hnew; [done..|apply elem_of_app; by right].
Qed.

Lemma fold_order fuel depth os (st st' : state_t) :
  (forall o st st', execute fuel o depth st = Some (Ok st') -> waiting (traces st) o -> traces_ok (traces st) -> started (traces st) ->
     vsize (traces st') < 2 ^ 32 -> exists L, executed [o] st st' L /\ forall l, later (traces st') l L -> in_order l o L) ->
  bounded_fold (fun o => execute fuel o depth) os st = Some (Ok st') ->
  (forall o, o ∈ os -> waiting (traces st) o) -> NoDup os -> traces_ok (traces st) -> started (traces st) -> vsize (traces st') < 2 ^ 32 ->
  exists L, executed os st st' L /\ forall l, later (traces st') l L -> all_in_order l os L.
Proof.
  intros Hone. revert st. induction os as [|o os IH]; intros st E Hw Hnd Hl Hs Hb; cbn [bounded_fold] in E.
  - injection E as <-. exists []. split; [by apply executed_nil|constructor].
  - apply bbind_Ok in E as (st1 & E1 & E). apply NoDup_cons in Hnd as [Hni Hnd].
    assert (vsize (traces st1) <= vsize (traces st')) by (eapply fold_len; [|exact E]; intros x s s' Es; cbv beta in Es; by apply execute_len in Es).
    destruct (Hone _ _ _ E1) as (L1 & H1 & Ho1); [apply Hw; by left|done|done|lia|].
    destruct (IH _ E) as (L2 & H2 & Ho2); [|done|apply H1|apply H1|done|].
    { intros x Hx. eapply executed_waiting; [exact H1|apply Hw; by right|]. by intros ->%list_elem_of_singleton. }
    destruct (executed_app [o] os _ _ _ _ _ H1 H2) as [H12 Hdis]; [|by constructor|].
    { intros x Hx. destruct (Hw x Hx) as (t & Ht & _). by eapply trace_at_bound. }
    exists (L1 ++ L2). split; [done|]. intros l Hlater. destruct (later_app _ _ _ _ _ _ _ _ H1 H2 Hdis Hlater). constructor; auto.
Qed.

(** What an action has sent waits, and all it has caused comes from it. *)
Lemma group_sends n i c (st st1 : state_t) :
  group n i c (traces st1) -> n = length (traces st) -> ran cfg st st1 (ac_notified c).*2 -> started (traces st) ->
  let os := ac_cfa_inline_actions c ++ ac_inline_actions c in
  (forall x t, trace_at (traces st1) x t -> vsize (traces st) < x -> closest t = first_ordinal c) /\
  started (traces st1) /\ NoDup os /\ (forall x, x ∈ (ac_notified c).*2 -> x ∉ os) /\ first_ordinal c ∈ (ac_notified c).*2 /\
  (forall x, x ∈ os -> waiting (traces st1) x).
Proof.
  intros Hg -> Hr Hs os. pose proof (g_first _ _ _ _ Hg) as Hf. pose proof (group_nodup_ordinals _ _ _ _ Hg) as Hnd.
  apply NoDup_app in Hnd as (_ & Hnd & Hnos). fold os in Hnd, Hnos.
  assert (first_ordinal c ∈ (ac_notified c).*2) as Ho.
  { pose proof (g_head _ _ _ _ Hg) as Hh. apply list_elem_of_lookup_2 in Hh. apply list_elem_of_fmap.
    by exists (act_account (ac_act c), first_ordinal c). }
  assert (forall x t, trace_at (traces st1) x t -> vsize (traces st) < x -> closest t = first_ordinal c) as Hcl.
  { intros x t Ht Hgt. pose proof (trace_at_bound _ _ _ Ht). destruct (group_kinds _ _ _ _ x Hg) as (K1 & K2 & K3).
    destruct (proj2 (group_bound _ _ _ _ Hg x)) as [Hx|[Hx|Hx]]; [unfold vsize in *; lia|..].
    - destruct (proj1 K1) as (t' & Ht' & <- & _); [unfold vsize in *; split; [done|lia]|]. by rewrite (trace_at_inj _ _ _ _ Ht Ht').
    - apply K2 in Hx as (t' & Ht' & <- & _). by rewrite (trace_at_inj _ _ _ _ Ht Ht').
    - apply K3 in Hx as (t' & Ht' & <- & _). by rewrite (trace_at_inj _ _ _ _ Ht Ht'). }
  split_and!; try done.
  - eapply ran_started; [done..|]. intros x t Ht Hgt. by rewrite (Hcl x t Ht Hgt).
  - intros x Hx. destruct (proj1 (group_bound _ _ _ _ Hg x)) as [->|Hx']; [unfold os in Hx; rewrite elem_of_app in Hx; tauto|by apply Hnd in Ho|].
    assert (exists t, trace_at (traces st1) x t /\ is_notification t = false) as (t & Ht & En).
    { unfold os in Hx. apply elem_of_app in Hx as [Hx|Hx]; [apply (g_cfa _ _ _ _ Hg) in Hx as (t & Ht & En & _)|
        apply (g_inline _ _ _ _ Hg) in Hx as (t & Ht & En & _)]; by exists t. }
    exists t. split_and!; [done|done|]. eapply (rn_fresh _ _ _ _ Hr); [done|unfold vsize; lia|]. intros Hin. by apply (Hnd x Hin).
Qed.

Lemma execute_order fuel o depth (st st' : state_t) :
  execute fuel o depth st = Some (Ok st') -> waiting (traces st) o -> traces_ok (traces st) -> started (traces st) ->
  vsize (traces st') < 2 ^ 32 -> exists L, executed [o] st st' L /\ forall l, later (traces st') l L -> in_order l o L.
Proof.
  revert o depth st st'. induction (lt_wf fuel) as [fuel _ IH]. intros o depth st st' E Hw Hl Hs Hb.
  apply execute_split in E as (c & c1 & st1 & fuel' & Ec & E1 & _ & E).
  assert (vsize (traces st1) <= vsize (traces st')) as Hlen.
  { destruct E as [[_ ->]|[_ E]]; [lia|]. eapply fold_len; [|exact E]. intros x s s' Es. cbv beta in Es. by apply execute_len in Es. }
  destruct (exec_receivers_order _ _ _ _ _ _ Ec E1 Hw Hl Hs) as ([i Hg] & Hl1 & Hr1 & Ef); [lia|].
  pose proof (g_len _ _ _ _ Hg) as Hn. destruct (group_sends _ _ _ _ _ Hg eq_refl Hr1 Hs) as (Hcl & Hs1 & Hnos & Hnd & Ho & Hwait). rewrite Ef in *.
  set (os := ac_cfa_inline_actions c1 ++ ac_inline_actions c1) in *.
  assert (exists L, executed os st1 st' L /\ forall l, later (traces st') l L -> all_in_order l os L) as (L & Hx & Hord).
  { destruct E as [[Enil ->]|[Hlt E]].
    - rewrite Enil. exists []. split; [by apply executed_nil|constructor].
    - eapply fold_order; [|exact E|..]; try done. intros x s s' Es. by apply (IH fuel' Hlt x (u32 (depth + 1)) s s'). }
  pose proof (rn_extends _ _ _ _ (ex_ran _ _ _ _ Hx)) as E2. unfold vsize in Hlen.
  assert (forall x, x ∈ (ac_notified c1).*2 -> x ∉ L) as Hdis.
  { intros x Hx1. rewrite (ex_perm _ _ _ _ Hx), not_elem_of_app, fresh_elem by lia. split; [by apply Hnd|].
    pose proof (group_below _ _ _ _ Hg x (or_introl Hx1)). unfold vsize in *. lia. }
  assert (forall x t, trace_at (traces st') x t -> vsize (traces st) < x -> closest t = o \/ closest t ∈ L) as Hc.
  { intros x t Ht Hgt. destruct (decide (vsize (traces st1) < x)) as [Hlt|Hge]; [right; by eapply (ex_closest _ _ _ _ Hx)|left].
    destruct (extends_back _ _ _ _ E2 Ht) as (t0 & Ht0 & (_ & _ & -> & _)); [lia|]. by eapply Hcl. }
  exists ((ac_notified c1).*2 ++ L). split; [constructor|].
  - apply Hx.
  - apply Hx.
  - eapply ran_trans; [done|apply Hx|done].
  - pose proof (g_perm _ _ _ _ Hg) as Hp. fold os in Hp. rewrite Ef in Hp. rewrite (ex_perm _ _ _ _ Hx), app_assoc, Hp. cbn.
    by rewrite (fresh_split (length (traces st)) (traces st1) (traces st')) by lia.
  - intros x t Ht Hgt. rewrite elem_of_app. destruct (Hc x t Ht Hgt) as [->|?]; auto.
  - intros l (He & Hl' & Hnew). destruct (group_sent _ _ _ _ l Hg) as (S1 & S2 & S3); [done|by eapply extends_trans| |].
    + rewrite Ef. intros x t Ht Hgt Heq. destruct (decide (vsize (traces st') < x)) as [Hlt|Hge].
      * apply (Hnew x t Ht Hlt). rewrite Heq. apply elem_of_app. by left.
      * destruct (extends_back _ _ _ _ He Ht) as (t0 & Ht0 & (_ & _ & Eq & _)); [lia|]. rewrite Eq in Heq.
        assert (closest t0 ∈ L) as Hin by by eapply (ex_closest _ _ _ _ Hx). rewrite Heq in Hin. by apply (Hdis o).
    + rewrite Ef in *. rewrite S1. constructor. unfold os in Hord. rewrite S2, S3 in Hord. apply Hord. split_and!; try done.
      intros x t Ht Hgt Hin. apply (Hnew x t Ht Hgt). apply elem_of_app. by right.
Qed.
(** ** Whole transactions *)

(** The traces that a transaction starts with. *)
Definition original (l : list action_trace) : Prop :=
  forall o t, trace_at l o t -> at_action_ordinal t = o /\ creator t = 0 /\ closest t = 0 /\ is_notification t = false /\ at_receipt t = None.

Lemma schedule_original cf acts (st : state_t) :
  let st' := foldl (fun st act => (schedule_action act (act_account act) cf 0 0 st).2) st acts in
  vsize (traces st') = vsize (traces st) + vsize acts /\ ts_world st' = ts_world st /\
  (original (traces st) -> vsize (traces st') < 2 ^ 32 -> original (traces st')).
Proof.
  revert st. induction acts as [|a acts IH]; intros st; cbn [foldl]; [split_and!; [unfold vsize; cbn; lia|done..]|].
  destruct (IH (schedule_action a (act_account a) cf 0 0 st).2) as (Hlen & Hw & Hor). set (st' := foldl _ _ _) in *.
  cbn in Hlen, Hw. split_and!; [unfold vsize in *; rewrite length_app in Hlen; cbn in *; lia|done|].
  intros Ho Hb. apply Hor; [|done]. cbn. intros o t [Ht|[-> ->]]%trace_at_snoc; [by apply Ho|]. cbn. unfold is_notification. cbn.
  rewrite Z.eqb_refl. split_and!; try done. apply u32_small. unfold vsize in *. rewrite length_app in Hlen. cbn in Hlen. lia.
Qed.

Lemma original_ok l : original l -> traces_ok l /\ started l /\ forall o, 0 < o <= vsize l -> waiting l o.
Proof.
  intros Ho. split_and!.
  - constructor.
    + intros o t Ht. apply (Ho _ _ Ht).
    + intros o t Ht. left. by destruct (Ho _ _ Ht) as (_ & ? & ? & ? & _).
    + intros o o' t t' Ht _ Hn. by destruct (Ho _ _ Ht) as (_ & _ & _ & ? & _); congruence.
  - intros o t Ht Hc. by destruct (Ho _ _ Ht) as (_ & _ & ? & _).
  - intros o Hb. destruct (trace_at_exists l o Hb) as [t Ht]. exists t. by destruct (Ho _ _ Ht) as (_ & _ & _ & ? & ?).
Qed.

Definition transaction_actions (apply_cf : bool) (cfas actions : list action) : nat := (if apply_cf then length cfas else 0) + length actions.

Lemma exec_order apply_cf delay cfas actions (st st' : state_t) :
  exec sha checktime cfg max_inline_action_depth find_apply_handler wasm_apply apply_cf delay cfas actions st = Some (Ok st') ->
  traces st = [] -> vsize (traces st') < 2 ^ 32 ->
  exists st0 L, ts_world st0 = ts_world st /\ traces_ok (traces st') /\ ran cfg st0 st' L /\ L ≡ₚ Z.of_nat <$> seq 1 (length (traces st')) /\
    all_in_order (traces st') (Z.of_nat <$> seq 1 (transaction_actions apply_cf cfas actions)) L.
Proof.
  intros E Hnil Hb. unfold exec in E. apply bbind_Ok in E as (st1 & E & Ed).
  destruct (Z.eqb_spec delay 0) as [Hd|]; [|done]. injection Ed as ->.
  set (s1 := if apply_cf then _ else st) in E. set (s2 := foldl _ s1 actions) in E.
  assert (original (traces st)) as Ho by (rewrite Hnil; by intros o t [_ E0]).
  destruct (schedule_original true cfas st) as (Hl1 & Hw1 & Ho1). destruct (schedule_original false actions s1) as (Hl2 & Hw2 & Ho2). fold s2 in Hl2, Hw2, Ho2.
  assert (vsize (traces s2) <= vsize (traces st')) as Hlen.
  { eapply fold_len; [|exact E]. intros x s s' Es. cbv beta in Es. by apply execute_len in Es. }
  assert (original (traces s2)) as Ho'.
  { apply Ho2; [|lia]. unfold s1. destruct apply_cf; [|done]. apply Ho1; [done|]. change (foldl _ st cfas) with s1. unfold vsize in *. lia. }
  assert (length (traces s2) = transaction_actions apply_cf cfas actions) as Hn.
  { unfold transaction_actions, s1, vsize in *. rewrite Hnil in Hl1. destruct apply_cf; cbn in *; rewrite ?Hnil in *; cbn in *; lia. }
  destruct (original_ok _ Ho') as (Hok & Hst & Hwait).
  destruct (fold_order _ 0 _ s2 st' (fun o s s' => execute_order _ o 0 s s') E) as (L & Hx & Hord); try done.
  - intros o (k & -> & Hk%elem_of_seq)%list_elem_of_fmap. apply Hwait. unfold vsize. lia.
  - apply NoDup_fmap_2; [intros x y; lia|apply NoDup_seq].
  - rewrite Hn in *. exists s2, L. split_and!; try apply Hx.
    + rewrite Hw2. unfold s1. by destruct apply_cf.
    + rewrite (ex_perm _ _ _ _ Hx). unfold fresh. rewrite Hn, <- fmap_app. unfold vsize in Hlen.
      change (S (transaction_actions apply_cf cfas actions)) with (1 + transaction_actions apply_cf cfas actions)%nat. rewrite <- seq_app.
      by replace (transaction_actions apply_cf cfas actions + (length (traces st') - transaction_actions apply_cf cfas actions))%nat with (length (traces st')) by lia.
    + apply Hord. split_and!; [apply extends_refl|apply Hx|]. intros o t Ht%trace_at_bound. lia.
Qed.
(** C14. Actions run in the order that their traces tell: in a transaction that
    succeeds, each action runs, then the accounts it notifies, then the
    context-free and the other inline actions that these sent, each with all that
    comes of it before the next; every trace runs exactly once and gets its
    receipt.  The numbers in the receipts count in this order, on from what they
    were: the global ones all receipts, those of a receiver its own, and the map
    of authorization numbers has for exactly the accounts that authorize the
    action the count of its authorizations so far.  In a read-only transaction the
    global and receiver numbers are zero and their counters stay; authorization
    numbers count all the same. *)
Theorem actions_run_in_order apply_cf delay cfas actions (st st' : state_t) :
  exec sha checktime cfg max_inline_action_depth find_apply_handler wasm_apply apply_cf delay cfas actions st = Some (Ok st') ->
  traces st = [] -> vsize (traces st') < 2 ^ 32 ->
  exists L, all_in_order (traces st') (Z.of_nat <$> seq 1 (transaction_actions apply_cf cfas actions)) L /\
    L ≡ₚ Z.of_nat <$> seq 1 (length (traces st')) /\
    (forall k o, L !! k = Some o ->
       exists t r, trace_at (traces st') o t /\ at_receipt t = Some r /\ ar_receiver r = at_receiver t /\
         numbers_of (ar_auth_sequence r) (actor <$> act_authorization (at_act t))
           (fun a => u64 (auth_of (ts_world st) a + times a (actors_of (traces st') (take (S k) L)))) /\
         if xc_is_read_only cfg then ar_global_sequence r = 0 /\ ar_recv_sequence r = 0
         else
           ar_global_sequence r = u64 (w_global_action_sequence (ts_world st) + Z.of_nat (S k)) /\
           ar_recv_sequence r =
             u64 (recv_of (ts_world st) (at_receiver t) + times (at_receiver t) (receivers_of (traces st') (take (S k) L)))) /\
    (if xc_is_read_only cfg then
       w_global_action_sequence (ts_world st') = w_global_action_sequence (ts_world st) /\
       forall a, recv_of (ts_world st') a = recv_of (ts_world st) a
     else
       u64 (w_global_action_sequence (ts_world st')) = u64 (w_global_action_sequence (ts_world st) + vsize (traces st')) /\
       forall a, u64 (recv_of (ts_world st') a) = u64 (recv_of (ts_world st) a + times a (receivers_of (traces st') L))) /\
    (forall a, u64 (auth_of (ts_world st') a) = u64 (auth_of (ts_world st) a + times a (actors_of (traces st') L))).
Proof.
  intros E Hnil Hb. destruct (exec_order _ _ _ _ _ _ E Hnil Hb) as (st0 & L & Hw & _ & Hr & Hp & Hord). exists L. rewrite <- Hw.
  split_and!; [done|done|apply Hr| |apply Hr]. destruct (xc_is_read_only cfg) eqn:Hro; [by apply Hr|].
  split; [|by apply Hr]. rewrite (rn_global _ _ _ _ Hr Hro). unfold vsize. rewrite Hp, length_fmap, length_seq. done.
Qed.

(** All the accounts that authorize the actions of traces, once for each time. *)
Definition authorizers (l : list action_trace) : list Z := l ≫= (fun t => actor <$> act_authorization (at_act t)).

Lemma times_perm a l k : l ≡ₚ k -> times a l = times a k.
Proof. unfold times. by intros ->. Qed.

Lemma actors_of_all l : actors_of l (Z.of_nat <$> seq 1 (length l)) = authorizers l.
Proof.
  unfold actors_of, authorizers. rewrite list_fmap_bind.
  induction l as [|t l IH] using rev_ind; [done|]. rewrite length_app, seq_app, !bind_app. cbn [length seq]. f_equal.
  - rewrite <- IH. apply Forall_bind_ext, Forall_forall. intros i Hi%elem_of_seq. cbn. by rewrite lookup_app_l by lia.
  - cbn. rewrite lookup_app_r by lia. by replace (_ - length l)%nat with 0%nat by lia.
Qed.

(** C40. A read-only transaction that succeeds writes to accounts: it leaves the
    counters of global and receiver numbers alone, but moves the authorization
    counter of every account on by as often as its actions name the account,
    those that code sent included, for which no authorization is checked then. *)
Theorem read_only_writes_authorizations apply_cf delay cfas actions (st st' : state_t) :
  exec sha checktime cfg max_inline_action_depth find_apply_handler wasm_apply apply_cf delay cfas actions st = Some (Ok st') ->
  traces st = [] -> vsize (traces st') < 2 ^ 32 -> xc_is_read_only cfg = true ->
  w_global_action_sequence (ts_world st') = w_global_action_sequence (ts_world st) /\
  (forall a, recv_of (ts_world st') a = recv_of (ts_world st) a) /\
  (forall a, u64 (auth_of (ts_world st') a) = u64 (auth_of (ts_world st) a + times a (authorizers (traces st')))) /\
  (forall a t, t ∈ traces st' -> a ∈ (actor <$> act_authorization (at_act t)) -> vsize (authorizers (traces st')) < 2 ^ 64 ->
     auth_of (ts_world st') a <> auth_of (ts_world st) a).
Proof.
  intros E Hnil Hb Hro. destruct (exec_order _ _ _ _ _ _ E Hnil Hb) as (st0 & L & Hw & _ & Hr & Hp & _).
  destruct (rn_read_only _ _ _ _ Hr Hro) as [Hg Hrc]. rewrite Hw in Hg, Hrc.
  assert (forall a, u64 (auth_of (ts_world st') a) = u64 (auth_of (ts_world st) a + times a (authorizers (traces st')))) as Ha.
  { intros a. rewrite (rn_auth _ _ _ _ Hr), Hw, <- actors_of_all. do 2 f_equal. apply times_perm. unfold actors_of. by rewrite Hp. }
  split_and!; [done|done|done|]. intros a t Ht Hin Hlt Heq. specialize (Ha a). rewrite Heq in Ha.
  assert (0 < times a (authorizers (traces st')) <= vsize (authorizers (traces st'))) as Hn.
  { unfold times, vsize. split; [|pose proof (length_filter (fun x => x = a) (authorizers (traces st'))); lia].
    assert (a ∈ filter (fun x => x = a) (authorizers (traces st'))) as Hf.
    { apply list_elem_of_filter. split; [done|]. apply list_elem_of_bind. by exists t. }
    destruct (filter _ _); [by apply elem_of_nil in Hf|cbn; lia]. }
  unfold u64 in Ha. set (n := times a _) in *. set (x := auth_of _ a) in *.
  assert (Hz : ((x + n) - x) mod 2 ^ 64 = 0) by (rewrite Zminus_mod, <- Ha, Z.sub_diag; done).
  rewrite Z.add_simpl_l, Z.mod_small in Hz by lia. lia.
Qed.

(** C15. The traces of a transaction that succeeds tell where each comes from: its
    ordinal is its place, and it has a receipt; it is an action of the
    transaction, or was created by one before it, and names as ancestor that one
    or, where it was a notification, the ancestor of that; a notification is of
    the creator's action; and no account is notified of one action twice. *)
Theorem action_traces_wellformed apply_cf delay cfas actions (st st' : state_t) :
  exec sha checktime cfg max_inline_action_depth find_apply_handler wasm_apply apply_cf delay cfas actions st = Some (Ok st') ->
  traces st = [] -> vsize (traces st') < 2 ^ 32 ->
  (forall o t, trace_at (traces st') o t -> at_action_ordinal t = o /\ is_Some (at_receipt t) /\ origin (traces st') o t) /\
  (forall o o' t t', trace_at (traces st') o t -> trace_at (traces st') o' t' -> is_notification t = true -> is_notification t' = true ->
     closest t = closest t' -> at_receiver t = at_receiver t' -> o = o').
Proof.
  intros E Hnil Hb. destruct (exec_order _ _ _ _ _ _ E Hnil Hb) as (st0 & L & _ & Hok & Hr & Hp & _). split; [|apply Hok].
  intros o t Ht. split_and!; [by eapply tk_ordinal| |by apply tk_origin].
  assert (o ∈ L) as [k Hk]%list_elem_of_lookup.
  { rewrite Hp. apply list_elem_of_fmap. exists (Z.to_nat o). rewrite elem_of_seq. apply trace_at_bound in Ht. unfold vsize in Ht. lia. }
  destruct (rn_done _ _ _ _ Hr k o Hk) as (t' & r & Ht' & E' & _). rewrite (trace_at_inj _ _ _ _ Ht Ht'), E'. by eexists.
Qed.
End Execution.

(** ** A transaction *)

(** Contract 5 is called by account 9; it notifies 9, sends an inline action and a
    context-free one to itself.  A second action has a native handler that creates
    account 11. *)
Definition example_config (read_only : bool) : exec_config :=
  ExecConfig (AuthConfig 0 6 false) true true true true true false false false false read_only false 0 (AccessLists [] [] ∅ ∅ ∅).
Definition example_db : auth_db bool :=
  AuthDb {[5; 9]} ∅ [PermissionObject 1 0 0 9 3 0 (Authority 1 [] [] [])] 2 ∅ 0 ∅ 0.
Definition example_world : world bool unit :=
  World example_db {[5 := AccountMetadata 0 0 1 1 (Sha256 1 1 1 1); 9 := AccountMetadata 0 0 0 0 sha256_zero]} 100 tt.
Definition example_start : trx_state bool unit := TrxState example_world [] (ActionDigests (Some []) (Some [])).
Definition create_account (c : apply_context) (w : world bool unit) : result (world bool unit * gmap Z Z) :=
  match w_metadata w !! 11 with
  | Some _ => Err account_name_exists_exception
  | None => mret (with_metadata w (<[11 := AccountMetadata 0 0 0 0 sha256_zero]> (w_metadata w)), {[9 := 2048]})
  end.
Definition example_natives (receiver account name : Z) : option (apply_context -> world bool unit -> result (world bool unit * gmap Z Z)) :=
  if (receiver =? 5) && (account =? 5) && (name =? 7) then Some create_account else None.

Lemma example_natives_receiver r a n h : example_natives r a n = Some h -> r = a.
Proof. unfold example_natives. destruct (_ && _) eqn:E; [|done]. lia. Qed.
Lemma example_natives_accounts r a n h c w w' d : example_natives r a n = Some h -> h c w = Ok (w', d) -> keeps_accounts w w'.
Proof.
  unfold example_natives. destruct (_ && _); [|done]. intros [= <-]. unfold create_account. destruct (w_metadata w !! 11) as [m|] eqn:Em; [done|].
  intros E. apply Ok_inj in E. injection E as <- _.
  assert (forall x, <[11 := AccountMetadata 0 0 0 0 sha256_zero]> (w_metadata w) !! x = Some (AccountMetadata 0 0 0 0 sha256_zero) /\ x = 11 \/
    <[11 := AccountMetadata 0 0 0 0 sha256_zero]> (w_metadata w) !! x = w_metadata w !! x) as Hx.
  { intros x. destruct (decide (x = 11)) as [->|]; [left; by rewrite lookup_insert_eq|right; by rewrite lookup_insert_ne]. }
  constructor; cbn; try done.
  - rewrite dom_insert_L. set_solver.
  - by rewrite map_size_insert_None.
  - intros x. unfold recv_of. cbn. destruct (Hx x) as [[-> ->]| ->]; [by rewrite Em|done].
  - intros x. unfold auth_of. cbn. destruct (Hx x) as [[-> ->]| ->]; [by rewrite Em|done].
Qed.

Definition example_code (auths : list permission_level) (h : sha256) (c : apply_context) (l : list action_trace) (d : gmap Z Z) (w : world bool unit)
    : result (code_output unit) :=
  mret (CodeOutput tt ∅
    (if act_name (ac_act c) =? 1 then [notify 9; send_inline (Action 5 2 auths []); send_context_free_inline (Action 5 3 [] [])] else []) [] d).
Definition example_exec (read_only : bool) (auths : list permission_level) : bounded (trx_state bool unit) :=
  exec (fun _ => sha256_zero) (fun _ => mret tt) (example_config read_only) (fun _ => 4) example_natives (example_code auths) true 0 []
    (if read_only then [Action 5 1 [] []] else [Action 5 1 [PermissionLevel 9 3] []; Action 5 7 [PermissionLevel 9 3] []]) example_start.
Definition example_result (read_only : bool) (auths : list permission_level) : trx_state bool unit :=
  match example_exec read_only auths with Some (Ok st) => st | _ => example_start end.

Lemma actions_run_in_order_witness :
  exists L, all_in_order (ts_action_traces (example_result false [])) [1; 2] L /\ L ≡ₚ [1; 2; 3; 4; 5] /\
    (u64 (w_global_action_sequence (ts_world (example_result false []))) = 105).
Proof.
  destruct (actions_run_in_order (fun _ => sha256_zero) (fun _ => mret tt) (example_config false) (fun _ => 4) example_natives (example_code [])
    example_natives_receiver example_natives_accounts true 0 [] [Action 5 1 [PermissionLevel 9 3] []; Action 5 7 [PermissionLevel 9 3] []] example_start (example_result false [])
    ltac:(vm_compute; reflexivity) eq_refl ltac:(vm_compute; reflexivity)) as (L & Hord & Hp & _ & [Hg _] & _).
  exists L. split; [exact Hord|]. split; [exact Hp|]. rewrite Hg. vm_compute. reflexivity.
Defined.

(** The fourth trace is the inline action, which trace 1 created. *)
Lemma action_traces_wellformed_witness :
  exists t, trace_at (ts_action_traces (example_result false [])) 4 t /\ at_creator_action_ordinal t = 1 /\
    at_action_ordinal t = 4 /\ is_Some (at_receipt t).
Proof.
  destruct (action_traces_wellformed (fun _ => sha256_zero) (fun _ => mret tt) (example_config false) (fun _ => 4) example_natives (example_code [])
    example_natives_receiver example_natives_accounts true 0 [] [Action 5 1 [PermissionLevel 9 3] []; Action 5 7 [PermissionLevel 9 3] []] example_start (example_result false [])
    ltac:(vm_compute; reflexivity) eq_refl ltac:(vm_compute; reflexivity)) as [Hone _].
  destruct (trace_at_exists (ts_action_traces (example_result false [])) 4) as [t Ht]; [vm_compute; split; [reflexivity|discriminate]|].
  destruct (Hone 4 t Ht) as (Eo & Er & _). exists t. split; [exact Ht|]. split; [|split; [exact Eo|exact Er]].
  destruct Ht as [_ Et]. vm_compute in Et. injection Et as <-. reflexivity.
Defined.

Lemma actions_terminate_witness : example_exec false [] <> None.
Proof.
  unfold example_exec. cbv iota. apply (actions_terminate (fun _ => sha256_zero) (fun _ => mret tt) (example_config false) (fun _ => 4) example_natives (example_code [])
    example_natives_receiver example_natives_accounts true 0 [] [Action 5 1 [PermissionLevel 9 3] []; Action 5 7 [PermissionLevel 9 3] []] example_start ltac:(intros; lia)).
Defined.

(** Account 9 authorizes nothing; code of contract 5 names it in an action. *)
Lemma read_only_writes_authorizations_witness :
  example_exec true [PermissionLevel 9 3] = Some (Ok (example_result true [PermissionLevel 9 3])) /\
  u64 (auth_of (ts_world (example_result true [PermissionLevel 9 3])) 9) = 1 /\
  (forall a, recv_of (ts_world (example_result true [PermissionLevel 9 3])) a = recv_of example_world a).
Proof.
  destruct (read_only_writes_authorizations (fun _ => sha256_zero) (fun _ => mret tt) (example_config true) (fun _ => 4) example_natives
    (example_code [PermissionLevel 9 3]) example_natives_receiver example_natives_accounts true 0 [] [Action 5 1 [] []] example_start
    (example_result true [PermissionLevel 9 3]) ltac:(vm_compute; reflexivity) eq_refl ltac:(vm_compute; reflexivity) eq_refl) as (_ & Hr & Ha & _).
  split; [vm_compute; reflexivity|]. split; [|exact Hr]. rewrite (Ha 9). vm_compute. reflexivity.
Defined.
